(* ===== verification/_CoqProject ===== *)
-Q . S2P
Prelude.v
Intset.v
Dict.v
DictInv.v
DictOps.v
DictLife.v
DictScan.v
Util.v
Glob.v
Listpack.v
ListpackEnc.v
ListpackOps.v
ListpackMod.v
ListpackBulk.v
ListpackVal.v
Zskiplist.v
ZslInv.v
ZslIns.v
ZslDel.v
ZslOps.v
ZslRange.v
ZslDelRange.v
Zzl.v
ZzlInv.v
ZzlRange.v
ZzlOps.v
ZzlRefine.v
ScoreArith.v
Zset.v
ZsetInv.v
ZsetConv.v
ZsetAdd.v
ZsetOps.v
Crc.v
CrcEquiv.v
CrcOk.v
Tset.v
TsetInv.v
TsetConv.v
TsetOps.v
TsetCmd.v
TsetAlg.v
TsetDiff.v
TsetKeys.v
TsetRefine.v
Lzf.v
LzfOk.v
LzfEnc.v
Rio.v
Rdb.v
RdbOk.v
RdbObj.v
RdbBlob.v
RdbLoad.v
RdbObjOk.v
RdbDump.v
RdbSafe.v
RdbTheorems.v
Sds.v
Update.v
Resp.v
RespOk.v
RespRun.v
RespSafe.v
Multi.v
MultiInv.v
MultiStep.v
MultiExec.v
MultiRun.v
