(* ===== verification/Prelude.v ===== *)
(** * Verification of Redis 7.2.3: data structures, dumps, requests and transactions

The repository vendors the sources of Redis (src/redis/redis-7.2.3/src), an in-memory store.
This development models the data structures that hold its values, with the commands on sets and the
serialisation of values, and proves that each of them implements the abstract object it stands for; and it models the way of
a command into the server, from the bytes of a connection to its execution inside or outside a transaction.

** The program and its parts

A Redis value is kept in one of several encodings.  A small set of integers is an _intset_
(intset.c), a small list, hash or sorted set is a _listpack_ (listpack.c), both one block of
memory; larger values are hash tables (dict.c) and skip lists (t_zset.c), which are linked
structures.  The keyspace itself is a hash table.  The structures meet in util.c, whose number
conversions decide how an element is stored, in t_zset.c, where a sorted set is a hash
table and a skip list over the same members, and in t_set.c, where a set is an intset, a listpack or a
hash table and the commands combine sets of different encodings.  A value leaves the process through
rdb.c, which writes it to a stream (rio.c) and compresses long strings (lzf_c.c, lzf_d.c);
DUMP and RESTORE (cluster.c) add a version and a checksum (crc64.c).

A command comes in through networking.c, which collects the bytes of a connection in a buffer, splits them into
arguments (sds.c for the lines that people type) and calls processCommand (server.c); a replica hands the stream of
its master on from the same buffer.  processCommand queues the command when the client is in a transaction (multi.c), else it executes
it; every change of a key (db.c) tells the clients that watch it, and EXEC refuses to run for a client that was told.

** Files

- Prelude.v: machine integers as [Z] with explicit wrap-around ([uwrap], [swrap]), blocks of
  memory as lists of bytes with bounds-checked accesses, little-endian numbers.
- Intset.v (intset.c): the block of bytes of an intset and every operation on it; an intset
  denotes a [gset Z].
- Dict.v (dict.c, dict.h): the two tables, chains with the three kinds of entries, resizing and
  incremental rehashing, lookup, insertion, deletion, two-phase unlink, clearing, iterators.
  DictInv.v has the invariant and that rehashing preserves the contents, DictOps.v the refinement of
  finite maps, DictLife.v resizing, clearing and iterators, DictScan.v [dictScan] with its
  reversed cursor.
- Util.v, Glob.v (util.c): conversions between numbers and strings, memory sizes, and the glob
  matcher against a reference semantics of patterns.
- Listpack.v (listpack.c): encodings, traversal, search, insertion, deletion, merging and
  validation on bytes.  ListpackEnc.v decodes one entry, ListpackOps.v relates a block to
  the list of its elements and covers the reading operations, ListpackMod.v and ListpackBulk.v the
  modifications, ListpackVal.v the validation of untrusted blocks.
- Zskiplist.v (t_zset.c, sdscmp of sds.c, structures of server.h): the skip list with spans in a heap of nodes, ranks,
  ranges of scores and members, deletion of ranges.  ZslInv.v has the order of the elements, the
  invariant and the search, ZslIns.v insertion, ZslDel.v deletion, ZslOps.v the refinement of finite
  maps and the invariant over histories of calls, ZslRange.v ranks and ranges, ZslDelRange.v the deletion of
  ranges together with the dictionary.
- Zzl.v (t_zset.c, d2string and double2ll of util.c): the listpack of a small sorted set, members and scores alternating.
  ZzlInv.v relates the block to a map up to the sign of zero, ZzlRange.v has the ranges,
  ZzlOps.v search, insertion and deletion, ZzlRefine.v the refinement.
- Zset.v (t_zset.c, htNeedsResize of server.c, constructors of object.c): the sorted set object in its two encodings, with
  the conversions.  ScoreArith.v has the addition of doubles, ZsetInv.v what an object stands
  for, ZsetConv.v the conversions, ZsetAdd.v addition with its flags, ZsetOps.v deletion,
  scores, ranks and histories of calls.
- Crc.v (crc16.c, crc64.c, crcspeed.c, keyHashSlot of cluster.c): the checksums, from tables and bit by bit, on both byte
  orders, and the cluster slot of a key.  CrcEquiv.v compares the routines with a shift
  register, CrcOk.v has what they promise.
- Tset.v (t_set.c): the set object with its iterators, additions, removals and conversions; TsetCmd.v: the commands over a
  keyspace (SADD, SREM, SMOVE, SISMEMBER, SMISMEMBER, SCARD, SINTER, SINTERCARD, SUNION, SDIFF and their STORE forms).
  TsetInv.v says what an object stands for and how iteration visits it, TsetConv.v has the
  conversions, TsetOps.v the operations on one object, TsetAlg.v intersection and union, TsetDiff.v the two
  algorithms of the difference, TsetKeys.v the keyspace as a finite map of sets, TsetRefine.v the theorems.
- Lzf.v (lzf_c.c, lzf_d.c): compression and decompression on blocks.  LzfOk.v has the format as a relation and the
  decompressor, LzfEnc.v the compressor.
- Rio.v (rio.h, rio.c): streams over a record of backend functions, the buffer backend, and a small
  monad for functions that use a stream and return early on errors.
- Rdb.v (rdb.c, object.c): lengths, integers and strings; RdbObj.v (rdb.c, object.c, cluster.c): values of the types string and
  set, the validation of listpacks without duplicates, the payload of DUMP, its check and its loading by RESTORE.  RdbOk.v proves
  the formats of strings, RdbBlob.v covers the compact encodings as strings, RdbLoad.v the filling
  of a set with its conversions, RdbObjOk.v values, RdbDump.v the payload, RdbSafe.v loading from arbitrary bytes,
  RdbTheorems.v the theorems.
- Sds.v (sds.c): substrings, trimming, splitting and joining, quoting, and the splitting of lines into arguments.
- Update.v: assignment to a field of a record, [r <| f := v |>].
- Resp.v (networking.c): a client with its query buffer and the state of its parser, both kinds of requests, the loop that
  executes commands, the reading from a connection.  RespOk.v has the request format, with the function of aof.c that writes it,
  and the parser on a complete or partial request; RespRun.v runs streams of commands that arrive in parts; RespSafe.v runs
  arbitrary bytes.
- Multi.v (multi.c, parts of db.c, networking.c, object.c and server.c): clients in transactions, the watched keys as structures
  in a heap that are linked in two lists, the keyspace with times of expiration, and the events of a server.  MultiInv.v has the
  invariant of the lists and the queues with watching, unwatching and touching; MultiStep.v the changes of the keyspace; MultiExec.v what commands
  do to the keyspace alone, and EXEC; MultiRun.v the histories and the theorems.

Definitions keep the names of the C functions; an auxiliary definition that models a loop has
the name of its function and the suffix [_loop].

** Conventions

A definition returns [None] where C would be undefined (an access outside a block, a dangling
pointer), where an assertion fails and where the fuel of a loop runs out; a theorem that an
operation returns [Some] therefore also states memory safety, that no assertion fails, and
termination.  NULL and error codes are values inside the outer option.  Integers have the
width of the C type wherever a value can leave its range.  Fuel is the size of the structure
that a loop traverses (the length of the block, the number of buckets or of nodes), and the
theorems show that it is enough.  What the code obtains from outside (random numbers, the
clock, the contents of fresh memory, hash functions and the other functions of a [dictType]) is an argument;
the laws a client may rely on are type classes ([DictTypeOk], [SetDictType], [HashDictType], [ScoreDict],
[ScoreText], [RandomLevels], [QsortOk], [RioWriter], [RioReader], [RioShort], [CksumApp]) with instances.  The execution of a command is
a parameter of the reading of requests, with the classes [CommandRuns] and [CommandSafe]; what a command does to the keyspace is a
parameter of the transactions, as a list of reads, writes, deletions, flushes and swaps.

** What is shown

- Refinement: every operation of intsets, dictionaries, listpacks, skip lists, sorted set objects and set
  objects implements the operation of the finite set, map, list or ordered map it stands for, on every
  branch, with the results the code reports; the commands on sets refine commands on a finite map of
  sets, over every sequence of them.
- Invariants: the structures stay well-formed, over every history of calls for skip lists and for
  sorted set objects, whatever encoding they are in.
- Completeness and termination of a scan under concurrent resizing; termination of timed
  rehashing; iterators visit every entry once.
- Round trips: listpack entries, decimal integers, ranks and elements of a skip list, compressed strings, strings
  and sets through a stream, DUMP and RESTORE.
- Equivalence of the backtracking glob matcher with the semantics of patterns, and of the table-driven
  CRC-64 with the bit by bit one, and of the two algorithms of SDIFF; bursts of damage change the checksum; the slot of a key is that of its hash tag.
- Requests: commands that are written as a stream and arrive in parts of any size are executed, each once and in order, and
  the client is at rest after the last byte; a replica hands on exactly what it applied.  Arbitrary bytes of a client are read without an access
  outside a buffer, an overflow or a failed assertion.
- Transactions: the two lists of every watched key agree over every history of events and nothing is used after it is freed; EXEC runs exactly the
  commands that were queued, or none; a change or an expiration of a watched key between WATCH and EXEC stops the transaction.  The last theorem
  excludes SWAPDB, and [watch_missed_after_swap] shows why.
- Safety: integrity checks of untrusted intsets and listpacks accept exactly, or only, what can
  be traversed inside the block; the decompressor and RESTORE stay inside their blocks on any input, and what
  RESTORE returns is well formed; deletion and destruction of skip lists free what they should.
- Errors: refused bounds of ranges, values out of range, keys that are there, failed allocations and writes, damaged
  payloads.

** Not modelled

Files, sockets, the event loop and replies, processes and threads, replication and
clustering, scripting, modules and the command line tools; the allocator and lazy freeing; floating
point conversions (strtod, fpconv), which are library code and parameters of the sorted
sets.  Of t_set.c the random commands (SPOP, SRANDMEMBER) are left out, of rdb.c the
types other than strings and sets and the sections of a file, of t_zset.c the commands, of processCommand everything before the
decision to queue or to execute, of db.c the values and the commands other than those that matter to watched keys.  The commands over
the other types (t_string.c, t_hash.c, t_list.c, t_stream.c), quicklist.c and rax.c are not
modelled.  The JavaScript application of the repository is outside
the language of this development. *)

From stdpp Require Export base numbers list list_numbers option gmap sorting.
From Stdlib Require Export ZArith Lia.
From Stdlib Require Ascii String.
Export String.StringSyntax.

Local Open Scope Z_scope.

(** ** Notation *)

Declare Scope redis_scope.
Delimit Scope redis_scope with redis.
Notation "'zlen' l" := (Z.of_nat (length l)) (at level 10, l at level 9) : redis_scope.
Open Scope redis_scope.

(** ** Tactics *)

(** Steps over a bind whose first computation is known. *)
Ltac bind_simpl := cbn [mbind option_bind].

(** A pointer that the code asserts, or assumes, not to be NULL. *)
Definition not_null {A} (r : option (option A)) : option A := p ← r; p.

(** ** Machine integers *)

Section machine_integers.

(** Conversion to an unsigned integer of [w] bits. *)
Definition uwrap (w z : Z) : Z := z `mod` 2 ^ w.

(** Conversion to a two's complement integer of [w] bits. *)
Definition swrap (w z : Z) : Z := (z + 2 ^ (w - 1)) `mod` 2 ^ w - 2 ^ (w - 1).

End machine_integers.

Abbreviation u8 := (uwrap 8).
Abbreviation u16 := (uwrap 16).
Abbreviation u32 := (uwrap 32).
Abbreviation u64 := (uwrap 64).
Abbreviation s8 := (swrap 8).
Abbreviation s16 := (swrap 16).
Abbreviation s32 := (swrap 32).
Abbreviation s64 := (swrap 64).

Definition INT16_MIN : Z := -32768.
Definition INT16_MAX : Z := 32767.
Definition INT32_MIN : Z := -2147483648.
Definition INT32_MAX : Z := 2147483647.
Definition UINT32_MAX : Z := 4294967295.
Definition LLONG_MIN : Z := -9223372036854775808.
Definition LLONG_MAX : Z := 9223372036854775807.
Definition ULLONG_MAX : Z := 18446744073709551615.
Definition SIZE_MAX : Z := 18446744073709551615.

(** The values of a two's complement integer of [w] bits. *)
Definition in_srange (w z : Z) : Prop := - 2 ^ (w - 1) ≤ z < 2 ^ (w - 1).
(** The values of an unsigned integer of [w] bits. *)
Definition in_urange (w z : Z) : Prop := 0 ≤ z < 2 ^ w.

(** Evaluates the powers of two with literal exponents before calling [lia]. *)
Ltac closed_exponent e :=
  lazymatch e with
  | ?a + ?b => closed_exponent a; closed_exponent b
  | ?a - ?b => closed_exponent a; closed_exponent b
  | ?a * ?b => closed_exponent a; closed_exponent b
  | _ => lazymatch isZcst e with true => idtac end
  end.

Ltac pow2_lit :=
  repeat match goal with
  | |- context [2 ^ ?e] =>
      closed_exponent e; let v := eval vm_compute in (2 ^ e) in change (2 ^ e) with v
  | H : context [2 ^ ?e] |- _ =>
      closed_exponent e; let v := eval vm_compute in (2 ^ e) in change (2 ^ e) with v in H
  end.

Ltac range_lia :=
  unfold in_srange, in_urange, INT16_MIN, INT16_MAX, INT32_MIN, INT32_MAX, UINT32_MAX,
    LLONG_MIN, LLONG_MAX, ULLONG_MAX, SIZE_MAX in *;
  pow2_lit; lia.

Lemma uwrap_small w z : in_urange w z → uwrap w z = z.
Proof. intros H. apply Z.mod_small, H. Qed.

Lemma uwrap_range w z : 0 ≤ w → in_urange w (uwrap w z).
Proof. intros Hw. apply Z.mod_pos_bound. by apply Z.pow_pos_nonneg. Qed.

Lemma swrap_small w z : 0 < w → in_srange w z → swrap w z = z.
Proof.
  unfold in_srange, swrap. intros Hw H.
  assert (2 ^ w = 2 * 2 ^ (w - 1)) as Hp.
  { rewrite <- Z.pow_succ_r by lia. f_equal. lia. }
  rewrite Z.mod_small; lia.
Qed.

Lemma swrap_range w z : 0 < w → in_srange w (swrap w z).
Proof.
  unfold in_srange, swrap. intros Hw.
  assert (2 ^ w = 2 * 2 ^ (w - 1)) as Hp.
  { rewrite <- Z.pow_succ_r by lia. f_equal. lia. }
  assert (0 < 2 ^ w) by (apply Z.pow_pos_nonneg; lia).
  pose proof (Z.mod_pos_bound (z + 2 ^ (w - 1)) (2 ^ w)). lia.
Qed.

Lemma swrap_uwrap w z : 0 < w → swrap w (uwrap w z) = swrap w z.
Proof.
  intros Hw. unfold swrap, uwrap.
  by rewrite Zplus_mod_idemp_l.
Qed.

(** The bits of a word. *)
Lemma testbit_range n z i : 0 ≤ n → in_urange n z → n ≤ i → Z.testbit z i = false.
Proof.
  intros Hn Hz Hi. rewrite <- (uwrap_small n z Hz). unfold uwrap. by apply Z.mod_pow2_bits_high.
Qed.

Lemma uwrap_testbit w z i : 0 ≤ w → 0 ≤ i → Z.testbit (uwrap w z) i = bool_decide (i < w) && Z.testbit z i.
Proof. intros Hw Hi. unfold uwrap. case_bool_decide; [by rewrite Z.mod_pow2_bits_low by lia|by rewrite Z.mod_pow2_bits_high by lia]. Qed.

(** The bits of a 64-bit word one by one. *)
Ltac bit_cases i tac :=
  let n := fresh "n" in
  assert (∃ n : nat, i = Z.of_nat n ∧ (n < 64)%nat) as [n [-> ?]] by (exists (Z.to_nat i); lia);
  do 64 (destruct n as [|n]; [tac|]); lia.

Lemma uwrap_uwrap w z : uwrap w (uwrap w z) = uwrap w z.
Proof. apply Zmod_mod. Qed.

(** Ranges of machine integers. *)
Create HintDb redis.
#[export] Hint Resolve uwrap_range swrap_range : redis.
#[export] Hint Extern 2 (in_urange _ _) => range_lia : redis.
#[export] Hint Extern 2 (in_srange _ _) => range_lia : redis.

(** ** Byte buffers

A block of memory is the list of its bytes.  An access outside the block is undefined
behaviour in C: it is [None] here, so that a theorem stating that an operation returns
[Some] also states that the operation stays inside its block. *)

Abbreviation bytes := (list Z).

Definition byte_ok (b : Z) : Prop := 0 ≤ b < 256.
Definition bytes_ok (bs : bytes) : Prop := Forall byte_ok bs.

Definition in_block (c : bytes) (off n : Z) : Prop :=
  0 ≤ off ∧ 0 ≤ n ∧ off + n ≤ zlen c.

Global Instance in_block_dec c off n : Decision (in_block c off n).
Proof. unfold in_block. apply _. Defined.

(** [memcpy] out of a block. *)
Definition mem_read (c : bytes) (off n : Z) : option bytes :=
  if decide (in_block c off n)
  then Some (take (Z.to_nat n) (drop (Z.to_nat off) c)) else None.

(** [memcpy] into a block. *)
Definition mem_write (c : bytes) (off : Z) (xs : bytes) : option bytes :=
  if decide (in_block c off (zlen xs))
  then Some (take (Z.to_nat off) c ++ xs ++ drop (Z.to_nat off + length xs) c) else None.

(** [memmove] inside a block. *)
Definition mem_move (c : bytes) (dst src n : Z) : option bytes :=
  xs ← mem_read c src n; mem_write c dst xs.

(** [realloc]: the common prefix is kept, the bytes gained are unspecified ([junk]). *)
Definition mem_realloc (junk : nat → Z) (c : bytes) (n : Z) : bytes :=
  take (Z.to_nat n) c ++ (junk <$> seq (length c) (Z.to_nat n - length c)).

(** One byte. *)
Definition mem_get (c : bytes) (off : Z) : option Z :=
  if decide (0 ≤ off) then c !! Z.to_nat off else None.

(** The bytes of a string literal. *)
Definition str (s : String.string) : bytes :=
  (λ a, Z.of_N (Ascii.N_of_ascii a)) <$> String.list_ascii_of_string s.
Arguments str s%_string_scope.

(** The bytes [xs] are stored at offset [off]. *)
Definition bytes_at (c : bytes) (off : Z) (xs : bytes) : Prop :=
  0 ≤ off ∧ ∀ (j : nat) x, xs !! j = Some x → c !! (Z.to_nat off + j)%nat = Some x.

Lemma bytes_at_read c off xs n :
  bytes_at c off xs → zlen xs = n → 0 < n → mem_read c off n = Some xs.
Proof.
  intros [Hoff Hat] <- Hlen.
  assert (∃ y, xs !! (length xs - 1)%nat = Some y) as [y Hy].
  { apply lookup_lt_is_Some. lia. }
  apply Hat in Hy. apply lookup_lt_Some in Hy.
  unfold mem_read, in_block. rewrite decide_True by lia. f_equal.
  apply list_eq. intros i. rewrite Nat2Z.id.
  destruct (decide (i < length xs)%nat) as [Hi|Hi].
  - rewrite lookup_take_lt, lookup_drop by done.
    destruct (lookup_lt_is_Some_2 xs i Hi) as [x Hx]. rewrite Hx. by apply Hat.
  - rewrite lookup_take_ge, lookup_ge_None_2 by lia. done.
Qed.

Lemma mem_write_Some c off xs :
  in_block c off (zlen xs) → is_Some (mem_write c off xs).
Proof. intros H. unfold mem_write. rewrite decide_True by done. eauto. Qed.

Lemma mem_write_lookup c off xs c' (i : nat) :
  mem_write c off xs = Some c' →
  c' !! i = if decide (Z.to_nat off ≤ i < Z.to_nat off + length xs)%nat
            then xs !! (i - Z.to_nat off)%nat else c !! i.
Proof.
  unfold mem_write. case_decide as Hb; [|done]. intros [= <-]. unfold in_block in Hb.
  case_decide.
  - rewrite lookup_app_r by (rewrite length_take; lia).
    rewrite length_take_le by lia. by rewrite lookup_app_l by lia.
  - destruct (decide (i < Z.to_nat off)%nat).
    + by rewrite lookup_app_l, lookup_take_lt by (rewrite ?length_take; lia).
    + rewrite lookup_app_r by (rewrite length_take; lia).
      rewrite length_take_le by lia.
      rewrite lookup_app_r by lia. rewrite lookup_drop. f_equal. lia.
Qed.

Lemma mem_write_length c off xs c' :
  mem_write c off xs = Some c' → length c' = length c.
Proof.
  unfold mem_write. case_decide as Hb; [|done]. intros [= <-]. unfold in_block in Hb.
  rewrite !length_app, length_drop, length_take. lia.
Qed.

Lemma mem_write_block c off xs c' :
  mem_write c off xs = Some c' → in_block c off (zlen xs).
Proof. unfold mem_write. by case_decide. Qed.

Lemma bytes_at_write_same c off xs c' :
  mem_write c off xs = Some c' → bytes_at c' off xs.
Proof.
  intros Hw. split.
  - by apply mem_write_block in Hw as [? _].
  - intros j x Hx. rewrite (mem_write_lookup _ _ _ _ _ Hw).
    apply lookup_lt_Some in Hx as Hlt. rewrite decide_True by lia.
    rewrite <- Hx. f_equal. lia.
Qed.

Lemma bytes_at_write_other c off xs c' o ys :
  mem_write c off xs = Some c' →
  bytes_at c o ys →
  o + zlen ys ≤ off ∨ off + zlen xs ≤ o →
  bytes_at c' o ys.
Proof.
  intros Hw [Ho Hat] Hdisj. split; [done|]. intros j x Hx.
  rewrite (mem_write_lookup _ _ _ _ _ Hw). apply mem_write_block in Hw as [? _].
  apply lookup_lt_Some in Hx as Hlt. rewrite decide_False by lia. by apply Hat.
Qed.

Lemma mem_move_Some c dst src n :
  in_block c src n → in_block c dst n → is_Some (mem_move c dst src n).
Proof.
  intros Hs Hd. unfold mem_move, mem_read. rewrite decide_True by done. simpl.
  apply mem_write_Some. unfold in_block in *. rewrite length_take, length_drop. lia.
Qed.

Lemma mem_move_length c dst src n c' :
  mem_move c dst src n = Some c' → length c' = length c.
Proof. unfold mem_move. intros (xs & _ & Hw)%bind_Some. by eapply mem_write_length. Qed.

Lemma mem_move_lookup c dst src n c' (i : nat) :
  mem_move c dst src n = Some c' →
  c' !! i = if decide (Z.to_nat dst ≤ i < Z.to_nat dst + Z.to_nat n)%nat
            then c !! (i - Z.to_nat dst + Z.to_nat src)%nat else c !! i.
Proof.
  unfold mem_move. intros (xs & Hr & Hw)%bind_Some.
  rewrite (mem_write_lookup _ _ _ _ _ Hw).
  unfold mem_read in Hr. case_decide as Hb; [|done]. injection Hr as <-. unfold in_block in Hb.
  rewrite length_take, length_drop, Nat.min_l by lia.
  case_decide; [|done].
  rewrite lookup_take_lt, lookup_drop by lia. f_equal. lia.
Qed.

(** The bytes in the moved range. *)
Lemma bytes_at_move_moved c dst src n c' o ys :
  mem_move c dst src n = Some c' → 0 ≤ dst → 0 ≤ src →
  bytes_at c (src + o) ys → 0 ≤ o → o + zlen ys ≤ n →
  bytes_at c' (dst + o) ys.
Proof.
  intros Hm Hdst Hsrc [Ho Hat] Ho' Hn. split; [lia|]. intros j x Hx.
  apply lookup_lt_Some in Hx as Hlt.
  rewrite (mem_move_lookup _ _ _ _ _ _ Hm), decide_True by lia.
  apply Hat in Hx. rewrite <- Hx. f_equal. lia.
Qed.

Lemma bytes_at_move_other c dst src n c' o ys :
  mem_move c dst src n = Some c' →
  bytes_at c o ys → o + zlen ys ≤ dst ∨ dst + n ≤ o →
  0 ≤ n → 0 ≤ dst →
  bytes_at c' o ys.
Proof.
  intros Hm [Ho Hat] Hdisj Hn Hdst. split; [done|]. intros j x Hx.
  apply lookup_lt_Some in Hx as Hlt.
  rewrite (mem_move_lookup _ _ _ _ _ _ Hm), decide_False by lia. by apply Hat.
Qed.

Lemma mem_realloc_length junk c n : 0 ≤ n → zlen (mem_realloc junk c n) = n.
Proof.
  intros Hn. unfold mem_realloc. rewrite length_app, length_take, length_fmap, length_seq. lia.
Qed.

Lemma bytes_at_realloc junk c n o ys :
  bytes_at c o ys → o + zlen ys ≤ n → bytes_at (mem_realloc junk c n) o ys.
Proof.
  intros [Ho Hat] Hn. split; [done|]. intros j x Hx.
  apply lookup_lt_Some in Hx as Hlt. apply Hat in Hx. apply lookup_lt_Some in Hx as Hlt'.
  unfold mem_realloc. rewrite lookup_app_l by (rewrite length_take; lia).
  by rewrite lookup_take_lt by lia.
Qed.

Lemma bytes_at_app c o xs ys :
  bytes_at c o (xs ++ ys) ↔ bytes_at c o xs ∧ bytes_at c (o + zlen xs) ys.
Proof.
  split.
  - intros [Ho Hat]. split; (split; [lia|]).
    + intros j x Hx. apply Hat. by apply lookup_app_l_Some.
    + intros j x Hx. replace (Z.to_nat (o + zlen xs) + j)%nat
        with (Z.to_nat o + (length xs + j))%nat by lia.
      apply Hat. rewrite lookup_app_r by lia. rewrite <- Hx. f_equal. lia.
  - intros [[Ho Hx] [Ho' Hy]]. split; [done|]. intros j z Hz.
    apply lookup_app_Some in Hz as [Hz|[Hge Hz]]; [by apply Hx|].
    apply Hy in Hz. rewrite <- Hz. f_equal. lia.
Qed.

Lemma bytes_at_mid a xs b : bytes_at (a ++ xs ++ b) (zlen a) xs.
Proof.
  split; [lia|]. intros j x Hx. rewrite Nat2Z.id.
  rewrite lookup_app_r by lia. rewrite lookup_app_l by (apply lookup_lt_Some in Hx; lia).
  rewrite <- Hx. f_equal. lia.
Qed.

(** ** Little-endian integers in memory

The code stores integers in little-endian order on either host: [intrev32ifbe] and the
[memrev*ifbe] macros reverse the bytes on a big-endian one and do nothing otherwise. *)

Definition le_bytes (n z : Z) : bytes := Z_to_little_endian n 8 z.
Definition le_val (bs : bytes) : Z := little_endian_to_Z 8 bs.

Lemma le_bytes_length n z : 0 ≤ n → zlen (le_bytes n z) = n.
Proof. intros Hn. by apply length_Z_to_little_endian. Qed.

Lemma le_bytes_ok n z : 0 ≤ n → bytes_ok (le_bytes n z).
Proof. intros Hn. by apply (Z_to_little_endian_bound n 8 z). Qed.

Lemma le_val_bytes n z : 0 ≤ n → le_val (le_bytes n z) = uwrap (n * 8) z.
Proof. intros Hn. by apply little_endian_to_Z_to_little_endian. Qed.

Lemma le_bytes_val n bs : zlen bs = n → bytes_ok bs → le_bytes n (le_val bs) = bs.
Proof. intros <- Hok. by apply Z_to_little_endian_to_Z. Qed.

Lemma le_val_range bs : bytes_ok bs → in_urange (zlen bs * 8) (le_val bs).
Proof. intros Hok. by apply (little_endian_to_Z_bound 8 bs). Qed.

Lemma swrap_le_val_bytes n w z :
  0 < n → w = n * 8 → in_srange w z → swrap w (le_val (le_bytes n z)) = z.
Proof.
  intros Hn -> Hr. rewrite le_val_bytes, swrap_uwrap by lia. by apply swrap_small; [lia|].
Qed.

Lemma uwrap_swrap w z : 0 < w → uwrap w (swrap w z) = uwrap w z.
Proof.
  intros Hw. unfold uwrap, swrap. rewrite Zminus_mod, Zmod_mod, <- Zminus_mod. f_equal. lia.
Qed.

Lemma le_bytes_uwrap n z : 0 ≤ n → le_bytes n (uwrap (n * 8) z) = le_bytes n z.
Proof.
  intros Hn. rewrite <- le_val_bytes by done.
  apply le_bytes_val; [by apply le_bytes_length|by apply le_bytes_ok].
Qed.

(** The bytes of a signed integer decode to it and encode back to the same bytes. *)
Lemma le_bytes_swrap_val n w bs :
  0 < n → w = n * 8 → zlen bs = n → bytes_ok bs → le_bytes n (swrap w (le_val bs)) = bs.
Proof.
  intros Hn -> Hlen Hok. rewrite <- le_bytes_uwrap, uwrap_swrap, le_bytes_uwrap by lia.
  by apply le_bytes_val.
Qed.

Lemma mem_read_bytes_ok c off n bs : mem_read c off n = Some bs → bytes_ok c → bytes_ok bs.
Proof.
  unfold mem_read. case_decide; [|done]. intros [= <-] Hok. by apply Forall_take, Forall_drop.
Qed.

Lemma mem_read_length c off n bs : mem_read c off n = Some bs → zlen bs = n.
Proof.
  unfold mem_read. case_decide as Hb; [|done]. intros [= <-]. unfold in_block in Hb.
  rewrite length_take, length_drop. lia.
Qed.

Lemma mem_read_Some c off n : in_block c off n → is_Some (mem_read c off n).
Proof. intros H. unfold mem_read. rewrite decide_True by done. eauto. Qed.

Lemma mem_read_bytes_at c off n bs : mem_read c off n = Some bs → bytes_at c off bs.
Proof.
  unfold mem_read. case_decide as Hb; [|done]. intros [= <-]. unfold in_block in Hb.
  split; [lia|]. intros j x Hj. apply lookup_take_Some in Hj as [Hj _].
  by rewrite lookup_drop in Hj.
Qed.

(** Blocks written as concatenations. *)
Lemma mem_get_suffix a b i : 0 ≤ i → mem_get (a ++ b) (zlen a + i) = mem_get b i.
Proof.
  intros Hi. unfold mem_get. rewrite !decide_True by lia. rewrite lookup_app_r by lia. f_equal. lia.
Qed.

Lemma mem_get_here a x b : mem_get (a ++ x :: b) (zlen a) = Some x.
Proof. rewrite <- (Z.add_0_r (zlen a)), mem_get_suffix by lia. done. Qed.

Lemma mem_get_cons1 x y b : mem_get (x :: y :: b) 1 = Some y.
Proof. done. Qed.

Lemma mem_read_suffix a b off n : 0 ≤ off → mem_read (a ++ b) (zlen a + off) n = mem_read b off n.
Proof.
  intros Hoff. pose proof (length_app a b) as Hl. unfold mem_read, in_block.
  destruct (decide (0 ≤ off ∧ 0 ≤ n ∧ off + n ≤ zlen b)).
  - rewrite decide_True by lia. do 2 f_equal. rewrite Z2Nat.inj_add, Nat2Z.id by lia.
    by rewrite drop_app_add.
  - by rewrite decide_False by lia.
Qed.

Lemma mem_read_mid a x b off n : off = zlen a → n = zlen x → mem_read (a ++ x ++ b) off n = Some x.
Proof.
  intros -> ->. unfold mem_read, in_block. rewrite decide_True by (rewrite !length_app; lia).
  by rewrite !Nat2Z.id, drop_app_length, take_app_length.
Qed.

Lemma mem_read_cons1 x s b n : n = zlen s → mem_read (x :: s ++ b) 1 n = Some s.
Proof. intros ->. by apply (mem_read_mid [x] s b). Qed.

Lemma mem_read_cons2 x y s b n : n = zlen s → mem_read (x :: y :: s ++ b) 2 n = Some s.
Proof. intros ->. by apply (mem_read_mid [x; y] s b). Qed.

Lemma mem_write_mid a x b y off :
  off = zlen a → length y = length x → mem_write (a ++ x ++ b) off y = Some (a ++ y ++ b).
Proof.
  intros -> Hl. unfold mem_write, in_block. rewrite decide_True by (rewrite !length_app; lia).
  rewrite !Nat2Z.id, take_app_length, Hl. do 3 f_equal.
  by rewrite (app_assoc a x b), <- length_app, drop_app_length.
Qed.

(** Moving the part [suf] of a block by making or closing a gap before it. *)
Lemma mem_move_gap pre old suf sl k :
  0 ≤ k → zlen pre + k + zlen suf ≤ zlen (pre ++ old ++ suf ++ sl) →
  ∃ J sl', zlen J = k ∧
    mem_move (pre ++ old ++ suf ++ sl) (zlen pre + k) (zlen pre + zlen old) (zlen suf)
      = Some (pre ++ J ++ suf ++ sl').
Proof.
  intros Hk Hle. set (B := pre ++ old ++ suf ++ sl) in *. unfold mem_move.
  assert (mem_read B (zlen pre + zlen old) (zlen suf) = Some suf) as ->.
  { unfold B. rewrite app_assoc. apply mem_read_mid; [rewrite length_app; lia|done]. }
  cbn [mbind option_bind]. unfold mem_write, in_block. rewrite decide_True by lia.
  assert (take (Z.to_nat (zlen pre + k)) B = pre ++ take (Z.to_nat k) (old ++ suf ++ sl)) as ->.
  { unfold B. rewrite take_app, firstn_all2 by lia. do 2 f_equal. lia. }
  eexists (take (Z.to_nat k) (old ++ suf ++ sl)), _. split; [|by rewrite <- app_assoc].
  rewrite length_take. unfold B in Hle. rewrite length_app in Hle. lia.
Qed.

(** Moving [suf] to the left over [old]: what follows it stays where it is. *)
Lemma mem_move_left pre old suf rest :
  ∃ G, zlen G = zlen old ∧
    mem_move (pre ++ old ++ suf ++ rest) (zlen pre) (zlen pre + zlen old) (zlen suf) = Some (pre ++ suf ++ G ++ rest).
Proof.
  exists (drop (length suf) (old ++ suf)). split; [rewrite length_drop, length_app; lia|]. unfold mem_move.
  rewrite (app_assoc pre old), mem_read_mid by (rewrite ?length_app; lia). cbn [mbind option_bind].
  unfold mem_write, in_block. rewrite decide_True by (rewrite !length_app; lia).
  rewrite <- (app_assoc pre old), Nat2Z.id, take_app_length, drop_app_add, (app_assoc old suf rest).
  by rewrite (drop_app_le (old ++ suf)) by (rewrite length_app; lia).
Qed.

Lemma mem_realloc_grow junk c n : zlen c ≤ n → ∃ x, mem_realloc junk c n = c ++ x ∧ zlen (c ++ x) = n.
Proof.
  intros Hn. unfold mem_realloc. rewrite firstn_all2 by lia. eexists. split; [done|].
  rewrite length_app, length_fmap, length_seq. lia.
Qed.

Lemma mem_realloc_shrink junk a b n : zlen a = n → mem_realloc junk (a ++ b) n = a.
Proof.
  intros <-. unfold mem_realloc. rewrite Nat2Z.id, take_app_length.
  replace (length a - length (a ++ b))%nat with 0%nat by (rewrite length_app; lia). by rewrite app_nil_r.
Qed.

(** A number from its low byte and the rest. *)
Lemma hi_lo x : Z.lor (Z.shiftl (Z.shiftr x 8) 8) (Z.land x 0xff) = x.
Proof.
  change 0xff with (Z.ones 8). apply Z.bits_inj'. intros i Hi.
  rewrite Z.lor_spec, Z.shiftl_spec, Z.land_spec, Z.testbit_ones_nonneg by lia.
  destruct (Z.ltb_spec i 8).
  - rewrite Z.testbit_neg_r, andb_true_r by lia. done.
  - rewrite Z.shiftr_spec, andb_false_r, orb_false_r by lia. f_equal. lia.
Qed.

(** Facts about small numbers, by evaluation. *)
Lemma forall_below (k : nat) (P : Z → bool) :
  forallb (λ i, P (Z.of_nat i)) (seq 0 k) = true → ∀ z, 0 ≤ z < Z.of_nat k → P z = true.
Proof.
  rewrite forallb_forall. intros Hall z Hz. specialize (Hall (Z.to_nat z)).
  rewrite Z2Nat.id in Hall by lia. apply Hall, in_seq. lia.
Qed.

(** ** Lists *)

Lemma list_delete_insert_same {A} (l : list A) i x : delete i (<[i := x]> l) = delete i l.
Proof. revert i. induction l as [|y l IH]; intros [|i]; simpl; [done..|]. unfold insert, list_insert in *. simpl. f_equal. apply IH. Qed.
