(* ===== verification/Intset.v ===== *)
(** * intset.c: sorted sets of integers in one block of memory

The model keeps the memory layout of [struct intset]: a header with the width of an
element and their number, and the bytes of the elements.  Every access to the bytes is
bounds checked ([None] when it leaves the block). *)

From S2P Require Import Prelude.

Local Open Scope Z_scope.

(** ** Data *)

(** [struct intset]. *)
Record intset := mk_intset {
  is_encoding : Z;
  is_length : Z;
  is_contents : bytes;
}.

Definition INTSET_ENC_INT16 : Z := 2.
Definition INTSET_ENC_INT32 : Z := 4.
Definition INTSET_ENC_INT64 : Z := 8.

(** [sizeof(intset)]: the two [uint32_t] of the header. *)
Definition sizeof_intset : Z := 8.

(** ** Operations *)

Section operations.

(** The bytes [zrealloc] returns beyond the old size. *)
Context (junk : nat → Z).

Definition _intsetValueEncoding (v : Z) : Z :=
  if decide (v < INT32_MIN ∨ v > INT32_MAX) then INTSET_ENC_INT64
  else if decide (v < INT16_MIN ∨ v > INT16_MAX) then INTSET_ENC_INT32
  else INTSET_ENC_INT16.

Definition _intsetGetEncoded (s : intset) (pos enc : Z) : option Z :=
  if decide (enc = INTSET_ENC_INT64) then
    bs ← mem_read (is_contents s) (pos * 8) 8; Some (s64 (le_val bs))
  else if decide (enc = INTSET_ENC_INT32) then
    bs ← mem_read (is_contents s) (pos * 4) 4; Some (s32 (le_val bs))
  else
    bs ← mem_read (is_contents s) (pos * 2) 2; Some (s16 (le_val bs)).

Definition _intsetGet (s : intset) (pos : Z) : option Z :=
  _intsetGetEncoded s pos (is_encoding s).

Definition set_contents (s : intset) (c : bytes) : intset :=
  mk_intset (is_encoding s) (is_length s) c.
Definition set_length (s : intset) (n : Z) : intset :=
  mk_intset (is_encoding s) n (is_contents s).
Definition set_encoding (s : intset) (e : Z) : intset :=
  mk_intset e (is_length s) (is_contents s).

Definition _intsetSet (s : intset) (pos value : Z) : option intset :=
  set_contents s <$>
    (if decide (is_encoding s = INTSET_ENC_INT64) then
       mem_write (is_contents s) (pos * 8) (le_bytes 8 value)
     else if decide (is_encoding s = INTSET_ENC_INT32) then
       mem_write (is_contents s) (pos * 4) (le_bytes 4 value)
     else
       mem_write (is_contents s) (pos * 2) (le_bytes 2 value)).

Definition intsetNew : intset := mk_intset INTSET_ENC_INT16 0 [].

Definition intsetResize (s : intset) (len : Z) : option intset :=
  let size := u64 (len * is_encoding s) in
  if decide (size ≤ SIZE_MAX - sizeof_intset)
  then Some (set_contents s (mem_realloc junk (is_contents s) size)) else None.

(** The [while(max >= min)] loop: the final [(min, mid, cur)]. *)
Fixpoint intsetSearch_loop (fuel : nat) (s : intset) (value min max mid cur : Z)
    : option (Z * Z * Z) :=
  match fuel with
  | O => None
  | S fuel =>
      if decide (max >= min) then
        let mid := s32 (Z.shiftr (u32 (u32 min + u32 max)) 1) in
        cur ← _intsetGet s mid;
        if decide (value > cur) then intsetSearch_loop fuel s value (s32 (mid + 1)) max mid cur
        else if decide (value < cur) then
          intsetSearch_loop fuel s value min (s32 (mid - 1)) mid cur
        else Some (min, mid, cur)
      else Some (min, mid, cur)
  end.

(** Found flag and [*pos].  33 iterations are enough for 32-bit bounds. *)
Definition intsetSearch (s : intset) (value : Z) : option (bool * Z) :=
  let max := s32 (is_length s - 1) in
  if decide (is_length s = 0) then Some (false, 0)
  else
    vmax ← _intsetGet s max;
    if decide (value > vmax) then Some (false, is_length s)
    else
      vmin ← _intsetGet s 0;
      if decide (value < vmin) then Some (false, 0)
      else
        '(min, mid, cur) ← intsetSearch_loop 33 s value 0 max (-1) (-1);
        if decide (value = cur) then Some (true, u32 mid) else Some (false, u32 min).

(** The [while(length--)] loop, from the last element to the first.  (A negative [int]
    length indexes before the block at once: [intsetUpgradeAndAdd] maps it to [None].) *)
Fixpoint intsetUpgrade_loop (length : nat) (s : intset) (curenc prepend : Z)
    : option intset :=
  match length with
  | O => Some s
  | S length =>
      v ← _intsetGetEncoded s (Z.of_nat length) curenc;
      s ← _intsetSet s (Z.of_nat length + prepend) v;
      intsetUpgrade_loop length s curenc prepend
  end.

Definition intsetUpgradeAndAdd (s : intset) (value : Z) : option intset :=
  let curenc := u8 (is_encoding s) in
  let newenc := _intsetValueEncoding value in
  let length := is_length s in
  let prepend := if decide (value < 0) then 1 else 0 in
  s ← intsetResize (set_encoding s newenc) (u32 (length + 1));
  s ← (if decide (s32 length < 0) then None
       else intsetUpgrade_loop (Z.to_nat (s32 length)) s curenc prepend);
  s ← (if decide (prepend = 1) then _intsetSet s 0 value
       else _intsetSet s (s32 (is_length s)) value);
  Some (set_length s (u32 (is_length s + 1))).

Definition intsetMoveTail (s : intset) (from to : Z) : option intset :=
  let bytes := u32 (is_length s - from) in
  let '(src, dst, bytes) :=
    if decide (is_encoding s = INTSET_ENC_INT64) then (from * 8, to * 8, u32 (bytes * 8))
    else if decide (is_encoding s = INTSET_ENC_INT32) then (from * 4, to * 4, u32 (bytes * 4))
    else (from * 2, to * 2, u32 (bytes * 2)) in
  set_contents s <$> mem_move (is_contents s) dst src bytes.

(** The new set and [*success]. *)
Definition intsetAdd (s : intset) (value : Z) : option (intset * bool) :=
  let valenc := _intsetValueEncoding value in
  if decide (valenc > is_encoding s) then
    s ← intsetUpgradeAndAdd s value; Some (s, true)
  else
    '(found, pos) ← intsetSearch s value;
    if found : bool then Some (s, false)
    else
      s ← intsetResize s (u32 (is_length s + 1));
      s ← (if decide (pos < is_length s) then intsetMoveTail s pos (u32 (pos + 1))
            else Some s);
      s ← _intsetSet s (s32 pos) value;
      Some (set_length s (u32 (is_length s + 1)), true).

Definition intsetRemove (s : intset) (value : Z) : option (intset * bool) :=
  let valenc := _intsetValueEncoding value in
  if decide (valenc <= is_encoding s) then
    '(found, pos) ← intsetSearch s value;
    if found : bool then
      let len := is_length s in
      s ← (if decide (pos < u32 (len - 1)) then intsetMoveTail s (u32 (pos + 1)) pos
            else Some s);
      s ← intsetResize s (u32 (len - 1));
      Some (set_length s (u32 (len - 1)), true)
    else Some (s, false)
  else Some (s, false).

Definition intsetFind (s : intset) (value : Z) : option bool :=
  let valenc := _intsetValueEncoding value in
  if decide (valenc <= is_encoding s) then fst <$> intsetSearch s value
  else Some false.

(** [rand] is the value [rand()] returns; the assertion rules the empty set out. *)
Definition intsetRandom (rand : Z) (s : intset) : option Z :=
  let len := is_length s in
  if decide (len = 0) then None else _intsetGet s (s32 (rand `mod` len)).

Definition intsetMax (s : intset) : option Z := _intsetGet s (s32 (u32 (is_length s - 1))).

Definition intsetMin (s : intset) : option Z := _intsetGet s 0.

(** The value read, or [None] inside when the position is out of range. *)
Definition intsetGet (s : intset) (pos : Z) : option (option Z) :=
  if decide (pos < is_length s) then Some <$> _intsetGet s (s32 pos) else Some None.

Definition intsetLen (s : intset) : Z := is_length s.

Definition intsetBlobLen (s : intset) : Z :=
  u64 (sizeof_intset + is_length s * is_encoding s).

(** The cast of a block to [intset *]. *)
Definition intset_of_blob (p : bytes) : option intset :=
  e ← mem_read p 0 4;
  l ← mem_read p 4 4;
  Some (mk_intset (le_val e) (le_val l) (drop 8 p)).

(** The loop over the records of the deep check, from record [i] on. *)
Fixpoint intsetValidate_loop (n : nat) (s : intset) (i prev : Z) : option bool :=
  match n with
  | O => Some true
  | S n =>
      cur ← _intsetGet s (s32 i);
      if decide (cur <= prev) then Some false else intsetValidate_loop n s (i + 1) cur
  end.

Definition intsetValidateIntegrity (p : bytes) (deep : bool) : option bool :=
  if decide (zlen p < sizeof_intset) then Some false
  else
    s ← intset_of_blob p;
    let encoding := is_encoding s in
    if decide (encoding = INTSET_ENC_INT64 ∨ encoding = INTSET_ENC_INT32
               ∨ encoding = INTSET_ENC_INT16) then
      let record_size := encoding in
      let count := is_length s in
      if decide (u64 (sizeof_intset + u64 (count * record_size)) ≠ zlen p) then Some false
      else if decide (count = 0) then Some false
      else if negb deep then Some true
      else
        prev ← _intsetGet s 0;
        intsetValidate_loop (Z.to_nat (count - 1)) s 1 prev
    else Some false.

End operations.

(** The block a set occupies, as it is dumped. *)
Definition intset_blob (s : intset) : bytes :=
  le_bytes 4 (is_encoding s) ++ le_bytes 4 (is_length s) ++ is_contents s.

(** ** Representation *)

Definition enc_ok (e : Z) : Prop := e = 2 ∨ e = 4 ∨ e = 8.

(** Element [i] of width [e] is [v]. *)
Definition slot_at (c : bytes) (e : Z) (i : nat) (v : Z) : Prop :=
  bytes_at c (Z.of_nat i * e) (le_bytes e v).

(** The block holds the elements [vs]. *)
Record intset_repr (s : intset) (vs : list Z) : Prop := {
  repr_enc : enc_ok (is_encoding s);
  repr_len : is_length s = zlen vs;
  repr_size : zlen (is_contents s) = zlen vs * is_encoding s;
  repr_slots : ∀ i v, vs !! i = Some v → slot_at (is_contents s) (is_encoding s) i v;
  repr_range : Forall (in_srange (is_encoding s * 8)) vs;
}.

(** A well-formed set: the elements are sorted and distinct. *)
Definition intset_wf (s : intset) (vs : list Z) : Prop :=
  intset_repr s vs ∧ StronglySorted Z.lt vs.

(** Above this many elements [intsetMoveTail] counts bytes modulo [2^32]. *)
Definition INTSET_LIMIT : Z := 2 ^ 29.

(** The abstract value: a finite set of integers. *)
Definition intset_denotes (s : intset) (X : gset Z) : Prop :=
  ∃ vs, intset_wf s vs ∧ list_to_set vs = X.

Lemma sorted_lookup_lt (vs : list Z) (i j : nat) x y :
  StronglySorted Z.lt vs → vs !! i = Some x → vs !! j = Some y → (i < j)%nat → x < y.
Proof.
  intros Hs. revert i j. induction Hs as [|z vs Hs IH Hz]; intros i j Hi Hj Hij.
  { by rewrite lookup_nil in Hi. }
  destruct j as [|j]; [lia|]. destruct i as [|i]; simpl in *.
  - simplify_eq. rewrite Forall_forall in Hz. apply Hz. by eapply list_elem_of_lookup_2.
  - apply (IH i j); auto with lia.
Qed.

Lemma sorted_of_lookup (vs : list Z) :
  (∀ i j x y, vs !! i = Some x → vs !! j = Some y → (i < j)%nat → x < y) →
  StronglySorted Z.lt vs.
Proof.
  induction vs as [|z vs IH]; intros H; constructor.
  - apply IH. intros i j x y Hi Hj Hij. apply (H (S i) (S j)); auto with lia.
  - apply Forall_forall. intros y Hy. apply list_elem_of_lookup in Hy as [j Hj].
    apply (H 0%nat (S j)); auto with lia.
Qed.

Section representation.
Context (junk : nat → Z).
Implicit Types s : intset.
Implicit Types vs : list Z.

Lemma value_encoding_ok v : enc_ok (_intsetValueEncoding v).
Proof.
  unfold _intsetValueEncoding, enc_ok, INTSET_ENC_INT16, INTSET_ENC_INT32, INTSET_ENC_INT64.
  repeat case_decide; auto.
Qed.

(** The encoding chosen is wide enough, and every narrower one is not. *)
Lemma value_encoding_le v e :
  enc_ok e → in_srange 64 v →
  (_intsetValueEncoding v ≤ e ↔ in_srange (e * 8) v).
Proof.
  unfold _intsetValueEncoding, enc_ok, INTSET_ENC_INT16, INTSET_ENC_INT32, INTSET_ENC_INT64.
  intros [-> | [-> | ->]] Hv; repeat case_decide; simpl; range_lia.
Qed.

Lemma get_encoded_slot s e i v :
  enc_ok e → slot_at (is_contents s) e i v → in_srange (e * 8) v →
  _intsetGetEncoded s (Z.of_nat i) e = Some v.
Proof.
  unfold slot_at, _intsetGetEncoded, INTSET_ENC_INT32, INTSET_ENC_INT64.
  intros He Hat Hr.
  destruct He as [-> | [-> | ->]]; simpl; (erewrite bytes_at_read; [|exact Hat|..]);
    rewrite ?le_bytes_length by lia; try lia; simpl; f_equal; by apply swrap_le_val_bytes.
Qed.

Lemma get_repr s vs i v :
  intset_repr s vs → vs !! i = Some v → _intsetGet s (Z.of_nat i) = Some v.
Proof.
  intros Hr Hi. apply get_encoded_slot.
  - apply (repr_enc _ _ Hr).
  - by apply (repr_slots _ _ Hr).
  - eapply Forall_lookup_1; [apply (repr_range _ _ Hr)|done].
Qed.

Lemma get_repr_Z s vs i v :
  intset_repr s vs → 0 ≤ i → vs !! Z.to_nat i = Some v → _intsetGet s i = Some v.
Proof. intros Hr Hi Hl. rewrite <- (Z2Nat.id i) by done. by eapply get_repr. Qed.

(** [_intsetSet] stores the bytes of the value in slot [pos] of the block. *)
Lemma set_slot s i v :
  enc_ok (is_encoding s) → 0 ≤ i → (i + 1) * is_encoding s ≤ zlen (is_contents s) →
  ∃ c, _intsetSet s i v = Some (set_contents s c) ∧
       mem_write (is_contents s) (i * is_encoding s) (le_bytes (is_encoding s) v) = Some c.
Proof.
  intros He Hi Hsz. unfold _intsetSet, INTSET_ENC_INT32, INTSET_ENC_INT64.
  assert (in_block (is_contents s) (i * is_encoding s)
            (zlen (le_bytes (is_encoding s) v))) as Hb.
  { unfold in_block. destruct He as [He | [He | He]]; rewrite He in *;
      rewrite le_bytes_length by lia; lia. }
  destruct (mem_write_Some _ _ _ Hb) as [c Hc]. exists c.
  destruct He as [He | [He | He]]; rewrite He in *; simpl; by rewrite Hc.
Qed.

(** Binary search, on the elements. *)
Definition search_spec (vs : list Z) (v : Z) (found : bool) (pos : Z) : Prop :=
  0 ≤ pos ≤ zlen vs ∧
  if found then vs !! Z.to_nat pos = Some v
  else (∀ i x, vs !! i = Some x → Z.of_nat i < pos → x < v) ∧
       (∀ i x, vs !! i = Some x → pos ≤ Z.of_nat i → v < x).

Lemma search_loop_ok n s vs v lo hi mid cur :
  intset_wf s vs → zlen vs < 2 ^ 31 →
  0 ≤ lo → hi < zlen vs → lo ≤ hi + 1 → hi - lo + 1 < 2 ^ Z.of_nat n →
  (∀ i x, vs !! i = Some x → Z.of_nat i < lo → x < v) →
  (∀ i x, vs !! i = Some x → hi < Z.of_nat i → v < x) →
  (lo ≤ hi ∨ cur ≠ v) →
  ∃ lo' mid' cur',
    intsetSearch_loop (S n) s v lo hi mid cur = Some (lo', mid', cur') ∧
    (cur' = v ∧ search_spec vs v true mid' ∨ cur' ≠ v ∧ search_spec vs v false lo').
Proof.
  intros [Hr Hs] Hlen. revert lo hi mid cur.
  induction n as [|n IH]; intros lo hi mid cur Hlo Hhi Hlh Hfuel Hbelow Habove Hcur.
  - assert (hi = lo - 1) as -> by (simpl in Hfuel; lia).
    simpl. rewrite decide_False by lia. eexists _, _, _. split; [done|]. right.
    split; [destruct Hcur; [lia|done]|]. split; [lia|]. split; [done|].
    intros i x Hi ?. apply (Habove i); [done|lia].
  - remember (S n) as n' eqn:Hn'. cbn [intsetSearch_loop]. subst n'.
    case_decide as Hle; last first.
    { eexists _, _, _. split; [done|]. right.
      split; [destruct Hcur; [lia|done]|]. split; [lia|]. split; [done|].
      intros i x Hi ?. apply (Habove i); [done|lia]. }
    rewrite (uwrap_small 32 lo), (uwrap_small 32 hi), uwrap_small by range_lia.
    rewrite Z.shiftr_div_pow2 by lia. change (2 ^ 1) with 2.
    set (m := (lo + hi) / 2).
    assert (lo ≤ m ≤ hi) as Hm.
    { unfold m. split; [apply Z.div_le_lower_bound|apply Z.div_le_upper_bound]; lia. }
    assert (2 * m ≤ lo + hi < 2 * m + 2) as Hm2.
    { unfold m. pose proof (Z.div_mod (lo + hi) 2). pose proof (Z.mod_pos_bound (lo + hi) 2). lia. }
    rewrite (swrap_small 32 m) by range_lia.
    destruct (lookup_lt_is_Some_2 vs (Z.to_nat m)) as [x Hx]; [lia|].
    rewrite (get_repr_Z _ _ m x Hr) by (done || lia). simpl.
    assert (2 ^ Z.of_nat (S n) = 2 * 2 ^ Z.of_nat n) as Hpow.
    { rewrite Nat2Z.inj_succ, Z.pow_succ_r; lia. }
    rewrite (swrap_small 32 (m + 1)), (swrap_small 32 (m - 1)) by range_lia.
    case_decide as Hgt; [|case_decide as Hlt].
    + apply IH; try lia; [|done].
      intros i y Hi ?. destruct (decide (i = Z.to_nat m)) as [->|]; [simplify_eq; lia|].
      pose proof (sorted_lookup_lt vs i (Z.to_nat m) y x Hs Hi Hx). lia.
    + apply IH; try lia; [done|].
      intros i y Hi ?. destruct (decide (i = Z.to_nat m)) as [->|]; [simplify_eq; lia|].
      pose proof (sorted_lookup_lt vs (Z.to_nat m) i x y Hs Hx Hi). lia.
    + eexists _, _, _. split; [done|]. left. split; [lia|]. split; [lia|].
      rewrite Hx. f_equal. lia.
Qed.

Lemma intsetSearch_ok s vs v :
  intset_wf s vs → zlen vs < 2 ^ 31 →
  ∃ found pos, intsetSearch s v = Some (found, pos) ∧ search_spec vs v found pos.
Proof.
  intros Hwf Hlen. pose proof Hwf as [Hr Hs]. unfold intsetSearch.
  rewrite (repr_len _ _ Hr). case_decide as H0.
  { eexists _, _. split; [done|]. destruct vs; simpl in H0; [|lia].
    split; [simpl; lia|]. split; intros i x Hi; by rewrite lookup_nil in Hi. }
  rewrite swrap_small by range_lia.
  destruct (lookup_lt_is_Some_2 vs (Z.to_nat (zlen vs - 1))) as [xmax Hmax]; [lia|].
  rewrite (get_repr_Z _ _ (zlen vs - 1) xmax Hr) by (done || lia). bind_simpl.
  case_decide as Hgt.
  { eexists _, _. split; [done|]. split; [lia|]. split.
    - intros i x Hi ?. destruct (decide (i = Z.to_nat (zlen vs - 1))) as [->|]; [simplify_eq; lia|].
      pose proof (sorted_lookup_lt _ _ _ _ _ Hs Hi Hmax). lia.
    - intros i x Hi%lookup_lt_Some ?. lia. }
  destruct (lookup_lt_is_Some_2 vs 0%nat) as [xmin Hmin]; [lia|].
  rewrite (get_repr s vs 0 xmin Hr Hmin : _intsetGet s 0 = _). bind_simpl.
  case_decide as Hlt.
  { eexists _, _. split; [done|]. split; [lia|]. split; [intros; lia|].
    intros i x Hi ?. destruct (decide (i = 0%nat)) as [->|]; [simplify_eq; lia|].
    pose proof (sorted_lookup_lt _ _ _ _ _ Hs Hmin Hi). lia. }
  destruct (search_loop_ok 32 s vs v 0 (zlen vs - 1) (-1) (-1) Hwf)
    as (lo & mid & cur & -> & Hres); try lia.
  { intros i x Hi%lookup_lt_Some ?. lia. }
  bind_simpl. destruct Hres as [[-> Hres]|[Hne Hres]].
  - rewrite decide_True by done. eexists _, _. split; [done|].
    rewrite uwrap_small; [done|]. destruct Hres. range_lia.
  - rewrite decide_False by done. eexists _, _. split; [done|].
    rewrite uwrap_small; [done|]. destruct Hres. range_lia.
Qed.

Lemma search_spec_elem vs v found pos :
  search_spec vs v found pos → found = bool_decide (v ∈ vs).
Proof.
  intros [Hpos H]. destruct found.
  - rewrite bool_decide_true; [done|]. by eapply list_elem_of_lookup_2.
  - rewrite bool_decide_false; [done|]. intros [i Hi]%list_elem_of_lookup.
    destruct H as [Hb Ha]. destruct (Z.lt_ge_cases (Z.of_nat i) pos) as [Hlt|Hge].
    + specialize (Hb i v Hi Hlt). lia.
    + specialize (Ha i v Hi Hge). lia.
Qed.

(** Slots under writes and moves. *)
Lemma slot_write_same c e i v c' :
  mem_write c (Z.of_nat i * e) (le_bytes e v) = Some c' → slot_at c' e i v.
Proof. apply bytes_at_write_same. Qed.

Lemma slot_write_other c off xs c' e i v :
  mem_write c off xs = Some c' → slot_at c e i v → 0 ≤ e →
  (Z.of_nat i + 1) * e ≤ off ∨ off + zlen xs ≤ Z.of_nat i * e → slot_at c' e i v.
Proof.
  intros Hw Hat He Hd. eapply bytes_at_write_other; [done..|].
  rewrite le_bytes_length; lia.
Qed.

Lemma slot_move_moved c dst src n c' e v k i :
  mem_move c (Z.of_nat dst * e) (Z.of_nat src * e) (n * e) = Some c' → 0 < e →
  slot_at c e (src + k) v → Z.of_nat k < n → i = (dst + k)%nat → slot_at c' e i v.
Proof.
  intros Hm He Hat Hk ->. unfold slot_at in *. rewrite Nat2Z.inj_add, Z.mul_add_distr_r in *.
  eapply bytes_at_move_moved; [done|nia|nia|done|nia|].
  rewrite le_bytes_length; nia.
Qed.

Lemma slot_move_other c dst src n c' e v i :
  mem_move c (Z.of_nat dst * e) (Z.of_nat src * e) (n * e) = Some c' → 0 < e →
  slot_at c e i v → (i < dst)%nat → 0 ≤ n → slot_at c' e i v.
Proof.
  intros Hm He Hat Hi Hn. eapply bytes_at_move_other; [done|done|..];
    rewrite ?le_bytes_length by lia; nia.
Qed.

Lemma move_tail_ok s from to :
  enc_ok (is_encoding s) → 0 ≤ from ≤ is_length s → 0 ≤ to →
  (is_length s - from) * is_encoding s < 2 ^ 32 →
  is_length s * is_encoding s ≤ zlen (is_contents s) →
  (to + is_length s - from) * is_encoding s ≤ zlen (is_contents s) →
  ∃ c, intsetMoveTail s from to = Some (set_contents s c) ∧
       mem_move (is_contents s) (to * is_encoding s) (from * is_encoding s)
         ((is_length s - from) * is_encoding s) = Some c.
Proof.
  intros He Hfrom Hto Hlim Hsz1 Hsz2.
  assert (2 ≤ is_encoding s ≤ 8) as He2 by (unfold enc_ok in He; lia).
  destruct (mem_move_Some (is_contents s) (to * is_encoding s) (from * is_encoding s)
    ((is_length s - from) * is_encoding s)) as [c Hc].
  1,2: unfold in_block; nia.
  exists c. split; [|done]. unfold intsetMoveTail, INTSET_ENC_INT32, INTSET_ENC_INT64.
  assert (u32 (is_length s - from) = is_length s - from) as Hu.
  { apply uwrap_small. unfold in_urange. nia. }
  assert (u32 ((is_length s - from) * is_encoding s) = (is_length s - from) * is_encoding s)
    as Hu2. { apply uwrap_small. unfold in_urange. nia. }
  rewrite Hu. destruct He as [He | [He | He]]; rewrite He in *; simpl;
    rewrite Hu2, Hc; done.
Qed.

Lemma resize_ok s n :
  enc_ok (is_encoding s) → 0 ≤ n < 2 ^ 32 →
  intsetResize junk s n =
    Some (set_contents s (mem_realloc junk (is_contents s) (n * is_encoding s))).
Proof.
  intros He Hn. unfold intsetResize, sizeof_intset.
  destruct He as [He | [He | He]]; rewrite He; rewrite uwrap_small by range_lia;
    by rewrite decide_True by range_lia.
Qed.

(** The loop of [intsetUpgradeAndAdd] rewrites every element in the wider encoding: the
    elements below [k] are still in the old one. *)
Lemma upgrade_loop_ok k s vs ce p :
  enc_ok ce → enc_ok (is_encoding s) → ce < is_encoding s →
  (k ≤ length vs)%nat → (p ≤ 1)%nat →
  zlen (is_contents s) = (zlen vs + 1) * is_encoding s →
  Forall (in_srange (ce * 8)) vs →
  (∀ i v, vs !! i = Some v → (i < k)%nat → slot_at (is_contents s) ce i v) →
  (∀ i v, vs !! i = Some v → (k ≤ i)%nat → slot_at (is_contents s) (is_encoding s) (i + p) v) →
  ∃ c, intsetUpgrade_loop k s ce (Z.of_nat p) = Some (set_contents s c) ∧
       length c = length (is_contents s) ∧
       ∀ i v, vs !! i = Some v → slot_at c (is_encoding s) (i + p) v.
Proof.
  intros Hce He Hlt. revert s He Hlt.
  induction k as [|k IH]; intros s He Hlt Hk Hp Hsz Hrange Hold Hnew; simpl.
  { exists (is_contents s). split; [by destruct s|]. split; [done|]. intros. apply Hnew; [done|lia]. }
  assert (2 ≤ ce ∧ is_encoding s ≤ 8) as Hb by (unfold enc_ok in *; lia).
  destruct (lookup_lt_is_Some_2 vs k) as [v Hv]; [lia|].
  rewrite (get_encoded_slot s ce k v Hce);
    [|by apply Hold; [|lia]|by eapply Forall_lookup_1]. simpl.
  destruct (set_slot s (Z.of_nat k + Z.of_nat p) v He) as (c & -> & Hc); [lia|nia|]. simpl.
  apply mem_write_length in Hc as Hlen.
  destruct (IH (set_contents s c)) as (c' & Hloop & Hlen' & Hslots); simpl; try done; try lia.
  - intros i x Hi Hik. eapply slot_write_other; [exact Hc|apply Hold; [done|lia]|lia|].
    left. nia.
  - intros i x Hi Hik. destruct (decide (i = k)) as [->|].
    + simplify_eq. eapply slot_write_same. rewrite <- Hc. f_equal. lia.
    + eapply slot_write_other; [exact Hc|apply Hnew; [done|lia]|lia|].
      right. rewrite le_bytes_length by lia. nia.
  - exists c'. rewrite Hloop. simpl in *. split; [done|]. split; [congruence|done].
Qed.

Lemma srange_mono e e' v : enc_ok e → enc_ok e' → e ≤ e' →
  in_srange (e * 8) v → in_srange (e' * 8) v.
Proof.
  unfold enc_ok. intros [-> | [-> | ->]] [-> | [-> | ->]] H Hv; simpl in *; range_lia.
Qed.

(** A value that needs a wider encoding lies outside the range of the elements. *)
Lemma upgrade_sorted e vs v :
  enc_ok e → in_srange 64 v → ¬ in_srange (e * 8) v → Forall (in_srange (e * 8)) vs →
  StronglySorted Z.lt vs →
  StronglySorted Z.lt (if decide (v < 0) then v :: vs else vs ++ [v]).
Proof.
  intros He Hv Hnv Hr Hs.
  assert (∀ x, x ∈ vs → if decide (v < 0) then v < x else x < v) as Hout.
  { intros x Hx. rewrite Forall_forall in Hr. apply Hr in Hx.
    destruct He as [-> | [-> | ->]]; simpl in *; case_decide; range_lia. }
  case_decide.
  - constructor; [done|]. by apply Forall_forall.
  - apply sorted_of_lookup. intros i j x y Hi Hj Hij.
    apply lookup_app_Some in Hj as [Hj|[Hj1 Hj2]].
    + rewrite lookup_app_l in Hi by (apply lookup_lt_Some in Hj; lia).
      by eapply sorted_lookup_lt.
    + apply list_lookup_singleton_Some in Hj2 as [? <-].
      rewrite lookup_app_l in Hi by lia. apply Hout. by eapply list_elem_of_lookup_2.
Qed.

Lemma intsetUpgradeAndAdd_ok s vs v :
  intset_wf s vs → zlen vs < INTSET_LIMIT → in_srange 64 v →
  _intsetValueEncoding v > is_encoding s →
  ∃ s', intsetUpgradeAndAdd junk s v = Some s' ∧
        is_encoding s' = _intsetValueEncoding v ∧
        intset_wf s' (if decide (v < 0) then v :: vs else vs ++ [v]).
Proof.
  intros [Hr Hs] Hlim Hv Henc. unfold INTSET_LIMIT in Hlim. pow2_lit.
  pose proof (repr_enc _ _ Hr) as He. pose proof (value_encoding_ok v) as Hne.
  assert (2 ≤ is_encoding s ∧ _intsetValueEncoding v ≤ 8) as Hb by (unfold enc_ok in *; lia).
  unfold intsetUpgradeAndAdd. rewrite (repr_len _ _ Hr).
  rewrite (uwrap_small 32), (uwrap_small 8), (swrap_small 32) by (unfold in_srange, in_urange; pow2_lit; lia).
  rewrite resize_ok by (simpl; done || lia). bind_simpl.
  rewrite (decide_False (P := zlen vs < 0)) by lia. rewrite Nat2Z.id.
  set (e' := _intsetValueEncoding v) in *.
  set (c0 := mem_realloc _ _ _). set (p := if decide (v < 0) then 1%nat else 0%nat).
  assert ((if decide (v < 0) then 1 else 0) = Z.of_nat p) as -> by (unfold p; by case_decide).
  destruct (upgrade_loop_ok (length vs) (set_contents (set_encoding s e') c0) vs
    (is_encoding s) p) as (c & Hloop & Hlen & Hslots); simpl; try done.
  { lia. }
  { unfold p; case_decide; lia. }
  { unfold c0. rewrite mem_realloc_length by (simpl; nia). simpl. lia. }
  { apply (repr_range _ _ Hr). }
  { intros i x Hi _. apply bytes_at_realloc; [by apply (repr_slots _ _ Hr)|].
    apply lookup_lt_Some in Hi. rewrite le_bytes_length by lia. simpl. nia. }
  { intros i x Hi%lookup_lt_Some Hge. lia. }
  rewrite Hloop. bind_simpl.
  set (s1 := set_contents _ c) in *.
  assert (zlen (is_contents s1) = (zlen vs + 1) * e') as Hsz1.
  { simpl. rewrite Hlen. simpl. unfold c0. rewrite mem_realloc_length by (simpl; nia).
    simpl. lia. }
  set (q := if decide (Z.of_nat p = 1) then 0%nat else length vs).
  assert ((if decide (Z.of_nat p = 1) then _intsetSet s1 0 v
           else _intsetSet s1 (s32 (is_length s1)) v) = _intsetSet s1 (Z.of_nat q) v) as ->.
  { unfold q. case_decide; [done|]. f_equal. simpl. rewrite (repr_len _ _ Hr).
    apply swrap_small; range_lia. }
  destruct (set_slot s1 (Z.of_nat q) v) as (c' & -> & Hc'); [done|lia|..].
  { rewrite Hsz1. simpl. unfold q. case_decide; nia. }
  bind_simpl. eexists. split; [done|]. split; [done|].
  set (vs' := if decide (v < 0) then v :: vs else vs ++ [v]).
  assert (zlen vs' = zlen vs + 1) as Hlen'.
  { unfold vs'. case_decide; [|rewrite length_app]; simpl; lia. }
  assert (in_srange (e' * 8) v) as Hvr by (apply value_encoding_le; [done..|lia]).
  split; [split|]; simpl.
  - done.
  - rewrite (repr_len _ _ Hr), Hlen'. apply uwrap_small. range_lia.
  - apply mem_write_length in Hc'. rewrite Hc', Hsz1. lia.
  - intros i x Hi.
    assert ((i = q ∧ x = v) ∨ ∃ k, i = (k + p)%nat ∧ vs !! k = Some x) as [[-> ->]|(k & -> & Hk)].
    { unfold vs', p, q in *. destruct (decide (v < 0)); simpl in *.
      - destruct i as [|i]; simpl in Hi; [left|right]; simplify_eq; [done|].
        exists i. split; [lia|done].
      - apply lookup_app_Some in Hi as [Hi|[? Hi]].
        + right. exists i. split; [lia|done].
        + apply list_lookup_singleton_Some in Hi as [? <-]. left. split; [lia|done]. }
    + by eapply slot_write_same.
    + apply lookup_lt_Some in Hk as Hkl.
      eapply slot_write_other; [exact Hc'|by apply Hslots|simpl; lia|].
      rewrite le_bytes_length by (simpl; lia). unfold p, q in *.
      destruct (decide (v < 0)); simpl in *; nia.
  - assert (Forall (in_srange (e' * 8)) vs) as Hall.
    { eapply Forall_impl; [apply (repr_range _ _ Hr)|]. intros x. apply srange_mono; [done..|lia]. }
    unfold vs'. case_decide; [by constructor|]. apply Forall_app. split; [done|]. by apply Forall_singleton.
  - eapply upgrade_sorted; [exact He|done|..]; [|apply (repr_range _ _ Hr)|done].
    rewrite <- value_encoding_le by done. lia.
Qed.

Lemma insert_sorted vs v (p : nat) :
  StronglySorted Z.lt vs →
  search_spec vs v false (Z.of_nat p) →
  StronglySorted Z.lt (take p vs ++ v :: drop p vs).
Proof.
  intros Hs [Hp [Hlo Hhi]]. apply sorted_of_lookup.
  assert (∀ i x, (take p vs ++ v :: drop p vs) !! i = Some x →
    (i < p ∧ vs !! i = Some x)%nat ∨ (i = p ∧ x = v) ∨
    (p < i ∧ vs !! (i - 1) = Some x)%nat) as Hcase.
  { intros i x. rewrite lookup_app_Some, length_take_le, lookup_cons_Some by lia.
    intros [Hi|(Hge & [[Hi <-]|[Hi Hx]])].
    - apply lookup_take_Some in Hi. left. tauto.
    - right; left. split; [lia|done].
    - right; right. rewrite lookup_drop in Hx. split; [lia|]. rewrite <- Hx. f_equal. lia. }
  intros i j x y Hi Hj Hij.
  apply Hcase in Hi as [[? Hi]|[[-> ->]|[? Hi]]];
    apply Hcase in Hj as [[? Hj]|[[-> ->]|[? Hj]]]; try lia.
  - by eapply sorted_lookup_lt.
  - apply (Hlo i); [done|lia].
  - eapply (sorted_lookup_lt vs i (j - 1)); [done..|lia].
  - apply (Hhi (j - 1)%nat); [done|lia].
  - eapply (sorted_lookup_lt vs (i - 1) (j - 1)); [done..|lia].
Qed.

(** Insertion of an absent value that fits the current encoding. *)
Lemma add_in_place_ok s vs v (p : nat) :
  intset_wf s vs → zlen vs < INTSET_LIMIT → in_srange (is_encoding s * 8) v →
  search_spec vs v false (Z.of_nat p) →
  ∃ s', (s1 ← intsetResize junk s (u32 (is_length s + 1));
         s1 ← (if decide (Z.of_nat p < is_length s1)
               then intsetMoveTail s1 (Z.of_nat p) (u32 (Z.of_nat p + 1)) else Some s1);
         s1 ← _intsetSet s1 (s32 (Z.of_nat p)) v;
         Some (set_length s1 (u32 (is_length s1 + 1)), true)) = Some (s', true) ∧
        is_encoding s' = is_encoding s ∧
        intset_wf s' (take p vs ++ v :: drop p vs).
Proof.
  intros [Hr Hs] Hlim Hv Hsearch. unfold INTSET_LIMIT in Hlim. pow2_lit.
  pose proof (repr_enc _ _ Hr) as He. pose proof Hsearch as [Hp _].
  assert (2 ≤ is_encoding s ≤ 8) as Hb by (unfold enc_ok in *; lia).
  rewrite (repr_len _ _ Hr). rewrite (uwrap_small 32 (zlen vs + 1)) by range_lia.
  rewrite resize_ok by (done || lia). bind_simpl.
  set (c0 := mem_realloc _ _ _). set (s0 := set_contents s c0).
  assert (zlen c0 = (zlen vs + 1) * is_encoding s) as Hc0
    by (unfold c0; rewrite mem_realloc_length; nia).
  assert (∀ i x, vs !! i = Some x → slot_at c0 (is_encoding s) i x) as Hslots0.
  { intros i x Hi. apply bytes_at_realloc; [by apply (repr_slots _ _ Hr)|].
    apply lookup_lt_Some in Hi. rewrite le_bytes_length by lia. nia. }
  assert (∃ c1, (if decide (Z.of_nat p < is_length s0)
      then intsetMoveTail s0 (Z.of_nat p) (u32 (Z.of_nat p + 1)) else Some s0) =
      Some (set_contents s c1) ∧ zlen c1 = (zlen vs + 1) * is_encoding s ∧
      (∀ i x, vs !! i = Some x → (i < p)%nat → slot_at c1 (is_encoding s) i x) ∧
      (∀ i x, vs !! i = Some x → (p ≤ i)%nat → slot_at c1 (is_encoding s) (S i) x))
    as (c1 & -> & Hlen1 & Hlow & Hhigh).
  { case_decide as Hlt; simpl in Hlt.
    - rewrite uwrap_small by range_lia. rewrite (repr_len _ _ Hr) in Hlt.
      destruct (move_tail_ok s0 (Z.of_nat p) (Z.of_nat p + 1)) as (c1 & -> & Hm); simpl; try done;
        rewrite ?(repr_len _ _ Hr); try nia.
      exists c1. split; [done|]. simpl in Hm. rewrite (repr_len _ _ Hr) in Hm.
      replace (Z.of_nat p + 1) with (Z.of_nat (S p)) in Hm by lia.
      split; [by apply mem_move_length in Hm as ->|]. split; intros i x Hi Hip.
      + eapply slot_move_other; [exact Hm|lia|by apply Hslots0|lia..].
      + apply lookup_lt_Some in Hi as Hil.
        eapply (slot_move_moved _ _ _ _ _ _ _ (i - p)); [exact Hm|lia|..|lia|lia].
        replace (p + (i - p))%nat with i by lia. by apply Hslots0.
    - exists c0. rewrite (repr_len _ _ Hr) in Hlt. split_and!; [done..|by auto|].
      intros i x Hi%lookup_lt_Some Hip. lia. }
  bind_simpl. rewrite swrap_small by range_lia.
  destruct (set_slot (set_contents s c1) (Z.of_nat p) v) as (c2 & -> & Hc2); simpl; [done|lia|nia|].
  simpl in Hc2. eexists. split; [done|]. split; [done|].
  assert (zlen (take p vs ++ v :: drop p vs) = zlen vs + 1) as Hlen'.
  { rewrite length_app, length_take_le by lia. simpl. rewrite length_drop. lia. }
  split; [split|]; simpl.
  - done.
  - rewrite (repr_len _ _ Hr), Hlen'. apply uwrap_small. range_lia.
  - apply mem_write_length in Hc2. rewrite Hc2. lia.
  - intros i x. rewrite lookup_app_Some, length_take_le, lookup_cons_Some by lia.
    intros [Hi|(Hge & [[Hi <-]|[Hi Hx]])].
    + apply lookup_take_Some in Hi as [Hi Hip].
      eapply slot_write_other; [exact Hc2|by apply Hlow|lia|]. left. nia.
    + replace i with p by lia. by eapply slot_write_same.
    + rewrite lookup_drop in Hx. replace i with (S (p + (i - p - 1)))%nat by lia.
      eapply slot_write_other; [exact Hc2|apply Hhigh; [done|lia]|lia|].
      right. rewrite le_bytes_length by lia. nia.
  - apply Forall_app. pose proof (repr_range _ _ Hr). split; [by apply Forall_take|].
    constructor; [done|by apply Forall_drop].
  - by apply insert_sorted.
Qed.

End representation.

(** ** Correctness *)

Section correctness.
Context (junk : nat → Z).
Implicit Types s : intset.

Lemma denotes_length s X : intset_denotes s X → intsetLen s = Z.of_nat (size X).
Proof.
  intros (vs & [Hr Hs] & <-). unfold intsetLen. rewrite (repr_len _ _ Hr).
  rewrite size_list_to_set; [done|]. clear Hr.
  induction Hs as [|x vs Hs IH Hx]; constructor; [|done].
  intros Hin. rewrite Forall_forall in Hx. specialize (Hx _ Hin). lia.
Qed.

Lemma intsetAdd_ok s X v :
  intset_denotes s X → intsetLen s < INTSET_LIMIT → in_srange 64 v →
  ∃ s', intsetAdd junk s v = Some (s', bool_decide (v ∉ X)) ∧
        intset_denotes s' ({[v]} ∪ X) ∧
        is_encoding s' = Z.max (is_encoding s) (_intsetValueEncoding v).
Proof.
  intros (vs & Hwf & <-) Hlim Hv. pose proof Hwf as [Hr Hs].
  unfold intsetLen in Hlim. rewrite (repr_len _ _ Hr) in Hlim.
  pose proof (repr_enc _ _ Hr) as He. unfold intsetAdd. case_decide as Hup.
  - destruct (intsetUpgradeAndAdd_ok junk s vs v Hwf) as (s' & -> & Henc & Hwf'); [done..|].
    exists s'.
    assert (v ∉ vs) as Hnew.
    { intros Hin. pose proof (repr_range _ _ Hr) as Hall. rewrite Forall_forall in Hall.
      apply Hall, value_encoding_le in Hin; [lia|done..]. }
    split; [simpl; rewrite bool_decide_true; [done|set_solver]|]. split; [|lia].
    eexists. split; [done|]. case_decide; set_solver.
  - destruct (intsetSearch_ok s vs v Hwf) as (found & pos & -> & Hsearch).
    { unfold INTSET_LIMIT in Hlim. range_lia. }
    bind_simpl. pose proof (search_spec_elem _ _ _ _ Hsearch) as Hin.
    assert (bool_decide (v ∉ (list_to_set vs : gset Z)) = negb found) as ->.
    { rewrite Hin, <- bool_decide_not. apply bool_decide_ext. set_solver. }
    destruct found.
    + exists s. split; [done|]. split; [|lia]. exists vs. split; [done|].
      symmetry in Hin. apply bool_decide_eq_true in Hin. set_solver.
    + rewrite <- (Z2Nat.id pos) in * by apply Hsearch.
      destruct (add_in_place_ok junk s vs v (Z.to_nat pos) Hwf) as (s' & -> & Henc & Hwf');
        [done| |done|].
      { apply value_encoding_le; [done..|lia]. }
      exists s'. split; [done|]. split; [|lia]. eexists. split; [done|].
      rewrite list_to_set_app_L, list_to_set_cons, (union_comm_L {[v]}).
      rewrite <- (take_drop (Z.to_nat pos) vs) at 3. rewrite list_to_set_app_L. set_solver.
Qed.

(** C26. [intsetAdd] refines insertion into a finite set: it stays inside its block, reports
    whether the value is new, and the result is again a sorted block whose encoding is the
    wider of the old one and the one the value needs, whatever [zrealloc] returned beyond
    the old size. *)
Theorem intsetAdd_refines s X v :
  intset_denotes s X → intsetLen s < INTSET_LIMIT → in_srange 64 v →
  ∃ s', intsetAdd junk s v = Some (s', bool_decide (v ∉ X)) ∧
        intset_denotes s' ({[v]} ∪ X) ∧
        is_encoding s' = Z.max (is_encoding s) (_intsetValueEncoding v).
Proof. apply intsetAdd_ok. Qed.

(** Removing position [p]. *)
Lemma remove_at_ok s vs v (p : nat) :
  intset_wf s vs → zlen vs ≤ INTSET_LIMIT → vs !! p = Some v →
  ∃ s', (s1 ← (if decide (Z.of_nat p < u32 (is_length s - 1))
               then intsetMoveTail s (u32 (Z.of_nat p + 1)) (Z.of_nat p) else Some s);
         s2 ← intsetResize junk s1 (u32 (is_length s - 1));
         Some (set_length s2 (u32 (is_length s - 1)), true)) = Some (s', true) ∧
        intset_wf s' (delete p vs).
Proof.
  intros [Hr Hs] Hlim Hp. unfold INTSET_LIMIT in Hlim. pow2_lit.
  pose proof (repr_enc _ _ Hr) as He. pose proof (lookup_lt_Some _ _ _ Hp) as Hpl.
  assert (2 ≤ is_encoding s ≤ 8) as Hb by (unfold enc_ok in *; lia).
  rewrite (repr_len _ _ Hr). rewrite !(uwrap_small 32) by range_lia.
  assert (∃ c1, (if decide (Z.of_nat p < zlen vs - 1)
      then intsetMoveTail s (Z.of_nat p + 1) (Z.of_nat p) else Some s) =
      Some (set_contents s c1) ∧ zlen c1 = zlen vs * is_encoding s ∧
      (∀ i x, delete p vs !! i = Some x → slot_at c1 (is_encoding s) i x))
    as (c1 & -> & Hlen1 & Hslots).
  { case_decide as Hlt.
    - destruct (move_tail_ok s (Z.of_nat p + 1) (Z.of_nat p)) as (c1 & -> & Hm); try done;
        rewrite ?(repr_len _ _ Hr), ?(repr_size _ _ Hr); try nia.
      exists c1. split; [done|]. rewrite (repr_len _ _ Hr) in Hm.
      replace (Z.of_nat p + 1) with (Z.of_nat (S p)) in Hm by lia.
      split; [by apply mem_move_length in Hm as ->; apply (repr_size _ _ Hr)|].
      intros i x Hi. destruct (decide (i < p)%nat).
      + rewrite list_lookup_delete_lt in Hi by lia.
        eapply slot_move_other; [exact Hm|lia|by apply (repr_slots _ _ Hr)|lia..].
      + rewrite list_lookup_delete_ge in Hi by lia. apply lookup_lt_Some in Hi as Hil.
        eapply (slot_move_moved _ _ _ _ _ _ _ (i - p)); [exact Hm|lia|..|lia|lia].
        replace (S p + (i - p))%nat with (S i) by lia. by apply (repr_slots _ _ Hr).
    - exists (is_contents s). split; [by destruct s|]. split; [apply (repr_size _ _ Hr)|].
      intros i x Hi. apply lookup_lt_Some in Hi as Hil. rewrite length_delete in Hil by eauto.
      rewrite list_lookup_delete_lt in Hi by lia. by apply (repr_slots _ _ Hr). }
  bind_simpl. rewrite resize_ok by (done || lia). bind_simpl.
  eexists. split; [done|].
  assert (zlen (delete p vs) = zlen vs - 1) as Hlen' by (rewrite length_delete by eauto; lia).
  split; [split|]; simpl.
  - done.
  - lia.
  - rewrite mem_realloc_length by nia. lia.
  - intros i x Hi. apply bytes_at_realloc; [by apply Hslots|].
    apply lookup_lt_Some in Hi. rewrite le_bytes_length by lia. nia.
  - apply Forall_delete, (repr_range _ _ Hr).
  - apply sorted_of_lookup. intros i j x y Hi Hj Hij.
    rewrite list_lookup_delete in Hi, Hj.
    repeat case_decide; try lia; by eapply sorted_lookup_lt; [..|eauto|eauto|lia].
Qed.

Lemma intsetRemove_ok s X v :
  intset_denotes s X → intsetLen s ≤ INTSET_LIMIT → in_srange 64 v →
  ∃ s', intsetRemove junk s v = Some (s', bool_decide (v ∈ X)) ∧
        intset_denotes s' (X ∖ {[v]}).
Proof.
  intros (vs & Hwf & <-) Hlim Hv. pose proof Hwf as [Hr Hs].
  unfold intsetLen in Hlim. rewrite (repr_len _ _ Hr) in Hlim.
  pose proof (repr_enc _ _ Hr) as He. unfold intsetRemove. case_decide as Hfit; last first.
  { assert (v ∉ vs) as Hnew.
    { intros Hin. pose proof (repr_range _ _ Hr) as Hall. rewrite Forall_forall in Hall.
      apply Hall, value_encoding_le in Hin; [lia|done..]. }
    exists s. rewrite bool_decide_false by set_solver. split; [done|].
    exists vs. split; [done|]. set_solver. }
  destruct (intsetSearch_ok s vs v Hwf) as (found & pos & -> & Hsearch).
  { unfold INTSET_LIMIT in Hlim. range_lia. }
  bind_simpl. pose proof (search_spec_elem _ _ _ _ Hsearch) as Hin.
  assert (bool_decide (v ∈ (list_to_set vs : gset Z)) = found) as ->.
  { rewrite Hin. apply bool_decide_ext. set_solver. }
  destruct found; last first.
  { exists s. split; [done|]. exists vs. split; [done|].
    symmetry in Hin. apply bool_decide_eq_false in Hin. set_solver. }
  destruct Hsearch as [Hpos Hp]. rewrite <- (Z2Nat.id pos) by lia.
  destruct (remove_at_ok s vs v (Z.to_nat pos) Hwf) as (s' & -> & Hwf'); [done..|].
  exists s'. split; [done|]. eexists. split; [done|].
  apply set_eq. intros x. rewrite elem_of_difference, elem_of_singleton, !elem_of_list_to_set.
  rewrite !list_elem_of_lookup. setoid_rewrite list_lookup_delete. split.
  - intros [i Hi]. case_decide; (split; [by eauto|]); intros ->;
      [pose proof (sorted_lookup_lt _ _ _ _ _ Hs Hi Hp)|pose proof (sorted_lookup_lt _ _ _ _ _ Hs Hp Hi)];
      lia.
  - intros [[i Hi] Hne]. destruct (decide (i < Z.to_nat pos)%nat).
    + exists i. by rewrite decide_True.
    + destruct (decide (i = Z.to_nat pos)) as [->|]; [congruence|].
      exists (i - 1)%nat. rewrite decide_False by lia. rewrite <- Hi. f_equal. lia.
Qed.

(** [intsetRemove] refines deletion from a finite set and reports whether the value was
    there; the encoding never shrinks. *)
Theorem intsetRemove_refines s X v :
  intset_denotes s X → intsetLen s ≤ INTSET_LIMIT → in_srange 64 v →
  ∃ s', intsetRemove junk s v = Some (s', bool_decide (v ∈ X)) ∧
        intset_denotes s' (X ∖ {[v]}).
Proof. apply intsetRemove_ok. Qed.

(** [intsetFind] decides membership. *)
Theorem intsetFind_refines s X v :
  intset_denotes s X → intsetLen s < 2 ^ 31 → in_srange 64 v →
  intsetFind s v = Some (bool_decide (v ∈ X)).
Proof.
  intros (vs & Hwf & <-) Hlim Hv. pose proof Hwf as [Hr Hs].
  unfold intsetLen in Hlim. rewrite (repr_len _ _ Hr) in Hlim.
  pose proof (repr_enc _ _ Hr) as He. unfold intsetFind. case_decide as Hfit; last first.
  { f_equal. symmetry. apply bool_decide_false. rewrite elem_of_list_to_set. intros Hin.
    pose proof (repr_range _ _ Hr) as Hall. rewrite Forall_forall in Hall.
    apply Hall, value_encoding_le in Hin; [lia|done..]. }
  destruct (intsetSearch_ok s vs v Hwf) as (found & pos & -> & Hsearch); [done|]. simpl.
  f_equal. rewrite (search_spec_elem _ _ _ _ Hsearch). apply bool_decide_ext. set_solver.
Qed.

(** [intsetGet] enumerates the set in increasing order, and answers 0 exactly past the
    last position; [intsetMin] and [intsetMax] are the bounds of the set; [intsetRandom] is
    a member whatever [rand()] returned. *)
Theorem intset_access_ok s X :
  intset_denotes s X → intsetLen s < 2 ^ 31 →
  ∃ vs, StronglySorted Z.lt vs ∧ list_to_set vs = X ∧
    (∀ i, 0 ≤ i < 2 ^ 31 → intsetGet s i = Some (vs !! Z.to_nat i)) ∧
    (X ≠ ∅ → ∃ lo hi, intsetMin s = Some lo ∧ intsetMax s = Some hi ∧ lo ∈ X ∧ hi ∈ X ∧
                      ∀ x, x ∈ X → lo ≤ x ≤ hi) ∧
    (X ≠ ∅ → ∀ rand, 0 ≤ rand → ∃ x, intsetRandom rand s = Some x ∧ x ∈ X).
Proof.
  intros (vs & [Hr Hs] & <-) Hlim. exists vs. split_and!; [done..| | |].
  - intros i Hi. unfold intsetGet. rewrite (repr_len _ _ Hr). case_decide.
    + destruct (lookup_lt_is_Some_2 vs (Z.to_nat i)) as [x Hx]; [lia|].
      rewrite swrap_small by range_lia. rewrite (get_repr_Z _ _ _ x Hr) by (done || lia).
      by rewrite Hx.
    + by rewrite lookup_ge_None_2 by lia.
  - unfold intsetLen in Hlim. rewrite (repr_len _ _ Hr) in Hlim.
    intros Hne. destruct vs as [|x0 vs']; [set_solver|]. set (vs := x0 :: vs') in *.
    assert (0 < zlen vs) by (simpl; lia).
    destruct (lookup_lt_is_Some_2 vs (Z.to_nat (zlen vs - 1))) as [hi Hhi]; [lia|].
    exists x0, hi. split; [by apply (get_repr s vs 0 x0 Hr)|]. split.
    { unfold intsetMax. rewrite (repr_len _ _ Hr), uwrap_small, swrap_small by range_lia.
      apply (get_repr_Z _ _ _ _ Hr); [lia|done]. }
    split; [set_solver|]. split; [apply elem_of_list_to_set; by eapply list_elem_of_lookup_2|].
    intros x [i Hi]%elem_of_list_to_set%list_elem_of_lookup. split.
    + destruct i as [|i]; [simpl in Hi; simplify_eq; lia|].
      pose proof (sorted_lookup_lt vs 0 (S i) x0 x Hs eq_refl Hi). lia.
    + apply lookup_lt_Some in Hi as Hil.
      destruct (decide (i = Z.to_nat (zlen vs - 1))) as [->|]; [simplify_eq; lia|].
      pose proof (sorted_lookup_lt vs _ _ _ _ Hs Hi Hhi). lia.
  - unfold intsetLen in Hlim. rewrite (repr_len _ _ Hr) in Hlim.
    intros Hne rand Hrand. unfold intsetRandom. rewrite (repr_len _ _ Hr).
    destruct (decide (zlen vs = 0)) as [H0|H0].
    { destruct vs; [set_solver|simpl in H0; lia]. }
    pose proof (Z.mod_pos_bound rand (zlen vs)).
    destruct (lookup_lt_is_Some_2 vs (Z.to_nat (rand `mod` zlen vs))) as [x Hx]; [lia|].
    exists x. rewrite swrap_small by range_lia.
    split; [apply (get_repr_Z _ _ _ _ Hr); [lia|done]|].
    apply elem_of_list_to_set. by eapply list_elem_of_lookup_2.
Qed.

End correctness.

(** ** Integrity of a block read from a dump *)

Section validation.

(** The elements a block of [n] records of [e] bytes stores. *)
Definition decode_slots (e : Z) (n : nat) (c : bytes) : list Z :=
  (λ i, swrap (e * 8) (le_val (take (Z.to_nat e) (drop (i * Z.to_nat e) c)))) <$> seq 0 n.

Lemma decode_slots_repr s :
  enc_ok (is_encoding s) → bytes_ok (is_contents s) → 0 ≤ is_length s →
  zlen (is_contents s) = is_length s * is_encoding s →
  intset_repr s (decode_slots (is_encoding s) (Z.to_nat (is_length s)) (is_contents s)).
Proof.
  intros He Hok Hl Hsz.
  assert (2 ≤ is_encoding s ≤ 8) as Hb by (unfold enc_ok in *; lia).
  assert (zlen (decode_slots (is_encoding s) (Z.to_nat (is_length s)) (is_contents s))
    = is_length s) as Hlen.
  { unfold decode_slots. rewrite length_fmap, length_seq. lia. }
  split; [done|done|by rewrite Hlen|..].
  - intros i v Hi. unfold decode_slots in Hi. apply list_lookup_fmap_Some in Hi as (j & Hv & Hj).
    apply lookup_seq in Hj as [-> Hj]. subst v. simpl. unfold slot_at.
    assert (Z.of_nat i * is_encoding s + is_encoding s ≤ zlen (is_contents s)) by nia.
    assert (mem_read (is_contents s) (Z.of_nat i * is_encoding s) (is_encoding s)
      = Some (take (Z.to_nat (is_encoding s)) (drop (i * Z.to_nat (is_encoding s)) (is_contents s))))
      as Hread.
    { unfold mem_read. rewrite decide_True by (unfold in_block; nia). do 3 f_equal. nia. }
    rewrite le_bytes_swrap_val; [by eapply mem_read_bytes_at|lia|done|by eapply mem_read_length|].
    by eapply mem_read_bytes_ok.
  - apply Forall_fmap, Forall_forall. intros i _. simpl. apply swrap_range. lia.
Qed.

(** The value of each slot is determined by the block. *)
Lemma repr_unique s vs vs' : intset_repr s vs → intset_repr s vs' → vs = vs'.
Proof.
  intros H H'. apply list_eq. intros i.
  assert (length vs = length vs') as Hl.
  { pose proof (repr_len _ _ H). pose proof (repr_len _ _ H'). lia. }
  destruct (decide (i < length vs)%nat).
  - destruct (lookup_lt_is_Some_2 vs i) as [v Hv]; [lia|].
    destruct (lookup_lt_is_Some_2 vs' i) as [v' Hv']; [lia|].
    pose proof (get_repr _ _ _ _ H Hv). pose proof (get_repr _ _ _ _ H' Hv'). congruence.
  - by rewrite !lookup_ge_None_2 by lia.
Qed.

Lemma validate_loop_ok s vs n i prev :
  intset_repr s vs → zlen vs < 2 ^ 31 → (i + n = length vs)%nat →
  ∃ b, intsetValidate_loop n s (Z.of_nat i) prev = Some b ∧
       (b = true ↔ Sorted Z.lt (prev :: drop i vs)).
Proof.
  intros Hr Hlen. revert i prev. induction n as [|n IH]; intros i prev Hi; simpl.
  { exists true. split; [done|]. rewrite drop_ge by lia.
    split; [intros _; repeat constructor|done]. }
  destruct (lookup_lt_is_Some_2 vs i) as [x Hx]; [lia|].
  rewrite swrap_small by range_lia. rewrite (get_repr _ _ _ _ Hr Hx). simpl.
  rewrite (drop_S _ _ _ Hx). case_decide as Hle.
  - exists false. split; [done|]. split; [done|]. intros Hs.
    apply Sorted_inv in Hs as [_ Hh]. inversion Hh. lia.
  - destruct (IH (S i) x) as (b & Hb & Hiff); [lia|]. exists b.
    replace (Z.of_nat i + 1) with (Z.of_nat (S i)) by lia. split; [done|].
    rewrite Hiff. split.
    + intros Hs. constructor; [done|]. constructor. lia.
    + intros Hs. by apply Sorted_inv in Hs as [? _].
Qed.

Lemma blob_parse s :
  0 ≤ is_encoding s < 2 ^ 32 → 0 ≤ is_length s < 2 ^ 32 → intset_of_blob (intset_blob s) = Some s.
Proof.
  intros He Hl. unfold intset_of_blob, intset_blob.
  set (a := le_bytes 4 (is_encoding s)). set (b := le_bytes 4 (is_length s)).
  assert (zlen a = 4) as Ha by by apply le_bytes_length.
  assert (zlen b = 4) as Hb by by apply le_bytes_length.
  rewrite (bytes_at_read _ 0 a 4), (bytes_at_read _ 4 b 4); try done.
  - bind_simpl. rewrite app_assoc, drop_app_length' by (rewrite length_app; lia).
    unfold a, b. rewrite !le_val_bytes, !uwrap_small by done. by destruct s.
  - rewrite <- Ha. apply bytes_at_mid.
  - apply (bytes_at_mid []).
Qed.

Lemma blob_inv s X :
  intset_denotes s X → X ≠ ∅ → zlen (intset_blob s) < 2 ^ 31 →
  intset_of_blob (intset_blob s) = Some s ∧ 8 ≤ zlen (intset_blob s) ∧
  enc_ok (is_encoding s) ∧
  zlen (intset_blob s) = 8 + is_length s * is_encoding s ∧ is_length s ≠ 0.
Proof.
  intros Hd Hne Hlen. pose proof (denotes_length _ _ Hd) as Hl. unfold intsetLen in Hl.
  destruct Hd as (vs & [Hr _] & _). pose proof (repr_enc _ _ Hr) as He.
  assert (zlen (intset_blob s) = 8 + is_length s * is_encoding s) as Hsz.
  { unfold intset_blob. rewrite !length_app, !Nat2Z.inj_add, !le_bytes_length by lia.
    rewrite (repr_size _ _ Hr), (repr_len _ _ Hr). lia. }
  assert (2 ≤ is_encoding s ≤ 8) by (unfold enc_ok in *; lia).
  split_and!; [apply blob_parse; pow2_lit; nia|nia|done|done|].
  intros H0. apply Hne, leibniz_equiv, size_empty_inv. lia.
Qed.

Lemma of_blob_ok p :
  bytes_ok p → 8 ≤ zlen p →
  ∃ s, intset_of_blob p = Some s ∧ p = intset_blob s ∧ bytes_ok (is_contents s) ∧
       in_urange 32 (is_encoding s) ∧ in_urange 32 (is_length s) ∧
       zlen (is_contents s) = zlen p - 8.
Proof.
  intros Hok Hlen. unfold intset_of_blob, intset_blob.
  destruct (mem_read_Some p 0 4) as [e He]; [unfold in_block; lia|].
  destruct (mem_read_Some p 4 4) as [l Hl]; [unfold in_block; lia|].
  rewrite He, Hl. eexists. split; [done|]. cbn [is_encoding is_length is_contents].
  pose proof (mem_read_length _ _ _ _ He) as Hle. pose proof (mem_read_length _ _ _ _ Hl) as Hll.
  pose proof (mem_read_bytes_ok _ _ _ _ He Hok). pose proof (mem_read_bytes_ok _ _ _ _ Hl Hok).
  split_and!.
  - rewrite !le_bytes_val by done. unfold mem_read in He, Hl.
    rewrite decide_True in He by (unfold in_block; lia).
    rewrite decide_True in Hl by (unfold in_block; lia). simplify_eq.
    do 8 (destruct p; [simpl in Hlen; lia|]). done.
  - by apply Forall_drop.
  - change 32 with (4 * 8). rewrite <- Hle. by apply le_val_range.
  - change 32 with (4 * 8). rewrite <- Hll. by apply le_val_range.
  - rewrite length_drop. lia.
Qed.

Lemma intset_validate_ok p :
  bytes_ok p → zlen p < 2 ^ 31 →
  ∃ b, intsetValidateIntegrity p true = Some b ∧
       (b = true ↔ ∃ s X, X ≠ ∅ ∧ intset_denotes s X ∧ p = intset_blob s).
Proof.
  intros Hok Hlen. unfold intsetValidateIntegrity, sizeof_intset.
  case_decide as Hsmall.
  { exists false. split; [done|]. split; [done|]. intros (s & X & Hne & Hd & ->).
    destruct (blob_inv s X Hd Hne Hlen) as (_ & ? & _). lia. }
  destruct (of_blob_ok p Hok) as (s & Hs & Hp & Hokc & Hre & Hrl & Hsz); [lia|].
  rewrite Hs. bind_simpl.
  assert (¬ (enc_ok (is_encoding s) ∧ zlen p = 8 + is_length s * is_encoding s ∧
      is_length s ≠ 0) →
    ∃ b, Some false = Some b ∧
         (b = true ↔ ∃ s X, X ≠ ∅ ∧ intset_denotes s X ∧ p = intset_blob s)) as Hrej.
  { intros Hno. exists false. split; [done|]. split; [done|]. intros (s' & X & Hne & Hd & ->).
    destruct (blob_inv s' X Hd Hne Hlen) as (Hs' & _ & He & Hz & H0).
    rewrite Hs in Hs'. simplify_eq. destruct (Hno (conj He (conj Hz H0))). }
  unfold enc_ok, INTSET_ENC_INT16, INTSET_ENC_INT32, INTSET_ENC_INT64 in *.
  case_decide as Henc; [|apply Hrej; intros (? & _); lia].
  assert (is_encoding s ≤ 8) as He8 by lia.
  assert (2 ≤ is_encoding s) as He2 by lia.
  assert (0 ≤ is_length s * is_encoding s < 2 ^ 40)
    by (unfold in_urange in *; pow2_lit; nia).
  rewrite (uwrap_small 64 (is_length s * is_encoding s)) by range_lia.
  rewrite uwrap_small by range_lia.
  case_decide as Hsize; [apply Hrej; intros (_ & ? & _); lia|].
  case_decide as Hz; [apply Hrej; tauto|]. simpl.
  assert (intset_repr s (decode_slots (is_encoding s) (Z.to_nat (is_length s)) (is_contents s)))
    as Hr by (apply decode_slots_repr; [unfold enc_ok; lia|done|apply Hrl|lia]).
  set (vs := decode_slots _ _ _) in *. pose proof (repr_len _ _ Hr) as Hvl.
  destruct (lookup_lt_is_Some_2 vs 0) as [x0 Hx0]; [unfold in_urange in *; lia|].
  rewrite (get_repr s vs 0 x0 Hr Hx0 : _intsetGet s 0 = _). simpl.
  destruct (validate_loop_ok s vs (Z.to_nat (is_length s - 1)) 1 x0 Hr) as (b & Hb & Hiff);
    [nia|lia|].
  exists b. split; [done|]. rewrite Hiff, <- (drop_S vs x0 0 Hx0), drop_0. split.
  - intros Hsort. exists s, (list_to_set vs). split; [|split; [|done]].
    + apply list_elem_of_lookup_2 in Hx0. set_solver.
    + exists vs. split; [|done]. split; [done|]. apply Sorted_StronglySorted; [|done].
      intros ???. lia.
  - intros (s' & X & Hne & Hd & ->). destruct (blob_inv s' X Hd Hne Hlen) as (Hs' & _).
    rewrite Hs in Hs'. simplify_eq. destruct Hd as (vs' & [Hr' Hs'] & _).
    rewrite (repr_unique _ _ _ Hr Hr'). by apply StronglySorted_Sorted.
Qed.

(** C35. The deep check accepts exactly the blocks of the non-empty well-formed sets, and it
    never reads outside the block, however corrupt the block is. *)
Theorem intsetValidateIntegrity_correct p :
  bytes_ok p → zlen p < 2 ^ 31 →
  ∃ b, intsetValidateIntegrity p true = Some b ∧
       (b = true ↔ ∃ s X, X ≠ ∅ ∧ intset_denotes s X ∧ p = intset_blob s).
Proof. apply intset_validate_ok. Qed.

End validation.

(** ** Concrete sets *)

Definition set_3_9 : gset Z := {[3; 9]}.
Definition intset_3_9 : intset := mk_intset 2 2 [3; 0; 9; 0].

Lemma intset_3_9_denotes : intset_denotes intset_3_9 set_3_9.
Proof.
  exists [3; 9]. split; [split; [split|]|unfold set_3_9; set_solver]; try done.
  - by left.
  - intros i v Hi. eapply (mem_read_bytes_at _ _ 2).
    destruct i as [|[|i]]; simplify_eq/=; reflexivity.
  - simpl. repeat constructor; range_lia.
  - repeat constructor; lia.
Qed.

Lemma intsetAdd_refines_witness :
  ∃ s', intsetAdd (λ _, 7) intset_3_9 (-70000) = Some (s', bool_decide (-70000 ∉ set_3_9)) ∧
        intset_denotes s' ({[-70000]} ∪ set_3_9) ∧ is_encoding s' = Z.max (is_encoding intset_3_9) (_intsetValueEncoding (-70000)).
Proof.
  apply (intsetAdd_refines (λ _, 7) intset_3_9 set_3_9 (-70000)).
  - apply intset_3_9_denotes.
  - vm_compute. reflexivity.
  - split; vm_compute; congruence.
Defined.

Lemma intsetRemove_refines_witness :
  ∃ s', intsetRemove (λ _, 7) intset_3_9 3 = Some (s', bool_decide (3 ∈ set_3_9)) ∧
        intset_denotes s' (set_3_9 ∖ {[3]}).
Proof.
  apply (intsetRemove_refines (λ _, 7) intset_3_9 set_3_9 3).
  - apply intset_3_9_denotes.
  - vm_compute. congruence.
  - split; vm_compute; congruence.
Defined.

Lemma intsetFind_refines_witness :
  intsetFind intset_3_9 9 = Some (bool_decide (9 ∈ set_3_9)).
Proof.
  apply (intsetFind_refines intset_3_9 set_3_9 9).
  - apply intset_3_9_denotes.
  - vm_compute. reflexivity.
  - split; vm_compute; congruence.
Defined.

Lemma intset_access_ok_witness :
  ∃ vs : list Z, intsetGet intset_3_9 1 = Some (vs !! 1%nat) ∧ list_to_set vs = set_3_9.
Proof.
  destruct (intset_access_ok intset_3_9 set_3_9 intset_3_9_denotes) as (vs & _ & Hset & Hget & _).
  - vm_compute. reflexivity.
  - exists vs. split; [|exact Hset]. apply (Hget 1). split; [lia|vm_compute; reflexivity].
Defined.

Lemma intsetValidateIntegrity_correct_witness :
  ∃ b, intsetValidateIntegrity (intset_blob intset_3_9) true = Some b ∧
       (b = true ↔ ∃ s X, X ≠ ∅ ∧ intset_denotes s X ∧ intset_blob intset_3_9 = intset_blob s).
Proof.
  apply (intsetValidateIntegrity_correct (intset_blob intset_3_9)).
  - vm_compute. repeat constructor; congruence.
  - vm_compute. reflexivity.
Defined.
