(* ===== verification/Dict.v ===== *)
(** * dict.c: chained hash tables with incremental rehashing

A dictionary has two tables.  [ht_table[1]] is in use only while a resize is in progress:
every lookup or update moves one bucket of [ht_table[0]] over.  A failed assertion and a
read outside a table are [None]. *)

From S2P Require Import Prelude.

Local Open Scope Z_scope.

(** ** Data *)

Inductive dictResizeEnable :=
  | DICT_RESIZE_ENABLE
  | DICT_RESIZE_AVOID
  | DICT_RESIZE_FORBID.

Global Instance dictResizeEnable_eq_dec : EqDecision dictResizeEnable.
Proof. solve_decision. Defined.

(** The fields of [dictType] that decide what a table does.  Keys and values are immutable
    here, so duplication is the identity and the destructors have nothing to do. *)
Record dictType (K : Type) := mk_dictType {
  hashFunction : K → Z;
  keyCompare : K → K → bool;
  (** [expandAllowed moreMem used size]: the ratio is given by its two operands. *)
  expandAllowed : option (Z → Z → Z → bool);
  no_value : bool;
  keys_are_odd : bool;
  (** The least significant bit of the key's address. *)
  key_lsb : K → bool;
}.
Arguments hashFunction {_}.
Arguments keyCompare {_}.
Arguments expandAllowed {_}.
Arguments no_value {_}.
Arguments keys_are_odd {_}.
Arguments key_lsb {_}.

(** A [dictEntry *]: the low bits of the pointer tell a bare key, an entry without value
    and a full entry apart.  The value of a fresh entry is not set yet ([None]). *)
Inductive dictEntry (K V : Type) :=
  | ENull
  | EKey (k : K)
  | ENoValue (k : K) (next : dictEntry K V)
  | ENormal (k : K) (v : option V) (next : dictEntry K V).
Arguments ENull {_ _}.
Arguments EKey {_ _}.
Arguments ENoValue {_ _}.
Arguments ENormal {_ _}.

(** One hash table: [ht_table[i]] ([[]] for NULL), [ht_used[i]], [ht_size_exp[i]]. *)
Record dictht (K V : Type) := mk_dictht {
  ht_table : list (dictEntry K V);
  ht_used : Z;
  ht_size_exp : Z;
}.
Arguments mk_dictht {_ _}.
Arguments ht_table {_ _}.
Arguments ht_used {_ _}.
Arguments ht_size_exp {_ _}.

(** [struct dict]. *)
Record dict (K V : Type) := mk_dict {
  ht0 : dictht K V;
  ht1 : dictht K V;
  rehashidx : Z;
  pauserehash : Z;
}.
Arguments mk_dict {_ _}.
Arguments ht0 {_ _}.
Arguments ht1 {_ _}.
Arguments rehashidx {_ _}.
Arguments pauserehash {_ _}.

(** The address of an entry: table, bucket and rank in the chain. *)
Record entry_ref := mk_ref { ref_table : bool; ref_idx : Z; ref_pos : nat }.

Definition DICT_HT_INITIAL_EXP : Z := 2.
Definition DICT_HT_INITIAL_SIZE : Z := Z.shiftl 1 DICT_HT_INITIAL_EXP.
Definition dict_force_resize_ratio : Z := 5.
(** The size of a [dictEntry] pointer. *)
Definition sizeof_ptr : Z := 8.

Definition DICTHT_SIZE (exp : Z) : Z := if decide (exp = -1) then 0 else u64 (Z.shiftl 1 exp).
Definition DICTHT_SIZE_MASK (exp : Z) : Z := if decide (exp = -1) then 0 else DICTHT_SIZE exp - 1.

Section operations.
Context {K V : Type}.
Context (dt : dictType K).
(** The global setting. *)
Context (dict_can_resize : dictResizeEnable).

Implicit Types d : dict K V.
Implicit Types e : dictEntry K V.

(** ** Entries *)

Definition entryIsKey e : bool := match e with EKey _ => true | _ => false end.
Definition entryIsNormal e : bool := match e with ENormal _ _ _ => true | _ => false end.
Definition entryIsNoValue e : bool := match e with ENoValue _ _ => true | _ => false end.
Definition entryHasValue e : bool := entryIsNormal e.
Definition is_null e : bool := match e with ENull => true | _ => false end.

Definition dictGetKey e : option K :=
  match e with ENull => None | EKey k | ENoValue k _ | ENormal k _ _ => Some k end.

(** The value of an entry that has one (asserted). *)
Definition dictGetVal e : option (option V) :=
  match e with ENormal _ v _ => Some v | _ => None end.

Definition dictGetNext e : dictEntry K V :=
  match e with ENull => ENull | EKey _ => ENull | ENoValue _ n => n | ENormal _ _ n => n end.

Definition dictSetNext e (next : dictEntry K V) : option (dictEntry K V) :=
  match e with
  | ENull | EKey _ => None
  | ENoValue k _ => Some (ENoValue k next)
  | ENormal k v _ => Some (ENormal k v next)
  end.

(** [key == he_key || dictCompareKeys(d, key, he_key)]. *)
Definition dictCompareKeys (key he_key : K) : bool := keyCompare dt key he_key.

(** ** Tables *)

Definition ht d (i : bool) : dictht K V := if i then ht1 d else ht0 d.
Definition set_ht d (i : bool) (h : dictht K V) : dict K V :=
  if i then mk_dict (ht0 d) h (rehashidx d) (pauserehash d)
  else mk_dict h (ht1 d) (rehashidx d) (pauserehash d).
Definition set_rehashidx d (r : Z) : dict K V := mk_dict (ht0 d) (ht1 d) r (pauserehash d).
Definition set_pauserehash d (p : Z) : dict K V := mk_dict (ht0 d) (ht1 d) (rehashidx d) p.

(** [h->ht_table[idx]]. *)
Definition ht_get (h : dictht K V) (idx : Z) : option (dictEntry K V) :=
  if decide (0 ≤ idx) then ht_table h !! Z.to_nat idx else None.

(** [h->ht_table[idx] = e; h->ht_used += du]. *)
Definition ht_put (h : dictht K V) (idx : Z) e (du : Z) : option (dictht K V) :=
  if decide (0 ≤ idx < zlen (ht_table h))
  then Some (mk_dictht (<[Z.to_nat idx := e]> (ht_table h)) (ht_used h + du) (ht_size_exp h))
  else None.

Definition dictSize d : Z := ht_used (ht0 d) + ht_used (ht1 d).
Definition dictIsRehashing d : bool := negb (bool_decide (rehashidx d = -1)).
Definition dictSlots d : Z := DICTHT_SIZE (ht_size_exp (ht0 d)) + DICTHT_SIZE (ht_size_exp (ht1 d)).
Definition dictPauseRehashing d : dict K V := set_pauserehash d (s16 (pauserehash d + 1)).
Definition dictResumeRehashing d : dict K V := set_pauserehash d (s16 (pauserehash d - 1)).

Definition dictht_empty : dictht K V := mk_dictht [] 0 (-1).

Definition _dictReset d (htidx : bool) : dict K V := set_ht d htidx dictht_empty.

Definition dictCreate : dict K V := mk_dict dictht_empty dictht_empty (-1) 0.

(** ** Resizing *)

(** The [while(1)] loop from exponent [e]; 64 iterations reach every [unsigned long]. *)
Fixpoint _dictNextExp_loop (fuel : nat) (e size : Z) : option Z :=
  match fuel with
  | O => None
  | S fuel => if decide (u64 (Z.shiftl 1 e) >= size) then Some e else _dictNextExp_loop fuel (u8 (e + 1)) size
  end.

Definition _dictNextExp (size : Z) : option Z :=
  if decide (size >= LLONG_MAX) then Some 63
  else _dictNextExp_loop 64 DICT_HT_INITIAL_EXP size.

(** [try_alloc]: [None] for the allocation that cannot fail, [Some ok] for [ztrycalloc].
    The result is the dictionary, DICT_OK as [true], and [*malloc_failed]. *)
Definition _dictExpand d (size : Z) (try_alloc : option bool) : option (dict K V * bool * bool) :=
  if decide (dictIsRehashing d = true ∨ ht_used (ht0 d) > size) then Some (d, false, false)
  else
    new_ht_size_exp ← _dictNextExp size;
    let newsize := u64 (Z.shiftl 1 new_ht_size_exp) in
    if decide (newsize < size ∨ u64 (newsize * sizeof_ptr) < newsize) then Some (d, false, false)
    else if decide (new_ht_size_exp = ht_size_exp (ht0 d)) then Some (d, false, false)
    else if decide (try_alloc = Some false) then Some (d, false, true)
    else
      let new := mk_dictht (replicate (Z.to_nat newsize) ENull) 0 new_ht_size_exp in
      if decide (ht_table (ht0 d) = []) then Some (set_ht d false new, true, false)
      else Some (set_rehashidx (set_ht d true new) 0, true, false).

Definition dictExpand d (size : Z) : option (dict K V * bool) :=
  '(d, ok, _) ← _dictExpand d size None; Some (d, ok).

Definition dictTryExpand d (size : Z) (alloc_ok : bool) : option (dict K V * bool) :=
  '(d, _, malloc_failed) ← _dictExpand d size (Some alloc_ok); Some (d, negb malloc_failed).

Definition dictResize d : option (dict K V * bool) :=
  if decide (dict_can_resize ≠ DICT_RESIZE_ENABLE ∨ dictIsRehashing d = true)
  then Some (d, false)
  else dictExpand d (Z.max (ht_used (ht0 d)) DICT_HT_INITIAL_SIZE).

Definition dictTypeExpandAllowed d : option bool :=
  match expandAllowed dt with
  | None => Some true
  | Some f =>
      e ← _dictNextExp (ht_used (ht0 d) + 1);
      Some (f (u64 (DICTHT_SIZE e * sizeof_ptr)) (ht_used (ht0 d)) (DICTHT_SIZE (ht_size_exp (ht0 d))))
  end.

Definition _dictExpandIfNeeded d : option (dict K V * bool) :=
  let used := ht_used (ht0 d) in
  let size := DICTHT_SIZE (ht_size_exp (ht0 d)) in
  if dictIsRehashing d then Some (d, true)
  else if decide (size = 0) then dictExpand d DICT_HT_INITIAL_SIZE
  else
    allowed ← dictTypeExpandAllowed d;
    if negb allowed then Some (d, true)
    else if decide ((dict_can_resize = DICT_RESIZE_ENABLE ∧ used >= size) ∨
                    (dict_can_resize ≠ DICT_RESIZE_FORBID ∧ used / size > dict_force_resize_ratio))
    then dictExpand d (used + 1)
    else Some (d, true).

(** ** Incremental rehashing *)

(** The destination of the entry [de] of the bucket [rehashidx], placed in front of
    [bucket]: the body of the inner [while(de)] loop. *)
Definition rehash_relink (de bucket : dictEntry K V) (key : K) : option (dictEntry K V) :=
  if no_value dt then
    if keys_are_odd dt && is_null bucket then
      if key_lsb dt key then Some (EKey key) else None
    else if entryIsKey de then Some (ENoValue key bucket)
    else if entryIsNoValue de then dictSetNext de bucket else None
  else dictSetNext de bucket.

Definition rehash_entry d (de : dictEntry K V) : option (dict K V) :=
  key ← dictGetKey de;
  let h := if decide (ht_size_exp (ht1 d) > ht_size_exp (ht0 d))
           then Z.land (hashFunction dt key) (DICTHT_SIZE_MASK (ht_size_exp (ht1 d)))
           else Z.land (rehashidx d) (DICTHT_SIZE_MASK (ht_size_exp (ht1 d))) in
  bucket ← ht_get (ht1 d) h;
  de ← rehash_relink de bucket key;
  t1 ← ht_put (ht1 d) h de 1;
  let t0 := mk_dictht (ht_table (ht0 d)) (ht_used (ht0 d) - 1) (ht_size_exp (ht0 d)) in
  Some (mk_dict t0 t1 (rehashidx d) (pauserehash d)).

(** [while(de)]: move the keys of a bucket from the old to the new table. *)
Fixpoint rehash_chain d (de : dictEntry K V) : option (dict K V) :=
  match de with
  | ENull => Some d
  | EKey _ => rehash_entry d de
  | ENoValue _ next => d ← rehash_entry d de; rehash_chain d next
  | ENormal _ _ next => d ← rehash_entry d de; rehash_chain d next
  end.

(** [while(d->ht_table[0][d->rehashidx] == NULL)]: the dictionary and the visits left; 0
    visits left is the early [return 1]. *)
Fixpoint rehash_skip (empty_visits : nat) d : option (dict K V * nat) :=
  e ← ht_get (ht0 d) (rehashidx d);
  if is_null e then
    match empty_visits with
    | O => None
    | S ev =>
        let d := set_rehashidx d (rehashidx d + 1) in
        match ev with O => Some (d, O) | S _ => rehash_skip ev d end
    end
  else Some (d, empty_visits).

(** [while(n-- && d->ht_used[0] != 0)]; the flag is the early [return 1]. *)
Fixpoint rehash_loop (n empty_visits : nat) d : option (dict K V * bool) :=
  match n with
  | O => Some (d, false)
  | S n =>
      if decide (ht_used (ht0 d) = 0) then Some (d, false)
      else if decide (DICTHT_SIZE (ht_size_exp (ht0 d)) > rehashidx d) then
        '(d, ev) ← rehash_skip empty_visits d;
        match ev with
        | O => Some (d, true)
        | S _ =>
            de ← ht_get (ht0 d) (rehashidx d);
            d ← rehash_chain d de;
            t0 ← ht_put (ht0 d) (rehashidx d) ENull 0;
            rehash_loop n ev (set_rehashidx (set_ht d false t0) (rehashidx d + 1))
        end
      else None
  end.

(** The flag is the result: there are still keys to move. *)
Definition dictRehash d (n : nat) : option (dict K V * bool) :=
  let s0 := DICTHT_SIZE (ht_size_exp (ht0 d)) in
  let s1 := DICTHT_SIZE (ht_size_exp (ht1 d)) in
  if decide (dict_can_resize = DICT_RESIZE_FORBID ∨ dictIsRehashing d = false)
  then Some (d, false)
  else if decide (dict_can_resize = DICT_RESIZE_AVOID ∧
                  ((s1 > s0 ∧ s1 / s0 < dict_force_resize_ratio) ∨
                   (s1 < s0 ∧ s0 / s1 < dict_force_resize_ratio)))
  then Some (d, false)
  else
    '(d, early) ← rehash_loop n (n * 10) d;
    if early : bool then Some (d, true)
    else if decide (ht_used (ht0 d) = 0) then
      Some (set_rehashidx (_dictReset (set_ht d false (ht1 d)) true) (-1), false)
    else Some (d, true).

Definition _dictRehashStep d : option (dict K V) :=
  if decide (pauserehash d = 0) then fst <$> dictRehash d 1 else Some d.

(** [if (dictIsRehashing(d)) _dictRehashStep(d);] *)
Definition rehash_if_needed d : option (dict K V) :=
  if dictIsRehashing d then _dictRehashStep d else Some d.

(** The loop [while(dictRehash(d,100))] of [dictRehashMilliseconds]: [clock i] is the time
    spent when iteration [i] reads the clock; the result counts the rehashing steps. *)
Fixpoint rehash_ms_loop (fuel : nat) d (ms : Z) (clock : nat → Z) (i : nat) (rehashes : Z)
    : option (dict K V * Z) :=
  match fuel with
  | O => None
  | S fuel =>
      '(d, more) ← dictRehash d 100;
      if more : bool then
        let rehashes := rehashes + 100 in
        if decide (clock i > ms) then Some (d, rehashes)
        else rehash_ms_loop fuel d ms clock (S i) rehashes
      else Some (d, rehashes)
  end.

(** Every call that has more to do passes a bucket, so one iteration per bucket and a last
    one are enough. *)
Definition dictRehashMilliseconds d (ms : Z) (clock : nat → Z) : option (dict K V * Z) :=
  if decide (pauserehash d > 0) then Some (d, 0)
  else rehash_ms_loop (S (S (length (ht_table (ht0 d))))) d ms clock 0 0.

(** ** Chains *)

(** The rank of the first entry with this key. *)
Fixpoint chain_find (key : K) e : option nat :=
  match e with
  | ENull => None
  | EKey k => if dictCompareKeys key k then Some O else None
  | ENoValue k next | ENormal k _ next =>
      if dictCompareKeys key k then Some O else S <$> chain_find key next
  end.

Fixpoint chain_nth e (pos : nat) : dictEntry K V :=
  match pos with O => e | S pos => chain_nth (dictGetNext e) pos end.

(** [*plink = dictGetNext(he)] for the link at rank [pos]. *)
Fixpoint chain_unlink e (pos : nat) : option (dictEntry K V) :=
  match pos with
  | O => if is_null e then None else Some (dictGetNext e)
  | S pos => next ← chain_unlink (dictGetNext e) pos; dictSetNext e next
  end.

(** [de->v.val = val], the entry having a value (asserted). *)
Fixpoint chain_set_val e (pos : nat) (val : V) : option (dictEntry K V) :=
  match pos, e with
  | O, ENormal k _ next => Some (ENormal k (Some val) next)
  | O, _ => None
  | S pos, _ => next ← chain_set_val (dictGetNext e) pos val; dictSetNext e next
  end.

(** The loop [for (table = 0; table <= 1; table++)] of the lookups: where the key is. *)
Definition dict_search d (key : K) : option (option entry_ref) :=
  let h := hashFunction dt key in
  let idx0 := Z.land h (DICTHT_SIZE_MASK (ht_size_exp (ht0 d))) in
  he0 ← ht_get (ht0 d) idx0;
  match chain_find key he0 with
  | Some pos => Some (Some (mk_ref false idx0 pos))
  | None =>
      if negb (dictIsRehashing d) then Some None
      else
        let idx1 := Z.land h (DICTHT_SIZE_MASK (ht_size_exp (ht1 d))) in
        he1 ← ht_get (ht1 d) idx1;
        Some (mk_ref true idx1 <$> chain_find key he1)
  end.

(** What a reference points to. *)
Definition deref d (r : entry_ref) : option (dictEntry K V) :=
  e ← ht_get (ht d (ref_table r)) (ref_idx r); Some (chain_nth e (ref_pos r)).

(** ** Lookup *)

Definition dictFind d (key : K) : option (dict K V * option entry_ref) :=
  if decide (dictSize d = 0) then Some (d, None)
  else
    d ← rehash_if_needed d;
    r ← dict_search d key;
    Some (d, r).

Definition dictFetchValue d (key : K) : option (dict K V * option V) :=
  '(d, r) ← dictFind d key;
  match r with
  | None => Some (d, None)
  | Some r => e ← deref d r; v ← dictGetVal e; Some (d, v)
  end.

(** ** Insertion *)

(** What [dictFindPositionForInsert] found: an existing entry, the bucket for a new one, or
    NULL because the table could not be expanded. *)
Inductive insert_position :=
  | Existing (r : entry_ref)
  | Bucket (table : bool) (idx : Z)
  | NoPosition.

Definition dictFindPositionForInsert d (key : K) : option (dict K V * insert_position) :=
  let hash := hashFunction dt key in
  d ← rehash_if_needed d;
  '(d, ok) ← _dictExpandIfNeeded d;
  if negb ok then Some (d, NoPosition)
  else
    r ← dict_search d key;
    match r with
    | Some r => Some (d, Existing r)
    | None =>
        let table := dictIsRehashing d in
        Some (d, Bucket table (Z.land hash (DICTHT_SIZE_MASK (ht_size_exp (ht d table)))))
    end.

Definition dictInsertAtPosition d (key : K) (table : bool) (idx : Z) : option (dict K V * entry_ref) :=
  let htidx := dictIsRehashing d in
  if decide (table = htidx ∧ 0 ≤ idx ≤ DICTHT_SIZE_MASK (ht_size_exp (ht d htidx))) then
    bucket ← ht_get (ht d table) idx;
    entry ← (if no_value dt then
               if keys_are_odd dt && is_null bucket
               then if key_lsb dt key then Some (EKey key) else None
               else Some (ENoValue key bucket)
             else Some (ENormal key None bucket));
    h ← ht_put (ht d htidx) idx entry 1;
    Some (set_ht d htidx h, mk_ref htidx idx 0)
  else None.

(** The new entry, or the existing one. *)
Definition dictAddRaw d (key : K) : option (dict K V * option entry_ref * option entry_ref) :=
  '(d, p) ← dictFindPositionForInsert d key;
  match p with
  | Existing r => Some (d, None, Some r)
  | NoPosition => Some (d, None, None)
  | Bucket table idx =>
      '(d, r) ← dictInsertAtPosition d key table idx;
      Some (d, Some r, None)
  end.

Definition dictSetVal d (r : entry_ref) (val : V) : option (dict K V) :=
  e ← ht_get (ht d (ref_table r)) (ref_idx r);
  e ← chain_set_val e (ref_pos r) val;
  h ← ht_put (ht d (ref_table r)) (ref_idx r) e 0;
  Some (set_ht d (ref_table r) h).

(** DICT_OK is [true]. *)
Definition dictAdd d (key : K) (val : V) : option (dict K V * bool) :=
  '(d, entry, _) ← dictAddRaw d key;
  match entry with
  | None => Some (d, false)
  | Some r =>
      if no_value dt then Some (d, true)
      else d ← dictSetVal d r val; Some (d, true)
  end.

(** [true] when the key was added from scratch. *)
Definition dictReplace d (key : K) (val : V) : option (dict K V * bool) :=
  '(d, entry, existing) ← dictAddRaw d key;
  match entry with
  | Some r => d ← dictSetVal d r val; Some (d, true)
  | None => r ← existing; d ← dictSetVal d r val; Some (d, false)
  end.

Definition dictAddOrFind d (key : K) : option (dict K V * option entry_ref) :=
  '(d, entry, existing) ← dictAddRaw d key;
  Some (d, match entry with Some r => Some r | None => existing end).

(** ** Deletion *)

(** The entry unlinked (its key and value are the pair). *)
Definition unlink_ref d (r : entry_ref) : option (dict K V) :=
  e ← ht_get (ht d (ref_table r)) (ref_idx r);
  e ← chain_unlink e (ref_pos r);
  h ← ht_put (ht d (ref_table r)) (ref_idx r) e (-1);
  Some (set_ht d (ref_table r) h).

Definition dictGenericDelete d (key : K) : option (dict K V * option (dictEntry K V)) :=
  if decide (dictSize d = 0) then Some (d, None)
  else
    d ← rehash_if_needed d;
    r ← dict_search d key;
    match r with
    | None => Some (d, None)
    | Some r => he ← deref d r; d ← unlink_ref d r; Some (d, Some he)
    end.

Definition dictDelete d (key : K) : option (dict K V * bool) :=
  '(d, he) ← dictGenericDelete d key; Some (d, bool_decide (is_Some he)).

Definition dictUnlink d (key : K) : option (dict K V * option (dictEntry K V)) :=
  dictGenericDelete d key.

Definition dictTwoPhaseUnlinkFind d (key : K) : option (dict K V * option entry_ref) :=
  if decide (dictSize d = 0) then Some (d, None)
  else
    d ← rehash_if_needed d;
    r ← dict_search d key;
    match r with
    | None => Some (d, None)
    | Some r => Some (dictPauseRehashing d, Some r)
    end.

(** [None] is a NULL entry: nothing was found. *)
Definition dictTwoPhaseUnlinkFree d (plink : option entry_ref) : option (dict K V) :=
  match plink with
  | None => Some d
  | Some r => d ← unlink_ref d r; Some (dictResumeRehashing d)
  end.

(** The pair an entry holds. *)
Fixpoint chain_entries e : list (K * option V) :=
  match e with
  | ENull => []
  | EKey k => [(k, None)]
  | ENoValue k next => (k, None) :: chain_entries next
  | ENormal k v next => (k, v) :: chain_entries next
  end.

(** The loop of [_dictClear]: the entries freed, bucket after bucket, as long as
    [ht_used] is positive. *)
Fixpoint clear_loop (tbl : list (dictEntry K V)) (used : Z) : list (K * option V) :=
  match tbl with
  | [] => []
  | e :: tbl =>
      if decide (used > 0)
      then chain_entries e ++ clear_loop tbl (used - zlen (chain_entries e)) else []
  end.

Definition _dictClear d (htidx : bool) : dict K V * list (K * option V) :=
  (_dictReset d htidx, clear_loop (ht_table (ht d htidx)) (ht_used (ht d htidx))).

(** The entries freed are the second component. *)
Definition dictEmpty d : dict K V * list (K * option V) :=
  let '(d, freed0) := _dictClear d false in
  let '(d, freed1) := _dictClear d true in
  (set_pauserehash (set_rehashidx d (-1)) 0, freed0 ++ freed1).

Definition dictRelease d : list (K * option V) :=
  let '(d, freed0) := _dictClear d false in
  let '(_, freed1) := _dictClear d true in
  freed0 ++ freed1.

Definition dictGetHash (key : K) : Z := hashFunction dt key.

(** ** Iterators *)

(** [dictIterator].  The entry and the next entry are kept by value: they are the chains
    the pointers lead to as long as the table is not changed. *)
Record dictIterator := mk_iter {
  it_index : Z;
  it_table : bool;
  it_safe : bool;
  it_entry : dictEntry K V;
  it_nextEntry : dictEntry K V;
  it_fingerprint : Z;
}.

(** One round of the loop of [dictFingerprint] (Thomas Wang's 64 bit mix). *)
Definition fingerprint_step (hash integer : Z) : Z :=
  let hash := u64 (hash + integer) in
  let hash := u64 (u64 (Z.lnot hash) + u64 (Z.shiftl hash 21)) in
  let hash := Z.lxor hash (Z.shiftr hash 24) in
  let hash := u64 (u64 (hash + Z.shiftl hash 3) + Z.shiftl hash 8) in
  let hash := Z.lxor hash (Z.shiftr hash 14) in
  let hash := u64 (u64 (hash + Z.shiftl hash 2) + Z.shiftl hash 4) in
  let hash := Z.lxor hash (Z.shiftr hash 28) in
  u64 (hash + Z.shiftl hash 31).

(** [addr i] is the address of [ht_table[i]]. *)
Definition dictFingerprint (addr : bool → Z) d : Z :=
  foldl fingerprint_step 0
    [u64 (addr false); u64 (ht_size_exp (ht0 d)); ht_used (ht0 d);
     u64 (addr true); u64 (ht_size_exp (ht1 d)); ht_used (ht1 d)].

Definition dictInitIterator : dictIterator := mk_iter (-1) false false ENull ENull 0.
Definition dictInitSafeIterator : dictIterator := mk_iter (-1) false true ENull ENull 0.

(** [dictNext]: the entry returned, [None] for NULL.  The loop runs once per empty bucket. *)
Fixpoint dictNext (addr : bool → Z) (fuel : nat) d (iter : dictIterator)
    : option (dict K V * dictIterator * option (dictEntry K V)) :=
  let produce d iter (entry : dictEntry K V) loop :=
    if is_null entry
    then loop d (mk_iter (it_index iter) (it_table iter) (it_safe iter) ENull
                   (it_nextEntry iter) (it_fingerprint iter))
    else Some (d, mk_iter (it_index iter) (it_table iter) (it_safe iter) entry
                    (dictGetNext entry) (it_fingerprint iter), Some entry) in
  match fuel with
  | O => None
  | S fuel =>
      if is_null (it_entry iter) then
        let first := bool_decide (it_index iter = -1 ∧ it_table iter = false) in
        let d := if first && it_safe iter then dictPauseRehashing d else d in
        let fp := if first && negb (it_safe iter) then dictFingerprint addr d
                  else it_fingerprint iter in
        let index := it_index iter + 1 in
        if decide (index >= DICTHT_SIZE (ht_size_exp (ht d (it_table iter)))) then
          if dictIsRehashing d && negb (it_table iter) then
            entry ← ht_get (ht1 d) 0;
            produce d (mk_iter 0 true (it_safe iter) ENull (it_nextEntry iter) fp) entry
              (dictNext addr fuel)
          else Some (d, mk_iter index (it_table iter) (it_safe iter) ENull (it_nextEntry iter) fp,
                     None)
        else
          entry ← ht_get (ht d (it_table iter)) index;
          produce d (mk_iter index (it_table iter) (it_safe iter) ENull (it_nextEntry iter) fp)
            entry (dictNext addr fuel)
      else produce d iter (it_nextEntry iter) (dictNext addr fuel)
  end.

(** The misuse check of an unsafe iterator is an assertion. *)
Definition dictResetIterator (addr : bool → Z) d (iter : dictIterator) : option (dict K V) :=
  if decide (it_index iter = -1 ∧ it_table iter = false) then Some d
  else if it_safe iter then Some (dictResumeRehashing d)
  else if decide (it_fingerprint iter = dictFingerprint addr d) then Some d else None.

End operations.

(** ** server.c: when a table is shrunk *)

Definition HASHTABLE_MIN_FILL : Z := 10.

(** [htNeedsResize] of server.c. *)
Definition htNeedsResize {K V} (d : dict K V) : bool :=
  let size := dictSlots d in
  let used := dictSize d in
  bool_decide (size > DICT_HT_INITIAL_SIZE) && bool_decide (used * 100 / size < HASHTABLE_MIN_FILL).
