(* ===== verification/DictInv.v ===== *)
(** * dict.c: the invariant of a dictionary, and that rehashing preserves its contents *)

From S2P Require Import Prelude Dict.

Local Open Scope Z_scope.

(** What [dict.c] relies on from the functions of a [dictType]: the comparison decides
    equality of keys and the hash is a 64-bit number. *)
Class DictTypeOk {K : Type} (dt : dictType K) : Prop := {
  keyCompare_spec : ∀ k1 k2, keyCompare dt k1 k2 = true ↔ k1 = k2;
  hash_range : ∀ k, in_urange 64 (hashFunction dt k);
}.

Section invariant.
Context {K V : Type} `{Countable K}.
Context (dt : dictType K) `{!DictTypeOk dt}.

Implicit Types d : dict K V.
Implicit Types h : dictht K V.
Implicit Types e : dictEntry K V.

(** ** Definitions *)

(** The entries of a chain are of the kind the type calls for. *)
Fixpoint chain_shape e : Prop :=
  match e with
  | ENull => True
  | EKey _ => no_value dt = true ∧ keys_are_odd dt = true
  | ENoValue _ next => no_value dt = true ∧ chain_shape next
  | ENormal _ _ next => no_value dt = false ∧ chain_shape next
  end.

(** A key can be stored bare when the type says so. *)
Definition key_ok (k : K) : Prop := keys_are_odd dt = true → key_lsb dt k = true.

Definition bucket_of (exp : Z) (k : K) : Z := Z.land (hashFunction dt k) (DICTHT_SIZE_MASK exp).

(** [e] can be the chain of bucket [i] in a table of size [2^exp]. *)
Record chain_wf (exp : Z) (i : nat) e : Prop := {
  chain_wf_shape : chain_shape e;
  chain_wf_keys : ∀ p, p ∈ chain_entries e → bucket_of exp p.1 = Z.of_nat i ∧ key_ok p.1;
}.

Definition table_entries (tbl : list (dictEntry K V)) : list (K * option V) :=
  concat (chain_entries <$> tbl).

Definition ht_entries h : list (K * option V) := table_entries (ht_table h).

Definition dict_entries d : list (K * option V) := ht_entries (ht0 d) ++ ht_entries (ht1 d).

(** The abstract value of a dictionary. *)
Definition dict_map d : gmap K (option V) := list_to_map (dict_entries d).

Record ht_wf h : Prop := {
  ht_wf_size : (ht_size_exp h = -1 ∧ ht_table h = []) ∨
               (2 ≤ ht_size_exp h ≤ 60 ∧ zlen (ht_table h) = 2 ^ ht_size_exp h);
  ht_wf_used : ht_used h = zlen (ht_entries h);
  ht_wf_chains : ∀ i e, ht_table h !! i = Some e → chain_wf (ht_size_exp h) i e;
}.

Record dict_wf d : Prop := {
  dict_wf0 : ht_wf (ht0 d);
  dict_wf1 : ht_wf (ht1 d);
  dict_wf_nodup : NoDup (dict_entries d).*1;
  dict_wf_idle : rehashidx d = -1 → ht_size_exp (ht1 d) = -1;
  dict_wf_rehash : rehashidx d ≠ -1 →
    0 ≤ rehashidx d ≤ 2 ^ ht_size_exp (ht0 d) ∧
    0 ≤ ht_size_exp (ht0 d) ∧ 0 ≤ ht_size_exp (ht1 d) ∧
    ht_size_exp (ht0 d) ≠ ht_size_exp (ht1 d) ∧
    ∀ i : nat, Z.of_nat i < rehashidx d → ht_table (ht0 d) !! i = Some ENull;
}.

(** ** Sizes and masks *)

Lemma u64_shiftl_1 (e : Z) : 0 ≤ e ≤ 63 → u64 (Z.shiftl 1 e) = 2 ^ e.
Proof.
  intros He. rewrite Z.shiftl_1_l. apply uwrap_small. split; [apply Z.pow_nonneg; lia|].
  apply Z.pow_lt_mono_r; lia.
Qed.

Lemma dictht_size_pow exp : 0 ≤ exp ≤ 60 → DICTHT_SIZE exp = 2 ^ exp.
Proof. intros He. unfold DICTHT_SIZE. rewrite decide_False by lia. apply u64_shiftl_1. lia. Qed.

Lemma dictht_mask_ones exp : 0 ≤ exp ≤ 60 → DICTHT_SIZE_MASK exp = Z.ones exp.
Proof.
  intros He. unfold DICTHT_SIZE_MASK. rewrite decide_False, dictht_size_pow by lia.
  rewrite Z.ones_equiv. lia.
Qed.

Lemma land_mask_range exp z : 0 ≤ exp ≤ 60 → 0 ≤ Z.land z (DICTHT_SIZE_MASK exp) < 2 ^ exp.
Proof.
  intros He. rewrite dictht_mask_ones, Z.land_ones by lia.
  apply Z.mod_pos_bound, Z.pow_pos_nonneg; lia.
Qed.

(** A bucket of a smaller table collects whole buckets of a larger one. *)
Lemma land_mask_mask exp exp' z :
  0 ≤ exp' ≤ exp → exp ≤ 60 →
  Z.land (Z.land z (DICTHT_SIZE_MASK exp)) (DICTHT_SIZE_MASK exp') =
  Z.land z (DICTHT_SIZE_MASK exp').
Proof.
  intros He He'. rewrite !dictht_mask_ones by lia.
  apply Z.bits_inj'. intros n Hn. rewrite !Z.land_spec, !Z.testbit_ones_nonneg by lia.
  destruct (Z.testbit z n), (Z.ltb_spec n exp), (Z.ltb_spec n exp'); done || lia.
Qed.

(** ** Tables as lists of entries *)

Lemma table_entries_split (tbl : list (dictEntry K V)) i e :
  tbl !! i = Some e →
  table_entries tbl =
    table_entries (take i tbl) ++ chain_entries e ++ table_entries (drop (S i) tbl).
Proof.
  intros Hi. rewrite <- (take_drop_middle tbl i e Hi) at 1.
  unfold table_entries. by rewrite fmap_app, concat_app, fmap_cons.
Qed.

Lemma table_entries_insert (tbl : list (dictEntry K V)) i e e' :
  tbl !! i = Some e →
  table_entries (<[i := e']> tbl) =
    table_entries (take i tbl) ++ chain_entries e' ++ table_entries (drop (S i) tbl).
Proof.
  intros Hi. apply lookup_lt_Some in Hi. rewrite insert_take_drop by done.
  unfold table_entries. by rewrite fmap_app, concat_app, fmap_cons.
Qed.

Lemma elem_of_table_entries (tbl : list (dictEntry K V)) p :
  p ∈ table_entries tbl ↔ ∃ i e, tbl !! i = Some e ∧ p ∈ chain_entries e.
Proof.
  unfold table_entries. rewrite list_elem_of_In, in_concat. setoid_rewrite <- list_elem_of_In. split.
  - intros (l & Hl & Hp). apply list_elem_of_fmap in Hl as (e & -> & He).
    apply list_elem_of_lookup in He as [i Hi]. eauto.
  - intros (i & e & Hi & Hp). exists (chain_entries e). split; [|done].
    apply list_elem_of_fmap. exists e. split; [done|]. by eapply list_elem_of_lookup_2.
Qed.

Lemma table_entries_null n : table_entries (replicate n ENull) = [].
Proof. unfold table_entries. induction n; [done|]. by rewrite replicate_S, fmap_cons. Qed.

Lemma ht_wf_exp h : ht_wf h → ht_size_exp h = -1 ∨ 2 ≤ ht_size_exp h ≤ 60.
Proof. intros [[[? _]|[? _]] _ _]; auto. Qed.

Lemma ht_wf_null h : ht_wf h → ht_size_exp h = -1 → h = dictht_empty.
Proof.
  intros [[[He Ht]|[? _]] Hu _] Heq; [|lia].
  unfold ht_entries in Hu. rewrite Ht in Hu. destruct h; simpl in *; by subst.
Qed.

Lemma ht_wf_empty : ht_wf dictht_empty.
Proof. split; simpl; [by left|done|]. intros i e. by rewrite lookup_nil. Qed.

Lemma ht_get_wf h i :
  ht_wf h → 0 ≤ ht_size_exp h → 0 ≤ i < 2 ^ ht_size_exp h →
  ∃ e, ht_get h i = Some e ∧ ht_table h !! Z.to_nat i = Some e ∧
       chain_wf (ht_size_exp h) (Z.to_nat i) e.
Proof.
  intros Hwf He Hi. pose proof (ht_wf_size _ Hwf) as [[? _]|[_ Hlen]]; [lia|].
  destruct (lookup_lt_is_Some_2 (ht_table h) (Z.to_nat i)) as [e Hl]; [lia|].
  exists e. unfold ht_get. rewrite decide_True by lia. split_and!; [done..|].
  by apply (ht_wf_chains _ Hwf).
Qed.

(** Replacing the chain of one bucket. *)
Lemma ht_put_wf h (i : nat) e e' du :
  ht_wf h → ht_table h !! i = Some e → chain_wf (ht_size_exp h) i e' →
  du = zlen (chain_entries e') - zlen (chain_entries e) →
  ∃ h' R, ht_put h (Z.of_nat i) e' du = Some h' ∧ ht_wf h' ∧
    ht_size_exp h' = ht_size_exp h ∧ ht_table h' = <[i := e']> (ht_table h) ∧
    ht_entries h ≡ₚ chain_entries e ++ R ∧ ht_entries h' ≡ₚ chain_entries e' ++ R.
Proof.
  intros Hwf Hi He' ->. apply lookup_lt_Some in Hi as Hlt.
  eexists _, (table_entries (take i (ht_table h)) ++ table_entries (drop (S i) (ht_table h))).
  unfold ht_put. rewrite decide_True by lia. rewrite Nat2Z.id. split; [done|].
  unfold ht_entries; simpl. rewrite (table_entries_split _ _ _ Hi).
  rewrite (table_entries_insert _ _ _ e' Hi). split_and!; [|done|done|..].
  - split; simpl.
    + rewrite length_insert. destruct (ht_wf_size _ Hwf) as [[_ Hnil]|?]; [|by right].
      rewrite Hnil in Hlt. simpl in Hlt. lia.
    + rewrite (ht_wf_used _ Hwf). unfold ht_entries; simpl.
      rewrite (table_entries_split _ _ _ Hi), (table_entries_insert _ _ _ e' Hi).
      rewrite !length_app. lia.
    + intros j ej Hj. destruct (decide (i = j)) as [<-|].
      * rewrite list_lookup_insert_eq in Hj by done. by simplify_eq.
      * rewrite list_lookup_insert_ne in Hj by done. by apply (ht_wf_chains _ Hwf).
  - by rewrite !app_assoc, (Permutation_app_comm (table_entries (take i _)) (chain_entries e)).
  - by rewrite !app_assoc, (Permutation_app_comm (table_entries (take i _)) (chain_entries e')).
Qed.

(** ** Rehashing one bucket *)

(** A non-empty chain is its first entry and the rest. *)
Lemma chain_uncons exp i e :
  chain_wf exp i e → e ≠ ENull →
  ∃ p, dictGetKey e = Some p.1 ∧ chain_entries e = p :: chain_entries (dictGetNext e) ∧
       bucket_of exp p.1 = Z.of_nat i ∧ key_ok p.1 ∧ chain_wf exp i (dictGetNext e).
Proof.
  intros [Hsh Hk] Hne.
  destruct e as [|k|k n|k v n]; [done|exists (k, None)|exists (k, None)|exists (k, v)]; simpl in *;
    (split_and!; [done|done|eapply (Hk (_, _)); left|eapply (Hk (_, _)); left|]); (split; [simpl; tauto|]); simpl;
    intros p Hp; [by apply not_elem_of_nil in Hp|..]; apply Hk; by right.
Qed.

Lemma relink_ok exp exp' i j e c p :
  chain_wf exp i e → chain_wf exp' j c → dictGetKey e = Some p.1 →
  chain_entries e = p :: chain_entries (dictGetNext e) →
  key_ok p.1 → bucket_of exp' p.1 = Z.of_nat j →
  ∃ e', rehash_relink dt e c p.1 = Some e' ∧ chain_entries e' = p :: chain_entries c ∧
        chain_wf exp' j e'.
Proof.
  intros [He _] [Hc Hck] Hkey Hent Hok Hb. unfold rehash_relink.
  assert (∀ e', chain_entries e' = p :: chain_entries c → chain_shape e' → chain_wf exp' j e')
    as Hwf'.
  { intros e' Heq Hs. split; [done|]. intros q. rewrite Heq, elem_of_cons.
    intros [->|Hq]; [done|by apply Hck]. }
  destruct p as [pk pv]. destruct e as [|k|k n|k v n]; simpl in *; try done; simplify_eq; simpl in *.
  - destruct He as [Hnv Hodd]. rewrite Hnv, Hodd. simpl. destruct c; simpl.
    { rewrite Hok by done. eexists. split; [done|]. split; [done|]. by apply Hwf'. }
    all: eexists; (split; [done|]); (split; [done|]); by apply Hwf'.
  - destruct He as [Hnv Hn]. rewrite Hnv.
    destruct (keys_are_odd dt) eqn:Hodd; simpl; [destruct c; simpl|].
    { rewrite Hok by done. eexists. split; [done|]. split; [done|]. by apply Hwf'. }
    all: eexists; (split; [done|]); (split; [done|]); by apply Hwf'.
  - destruct He as [Hnv Hn]. rewrite Hnv. eexists. split; [done|]. split; [done|]. by apply Hwf'.
Qed.

(** The index computed for the destination is the bucket of the key in the new table,
    whether the table grows or shrinks. *)
Lemma rehash_index d k :
  0 ≤ ht_size_exp (ht0 d) ≤ 60 → 0 ≤ ht_size_exp (ht1 d) ≤ 60 →
  bucket_of (ht_size_exp (ht0 d)) k = rehashidx d →
  (if decide (ht_size_exp (ht1 d) > ht_size_exp (ht0 d))
   then Z.land (hashFunction dt k) (DICTHT_SIZE_MASK (ht_size_exp (ht1 d)))
   else Z.land (rehashidx d) (DICTHT_SIZE_MASK (ht_size_exp (ht1 d)))) =
  bucket_of (ht_size_exp (ht1 d)) k.
Proof.
  intros H0 H1 Hb. case_decide; [done|]. rewrite <- Hb. unfold bucket_of.
  apply land_mask_mask; lia.
Qed.

Lemma rehash_entry_ok d i e :
  0 ≤ ht_size_exp (ht0 d) ≤ 60 → ht_wf (ht1 d) → 0 ≤ ht_size_exp (ht1 d) →
  rehashidx d = Z.of_nat i → chain_wf (ht_size_exp (ht0 d)) i e → e ≠ ENull →
  ∃ t1 p, rehash_entry dt d e =
      Some (mk_dict (mk_dictht (ht_table (ht0 d)) (ht_used (ht0 d) - 1) (ht_size_exp (ht0 d)))
              t1 (rehashidx d) (pauserehash d)) ∧
    ht_wf t1 ∧ ht_size_exp t1 = ht_size_exp (ht1 d) ∧
    chain_entries e = p :: chain_entries (dictGetNext e) ∧
    chain_wf (ht_size_exp (ht0 d)) i (dictGetNext e) ∧
    ht_entries t1 ≡ₚ p :: ht_entries (ht1 d).
Proof.
  intros H0 Hwf1 H1 Hidx He Hne.
  destruct (chain_uncons _ _ _ He Hne) as (p & Hkey & Hent & Hb & Hok & Hnext).
  assert (0 ≤ ht_size_exp (ht1 d) ≤ 60) as H1' by (destruct (ht_wf_exp _ Hwf1); lia).
  unfold rehash_entry. rewrite Hkey. bind_simpl.
  rewrite rehash_index by (done || congruence).
  destruct (ht_get_wf (ht1 d) (bucket_of (ht_size_exp (ht1 d)) p.1)) as (c & -> & Hc & Hcwf);
    [done|lia|by apply land_mask_range|]. bind_simpl.
  destruct (relink_ok _ (ht_size_exp (ht1 d)) i _ e c p He Hcwf Hkey Hent Hok)
    as (e' & -> & He' & Hewf').
  { rewrite Z2Nat.id; [done|]. by apply land_mask_range. }
  destruct (ht_put_wf (ht1 d) _ c e' 1 Hwf1 Hc Hewf') as (t1 & R & Hput & Hwf' & Hexp & _ & HR & HR').
  { rewrite He'. simpl. lia. }
  rewrite Z2Nat.id in Hput by (by apply land_mask_range). bind_simpl.
  rewrite Hput. bind_simpl. eexists t1, p. split_and!; try done.
  by rewrite HR', He', HR.
Qed.

Lemma rehash_chain_ok d i e :
  0 ≤ ht_size_exp (ht0 d) ≤ 60 → ht_wf (ht1 d) → 0 ≤ ht_size_exp (ht1 d) →
  rehashidx d = Z.of_nat i → chain_wf (ht_size_exp (ht0 d)) i e →
  ∃ t1, rehash_chain dt d e =
      Some (mk_dict (mk_dictht (ht_table (ht0 d)) (ht_used (ht0 d) - zlen (chain_entries e))
                       (ht_size_exp (ht0 d)))
              t1 (rehashidx d) (pauserehash d)) ∧
    ht_wf t1 ∧ ht_size_exp t1 = ht_size_exp (ht1 d) ∧
    ht_entries t1 ≡ₚ chain_entries e ++ ht_entries (ht1 d).
Proof.
  revert d. induction e as [|k|k n IH|k v n IH]; intros d H0 Hwf1 H1 Hidx He.
  - exists (ht1 d). simpl. rewrite Z.sub_0_r. split; [by destruct d as [[]]|done].
  - destruct (rehash_entry_ok d i (EKey k)) as (t1 & p & Hr & Hwf & Hexp & Hent & _ & Hperm); try done.
    exists t1. cbn [rehash_chain]. rewrite Hr, Hent. simpl. split_and!; [|done..].
    do 3 f_equal; try lia.
  - destruct (rehash_entry_ok d i (ENoValue k n)) as (t1 & p & Hr & Hwf & Hexp & Hent & Hn & Hperm); try done.
    cbn [rehash_chain]. rewrite Hr, Hent. cbn [mbind option_bind dictGetNext].
    match type of Hr with _ = Some ?d1 =>
      destruct (IH d1) as (t1' & -> & Hwf' & Hexp' & Hperm'); [done..|simpl; lia|done|done|] end.
    simpl in *. exists t1'. split_and!; [|done|congruence|].
    { do 3 f_equal. lia. }
    rewrite Hperm', Hperm. by rewrite <- Permutation_middle.
  - destruct (rehash_entry_ok d i (ENormal k v n)) as (t1 & p & Hr & Hwf & Hexp & Hent & Hn & Hperm); try done.
    cbn [rehash_chain]. rewrite Hr, Hent. cbn [mbind option_bind dictGetNext].
    match type of Hr with _ = Some ?d1 =>
      destruct (IH d1) as (t1' & -> & Hwf' & Hexp' & Hperm'); [done..|simpl; lia|done|done|] end.
    simpl in *. exists t1'. split_and!; [|done|congruence|].
    { do 3 f_equal. lia. }
    rewrite Hperm', Hperm. by rewrite <- Permutation_middle.
Qed.

(** ** The incremental steps *)

Lemma rehashing_true d : dictIsRehashing d = true ↔ rehashidx d ≠ -1.
Proof. unfold dictIsRehashing. case_bool_decide; simpl; naive_solver. Qed.

Lemma rehashing_false d : dictIsRehashing d = false ↔ rehashidx d = -1.
Proof. unfold dictIsRehashing. case_bool_decide; simpl; naive_solver. Qed.

Lemma dict_nodup_perm (l l' : list (K * option V)) : l ≡ₚ l' → NoDup l.*1 → NoDup l'.*1.
Proof. intros Hp. by rewrite Hp. Qed.

(** The bucket at [rehashidx] is in range as long as the old table has elements. *)
Lemma rehash_pending d :
  dict_wf d → rehashidx d ≠ -1 → ht_used (ht0 d) ≠ 0 →
  ∃ (j : nat) e, ht_table (ht0 d) !! j = Some e ∧ e ≠ ENull ∧ rehashidx d ≤ Z.of_nat j < 2 ^ ht_size_exp (ht0 d).
Proof.
  intros Hwf Hr Hu. destruct (dict_wf_rehash _ Hwf Hr) as (Hidx & He0 & He1 & Hne & Hnull).
  rewrite (ht_wf_used _ (dict_wf0 _ Hwf)) in Hu.
  destruct (ht_entries (ht0 d)) as [|p l] eqn:Hent; [simpl in Hu; lia|].
  assert (p ∈ ht_entries (ht0 d)) as Hp by (rewrite Hent; left).
  apply elem_of_table_entries in Hp as (j & e & Hj & Hp).
  destruct (ht_wf_size _ (dict_wf0 _ Hwf)) as [[? _]|[_ Hlen]]; [lia|].
  exists j, e. split; [done|]. split.
  - intros ->. by apply not_elem_of_nil in Hp.
  - apply lookup_lt_Some in Hj as Hjl. split; [|lia].
    destruct (Z.lt_ge_cases (Z.of_nat j) (rehashidx d)) as [Hlt|]; [|done].
    rewrite (Hnull j Hlt) in Hj. simplify_eq. by apply not_elem_of_nil in Hp.
Qed.

Lemma rehash_advance d :
  dict_wf d → rehashidx d ≠ -1 → rehashidx d < 2 ^ ht_size_exp (ht0 d) →
  ht_table (ht0 d) !! Z.to_nat (rehashidx d) = Some ENull →
  dict_wf (set_rehashidx d (rehashidx d + 1)).
Proof.
  intros Hwf Hr Hlt Hn. destruct (dict_wf_rehash _ Hwf Hr) as (Hidx & He0 & He1 & Hne & Hnull).
  split; simpl; try apply Hwf; [lia|]. intros _. split_and!; try done; try lia.
  intros i Hi. destruct (decide (Z.of_nat i = rehashidx d)) as [Heq|].
  - rewrite <- Hn. f_equal. lia.
  - apply Hnull. lia.
Qed.

Lemma rehash_skip_ok ev d :
  (0 < ev)%nat → dict_wf d → rehashidx d ≠ -1 → ht_used (ht0 d) ≠ 0 →
  ∃ r ev', rehash_skip ev d = Some (set_rehashidx d r, ev') ∧ dict_wf (set_rehashidx d r) ∧
    rehashidx d ≤ r < 2 ^ ht_size_exp (ht0 d) + 1 ∧
    (ev' = 0%nat ∧ rehashidx d < r ∨
     (0 < ev')%nat ∧ ∃ e, ht_table (ht0 d) !! Z.to_nat r = Some e ∧ e ≠ ENull).
Proof.
  revert d. induction ev as [|ev IH]; intros d Hev Hwf Hr Hu; [lia|].
  destruct (rehash_pending d Hwf Hr Hu) as (j & ej & Hj & Hej & Hjr).
  destruct (dict_wf_rehash _ Hwf Hr) as (Hidx & He0 & He1 & Hne & Hnull).
  destruct (ht_get_wf (ht0 d) (rehashidx d)) as (e & Hget & He & _); [apply Hwf|lia|lia|].
  cbn [rehash_skip]. rewrite Hget. bind_simpl.
  destruct (is_null e) eqn:Hnul; last first.
  { exists (rehashidx d), (S ev). split; [by destruct d|]. split; [by destruct d|].
    split; [lia|]. right. split; [lia|]. exists e. split; [done|]. by intros ->. }
  assert (e = ENull) as -> by by destruct e.
  assert (rehashidx d ≠ Z.of_nat j) as Hneq.
  { intros Heq. apply Hej. rewrite Heq, Nat2Z.id in He. congruence. }
  pose proof (rehash_advance d Hwf Hr ltac:(lia) He) as Hwf'.
  destruct ev as [|ev].
  { exists (rehashidx d + 1), 0%nat. split_and!; try done; try lia. }
  destruct (IH (set_rehashidx d (rehashidx d + 1))) as (r & ev' & Hskip & Hwf'' & Hrr & Hcase);
    simpl; [lia|done|lia|done|].
  exists r, ev'. simpl in *. split; [done|]. split; [done|]. split; [lia|].
  destruct Hcase as [[-> ?]|?]; [left; split; [done|lia]|by right].
Qed.

(** Moving the whole bucket at [rehashidx]. *)
Lemma rehash_bucket_ok d e :
  dict_wf d → rehashidx d ≠ -1 → rehashidx d < 2 ^ ht_size_exp (ht0 d) →
  ht_table (ht0 d) !! Z.to_nat (rehashidx d) = Some e →
  ∃ d1 t0, rehash_chain dt d e = Some d1 ∧
    ht_put (ht0 d1) (rehashidx d1) ENull 0 = Some t0 ∧
    let d2 := set_rehashidx (set_ht d1 false t0) (rehashidx d1 + 1) in
    dict_wf d2 ∧ dict_entries d2 ≡ₚ dict_entries d ∧ rehashidx d2 = rehashidx d + 1 ∧
    pauserehash d2 = pauserehash d ∧ ht_size_exp (ht0 d2) = ht_size_exp (ht0 d) ∧
    ht_size_exp (ht1 d2) = ht_size_exp (ht1 d).
Proof.
  intros Hwf Hr Hlt He. destruct (dict_wf_rehash _ Hwf Hr) as (Hidx & He0 & He1 & Hne & Hnull).
  pose proof (ht_wf_chains _ (dict_wf0 _ Hwf) _ _ He) as Hewf.
  assert (0 ≤ ht_size_exp (ht0 d) ≤ 60) as He0' by (destruct (ht_wf_exp _ (dict_wf0 _ Hwf)); lia).
  destruct (rehash_chain_ok d (Z.to_nat (rehashidx d)) e) as (t1 & -> & Hwf1 & Hexp1 & Hp1);
    [done|apply Hwf|done|lia|done|].
  destruct (ht_put_wf (ht0 d) (Z.to_nat (rehashidx d)) e ENull (- zlen (chain_entries e)))
    as (t0 & R & Hput & Hwf0 & Hexp0 & Htbl & HR & HR'); [apply Hwf|done| |simpl; lia|].
  { split; [done|]. intros p Hp. by apply not_elem_of_nil in Hp. }
  rewrite Z2Nat.id in Hput by lia. unfold ht_put in Hput |- *.
  case_decide as Hrange; [|done]. injection Hput as <-.
  eexists _, _. split; [done|]. simpl. rewrite decide_True by done. split; [done|].
  assert (table_entries (<[Z.to_nat (rehashidx d) := ENull]> (ht_table (ht0 d))) ++ ht_entries t1
    ≡ₚ dict_entries d) as Hperm.
  { unfold dict_entries. rewrite HR, Hp1. unfold ht_entries in HR'; simpl in HR'. rewrite HR'.
    by rewrite (app_assoc R), (Permutation_app_comm R). }
  split_and!; try done. split; simpl; try done.
  - rewrite Z.add_0_r. destruct Hwf0 as [Hs Hu Hc]. split; [done| |done].
    unfold ht_entries in *. simpl in *. lia.
  - eapply dict_nodup_perm; [symmetry; exact Hperm|apply Hwf].
  - lia.
  - intros _. rewrite Hexp1. split_and!; try done; try lia. intros i Hi.
    destruct (decide (i = Z.to_nat (rehashidx d))) as [->|].
    + by rewrite list_lookup_insert_eq by (apply lookup_lt_Some in He; lia).
    + rewrite list_lookup_insert_ne by done. apply Hnull. lia.
Qed.

Lemma rehash_loop_ok n ev d :
  ((0 < n)%nat → (0 < ev)%nat) → dict_wf d → rehashidx d ≠ -1 →
  ∃ d' b, rehash_loop dt n ev d = Some (d', b) ∧ dict_wf d' ∧ rehashidx d' ≠ -1 ∧
    dict_entries d' ≡ₚ dict_entries d ∧ pauserehash d' = pauserehash d ∧
    ht_size_exp (ht0 d') = ht_size_exp (ht0 d) ∧ ht_size_exp (ht1 d') = ht_size_exp (ht1 d) ∧
    rehashidx d ≤ rehashidx d' ∧
    ((0 < n)%nat → rehashidx d < rehashidx d' ∨ (b = false ∧ ht_used (ht0 d') = 0)).
Proof.
  revert ev d. induction n as [|n IH]; intros ev d Hev Hwf Hr.
  { exists d, false. split_and!; try done; lia. }
  cbn [rehash_loop]. case_decide as Hu.
  { exists d, false. split_and!; (done || lia || (intros _; by right)). }
  destruct (rehash_pending d Hwf Hr Hu) as (j & ej & Hj & Hej & Hjr).
  destruct (dict_wf_rehash _ Hwf Hr) as (Hidx & He0 & He1 & Hne & Hnull).
  assert (0 ≤ ht_size_exp (ht0 d) ≤ 60) as He0' by (destruct (ht_wf_exp _ (dict_wf0 _ Hwf)); lia).
  rewrite dictht_size_pow by done. rewrite decide_True by lia.
  destruct (rehash_skip_ok ev d) as (r & ev' & -> & Hwf' & Hrr & Hcase); [apply Hev; lia|done..|].
  bind_simpl.
  destruct Hcase as [[-> Hlt]|[Hev' (e & He & Hne')]].
  { exists (set_rehashidx d r), true. simpl. split_and!; try (done || lia). }
  assert (r < 2 ^ ht_size_exp (ht0 d)) as Hrlt.
  { destruct (ht_wf_size _ (dict_wf0 _ Hwf)) as [[? _]|[_ Hlen]]; [lia|].
    apply lookup_lt_Some in He. lia. }
  destruct ev' as [|ev']; [lia|].
  destruct (ht_get_wf (ht0 d) r) as (e' & Hget & He' & _); [apply Hwf|lia|lia|]. simplify_eq.
  simpl ht0. simpl rehashidx. rewrite Hget. bind_simpl.
  destruct (rehash_bucket_ok (set_rehashidx d r) e) as (d1 & t0 & -> & Hput & Hwf2 & Hp2 & Hi2 & Hpa2 & Hx0 & Hx1);
    [done|simpl; lia|done|done|].
  bind_simpl. rewrite Hput. bind_simpl.
  destruct (IH (S ev') _ ltac:(lia) Hwf2) as (d' & b & -> & Hwf3 & Hr3 & Hp3 & Hpa3 & Hx03 & Hx13 & Hi3 & _).
  { rewrite Hi2. simpl. lia. }
  exists d', b. rewrite Hi2 in Hi3. simpl in *. split_and!; try done; try congruence; try lia.
  by rewrite Hp3.
Qed.

Lemma dictRehash_ok can d n :
  dict_wf d →
  ∃ d' more, dictRehash dt can d n = Some (d', more) ∧ dict_wf d' ∧
    dict_entries d' ≡ₚ dict_entries d ∧ pauserehash d' = pauserehash d ∧
    (more = true → dictIsRehashing d' = true) ∧
    (can = DICT_RESIZE_ENABLE → more = false → dictIsRehashing d' = false) ∧
    (more = true → (0 < n)%nat →
       rehashidx d ≠ -1 ∧ rehashidx d < rehashidx d' ≤ 2 ^ ht_size_exp (ht0 d) ∧
       ht_size_exp (ht0 d') = ht_size_exp (ht0 d)).
Proof.
  intros Hwf. unfold dictRehash. case_decide as H1.
  { exists d, false. split_and!; try done. intros -> _. by destruct H1. }
  case_decide as H2.
  { exists d, false. split_and!; try done. intros -> _. by destruct H2. }
  assert (rehashidx d ≠ -1) as Hr.
  { apply rehashing_true. destruct (dictIsRehashing d); tauto. }
  destruct (rehash_loop_ok n (n * 10) d) as (d' & b & -> & Hwf' & Hr' & Hp & Hpa & Hx0 & Hx1 & Hle & Hlt);
    [lia|done..|]. bind_simpl.
  assert (dictIsRehashing d' = true) as Hreh by by apply rehashing_true.
  destruct (dict_wf_rehash _ Hwf' Hr') as (Hidx' & _). rewrite Hx0 in Hidx'.
  destruct b.
  { exists d', true. split_and!; try done. intros _ Hn.
    destruct (Hlt Hn) as [|[? _]]; [|done]. split_and!; lia || done. }
  case_decide as Hu.
  2: { exists d', true. split_and!; try done. intros _ Hn.
       destruct (Hlt Hn) as [|[_ ?]]; [|done]. split_and!; lia || done. }
  eexists _, false. split; [done|]. simpl.
  assert (ht_entries (ht0 d') = []) as Hnil.
  { rewrite (ht_wf_used _ (dict_wf0 _ Hwf')) in Hu. apply nil_length_inv. lia. }
  split_and!; try done.
  - split; simpl; try done; [apply Hwf'|apply ht_wf_empty|].
    unfold dict_entries; simpl. pose proof (dict_wf_nodup _ Hwf') as Hnd.
    unfold dict_entries in Hnd. rewrite Hnil in Hnd. by rewrite app_nil_r.
  - rewrite <- Hp. unfold dict_entries. rewrite Hnil. simpl. by rewrite app_nil_r.
Qed.

(** ** The invariant as a test *)

Fixpoint chain_shapeb e : bool :=
  match e with
  | ENull => true
  | EKey _ => no_value dt && keys_are_odd dt
  | ENoValue _ next => no_value dt && chain_shapeb next
  | ENormal _ _ next => negb (no_value dt) && chain_shapeb next
  end.

Definition chain_wfb (exp : Z) (i : nat) e : bool :=
  chain_shapeb e &&
  forallb (λ p, bool_decide (bucket_of exp p.1 = Z.of_nat i) &&
                (negb (keys_are_odd dt) || key_lsb dt p.1)) (chain_entries e).

Definition ht_wfb h : bool :=
  bool_decide ((ht_size_exp h = -1 ∧ length (ht_table h) = 0%nat) ∨
               (2 ≤ ht_size_exp h ≤ 60 ∧ zlen (ht_table h) = 2 ^ ht_size_exp h)) &&
  bool_decide (ht_used h = zlen (ht_entries h)) &&
  forallb id (imap (chain_wfb (ht_size_exp h)) (ht_table h)).

Definition dict_wfb d : bool :=
  ht_wfb (ht0 d) && ht_wfb (ht1 d) && bool_decide (NoDup (dict_entries d).*1) &&
  if decide (rehashidx d = -1) then bool_decide (ht_size_exp (ht1 d) = -1)
  else bool_decide (0 ≤ rehashidx d ≤ 2 ^ ht_size_exp (ht0 d) ∧
                    0 ≤ ht_size_exp (ht0 d) ∧ 0 ≤ ht_size_exp (ht1 d) ∧
                    ht_size_exp (ht0 d) ≠ ht_size_exp (ht1 d)) &&
       forallb is_null (take (Z.to_nat (rehashidx d)) (ht_table (ht0 d))).

Lemma chain_shapeb_ok e : chain_shapeb e = true → chain_shape e.
Proof.
  induction e as [|k|k e IH|k v e IH]; simpl; rewrite ?andb_true_iff, ?negb_true_iff; naive_solver.
Qed.

Lemma ht_wfb_ok h : ht_wfb h = true → ht_wf h.
Proof.
  unfold ht_wfb. rewrite !andb_true_iff, !bool_decide_eq_true. intros [[Hs Hu] Hc]. split; [|done|].
  - destruct Hs as [[? ?%nil_length_inv]|]; auto.
  - intros i e Hi. rewrite forallb_forall in Hc.
    assert (chain_wfb (ht_size_exp h) i e = true) as Hw.
    { apply (Hc (chain_wfb (ht_size_exp h) i e)). apply list_elem_of_In, list_elem_of_lookup.
      exists i. by rewrite list_lookup_imap, Hi. }
    apply andb_true_iff in Hw as [Hsh Hk]. split; [by apply chain_shapeb_ok|]. intros p Hp.
    rewrite forallb_forall in Hk. apply list_elem_of_In, Hk in Hp.
    apply andb_true_iff in Hp as [Hb%bool_decide_eq_true Ho]. split; [done|].
    intros Hodd. rewrite Hodd in Ho. done.
Qed.

Lemma dict_wfb_ok d : dict_wfb d = true → dict_wf d.
Proof.
  unfold dict_wfb. rewrite !andb_true_iff, bool_decide_eq_true.
  intros [[[H0 H1] Hnd] Hr]. split; [by apply ht_wfb_ok..|done| |]; intros Hidx.
  - rewrite decide_True in Hr by done. by apply bool_decide_eq_true in Hr.
  - rewrite decide_False in Hr by done. rewrite andb_true_iff, bool_decide_eq_true in Hr.
    destruct Hr as [(Hi & He0 & He1 & Hne) Hnull]. split_and!; try done; try lia. intros i Hlt.
    apply ht_wfb_ok in H0. destruct (ht_wf_size _ H0) as [[? _]|[_ Hl]]; [lia|].
    destruct (lookup_lt_is_Some_2 (ht_table (ht0 d)) i) as [e He]; [lia|]. rewrite He.
    rewrite forallb_forall in Hnull. specialize (Hnull e).
    destruct e; [done|..]; exfalso; discriminate Hnull;
      apply list_elem_of_In, list_elem_of_lookup; exists i; by rewrite lookup_take_lt by lia.
Qed.

End invariant.

(** ** A dictionary in the middle of a rehashing *)

Definition ex_type : dictType Z :=
  mk_dictType Z (λ k, uwrap 64 (k * 2654435761)) Z.eqb None false false (λ _, false).

Global Instance ex_type_ok : DictTypeOk ex_type.
Proof. split; [apply Z.eqb_eq|]. intros k. by apply uwrap_range. Qed.

(** Six additions to an empty dictionary. *)
Definition ex_dict : dict Z Z :=
  default dictCreate (foldl (λ od k, d ← od; '(d, _) ← dictAdd ex_type DICT_RESIZE_ENABLE d k (k * 10); Some d)
    (Some dictCreate) [1; 2; 3; 4; 5; 6]).

Lemma ex_dict_wf : dict_wf ex_type ex_dict.
Proof. apply dict_wfb_ok. vm_compute. reflexivity. Qed.

Lemma ex_dict_rehashing : dictIsRehashing ex_dict = true ∧ dict_map ex_dict =
  {[1 := Some 10; 2 := Some 20; 3 := Some 30; 4 := Some 40; 5 := Some 50; 6 := Some 60]}.
Proof. split; vm_compute; reflexivity. Qed.
