(* ===== verification/DictOps.v ===== *)
(** * dict.c: the operations refine those of a finite map *)

From S2P Require Import Prelude Dict DictInv.

Local Open Scope Z_scope.

Section operations_ok.
Context {K V : Type} `{Countable K}.
Context (dt : dictType K) `{!DictTypeOk dt}.

Implicit Types d : dict K V.
Implicit Types h : dictht K V.
Implicit Types e : dictEntry K V.

Abbreviation dict_wf := (dict_wf dt).
Abbreviation ht_wf := (ht_wf dt).
Abbreviation chain_wf := (chain_wf dt).

(** ** Expansion *)

Lemma next_exp_loop_ok fuel (e size : Z) :
  2 ≤ e ≤ 63 → 63 - e < Z.of_nat fuel → size ≤ 2 ^ 63 → e = 2 ∨ 2 ^ (e - 1) < size →
  ∃ e' : Z, _dictNextExp_loop fuel e size = Some e' ∧ 2 ≤ e' ≤ 63 ∧ size ≤ 2 ^ e' ∧
        (e' = 2 ∨ 2 ^ (e' - 1) < size).
Proof.
  revert e. induction fuel as [|fuel IH]; intros e He Hf Hs Hmin; [lia|]. simpl.
  rewrite u64_shiftl_1 by lia.
  case_decide as Hge; [exists e; split_and!; done || lia|].
  assert (e ≠ 63) by (intros ->; lia).
  rewrite uwrap_small by range_lia. apply IH; try lia. right.
  replace (e + 1 - 1) with e by lia. lia.
Qed.

(** [_dictNextExp] is the least exponent of at least 2 whose power holds [size]. *)
Lemma next_exp_ok size :
  size < LLONG_MAX →
  ∃ e : Z, _dictNextExp size = Some e ∧ 2 ≤ e ≤ 63 ∧ size ≤ 2 ^ e ∧ (e = 2 ∨ 2 ^ (e - 1) < size).
Proof.
  intros Hs. unfold _dictNextExp. rewrite decide_False by lia.
  apply next_exp_loop_ok; unfold DICT_HT_INITIAL_EXP; range_lia.
Qed.

Lemma next_exp_le (size e m : Z) : (e = 2 ∨ 2 ^ (e - 1) < size) → 2 ≤ m → size ≤ 2 ^ m → e ≤ m.
Proof.
  intros [->|Hlt] Hm Hs; [lia|]. destruct (Z.le_gt_cases e m); [done|].
  pose proof (Z.pow_le_mono_r 2 m (e - 1)). lia.
Qed.

Lemma ht_wf_fresh (e : Z) :
  2 ≤ e ≤ 60 → ht_wf (mk_dictht (replicate (Z.to_nat (2 ^ e)) ENull) 0 e : dictht K V).
Proof.
  intros He. assert (0 < 2 ^ e) by (apply Z.pow_pos_nonneg; lia). split; simpl.
  - right. split; [lia|]. rewrite length_replicate. lia.
  - unfold ht_entries; simpl. by rewrite table_entries_null.
  - intros i x Hi. apply lookup_replicate in Hi as [-> _]. split; [done|].
    intros p Hp. by apply not_elem_of_nil in Hp.
Qed.

Lemma idle_ht1 d : dict_wf d → rehashidx d = -1 → ht1 d = dictht_empty.
Proof. intros Hwf Hr. apply (ht_wf_null dt); [apply Hwf|]. by apply (dict_wf_idle _ _ Hwf). Qed.

(** The overflow test of [_dictExpand] on the byte size of a table. *)
Lemma ptr_overflow (e : Z) : 2 ≤ e ≤ 63 → u64 (2 ^ e * sizeof_ptr) < 2 ^ e ↔ 60 < e.
Proof.
  intros He. unfold sizeof_ptr, uwrap. change 8 with (2 ^ 3). rewrite <- Z.pow_add_r by lia.
  assert (0 < 2 ^ e) by (apply Z.pow_pos_nonneg; lia). split.
  - intros Hlt. destruct (Z.le_gt_cases e 60); [|done]. rewrite Z.mod_small in Hlt.
    + pose proof (Z.pow_lt_mono_r 2 e (e + 3)). lia.
    + split; [apply Z.pow_nonneg; lia|]. apply Z.pow_lt_mono_r; lia.
  - intros Hgt. replace (e + 3) with (64 + (e - 61)) by lia.
    rewrite Z.pow_add_r, Z.mul_comm, Z.mod_mul by lia. done.
Qed.

Lemma expand_ok d size alloc :
  dict_wf d → size < LLONG_MAX →
  ∃ d' ok mf, _dictExpand d size alloc = Some (d', ok, mf) ∧ dict_wf d' ∧
    dict_entries d' = dict_entries d ∧ pauserehash d' = pauserehash d ∧
    (0 ≤ ht_size_exp (ht0 d) → ht0 d' = ht0 d) ∧
    (ok = true → 0 ≤ ht_size_exp (ht0 d')) ∧ (ok = false → d' = d) ∧
    (mf = true → alloc = Some false) ∧
    (rehashidx d = -1 → ht_used (ht0 d) ≤ size → size ≤ 2 ^ 60 →
     (2 ^ ht_size_exp (ht0 d) < size ∨ ht_size_exp (ht0 d) = -1) →
     alloc ≠ Some false → ok = true).
Proof.
  intros Hwf Hs. unfold _dictExpand. case_decide as H1.
  { exists d, false, false. split_and!; try done. intros Hr Hu.
    destruct H1 as [Ht|]; [|lia]. by apply rehashing_true in Ht. }
  assert (rehashidx d = -1) as Hr.
  { apply rehashing_false. destruct (dictIsRehashing d); tauto. }
  destruct (next_exp_ok size Hs) as (e & -> & He & Hle & Hmin). bind_simpl.
  rewrite u64_shiftl_1 by lia.
  pose proof (ptr_overflow e ltac:(lia)) as Hov.
  case_decide as H2.
  { exists d, false, false. split_and!; try done. intros _ _ Hs60 _ _.
    destruct H2 as [|H2]; [lia|]. apply Hov in H2.
    pose proof (next_exp_le size e 60 Hmin). lia. }
  case_decide as H3.
  { exists d, false, false. split_and!; try done. intros _ _ _ [Hlt|Hneg] _; [|lia].
    rewrite <- H3 in Hlt. lia. }
  case_decide as H4; [by exists d, false, true; split_and!|].
  assert (2 ≤ e ≤ 60) as He60 by lia. pose proof (ht_wf_fresh e He60) as Hfresh.
  assert (∀ x : Z, ht_entries (mk_dictht (replicate (Z.to_nat (2 ^ e)) ENull) 0 x : dictht K V) = [])
    as Hnil by (intros x; apply table_entries_null).
  pose proof (idle_ht1 d Hwf Hr) as Hht1.
  case_decide as H5.
  - assert (ht_size_exp (ht0 d) = -1) as Hneg.
    { destruct (ht_wf_size _ _ (dict_wf0 _ _ Hwf)) as [[? _]|[? Hl]]; [done|].
      rewrite H5 in Hl. pose proof (Z.pow_pos_nonneg 2 (ht_size_exp (ht0 d))). simpl in Hl. lia. }
    assert (dict_entries d = []) as Hd.
    { unfold dict_entries, ht_entries. by rewrite H5, Hht1. }
    eexists _, true, false. split; [done|].
    assert (∀ d', ht0 d' = mk_dictht (replicate (Z.to_nat (2 ^ e)) ENull) 0 e → ht1 d' = ht1 d →
      dict_entries d' = []) as Hd'.
    { intros d' E0 E1. unfold dict_entries. by rewrite E0, E1, Hht1, Hnil. }
    split_and!; simpl; try done; [|by rewrite Hd, Hd'|lia|lia].
    split; simpl; [done|apply Hwf| |intros _; by rewrite Hht1|by rewrite Hr].
    rewrite Hd' by done. constructor.
  - eexists _, true, false. split; [done|].
    destruct (ht_wf_size _ _ (dict_wf0 _ _ Hwf)) as [[_ ?]|[Hexp Hl]]; [done|].
    assert (∀ d', ht0 d' = ht0 d → ht1 d' = mk_dictht (replicate (Z.to_nat (2 ^ e)) ENull) 0 e →
      dict_entries d' = dict_entries d) as Hd'.
    { intros d' E0 E1. unfold dict_entries. by rewrite E0, E1, Hht1, Hnil. }
    split_and!; simpl; try (done || by apply Hd'); [|intros; lia].
    split; simpl; [apply Hwf|done| |done|].
    + rewrite Hd'; [apply Hwf|done|done].
    + intros _. assert (0 < 2 ^ ht_size_exp (ht0 d)) by (apply Z.pow_pos_nonneg; lia).
      split_and!; try lia.
Qed.

(** A size that no table can have is refused. *)
Lemma expand_any d size alloc :
  dict_wf d →
  ∃ d' ok mf, _dictExpand d size alloc = Some (d', ok, mf) ∧ dict_wf d' ∧ dict_entries d' = dict_entries d ∧ (mf = true → alloc = Some false).
Proof.
  intros Hwf. destruct (decide (size < LLONG_MAX)) as [Hs|Hs].
  { destruct (expand_ok d size alloc Hwf Hs) as (d' & ok & mf & ? & ? & ? & _ & _ & _ & _ & ? & _). by exists d', ok, mf. }
  exists d, false, false. split; [|done]. unfold _dictExpand. case_decide; [done|]. unfold _dictNextExp. rewrite decide_True by lia. bind_simpl.
  by rewrite decide_True by (right; vm_compute; reflexivity).
Qed.

(** The size of the table a successful expansion allocates. *)
Lemma expand_size d size alloc d' mf :
  dict_wf d → size < LLONG_MAX → rehashidx d = -1 → _dictExpand d size alloc = Some (d', true, mf) →
  let new := if dictIsRehashing d' then ht1 d' else ht0 d' in
  2 ≤ ht_size_exp new ∧ size ≤ 2 ^ ht_size_exp new ∧
  (ht_size_exp new = 2 ∨ 2 ^ (ht_size_exp new - 1) < size).
Proof.
  intros Hwf Hs Hr. unfold _dictExpand. case_decide; [done|].
  destruct (next_exp_ok size Hs) as (e & -> & He & Hle & Hmin). bind_simpl.
  repeat (case_decide; [done|]). case_decide; intros [= <- _].
  - assert (dictIsRehashing d = false) as Hreh by by apply rehashing_false.
    unfold dictIsRehashing in *. simpl. rewrite Hreh. simpl. split_and!; done || lia.
  - simpl. split_and!; done || lia.
Qed.

Lemma expand_if_needed_ok can d :
  dict_wf d → dictSize d < 2 ^ 60 →
  ∃ d', _dictExpandIfNeeded dt can d = Some (d', true) ∧ dict_wf d' ∧
    dict_entries d' = dict_entries d ∧ pauserehash d' = pauserehash d ∧
    0 ≤ ht_size_exp (ht0 d').
Proof.
  intros Hwf Hsz. unfold _dictExpandIfNeeded, dictSize in *.
  assert (0 ≤ ht_used (ht0 d) ∧ 0 ≤ ht_used (ht1 d)) as [Hu0 Hu1].
  { rewrite (ht_wf_used _ _ (dict_wf0 _ _ Hwf)), (ht_wf_used _ _ (dict_wf1 _ _ Hwf)). lia. }
  destruct (dictIsRehashing d) eqn:Hreh.
  { apply rehashing_true in Hreh. exists d. split_and!; try done.
    by apply (dict_wf_rehash _ _ Hwf). }
  apply rehashing_false in Hreh. unfold dictExpand.
  destruct (ht_wf_exp _ _ (dict_wf0 _ _ Hwf)) as [Hexp|Hexp].
  { rewrite decide_True by (by rewrite Hexp).
    destruct (expand_ok d DICT_HT_INITIAL_SIZE None Hwf) as
      (d' & ok & mf & -> & Hwf' & Hent & Hpa & _ & Hok & _ & _ & Hyes); [vm_compute; done|].
    assert (ok = true) as ->.
    { apply Hyes; try done; try (by right).
      rewrite (ht_wf_null _ _ (dict_wf0 _ _ Hwf) Hexp). vm_compute. congruence. }
    exists d'. split_and!; try done. by apply Hok. }
  rewrite dictht_size_pow by lia. assert (0 < 2 ^ ht_size_exp (ht0 d)) by (apply Z.pow_pos_nonneg; lia).
  rewrite decide_False by lia.
  assert (∃ b, dictTypeExpandAllowed dt d = Some b) as (b & ->).
  { unfold dictTypeExpandAllowed. destruct (expandAllowed dt); [|by eexists].
    destruct (next_exp_ok (ht_used (ht0 d) + 1)) as (x & -> & _); [range_lia|]. by eexists. }
  bind_simpl.
  destruct b; simpl; [|exists d; split_and!; done || lia].
  case_decide as Hgrow; [|exists d; split_and!; done || lia].
  assert (2 ^ ht_size_exp (ht0 d) ≤ ht_used (ht0 d)) as Hfull.
  { destruct Hgrow as [[_ ?]|[_ Hratio]]; [lia|]. unfold dict_force_resize_ratio in Hratio.
    pose proof (Z.mul_div_le (ht_used (ht0 d)) (2 ^ ht_size_exp (ht0 d))). nia. }
  destruct (expand_ok d (ht_used (ht0 d) + 1) None Hwf) as
    (d' & ok & mf & -> & Hwf' & Hent & Hpa & Hsame & Hok & Hno & _ & Hyes); [range_lia|].
  bind_simpl.
  assert (ok = true) as ->.
  { apply Hyes; try done; try lia. }
  exists d'. split_and!; try done. by apply Hok.
Qed.

(** ** Chains *)

Lemma compare_keys k k' : dictCompareKeys dt k k' = bool_decide (k = k').
Proof.
  unfold dictCompareKeys. apply eq_true_iff_eq. by rewrite keyCompare_spec, bool_decide_eq_true.
Qed.

Lemma chain_find_ok k e :
  match chain_find dt k e with
  | Some pos => ∃ v, chain_entries e !! pos = Some (k, v)
  | None => k ∉ (chain_entries e).*1
  end.
Proof.
  induction e as [|k'|k' n IH|k' v n IH]; simpl; rewrite ?compare_keys.
  - apply not_elem_of_nil.
  - case_bool_decide; subst; [by eexists|]. rewrite list_elem_of_singleton. done.
  - case_bool_decide; subst; [by eexists|].
    destruct (chain_find dt k n); simpl; [done|]. by rewrite not_elem_of_cons.
  - case_bool_decide; subst; [by eexists|].
    destruct (chain_find dt k n); simpl; [done|]. by rewrite not_elem_of_cons.
Qed.

(** The value field, absent in the entries without value. *)
Definition entry_val e : option V := match e with ENormal _ v _ => v | _ => None end.

Lemma chain_nth_ok e pos k v :
  chain_entries e !! pos = Some (k, v) →
  dictGetKey (chain_nth e pos) = Some k ∧ entry_val (chain_nth e pos) = v.
Proof.
  revert e. induction pos as [|pos IH]; intros e He; simpl.
  - destruct e; simplify_eq/=; done.
  - apply IH. by destruct e.
Qed.

Lemma chain_nth_val e pos k v :
  chain_shape dt e → no_value dt = false → chain_entries e !! pos = Some (k, v) →
  dictGetVal (chain_nth e pos) = Some v.
Proof.
  revert e. induction pos as [|pos IH]; intros e Hs Hnv He; simpl.
  - destruct e; simplify_eq/=; try done; destruct Hs; congruence.
  - apply IH; [|done|by destruct e]. destruct e; simpl in *; tauto.
Qed.

Lemma chain_unlink_ok e pos p :
  chain_shape dt e → chain_entries e !! pos = Some p →
  ∃ e', chain_unlink e pos = Some e' ∧ chain_entries e' = delete pos (chain_entries e) ∧
        chain_shape dt e'.
Proof.
  revert e. induction pos as [|pos IH]; intros e Hs He; simpl.
  - destruct e as [|k|k n|k v n]; simplify_eq/=; eexists; split_and!; try done; apply Hs.
  - destruct e as [|k|k n|k v n]; simplify_eq/=;
      destruct Hs as [Hnv Hs]; destruct (IH n Hs He) as (n' & -> & Hent & Hs');
      eexists; (split; [done|]); simpl; by rewrite Hent.
Qed.

Lemma chain_set_val_ok e pos k v val :
  chain_shape dt e → no_value dt = false → chain_entries e !! pos = Some (k, v) →
  ∃ e', chain_set_val e pos val = Some e' ∧
        chain_entries e' = <[pos := (k, Some val)]> (chain_entries e) ∧ chain_shape dt e'.
Proof.
  revert e. induction pos as [|pos IH]; intros e Hs Hnv He; simpl.
  - destruct e as [|k'|k' n|k' v' n]; simplify_eq/=; try (destruct Hs; congruence).
    eexists; split_and!; try done; apply Hs.
  - destruct e as [|k'|k' n|k' v' n]; simplify_eq/=;
      destruct Hs as [Hnv' Hs]; destruct (IH n Hs Hnv He) as (n' & -> & Hent & Hs');
      eexists; (split; [done|]); simpl; by rewrite Hent.
Qed.

(** ** Looking a key up *)

(** The reference points to the entry [(k, v)]. *)
Definition ref_to d (r : entry_ref) (k : K) (v : option V) : Prop :=
  0 ≤ ref_idx r ∧
  ∃ e, ht_table (ht d (ref_table r)) !! Z.to_nat (ref_idx r) = Some e ∧
       chain_entries e !! ref_pos r = Some (k, v).

Lemma ref_to_elem d r k v : ref_to d r k v → (k, v) ∈ dict_entries d.
Proof.
  intros (_ & e & He & Hp). unfold dict_entries, ht_entries. rewrite elem_of_app.
  destruct (ref_table r); [right|left]; apply elem_of_table_entries;
    eexists _, _; (split; [exact He|by eapply list_elem_of_lookup_2]).
Qed.

Lemma ref_to_deref d r k v :
  ref_to d r k v → ∃ e, deref d r = Some e ∧ dictGetKey e = Some k ∧ entry_val e = v.
Proof.
  intros (Hi & e & He & Hp). unfold deref, ht_get. rewrite decide_True, He by done. simpl.
  eexists. split; [done|]. by apply chain_nth_ok.
Qed.

(** A table holds a key only in the bucket of its hash. *)
Lemma ht_key_bucket h k v e :
  ht_wf h → (k, v) ∈ ht_entries h →
  ht_table h !! Z.to_nat (bucket_of dt (ht_size_exp h) k) = Some e → (k, v) ∈ chain_entries e.
Proof.
  intros Hwf Hin He. apply elem_of_table_entries in Hin as (i & e' & Hi & Hp).
  destruct (chain_wf_keys _ _ _ _ (ht_wf_chains _ _ Hwf _ _ Hi) _ Hp) as [Hb _]. simpl in Hb.
  rewrite Hb, Nat2Z.id in He. congruence.
Qed.

Lemma ht_search_ok h k :
  ht_wf h → 0 ≤ ht_size_exp h →
  ∃ e, ht_get h (bucket_of dt (ht_size_exp h) k) = Some e ∧
       ht_table h !! Z.to_nat (bucket_of dt (ht_size_exp h) k) = Some e ∧
       (chain_find dt k e = None → k ∉ (ht_entries h).*1).
Proof.
  intros Hwf Hexp.
  assert (0 ≤ ht_size_exp h ≤ 60) as Hr by (destruct (ht_wf_exp _ _ Hwf); lia).
  destruct (ht_get_wf dt h (bucket_of dt (ht_size_exp h) k)) as (e & Hget & He & _);
    [done|lia|by apply land_mask_range|].
  exists e. split_and!; [done..|]. intros Hnone.
  pose proof (chain_find_ok k e) as Hf. rewrite Hnone in Hf. intros Hin. apply Hf.
  apply list_elem_of_fmap in Hin as ([k' v] & -> & Hin). simpl in *.
  apply list_elem_of_fmap. exists (k', v). split; [done|]. by eapply ht_key_bucket.
Qed.

Lemma dict_search_ok d k :
  dict_wf d → 0 ≤ ht_size_exp (ht0 d) →
  ∃ r, dict_search dt d k = Some r ∧
       match r with
       | None => k ∉ (dict_entries d).*1
       | Some r => ∃ v, ref_to d r k v
       end.
Proof.
  intros Hwf Hexp. unfold dict_search, dict_entries.
  assert (0 ≤ ht_size_exp (ht0 d) ≤ 60) as Hr by (destruct (ht_wf_exp _ _ (dict_wf0 _ _ Hwf)); lia).
  destruct (ht_search_ok (ht0 d) k) as (e & Hget & He & Hnot); [apply Hwf|done|].
  unfold bucket_of in Hget. rewrite Hget. bind_simpl.
  pose proof (chain_find_ok k e) as Hf. destruct (chain_find dt k e) as [pos|].
  { destruct Hf as [v Hv]. eexists. split; [done|]. exists v. split; simpl.
    - by apply land_mask_range.
    - by exists e. }
  specialize (Hnot eq_refl). rewrite fmap_app.
  destruct (dictIsRehashing d) eqn:Hreh; simpl; last first.
  { eexists. split; [done|]. apply rehashing_false in Hreh.
    rewrite (idle_ht1 d Hwf Hreh). by rewrite app_nil_r. }
  apply rehashing_true in Hreh. destruct (dict_wf_rehash _ _ Hwf Hreh) as (_ & _ & H1 & _).
  destruct (ht_search_ok (ht1 d) k) as (e1 & Hget1 & He1 & Hnot1); [apply Hwf|done|].
  assert (0 ≤ ht_size_exp (ht1 d) ≤ 60) as Hr1 by (destruct (ht_wf_exp _ _ (dict_wf1 _ _ Hwf)); lia).
  unfold bucket_of in Hget1. rewrite Hget1. bind_simpl.
  eexists. split; [done|]. pose proof (chain_find_ok k e1) as Hf1.
  destruct (chain_find dt k e1) as [pos|]; simpl.
  - destruct Hf1 as [v Hv]. exists v. split; simpl; [by apply land_mask_range|by exists e1].
  - rewrite not_elem_of_app. split; [done|]. by apply Hnot1.
Qed.

(** ** Changing one chain *)

Lemma dict_put_ok d t (i : nat) e e' du :
  dict_wf d → ht_table (ht d t) !! i = Some e →
  chain_wf (ht_size_exp (ht d t)) i e' →
  du = zlen (chain_entries e') - zlen (chain_entries e) →
  (rehashidx d ≠ -1 → t = false → e ≠ ENull) →
  ∃ h' R, ht_put (ht d t) (Z.of_nat i) e' du = Some h' ∧
    dict_entries d ≡ₚ chain_entries e ++ R ∧
    dict_entries (set_ht d t h') ≡ₚ chain_entries e' ++ R ∧
    (NoDup (chain_entries e' ++ R).*1 → dict_wf (set_ht d t h')) ∧
    ht_table (ht (set_ht d t h') t) !! i = Some e' ∧
    dictIsRehashing (set_ht d t h') = dictIsRehashing d ∧
    pauserehash (set_ht d t h') = pauserehash d.
Proof.
  intros Hwf Hi He' Hdu Hnn.
  assert (ht_wf (ht d t)) as Ht by (destruct t; apply Hwf).
  destruct (ht_put_wf dt (ht d t) i e e' du Ht Hi He' Hdu)
    as (h' & R & Hput & Hwf' & Hexp & Htbl & HR & HR').
  exists h', (R ++ ht_entries (ht d (negb t))). split; [done|].
  assert (dict_entries d ≡ₚ chain_entries e ++ R ++ ht_entries (ht d (negb t))) as HP.
  { unfold dict_entries. rewrite app_assoc, <- HR. destruct t; simpl; [apply Permutation_app_comm|done]. }
  assert (dict_entries (set_ht d t h') ≡ₚ chain_entries e' ++ R ++ ht_entries (ht d (negb t))) as HP'.
  { unfold dict_entries. rewrite app_assoc, <- HR'. destruct t; simpl; [apply Permutation_app_comm|done]. }
  apply lookup_lt_Some in Hi as Hil.
  split_and!; [done|done| | |by destruct t|by destruct t].
  - intros Hnd. split.
    + destruct t; [apply Hwf|done].
    + destruct t; [done|apply Hwf].
    + by rewrite HP'.
    + destruct t; simpl; [|apply Hwf]. intros Hr. rewrite Hexp. by apply (dict_wf_idle _ _ Hwf).
    + intros Hr. assert (rehashidx d ≠ -1) as Hr' by by destruct t.
      destruct (dict_wf_rehash _ _ Hwf Hr') as (Hidx & H0 & H1 & Hne & Hnull).
      destruct t; simpl in *; rewrite ?Hexp; split_and!; try done; try lia.
      intros j Hj. rewrite Htbl. rewrite list_lookup_insert_ne; [by apply Hnull|].
      intros <-. rewrite (Hnull _ Hj) in Hi. simplify_eq. by apply Hnn.
  - destruct t; simpl; rewrite Htbl; by rewrite list_lookup_insert_eq.
Qed.

Lemma dict_size_entries d : dict_wf d → dictSize d = zlen (dict_entries d).
Proof.
  intros Hwf. unfold dictSize, dict_entries.
  rewrite (ht_wf_used _ _ (dict_wf0 _ _ Hwf)), (ht_wf_used _ _ (dict_wf1 _ _ Hwf)), length_app. lia.
Qed.

Lemma dict_nonempty_table d : dict_wf d → dict_entries d ≠ [] → 0 ≤ ht_size_exp (ht0 d).
Proof.
  intros Hwf Hne. destruct (ht_wf_exp _ _ (dict_wf0 _ _ Hwf)) as [Hexp|]; [|lia].
  destruct (decide (rehashidx d = -1)) as [Hr|Hr].
  - exfalso. apply Hne. unfold dict_entries.
    by rewrite (idle_ht1 d Hwf Hr), (ht_wf_null _ _ (dict_wf0 _ _ Hwf) Hexp).
  - by destruct (dict_wf_rehash _ _ Hwf Hr) as (_ & ? & _).
Qed.

Lemma rehash_if_needed_ok can d :
  dict_wf d →
  ∃ d', rehash_if_needed dt can d = Some d' ∧ dict_wf d' ∧ dict_entries d' ≡ₚ dict_entries d ∧
        pauserehash d' = pauserehash d.
Proof.
  intros Hwf. unfold rehash_if_needed, _dictRehashStep.
  destruct (dictIsRehashing d); [|by exists d]. case_decide; [|by exists d].
  destruct (dictRehash_ok dt can d 1 Hwf) as (d' & more & -> & Hwf' & Hp & Hpa & _).
  by exists d'.
Qed.

Lemma set_val_ok d r k v val :
  dict_wf d → no_value dt = false → ref_to d r k v →
  ∃ d' R, dictSetVal d r val = Some d' ∧ dict_wf d' ∧
    dict_entries d ≡ₚ (k, v) :: R ∧ dict_entries d' ≡ₚ (k, Some val) :: R ∧
    pauserehash d' = pauserehash d.
Proof.
  intros Hwf Hnv (Hi & e & He & Hp). unfold dictSetVal, ht_get. rewrite decide_True, He by done.
  bind_simpl.
  assert (ht_wf (ht d (ref_table r))) as Ht by (destruct (ref_table r); apply Hwf).
  pose proof (ht_wf_chains _ _ Ht _ _ He) as [Hsh Hkeys].
  destruct (chain_set_val_ok e (ref_pos r) k v val Hsh Hnv Hp) as (e' & -> & Hent & Hsh').
  bind_simpl.
  assert (chain_entries e ≡ₚ (k, v) :: delete (ref_pos r) (chain_entries e)) as HPe
    by by apply delete_Permutation.
  assert (chain_entries e' ≡ₚ (k, Some val) :: delete (ref_pos r) (chain_entries e)) as HPe'.
  { rewrite Hent. rewrite (delete_Permutation (<[_ := _]> _) (ref_pos r) (k, Some val)).
    - by rewrite list_delete_insert_same.
    - apply list_lookup_insert_eq. by eapply lookup_lt_Some. }
  destruct (dict_put_ok d (ref_table r) (Z.to_nat (ref_idx r)) e e' 0 Hwf He)
    as (h' & R & Hput & HR & HR' & Hwf' & _ & _ & Hpa).
  { split; [done|]. intros p. rewrite HPe', elem_of_cons. intros [->|Hin].
    - apply (Hkeys (k, v)). by eapply list_elem_of_lookup_2.
    - apply Hkeys. rewrite HPe. by right. }
  { rewrite Hent, length_insert. lia. }
  { intros _ _ ->. simpl in Hp. by rewrite lookup_nil in Hp. }
  rewrite Z2Nat.id in Hput by done. rewrite Hput. bind_simpl.
  eexists _, _. split; [done|]. rewrite HPe in HR. rewrite HPe' in HR'.
  split_and!; [|exact HR|exact HR'|done].
  apply Hwf'. pose proof (dict_wf_nodup _ _ Hwf) as Hnd. rewrite HR in Hnd. by rewrite HPe'.
Qed.

Lemma unlink_ok d r k v :
  dict_wf d → ref_to d r k v →
  ∃ d', unlink_ref d r = Some d' ∧ dict_wf d' ∧ dict_entries d ≡ₚ (k, v) :: dict_entries d' ∧
        pauserehash d' = pauserehash d.
Proof.
  intros Hwf (Hi & e & He & Hp). unfold unlink_ref, ht_get. rewrite decide_True, He by done.
  bind_simpl.
  assert (ht_wf (ht d (ref_table r))) as Ht by (destruct (ref_table r); apply Hwf).
  pose proof (ht_wf_chains _ _ Ht _ _ He) as [Hsh Hkeys].
  destruct (chain_unlink_ok e (ref_pos r) (k, v) Hsh Hp) as (e' & -> & Hent & Hsh').
  bind_simpl.
  assert (chain_entries e ≡ₚ (k, v) :: chain_entries e') as HPe
    by (rewrite Hent; by apply delete_Permutation).
  destruct (dict_put_ok d (ref_table r) (Z.to_nat (ref_idx r)) e e' (-1) Hwf He)
    as (h' & R & Hput & HR & HR' & Hwf' & _ & _ & Hpa).
  { split; [done|]. intros p Hin. apply Hkeys. rewrite HPe. by right. }
  { rewrite HPe. simpl. lia. }
  { intros _ _ ->. simpl in Hp. by rewrite lookup_nil in Hp. }
  rewrite Z2Nat.id in Hput by done. rewrite Hput. bind_simpl.
  eexists. split; [done|]. rewrite HPe in HR. split_and!; [|by rewrite HR, HR'|done].
  apply Hwf'. pose proof (dict_wf_nodup _ _ Hwf) as Hnd. rewrite HR in Hnd.
  by apply NoDup_cons in Hnd as [_ ?].
Qed.

Lemma insert_ok d k :
  dict_wf d → 0 ≤ ht_size_exp (ht0 d) → k ∉ (dict_entries d).*1 → key_ok dt k →
  let t := dictIsRehashing d in
  ∃ d' r, dictInsertAtPosition dt d k t (bucket_of dt (ht_size_exp (ht d t)) k) = Some (d', r) ∧
    dict_wf d' ∧ dict_entries d' ≡ₚ (k, None) :: dict_entries d ∧ ref_to d' r k None ∧
    pauserehash d' = pauserehash d.
Proof.
  intros Hwf H0 Hfresh Hok t. unfold dictInsertAtPosition. fold t.
  assert (ht_wf (ht d t)) as Ht by (destruct t; apply Hwf).
  assert (0 ≤ ht_size_exp (ht d t) ≤ 60) as Hexp.
  { enough (0 ≤ ht_size_exp (ht d t)) by (destruct (ht_wf_exp _ _ Ht); lia).
    destruct t eqn:Et; simpl; [|done]. apply rehashing_true in Et.
    by destruct (dict_wf_rehash _ _ Hwf Et) as (_ & _ & ? & _). }
  pose proof (land_mask_range (ht_size_exp (ht d t)) (hashFunction dt k) Hexp) as Hb.
  fold (bucket_of dt (ht_size_exp (ht d t)) k) in Hb.
  rewrite decide_True.
  2: { split; [done|]. rewrite dictht_mask_ones, Z.ones_equiv by done. lia. }
  destruct (ht_get_wf dt (ht d t) _ Ht ltac:(lia) Hb) as (e & -> & He & Hewf).
  bind_simpl.
  set (oe := if no_value dt then _ else _).
  assert (∃ e', oe = Some e' ∧ chain_entries e' = (k, None) :: chain_entries e ∧ chain_shape dt e')
    as (e' & -> & Hent & Hsh).
  { pose proof (chain_wf_shape _ _ _ _ Hewf) as Hs. unfold oe.
    destruct (no_value dt) eqn:Hnv; [|by eexists].
    destruct (keys_are_odd dt) eqn:Hodd; simpl; [|by eexists].
    destruct e; simpl; [rewrite Hok by done|..]; by eexists. }
  bind_simpl.
  destruct (dict_put_ok d t _ e e' 1 Hwf He) as (h' & R & Hput & HR & HR' & Hwf' & Hat & _ & Hpa).
  { split; [done|]. intros p. rewrite Hent, elem_of_cons. intros [->|Hin].
    - simpl. split; [lia|done].
    - by apply (chain_wf_keys _ _ _ _ Hewf). }
  { rewrite Hent. simpl. lia. }
  { intros Hr Hf. exfalso. apply rehashing_true in Hr. unfold t in Hf. congruence. }
  rewrite Z2Nat.id in Hput by lia. rewrite Hput. bind_simpl.
  eexists _, _. split; [done|]. rewrite Hent in HR'. simpl in HR'.
  split_and!; [|by rewrite HR', <- HR| |done].
  - apply Hwf'. rewrite Hent. simpl. constructor; [by rewrite <- HR|]. rewrite <- HR. apply Hwf.
  - split; simpl; [lia|]. exists e'. split; [done|]. by rewrite Hent.
Qed.

(** The result of [dictAddRaw]: the new entry, or the existing one. *)
Lemma add_raw_ok can d k :
  dict_wf d → key_ok dt k → dictSize d < 2 ^ 60 →
  ∃ d' entry existing, dictAddRaw dt can d k = Some (d', entry, existing) ∧ dict_wf d' ∧
    pauserehash d' = pauserehash d ∧
    ((∃ r, entry = Some r ∧ existing = None ∧ k ∉ (dict_entries d).*1 ∧
           dict_entries d' ≡ₚ (k, None) :: dict_entries d ∧ ref_to d' r k None) ∨
     (∃ r v, entry = None ∧ existing = Some r ∧ ref_to d' r k v ∧
             dict_entries d' ≡ₚ dict_entries d)).
Proof.
  intros Hwf Hok Hsz. unfold dictAddRaw, dictFindPositionForInsert.
  destruct (rehash_if_needed_ok can d Hwf) as (d1 & -> & Hwf1 & Hp1 & Hpa1).
  bind_simpl.
  destruct (expand_if_needed_ok can d1 Hwf1) as (d2 & -> & Hwf2 & Hent2 & Hpa2 & H0).
  { rewrite dict_size_entries, Hp1, <- dict_size_entries by done. done. }
  cbn [mbind option_bind negb].
  destruct (dict_search_ok d2 k Hwf2 H0) as (r & -> & Hr). bind_simpl.
  destruct r as [r|].
  - destruct Hr as [v Hr]. eexists d2, None, (Some r). split_and!; [done..|congruence|].
    right. exists r, v. split_and!; try done. by rewrite Hent2.
  - destruct (insert_ok d2 k Hwf2 H0 Hr Hok) as (d3 & r & Hins & Hwf3 & Hp3 & Hr3 & Hpa3).
    unfold bucket_of in Hins. bind_simpl. rewrite Hins. bind_simpl.
    eexists d3, (Some r), None. split_and!; [done..|congruence|]. left. exists r.
    rewrite Hent2, Hp1 in Hr. rewrite Hent2, Hp1 in Hp3. by split_and!.
Qed.

(** ** Refinement *)

(** The dictionary is well formed and holds the map [M]. *)
Definition dict_denotes d (M : gmap K (option V)) : Prop := dict_wf d ∧ dict_map d = M.

(** The value [dictAdd] stores: none in the dictionaries without values. *)
Definition stored_val (v : V) : option V := if no_value dt then None else Some v.

Lemma dict_map_perm d l : dict_wf d → dict_entries d ≡ₚ l → dict_map d = list_to_map l.
Proof. intros Hwf Hp. unfold dict_map. apply list_to_map_proper; [apply Hwf|done]. Qed.

Lemma dict_map_same d d' : dict_wf d → dict_entries d' ≡ₚ dict_entries d → dict_map d' = dict_map d.
Proof. intros Hwf Hp. symmetry. apply dict_map_perm; [done|by symmetry]. Qed.

Lemma dict_map_lookup d k v : dict_wf d → (k, v) ∈ dict_entries d → dict_map d !! k = Some v.
Proof. intros Hwf Hin. unfold dict_map. apply elem_of_list_to_map_1; [apply Hwf|done]. Qed.

Lemma dict_map_absent d k : k ∉ (dict_entries d).*1 → dict_map d !! k = None.
Proof. intros Hn. unfold dict_map. by apply not_elem_of_list_to_map_1. Qed.

Lemma dict_map_size d : dict_wf d → Z.of_nat (size (dict_map d)) = dictSize d.
Proof.
  intros Hwf. rewrite dict_size_entries by done. f_equal. unfold dict_map.
  rewrite map_size_list_to_map; [done|apply Hwf].
Qed.

Lemma dictFind_ok can d M k :
  dict_denotes d M →
  ∃ d' r, dictFind dt can d k = Some (d', r) ∧ dict_denotes d' M ∧
    match r with None => M !! k = None | Some r => ∃ v, ref_to d' r k v ∧ M !! k = Some v end.
Proof.
  intros [Hwf <-]. unfold dictFind. case_decide as H0.
  { eexists d, None. split_and!; try done. apply dict_map_absent.
    rewrite dict_size_entries in H0 by done.
    destruct (dict_entries d); [apply not_elem_of_nil|simpl in H0; lia]. }
  destruct (rehash_if_needed_ok can d Hwf) as (d1 & -> & Hwf1 & Hp1 & _). bind_simpl.
  destruct (dict_search_ok d1 k Hwf1) as (r & -> & Hr).
  { apply dict_nonempty_table; [done|]. intros Hnil. rewrite Hnil in Hp1.
    rewrite dict_size_entries, <- Hp1 in H0 by done. done. }
  exists d1, r. pose proof (dict_map_same d d1 Hwf Hp1) as Hm.
  split_and!; [done..|]. rewrite <- Hm. destruct r as [r|]; [|by apply dict_map_absent].
  destruct Hr as [v Hr]. exists v. split; [done|]. apply dict_map_lookup; [done|]. by eapply ref_to_elem.
Qed.

(** [dictFind] returns a pointer to the entry of the key when the map has it and NULL
    otherwise; the step of rehashing it performs does not change the map. *)
Theorem dictFind_refines can d M k :
  dict_denotes d M →
  ∃ d' r, dictFind dt can d k = Some (d', r) ∧ dict_denotes d' M ∧
    match r with
    | None => M !! k = None
    | Some r => ∃ e, deref d' r = Some e ∧ dictGetKey e = Some k ∧ M !! k = Some (entry_val e)
    end.
Proof.
  intros Hd. destruct (dictFind_ok can d M k Hd) as (d' & r & Hf & Hd' & Hr). exists d', r. split_and!; [done..|].
  destruct r as [r|]; [|done]. destruct Hr as (v & Hr & Hv). destruct (ref_to_deref _ _ _ _ Hr) as (e & He & Hk & Hev).
  exists e. split_and!; [done..|]. by rewrite Hev.
Qed.

Lemma dictAdd_ok can d M k v :
  dict_denotes d M → key_ok dt k → dictSize d < 2 ^ 60 →
  ∃ d', dictAdd dt can d k v = Some (d', bool_decide (M !! k = None)) ∧
        dict_denotes d' (if bool_decide (M !! k = None) then <[k := stored_val v]> M else M).
Proof.
  intros [Hwf <-] Hok Hsz. unfold dictAdd.
  destruct (add_raw_ok can d k Hwf Hok Hsz) as (d1 & en & ex & -> & Hwf1 & _ & Hcase).
  bind_simpl.
  destruct Hcase as [(r & -> & -> & Hfresh & Hp & Hr)|(r & v0 & -> & -> & Hr & Hp)].
  - rewrite (bool_decide_true (dict_map d !! k = None)) by by apply dict_map_absent.
    unfold stored_val. destruct (no_value dt) eqn:Hnv.
    + exists d1. split; [done|]. split; [done|]. by rewrite (dict_map_perm _ _ Hwf1 Hp).
    + destruct (set_val_ok d1 r k None v Hwf1 Hnv Hr) as (d2 & R & -> & Hwf2 & HR & HR' & _).
      exists d2. split; [done|]. split; [done|]. rewrite (dict_map_perm _ _ Hwf2 HR'). simpl.
      f_equal. unfold dict_map. symmetry. apply list_to_map_proper; [apply Hwf|].
      rewrite Hp in HR. by apply Permutation_cons_inv in HR.
  - exists d1. pose proof (dict_map_same d d1 Hwf Hp) as Hm.
    assert (dict_map d !! k = Some v0) as Hl.
    { rewrite <- Hm. apply dict_map_lookup; [done|]. by eapply ref_to_elem. }
    rewrite bool_decide_false by (by rewrite Hl). by split_and!.
Qed.

(** C25. [dictAdd] inserts a new key and reports DICT_OK, or leaves the map as it is and
    reports DICT_ERR when the key is there; expansion, rehashing and the compact encodings
    of the entries without value do not show in the map. *)
Theorem dictAdd_refines can d M k v :
  dict_denotes d M → key_ok dt k → dictSize d < 2 ^ 60 →
  ∃ d', dictAdd dt can d k v = Some (d', bool_decide (M !! k = None)) ∧
        dict_denotes d' (if bool_decide (M !! k = None) then <[k := stored_val v]> M else M).
Proof. apply dictAdd_ok. Qed.

(** [dictReplace] sets the value of the key, and returns 1 exactly when the key is new. *)
Theorem dictReplace_refines can d M k v :
  dict_denotes d M → key_ok dt k → dictSize d < 2 ^ 60 → no_value dt = false →
  ∃ d', dictReplace dt can d k v = Some (d', bool_decide (M !! k = None)) ∧
        dict_denotes d' (<[k := Some v]> M).
Proof.
  intros [Hwf <-] Hok Hsz Hnv. unfold dictReplace.
  destruct (add_raw_ok can d k Hwf Hok Hsz) as (d1 & en & ex & -> & Hwf1 & _ & Hcase).
  bind_simpl.
  destruct Hcase as [(r & -> & -> & Hfresh & Hp & Hr)|(r & v0 & -> & -> & Hr & Hp)];
    bind_simpl;
    destruct (set_val_ok d1 r k _ v Hwf1 Hnv Hr) as (d2 & R & -> & Hwf2 & HR & HR' & _);
    exists d2; pose proof (dict_map_perm _ _ Hwf2 HR') as Hm2; simpl in Hm2.
  - rewrite bool_decide_true by by apply dict_map_absent. split; [done|]. split; [done|].
    rewrite Hm2. f_equal. unfold dict_map. symmetry. apply list_to_map_proper; [apply Hwf|].
    rewrite Hp in HR. by apply Permutation_cons_inv in HR.
  - pose proof (dict_map_same d d1 Hwf Hp) as Hm.
    assert (dict_map d !! k = Some v0) as Hl.
    { rewrite <- Hm. apply dict_map_lookup; [done|]. by eapply ref_to_elem. }
    rewrite bool_decide_false by (by rewrite Hl). split; [done|]. split; [done|].
    rewrite Hm2, <- Hm, (dict_map_perm _ _ Hwf1 HR). simpl. by rewrite insert_insert_eq.
Qed.

(** Deleting the entry a search found. *)
Lemma delete_found d r k v :
  dict_wf d → ref_to d r k v →
  ∃ d', unlink_ref d r = Some d' ∧ dict_wf d' ∧ dict_map d' = delete k (dict_map d) ∧
        pauserehash d' = pauserehash d.
Proof.
  intros Hwf Hr. destruct (unlink_ok d r k v Hwf Hr) as (d' & Hu & Hwf' & Hp & Hpa).
  exists d'. split_and!; try done. rewrite (dict_map_perm _ _ Hwf Hp). simpl.
  rewrite delete_insert_id; [done|]. apply not_elem_of_list_to_map_1.
  pose proof (dict_wf_nodup _ _ Hwf) as Hnd. rewrite Hp in Hnd. by apply NoDup_cons in Hnd as [? _].
Qed.

Lemma generic_delete_ok can d M k :
  dict_denotes d M →
  ∃ d' he, dictUnlink dt can d k = Some (d', he) ∧ dict_denotes d' (delete k M) ∧
    dictDelete dt can d k = Some (d', bool_decide (is_Some (M !! k))) ∧
    match he with
    | None => M !! k = None
    | Some e => dictGetKey e = Some k ∧ M !! k = Some (entry_val e)
    end.
Proof.
  intros [Hwf <-]. unfold dictDelete, dictUnlink, dictGenericDelete. case_decide as H0.
  { assert (dict_map d !! k = None) as Hn.
    { apply dict_map_absent. rewrite dict_size_entries in H0 by done.
      destruct (dict_entries d); [apply not_elem_of_nil|simpl in H0; lia]. }
    eexists d, None. split_and!; try done; [by rewrite delete_id|]. by rewrite Hn. }
  destruct (rehash_if_needed_ok can d Hwf) as (d1 & -> & Hwf1 & Hp1 & _). bind_simpl.
  destruct (dict_search_ok d1 k Hwf1) as (r & -> & Hr).
  { apply dict_nonempty_table; [done|]. intros Hnil. rewrite Hnil in Hp1.
    rewrite dict_size_entries, <- Hp1 in H0 by done. done. }
  pose proof (dict_map_same d d1 Hwf Hp1) as Hm. bind_simpl.
  destruct r as [r|].
  - destruct Hr as [v Hr]. destruct (ref_to_deref _ _ _ _ Hr) as (e & -> & Hk & Hv).
    destruct (delete_found d1 r k v Hwf1 Hr) as (d2 & Hu & Hwf2 & Hm2 & _).
    bind_simpl. rewrite Hu. bind_simpl.
    assert (dict_map d !! k = Some v) as Hl.
    { rewrite <- Hm. apply dict_map_lookup; [done|]. by eapply ref_to_elem. }
    eexists d2, (Some e). rewrite Hl. split_and!; try done; [|by subst].
    split; [done|]. by rewrite Hm2, Hm.
  - assert (dict_map d !! k = None) as Hn by (rewrite <- Hm; by apply dict_map_absent).
    eexists d1, None. rewrite Hn. split_and!; try done. split; [done|]. by rewrite Hm, delete_id.
Qed.

(** [dictDelete] removes the key and reports DICT_OK exactly when it was there;
    [dictUnlink] also hands the unlinked entry over, with its key and value. *)
Theorem dictUnlink_refines can d M k :
  dict_denotes d M →
  ∃ d' he, dictUnlink dt can d k = Some (d', he) ∧ dict_denotes d' (delete k M) ∧
    dictDelete dt can d k = Some (d', bool_decide (is_Some (M !! k))) ∧
    match he with
    | None => M !! k = None
    | Some e => dictGetKey e = Some k ∧ M !! k = Some (entry_val e)
    end.
Proof. apply generic_delete_ok. Qed.

(** Finding an entry to unlink pauses rehashing, so that the link found stays valid, and
    unlinking it resumes: together they delete the key with one lookup. *)
Theorem dictTwoPhaseUnlink_refines can d M k :
  dict_denotes d M → 0 ≤ pauserehash d < 2 ^ 15 - 1 →
  ∃ d1 r d2, dictTwoPhaseUnlinkFind dt can d k = Some (d1, r) ∧
    dictTwoPhaseUnlinkFree d1 r = Some d2 ∧ dict_denotes d1 M ∧ dict_denotes d2 (delete k M) ∧
    (is_Some r ↔ is_Some (M !! k)) ∧
    (is_Some r → _dictRehashStep dt can d1 = Some d1) ∧ pauserehash d2 = pauserehash d.
Proof.
  intros [Hwf <-] Hpause. unfold dictTwoPhaseUnlinkFind. case_decide as H0.
  { assert (dict_map d !! k = None) as Hn.
    { apply dict_map_absent. rewrite dict_size_entries in H0 by done.
      destruct (dict_entries d); [apply not_elem_of_nil|simpl in H0; lia]. }
    eexists d, None, d. rewrite Hn. split_and!; try done.
    split; [done|by rewrite delete_id]. }
  destruct (rehash_if_needed_ok can d Hwf) as (d1 & -> & Hwf1 & Hp1 & Hpa1). bind_simpl.
  destruct (dict_search_ok d1 k Hwf1) as (r & -> & Hr).
  { apply dict_nonempty_table; [done|]. intros Hnil. rewrite Hnil in Hp1.
    rewrite dict_size_entries, <- Hp1 in H0 by done. done. }
  pose proof (dict_map_same d d1 Hwf Hp1) as Hm. bind_simpl.
  destruct r as [r|]; last first.
  { assert (dict_map d !! k = None) as Hn by (rewrite <- Hm; by apply dict_map_absent).
    eexists d1, None, d1. rewrite Hn. split_and!; try done.
    split; [done|by rewrite Hm, delete_id]. }
  destruct Hr as [v Hr].
  assert (dict_wf (dictPauseRehashing d1)) as Hwfp by (destruct Hwf1; by split).
  destruct (delete_found (dictPauseRehashing d1) r k v Hwfp) as (d2 & Hu & Hwf2 & Hm2 & Hpa2).
  { destruct Hr as (? & e & He & ?). split; [done|]. exists e. by destruct (ref_table r). }
  assert (dict_map (dictPauseRehashing d1) = dict_map d1) as Hmp by done.
  assert (dict_map d !! k = Some v) as Hl.
  { rewrite <- Hm. apply dict_map_lookup; [done|]. by eapply ref_to_elem. }
  eexists (dictPauseRehashing d1), (Some r), (dictResumeRehashing d2).
  simpl dictTwoPhaseUnlinkFree. rewrite Hu, Hl. simpl in Hpa2. rewrite Hpa1 in Hpa2.
  split_and!; try done.
  - split; [destruct Hwf2; by split|].
    transitivity (dict_map d2); [done|]. etransitivity; [exact Hm2|]. by rewrite Hmp, Hm.
  - intros _. unfold _dictRehashStep. simpl. rewrite Hpa1, swrap_small by range_lia.
    by rewrite decide_False by lia.
  - simpl. rewrite Hpa2, (swrap_small 16 (pauserehash d + 1)) by range_lia.
    rewrite swrap_small by range_lia. lia.
Qed.

End operations_ok.

(** ** Witnesses: the example dictionary is in the middle of a rehashing *)

Definition ex_map : gmap Z (option Z) := dict_map ex_dict.

Lemma ex_denotes : dict_denotes ex_type ex_dict ex_map.
Proof. split; [apply ex_dict_wf|done]. Qed.

Lemma ex_key_ok k : key_ok ex_type k.
Proof. done. Qed.

Lemma dictFind_refines_witness :
  ∃ d' r, dictFind ex_type DICT_RESIZE_ENABLE ex_dict 3 = Some (d', r) ∧
    dict_denotes ex_type d' ex_map ∧
    match r with
    | None => ex_map !! 3 = None
    | Some r => ∃ e, deref d' r = Some e ∧ dictGetKey e = Some 3 ∧
                     ex_map !! 3 = Some (entry_val e)
    end.
Proof. apply (dictFind_refines ex_type DICT_RESIZE_ENABLE ex_dict _ 3). apply ex_denotes. Defined.

Lemma dictAdd_refines_witness :
  ∃ d', dictAdd ex_type DICT_RESIZE_AVOID ex_dict 7 70
          = Some (d', bool_decide (ex_map !! 7 = None)) ∧
    dict_denotes ex_type d'
      (if bool_decide (ex_map !! 7 = None)
       then <[7 := stored_val ex_type 70]> ex_map else ex_map).
Proof.
  apply (dictAdd_refines ex_type DICT_RESIZE_AVOID ex_dict ex_map 7 70);
    [apply ex_denotes|apply ex_key_ok|reflexivity].
Defined.

Lemma dictReplace_refines_witness :
  ∃ d', dictReplace ex_type DICT_RESIZE_ENABLE ex_dict 2 0
          = Some (d', bool_decide (ex_map !! 2 = None)) ∧
    dict_denotes ex_type d' (<[2 := Some 0]> ex_map).
Proof.
  apply (dictReplace_refines ex_type DICT_RESIZE_ENABLE ex_dict ex_map 2 0);
    [apply ex_denotes|apply ex_key_ok|reflexivity..].
Defined.

Lemma dictUnlink_refines_witness :
  ∃ d' he, dictUnlink ex_type DICT_RESIZE_ENABLE ex_dict 5 = Some (d', he) ∧
    dict_denotes ex_type d' (delete 5 ex_map) ∧
    dictDelete ex_type DICT_RESIZE_ENABLE ex_dict 5
      = Some (d', bool_decide (is_Some (ex_map !! 5))) ∧
    match he with
    | None => ex_map !! 5 = None
    | Some e => dictGetKey e = Some 5 ∧ ex_map !! 5 = Some (entry_val e)
    end.
Proof.
  apply (dictUnlink_refines ex_type DICT_RESIZE_ENABLE ex_dict ex_map 5). apply ex_denotes.
Defined.

Lemma dictTwoPhaseUnlink_refines_witness :
  ∃ d1 r d2, dictTwoPhaseUnlinkFind ex_type DICT_RESIZE_ENABLE ex_dict 5 = Some (d1, r) ∧
    dictTwoPhaseUnlinkFree d1 r = Some d2 ∧ dict_denotes ex_type d1 ex_map ∧
    dict_denotes ex_type d2 (delete 5 ex_map) ∧
    (is_Some r ↔ is_Some (ex_map !! 5)) ∧
    (is_Some r → _dictRehashStep ex_type DICT_RESIZE_ENABLE d1 = Some d1) ∧
    pauserehash d2 = pauserehash ex_dict.
Proof.
  apply (dictTwoPhaseUnlink_refines ex_type DICT_RESIZE_ENABLE ex_dict ex_map 5);
    [apply ex_denotes|vm_compute; split; congruence].
Defined.
