(* ===== verification/DictLife.v ===== *)
(** * dict.c: resizing on demand, timed rehashing, emptying and iterators *)

From S2P Require Import Prelude Dict DictInv DictOps.

Local Open Scope Z_scope.

Local Opaque dictFingerprint.

Section life.
Context {K V : Type} `{Countable K}.
Context (dt : dictType K) `{!DictTypeOk dt}.

Implicit Types d : dict K V.

Abbreviation dict_wf := (dict_wf dt).
Abbreviation dict_denotes := (dict_denotes dt).

(** ** Timed rehashing *)

Lemma rehash_ms_loop_ok can fuel d ms clock i r :
  dict_wf d →
  (rehashidx d ≠ -1 → 2 ^ ht_size_exp (ht0 d) - rehashidx d < Z.of_nat fuel) → (0 < fuel)%nat →
  ∃ d' n, rehash_ms_loop dt can fuel d ms clock i r = Some (d', n) ∧ dict_wf d' ∧
    dict_entries d' ≡ₚ dict_entries d ∧ r ≤ n ∧
    (can = DICT_RESIZE_ENABLE → (∀ j, clock j ≤ ms) → dictIsRehashing d' = false).
Proof.
  revert d i r. induction fuel as [|fuel IH]; intros d i r Hwf Hm Hf; [lia|].
  cbn [rehash_ms_loop].
  destruct (dictRehash_ok dt can d 100 Hwf) as (d1 & more & -> & Hwf1 & Hp & _ & Hmore & Hdone & Hprog).
  bind_simpl. destruct more; last first.
  { exists d1, r. split_and!; try done. intros; by apply Hdone. }
  specialize (Hmore eq_refl). specialize (Hprog eq_refl ltac:(lia)) as (Hr & Hidx & Hexp).
  apply rehashing_true in Hmore.
  case_decide as Hc.
  { exists d1, (r + 100). split_and!; try done; [lia|]. intros _ Hcl. specialize (Hcl i). lia. }
  specialize (Hm Hr).
  destruct (IH d1 (S i) (r + 100)) as (d2 & n & -> & Hwf2 & Hp2 & Hn & Hfin); [done|..].
  - intros _. rewrite Hexp. lia.
  - lia.
  - exists d2, n. split_and!; try done; [by rewrite Hp2|lia].
Qed.

(** [dictRehashMilliseconds] terminates (its loop runs at most once per bucket of the old
    table), keeps the contents, and completes the rehashing when the time allows it. *)
Theorem dictRehashMilliseconds_refines can d M ms clock :
  dict_denotes d M →
  ∃ d' n, dictRehashMilliseconds dt can d ms clock = Some (d', n) ∧ dict_denotes d' M ∧ 0 ≤ n ∧
    (can = DICT_RESIZE_ENABLE → pauserehash d = 0 → (∀ i, clock i ≤ ms) →
     dictIsRehashing d' = false).
Proof.
  intros [Hwf <-]. unfold dictRehashMilliseconds. case_decide as Hp.
  { exists d, 0. split_and!; try done. lia. }
  destruct (rehash_ms_loop_ok can (S (S (length (ht_table (ht0 d))))) d ms clock 0 0)
    as (d' & n & -> & Hwf' & Hp' & Hn & Hfin); [done| |lia|].
  { intros Hr. destruct (dict_wf_rehash _ _ Hwf Hr) as (Hidx & Hexp & _).
    destruct (ht_wf_size _ _ (dict_wf0 _ _ Hwf)) as [[? _]|[_ Hl]]; lia. }
  exists d', n. split_and!; try done; [|by auto]. split; [done|]. by apply (dict_map_same dt).
Qed.

(** ** Resizing on demand *)

Lemma dictResize_ok can d M :
  dict_denotes d M → dictSize d < 2 ^ 60 →
  ∃ d' ok, dictResize can d = Some (d', ok) ∧ dict_denotes d' M ∧
    (ok = false → d' = d) ∧
    (ok = true → can = DICT_RESIZE_ENABLE ∧ dictIsRehashing d = false ∧
       let new := if dictIsRehashing d' then ht1 d' else ht0 d' in
       2 ≤ ht_size_exp new ∧ dictSize d ≤ 2 ^ ht_size_exp new ∧
       (ht_size_exp new = 2 ∨ 2 ^ (ht_size_exp new - 1) < dictSize d)).
Proof.
  intros [Hwf <-] Hsz. unfold dictResize. case_decide as Hc.
  { exists d, false. split_and!; done. }
  assert (can = DICT_RESIZE_ENABLE ∧ dictIsRehashing d = false) as [-> Hreh].
  { destruct can, (dictIsRehashing d); tauto || (exfalso; apply Hc; by left). }
  apply rehashing_false in Hreh as Hr. set (size := Z.max _ _).
  assert (dictSize d = ht_used (ht0 d)) as Hused.
  { unfold dictSize. rewrite (idle_ht1 dt d Hwf Hr). simpl. lia. }
  assert (size < LLONG_MAX) as Hs. { unfold size. change DICT_HT_INITIAL_SIZE with 4. range_lia. }
  destruct (expand_ok dt d size None Hwf Hs) as (d' & ok & mf & He & Hwf' & Hent & _ & _ & _ & Hno & _).
  unfold dictExpand. rewrite He. exists d', ok. split; [done|].
  split. { split; [done|]. apply (dict_map_same dt); [done|]. by rewrite Hent. }
  split; [done|]. intros ->. split; [done|split; [done|]].
  apply (expand_size dt d size None d' mf Hwf Hs) in He as (H2 & Hle & Hmin); [|done].
  split_and!; [done|unfold size in Hle; lia|].
  destruct Hmin as [|Hmin]; [by left|]. unfold size in Hmin.
  change DICT_HT_INITIAL_SIZE with (2 ^ 2) in Hmin.
  destruct (decide (dictSize d ≤ 2 ^ 2)); [|right; lia]. left.
  rewrite Z.max_r in Hmin by lia. apply Z.pow_lt_mono_r_iff in Hmin; lia.
Qed.

(** [dictResize] keeps the contents.  It starts a resize only when resizing is enabled and
    none is in progress; the new table then has the least power of two of at least 4 that
    holds all the entries, and otherwise the dictionary is unchanged. *)
Theorem dictResize_minimal can d M :
  dict_denotes d M → dictSize d < 2 ^ 60 →
  ∃ d' ok, dictResize can d = Some (d', ok) ∧ dict_denotes d' M ∧
    (ok = false → d' = d) ∧
    (ok = true → can = DICT_RESIZE_ENABLE ∧ dictIsRehashing d = false ∧
       let new := if dictIsRehashing d' then ht1 d' else ht0 d' in
       2 ≤ ht_size_exp new ∧ dictSize d ≤ 2 ^ ht_size_exp new ∧
       (ht_size_exp new = 2 ∨ 2 ^ (ht_size_exp new - 1) < dictSize d)).
Proof. apply dictResize_ok. Qed.

(** The callers that shrink a table after a deletion. *)
Lemma shrink_if_needed_ok can d M :
  dict_denotes d M → dictSize d < 2 ^ 60 →
  ∃ d', (if htNeedsResize d then '(d, _) ← dictResize can d; Some d else Some d) = Some d' ∧ dict_denotes d' M.
Proof.
  intros Hd Hsize. destruct (htNeedsResize d); [|by exists d].
  destruct (dictResize_ok can d M Hd Hsize) as (d' & ok & -> & Hd' & _). bind_simpl. by exists d'.
Qed.

(** ** Emptying *)

Lemma clear_loop_all (tbl : list (dictEntry K V)) :
  clear_loop tbl (zlen (table_entries tbl)) = table_entries tbl.
Proof.
  induction tbl as [|e tbl IH]; [done|].
  change (table_entries (e :: tbl)) with (chain_entries e ++ table_entries tbl). simpl.
  rewrite length_app. case_decide as Hc.
  - f_equal. etransitivity; [|exact IH]. f_equal. lia.
  - symmetry. apply nil_length_inv. rewrite length_app. lia.
Qed.

Lemma dict_create_denotes : dict_denotes (dictCreate : dict K V) ∅.
Proof. split; [|done]. split; simpl; try done; [apply ht_wf_empty..|constructor]. Qed.

(** [dictEmpty] leaves an empty dictionary that is ready for use again, and frees every
    entry exactly once, although the loops stop as soon as [ht_used] entries were freed. *)
Theorem dictEmpty_frees_all d M :
  dict_denotes d M →
  dict_denotes (dictEmpty d).1 ∅ ∧ (dictEmpty d).1 = dictCreate ∧
  (dictEmpty d).2 = dict_entries d ∧ dictRelease d = dict_entries d.
Proof.
  intros [Hwf _].
  assert (∀ h : dictht K V, ht_wf dt h → clear_loop (ht_table h) (ht_used h) = ht_entries h) as Hall.
  { intros h Hh. rewrite (ht_wf_used _ _ Hh). apply clear_loop_all. }
  unfold dictEmpty, dictRelease, _dictClear. simpl. rewrite !Hall by apply Hwf.
  split_and!; try done. apply dict_create_denotes.
Qed.

(** ** Iterators *)

Implicit Types it : dictIterator (K := K) (V := V).

(** The call that starts an iteration: a safe iterator pauses rehashing, the other kind
    records the fingerprint. *)
Definition iter_first it : bool := bool_decide (it_index it = -1 ∧ it_table it = false).
Definition iter_dict d it : dict K V :=
  if iter_first it && it_safe it then dictPauseRehashing d else d.
Definition iter_fp (addr : bool → Z) d it : Z :=
  if iter_first it && negb (it_safe it) then dictFingerprint addr d else it_fingerprint it.

(** The entries an iterator has still to return. *)
Definition iter_rest d it : list (K * option V) :=
  (if is_null (it_entry it) then [] else chain_entries (it_nextEntry it)) ++
  table_entries (drop (Z.to_nat (it_index it + 1)) (ht_table (ht d (it_table it)))) ++
  (if it_table it then [] else ht_entries (ht1 d)).

(** The rounds the loop of [dictNext] has left. *)
Definition iter_rounds d it : Z :=
  (if is_null (it_entry it) then 0 else 1) +
  (if it_table it then zlen (ht_table (ht1 d)) - it_index it
   else zlen (ht_table (ht0 d)) + zlen (ht_table (ht1 d)) + 1 - it_index it).

Record iter_wf d it : Prop := {
  iter_wf_index : -1 ≤ it_index it ≤ zlen (ht_table (ht d (it_table it)));
  iter_wf_table : it_table it = true → dictIsRehashing d = true ∧ 0 ≤ it_index it;
  iter_wf_entry : is_null (it_entry it) = false → 0 ≤ it_index it;
}.

Lemma ht_wf_table_size (h : dictht K V) : ht_wf dt h → DICTHT_SIZE (ht_size_exp h) = zlen (ht_table h).
Proof.
  intros Hh. destruct (ht_wf_size _ _ Hh) as [[-> ->]|[He ->]]; [done|]. apply dictht_size_pow. lia.
Qed.

(** The rounds are at most the number of buckets, and a few. *)
Lemma iter_rounds_slots d it :
  dict_wf d → iter_wf d it → iter_rounds d it < Z.of_nat (Z.to_nat (dictSlots d) + 4).
Proof.
  intros Hwf Hit. unfold dictSlots. rewrite !ht_wf_table_size by apply Hwf. unfold iter_rounds. destruct Hit as [Hi Ht He].
  destruct (is_null (it_entry it)), (it_table it); lia.
Qed.

Lemma chain_entries_null (e : dictEntry K V) :
  if is_null e then chain_entries e = []
  else ∃ k, dictGetKey e = Some k ∧ chain_entries e = (k, entry_val e) :: chain_entries (dictGetNext e).
Proof. destruct e; simpl; eauto. Qed.

(** [dictNext] returns the first entry the iterator has left. *)
Definition next_ok addr fuel : Prop := ∀ d it,
  dict_wf d → iter_wf d it → iter_rounds d it < Z.of_nat fuel →
  ∃ it' r, dictNext addr fuel d it = Some (iter_dict d it, it', r) ∧
    it_safe it' = it_safe it ∧ it_fingerprint it' = iter_fp addr d it ∧ iter_first it' = false ∧
    match r with
    | None => iter_rest d it = []
    | Some e => ∃ k, dictGetKey e = Some k ∧ iter_wf d it' ∧
        iter_rest d it = (k, entry_val e) :: iter_rest d it'
    end.

(** The end of a round: return the entry, or go on when it is NULL. *)
Lemma iter_produce addr fuel d it next e :
  next_ok addr fuel → dict_wf d → iter_wf d (mk_iter (it_index it) (it_table it) (it_safe it) ENull next (it_fingerprint it)) →
  0 ≤ it_index it →
  iter_rounds d (mk_iter (it_index it) (it_table it) (it_safe it) ENull next (it_fingerprint it)) < Z.of_nat fuel →
  ∃ it' r,
    (if is_null e
     then dictNext addr fuel d (mk_iter (it_index it) (it_table it) (it_safe it) ENull next (it_fingerprint it))
     else Some (d, mk_iter (it_index it) (it_table it) (it_safe it) e (dictGetNext e) (it_fingerprint it),
                Some e)) = Some (d, it', r) ∧
    it_safe it' = it_safe it ∧ it_fingerprint it' = it_fingerprint it ∧ iter_first it' = false ∧
    let rest := chain_entries e ++
      iter_rest d (mk_iter (it_index it) (it_table it) (it_safe it) ENull next (it_fingerprint it)) in
    match r with
    | None => rest = []
    | Some e => ∃ k, dictGetKey e = Some k ∧ iter_wf d it' ∧
        rest = (k, entry_val e) :: iter_rest d it'
    end.
Proof.
  intros IH Hwf Hit Hi Hf. pose proof (chain_entries_null e) as He.
  assert (∀ x n, iter_first (mk_iter (it_index it) (it_table it) (it_safe it) x n (it_fingerprint it)) = false)
    as Hnf. { intros. apply bool_decide_eq_false. simpl. lia. }
  destruct (is_null e) eqn:Hnull.
  - destruct (IH _ _ Hwf Hit Hf) as (it' & r & Hn & Hs & Hfp & Hf' & Hr).
    unfold iter_dict in Hn. unfold iter_fp in Hfp. rewrite Hnf in Hn, Hfp. simpl in *.
    exists it', r. rewrite He. by split_and!.
  - destruct He as (k & Hk & ->). eexists _, _. split; [done|]. split; [done|]. split; [done|].
    split; [apply Hnf|]. exists k. split_and!; [done| |].
    + destruct Hit as [? ? ?]. by split.
    + unfold iter_rest. simpl. by rewrite Hnull.
Qed.

(** Pausing the rehashing does not change what an iterator sees. *)
Lemma iter_dict_same d it :
  dict_wf d →
  dict_wf (iter_dict d it) ∧ (∀ t, ht (iter_dict d it) t = ht d t) ∧
  dictIsRehashing (iter_dict d it) = dictIsRehashing d ∧
  ∀ it', (iter_wf (iter_dict d it) it' ↔ iter_wf d it') ∧
    iter_rest (iter_dict d it) it' = iter_rest d it' ∧
    iter_rounds (iter_dict d it) it' = iter_rounds d it'.
Proof.
  intros Hwf. unfold iter_dict. destruct (iter_first it && it_safe it); [|by split_and!].
  assert (∀ t, ht (dictPauseRehashing d) t = ht d t) as Hht by by intros [].
  split_and!; try done. { destruct Hwf. by split. }
  intros it'. split_and!; [|unfold iter_rest; by rewrite Hht|done].
  split; intros [? ? ?]; split; try done; by rewrite Hht in *.
Qed.

Lemma iter_rest_next d it index (e : dictEntry K V) n fp :
  ht_table (ht d (it_table it)) !! Z.to_nat index = Some e → 0 ≤ index → index = it_index it + 1 →
  is_null (it_entry it) = true →
  iter_rest d it = chain_entries e ++ iter_rest d (mk_iter index (it_table it) (it_safe it) ENull n fp).
Proof.
  intros Hl Hi -> Hn. unfold iter_rest. rewrite Hn. simpl.
  rewrite (drop_S _ _ _ Hl). replace (Z.to_nat (it_index it + 1 + 1)) with (S (Z.to_nat (it_index it + 1))) by lia.
  change (table_entries (e :: ?l)) with (chain_entries e ++ table_entries l). by rewrite <- app_assoc.
Qed.

(** The bucket an iterator moves to, at index [i] of table [t]. *)
Lemma iter_bucket addr fuel d it t i (e : dictEntry K V) :
  next_ok addr fuel → dict_wf d →
  ht_get (ht d t) i = Some e → (t = true → dictIsRehashing d = true) →
  iter_rounds d (mk_iter i t (it_safe it) ENull (it_nextEntry it) (iter_fp addr d it)) < Z.of_nat fuel →
  iter_rest d it = chain_entries e ++
    iter_rest d (mk_iter i t (it_safe it) ENull (it_nextEntry it) (iter_fp addr d it)) →
  ∃ it' r,
    (if is_null e
     then dictNext addr fuel (iter_dict d it)
            (mk_iter i t (it_safe it) ENull (it_nextEntry it) (iter_fp addr d it))
     else Some (iter_dict d it, mk_iter i t (it_safe it) e (dictGetNext e) (iter_fp addr d it), Some e))
    = Some (iter_dict d it, it', r) ∧
    it_safe it' = it_safe it ∧ it_fingerprint it' = iter_fp addr d it ∧ iter_first it' = false ∧
    match r with
    | None => iter_rest d it = []
    | Some e => ∃ k, dictGetKey e = Some k ∧ iter_wf d it' ∧
        iter_rest d it = (k, entry_val e) :: iter_rest d it'
    end.
Proof.
  intros IH Hwf Hget Ht Hf Hrest. unfold ht_get in Hget. case_decide as Hi; [|done].
  apply lookup_lt_Some in Hget as Hlt.
  destruct (iter_dict_same d it Hwf) as (Hwf1 & _ & _ & Hsame).
  set (it1 := mk_iter i t (it_safe it) ENull (it_nextEntry it) (iter_fp addr d it)) in *.
  destruct (Hsame it1) as (Hw & Hre & Hro).
  destruct (iter_produce addr fuel (iter_dict d it) it1 (it_nextEntry it) e IH Hwf1)
    as (it' & r & Hn & Hs & Hfp & Hnf' & Hr).
  - apply Hw. split; [simpl; lia|by auto|done].
  - done.
  - change (iter_rounds (iter_dict d it) it1 < Z.of_nat fuel). by rewrite Hro.
  - exists it', r. split_and!; [done..|]. cbn zeta in Hr. rewrite Hrest.
    change (mk_iter _ _ _ _ _ _) with it1 in Hr. rewrite Hre in Hr. destruct r as [x|]; [|done].
    destruct Hr as (k & ? & Hit' & Hr). destruct (Hsame it') as (Hw' & Hre' & _).
    exists k. rewrite <- Hre'. split_and!; try done. by apply Hw'.
Qed.

Lemma dictNext_ok addr fuel : next_ok addr fuel.
Proof.
  induction fuel as [|fuel IH]; intros d it Hwf Hit Hf; pose proof Hit as [Hi Ht He]; [exfalso|].
  { unfold iter_rounds in Hf. unfold ht in Hi. destruct (it_table it), (is_null (it_entry it)); lia. }
  cbn [dictNext]. fold (iter_first it).
  destruct (is_null (it_entry it)) eqn:Hnull; last first.
  { assert (iter_first it = false) as Hnf by (apply bool_decide_eq_false; specialize (He eq_refl); lia).
    destruct (iter_produce addr fuel d it (it_nextEntry it) (it_nextEntry it) IH Hwf)
      as (it' & r & Hn & Hs & Hfp & Hnf' & Hr); [by split|by apply He| |].
    - unfold iter_rounds in *. rewrite Hnull in Hf. simpl in *. destruct (it_table it); lia.
    - exists it', r. unfold iter_dict, iter_fp. rewrite Hnf. split_and!; [done..|].
      unfold iter_rest in Hr |- *. rewrite Hnull. simpl in Hr. by destruct r. }
  fold (iter_dict d it).
  assert ((if iter_first it && negb (it_safe it) then dictFingerprint addr (iter_dict d it)
     else it_fingerprint it) = iter_fp addr d it) as ->.
  { unfold iter_fp, iter_dict. destruct (iter_first it), (it_safe it); cbn [andb negb]; reflexivity. }
  destruct (iter_dict_same d it Hwf) as (Hwf1 & Hht & Hreh & _). rewrite Hht, Hreh.
  assert (ht_wf dt (ht d (it_table it))) as Hhwf by (destruct (it_table it); apply Hwf).
  rewrite ht_wf_table_size by done.
  case_decide as Hend.
  - assert (iter_rest d it = if it_table it then [] else ht_entries (ht1 d)) as Hrest.
    { unfold iter_rest. rewrite Hnull, drop_ge by lia. done. }
    destruct (dictIsRehashing d && negb (it_table it)) eqn:Hb.
    + apply andb_true_iff in Hb as [Hr Htab]. apply negb_true_iff in Htab.
      apply rehashing_true in Hr as Hr'. destruct (dict_wf_rehash _ _ Hwf Hr') as (_ & _ & He1 & _).
      destruct (ht_get_wf dt (ht1 d) 0) as (e & Hget & Hlook & _); [apply Hwf|lia|..].
      { split; [lia|]. by apply Z.pow_pos_nonneg. }
      change (ht1 (iter_dict d it)) with (ht (iter_dict d it) true). rewrite Hht.
      change (ht d true) with (ht1 d). rewrite Hget. bind_simpl.
      apply (iter_bucket addr fuel d it true 0 e); try done.
      * unfold iter_rounds in *. rewrite Hnull in Hf. rewrite Htab in *. simpl in *. lia.
      * rewrite Hrest, Htab. unfold iter_rest, ht_entries. simpl. rewrite app_nil_r.
        by rewrite <- (take_drop_middle _ _ _ Hlook) at 1.
    + eexists _, None. split; [done|]. split_and!; try done; [apply bool_decide_eq_false; simpl; lia|]. rewrite Hrest.
      destruct (it_table it); [done|]. rewrite andb_true_r in Hb. apply rehashing_false in Hb.
      by rewrite (idle_ht1 dt d Hwf Hb).
  - destruct (lookup_lt_is_Some_2 (ht_table (ht d (it_table it))) (Z.to_nat (it_index it + 1))) as [e Hl]; [lia|].
    assert (ht_get (ht d (it_table it)) (it_index it + 1) = Some e) as Hget.
    { unfold ht_get. by rewrite decide_True by lia. }
    rewrite Hget. bind_simpl.
    apply (iter_bucket addr fuel d it _ _ e); try done.
    + intros Htab. by apply Ht.
    + unfold iter_rounds in *. rewrite Hnull in Hf. simpl. destruct (it_table it); lia.
    + apply (iter_rest_next d it (it_index it + 1) e); done || lia.
Qed.

(** The loop of a caller: [while((de = dictNext(iter)) != NULL) visit(de)]. *)
Fixpoint iter_all (calls : nat) (addr : bool → Z) d it : option (dict K V * dictIterator * list (K * option V)) :=
  match calls with
  | O => None
  | S calls =>
      '(d, it, r) ← dictNext addr (Z.to_nat (dictSlots d) + 4) d it;
      match r with
      | None => Some (d, it, [])
      | Some e =>
          k ← dictGetKey e;
          '(d, it, l) ← iter_all calls addr d it;
          Some (d, it, (k, entry_val e) :: l)
      end
  end.

Lemma iter_all_ok calls addr d it :
  dict_wf d → iter_wf d it → (length (iter_rest d it) < calls)%nat →
  ∃ it', iter_all calls addr d it = Some (iter_dict d it, it', iter_rest d it) ∧
    it_safe it' = it_safe it ∧ it_fingerprint it' = iter_fp addr d it ∧ iter_first it' = false.
Proof.
  revert d it. induction calls as [|calls IH]; intros d it Hwf Hit Hc; [lia|]. cbn [iter_all].
  pose proof (iter_rounds_slots d it Hwf Hit) as Hf.
  destruct (dictNext_ok addr _ d it Hwf Hit Hf) as (it1 & r & Hn & Hs & Hfp & Hnf & Hr). rewrite Hn.
  bind_simpl. destruct r as [e|].
  - destruct Hr as (k & -> & Hit1 & Hrest). rewrite Hrest in *. simpl in Hc. bind_simpl.
    destruct (iter_dict_same d it Hwf) as (Hwf1 & _ & _ & Hsame). destruct (Hsame it1) as (Hw & Hre & _).
    destruct (IH (iter_dict d it) it1) as (it2 & -> & Hs2 & Hfp2 & Hnf2); [done|by apply Hw|rewrite Hre; lia|].
    bind_simpl. rewrite Hre. unfold iter_fp in Hfp2. unfold iter_dict at 1.
    rewrite Hnf in *. cbn [andb] in *. exists it2. split_and!; try done; congruence.
  - rewrite Hr. exists it1. split_and!; done.
Qed.

(** C34. An iterator visits every entry of the dictionary exactly once, in table and bucket
    order, also in the middle of a rehashing.  A safe iterator holds the rehashing back until
    it is reset; the other kind accepts the reset because the fingerprint is the same. *)
Theorem iterator_visits_all addr d M (safe : bool) :
  dict_denotes d M → 0 ≤ pauserehash d < 2 ^ 15 - 1 →
  ∃ d' it l,
    iter_all (S (Z.to_nat (dictSize d))) addr d
      (if safe then dictInitSafeIterator else dictInitIterator) = Some (d', it, l) ∧
    l ≡ₚ map_to_list M ∧
    (if safe then pauserehash d' = pauserehash d + 1 else d' = d) ∧
    dictResetIterator addr d' it = Some d.
Proof.
  intros [Hwf <-] Hpause. set (it0 := if safe then _ else _).
  assert (it_index it0 = -1 ∧ it_table it0 = false ∧ it_safe it0 = safe ∧ it_entry it0 = ENull)
    as (Hi & Ht & Hs & He) by by destruct safe.
  assert (iter_first it0 = true) as Hf by (unfold iter_first; by rewrite Hi, Ht).
  assert (iter_rest d it0 = dict_entries d) as Hrest.
  { unfold iter_rest. by rewrite He, Hi, Ht. }
  destruct (iter_all_ok (S (Z.to_nat (dictSize d))) addr d it0) as (it & -> & Hs' & Hfp & Hnf); [done|..].
  { split; [rewrite Hi; lia|by rewrite Ht|by rewrite He]. }
  { rewrite Hrest, (dict_size_entries dt) by done. lia. }
  eexists _, it, _. split; [done|]. unfold iter_fp, iter_dict, dictResetIterator in *.
  apply bool_decide_eq_false in Hnf. rewrite Hrest, Hf, Hs', Hs in *. rewrite decide_False by done.
  split; [symmetry; by apply map_to_list_to_map, Hwf|].
  destruct safe; cbn [andb negb] in *; split; try done.
  - simpl. by rewrite swrap_small by range_lia.
  - f_equal. unfold dictResumeRehashing, dictPauseRehashing. simpl.
    rewrite (swrap_small 16 (pauserehash d + 1)), swrap_small by range_lia.
    destruct d; unfold set_pauserehash; simpl. f_equal. lia.
  - by rewrite decide_True by done.
Qed.
End life.

(** ** Witnesses *)

Lemma dictRehashMilliseconds_refines_witness :
  ∃ d' n, dictRehashMilliseconds ex_type DICT_RESIZE_ENABLE ex_dict 1 (λ _, 0) = Some (d', n) ∧
    dict_denotes ex_type d' ex_map ∧ 0 ≤ n ∧
    (DICT_RESIZE_ENABLE = DICT_RESIZE_ENABLE → pauserehash ex_dict = 0 → (∀ i : nat, 0 ≤ 1) →
     dictIsRehashing d' = false).
Proof.
  apply (dictRehashMilliseconds_refines ex_type DICT_RESIZE_ENABLE ex_dict ex_map 1 (λ _, 0)).
  apply ex_denotes.
Defined.

Lemma dictEmpty_frees_all_witness :
  dict_denotes ex_type (dictEmpty ex_dict).1 ∅ ∧ (dictEmpty ex_dict).1 = dictCreate ∧
  (dictEmpty ex_dict).2 = dict_entries ex_dict ∧ dictRelease ex_dict = dict_entries ex_dict.
Proof. apply (dictEmpty_frees_all ex_type ex_dict ex_map). apply ex_denotes. Defined.

Lemma iterator_visits_all_witness :
  ∃ d' it l,
    iter_all (S (Z.to_nat (dictSize ex_dict))) (λ _, 4096) ex_dict dictInitSafeIterator
      = Some (d', it, l) ∧
    l ≡ₚ map_to_list ex_map ∧ pauserehash d' = pauserehash ex_dict + 1 ∧
    dictResetIterator (λ _, 4096) d' it = Some ex_dict.
Proof.
  apply (iterator_visits_all ex_type (λ _, 4096) ex_dict ex_map true);
    [apply ex_denotes|vm_compute; split; congruence].
Defined.

(** A table of 64 buckets with two entries. *)
Definition ex_sparse : dict Z Z :=
  default dictCreate ('(d, _) ← dictExpand dictCreate 64;
    '(d, _) ← dictAdd ex_type DICT_RESIZE_ENABLE d 1 10;
    '(d, _) ← dictAdd ex_type DICT_RESIZE_ENABLE d 2 20; Some d).

Lemma ex_sparse_denotes : dict_denotes ex_type ex_sparse (dict_map ex_sparse).
Proof. split; [|done]. apply dict_wfb_ok. vm_compute. reflexivity. Qed.

Lemma dictResize_minimal_witness :
  ∃ d' ok, dictResize DICT_RESIZE_ENABLE ex_sparse = Some (d', ok) ∧
    dict_denotes ex_type d' (dict_map ex_sparse) ∧ (ok = false → d' = ex_sparse) ∧
    (ok = true → DICT_RESIZE_ENABLE = DICT_RESIZE_ENABLE ∧ dictIsRehashing ex_sparse = false ∧
       let new := if dictIsRehashing d' then ht1 d' else ht0 d' in
       2 ≤ ht_size_exp new ∧ dictSize ex_sparse ≤ 2 ^ ht_size_exp new ∧
       (ht_size_exp new = 2 ∨ 2 ^ (ht_size_exp new - 1) < dictSize ex_sparse)).
Proof.
  apply (dictResize_minimal ex_type DICT_RESIZE_ENABLE ex_sparse (dict_map ex_sparse));
    [apply ex_sparse_denotes|reflexivity].
Defined.
