(* ===== verification/DictScan.v ===== *)
(** * dict.c: scanning with a reversed binary cursor

A scan is a sequence of calls of [dictScan] that pass the cursor along; the dictionary may be
modified, resized and rehashed between two calls.  The cursor is incremented from its high
end, so that the buckets visited stay visited when the number of buckets changes. *)

From S2P Require Import Prelude Dict DictInv DictOps.

Local Open Scope Z_scope.

(** ** Bit reversal *)

(** [while ((s >>= 1) > 0)]. *)
Fixpoint rev_loop (fuel : nat) (s mask v : Z) : Z :=
  match fuel with
  | O => v
  | S fuel =>
      let s := Z.shiftr s 1 in
      if decide (s > 0) then
        let mask := Z.lxor mask (u64 (Z.shiftl mask s)) in
        rev_loop fuel s mask
          (Z.lor (Z.land (Z.shiftr v s) mask) (Z.land (u64 (Z.shiftl v s)) (u64 (Z.lnot mask))))
      else v
  end.

(** The loop runs for s = 32, 16, 8, 4, 2, 1. *)
Definition rev (v : Z) : Z := rev_loop 7 64 (u64 (Z.lnot 0)) v.

(** [v |= ~m; v = rev(v); v++; v = rev(v);] *)
Definition cursor_next (v m : Z) : Z :=
  let v := Z.lor v (u64 (Z.lnot m)) in
  let v := rev v in
  let v := u64 (v + 1) in
  rev v.

Section scan.
Context {K V : Type}.

Implicit Types d : dict K V.

(** The entries the callback is called with, at bucket [v & m] of a table. *)
Definition scan_bucket (h : dictht K V) (v m : Z) : option (list (K * option V)) :=
  de ← ht_get h (Z.land v m); Some (chain_entries de).

(** [do { ... } while (v & (m0 ^ m1))]. *)
Fixpoint scan_loop (fuel : nat) (h : dictht K V) (v m0 m1 : Z) : option (Z * list (K * option V)) :=
  match fuel with
  | O => None
  | S fuel =>
      es ← scan_bucket h v m1;
      let v := cursor_next v m1 in
      if decide (Z.land v (Z.lxor m0 m1) = 0) then Some (v, es)
      else '(v, es') ← scan_loop fuel h v m0 m1; Some (v, es ++ es')
  end.

(** The new cursor and the entries emitted.  The callback sees a paused dictionary and
    [dictResumeRehashing] undoes the pause: the dictionary is the same afterwards.  The loop
    visits a bucket of the larger table at most once. *)
Definition dictScan d (v : Z) : option (Z * list (K * option V)) :=
  if decide (dictSize d = 0) then Some (0, [])
  else if negb (dictIsRehashing d) then
    let m0 := DICTHT_SIZE_MASK (ht_size_exp (ht0 d)) in
    es ← scan_bucket (ht0 d) v m0;
    Some (cursor_next v m0, es)
  else
    let swap := bool_decide (DICTHT_SIZE (ht_size_exp (ht0 d)) > DICTHT_SIZE (ht_size_exp (ht1 d))) in
    let htidx0 := swap in
    let htidx1 := negb swap in
    let m0 := DICTHT_SIZE_MASK (ht_size_exp (ht d htidx0)) in
    let m1 := DICTHT_SIZE_MASK (ht_size_exp (ht d htidx1)) in
    es ← scan_bucket (ht d htidx0) v m0;
    '(v, es') ← scan_loop (length (ht_table (ht d htidx1))) (ht d htidx1) v m0 m1;
    Some (v, es ++ es').

(** The calls of a scan: the dictionary is in the state [ds !! i] at call [i]. *)
Fixpoint scan_calls (v : Z) (ds : list (dict K V)) : option (Z * list (K * option V)) :=
  match ds with
  | [] => Some (v, [])
  | d :: ds =>
      '(v, es) ← dictScan d v;
      '(v, es') ← scan_calls v ds;
      Some (v, es ++ es')
  end.

End scan.

(** ** The cursor as a reversed number *)

Definition rev_swap (s mask v : Z) : Z :=
  Z.lor (Z.land (Z.shiftr v s) mask) (Z.land (u64 (Z.shiftl v s)) (u64 (Z.lnot mask))).

(** A stage of the reversal swaps the bits whose indices differ in the bit [s]. *)
Lemma rev_stage s mask i v :
  0 ≤ i < 64 → in_urange 64 v →
  (s, mask) ∈ [(32, 0xFFFFFFFF); (16, 0xFFFF0000FFFF); (8, 0xFF00FF00FF00FF);
               (4, 0xF0F0F0F0F0F0F0F); (2, 0x3333333333333333); (1, 0x5555555555555555)] →
  Z.testbit (rev_swap s mask v) i
  = Z.testbit v (Z.lxor i s).
Proof.
  intros Hi Hv Hin. unfold rev_swap, uwrap. rewrite <- !Z.land_ones by lia.
  rewrite Z.lor_spec, !Z.land_spec, Z.lnot_spec, Z.shiftr_spec, Z.testbit_ones_nonneg by lia.
  assert (0 ≤ s) by (repeat (apply elem_of_cons in Hin as [[= -> ->]|Hin]; [lia|]); by apply not_elem_of_nil in Hin).
  rewrite Z.shiftl_spec by lia. replace (i <? 64) with true by lia. rewrite !andb_true_r.
  do 6 (apply elem_of_cons in Hin as [[= -> ->]|Hin];
    [bit_cases i ltac:(cbn -[Z.testbit]; rewrite ?andb_true_r, ?andb_false_r, ?orb_false_r; reflexivity)|]).
  by apply not_elem_of_nil in Hin.
Qed.

Lemma rev_stage_range s mask v :
  in_urange 64 mask → in_urange 64 (rev_swap s mask v).
Proof.
  intros Hm. unfold rev_swap. rewrite <- (uwrap_small 64 mask Hm) at 1. unfold uwrap. rewrite <- !Z.land_ones by lia.
  rewrite (Z.land_assoc _ mask), !(Z.land_assoc _ _ (Z.ones 64)), <- Z.land_lor_distr_l.
  rewrite Z.land_ones by lia. apply Z.mod_pos_bound. lia.
Qed.

Lemma lxor_range i s : 0 ≤ i < 64 → 0 ≤ s < 64 → 0 ≤ Z.lxor i s < 64.
Proof.
  intros Hi Hs. split; [by apply Z.lxor_nonneg; lia|]. apply (Z.le_lt_trans _ (Z.ones 6)); [|done].
  assert (Z.lxor i s = Z.land (Z.lxor i s) (Z.ones 6)) as ->; [|].
  - apply Z.bits_inj'. intros n Hn. rewrite Z.land_spec, Z.lxor_spec, Z.testbit_ones_nonneg by lia.
    destruct (Z.ltb_spec n 6); [by rewrite andb_true_r|]. by rewrite !(testbit_range 6) by (done || lia).
  - rewrite Z.land_ones by lia. pose proof (Z.mod_pos_bound (Z.lxor i s) (2 ^ 6)). pow2_lit.
    change (Z.ones 6) with 63. lia.
Qed.

Lemma rev_unfold v :
  rev v = rev_swap 1 0x5555555555555555 (rev_swap 2 0x3333333333333333
    (rev_swap 4 0xF0F0F0F0F0F0F0F (rev_swap 8 0xFF00FF00FF00FF
      (rev_swap 16 0xFFFF0000FFFF (rev_swap 32 0xFFFFFFFF v))))).
Proof. reflexivity. Qed.

Lemma rev_range v : in_urange 64 (rev v).
Proof. rewrite rev_unfold. apply rev_stage_range. range_lia. Qed.

(** The reversal, bit by bit. *)
Lemma rev_bits v i : in_urange 64 v → 0 ≤ i < 64 → Z.testbit (rev v) i = Z.testbit v (63 - i).
Proof.
  intros Hv Hi. rewrite rev_unfold.
  rewrite !rev_stage; try (apply rev_stage_range; range_lia) || done;
    try (repeat (left || right)); repeat apply lxor_range; try done.
  bit_cases i ltac:(reflexivity).
Qed.

Lemma rev_rev v : in_urange 64 v → rev (rev v) = v.
Proof.
  intros Hv. pose proof (rev_range v) as Hr. apply Z.bits_inj'. intros i Hi.
  destruct (decide (i < 64)).
  - rewrite !rev_bits by (done || lia). f_equal. lia.
  - by rewrite !(testbit_range 64) by (apply rev_range || done || lia).
Qed.

(** [v] is in the bucket of [h] exactly when the reversed numbers are in the same block. *)
Lemma rev_block e h v :
  0 ≤ e ≤ 64 → in_urange 64 h → in_urange 64 v →
  Z.land h (Z.ones e) = Z.land v (Z.ones e) ↔ rev h / 2 ^ (64 - e) = rev v / 2 ^ (64 - e).
Proof.
  intros He Hh Hv. rewrite <- !Z.shiftr_div_pow2 by lia. split; intros Heq; apply Z.bits_inj'; intros i Hi.
  - rewrite !Z.shiftr_spec by lia. destruct (decide (i < e)).
    + rewrite !rev_bits by (done || lia). apply (f_equal (λ z, Z.testbit z (63 - (i + (64 - e))))) in Heq.
      rewrite !Z.land_spec, !Z.testbit_ones_nonneg in Heq by lia.
      replace (63 - (i + (64 - e)) <? e) with true in Heq by lia. by rewrite !andb_true_r in Heq.
    + by rewrite !(testbit_range 64) by (apply rev_range || lia).
  - rewrite !Z.land_spec, !Z.testbit_ones_nonneg by lia. destruct (Z.ltb_spec i e).
    + rewrite !andb_true_r. apply (f_equal (λ z, Z.testbit z (63 - i - (64 - e)))) in Heq.
      rewrite !Z.shiftr_spec, !rev_bits in Heq by (done || lia).
      by replace (63 - (63 - i - (64 - e) + (64 - e))) with i in Heq by lia.
    + by rewrite !andb_false_r.
Qed.

Lemma lor_ones x n : 0 ≤ n → 0 ≤ x → Z.lor x (Z.ones n) = x / 2 ^ n * 2 ^ n + Z.ones n.
Proof.
  intros Hn Hx. rewrite <- Z.shiftr_div_pow2, <- Z.shiftl_mul_pow2 by lia.
  assert (Z.land (Z.shiftl (Z.shiftr x n) n) (Z.ones n) = 0) as Hl.
  { rewrite Z.land_ones, Z.shiftl_mul_pow2 by lia. apply Z.mod_mul. pose proof (Z.pow_pos_nonneg 2 n). lia. }
  rewrite Z.add_nocarry_lxor, Z.lxor_lor by done. apply Z.bits_inj'. intros i Hi.
  rewrite !Z.lor_spec, Z.shiftl_spec, Z.testbit_ones_nonneg by lia.
  destruct (Z.ltb_spec i n); [by rewrite !orb_true_r|]. rewrite Z.shiftr_spec by lia.
  do 2 f_equal. lia.
Qed.

Lemma rev_lor_high e v :
  0 ≤ e ≤ 64 → in_urange 64 v →
  rev (Z.lor v (u64 (Z.lnot (Z.ones e)))) = Z.lor (rev v) (Z.ones (64 - e)).
Proof.
  intros He Hv. 
  assert (in_urange 64 (Z.lor v (u64 (Z.lnot (Z.ones e))))) as Hr.
  { rewrite <- (uwrap_small 64 v Hv). unfold uwrap. rewrite <- !Z.land_ones, <- Z.land_lor_distr_l by lia.
    rewrite Z.land_ones by lia. apply Z.mod_pos_bound. lia. }
  apply Z.bits_inj'. intros i Hi. rewrite Z.lor_spec, Z.testbit_ones_nonneg by lia.
  destruct (decide (i < 64)).
  - rewrite !rev_bits by (done || lia). rewrite Z.lor_spec. f_equal. unfold uwrap.
    rewrite Z.mod_pow2_bits_low, Z.lnot_spec, Z.testbit_ones_nonneg by lia.
    destruct (Z.ltb_spec (63 - i) e), (Z.ltb_spec i (64 - e)); done || lia.
  - rewrite !(testbit_range 64) by (apply rev_range || done || lia).
    symmetry. apply Z.ltb_ge. lia.
Qed.

(** The next cursor is the start of the next block. *)
Lemma rev_cursor_next e v :
  0 ≤ e ≤ 64 → in_urange 64 v →
  rev (cursor_next v (Z.ones e)) = u64 ((rev v / 2 ^ (64 - e) + 1) * 2 ^ (64 - e)).
Proof.
  intros He Hv. unfold cursor_next. rewrite rev_rev by (apply uwrap_range; lia). f_equal.
  rewrite rev_lor_high, lor_ones by (done || lia || apply rev_range).
  rewrite Z.ones_equiv. lia.
Qed.

Lemma cursor_next_range v m : in_urange 64 (cursor_next v m).
Proof. apply rev_range. Qed.

Lemma rev_0 : rev 0 = 0.
Proof. reflexivity. Qed.

Lemma rev_zero v : in_urange 64 v → rev v = 0 ↔ v = 0.
Proof. intros Hv. split; [|by intros ->]. intros Hr. by rewrite <- (rev_rev v Hv), Hr. Qed.

(** The cursor reached after the block [R / 2^(64-e)]: it is past every number of the block,
    and 0 at the end of the last one. *)
Lemma next_block e R R' :
  0 ≤ e ≤ 64 → in_urange 64 R → R' = u64 ((R / 2 ^ (64 - e) + 1) * 2 ^ (64 - e)) →
  (R' = 0 ∨ R < R') ∧ (2 ^ (64 - e) | R') ∧
  ∀ x, in_urange 64 x → R ≤ x → R' = 0 ∨ x < R' → x / 2 ^ (64 - e) = R / 2 ^ (64 - e).
Proof.
  intros He HR ->. unfold in_urange in *.
  assert (2 ^ 64 = 2 ^ e * 2 ^ (64 - e)) as Hp by (rewrite <- Z.pow_add_r by lia; f_equal; lia).
  pose proof (Z.pow_pos_nonneg 2 (64 - e)) as Ht. pose proof (Z.pow_pos_nonneg 2 e) as He'.
  set (T := 2 ^ (64 - e)) in *. set (n := 2 ^ e) in *. set (q := R / T).
  assert (0 ≤ q < n) as Hq.
  { split; [apply Z.div_pos; lia|]. apply Z.div_lt_upper_bound; lia. }
  assert (q * T ≤ R < (q + 1) * T) as Hqr.
  { pose proof (Z.div_mod R T). pose proof (Z.mod_pos_bound R T). unfold q. lia. }
  assert (∀ x, q * T ≤ x < (q + 1) * T → x / T = q) as Hdiv.
  { intros x Hx. symmetry. apply (Z.div_unique _ _ _ (x - q * T)); lia. }
  unfold uwrap. destruct (decide (q + 1 = n)) as [Hn|Hn].
  - replace ((q + 1) * T) with (1 * 2 ^ 64) in * by (rewrite Hn; lia).
    rewrite Z.mod_mul by lia. split_and!; [by left|apply Z.divide_0_r|].
    intros x Hx Hle _. apply Hdiv. lia.
  - assert ((q + 1) * T < 2 ^ 64) by nia. rewrite Z.mod_small by nia.
    split_and!; [right; lia|by exists (q + 1)|]. intros x Hx Hle [Hz|Hlt]; apply Hdiv; nia.
Qed.

Section scan_ok.
Context {K V : Type} `{Countable K}.
Context (dt : dictType K) `{!DictTypeOk dt}.

Implicit Types d : dict K V.
Implicit Types h : dictht K V.

Abbreviation dict_wf := (dict_wf dt).
Abbreviation ht_wf := (ht_wf dt).

(** The hash of a key read backwards: the order in which a scan visits keys. *)
Definition rhash (k : K) : Z := rev (hashFunction dt k).

Lemma rhash_range k : in_urange 64 (rhash k).
Proof. apply rev_range. Qed.

Lemma scan_bucket_ok h v :
  ht_wf h → 0 ≤ ht_size_exp h → in_urange 64 v →
  ∃ es, scan_bucket h v (DICTHT_SIZE_MASK (ht_size_exp h)) = Some es ∧
    ∀ p, p ∈ es ↔ p ∈ ht_entries h ∧
         rhash p.1 / 2 ^ (64 - ht_size_exp h) = rev v / 2 ^ (64 - ht_size_exp h).
Proof.
  intros Hh He Hv. destruct (ht_wf_exp _ _ Hh) as [|He']; [lia|].
  pose proof (land_mask_range (ht_size_exp h) v ltac:(lia)) as Hidx.
  destruct (ht_get_wf dt h _ Hh He Hidx) as (e & Hget & Hl & Hc). unfold scan_bucket. rewrite Hget.
  eexists. split; [done|]. intros p. unfold rhash. rewrite <- rev_block by (lia || done || apply hash_range).
  rewrite <- dictht_mask_ones by lia. fold (bucket_of dt (ht_size_exp h) p.1). split.
  - intros Hp. split; [apply elem_of_table_entries; eauto|].
    destruct (chain_wf_keys _ _ _ _ Hc p Hp) as [-> _]. rewrite Z2Nat.id by lia. done.
  - intros [Hp Hb]. apply elem_of_table_entries in Hp as (i & e' & Hi & Hp).
    destruct (chain_wf_keys _ _ _ _ (ht_wf_chains _ _ Hh i e' Hi) p Hp) as [Hb' _].
    rewrite Hb in Hb'. rewrite Hb', Nat2Z.id in Hl. congruence.
Qed.

(** The exit test of the loop: the cursor is at the start of a block of the smaller table. *)
Lemma mask_diff_zero e0 e1 v :
  0 ≤ e0 ≤ e1 → e1 ≤ 60 → in_urange 64 v →
  Z.land v (Z.lxor (DICTHT_SIZE_MASK e0) (DICTHT_SIZE_MASK e1)) = 0 ↔
  (rev v / 2 ^ (64 - e1)) mod 2 ^ (e1 - e0) = 0.
Proof.
  intros He0 He1 Hv. rewrite !dictht_mask_ones, <- Z.shiftr_div_pow2, <- Z.land_ones by lia.
  split; intros Hz; apply Z.bits_inj'; intros i Hi; rewrite Z.bits_0;
    rewrite ?Z.land_spec, ?Z.lxor_spec, !Z.testbit_ones_nonneg by lia.
  - destruct (Z.ltb_spec i (e1 - e0)); [|by rewrite andb_false_r].
    rewrite andb_true_r, Z.shiftr_spec, rev_bits by (done || lia).
    apply (f_equal (λ z, Z.testbit z (63 - (i + (64 - e1))))) in Hz.
    rewrite Z.land_spec, Z.lxor_spec, !Z.testbit_ones_nonneg, Z.bits_0 in Hz by lia.
    replace (63 - (i + (64 - e1)) <? e0) with false in Hz by lia.
    replace (63 - (i + (64 - e1)) <? e1) with true in Hz by lia. by rewrite andb_true_r in Hz.
  - destruct (Z.ltb_spec i e0), (Z.ltb_spec i e1); try lia; rewrite ?andb_false_r, ?andb_true_r; try done.
    simpl. rewrite ?andb_true_r. apply (f_equal (λ z, Z.testbit z (63 - i - (64 - e1)))) in Hz.
    rewrite Z.land_spec, Z.shiftr_spec, rev_bits, Z.testbit_ones_nonneg, Z.bits_0 in Hz by (done || lia).
    replace (63 - i - (64 - e1) <? e1 - e0) with true in Hz by lia. rewrite andb_true_r in Hz.
    by replace (63 - (63 - i - (64 - e1) + (64 - e1))) with i in Hz by lia.
Qed.

(** One round of the loop: [B] is the block of the larger table, [n] the number of its blocks
    in a block of the smaller one. *)
Lemma scan_round e0 e1 R R' :
  0 ≤ e0 ≤ e1 → e1 ≤ 60 → in_urange 64 R →
  R' = u64 ((R / 2 ^ (64 - e1) + 1) * 2 ^ (64 - e1)) →
  let n := 2 ^ (e1 - e0) in
  let B := R / 2 ^ (64 - e1) in
  R / 2 ^ (64 - e0) = B / n ∧ 0 < n ∧ 0 ≤ B ∧
  ((R' / 2 ^ (64 - e1)) mod n = 0 ↔ (B + 1) mod n = 0) ∧
  ((B + 1) mod n = 0 → R' = u64 ((R / 2 ^ (64 - e0) + 1) * 2 ^ (64 - e0))) ∧
  ((B + 1) mod n ≠ 0 → R' / 2 ^ (64 - e1) = B + 1 ∧ (B + 1) / n = B / n).
Proof.
  intros He0 He1 HR ->. unfold in_urange in HR. intros n B.
  assert (2 ^ 64 = 2 ^ e1 * 2 ^ (64 - e1)) as Hp by (rewrite <- Z.pow_add_r by lia; f_equal; lia).
  assert (2 ^ e1 = 2 ^ e0 * n) as Hn by (unfold n; rewrite <- Z.pow_add_r by lia; f_equal; lia).
  assert (2 ^ (64 - e0) = 2 ^ (64 - e1) * n) as HT
    by (unfold n; rewrite <- Z.pow_add_r by lia; f_equal; lia).
  pose proof (Z.pow_pos_nonneg 2 (64 - e1)) as Ht. pose proof (Z.pow_pos_nonneg 2 e0) as He0'.
  assert (0 < n) as Hn0 by (apply Z.pow_pos_nonneg; lia).
  set (T := 2 ^ (64 - e1)) in *. set (N := 2 ^ e0) in *. rewrite HT.
  assert (0 ≤ B < N * n) as HB.
  { split; [apply Z.div_pos; lia|]. apply Z.div_lt_upper_bound; lia. }
  assert (u64 ((B + 1) * T) / T = (B + 1) mod (N * n)) as HR'.
  { unfold uwrap. rewrite Hp, Hn, Zmult_mod_distr_r. apply Z.div_mul. lia. }
  assert (R / (T * n) = B / n) as Hq by (symmetry; apply Z.div_div; lia).
  change (R / T) with B. rewrite HR', Hq. pose proof (Z.div_mod (B + 1) n) as Hdm. pose proof (Z.mod_pos_bound (B + 1) n) as Hmb.
  split_and!; try done; try lia.
  - rewrite Z.mod_mod_divide; [done|]. by exists N.
  - intros Hz. f_equal. assert (B / n = (B + 1) / n - 1) as ->; [|nia].
    symmetry. apply (Z.div_unique _ _ _ (n - 1)); nia.
  - intros Hz. split; [|apply (Z.div_unique _ _ _ ((B + 1) mod n - 1)); lia].
    apply Z.mod_small. split; [lia|]. destruct (decide (B + 1 = N * n)) as [He|]; [|lia].
    rewrite He, Z.mod_mul in Hz by lia. done.
Qed.

(** Blocks of the smaller table are made of blocks of the larger one. *)
Lemma block_block e0 e1 x :
  0 ≤ e0 ≤ e1 → e1 ≤ 60 → in_urange 64 x →
  x / 2 ^ (64 - e0) = x / 2 ^ (64 - e1) / 2 ^ (e1 - e0).
Proof. intros He0 He1 Hx. by destruct (scan_round e0 e1 x _ He0 He1 Hx eq_refl) as [-> _]. Qed.

Lemma succ_mod B n : 0 < n → (B + 1) mod n ≠ 0 → (B + 1) mod n = B mod n + 1.
Proof.
  intros Hn Hz. pose proof (Z.mod_pos_bound (B + 1) n Hn). symmetry.
  pose proof (Z.div_mod (B + 1) n).
  rewrite <- (Z.mod_unique_pos B n ((B + 1) / n) ((B + 1) mod n - 1)); lia.
Qed.

Lemma last_block B b n : 0 < n → (B + 1) mod n = 0 → B ≤ b → b / n = B / n → b = B.
Proof.
  intros Hn Hz Hle Hq. pose proof (Z.div_mod (B + 1) n). pose proof (Z.div_mod b n).
  pose proof (Z.mod_pos_bound b n Hn). pose proof (Z.div_mod B n).
  assert (n - 1 = B mod n) by (apply (Z.mod_unique_pos _ _ ((B + 1) / n - 1)); lia).
  rewrite Hq in *. lia.
Qed.

Lemma scan_loop_ok fuel h v e0 :
  ht_wf h → 0 ≤ e0 ≤ ht_size_exp h → in_urange 64 v →
  let e1 := ht_size_exp h in
  2 ^ (e1 - e0) - (rev v / 2 ^ (64 - e1)) mod 2 ^ (e1 - e0) ≤ Z.of_nat fuel →
  ∃ v' es, scan_loop fuel h v (DICTHT_SIZE_MASK e0) (DICTHT_SIZE_MASK e1) = Some (v', es) ∧
    in_urange 64 v' ∧ rev v' = u64 ((rev v / 2 ^ (64 - e0) + 1) * 2 ^ (64 - e0)) ∧
    (∀ p, p ∈ es → p ∈ ht_entries h) ∧
    ∀ p, p ∈ ht_entries h → rev v / 2 ^ (64 - e1) ≤ rhash p.1 / 2 ^ (64 - e1) →
         rhash p.1 / 2 ^ (64 - e0) = rev v / 2 ^ (64 - e0) → p ∈ es.
Proof.
  intros Hh He0 Hv e1 Hf. unfold e1 in *. clear e1.
  destruct (ht_wf_exp _ _ Hh) as [|He1]; [lia|].
  revert v Hv Hf. induction fuel as [|fuel IH]; intros v Hv Hf.
  { pose proof (Z.mod_pos_bound (rev v / 2 ^ (64 - ht_size_exp h)) (2 ^ (ht_size_exp h - e0))).
    pose proof (Z.pow_pos_nonneg 2 (ht_size_exp h - e0)). lia. }
  cbn [scan_loop]. destruct (scan_bucket_ok h v Hh ltac:(lia) Hv) as (es & -> & Hes).
  bind_simpl. set (e1 := ht_size_exp h) in *.
  pose proof (cursor_next_range v (DICTHT_SIZE_MASK e1)) as Hv1.
  assert (rev (cursor_next v (DICTHT_SIZE_MASK e1)) = u64 ((rev v / 2 ^ (64 - e1) + 1) * 2 ^ (64 - e1)))
    as Hr1 by (rewrite dictht_mask_ones by lia; apply rev_cursor_next; done || lia).
  set (v1 := cursor_next v (DICTHT_SIZE_MASK e1)) in *.
  destruct (scan_round e0 e1 (rev v) (rev v1)) as (Hq & Hn & HB & Htest & Hstop & Hgo);
    [lia|lia|apply rev_range|done|].
  pose proof (mask_diff_zero e0 e1 v1 ltac:(lia) ltac:(lia) Hv1) as Hz.
  case_decide as Hd.
  - apply Hz, Htest in Hd. exists v1, es. split_and!; try done; [by apply Hstop| |].
    + intros p Hp. by apply Hes in Hp as [? _].
    + intros p Hp Hge Heq. apply Hes. split; [done|].
      apply (last_block _ _ (2 ^ (e1 - e0))); [done..|].
      rewrite <- !block_block by (lia || apply rev_range || apply rhash_range). done.
  - assert ((rev v / 2 ^ (64 - e1) + 1) mod 2 ^ (e1 - e0) ≠ 0) as Hne by tauto.
    destruct (Hgo Hne) as [HB1 Hq1].
    destruct (IH v1 Hv1) as (v2 & es' & -> & Hv2 & Hr2 & Hsub & Hcov).
    { rewrite HB1, succ_mod by done. lia. }
    assert (rev v1 / 2 ^ (64 - e0) = rev v / 2 ^ (64 - e0)) as Hsame.
    { rewrite !(block_block e0 e1), HB1 by (lia || apply rev_range). done. }
    bind_simpl. exists v2, (es ++ es'). split_and!; try done.
    + by rewrite Hr2, Hsame.
    + intros p [Hp|Hp]%elem_of_app; [by apply Hes in Hp as [? _]|by apply Hsub].
    + intros p Hp Hge Heq. apply elem_of_app. 
      destruct (decide (rhash p.1 / 2 ^ (64 - e1) = rev v / 2 ^ (64 - e1))); [left; by apply Hes|].
      right. apply Hcov; [done|lia|]. by rewrite Hsame.
Qed.

(** What one call promises, in the order of the reversed hashes: it visits everything from
    the cursor to the next cursor, which is further on or 0 at the end. *)
Definition scan_step d (v v' : Z) (es : list (K * option V)) : Prop :=
  in_urange 64 v' ∧
  (∀ p, p ∈ es → p ∈ dict_entries d) ∧
  (∀ p, p ∈ dict_entries d → rev v ≤ rhash p.1 → v' = 0 ∨ rhash p.1 < rev v' → p ∈ es) ∧
  (v' = 0 ∨ rev v < rev v') ∧
  (∀ E, 0 ≤ E ≤ 60 → ht_size_exp (ht0 d) ≤ E → ht_size_exp (ht1 d) ≤ E → (2 ^ (64 - E) | rev v')).

(** A call that visits the block of the cursor in the smaller table and moves to the next. *)
Lemma scan_block_step d v v' es e :
  0 ≤ e ≤ 60 → e ≤ Z.max (ht_size_exp (ht0 d)) (ht_size_exp (ht1 d)) → in_urange 64 v' →
  rev v' = u64 ((rev v / 2 ^ (64 - e) + 1) * 2 ^ (64 - e)) →
  (∀ p, p ∈ es → p ∈ dict_entries d) →
  (∀ p, p ∈ dict_entries d → rev v ≤ rhash p.1 →
        rhash p.1 / 2 ^ (64 - e) = rev v / 2 ^ (64 - e) → p ∈ es) →
  scan_step d v v' es.
Proof.
  intros He Hle Hv' Hr Hsub Hcov.
  destruct (next_block e (rev v) (rev v') ltac:(lia) (rev_range v) Hr) as (Hgt & Hdiv & Hblk).
  pose proof (rev_zero v' Hv') as Hz. split_and!; try done.
  - intros p Hp Hge Hlt. apply Hcov; [done..|]. apply Hblk; [apply rhash_range|done|tauto].
  - tauto.
  - intros E HE H0 H1. etransitivity; [|exact Hdiv].
    replace (64 - e) with ((64 - E) + (E - e)) by lia. rewrite Z.pow_add_r by lia. apply Z.divide_factor_l.
Qed.

Lemma rehash_scan_ok d v (t : bool) :
  dict_wf d → in_urange 64 v → rehashidx d ≠ -1 →
  ht_size_exp (ht d t) ≤ ht_size_exp (ht d (negb t)) →
  ∃ v' es es', scan_bucket (ht d t) v (DICTHT_SIZE_MASK (ht_size_exp (ht d t))) = Some es ∧
    scan_loop (length (ht_table (ht d (negb t)))) (ht d (negb t)) v
      (DICTHT_SIZE_MASK (ht_size_exp (ht d t))) (DICTHT_SIZE_MASK (ht_size_exp (ht d (negb t))))
      = Some (v', es') ∧ scan_step d v v' (es ++ es').
Proof.
  intros Hwf Hv Hr Hle. destruct (dict_wf_rehash _ _ Hwf Hr) as (_ & He0 & He1 & _).
  assert (ht_wf (ht d t) ∧ ht_wf (ht d (negb t))) as [Hw0 Hw1] by (destruct t; split; apply Hwf).
  assert (0 ≤ ht_size_exp (ht d t)) as He by by destruct t.
  assert (∀ p, p ∈ dict_entries d ↔ p ∈ ht_entries (ht d t) ∨ p ∈ ht_entries (ht d (negb t))) as Hin.
  { intros p. unfold dict_entries. rewrite elem_of_app. destruct t; simpl; tauto. }
  destruct (ht_wf_size _ _ Hw1) as [[? _]|[Hb Hlen]]; [lia|].
  destruct (scan_bucket_ok _ v Hw0 He Hv) as (es & Hb0 & Hes).
  destruct (scan_loop_ok (length (ht_table (ht d (negb t)))) (ht d (negb t)) v (ht_size_exp (ht d t)) Hw1)
    as (v' & es' & Hl & Hv' & Hr' & Hsub & Hcov); [lia|done| |].
  { rewrite Hlen. transitivity (2 ^ (ht_size_exp (ht d (negb t)) - ht_size_exp (ht d t))).
    - pose proof (Z.mod_pos_bound (rev v / 2 ^ (64 - ht_size_exp (ht d (negb t))))
        (2 ^ (ht_size_exp (ht d (negb t)) - ht_size_exp (ht d t)))).
      pose proof (Z.pow_pos_nonneg 2 (ht_size_exp (ht d (negb t)) - ht_size_exp (ht d t))). lia.
    - apply Z.pow_le_mono_r; lia. }
  exists v', es, es'. split_and!; [done..|].
  apply (scan_block_step _ _ _ _ (ht_size_exp (ht d t))); try done; [lia|destruct t; simpl; lia|..].
  - intros p [Hp|Hp]%elem_of_app; apply Hin; [left|right; by apply Hsub]. by apply Hes in Hp as [? _].
  - intros p [Hp|Hp]%Hin Hge Heq; apply elem_of_app; [left; by apply Hes|right].
    apply Hcov; [done| |done]. apply Z.div_le_mono; [|done]. apply Z.pow_pos_nonneg; lia.
Qed.

Lemma dictScan_ok d v :
  dict_wf d → in_urange 64 v → ∃ v' es, dictScan d v = Some (v', es) ∧ scan_step d v v' es.
Proof.
  intros Hwf Hv. unfold dictScan. case_decide as Hsz.
  { exists 0, []. rewrite (dict_size_entries dt) in Hsz by done. split; [done|]. unfold scan_step.
    assert (dict_entries d = []) as -> by (apply nil_length_inv; lia).
    split_and!; [done|by intros|by intros ? ?%not_elem_of_nil|by left|intros; apply Z.divide_0_r]. }
  assert (0 ≤ ht_size_exp (ht0 d)) as He0.
  { apply (dict_nonempty_table dt); [done|]. rewrite (dict_size_entries dt) in Hsz by done. by intros Hn; rewrite Hn in Hsz. }
  pose proof (dict_wf0 _ _ Hwf) as Hw0. destruct (ht_wf_exp _ _ Hw0) as [|He]; [lia|].
  destruct (dictIsRehashing d) eqn:Hr; cbn [negb].
  - apply rehashing_true in Hr. destruct (dict_wf_rehash _ _ Hwf Hr) as (_ & _ & He1 & _).
    destruct (ht_wf_exp _ _ (dict_wf1 _ _ Hwf)) as [|He1']; [lia|].
    set (t := bool_decide _).
    destruct (rehash_scan_ok d v t Hwf Hv Hr) as (v' & es & es' & -> & Hl & Hstep).
    { unfold t. rewrite !dictht_size_pow by lia.
      destruct (bool_decide_reflect (2 ^ ht_size_exp (ht0 d) > 2 ^ ht_size_exp (ht1 d))) as [Hgt|Hgt]; simpl.
      - apply Z.lt_le_incl, (Z.pow_lt_mono_r_iff 2); lia.
      - apply (Z.pow_le_mono_r_iff 2); lia. }
    bind_simpl. rewrite Hl. bind_simpl. eauto.
  - destruct (scan_bucket_ok _ v Hw0 He0 Hv) as (es & -> & Hes). bind_simpl.
    apply rehashing_false in Hr. pose proof (idle_ht1 dt d Hwf Hr) as Hh1.
    eexists _, es. split; [done|].
    apply (scan_block_step _ _ _ _ (ht_size_exp (ht0 d))); [lia|lia|apply cursor_next_range|..].
    + rewrite dictht_mask_ones by lia. apply rev_cursor_next; [lia|done].
    + intros p Hp. apply Hes in Hp as [Hp _]. apply elem_of_app. by left.
    + intros p Hp _ Heq. apply Hes. split; [|done]. unfold dict_entries in Hp.
      rewrite Hh1, app_nil_r in Hp. done.
Qed.

(** [v] and everything emitted so far ([acc]): the keys before the cursor are there. *)
Lemma scan_calls_ok ds v (acc : list (K * option V)) :
  Forall dict_wf ds → in_urange 64 v →
  ∃ v' es, scan_calls v ds = Some (v', es) ∧ in_urange 64 v' ∧
    (∀ p, p ∈ es → ∃ d, d ∈ ds ∧ p ∈ dict_entries d) ∧
    ∀ k, (∀ d, d ∈ ds → k ∈ (dict_entries d).*1) → (rhash k < rev v → k ∈ acc.*1) →
         (ds ≠ [] → v' = 0 → k ∈ (acc ++ es).*1) ∧ (rhash k < rev v' → k ∈ (acc ++ es).*1).
Proof.
  revert v acc. induction ds as [|d ds IH]; intros v acc Hds Hv.
  { exists v, []. split_and!; [done|done|by intros ? ?%not_elem_of_nil|]. intros k _ Hacc. by rewrite app_nil_r. }
  apply Forall_cons in Hds as [Hd Hds]. cbn [scan_calls].
  destruct (dictScan_ok d v Hd Hv) as (v1 & es1 & -> & Hv1 & Hsub & Hcov & _). bind_simpl.
  destruct (IH v1 (acc ++ es1) Hds Hv1) as (v2 & es2 & Hc & Hv2 & Hsub2 & Hcov2).
  rewrite Hc. bind_simpl. exists v2, (es1 ++ es2). split_and!; try done.
  { intros p [Hp|Hp]%elem_of_app; [exists d; split; [left|by apply Hsub]|].
    destruct (Hsub2 p Hp) as (d' & ? & ?). exists d'. split; [by right|done]. }
  intros k Hk Hacc. rewrite app_assoc.
  assert (∀ x, v1 = 0 ∨ x < rev v1 → x = rhash k → k ∈ (acc ++ es1).*1) as Hstep.
  { intros x Hx ->. rewrite fmap_app. apply elem_of_app.
    destruct (decide (rhash k < rev v)); [left; by apply Hacc|right].
    specialize (Hk d ltac:(by left)). apply list_elem_of_fmap in Hk as ([k' o] & -> & Hp).
    apply list_elem_of_fmap. exists (k', o). split; [done|]. apply Hcov; [done|simpl in *; lia|done]. }
  destruct (Hcov2 k) as [Hz Hlt].
  { intros d' Hd'. apply Hk. by right. }
  { intros Hlt. by apply (Hstep (rhash k)); [right|]. }
  split; [|done]. intros _ Hv2z. destruct ds as [|d' ds]; [|by apply Hz].
  simpl in Hc. injection Hc as -> <-. rewrite app_nil_r. by apply (Hstep (rhash k)); [left|].
Qed.

(** C1. The guarantee of SCAN.  The dictionary is in the states [ds] at the successive calls of
    a scan: it may grow, shrink, rehash and change its contents in between.  When the cursor is
    back at 0 every key that was there all the time has been returned, and nothing was returned
    that was not in the dictionary at the time of some call. *)
Theorem dictScan_complete ds es :
  Forall dict_wf ds → ds ≠ [] → scan_calls 0 ds = Some (0, es) →
  (∀ k, (∀ d, d ∈ ds → is_Some (dict_map d !! k)) → k ∈ es.*1) ∧
  (∀ k v, (k, v) ∈ es → ∃ d, d ∈ ds ∧ dict_map d !! k = Some v).
Proof.
  intros Hds Hne Hc. destruct (scan_calls_ok ds 0 [] Hds) as (v' & es' & Hc' & _ & Hsub & Hcov); [done|].
  rewrite Hc in Hc'. injection Hc' as <- <-. split.
  - intros k Hk. destruct (Hcov k) as [Hfin _]; [..|by apply Hfin].
    + intros d Hd. destruct (Hk d Hd) as [o Ho]. unfold dict_map in Ho.
      apply elem_of_list_to_map_2 in Ho. apply list_elem_of_fmap. by exists (k, o).
    + rewrite rev_0. intros Hlt. pose proof (rhash_range k) as Hr. unfold in_urange in Hr. lia.
  - intros k o Hin. destruct (Hsub _ Hin) as (d & Hd & Hp). exists d. split; [done|].
    apply (dict_map_lookup dt); [|done]. rewrite Forall_forall in Hds. by apply Hds.
Qed.

(** C33. A scan ends: while no table has more than [2^E] buckets, a scan of [2^E] calls comes
    back to cursor 0, whatever happens to the dictionary between the calls. *)
Theorem dictScan_terminates E ds :
  0 ≤ E ≤ 60 → Forall dict_wf ds →
  Forall (λ d, ht_size_exp (ht0 d) ≤ E ∧ ht_size_exp (ht1 d) ≤ E) ds → 2 ^ E ≤ zlen ds →
  ∃ n es, (0 < n ≤ length ds)%nat ∧ scan_calls 0 (take n ds) = Some (0, es).
Proof.
  intros HE Hwf Hexp Hlen.
  assert (∀ (j : Z) v, in_urange 64 v → rev v = j * 2 ^ (64 - E) → 2 ^ E - j ≤ zlen ds → 0 ≤ j →
    ∃ n es, (0 < n ≤ length ds)%nat ∧ scan_calls v (take n ds) = Some (0, es)) as Hgen.
  2: { apply (Hgen 0); [done|done|lia|done]. }
  clear Hlen. induction ds as [|d ds IH]; intros j v Hv Hr Hlen Hj.
  { pose proof (rev_range v) as Hrr. rewrite Hr in Hrr. unfold in_urange in Hrr.
    replace (2 ^ 64) with (2 ^ E * 2 ^ (64 - E)) in Hrr by (rewrite <- Z.pow_add_r by lia; f_equal; lia).
    simpl in Hlen. pose proof (Z.pow_pos_nonneg 2 (64 - E)). nia. }
  apply Forall_cons in Hwf as [Hd Hwf]. apply Forall_cons in Hexp as [[H0 H1] Hexp].
  destruct (dictScan_ok d v Hd Hv) as (v1 & es1 & Hs & Hv1 & _ & _ & Hgt & Hdiv).
  destruct (decide (v1 = 0)) as [->|Hnz].
  { exists 1%nat, es1. split; [simpl; lia|]. simpl. rewrite Hs. simpl. by rewrite app_nil_r. }
  destruct Hgt as [|Hgt]; [done|]. destruct (Hdiv E HE H0 H1) as [j1 Hj1].
  destruct (IH Hwf Hexp j1 v1) as (n & es & Hn & Hc); [done|done|..].
  - simpl in Hlen. rewrite Hr, Hj1 in Hgt. pose proof (Z.pow_pos_nonneg 2 (64 - E)). nia.
  - rewrite Hr, Hj1 in Hgt. pose proof (Z.pow_pos_nonneg 2 (64 - E)). nia.
  - exists (S n), (es1 ++ es). split; [simpl; lia|]. simpl. rewrite Hs. simpl. by rewrite Hc.
Qed.
End scan_ok.

(** ** Witnesses: the dictionary gets a new key and completes its rehashing during the scan *)

Definition ex_states : list (dict Z Z) :=
  let d1 := default ex_dict ('(d, _) ← dictAdd ex_type DICT_RESIZE_ENABLE ex_dict 100 0; Some d) in
  let d2 := default d1 (fst <$> dictRehash ex_type DICT_RESIZE_ENABLE d1 100) in
  [ex_dict; d1; d2; d2; d2; d2; d2; d2].

Lemma ex_states_wf : Forall (dict_wf ex_type) ex_states.
Proof.
  assert (forallb (dict_wfb ex_type) ex_states = true) as Hb by (vm_compute; reflexivity).
  rewrite forallb_forall in Hb. apply Forall_forall. intros d Hd. by apply dict_wfb_ok, Hb, list_elem_of_In.
Qed.

(** The entries returned by the first six calls, which bring the cursor back to 0. *)
Definition ex_scanned : list (Z * option Z) := default [] (snd <$> scan_calls 0 (take 6 ex_states)).

Lemma dictScan_complete_witness :
  (∀ k, (∀ d, d ∈ take 6 ex_states → is_Some (dict_map d !! k)) → k ∈ ex_scanned.*1) ∧
  (∀ k v, (k, v) ∈ ex_scanned → ∃ d, d ∈ take 6 ex_states ∧ dict_map d !! k = Some v).
Proof.
  apply (dictScan_complete ex_type (take 6 ex_states) ex_scanned).
  - apply Forall_take, ex_states_wf.
  - discriminate.
  - vm_compute. reflexivity.
Defined.

Lemma dictScan_terminates_witness :
  ∃ n es, (0 < n ≤ length ex_states)%nat ∧ scan_calls 0 (take n ex_states) = Some (0, es).
Proof.
  apply (dictScan_terminates ex_type 3 ex_states).
  - lia.
  - apply ex_states_wf.
  - repeat constructor; vm_compute; discriminate.
  - vm_compute. discriminate.
Defined.
