(* ===== verification/Util.v ===== *)
(** * util.c: conversions between numbers and strings, and glob patterns

Strings are lists of bytes without their terminator; reading the byte after the last one
gives the terminator 0.  Destination buffers are blocks of memory. *)

From S2P Require Import Prelude.

Local Open Scope Z_scope.

(** ** Characters *)

(** [isdigit] and [tolower] in the C locale. *)
Definition isdigit (c : Z) : bool := bool_decide (48 ≤ c ≤ 57).
Definition tolower (c : Z) : Z := if decide (65 ≤ c ≤ 90) then c + 32 else c.
Definition isspace (c : Z) : bool := bool_decide (c = 32 ∨ 9 ≤ c ≤ 13).

(** [s[0]] of a terminated string. *)
Definition char0 (s : bytes) : Z := default 0 (head s).

(** ** Decimal conversion *)

(** The recursive call is on less than [2^64 / 10^12]. *)
Fixpoint digits10_rec (fuel : nat) (v : Z) : Z :=
  match fuel with
  | O => 0
  | S fuel =>
      if decide (v < 10) then 1
      else if decide (v < 100) then 2
      else if decide (v < 1000) then 3
      else if decide (v < 1000000000000) then
        if decide (v < 100000000) then
          if decide (v < 1000000) then
            if decide (v < 10000) then 4
            else 5 + (if decide (v >= 100000) then 1 else 0)
          else 7 + (if decide (v >= 10000000) then 1 else 0)
        else if decide (v < 10000000000) then 9 + (if decide (v >= 1000000000) then 1 else 0)
        else 11 + (if decide (v >= 100000000000) then 1 else 0)
      else 12 + digits10_rec fuel (v / 1000000000000)
  end.

Definition digits10 (v : Z) : Z := digits10_rec 2 v.

Definition sdigits10 (v : Z) : Z :=
  if decide (v < 0) then
    let uv := if decide (v ≠ LLONG_MIN) then u64 (- v) else u64 (LLONG_MAX + 1) in
    digits10 uv + 1
  else digits10 v.

Definition digits : bytes := str
  "00010203040506070809101112131415161718192021222324252627282930313233343536373839404142434445464748495051525354555657585960616263646566676869707172737475767778798081828384858687888990919293949596979899".

(** [dst[off] = c]. *)
Definition put (dst : bytes) (off c : Z) : option bytes := mem_write dst off [c].

(** [while (value >= 100)] and the last one or two digits; 9 rounds leave less than 100. *)
Fixpoint ull2string_digits (fuel : nat) (dst : bytes) (value next : Z) : option bytes :=
  match fuel with
  | O => None
  | S fuel =>
      if decide (value >= 100) then
        let i := (value mod 100) * 2 in
        d1 ← mem_get digits (i + 1);
        d0 ← mem_get digits i;
        dst ← put dst next d1;
        dst ← put dst (u32 (next - 1)) d0;
        ull2string_digits fuel dst (value / 100) (u32 (next - 2))
      else if decide (value < 10) then put dst next (48 + value)
      else
        let i := u32 value * 2 in
        d1 ← mem_get digits (i + 1);
        d0 ← mem_get digits i;
        dst ← put dst next d1;
        put dst (u32 (next - 1)) d0
  end.

(** [err:] force the terminator. *)
Definition conv_err (dst : bytes) : option (bytes * Z) :=
  if decide (length dst = 0%nat) then Some (dst, 0) else dst ← put dst 0 0; Some (dst, 0).

(** [dstlen] is the size of the block [dst]. *)
Definition ull2string (dst : bytes) (value : Z) : option (bytes * Z) :=
  let length := digits10 value in
  if decide (length >= zlen dst) then conv_err dst
  else
    let next := u32 (length - 1) in
    dst ← put dst (u32 (next + 1)) 0;
    dst ← ull2string_digits 11 dst value next;
    Some (dst, length).

Definition ll2string (dst : bytes) (svalue : Z) : option (bytes * Z) :=
  if decide (svalue < 0) then
    let value := if decide (svalue ≠ LLONG_MIN) then u64 (- svalue) else u64 (LLONG_MAX + 1) in
    if decide (zlen dst < 2) then conv_err dst
    else
      dst ← put dst 0 45;
      '(rest, length) ← ull2string (drop 1 dst) value;
      let dst := take 1 dst ++ rest in
      if decide (length = 0) then Some (dst, 0) else Some (dst, length + 1)
  else ull2string dst svalue.

Definition LONG_STR_SIZE : Z := 21.

(** The string written by [ll2string] in a buffer of [size] bytes. *)
Definition ll_string (size : nat) (n : Z) : option bytes :=
  '(buf, len) ← ll2string (replicate size 0) n; Some (take (Z.to_nat len) buf).

(** [while (plen < slen && p[0] >= '0' && p[0] <= '9')]: the value and the bytes left, [None]
    on overflow. *)
Fixpoint string2ll_loop (p : bytes) (v : Z) : option (Z * bytes) :=
  match p with
  | [] => Some (v, [])
  | c :: p' =>
      if isdigit c then
        if decide (v > ULLONG_MAX / 10) then None
        else
          let v := u64 (v * 10) in
          if decide (v > ULLONG_MAX - (c - 48)) then None
          else string2ll_loop p' (u64 (v + (c - 48)))
      else Some (v, p)
  end.

(** The digits after the sign: the magnitude, [None] when not all bytes were used. *)
Definition string2ll_abs (p : bytes) : option Z :=
  if decide (length p = 0%nat) then None
  else if decide (49 ≤ char0 p ≤ 57) then
    '(v, rest) ← string2ll_loop (drop 1 p) (char0 p - 48);
    if decide (length rest = 0%nat) then Some v else None
  else None.

(** [Some v] is the result 1 with [*value = v], [None] the result 0. *)
Definition string2ll (s : bytes) : option Z :=
  let slen := zlen s in
  if decide (slen = 0 ∨ slen >= LONG_STR_SIZE) then None
  else if decide (slen = 1 ∧ char0 s = 48) then Some 0
  else if decide (char0 s = 45) then
    v ← string2ll_abs (drop 1 s);
    if decide (v > u64 (- (LLONG_MIN + 1)) + 1) then None else Some (s64 (u64 (- v)))
  else
    v ← string2ll_abs s;
    if decide (v > LLONG_MAX) then None else Some v.

Definition LONG_MIN : Z := LLONG_MIN.
Definition LONG_MAX : Z := LLONG_MAX.

Definition string2l (s : bytes) : option Z :=
  llval ← string2ll s;
  if decide (llval < LONG_MIN ∨ llval > LONG_MAX) then None else Some llval.

(** ** Numbers with the C library *)

Fixpoint take_while (f : Z → bool) (s : bytes) : bytes :=
  match s with [] => [] | c :: s => if f c then c :: take_while f s else [] end.
Fixpoint drop_while (f : Z → bool) (s : bytes) : bytes :=
  match s with [] => [] | c :: s' => if f c then drop_while f s' else s end.

(** A number and one more digit. *)
Definition dstep (v c : Z) : Z := v * 10 + (c - 48).

(** [strtoull(s, &endptr, 10)]: the value, [endptr] and whether [errno] is ERANGE.  White
    space and a sign are accepted, a negative number wraps, and without digits [endptr] is
    [s] (EINVAL is for a bad base only). *)
Definition strtoull (s : bytes) : Z * bytes * bool :=
  let s1 := drop_while isspace s in
  let neg := bool_decide (char0 s1 = 45) in
  let s2 := if decide (char0 s1 = 45 ∨ char0 s1 = 43) then drop 1 s1 else s1 in
  let ds := take_while isdigit s2 in
  if decide (length ds = 0%nat) then (0, s, false)
  else
    let v := foldl dstep 0 ds in
    let rest := drop (length ds) s2 in
    if decide (v > ULLONG_MAX) then (ULLONG_MAX, rest, true)
    else ((if neg then u64 (- v) else v), rest, false).

(** [None] is the result 0. *)
Definition string2ull (s : bytes) : option Z :=
  match string2ll s with
  | Some ll => if decide (ll < 0) then None else Some ll
  | None =>
      let '(value, endptr, erange) := strtoull s in
      if decide (erange = true ∨ length s = 0%nat ∨ length endptr ≠ 0%nat) then None else Some value
  end.

(** The multiplier of a unit, compared with [strcasecmp]. *)
Definition memory_unit (u : bytes) : option Z :=
  let u := tolower <$> u in
  if decide (u = [] ∨ u = str "b") then Some 1
  else if decide (u = str "k") then Some 1000
  else if decide (u = str "kb") then Some 1024
  else if decide (u = str "m") then Some (1000 * 1000)
  else if decide (u = str "mb") then Some (1024 * 1024)
  else if decide (u = str "g") then Some (1000 * 1000 * 1000)
  else if decide (u = str "gb") then Some (1024 * 1024 * 1024)
  else None.

(** [None] is the result 0 with [*err = 1]. *)
Definition memtoull (p : bytes) : option Z :=
  if decide (char0 p = 45) then None
  else
    let ds := take_while isdigit p in
    let u := drop (length ds) p in
    mul ← memory_unit u;
    if decide (zlen ds >= 128) then None
    else
      let '(val, endptr, _) := strtoull ds in
      if decide (length endptr ≠ 0%nat) then None else Some (u64 (val * mul)).

(** The index of the first byte of [s] that is in [chars]. *)
Fixpoint mempbrk (s chars : bytes) : option nat :=
  match s with
  | [] => None
  | c :: s => if decide (c ∈ chars) then Some O else S <$> mempbrk s chars
  end.

(** The replacement of one byte: the first match in [from] counts. *)
Fixpoint mapchar (c : Z) (set : list (Z * Z)) : Z :=
  match set with
  | [] => c
  | (f, t) :: set => if decide (c = f) then t else mapchar c set
  end.

Definition memmapchars (s : bytes) (from to : bytes) : bytes := (λ c, mapchar c (zip from to)) <$> s.

(** ** Reference: the decimal notation of a number *)

(** The digits of a natural number below [10^fuel]. *)
Fixpoint dec_rec (fuel : nat) (v : Z) : bytes :=
  match fuel with
  | O => []
  | S fuel => if decide (v < 10) then [48 + v] else dec_rec fuel (v / 10) ++ [48 + v mod 10]
  end.

Definition dec (v : Z) : bytes := dec_rec 20 v.
Definition decimal (v : Z) : bytes := if decide (v < 0) then 45 :: dec (- v) else dec v.

Lemma dec_rec_S n v :
  dec_rec (S n) v = if decide (v < 10) then [48 + v] else dec_rec n (v / 10) ++ [48 + v mod 10].
Proof. done. Qed.

Lemma dec_rec_mono n m v : (n ≤ m)%nat → 0 ≤ v < 10 ^ Z.of_nat n → (0 < n)%nat → dec_rec m v = dec_rec n v.
Proof.
  revert m v. induction n as [|n IH]; intros m v Hm Hv Hn; [lia|]. destruct m as [|m]; [lia|].
  simpl. case_decide; [done|]. f_equal.
  rewrite Nat2Z.inj_succ, Z.pow_succ_r in Hv by lia. apply IH; [lia| |destruct n; simpl in *; lia].
  split; [apply Z.div_pos; lia|]. apply Z.div_lt_upper_bound; lia.
Qed.

Lemma dec_nonempty v : (0 < length (dec v))%nat.
Proof. unfold dec. rewrite dec_rec_S. case_decide; [simpl; lia|]. rewrite length_app. simpl. lia. Qed.

Lemma dec_small v : 0 ≤ v < 10 → dec v = [48 + v].
Proof. intros Hv. unfold dec. rewrite dec_rec_S. by rewrite decide_True by lia. Qed.

Lemma dec_step v : 10 ≤ v < 10 ^ 20 → dec v = dec (v / 10) ++ [48 + v mod 10].
Proof.
  intros Hv. unfold dec at 1. rewrite dec_rec_S. rewrite decide_False by lia.
  assert (dec (v / 10) = dec_rec 19 (v / 10)) as ->; [|reflexivity].
  apply dec_rec_mono; [lia| |lia]. split; [apply Z.div_pos; lia|]. apply Z.div_lt_upper_bound; lia.
Qed.

Lemma mod_100_div v : v mod 100 / 10 = (v / 10) mod 10.
Proof.
  change 100 with (10 * 10). rewrite Z.rem_mul_r, Z.mul_comm by lia.
  rewrite Z.div_add, Z.div_small by (lia || (apply Z.mod_pos_bound; lia)). done.
Qed.

Lemma mod_100_mod v : v mod 100 mod 10 = v mod 10.
Proof. apply Z.mod_mod_divide. by exists 10. Qed.

Lemma dec_step2 v :
  100 ≤ v < 10 ^ 20 → dec v = dec (v / 100) ++ [48 + v mod 100 / 10; 48 + v mod 100 mod 10].
Proof.
  intros Hv. rewrite dec_step by lia.
  assert (10 ≤ v / 10) by (apply Z.div_le_lower_bound; lia).
  rewrite dec_step; [|split; [done|]; apply Z.div_lt_upper_bound; lia].
  rewrite <- app_assoc, Z.div_div by lia. rewrite mod_100_div, mod_100_mod. done.
Qed.

(** The number of digits. *)
Lemma dec_length (n : nat) v :
  (n < 20)%nat → (n = 0%nat ∨ 10 ^ Z.of_nat n ≤ v) → 0 ≤ v < 10 ^ (Z.of_nat n + 1) →
  zlen (dec v) = Z.of_nat n + 1.
Proof.
  revert v. induction n as [|n IH]; intros v Hn Hlo Hv.
  { simpl in Hv. rewrite dec_small by lia. done. }
  destruct Hlo as [|Hlo]; [done|].
  assert (10 ^ (Z.of_nat (S n) + 1) = 10 * 10 ^ (Z.of_nat n + 1)) as Hp.
  { rewrite <- Z.pow_succ_r by lia. f_equal. lia. }
  assert (10 ^ Z.of_nat (S n) = 10 * 10 ^ Z.of_nat n) as Hp' by (rewrite Nat2Z.inj_succ, Z.pow_succ_r; lia).
  assert (10 ^ (Z.of_nat (S n) + 1) ≤ 10 ^ 20) by (apply Z.pow_le_mono_r; lia).
  assert (0 < 10 ^ Z.of_nat n) by (apply Z.pow_pos_nonneg; lia).
  rewrite dec_step, length_app by lia. simpl.
  enough (zlen (dec (v / 10)) = Z.of_nat n + 1) by lia.
  apply IH; [lia|right; apply Z.div_le_lower_bound; lia|].
  split; [apply Z.div_pos; lia|]. apply Z.div_lt_upper_bound; lia.
Qed.

(** [n] is the number of digits of [v] minus one. *)
Definition has_digits (n : Z) (v : Z) : Prop := 0 ≤ n ∧ (n = 0 ∨ 10 ^ n ≤ v) ∧ v < 10 ^ (n + 1).

Lemma digits10_low v fuel : 0 ≤ v < 1000000000000 → has_digits (digits10_rec (S fuel) v - 1) v.
Proof. intros Hv. unfold has_digits. cbn [digits10_rec]. repeat case_decide; simpl; lia. Qed.

Lemma digits10_bound v : 0 ≤ v < 2 ^ 64 → has_digits (digits10 v - 1) v ∧ digits10 v ≤ 20.
Proof.
  intros Hv. destruct (decide (v < 1000000000000)) as [Hlt|Hge].
  { split; [apply digits10_low; lia|]. unfold digits10. cbn [digits10_rec]. repeat case_decide; lia. }
  set (w := v / 1000000000000).
  assert (digits10 v = 12 + digits10_rec 1 w) as ->.
  { unfold digits10. remember 1%nat as f. cbn [digits10_rec]. repeat case_decide; try lia. done. }
  assert (0 < w < 18446745) as Hw.
  { split; [apply Z.div_str_pos; lia|]. apply Z.div_lt_upper_bound; range_lia. }
  assert (w * 1000000000000 ≤ v < (w + 1) * 1000000000000) as Hd.
  { pose proof (Z.div_mod v 1000000000000). pose proof (Z.mod_pos_bound v 1000000000000). unfold w. lia. }
  clearbody w. cbn [digits10_rec]. unfold has_digits. repeat case_decide; simpl; lia.
Qed.

Lemma digits10_dec v : 0 ≤ v < 2 ^ 64 → digits10 v = zlen (dec v) ∧ 1 ≤ digits10 v ≤ 20.
Proof.
  intros Hv. destruct (digits10_bound v Hv) as [(Hn & Hlo & Hhi) Hle]. split; [|lia].
  rewrite (dec_length (Z.to_nat (digits10 v - 1))); [lia|lia|destruct Hlo; [left|right]|].
  - lia.
  - by rewrite Z2Nat.id by lia.
  - rewrite Z2Nat.id by lia. lia.
Qed.

(** A larger number has at least as many digits. *)
Lemma dec_length_mono v w : 0 ≤ v ≤ w → w < 2 ^ 64 → zlen (dec v) ≤ zlen (dec w).
Proof.
  intros Hv Hw. destruct (digits10_dec v ltac:(lia)) as [<- _]. destruct (digits10_dec w ltac:(lia)) as [<- _].
  destruct (digits10_bound v ltac:(lia)) as [(Hn & Hlo & _) _]. destruct (digits10_bound w ltac:(lia)) as [(Hm & _ & Hhi) _].
  destruct Hlo as [|Hlo]; [lia|]. assert (digits10 v - 1 < digits10 w - 1 + 1); [|lia]. apply (Z.pow_lt_mono_r_iff 10); lia.
Qed.

Lemma sdigits10_ok v : in_srange 64 v → sdigits10 v = zlen (decimal v).
Proof.
  intros Hv. unfold sdigits10, decimal. case_decide.
  - assert ((if decide (v ≠ LLONG_MIN) then u64 (- v) else u64 (LLONG_MAX + 1)) = - v) as ->.
    { case_decide as Hm; [apply uwrap_small; range_lia|]. destruct (decide (v = LLONG_MIN)) as [->|]; [done|tauto]. }
    destruct (digits10_dec (- v) ltac:(range_lia)) as [-> _]. cbn [length]. lia.
  - by destruct (digits10_dec v ltac:(range_lia)) as [-> _].
Qed.

Lemma decimal_length_between lo v hi :
  in_srange 64 lo → in_srange 64 hi → lo ≤ v ≤ hi → zlen (decimal v) ≤ Z.max (zlen (decimal lo)) (zlen (decimal hi)).
Proof.
  intros Hlo Hhi Hv. unfold decimal. destruct (decide (v < 0)).
  - rewrite (decide_True _ _ (P := lo < 0)) by lia. pose proof (dec_length_mono (- v) (- lo) ltac:(lia) ltac:(range_lia)). cbn [length]. lia.
  - rewrite (decide_False _ _ (P := hi < 0)) by lia. pose proof (dec_length_mono v hi ltac:(lia) ltac:(range_lia)). lia.
Qed.

(** ** Printing *)

Lemma digits_table (n : Z) :
  0 ≤ n < 100 →
  mem_get digits (n * 2) = Some (48 + n / 10) ∧ mem_get digits (n * 2 + 1) = Some (48 + n mod 10).
Proof.
  intros Hn.
  assert (forallb (λ i, bool_decide (mem_get digits (Z.of_nat i * 2) = Some (48 + Z.of_nat i / 10)) &&
    bool_decide (mem_get digits (Z.of_nat i * 2 + 1) = Some (48 + Z.of_nat i mod 10))) (seq 0 100) = true)
    as Hall by (vm_compute; reflexivity).
  rewrite forallb_forall in Hall. specialize (Hall (Z.to_nat n)).
  rewrite in_seq, andb_true_iff, !bool_decide_eq_true, Z2Nat.id in Hall by lia. apply Hall. lia.
Qed.

Lemma put_ok dst off c : 0 ≤ off < zlen dst → put dst off c = Some (<[Z.to_nat off := c]> dst).
Proof.
  intros Hoff. unfold put. destruct (mem_write_Some dst off [c]) as [d Hd].
  { unfold in_block. simpl. lia. }
  rewrite Hd. f_equal. apply list_eq. intros i. rewrite (mem_write_lookup _ _ _ _ _ Hd). simpl.
  destruct (decide (i = Z.to_nat off)) as [->|Hne].
  - rewrite decide_True, Nat.sub_diag by lia. by rewrite list_lookup_insert_eq by lia.
  - rewrite decide_False by lia. by rewrite list_lookup_insert_ne by done.
Qed.

Lemma drop_insert1 (dst : bytes) L a :
  (L < length dst)%nat → drop L (<[L := a]> dst) = a :: drop (S L) dst.
Proof. revert dst. induction L as [|L IH]; intros [|x dst] HL; simpl in *; try lia; [done|]. apply IH. lia. Qed.

Lemma drop_insert2 (dst : bytes) L a b :
  (S L < length dst)%nat → drop L (<[L := a]> (<[S L := b]> dst)) = a :: b :: drop (S (S L)) dst.
Proof.
  revert dst. induction L as [|L IH]; intros [|x [|y dst]] HL; simpl in *; try lia; [done|].
  apply (IH (y :: dst)). simpl. lia.
Qed.

Lemma ull2string_digits_ok fuel dst v next :
  (0 < fuel)%nat → 0 ≤ v < 100 ^ Z.of_nat fuel → v < 10 ^ 20 → zlen (dec v) = next + 1 → next + 1 ≤ zlen dst → next < 20 →
  ull2string_digits fuel dst v next = Some (dec v ++ drop (length (dec v)) dst).
Proof.
  revert dst v next. induction fuel as [|fuel IH]; intros dst v next Hf Hv Hv' Hlen Hdst Hn; [lia|].
  cbn [ull2string_digits]. case_decide as H100.
  - destruct (digits_table (v mod 100)) as [-> ->]; [apply Z.mod_pos_bound; lia|]. bind_simpl.
    rewrite dec_step2, length_app in Hlen |- * by lia. cbn [length] in Hlen |- *.
    assert (0 < v / 100) by (apply Z.div_str_pos; lia).
    assert (next = Z.of_nat (S (length (dec (v / 100))))) as -> by lia.
    pose proof (dec_nonempty (v / 100)). rewrite (uwrap_small 32), (uwrap_small 32) by range_lia.
    rewrite put_ok by lia. bind_simpl. rewrite put_ok by (rewrite length_insert; lia).
    bind_simpl. rewrite Nat2Z.inj_succ, Z.pow_succ_r in Hv by lia.
    rewrite IH.
    + replace (Z.to_nat (Z.of_nat (S (length (dec (v / 100)))) - 1)) with (length (dec (v / 100))) by lia.
      rewrite Nat2Z.id, drop_insert2, <- app_assoc by lia. cbn [app].
      by replace (length (dec (v / 100)) + 2)%nat with (S (S (length (dec (v / 100))))) by lia.
    + destruct fuel; [simpl in Hv; lia|lia].
    + split; [lia|]. apply Z.div_lt_upper_bound; lia.
    + apply Z.div_lt_upper_bound; lia.
    + lia.
    + rewrite !length_insert. lia.
    + lia.
  - case_decide as H10.
    + rewrite dec_small in * by lia. simpl in Hlen. assert (next = 0) as -> by lia.
      rewrite put_ok by lia. destruct dst as [|x dst]; [simpl in Hdst; lia|]. done.
    + assert (dec v = [48 + v / 10; 48 + v mod 10]) as Hd.
      { rewrite dec_step, dec_small by (lia || (split; [apply Z.div_pos|apply Z.div_lt_upper_bound]; lia)).
        done. }
      rewrite Hd in *. simpl in Hlen. assert (next = 1) as -> by lia.
      rewrite (uwrap_small 32 v) by range_lia.
      destruct (digits_table v) as [-> ->]; [lia|]. bind_simpl.
      rewrite put_ok by lia. bind_simpl. change (u32 (1 - 1)) with 0.
      rewrite put_ok by (rewrite length_insert; lia).
      destruct dst as [|x [|y dst]]; [simpl in Hdst; lia..|]. done.
Qed.

(** What a failed conversion leaves: the terminator at the start. *)
Definition terminated (dst : bytes) : bytes := match dst with [] => [] | _ :: t => 0 :: t end.

Lemma conv_err_ok dst : conv_err dst = Some (terminated dst, 0).
Proof.
  unfold conv_err. destruct dst as [|x dst]; [done|]. rewrite decide_False by done.
  rewrite put_ok by (simpl; lia). done.
Qed.

Lemma ull2string_ok dst v :
  0 ≤ v < 2 ^ 64 →
  ull2string dst v = Some (if decide (zlen (dec v) < zlen dst)
                           then (dec v ++ 0 :: drop (S (length (dec v))) dst, zlen (dec v))
                           else (terminated dst, 0)).
Proof.
  intros Hv. destruct (digits10_dec v Hv) as [Hd Hd']. unfold ull2string. rewrite Hd in *.
  case_decide as Hc; case_decide; try lia; [apply conv_err_ok|].
  rewrite (uwrap_small 32 (zlen (dec v) - 1)), (uwrap_small 32) by range_lia.
  rewrite put_ok by lia. bind_simpl.
  rewrite ull2string_digits_ok; [|lia|range_lia|range_lia|lia|rewrite length_insert; lia|lia].
  bind_simpl. do 3 f_equal.
  replace (Z.to_nat (zlen (dec v) - 1 + 1)) with (length (dec v)) by lia.
  apply drop_insert1. lia.
Qed.

(** ** Parsing *)

Lemma isdigit_true c : isdigit c = true ↔ 48 ≤ c ≤ 57.
Proof. unfold isdigit. apply bool_decide_eq_true. Qed.

Lemma dec_snoc v c : 1 ≤ v → 48 ≤ c ≤ 57 → dstep v c < 10 ^ 20 → dec (dstep v c) = dec v ++ [c].
Proof.
  unfold dstep. intros Hv Hc Hlt. rewrite dec_step by lia.
  rewrite (Z.add_comm (v * 10)), Z.div_add, Z.div_small, Z_mod_plus_full, Z.mod_small by lia.
  rewrite Z.add_0_l. by replace (48 + (c - 48)) with c by lia.
Qed.

Lemma dstep_mono p v : 0 ≤ v → Forall (λ c, 48 ≤ c ≤ 57) p → v ≤ foldl dstep v p.
Proof.
  revert v. induction p as [|c p IH]; intros v Hv Hp; simpl; [lia|].
  apply Forall_cons in Hp as [Hc Hp]. assert (v ≤ dstep v c) by (unfold dstep; lia).
  specialize (IH (dstep v c) ltac:(lia) Hp). lia.
Qed.

Lemma dec_foldl p v :
  1 ≤ v → Forall (λ c, 48 ≤ c ≤ 57) p → foldl dstep v p < 10 ^ 20 → dec (foldl dstep v p) = dec v ++ p.
Proof.
  revert v. induction p as [|c p IH]; intros v Hv Hp Hlt; simpl in *; [by rewrite app_nil_r|].
  apply Forall_cons in Hp as [Hc Hp].
  assert (v ≤ dstep v c) by (unfold dstep; lia).
  pose proof (dstep_mono p (dstep v c) ltac:(lia) Hp).
  rewrite IH, dec_snoc, <- app_assoc by (done || lia). done.
Qed.

Lemma dec_digits v : 0 ≤ v < 10 ^ 20 → Forall (λ c, 48 ≤ c ≤ 57) (dec v) ∧ foldl dstep 0 (dec v) = v.
Proof.
  assert (∀ n : nat, ∀ v, (n ≤ 20)%nat → 0 ≤ v < 10 ^ Z.of_nat n →
    Forall (λ c, 48 ≤ c ≤ 57) (dec v) ∧ foldl dstep 0 (dec v) = v) as Hind; [|by apply (Hind 20%nat)].
  induction n as [|n IH]; intros w Hn Hw.
  { simpl in Hw. replace w with 0 by lia. split; [|done]. repeat constructor; done. }
  destruct (decide (w < 10)).
  { rewrite dec_small by lia. split; [repeat constructor; lia|]. unfold dstep. simpl. lia. }
  rewrite Nat2Z.inj_succ, Z.pow_succ_r in Hw by lia.
  assert (10 * 10 ^ Z.of_nat n ≤ 10 ^ 20).
  { rewrite <- Z.pow_succ_r by lia. apply Z.pow_le_mono_r; lia. }
  rewrite dec_step by lia. pose proof (Z.mod_pos_bound w 10).
  destruct (IH (w / 10)) as [Hd Hf]; [lia|split; [apply Z.div_pos|apply Z.div_lt_upper_bound]; lia|].
  split; [apply Forall_app; split; [done|repeat constructor; lia]|].
  rewrite foldl_app, Hf. unfold dstep. simpl. pose proof (Z.div_mod w 10). lia.
Qed.

Lemma dec_head v : 1 ≤ v < 10 ^ 20 → ∃ c p, dec v = c :: p ∧ 49 ≤ c ≤ 57.
Proof.
  assert (∀ n : nat, ∀ v, (n ≤ 20)%nat → 1 ≤ v < 10 ^ Z.of_nat n →
    ∃ c p, dec v = c :: p ∧ 49 ≤ c ≤ 57) as Hind; [|by apply (Hind 20%nat)].
  induction n as [|n IH]; intros w Hn Hw; [simpl in Hw; lia|].
  destruct (decide (w < 10)).
  { rewrite dec_small by lia. eexists _, []. split; [done|lia]. }
  rewrite Nat2Z.inj_succ, Z.pow_succ_r in Hw by lia.
  assert (10 * 10 ^ Z.of_nat n ≤ 10 ^ 20).
  { rewrite <- Z.pow_succ_r by lia. apply Z.pow_le_mono_r; lia. }
  destruct (IH (w / 10)) as (c & p & Hd & Hc).
  { lia. } { split; [apply Z.div_le_lower_bound|apply Z.div_lt_upper_bound]; lia. }
  rewrite dec_step, Hd by lia. by exists c, (p ++ [48 + w mod 10]).
Qed.

Lemma string2ll_loop_ok p v :
  0 ≤ v → Forall (λ c, 48 ≤ c ≤ 57) p → foldl dstep v p ≤ ULLONG_MAX →
  string2ll_loop p v = Some (foldl dstep v p, []).
Proof.
  revert v. induction p as [|c p IH]; intros v Hv Hp Hle; simpl; [done|].
  apply Forall_cons in Hp as [Hc Hp]. simpl in Hle.
  assert (v ≤ dstep v c) by (unfold dstep; lia).
  pose proof (dstep_mono p (dstep v c) ltac:(lia) Hp) as Hm.
  rewrite (proj2 (isdigit_true c)) by done. unfold dstep in Hm at 1.
  assert (ULLONG_MAX / 10 = 1844674407370955161) as -> by done. unfold ULLONG_MAX in *.
  rewrite decide_False, (uwrap_small 64 (v * 10)) by range_lia. rewrite decide_False by lia.
  rewrite uwrap_small by range_lia. by apply IH; [unfold dstep in *; lia|..].
Qed.

Lemma string2ll_loop_inv p v v' :
  0 ≤ v ≤ ULLONG_MAX → string2ll_loop p v = Some (v', []) →
  Forall (λ c, 48 ≤ c ≤ 57) p ∧ v' = foldl dstep v p ∧ v' ≤ ULLONG_MAX.
Proof.
  revert v. induction p as [|c p IH]; intros v Hv; simpl.
  { intros [= ->]. split_and!; [constructor|done|lia]. }
  destruct (isdigit c) eqn:Hd; [|done]. apply isdigit_true in Hd.
  assert (ULLONG_MAX / 10 = 1844674407370955161) as -> by done. unfold ULLONG_MAX in *.
  case_decide; [done|]. rewrite (uwrap_small 64 (v * 10)) by range_lia. case_decide; [done|].
  rewrite uwrap_small by range_lia. intros Hl. apply IH in Hl as (Hp & Heq & Hle); [|lia].
  split_and!; [by constructor|done|done].
Qed.

Lemma string2ll_abs_iff p w : string2ll_abs p = Some w ↔ 1 ≤ w ≤ ULLONG_MAX ∧ p = dec w.
Proof.
  unfold string2ll_abs. split.
  - destruct p as [|c p]; [done|]. simpl. case_decide as Hc; [|done].
    intros ([v rest] & Hl & Hr)%bind_Some. rewrite drop_0 in Hl. unfold char0 in *. simpl in Hl, Hc.
    case_decide as Hn; [|done]. apply nil_length_inv in Hn as ->. injection Hr as ->.
    apply string2ll_loop_inv in Hl as (Hp & -> & Hle); [|unfold ULLONG_MAX; lia].
    pose proof (dstep_mono p (c - 48) ltac:(lia) Hp). split; [lia|].
    rewrite dec_foldl by (done || (unfold ULLONG_MAX in *; lia)). rewrite dec_small by lia. simpl.
    f_equal. lia.
  - intros [Hw ->]. destruct (dec_head w) as (c & p & Hd & Hc); [unfold ULLONG_MAX in *; lia|].
    destruct (dec_digits w) as [Hdig Hval]; [unfold ULLONG_MAX in *; lia|]. rewrite Hd in *.
    apply Forall_cons in Hdig as [_ Hp]. cbn [foldl] in Hval.
    change (dstep 0 c) with (c - 48) in Hval.
    simpl. unfold char0. simpl. rewrite decide_True, drop_0 by done.
    rewrite string2ll_loop_ok by (done || lia). by rewrite Hval.
Qed.

(** The magnitude of a signed number has at most 19 digits. *)
Lemma dec_len_max w : 0 ≤ w ≤ 2 ^ 63 → (0 < length (dec w) ≤ 19)%nat.
Proof.
  intros Hw. assert (0 ≤ w < 2 ^ 64) as Hw' by range_lia.
  destruct (digits10_dec w Hw') as [Hd ?]. destruct (digits10_bound w Hw') as [(? & Hlo & _) _].
  destruct (decide (digits10 w = 20)) as [Heq|]; [|lia]. rewrite Heq in Hlo. range_lia.
Qed.

Lemma string2ll_ok s v : string2ll s = Some v ↔ in_srange 64 v ∧ s = decimal v.
Proof.
  unfold string2ll, decimal. split.
  - case_decide as Hlen; [done|]. case_decide as H0.
    { intros [= <-]. split; [range_lia|]. destruct s as [|c [|? ?]]; simpl in H0; [lia| |lia].
      destruct H0 as [_ Hc]. unfold char0 in Hc. simpl in Hc. by subst. }
    case_decide as Hneg; intros (w & Hw & Hv)%bind_Some; apply string2ll_abs_iff in Hw as [Hw Hs].
    + change (u64 (- (LLONG_MIN + 1)) + 1) with 9223372036854775808 in Hv. case_decide; [done|].
      rewrite swrap_uwrap, swrap_small in Hv by range_lia. injection Hv as <-.
      split; [range_lia|]. rewrite decide_True, Z.opp_involutive by lia. rewrite <- Hs.
      destruct s as [|c s]; [simpl in Hlen; lia|]. unfold char0 in Hneg. simpl in *. by subst.
    + case_decide; [done|]. injection Hv as <-. split; [range_lia|]. by rewrite decide_False by lia.
  - intros [Hv ->]. destruct (decide (v < 0)) as [Hn|Hn].
    + pose proof (dec_len_max (- v) ltac:(range_lia)) as Hl. unfold LONG_STR_SIZE.
      change (char0 (45 :: dec (- v))) with 45. cbn [length].
      rewrite decide_False, decide_False, decide_True by (done || lia).
      cbn [drop]. rewrite drop_0, (proj2 (string2ll_abs_iff _ (- v))) by (split; [range_lia|done]).
      bind_simpl. change (u64 (- (LLONG_MIN + 1)) + 1) with 9223372036854775808.
      rewrite decide_False by range_lia. rewrite Z.opp_involutive, swrap_uwrap, swrap_small by range_lia. done.
    + pose proof (dec_len_max v ltac:(range_lia)) as Hl. unfold LONG_STR_SIZE.
      rewrite decide_False by lia. destruct (decide (v = 0)) as [->|Hz]; [done|].
      destruct (dec_head v) as (c & p & Hd & Hc); [range_lia|]. 
      assert (char0 (dec v) = c) as -> by by rewrite Hd.
      rewrite decide_False, decide_False by lia.
      rewrite (proj2 (string2ll_abs_iff _ v)) by (split; [range_lia|done]).
      bind_simpl. by rewrite decide_False by range_lia.
Qed.

(** [string2ll] accepts exactly the canonical decimal notation of the 64-bit integers, and
    returns the number it denotes: no spaces, no plus sign, no leading zero, no overflow.  So
    two strings that it reads as the same number are the same string. *)
Theorem string2ll_iff :
  (∀ s v, string2ll s = Some v ↔ in_srange 64 v ∧ s = decimal v) ∧
  (∀ s s' v, string2ll s = Some v → string2ll s' = Some v → s = s').
Proof.
  split; [exact string2ll_ok|]. intros s s' v Hs Hs'.
  apply string2ll_ok in Hs as [_ ->]. by apply string2ll_ok in Hs' as [_ ->].
Qed.

Lemma ll2string_spec dst v :
  in_srange 64 v →
  if decide (zlen (decimal v) < zlen dst)
  then ll2string dst v
         = Some (decimal v ++ 0 :: drop (S (length (decimal v))) dst, zlen (decimal v))
  else ∃ dst', ll2string dst v = Some (dst', 0) ∧ length dst' = length dst.
Proof.
  intros Hv. unfold ll2string, decimal. destruct (decide (v < 0)) as [Hn|Hn].
  - assert ((if decide (v ≠ LLONG_MIN) then u64 (- v) else u64 (LLONG_MAX + 1)) = - v) as ->.
    { case_decide as Hm; [apply uwrap_small; range_lia|].
      destruct (decide (v = LLONG_MIN)) as [->|]; [done|tauto]. }
    pose proof (dec_len_max (- v) ltac:(range_lia)) as Hl. cbn [length].
    destruct (decide (zlen dst < 2)) as [H2|H2].
    { rewrite decide_False by lia. rewrite conv_err_ok. eexists. split; [done|]. by destruct dst. }
    destruct dst as [|c dst]; [simpl in H2; lia|]. rewrite put_ok by (simpl; lia). bind_simpl.
    change (<[Z.to_nat 0 := 45]> (c :: dst)) with (45 :: dst). cbn [drop take]. rewrite drop_0.
    rewrite ull2string_ok by range_lia. cbn [mbind option_bind length].
    case_decide; case_decide; try lia.
    + rewrite decide_False by lia. simpl. f_equal. f_equal. lia.
    + eexists. split; [done|]. by destruct dst.
  - pose proof (ull2string_ok dst v ltac:(range_lia)) as ->. case_decide; [done|].
    eexists. split; [done|]. by destruct dst.
Qed.

Lemma decimal_short n : in_srange 64 n → zlen (decimal n) ≤ 20.
Proof.
  intros Hn. unfold decimal. case_decide.
  - pose proof (dec_len_max (- n) ltac:(range_lia)). cbn [length]. lia.
  - pose proof (dec_len_max n ltac:(range_lia)). lia.
Qed.

(** The characters are bytes. *)
Lemma dec_rec_bytes n v : 0 ≤ v → bytes_ok (dec_rec n v).
Proof.
  revert v. induction n as [|n IH]; intros v Hv; [constructor|]. rewrite dec_rec_S. case_decide; [repeat constructor; unfold byte_ok; lia|].
  apply Forall_app. split; [apply IH, Z.div_pos; lia|]. repeat constructor; pose proof (Z.mod_pos_bound v 10); unfold byte_ok; lia.
Qed.

Lemma decimal_bytes_ok v : bytes_ok (decimal v).
Proof. unfold decimal. case_decide; [constructor; [unfold byte_ok; lia|]|]; apply dec_rec_bytes; lia. Qed.

Lemma ll_string_ok size n : in_srange 64 n → (21 ≤ size)%nat → ll_string size n = Some (decimal n).
Proof.
  intros Hn Hsize. unfold ll_string. pose proof (ll2string_spec (replicate size 0) n Hn) as Hl. rewrite length_replicate in Hl.
  pose proof (decimal_short n Hn). rewrite decide_True in Hl by lia. rewrite Hl. bind_simpl. rewrite Nat2Z.id. by rewrite take_app_length.
Qed.

(** C40. [ll2string] writes the decimal notation and its terminator when the buffer has room for
    both, and returns its length; otherwise it returns 0.  It never writes outside the buffer. *)
Theorem ll2string_ok dst v :
  in_srange 64 v →
  if decide (zlen (decimal v) < zlen dst)
  then ll2string dst v
         = Some (decimal v ++ 0 :: drop (S (length (decimal v))) dst, zlen (decimal v))
  else ∃ dst', ll2string dst v = Some (dst', 0) ∧ length dst' = length dst.
Proof. apply ll2string_spec. Qed.

Lemma ll2string_ok_witness :
  if decide (zlen (decimal (-42)) < zlen (replicate 8 7))
  then ll2string (replicate 8 7) (-42)
         = Some (decimal (-42) ++ 0 :: drop (S (length (decimal (-42)))) (replicate 8 7), zlen (decimal (-42)))
  else ∃ dst', ll2string (replicate 8 7) (-42) = Some (dst', 0) ∧ length dst' = length (replicate 8 7).
Proof. apply (ll2string_ok (replicate 8 7) (-42)). range_lia. Defined.

(** ** Unsigned numbers and amounts of memory *)

Lemma take_while_digits p q :
  Forall (λ c, 48 ≤ c ≤ 57) p → head q = None ∨ (∃ c, head q = Some c ∧ isdigit c = false) →
  take_while isdigit (p ++ q) = p.
Proof.
  induction p as [|c p IH]; intros Hp Hq; simpl.
  - destruct q as [|c q]; [done|]. destruct Hq as [|(? & [= ->] & Hc)]; [done|]. simpl. by rewrite Hc.
  - apply Forall_cons in Hp as [Hc Hp]. rewrite (proj2 (isdigit_true c)) by done. by rewrite IH.
Qed.

Lemma strtoull_dec n : 0 ≤ n < 2 ^ 64 → strtoull (dec n) = (n, [], false).
Proof.
  intros Hn. destruct (dec_digits n) as [Hd Hv]; [range_lia|].
  pose proof (dec_nonempty n) as Hl. unfold strtoull.
  assert (∀ x, head (dec n) = Some x → 48 ≤ x ≤ 57) as Hh.
  { intros x Hx. destruct (dec n) as [|c p]; [done|]. injection Hx as ->. by apply Forall_cons in Hd as [? _]. }
  assert (drop_while isspace (dec n) = dec n) as ->.
  { destruct (dec n) as [|c p]; [done|]. simpl. specialize (Hh c eq_refl). unfold isspace.
    by rewrite bool_decide_false by lia. }
  assert (48 ≤ char0 (dec n) ≤ 57) as Hc.
  { destruct (dec n) as [|c p]; [simpl in Hl; lia|]. by apply Hh. }
  rewrite (decide_False (P := char0 (dec n) = 45 ∨ _)) by lia. rewrite (bool_decide_false (char0 _ = 45)) by lia.
  assert (take_while isdigit (dec n) = dec n) as ->.
  { rewrite <- (app_nil_r (dec n)) at 1. apply take_while_digits; auto. }
  rewrite decide_False by lia. rewrite Hv, decide_False by range_lia. by rewrite drop_all.
Qed.

(** Every number below [2^64] is read back from its decimal notation. *)
Lemma string2ull_dec n : 0 ≤ n < 2 ^ 64 → string2ull (dec n) = Some n.
Proof.
  intros Hn. unfold string2ull. destruct (string2ll (dec n)) as [ll|] eqn:Hll.
  - apply string2ll_ok in Hll as [Hr Hd]. unfold decimal in Hd. destruct (decide (ll < 0)) as [Hneg|Hneg].
    + destruct (dec_digits n) as [Hdig _]; [range_lia|]. rewrite Hd in Hdig.
      apply Forall_cons in Hdig as [? _]. lia.
    + destruct (dec_digits n) as [_ Hv]; [range_lia|].
      destruct (dec_digits ll) as [_ Hv']; [range_lia|]. congruence.
  - rewrite strtoull_dec by done. rewrite decide_False; [done|]. pose proof (dec_nonempty n). simpl.
    intros [|[|]]; [done|lia|done].
Qed.

Lemma memory_unit_head u m : memory_unit u = Some m → head u = None ∨ ∃ c, head u = Some c ∧ isdigit c = false.
Proof.
  destruct u as [|c u]; [by left|]. intros Hm. right. exists c. split; [done|].
  destruct (isdigit c) eqn:Hd; [|done]. apply isdigit_true in Hd. unfold memory_unit in Hm. simpl in Hm.
  assert (tolower c = c) as Hl by (unfold tolower; by rewrite decide_False by lia). rewrite Hl in Hm.
  assert (∀ (x : Z) l l', ¬ 48 ≤ x ≤ 57 → c :: l ≠ x :: l') as Hne by (intros ??? Hx [= ->]; lia).
  repeat (rewrite decide_False in Hm; [|first [apply Hne; simpl; lia|intros [?|Hb]; [done|revert Hb; apply Hne; simpl; lia]]]).
  done.
Qed.

(** [memtoull] reads a number below [2^64] followed by a unit as the number of bytes, modulo
    [2^64]; the unit may be in either case. *)
Theorem memtoull_ok n u m :
  0 ≤ n < 2 ^ 64 → memory_unit u = Some m → memtoull (dec n ++ u) = Some (u64 (n * m)).
Proof.
  intros Hn Hm. destruct (dec_digits n) as [Hd _]; [range_lia|]. pose proof (dec_nonempty n) as Hne.
  unfold memtoull. rewrite decide_False; last first.
  { destruct (dec n) as [|c p]; [simpl in Hne; lia|]. apply Forall_cons in Hd as [? _].
    unfold char0. simpl. lia. }
  rewrite take_while_digits by (done || by eapply memory_unit_head).
  rewrite drop_app_length, Hm. bind_simpl.
  destruct (digits10_dec n Hn) as [Hlen ?]. rewrite decide_False by lia.
  rewrite strtoull_dec by done. by rewrite decide_False by (simpl; lia).
Qed.

Lemma memtoull_ok_witness : memtoull (dec 3 ++ str "Gb") = Some (u64 (3 * (1024 * 1024 * 1024))).
Proof. apply (memtoull_ok 3 (str "Gb")); [lia|reflexivity]. Defined.

(** A product that does not fit is not reported. *)
Lemma memtoull_wraps : memtoull (str "18014398509481985kb") = Some 1024.
Proof. vm_compute. reflexivity. Qed.

(** [string2ull] rejects -5, and accepts the same number written with a leading zero or
    space, wrapped. *)
Lemma string2ull_negative :
  string2ull (str "-5") = None ∧ string2ull (str "-05") = Some (2 ^ 64 - 5) ∧
  string2ull (str " -5") = Some (2 ^ 64 - 5).
Proof. vm_compute. done. Qed.
