(* ===== verification/Glob.v ===== *)
(** * util.c: glob-style pattern matching

[stringmatchlen] backtracks over the stars of a pattern and gives up early
([skipLongerMatches]) when a later star has failed.  The reference is a relation on parsed
patterns. *)

From S2P Require Import Prelude Util.

Local Open Scope Z_scope.

(** ** The code *)

Section matching.
Context (nocase : bool).

(** Plain [char]s are signed. *)
Definition range_match (a b c : Z) : bool :=
  let start := s8 a in
  let fin := s8 b in
  let c := s8 c in
  let '(start, fin) := if decide (start > fin) then (fin, start) else (start, fin) in
  let '(start, fin, c) :=
    if nocase then (tolower start, tolower fin, tolower c) else (start, fin, c) in
  bool_decide (c >= start ∧ c <= fin).

Definition char_match (a c : Z) : bool :=
  if nocase then bool_decide (tolower a = tolower c) else bool_decide (a = c).

(** The loop over a class, after the opening bracket and the negation: whether [c] is in it,
    and the pattern after it ([[]] for a class that is not closed). *)
Fixpoint class_loop (p : bytes) (c : Z) (mtch : bool) : bool * bytes :=
  match p with
  | [] => (mtch, [])
  | a :: p1 =>
      match p1 with
      | [] =>
          if decide (a = 93) then (mtch, [])
          else class_loop p1 c (mtch || char_match a c)
      | b :: p2 =>
          if decide (a = 92) then class_loop p2 c (mtch || bool_decide (b = c))
          else if decide (a = 93) then (mtch, p1)
          else match p2 with
               | e :: p3 =>
                   if decide (b = 45) then class_loop p3 c (mtch || range_match a e c)
                   else class_loop p1 c (mtch || char_match a c)
               | [] => class_loop p1 c (mtch || char_match a c)
               end
      end
  end.

(** [while (patternLen && pattern[1] == '*') { pattern++; patternLen--; }]. *)
Fixpoint collapse_stars (p : bytes) : bytes :=
  match p with
  | _ :: ((b :: _) as p1) => if decide (b = 42) then collapse_stars p1 else p
  | _ => p
  end.

(** [while ( *pattern == '*') { pattern++; patternLen--; }]. *)
Fixpoint drop_stars (p : bytes) : bytes :=
  match p with
  | [] => []
  | a :: p1 => if decide (a = 42) then drop_stars p1 else p
  end.

(** [while(stringLen)] of a star: [rec] matches the rest of the pattern.  The flags are the
    result and [*skipLongerMatches]. *)
Fixpoint star_loop (rec : bytes → bool → option (bool * bool)) (s : bytes) (skip : bool)
    : option (bool * bool) :=
  match s with
  | [] => Some (false, true)
  | _ :: s1 =>
      '(r, skip) ← rec s skip;
      if r : bool then Some (true, skip)
      else if skip : bool then Some (false, skip)
      else star_loop rec s1 skip
  end.

(** One unit of fuel per byte of the pattern. *)
Fixpoint stringmatchlen_impl (fuel : nat) (p s : bytes) (skip : bool) : option (bool * bool) :=
  match fuel with
  | O => None
  | S fuel =>
      let next p s :=
        match s with
        | [] => Some (bool_decide (drop_stars p = []), skip)
        | _ => stringmatchlen_impl fuel p s skip
        end in
      match p, s with
      | a :: p1, c :: s1 =>
          if decide (a = 42) then
            match collapse_stars p with
            | [] | [_] => Some (true, skip)
            | _ :: p2 => star_loop (stringmatchlen_impl fuel p2) s skip
            end
          else if decide (a = 63) then next p1 s1
          else if decide (a = 91) then
            let not := bool_decide (char0 p1 = 94) in
            let p2 := if not then drop 1 p1 else p1 in
            let '(mtch, p3) := class_loop p2 c false in
            let mtch := if not then negb mtch else mtch in
            if mtch then next p3 s1 else Some (false, skip)
          else
            let p' := if decide (a = 92 ∧ (2 ≤ length p)%nat) then p1 else p in
            if char_match (char0 p') c then next (drop 1 p') s1 else Some (false, skip)
      | _, _ => Some (bool_decide (p = [] ∧ s = []), skip)
      end
  end.

Definition stringmatchlen (p s : bytes) : option bool :=
  fst <$> stringmatchlen_impl (S (length p)) p s false.

End matching.

(** ** Reference *)

(** The tokens of a pattern. *)
Inductive gitem :=
  | GExact (c : Z)
  | GChar (c : Z)
  | GRange (a b : Z).

Inductive gtoken :=
  | TStar
  | TAny
  | TClass (neg : bool) (items : list gitem)
  | TLit (c : Z).

Fixpoint parse_class (p : bytes) : list gitem * bytes :=
  match p with
  | [] => ([], [])
  | a :: p1 =>
      match p1 with
      | [] => if decide (a = 93) then ([], []) else ([GChar a], [])
      | b :: p2 =>
          if decide (a = 92) then let '(l, r) := parse_class p2 in (GExact b :: l, r)
          else if decide (a = 93) then ([], p1)
          else match p2 with
               | e :: p3 =>
                   if decide (b = 45) then let '(l, r) := parse_class p3 in (GRange a e :: l, r)
                   else let '(l, r) := parse_class p1 in (GChar a :: l, r)
               | [] => let '(l, r) := parse_class p1 in (GChar a :: l, r)
               end
      end
  end.

Fixpoint parse_glob (fuel : nat) (p : bytes) : list gtoken :=
  match fuel with
  | O => []
  | S fuel =>
      match p with
      | [] => []
      | a :: p1 =>
          if decide (a = 42) then TStar :: parse_glob fuel p1
          else if decide (a = 63) then TAny :: parse_glob fuel p1
          else if decide (a = 91) then
            let neg := bool_decide (char0 p1 = 94) in
            let '(items, p3) := parse_class (if neg then drop 1 p1 else p1) in
            TClass neg items :: parse_glob fuel p3
          else if decide (a = 92 ∧ (2 ≤ length p)%nat) then TLit (char0 p1) :: parse_glob fuel (drop 1 p1)
          else TLit a :: parse_glob fuel p1
      end
  end.

Definition glob_tokens (p : bytes) : list gtoken := parse_glob (length p) p.

Section reference.
Context (nocase : bool).

Definition item_match (i : gitem) (c : Z) : bool :=
  match i with
  | GExact a => bool_decide (a = c)
  | GChar a => char_match nocase a c
  | GRange a b => range_match nocase a b c
  end.

(** A token that matches one byte. *)
Definition tok_match (t : gtoken) (c : Z) : bool :=
  match t with
  | TStar => false
  | TAny => true
  | TClass neg items => xorb neg (existsb (λ i, item_match i c) items)
  | TLit a => char_match nocase a c
  end.

Inductive glob : list gtoken → bytes → Prop :=
  | glob_nil : glob [] []
  | glob_one t ts c s : tok_match t c = true → glob ts s → glob (t :: ts) (c :: s)
  | glob_star ts s1 s2 : glob ts s2 → glob (TStar :: ts) (s1 ++ s2).

End reference.

(** ** Parsing *)

(** One element of a class: the item, if the class goes on, and the pattern after it. *)
Definition class_step (p : bytes) : option gitem * bytes :=
  match p with
  | [] => (None, [])
  | [a] => if decide (a = 93) then (None, []) else (Some (GChar a), [])
  | a :: ((b :: p2) as p1) =>
      if decide (a = 92) then (Some (GExact b), p2)
      else if decide (a = 93) then (None, p1)
      else match p2 with
           | e :: p3 => if decide (b = 45) then (Some (GRange a e), p3) else (Some (GChar a), p1)
           | [] => (Some (GChar a), p1)
           end
  end.

Lemma parse_class_cons2 a b p2 :
  parse_class (a :: b :: p2) =
    if decide (a = 92) then let '(l, r) := parse_class p2 in (GExact b :: l, r)
    else if decide (a = 93) then ([], b :: p2)
    else match p2 with
         | e :: p3 =>
             if decide (b = 45) then let '(l, r) := parse_class p3 in (GRange a e :: l, r)
             else let '(l, r) := parse_class (b :: p2) in (GChar a :: l, r)
         | [] => let '(l, r) := parse_class (b :: p2) in (GChar a :: l, r)
         end.
Proof. reflexivity. Qed.

Lemma class_loop_cons2 nocase a b p2 c m :
  class_loop nocase (a :: b :: p2) c m =
    if decide (a = 92) then class_loop nocase p2 c (m || bool_decide (b = c))
    else if decide (a = 93) then (m, b :: p2)
    else match p2 with
         | e :: p3 =>
             if decide (b = 45) then class_loop nocase p3 c (m || range_match nocase a e c)
             else class_loop nocase (b :: p2) c (m || char_match nocase a c)
         | [] => class_loop nocase (b :: p2) c (m || char_match nocase a c)
         end.
Proof. reflexivity. Qed.

Lemma parse_class_step p :
  parse_class p = match class_step p with
                  | (None, r) => ([], r)
                  | (Some i, q) => let '(l, r) := parse_class q in (i :: l, r)
                  end.
Proof.
  destruct p as [|a [|b p2]]; [done|simpl; by case_decide|]. rewrite parse_class_cons2. unfold class_step.
  destruct p2; by repeat case_decide.
Qed.

Lemma class_loop_step nocase p c m :
  class_loop nocase p c m = match class_step p with
                            | (None, r) => (m, r)
                            | (Some i, q) => class_loop nocase q c (m || item_match nocase i c)
                            end.
Proof.
  destruct p as [|a [|b p2]]; [done|simpl; by case_decide|]. rewrite class_loop_cons2. unfold class_step.
  destruct (decide (a = 92)); [reflexivity|]. destruct (decide (a = 93)); [reflexivity|].
  destruct p2; [reflexivity|]. destruct (decide (b = 45)); reflexivity.
Qed.

Lemma class_step_length p :
  (length (class_step p).2 ≤ length p)%nat ∧
  ((class_step p).1 ≠ None → (length (class_step p).2 < length p)%nat).
Proof.
  destruct p as [|a [|b [|e p]]]; unfold class_step; repeat case_decide; simpl; split; done || lia.
Qed.

(** Induction along the elements of a class. *)
Lemma class_ind (P : bytes → Prop) :
  (∀ p, (∀ i q, class_step p = (Some i, q) → P q) → P p) → ∀ p, P p.
Proof.
  intros Hstep p. remember (length p) as n eqn:Hn. revert p Hn.
  induction n as [n IH] using lt_wf_ind. intros p ->. apply Hstep. intros i q Hq.
  pose proof (class_step_length p) as [_ Hlt]. rewrite Hq in Hlt. eapply IH; [|done]. by apply Hlt.
Qed.

Lemma parse_class_rest p : (length (parse_class p).2 ≤ length p)%nat.
Proof.
  induction p as [p IH] using class_ind. rewrite parse_class_step.
  pose proof (class_step_length p) as [Hle _]. destruct (class_step p) as [[i|] q] eqn:Hs; simpl in *; [|done].
  specialize (IH i q eq_refl). destruct (parse_class q); simpl in *; lia.
Qed.

Lemma parse_glob_fuel n m p : (length p ≤ n)%nat → (length p ≤ m)%nat → parse_glob n p = parse_glob m p.
Proof.
  revert m p. induction n as [|n IH]; intros m p Hn Hm.
  { destruct p; [|simpl in Hn; lia]. by destruct m. }
  destruct m as [|m]; [destruct p; [done|simpl in Hm; lia]|]. destruct p as [|a p1]; [done|].
  cbn [parse_glob]. simpl in Hn, Hm.
  assert (∀ q, (length q ≤ length p1)%nat → parse_glob n q = parse_glob m q) as IH' by (intros; apply IH; lia).
  pose proof (parse_class_rest (if bool_decide (char0 p1 = 94) then drop 1 p1 else p1)) as Hr.
  assert (length (if bool_decide (char0 p1 = 94%Z) then drop 1 p1 else p1) ≤ length p1)%nat.
  { destruct (bool_decide _); [rewrite length_drop; lia|lia]. }
  assert (length (drop 1 p1) ≤ length p1)%nat by (rewrite length_drop; lia).
  destruct (parse_class _) as [items p3]. simpl in Hr.
  repeat case_decide; f_equal; apply IH'; lia.
Qed.

Lemma glob_tokens_fuel n p : (length p ≤ n)%nat → parse_glob n p = glob_tokens p.
Proof. intros Hn. by apply parse_glob_fuel. Qed.

Section correct.
Context (nocase : bool).

Abbreviation glob := (glob nocase).

Lemma class_loop_ok p c m :
  class_loop nocase p c m =
    (m || existsb (λ i, item_match nocase i c) (parse_class p).1, (parse_class p).2).
Proof.
  revert m. induction p as [p IH] using class_ind. intros m.
  rewrite class_loop_step, parse_class_step.
  destruct (class_step p) as [[i|] q] eqn:Hs; [|simpl; by rewrite orb_false_r].
  rewrite (IH i q eq_refl). destruct (parse_class q). simpl. by rewrite orb_assoc.
Qed.

(** ** Matching *)

Lemma glob_one_iff t ts c s :
  t ≠ TStar → glob (t :: ts) (c :: s) ↔ tok_match nocase t c = true ∧ glob ts s.
Proof. intros Ht. split; [inversion 1; naive_solver|]. intros []. by constructor. Qed.

Lemma glob_one_nil t ts : t ≠ TStar → ¬ glob (t :: ts) [].
Proof. intros Ht. inversion 1; naive_solver. Qed.

Lemma glob_star_iff ts s : glob (TStar :: ts) s ↔ ∃ s2, s2 `suffix_of` s ∧ glob ts s2.
Proof.
  split.
  - inversion 1; subst; [done|]. eexists. split; [by eexists|done].
  - intros (s2 & [s1 ->] & Hg). by constructor.
Qed.

Lemma glob_star_star ts s : glob (TStar :: TStar :: ts) s ↔ glob (TStar :: ts) s.
Proof.
  rewrite !glob_star_iff. setoid_rewrite glob_star_iff. split.
  - intros (s2 & Hs & s3 & Hs' & Hg). exists s3. split; [by etransitivity|done].
  - intros (s2 & Hs & Hg). exists s2. split; [done|]. by exists s2.
Qed.

Lemma tokens_star p : glob_tokens (42 :: p) = TStar :: glob_tokens p.
Proof. done. Qed.

(** The tokens of a pattern that does not start with a star. *)
Lemma tokens_no_star a p : a ≠ 42 → ∃ t ts, glob_tokens (a :: p) = t :: ts ∧ t ≠ TStar.
Proof.
  intros Ha. unfold glob_tokens. cbn [length parse_glob]. rewrite decide_False by done.
  destruct (parse_class _). repeat case_decide; eauto.
Qed.

Lemma glob_nil_iff p : glob (glob_tokens p) [] ↔ drop_stars p = [].
Proof.
  induction p as [|a p IH]; [split; constructor|]. simpl. case_decide as Ha.
  - subst a. rewrite tokens_star, glob_star_iff, <- IH. split.
    + intros (s2 & Hs & Hg). apply suffix_nil_inv in Hs. by subst.
    + intros Hg. by exists [].
  - destruct (tokens_no_star a p Ha) as (t & ts & -> & Ht). split; [|done].
    intros Hg. by apply glob_one_nil in Hg.
Qed.

Lemma collapse_stars_cons2 a b p :
  collapse_stars (a :: b :: p) = if decide (b = 42) then collapse_stars (b :: p) else a :: b :: p.
Proof. reflexivity. Qed.

Lemma collapse_stars_ok p :
  ∃ q, collapse_stars (42 :: p) = 42 :: q ∧ (length q ≤ length p)%nat ∧ head q ≠ Some 42 ∧
    ∀ s, glob (glob_tokens (42 :: p)) s ↔ glob (TStar :: glob_tokens q) s.
Proof.
  induction p as [|b p IH]; [by exists []|]. rewrite collapse_stars_cons2. case_decide as Hb.
  - subst b. destruct IH as (q & -> & Hl & Hh & Hq). exists q. split_and!; try done; [simpl; lia|].
    intros s. rewrite tokens_star. rewrite <- Hq, !tokens_star. apply glob_star_star.
  - exists (b :: p). split_and!; try done. intros [= ?]. done.
Qed.

(** What a call promises: its result is right, and when it failed with the flag set no suffix
    of the string matches either. *)
Definition match_ok (ts : list gtoken) (s : bytes) (r : option (bool * bool)) : Prop :=
  ∃ b k, r = Some (b, k) ∧ (b = true ↔ glob ts s) ∧
    (b = false → k = true → ∀ s', s' `suffix_of` s → ¬ glob ts s').

Lemma star_loop_ok rec ts s :
  (∀ t, t ≠ [] → match_ok ts t (rec t false)) → ¬ glob ts [] →
  match_ok (TStar :: ts) s (star_loop rec s false).
Proof.
  intros Hrec Hnil.
  assert (∀ s, (∀ s', s' `suffix_of` s → ¬ glob ts s') →
    ∀ s', s' `suffix_of` s → ¬ glob (TStar :: ts) s') as Hlift.
  { intros s0 H0 s' Hs' (s2 & Hs2 & Hg)%glob_star_iff. apply (H0 s2); [by etransitivity|done]. }
  induction s as [|c s IH].
  { exists false, true. split; [done|].
    assert (∀ s', s' `suffix_of` [] → ¬ glob (TStar :: ts) s') as Hno.
    { apply Hlift. intros s' ->%suffix_nil_inv. done. }
    split; [|done]. split; [done|]. intros Hg. by apply Hno in Hg. }
  destruct (Hrec (c :: s)) as (b & k & Hr & Hb & Hk); [done|]. cbn [star_loop]. rewrite Hr.
  bind_simpl. destruct b.
  { exists true, k. split; [done|]. split; [|done]. split; [|done]. intros _. apply glob_star_iff.
    exists (c :: s). split; [done|]. by apply Hb. }
  assert (¬ glob ts (c :: s)) as Hcs by (intros Hg; by apply Hb in Hg).
  destruct k.
  { specialize (Hlift _ (Hk eq_refl eq_refl)). exists false, true. split; [done|].
    split; [|done]. split; [done|]. intros Hg. by apply Hlift in Hg. }
  destruct IH as (b & k & -> & Hb' & Hk'). exists b, k. split; [done|].
  assert (∀ s', s' `suffix_of` c :: s → s' = c :: s ∨ s' `suffix_of` s) as Hcases.
  { intros s' [[|x l] Hl]; [by left|]. right. injection Hl as _ ->. by exists l. }
  split.
  - rewrite Hb', !glob_star_iff. split; intros (s2 & Hs2 & Hg).
    + exists s2. split; [by apply suffix_cons_r|done].
    + destruct (Hcases _ Hs2) as [->|]; [done|]. by exists s2.
  - intros -> -> s' Hs' (s2 & Hs2 & Hg)%glob_star_iff.
    assert (s2 `suffix_of` c :: s) as Hs by by etransitivity.
    destruct (Hcases _ Hs) as [->|Hs'']; [done|].     apply (Hk' eq_refl eq_refl s); [done|]. apply glob_star_iff. by exists s2.
Qed.

(** The bytes after the current one. *)
Definition match_next (fuel : nat) (p s : bytes) : option (bool * bool) :=
  match s with
  | [] => Some (bool_decide (drop_stars p = []), false)
  | _ => stringmatchlen_impl nocase fuel p s false
  end.

Lemma match_next_ok fuel t p c s :
  (s ≠ [] → match_ok (glob_tokens p) s (stringmatchlen_impl nocase fuel p s false)) →
  t ≠ TStar →
  match_ok (t :: glob_tokens p) (c :: s)
    (if tok_match nocase t c then match_next fuel p s else Some (false, false)).
Proof.
  intros Hrec Ht. unfold match_ok. setoid_rewrite glob_one_iff; [|done].
  destruct (tok_match nocase t c) eqn:Htok; [|by exists false, false; naive_solver].
  assert (∀ ts s', s' `suffix_of` c :: s → glob (t :: ts) s' →
    ∃ s'', s'' `suffix_of` s ∧ glob ts s'') as Hsub.
  { intros ts s' [l Hl] Hg. destruct s' as [|c' s']; [by apply glob_one_nil in Hg|].
    apply glob_one_iff in Hg as [_ Hg]; [|done]. exists s'. split; [|done].
    destruct l as [|x l]; [by injection Hl as _ ->|]. injection Hl as _ ->.
    exists (l ++ [c']). by rewrite <- app_assoc. }
  destruct s as [|c' s].
  - eexists _, false. split; [done|]. split; [|done]. rewrite bool_decide_eq_true, <- glob_nil_iff. naive_solver.
  - destruct Hrec as (b & k & Hr & Hb & Hk); [done|]. exists b, k. split; [done|]. split; [naive_solver|].
    intros Hb' Hk' s' Hs' Hg. apply Hsub in Hg as (s'' & Hs'' & Hg); [|done]. by apply (Hk Hb' Hk' s'').
Qed.

Lemma impl_ok fuel p s :
  (length p < fuel)%nat → s ≠ [] →
  match_ok (glob_tokens p) s (stringmatchlen_impl nocase fuel p s false).
Proof.
  revert p s. induction fuel as [|fuel IH]; intros p s Hf Hs; [lia|].
  destruct s as [|c s]; [done|]. destruct p as [|a p1].
  { exists false, false. split; [done|]. split; [|done]. split; [done|inversion 1]. }
  assert (∀ t q, (length q ≤ length p1)%nat → t ≠ TStar →
    match_ok (t :: glob_tokens q) (c :: s)
      (if tok_match nocase t c then match_next fuel q s else Some (false, false))) as Hnext.
  { intros t q Hq Ht. apply match_next_ok; [|done]. intros Hne. apply IH; [simpl in Hf; lia|done]. }
  cbn [stringmatchlen_impl]. case_decide as H42.
  { subst a. destruct (collapse_stars_ok p1) as (q & -> & Hl & Hh & Hq).
    assert (∀ r, match_ok (TStar :: glob_tokens q) (c :: s) r → match_ok (glob_tokens (42 :: p1)) (c :: s) r)
      as Hconv. { unfold match_ok. by setoid_rewrite Hq. }
    apply Hconv. destruct q as [|b q].
    - exists true, false. split; [done|]. split; [|done]. split; [|done]. intros _. apply glob_star_iff.
      exists []. split; [by apply suffix_nil|constructor].
    - apply star_loop_ok.
      + intros t Ht. apply IH; [simpl in *; lia|done].
      + destruct (tokens_no_star b q) as (t & ts & -> & Htt); [by intros ->|]. by apply glob_one_nil. }
  assert (∀ n q, (length q ≤ n)%nat → parse_glob n q = glob_tokens q) as Hfuel by apply glob_tokens_fuel.
  unfold glob_tokens. cbn [length parse_glob]. rewrite decide_False by done.
  case_decide as H63.
  { rewrite Hfuel by lia. by apply (Hnext TAny). }
  case_decide as H91.
  { set (neg := bool_decide (char0 p1 = 94)). set (p2 := if neg then drop 1 p1 else p1).
    assert (length p2 ≤ length p1)%nat by (unfold p2; destruct neg; [rewrite length_drop; lia|lia]).
    rewrite class_loop_ok. pose proof (parse_class_rest p2). destruct (parse_class p2) as [items p3]. simpl in *.
    rewrite Hfuel by lia. pose proof (Hnext (TClass neg items) p3 ltac:(lia) ltac:(done)) as Hm.
    simpl in Hm. unfold match_next in Hm. by destruct neg, (existsb _ items). }
  case_decide as H92; cbn [length] in *.
  - rewrite Hfuel by (rewrite length_drop; lia).
    apply (Hnext (TLit (char0 p1)) (drop 1 p1)); [rewrite length_drop; lia|done].
  - rewrite Hfuel by lia. by apply (Hnext (TLit a) p1).
Qed.

(** C38. [stringmatchlen] always returns.  On a non-empty string its result is that of the
    reference, so giving up early on the stars never loses a match; the empty string is
    matched by the empty pattern only. *)
Theorem stringmatchlen_correct p s :
  ∃ b, stringmatchlen nocase p s = Some b ∧
    (s ≠ [] → b = true ↔ glob (glob_tokens p) s) ∧ (s = [] → b = true ↔ p = []).
Proof.
  unfold stringmatchlen. destruct s as [|c s].
  - eexists. split; [by destruct p|]. split; [done|]. intros _. by destruct p.
  - destruct (impl_ok (S (length p)) p (c :: s)) as (b & k & -> & Hb & _); [lia|done|]. by exists b.
Qed.

End correct.
