(* ===== verification/Listpack.v ===== *)
(** * listpack.c: lists of strings and integers in one block of memory

A listpack is a block of bytes: a header (total bytes and number of elements), the entries
and an end marker.  An entry is an encoded element followed by the length of the encoding,
written so that it can be read backwards.  A pointer into the block is its offset; an access
outside the block and a failed assertion are [None]. *)

From S2P Require Import Prelude Util.

Local Open Scope Z_scope.

(** ** Data *)

(** What an entry holds, and what [listpackEntry] returns to the caller. *)
Inductive lpval :=
  | VStr (s : bytes)
  | VInt (v : Z).

Global Instance lpval_eq_dec : EqDecision lpval.
Proof. solve_decision. Defined.

Inductive lp_where := LP_BEFORE | LP_AFTER | LP_REPLACE.

Global Instance lp_where_eq_dec : EqDecision lp_where.
Proof. solve_decision. Defined.

(** The element [lpInsert] is called with: [elestr], [eleint] (an encoded integer), or neither. *)
Inductive lp_ele :=
  | EleStr (s : bytes)
  | EleInt (enc : bytes)
  | EleNone.

Definition LP_HDR_SIZE : Z := 6.
Definition LP_HDR_NUMELE_UNKNOWN : Z := 65535.
Definition LP_EOF : Z := 255.
Definition LISTPACK_MAX_SAFETY_SIZE : Z := Z.shiftl 1 30.
Definition LP_INTBUF_SIZE : Z := 21.

(** ** Header *)

Definition lpGetTotalBytes (lp : bytes) : option Z := bs ← mem_read lp 0 4; Some (le_val bs).
Definition lpSetTotalBytes (lp : bytes) (v : Z) : option bytes := mem_write lp 0 (le_bytes 4 v).
Definition lpGetNumElements (lp : bytes) : option Z := bs ← mem_read lp 4 2; Some (le_val bs).
Definition lpSetNumElements (lp : bytes) (v : Z) : option bytes := mem_write lp 4 (le_bytes 2 v).
Definition lpBytes (lp : bytes) : option Z := lpGetTotalBytes lp.

Definition lpSafeToAdd (lp : option bytes) (add : Z) : option bool :=
  len ← (match lp with Some lp => lpGetTotalBytes lp | None => Some 0 end);
  Some (negb (bool_decide (u64 (len + add) > LISTPACK_MAX_SAFETY_SIZE))).

(** The same text as [string2ll] of util.c. *)
Definition lpStringToInt64 (s : bytes) : option Z := string2ll s.

(** ** Encoding *)

(** The bytes are stored one by one, the low byte first. *)
Definition lpEncodeIntegerGetType (v : Z) : bytes :=
  if decide (v >= 0 ∧ v <= 127) then [v]
  else if decide (v >= -4096 ∧ v <= 4095) then
    let v := if decide (v < 0) then Z.shiftl 1 13 + v else v in
    [Z.lor (Z.shiftr v 8) 0xC0; Z.land v 0xff]
  else if decide (v >= -32768 ∧ v <= 32767) then
    let v := if decide (v < 0) then Z.shiftl 1 16 + v else v in
    0xF1 :: le_bytes 2 v
  else if decide (v >= -8388608 ∧ v <= 8388607) then
    let v := if decide (v < 0) then Z.shiftl 1 24 + v else v in
    0xF2 :: le_bytes 3 v
  else if decide (v >= -2147483648 ∧ v <= 2147483647) then
    let v := if decide (v < 0) then Z.shiftl 1 32 + v else v in
    0xF3 :: le_bytes 4 v
  else 0xF4 :: le_bytes 8 (u64 v).

(** The integer encoding of a string that is a number, and [*enclen]. *)
Definition lpEncodeGetType (ele : bytes) : option bytes * Z :=
  match lpStringToInt64 ele with
  | Some v => (Some (lpEncodeIntegerGetType v), zlen (lpEncodeIntegerGetType v))
  | None =>
      let size := zlen ele in
      (None, if decide (size < 64) then 1 + size
             else if decide (size < 4096) then 2 + size else 5 + size)
  end.

Definition lpEncodeBacklen (l : Z) : bytes :=
  if decide (l <= 127) then [l]
  else if decide (l < 16383) then [Z.shiftr l 7; Z.lor (Z.land l 127) 128]
  else if decide (l < 2097151) then
    [Z.shiftr l 14; Z.lor (Z.land (Z.shiftr l 7) 127) 128; Z.lor (Z.land l 127) 128]
  else if decide (l < 268435455) then
    [Z.shiftr l 21; Z.lor (Z.land (Z.shiftr l 14) 127) 128;
     Z.lor (Z.land (Z.shiftr l 7) 127) 128; Z.lor (Z.land l 127) 128]
  else
    [u8 (Z.shiftr l 28); Z.lor (Z.land (Z.shiftr l 21) 127) 128;
     Z.lor (Z.land (Z.shiftr l 14) 127) 128; Z.lor (Z.land (Z.shiftr l 7) 127) 128;
     Z.lor (Z.land l 127) 128].

(** [lpEncodeBacklen(NULL, l)]. *)
Definition lpBacklenSize (l : Z) : Z := zlen (lpEncodeBacklen l).

(** The [do ... while(1)] loop from [p] leftwards; the fifth byte is the last one read. *)
Fixpoint lpDecodeBacklen_loop (fuel : nat) (lp : bytes) (p val shift : Z) : option Z :=
  match fuel with
  | O => None
  | S fuel =>
      b ← mem_get lp p;
      let val := Z.lor val (Z.shiftl (Z.land b 127) shift) in
      if decide (Z.land b 128 = 0) then Some val
      else if decide (shift + 7 > 28) then Some ULLONG_MAX
      else lpDecodeBacklen_loop fuel lp (p - 1) val (shift + 7)
  end.

Definition lpDecodeBacklen (lp : bytes) (p : Z) : option Z := lpDecodeBacklen_loop 5 lp p 0 0.

Definition lpEncodeString (s : bytes) : bytes :=
  let len := zlen s in
  if decide (len < 64) then Z.lor len 0x80 :: s
  else if decide (len < 4096) then Z.lor (Z.shiftr len 8) 0xE0 :: Z.land len 0xff :: s
  else 0xF0 :: le_bytes 4 len ++ s.

(** ** Decoding *)

Definition is_7BIT_UINT (b : Z) : bool := bool_decide (Z.land b 0x80 = 0).
Definition is_6BIT_STR (b : Z) : bool := bool_decide (Z.land b 0xC0 = 0x80).
Definition is_13BIT_INT (b : Z) : bool := bool_decide (Z.land b 0xE0 = 0xC0).
Definition is_12BIT_STR (b : Z) : bool := bool_decide (Z.land b 0xF0 = 0xE0).

Definition LP_12BIT_STR_LEN (lp : bytes) (p : Z) : option Z :=
  b0 ← mem_get lp p;
  b1 ← mem_get lp (p + 1);
  Some (Z.lor (Z.shiftl (Z.land b0 0xF) 8) b1).
Definition LP_32BIT_STR_LEN (lp : bytes) (p : Z) : option Z :=
  bs ← mem_read lp (p + 1) 4; Some (le_val bs).

Definition lpCurrentEncodedSizeUnsafe (lp : bytes) (p : Z) : option Z :=
  b ← mem_get lp p;
  if is_7BIT_UINT b then Some 1
  else if is_6BIT_STR b then Some (1 + Z.land b 0x3F)
  else if is_13BIT_INT b then Some 2
  else if decide (b = 0xF1) then Some 3
  else if decide (b = 0xF2) then Some 4
  else if decide (b = 0xF3) then Some 5
  else if decide (b = 0xF4) then Some 9
  else if is_12BIT_STR b then n ← LP_12BIT_STR_LEN lp p; Some (2 + n)
  else if decide (b = 0xF0) then n ← LP_32BIT_STR_LEN lp p; Some (u32 (5 + n))
  else if decide (b = LP_EOF) then Some 1
  else Some 0.

Definition lpCurrentEncodedSizeBytes (lp : bytes) (p : Z) : option Z :=
  b ← mem_get lp p;
  if is_7BIT_UINT b then Some 1
  else if is_6BIT_STR b then Some 1
  else if is_13BIT_INT b then Some 1
  else if decide (b = 0xF1 ∨ b = 0xF2 ∨ b = 0xF3 ∨ b = 0xF4) then Some 1
  else if is_12BIT_STR b then Some 2
  else if decide (b = 0xF0) then Some 5
  else if decide (b = LP_EOF) then Some 1
  else Some 0.

Definition lpSkip (lp : bytes) (p : Z) : option Z :=
  entrylen ← lpCurrentEncodedSizeUnsafe lp p;
  Some (p + (entrylen + lpBacklenSize entrylen)).

(** [*pp] and [lpbytes]; [Some None] is the result 0, [Some (Some pp)] the result 1 with the
    advanced pointer ([None] for NULL). *)
Definition lpValidateNext (lp : bytes) (pp : option Z) (lpbytes : Z) : option (option (option Z)) :=
  let out_of_range p := bool_decide (p < LP_HDR_SIZE ∨ p > lpbytes - 1) in
  match pp with
  | None => Some None
  | Some p =>
      if out_of_range p then Some None
      else
        b ← mem_get lp p;
        if decide (b = LP_EOF) then Some (Some None)
        else
          lenbytes ← lpCurrentEncodedSizeBytes lp p;
          if decide (lenbytes = 0) then Some None
          else if out_of_range (p + lenbytes) then Some None
          else
            size ← lpCurrentEncodedSizeUnsafe lp p;
            let encodedBacklen := lpBacklenSize size in
            let entrylen := size + encodedBacklen in
            if out_of_range (p + entrylen) then Some None
            else
              let p := p + entrylen in
              prevlen ← lpDecodeBacklen lp (p - 1);
              if decide (u64 (prevlen + encodedBacklen) ≠ entrylen) then Some None
              else Some (Some (Some p))
  end.

Definition lpAssertValidEntry (lp : bytes) (lpbytes p : Z) : option () :=
  r ← lpValidateNext lp (Some p) lpbytes;
  match r with Some _ => Some () | None => None end.

(** ** Traversal: [Some None] is NULL *)

Definition lpNext (lp : bytes) (p : Z) : option (option Z) :=
  p ← lpSkip lp p;
  b ← mem_get lp p;
  if decide (b = LP_EOF) then Some None
  else
    n ← lpBytes lp;
    _ ← lpAssertValidEntry lp n p;
    Some (Some p).

Definition lpPrev (lp : bytes) (p : Z) : option (option Z) :=
  if decide (p = LP_HDR_SIZE) then Some None
  else
    let p := p - 1 in
    prevlen ← lpDecodeBacklen lp p;
    let prevlen := u64 (prevlen + lpBacklenSize prevlen) in
    let p := p - (prevlen - 1) in
    n ← lpBytes lp;
    _ ← lpAssertValidEntry lp n p;
    Some (Some p).

Definition lpFirst (lp : bytes) : option (option Z) :=
  let p := LP_HDR_SIZE in
  b ← mem_get lp p;
  if decide (b = LP_EOF) then Some None
  else
    n ← lpBytes lp;
    _ ← lpAssertValidEntry lp n p;
    Some (Some p).

Definition lpLast (lp : bytes) : option (option Z) :=
  n ← lpGetTotalBytes lp;
  lpPrev lp (n - 1).

(** [while(p) { count++; p = lpNext(lp,p); }]: an entry has at least two bytes. *)
Fixpoint lpLength_loop (fuel : nat) (lp : bytes) (p : option Z) (count : Z) : option Z :=
  match p with
  | None => Some count
  | Some q =>
      match fuel with
      | O => None
      | S fuel => p ← lpNext lp q; lpLength_loop fuel lp p (u32 (count + 1))
      end
  end.

(** The block may be changed: the number of elements is cached. *)
Definition lpLength (lp : bytes) : option (bytes * Z) :=
  numele ← lpGetNumElements lp;
  if decide (numele ≠ LP_HDR_NUMELE_UNKNOWN) then Some (lp, numele)
  else
    p ← lpFirst lp;
    count ← lpLength_loop (length lp) lp p 0;
    lp ← (if decide (count < LP_HDR_NUMELE_UNKNOWN) then lpSetNumElements lp count else Some lp);
    Some (lp, count).

(** ** Access *)

(** Two's complement with the bounds of the encoding. *)
Definition lp_signed (uval negstart negmax : Z) : Z :=
  if decide (uval >= negstart) then
    let uval := u64 (negmax - uval) in
    - s64 uval - 1
  else s64 uval.

(** The element at [p] and [*entry_size]; a string is the bytes the returned pointer and
    [*count] delimit.  The size is not set for an unknown encoding. *)
Definition lpGetWithSize (lp : bytes) (p : Z) : option (lpval * option Z) :=
  b ← mem_get lp p;
  let int n negstart negmax entry_size :=
    bs ← mem_read lp (p + 1) n;
    Some (VInt (lp_signed (le_val bs) negstart negmax), Some entry_size) in
  let string off count :=
    s ← mem_read lp (p + off) count;
    Some (VStr s, Some (off + count + lpBacklenSize (count + off))) in
  if is_7BIT_UINT b then Some (VInt (lp_signed (Z.land b 0x7f) ULLONG_MAX 0), Some 2)
  else if is_6BIT_STR b then string 1 (Z.land b 0x3F)
  else if is_13BIT_INT b then
    b1 ← mem_get lp (p + 1);
    Some (VInt (lp_signed (Z.lor (Z.shiftl (Z.land b 0x1f) 8) b1) (Z.shiftl 1 12) 8191), Some 3)
  else if decide (b = 0xF1) then int 2 (Z.shiftl 1 15) 65535 4
  else if decide (b = 0xF2) then int 3 (Z.shiftl 1 23) (Z.shiftr UINT32_MAX 8) 5
  else if decide (b = 0xF3) then int 4 (Z.shiftl 1 31) UINT32_MAX 6
  else if decide (b = 0xF4) then int 8 (Z.shiftl 1 63) ULLONG_MAX 10
  else if is_12BIT_STR b then n ← LP_12BIT_STR_LEN lp p; string 2 n
  else if decide (b = 0xF0) then n ← LP_32BIT_STR_LEN lp p; string 5 n
  else Some (VInt (12345678900000000 + b), None).

(** [lpGet] without a buffer, [lpGetValue]. *)
Definition lpGet (lp : bytes) (p : Z) : option lpval := fst <$> lpGetWithSize lp p.

(** [lpGet] with a buffer: the element as a string. *)
Definition lpGet_intbuf (lp : bytes) (p : Z) (intbuf : bytes) : option bytes :=
  v ← lpGet lp p;
  match v with
  | VStr s => Some s
  | VInt n => '(buf, len) ← ll2string intbuf n; Some (take (Z.to_nat len) buf)
  end.

Definition is_str (v : lpval) : bool := match v with VStr _ => true | VInt _ => false end.

(** [vencoding] of [lpFind]: the searched string as an integer. *)
Definition lp_find_int (s : bytes) : option Z :=
  if decide (zlen s >= 32 ∨ zlen s = 0) then None else lpStringToInt64 s.

(** [slen == ll && memcmp(value, s, slen) == 0], or equality of integers. *)
Definition lp_find_match (v : lpval) (s : bytes) : bool :=
  match v with
  | VStr t => bool_decide (t = s)
  | VInt n => bool_decide (lp_find_int s = Some n)
  end.

(** The loop of [lpFind]; every round passes an entry of at least two bytes.  [entry_size]
    keeps its value when [lpGetWithSize] does not set it. *)
Fixpoint lpFind_loop (fuel : nat) (lp : bytes) (lp_bytes p : Z) (s : bytes) (skip skipcnt entry_size : Z)
    : option (option Z) :=
  match fuel with
  | O => None
  | S fuel =>
      '(found, next, skipcnt, entry_size) ←
        (if decide (skipcnt = 0) then
           '(v, set_size) ← lpGetWithSize lp p;
           let entry_size := default entry_size set_size in
           if decide (is_str v = true ∧ ¬ (p >= LP_HDR_SIZE ∧ p + entry_size < lp_bytes)) then None
           else Some (lp_find_match v s, p + entry_size, skip, entry_size)
         else q ← lpSkip lp p; Some (false, q, skipcnt - 1, entry_size));
      if found : bool then Some (Some p)
      else
        _ ← (if decide (next + 8 >= lp_bytes) then lpAssertValidEntry lp lp_bytes next
             else if decide (next >= LP_HDR_SIZE ∧ next < lp_bytes) then Some () else None);
        b ← mem_get lp next;
        if decide (b = LP_EOF) then Some None
        else lpFind_loop fuel lp lp_bytes next s skip skipcnt entry_size
  end.

Definition lpFind (lp : bytes) (p : Z) (s : bytes) (skip : Z) : option (option Z) :=
  n ← lpBytes lp;
  lpFind_loop (length lp) lp n p s skip 0 123456789.

Definition lpCompare (lp : bytes) (p : Z) (s : bytes) : option bool :=
  b ← mem_get lp p;
  if decide (b = LP_EOF) then Some false
  else
    v ← lpGet lp p;
    Some (match v with
          | VStr t => bool_decide (t = s)
          | VInt n => match lpStringToInt64 s with Some v => bool_decide (n = v) | None => false end
          end).

Fixpoint lpSeek_forward (fuel : nat) (lp : bytes) (ele : option Z) (index : Z) : option (option Z) :=
  match ele with
  | None => Some None
  | Some p =>
      if decide (index > 0) then
        match fuel with
        | O => None
        | S fuel => ele ← lpNext lp p; lpSeek_forward fuel lp ele (index - 1)
        end
      else Some (Some p)
  end.

Fixpoint lpSeek_backward (fuel : nat) (lp : bytes) (ele : option Z) (index : Z) : option (option Z) :=
  match ele with
  | None => Some None
  | Some p =>
      if decide (index < -1) then
        match fuel with
        | O => None
        | S fuel => ele ← lpPrev lp p; lpSeek_backward fuel lp ele (index + 1)
        end
      else Some (Some p)
  end.

Definition lpSeek (lp : bytes) (index : Z) : option (option Z) :=
  numele ← lpGetNumElements lp;
  let forward_from index := ele ← lpFirst lp; lpSeek_forward (length lp) lp ele index in
  let backward_from index := ele ← lpLast lp; lpSeek_backward (length lp) lp ele index in
  if decide (numele ≠ LP_HDR_NUMELE_UNKNOWN) then
    let index := if decide (index < 0) then numele + index else index in
    if decide (index < 0) then Some None
    else if decide (index >= numele) then Some None
    else if decide (index > numele / 2) then backward_from (index - numele)
    else forward_from index
  else if decide (index < 0) then backward_from index
  else forward_from index.

(** ** Modification *)

Section modification.

(** The bytes [lp_realloc] returns beyond the old size. *)
Context (junk : nat → Z).

Definition lpNew (capacity : Z) : option bytes :=
  let lp := mem_realloc junk [] (if decide (capacity > LP_HDR_SIZE + 1) then capacity else LP_HDR_SIZE + 1) in
  lp ← lpSetTotalBytes lp (LP_HDR_SIZE + 1);
  lp ← lpSetNumElements lp 0;
  mem_write lp LP_HDR_SIZE [LP_EOF].

(** [lp_malloc_size] is the size of the block. *)
Definition lpShrinkToFit (lp : bytes) : option bytes :=
  size ← lpGetTotalBytes lp;
  Some (if decide (size < zlen lp) then mem_realloc junk lp size else lp).

(** The encoded element and its length as [lpInsert] computes it ([enclen]). *)
Definition lp_encode_ele (ele : lp_ele) : bytes * Z :=
  match ele with
  | EleStr s =>
      match lpEncodeGetType s with
      | (Some intenc, enclen) => (intenc, enclen)
      | (None, enclen) => (lpEncodeString s, enclen)
      end
  | EleInt enc => (enc, zlen enc)
  | EleNone => ([], 0)
  end.

(** ASSERT_INTEGRITY and ASSERT_INTEGRITY_LEN. *)
Definition assert_integrity (lp : bytes) (p len : Z) : option () :=
  n ← lpGetTotalBytes lp;
  if decide (p >= LP_HDR_SIZE ∧ p + len < n) then Some () else None.

(** The update of the number of elements. *)
Definition lp_update_num (lp : bytes) (f : Z → Z) : option bytes :=
  n ← lpGetNumElements lp;
  if decide (n ≠ LP_HDR_NUMELE_UNKNOWN) then lpSetNumElements lp (f n) else Some lp.

(** The second half of [lpInsert]: make room or close the gap, store the entry and update the
    header.  [count] tells whether the number of elements changes.  [Some None] is NULL: the
    listpack would be too long.  The result is the block and [*newp]. *)
Definition lpInsert_store (lp : bytes) (delete count : bool) (enc : bytes) (enclen : Z)
    (backlen : bytes) (poff replaced_len : Z) : option (option (bytes * option Z)) :=
  let backlen_size := zlen backlen in
  old_listpack_bytes ← lpGetTotalBytes lp;
  let new_listpack_bytes := u64 (old_listpack_bytes + enclen + backlen_size - replaced_len) in
  if decide (new_listpack_bytes > UINT32_MAX) then Some None
  else
    let lp := if decide (new_listpack_bytes > old_listpack_bytes ∧ new_listpack_bytes > zlen lp)
              then mem_realloc junk lp new_listpack_bytes else lp in
    lp ← mem_move lp (poff + enclen + backlen_size) (poff + replaced_len)
           (old_listpack_bytes - poff - replaced_len);
    let lp := if decide (new_listpack_bytes < old_listpack_bytes)
              then mem_realloc junk lp new_listpack_bytes else lp in
    b ← mem_get lp poff;
    let newp := if decide (delete = true ∧ b = LP_EOF) then None else Some poff in
    lp ← (if delete then Some lp
          else lp ← mem_write lp poff enc; mem_write lp (poff + enclen) backlen);
    lp ← (if count then lp_update_num lp (λ n, if delete then n - 1 else n + 1) else Some lp);
    lp ← lpSetTotalBytes lp new_listpack_bytes;
    Some (Some (lp, newp)).

(** The bytes of the element that [LP_REPLACE] replaces. *)
Definition lpReplacedLen (lp : bytes) (p : Z) : option Z :=
  n ← lpCurrentEncodedSizeUnsafe lp p;
  let n := u32 (n + lpBacklenSize n) in
  _ ← assert_integrity lp p n;
  Some n.

Definition lpInsert (lp : bytes) (ele : lp_ele) (p : Z) (where_ : lp_where)
    : option (option (bytes * option Z)) :=
  let delete := match ele with EleNone => true | _ => false end in
  let where_ := if delete then LP_REPLACE else where_ in
  '(p, where_) ←
    (match where_ with
     | LP_AFTER => p ← lpSkip lp p; _ ← assert_integrity lp p 0; Some (p, LP_BEFORE)
     | _ => Some (p, where_)
     end);
  let '(enc, enclen) := lp_encode_ele ele in
  let backlen := if delete then [] else lpEncodeBacklen enclen in
  replaced_len ← (match where_ with LP_REPLACE => lpReplacedLen lp p | _ => Some 0 end);
  lpInsert_store lp delete (bool_decide (where_ ≠ LP_REPLACE ∨ delete = true)) enc enclen backlen
    p replaced_len.

Definition lpInsertString (lp s : bytes) (p : Z) (where_ : lp_where) := lpInsert lp (EleStr s) p where_.
Definition lpInsertInteger (lp : bytes) (lval p : Z) (where_ : lp_where) :=
  lpInsert lp (EleInt (lpEncodeIntegerGetType lval)) p where_.

(** The wrappers that do not return [*newp]. *)
Definition without_newp (r : option (option (bytes * option Z))) : option (option bytes) :=
  match r with
  | None => None
  | Some r => Some (match r with Some (lp, _) => Some lp | None => None end)
  end.

Definition lpAppend (lp ele : bytes) : option (option bytes) :=
  listpack_bytes ← lpGetTotalBytes lp;
  without_newp (lpInsert lp (EleStr ele) (listpack_bytes - 1) LP_BEFORE).
Definition lpAppendInteger (lp : bytes) (lval : Z) : option (option bytes) :=
  listpack_bytes ← lpGetTotalBytes lp;
  without_newp (lpInsertInteger lp lval (listpack_bytes - 1) LP_BEFORE).
Definition lpPrepend (lp s : bytes) : option (option bytes) :=
  p ← lpFirst lp;
  match p with
  | None => lpAppend lp s
  | Some p => without_newp (lpInsert lp (EleStr s) p LP_BEFORE)
  end.
Definition lpPrependInteger (lp : bytes) (lval : Z) : option (option bytes) :=
  p ← lpFirst lp;
  match p with
  | None => lpAppendInteger lp lval
  | Some p => without_newp (lpInsertInteger lp lval p LP_BEFORE)
  end.
Definition lpReplace (lp : bytes) (p : Z) (s : bytes) := lpInsert lp (EleStr s) p LP_REPLACE.
Definition lpReplaceInteger (lp : bytes) (p lval : Z) := lpInsertInteger lp lval p LP_REPLACE.
Definition lpDelete (lp : bytes) (p : Z) := lpInsert lp EleNone p LP_REPLACE.

(** [while (num--)]: the entries passed and where the tail starts. *)
Fixpoint lpDeleteRange_loop (fuel : nat) (lp : bytes) (lpbytes tail num deleted : Z) : option (Z * Z) :=
  match fuel with
  | O => None
  | S fuel =>
      if decide (num = 0) then Some (tail, deleted)
      else
        tail ← lpSkip lp tail;
        b ← mem_get lp tail;
        if decide (b = LP_EOF) then Some (tail, deleted + 1)
        else
          _ ← lpAssertValidEntry lp lpbytes tail;
          lpDeleteRange_loop fuel lp lpbytes tail (num - 1) (deleted + 1)
  end.

Definition lpDeleteRangeWithEntry (lp : bytes) (p num : Z) : option (bytes * option Z) :=
  n ← lpBytes lp;
  if decide (num = 0) then Some (lp, Some p)
  else
    let eofptr := n - 1 in
    '(tail, deleted) ← lpDeleteRange_loop (S (length lp)) lp n p num 0;
    lp ← mem_move lp p tail (eofptr - tail + 1);
    lp ← lpSetTotalBytes lp (n - (tail - p));
    lp ← lp_update_num lp (λ n, n - deleted);
    lp ← lpShrinkToFit lp;
    b ← mem_get lp p;
    Some (lp, if decide (b = LP_EOF) then None else Some p).

Definition lpDeleteRange (lp : bytes) (index num : Z) : option bytes :=
  numele ← lpGetNumElements lp;
  if decide (num = 0) then Some lp
  else
    p ← lpSeek lp index;
    match p with
    | None => Some lp
    | Some p =>
        let index := if decide (numele ≠ LP_HDR_NUMELE_UNKNOWN ∧ index < 0)
                     then numele + index else index in
        if decide (numele ≠ LP_HDR_NUMELE_UNKNOWN ∧ u64 (numele - u64 index) <= num) then
          lp ← mem_write lp p [LP_EOF];
          lp ← lpSetTotalBytes lp (p + 1);
          lp ← lpSetNumElements lp index;
          lpShrinkToFit lp
        else fst <$> lpDeleteRangeWithEntry lp p num
    end.

(** The loop of [lpBatchDelete] over the pointers from [ps] on. *)
Fixpoint lpBatchDelete_loop (lp : bytes) (lp_end dst : Z) (ps : list Z) : option (bytes * Z) :=
  match ps with
  | [] => Some (lp, dst)
  | skip :: ps =>
      b ← mem_get lp skip;
      if decide (b = LP_EOF) then None
      else
        keep_start ← lpSkip lp skip;
        let keep_end := match ps with next :: _ => next | [] => lp_end end in
        if decide (ps ≠ [] ∧ keep_start = keep_end) then lpBatchDelete_loop lp lp_end dst ps
        else if decide (keep_end > keep_start) then
          lp ← mem_move lp dst keep_start (keep_end - keep_start);
          lpBatchDelete_loop lp lp_end (dst + (keep_end - keep_start)) ps
        else None
  end.

Definition lpBatchDelete (lp : bytes) (ps : list Z) : option bytes :=
  match ps with
  | [] => Some lp
  | dst :: _ =>
      total_bytes ← lpGetTotalBytes lp;
      let lp_end := total_bytes in
      b ← mem_get lp (lp_end - 1);
      if decide (b ≠ LP_EOF) then None
      else
        '(lp, dst) ← lpBatchDelete_loop lp lp_end dst ps;
        let total_bytes := total_bytes - (lp_end - dst) in
        b ← mem_get lp (total_bytes - 1);
        if decide (b ≠ LP_EOF) then None
        else
          lp ← lpSetTotalBytes lp total_bytes;
          lp ← lp_update_num lp (λ n, n - zlen ps);
          lpShrinkToFit lp
  end.

(** The two listpacks are different blocks.  The merged one replaces the larger; the other
    is freed. *)
Definition lpMerge (first second : bytes) : option bytes :=
  first_bytes ← lpBytes first;
  '(first, first_len) ← lpLength first;
  second_bytes ← lpBytes second;
  '(second, second_len) ← lpLength second;
  let append := bool_decide (first_bytes >= second_bytes) in
  let '(target, target_bytes, source, source_bytes) :=
    if append then (first, first_bytes, second, second_bytes)
    else (second, second_bytes, first, first_bytes) in
  let lpbytes := first_bytes + second_bytes - LP_HDR_SIZE - 1 in
  if decide (lpbytes < UINT32_MAX) then
    let lplength := first_len + second_len in
    let lplength := if decide (lplength < 65535) then lplength else 65535 in
    let target := mem_realloc junk target lpbytes in
    target ←
      (if append then
         s ← mem_read source LP_HDR_SIZE (source_bytes - LP_HDR_SIZE);
         mem_write target (target_bytes - 1) s
       else
         target ← mem_move target (source_bytes - 1) LP_HDR_SIZE (target_bytes - LP_HDR_SIZE);
         s ← mem_read source 0 (source_bytes - 1);
         mem_write target 0 s);
    target ← lpSetNumElements target lplength;
    lpSetTotalBytes target lpbytes
  else None.

End modification.

Definition lpDup (lp : bytes) : option bytes := n ← lpBytes lp; mem_read lp 0 n.

Definition lpEstimateBytesRepeatedInteger (lval rep : Z) : Z :=
  let enclen := zlen (lpEncodeIntegerGetType lval) in
  LP_HDR_SIZE + (enclen + lpBacklenSize enclen) * rep + 1.

(** ** Validation *)

(** The loop over the entries: where it stops and how many there are; without them it is the
    result 0.  The entry callback is [None] when it is NULL; otherwise it gets the entry, the number
    of elements of the header and the data of the caller. *)
Fixpoint lpValidate_loop {A} (fuel : nat) (lp : bytes) (size numele : Z) (entry_cb : option (Z → Z → A → option (A * bool)))
    (p count : Z) (cb_userdata : A) : option (A * option (option Z * Z)) :=
  match fuel with
  | O => None
  | S fuel =>
      b ← mem_get lp p;
      if decide (b = LP_EOF) then Some (cb_userdata, Some (Some p, count))
      else
        r ← lpValidateNext lp (Some p) size;
        match r with
        | None => Some (cb_userdata, None)
        | Some q =>
            '(cb_userdata, ok) ← (match entry_cb with Some f => f p numele cb_userdata | None => Some (cb_userdata, true) end);
            if negb ok then Some (cb_userdata, None)
            else match q with
                 | None => Some (cb_userdata, Some (None, u32 (count + 1)))
                 | Some q => lpValidate_loop fuel lp size numele entry_cb q (u32 (count + 1)) cb_userdata
                 end
        end
  end.

(** The data of the caller and the result. *)
Definition lpValidateIntegrity {A} (lp : bytes) (deep : bool) (entry_cb : option (Z → Z → A → option (A * bool))) (cb_userdata : A)
    : option (A * bool) :=
  let size := zlen lp in
  if decide (size < LP_HDR_SIZE + 1) then Some (cb_userdata, false)
  else
    n ← lpGetTotalBytes lp;
    if decide (n ≠ size) then Some (cb_userdata, false)
    else
      b ← mem_get lp (size - 1);
      if decide (b ≠ LP_EOF) then Some (cb_userdata, false)
      else if negb deep then Some (cb_userdata, true)
      else
        numele ← lpGetNumElements lp;
        '(cb_userdata, r) ← lpValidate_loop (length lp) lp n numele entry_cb LP_HDR_SIZE 0 cb_userdata;
        match r with
        | None => Some (cb_userdata, false)
        | Some (p, count) =>
            if decide (p ≠ Some (size - 1)) then Some (cb_userdata, false)
            else if decide (numele ≠ LP_HDR_NUMELE_UNKNOWN ∧ numele ≠ count) then Some (cb_userdata, false)
            else Some (cb_userdata, true)
        end.
