(* ===== verification/ListpackEnc.v ===== *)
(** * listpack.c: encoding and decoding of entries *)

From S2P Require Import Prelude Util Listpack.

Local Open Scope Z_scope.

(** ** Entries *)

Definition enc (v : lpval) : bytes :=
  match v with VStr s => lpEncodeString s | VInt n => lpEncodeIntegerGetType n end.

(** The encoded element and the length that is read backwards. *)
Definition entry (v : lpval) : bytes := enc v ++ lpEncodeBacklen (zlen (enc v)).

Definition val_ok (v : lpval) : Prop :=
  match v with VStr s => zlen s < 2 ^ 32 - 16 | VInt n => in_srange 64 n end.

(** ** First bytes *)

(** What the first byte of an entry says. *)
Record first_byte (b : Z) (is7 is6 is13 is12 : bool) : Prop := {
  fb_7 : is_7BIT_UINT b = is7;
  fb_6 : is_6BIT_STR b = is6;
  fb_13 : is_13BIT_INT b = is13;
  fb_12 : is_12BIT_STR b = is12;
  fb_eof : b ≠ LP_EOF;
}.

Definition first_byteb (b : Z) (is7 is6 is13 is12 : bool) : bool :=
  eqb (is_7BIT_UINT b) is7 && eqb (is_6BIT_STR b) is6 && eqb (is_13BIT_INT b) is13 &&
  eqb (is_12BIT_STR b) is12 && negb (bool_decide (b = LP_EOF)).

Lemma first_byteb_ok b i7 i6 i13 i12 : first_byteb b i7 i6 i13 i12 = true → first_byte b i7 i6 i13 i12.
Proof.
  unfold first_byteb. rewrite !andb_true_iff, !eqb_true_iff, negb_true_iff, bool_decide_eq_false.
  intros [[[[? ?] ?] ?] ?]. by split.
Qed.

Lemma first_uint7 v : 0 ≤ v < 128 → first_byte v true false false false ∧ Z.land v 0x7f = v.
Proof.
  intros Hv. pose proof (forall_below 128 (λ v, first_byteb v true false false false &&
    (Z.land v 0x7f =? v)) ltac:(vm_compute; reflexivity) v Hv) as Hb.
  apply andb_true_iff in Hb as [? ?]. split; [by apply first_byteb_ok|lia].
Qed.

Lemma first_str6 n :
  0 ≤ n < 64 → first_byte (Z.lor n 0x80) false true false false ∧ Z.land (Z.lor n 0x80) 0x3F = n.
Proof.
  intros Hv. pose proof (forall_below 64 (λ n, first_byteb (Z.lor n 0x80) false true false false &&
    (Z.land (Z.lor n 0x80) 0x3F =? n)) ltac:(vm_compute; reflexivity) n Hv) as Hb.
  apply andb_true_iff in Hb as [? ?]. split; [by apply first_byteb_ok|lia].
Qed.

Lemma first_int13 n :
  0 ≤ n < 32 → first_byte (Z.lor n 0xC0) false false true false ∧ Z.land (Z.lor n 0xC0) 0x1f = n.
Proof.
  intros Hv. pose proof (forall_below 32 (λ n, first_byteb (Z.lor n 0xC0) false false true false &&
    (Z.land (Z.lor n 0xC0) 0x1f =? n)) ltac:(vm_compute; reflexivity) n Hv) as Hb.
  apply andb_true_iff in Hb as [? ?]. split; [by apply first_byteb_ok|lia].
Qed.

Lemma first_str12 n :
  0 ≤ n < 16 → first_byte (Z.lor n 0xE0) false false false true ∧ Z.land (Z.lor n 0xE0) 0xF = n ∧
               Z.lor n 0xE0 < 0xF0.
Proof.
  intros Hv. pose proof (forall_below 16 (λ n, first_byteb (Z.lor n 0xE0) false false false true &&
    ((Z.land (Z.lor n 0xE0) 0xF =? n) && (Z.lor n 0xE0 <? 0xF0))) ltac:(vm_compute; reflexivity) n Hv) as Hb.
  apply andb_true_iff in Hb as [? ?]. split; [by apply first_byteb_ok|lia].
Qed.

Lemma first_int b : b ∈ [0xF0; 0xF1; 0xF2; 0xF3; 0xF4] → first_byte b false false false false.
Proof.
  intros Hb. apply first_byteb_ok.
  repeat (apply elem_of_cons in Hb as [->|Hb]; [reflexivity|]). by apply not_elem_of_nil in Hb.
Qed.

(** ** Integers *)

Lemma lp_signed_ok w v :
  0 < w ≤ 64 → in_srange w v → lp_signed (uwrap w v) (2 ^ (w - 1)) (2 ^ w - 1) = v.
Proof.
  intros Hw Hv. unfold in_srange in Hv. unfold lp_signed, uwrap.
  assert (2 ^ w = 2 * 2 ^ (w - 1)) as Hp by (rewrite <- Z.pow_succ_r by lia; f_equal; lia).
  assert (2 ^ w ≤ 2 ^ 64) by (apply Z.pow_le_mono_r; lia).
  assert (0 < 2 ^ (w - 1)) by (apply Z.pow_pos_nonneg; lia).
  destruct (decide (v < 0)).
  - assert (v mod 2 ^ w = v + 2 ^ w) as ->.
    { symmetry. apply (Z.mod_unique_pos _ _ (-1)); lia. }
    rewrite decide_True by lia. rewrite (Z.mod_small _ (2 ^ 64)) by lia.
    rewrite swrap_small; [lia|lia|range_lia].
  - rewrite Z.mod_small by lia. rewrite decide_False by lia. rewrite swrap_small; [done|lia|range_lia].
Qed.

(** The wrap-around the encoder applies to a negative number. *)
Lemma wrap_negative w v :
  0 < w → in_srange w v → (if decide (v < 0) then Z.shiftl 1 w + v else v) = uwrap w v.
Proof.
  intros Hw Hv. unfold in_srange in Hv. unfold uwrap. rewrite Z.shiftl_1_l.
  assert (2 ^ w = 2 * 2 ^ (w - 1)) as Hp by (rewrite <- Z.pow_succ_r by lia; f_equal; lia).
  case_decide; [|rewrite Z.mod_small; lia].
  apply (Z.mod_unique_pos _ _ (-1)); lia.
Qed.

(** ** Reading an entry *)

(** The entry at [p] reads as [v]. *)
Record read_ok (lp : bytes) (p : Z) (v : lpval) : Prop := {
  ro_byte : ∃ b, mem_get lp p = Some b ∧ b ≠ LP_EOF;
  ro_unsafe : lpCurrentEncodedSizeUnsafe lp p = Some (zlen (enc v));
  ro_bytes : ∃ n, lpCurrentEncodedSizeBytes lp p = Some n ∧ 1 ≤ n ≤ zlen (enc v);
  ro_get : lpGetWithSize lp p = Some (v, Some (zlen (enc v) + lpBacklenSize (zlen (enc v))));
}.

(** Rewrites with what is known of the first byte. *)
Ltac first_byte_simpl H :=
  destruct H as [H7 H6 H13 H12 Heof];
  unfold lpCurrentEncodedSizeUnsafe, lpCurrentEncodedSizeBytes, lpGetWithSize;
  rewrite ?mem_get_here; bind_simpl; rewrite ?H7, ?H6, ?H13, ?H12.

Lemma read_str6 pre s post :
  zlen s < 64 → read_ok (pre ++ lpEncodeString s ++ post) (zlen pre) (VStr s).
Proof.
  intros Hs. destruct (first_str6 (zlen s) ltac:(lia)) as [Hb Hn].
  assert (enc (VStr s) = Z.lor (zlen s) 0x80 :: s) as He by (simpl; unfold lpEncodeString; by rewrite decide_True).
  change (lpEncodeString s) with (enc (VStr s)). rewrite He in *. rewrite <- app_comm_cons.
  split; rewrite ?He; first_byte_simpl Hb; cbn [length].
  - eauto.
  - rewrite Hn. f_equal. lia.
  - exists 1. split; [done|lia].
  - rewrite Hn, mem_read_suffix, mem_read_cons1 by done. bind_simpl.
    repeat f_equal; lia.
Qed.

Lemma read_str12 pre s post :
  64 ≤ zlen s < 4096 → read_ok (pre ++ lpEncodeString s ++ post) (zlen pre) (VStr s).
Proof.
  intros Hs. destruct (first_str12 (Z.shiftr (zlen s) 8)) as (Hb & Hn & Hlt).
  { rewrite Z.shiftr_div_pow2 by lia. split; [apply Z.div_pos; lia|apply Z.div_lt_upper_bound; lia]. }
  assert (enc (VStr s) = Z.lor (Z.shiftr (zlen s) 8) 0xE0 :: Z.land (zlen s) 0xff :: s) as He.
  { simpl; unfold lpEncodeString. by rewrite decide_False, decide_True by lia. }
  change (lpEncodeString s) with (enc (VStr s)). rewrite He in *. rewrite <- !app_comm_cons.
  assert (∀ lp, lp = pre ++ Z.lor (Z.shiftr (zlen s) 8) 224 :: Z.land (zlen s) 255 :: s ++ post →
    LP_12BIT_STR_LEN lp (zlen pre) = Some (zlen s)) as Hlen.
  { intros lp ->. unfold LP_12BIT_STR_LEN. rewrite mem_get_here. bind_simpl.
    rewrite mem_get_suffix, mem_get_cons1 by lia. bind_simpl.
    by rewrite Hn, hi_lo. }
  split; rewrite ?He; first_byte_simpl Hb; cbn [length]; rewrite ?decide_False by lia.
  - eauto.
  - rewrite Hlen by done. bind_simpl. f_equal. lia.
  - exists 2. split; [done|lia].
  - rewrite Hlen by done. bind_simpl.
    rewrite mem_read_suffix, mem_read_cons2 by done. bind_simpl.
    repeat f_equal; lia.
Qed.

Lemma read_str32 pre s post :
  4096 ≤ zlen s < 2 ^ 32 - 16 → read_ok (pre ++ lpEncodeString s ++ post) (zlen pre) (VStr s).
Proof.
  intros Hs. pose proof (first_int 0xF0 ltac:(set_solver)) as Hb.
  assert (enc (VStr s) = 0xF0 :: le_bytes 4 (zlen s) ++ s) as He.
  { simpl; unfold lpEncodeString. by rewrite !decide_False by lia. }
  pose proof (le_bytes_length 4 (zlen s) ltac:(lia)) as H4.
  change (lpEncodeString s) with (enc (VStr s)). rewrite He in *. rewrite <- app_comm_cons, <- app_assoc.
  assert (∀ lp, lp = pre ++ 240 :: le_bytes 4 (zlen s) ++ s ++ post →
    LP_32BIT_STR_LEN lp (zlen pre) = Some (zlen s)) as Hlen.
  { intros lp ->. unfold LP_32BIT_STR_LEN.
    rewrite mem_read_suffix, mem_read_cons1 by done.
    bind_simpl. rewrite le_val_bytes, uwrap_small by range_lia. done. }
  split; rewrite ?He; first_byte_simpl Hb; cbn [length]; rewrite ?length_app.
  - eauto.
  - rewrite Hlen by done. bind_simpl. rewrite uwrap_small by range_lia. f_equal. lia.
  - exists 5. split; [done|lia].
  - rewrite !(decide_False (P := 0xF0 = _)), decide_True, Hlen by done. bind_simpl.
    rewrite mem_read_suffix by lia.
    change (0xF0 :: le_bytes 4 (zlen s) ++ s ++ post) with ((0xF0 :: le_bytes 4 (zlen s)) ++ s ++ post).
    rewrite mem_read_mid by (cbn [length]; lia). bind_simpl.
    replace (Z.of_nat (S (length (le_bytes 4 (zlen s)) + length s))) with (zlen s + 5) by lia.
    do 3 f_equal. lia.
Qed.

Lemma read_int7 pre n post :
  0 ≤ n < 128 → read_ok (pre ++ n :: post) (zlen pre) (VInt n).
Proof.
  intros Hn. destruct (first_uint7 n Hn) as [Hb Hl].
  assert (enc (VInt n) = [n]) as He by (simpl; unfold lpEncodeIntegerGetType; by rewrite decide_True by lia).
  split; rewrite ?He; first_byte_simpl Hb.
  - eauto.
  - done.
  - exists 1. split; [done|simpl; lia].
  - rewrite Hl. do 3 f_equal. unfold lp_signed. rewrite decide_False, swrap_small by range_lia. done.
Qed.

Lemma read_int13 pre n post :
  -4096 ≤ n ≤ 4095 → ¬ 0 ≤ n < 128 → read_ok (pre ++ enc (VInt n) ++ post) (zlen pre) (VInt n).
Proof.
  intros Hn Hn'. set (u := uwrap 13 n).
  assert (0 ≤ u < 8192) as Hu by (apply (uwrap_range 13 n); lia).
  destruct (first_int13 (Z.shiftr u 8)) as [Hb Hl].
  { rewrite Z.shiftr_div_pow2 by lia. split; [apply Z.div_pos; lia|apply Z.div_lt_upper_bound; lia]. }
  assert (enc (VInt n) = [Z.lor (Z.shiftr u 8) 0xC0; Z.land u 0xff]) as He.
  { simpl. unfold lpEncodeIntegerGetType. rewrite decide_False, decide_True by lia.
    rewrite (wrap_negative 13) by range_lia. done. }
  rewrite He in *. rewrite <- app_comm_cons.
  split; rewrite ?He; first_byte_simpl Hb.
  - eauto.
  - done.
  - exists 1. split; [done|simpl; lia].
  - rewrite mem_get_suffix, <- app_comm_cons, mem_get_cons1 by lia. bind_simpl.
    rewrite Hl, hi_lo. do 3 f_equal. apply (lp_signed_ok 13); [lia|range_lia].
Qed.

(** The encodings with a byte [b] and [k] bytes in two's complement. *)
Lemma read_int_bytes pre n post b k :
  (b, k) ∈ [(0xF1, 2); (0xF2, 3); (0xF3, 4); (0xF4, 8)] → in_srange (k * 8) n →
  enc (VInt n) = b :: le_bytes k n → read_ok (pre ++ enc (VInt n) ++ post) (zlen pre) (VInt n).
Proof.
  intros Hbk Hn He.
  assert (first_byte b false false false false) as Hb.
  { apply first_int. repeat (apply elem_of_cons in Hbk as [[= -> ->]|Hbk]; [set_solver|]).
    by apply not_elem_of_nil in Hbk. }
  assert (0 < k) as Hk.
  { repeat (apply elem_of_cons in Hbk as [[= -> ->]|Hbk]; [lia|]). by apply not_elem_of_nil in Hbk. }
  pose proof (le_bytes_length k n ltac:(lia)) as Hlk.
  rewrite He in *. rewrite <- app_comm_cons.
  assert (mem_read (pre ++ b :: le_bytes k n ++ post) (zlen pre + 1) k = Some (le_bytes k n)) as Hrd.
  { rewrite mem_read_suffix by lia. by apply mem_read_cons1. }
  pose proof (lp_signed_ok (k * 8) n) as Hsg. rewrite <- le_val_bytes in Hsg by lia.
  split; rewrite ?He; first_byte_simpl Hb; cbn [length].
  - eauto.
  - repeat (apply elem_of_cons in Hbk as [[= -> ->]|Hbk]; [simpl; f_equal; lia|]).
    by apply not_elem_of_nil in Hbk.
  - exists 1. split; [|lia].
    repeat (apply elem_of_cons in Hbk as [[= -> ->]|Hbk]; [done|]). by apply not_elem_of_nil in Hbk.
  - assert (lpBacklenSize (Z.of_nat (S (length (le_bytes k n)))) = 1) as ->.
    { unfold lpBacklenSize, lpEncodeBacklen. rewrite decide_True; [done|].
      repeat (apply elem_of_cons in Hbk as [[= -> ->]|Hbk]; [lia|]). by apply not_elem_of_nil in Hbk. }
    do 4 (apply elem_of_cons in Hbk as [[= -> ->]|Hbk];
      [repeat (rewrite decide_False by done); rewrite decide_True, Hrd by done; bind_simpl;
       match goal with |- context [lp_signed ?u ?s ?m] =>
         replace (lp_signed u s m) with n by (symmetry; exact (Hsg ltac:(lia) Hn)) end;
       do 3 f_equal; lia|]).
    by apply not_elem_of_nil in Hbk.
Qed.

Lemma read_enc pre v post : val_ok v → read_ok (pre ++ enc v ++ post) (zlen pre) v.
Proof.
  destruct v as [s|n]; simpl; intros Hv.
  - destruct (decide (zlen s < 64)); [by apply read_str6|].
    destruct (decide (zlen s < 4096)); [apply read_str12; lia|apply read_str32; lia].
  - destruct (decide (0 ≤ n < 128)) as [H7|H7].
    { assert (lpEncodeIntegerGetType n = [n]) as -> by (unfold lpEncodeIntegerGetType; by rewrite decide_True by lia).
      by apply read_int7. }
    destruct (decide (-4096 ≤ n ≤ 4095)); [by apply read_int13|].
    pose proof (λ b k, read_int_bytes pre n post b k) as Hbytes.
    assert (∀ k, 0 < k → in_srange (k * 8) n →
      le_bytes k (if decide (n < 0) then Z.shiftl 1 (k * 8) + n else n) = le_bytes k n) as Hle.
    { intros k Hk Hr. rewrite wrap_negative by (done || lia). apply le_bytes_uwrap. lia. }
    simpl in Hbytes. unfold lpEncodeIntegerGetType in *. rewrite !(decide_False (P := n >= 0 ∧ _)) in * by lia.
    rewrite !(decide_False (P := n >= -4096 ∧ _)) in * by lia.
    destruct (decide (n >= -32768 ∧ n <= 32767)).
    { apply (Hbytes 0xF1 2); [set_solver|range_lia|]. f_equal. apply (Hle 2); range_lia. }
    destruct (decide (n >= -8388608 ∧ n <= 8388607)).
    { apply (Hbytes 0xF2 3); [set_solver|range_lia|]. f_equal. apply (Hle 3); range_lia. }
    destruct (decide (n >= -2147483648 ∧ n <= 2147483647)).
    { apply (Hbytes 0xF3 4); [set_solver|range_lia|]. f_equal. apply (Hle 4); range_lia. }
    apply (Hbytes 0xF4 8); [set_solver|done|]. f_equal. by apply (le_bytes_uwrap 8).
Qed.

(** ** The length read backwards *)

Lemma cont_byte x :
  0 ≤ x < 128 → Z.land (Z.lor x 128) 127 = x ∧ Z.land (Z.lor x 128) 128 ≠ 0 ∧
                Z.land x 127 = x ∧ Z.land x 128 = 0.
Proof.
  intros Hx. pose proof (forall_below 128 (λ x, (Z.land (Z.lor x 128) 127 =? x) &&
    negb (Z.land (Z.lor x 128) 128 =? 0) && (Z.land x 127 =? x) && (Z.land x 128 =? 0))
    ltac:(vm_compute; reflexivity) x Hx) as Hb.
  rewrite !andb_true_iff, negb_true_iff, !Z.eqb_eq, Z.eqb_neq in Hb. tauto.
Qed.

(** Seven more bits. *)
Lemma lor_bits l s t :
  0 ≤ s → 0 ≤ t → Z.lor (l mod 2 ^ s) (Z.shiftl (Z.land (Z.shiftr l s) (Z.ones t)) s) = l mod 2 ^ (s + t).
Proof.
  intros Hs Ht. apply Z.bits_inj'. intros i Hi. rewrite Z.lor_spec, Z.shiftl_spec by lia.
  rewrite <- !Z.land_ones by lia. rewrite !Z.land_spec.
  rewrite !(Z.testbit_ones_nonneg _ i) by lia. destruct (Z.ltb_spec i s).
  - rewrite (Z.testbit_neg_r _ (i - s)), orb_false_r by lia. by replace (i <? s + t) with true by lia.
  - rewrite Z.testbit_ones_nonneg, Z.shiftr_spec, andb_false_r by lia. simpl.
    replace (i - s + s) with i by lia. destruct (Z.ltb_spec (i - s) t), (Z.ltb_spec i (s + t)); done || lia.
Qed.

Lemma decode_cont fuel lp p l s :
  mem_get lp p = Some (Z.lor (Z.land (Z.shiftr l s) 127) 128) → 0 ≤ s → s + 7 ≤ 28 →
  lpDecodeBacklen_loop (S fuel) lp p (l mod 2 ^ s) s
  = lpDecodeBacklen_loop fuel lp (p - 1) (l mod 2 ^ (s + 7)) (s + 7).
Proof.
  intros Hg Hs Hs'. cbn [lpDecodeBacklen_loop]. rewrite Hg. bind_simpl.
  destruct (cont_byte (Z.land (Z.shiftr l s) 127)) as (-> & Hc & _).
  { change 127 with (Z.ones 7). rewrite Z.land_ones by lia. apply Z.mod_pos_bound. lia. }
  rewrite decide_False by done. rewrite decide_False by lia. change 127 with (Z.ones 7). by rewrite lor_bits by lia.
Qed.

Lemma decode_last fuel lp p l s :
  mem_get lp p = Some (Z.shiftr l s) → 0 ≤ s → 0 ≤ Z.shiftr l s < 128 →
  lpDecodeBacklen_loop (S fuel) lp p (l mod 2 ^ s) s = Some l.
Proof.
  intros Hg Hs Hr. cbn [lpDecodeBacklen_loop]. rewrite Hg. bind_simpl.
  destruct (cont_byte _ Hr) as (_ & _ & Hl & ->). rewrite decide_True by done.
  change 127 with (Z.ones 7). rewrite lor_bits by lia. rewrite Z.shiftr_div_pow2 in Hr by lia.
  f_equal. apply Z.mod_small. assert (0 < 2 ^ s) by (apply Z.pow_pos_nonneg; lia).
  pose proof (Z.div_mod l (2 ^ s)). pose proof (Z.mod_pos_bound l (2 ^ s)).
  rewrite Z.pow_add_r by lia. change (2 ^ 7) with 128. nia.
Qed.

Lemma backlen_size_range l : 1 ≤ lpBacklenSize l ≤ 5.
Proof. unfold lpBacklenSize, lpEncodeBacklen. repeat case_decide; simpl; lia. Qed.

Lemma shiftr_range l s b : 0 ≤ s → 0 ≤ l < b * 2 ^ s → 0 ≤ Z.shiftr l s < b.
Proof.
  intros Hs Hl. rewrite Z.shiftr_div_pow2 by lia. assert (0 < 2 ^ s) by (apply Z.pow_pos_nonneg; lia).
  split; [apply Z.div_pos; lia|apply Z.div_lt_upper_bound; lia].
Qed.

Lemma decode_backlen pre l post :
  0 ≤ l < 2 ^ 32 →
  lpDecodeBacklen (pre ++ lpEncodeBacklen l ++ post) (zlen pre + lpBacklenSize l - 1) = Some l.
Proof.
  intros Hl. unfold lpDecodeBacklen. replace 0 with (l mod 2 ^ 0) at 1 by apply Z.mod_1_r.
  assert (∀ bs j q b, q = zlen pre + Z.of_nat j → bs !! j = Some b →
    mem_get (pre ++ bs ++ post) q = Some b) as Hget.
  { intros bs j q b -> Hb. rewrite mem_get_suffix by lia. unfold mem_get. rewrite decide_True, Nat2Z.id by lia.
    by apply lookup_app_l_Some. }
  unfold lpBacklenSize. unfold lpEncodeBacklen.
  repeat case_decide; cbn [length].
  - apply decode_last; [|lia|rewrite Z.shiftr_0_r; lia]. rewrite Z.shiftr_0_r. eapply (Hget _ 0%nat); [lia|done].
  - rewrite decode_cont; [|rewrite Z.shiftr_0_r; by eapply (Hget _ 1%nat); [lia|]|lia..].
    apply decode_last; [|lia|apply shiftr_range; lia]. eapply (Hget _ 0%nat); [lia|done].
  - rewrite decode_cont; [|rewrite Z.shiftr_0_r; by eapply (Hget _ 2%nat); [lia|]|lia..].
    rewrite decode_cont; [|by eapply (Hget _ 1%nat); [lia|]|lia..].
    apply decode_last; [|lia|apply shiftr_range; lia]. eapply (Hget _ 0%nat); [lia|done].
  - rewrite decode_cont; [|rewrite Z.shiftr_0_r; by eapply (Hget _ 3%nat); [lia|]|lia..].
    rewrite decode_cont; [|by eapply (Hget _ 2%nat); [lia|]|lia..].
    rewrite decode_cont; [|by eapply (Hget _ 1%nat); [lia|]|lia..].
    apply decode_last; [|lia|apply shiftr_range; lia]. eapply (Hget _ 0%nat); [lia|done].
  - assert (0 ≤ Z.shiftr l 28 < 128) as Hr by (apply shiftr_range; range_lia).
    rewrite decode_cont; [|rewrite Z.shiftr_0_r; by eapply (Hget _ 4%nat); [lia|]|lia..].
    rewrite decode_cont; [|by eapply (Hget _ 3%nat); [lia|]|lia..].
    rewrite decode_cont; [|by eapply (Hget _ 2%nat); [lia|]|lia..].
    rewrite decode_cont; [|by eapply (Hget _ 1%nat); [lia|]|lia..].
    apply decode_last; [|lia|done]. eapply (Hget _ 0%nat); [lia|]. simpl. by rewrite uwrap_small by range_lia.
Qed.

Lemma entry_length v : zlen (entry v) = zlen (enc v) + lpBacklenSize (zlen (enc v)).
Proof. unfold entry. rewrite length_app. unfold lpBacklenSize. lia. Qed.

Lemma enc_length v : val_ok v → 1 ≤ zlen (enc v) < 2 ^ 32.
Proof.
  destruct v as [s|n]; simpl; intros Hv.
  - unfold lpEncodeString. repeat case_decide; cbn [length]; rewrite ?length_app; try range_lia.
    pose proof (le_bytes_length 4 (zlen s)). range_lia.
  - assert (∀ k z, 0 ≤ k ≤ 8 → 1 ≤ Z.of_nat (S (length (le_bytes k z))) < 2 ^ 32) as Hle.
    { intros k z Hk. pose proof (le_bytes_length k z). range_lia. }
    unfold lpEncodeIntegerGetType. repeat case_decide; cbn [length]; try (apply Hle; lia); range_lia.
Qed.

(** What is known of the entry [v] of a block, at [p]. *)
Record entry_ok (lp : bytes) (p : Z) (v : lpval) : Prop := {
  eo_read : read_ok lp p v;
  eo_back : lpDecodeBacklen lp (p + zlen (entry v) - 1) = Some (zlen (enc v));
}.

Lemma entry_ok_app pre v post : val_ok v → entry_ok (pre ++ entry v ++ post) (zlen pre) v.
Proof.
  intros Hv. unfold entry. rewrite <- app_assoc. split; [by apply read_enc|].
  rewrite app_assoc. fold (entry v). rewrite entry_length.
  replace (zlen pre + (zlen (enc v) + lpBacklenSize (zlen (enc v))) - 1)
    with (zlen (pre ++ enc v) + lpBacklenSize (zlen (enc v)) - 1) by (rewrite length_app; lia).
  apply decode_backlen. pose proof (enc_length v Hv). lia.
Qed.

Lemma skip_ok lp p v : read_ok lp p v → lpSkip lp p = Some (p + zlen (entry v)).
Proof.
  intros Hr. unfold lpSkip. rewrite (ro_unsafe _ _ _ Hr). bind_simpl. by rewrite entry_length.
Qed.

(** Every element is read back from its entry, forwards from its first byte and backwards
    from the end of its entry, wherever the entry is. *)
Theorem lp_entry_roundtrip pre v post :
  val_ok v →
  lpGetWithSize (pre ++ entry v ++ post) (zlen pre) = Some (v, Some (zlen (entry v))) ∧
  lpSkip (pre ++ entry v ++ post) (zlen pre) = Some (zlen pre + zlen (entry v)) ∧
  lpDecodeBacklen (pre ++ entry v ++ post) (zlen pre + zlen (entry v) - 1) = Some (zlen (enc v)).
Proof.
  intros Hv. destruct (entry_ok_app pre v post Hv) as [Hr Hb]. split_and!; [|by apply skip_ok|done].
  rewrite (ro_get _ _ _ Hr). by rewrite entry_length.
Qed.

Definition ex_pre : bytes := [7; 7; 7].
Definition ex_post : bytes := [255].

Lemma lp_entry_roundtrip_witness :
  lpGetWithSize (ex_pre ++ entry (VInt (-70000)) ++ ex_post) (zlen ex_pre)
    = Some (VInt (-70000), Some (zlen (entry (VInt (-70000))))) ∧
  lpSkip (ex_pre ++ entry (VInt (-70000)) ++ ex_post) (zlen ex_pre)
    = Some (zlen ex_pre + zlen (entry (VInt (-70000)))) ∧
  lpDecodeBacklen (ex_pre ++ entry (VInt (-70000)) ++ ex_post)
      (zlen ex_pre + zlen (entry (VInt (-70000))) - 1) = Some (zlen (enc (VInt (-70000)))).
Proof. apply (lp_entry_roundtrip ex_pre (VInt (-70000)) ex_post). simpl. range_lia. Defined.
