(* ===== verification/ListpackOps.v ===== *)
(** * listpack.c: a listpack is a list of elements *)

From S2P Require Import Prelude Util Listpack ListpackEnc.

Local Open Scope Z_scope.

(** ** Well-formed listpacks *)

Definition body (vs : list lpval) : bytes := concat (entry <$> vs).

Definition lp_total (vs : list lpval) : Z := 7 + zlen (body vs).

(** The block with the elements [vs], the count [num] in the header and [sl] after the end. *)
Definition lp_of (num : Z) (vs : list lpval) (sl : bytes) : bytes :=
  le_bytes 4 (lp_total vs) ++ le_bytes 2 num ++ body vs ++ [LP_EOF] ++ sl.

(** The count is right or unknown. *)
Definition num_ok (num : Z) (vs : list lpval) : Prop :=
  num = LP_HDR_NUMELE_UNKNOWN ∨ (num = zlen vs ∧ zlen vs < LP_HDR_NUMELE_UNKNOWN).

Record lp_fits (vs : list lpval) : Prop := {
  fits_vals : Forall val_ok vs;
  fits_total : lp_total vs ≤ UINT32_MAX;
}.

(** [lp] holds the list [vs]. *)
Definition lp_repr (lp : bytes) (vs : list lpval) : Prop :=
  ∃ num sl, lp = lp_of num vs sl ∧ num_ok num vs ∧ lp_fits vs.

(** The offset of element [i]; the end marker is at the offset of [length vs]. *)
Definition lp_pos (vs : list lpval) (i : nat) : Z := 6 + zlen (body (take i vs)).

Lemma body_app vs ws : body (vs ++ ws) = body vs ++ body ws.
Proof. unfold body. by rewrite fmap_app, concat_app. Qed.

Lemma body_cons v vs : body (v :: vs) = entry v ++ body vs.
Proof. done. Qed.

Lemma num_ok_range num vs : num_ok num vs → in_urange 16 num.
Proof. unfold num_ok, LP_HDR_NUMELE_UNKNOWN. intros [->|[-> ?]]; range_lia. Qed.

Lemma entry_pos v : val_ok v → 2 ≤ zlen (entry v).
Proof. intros Hv. rewrite entry_length. pose proof (enc_length v Hv). pose proof (backlen_size_range (zlen (enc v))). lia. Qed.

(** ** Header *)

Lemma get_total t r : in_urange 32 t → lpGetTotalBytes (le_bytes 4 t ++ r) = Some t.
Proof.
  intros Ht. unfold lpGetTotalBytes. pose proof (le_bytes_length 4 t ltac:(lia)) as H4.
  rewrite (mem_read_mid [] (le_bytes 4 t) r) by (done || lia). bind_simpl.
  by rewrite le_val_bytes, uwrap_small by (done || lia).
Qed.

Lemma get_num h n r : zlen h = 4 → in_urange 16 n → lpGetNumElements (h ++ le_bytes 2 n ++ r) = Some n.
Proof.
  intros Hh Hn. unfold lpGetNumElements. pose proof (le_bytes_length 2 n ltac:(lia)) as H2.
  rewrite mem_read_mid by lia. bind_simpl. by rewrite le_val_bytes, uwrap_small by (done || lia).
Qed.

Lemma set_total h r v : zlen h = 4 → lpSetTotalBytes (h ++ r) v = Some (le_bytes 4 v ++ r).
Proof.
  intros Hh. pose proof (le_bytes_length 4 v ltac:(lia)) as H4.
  apply (mem_write_mid [] h r (le_bytes 4 v)); [done|lia].
Qed.

Lemma set_num h n r v :
  zlen h = 4 → zlen n = 2 → lpSetNumElements (h ++ n ++ r) v = Some (h ++ le_bytes 2 v ++ r).
Proof. intros Hh Hn. pose proof (le_bytes_length 2 v ltac:(lia)) as H2. apply mem_write_mid; lia. Qed.

Lemma le4_length v : zlen (le_bytes 4 v) = 4.
Proof. by apply le_bytes_length. Qed.
Lemma le2_length v : zlen (le_bytes 2 v) = 2.
Proof. by apply le_bytes_length. Qed.

Create Rewrite HintDb lp_len.
#[export] Hint Rewrite @length_app @length_cons le4_length le2_length : lp_len.

Lemma lp_of_total num vs sl : lp_fits vs → lpGetTotalBytes (lp_of num vs sl) = Some (lp_total vs).
Proof. intros [_ Ht]. apply get_total. unfold lp_total in *. range_lia. Qed.

Lemma lp_of_num num vs sl : num_ok num vs → lpGetNumElements (lp_of num vs sl) = Some num.
Proof. intros Hn. apply get_num; [apply le4_length|by eapply num_ok_range]. Qed.

(** ** Positions *)

Lemma lp_pos_S vs i v : vs !! i = Some v → lp_pos vs (S i) = lp_pos vs i + zlen (entry v).
Proof.
  intros Hi. unfold lp_pos. rewrite (take_S_r _ _ _ Hi), body_app, length_app.
  rewrite body_cons, app_nil_r. lia.
Qed.

Lemma lp_total_app vs ws : lp_total (vs ++ ws) = lp_total vs + zlen (body ws).
Proof. unfold lp_total. rewrite body_app, length_app. lia. Qed.

Lemma lp_pos_last vs : lp_pos vs (length vs) = lp_total vs - 1.
Proof. unfold lp_pos, lp_total. rewrite firstn_all. lia. Qed.

Lemma lp_pos_bound vs i : 6 ≤ lp_pos vs i ≤ lp_total vs - 1.
Proof.
  unfold lp_pos, lp_total. rewrite <- (take_drop i vs) at 3. rewrite body_app, length_app. lia.
Qed.

Lemma body_split vs i v :
  vs !! i = Some v → body vs = body (take i vs) ++ entry v ++ body (drop (S i) vs).
Proof. intros Hi. rewrite <- (take_drop_middle vs i v Hi) at 1. by rewrite body_app. Qed.

(** The block around element [i]. *)
Lemma lp_of_split num vs sl i v :
  vs !! i = Some v →
  ∃ pre post, lp_of num vs sl = pre ++ entry v ++ post ∧ zlen pre = lp_pos vs i.
Proof.
  intros Hi. unfold lp_of. rewrite (body_split vs i v Hi).
  eexists (le_bytes 4 (lp_total vs) ++ le_bytes 2 num ++ body (take i vs)), _.
  rewrite <- !app_assoc. split; [done|]. unfold lp_pos. autorewrite with lp_len.
  pose proof (le4_length (lp_total vs)). pose proof (le2_length num). lia.
Qed.

Lemma lp_of_entry num vs sl i v :
  lp_fits vs → vs !! i = Some v → entry_ok (lp_of num vs sl) (lp_pos vs i) v ∧ val_ok v.
Proof.
  intros [Hv _] Hi. assert (val_ok v) as Hok by by eapply Forall_lookup_1.
  destruct (lp_of_split num vs sl i v Hi) as (pre & post & -> & <-). split; [by apply entry_ok_app|done].
Qed.

Lemma lp_of_eof num vs sl : mem_get (lp_of num vs sl) (lp_total vs - 1) = Some LP_EOF.
Proof.
  assert (lp_of num vs sl = (le_bytes 4 (lp_total vs) ++ le_bytes 2 num ++ body vs) ++ LP_EOF :: sl) as ->
    by (unfold lp_of; by rewrite <- !app_assoc).
  set (pre := _ ++ _ ++ _). replace (lp_total vs - 1) with (zlen pre); [apply mem_get_here|].
  unfold pre, lp_total. pose proof (le4_length (7 + zlen (body vs))). pose proof (le2_length num).
  autorewrite with lp_len. lia.
Qed.

(** ** Traversal *)

Section traversal.
Context (num : Z) (vs : list lpval) (sl : bytes).
Context (Hfits : lp_fits vs).

Local Abbreviation lp := (lp_of num vs sl).

Lemma validate_next_ok i v :
  vs !! i = Some v → lpValidateNext lp (Some (lp_pos vs i)) (lp_total vs) = Some (Some (Some (lp_pos vs (S i)))).
Proof.
  intros Hi. destruct (lp_of_entry num vs sl i v Hfits Hi) as [[[ (b & Hb & Hne) Hu (n & Hn & Hn') _ ] Hback] Hok].
  pose proof (lp_pos_bound vs i). pose proof (lp_pos_bound vs (S i)) as HS.
  pose proof (lp_pos_S vs i v Hi) as Hpos. pose proof (entry_pos v Hok). rewrite entry_length in *.
  pose proof (backlen_size_range (zlen (enc v))). pose proof (enc_length v Hok).
  unfold lpValidateNext, LP_HDR_SIZE. rewrite bool_decide_false by lia. rewrite Hb. bind_simpl.
  rewrite decide_False by done. rewrite Hn. bind_simpl. rewrite decide_False by lia.
  rewrite bool_decide_false by lia. rewrite Hu. bind_simpl. rewrite bool_decide_false by lia.
  rewrite Hback. bind_simpl. rewrite uwrap_small by range_lia.
  rewrite decide_False by (intros Hc; by apply Hc). by rewrite Hpos.
Qed.

Lemma assert_valid_ok i v : vs !! i = Some v → lpAssertValidEntry lp (lp_total vs) (lp_pos vs i) = Some ().
Proof. intros Hi. unfold lpAssertValidEntry. by rewrite (validate_next_ok i v Hi). Qed.

(** A pointer to element [i], NULL past the end. *)
Definition lp_ptr (i : nat) : option Z := if decide (i < length vs)%nat then Some (lp_pos vs i) else None.

Lemma at_ptr i :
  (i ≤ length vs)%nat →
  (b ← mem_get lp (lp_pos vs i);
   if decide (b = LP_EOF) then Some None
   else n ← lpBytes lp; _ ← lpAssertValidEntry lp n (lp_pos vs i); Some (Some (lp_pos vs i)))
  = Some (lp_ptr i).
Proof.
  intros Hi. unfold lp_ptr. case_decide as Hlt.
  - destruct (lookup_lt_is_Some_2 vs i Hlt) as [v Hv].
    destruct (lp_of_entry num vs sl i v Hfits Hv) as [[[(b & -> & Hne) _ _ _] _] _]. bind_simpl.
    rewrite decide_False by done. unfold lpBytes. rewrite lp_of_total by done. bind_simpl.
    by rewrite (assert_valid_ok i v Hv).
  - assert (i = length vs) as -> by lia. rewrite lp_pos_last, lp_of_eof. bind_simpl.
    by rewrite decide_True by done.
Qed.

Lemma lpFirst_ok : lpFirst lp = Some (lp_ptr 0).
Proof. rewrite <- at_ptr by lia. done. Qed.

Lemma lpNext_ok i : (i < length vs)%nat → lpNext lp (lp_pos vs i) = Some (lp_ptr (S i)).
Proof.
  intros Hi. destruct (lookup_lt_is_Some_2 vs i Hi) as [v Hv].
  destruct (lp_of_entry num vs sl i v Hfits Hv) as [[Hr _] _].
  unfold lpNext. rewrite (skip_ok _ _ _ Hr). bind_simpl.
  rewrite <- (lp_pos_S vs i v Hv). apply at_ptr. lia.
Qed.

Lemma lpPrev_ok i :
  (i ≤ length vs)%nat →
  lpPrev lp (lp_pos vs i) = Some (match i with O => None | S j => Some (lp_pos vs j) end).
Proof.
  intros Hi. unfold lpPrev. destruct i as [|j]; [done|].
  destruct (lookup_lt_is_Some_2 vs j ltac:(lia)) as [v Hv].
  destruct (lp_of_entry num vs sl j v Hfits Hv) as [[_ Hback] Hok].
  pose proof (lp_pos_S vs j v Hv) as Hpos. pose proof (entry_pos v Hok). pose proof (lp_pos_bound vs j).
  rewrite decide_False by (unfold LP_HDR_SIZE; lia). rewrite Hpos, Hback. bind_simpl.
  pose proof (enc_length v Hok). pose proof (backlen_size_range (zlen (enc v))). rewrite entry_length in *.
  rewrite uwrap_small by range_lia.
  replace (_ - _) with (lp_pos vs j) by lia. unfold lpBytes. rewrite lp_of_total by done. bind_simpl.
  by rewrite (assert_valid_ok j v Hv).
Qed.

Lemma lpLast_ok : lpLast lp = Some (match length vs with O => None | S j => Some (lp_pos vs j) end).
Proof.
  unfold lpLast. rewrite lp_of_total by done. bind_simpl. rewrite <- lp_pos_last.
  apply lpPrev_ok. lia.
Qed.

End traversal.

(** ** Access *)

Lemma length_body vs : Forall val_ok vs → 2 * zlen vs ≤ zlen (body vs).
Proof.
  induction 1 as [|v vs Hv Hvs IH]; [done|]. rewrite body_cons, length_app. pose proof (entry_pos v Hv). simpl. lia.
Qed.

Lemma lp_of_length num vs sl : zlen (lp_of num vs sl) = lp_total vs + zlen sl.
Proof.
  unfold lp_of. autorewrite with lp_len. pose proof (le4_length (lp_total vs)). pose proof (le2_length num).
  unfold lp_total. simpl. lia.
Qed.

(** The string an element stands for. *)
Definition lp_string (v : lpval) : bytes := match v with VStr s => s | VInt n => decimal n end.

(** How [lpInsert] stores a string. *)
Definition lp_norm (s : bytes) : lpval :=
  match lpStringToInt64 s with Some n => VInt n | None => VStr s end.

Lemma lp_string_norm s : lp_string (lp_norm s) = s.
Proof.
  unfold lp_norm, lpStringToInt64. destruct (string2ll s) as [n|] eqn:Hs; [|done].
  by apply string2ll_ok in Hs as [_ ->].
Qed.

(** The size of an element, by its string. *)
Lemma str_enc_length s : zlen s ≤ zlen (lpEncodeString s) ≤ zlen s + 5.
Proof.
  unfold lpEncodeString. repeat case_decide; cbn [length]; rewrite ?length_app; try lia.
  pose proof (le_bytes_length 4 (zlen s) ltac:(lia)). lia.
Qed.

Lemma int_enc_length n : zlen (lpEncodeIntegerGetType n) ≤ 9.
Proof.
  unfold lpEncodeIntegerGetType. repeat case_decide; cbn [length]; try lia.
  all: rewrite ?length_app; match goal with |- context [le_bytes ?k ?z] => pose proof (le_bytes_length k z ltac:(lia)) end; lia.
Qed.

Lemma entry_bound v : zlen (entry v) ≤ zlen (lp_string v) + 14.
Proof.
  rewrite entry_length. pose proof (backlen_size_range (zlen (enc v))). destruct v as [s|n]; cbn [enc lp_string] in *.
  - pose proof (str_enc_length s). lia.
  - pose proof (int_enc_length n). lia.
Qed.

(** Reference for [lpFind]: the first element that stands for [s], comparing one element in
    [skip + 1]. *)
Fixpoint find_ref (skip : nat) (s : bytes) (vs : list lpval) (skipcnt : nat) : option nat :=
  match vs with
  | [] => None
  | v :: vs =>
      match skipcnt with
      | O => if decide (lp_string v = s) then Some O else S <$> find_ref skip s vs skip
      | S c => S <$> find_ref skip s vs c
      end
  end.

Lemma decimal_length n : in_srange 64 n → 1 ≤ zlen (decimal n) < 32.
Proof.
  intros Hn. unfold decimal. case_decide.
  - pose proof (dec_len_max (- n) ltac:(range_lia)). simpl. lia.
  - pose proof (dec_len_max n ltac:(range_lia)). simpl. lia.
Qed.

Lemma find_int_ok s : lp_find_int s = lpStringToInt64 s.
Proof.
  unfold lp_find_int, lpStringToInt64. case_decide; [|done]. destruct (string2ll s) as [m|] eqn:Hm; [|done].
  apply string2ll_ok in Hm as [Hr ->]. pose proof (decimal_length m Hr). lia.
Qed.

Lemma find_match_ok v s : val_ok v → lp_find_match v s = bool_decide (lp_string v = s).
Proof.
  destruct v as [t|n]; simpl; intros Hv; [done|]. apply bool_decide_ext. rewrite find_int_ok.
  unfold lpStringToInt64. rewrite string2ll_ok. naive_solver.
Qed.

Section access.
Context (num : Z) (vs : list lpval) (sl : bytes).
Context (Hfits : lp_fits vs).

Local Abbreviation lp := (lp_of num vs sl).

Lemma fuel_enough : (length vs ≤ length lp)%nat.
Proof.
  pose proof (lp_of_length num vs sl). pose proof (length_body vs (fits_vals _ Hfits)). unfold lp_total in *. lia.
Qed.

Lemma seek_forward_ok fuel i index :
  0 ≤ index → (length vs ≤ i + fuel)%nat →
  lpSeek_forward fuel lp (lp_ptr vs i) index = Some (lp_ptr vs (i + Z.to_nat index)).
Proof.
  revert i index. induction fuel as [|fuel IH]; intros i index Hidx Hf.
  - assert (lp_ptr vs i = None) as -> by (unfold lp_ptr; by rewrite decide_False by lia).
    simpl. unfold lp_ptr. by rewrite decide_False by lia.
  - unfold lp_ptr at 1. case_decide as Hi; cbn [lpSeek_forward].
    + case_decide as Hgt.
      * rewrite lpNext_ok by done. bind_simpl. rewrite IH by lia. do 2 f_equal. lia.
      * assert (index = 0) as -> by lia. unfold lp_ptr. rewrite Nat.add_0_r. by rewrite decide_True by done.
    + unfold lp_ptr. by rewrite decide_False by lia.
Qed.

Lemma seek_backward_ok fuel j index :
  index ≤ -1 → (j < length vs)%nat → (j < fuel)%nat →
  lpSeek_backward fuel lp (Some (lp_pos vs j)) index =
    Some (if decide (- index - 1 ≤ Z.of_nat j) then Some (lp_pos vs (j - Z.to_nat (- index - 1))) else None).
Proof.
  revert j index. induction fuel as [|fuel IH]; intros j index Hidx Hj Hf; [lia|]. cbn [lpSeek_backward].
  destruct (decide (index < -1)) as [Hlt|Hlt].
  - rewrite lpPrev_ok by (done || lia). bind_simpl. destruct j as [|j].
    + rewrite decide_False by lia. by destruct fuel.
    + rewrite IH by lia. do 2 f_equal. destruct (decide (- index - 1 ≤ Z.of_nat (S j))).
      * rewrite decide_True by lia. do 2 f_equal. lia.
      * by rewrite decide_False by lia.
  - assert (index = -1) as -> by lia. rewrite decide_True by lia. do 3 f_equal. lia.
Qed.

(** The element an index stands for, from the end when it is negative. *)
Definition seek_index (index : Z) : Z := if decide (index < 0) then zlen vs + index else index.

Lemma lpSeek_ok index :
  num_ok num vs →
  lpSeek lp index = Some (if decide (0 ≤ seek_index index) then lp_ptr vs (Z.to_nat (seek_index index)) else None).
Proof.
  intros Hnum. unfold lpSeek, seek_index. rewrite lp_of_num by done. bind_simpl.
  pose proof fuel_enough as Hfuel.
  assert (∀ i, 0 ≤ i → (ele ← lpFirst lp; lpSeek_forward (length lp) lp ele i) = Some (lp_ptr vs (Z.to_nat i))) as Hfw.
  { intros i Hi. rewrite lpFirst_ok by done. bind_simpl. by rewrite seek_forward_ok by lia. }
  assert (∀ i, i ≤ -1 → (ele ← lpLast lp; lpSeek_backward (length lp) lp ele i) =
    Some (if decide (0 ≤ zlen vs + i) then lp_ptr vs (Z.to_nat (zlen vs + i)) else None)) as Hbw.
  { intros i Hi. rewrite lpLast_ok by done. bind_simpl.
    destruct (length vs) as [|n] eqn:Hn; [rewrite decide_False by lia; by destruct (length lp)|].
    rewrite seek_backward_ok by lia. destruct (decide (0 ≤ Z.of_nat (S n) + i)).
    - rewrite decide_True by lia. unfold lp_ptr. rewrite decide_True by lia. do 3 f_equal. lia.
    - by rewrite decide_False by lia. }
  assert (∀ i : nat, (length vs ≤ i)%nat → lp_ptr vs i = None) as Hout.
  { intros i Hi. unfold lp_ptr. by rewrite decide_False by lia. }
  case_decide as Hunk.
  - destruct Hnum as [|[-> Hlt]]; [done|]. set (j := if decide (index < 0) then zlen vs + index else index).
    destruct (decide (j < 0)); [by rewrite decide_False by lia|]. rewrite (decide_True (P := 0 ≤ j)) by lia.
    destruct (decide (j >= zlen vs)); [by rewrite Hout by lia|].
    case_decide; [|by rewrite Hfw by lia]. rewrite Hbw by lia.
    replace (zlen vs + (j - zlen vs)) with j by lia. by rewrite decide_True by lia.
  - destruct (decide (index < 0)); [by rewrite Hbw by lia|]. rewrite decide_True by lia. by rewrite Hfw by lia.
Qed.

Lemma length_loop_ok fuel i count :
  (length vs ≤ i + fuel)%nat → (i ≤ length vs)%nat → count = Z.of_nat i →
  lpLength_loop fuel lp (lp_ptr vs i) count = Some (zlen vs).
Proof.
  pose proof (length_body vs (fits_vals _ Hfits)) as Hl. pose proof (fits_total _ Hfits) as Ht. unfold lp_total in Ht.
  revert i count. induction fuel as [|fuel IH]; intros i count Hf Hi ->.
  - assert (i = length vs) as -> by lia. unfold lp_ptr. by rewrite decide_False by lia.
  - unfold lp_ptr. case_decide as Hlt; cbn [lpLength_loop]; [|f_equal; lia].
    rewrite lpNext_ok by done. bind_simpl. apply IH; [lia..|]. rewrite uwrap_small by range_lia. lia.
Qed.

Lemma validate_eof_ok : lpAssertValidEntry lp (lp_total vs) (lp_total vs - 1) = Some ().
Proof.
  unfold lpAssertValidEntry, lpValidateNext. pose proof (lp_pos_bound vs 0).
  rewrite bool_decide_false by (unfold LP_HDR_SIZE; lia). rewrite lp_of_eof. bind_simpl.
  by rewrite decide_True by done.
Qed.

Lemma assert_pos_ok i :
  (i ≤ length vs)%nat → lpAssertValidEntry lp (lp_total vs) (lp_pos vs i) = Some ().
Proof.
  intros Hi. destruct (decide (i < length vs)%nat) as [Hlt|Hlt].
  - destruct (lookup_lt_is_Some_2 vs i Hlt) as [v Hv]. by eapply assert_valid_ok.
  - assert (i = length vs) as -> by lia. rewrite lp_pos_last. apply validate_eof_ok.
Qed.

Lemma find_loop_ok fuel i s (skip skipcnt : nat) esz :
  (length vs ≤ i + fuel)%nat → (i < length vs)%nat →
  lpFind_loop fuel lp (lp_total vs) (lp_pos vs i) s (Z.of_nat skip) (Z.of_nat skipcnt) esz =
    Some ((λ k, lp_pos vs (i + k)) <$> find_ref skip s (drop i vs) skipcnt).
Proof.
  revert i skipcnt esz. induction fuel as [|fuel IH]; intros i skipcnt esz Hf Hi; [lia|].
  destruct (lookup_lt_is_Some_2 vs i Hi) as [v Hv]. rewrite (drop_S _ _ _ Hv).
  destruct (lp_of_entry num vs sl i v Hfits Hv) as [[Hr _] Hok].
  pose proof (lp_pos_S vs i v Hv) as HS. pose proof (lp_pos_bound vs (S i)). pose proof (lp_pos_bound vs i).
  assert (∀ c e, (_ ← (if decide (lp_pos vs (S i) + 8 >= lp_total vs)
              then lpAssertValidEntry lp (lp_total vs) (lp_pos vs (S i))
              else if decide (lp_pos vs (S i) >= LP_HDR_SIZE ∧ lp_pos vs (S i) < lp_total vs) then Some () else None);
    b ← mem_get lp (lp_pos vs (S i));
    if decide (b = LP_EOF) then Some None
    else lpFind_loop fuel lp (lp_total vs) (lp_pos vs (S i)) s (Z.of_nat skip) (Z.of_nat c) e)
    = Some ((λ k, lp_pos vs (i + k)) <$> (S <$> find_ref skip s (drop (S i) vs) c))) as Hnext.
  { intros c e. rewrite assert_pos_ok by lia. rewrite (decide_True (P := _ >= _ ∧ _)) by (unfold LP_HDR_SIZE; lia).
    assert (∀ b : bool, (if b then Some () else Some ()) = Some ()) as Hid by by intros [].
    case_decide; bind_simpl;
      (destruct (decide (S i < length vs)%nat) as [Hlt|Hlt];
       [destruct (lookup_lt_is_Some_2 vs (S i) Hlt) as [v' Hv'];
        destruct (lp_of_entry num vs sl (S i) v' Hfits Hv') as [[[(b & -> & Hne) _ _ _] _] _];
        bind_simpl; rewrite decide_False by done; rewrite IH by lia;
        destruct (find_ref skip s (drop (S i) vs) c); [|done]; simpl; do 2 f_equal; f_equal; lia
       |assert (S i = length vs) as -> by lia; rewrite lp_pos_last, lp_of_eof, drop_all; bind_simpl;
        by rewrite decide_True by done]). }
  cbn [lpFind_loop find_ref]. destruct skipcnt as [|c].
  - rewrite decide_True by done. rewrite (ro_get _ _ _ Hr). cbn [mbind option_bind from_option].
    rewrite <- entry_length. cbn [id]. rewrite <- HS. rewrite decide_False by (unfold LP_HDR_SIZE; lia). bind_simpl.
    rewrite find_match_ok by done. destruct (decide (lp_string v = s)) as [Heq|Heq].
    + rewrite bool_decide_true by done. simpl. by rewrite Nat.add_0_r.
    + rewrite bool_decide_false by done. apply Hnext.
  - rewrite decide_False by lia. rewrite (skip_ok _ _ _ Hr), <- HS. bind_simpl.
    replace (Z.of_nat (S c) - 1) with (Z.of_nat c) by lia. apply Hnext.
Qed.

Lemma lpLength_ok : num_ok num vs → ∃ num', lpLength lp = Some (lp_of num' vs sl, zlen vs) ∧ num_ok num' vs.
Proof.
  intros Hnum. unfold lpLength. rewrite lp_of_num by done. bind_simpl. case_decide as Hunk.
  { exists num. by destruct Hnum as [|[-> Hlt]]; [|split; [|right]]. }
  rewrite lpFirst_ok by done. bind_simpl. pose proof fuel_enough.
  rewrite (length_loop_ok _ 0) by lia. bind_simpl. case_decide.
  - exists (zlen vs). unfold lp_of. rewrite set_num by (apply le4_length || apply le2_length).
    split; [done|by right].
  - by exists num.
Qed.

Lemma lpGet_ok i v : vs !! i = Some v → lpGet lp (lp_pos vs i) = Some v.
Proof.
  intros Hi. destruct (lp_of_entry num vs sl i v Hfits Hi) as [[Hr _] _]. unfold lpGet.
  by rewrite (ro_get _ _ _ Hr).
Qed.

(** The loops of the callers: from [p] on, with [lpNext] or [lpPrev]. *)
Fixpoint lp_walk (step : bytes → Z → option (option Z)) (fuel : nat) (lp : bytes) (p : option Z)
    : option (list lpval) :=
  match p, fuel with
  | None, _ => Some []
  | Some _, O => None
  | Some p, S fuel => v ← lpGet lp p; q ← step lp p; cons v <$> lp_walk step fuel lp q
  end.

Lemma walk_next_ok fuel i :
  (length vs ≤ i + fuel)%nat → (i ≤ length vs)%nat →
  lp_walk lpNext fuel lp (lp_ptr vs i) = Some (drop i vs).
Proof.
  revert i. induction fuel as [|fuel IH]; intros i Hf Hi; unfold lp_ptr; case_decide as Hlt;
    [lia|by rewrite drop_ge by lia| |by rewrite drop_ge by lia].
  destruct (lookup_lt_is_Some_2 vs i Hlt) as [v Hv]. cbn [lp_walk]. rewrite (lpGet_ok i v Hv). bind_simpl.
  rewrite lpNext_ok by done. bind_simpl. rewrite IH by lia. by rewrite (drop_S _ _ _ Hv).
Qed.

Lemma walk_prev_ok fuel i :
  (i ≤ fuel)%nat → (i ≤ length vs)%nat →
  lp_walk lpPrev fuel lp (match i with O => None | S j => Some (lp_pos vs j) end) = Some (reverse (take i vs)).
Proof.
  revert i. induction fuel as [|fuel IH]; intros [|i] Hf Hi; [done|lia|done|].
  destruct (lookup_lt_is_Some_2 vs i ltac:(lia)) as [v Hv]. cbn [lp_walk]. rewrite (lpGet_ok i v Hv).
  bind_simpl. rewrite lpPrev_ok by (done || lia). bind_simpl. rewrite IH by lia.
  by rewrite (take_S_r _ _ _ Hv), reverse_snoc.
Qed.

End access.

(** ** Properties *)

(** The loops with [lpFirst] and [lpNext], and with [lpLast] and [lpPrev], return the
    elements of the listpack in order and in reverse order; [lpLength] returns their number,
    and leaves the elements as they are when it stores the number in the header. *)
Theorem lp_traversal lp vs :
  lp_repr lp vs →
  (p ← lpFirst lp; lp_walk lpNext (length lp) lp p) = Some vs ∧
  (p ← lpLast lp; lp_walk lpPrev (length lp) lp p) = Some (reverse vs) ∧
  ∃ lp', lpLength lp = Some (lp', zlen vs) ∧ lp_repr lp' vs.
Proof.
  intros (num & sl & -> & Hnum & Hfits). pose proof (fuel_enough num vs sl Hfits).
  rewrite lpFirst_ok, lpLast_ok by done. bind_simpl. split_and!.
  - apply (walk_next_ok num vs sl Hfits _ 0); lia.
  - rewrite walk_prev_ok by (done || lia). by rewrite firstn_all.
  - destruct (lpLength_ok num vs sl Hfits Hnum) as (num' & -> & Hnum'). eexists. split; [done|]. by exists num', sl.
Qed.

(** [lpSeek] finds the element of an index, counted from the head or, when negative, from
    the tail, and NULL when there is none; it does so whether or not the header knows the
    number of elements, from whichever end is nearer. *)
Theorem lpSeek_refines lp vs index :
  lp_repr lp vs →
  (q ← lpSeek lp index; match q with Some p => Some <$> lpGet lp p | None => Some None end)
  = Some (if decide (0 ≤ seek_index vs index) then vs !! Z.to_nat (seek_index vs index) else None).
Proof.
  intros (num & sl & -> & Hnum & Hfits). rewrite lpSeek_ok by done. bind_simpl.
  case_decide; [|done]. unfold lp_ptr. case_decide as Hlt.
  - destruct (lookup_lt_is_Some_2 vs _ Hlt) as [v Hv]. by rewrite (lpGet_ok num vs sl Hfits _ v Hv), Hv.
  - by rewrite lookup_ge_None_2 by lia.
Qed.

Lemma lpFind_ok lp vs s (skip i : nat) :
  lp_repr lp vs → (i < length vs)%nat →
  lpFind lp (lp_pos vs i) s (Z.of_nat skip) = Some ((λ k, lp_pos vs (i + k)) <$> find_ref skip s (drop i vs) 0).
Proof.
  intros (num & sl & -> & Hnum & Hfits) Hi. pose proof (fuel_enough num vs sl Hfits).
  unfold lpFind, lpBytes. rewrite lp_of_total by done. bind_simpl. by apply (find_loop_ok num vs sl Hfits _ i s skip 0 _); [lia|].
Qed.

Lemma lpCompare_ok lp vs s i v :
  lp_repr lp vs → vs !! i = Some v → lpCompare lp (lp_pos vs i) s = Some (bool_decide (lp_string v = s)).
Proof.
  intros (num & sl & -> & Hnum & Hfits) Hv. destruct (lp_of_entry num vs sl i v Hfits Hv) as [[[(b & Hb & Hne) _ _ _] _] Hok].
  unfold lpCompare. rewrite Hb. bind_simpl. rewrite decide_False by done.
  rewrite (lpGet_ok num vs sl Hfits i v Hv). bind_simpl. rewrite <- (find_match_ok v s Hok).
  destruct v as [t|n]; [done|]. simpl. rewrite find_int_ok.
  destruct (lpStringToInt64 s) as [m|]; [|by rewrite bool_decide_false]. f_equal. apply bool_decide_ext. naive_solver.
Qed.

(** [lpFind] from element [i] returns the first element equal to the string among those it
    compares, one in [skip + 1], and NULL when there is none; [lpCompare] tells whether an
    element is equal to the string.  An integer is equal to its decimal representation. *)
Theorem lpFind_refines lp vs s (skip i : nat) :
  lp_repr lp vs → (i < length vs)%nat →
  lpFind lp (lp_pos vs i) s (Z.of_nat skip)
    = Some ((λ k, lp_pos vs (i + k)) <$> find_ref skip s (drop i vs) 0) ∧
  ∀ v, vs !! i = Some v → lpCompare lp (lp_pos vs i) s = Some (bool_decide (lp_string v = s)).
Proof. intros Hlp Hi. split; [by apply lpFind_ok|]. intros v Hv. by apply lpCompare_ok. Qed.

(** A listpack with a string and two numbers, and two bytes of slack. *)
Definition ex_vs : list lpval := [VStr (str "redis"); VInt 1000; VInt (-70000)].
Definition ex_lp : bytes := lp_of 3 ex_vs [9; 9].

Lemma ex_fits : lp_fits ex_vs.
Proof. split; [|by vm_compute]. repeat constructor; simpl; range_lia. Qed.

Lemma ex_lp_repr : lp_repr ex_lp ex_vs.
Proof. exists 3, [9; 9]. split_and!; [done|by right|apply ex_fits]. Qed.

Lemma lp_traversal_witness :
  (p ← lpFirst ex_lp; lp_walk lpNext (length ex_lp) ex_lp p) = Some ex_vs ∧
  (p ← lpLast ex_lp; lp_walk lpPrev (length ex_lp) ex_lp p) = Some (reverse ex_vs) ∧
  ∃ lp', lpLength ex_lp = Some (lp', zlen ex_vs) ∧ lp_repr lp' ex_vs.
Proof. apply (lp_traversal ex_lp ex_vs). apply ex_lp_repr. Defined.

Lemma lpSeek_refines_witness :
  (q ← lpSeek ex_lp (-2); match q with Some p => Some <$> lpGet ex_lp p | None => Some None end)
  = Some (Some (VInt 1000)).
Proof. apply (lpSeek_refines ex_lp ex_vs (-2)). apply ex_lp_repr. Defined.

Lemma lpFind_refines_witness :
  lpFind ex_lp (lp_pos ex_vs 0) (str "1000") 0 = Some (Some (lp_pos ex_vs 1)) ∧
  ∀ v, ex_vs !! 0%nat = Some v → lpCompare ex_lp (lp_pos ex_vs 0) (str "1000") = Some (bool_decide (lp_string v = str "1000")).
Proof. apply (lpFind_refines ex_lp ex_vs (str "1000") 0 0); [apply ex_lp_repr|simpl; lia]. Defined.
