(* ===== verification/ListpackMod.v ===== *)
(** * listpack.c: modifications of a listpack are modifications of its list *)

From S2P Require Import Prelude Util Listpack ListpackEnc ListpackOps.

Local Open Scope Z_scope.

(** ** Insertion, replacement and deletion *)

(** The block around the elements from [i] on, [r] of which are replaced. *)
Lemma lp_of_cut num vs sl (i r : nat) :
  (i + r ≤ length vs)%nat →
  ∃ pre, lp_of num vs sl = (le_bytes 4 (lp_total vs) ++ le_bytes 2 num ++ pre) ++
           body (take r (drop i vs)) ++ (body (drop (i + r) vs) ++ [LP_EOF]) ++ sl ∧
         pre = body (take i vs) ∧
         lp_pos vs i = zlen (le_bytes 4 (lp_total vs) ++ le_bytes 2 num ++ pre) ∧
         lp_total vs = lp_pos vs i + zlen (body (take r (drop i vs))) + zlen (body (drop (i + r) vs) ++ [LP_EOF]).
Proof.
  intros Hi. exists (body (take i vs)).
  assert (body vs = body (take i vs) ++ body (take r (drop i vs)) ++ body (drop (i + r) vs)) as Hb.
  { rewrite <- !body_app. f_equal. by rewrite <- drop_drop, !take_drop. }
  pose proof (le4_length (lp_total vs)). pose proof (le2_length num).
  split_and!; [|done| |].
  - unfold lp_of. rewrite Hb. by rewrite <- !app_assoc.
  - unfold lp_pos. autorewrite with lp_len. lia.
  - unfold lp_total at 1, lp_pos. rewrite Hb. autorewrite with lp_len. simpl. lia.
Qed.

Lemma update_num h n r f :
  zlen h = 4 → in_urange 16 n →
  lp_update_num (h ++ le_bytes 2 n ++ r) f
  = Some (h ++ le_bytes 2 (if decide (n ≠ LP_HDR_NUMELE_UNKNOWN) then f n else n) ++ r).
Proof.
  intros Hh Hn. unfold lp_update_num. rewrite get_num by done. bind_simpl.
  case_decide; [|done]. by rewrite set_num by (done || apply le2_length).
Qed.

(** The moves of [lpInsert]: the bytes [e] take the place of [old]. *)
Lemma splice_ok junk (pre old suf sl e : bytes) total new :
  total = zlen pre + zlen old + zlen suf → new = zlen pre + zlen e + zlen suf → suf ≠ [] →
  let lp := pre ++ old ++ suf ++ sl in
  let lp := if decide (new > total ∧ new > zlen lp) then mem_realloc junk lp new else lp in
  ∃ lp1 J sl', mem_move lp (zlen pre + zlen e) (zlen pre + zlen old) (total - zlen pre - zlen old) = Some lp1 ∧
    zlen J = zlen e ∧ (if decide (new < total) then mem_realloc junk lp1 new else lp1) = pre ++ J ++ suf ++ sl'.
Proof.
  intros Ht Hnew Hsuf lp lp0. replace (total - zlen pre - zlen old) with (zlen suf) by lia.
  assert (∃ sl0, lp0 = pre ++ old ++ suf ++ sl0 ∧ new ≤ zlen lp0) as (sl0 & -> & Hle).
  { assert (zlen lp = total + zlen sl) as Hlen by (unfold lp; rewrite !length_app; lia).
    unfold lp0. case_decide as Hd; [|exists sl; split; [done|lia]].
    destruct (mem_realloc_grow junk lp new) as (x & Hx & Hxl); [lia|]. rewrite Hx. exists (sl ++ x).
    split; [unfold lp; by rewrite <- !app_assoc|]. lia. }
  destruct (mem_move_gap pre old suf sl0 (zlen e)) as (J & sl' & HJ & Hm); [lia|lia|].
  rewrite Hm. eexists _, J. case_decide as Hlt.
  - exists []. split_and!; [done..|]. rewrite app_nil_r, !app_assoc.
    apply mem_realloc_shrink. autorewrite with lp_len. lia.
  - exists sl'. by split_and!.
Qed.

(** The element stands for [ov]. *)
Definition ele_denotes (ele : lp_ele) (ov : option lpval) : Prop :=
  match ele, ov with
  | EleStr s, Some v => v = lp_norm s ∧ zlen s < 2 ^ 32 - 16
  | EleInt b, Some v => ∃ n, v = VInt n ∧ in_srange 64 n ∧ b = lpEncodeIntegerGetType n
  | EleNone, None => True
  | _, _ => False
  end.

Lemma encode_ele_ok ele ov :
  ele_denotes ele ov →
  match ov with
  | Some v => lp_encode_ele ele = (enc v, zlen (enc v)) ∧ val_ok v ∧ ele ≠ EleNone
  | None => lp_encode_ele ele = ([], 0) ∧ ele = EleNone
  end.
Proof.
  destruct ele as [s|b|], ov as [v|]; simpl; try done.
  - intros [-> Hs]. unfold lpEncodeGetType, lp_norm. destruct (lpStringToInt64 s) as [n|] eqn:Hn.
    + split; [done|]. split; [|done]. by apply string2ll_ok in Hn as [? _].
    + split; [|done]. f_equal. simpl. unfold lpEncodeString. pose proof (le4_length (zlen s)).
      repeat case_decide; cbn [length]; rewrite ?length_app; lia.
  - intros (n & -> & Hn & ->). by split.
Qed.

(** The number in the header after the update. *)
Lemma num_update num vs vs' (f : Z → Z) :
  num_ok num vs → f (zlen vs) = zlen vs' →
  (zlen vs < LP_HDR_NUMELE_UNKNOWN → zlen vs' ≤ LP_HDR_NUMELE_UNKNOWN) →
  num_ok (if decide (num ≠ LP_HDR_NUMELE_UNKNOWN) then f num else num) vs'.
Proof.
  unfold num_ok. intros [->|[-> Hlt]] Hf Hle.
  - rewrite decide_False by (intros Hc; by apply Hc). by left.
  - case_decide; [|by left]. destruct (decide (zlen vs' = LP_HDR_NUMELE_UNKNOWN)); [left|right]; lia.
Qed.

Lemma replaced_len_ok num vs sl i v :
  lp_fits vs → vs !! i = Some v → lpReplacedLen (lp_of num vs sl) (lp_pos vs i) = Some (zlen (entry v)).
Proof.
  intros Hfits Hi. destruct (lp_of_entry num vs sl i v Hfits Hi) as [[Hr _] Hok]. unfold lpReplacedLen.
  rewrite (ro_unsafe _ _ _ Hr). bind_simpl. rewrite <- entry_length.
  pose proof (lp_pos_bound vs i). pose proof (lp_pos_bound vs (S i)). pose proof (lp_pos_S vs i v Hi).
  pose proof (fits_total _ Hfits). rewrite uwrap_small by range_lia. unfold assert_integrity.
  rewrite lp_of_total by done. bind_simpl. by rewrite decide_True by (unfold LP_HDR_SIZE; lia).
Qed.

(** The list after the operation. *)
Definition spliced (vs : list lpval) (i r : nat) (ov : option lpval) : list lpval :=
  take i vs ++ option_list ov ++ drop (i + r) vs.

(** The bytes of the new entry. *)
Definition new_entry (ov : option lpval) : bytes := match ov with Some v => entry v | None => [] end.

Lemma spliced_body vs i r ov : body (spliced vs i r ov) = body (take i vs) ++ new_entry ov ++ body (drop (i + r) vs).
Proof. unfold spliced. rewrite !body_app. f_equal. f_equal. destruct ov; [|done]. simpl. by rewrite body_cons, app_nil_r. Qed.

(** Storing an entry in two parts. *)
Lemma write_two pre J rest (e1 e2 : bytes) :
  zlen J = zlen (e1 ++ e2) →
  (lp ← mem_write (pre ++ J ++ rest) (zlen pre) e1; mem_write lp (zlen pre + zlen e1) e2)
  = Some (pre ++ (e1 ++ e2) ++ rest).
Proof.
  intros HJ. rewrite length_app in HJ.
  assert (∃ J1 J2, J = J1 ++ J2 ∧ length J1 = length e1 ∧ length J2 = length e2) as (J1 & J2 & -> & H1 & H2).
  { exists (take (length e1) J), (drop (length e1) J). rewrite take_drop, length_take, length_drop.
    split_and!; [done|lia|lia]. }
  rewrite <- app_assoc, mem_write_mid by done. bind_simpl.
  rewrite (app_assoc pre e1), (mem_write_mid (pre ++ e1) J2 rest e2) by (rewrite ?length_app; lia).
  by rewrite <- !app_assoc.
Qed.

(** The first byte after the insertion point is the end marker only at the end. *)
Lemma first_of_rest vs (j : nat) :
  lp_fits vs → (j ≤ length vs)%nat →
  ∃ b t, body (drop j vs) ++ [LP_EOF] = b :: t ∧ (b = LP_EOF ↔ j = length vs).
Proof.
  intros Hfits Hj. destruct (decide (j < length vs)%nat) as [Hlt|Hlt].
  - destruct (lookup_lt_is_Some_2 vs j Hlt) as [v Hv].
    assert (val_ok v) as Hok by (eapply Forall_lookup_1; [apply Hfits|done]).
    rewrite (drop_S _ _ _ Hv), body_cons. pose proof (entry_ok_app [] v [] Hok) as [[(b & Hb & Hne) _ _ _] _].
    pose proof (entry_pos v Hok). destruct (entry v) as [|x t]; [simpl in *; lia|].
    exists x, ((t ++ body (drop (S j) vs)) ++ [LP_EOF]). split; [done|]. split; [|lia].
    intros ->. by injection Hb as <-.
  - rewrite drop_ge by lia. exists LP_EOF, []. split; [done|]. split; [lia|done].
Qed.

Lemma spliced_total vs i r ov num :
  lp_total (spliced vs i r ov) =
    zlen (le_bytes 4 (lp_total vs) ++ le_bytes 2 num ++ body (take i vs)) + zlen (new_entry ov) +
    zlen (body (drop (i + r) vs) ++ [LP_EOF]).
Proof.
  unfold lp_total at 1. rewrite spliced_body. autorewrite with lp_len.
  pose proof (le4_length (lp_total vs)). pose proof (le2_length num). simpl. lia.
Qed.

Lemma store_ok junk num vs sl ov (i r : nat) (delete count : bool) (enc' : bytes) enclen (backlen : bytes) :
  lp_fits vs → num_ok num vs → (i + r ≤ length vs)%nat →
  enc' ++ backlen = new_entry ov → zlen enc' = enclen → delete = bool_decide (ov = None) →
  (∀ v, ov = Some v → val_ok v) →
  num_ok (if count then if decide (num ≠ LP_HDR_NUMELE_UNKNOWN) then if delete then num - 1 else num + 1 else num
          else num) (spliced vs i r ov) →
  let vs' := spliced vs i r ov in
  let res := lpInsert_store junk (lp_of num vs sl) delete count enc' enclen backlen (lp_pos vs i)
               (zlen (body (take r (drop i vs)))) in
  if decide (lp_total vs' > UINT32_MAX) then res = Some None
  else ∃ lp', res = Some (Some (lp', if decide (ov = None ∧ (i + r = length vs)%nat) then None else Some (lp_pos vs i)))
       ∧ lp_repr lp' vs'.
Proof.
  intros Hfits Hnum Hi Henc <- Hdel Hval Hnum' vs' res. unfold res, lpInsert_store. clear res.
  destruct (lp_of_cut num vs sl i r Hi) as (pre & Hcut & Hpre & Hpos & Htot). rewrite lp_of_total by done.
  bind_simpl. pose proof (fits_total _ Hfits) as Hmax.
  pose proof (spliced_total vs i r ov num) as Htot'. fold vs' in Htot'. rewrite <- Hpre in Htot'.
  set (pre4 := le_bytes 4 (lp_total vs) ++ le_bytes 2 num ++ pre) in *.
  set (old := body (take r (drop i vs))) in *. set (suf := body (drop (i + r) vs) ++ [LP_EOF]) in *.
  assert (zlen enc' + zlen backlen = zlen (new_entry ov)) as Hlen by (rewrite <- Henc, length_app; lia).
  assert (zlen (new_entry ov) < 2 ^ 33) as Hsmall.
  { destruct ov as [v|]; [|done]. simpl. rewrite entry_length. pose proof (enc_length v (Hval v eq_refl)).
    pose proof (backlen_size_range (zlen (enc v))). range_lia. }
  rewrite (uwrap_small 64) by (unfold lp_total in *; range_lia).
  replace (lp_total vs + zlen enc' + zlen backlen - zlen old) with (lp_total vs') by lia.
  destruct (decide (lp_total vs' > UINT32_MAX)) as [Hbig|Hbig]; [done|]. rewrite Hcut, Hpos.
  destruct (first_of_rest vs (i + r) Hfits Hi) as (b & t & Hsuf & Hb). fold suf in Hsuf.
  destruct (splice_ok junk pre4 old suf sl (new_entry ov) (lp_total vs) (lp_total vs'))
    as (lp1 & J & sl' & Hm & HJ & Hlp1); [lia|done|by rewrite Hsuf|].
  replace (zlen pre4 + zlen enc' + zlen backlen) with (zlen pre4 + zlen (new_entry ov)) by lia.
  rewrite Hm. bind_simpl. rewrite Hlp1. clear Hm Hlp1 Hcut lp1 sl.
  assert (∃ b0, mem_get (pre4 ++ J ++ suf ++ sl') (zlen pre4) = Some b0 ∧
    (if decide (delete = true ∧ b0 = LP_EOF) then None else Some (zlen pre4)) =
    (if decide (ov = None ∧ (i + r)%nat = length vs) then None else Some (zlen pre4))) as (b0 & Hget & Hnewp).
  { subst delete. destruct ov as [v|].
    - pose proof (entry_pos v (Hval v eq_refl)). destruct J as [|x J]; [simpl in HJ; lia|].
      exists x. rewrite <- app_comm_cons, mem_get_here. split; [done|].
      by rewrite bool_decide_false, !decide_False by naive_solver.
    - destruct J; [|simpl in HJ; lia]. exists b. rewrite Hsuf. cbn [app]. rewrite mem_get_here. split; [done|].
      apply decide_ext. rewrite bool_decide_true by done. naive_solver. }
  rewrite Hget. bind_simpl. rewrite Hnewp.
  assert ((if delete then Some (pre4 ++ J ++ suf ++ sl')
           else lp ← mem_write (pre4 ++ J ++ suf ++ sl') (zlen pre4) enc'; mem_write lp (zlen pre4 + zlen enc') backlen)
          = Some (pre4 ++ new_entry ov ++ suf ++ sl')) as ->.
  { subst delete. destruct ov as [v|].
    - rewrite bool_decide_false by done. rewrite write_two by (by rewrite Henc). by rewrite Henc.
    - destruct J; [done|simpl in HJ; lia]. }
  bind_simpl. unfold pre4. rewrite <- !app_assoc.
  assert (∀ rest, (if count then lp_update_num (le_bytes 4 (lp_total vs) ++ le_bytes 2 num ++ rest)
      (λ n, if delete then n - 1 else n + 1) else Some (le_bytes 4 (lp_total vs) ++ le_bytes 2 num ++ rest))
    = Some (le_bytes 4 (lp_total vs) ++ le_bytes 2 (if count then if decide (num ≠ LP_HDR_NUMELE_UNKNOWN) then
        if delete then num - 1 else num + 1 else num else num) ++ rest)) as Hupd.
  { intros rest. destruct count; [|done]. apply update_num; [apply le4_length|by eapply num_ok_range]. }
  rewrite Hupd. bind_simpl. rewrite set_total by apply le4_length. bind_simpl.
  eexists. split; [done|]. eexists _, sl'. split; [|split; [exact Hnum'|]].
  - unfold lp_of. pose proof (spliced_body vs i r ov) as Hbody. fold vs' in Hbody.
    rewrite Hbody, <- Hpre. unfold suf. by rewrite <- !app_assoc.
  - split; [|lia]. destruct Hfits as [Hv _]. unfold vs', spliced. rewrite !Forall_app.
    split_and!; [by apply Forall_take| |by apply Forall_drop]. destruct ov as [v|]; repeat constructor. by apply Hval.
Qed.

Lemma spliced_length vs i r ov :
  (i + r ≤ length vs)%nat → zlen (spliced vs i r ov) = zlen vs - Z.of_nat r + (if ov then 1 else 0).
Proof.
  intros Hi. unfold spliced. rewrite !length_app, length_take, length_drop. destruct ov; simpl; lia.
Qed.

(** Where the new element goes, and how many elements it replaces. *)
Definition insert_at (ov : option lpval) (where_ : lp_where) (i : nat) : nat * nat :=
  match ov, where_ with
  | Some _, LP_BEFORE => (i, O)
  | Some _, LP_AFTER => (S i, O)
  | _, _ => (i, 1%nat)
  end.

Lemma body_one vs i v : vs !! i = Some v → zlen (body (take 1 (drop i vs))) = zlen (entry v).
Proof. intros Hi. rewrite (drop_S _ _ _ Hi). simpl. unfold body. simpl. by rewrite app_nil_r. Qed.

(** The second half of [lpInsert] after its first half. *)
Lemma insert_store_ok junk num vs sl ele ov (i r : nat) (repl : bool) :
  lp_fits vs → num_ok num vs → ele_denotes ele ov → (i + r ≤ length vs)%nat →
  (if repl then r = 1%nat else r = 0%nat ∧ is_Some ov) →
  let vs' := spliced vs i r ov in
  let delete := match ele with EleNone => true | _ => false end in
  let '(enc', enclen) := lp_encode_ele ele in
  let backlen := if delete then [] else lpEncodeBacklen enclen in
  let res := lpInsert_store junk (lp_of num vs sl) delete (bool_decide (¬ repl = true ∨ delete = true)) enc'
               enclen backlen (lp_pos vs i) (zlen (body (take r (drop i vs)))) in
  if decide (lp_total vs' > UINT32_MAX) then res = Some None
  else ∃ lp', res = Some (Some (lp', if decide (ov = None ∧ (i + r = length vs)%nat) then None else Some (lp_pos vs i)))
       ∧ lp_repr lp' vs'.
Proof.
  intros Hfits Hnum Hele Hi Hr vs' delete. pose proof (encode_ele_ok ele ov Hele) as Henc.
  pose proof (spliced_length vs i r ov Hi) as Hlen.
  assert (delete = bool_decide (ov = None)) as Hdel.
  { unfold delete. by destruct ele, ov; simpl in *. }
  assert (∀ e l b, lp_encode_ele ele = (e, l) → b = (if delete then [] else lpEncodeBacklen l) →
    e ++ b = new_entry ov ∧ zlen e = l) as Hnew.
  { intros e l b He ->. unfold delete. destruct ov as [v|].
    - destruct Henc as (Hel & _ & Hne). rewrite Hel in He. injection He as <- <-. by destruct ele.
    - destruct Henc as (Hel & ->). rewrite Hel in He. by injection He as <- <-. }
  destruct (lp_encode_ele ele) as [e l]. destruct (Hnew e l _ eq_refl eq_refl) as [Hcat Hzl].
  apply store_ok; try done.
  - intros v ->. by destruct Henc as (_ & ? & _).
  - rewrite Hdel. destruct repl, ov as [v|].
    + subst r. rewrite bool_decide_false by (rewrite bool_decide_false by done; naive_solver).
      unfold num_ok in *. simpl in Hlen. rewrite Hlen. replace (zlen vs - Z.of_nat 1 + 1) with (zlen vs) by lia. done.
    + subst r. rewrite bool_decide_true by (right; by apply bool_decide_true). simpl.
      apply (num_update num vs _ (λ n, n - 1)); simpl in Hlen; [done|lia|lia].
    + destruct Hr as [-> _]. rewrite bool_decide_true by (by left). simpl.
      apply (num_update num vs _ (λ n, n + 1)); simpl in Hlen; [done|lia|lia].
    + destruct Hr as [_ [? ?]]. done.
Qed.

(** The result of [lpInsert] at element [i]: the new list, where the new element (or the one
    after a deleted one) is, or NULL when the listpack would be too long. *)
Definition insert_spec (vs : list lpval) (ov : option lpval) (where_ : lp_where) (i : nat)
    (res : option (option (bytes * option Z))) : Prop :=
  let '(j, r) := insert_at ov where_ i in
  let vs' := spliced vs j r ov in
  if decide (lp_total vs' > UINT32_MAX) then res = Some None
  else ∃ lp', res = Some (Some (lp', if decide (ov = None ∧ (j + r = length vs)%nat) then None else Some (lp_pos vs j)))
       ∧ lp_repr lp' vs'.

Lemma lpInsert_ok junk lp vs ele ov where_ i :
  lp_repr lp vs → ele_denotes ele ov →
  (i < length vs)%nat ∨ i = length vs ∧ where_ = LP_BEFORE ∧ is_Some ov →
  insert_spec vs ov where_ i (lpInsert junk lp ele (lp_pos vs i) where_).
Proof.
  intros (num & sl & -> & Hnum & Hfits) Hele Hi. unfold insert_spec, lpInsert.
  set (delete := match ele with EleNone => true | _ => false end).
  assert (delete = bool_decide (ov = None)) as Hdel. { unfold delete. by destruct ele, ov; simpl in *. }
  pose proof (λ i r repl, insert_store_ok junk num vs sl ele ov i r repl Hfits Hnum Hele) as Hstore.
  fold delete in Hstore. destruct (lp_encode_ele ele) as [e l]. cbn zeta in Hstore.
  assert (∀ w : lp_where, bool_decide (w ≠ LP_REPLACE ∨ delete = true) =
    bool_decide (bool_decide (w = LP_REPLACE) ≠ true ∨ delete = true)) as Hcount.
  { intros w. apply bool_decide_ext. rewrite bool_decide_eq_true. done. }
  assert (∀ j, (j < length vs)%nat →
    lpReplacedLen (lp_of num vs sl) (lp_pos vs j) = Some (zlen (body (take 1 (drop j vs))))) as Hrep.
  { intros j Hj. destruct (lookup_lt_is_Some_2 vs j Hj) as [w Hw]. rewrite (body_one vs j w Hw).
    by apply replaced_len_ok. }
  clearbody delete. destruct ov as [v|].
  - rewrite (bool_decide_false (Some v = None)) in Hdel by done. subst delete. cbn iota. destruct where_.
    + cbn [mbind option_bind insert_at]. rewrite (Hcount LP_BEFORE). apply (Hstore i 0%nat false); [lia|eauto].
    + destruct Hi as [Hi|(_ & ? & _)]; [|done]. destruct (lookup_lt_is_Some_2 vs i Hi) as [w Hw].
      destruct (lp_of_entry num vs sl i w Hfits Hw) as [[Hr _] _]. rewrite (skip_ok _ _ _ Hr). bind_simpl.
      rewrite <- (lp_pos_S vs i w Hw). unfold assert_integrity. rewrite lp_of_total by done. bind_simpl.
      pose proof (lp_pos_bound vs (S i)). rewrite decide_True by (unfold LP_HDR_SIZE; lia).
      cbn [mbind option_bind insert_at]. rewrite (Hcount LP_BEFORE). apply (Hstore (S i) 0%nat false); [lia|eauto].
    + destruct Hi as [Hi|(_ & ? & _)]; [|done]. cbn [mbind option_bind insert_at]. rewrite Hrep by done.
      bind_simpl. rewrite (Hcount LP_REPLACE). apply (Hstore i 1%nat true); [lia|done].
  - rewrite (bool_decide_true (None = None)) in Hdel by done. subst delete. cbn iota.
    destruct Hi as [Hi|(_ & _ & [? ?])]; [|done]. cbn [mbind option_bind insert_at]. rewrite Hrep by done.
    bind_simpl. rewrite (Hcount LP_REPLACE).
    apply (Hstore i 1%nat true); [lia|done].
Qed.

(** C36. [lpInsert] on the bytes of the block is insertion before or after an element,
    replacement or deletion of an element of the list, whatever [lp_realloc] returned; it
    never leaves the block, and it returns NULL exactly when the listpack would be longer
    than the header can tell. *)
Theorem lpInsert_refines junk lp vs ele ov where_ i :
  lp_repr lp vs → ele_denotes ele ov →
  (i < length vs)%nat ∨ i = length vs ∧ where_ = LP_BEFORE ∧ is_Some ov →
  insert_spec vs ov where_ i (lpInsert junk lp ele (lp_pos vs i) where_).
Proof. apply lpInsert_ok. Qed.

(** ** The wrappers *)

(** The result of an operation that returns only the listpack. *)
Definition lp_result (vs' : list lpval) (res : option (option bytes)) : Prop :=
  if decide (lp_total vs' > UINT32_MAX) then res = Some None
  else ∃ lp', res = Some (Some lp') ∧ lp_repr lp' vs'.

Lemma insert_before_result junk lp vs ele v i :
  lp_repr lp vs → ele_denotes ele (Some v) → (i ≤ length vs)%nat →
  lp_result (take i vs ++ v :: drop i vs) (without_newp (lpInsert junk lp ele (lp_pos vs i) LP_BEFORE)).
Proof.
  intros Hlp Hele Hi. pose proof (lpInsert_ok junk lp vs ele (Some v) LP_BEFORE i Hlp Hele) as Hins.
  unfold insert_spec, insert_at, spliced in Hins. simpl in Hins. rewrite Nat.add_0_r in Hins. unfold lp_result.
  assert ((i < length vs)%nat ∨ i = length vs ∧ LP_BEFORE = LP_BEFORE ∧ is_Some (Some v)) as Hc.
  { destruct (decide (i = length vs)); [right; eauto|left; lia]. }
  specialize (Hins Hc). case_decide; [by rewrite Hins|]. destruct Hins as (lp' & -> & Hrepr). by exists lp'.
Qed.

Lemma append_ele_ok junk lp vs ele v :
  lp_repr lp vs → ele_denotes ele (Some v) →
  lp_result (vs ++ [v]) (n ← lpGetTotalBytes lp; without_newp (lpInsert junk lp ele (n - 1) LP_BEFORE)).
Proof.
  intros Hlp Hele. pose proof Hlp as (num & sl & Heq & Hnum & Hfits). rewrite Heq at 1. rewrite lp_of_total by done.
  bind_simpl. rewrite <- lp_pos_last.
  pose proof (insert_before_result junk lp vs ele v (length vs) Hlp Hele) as Hi.
  rewrite firstn_all, drop_all in Hi. apply Hi. lia.
Qed.

Lemma prepend_ele_ok junk lp vs ele v res :
  lp_repr lp vs → ele_denotes ele (Some v) → lp_result (vs ++ [v]) res →
  lp_result (v :: vs) (p ← lpFirst lp;
    match p with None => res | Some p => without_newp (lpInsert junk lp ele p LP_BEFORE) end).
Proof.
  intros Hlp Hele Hres. pose proof Hlp as (num & sl & Heq & Hnum & Hfits). rewrite Heq at 1.
  rewrite lpFirst_ok by done. bind_simpl. unfold lp_ptr. case_decide as H0.
  - apply (insert_before_result junk lp vs ele v 0 Hlp Hele). lia.
  - destruct vs; [done|simpl in H0; lia].
Qed.

(** [lpAppend], [lpPrepend] and their integer variants add an element at the end and at
    the front, a string that is a canonical number being stored as that number. *)
Theorem lp_append_prepend_ok junk lp vs s n :
  lp_repr lp vs → zlen s < 2 ^ 32 - 16 → in_srange 64 n →
  lp_result (vs ++ [lp_norm s]) (lpAppend junk lp s) ∧
  lp_result (lp_norm s :: vs) (lpPrepend junk lp s) ∧
  lp_result (vs ++ [VInt n]) (lpAppendInteger junk lp n) ∧
  lp_result (VInt n :: vs) (lpPrependInteger junk lp n).
Proof.
  intros Hlp Hs Hn. assert (ele_denotes (EleStr s) (Some (lp_norm s))) as Hele by done.
  assert (ele_denotes (EleInt (lpEncodeIntegerGetType n)) (Some (VInt n))) as Hint by (by exists n).
  split_and!; [|apply prepend_ele_ok| |apply prepend_ele_ok]; try done; by apply append_ele_ok.
Qed.

Lemma spliced_insert vs i v : (i < length vs)%nat → spliced vs i 1 (Some v) = <[i := v]> vs.
Proof. intros Hi. unfold spliced. rewrite Nat.add_1_r. symmetry. by apply insert_take_drop. Qed.

Lemma spliced_delete vs i : spliced vs i 1 None = delete i vs.
Proof. unfold spliced. rewrite Nat.add_1_r. symmetry. apply delete_take_drop. Qed.

(** [lpReplace] and [lpDelete] replace and remove the element the pointer is at, and leave
    the pointer at the new element, or at the one after the removed one (NULL at the end). *)
Theorem lp_replace_delete_ok junk lp vs s i :
  lp_repr lp vs → (i < length vs)%nat → zlen s < 2 ^ 32 - 16 →
  (if decide (lp_total (<[i := lp_norm s]> vs) > UINT32_MAX) then lpReplace junk lp (lp_pos vs i) s = Some None
   else ∃ lp', lpReplace junk lp (lp_pos vs i) s = Some (Some (lp', Some (lp_pos vs i))) ∧
               lp_repr lp' (<[i := lp_norm s]> vs)) ∧
  ∃ lp', lpDelete junk lp (lp_pos vs i) = Some (Some (lp', lp_ptr (delete i vs) i)) ∧ lp_repr lp' (delete i vs).
Proof.
  intros Hlp Hi Hs. unfold lpReplace, lpDelete. split.
  - pose proof (lpInsert_ok junk lp vs (EleStr s) (Some (lp_norm s)) LP_REPLACE i Hlp (conj eq_refl Hs) (or_introl Hi)) as H.
    unfold insert_spec, insert_at in H. rewrite spliced_insert in H by done. case_decide; [done|]. destruct H as (lp' & -> & Hr). exists lp'.
    split; [|done]. by rewrite decide_False by naive_solver.
  - pose proof (lpInsert_ok junk lp vs EleNone None LP_REPLACE i Hlp I (or_introl Hi)) as H.
    unfold insert_spec, insert_at in H. rewrite spliced_delete in H. rewrite decide_False in H.
    + destruct H as (lp' & -> & Hr). exists lp'. split; [|done]. do 3 f_equal. unfold lp_ptr.
      destruct (lookup_lt_is_Some_2 vs i Hi) as [v Hv]. pose proof (length_delete vs i (ex_intro _ v Hv)) as Hl.
      destruct (decide (S i = length vs)) as [He|He].
      * rewrite decide_True by (split; [done|lia]). by rewrite decide_False by lia.
      * rewrite decide_False by (intros [_ ?]; lia). rewrite decide_True by lia. unfold lp_pos. do 4 f_equal.
        rewrite delete_take_drop. by rewrite take_app_le, take_take, Nat.min_id by (rewrite length_take; lia).
    + destruct Hlp as (num & sl & _ & _ & [_ Ht]). rewrite delete_take_drop. unfold lp_total in *.
      rewrite body_app, length_app. rewrite <- (take_drop i vs), body_app, length_app in Ht.
      destruct (lookup_lt_is_Some_2 vs i Hi) as [v Hv]. rewrite (drop_S _ _ _ Hv), body_cons, length_app in Ht. lia.
Qed.

Definition ex_junk (i : nat) : Z := 170.

Lemma lpInsert_refines_witness :
  insert_spec ex_vs (Some (VInt 7)) LP_AFTER 0
    (lpInsert ex_junk ex_lp (EleStr (str "7")) (lp_pos ex_vs 0) LP_AFTER).
Proof.
  apply (lpInsert_refines ex_junk ex_lp ex_vs (EleStr (str "7")) (Some (VInt 7)) LP_AFTER 0).
  - apply ex_lp_repr.
  - split; [by vm_compute|simpl; range_lia].
  - left. simpl. lia.
Defined.

Lemma lp_append_prepend_ok_witness :
  lp_result (ex_vs ++ [VInt 12]) (lpAppend ex_junk ex_lp (str "12")) ∧
  lp_result (VInt 12 :: ex_vs) (lpPrepend ex_junk ex_lp (str "12")) ∧
  lp_result (ex_vs ++ [VInt 5000]) (lpAppendInteger ex_junk ex_lp 5000) ∧
  lp_result (VInt 5000 :: ex_vs) (lpPrependInteger ex_junk ex_lp 5000).
Proof.
  apply (lp_append_prepend_ok ex_junk ex_lp ex_vs (str "12") 5000); [apply ex_lp_repr|simpl; range_lia|range_lia].
Defined.

Lemma lp_replace_delete_ok_witness :
  (if decide (lp_total (<[1%nat := VStr (str "abc")]> ex_vs) > UINT32_MAX)
   then lpReplace ex_junk ex_lp (lp_pos ex_vs 1) (str "abc") = Some None
   else ∃ lp', lpReplace ex_junk ex_lp (lp_pos ex_vs 1) (str "abc") = Some (Some (lp', Some (lp_pos ex_vs 1))) ∧
               lp_repr lp' (<[1%nat := VStr (str "abc")]> ex_vs)) ∧
  ∃ lp', lpDelete ex_junk ex_lp (lp_pos ex_vs 1) = Some (Some (lp', lp_ptr (delete 1%nat ex_vs) 1)) ∧
         lp_repr lp' (delete 1%nat ex_vs).
Proof.
  apply (lp_replace_delete_ok ex_junk ex_lp ex_vs (str "abc") 1); [apply ex_lp_repr|simpl; lia|simpl; range_lia].
Defined.
