(* ===== verification/ListpackBulk.v ===== *)
(** * listpack.c: creation, deletion of ranges and merging *)

From S2P Require Import Prelude Util Listpack ListpackEnc ListpackOps ListpackMod.

Local Open Scope Z_scope.

(** ** Blocks *)

Lemma lp_of_app num vs sl : lp_of num vs sl = lp_of num vs [] ++ sl.
Proof. unfold lp_of. by rewrite app_nil_r, <- !app_assoc. Qed.

Lemma shrink_ok junk num vs sl : lp_fits vs → lpShrinkToFit junk (lp_of num vs sl) = Some (lp_of num vs []).
Proof.
  intros Hfits. unfold lpShrinkToFit. rewrite lp_of_total by done. bind_simpl.
  pose proof (lp_of_length num vs sl) as Hl. pose proof (lp_of_length num vs []) as Hl0. cbn [length] in Hl0. f_equal.
  case_decide.
  - rewrite lp_of_app. apply mem_realloc_shrink. lia.
  - destruct sl; [done|cbn [length] in Hl; lia].
Qed.

Lemma realloc_lp junk num vs sl n :
  lp_total vs ≤ n → ∃ sl', mem_realloc junk (lp_of num vs sl) n = lp_of num vs sl' ∧ zlen sl' = n - lp_total vs.
Proof.
  intros Hn. pose proof (lp_of_length num vs sl) as Hl. pose proof (lp_of_length num vs []) as Hl0. cbn [length] in Hl0.
  destruct (decide (zlen (lp_of num vs sl) ≤ n)) as [Hle|Hle].
  - destruct (mem_realloc_grow junk (lp_of num vs sl) n Hle) as (x & -> & Hx). exists (sl ++ x).
    rewrite (lp_of_app _ _ sl), (lp_of_app _ _ (sl ++ x)), <- app_assoc. split; [done|].
    rewrite length_app in Hx. rewrite length_app. lia.
  - exists (take (Z.to_nat (n - lp_total vs)) sl). split; [|rewrite length_take; lia].
    rewrite (lp_of_app _ _ sl), (lp_of_app _ _ (take _ sl)).
    rewrite <- (take_drop (Z.to_nat (n - lp_total vs)) sl) at 1. rewrite app_assoc.
    apply mem_realloc_shrink. rewrite length_app, length_take. lia.
Qed.

Lemma lp_of_repr num vs sl : num_ok num vs → lp_fits vs → lp_repr (lp_of num vs sl) vs.
Proof. intros. by exists num, sl. Qed.

(** The three first fields of a block. *)
Lemma lp_of_header num vs sl :
  lp_of num vs sl = le_bytes 4 (lp_total vs) ++ le_bytes 2 num ++ (body vs ++ [LP_EOF]) ++ sl.
Proof. unfold lp_of. by rewrite <- !app_assoc. Qed.

(** ** Deletion of a range *)

Section delete_range.
Context (junk : nat → Z) (num : Z) (vs : list lpval) (sl : bytes).
Context (Hfits : lp_fits vs).

Local Abbreviation lp := (lp_of num vs sl).

Lemma delete_loop_ok fuel (j n : nat) deleted :
  (j < length vs)%nat → (length vs - j < fuel)%nat →
  lpDeleteRange_loop fuel lp (lp_total vs) (lp_pos vs j) (Z.of_nat n) deleted
  = Some (lp_pos vs (j + (n `min` (length vs - j))), deleted + Z.of_nat (n `min` (length vs - j))).
Proof.
  revert j n deleted. induction fuel as [|fuel IH]; intros j n deleted Hj Hf; [lia|]. cbn [lpDeleteRange_loop].
  destruct n as [|n]; [rewrite decide_True by lia; f_equal; f_equal; [f_equal; lia|lia]|]. rewrite decide_False by lia.
  destruct (lookup_lt_is_Some_2 vs j Hj) as [v Hv]. destruct (lp_of_entry num vs sl j v Hfits Hv) as [[Hr _] _].
  rewrite (skip_ok _ _ _ Hr), <- (lp_pos_S vs j v Hv). bind_simpl.
  destruct (decide (S j < length vs)%nat) as [Hlt|Hlt].
  - destruct (lookup_lt_is_Some_2 vs (S j) Hlt) as [w Hw].
    destruct (lp_of_entry num vs sl (S j) w Hfits Hw) as [[[(b & -> & Hne) _ _ _] _] _]. bind_simpl.
    rewrite decide_False by done. rewrite (assert_valid_ok num vs sl Hfits _ _ Hw). bind_simpl.
    replace (Z.of_nat (S n) - 1) with (Z.of_nat n) by lia. rewrite IH by lia. f_equal. f_equal; [f_equal; lia|lia].
  - assert (S j = length vs) as He by lia. rewrite He, lp_pos_last, lp_of_eof. bind_simpl.
    rewrite decide_True by done. rewrite <- lp_pos_last. f_equal. f_equal; [f_equal; lia|lia].
Qed.

Lemma spliced_fits i r : lp_fits (spliced vs i r None).
Proof.
  destruct Hfits as [Hv Ht]. split.
  - unfold spliced. rewrite !Forall_app. split_and!; [by apply Forall_take|done|by apply Forall_drop].
  - unfold lp_total in *. rewrite spliced_body, length_app. simpl.
    rewrite <- (take_drop i vs), body_app, length_app in Ht.
    rewrite <- (take_drop r (drop i vs)), drop_drop, body_app, length_app in Ht. lia.
Qed.

Lemma with_entry_ok (i n : nat) :
  num_ok num vs → (i < length vs)%nat → (0 < n)%nat →
  let r := (n `min` (length vs - i))%nat in
  ∃ num', lpDeleteRangeWithEntry junk lp (lp_pos vs i) (Z.of_nat n)
          = Some (lp_of num' (spliced vs i r None) [], lp_ptr (spliced vs i r None) i)
          ∧ num_ok num' (spliced vs i r None).
Proof.
  intros Hnum Hi Hn r. assert (i + r ≤ length vs)%nat as Hir by lia. unfold lpDeleteRangeWithEntry, lpBytes.
  rewrite lp_of_total by done. bind_simpl. rewrite decide_False by lia.
  pose proof (fuel_enough num vs sl Hfits) as Hfuel. rewrite delete_loop_ok by lia. bind_simpl. fold r.
  destruct (lp_of_cut num vs sl i r Hir) as (pre & Hcut & -> & Hpos & Htot).
  pose proof (spliced_total vs i r None num) as Htot'.
  assert (lp_pos vs (i + r) = lp_pos vs i + zlen (body (take r (drop i vs)))) as Htail.
  { unfold lp_pos. rewrite <- take_take_drop, body_app, length_app. lia. }
  set (pre4 := le_bytes 4 (lp_total vs) ++ le_bytes 2 num ++ body (take i vs)) in *.
  set (old := body (take r (drop i vs))) in *. set (suf := body (drop (i + r) vs) ++ [LP_EOF]) in *.
  destruct (mem_move_gap pre4 old suf sl 0) as (J & sl' & HJ & Hm); [lia|rewrite !length_app; lia|].
  destruct J; [|simpl in HJ; lia]. cbn [app] in Hm. rewrite Htail, Hpos, Hcut.
  replace (lp_total vs - 1 - (zlen pre4 + zlen old) + 1) with (zlen suf) by lia.
  rewrite Z.add_0_r in Hm. rewrite Hm. bind_simpl. unfold pre4. rewrite <- !app_assoc.
  rewrite set_total by apply le4_length. bind_simpl.
  rewrite update_num by (apply le4_length || by eapply num_ok_range). bind_simpl.
  set (num' := if decide _ then _ else _). fold pre4. change (zlen (new_entry None)) with 0 in Htot'.
  replace (lp_total vs - (zlen pre4 + zlen old - zlen pre4)) with (lp_total (spliced vs i r None)) by lia.
  assert (le_bytes 4 (lp_total (spliced vs i r None)) ++ le_bytes 2 num' ++ body (take i vs) ++ suf ++ sl'
    = lp_of num' (spliced vs i r None) sl') as ->.
  { rewrite lp_of_header, spliced_body. unfold suf. simpl. by rewrite <- !app_assoc. }
  rewrite shrink_ok by apply spliced_fits. bind_simpl.
  pose proof (spliced_length vs i r None Hir) as Hlen. simpl in Hlen. rewrite <- Hpos.
  assert (lp_pos vs i = lp_pos (spliced vs i r None) i) as ->.
  { unfold lp_pos, spliced. rewrite take_app_le, take_take, Nat.min_id by (rewrite length_take; lia). done. }
  exists num'. split.
  - pose proof (at_ptr num' (spliced vs i r None) [] (spliced_fits i r) i ltac:(lia)) as Hat.
    destruct (mem_get _ _) as [b|]; [|done]. cbn [mbind option_bind] in *. do 2 f_equal.
    destruct (decide (b = LP_EOF)); [by injection Hat as <-|].
    apply bind_Some in Hat as (? & _ & Hat). apply bind_Some in Hat as (? & _ & [= <-]). done.
  - apply (num_update num vs _ (λ x, x - (0 + Z.of_nat r))); [done|lia|lia].
Qed.

End delete_range.

(** The list without [num] elements from [index] on, the index counted from the end when it is
    negative. *)
Definition delete_range (vs : list lpval) (index num : Z) : list lpval :=
  let j := seek_index vs index in
  if decide (0 ≤ j) then take (Z.to_nat j) vs ++ drop (Z.to_nat j + Z.to_nat num) vs else vs.

Lemma delete_range_spliced vs index num j r :
  seek_index vs index = Z.of_nat j → (j < length vs)%nat → 0 ≤ num → r = (Z.to_nat num `min` (length vs - j))%nat →
  delete_range vs index num = spliced vs j r None.
Proof.
  intros Hj Hlt Hn ->. unfold delete_range, spliced. rewrite Hj, decide_True by lia. rewrite Nat2Z.id. f_equal. simpl.
  destruct (decide (Z.to_nat num ≤ length vs - j)%nat); [by rewrite Nat.min_l by lia|].
  rewrite !drop_ge; [done|lia..].
Qed.

(** The end marker is moved to element [j]. *)
Lemma cut_ok junk vs sl j :
  lp_fits vs → (j < length vs)%nat → zlen vs < LP_HDR_NUMELE_UNKNOWN →
  (lp ← mem_write (lp_of (zlen vs) vs sl) (lp_pos vs j) [LP_EOF];
   lp ← lpSetTotalBytes lp (lp_pos vs j + 1);
   lp ← lpSetNumElements lp (Z.of_nat j);
   lpShrinkToFit junk lp) = Some (lp_of (Z.of_nat j) (take j vs) []).
Proof.
  intros Hfits Hj Hlt. destruct (lp_of_cut (zlen vs) vs sl j 0 ltac:(lia)) as (pre & -> & -> & Hpos & _).
  pose proof (first_of_rest vs j Hfits ltac:(lia)) as (b & t & Hrest & _). rewrite Nat.add_0_r, Hrest.
  replace (body (take 0 (drop j vs))) with (@nil Z) by (by rewrite take_0). cbn [app].
  rewrite (mem_write_mid _ [b] (t ++ sl) [LP_EOF]) by done. bind_simpl. rewrite <- !app_assoc.
  rewrite set_total by apply le4_length. bind_simpl.
  rewrite set_num by (apply le4_length || apply le2_length). bind_simpl.
  assert (lp_pos vs j + 1 = lp_total (take j vs)) as -> by (unfold lp_pos, lp_total; lia).
  change (?a ++ ?b ++ ?c ++ [LP_EOF] ++ t ++ sl) with (lp_of (Z.of_nat j) (take j vs) (t ++ sl)).
  apply shrink_ok. pose proof (spliced_fits vs Hfits j (length vs - j)) as Hf. unfold spliced in Hf.
  rewrite (drop_ge vs) in Hf by lia. simpl in Hf. by rewrite app_nil_r in Hf.
Qed.

Lemma lpDeleteRange_ok junk lp vs index num :
  lp_repr lp vs → 0 ≤ num →
  ∃ lp', lpDeleteRange junk lp index num = Some lp' ∧ lp_repr lp' (delete_range vs index num).
Proof.
  intros Hlp Hn. pose proof Hlp as (n & sl & -> & Hnum & Hfits). unfold lpDeleteRange.
  rewrite lp_of_num by done. bind_simpl. case_decide as H0.
  { eexists. split; [done|]. unfold delete_range. subst num. case_decide; [|done].
    by rewrite Nat.add_0_r, take_drop. }
  rewrite lpSeek_ok by done. bind_simpl.
  destruct (decide (0 ≤ seek_index vs index < zlen vs)) as [Hin|Hout].
  - rewrite decide_True by lia. set (j := Z.to_nat (seek_index vs index)).
    assert (seek_index vs index = Z.of_nat j) as Hj by lia. unfold lp_ptr. rewrite decide_True by lia.
    cbn zeta. set (index' := if decide (n ≠ LP_HDR_NUMELE_UNKNOWN ∧ index < 0) then n + index else index).
    rewrite (delete_range_spliced vs index num j _ Hj) by (done || lia).
    case_decide as Hend.
    + destruct Hend as [Hunk Hle]. destruct Hnum as [|[-> Hlt]]; [done|].
      assert (index' = Z.of_nat j) as ->.
      { rewrite <- Hj. unfold index', seek_index. destruct (decide (index < 0)); [by rewrite decide_True|].
        by rewrite decide_False by naive_solver. }
      unfold LP_HDR_NUMELE_UNKNOWN in *. rewrite !uwrap_small in Hle by (rewrite ?uwrap_small; range_lia).
      rewrite cut_ok by (done || lia). eexists. split; [done|].
      pose proof (spliced_fits vs Hfits j (Z.to_nat num `min` (length vs - j))) as Hf. unfold spliced in *.
      rewrite (drop_ge vs) in Hf |- * by lia. simpl in *. rewrite app_nil_r in Hf |- *. apply lp_of_repr; [|done].
      right. rewrite length_take. unfold LP_HDR_NUMELE_UNKNOWN. lia.
    + destruct (with_entry_ok junk n vs sl Hfits j (Z.to_nat num) Hnum ltac:(lia) ltac:(lia)) as (num' & Hw & Hnum').
      rewrite Z2Nat.id in Hw by lia. rewrite Hw. eexists. split; [done|]. apply lp_of_repr; [done|]. by apply spliced_fits.
  - eexists. assert (delete_range vs index num = vs) as ->.
    { unfold delete_range. case_decide; [|done]. by rewrite take_ge, drop_ge, app_nil_r by lia. }
    split; [|exact Hlp]. case_decide; [|done]. unfold lp_ptr. by rewrite decide_False by lia.
Qed.

(** ** Deletion of a set of elements *)

(** The indexes are increasing and below [n]. *)
Fixpoint increasing (ks : list nat) (n : nat) : Prop :=
  match ks with
  | [] => True
  | i :: ks => (i < n)%nat ∧ Forall (lt i) ks ∧ increasing ks n
  end.

(** The elements at [ks] are removed one by one, from the last one on. *)
Definition delete_all (vs : list lpval) (ks : list nat) : list lpval := foldr delete vs ks.

Lemma delete_all_take vs ks k :
  Forall (le k) ks → take k (delete_all vs ks) = take k vs.
Proof.
  induction 1 as [|i ks Hi _ IH]; [done|]. simpl. rewrite <- IH. rewrite delete_take_drop.
  destruct (decide (i ≤ length (delete_all vs ks))%nat).
  - by rewrite take_app_le, take_take, Nat.min_l by (rewrite ?length_take; lia).
  - rewrite (drop_ge (delete_all vs ks)), app_nil_r, take_take by lia. f_equal. lia.
Qed.

Lemma drop_delete (vs : list lpval) i : (i < length vs)%nat → drop i (delete i vs) = drop (S i) vs.
Proof. intros Hi. rewrite delete_take_drop. apply drop_app_length'. rewrite length_take. lia. Qed.

Lemma delete_all_length vs ks :
  increasing ks (length vs) → zlen (delete_all vs ks) = zlen vs - zlen ks ∧
  ∀ k, (k < length vs)%nat → Forall (lt k) ks → (k < length (delete_all vs ks))%nat.
Proof.
  induction ks as [|i ks IH]; [simpl; intros _; split; [lia|by intros k ? _]|].
  intros (Hi & Hlt & Hinc). destruct (IH Hinc) as [Hlen Hk].
  assert (zlen (delete_all vs (i :: ks)) = zlen vs - zlen (i :: ks)) as Hl.
  { simpl. pose proof (Hk i Hi Hlt) as Hin. rewrite length_delete by (by apply lookup_lt_is_Some_2). lia. }
  split; [done|]. intros k Hkl Hall. apply Forall_cons in Hall as [Hki Hall].
  pose proof (delete_all_take vs (i :: ks) (S k)) as Ht.
  assert (length (take (S k) (delete_all vs (i :: ks))) = S k) as Hlt'.
  { rewrite Ht, length_take; [lia|]. constructor; [lia|]. eapply Forall_impl; [done|]. simpl. lia. }
  rewrite length_take in Hlt'. lia.
Qed.

(** What is kept from element [i] on. *)
Lemma delete_all_kept vs i ks :
  increasing (i :: ks) (length vs) →
  drop i (delete_all vs (i :: ks)) =
    match ks with
    | [] => drop (S i) vs
    | i2 :: _ => take (i2 - S i) (drop (S i) vs) ++ drop i2 (delete_all vs ks)
    end.
Proof.
  intros (Hi & Hlt & Hinc). destruct (delete_all_length vs ks Hinc) as [_ Hk].
  change (delete_all vs (i :: ks)) with (delete i (delete_all vs ks)). rewrite drop_delete by by apply Hk.
  destruct ks as [|i2 ks]; [done|]. apply Forall_cons in Hlt as [Hi2 _].
  rewrite <- (take_drop i2 (delete_all vs (i2 :: ks))) at 1. rewrite delete_all_take.
  - destruct Hinc as (Hl & _ & _). rewrite drop_app_le by (rewrite length_take; lia). f_equal.
    by rewrite skipn_firstn_comm.
  - destruct Hinc as (_ & Hall & _). constructor; [done|]. eapply Forall_impl; [done|]. simpl. lia.
Qed.

(** The loop, with [G] the gap between the elements kept so far and element [i]. *)
Lemma batch_loop_ok vs sl i ks A G :
  lp_fits vs → increasing (i :: ks) (length vs) → zlen A + zlen G = lp_pos vs i →
  ∃ sl', lpBatchDelete_loop (A ++ G ++ (body (drop i vs) ++ [LP_EOF]) ++ sl) (lp_total vs) (zlen A)
           (lp_pos vs <$> i :: ks)
         = Some (A ++ (body (drop i (delete_all vs (i :: ks))) ++ [LP_EOF]) ++ sl',
                 zlen A + zlen (body (drop i (delete_all vs (i :: ks))) ++ [LP_EOF])).
Proof.
  intros Hfits. revert i A G. induction ks as [|i2 ks IH]; intros i A G Hinc HA;
    rewrite (delete_all_kept _ _ _ Hinc); destruct Hinc as (Hi & Hlt & Hinc);
    destruct (lookup_lt_is_Some_2 vs i Hi) as [v Hv]; rewrite (drop_S _ _ _ Hv), body_cons;
    assert (val_ok v) as Hok by (eapply Forall_lookup_1; [apply Hfits|done]);
    pose proof (lp_pos_S vs i v Hv) as HS; cbn [fmap list_fmap lpBatchDelete_loop];
    rewrite <- (app_assoc (entry v)), <- (app_assoc (entry v)), (app_assoc A G).
  - destruct (entry_ok_app (A ++ G) v ((body (drop (S i) vs) ++ [LP_EOF]) ++ sl) Hok) as [Hr _].
    rewrite length_app, Nat2Z.inj_add, HA in Hr. pose proof Hr as [(b & -> & Hne) _ _ _]. bind_simpl.
    rewrite decide_False by done. rewrite (skip_ok _ _ _ Hr), <- HS. bind_simpl.
    rewrite decide_False by naive_solver. pose proof (lp_pos_bound vs (S i)). rewrite decide_True by lia.
    set (suf := body (drop (S i) vs) ++ [LP_EOF]).
    assert (lp_total vs - lp_pos vs (S i) = zlen suf) as ->.
    { unfold lp_total, lp_pos, suf. rewrite <- (take_drop (S i) vs) at 1. rewrite body_app, !length_app. simpl. lia. }
    destruct (mem_move_left A (G ++ entry v) suf sl) as (G' & _ & Hm).
    replace (lp_pos vs (S i)) with (zlen A + zlen (G ++ entry v)) by (rewrite length_app; lia).
    rewrite <- !app_assoc in Hm |- *. rewrite Hm. by exists (G' ++ sl).
  - apply Forall_cons in Hlt as [Hi2 _]. pose proof Hinc as (Hl2 & _ & _).
    set (seg := take (i2 - S i) (drop (S i) vs)).
    assert (drop (S i) vs = seg ++ drop i2 vs) as Hseg.
    { unfold seg. rewrite <- (take_drop (i2 - S i) (drop (S i) vs)) at 1. rewrite drop_drop. do 2 f_equal. lia. }
    assert (lp_pos vs i2 = lp_pos vs (S i) + zlen (body seg)) as Hpos2.
    { unfold lp_pos, seg. replace i2 with (S i + (i2 - S i))%nat at 1 by lia.
      rewrite <- take_take_drop, body_app, length_app. lia. }
    rewrite Hseg, !body_app, <- (app_assoc (body seg)), <- (app_assoc (body seg)).
    set (rest := (body (drop i2 vs) ++ [LP_EOF]) ++ sl).
    destruct (entry_ok_app (A ++ G) v (body seg ++ rest) Hok) as [Hr _].
    rewrite length_app, Nat2Z.inj_add, HA in Hr. pose proof Hr as [(b & -> & Hne) _ _ _]. bind_simpl.
    rewrite decide_False by done. rewrite (skip_ok _ _ _ Hr), <- HS. bind_simpl.
    case_decide as Heq.
    + destruct Heq as [_ Heq]. destruct (body seg) as [|] eqn:Hb; [|simpl in Hpos2; lia]. cbn [app].
      destruct (IH i2 A (G ++ entry v) Hinc) as (sl' & Hloop); [rewrite length_app; simpl in *; lia|].
      exists sl'. rewrite <- Hloop. unfold rest. by rewrite <- !app_assoc.
    + assert (0 < zlen (body seg)).
      { destruct (body seg); [|simpl; lia]. exfalso. apply Heq. rewrite Hpos2. simpl. split; [done|lia]. }
      rewrite decide_True by lia. replace (lp_pos vs i2 - lp_pos vs (S i)) with (zlen (body seg)) by lia.
      destruct (mem_move_left A (G ++ entry v) (body seg) rest) as (G' & HG' & Hm). rewrite length_app in HG'.
      replace (lp_pos vs (S i)) with (zlen A + zlen (G ++ entry v)) by (rewrite length_app; lia).
      rewrite <- !app_assoc in Hm |- *. rewrite Hm. bind_simpl.
      destruct (IH i2 (A ++ body seg) G' Hinc) as (sl' & Hloop); [rewrite length_app; lia|].
      exists sl'. rewrite length_app, Nat2Z.inj_add in Hloop. fold rest in Hloop. rewrite <- !app_assoc in Hloop.
      etrans; [exact Hloop|]. rewrite <- !app_assoc. do 2 f_equal. rewrite !length_app. lia.
Qed.

Lemma delete_all_fits vs ks : lp_fits vs → lp_fits (delete_all vs ks).
Proof.
  intros Hfits. induction ks as [|i ks IH]; [done|]. simpl. rewrite <- spliced_delete. by apply spliced_fits.
Qed.

(** The block the loop leaves. *)
Lemma batch_block vs i ks sl num n :
  increasing (i :: ks) (length vs) →
  let vs' := delete_all vs (i :: ks) in
  let tail := body (drop i vs') ++ [LP_EOF] in
  le_bytes 4 n ++ le_bytes 2 num ++ body (take i vs) ++ tail ++ sl
    = le_bytes 4 n ++ le_bytes 2 num ++ body vs' ++ [LP_EOF] ++ sl ∧
  lp_total vs' = zlen (le_bytes 4 n ++ le_bytes 2 num ++ body (take i vs)) + zlen tail.
Proof.
  intros Hinc vs' tail.
  assert (take i vs' = take i vs) as Htake.
  { apply delete_all_take. destruct Hinc as (_ & Hlt & _). constructor; [done|]. eapply Forall_impl; [done|]. simpl. lia. }
  assert (body vs' = body (take i vs) ++ body (drop i vs')) as Hbody.
  { rewrite <- Htake, <- body_app. by rewrite take_drop. }
  unfold tail, lp_total. rewrite Hbody. split; [by rewrite <- !app_assoc|].
  pose proof (le4_length n). pose proof (le2_length num). autorewrite with lp_len. simpl. lia.
Qed.

Lemma lpBatchDelete_ok junk lp vs ks :
  lp_repr lp vs → increasing ks (length vs) →
  ∃ lp', lpBatchDelete junk lp (lp_pos vs <$> ks) = Some lp' ∧ lp_repr lp' (delete_all vs ks).
Proof.
  intros Hlp Hinc. destruct ks as [|i ks]; [by exists lp|]. destruct Hlp as (num & sl & -> & Hnum & Hfits).
  rewrite fmap_cons. cbn [lpBatchDelete]. rewrite lp_of_total by done. bind_simpl.
  rewrite lp_of_eof. bind_simpl. rewrite decide_False by (intros Hc; by apply Hc).
  destruct (lp_of_cut num vs sl i 0) as (pre & Hcut & -> & Hpos & _); [destruct Hinc; lia|].
  rewrite take_0, Nat.add_0_r in Hcut. change (body [] ++ ?x) with x in Hcut.
  set (pre4 := le_bytes 4 (lp_total vs) ++ le_bytes 2 num ++ body (take i vs)) in *.
  destruct (batch_loop_ok vs sl i ks pre4 [] Hfits Hinc) as (sl' & Hloop); [cbn [length]; lia|].
  destruct (batch_block vs i ks sl' num (lp_total vs) Hinc) as [Hblock Htot]. fold pre4 in Htot.
  pose proof (delete_all_fits vs (i :: ks) Hfits) as Hfits'.
  destruct (delete_all_length vs _ Hinc) as [Hlen _]. cbn zeta in *. set (vs' := delete_all vs (i :: ks)) in *.
  rewrite fmap_cons, Hpos in Hloop. cbn [app] in Hloop. rewrite Hcut, Hpos, Hloop. bind_simpl.
  replace (lp_total vs - (lp_total vs - (zlen pre4 + zlen (body (drop i vs') ++ [LP_EOF])))) with (lp_total vs') by lia.
  rewrite <- Hpos. unfold pre4. rewrite <- (app_assoc (le_bytes 4 _)), <- (app_assoc (le_bytes 2 _)), Hblock.
  assert (mem_get (le_bytes 4 (lp_total vs) ++ le_bytes 2 num ++ body vs' ++ [LP_EOF] ++ sl') (lp_total vs' - 1)
    = Some LP_EOF) as ->.
  { replace (_ ++ _) with ((le_bytes 4 (lp_total vs) ++ le_bytes 2 num ++ body vs') ++ LP_EOF :: sl')
      by (by rewrite <- !app_assoc).
    replace (lp_total vs' - 1) with (zlen (le_bytes 4 (lp_total vs) ++ le_bytes 2 num ++ body vs')); [apply mem_get_here|].
    pose proof (le4_length (lp_total vs)). pose proof (le2_length num). unfold lp_total at 2. autorewrite with lp_len. lia. }
  bind_simpl. rewrite decide_False by (intros Hc; by apply Hc).
  rewrite set_total by apply le4_length. bind_simpl.
  rewrite update_num by (apply le4_length || by eapply num_ok_range). bind_simpl.
  set (num' := if decide _ then _ else _). exists (lp_of num' vs' []). split.
  - by apply (shrink_ok junk num' vs' sl').
  - apply lp_of_repr; [|done]. apply (num_update num vs vs' (λ n, n - zlen (lp_pos vs i :: (lp_pos vs <$> ks)))); [done| |lia].
    rewrite Hlen. cbn [length]. rewrite length_fmap. lia.
Qed.

(** [lpDeleteRange] removes a range of elements, given by a possibly negative index and a
    count that may pass the end, and [lpBatchDelete] removes the elements at the pointers it is
    given, in one pass over the block; both leave the other elements as they are and never
    leave the block. *)
Theorem lpDeleteRange_refines junk lp vs index num ks :
  lp_repr lp vs → 0 ≤ num → increasing ks (length vs) →
  (∃ lp', lpDeleteRange junk lp index num = Some lp' ∧ lp_repr lp' (delete_range vs index num)) ∧
  (∃ lp', lpBatchDelete junk lp (lp_pos vs <$> ks) = Some lp' ∧ lp_repr lp' (delete_all vs ks)).
Proof. intros. split; [by apply lpDeleteRange_ok|by apply lpBatchDelete_ok]. Qed.

Lemma lpDeleteRange_refines_witness :
  (∃ lp', lpDeleteRange ex_junk ex_lp (-2) 1 = Some lp' ∧ lp_repr lp' (delete_range ex_vs (-2) 1)) ∧
  (∃ lp', lpBatchDelete ex_junk ex_lp (lp_pos ex_vs <$> [0; 2]%nat) = Some lp' ∧ lp_repr lp' (delete_all ex_vs [0; 2]%nat)).
Proof.
  apply (lpDeleteRange_refines ex_junk ex_lp ex_vs (-2) 1 [0; 2]%nat); [apply ex_lp_repr|lia|].
  simpl. split_and!; try lia; [|done..]. repeat constructor.
Defined.

(** ** Creation, copy and merging *)

Lemma lpNew_ok junk capacity : ∃ lp', lpNew junk capacity = Some lp' ∧ lp_repr lp' [].
Proof.
  unfold lpNew. set (n := if decide _ then _ else _).
  assert (7 ≤ n) as Hn by (unfold n, LP_HDR_SIZE; case_decide; lia).
  pose proof (mem_realloc_length junk [] n ltac:(lia)) as Hl. destruct (mem_realloc junk [] n) as [|b0 [|b1 [|b2 [|b3
    [|b4 [|b5 [|b6 rest]]]]]]]; cbn [length] in Hl; try lia.
  change (b0 :: _) with ([b0; b1; b2; b3] ++ [b4; b5] ++ [b6] ++ rest).
  rewrite (set_total [b0; b1; b2; b3]) by done. bind_simpl.
  rewrite (set_num _ [b4; b5]) by (done || apply le4_length). bind_simpl.
  rewrite app_assoc. rewrite mem_write_mid; [|by vm_compute|done].
  eexists. split; [done|]. rewrite <- app_assoc. exists 0, rest. split_and!; [done|by right|].
  split; [constructor|by vm_compute].
Qed.

(** The number [lpMerge] stores. *)
Lemma merge_num_ok vs1 vs2 :
  num_ok (if decide (zlen vs1 + zlen vs2 < 65535) then zlen vs1 + zlen vs2 else 65535) (vs1 ++ vs2).
Proof. unfold num_ok, LP_HDR_NUMELE_UNKNOWN. rewrite length_app. case_decide; [right|left]; lia. Qed.

Lemma merge_total vs1 vs2 : lp_total (vs1 ++ vs2) = lp_total vs1 + lp_total vs2 - LP_HDR_SIZE - 1.
Proof. unfold lp_total, LP_HDR_SIZE. rewrite body_app, length_app. lia. Qed.

(** The entries and the end marker of the source are copied over the end marker of the target. *)
Lemma merge_append n1 n2 vs1 vs2 sl1 sl2 :
  zlen sl1 = lp_total vs2 - 7 →
  (s ← mem_read (lp_of n2 vs2 sl2) LP_HDR_SIZE (lp_total vs2 - LP_HDR_SIZE);
   mem_write (lp_of n1 vs1 sl1) (lp_total vs1 - 1) s)
  = Some (le_bytes 4 (lp_total vs1) ++ le_bytes 2 n1 ++ body (vs1 ++ vs2) ++ [LP_EOF]).
Proof.
  intros Hsl. pose proof (le4_length (lp_total vs1)). pose proof (le2_length n1).
  pose proof (le4_length (lp_total vs2)). pose proof (le2_length n2).
  rewrite (lp_of_header n2), app_assoc.
  rewrite mem_read_mid by (unfold LP_HDR_SIZE, lp_total; autorewrite with lp_len; simpl; lia). bind_simpl.
  replace (lp_of n1 vs1 sl1) with ((le_bytes 4 (lp_total vs1) ++ le_bytes 2 n1 ++ body vs1) ++ (LP_EOF :: sl1) ++ [])
    by (unfold lp_of; by rewrite app_nil_r, <- !app_assoc).
  rewrite mem_write_mid.
  - by rewrite app_nil_r, body_app, <- !app_assoc.
  - unfold lp_total at 1. autorewrite with lp_len. lia.
  - unfold lp_total in Hsl. autorewrite with lp_len. simpl. lia.
Qed.

(** The entries of the target are moved and the source is copied before them. *)
Lemma merge_prepend n1 n2 vs1 vs2 sl1 sl2 :
  zlen sl2 = lp_total vs1 - 7 →
  (t ← mem_move (lp_of n2 vs2 sl2) (lp_total vs1 - 1) LP_HDR_SIZE (lp_total vs2 - LP_HDR_SIZE);
   s ← mem_read (lp_of n1 vs1 sl1) 0 (lp_total vs1 - 1);
   mem_write t 0 s)
  = Some (le_bytes 4 (lp_total vs1) ++ le_bytes 2 n1 ++ body (vs1 ++ vs2) ++ [LP_EOF]).
Proof.
  intros Hsl. pose proof (le4_length (lp_total vs1)). pose proof (le2_length n1).
  pose proof (le4_length (lp_total vs2)). pose proof (le2_length n2).
  set (h2 := le_bytes 4 (lp_total vs2) ++ le_bytes 2 n2). set (suf := body vs2 ++ [LP_EOF]).
  set (h1 := le_bytes 4 (lp_total vs1) ++ le_bytes 2 n1 ++ body vs1).
  assert (zlen h2 = 6) as Hh2 by (unfold h2; autorewrite with lp_len; lia).
  assert (zlen suf = lp_total vs2 - LP_HDR_SIZE) as Hsuf
    by (unfold suf, lp_total, LP_HDR_SIZE; autorewrite with lp_len; simpl; lia).
  assert (zlen h1 = lp_total vs1 - 1) as Hh1 by (unfold h1, lp_total at 2; autorewrite with lp_len; lia).
  pose proof (lp_pos_bound vs1 0) as Hb1.
  destruct (mem_move_gap h2 [] suf sl2 (lp_total vs1 - 7)) as (J & sl' & HJ & Hm); [lia|rewrite !length_app; cbn [length]; lia|].
  assert (sl' = []) as ->.
  { apply mem_move_length in Hm. rewrite !length_app in Hm. cbn [length] in Hm. destruct sl'; [done|cbn [length] in Hm; lia]. }
  replace (lp_of n2 vs2 sl2) with (h2 ++ [] ++ suf ++ sl2) by (rewrite lp_of_header; unfold h2, suf; cbn [app]; by rewrite <- !app_assoc).
  replace (zlen h2 + (lp_total vs1 - 7)) with (lp_total vs1 - 1) in Hm by lia.
  replace (zlen h2 + zlen []) with LP_HDR_SIZE in Hm by (rewrite Hh2; done).
  rewrite <- Hsuf, Hm. bind_simpl.
  replace (lp_of n1 vs1 sl1) with ([] ++ h1 ++ [LP_EOF] ++ sl1) by (unfold lp_of, h1; cbn [app]; by rewrite <- !app_assoc).
  rewrite mem_read_mid by done. bind_simpl.
  rewrite app_assoc. etrans; [apply (mem_write_mid [] (h2 ++ J)); [done|rewrite length_app; lia]|]. cbn [app].
  unfold h1, suf. by rewrite app_nil_r, body_app, <- !app_assoc.
Qed.

(** [lpMerge] makes one listpack with the elements of the first followed by those of the
    second, whichever of the two blocks it extends; its assertion fails when the result would
    be too long.  [lpNew] makes an empty listpack, [lpDup] an equal one. *)
Theorem lpMerge_refines junk lp1 lp2 vs1 vs2 capacity :
  lp_repr lp1 vs1 → lp_repr lp2 vs2 →
  (if decide (lp_total (vs1 ++ vs2) < UINT32_MAX)
   then ∃ lp', lpMerge junk lp1 lp2 = Some lp' ∧ lp_repr lp' (vs1 ++ vs2)
   else lpMerge junk lp1 lp2 = None) ∧
  (∃ lp', lpNew junk capacity = Some lp' ∧ lp_repr lp' []) ∧
  (∃ lp', lpDup lp1 = Some lp' ∧ lp_repr lp' vs1).
Proof.
  intros (n1 & sl1 & -> & Hnum1 & Hfits1) (n2 & sl2 & -> & Hnum2 & Hfits2). split_and!; [|apply lpNew_ok|].
  - unfold lpMerge, lpBytes.
    destruct (lpLength_ok n1 vs1 sl1 Hfits1 Hnum1) as (m1 & Hl1 & _).
    destruct (lpLength_ok n2 vs2 sl2 Hfits2 Hnum2) as (m2 & Hl2 & _).
    rewrite lp_of_total by done. bind_simpl. rewrite Hl1. bind_simpl.
    rewrite lp_of_total by done. bind_simpl. rewrite Hl2. bind_simpl.
    replace (lp_total vs1 + lp_total vs2 - LP_HDR_SIZE - 1) with (lp_total (vs1 ++ vs2)) by apply merge_total.
    pose proof (lp_pos_bound vs1 0). pose proof (lp_pos_bound vs2 0). pose proof (merge_total vs1 vs2) as Htot. unfold LP_HDR_SIZE in Htot.
    assert (∀ n, ∃ lp', (t ← lpSetNumElements (le_bytes 4 (lp_total vs1) ++ le_bytes 2 n ++ body (vs1 ++ vs2) ++ [LP_EOF])
          (if decide (zlen vs1 + zlen vs2 < 65535) then zlen vs1 + zlen vs2 else 65535);
        lpSetTotalBytes t (lp_total (vs1 ++ vs2))) = Some lp' ∧
      (lp_total (vs1 ++ vs2) < UINT32_MAX → lp_repr lp' (vs1 ++ vs2))) as Hhdr.
    { intros n. rewrite set_num by (apply le4_length || apply le2_length). bind_simpl.
      rewrite set_total by apply le4_length. eexists. split; [done|]. intros Hlt.
      eexists _, []. split; [done|]. split; [apply merge_num_ok|]. split; [|lia].
      apply Forall_app. split; apply fits_vals; done. }
    destruct (decide (lp_total vs1 >= lp_total vs2)) as [Hge|Hge].
    + rewrite bool_decide_true by done. cbn iota. destruct (decide (lp_total (vs1 ++ vs2) < UINT32_MAX)); [|done].
      destruct (realloc_lp junk m1 vs1 sl1 (lp_total (vs1 ++ vs2))) as (sl' & -> & Hsl'); [lia|].
      rewrite merge_append by lia. bind_simpl. destruct (Hhdr m1) as (lp' & -> & Hr). eauto.
    + rewrite bool_decide_false by done. cbn iota. destruct (decide (lp_total (vs1 ++ vs2) < UINT32_MAX)); [|done].
      destruct (realloc_lp junk m2 vs2 sl2 (lp_total (vs1 ++ vs2))) as (sl' & -> & Hsl'); [lia|].
      rewrite (merge_prepend m1) by lia. bind_simpl. destruct (Hhdr m1) as (lp' & -> & Hr). eauto.
  - unfold lpDup, lpBytes. rewrite lp_of_total by done. bind_simpl. rewrite lp_of_app.
    pose proof (lp_of_length n1 vs1 []) as Hl. cbn [length] in Hl.
    rewrite (mem_read_mid [] (lp_of n1 vs1 []) sl1) by (done || lia). eexists. split; [done|]. by apply lp_of_repr.
Qed.

Definition ex_vs2 : list lpval := [VInt 3].
Definition ex_lp2 : bytes := lp_of LP_HDR_NUMELE_UNKNOWN ex_vs2 [].

Lemma ex_lp2_repr : lp_repr ex_lp2 ex_vs2.
Proof. apply lp_of_repr; [by left|]. split; [|by vm_compute]. repeat constructor; simpl; range_lia. Qed.

Lemma lpMerge_refines_witness :
  (if decide (lp_total (ex_vs2 ++ ex_vs) < UINT32_MAX)
   then ∃ lp', lpMerge ex_junk ex_lp2 ex_lp = Some lp' ∧ lp_repr lp' (ex_vs2 ++ ex_vs)
   else lpMerge ex_junk ex_lp2 ex_lp = None) ∧
  (∃ lp', lpNew ex_junk 100 = Some lp' ∧ lp_repr lp' []) ∧
  (∃ lp', lpDup ex_lp2 = Some lp' ∧ lp_repr lp' ex_vs2).
Proof. apply (lpMerge_refines ex_junk ex_lp2 ex_lp ex_vs2 ex_vs 100); [apply ex_lp2_repr|apply ex_lp_repr]. Defined.
