(* ===== verification/ListpackVal.v ===== *)
(** * listpack.c: validation of a listpack from an untrusted source *)

From S2P Require Import Prelude Util Listpack ListpackEnc ListpackOps ListpackBulk.

Local Open Scope Z_scope.

(** ** Valid listpacks are accepted *)

(** The callback accepts the elements from the [i]-th on, with [a] as its data before and [a'] after. *)
Inductive cb_accepts {A} (cb : option (Z → Z → A → option (A * bool))) (num : Z) (vs : list lpval) : nat → A → A → Prop :=
  | accepts_end a : cb_accepts cb num vs (length vs) a a
  | accepts_null i a : cb = None → (i ≤ length vs)%nat → cb_accepts cb num vs i a a
  | accepts_step f i a b a' :
      cb = Some f → (i < length vs)%nat → f (lp_pos vs i) num a = Some (b, true) → cb_accepts cb num vs (S i) b a' → cb_accepts cb num vs i a a'.

Lemma accepts_le {A} cb num vs i (a a' : A) : cb_accepts cb num vs i a a' → (i ≤ length vs)%nat.
Proof. destruct 1; lia. Qed.

(** Before the end, the callback accepts the next element. *)
Lemma accepts_inv {A} cb num vs i (a a' : A) :
  cb_accepts cb num vs i a a' → (i < length vs)%nat →
  ∃ b, (match cb with Some f => f (lp_pos vs i) num a | None => Some (a, true) end) = Some (b, true) ∧ cb_accepts cb num vs (S i) b a'.
Proof. destruct 1 as [a|i a -> Hi|f i a b a' -> Hi Hf Hb]; intros Hlt; [lia| |by exists b]. exists a. split; [done|]. by apply accepts_null. Qed.

Lemma lp_validate_loop_ok {A} num vs sl cb fuel i (a a' : A) :
  lp_fits vs → cb_accepts cb num vs i a a' → (length vs - i < fuel)%nat →
  lpValidate_loop fuel (lp_of num vs sl) (lp_total vs) num cb (lp_pos vs i) (Z.of_nat i) a
  = Some (a', Some (Some (lp_total vs - 1), zlen vs)).
Proof.
  intros Hfits. revert i a. induction fuel as [|fuel IH]; intros i a Hcb Hf; [lia|]. cbn [lpValidate_loop].
  pose proof (accepts_le _ _ _ _ _ _ Hcb) as Hi. destruct (decide (i < length vs)%nat) as [Hlt|Hlt].
  - destruct (lookup_lt_is_Some_2 vs i Hlt) as [v Hv].
    destruct (lp_of_entry num vs sl i v Hfits Hv) as [[[(b & -> & Hne) _ _ _] _] _]. bind_simpl.
    rewrite decide_False by done. rewrite (validate_next_ok num vs sl Hfits i v Hv). bind_simpl.
    destruct (accepts_inv _ _ _ _ _ _ Hcb Hlt) as (a1 & -> & Hcb'). bind_simpl. cbn [negb].
    pose proof (length_body vs (fits_vals _ Hfits)). pose proof (fits_total _ Hfits). unfold lp_total in *.
    rewrite uwrap_small by range_lia. replace (Z.of_nat i + 1) with (Z.of_nat (S i)) by lia. apply IH; [done|lia].
  - assert (i = length vs) as -> by lia. assert (a' = a) as ->. { inversion Hcb; subst; [done|done|lia]. } rewrite lp_pos_last, lp_of_eof. bind_simpl.
    by rewrite decide_True by done.
Qed.

Lemma validate_accepts {A} num vs cb (a a' : A) deep :
  lp_fits vs → num_ok num vs → cb_accepts cb num vs 0 a a' →
  lpValidateIntegrity (lp_of num vs []) deep cb a = Some (if deep then a' else a, true).
Proof.
  intros Hfits Hnum Hcb. unfold lpValidateIntegrity. pose proof (lp_pos_bound vs 0) as Hb.
  pose proof (lp_of_length num vs []) as Hlen. cbn [length] in Hlen. rewrite Z.add_0_r in Hlen. rewrite Hlen.
  rewrite decide_False by (unfold LP_HDR_SIZE; lia). rewrite lp_of_total by done. bind_simpl.
  rewrite decide_False by (intros Hc; by apply Hc). rewrite lp_of_eof. bind_simpl.
  rewrite decide_False by (intros Hc; by apply Hc). destruct deep; [|done]. cbn [negb].
  rewrite lp_of_num by done. bind_simpl.
  pose proof (length_body vs (fits_vals _ Hfits)). unfold lp_total in Hlen.
  pose proof (lp_validate_loop_ok num vs [] cb (length (lp_of num vs [])) 0 a a' Hfits Hcb ltac:(lia)) as Hl.
  change (lp_pos vs 0) with LP_HDR_SIZE in Hl. change (Z.of_nat 0) with 0 in Hl. rewrite Hl. bind_simpl.
  rewrite decide_False by (intros Hc; by apply Hc). rewrite decide_False; [done|].
  intros [Hu Hne]. destruct Hnum as [|[? _]]; done.
Qed.

(** ** Accepted listpacks are safe to read *)

Section safety.
Context (lp : bytes).
Context (Hbytes : bytes_ok lp).

Lemma get_Some p : 0 ≤ p < zlen lp → ∃ b, mem_get lp p = Some b ∧ 0 ≤ b < 256.
Proof.
  intros Hp. unfold mem_get. rewrite decide_True by lia.
  destruct (lookup_lt_is_Some_2 lp (Z.to_nat p)) as [b Hb]; [lia|]. exists b. split; [done|].
  eapply Forall_lookup_1 in Hbytes; [|done]. done.
Qed.

Lemma testbit_small w a l : 0 ≤ w ≤ l → in_urange w a → Z.testbit a l = false.
Proof. intros Hw Ha. unfold in_urange in Ha. apply (Z.bounded_iff_bits_nonneg w a); lia. Qed.

Lemma lor_range w a b : 0 ≤ w → in_urange w a → in_urange w b → in_urange w (Z.lor a b).
Proof.
  intros Hw Ha Hb. assert (0 ≤ Z.lor a b) by (apply Z.lor_nonneg; unfold in_urange in *; lia).
  split; [done|]. apply Z.bounded_iff_bits_nonneg; [done..|]. intros l Hl.
  by rewrite Z.lor_spec, !(testbit_small w) by done.
Qed.

(** The length before [p] is read whole, and keeps the bits of its last byte. *)
Lemma decode_loop_safe fuel p val shift :
  (0 < fuel ≤ 5)%nat → shift = 7 * (5 - Z.of_nat fuel) → Z.of_nat fuel - 1 ≤ p < zlen lp → in_urange 64 val →
  ∃ r, lpDecodeBacklen_loop fuel lp p val shift = Some r ∧ in_urange 64 r ∧
       (Z.testbit val 4 = true → Z.testbit r 4 = true).
Proof.
  revert p val shift. induction fuel as [|fuel IH]; intros p val shift Hf Hs Hp Hval; [lia|]. cbn [lpDecodeBacklen_loop].
  destruct (get_Some p) as (b & -> & Hb); [lia|]. bind_simpl.
  set (val' := Z.lor val _).
  assert (in_urange 64 val') as Hval'.
  { apply lor_range; [lia|done|]. change 127 with (Z.ones 7). rewrite Z.land_ones, Z.shiftl_mul_pow2 by lia.
    pose proof (Z.mod_pos_bound b (2 ^ 7) ltac:(lia)). assert (2 ^ shift ≤ 2 ^ 28) by (apply Z.pow_le_mono_r; lia).
    assert (0 < 2 ^ shift) by (apply Z.pow_pos_nonneg; lia). unfold in_urange. pow2_lit. nia. }
  assert (Z.testbit val 4 = true → Z.testbit val' 4 = true) as Hbit.
  { intros Hv. unfold val'. by rewrite Z.lor_spec, Hv. }
  case_decide; [by exists val'|]. case_decide as H28.
  - exists ULLONG_MAX. split_and!; [done|range_lia|done].
  - destruct (IH (p - 1) val' (shift + 7)) as (r & -> & Hr & Hrb); [lia..|done|]. exists r. split_and!; [done..|]. auto.
Qed.

Lemma decode_safe p : 4 ≤ p < zlen lp → ∃ r, lpDecodeBacklen lp p = Some r ∧ in_urange 64 r ∧
  (∀ b, mem_get lp p = Some b → 0xF0 ≤ b → 16 ≤ r).
Proof.
  intros Hp. unfold lpDecodeBacklen. change 5%nat with (S 4). cbn [lpDecodeBacklen_loop].
  destruct (get_Some p) as (b & Hg & Hb); [lia|]. rewrite Hg. bind_simpl.
  pose proof (forall_below 256 (λ b, implb (0xF0 <=? b) ((Z.testbit (Z.lor 0 (Z.shiftl (Z.land b 127) 0)) 4) &&
     negb (Z.land b 128 =? 0))) ltac:(vm_compute; reflexivity) b Hb) as Hfb.
  cbn beta in Hfb.
  assert (in_urange 64 (Z.lor 0 (Z.shiftl (Z.land b 127) 0))) as Hv.
  { rewrite Z.lor_0_l, Z.shiftl_0_r. change 127 with (Z.ones 7). rewrite Z.land_ones by lia.
    pose proof (Z.mod_pos_bound b (2 ^ 7) ltac:(lia)). range_lia. }
  destruct (decode_loop_safe 4 (p - 1) (Z.lor 0 (Z.shiftl (Z.land b 127) 0)) (0 + 7)) as (r & Hr & Hrr & Hbit); [lia..|done|].
  case_decide as H0.
  - eexists. split_and!; [done..|]. intros ? [= <-] Hge. replace (0xF0 <=? b) with true in Hfb by lia.
    rewrite H0 in Hfb. by rewrite andb_false_r in Hfb.
  - rewrite decide_False by lia. exists r. split_and!; [done..|]. intros ? [= <-] Hge.
    replace (0xF0 <=? b) with true in Hfb by lia. cbn [implb] in Hfb. apply andb_true_iff in Hfb as [Ht _].
    specialize (Hbit Ht). destruct (decide (16 ≤ r)); [done|].
    rewrite (testbit_small 4) in Hbit by range_lia. done.
Qed.

(** The 32 bit length of a string is so large that the size of the entry wraps around. *)
Lemma wrapped_length p n :
  0 ≤ p → mem_get lp p = Some 0xF0 → mem_read lp (p + 1) 4 = Some n → 2 ^ 32 ≤ 5 + le_val n →
  0 ≤ u32 (5 + le_val n) ≤ 4 ∧ ∃ b, mem_get lp (p + u32 (5 + le_val n)) = Some b ∧ 0xF0 ≤ b.
Proof.
  intros Hp Hg Hr Hbig. pose proof (mem_read_length _ _ _ _ Hr) as Hlen.
  pose proof (mem_read_bytes_ok _ _ _ _ Hr Hbytes) as Hn. pose proof (le_val_range n Hn) as Hrange.
  rewrite Hlen in Hrange. apply mem_read_bytes_at in Hr as [_ Hat].
  rewrite <- (le_bytes_val 4 n Hlen Hn) in Hat. set (v := le_val n) in *. clearbody v.
  assert (∃ s, 0 ≤ s ≤ 4 ∧ v = 2 ^ 32 - 5 + s) as (s & Hs & ->) by (exists (v - (2 ^ 32 - 5)); range_lia).
  assert (u32 (5 + (2 ^ 32 - 5 + s)) = s) as ->.
  { unfold uwrap. symmetry. apply (Z.mod_unique_pos _ _ 1); range_lia. }
  split; [done|].
  assert (∀ j x, le_bytes 4 (2 ^ 32 - 5 + s) !! j = Some x → s = Z.of_nat (S j) → mem_get lp (p + s) = Some x) as Hget.
  { intros j x Hx ->. apply Hat in Hx. unfold mem_get. rewrite decide_True by lia. rewrite <- Hx. f_equal. lia. }
  destruct (decide (s = 0)) as [->|]; [exists 0xF0; by rewrite Z.add_0_r|].
  destruct (decide (s = 1)) as [->|]; [eexists; split; [by apply (Hget 0%nat _ eq_refl)|done]|].
  destruct (decide (s = 2)) as [->|]; [eexists; split; [by apply (Hget 1%nat _ eq_refl)|done]|].
  destruct (decide (s = 3)) as [->|]; [eexists; split; [by apply (Hget 2%nat _ eq_refl)|done]|].
  assert (s = 4) as -> by lia. eexists; split; [by apply (Hget 3%nat _ eq_refl)|done].
Qed.

Lemma size_get p b lb :
  0 ≤ p → mem_get lp p = Some b → b ≠ LP_EOF →
  lpCurrentEncodedSizeBytes lp p = Some lb → lb ≠ 0 → p + lb < zlen lp →
  ∃ s, lpCurrentEncodedSizeUnsafe lp p = Some s ∧ 0 ≤ s ∧
    ((p + s ≤ zlen lp → is_Some (lpGet lp p)) ∨ (s ≤ 4 ∧ ∃ b', mem_get lp (p + s) = Some b' ∧ 0xF0 ≤ b')).
Proof.
  intros Hp Hg Hne Hlb Hlb0 Hin. unfold lpCurrentEncodedSizeBytes in Hlb. unfold lpCurrentEncodedSizeUnsafe, lpGet, lpGetWithSize.
  rewrite Hg in *. cbn [mbind option_bind] in *.
  assert (∀ off n, 0 ≤ off → 0 ≤ n → p + off + n ≤ zlen lp →
    is_Some (fst <$> (s ← mem_read lp (p + off) n; Some (VStr s, Some (off + n + lpBacklenSize (n + off)))))) as Hstr.
  { intros off n Ho Hn Hl. destruct (mem_read_Some lp (p + off) n) as [x ->]; [unfold in_block; lia|]. eauto. }
  assert (∀ n a m e, 0 ≤ n → p + 1 + n ≤ zlen lp →
    is_Some (fst <$> (bs ← mem_read lp (p + 1) n; Some (VInt (lp_signed (le_val bs) a m), Some (e : Z))))) as Hint.
  { intros n a m e Hn Hl. destruct (mem_read_Some lp (p + 1) n) as [x ->]; [unfold in_block; lia|]. eauto. }
  destruct (is_7BIT_UINT b). { eexists. split; [reflexivity|]. split; [lia|]. left. intros _. eauto. }
  destruct (is_6BIT_STR b).
  { assert (0 ≤ Z.land b 63) by (apply Z.land_nonneg; right; lia).
    eexists. split; [reflexivity|]. split; [lia|]. left. intros Hl. apply Hstr; lia. }
  destruct (is_13BIT_INT b).
  { eexists. split; [reflexivity|]. split; [lia|]. left. intros Hl. destruct (get_Some (p + 1)) as (b1 & -> & _); [lia|]. eauto. }
  destruct (decide (b = 241)) as [_|Hn241]; [eexists; split; [reflexivity|]; split; [lia|]; left; intros Hl; apply Hint; lia|].
  destruct (decide (b = 242)) as [_|Hn242]; [eexists; split; [reflexivity|]; split; [lia|]; left; intros Hl; apply Hint; lia|].
  destruct (decide (b = 243)) as [_|Hn243]; [eexists; split; [reflexivity|]; split; [lia|]; left; intros Hl; apply Hint; lia|].
  destruct (decide (b = 244)) as [_|Hn244]; [eexists; split; [reflexivity|]; split; [lia|]; left; intros Hl; apply Hint; lia|].
  rewrite decide_False in Hlb by tauto. destruct (is_12BIT_STR b).
  { injection Hlb as <-. unfold LP_12BIT_STR_LEN. rewrite Hg. bind_simpl.
    destruct (get_Some (p + 1)) as (b1 & -> & Hb1); [lia|]. bind_simpl. set (len := Z.lor _ _).
    assert (0 ≤ len) by (apply Z.lor_nonneg; split; [|lia]; apply Z.shiftl_nonneg, Z.land_nonneg; right; lia).
    eexists. split; [reflexivity|]. split; [lia|]. left. intros Hl. apply Hstr; lia. }
  destruct (decide (b = 240)) as [->|Hn240]; [|by rewrite decide_False in Hlb by done; simplify_eq].
  injection Hlb as <-. unfold LP_32BIT_STR_LEN.
  destruct (mem_read_Some lp (p + 1) 4) as [n Hn]; [unfold in_block; lia|]. rewrite Hn. bind_simpl.
  pose proof (mem_read_length _ _ _ _ Hn) as Hlen. pose proof (le_val_range n (mem_read_bytes_ok _ _ _ _ Hn Hbytes)) as Hr.
  rewrite Hlen in Hr. eexists. split; [reflexivity|]. split; [by apply uwrap_range|].
  destruct (decide (2 ^ 32 ≤ 5 + le_val n)) as [Hbig|Hsmall].
  - right. destruct (wrapped_length p n Hp Hg Hn Hbig) as [Hs Hb]. split; [lia|done].
  - left. rewrite uwrap_small by range_lia. intros Hl. apply Hstr; range_lia.
Qed.

(** [lpValidateNext] never leaves the block, and the entry it accepts can be read and passed. *)
Lemma validate_next_safe p :
  6 ≤ p < zlen lp → zlen lp < 2 ^ 32 →
  ∃ r, lpValidateNext lp (Some p) (zlen lp) = Some r ∧
    match r with
    | None => True
    | Some None => mem_get lp p = Some LP_EOF
    | Some (Some q) => p < q < zlen lp ∧ lpSkip lp p = Some q ∧ is_Some (lpGet lp p)
    end.
Proof.
  intros Hp Hmax. unfold lpValidateNext. rewrite bool_decide_false by (unfold LP_HDR_SIZE; lia).
  destruct (get_Some p) as (b & Hg & Hb); [lia|]. rewrite Hg. bind_simpl.
  case_decide as Heof; [eexists; split; [done|]; by subst|].
  destruct (lpCurrentEncodedSizeBytes lp p) as [lb|] eqn:Hlb.
  2: { unfold lpCurrentEncodedSizeBytes in Hlb. rewrite Hg in Hlb. cbn [mbind option_bind] in Hlb.
       repeat (case_match; [done|]). done. }
  bind_simpl. case_decide as Hlb0; [by eexists|]. case_bool_decide as Hr1; [by eexists|].
  unfold LP_HDR_SIZE in *. destruct (size_get p b lb ltac:(lia) Hg Heof Hlb Hlb0 ltac:(lia)) as (s & Hs & Hs0 & Hget).
  rewrite Hs. bind_simpl. pose proof (backlen_size_range s). case_bool_decide as Hr2; [by eexists|].
  destruct (decode_safe (p + (s + lpBacklenSize s) - 1)) as (r & Hr & Hrr & Hr16); [lia|]. rewrite Hr. bind_simpl.
  case_decide as Hne; [by eexists|]. eexists. split; [done|]. split; [lia|]. split.
  - unfold lpSkip. by rewrite Hs.
  - destruct Hget as [Hget|(Hs4 & b' & Hb' & Hge)]; [apply Hget; lia|]. exfalso.
    assert (lpBacklenSize s = 1) as H1 by (unfold lpBacklenSize, lpEncodeBacklen; by rewrite decide_True by lia).
    rewrite H1 in *. replace (p + (s + 1) - 1) with (p + s) in * by lia. specialize (Hr16 _ Hb' Hge).
    destruct (decide (r = ULLONG_MAX)) as [->|Hnm].
    + change (u64 (ULLONG_MAX + 1)) with 0 in Hne. lia.
    + rewrite uwrap_small in Hne by range_lia. lia.
Qed.

(** The end of [lpFirst] and [lpNext]. *)
Definition lp_at (p : Z) : option (option Z) :=
  b ← mem_get lp p;
  if decide (b = LP_EOF) then Some None
  else n ← lpBytes lp; _ ← lpAssertValidEntry lp n p; Some (Some p).

(** A callback that does not fail on an element that can be read. *)
Definition cb_total {A} (cb : option (Z → Z → A → option (A * bool))) : Prop :=
  ∀ f p num a, cb = Some f → is_Some (lpGet lp p) → is_Some (f p num a).

(** The loop of [lpValidateIntegrity] never leaves the block; when it reaches the end marker,
    a loop with [lpNext] reads all the elements it counted. *)
Lemma validate_loop_safe {A} fuel numele cb p count (a : A) :
  cb_total cb → lpGetTotalBytes lp = Some (zlen lp) → zlen lp < 2 ^ 32 →
  6 ≤ p < zlen lp → zlen lp - p ≤ Z.of_nat fuel → 0 ≤ count ≤ p →
  ∃ a' r, lpValidate_loop fuel lp (zlen lp) numele cb p count a = Some (a', r) ∧
    ∀ q n, r = Some (Some q, n) →
      ∃ vs, (∀ k, (fuel ≤ k)%nat → (x ← lp_at p; lp_walk lpNext k lp x) = Some vs) ∧ n = count + zlen vs.
Proof.
  intros Hcb Htot Hmax. revert p count a. induction fuel as [|fuel IH]; intros p count a Hp Hf Hc; [lia|].
  cbn [lpValidate_loop]. destruct (get_Some p) as (b & Hg & Hb); [lia|]. rewrite Hg. bind_simpl.
  unfold lp_at at 1. rewrite Hg. bind_simpl. case_decide as Heof.
  { eexists _, _. split; [done|]. intros q n [= <- <-]. exists []. split; [by intros [|k] _|simpl; lia]. }
  destruct (validate_next_safe p Hp Hmax) as (r & Hr & Hspec). rewrite Hr. bind_simpl.
  destruct r as [[q|]|]; [|congruence|by eexists _, _]. destruct Hspec as (Hq & Hskip & [v Hv]).
  assert (∃ a1 ok, (match cb with Some f => f p numele a | None => Some (a, true) end) = Some (a1, ok)) as (a1 & ok & ->).
  { destruct cb as [f|]; [|by eexists _, _]. destruct (Hcb f p numele a eq_refl) as [[a1 ok] ->]; [by eexists|by eexists _, _]. }
  bind_simpl. destruct ok; [|by eexists _, _]. cbn [negb]. rewrite uwrap_small by range_lia.
  destruct (IH q (count + 1) a1) as (a' & r & Hloop & Hwalk); [lia..|]. rewrite Hloop. eexists _, _. split; [done|].
  intros q' n ->. destruct (Hwalk q' n eq_refl) as (vs & Hvs & ->). exists (v :: vs). split; [|simpl; lia].
  intros [|k] Hk; [lia|]. unfold lpBytes, lpAssertValidEntry. rewrite Htot. bind_simpl. rewrite Hr.
  cbn [mbind option_bind lp_walk]. rewrite Hv. bind_simpl.
  change (lpNext lp p) with (lpSkip lp p ≫= lp_at). rewrite Hskip. bind_simpl.
  specialize (Hvs k ltac:(lia)). destruct (lp_at q) as [x|]; [|done]. cbn [mbind option_bind] in *. by rewrite Hvs.
Qed.

(** [lpValidateIntegrity] returns on any bytes, and the bytes it accepts can be read. *)
Lemma validate_safe {A} deep cb (a : A) :
  cb_total cb →
  ∃ a' ok, lpValidateIntegrity lp deep cb a = Some (a', ok) ∧
    (deep = true → ok = true →
     ∃ vs, (p ← lpFirst lp; lp_walk lpNext (length lp) lp p) = Some vs ∧
           ∀ n, lpGetNumElements lp = Some n → n ≠ LP_HDR_NUMELE_UNKNOWN → n = zlen vs).
Proof.
  intros Hcb. unfold lpValidateIntegrity. case_decide as Hsz; [by exists a, false|]. unfold LP_HDR_SIZE in Hsz.
  assert (∃ n, lpGetTotalBytes lp = Some n ∧ n < 2 ^ 32) as (n & Htot & Hn).
  { unfold lpGetTotalBytes. destruct (mem_read_Some lp 0 4) as [bs Hbs]; [unfold in_block; lia|]. rewrite Hbs.
    eexists. split; [done|]. pose proof (le_val_range bs (mem_read_bytes_ok _ _ _ _ Hbs Hbytes)) as Hr.
    rewrite (mem_read_length _ _ _ _ Hbs) in Hr. by destruct Hr. }
  rewrite Htot. bind_simpl. destruct (decide (n ≠ zlen lp)) as [|Heq]; [by exists a, false|].
  apply dec_stable in Heq. subst n. destruct (get_Some (zlen lp - 1)) as (b & Hb & _); [lia|]. rewrite Hb.
  bind_simpl. case_decide; [by exists a, false|]. destruct deep; [|by exists a, true]. cbn [negb].
  assert (∃ numele, lpGetNumElements lp = Some numele) as [numele Hnum].
  { unfold lpGetNumElements. destruct (mem_read_Some lp 4 2) as [bs ->]; [unfold in_block; lia|]. by eexists. }
  rewrite Hnum. bind_simpl.
  destruct (validate_loop_safe (length lp) numele cb 6 0 a Hcb Htot Hn) as (a' & r & Hloop & Hwalk); [lia..|].
  unfold LP_HDR_SIZE. rewrite Hloop. bind_simpl. destruct r as [[p count]|]; [|by exists a', false].
  destruct (decide (p ≠ Some (zlen lp - 1))) as [|Hp]; [by exists a', false|]. apply dec_stable in Hp. subst p.
  destruct (Hwalk _ _ eq_refl) as (vs & Hvs & ->). case_decide as Hc; [by exists a', false|]. exists a', true. split; [done|].
  intros _ _. exists vs. split; [by apply (Hvs (length lp))|]. intros n' [= <-] Hunk.
  destruct (decide (numele = 0 + zlen vs)); [lia|]. exfalso. by apply Hc.
Qed.

End safety.

(** C37. [lpValidateIntegrity] accepts every well-formed listpack whose elements the callback accepts,
    never leaves the block whatever the bytes are, and when it accepts them after a deep check, reading
    all elements with [lpFirst], [lpNext] and [lpGet] stays inside the block, fails no assertion and
    ends after as many elements as the header says.  The callback sees only elements that can be read. *)
Theorem lpValidateIntegrity_sound {A : Type} :
  (∀ num vs cb (a a' : A) deep, lp_fits vs → num_ok num vs → cb_accepts cb num vs 0 a a' →
     lpValidateIntegrity (lp_of num vs []) deep cb a = Some (if deep then a' else a, true)) ∧
  (∀ lp deep cb (a : A), bytes_ok lp → cb_total lp cb →
     ∃ a' ok, lpValidateIntegrity lp deep cb a = Some (a', ok) ∧
       (deep = true → ok = true →
        ∃ vs, (p ← lpFirst lp; lp_walk lpNext (length lp) lp p) = Some vs ∧
              ∀ n, lpGetNumElements lp = Some n → n ≠ LP_HDR_NUMELE_UNKNOWN → n = zlen vs)).
Proof. split; [intros; by apply validate_accepts|intros; by apply validate_safe]. Qed.

(** A block that claims more bytes than it has is refused, as is one whose 32 bit string
    length wraps around. *)
Example validate_ex :
  lpValidateIntegrity (lp_of 3 ex_vs []) true None () = Some ((), true) ∧
  lpValidateIntegrity (lp_of 3 ex_vs [9]) true None () = Some ((), false) ∧
  lpValidateIntegrity (le_bytes 4 13 ++ [1; 0; 0xF0; 0xFC; 0xFF; 0xFF; 0xFF; 2; 255]) true None () = Some ((), false).
Proof. by vm_compute. Qed.

Lemma lpValidateIntegrity_sound_witness :
  lpValidateIntegrity (lp_of 3 ex_vs []) true None 5 = Some (5, true) ∧
  ∃ a' ok, lpValidateIntegrity [8; 0; 0; 0; 1; 0; 5; 255] true None 5 = Some (a', ok) ∧
    (true = true → ok = true →
     ∃ vs, (p ← lpFirst [8; 0; 0; 0; 1; 0; 5; 255];
            lp_walk lpNext (length [8; 0; 0; 0; 1; 0; 5; 255]) [8; 0; 0; 0; 1; 0; 5; 255] p) = Some vs ∧
       ∀ n, lpGetNumElements [8; 0; 0; 0; 1; 0; 5; 255] = Some n → n ≠ LP_HDR_NUMELE_UNKNOWN → n = zlen vs).
Proof.
  split.
  - apply (proj1 lpValidateIntegrity_sound 3 ex_vs None 5 5 true); [apply ex_fits|by right|]. apply accepts_null; [done|lia].
  - apply (proj2 lpValidateIntegrity_sound [8; 0; 0; 0; 1; 0; 5; 255] true None 5); [by repeat constructor|done].
Defined.
