(* ===== verification/Zskiplist.v ===== *)
(** * t_zset.c: the skip list of sorted sets

Nodes live in a heap of addresses; a dangling pointer, an access beyond the levels of a node
and a failed assertion are [None].  Scores are IEEE doubles ([spec_float] of the Standard
Library with its comparison); members are byte strings compared by [sdscmp].  The loops of the
code that go down the levels are instances of one function. *)

From Stdlib Require Export SpecFloat.
From S2P Require Import Prelude.

Local Open Scope Z_scope.

(** ** Data *)

Abbreviation double := spec_float.
Abbreviation addr := positive.

Record zskiplistLevel := mk_level { forward : option addr; span : Z }.

(** [ele] is [None] in the header, whose string is NULL. *)
Record zskiplistNode := mk_node {
  ele : option bytes;
  score : double;
  backward : option addr;
  level : list zskiplistLevel;
}.

Record zskiplist := mk_zsl {
  zsl_header : addr;
  zsl_tail : option addr;
  zsl_length : Z;
  zsl_level : nat;
}.

Abbreviation heap := (gmap addr zskiplistNode).

Definition ZSKIPLIST_MAXLEVEL : nat := 32.

Definition set_backward (n : zskiplistNode) (b : option addr) : zskiplistNode :=
  mk_node (ele n) (score n) b (level n).
Definition set_levels (n : zskiplistNode) (ls : list zskiplistLevel) : zskiplistNode :=
  mk_node (ele n) (score n) (backward n) ls.
Definition set_score (n : zskiplistNode) (s : double) : zskiplistNode :=
  mk_node (ele n) s (backward n) (level n).
Definition set_zsl_level (z : zskiplist) (l : nat) : zskiplist :=
  mk_zsl (zsl_header z) (zsl_tail z) (zsl_length z) l.
Definition set_zsl_tail (z : zskiplist) (t : option addr) : zskiplist :=
  mk_zsl (zsl_header z) t (zsl_length z) (zsl_level z).
Definition set_zsl_length (z : zskiplist) (n : Z) : zskiplist :=
  mk_zsl (zsl_header z) (zsl_tail z) n (zsl_level z).

(** [x->level[i]]. *)
Definition get_level (h : heap) (x : addr) (i : nat) : option zskiplistLevel :=
  n ← h !! x; level n !! i.

(** Assignment to the two fields of [x->level[i]]. *)
Definition put_level (h : heap) (x : addr) (i : nat) (l : zskiplistLevel) : option heap :=
  n ← h !! x;
  if decide (i < length (level n))%nat then Some (<[x := set_levels n (<[i := l]> (level n))]> h) else None.

(** [zmalloc] returns an address that is not in use. *)
Definition zmalloc (h : heap) : addr := fresh (dom h : gset addr).

(** ** Comparisons *)

(** [sdscmp] of sds.c, with [memcmp] on unsigned bytes: only the sign of the result counts. *)
Fixpoint memcmp (a b : bytes) : Z :=
  match a, b with
  | x :: a, y :: b => if decide (x = y) then memcmp a b else x - y
  | _, _ => 0
  end.

Definition sdscmp (s1 s2 : bytes) : Z :=
  let l1 := zlen s1 in
  let l2 := zlen s2 in
  let cmp := memcmp s1 s2 in
  if decide (cmp = 0) then (if decide (l1 > l2) then 1 else if decide (l1 < l2) then -1 else 0) else cmp.

Definition isnan (d : double) : bool := match d with S754_nan => true | _ => false end.

(** The node comes before [(score, ele)]: the condition of the loops of [zslInsert],
    [zslDelete] and [zslUpdateScore]. *)
Definition node_before (s : double) (e : bytes) (n : zskiplistNode) : bool :=
  match ele n with
  | Some en => SFltb (score n) s || (SFeqb (score n) s && bool_decide (sdscmp en e < 0))
  | None => false
  end.

(** The condition of the loop of [zslGetRank]. *)
Definition node_upto (s : double) (e : bytes) (n : zskiplistNode) : bool :=
  match ele n with
  | Some en => SFltb (score n) s || (SFeqb (score n) s && bool_decide (sdscmp en e <= 0))
  | None => false
  end.

Definition node_is (s : double) (e : bytes) (n : zskiplistNode) : bool :=
  match ele n with
  | Some en => SFeqb s (score n) && bool_decide (sdscmp en e = 0)
  | None => false
  end.

(** ** Going down the levels *)

(** [while (x->level[i].forward && cond)] with the rank traversed so far.  A level has at most
    as many nodes as the heap. *)
Fixpoint walk_level (fuel : nat) (h : heap) (cond : Z → zskiplistNode → bool) (i : nat)
    (x : addr) (rank : Z) : option (addr * Z) :=
  match fuel with
  | O => None
  | S fuel =>
      l ← get_level h x i;
      match forward l with
      | None => Some (x, rank)
      | Some y =>
          n ← h !! y;
          let rank' := u64 (rank + span l) in
          if cond rank' n then walk_level fuel h cond i y rank' else Some (x, rank)
      end
  end.

(** [for (i = zsl->level-1; i >= 0; i--)]: where the loop of each level stopped, [update[i]]
    with [rank[i]], from level 0 on. *)
Fixpoint descend (h : heap) (cond : Z → zskiplistNode → bool) (i : nat) (x : addr) (rank : Z)
    : option (list (addr * Z)) :=
  match i with
  | O => Some []
  | S i =>
      '(x, rank) ← walk_level (S (size h)) h cond i x rank;
      ur ← descend h cond i x rank;
      Some (ur ++ [(x, rank)])
  end.

(** The node the loop ends at. *)
Definition last_node (z : zskiplist) (ur : list (addr * Z)) : addr :=
  match ur with (x, _) :: _ => x | [] => zsl_header z end.

Definition search (h : heap) (z : zskiplist) (cond : Z → zskiplistNode → bool) : option (list (addr * Z)) :=
  descend h cond (zsl_level z) (zsl_header z) 0.

(** ** Creation *)

(** The other fields are set by the callers. *)
Definition zslCreateNode (lvl : nat) (s : double) (e : option bytes) : zskiplistNode :=
  mk_node e s None (replicate lvl (mk_level None 0)).

Definition zslCreate (h : heap) : heap * zskiplist :=
  let x := zmalloc h in
  (<[x := zslCreateNode ZSKIPLIST_MAXLEVEL (S754_zero false) None]> h, mk_zsl x None 0 1).

(** [ZSKIPLIST_P*RAND_MAX] as an [int]. *)
Definition zsl_threshold : Z := 2147483647 / 4.

(** The results of [random()] come from a list. *)
Fixpoint zslRandomLevel_loop (rs : list Z) (lvl : nat) : option nat :=
  match rs with
  | [] => None
  | r :: rs => if decide (r < zsl_threshold) then zslRandomLevel_loop rs (S lvl) else Some lvl
  end.

Definition zslRandomLevel (rs : list Z) : option nat :=
  lvl ← zslRandomLevel_loop rs 1;
  Some (if decide (lvl < ZSKIPLIST_MAXLEVEL)%nat then lvl else ZSKIPLIST_MAXLEVEL).

(** [zslFreeNode]: the node leaves the heap. *)
Definition zslFreeNode (h : heap) (x : addr) : option heap :=
  _ ← h !! x; Some (delete x h).

Fixpoint zslFree_loop (fuel : nat) (h : heap) (node : option addr) : option heap :=
  match node with
  | None => Some h
  | Some x =>
      match fuel with
      | O => None
      | S fuel => l ← get_level h x 0; h ← zslFreeNode h x; zslFree_loop fuel h (forward l)
      end
  end.

Definition zslFree (h : heap) (z : zskiplist) : option heap :=
  l ← get_level h (zsl_header z) 0;
  let h := delete (zsl_header z) h in
  zslFree_loop (size h) h (forward l).

(** ** Insertion *)

(** [for (i = zsl->level; i < level; i++)]: the header covers the new levels. *)
Fixpoint raise_levels (n : nat) (h : heap) (z : zskiplist) (i : nat) : option (heap * list (addr * Z)) :=
  match n with
  | O => Some (h, [])
  | S n =>
      l ← get_level h (zsl_header z) i;
      h ← put_level h (zsl_header z) i (mk_level (forward l) (zsl_length z));
      '(h, ur) ← raise_levels n h z (S i);
      Some (h, (zsl_header z, 0) :: ur)
  end.

(** [for (i = 0; i < level; i++)] from level [i] on: the new node is linked after
    [update[i]]. *)
Fixpoint link_levels (h : heap) (x : addr) (rank0 : Z) (ur : list (addr * Z)) (i : nat) : option heap :=
  match ur with
  | [] => Some h
  | (u, rank) :: ur =>
      lu ← get_level h u i;
      h ← put_level h x i (mk_level (forward lu) (u64 (span lu - u64 (rank0 - rank))));
      h ← put_level h u i (mk_level (Some x) (u64 (u64 (rank0 - rank) + 1)));
      link_levels h x rank0 ur (S i)
  end.

(** [for (i = level; i < zsl->level; i++) update[i]->level[i].span++]. *)
Fixpoint bump_levels (h : heap) (ur : list (addr * Z)) (i : nat) : option heap :=
  match ur with
  | [] => Some h
  | (u, _) :: ur =>
      lu ← get_level h u i;
      h ← put_level h u i (mk_level (forward lu) (u64 (span lu + 1)));
      bump_levels h ur (S i)
  end.

(** [lvl] is the random level. *)
Definition zslInsert (h : heap) (z : zskiplist) (lvl : nat) (s : double) (e : bytes)
    : option (heap * zskiplist * addr) :=
  if isnan s then None
  else
    ur ← search h z (λ _, node_before s e);
    '(h, z, ur) ←
      (if decide (zsl_level z < lvl)%nat then
         '(h, ur') ← raise_levels (lvl - zsl_level z) h z (zsl_level z);
         Some (h, set_zsl_level z lvl, ur ++ ur')
       else Some (h, z, ur));
    let x := zmalloc h in
    let h := <[x := zslCreateNode lvl s (Some e)]> h in
    '(u0, rank0) ← head ur;
    h ← link_levels h x rank0 (take lvl ur) 0;
    h ← bump_levels h (drop lvl ur) lvl;
    n ← h !! x;
    let h := <[x := set_backward n (if decide (u0 = zsl_header z) then None else Some u0)]> h in
    l0 ← get_level h x 0;
    '(h, z) ←
      (match forward l0 with
       | Some y => ny ← h !! y; Some (<[y := set_backward ny (Some x)]> h, z)
       | None => Some (h, set_zsl_tail z (Some x))
       end);
    Some (h, set_zsl_length z (u64 (zsl_length z + 1)), x).

(** ** Deletion *)

Fixpoint unlink_levels (h : heap) (x : addr) (ur : list (addr * Z)) (i : nat) : option heap :=
  match ur with
  | [] => Some h
  | (u, _) :: ur =>
      lu ← get_level h u i;
      h ← (if decide (forward lu = Some x) then
             lx ← get_level h x i;
             put_level h u i (mk_level (forward lx) (u64 (span lu + u64 (span lx - 1))))
           else put_level h u i (mk_level (forward lu) (u64 (span lu - 1))));
      unlink_levels h x ur (S i)
  end.

(** [while(zsl->level > 1 && zsl->header->level[zsl->level-1].forward == NULL)]. *)
Fixpoint lower_level (h : heap) (hdr : addr) (lvl : nat) : option nat :=
  match lvl with
  | S (S _ as l1) =>
      l ← get_level h hdr l1;
      match forward l with None => lower_level h hdr l1 | Some _ => Some lvl end
  | _ => Some lvl
  end.

Definition zslDeleteNode (h : heap) (z : zskiplist) (x : addr) (ur : list (addr * Z)) : option (heap * zskiplist) :=
  h ← unlink_levels h x (take (zsl_level z) ur) 0;
  n ← h !! x;
  l0 ← level n !! 0%nat;
  '(h, z) ←
    (match forward l0 with
     | Some y => ny ← h !! y; Some (<[y := set_backward ny (backward n)]> h, z)
     | None => Some (h, set_zsl_tail z (backward n))
     end);
  lvl ← lower_level h (zsl_header z) (zsl_level z);
  Some (h, set_zsl_length (set_zsl_level z lvl) (u64 (zsl_length z - 1))).

(** [keep] tells that [node] is not NULL: the node is only unlinked.  The result is the node
    that was found. *)
Definition zslDelete (h : heap) (z : zskiplist) (s : double) (e : bytes) (keep : bool)
    : option (heap * zskiplist * option addr) :=
  ur ← search h z (λ _, node_before s e);
  l ← get_level h (last_node z ur) 0;
  match forward l with
  | None => Some (h, z, None)
  | Some x =>
      n ← h !! x;
      if node_is s e n then
        '(h, z) ← zslDeleteNode h z x ur;
        h ← (if keep then Some h else zslFreeNode h x);
        Some (h, z, Some x)
      else Some (h, z, None)
  end.

(** [newscore < p->score] and the like, for a pointer that may be NULL. *)
Definition null_or (h : heap) (p : option addr) (test : double → bool) : option bool :=
  match p with
  | None => Some true
  | Some a => n ← h !! a; Some (test (score n))
  end.

Definition zslUpdateScore (h : heap) (z : zskiplist) (lvl : nat) (curscore : double) (e : bytes) (newscore : double)
    : option (heap * zskiplist * addr) :=
  ur ← search h z (λ _, node_before curscore e);
  l ← get_level h (last_node z ur) 0;
  x ← forward l;
  n ← h !! x;
  if node_is curscore e n then
    l0 ← level n !! 0%nat;
    b1 ← null_or h (backward n) (λ s, SFltb s newscore);
    b2 ← null_or h (forward l0) (λ s, SFltb newscore s);
    if b1 && b2 then Some (<[x := set_score n newscore]> h, z, x)
    else
      '(h, z) ← zslDeleteNode h z x ur;
      '(h, z, newnode) ← zslInsert h z lvl newscore e;
      h ← zslFreeNode h x;
      Some (h, z, newnode)
  else None.

(** ** Ranks *)

(** After each level, [x] may be the element. *)
Fixpoint zslGetRank_loop (h : heap) (s : double) (e : bytes) (i : nat) (x : addr) (rank : Z) : option Z :=
  match i with
  | O => Some 0
  | S i =>
      '(x, rank) ← walk_level (S (size h)) h (λ _, node_upto s e) i x rank;
      n ← h !! x;
      if node_is s e n then Some rank else zslGetRank_loop h s e i x rank
  end.

Definition zslGetRank (h : heap) (z : zskiplist) (s : double) (e : bytes) : option Z :=
  zslGetRank_loop h s e (zsl_level z) (zsl_header z) 0.

Fixpoint zslGetElementByRank_loop (h : heap) (rank : Z) (i : nat) (x : addr) (traversed : Z) : option (option addr) :=
  match i with
  | O => Some None
  | S i =>
      '(x, traversed) ← walk_level (S (size h)) h (λ r _, bool_decide (r <= rank)) i x traversed;
      if decide (traversed = rank) then Some (Some x)
      else zslGetElementByRank_loop h rank i x traversed
  end.

Definition zslGetElementByRank (h : heap) (z : zskiplist) (rank : Z) : option (option addr) :=
  zslGetElementByRank_loop h rank (zsl_level z) (zsl_header z) 0.

(** ** Ranges of scores *)

Record zrangespec := mk_range { zr_min : double; zr_max : double; zr_minex : bool; zr_maxex : bool }.

Definition zslValueGteMin (value : double) (spec : zrangespec) : bool :=
  if zr_minex spec then SFltb (zr_min spec) value else SFleb (zr_min spec) value.

Definition zslValueLteMax (value : double) (spec : zrangespec) : bool :=
  if zr_maxex spec then SFltb value (zr_max spec) else SFleb value (zr_max spec).

(** The tests of the last and of the first node that end [zslIsInRange] and
    [zslIsInLexRange]. *)
Definition ends_in_range (h : heap) (z : zskiplist) (gte lte : zskiplistNode → bool) : option bool :=
  match zsl_tail z with
  | None => Some false
  | Some x =>
      n ← h !! x;
      if negb (gte n) then Some false
      else
        l ← get_level h (zsl_header z) 0;
        match forward l with
        | None => Some false
        | Some x => n ← h !! x; Some (lte n)
        end
  end.

Definition zslIsInRange (h : heap) (z : zskiplist) (range : zrangespec) : option bool :=
  if SFltb (zr_max range) (zr_min range) ||
     (SFeqb (zr_min range) (zr_max range) && (zr_minex range || zr_maxex range))
  then Some false
  else ends_in_range h z (λ n, zslValueGteMin (score n) range) (λ n, zslValueLteMax (score n) range).

(** The rest of [zslFirstInRange] and [zslFirstInLexRange]; [Some None] is NULL. *)
Definition first_in (h : heap) (z : zskiplist) (gte lte : zskiplistNode → bool) : option (option addr) :=
  ur ← search h z (λ _ n, negb (gte n));
  l ← get_level h (last_node z ur) 0;
  x ← forward l;
  n ← h !! x;
  Some (if lte n then Some x else None).

(** The rest of [zslLastInRange] and [zslLastInLexRange]. *)
Definition last_in (h : heap) (z : zskiplist) (gte lte : zskiplistNode → bool) : option (option addr) :=
  ur ← search h z (λ _, lte);
  let x := last_node z ur in
  n ← h !! x;
  Some (if gte n then Some x else None).

Definition zslFirstInRange (h : heap) (z : zskiplist) (range : zrangespec) : option (option addr) :=
  b ← zslIsInRange h z range;
  if negb b then Some None
  else first_in h z (λ n, zslValueGteMin (score n) range) (λ n, zslValueLteMax (score n) range).

Definition zslLastInRange (h : heap) (z : zskiplist) (range : zrangespec) : option (option addr) :=
  b ← zslIsInRange h z range;
  if negb b then Some None
  else last_in h z (λ n, zslValueGteMin (score n) range) (λ n, zslValueLteMax (score n) range).

(** ** Ranges of members *)

(** A bound is a string, [shared.minstring] or [shared.maxstring]. *)
Inductive lexbound :=
  | LexMin
  | LexMax
  | LexStr (s : bytes).

Record zlexrangespec := mk_lexrange { zl_min : lexbound; zl_max : lexbound; zl_minex : bool; zl_maxex : bool }.

(** Two strings at the same address are equal, so [sdscmp] covers that case. *)
Definition sdscmplex (a b : lexbound) : Z :=
  match a, b with
  | LexMin, LexMin | LexMax, LexMax => 0
  | LexMin, _ | _, LexMax => -1
  | LexMax, _ | _, LexMin => 1
  | LexStr a, LexStr b => sdscmp a b
  end.

(** [None] is C_ERR. *)
Definition zslParseLexRangeItem (item : bytes) : option (lexbound * bool) :=
  match item with
  | 43 :: c => if decide (default 0 (head c) ≠ 0) then None else Some (LexMax, true)
  | 45 :: c => if decide (default 0 (head c) ≠ 0) then None else Some (LexMin, true)
  | 40 :: c => Some (LexStr c, true)
  | 91 :: c => Some (LexStr c, false)
  | _ => None
  end.

(** A string object, by its encoding. *)
Inductive robj :=
  | ObjInt (v : Z)
  | ObjStr (s : bytes).

Definition zslParseLexRange (min max : robj) : option zlexrangespec :=
  match min, max with
  | ObjStr min, ObjStr max =>
      '(min, minex) ← zslParseLexRangeItem min;
      '(max, maxex) ← zslParseLexRangeItem max;
      Some (mk_lexrange min max minex maxex)
  | _, _ => None
  end.

Definition zslLexValueGteMin (value : bytes) (spec : zlexrangespec) : bool :=
  if zl_minex spec then bool_decide (sdscmplex (LexStr value) (zl_min spec) > 0)
  else bool_decide (sdscmplex (LexStr value) (zl_min spec) >= 0).

Definition zslLexValueLteMax (value : bytes) (spec : zlexrangespec) : bool :=
  if zl_maxex spec then bool_decide (sdscmplex (LexStr value) (zl_max spec) < 0)
  else bool_decide (sdscmplex (LexStr value) (zl_max spec) <= 0).

(** On the string of a node that is not the header. *)
Definition node_lex (test : bytes → bool) (n : zskiplistNode) : bool :=
  match ele n with Some e => test e | None => false end.

Definition zslIsInLexRange (h : heap) (z : zskiplist) (range : zlexrangespec) : option bool :=
  let cmp := sdscmplex (zl_min range) (zl_max range) in
  if decide (cmp > 0 ∨ (cmp = 0 ∧ (zl_minex range || zl_maxex range) = true)) then Some false
  else ends_in_range h z (node_lex (λ e, zslLexValueGteMin e range)) (node_lex (λ e, zslLexValueLteMax e range)).

Definition zslFirstInLexRange (h : heap) (z : zskiplist) (range : zlexrangespec) : option (option addr) :=
  b ← zslIsInLexRange h z range;
  if negb b then Some None
  else first_in h z (node_lex (λ e, zslLexValueGteMin e range)) (node_lex (λ e, zslLexValueLteMax e range)).

Definition zslLastInLexRange (h : heap) (z : zskiplist) (range : zlexrangespec) : option (option addr) :=
  b ← zslIsInLexRange h z range;
  if negb b then Some None
  else last_in h z (node_lex (λ e, zslLexValueGteMin e range)) (node_lex (λ e, zslLexValueLteMax e range)).

(** ** Deletion of ranges *)

Section delete_ranges.

(** The hash table of the sorted set and [dictDelete] of dict.c. *)
Context {D : Type} (dictDelete : D → bytes → option D).

(** [while (x && cond)]: the nodes are unlinked, removed from the dictionary and freed. *)
Fixpoint delete_while (fuel : nat) (h : heap) (z : zskiplist) (d : D) (ur : list (addr * Z))
    (cond : Z → zskiplistNode → bool) (x : option addr) (traversed removed : Z)
    : option (heap * zskiplist * D * Z) :=
  match x with
  | None => Some (h, z, d, removed)
  | Some x =>
      match fuel with
      | O => None
      | S fuel =>
          n ← h !! x;
          if cond traversed n then
            l0 ← level n !! 0%nat;
            '(h, z) ← zslDeleteNode h z x ur;
            e ← ele n;
            d ← dictDelete d e;
            h ← zslFreeNode h x;
            delete_while fuel h z d ur cond (forward l0) (u64 (traversed + 1)) (u64 (removed + 1))
          else Some (h, z, d, removed)
      end
  end.

Definition zsl_delete_range (h : heap) (z : zskiplist) (d : D) (skip keep : Z → zskiplistNode → bool)
    : option (heap * zskiplist * D * Z) :=
  ur ← search h z skip;
  l ← get_level h (last_node z ur) 0;
  let traversed := match ur with (_, rank) :: _ => rank | [] => 0 end in
  delete_while (size h) h z d ur keep (forward l) (u64 (traversed + 1)) 0.

Definition zslDeleteRangeByScore (h : heap) (z : zskiplist) (range : zrangespec) (d : D) :=
  zsl_delete_range h z d (λ _ n, negb (zslValueGteMin (score n) range)) (λ _ n, zslValueLteMax (score n) range).

Definition zslDeleteRangeByLex (h : heap) (z : zskiplist) (range : zlexrangespec) (d : D) :=
  zsl_delete_range h z d (λ _ n, negb (node_lex (λ e, zslLexValueGteMin e range) n))
    (λ _, node_lex (λ e, zslLexValueLteMax e range)).

(** [start] and [end] are 1-based ranks of type [unsigned int]. *)
Definition zslDeleteRangeByRank (h : heap) (z : zskiplist) (start fin : Z) (d : D) :=
  zsl_delete_range h z d (λ r _, bool_decide (r < start)) (λ traversed _, bool_decide (traversed <= fin)).

End delete_ranges.
