(* ===== verification/ZslInv.v ===== *)
(** * t_zset.c: what a skip list is, and the search in it

The nodes of a skip list form a sorted sequence; a node of height [n] is linked in the levels
below [n], and the span of a link is the distance in the sequence. *)

From S2P Require Import Prelude Zskiplist.

Local Open Scope Z_scope.

(** ** The order of the scores *)

(** The sign and size class of a double, its exponent and its mantissa, signed so that they
    are compared as integers. *)
Definition fkey (d : double) : Z * Z * Z :=
  match d with
  | S754_infinity true => (-2, 0, 0)
  | S754_finite true m e => (-1, - e, Z.neg m)
  | S754_zero _ | S754_nan => (0, 0, 0)
  | S754_finite false m e => (1, e, Z.pos m)
  | S754_infinity false => (2, 0, 0)
  end.

Definition flt (a b : double) : Prop :=
  let '(a1, a2, a3) := fkey a in
  let '(b1, b2, b3) := fkey b in
  a1 < b1 ∨ a1 = b1 ∧ (a2 < b2 ∨ a2 = b2 ∧ a3 < b3).

Lemma sfcompare_spec a b :
  isnan a = false → isnan b = false →
  match SFcompare a b with
  | Some Lt => flt a b
  | Some Eq => fkey a = fkey b
  | Some Gt => flt b a
  | None => False
  end.
Proof.
  unfold flt. destruct a as [|[]| |[] m e], b as [|[]| |[] m' e']; try done; intros _ _; simpl; try lia;
    destruct (Z.compare_spec e e') as [->|?|?]; try lia;
    change (Pos.compare_cont Eq m m') with (Pos.compare m m');
    destruct (Pos.compare_spec m m') as [->|?|?]; simpl; first [done|lia].
Qed.

Lemma flt_irrefl a : ¬ flt a a.
Proof. unfold flt. destruct (fkey a) as [[? ?] ?]. lia. Qed.

Lemma flt_asym a b : flt a b → ¬ flt b a.
Proof. unfold flt. destruct (fkey a) as [[? ?] ?], (fkey b) as [[? ?] ?]. lia. Qed.

Lemma flt_trans a b c : flt a b → flt b c → flt a c.
Proof. unfold flt. destruct (fkey a) as [[? ?] ?], (fkey b) as [[? ?] ?], (fkey c) as [[? ?] ?]. lia. Qed.

Lemma flt_total a b : flt a b ∨ fkey a = fkey b ∨ flt b a.
Proof.
  unfold flt. destruct (fkey a) as [[x1 x2] x3], (fkey b) as [[y1 y2] y3].
  destruct (decide (x1 = y1)) as [->|]; [|lia]. destruct (decide (x2 = y2)) as [->|]; [|lia].
  destruct (decide (x3 = y3)) as [->|]; [by right; left|lia].
Qed.

Lemma flt_eq_l a b c : fkey a = fkey b → flt a c ↔ flt b c.
Proof. unfold flt. by intros ->. Qed.
Lemma flt_eq_r a b c : fkey a = fkey b → flt c a ↔ flt c b.
Proof. unfold flt. by intros ->. Qed.

Section compare.
Context (a b : double).
Context (Ha : isnan a = false) (Hb : isnan b = false).

Lemma sfltb_spec : SFltb a b = true ↔ flt a b.
Proof.
  unfold SFltb. pose proof (sfcompare_spec a b Ha Hb) as H. destruct (SFcompare a b) as [[]|]; [..|done]; split; try done.
  - intros Hlt. unfold flt in Hlt. rewrite H in Hlt. by apply (flt_irrefl b) in Hlt.
  - intros Hlt. by apply flt_asym in Hlt.
Qed.

Lemma sfeqb_spec : SFeqb a b = true ↔ fkey a = fkey b.
Proof.
  unfold SFeqb. pose proof (sfcompare_spec a b Ha Hb) as H. destruct (SFcompare a b) as [[]|]; [..|done]; split; try done;
    intros Heq; [rewrite (flt_eq_l _ _ _ Heq) in H|rewrite (flt_eq_r _ _ _ Heq) in H]; by apply flt_irrefl in H.
Qed.

Lemma sfleb_spec : SFleb a b = true ↔ ¬ flt b a.
Proof.
  unfold SFleb. pose proof (sfcompare_spec a b Ha Hb) as H. destruct (SFcompare a b) as [[]|]; [..|done]; split; try done.
  - intros _ Hlt. unfold flt in Hlt. rewrite H in Hlt. by apply (flt_irrefl b) in Hlt.
  - intros _. by apply flt_asym.
Qed.

End compare.

(** ** The order of the members *)

Lemma sdscmp_nil_cons y b : sdscmp [] (y :: b) = -1.
Proof. unfold sdscmp. simpl. repeat case_decide; lia. Qed.
Lemma sdscmp_cons_nil x a : sdscmp (x :: a) [] = 1.
Proof. unfold sdscmp. simpl. repeat case_decide; lia. Qed.
Lemma sdscmp_cons x a y b : sdscmp (x :: a) (y :: b) = if decide (x = y) then sdscmp a b else x - y.
Proof.
  unfold sdscmp. cbn [memcmp length]. destruct (decide (x = y)) as [->|].
  - destruct (decide (memcmp a b = 0)); [|done]. repeat case_decide; lia.
  - by rewrite decide_False by lia.
Qed.

Create Rewrite HintDb sdscmp.
#[export] Hint Rewrite sdscmp_nil_cons sdscmp_cons_nil sdscmp_cons : sdscmp.

Lemma sdscmp_refl a : sdscmp a a = 0.
Proof. induction a as [|x a IH]; [done|]. autorewrite with sdscmp. by rewrite decide_True. Qed.

Lemma sdscmp_eq a b : sdscmp a b = 0 ↔ a = b.
Proof.
  split; [|intros ->; apply sdscmp_refl]. revert b. induction a as [|x a IH]; intros [|y b]; autorewrite with sdscmp; try done.
  case_decide as H; [subst; intros Hc; f_equal; by apply IH|lia].
Qed.

Lemma sdscmp_anti a b : sdscmp a b < 0 ↔ 0 < sdscmp b a.
Proof.
  revert b. induction a as [|x a IH]; intros [|y b]; autorewrite with sdscmp; try done.
  case_decide; [subst; rewrite (decide_True (P := y = y)) by done; apply IH|].
  rewrite decide_False by done. lia.
Qed.

Lemma sdscmp_trans a b c : sdscmp a b < 0 → sdscmp b c < 0 → sdscmp a c < 0.
Proof.
  revert b c. induction a as [|x a IH]; intros [|y b] [|w c]; autorewrite with sdscmp; try done.
  repeat case_decide; subst; try done; try lia. apply IH.
Qed.

(** ** The order of the elements *)

Abbreviation zkey := (double * bytes)%type.

Definition key_lt (a b : zkey) : Prop := flt (fst a) (fst b) ∨ fkey (fst a) = fkey (fst b) ∧ sdscmp (snd a) (snd b) < 0.

(** The same score and the same member. *)
Definition key_eq (a b : zkey) : Prop := fkey (fst a) = fkey (fst b) ∧ snd a = snd b.

Lemma key_lt_trans a b c : key_lt a b → key_lt b c → key_lt a c.
Proof.
  unfold key_lt. intros [H1|[H1 E1]] [H2|[H2 E2]].
  - left. by eapply flt_trans.
  - left. by apply (flt_eq_r _ _ _ H2).
  - left. by apply (flt_eq_l _ _ _ H1).
  - right. split; [congruence|]. by eapply sdscmp_trans.
Qed.

Lemma key_lt_irrefl a : ¬ key_lt a a.
Proof. intros [H|[_ H]]; [by eapply flt_irrefl|]. rewrite sdscmp_refl in H. lia. Qed.

Lemma key_total a b : key_lt a b ∨ key_eq a b ∨ key_lt b a.
Proof.
  unfold key_lt, key_eq. destruct (flt_total (fst a) (fst b)) as [|[He|]]; [by left; left| |by right; right; left].
  destruct (Z.lt_trichotomy (sdscmp (snd a) (snd b)) 0) as [|[H0|H0]]; [by left; right|right; left|right; right; right].
  - split; [done|]. by apply sdscmp_eq.
  - split; [done|]. by apply sdscmp_anti.
Qed.

Lemma key_lt_eq_l a b c : key_eq a b → key_lt a c ↔ key_lt b c.
Proof. intros [H1 H2]. unfold key_lt. by rewrite (flt_eq_l _ _ _ H1), H1, H2. Qed.
Lemma key_lt_eq_r a b c : key_eq a b → key_lt c a ↔ key_lt c b.
Proof. intros [H1 H2]. unfold key_lt. by rewrite (flt_eq_r _ _ _ H1), H1, H2. Qed.

Section node_tests.
Context (s : double) (e : bytes) (n : zskiplistNode) (en : bytes).
Context (Hele : ele n = Some en) (Hs : isnan s = false) (Hn : isnan (score n) = false).

Lemma node_before_spec : node_before s e n = true ↔ key_lt (score n, en) (s, e).
Proof.
  unfold node_before, key_lt. rewrite Hele, orb_true_iff, andb_true_iff, bool_decide_eq_true.
  by rewrite sfltb_spec, sfeqb_spec.
Qed.

Lemma node_is_spec : node_is s e n = true ↔ key_eq (score n, en) (s, e).
Proof.
  unfold node_is, key_eq. rewrite Hele, andb_true_iff, bool_decide_eq_true, sfeqb_spec, sdscmp_eq by done.
  simpl. naive_solver.
Qed.

Lemma node_upto_spec : node_upto s e n = true ↔ ¬ key_lt (s, e) (score n, en).
Proof.
  unfold node_upto, key_lt. rewrite Hele, orb_true_iff, andb_true_iff, bool_decide_eq_true.
  rewrite sfltb_spec, sfeqb_spec by done. simpl. split.
  - intros [H|[H1 H2]] [H'|[H1' H2']].
    + by eapply flt_asym.
    + rewrite (flt_eq_r _ _ _ H1') in H. by apply flt_irrefl in H.
    + rewrite (flt_eq_r _ _ _ H1) in H'. by apply flt_irrefl in H'.
    + apply sdscmp_anti in H2'. lia.
  - intros Hnot. destruct (flt_total (score n) s) as [|[Heq|]]; [by left| |tauto]. right. split; [done|].
    destruct (Z.le_gt_cases (sdscmp en e) 0); [done|]. exfalso. apply Hnot. right. split; [done|].
    apply sdscmp_anti. lia.
Qed.

End node_tests.

(** ** Skip lists *)

Record snode := mk_snode { sn_addr : addr; sn_key : zkey; sn_height : nat }.

(** The link of level [i] of the node before [l]: to the first node of [l] that is linked in
    the level, or to NULL, at the end. *)
Fixpoint nxt (i : nat) (l : list snode) : zskiplistLevel :=
  match l with
  | [] => mk_level None 0
  | s :: l => if decide (i < sn_height s)%nat then mk_level (Some (sn_addr s)) 1
              else mk_level (forward (nxt i l)) (span (nxt i l) + 1)
  end.

(** The header counts as a node that is linked in all levels in use. *)
Definition with_header (z : zskiplist) (l : list snode) : list snode :=
  mk_snode (zsl_header z) (S754_zero false, []) (zsl_level z) :: l.

(** What the heap has for a node after [prev]. *)
Definition node_ok (h : heap) (s : snode) (prev : option addr) : Prop :=
  ∃ n, h !! sn_addr s = Some n ∧ ele n = Some (snd (sn_key s)) ∧ score n = fst (sn_key s) ∧
       length (level n) = sn_height s ∧ backward n = prev.

Record zsl_inv (h : heap) (z : zskiplist) (l : list snode) : Prop := {
  zi_nodup : NoDup (sn_addr <$> with_header z l);
  zi_level : (1 ≤ zsl_level z ≤ ZSKIPLIST_MAXLEVEL)%nat;
  zi_heights : Forall (λ s, 1 ≤ sn_height s ≤ zsl_level z)%nat l;
  zi_length : zsl_length z = zlen l;
  zi_tail : zsl_tail z = sn_addr <$> last l;
  zi_header : ∃ n, h !! zsl_header z = Some n ∧ ele n = None ∧ length (level n) = ZSKIPLIST_MAXLEVEL;
  zi_nodes : ∀ k s, l !! k = Some s →
    node_ok h s (match k with O => None | S j => sn_addr <$> l !! j end) ;
  zi_links : ∀ p s i, with_header z l !! p = Some s → (i < sn_height s)%nat →
    get_level h (sn_addr s) i = Some (nxt i (drop p l));
  zi_top : ∀ i, (zsl_level z ≤ i < ZSKIPLIST_MAXLEVEL)%nat →
    ∃ lv, get_level h (zsl_header z) i = Some lv ∧ forward lv = None;
  zi_sorted : StronglySorted key_lt (sn_key <$> l);
  zi_scores : Forall (λ s, isnan (fst (sn_key s)) = false) l;
  zi_bound : zlen l < 2 ^ 64 - 1;
}.

(** ** Links *)

Lemma nxt_app i a b :
  nxt i (a ++ b) = if decide (Forall (λ s, sn_height s ≤ i)%nat a)
                   then mk_level (forward (nxt i b)) (span (nxt i b) + zlen a) else nxt i a.
Proof.
  induction a as [|s a IH]; cbn [app nxt].
  - rewrite decide_True by constructor. destruct (nxt i b). simpl. f_equal. lia.
  - destruct (decide (i < sn_height s)%nat).
    + rewrite decide_False; [done|]. rewrite Forall_cons. intros [? _]. lia.
    + rewrite IH. destruct (decide (Forall _ a)).
      * rewrite decide_True by (constructor; [lia|done]). simpl. f_equal. lia.
      * rewrite decide_False; [done|]. by rewrite Forall_cons; intros [_ ?].
Qed.

Lemma nxt_low i a : Forall (λ s, sn_height s ≤ i)%nat a → nxt i a = mk_level None (zlen a).
Proof.
  intros Ha. rewrite <- (app_nil_r a), nxt_app, decide_True by done. rewrite app_nil_r. simpl. done.
Qed.

(** The first node linked in the level. *)
Lemma nxt_some i l y :
  forward (nxt i l) = Some y →
  ∃ k s, l !! k = Some s ∧ sn_addr s = y ∧ (i < sn_height s)%nat ∧ span (nxt i l) = Z.of_nat (S k) ∧
         Forall (λ s, sn_height s ≤ i)%nat (take k l).
Proof.
  induction l as [|s l IH]; [done|]. cbn [nxt]. case_decide as Hh; cbn [forward span].
  - intros [= <-]. exists 0%nat, s. split_and!; [done..|simpl; constructor].
  - intros Hy. destruct (IH Hy) as (k & s' & Hk & Ha & Hi & Hs & Hf). exists (S k), s'. split_and!; [done..|lia|].
    simpl. constructor; [lia|done].
Qed.

Lemma nxt_none i l : forward (nxt i l) = None → Forall (λ s, sn_height s ≤ i)%nat l ∧ span (nxt i l) = zlen l.
Proof.
  induction l as [|s l IH]; [simpl; done|]. cbn [nxt]. case_decide as Hh; cbn [forward span]; [done|].
  intros Hn. destruct (IH Hn) as [Hf Hs]. split; [constructor; [lia|done]|]. simpl. lia.
Qed.

(** ** The search *)

(** The position [u] is the last one up to [k] that is linked in level [i]; position 0 is the
    header, position [j + 1] the node [j]. *)
Definition pred_at (z : zskiplist) (l : list snode) (k i u : nat) (a : addr) : Prop :=
  ∃ s, with_header z l !! u = Some s ∧ sn_addr s = a ∧ (i < sn_height s)%nat ∧ (u ≤ k)%nat ∧
       Forall (λ s, sn_height s ≤ i)%nat (take (k - u) (drop u l)).

(** The condition holds exactly up to position [k]. *)
Definition cond_upto (h : heap) (l : list snode) (cond : Z → zskiplistNode → bool) (k : nat) : Prop :=
  (k ≤ length l)%nat ∧
  ∀ j s n, l !! j = Some s → h !! sn_addr s = Some n → cond (Z.of_nat (S j)) n = bool_decide (S j ≤ k)%nat.

Section search.
Context (h : heap) (z : zskiplist) (l : list snode).
Context (Hinv : zsl_inv h z l).
Context (cond : Z → zskiplistNode → bool) (k : nat).
Context (Hcond : cond_upto h l cond k).

Lemma node_heap j s : l !! j = Some s → ∃ n, h !! sn_addr s = Some n.
Proof. intros Hj. destruct (zi_nodes _ _ _ Hinv j s Hj) as (n & ? & _). eauto. Qed.

Lemma walk_ok fuel i p s :
  with_header z l !! p = Some s → (i < sn_height s)%nat → (p ≤ k)%nat → (k - p < fuel)%nat →
  ∃ u a, walk_level fuel h cond i (sn_addr s) (Z.of_nat p) = Some (a, Z.of_nat u) ∧ (p ≤ u)%nat ∧ pred_at z l k i u a.
Proof.
  destruct Hcond as [Hk Hc]. pose proof (zi_bound _ _ _ Hinv) as Hb.
  revert p s. induction fuel as [|fuel IH]; intros p s Hp Hi Hpk Hf; [lia|]. cbn [walk_level].
  rewrite (zi_links _ _ _ Hinv p s i Hp Hi). bind_simpl.
  destruct (forward (nxt i (drop p l))) as [y|] eqn:Hy.
  - destruct (nxt_some _ _ _ Hy) as (j & sy & Hj & <- & Hiy & -> & Hlow). rewrite lookup_drop in Hj.
    destruct (node_heap _ _ Hj) as [n Hn]. rewrite Hn. bind_simpl.
    apply lookup_lt_Some in Hj as Hlt. rewrite uwrap_small by range_lia.
    replace (Z.of_nat p + Z.of_nat (S j)) with (Z.of_nat (S (p + j))) by lia. rewrite (Hc _ _ _ Hj Hn).
    case_bool_decide as Hle.
    + destruct (IH (S (p + j)) sy) as (u & a & Hw & Hpu & Hpred); [done|done|lia|lia|].
      exists u, a. split_and!; [done|lia|done].
    + exists p, (sn_addr s). split_and!; [done|lia|]. exists s. split_and!; [done..|].
      replace (k - p)%nat with ((k - p) `min` j)%nat by lia. rewrite <- take_take. by apply Forall_take.
  - apply nxt_none in Hy as [Hlow _]. exists p, (sn_addr s). split_and!; [done|lia|]. exists s. split_and!; [done..|].
    by apply Forall_take.
Qed.

Lemma inv_size : (length l < size h)%nat.
Proof.
  assert (list_to_set (sn_addr <$> with_header z l) ⊆ (dom h : gset addr)) as Hsub.
  { intros a Ha. apply elem_of_list_to_set, list_elem_of_fmap in Ha as (s & -> & Hs). apply elem_of_dom.
    apply list_elem_of_lookup in Hs as [[|j] Hj].
    - injection Hj as <-. simpl. destruct (zi_header _ _ _ Hinv) as (n & -> & _). eauto.
    - destruct (node_heap j s Hj) as [n ->]. eauto. }
  apply subseteq_size in Hsub. rewrite size_list_to_set in Hsub by apply (zi_nodup _ _ _ Hinv).
  rewrite size_dom, length_fmap in Hsub. simpl in Hsub. lia.
Qed.

Lemma descend_ok i p s :
  with_header z l !! p = Some s → (i ≤ sn_height s)%nat → (p ≤ k)%nat →
  ∃ ur, descend h cond i (sn_addr s) (Z.of_nat p) = Some ur ∧ length ur = i ∧
    ∀ j, (j < i)%nat → ∃ u a, ur !! j = Some (a, Z.of_nat u) ∧ pred_at z l k j u a.
Proof.
  revert p s. induction i as [|i IH]; intros p s Hp Hi Hpk; [exists []; split_and!; [done..|lia]|]. cbn [descend].
  pose proof inv_size. destruct Hcond as [Hk _].
  destruct (walk_ok (S (size h)) i p s Hp ltac:(lia) Hpk ltac:(lia)) as (u & a & -> & Hpu & Hpred).
  bind_simpl. pose proof Hpred as (su & Hu & <- & Hiu & Huk & _).
  destruct (IH u su Hu ltac:(lia) Huk) as (ur & -> & Hlen & Hur). bind_simpl.
  exists (ur ++ [(sn_addr su, Z.of_nat u)]). split_and!; [done|rewrite length_app; simpl; lia|].
  intros j Hj. destruct (decide (j = i)) as [->|Hne].
  - exists u, (sn_addr su). split; [|done]. rewrite lookup_app_r by lia. by rewrite Hlen, Nat.sub_diag.
  - destruct (Hur j ltac:(lia)) as (v & b & Hv & Hb). exists v, b. split; [|done]. by apply lookup_app_l_Some.
Qed.

(** What the search returns: in each level the last node up to position [k]. *)
Definition search_result (ur : list (addr * Z)) : Prop :=
  length ur = zsl_level z ∧
  ∀ j, (j < zsl_level z)%nat → ∃ u a, ur !! j = Some (a, Z.of_nat u) ∧ pred_at z l k j u a.

Lemma search_ok : ∃ ur, search h z cond = Some ur ∧ search_result ur.
Proof. apply (descend_ok (zsl_level z) 0 (mk_snode (zsl_header z) (S754_zero false, []) (zsl_level z))); [done|done|lia]. Qed.

(** In level 0 all nodes are linked: the search ends at position [k]. *)
Lemma search_head ur :
  search_result ur →
  ∃ s ur', ur = (sn_addr s, Z.of_nat k) :: ur' ∧ with_header z l !! k = Some s ∧ (0 < sn_height s)%nat.
Proof.
  intros [Hlen Hur]. destruct (zi_level _ _ _ Hinv) as [H1 _]. destruct (Hur 0%nat H1) as (u & a & Hu & s & Hs & <- & H0 & Huk & Hlow).
  assert (u = k) as ->.
  { destruct (decide (u = k)); [done|]. exfalso. destruct Hcond as [Hk _].
    destruct (lookup_lt_is_Some_2 l u ltac:(lia)) as [su Hsu].
    assert (take (k - u) (drop u l) !! 0%nat = Some su) as Hin.
    { rewrite lookup_take_lt by lia. by rewrite lookup_drop, Nat.add_0_r. }
    eapply Forall_lookup_1 in Hlow; [|done]. pose proof (zi_heights _ _ _ Hinv) as Hh.
    eapply Forall_lookup_1 in Hh; [|done]. simpl in *. lia. }
  destruct ur as [|[a0 r0] ur']; [done|]. injection Hu as -> ->. by exists s, ur'.
Qed.

End search.

(** ** Conditions on sorted sequences *)

(** A condition on elements that is closed under smaller elements holds on a prefix. *)
Lemma sorted_prefix (l : list snode) (Q : zkey → Prop) `{!∀ x, Decision (Q x)} :
  StronglySorted key_lt (sn_key <$> l) → (∀ x y, key_lt x y → Q y → Q x) →
  ∃ k, (k ≤ length l)%nat ∧ ∀ j s, l !! j = Some s → Q (sn_key s) ↔ (S j ≤ k)%nat.
Proof.
  intros Hs Hdown. induction l as [|s l IH]; [exists 0%nat; split; [done|by intros]|].
  rewrite fmap_cons in Hs. apply StronglySorted_inv in Hs as [Hs Hall]. destruct (decide (Q (sn_key s))) as [Hq|Hq].
  - destruct (IH Hs) as (k & Hk & Hiff). exists (S k). split; [simpl; lia|]. intros [|j] s' Hj; simpl in Hj.
    + injection Hj as <-. split; [lia|done].
    + rewrite (Hiff j s' Hj). lia.
  - exists 0%nat. split; [lia|]. intros [|j] s' Hj; simpl in Hj; (split; [|lia]).
    + by injection Hj as <-.
    + intros Hq'. exfalso. apply Hq. eapply Hdown; [|done]. rewrite Forall_forall in Hall. apply Hall.
      apply list_elem_of_fmap. exists s'. split; [done|]. by eapply list_elem_of_lookup_2.
Qed.

Lemma keys_lookup_lt (l : list snode) j k a b :
  StronglySorted key_lt (sn_key <$> l) → l !! j = Some a → l !! k = Some b → (j < k)%nat → key_lt (sn_key a) (sn_key b).
Proof.
  revert j k. induction l as [|y l IH]; intros j k Hs Ha Hb Hjk; [done|]. rewrite fmap_cons in Hs.
  apply StronglySorted_inv in Hs as [Hs Hall]. destruct k as [|k]; [lia|]. destruct j as [|j]; simpl in *; [|apply (IH j k); done || lia].
  injection Ha as <-. eapply Forall_lookup_1; [done|]. by rewrite list_lookup_fmap, Hb.
Qed.

Lemma sorted_replace (a b : list zkey) (x y : zkey) :
  StronglySorted key_lt (a ++ x :: b) → (∀ w, w ∈ a → key_lt w y) → (∀ w, w ∈ b → key_lt y w) →
  StronglySorted key_lt (a ++ y :: b).
Proof.
  induction a as [|w a IH]; simpl; intros Hs Ha Hb; apply StronglySorted_inv in Hs as [Hs Hall].
  - constructor; [done|]. by apply Forall_forall.
  - constructor; [apply IH; [done| |done]; intros; apply Ha; by right|]. apply Forall_app in Hall as [H1 H2].
    apply Forall_cons in H2 as [_ H2]. apply Forall_app. split; [done|]. constructor; [|done]. apply Ha. by left.
Qed.

Lemma sorted_cut (ks : list zkey) k c : StronglySorted key_lt ks → StronglySorted key_lt (take k ks ++ drop (k + c) ks).
Proof.
  revert k. induction ks as [|y ks IH]; intros k Hs; [by rewrite take_nil, drop_nil|].
  pose proof Hs as Hs'. apply StronglySorted_inv in Hs as [Hs Hall]. destruct k as [|k].
  - simpl. clear IH Hs Hall. revert c. induction (y :: ks) as [|x l IH]; intros [|c]; [done..|].
    apply StronglySorted_inv in Hs' as [Hs' _]. by apply IH.
  - simpl. constructor; [by apply IH|]. apply Forall_app. split; [by apply Forall_take|by apply Forall_drop].
Qed.
