(* ===== verification/ZslIns.v ===== *)
(** * t_zset.c: insertion into a skip list *)

From S2P Require Import Prelude Zskiplist ZslInv.

Local Open Scope Z_scope.

(** ** Updates of the levels *)

(** What an update of links does not change. *)
Definition shape (n : zskiplistNode) := (ele n, score n, backward n, length (level n)).

Definition same_shapes (h h' : heap) : Prop := ∀ a, shape <$> h' !! a = shape <$> h !! a.

Lemma same_shapes_refl h : same_shapes h h.
Proof. done. Qed.

Lemma same_shapes_trans h1 h2 h3 : same_shapes h1 h2 → same_shapes h2 h3 → same_shapes h1 h3.
Proof. intros H1 H2 a. by rewrite H2. Qed.

Lemma same_shapes_lookup h h' a n :
  same_shapes h h' → h !! a = Some n → ∃ n', h' !! a = Some n' ∧ shape n' = shape n.
Proof. intros Hs Hn. specialize (Hs a). rewrite Hn in Hs. destruct (h' !! a) as [n'|]; [|done]. apply (inj Some) in Hs. eauto. Qed.

Lemma same_shapes_levels h h' a n i :
  same_shapes h h' → h !! a = Some n → (i < length (level n))%nat → is_Some (get_level h' a i).
Proof.
  intros Hs Hn Hi. destruct (same_shapes_lookup _ _ _ _ Hs Hn) as (n' & Hn' & Hsh).
  unfold get_level. rewrite Hn'. apply lookup_lt_is_Some_2. injection Hsh as _ _ _ Hl. lia.
Qed.

Lemma put_level_ok h x i l :
  is_Some (get_level h x i) →
  ∃ h', put_level h x i l = Some h' ∧ same_shapes h h' ∧
    ∀ y j, get_level h' y j = if decide (y = x ∧ j = i) then Some l else get_level h y j.
Proof.
  unfold get_level at 1, put_level. intros [lv Hlv]. apply bind_Some in Hlv as (n & Hn & Hlv). rewrite Hn.
  bind_simpl. apply lookup_lt_Some in Hlv as Hlt. rewrite decide_True by done. eexists. split; [done|]. split.
  - intros a. destruct (decide (a = x)) as [->|]; [|by rewrite lookup_insert_ne]. rewrite lookup_insert_eq, Hn. simpl.
    unfold shape. simpl. by rewrite length_insert.
  - intros y j. unfold get_level. destruct (decide (y = x)) as [->|].
    + rewrite lookup_insert_eq, Hn. simpl. destruct (decide (j = i)) as [->|].
      * rewrite decide_True by done. by rewrite list_lookup_insert_eq.
      * rewrite decide_False by naive_solver. by rewrite list_lookup_insert_ne.
    + rewrite lookup_insert_ne by done. by rewrite decide_False by naive_solver.
Qed.

(** The entry of [ur] for level [j] when the list starts at level [i]. *)
Definition entry_at (ur : list (addr * Z)) (i j : nat) : option (addr * Z) :=
  if decide (i ≤ j)%nat then ur !! (j - i)%nat else None.

Lemma entry_at_nil i j : entry_at [] i j = None.
Proof. unfold entry_at. by case_decide. Qed.

Lemma entry_at_cons e ur i j : entry_at (e :: ur) i j = if decide (j = i) then Some e else entry_at ur (S i) j.
Proof.
  unfold entry_at. destruct (decide (j = i)) as [->|].
  - rewrite decide_True by lia. by rewrite Nat.sub_diag.
  - destruct (decide (i ≤ j)%nat); [|by rewrite decide_False by lia]. rewrite decide_True by lia.
    replace (j - i)%nat with (S (j - S i)) by lia. done.
Qed.

(** The links the loops need are there. *)
Definition links_there (h : heap) (ur : list (addr * Z)) (i : nat) : Prop :=
  ∀ j u r, entry_at ur i j = Some (u, r) → is_Some (get_level h u j).

Lemma links_there_cons h u r ur i :
  links_there h ((u, r) :: ur) i → is_Some (get_level h u i) ∧ links_there h ur (S i).
Proof.
  intros H. split.
  - apply (H i u r). rewrite entry_at_cons. by rewrite decide_True.
  - intros j v q Hj. apply (H j v q). rewrite entry_at_cons. rewrite decide_False; [done|].
    unfold entry_at in Hj. case_decide; [lia|done].
Qed.

(** A put leaves the links that are there. *)
Lemma links_there_mono h h' ur i :
  (∀ a j, is_Some (get_level h a j) → is_Some (get_level h' a j)) → links_there h ur i → links_there h' ur i.
Proof. intros Hm H j u r Hj. eapply Hm, H, Hj. Qed.

Lemma raise_levels_ok n h z i :
  (∀ j, (i ≤ j < i + n)%nat → is_Some (get_level h (zsl_header z) j)) →
  ∃ h', raise_levels n h z i = Some (h', replicate n (zsl_header z, 0)) ∧ same_shapes h h' ∧
    ∀ a j, get_level h' a j =
      if decide (a = zsl_header z ∧ i ≤ j < i + n)%nat
      then (λ l, mk_level (forward l) (zsl_length z)) <$> get_level h a j else get_level h a j.
Proof.
  revert h i. induction n as [|n IH]; intros h i Hthere.
  { exists h. split_and!; [done..|]. intros a j. by rewrite decide_False by lia. }
  cbn [raise_levels]. destruct (Hthere i ltac:(lia)) as [l Hl]. rewrite Hl. bind_simpl.
  destruct (put_level_ok h (zsl_header z) i (mk_level (forward l) (zsl_length z)) ltac:(eauto)) as (h1 & -> & Hs1 & Hg1).
  bind_simpl. destruct (IH h1 (S i)) as (h2 & -> & Hs2 & Hg2).
  { intros j Hj. rewrite Hg1. case_decide; [eauto|]. apply Hthere. lia. }
  bind_simpl. exists h2. split_and!; [done|by eapply same_shapes_trans|].
  intros a j. rewrite Hg2, Hg1. destruct (decide (a = zsl_header z)) as [->|].
  - destruct (decide (j = i)) as [->|].
    + rewrite decide_False by lia. rewrite decide_True by done. rewrite decide_True by (split; [done|lia]). by rewrite Hl.
    + rewrite (decide_False (P := _ ∧ j = i)) by naive_solver. apply decide_ext. lia.
  - by rewrite !decide_False by naive_solver.
Qed.

(** The links after the new node has been linked after the nodes of [ur]. *)
Definition linked (h : heap) (x : addr) (rank0 : Z) (ur : list (addr * Z)) (i : nat) (a : addr) (j : nat)
    : option zskiplistLevel :=
  match entry_at ur i j with
  | None => get_level h a j
  | Some (u, r) =>
      if decide (a = x) then
        (λ l, mk_level (forward l) (u64 (span l - u64 (rank0 - r)))) <$> get_level h u j
      else if decide (a = u) then Some (mk_level (Some x) (u64 (u64 (rank0 - r) + 1)))
      else get_level h a j
  end.

Lemma link_levels_ok h x rank0 ur i :
  (∀ j u r, entry_at ur i j = Some (u, r) → u ≠ x ∧ is_Some (get_level h x j)) → links_there h ur i →
  ∃ h', link_levels h x rank0 ur i = Some h' ∧ same_shapes h h' ∧ ∀ a j, get_level h' a j = linked h x rank0 ur i a j.
Proof.
  revert h i. induction ur as [|[u r] ur IH]; intros h i Hx Hthere.
  { exists h. split_and!; [done..|]. intros a j. unfold linked. by rewrite entry_at_nil. }
  cbn [link_levels]. apply links_there_cons in Hthere as [[lu Hlu] Hthere]. rewrite Hlu. bind_simpl.
  destruct (Hx i u r) as [Hux Hxi]; [by rewrite entry_at_cons, decide_True|].
  destruct (put_level_ok h x i (mk_level (forward lu) (u64 (span lu - u64 (rank0 - r)))) Hxi) as (h1 & -> & Hs1 & Hg1).
  bind_simpl.
  destruct (put_level_ok h1 u i (mk_level (Some x) (u64 (u64 (rank0 - r) + 1)))) as (h2 & -> & Hs2 & Hg2).
  { rewrite Hg1. case_decide; eauto. }
  bind_simpl.
  assert (∀ a j, get_level h2 a j = if decide (j = i) then linked h x rank0 ((u, r) :: ur) i a j else get_level h a j) as Hg.
  { intros a j. rewrite Hg2, Hg1. unfold linked. rewrite entry_at_cons. destruct (decide (j = i)) as [->|].
    - rewrite Hlu. destruct (decide (a = x)) as [->|].
      + rewrite decide_False by naive_solver. by rewrite decide_True by done.
      + rewrite (decide_False (P := a = x ∧ _)) by naive_solver. apply decide_ext. naive_solver.
    - by rewrite !decide_False by naive_solver. }
  destruct (IH h2 (S i)) as (h3 & -> & Hs3 & Hg3).
  - intros j v q Hj. assert (i < j)%nat as Hij by (unfold entry_at in Hj; case_decide; [lia|done]).
    rewrite Hg, decide_False by lia. apply (Hx j v q). rewrite entry_at_cons. by rewrite decide_False by lia.
  - intros j v q Hj. assert (i < j)%nat as Hij by (unfold entry_at in Hj; case_decide; [lia|done]).
    rewrite Hg, decide_False by lia. by apply (Hthere j v q).
  - exists h3. split_and!; [done|by eapply same_shapes_trans, same_shapes_trans|].
    intros a j. rewrite Hg3. unfold linked at 1. destruct (entry_at ur (S i) j) as [[v q]|] eqn:Hj.
    + assert (i < j)%nat as Hij by (unfold entry_at in Hj; case_decide; [lia|done]).
      rewrite !Hg, !(decide_False (P := j = i)) by lia. unfold linked. rewrite entry_at_cons, (decide_False (P := j = i)) by lia. by rewrite Hj.
    + rewrite Hg. case_decide as Hji; [done|]. unfold linked. rewrite entry_at_cons, (decide_False (P := j = i)) by done. by rewrite Hj.
Qed.

Lemma bump_levels_ok h ur i :
  links_there h ur i →
  ∃ h', bump_levels h ur i = Some h' ∧ same_shapes h h' ∧ ∀ a j, get_level h' a j =
    match entry_at ur i j with
    | Some (u, _) => if decide (a = u) then (λ l, mk_level (forward l) (u64 (span l + 1))) <$> get_level h a j
                     else get_level h a j
    | None => get_level h a j
    end.
Proof.
  revert h i. induction ur as [|[u r] ur IH]; intros h i Hthere.
  { exists h. split_and!; [done..|]. intros a j. by rewrite entry_at_nil. }
  cbn [bump_levels]. apply links_there_cons in Hthere as [[lu Hlu] Hthere]. rewrite Hlu. bind_simpl.
  destruct (put_level_ok h u i (mk_level (forward lu) (u64 (span lu + 1))) ltac:(eauto)) as (h1 & -> & Hs1 & Hg1).
  bind_simpl. destruct (IH h1 (S i)) as (h2 & -> & Hs2 & Hg2).
  { intros j v q Hj. rewrite Hg1. case_decide; [eauto|]. by apply (Hthere j v q). }
  exists h2. split_and!; [done|by eapply same_shapes_trans|]. intros a j. rewrite Hg2, entry_at_cons.
  destruct (entry_at ur (S i) j) as [[v q]|] eqn:Hj.
  - assert (i < j)%nat as Hij by (unfold entry_at in Hj; case_decide; [lia|done]).
    rewrite !Hg1, !(decide_False (P := _ ∧ j = i)) by (intros [_ ?]; lia). by rewrite (decide_False (P := j = i)) by lia.
  - rewrite Hg1. destruct (decide (j = i)) as [->|]; [|by rewrite decide_False by naive_solver].
    destruct (decide (a = u)) as [->|]; [|by rewrite decide_False by naive_solver]. rewrite decide_True by done. by rewrite Hlu.
Qed.

(** ** Raising the level of the list *)

(** Positions and addresses. *)
Lemma pos_inj h z l p q s s' :
  zsl_inv h z l → with_header z l !! p = Some s → with_header z l !! q = Some s' → sn_addr s = sn_addr s' → p = q.
Proof.
  intros Hinv Hp Hq Ha. eapply NoDup_lookup; [apply (zi_nodup _ _ _ Hinv)|rewrite list_lookup_fmap, Hp; done|].
  rewrite list_lookup_fmap, Hq. simpl. by rewrite Ha.
Qed.

(** The header has [ZSKIPLIST_MAXLEVEL] levels. *)
Lemma header_levels h z l i : zsl_inv h z l → (i < ZSKIPLIST_MAXLEVEL)%nat → is_Some (get_level h (zsl_header z) i).
Proof.
  intros Hinv Hi. destruct (zi_header _ _ _ Hinv) as (n & Hn & _ & Hl). unfold get_level. rewrite Hn.
  apply lookup_lt_is_Some_2. lia.
Qed.

(** The same nodes, up to the levels. *)
Lemma node_ok_shapes h h' s prev : same_shapes h h' → node_ok h s prev → node_ok h' s prev.
Proof.
  intros Hs (n & Hn & He & Hsc & Hl & Hb). destruct (same_shapes_lookup _ _ _ _ Hs Hn) as (n' & Hn' & Hsh).
  exists n'. injection Hsh as H1 H2 H3 H4. split_and!; congruence.
Qed.

Lemma heights_low h z l i k :
  zsl_inv h z l → (zsl_level z ≤ i)%nat → Forall (λ s, sn_height s ≤ i)%nat (take k l).
Proof.
  intros Hinv Hi. apply Forall_take. eapply Forall_impl; [apply (zi_heights _ _ _ Hinv)|]. simpl. lia.
Qed.

Lemma raise_inv h z l lvl ur k :
  zsl_inv h z l → (zsl_level z < lvl ≤ ZSKIPLIST_MAXLEVEL)%nat → (k ≤ length l)%nat → search_result z l k ur →
  ∃ h', raise_levels (lvl - zsl_level z) h z (zsl_level z) = Some (h', replicate (lvl - zsl_level z) (zsl_header z, 0)) ∧
    zsl_inv h' (set_zsl_level z lvl) l ∧
    search_result (set_zsl_level z lvl) l k (ur ++ replicate (lvl - zsl_level z) (zsl_header z, 0)).
Proof.
  intros Hinv Hlvl Hk [Hlen Hur]. destruct (raise_levels_ok (lvl - zsl_level z) h z (zsl_level z)) as (h' & Hr & Hs & Hg).
  { intros j Hj. eapply header_levels; [done|lia]. }
  exists h'. split; [done|]. split; [split|]; simpl.
  - apply (zi_nodup _ _ _ Hinv).
  - lia.
  - eapply Forall_impl; [apply (zi_heights _ _ _ Hinv)|]. simpl. lia.
  - apply (zi_length _ _ _ Hinv).
  - apply (zi_tail _ _ _ Hinv).
  - destruct (zi_header _ _ _ Hinv) as (n & Hn & He & Hl). destruct (same_shapes_lookup _ _ _ _ Hs Hn) as (n' & Hn' & Hsh).
    exists n'. injection Hsh as H1 H2 H3 H4. split_and!; congruence.
  - intros j s Hj. eapply node_ok_shapes; [done|]. by apply (zi_nodes _ _ _ Hinv).
  - intros p s i Hp Hi. rewrite Hg. destruct p as [|p].
    + injection Hp as <-. simpl in *. destruct (decide (i < zsl_level z)%nat).
      * rewrite decide_False by lia. apply (zi_links _ _ _ Hinv 0 (mk_snode (zsl_header z) (S754_zero false, []) (zsl_level z)) i); done.
      * rewrite decide_True by (split; [done|lia]). destruct (zi_top _ _ _ Hinv i) as (lv & -> & Hf); [lia|]. simpl. rewrite Hf.
        rewrite nxt_low by (rewrite <- (firstn_all l); eapply heights_low; [done|lia]).
        by rewrite (zi_length _ _ _ Hinv).
    + rewrite decide_False; [by apply (zi_links _ _ _ Hinv (S p) s i)|]. intros [Ha _].
      by pose proof (pos_inj h z l (S p) 0 s _ Hinv Hp eq_refl Ha).
  - intros i Hi. rewrite Hg. rewrite decide_False by lia. apply (zi_top _ _ _ Hinv). lia.
  - apply (zi_sorted _ _ _ Hinv).
  - apply (zi_scores _ _ _ Hinv).
  - apply (zi_bound _ _ _ Hinv).
  - split; [rewrite length_app, length_replicate; simpl; lia|]. simpl. intros j Hj.
    destruct (decide (j < zsl_level z)%nat) as [Hlt|Hge].
    + destruct (Hur j Hlt) as (u & a & Hu & s & Hs' & Ha & Hjs & Huk & Hlow). exists u, a. split; [by apply lookup_app_l_Some|].
      destruct u as [|u]; [|by exists s].
      injection Hs' as <-. exists (mk_snode (zsl_header z) (S754_zero false, []) lvl). split_and!; [done..|simpl; lia|lia|done].
    + exists 0%nat, (zsl_header z). split.
      * rewrite lookup_app_r by lia. apply lookup_replicate. split; [done|lia].
      * exists (mk_snode (zsl_header z) (S754_zero false, []) lvl). split_and!; [done..|simpl; lia|].
        rewrite Nat.sub_0_r. eapply heights_low; [done|lia].
Qed.

(** ** The list after an insertion *)

Lemma nxt_span_range i l' : 0 ≤ span (nxt i l') ≤ zlen l'.
Proof. induction l' as [|s l' IH]; cbn [nxt]; [simpl; lia|]. case_decide; simpl; lia. Qed.

Section insert.
Context (h : heap) (z : zskiplist) (l : list snode) (k : nat) (ur : list (addr * Z)).
Context (Hinv : zsl_inv h z l) (Hk : (k ≤ length l)%nat) (Hur : search_result z l k ur).

Lemma header_pos : with_header z l !! 0%nat = Some (mk_snode (zsl_header z) (S754_zero false, []) (zsl_level z)).
Proof. done. Qed.

(** Among the positions up to [k] linked in a level, the one the search returned is the last. *)
Lemma pred_unique i u a p s :
  pred_at z l k i u a → with_header z l !! p = Some s → (i < sn_height s)%nat → (p ≤ k)%nat →
  (Forall (λ s, sn_height s ≤ i)%nat (take (k - p) (drop p l)) ↔ p = u).
Proof.
  intros (su & Hu & _ & Hiu & Huk & Hlow) Hp Hi Hpk.
  assert (∀ p q sq, (p < q ≤ k)%nat → with_header z l !! q = Some sq → (i < sn_height sq)%nat →
    ¬ Forall (λ s, sn_height s ≤ i)%nat (take (k - p) (drop p l))) as Hcontra.
  { intros p' q sq Hq Hsq Hiq Hall. destruct q as [|q]; [lia|]. simpl in Hsq.
    assert (take (k - p') (drop p' l) !! (q - p')%nat = Some sq) as Hin.
    { rewrite lookup_take_lt by lia. rewrite lookup_drop. rewrite <- Hsq. f_equal. lia. }
    eapply Forall_lookup_1 in Hall; [|done]. simpl in Hall. lia. }
  split; [|intros ->; done]. intros Hall. destruct (Nat.lt_trichotomy p u) as [Hlt|[?|Hlt]]; [|done|].
  - exfalso. by eapply (Hcontra p u su).
  - exfalso. by eapply (Hcontra u p s).
Qed.

(** The link of the predecessor crosses position [k]. *)
Lemma pred_link i u a :
  pred_at z l k i u a →
  get_level h a i = Some (mk_level (forward (nxt i (drop k l))) (span (nxt i (drop k l)) + (Z.of_nat k - Z.of_nat u))).
Proof.
  intros (su & Hu & <- & Hiu & Huk & Hlow). rewrite (zi_links _ _ _ Hinv u su i Hu Hiu). f_equal.
  rewrite <- (take_drop (k - u) (drop u l)), drop_drop, nxt_app, decide_True by done.
  replace (u + (k - u))%nat with k by lia. f_equal. rewrite length_take, length_drop. lia.
Qed.

Context (x : addr) (key : zkey) (lvl : nat).
Context (Hx : h !! x = None) (Hlvl : (1 ≤ lvl ≤ zsl_level z)%nat).

Local Abbreviation new := (mk_snode x key lvl).

Definition inserted : list snode := take k l ++ new :: drop k l.

Lemma fresh_ne p s : with_header z l !! p = Some s → sn_addr s ≠ x.
Proof.
  intros Hp Heq. rewrite <- Heq in Hx. destruct p as [|j].
  - injection Hp as <-. simpl in Hx. destruct (zi_header _ _ _ Hinv) as (n & Hn & _). congruence.
  - destruct (node_heap _ _ _ Hinv j s Hp) as [n Hn]. congruence.
Qed.

Lemma inserted_lookup j :
  inserted !! j = if decide (j < k)%nat then l !! j else if decide (j = k) then Some new else l !! (j - 1)%nat.
Proof.
  unfold inserted. destruct (decide (j < k)%nat).
  - rewrite lookup_app_l by (rewrite length_take; lia). by rewrite lookup_take_lt.
  - rewrite lookup_app_r by (rewrite length_take; lia). rewrite length_take_le by lia. case_decide as He.
    + subst j. by rewrite Nat.sub_diag.
    + replace (j - k)%nat with (S (j - k - 1)) by lia. simpl. rewrite lookup_drop. f_equal. lia.
Qed.

Lemma inserted_drop_low p : (p ≤ k)%nat → drop p inserted = take (k - p) (drop p l) ++ new :: drop k l.
Proof.
  intros Hp. unfold inserted. rewrite drop_app_le by (rewrite length_take; lia). by rewrite skipn_firstn_comm.
Qed.

Lemma inserted_drop_high p : (k < p)%nat → drop p inserted = drop (p - 1) l.
Proof.
  intros Hp. unfold inserted. rewrite drop_app_ge by (rewrite length_take; lia). rewrite length_take_le by lia.
  replace (p - k)%nat with (S (p - k - 1)) by lia. simpl. rewrite drop_drop. f_equal. lia.
Qed.

(** The links after the insertion. *)
Definition inserted_level (a : addr) (i : nat) : option zskiplistLevel :=
  if decide (a = x) then (if decide (i < lvl)%nat then Some (nxt i (drop k l)) else None)
  else match ur !! i with
       | Some (u, r) =>
           if decide (a = u) then
             Some (if decide (i < lvl)%nat then mk_level (Some x) (Z.of_nat k - r + 1)
                   else mk_level (forward (nxt i (drop k l))) (span (nxt i (drop k l)) + (Z.of_nat k - r) + 1))
           else get_level h a i
       | None => get_level h a i
       end.

Lemma inserted_links p s i :
  with_header z inserted !! p = Some s → (i < sn_height s)%nat →
  inserted_level (sn_addr s) i = Some (nxt i (drop p inserted)).
Proof.
  intros Hp Hi. unfold inserted_level.
  assert ((p ≤ k)%nat → with_header z l !! p = Some s) as Hlow.
  { intros Hpk. destruct p as [|j]; [done|]. simpl in *. rewrite inserted_lookup, decide_True in Hp by lia. done. }
  assert ((S k < p)%nat → with_header z l !! (p - 1)%nat = Some s) as Hhigh.
  { intros Hpk. destruct p as [|[|j]]; [lia|lia|]. simpl in *. rewrite inserted_lookup in Hp.
    rewrite decide_False, decide_False in Hp by lia. simpl in Hp. by rewrite Nat.sub_0_r in Hp. }
  destruct (decide (p = S k)) as [->|Hne].
  { simpl in Hp. rewrite inserted_lookup, decide_False, decide_True in Hp by lia. injection Hp as <-. simpl in *.
    rewrite !decide_True by done. rewrite inserted_drop_high by lia. by replace (S k - 1)%nat with k by lia. }
  assert (i < zsl_level z)%nat as Hiz.
  { destruct (decide (p ≤ k)%nat) as [Hpk|Hpk].
    - destruct p as [|j]; [injection (Hlow Hpk) as <-; done|]. pose proof (zi_heights _ _ _ Hinv) as Hh.
      specialize (Hlow Hpk). simpl in Hlow. eapply Forall_lookup_1 in Hh; [|done]. simpl in Hh. lia.
    - specialize (Hhigh ltac:(lia)). destruct p as [|[|j]]; [lia|lia|]. simpl in Hhigh.
      pose proof (zi_heights _ _ _ Hinv) as Hh. eapply Forall_lookup_1 in Hh; [|done]. simpl in Hh. lia. }
  destruct Hur as [Hlen Hpred]. destruct (Hpred i Hiz) as (u & a & -> & Hu).
  destruct (decide (p ≤ k)%nat) as [Hpk|Hpk].
  - specialize (Hlow Hpk). rewrite decide_False by by eapply fresh_ne. rewrite inserted_drop_low, nxt_app by done.
    pose proof (pred_unique i u a p s Hu Hlow Hi Hpk) as Huniq.
    assert (zlen (take (k - p) (drop p l)) = Z.of_nat k - Z.of_nat p) as Hz by (rewrite length_take, length_drop; lia).
    destruct (decide (p = u)) as [->|Hpu].
    + rewrite (decide_True (P := Forall _ _)) by by apply Huniq. destruct Hu as (su & Hsu & <- & _).
      assert (s = su) as -> by congruence. rewrite decide_True by done. rewrite Hz. f_equal. cbn [nxt sn_height sn_addr].
      destruct (decide (i < lvl)%nat); cbn [forward span]; f_equal; lia.
    + rewrite (decide_False (P := Forall _ _)) by (rewrite Huniq; done).
      rewrite decide_False.
      * rewrite (zi_links _ _ _ Hinv p s i Hlow Hi). f_equal. rewrite <- (take_drop (k - p) (drop p l)) at 1.
        rewrite nxt_app, decide_False; [done|]. rewrite Huniq. done.
      * intros <-. destruct Hu as (su & Hsu & Ha & _). apply Hpu. by eapply pos_inj.
  - specialize (Hhigh ltac:(lia)). rewrite decide_False by by eapply fresh_ne. rewrite inserted_drop_high by lia.
    rewrite decide_False; [by apply (zi_links _ _ _ Hinv)|]. intros <-. destruct Hu as (su & Hsu & Ha & _ & Huk & _).
    assert (p - 1 = u)%nat by by eapply pos_inj. lia.
Qed.

(** The nodes after the insertion. *)
Definition inserted_nodes (h' : heap) : Prop :=
  node_ok h' new (match k with O => None | S j => sn_addr <$> l !! j end) ∧
  (∃ n, h' !! zsl_header z = Some n ∧ ele n = None ∧ length (level n) = ZSKIPLIST_MAXLEVEL) ∧
  ∀ j s, l !! j = Some s →
    node_ok h' s (if decide (j = k) then Some x else match j with O => None | S i => sn_addr <$> l !! i end).

Definition inserted_zsl : zskiplist :=
  mk_zsl (zsl_header z) (if decide (k = length l) then Some x else zsl_tail z) (zlen l + 1) (zsl_level z).

Lemma inserted_length : length inserted = S (length l).
Proof. unfold inserted. rewrite length_app. cbn [length]. rewrite length_take, length_drop. lia. Qed.

Lemma inserted_perm : inserted ≡ₚ new :: l.
Proof. unfold inserted. by rewrite <- Permutation_middle, take_drop. Qed.

Lemma sorted_insert (ks : list zkey) i :
  StronglySorted key_lt ks → Forall (λ y, key_lt y key) (take i ks) → Forall (key_lt key) (drop i ks) →
  StronglySorted key_lt (take i ks ++ key :: drop i ks).
Proof.
  revert i. induction ks as [|y ks IH]; intros i Hs Hlow Hhigh.
  - rewrite take_nil, drop_nil. by repeat constructor.
  - destruct i as [|i]; [by constructor|]. simpl in *. apply StronglySorted_inv in Hs as [Hs Hall].
    apply Forall_cons in Hlow as [Hy Hlow]. constructor; [by apply IH|].
    apply Forall_app. split; [by apply Forall_take|]. constructor; [done|by apply Forall_drop].
Qed.

Lemma inserted_inv h' :
  isnan (fst key) = false → zlen l + 1 < 2 ^ 64 - 1 →
  (∀ j s, l !! j = Some s → if decide (j < k)%nat then key_lt (sn_key s) key else key_lt key (sn_key s)) →
  (∀ a i, (a = x ∨ ∃ p s, with_header z l !! p = Some s ∧ sn_addr s = a) → get_level h' a i = inserted_level a i) →
  inserted_nodes h' → zsl_inv h' inserted_zsl inserted.
Proof.
  intros Hnan Hbound Hsorted Hlevels (Hnew & Hhdr & Hnodes).
  assert (∀ m, (m ≤ k)%nat → match m with O => None | S j => sn_addr <$> inserted !! j end =
                             match m with O => None | S j => sn_addr <$> l !! j end) as Hprev.
  { intros [|m] Hm; [done|]. by rewrite inserted_lookup, decide_True by lia. }
  split; simpl.
  - rewrite inserted_perm. simpl. pose proof (zi_nodup _ _ _ Hinv) as Hnd. simpl in Hnd.
    apply NoDup_cons in Hnd as [Hn1 Hn2]. rewrite !NoDup_cons. split_and!; [|intros Hin|done].
    + rewrite elem_of_cons. intros [Heq|]; [|done]. by apply (fresh_ne 0 _ header_pos).
    + apply list_elem_of_fmap in Hin as (s & Heq & Hin). apply list_elem_of_lookup in Hin as [j Hj].
      by apply (fresh_ne (S j) s Hj).
  - apply (zi_level _ _ _ Hinv).
  - rewrite inserted_perm. constructor; [done|]. apply (zi_heights _ _ _ Hinv).
  - rewrite inserted_length. lia.
  - rewrite last_lookup, inserted_length. simpl. rewrite inserted_lookup. rewrite (zi_tail _ _ _ Hinv), last_lookup.
    destruct (decide (k = length l)) as [->|]; [by rewrite decide_False, decide_True by lia|].
    rewrite decide_False, decide_False by lia. do 2 f_equal. lia.
  - done.
  - intros j s Hj. rewrite inserted_lookup in Hj. destruct (decide (j < k)%nat).
    + specialize (Hnodes j s Hj). rewrite decide_False in Hnodes by lia. by rewrite Hprev by lia.
    + destruct (decide (j = k)) as [->|].
      * injection Hj as <-. by rewrite Hprev by lia.
      * destruct j as [|j]; [lia|]. simpl in Hj. rewrite Nat.sub_0_r in Hj. specialize (Hnodes j s Hj).
        rewrite inserted_lookup. destruct (decide (j < k)%nat); [lia|]. destruct (decide (j = k)); [done|].
        destruct j as [|j]; [lia|]. simpl. by rewrite Nat.sub_0_r.
  - intros p s i Hp Hi. rewrite Hlevels; [by apply inserted_links|]. destruct p as [|p].
    + injection Hp as <-. right. by exists 0%nat, (mk_snode (zsl_header z) (S754_zero false, []) (zsl_level z)).
    + simpl in Hp. rewrite inserted_lookup in Hp. repeat case_decide.
      * right. by exists (S p), s.
      * injection Hp as <-. by left.
      * right. exists (S (p - 1)), s. done.
  - intros i Hi. rewrite Hlevels.
    2: { right. by exists 0%nat, (mk_snode (zsl_header z) (S754_zero false, []) (zsl_level z)). }
    unfold inserted_level. rewrite decide_False by apply (fresh_ne 0 _ header_pos).
    destruct Hur as [Hlen _]. rewrite lookup_ge_None_2 by lia. by apply (zi_top _ _ _ Hinv).
  - unfold inserted. rewrite fmap_app, fmap_cons, fmap_take, fmap_drop.
    apply sorted_insert; [apply (zi_sorted _ _ _ Hinv)| |]; rewrite <- ?fmap_take, <- ?fmap_drop, Forall_fmap;
      apply Forall_lookup; intros j s Hj.
    + apply lookup_take_Some in Hj as [Hj Hlt]. specialize (Hsorted j s Hj). by rewrite decide_True in Hsorted.
    + rewrite lookup_drop in Hj. specialize (Hsorted _ s Hj). by rewrite decide_False in Hsorted by lia.
  - rewrite inserted_perm. constructor; [done|]. apply (zi_scores _ _ _ Hinv).
  - rewrite inserted_length. lia.
Qed.

End insert.

(** ** The code of the insertion *)

Global Instance flt_dec a b : Decision (flt a b).
Proof. unfold flt. destruct (fkey a) as [[? ?] ?], (fkey b) as [[? ?] ?]. apply _. Defined.
Global Instance key_lt_dec a b : Decision (key_lt a b).
Proof. unfold key_lt. apply _. Defined.

Lemma get_level_backward h a n b c i :
  h !! a = Some n → get_level (<[a := set_backward n b]> h) c i = get_level h c i.
Proof.
  intros Hn. unfold get_level. destruct (decide (c = a)) as [->|]; [|by rewrite lookup_insert_ne].
  by rewrite lookup_insert_eq, Hn.
Qed.

(** The condition of the search holds up to the place of the element. *)
Lemma before_upto h z l s e :
  zsl_inv h z l → isnan s = false →
  ∃ k, cond_upto h l (λ _, node_before s e) k ∧
    ∀ j sn, l !! j = Some sn → key_lt (sn_key sn) (s, e) ↔ (j < k)%nat.
Proof.
  intros Hinv Hs.
  destruct (sorted_prefix l (λ y, key_lt y (s, e)) (zi_sorted _ _ _ Hinv)) as (k & Hk & Hiff).
  { intros y w Hyw Hw. by eapply key_lt_trans. }
  exists k. split; [|intros; rewrite Hiff by done; lia]. split; [done|]. intros j sn n Hj Hn.
  destruct (zi_nodes _ _ _ Hinv j sn Hj) as (n' & Hn' & He & Hsc & _). assert (n' = n) as -> by congruence.
  pose proof (zi_scores _ _ _ Hinv) as Hsco. eapply Forall_lookup_1 in Hsco; [|done]. simpl in Hsco.
  apply eq_bool_prop_intro. rewrite !Is_true_true, bool_decide_eq_true, <- (Hiff j sn Hj).
  rewrite (node_before_spec s e n _ He Hs) by (by rewrite Hsc). by rewrite Hsc, <- surjective_pairing.
Qed.

(** The first link of the rest is to the next node. *)
Lemma nxt_zero h z l k : zsl_inv h z l → forward (nxt 0 (drop k l)) = sn_addr <$> l !! k.
Proof.
  intros Hinv. destruct (l !! k) as [s|] eqn:Hk.
  - rewrite (drop_S _ _ _ Hk). cbn [nxt]. pose proof (zi_heights _ _ _ Hinv) as Hh.
    eapply Forall_lookup_1 in Hh; [|done]. simpl in Hh. by rewrite decide_True by lia.
  - apply lookup_ge_None in Hk. by rewrite drop_ge.
Qed.

(** The levels of the list are raised when the new node is higher. *)
Lemma raise_if h z l lvl ur k :
  zsl_inv h z l → (lvl ≤ ZSKIPLIST_MAXLEVEL)%nat → (k ≤ length l)%nat → search_result z l k ur →
  ∃ h1 z1 ur1,
    (if decide (zsl_level z < lvl)%nat then
       '(h, ur') ← raise_levels (lvl - zsl_level z) h z (zsl_level z); Some (h, set_zsl_level z lvl, ur ++ ur')
     else Some (h, z, ur)) = Some (h1, z1, ur1) ∧
    zsl_inv h1 z1 l ∧ search_result z1 l k ur1 ∧ (lvl ≤ zsl_level z1)%nat ∧ zsl_header z1 = zsl_header z ∧
    (∀ a, is_Some (h1 !! a) ↔ is_Some (h !! a)).
Proof.
  intros Hinv Hlvl Hk Hur. case_decide as Hlt.
  - destruct (raise_inv h z l lvl ur k Hinv ltac:(lia) Hk Hur) as (h1 & Hr & Hinv1 & Hur1).
    rewrite Hr. bind_simpl. eexists _, _, _. split_and!; [done..|].
    destruct (raise_levels_ok (lvl - zsl_level z) h z (zsl_level z)) as (h' & Hr' & Hs & _).
    { intros j Hj. eapply header_levels; [done|lia]. }
    rewrite Hr in Hr'. injection Hr' as <-. intros a. specialize (Hs a). destruct (h1 !! a), (h !! a); naive_solver.
  - eexists _, _, _. split_and!; [done..|lia|done|done].
Qed.

Lemma entry_take (ur : list (addr * Z)) n j : entry_at (take n ur) 0 j = if decide (j < n)%nat then ur !! j else None.
Proof.
  unfold entry_at. rewrite decide_True, Nat.sub_0_r by lia.
  case_decide; [by rewrite lookup_take_lt|by rewrite lookup_take_ge by lia].
Qed.

Lemma entry_drop (ur : list (addr * Z)) n j : entry_at (drop n ur) n j = if decide (n ≤ j)%nat then ur !! j else None.
Proof. unfold entry_at. case_decide; [|done]. rewrite lookup_drop. f_equal. lia. Qed.

Section link.
Context (h : heap) (z : zskiplist) (l : list snode) (k : nat) (ur : list (addr * Z)).
Context (Hinv : zsl_inv h z l) (Hk : (k ≤ length l)%nat) (Hur : search_result z l k ur).
Context (x : addr) (key : zkey) (lvl : nat).
Context (Hx : h !! x = None) (Hlvl : (1 ≤ lvl ≤ zsl_level z)%nat).

Local Abbreviation h2 := (<[x := zslCreateNode lvl (fst key) (Some (snd key))]> h).

Lemma new_level i : get_level h2 x i = if decide (i < lvl)%nat then Some (mk_level None 0) else None.
Proof.
  unfold get_level. rewrite lookup_insert_eq. simpl. case_decide; [by apply lookup_replicate|].
  apply lookup_ge_None_2. rewrite length_replicate. lia.
Qed.

Lemma old_level a i : a ≠ x → get_level h2 a i = get_level h a i.
Proof. intros Ha. unfold get_level. by rewrite lookup_insert_ne. Qed.

Lemma ur_entry i u r :
  ur !! i = Some (u, r) → ∃ p, r = Z.of_nat p ∧ pred_at z l k i p u ∧ u ≠ x ∧ (i < zsl_level z)%nat ∧ (p ≤ k)%nat.
Proof.
  intros Hi. destruct Hur as [Hlen Hpred]. apply lookup_lt_Some in Hi as Hlt. rewrite Hlen in Hlt.
  destruct (Hpred i Hlt) as (p & a & Hp & Hpa). rewrite Hi in Hp. injection Hp as -> ->. exists p.
  pose proof Hpa as (s & Hs & <- & _ & ? & _). split_and!; [done..| |done|done]. by eapply (fresh_ne h z l).
Qed.

(** Both loops together. *)
Lemma link_ok :
  ∃ h3 h4, link_levels h2 x (Z.of_nat k) (take lvl ur) 0 = Some h3 ∧ bump_levels h3 (drop lvl ur) lvl = Some h4 ∧
    same_shapes h2 h4 ∧ ∀ a i, get_level h4 a i = inserted_level h l k ur x lvl a i.
Proof.
  pose proof (zi_bound _ _ _ Hinv) as Hb.
  destruct (link_levels_ok h2 x (Z.of_nat k) (take lvl ur) 0) as (h3 & Hl3 & Hs3 & Hg3).
  { intros j u r Hj. rewrite entry_take in Hj. case_decide as Hjl; [|done].
    destruct (ur_entry j u r Hj) as (p & -> & _ & Hne & _). split; [done|]. rewrite new_level, decide_True by done. eauto. }
  { intros j u r Hj. rewrite entry_take in Hj. case_decide; [|done].
    destruct (ur_entry j u r Hj) as (p & -> & Hp & Hne & _). rewrite old_level by done.
    rewrite (pred_link h z l k Hinv Hk j p u Hp). eauto. }
  assert (∀ a j, (lvl ≤ j)%nat → get_level h3 a j = get_level h2 a j) as Hg3'.
  { intros a j Hj. rewrite Hg3. unfold linked. by rewrite entry_take, decide_False by lia. }
  destruct (bump_levels_ok h3 (drop lvl ur) lvl) as (h4 & Hl4 & Hs4 & Hg4).
  { intros j u r Hj. rewrite entry_drop in Hj. case_decide; [|done].
    destruct (ur_entry j u r Hj) as (p & -> & Hp & Hne & _). rewrite Hg3', old_level by done.
    rewrite (pred_link h z l k Hinv Hk j p u Hp). eauto. }
  exists h3, h4. split_and!; [done..|by eapply same_shapes_trans|].
  intros a i. rewrite Hg4, entry_drop. unfold inserted_level. destruct (decide (i < lvl)%nat) as [Hi|Hi].
  - rewrite decide_False by lia. rewrite Hg3. unfold linked. rewrite entry_take, decide_True by done.
    destruct (ur !! i) as [[u r]|] eqn:Hu.
    2: { exfalso. apply lookup_ge_None in Hu. destruct Hur as [Hlen _]. lia. }
    destruct (ur_entry i u r Hu) as (p & -> & Hp & Hne & _ & Hpk).
    assert (u64 (Z.of_nat k - Z.of_nat p) = Z.of_nat k - Z.of_nat p) as -> by (apply uwrap_small; range_lia).
    pose proof (nxt_span_range i (drop k l)) as Hsp. rewrite length_drop in Hsp.
    destruct (decide (a = x)); [|destruct (decide (a = u))].
    + rewrite old_level, (pred_link h z l k Hinv Hk i p u Hp) by done. simpl. rewrite uwrap_small by range_lia.
      destruct (nxt i (drop k l)) as [f sp]. simpl. do 2 f_equal. lia.
    + by rewrite uwrap_small by range_lia.
    + by rewrite old_level.
  - rewrite decide_True by lia. rewrite Hg3' by lia. destruct (ur !! i) as [[u r]|] eqn:Hu.
    + destruct (ur_entry i u r Hu) as (p & -> & Hp & Hne & _ & Hpk). destruct (decide (a = x)) as [->|].
      * rewrite decide_False by done. by rewrite new_level, decide_False by lia.
      * destruct (decide (a = u)) as [->|]; [|by rewrite old_level].
        rewrite old_level, (pred_link h z l k Hinv Hk i p u Hp) by done. simpl.
        pose proof (nxt_span_range i (drop k l)) as Hsp. rewrite length_drop in Hsp.
        by rewrite uwrap_small by range_lia.
    + destruct (decide (a = x)) as [->|]; [by rewrite new_level, decide_False by lia|by rewrite old_level].
Qed.

End link.

(** Replacing the backward pointer of a node that is there. *)
Lemma node_ok_backward h a n b s prev :
  h !! a = Some n → node_ok h s prev → node_ok (<[a := set_backward n b]> h) s (if decide (sn_addr s = a) then b else prev).
Proof.
  intros Hn (m & Hm & He & Hsc & Hl & Hb). case_decide as Heq.
  - subst a. exists (set_backward n b). rewrite lookup_insert_eq. assert (m = n) as -> by congruence. split_and!; done.
  - exists m. rewrite lookup_insert_ne by done. split_and!; done.
Qed.

Section nodes.
Context (h : heap) (z : zskiplist) (l : list snode) (k : nat).
Context (Hinv : zsl_inv h z l) (Hk : (k ≤ length l)%nat).
Context (x : addr) (key : zkey) (lvl : nat) (Hx : h !! x = None).

(** The backward pointers are set after the links. *)
Lemma backward_ok h4 s :
  same_shapes (<[x := zslCreateNode lvl (fst key) (Some (snd key))]> h) h4 →
  with_header z l !! k = Some s →
  forward <$> get_level h4 x 0 = Some (sn_addr <$> l !! k) →
  ∃ h5,
    (n ← h4 !! x;
     let h := <[x := set_backward n (if decide (sn_addr s = zsl_header z) then None else Some (sn_addr s))]> h4 in
     l0 ← get_level h x 0;
     '(h, z) ← (match forward l0 with
                | Some y => ny ← h !! y; Some (<[y := set_backward ny (Some x)]> h, z)
                | None => Some (h, set_zsl_tail z (Some x))
                end);
     Some (h, set_zsl_length z (u64 (zsl_length z + 1)), x))
    = Some (h5, set_zsl_length (if decide (k = length l) then set_zsl_tail z (Some x) else z) (u64 (zsl_length z + 1)), x)
    ∧ inserted_nodes z l k x key lvl h5 ∧ (∀ a i, get_level h5 a i = get_level h4 a i) ∧
    (∀ a, is_Some (h5 !! a) ↔ a = x ∨ is_Some (h !! a)).
Proof.
  intros Hs4 Hs Hfwd. destruct (same_shapes_lookup _ _ x _ Hs4 (lookup_insert_eq _ _ _)) as (nx & Hnx & Hshx).
  rewrite Hnx. bind_simpl. cbn zeta. rewrite get_level_backward by done.
  destruct (get_level h4 x 0) as [l0|]; [|done]. simpl in Hfwd. injection Hfwd as Hfwd. bind_simpl. rewrite Hfwd.
  set (b := if decide (sn_addr s = zsl_header z) then None else Some (sn_addr s)).
  assert (b = match k with O => None | S j => sn_addr <$> l !! j end) as Hb.
  { unfold b. destruct (decide (k = 0%nat)) as [Hk0|Hk0].
    - rewrite Hk0 in Hs |- *. injection Hs as <-. by rewrite decide_True.
    - rewrite decide_False; [|intros Heq; apply Hk0; by eapply (pos_inj h z l k 0 s _ Hinv Hs eq_refl)].
      destruct k as [|j]; [done|]. simpl in Hs. by rewrite Hs. }
  set (h5 := <[x := set_backward nx b]> h4).
  assert (∀ j sj, l !! j = Some sj → node_ok h5 sj (match j with O => None | S i => sn_addr <$> l !! i end)) as Hold.
  { intros j sj Hj. pose proof (fresh_ne h z l Hinv x Hx (S j) sj Hj) as Hne.
    assert (node_ok h4 sj (match j with O => None | S i => sn_addr <$> l !! i end)) as Hok.
    { eapply node_ok_shapes; [done|]. destruct (zi_nodes _ _ _ Hinv j sj Hj) as (n & Hn & Hrest). exists n.
      by rewrite lookup_insert_ne. }
    pose proof (node_ok_backward h4 x nx b _ _ Hnx Hok) as H5. by rewrite decide_False in H5. }
  assert (node_ok h5 (mk_snode x key lvl) b) as Hnew.
  { exists (set_backward nx b). unfold h5. simpl. rewrite lookup_insert_eq. injection Hshx as H1 H2 H3 H4. split_and!; try done.
    simpl. rewrite H4. apply length_replicate. }
  assert (∃ n, h5 !! zsl_header z = Some n ∧ ele n = None ∧ length (level n) = ZSKIPLIST_MAXLEVEL) as Hhdr.
  { destruct (zi_header _ _ _ Hinv) as (n & Hn & He & Hl). pose proof (fresh_ne h z l Hinv x Hx 0 _ eq_refl) as Hne. simpl in Hne.
    destruct (same_shapes_lookup _ h4 (zsl_header z) n Hs4) as (n' & Hn' & Hsh); [by rewrite lookup_insert_ne|].
    exists n'. unfold h5. rewrite lookup_insert_ne by done. injection Hsh as H1 H2 H3 H4. split_and!; congruence. }
  assert (∀ a, is_Some (h5 !! a) ↔ a = x ∨ is_Some (h !! a)) as Hdom.
  { intros a. unfold h5. destruct (decide (a = x)) as [->|]; [rewrite lookup_insert_eq; naive_solver|].
    rewrite lookup_insert_ne by done. specialize (Hs4 a). rewrite lookup_insert_ne in Hs4 by done.
    destruct (h4 !! a), (h !! a); naive_solver. }
  rewrite Hb in Hnew. destruct (l !! k) as [sk|] eqn:Hlk; simpl.
  - destruct (Hold k sk Hlk) as (ny & Hny & Hny'). fold h5. rewrite Hny. bind_simpl.
    apply lookup_lt_Some in Hlk as Hltk. rewrite decide_False by lia.
    eexists. split; [done|]. pose proof (fresh_ne h z l Hinv x Hx (S k) sk Hlk) as Hnek.
    split_and!.
    + split_and!.
      * pose proof (node_ok_backward h5 _ ny (Some x) _ _ Hny Hnew) as H6. simpl in H6. by rewrite decide_False in H6.
      * destruct Hhdr as (n & Hn & Hn'). exists n. rewrite lookup_insert_ne; [done|]. intros Heq.
        by pose proof (pos_inj h z l (S k) 0 sk _ Hinv Hlk eq_refl Heq).
      * intros j sj Hj. pose proof (node_ok_backward h5 _ ny (Some x) _ _ Hny (Hold j sj Hj)) as H6.
        destruct (decide (j = k)) as [->|Hjk].
        -- assert (sj = sk) as -> by congruence. by rewrite decide_True in H6.
        -- rewrite decide_False in H6; [done|]. intros Heq. pose proof (pos_inj h z l (S j) (S k) sj sk Hinv Hj Hlk Heq). lia.
    + intros a i. rewrite get_level_backward by done. unfold h5. by rewrite get_level_backward.
    + intros a. rewrite <- Hdom. destruct (decide (a = sn_addr sk)) as [->|]; [rewrite lookup_insert_eq, Hny; naive_solver|].
      by rewrite lookup_insert_ne.
  - apply lookup_ge_None in Hlk. rewrite decide_True by lia. eexists. split; [done|]. split_and!; [|intros; unfold h5; by rewrite get_level_backward|done].
    split_and!; [done..|]. intros j sj Hj. apply lookup_lt_Some in Hj as Hlt. rewrite decide_False by lia. by apply Hold.
Qed.

End nodes.

Lemma zmalloc_fresh h : h !! zmalloc h = None.
Proof. apply (not_elem_of_dom (D := gset addr)). unfold zmalloc. exact (is_fresh (dom h : gset addr)). Qed.

(** The element goes where the order wants it. *)
Lemma zslInsert_ok h z l lvl s e :
  zsl_inv h z l → (1 ≤ lvl ≤ ZSKIPLIST_MAXLEVEL)%nat → isnan s = false → zlen l + 1 < 2 ^ 64 - 1 →
  Forall (λ sn, ¬ key_eq (sn_key sn) (s, e)) l →
  ∃ h' z' x k, zslInsert h z lvl s e = Some (h', z', x) ∧ (k ≤ length l)%nat ∧
    zsl_inv h' z' (inserted l k x (s, e) lvl) ∧ h !! x = None ∧ zsl_header z' = zsl_header z ∧
    (∀ a, is_Some (h' !! a) ↔ a = x ∨ is_Some (h !! a)).
Proof.
  intros Hinv Hlvl Hs Hbound Hnew. unfold zslInsert. rewrite Hs.
  destruct (before_upto h z l s e Hinv Hs) as (k & Hcond & Hlt). pose proof Hcond as [Hk _].
  destruct (search_ok h z l Hinv _ k Hcond) as (ur & -> & Hur). bind_simpl.
  destruct (raise_if h z l lvl ur k Hinv ltac:(lia) Hk Hur) as (h1 & z1 & ur1 & -> & Hinv1 & Hur1 & Hl1 & Hhdr & Hdom).
  bind_simpl. cbn zeta. set (x := zmalloc h1).
  assert (h1 !! x = None) as Hx by apply zmalloc_fresh.
  assert (∃ sk ur', ur1 = (sn_addr sk, Z.of_nat k) :: ur' ∧ with_header z1 l !! k = Some sk) as (sk & ur' & Heq & Hsk).
  { assert (cond_upto h1 l (λ r _, bool_decide (r ≤ Z.of_nat k)) k) as Hc1.
    { split; [done|]. intros. apply bool_decide_ext. lia. }
    destruct (search_head h1 z1 l Hinv1 _ k Hc1 ur1 Hur1) as (sk & ur' & -> & Hsk & _). eauto. }
  rewrite Heq. cbn [head mbind option_bind]. rewrite <- Heq.
  destruct (link_ok h1 z1 l k ur1 Hinv1 Hk Hur1 x (s, e) lvl Hx ltac:(lia)) as (h3 & h4 & Hl3 & Hl4 & Hs4 & Hg4).
  cbn [fst snd] in Hl3. rewrite Hl3. bind_simpl. rewrite Hl4. bind_simpl.
  destruct (backward_ok h1 z1 l k Hinv1 Hk x (s, e) lvl Hx h4 sk Hs4 Hsk) as (h5 & Hb5 & Hnodes & Hg5 & Hd5).
  { rewrite Hg4. unfold inserted_level. rewrite !decide_True by (done || lia). simpl. f_equal. by eapply nxt_zero. }
  eexists h5, _, x, k. split; [exact Hb5|]. split; [done|].
  assert (set_zsl_length (if decide (k = length l) then set_zsl_tail z1 (Some x) else z1) (u64 (zsl_length z1 + 1))
    = inserted_zsl z1 l k x) as ->.
  { unfold inserted_zsl. rewrite (zi_length _ _ _ Hinv1). rewrite uwrap_small by range_lia. by destruct (decide (k = length l)). }
  split_and!.
  - apply (inserted_inv h1 z1 l k ur1); try done; [lia| |].
    + intros j sn Hj. pose proof (Hlt j sn Hj) as Hiff. destruct (decide (j < k)%nat) as [Hjk|Hjk]; [exact (proj2 Hiff Hjk)|].
      eapply Forall_lookup_1 in Hnew; [|done]. destruct (key_total (sn_key sn) (s, e)) as [?|[?|?]]; [|done|done].
      exfalso. by apply Hjk, (proj1 Hiff).
    + intros a i _. by rewrite Hg5, Hg4.
  - destruct (h !! x) eqn:E; [|done]. destruct (proj2 (Hdom x)) as [? ?]; [eauto|congruence].
  - done.
  - intros a. rewrite Hd5. by rewrite Hdom.
Qed.
