(* ===== verification/ZslDel.v ===== *)
(** * t_zset.c: deletion from a skip list *)

From S2P Require Import Prelude Zskiplist ZslInv ZslIns.

Local Open Scope Z_scope.

(** ** Unlinking *)

Definition unlinked (h : heap) (x : addr) (ur : list (addr * Z)) (i : nat) (a : addr) (j : nat) : option zskiplistLevel :=
  match entry_at ur i j with
  | Some (u, _) =>
      if decide (a = u) then
        lu ← get_level h u j;
        if decide (forward lu = Some x) then
          (λ lx, mk_level (forward lx) (u64 (span lu + u64 (span lx - 1)))) <$> get_level h x j
        else Some (mk_level (forward lu) (u64 (span lu - 1)))
      else get_level h a j
  | None => get_level h a j
  end.

Lemma unlink_levels_ok h x ur i :
  (∀ j u r, entry_at ur i j = Some (u, r) → u ≠ x ∧
     ∃ lu, get_level h u j = Some lu ∧ (forward lu = Some x → is_Some (get_level h x j))) →
  ∃ h', unlink_levels h x ur i = Some h' ∧ same_shapes h h' ∧ ∀ a j, get_level h' a j = unlinked h x ur i a j.
Proof.
  revert h i. induction ur as [|[u r] ur IH]; intros h i Hx.
  { exists h. split_and!; [done..|]. intros a j. unfold unlinked. by rewrite entry_at_nil. }
  cbn [unlink_levels]. destruct (Hx i u r) as (Hux & lu & Hlu & Hlx); [by rewrite entry_at_cons, decide_True|].
  rewrite Hlu. bind_simpl.
  assert (∃ h1, (if decide (forward lu = Some x) then
      lx ← get_level h x i; put_level h u i (mk_level (forward lx) (u64 (span lu + u64 (span lx - 1))))
    else put_level h u i (mk_level (forward lu) (u64 (span lu - 1)))) = Some h1 ∧ same_shapes h h1 ∧
    ∀ a j, get_level h1 a j = if decide (a = u ∧ j = i) then unlinked h x ((u, r) :: ur) i u i else get_level h a j)
    as (h1 & -> & Hs1 & Hg1).
  { unfold unlinked. rewrite entry_at_cons, (decide_True (P := i = i)) by done. rewrite (decide_True (P := u = u)) by done. rewrite Hlu. bind_simpl.
    case_decide as Hf.
    - destruct (Hlx Hf) as [lx ->]. bind_simpl. apply put_level_ok. eauto.
    - apply put_level_ok. eauto. }
  bind_simpl.
  assert (∀ a j, j ≠ i → get_level h1 a j = get_level h a j) as Hother.
  { intros a j Hj. rewrite Hg1. by rewrite decide_False by naive_solver. }
  destruct (IH h1 (S i)) as (h2 & -> & Hs2 & Hg2).
  { intros j v q Hj. assert (i < j)%nat as Hij by (unfold entry_at in Hj; case_decide; [lia|done]).
    rewrite !Hother by lia. apply (Hx j v q). rewrite entry_at_cons. by rewrite decide_False by lia. }
  exists h2. split_and!; [done|by eapply same_shapes_trans|]. intros a j. rewrite Hg2. unfold unlinked at 1.
  destruct (entry_at ur (S i) j) as [[v q]|] eqn:Hj.
  - assert (i < j)%nat as Hij by (unfold entry_at in Hj; case_decide; [lia|done]).
    unfold unlinked. rewrite !Hother by lia. rewrite entry_at_cons, (decide_False (P := j = i)) by lia. by rewrite Hj.
  - rewrite Hg1. destruct (decide (j = i)) as [->|Hne].
    + destruct (decide (a = u)) as [->|Hau]; [by rewrite decide_True|]. rewrite decide_False by naive_solver.
      unfold unlinked. rewrite entry_at_cons, (decide_True (P := i = i)) by done. by rewrite decide_False.
    + rewrite decide_False by naive_solver. unfold unlinked. rewrite entry_at_cons, (decide_False (P := j = i)) by done. by rewrite Hj.
Qed.

(** The update vector of a deletion: it may have more levels than the list has by now. *)
Definition update_ok (z : zskiplist) (l : list snode) (k : nat) (ur : list (addr * Z)) : Prop :=
  ∀ j, (j < zsl_level z)%nat → ∃ u a, ur !! j = Some (a, Z.of_nat u) ∧ pred_at z l k j u a.

Lemma set_tail_same z : set_zsl_tail z (zsl_tail z) = z.
Proof. by destruct z. Qed.

Section delete.
Context (h : heap) (z : zskiplist) (l : list snode) (k : nat) (ur : list (addr * Z)).
Context (Hinv : zsl_inv h z l) (Hur : update_ok z l k ur).
Context (sx : snode) (Hsx : l !! k = Some sx).

Local Abbreviation x := (sn_addr sx).

Definition deleted : list snode := take k l ++ drop (S k) l.

Lemma delete_lt : (k < length l)%nat.
Proof. by eapply lookup_lt_Some. Qed.

Lemma deleted_lookup j : deleted !! j = if decide (j < k)%nat then l !! j else l !! (S j).
Proof.
  pose proof delete_lt. unfold deleted. case_decide.
  - rewrite lookup_app_l by (rewrite length_take; lia). by rewrite lookup_take_lt.
  - rewrite lookup_app_r by (rewrite length_take; lia). rewrite length_take_le, lookup_drop by lia. f_equal. lia.
Qed.

Lemma deleted_length : S (length deleted) = length l.
Proof. pose proof delete_lt. unfold deleted. rewrite length_app, length_take, length_drop. lia. Qed.

Lemma deleted_drop_low p : (p ≤ k)%nat → drop p deleted = take (k - p) (drop p l) ++ drop (S k) l.
Proof.
  intros Hp. pose proof delete_lt. unfold deleted. rewrite drop_app_le by (rewrite length_take; lia). by rewrite skipn_firstn_comm.
Qed.

Lemma deleted_drop_high p : (k ≤ p)%nat → drop p deleted = drop (S p) l.
Proof.
  intros Hp. pose proof delete_lt. unfold deleted. rewrite drop_app_ge by (rewrite length_take; lia).
  rewrite length_take_le, drop_drop by lia. f_equal. lia.
Qed.

Lemma deleted_perm : l ≡ₚ sx :: deleted.
Proof. unfold deleted. rewrite <- (take_drop_middle l k sx Hsx) at 1. by rewrite Permutation_middle. Qed.

(** The links after the deletion. *)
Definition deleted_level (a : addr) (i : nat) : option zskiplistLevel :=
  match (if decide (i < zsl_level z)%nat then ur !! i else None) with
  | Some (u, r) =>
      if decide (a = u) then
        Some (mk_level (forward (nxt i (drop (S k) l))) (span (nxt i (drop (S k) l)) + (Z.of_nat k - r)))
      else get_level h a i
  | None => get_level h a i
  end.

(** The link of a predecessor is to the deleted node exactly when that node is in the level. *)
Lemma pred_link_delete i u a :
  pred_at z l k i u a → (u ≤ k)%nat ∧
  get_level h a i = Some (if decide (i < sn_height sx)%nat then mk_level (Some x) (Z.of_nat k - Z.of_nat u + 1)
    else mk_level (forward (nxt i (drop (S k) l))) (span (nxt i (drop (S k) l)) + (Z.of_nat k - Z.of_nat u) + 1)) ∧
  (¬ (i < sn_height sx)%nat → forward (nxt i (drop (S k) l)) ≠ Some x) ∧ a ≠ x.
Proof.
  intros Hp. pose proof Hp as (su & Hu & Ha & _ & Huk & _). pose proof delete_lt. split; [done|]. split_and!.
  - rewrite (pred_link h z l k Hinv ltac:(lia) i u a Hp). rewrite (drop_S _ _ _ Hsx). cbn [nxt].
    case_decide; cbn [forward span]; do 2 f_equal; lia.
  - intros _ Hf. destruct (nxt_some _ _ _ Hf) as (j & s & Hj & Heq & _). rewrite lookup_drop in Hj.
    pose proof (pos_inj h z l (S (S k + j)) (S k) s sx Hinv Hj Hsx Heq). lia.
  - intros Heq. rewrite <- Ha in Heq. pose proof (pos_inj h z l u (S k) su sx Hinv Hu Hsx Heq). lia.
Qed.

Lemma unlink_node_ok :
  ∃ h1, unlink_levels h x (take (zsl_level z) ur) 0 = Some h1 ∧ same_shapes h h1 ∧ ∀ a i, get_level h1 a i = deleted_level a i.
Proof.
  pose proof (zi_bound _ _ _ Hinv) as Hb. pose proof delete_lt as Hlt.
  assert (∀ i, (i < sn_height sx)%nat → get_level h x i = Some (nxt i (drop (S k) l))) as Hxl.
  { intros i Hi. by apply (zi_links _ _ _ Hinv (S k) sx i Hsx). }
  destruct (unlink_levels_ok h x (take (zsl_level z) ur) 0) as (h1 & Hl1 & Hs1 & Hg1).
  { intros j u r Hj. rewrite entry_take in Hj. destruct (decide (j < zsl_level z)%nat) as [Hjz|]; [|done].
    destruct (Hur j Hjz) as (p & a & Hp & Hpa). rewrite Hj in Hp. injection Hp as -> ->.
    destruct (pred_link_delete j p a Hpa) as (_ & Hl & Hnf & Hne). split; [done|]. eexists. split; [exact Hl|].
    case_decide; cbn [forward]; [rewrite Hxl by done; eauto|]. intros Hf. by apply Hnf in Hf. }
  exists h1. split_and!; [done..|]. intros a i. rewrite Hg1. unfold unlinked, deleted_level. rewrite entry_take.
  destruct (decide (i < zsl_level z)%nat) as [Hi|]; [|done]. destruct (Hur i Hi) as (p & b & -> & Hpb).
  destruct (decide (a = b)) as [->|]; [|done]. destruct (pred_link_delete i p b Hpb) as (Hpk & -> & Hnf & Hne).
  bind_simpl. pose proof (nxt_span_range i (drop (S k) l)) as Hsp. rewrite length_drop in Hsp.
  destruct (decide (i < sn_height sx)%nat); cbn [forward span].
  - rewrite decide_True by done. rewrite Hxl by done. simpl. do 2 f_equal.
    unfold uwrap. rewrite Zplus_mod_idemp_r. rewrite Z.mod_small; [lia|range_lia].
  - rewrite decide_False by by apply Hnf. do 2 f_equal. rewrite uwrap_small by range_lia. lia.
Qed.

Lemma deleted_pos p s :
  with_header z deleted !! p = Some s →
  with_header z l !! (if decide (p ≤ k)%nat then p else S p) = Some s.
Proof.
  destruct p as [|p]; [by rewrite decide_True by lia|]. simpl. rewrite deleted_lookup.
  destruct (decide (S p ≤ k)%nat); [by rewrite decide_True by lia|]. by rewrite decide_False by lia.
Qed.

Lemma height_le p s : with_header z l !! p = Some s → (sn_height s ≤ zsl_level z)%nat.
Proof.
  destruct p as [|p]; [by intros [= <-]|]. simpl. intros Hp. pose proof (zi_heights _ _ _ Hinv) as Hh.
  eapply Forall_lookup_1 in Hh; [|done]. simpl in Hh. lia.
Qed.

Lemma deleted_links p s i :
  with_header z deleted !! p = Some s → (i < sn_height s)%nat → deleted_level (sn_addr s) i = Some (nxt i (drop p deleted)).
Proof.
  intros Hp Hi. apply deleted_pos in Hp. pose proof (height_le _ _ Hp) as Hz. unfold deleted_level. rewrite decide_True by lia.
  destruct (Hur i ltac:(lia)) as (u & a & -> & Hu). pose proof Hu as (su & Hsu & Ha & _ & Huk & _). pose proof delete_lt as Hlt.
  destruct (decide (p ≤ k)%nat) as [Hpk|Hpk].
  - assert (Forall (λ s, sn_height s ≤ i)%nat (take (k - p) (drop p l)) ↔ p = u) as Hu' by
      (eapply pred_unique; done || lia).
    rewrite deleted_drop_low, nxt_app by done.
    assert (zlen (take (k - p) (drop p l)) = Z.of_nat k - Z.of_nat p) as Hzl by (rewrite length_take, length_drop; lia).
    destruct (decide (p = u)) as [->|Hpu].
    + rewrite (decide_True (P := Forall _ _)) by by apply Hu'. assert (s = su) as -> by congruence.
      rewrite decide_True by done. by rewrite Hzl.
    + rewrite (decide_False (P := Forall _ _)) by (rewrite Hu'; done).
      rewrite decide_False by (intros <-; apply Hpu; by eapply pos_inj).
      rewrite (zi_links _ _ _ Hinv p s i Hp Hi). f_equal. rewrite <- (take_drop (k - p) (drop p l)) at 1.
      rewrite nxt_app, decide_False; [done|]. by rewrite Hu'.
  - rewrite deleted_drop_high by lia. rewrite decide_False; [by apply (zi_links _ _ _ Hinv)|].
    intros <-. assert (S p = u) by by eapply pos_inj. lia.
Qed.

(** The nodes after the deletion. *)
Definition deleted_nodes (h' : heap) : Prop :=
  (∃ n, h' !! zsl_header z = Some n ∧ ele n = None ∧ length (level n) = ZSKIPLIST_MAXLEVEL) ∧
  ∀ j s, deleted !! j = Some s → node_ok h' s (match j with O => None | S i => sn_addr <$> deleted !! i end).

Definition deleted_tail : option addr := sn_addr <$> last deleted.

Lemma sorted_delete (ks : list zkey) i : StronglySorted key_lt ks → StronglySorted key_lt (take i ks ++ drop (S i) ks).
Proof.
  revert i. induction ks as [|y ks IH]; intros i Hs; [by rewrite take_nil, drop_nil|].
  apply StronglySorted_inv in Hs as [Hs Hall]. destruct i as [|i]; [done|]. simpl. constructor; [by apply IH|].
  apply Forall_app. split; [by apply Forall_take|by apply Forall_drop].
Qed.

Lemma deleted_inv h' :
  (∀ a i, get_level h' a i = deleted_level a i) → deleted_nodes h' →
  zsl_inv h' (mk_zsl (zsl_header z) deleted_tail (zlen l - 1) (zsl_level z)) deleted.
Proof.
  intros Hlevels [Hhdr Hnodes]. pose proof deleted_length as Hlen. pose proof deleted_perm as Hperm. split; simpl.
  - pose proof (zi_nodup _ _ _ Hinv) as Hnd. simpl in Hnd. rewrite Hperm in Hnd. simpl in Hnd.
    rewrite !NoDup_cons in Hnd. rewrite NoDup_cons. set_solver.
  - apply (zi_level _ _ _ Hinv).
  - pose proof (zi_heights _ _ _ Hinv) as Hh. rewrite Hperm in Hh. by apply Forall_cons in Hh as [_ ?].
  - lia.
  - done.
  - done.
  - done.
  - intros p s i Hp Hi. rewrite Hlevels. by apply deleted_links.
  - intros i Hi. rewrite Hlevels. unfold deleted_level. rewrite decide_False by lia. by apply (zi_top _ _ _ Hinv).
  - unfold deleted. rewrite fmap_app, fmap_take, fmap_drop. apply sorted_delete, (zi_sorted _ _ _ Hinv).
  - pose proof (zi_scores _ _ _ Hinv) as Hh. rewrite Hperm in Hh. by apply Forall_cons in Hh as [_ ?].
  - pose proof (zi_bound _ _ _ Hinv). lia.
Qed.

(** The node before position [j + 1] of the new list. *)
Lemma deleted_prev j s :
  deleted !! j = Some s →
  node_ok h s (match (if decide (j < k)%nat then j else S j) with O => None | S i => sn_addr <$> l !! i end).
Proof.
  rewrite deleted_lookup. intros Hj. pose proof (zi_nodes _ _ _ Hinv) as Hn. case_decide; [exact (Hn j s Hj)|exact (Hn (S j) s Hj)].
Qed.

Lemma deleted_backward h1 :
  same_shapes h h1 →
  (∀ a i, get_level h1 a i = deleted_level a i) →
  ∃ h2 n l0, h1 !! x = Some n ∧ level n !! 0%nat = Some l0 ∧
    (match forward l0 with
     | Some y => ny ← h1 !! y; Some (<[y := set_backward ny (backward n)]> h1, z)
     | None => Some (h1, set_zsl_tail z (backward n))
     end) = Some (h2, set_zsl_tail z deleted_tail) ∧
    (∀ a i, get_level h2 a i = get_level h1 a i) ∧ deleted_nodes h2 ∧ (∀ a, is_Some (h2 !! a) ↔ is_Some (h !! a)).
Proof.
  intros Hs1 Hg1. pose proof delete_lt as Hlt.
  destruct (zi_nodes _ _ _ Hinv k sx Hsx) as (n0 & Hn0 & _ & _ & Hl0 & Hb0).
  destruct (same_shapes_lookup _ _ _ _ Hs1 Hn0) as (n & Hn & Hsh). injection Hsh as H1 H2 H3 H4.
  assert (get_level h1 x 0 = Some (nxt 0 (drop (S k) l))) as Hx0.
  { rewrite Hg1. unfold deleted_level. pose proof (zi_heights _ _ _ Hinv) as Hh. eapply Forall_lookup_1 in Hh; [|exact Hsx].
    simpl in Hh. destruct (Hur 0%nat) as (u & a & Hu & Hpa); [lia|]. rewrite decide_True by lia. rewrite Hu.
    destruct (pred_link_delete 0 u a Hpa) as (_ & _ & _ & Hne). rewrite decide_False by done.
    apply (zi_links _ _ _ Hinv (S k) sx 0 Hsx). lia. }
  pose proof Hx0 as Hx0'. unfold get_level in Hx0'. rewrite Hn in Hx0'. cbn [mbind option_bind] in Hx0'.
  assert (∃ nh, h1 !! zsl_header z = Some nh ∧ ele nh = None ∧ length (level nh) = ZSKIPLIST_MAXLEVEL) as Hhdr.
  { destruct (zi_header _ _ _ Hinv) as (nh & Hnh & He & Hll). destruct (same_shapes_lookup _ _ _ _ Hs1 Hnh) as (n' & Hn' & Hsh').
    injection Hsh' as E1 E2 E3 E4. exists n'. split_and!; congruence. }
  assert (∀ a, is_Some (h1 !! a) ↔ is_Some (h !! a)) as Hdom.
  { intros a. specialize (Hs1 a). destruct (h1 !! a), (h !! a); naive_solver. }
  exists (match l !! S k with Some sy => default h1 ((λ ny, <[sn_addr sy := set_backward ny (backward n)]> h1) <$> h1 !! sn_addr sy)
          | None => h1 end), n, (nxt 0 (drop (S k) l)).
  split; [done|]. split; [done|]. rewrite (nxt_zero h z l (S k) Hinv).
  assert (∀ j s, deleted !! j = Some s → node_ok h1 s
    (match (if decide (j < k)%nat then j else S j) with O => None | S i => sn_addr <$> l !! i end)) as Hold.
  { intros j s Hj. eapply node_ok_shapes; [done|]. by apply deleted_prev. }
  assert (∀ m, (m ≤ k)%nat → match m with O => None | S i => sn_addr <$> deleted !! i end =
                             match m with O => None | S i => sn_addr <$> l !! i end) as Hprev.
  { intros [|m] Hm; [done|]. by rewrite deleted_lookup, decide_True by lia. }
  destruct (l !! S k) as [sy|] eqn:Hy; simpl.
  - destruct (zi_nodes _ _ _ Hinv (S k) sy Hy) as (m0 & Hm0 & _). destruct (same_shapes_lookup _ _ _ _ Hs1 Hm0) as (ny & Hny & _).
    rewrite Hny. simpl. split_and!.
    + do 2 f_equal. rewrite <- (set_tail_same z) at 1. f_equal. unfold deleted_tail.
      rewrite (zi_tail _ _ _ Hinv), !last_lookup. f_equal. rewrite deleted_lookup.
      pose proof deleted_length. apply lookup_lt_Some in Hy. rewrite decide_False by lia. f_equal. lia.
    + intros a i. by rewrite get_level_backward.
    + split.
      * destruct Hhdr as (nh & Hnh & He & Hll). exists nh. rewrite lookup_insert_ne; [done|]. intros Heq.
        by pose proof (pos_inj h z l (S (S k)) 0 sy _ Hinv Hy eq_refl Heq).
      * intros j s Hj. pose proof (node_ok_backward h1 _ ny (backward n) s _ Hny (Hold j s Hj)) as Hok.
        rewrite deleted_lookup in Hj. destruct (decide (j < k)%nat) as [Hjk|Hjk].
        -- rewrite Hprev by lia. rewrite decide_False in Hok; [done|]. intros Heq.
          pose proof (pos_inj h z l (S j) (S (S k)) s sy Hinv Hj Hy Heq). lia.
        -- destruct (decide (j = k)) as [->|].
           ++ assert (s = sy) as -> by congruence. rewrite decide_True in Hok by done. rewrite Hprev by lia. by rewrite <- Hb0, <- H3.
           ++ rewrite decide_False in Hok.
              ** destruct j as [|j]; [lia|]. rewrite deleted_lookup. by rewrite decide_False by lia.
              ** intros Heq. pose proof (pos_inj h z l (S (S j)) (S (S k)) s sy Hinv Hj Hy Heq). lia.
    + intros a. rewrite <- Hdom. destruct (decide (a = sn_addr sy)) as [->|]; [rewrite lookup_insert_eq, Hny; naive_solver|].
      by rewrite lookup_insert_ne.
  - apply lookup_ge_None in Hy. split_and!; [|done|split; [done|]|done].
    + do 3 f_equal. unfold deleted_tail. rewrite last_lookup, H3, Hb0. pose proof deleted_length.
      rewrite <- Hprev by lia. replace (pred (length deleted)) with (k - 1)%nat by lia.
      destruct k as [|k']; [|simpl; by rewrite Nat.sub_0_r].
      rewrite lookup_ge_None_2 by lia. done.
    + intros j s Hj. specialize (Hold j s Hj). apply lookup_lt_Some in Hj. pose proof deleted_length.
      rewrite decide_True in Hold by lia. by rewrite Hprev by lia.
Qed.

End delete.

(** ** Lowering the level of the list *)

(** No node is higher than the levels in use. *)
Definition tight (z : zskiplist) (l : list snode) : Prop :=
  zsl_level z = 1%nat ∨ Exists (λ s, sn_height s = zsl_level z) l.

Lemma lower_inv h z l :
  zsl_inv h z l →
  ∃ lvl, lower_level h (zsl_header z) (zsl_level z) = Some lvl ∧ (lvl ≤ zsl_level z)%nat ∧
         zsl_inv h (set_zsl_level z lvl) l ∧ tight (set_zsl_level z lvl) l.
Proof.
  destruct z as [hd tl len lv]. cbn [zsl_level zsl_header]. unfold set_zsl_level. cbn [zsl_header zsl_tail zsl_length zsl_level].
  induction lv as [|lv IH]; intros Hinv.
  { destruct (zi_level _ _ _ Hinv) as [H _]. simpl in H. lia. }
  destruct lv as [|lv]; [exists 1%nat; split; [done|split; [lia|split; [exact Hinv|by left]]]|]. cbn [lower_level].
  pose proof (zi_links _ _ _ Hinv 0 (mk_snode hd (S754_zero false, []) (S (S lv))) (S lv) eq_refl ltac:(simpl; lia)) as Hl.
  rewrite drop_0 in Hl. simpl in Hl. rewrite Hl. bind_simpl. destruct (forward (nxt (S lv) l)) as [y|] eqn:Hf.
  - exists (S (S lv)). split_and!; [done..|]. right. destruct (nxt_some _ _ _ Hf) as (k & s & Hk & _ & Hh & _).
    apply Exists_exists. exists s. split; [by eapply list_elem_of_lookup_2|]. pose proof (zi_heights _ _ _ Hinv) as Hhs.
    eapply Forall_lookup_1 in Hhs; [|done]. simpl in *. lia.
  - apply nxt_none in Hf as [Hlow _].
    assert (zsl_inv h (mk_zsl hd tl len (S lv)) l) as Hinv'.
    { destruct Hinv as [H1 H2 H3 H4 H5 H6 H7 H8 H9 H10 H11 H12]. split; simpl in *; try done.
      - lia.
      - apply Forall_and. split; [eapply Forall_impl; [exact H3|simpl; lia]|done].
      - intros p s i Hp Hi. destruct p as [|p]; [|by apply (H8 (S p) s i)].
        injection Hp as <-. simpl in *. apply (H8 0%nat (mk_snode hd (S754_zero false, []) (S (S lv))) i eq_refl). simpl. lia.
      - intros i Hi. destruct (decide (i = S lv)) as [->|]; [|apply H9; lia].
        exists (nxt (S lv) l). split; [done|]. by rewrite nxt_low. }
    destruct (IH Hinv') as (lvl & Hlow' & Hle & Hres). exists lvl. split_and!; [exact Hlow'|lia|apply Hres..].
Qed.

(** A node that is not in the list can be freed. *)
Lemma inv_free h z l a :
  zsl_inv h z l → a ∉ (sn_addr <$> with_header z l) → zsl_inv (delete a h) z l.
Proof.
  intros Hinv Ha.
  assert (∀ p s, with_header z l !! p = Some s → delete a h !! sn_addr s = h !! sn_addr s) as Hsame.
  { intros p s Hp. apply lookup_delete_ne. intros ->. apply Ha. apply list_elem_of_fmap. exists s. split; [done|].
    by eapply list_elem_of_lookup_2. }
  destruct Hinv as [H1 H2 H3 H4 H5 H6 H7 H8 H9 H10 H11 H12]. split; try done.
  - destruct H6 as (n & Hn & Hrest). exists n. pose proof (Hsame 0%nat _ eq_refl) as E. simpl in E. by rewrite E.
  - intros k s Hk. destruct (H7 k s Hk) as (n & Hn & Hrest). exists n. pose proof (Hsame (S k) s Hk) as E. by rewrite E.
  - intros p s i Hp Hi. rewrite <- (H8 p s i Hp Hi). unfold get_level. by rewrite (Hsame p s Hp).
  - intros i Hi. destruct (H9 i Hi) as (lv & Hlv & Hf). exists lv. split; [|done]. rewrite <- Hlv. unfold get_level.
    pose proof (Hsame 0%nat _ eq_refl) as E. simpl in E. by rewrite E.
Qed.

(** ** The code of the deletion *)

Section delete_node.
Context (h : heap) (z : zskiplist) (l : list snode) (k : nat) (ur : list (addr * Z)).
Context (Hinv : zsl_inv h z l) (Hur : update_ok z l k ur).
Context (sx : snode) (Hsx : l !! k = Some sx).

(** The update vector is still right for the nodes before position [k]. *)
Lemma update_ok_deleted z' :
  zsl_header z' = zsl_header z → (zsl_level z' ≤ zsl_level z)%nat → update_ok z' (deleted l k) k ur.
Proof.
  intros Hh Hle j Hj. destruct (Hur j ltac:(lia)) as (u & a & Hu & s & Hs & Ha & Hjs & Huk & Hlow). exists u, a. split; [done|].
  assert (take (k - u) (drop u (deleted l k)) = take (k - u) (drop u l)) as Htake.
  { rewrite (deleted_drop_low l k sx Hsx u Huk). apply take_app_length'. rewrite length_take, length_drop.
    apply lookup_lt_Some in Hsx. lia. }
  destruct u as [|u].
  - injection Hs as <-. exists (mk_snode (zsl_header z') (S754_zero false, []) (zsl_level z')).
    split_and!; [done|by rewrite Hh|done|done|by rewrite Htake].
  - exists s. split_and!; [|done..|by rewrite Htake]. simpl in *. rewrite (deleted_lookup l k sx Hsx). by rewrite decide_True by lia.
Qed.

Lemma zslDeleteNode_ok :
  ∃ h' z', zslDeleteNode h z (sn_addr sx) ur = Some (h', z') ∧ zsl_inv h' z' (deleted l k) ∧ tight z' (deleted l k) ∧
    zsl_header z' = zsl_header z ∧ update_ok z' (deleted l k) k ur ∧
    (∀ a, is_Some (h' !! a) ↔ is_Some (h !! a)) ∧ sn_addr sx ∉ (sn_addr <$> with_header z' (deleted l k)).
Proof.
  unfold zslDeleteNode. destruct (unlink_node_ok h z l k ur Hinv Hur sx Hsx) as (h1 & -> & Hs1 & Hg1). bind_simpl.
  destruct (deleted_backward h z l k ur Hinv Hur sx Hsx h1 Hs1 Hg1) as (h2 & n & l0 & -> & Hl0 & Hm & Hg2 & Hnodes & Hdom).
  bind_simpl. rewrite Hl0. bind_simpl. rewrite Hm. bind_simpl.
  assert (zsl_inv h2 (mk_zsl (zsl_header z) (deleted_tail l k) (zlen l - 1) (zsl_level z)) (deleted l k)) as Hinv2.
  { apply (deleted_inv h z l k ur Hinv Hur sx Hsx); [|done]. intros a i. by rewrite Hg2, Hg1. }
  destruct (lower_inv _ _ _ Hinv2) as (lvl & Hlow & Hle & Hinv3 & Htight). simpl in *. rewrite Hlow. bind_simpl.
  eexists _, _. split; [done|].
  assert (set_zsl_length (set_zsl_level (set_zsl_tail z (deleted_tail l k)) lvl) (u64 (zsl_length z - 1)) =
    set_zsl_level (mk_zsl (zsl_header z) (deleted_tail l k) (zlen l - 1) (zsl_level z)) lvl) as ->.
  { unfold set_zsl_length, set_zsl_level, set_zsl_tail. simpl. f_equal. rewrite (zi_length _ _ _ Hinv).
    pose proof (zi_bound _ _ _ Hinv). apply lookup_lt_Some in Hsx. apply uwrap_small. range_lia. }
  split_and!; [done|done|done| |done|].
  - by apply update_ok_deleted.
  - pose proof (zi_nodup _ _ _ Hinv) as Hnd. simpl in *. rewrite (deleted_perm l k sx Hsx) in Hnd. simpl in Hnd.
    rewrite !NoDup_cons in Hnd. set_solver.
Qed.

End delete_node.
