(* ===== verification/ZslOps.v ===== *)
(** * t_zset.c: the skip list as a finite map ordered by score and member

A skip list stands for a finite map from members to scores; the operations are proved against
the operations of the map. *)

From S2P Require Import Prelude Zskiplist ZslInv ZslIns ZslDel.

Local Open Scope Z_scope.

Abbreviation zmap := (gmap bytes double).

Definition sn_pair (s : snode) : bytes * double := (snd (sn_key s), fst (sn_key s)).

(** The nodes are the pairs of the map. *)
Definition nodes_of (l : list snode) (m : zmap) : Prop := sn_pair <$> l ≡ₚ map_to_list m.

(** The heap holds the nodes of the list and the other objects [F], and nothing else. *)
Definition frame (F : gset addr) (h : heap) (z : zskiplist) (l : list snode) : Prop :=
  ∀ a, (is_Some (h !! a) ↔ a ∈ sn_addr <$> with_header z l ∨ a ∈ F) ∧ (a ∈ F → a ∉ sn_addr <$> with_header z l).

Definition zsl_repr (F : gset addr) (h : heap) (z : zskiplist) (m : zmap) : Prop :=
  ∃ l, zsl_inv h z l ∧ nodes_of l m ∧ frame F h z l.

(** The member has a score that the code finds equal to [s]. *)
Definition has_score (m : zmap) (e : bytes) (s : double) : bool :=
  match m !! e with Some s0 => SFeqb s0 s | None => false end.

(** ** Nodes and pairs *)

Lemma nodes_lookup l m e s : nodes_of l m → m !! e = Some s ↔ ∃ k sn, l !! k = Some sn ∧ sn_key sn = (s, e).
Proof.
  intros Hm. rewrite <- elem_of_map_to_list, <- Hm, list_elem_of_fmap. split.
  - intros ([a [s' e'] ht] & [= -> ->] & Hin). apply list_elem_of_lookup in Hin as [k Hk]. eauto.
  - intros (k & sn & Hk & Hkey). exists sn. split; [unfold sn_pair; by rewrite Hkey|by eapply list_elem_of_lookup_2].
Qed.

Lemma nodes_get l m k sn : nodes_of l m → l !! k = Some sn → m !! snd (sn_key sn) = Some (fst (sn_key sn)).
Proof. intros Hm Hk. apply (nodes_lookup _ _ _ _ Hm). exists k, sn. split; [done|]. by destruct (sn_key sn). Qed.

Lemma nodes_length l m : nodes_of l m → length l = size m.
Proof. intros Hm. rewrite <- (length_fmap sn_pair l), Hm. apply length_map_to_list. Qed.

(** A member is in one node. *)
Lemma nodes_unique l m j k a b :
  nodes_of l m → l !! j = Some a → l !! k = Some b → snd (sn_key a) = snd (sn_key b) → j = k.
Proof.
  intros Hm Ha Hb Heq. assert (NoDup (sn_pair <$> l).*1) as Hnd by (rewrite Hm; apply NoDup_fst_map_to_list).
  eapply NoDup_lookup; [exact Hnd|rewrite !list_lookup_fmap, Ha; done|]. rewrite !list_lookup_fmap, Hb. simpl. by rewrite Heq.
Qed.

Lemma nodes_insert l m k x s e ht :
  nodes_of l m → m !! e = None → nodes_of (inserted l k x (s, e) ht) (<[e := s]> m).
Proof.
  unfold nodes_of, inserted. intros Hm He. rewrite map_to_list_insert by done. rewrite fmap_app, fmap_cons.
  rewrite <- Permutation_middle, <- fmap_app, take_drop. by rewrite Hm.
Qed.

Lemma nodes_delete l m k sn :
  nodes_of l m → l !! k = Some sn → nodes_of (deleted l k) (delete (snd (sn_key sn)) m).
Proof.
  intros Hm Hk. pose proof (nodes_get _ _ _ _ Hm Hk) as He. unfold nodes_of in *.
  rewrite (deleted_perm l k sn Hk), fmap_cons in Hm. rewrite <- (map_to_list_delete m _ _ He) in Hm.
  by apply Permutation_cons_inv in Hm.
Qed.

(** The nodes of the members: what the dictionary of a sorted set holds. *)
Definition member_addr (sn : snode) : bytes * addr := (snd (sn_key sn), sn_addr sn).
Definition node_map (l : list snode) : gmap bytes addr := list_to_map (member_addr <$> l).

Lemma member_addrs_nodup l m : nodes_of l m → NoDup (member_addr <$> l).*1.
Proof.
  intros Hm. assert ((member_addr <$> l).*1 = (sn_pair <$> l).*1) as -> by by rewrite <- !list_fmap_compose.
  rewrite Hm. apply NoDup_fst_map_to_list.
Qed.

Lemma node_map_perm l l' m : nodes_of l m → member_addr <$> l ≡ₚ member_addr <$> l' → node_map l = node_map l'.
Proof. intros Hm Hp. apply list_to_map_proper; [by eapply member_addrs_nodup|done]. Qed.

Lemma node_map_lookup l m e a :
  nodes_of l m → node_map l !! e = Some a ↔ ∃ k sn, l !! k = Some sn ∧ snd (sn_key sn) = e ∧ sn_addr sn = a.
Proof.
  intros Hm. unfold node_map. rewrite <- elem_of_list_to_map by by eapply member_addrs_nodup. rewrite list_elem_of_fmap. split.
  - intros (sn & [= -> ->] & Hin). apply list_elem_of_lookup in Hin as [k Hk]. eauto.
  - intros (k & sn & Hk & <- & <-). exists sn. split; [done|by eapply list_elem_of_lookup_2].
Qed.

Lemma node_map_none l m e : nodes_of l m → node_map l !! e = None ↔ m !! e = None.
Proof.
  intros Hm. rewrite !eq_None_not_Some. apply not_iff_compat. split; intros [v Hv].
  - apply (node_map_lookup _ _ _ _ Hm) in Hv as (k & sn & Hk & <- & _). eexists. by eapply nodes_get.
  - apply (nodes_lookup _ _ _ _ Hm) in Hv as (k & sn & Hk & Hkey). exists (sn_addr sn). apply (node_map_lookup _ _ _ _ Hm).
    exists k, sn. by rewrite Hkey.
Qed.

Lemma node_map_insert l m k x s e ht :
  nodes_of l m → m !! e = None → node_map (inserted l k x (s, e) ht) = <[e := x]> (node_map l).
Proof.
  intros Hm He. symmetry. apply (node_map_perm (mk_snode x (s, e) ht :: l) _ (<[e := s]> m)).
  - unfold nodes_of in *. rewrite map_to_list_insert by done. by rewrite fmap_cons, Hm.
  - unfold inserted. rewrite fmap_app, !fmap_cons, <- Permutation_middle, <- fmap_app, take_drop. done.
Qed.

Lemma node_map_delete l m k sn :
  nodes_of l m → l !! k = Some sn → node_map (deleted l k) = delete (snd (sn_key sn)) (node_map l).
Proof.
  intros Hm Hk. rewrite (node_map_perm l (sn :: deleted l k) m Hm) by by rewrite <- (deleted_perm l k sn Hk).
  unfold node_map at 2. rewrite fmap_cons. simpl. rewrite delete_insert_id; [done|]. apply (node_map_none _ _ _ (nodes_delete _ _ _ _ Hm Hk)).
  apply lookup_delete_eq.
Qed.

Lemma inserted_list_perm l k x key ht : inserted l k x key ht ≡ₚ mk_snode x key ht :: l.
Proof. unfold inserted. rewrite <- Permutation_middle. by rewrite take_drop. Qed.

Lemma frame_insert F h z l h' z' k x key ht :
  frame F h z l → zsl_header z' = zsl_header z → h !! x = None → (∀ a, is_Some (h' !! a) ↔ a = x ∨ is_Some (h !! a)) →
  frame F h' z' (inserted l k x key ht).
Proof.
  intros HF Hhdr Hx Hdom a. destruct (HF a) as [Ha HFa]. unfold with_header in *. rewrite inserted_list_perm, !fmap_cons in *.
  simpl in *. rewrite Hhdr, Hdom, Ha, !elem_of_cons. split; [naive_solver|]. intros Hin.
  assert (a ≠ x) by (intros ->; rewrite Hx in Ha; destruct (proj2 Ha ltac:(auto)); done). apply HFa in Hin. set_solver.
Qed.

Lemma frame_delete F h z l h' z' k sn :
  zsl_inv h z l → frame F h z l → l !! k = Some sn → zsl_header z' = zsl_header z → (∀ a, is_Some (h' !! a) ↔ is_Some (h !! a)) →
  (sn_addr sn ∉ F) ∧ frame ({[sn_addr sn]} ∪ F) h' z' (deleted l k).
Proof.
  intros Hinv HF Hk Hhdr Hdom. pose proof (zi_nodup _ _ _ Hinv) as Hnd. unfold frame, with_header in *. rewrite !fmap_cons in *. simpl in *.
  rewrite Hhdr. rewrite (deleted_perm l k sn Hk), fmap_cons in Hnd. rewrite !NoDup_cons in Hnd. simpl in Hnd. split.
  - intros Hin. destruct (HF (sn_addr sn)) as [_ HF']. apply (HF' Hin). rewrite (deleted_perm l k sn Hk). set_solver.
  - intros a. destruct (HF a) as [Ha HFa]. rewrite (deleted_perm l k sn Hk), fmap_cons in Ha, HFa. rewrite Hdom, Ha. set_solver.
Qed.

Lemma frame_free F h z l x : x ∉ F → frame ({[x]} ∪ F) h z l → zsl_inv h z l → frame F (delete x h) z l ∧ zsl_inv (delete x h) z l.
Proof.
  intros Hx HF Hinv. assert (x ∉ sn_addr <$> with_header z l) as Hnot by (destruct (HF x) as [_ Hd]; set_solver).
  split; [|by apply inv_free]. intros a. destruct (HF a) as [Ha HFa]. destruct (decide (a = x)) as [->|Hne].
  - rewrite lookup_delete_eq. split; [|set_solver]. split; [by intros []|]. intros [?|?]; done.
  - rewrite lookup_delete_ne by done. set_solver.
Qed.

Lemma nodes_nan h z l m e s : zsl_inv h z l → nodes_of l m → m !! e = Some s → isnan s = false.
Proof.
  intros Hinv Hm He. apply (nodes_lookup _ _ _ _ Hm) in He as (k & sn & Hk & Hkey).
  pose proof (zi_scores _ _ _ Hinv) as Hs. eapply Forall_lookup_1 in Hs; [|done]. by rewrite Hkey in Hs.
Qed.

Lemma has_score_none l m s e :
  nodes_of l m → isnan s = false → (∀ k sn, l !! k = Some sn → ¬ key_eq (sn_key sn) (s, e)) →
  Forall (λ s, isnan (fst (sn_key s)) = false) l → has_score m e s = false.
Proof.
  intros Hm Hs Hno Hnan. unfold has_score. destruct (m !! e) as [s0|] eqn:He; [|done]. destruct (SFeqb s0 s) eqn:Heq; [|done].
  exfalso. apply (nodes_lookup _ _ _ _ Hm) in He as (k & sn & Hk & Hkey). eapply Forall_lookup_1 in Hnan; [|done].
  apply (Hno k sn Hk). rewrite Hkey in *. split; [|done]. by apply (sfeqb_spec _ _ Hnan Hs).
Qed.

Lemma frame_size F h z l : zsl_inv h z l → frame F h z l → size h = (S (length l) + size F)%nat.
Proof.
  intros Hinv HF. assert (dom h = list_to_set (sn_addr <$> with_header z l) ∪ F) as Hdh.
  { apply set_eq. intros a. rewrite elem_of_dom, elem_of_union, elem_of_list_to_set. apply HF. }
  rewrite <- size_dom, Hdh, size_union.
  - rewrite size_list_to_set by apply (zi_nodup _ _ _ Hinv). by rewrite length_fmap.
  - intros a Ha Hin. apply elem_of_list_to_set in Ha. by apply (proj2 (HF a) Hin).
Qed.

(** ** Creation *)

Lemma zslCreate_ok h : let '(h', z) := zslCreate h in zsl_inv h' z [] ∧ frame (dom h) h' z [].
Proof.
  simpl. split.
  2: { intros a. simpl. rewrite list_elem_of_singleton, elem_of_dom. pose proof (zmalloc_fresh h) as Hx.
    destruct (decide (a = zmalloc h)) as [->|]; [rewrite lookup_insert_eq, Hx|rewrite lookup_insert_ne by done]; naive_solver. }
  split; simpl; try done.
  - repeat constructor. set_solver.
  - unfold ZSKIPLIST_MAXLEVEL. lia.
  - eexists. by rewrite lookup_insert_eq.
  - intros [|p] s i Hp Hi; [|done]. injection Hp as <-. simpl in *. unfold get_level. rewrite lookup_insert_eq.
    destruct i; [done|lia].
  - intros i Hi. exists (mk_level None 0). split; [|done]. unfold get_level. rewrite lookup_insert_eq. cbn [mbind option_bind level zslCreateNode].
    apply lookup_replicate_2. lia.
  - constructor.
Qed.

(** ** Random levels *)

Lemma random_level_loop_ge rs lvl lvl' : zslRandomLevel_loop rs lvl = Some lvl' → (lvl ≤ lvl')%nat.
Proof.
  revert lvl. induction rs as [|r rs IH]; intros lvl; [done|]. cbn [zslRandomLevel_loop].
  case_decide; [intros Hl; apply IH in Hl; lia|by intros [= ->]].
Qed.

Lemma random_level_range rs lvl : zslRandomLevel rs = Some lvl → (1 ≤ lvl ≤ ZSKIPLIST_MAXLEVEL)%nat.
Proof.
  unfold zslRandomLevel. destruct (zslRandomLevel_loop rs 1) as [l|] eqn:Hl; [|done]. bind_simpl. intros [= <-].
  apply random_level_loop_ge in Hl. case_decide; unfold ZSKIPLIST_MAXLEVEL in *; lia.
Qed.

(** ** Insertion *)

Lemma nodes_new l m s e : nodes_of l m → m !! e = None → Forall (λ sn, ¬ key_eq (sn_key sn) (s, e)) l.
Proof.
  intros Hm He. apply Forall_lookup. intros k sn Hk [_ Heq]. simpl in Heq.
  pose proof (nodes_get _ _ _ _ Hm Hk) as Hg. rewrite Heq in Hg. congruence.
Qed.

(** ** Search for an element *)

Section locate.
Context (h : heap) (z : zskiplist) (l : list snode) (Hinv : zsl_inv h z l).
Context (s : double) (e : bytes) (Hs : isnan s = false).

(** The search stops just before the element, when it is there. *)
Lemma locate_ok :
  ∃ k ur, search h z (λ _, node_before s e) = Some ur ∧ search_result z l k ur ∧ (k ≤ length l)%nat ∧
    get_level h (last_node z ur) 0 = Some (nxt 0 (drop k l)) ∧
    forward (nxt 0 (drop k l)) = sn_addr <$> l !! k ∧
    ∀ j sn, l !! j = Some sn → key_eq (sn_key sn) (s, e) → j = k.
Proof.
  destruct (before_upto h z l s e Hinv Hs) as (k & Hcond & Hlt). pose proof Hcond as [Hk _].
  destruct (search_ok h z l Hinv _ k Hcond) as (ur & -> & Hur). exists k, ur. split_and!; [done..| | |].
  - destruct (search_head h z l Hinv _ k Hcond ur Hur) as (sk & ur' & -> & Hsk & Hpos). simpl.
    by apply (zi_links _ _ _ Hinv k sk).
  - by eapply nxt_zero.
  - intros j sn Hj Heq. destruct (Nat.lt_trichotomy j k) as [Hjk|[|Hjk]]; [|done|].
    + apply (Hlt j sn Hj) in Hjk. rewrite (key_lt_eq_l _ _ _ Heq) in Hjk. by apply key_lt_irrefl in Hjk.
    + destruct (lookup_lt_is_Some_2 l k) as [sk Hsk]; [apply lookup_lt_Some in Hj; lia|].
      assert (key_lt (sn_key sk) (sn_key sn)) as Hkj.
      { eapply keys_lookup_lt; [apply (zi_sorted _ _ _ Hinv)|done..]. }
      rewrite (key_lt_eq_r _ _ _ Heq), (Hlt k sk Hsk) in Hkj. lia.
Qed.

Lemma node_is_key k sn n :
  l !! k = Some sn → h !! sn_addr sn = Some n → node_is s e n = true ↔ key_eq (sn_key sn) (s, e).
Proof.
  intros Hk Hn. destruct (zi_nodes _ _ _ Hinv k sn Hk) as (n' & Hn' & He & Hsc & _). rewrite Hn in Hn'. injection Hn' as <-.
  pose proof (zi_scores _ _ _ Hinv) as Hsn. eapply Forall_lookup_1 in Hsn; [|done].
  rewrite (node_is_spec s e n _ He Hs) by by rewrite Hsc. rewrite Hsc. by destruct (sn_key sn).
Qed.

End locate.

(** ** Deletion *)

Lemma search_update z l k ur : search_result z l k ur → update_ok z l k ur.
Proof. by intros [_ Hur]. Qed.

Lemma zslDelete_ok h z l s e keep :
  zsl_inv h z l → isnan s = false →
  (∃ k sn h' z', l !! k = Some sn ∧ key_eq (sn_key sn) (s, e) ∧ zslDelete h z s e keep = Some (h', z', Some (sn_addr sn)) ∧
     zsl_inv h' z' (deleted l k) ∧ tight z' (deleted l k) ∧ zsl_header z' = zsl_header z ∧
     (∀ F, frame F h z l → frame (if keep then {[sn_addr sn]} ∪ F else F) h' z' (deleted l k))) ∨
  (∀ k sn, l !! k = Some sn → ¬ key_eq (sn_key sn) (s, e)) ∧ zslDelete h z s e keep = Some (h, z, None).
Proof.
  intros Hinv Hs. unfold zslDelete. destruct (locate_ok h z l Hinv s e Hs) as (k & ur & -> & Hur & Hk & Hlast & Hfwd & Hpos).
  bind_simpl. rewrite Hlast. bind_simpl. rewrite Hfwd.
  destruct (l !! k) as [sn|] eqn:Hsn; simpl; [|right; split; [|done]].
  2: { intros j sn Hj Heq. pose proof (Hpos j sn Hj Heq). congruence. }
  destruct (node_heap h z l Hinv k sn Hsn) as [n Hn]. rewrite Hn. bind_simpl.
  pose proof (node_is_key h z l Hinv s e Hs k sn n Hsn Hn) as Hkey. destruct (node_is s e n).
  - left. destruct (zslDeleteNode_ok h z l k ur Hinv (search_update _ _ _ _ Hur) sn Hsn)
      as (h' & z' & -> & Hinv' & Htight & Hhdr & _ & Hdom & Hnot). bind_simpl.
    destruct (proj2 (Hdom (sn_addr sn)) ltac:(eauto)) as [n' Hn'].
    exists k, sn, (if keep then h' else delete (sn_addr sn) h'), z'. split_and!; [done|by apply Hkey| | |done..|].
    + destruct keep; [done|]. unfold zslFreeNode. by rewrite Hn'.
    + destruct keep; [done|]. by apply inv_free.
    + intros F HF. destruct (frame_delete F h z l h' z' k sn Hinv HF Hsn Hhdr Hdom) as [Hx HF']. destruct keep; [done|]. by apply frame_free.
  - right. split; [|done]. intros j sn' Hj Heq. assert (j = k) as -> by by eapply Hpos.
    assert (sn' = sn) as -> by congruence. by apply Hkey in Heq.
Qed.

(** ** Update of a score *)

Definition sn_shape (s : snode) : addr * nat := (sn_addr s, sn_height s).

Lemma nxt_shape i l l' : sn_shape <$> l = sn_shape <$> l' → nxt i l = nxt i l'.
Proof.
  revert l'. induction l as [|s l IH]; intros [|s' l'] Heq; try done. rewrite !fmap_cons in Heq. injection Heq as Ha Hh Heq.
  cbn [nxt]. by rewrite Ha, Hh, (IH _ Heq).
Qed.

Section rescore.
Context (h : heap) (z : zskiplist) (l : list snode) (Hinv : zsl_inv h z l).
Context (k : nat) (sn : snode) (Hk : l !! k = Some sn) (s : double) (Hs : isnan s = false).
Context (n : zskiplistNode) (Hn : h !! sn_addr sn = Some n).

Definition rescored : snode := mk_snode (sn_addr sn) (s, snd (sn_key sn)) (sn_height sn).
Definition rescore : list snode := <[k := rescored]> l.

(** The new score is between the scores of the neighbours. *)
Context (Hprev : ∀ j a, k = S j → l !! j = Some a → flt (fst (sn_key a)) s).
Context (Hnext : ∀ a, l !! S k = Some a → flt s (fst (sn_key a))).

Lemma rescore_shape : sn_shape <$> rescore = sn_shape <$> l.
Proof. unfold rescore. rewrite list_fmap_insert. apply list_insert_id. by rewrite list_lookup_fmap, Hk. Qed.

Lemma rescore_addrs : sn_addr <$> rescore = sn_addr <$> l.
Proof.
  pose proof rescore_shape as Hshape. apply (f_equal (fmap fst)) in Hshape. by rewrite <- !list_fmap_compose in Hshape.
Qed.

Lemma rescore_split : rescore = take k l ++ rescored :: drop (S k) l.
Proof. unfold rescore. apply insert_take_drop. by eapply lookup_lt_Some. Qed.

Lemma rescore_perm : rescore ≡ₚ rescored :: deleted l k.
Proof. rewrite rescore_split. unfold deleted. by rewrite Permutation_middle. Qed.

Lemma rescore_sorted : StronglySorted key_lt (sn_key <$> rescore).
Proof.
  pose proof (zi_sorted _ _ _ Hinv) as Hsort. pose proof (lookup_lt_Some _ _ _ Hk) as Hlt.
  rewrite rescore_split, fmap_app, fmap_cons. rewrite <- (take_drop_middle l k sn Hk), fmap_app, fmap_cons in Hsort.
  apply sorted_replace with (x := sn_key sn); [done| |].
  - intros y Hy. left. simpl. destruct k as [|j]; [by apply not_elem_of_nil in Hy|].
    destruct (lookup_lt_is_Some_2 l j ltac:(lia)) as [a Ha]. pose proof (Hprev j a eq_refl Ha) as Hlta.
    apply list_elem_of_fmap in Hy as (b & -> & Hb). apply list_elem_of_lookup in Hb as [i Hi].
    rewrite lookup_take in Hi. destruct (decide (i < S j)%nat); [|done].
    destruct (decide (i = j)) as [->|]; [by assert (a = b) as -> by congruence|].
    assert (key_lt (sn_key b) (sn_key a)) as [H|[H _]].
    { eapply (keys_lookup_lt l i j); [apply (zi_sorted _ _ _ Hinv)|done..|lia]. }
    + by eapply flt_trans.
    + by rewrite (flt_eq_l _ _ _ H).
  - intros y Hy. left. simpl. apply list_elem_of_fmap in Hy as (b & -> & Hb). apply list_elem_of_lookup in Hb as [i Hi].
    rewrite lookup_drop in Hi. destruct (lookup_lt_is_Some_2 l (S k)) as [a Ha]; [apply lookup_lt_Some in Hi; lia|].
    pose proof (Hnext a Ha) as Hlta. destruct i as [|i]; [rewrite Nat.add_0_r in Hi; by assert (a = b) as -> by congruence|].
    assert (key_lt (sn_key a) (sn_key b)) as [H|[H _]].
    { eapply (keys_lookup_lt l (S k) (S k + S i)); [apply (zi_sorted _ _ _ Hinv)|done..|lia]. }
    + by eapply flt_trans.
    + by rewrite <- (flt_eq_r _ _ _ H).
Qed.

Lemma rescore_get_level a i : get_level (<[sn_addr sn := set_score n s]> h) a i = get_level h a i.
Proof.
  unfold get_level. destruct (decide (a = sn_addr sn)) as [->|]; [by rewrite lookup_insert_eq, Hn|by rewrite lookup_insert_ne].
Qed.

Lemma rescore_inv : zsl_inv (<[sn_addr sn := set_score n s]> h) z rescore.
Proof.
  pose proof rescore_shape as Hshape. pose proof Hinv as [H1 H2 H3 H4 H5 H6 H7 H8 H9 H10 H11 H12].
  pose proof rescore_addrs as Haddrs.
  assert (∀ j, sn_addr <$> rescore !! j = sn_addr <$> l !! j) as Haddr by (intros j; by rewrite <- !list_lookup_fmap, Haddrs).
  assert (length rescore = length l) as Hlen by apply length_insert.
  split; try done.
  - unfold with_header in *. rewrite fmap_cons in *. by rewrite Haddrs.
  - apply Forall_lookup. intros j a Ha. assert (sn_shape <$> rescore !! j = sn_shape <$> l !! j) as E by by rewrite <- !list_lookup_fmap, Hshape.
    rewrite Ha in E. destruct (l !! j) as [b|] eqn:Hb; [|done]. injection E as _ ->. eapply (Forall_lookup_1 _ _ _ _ H3 Hb).
  - by rewrite Hlen.
  - rewrite H5, !last_lookup, Hlen. by rewrite Haddr.
  - destruct H6 as (nh & Hnh & Hrest). exists nh. rewrite lookup_insert_ne; [done|]. intros Heq.
    by pose proof (pos_inj h z l (S k) 0 sn _ Hinv Hk eq_refl Heq).
  - intros j a Ha. unfold rescore in Ha. destruct (decide (j = k)) as [->|Hjk].
    + rewrite list_lookup_insert_eq in Ha by by eapply lookup_lt_Some. injection Ha as <-.
      destruct (H7 k sn Hk) as (n' & Hn' & He & _ & Hl & Hb). assert (n' = n) as -> by congruence.
      exists (set_score n s). simpl. rewrite lookup_insert_eq. split_and!; [done..|]. rewrite Hb. destruct k; [done|]. symmetry; apply Haddr.
    + rewrite list_lookup_insert_ne in Ha by done. destruct (H7 j a Ha) as (n' & Hn' & He & Hsc & Hl & Hb).
      exists n'. rewrite lookup_insert_ne.
      * split_and!; [done..|]. rewrite Hb. destruct j; [done|]. symmetry; apply Haddr.
      * intros Heq. apply Hjk. by pose proof (pos_inj h z l (S k) (S j) sn a Hinv Hk Ha Heq) as [= ->].
  - intros p a i Hp Hi. rewrite rescore_get_level.
    assert (∃ b, with_header z l !! p = Some b ∧ sn_shape b = sn_shape a) as (b & Hb & [= Hba Hbh]).
    { destruct p as [|p]; [by exists a|]. simpl in *.
      assert (sn_shape <$> rescore !! p = sn_shape <$> l !! p) as E by by rewrite <- !list_lookup_fmap, Hshape.
      rewrite Hp in E. destruct (l !! p) as [b|]; [|done]. exists b. split; [done|]. simpl in E. congruence. }
    rewrite <- Hba, (H8 p b i Hb) by lia. f_equal. apply nxt_shape. by rewrite !fmap_drop, Hshape.
  - intros i Hi. rewrite rescore_get_level. by apply H9.
  - apply rescore_sorted.
  - rewrite rescore_perm. constructor; [done|]. rewrite (deleted_perm l k sn Hk) in H11. by inversion H11.
  - by rewrite Hlen.
Qed.

Lemma frame_rescore F : frame F h z l → frame F (<[sn_addr sn := set_score n s]> h) z rescore.
Proof.
  intros HF a. destruct (HF a) as [Ha HFa]. unfold with_header in *. rewrite fmap_cons, rescore_addrs. split; [|done].
  rewrite <- Ha. destruct (decide (a = sn_addr sn)) as [->|]; [rewrite lookup_insert_eq, Hn; naive_solver|by rewrite lookup_insert_ne].
Qed.

Lemma nodes_rescore m : nodes_of l m → nodes_of rescore (<[snd (sn_key sn) := s]> m).
Proof.
  intros Hm. pose proof (nodes_delete l m k sn Hm Hk) as Hd. unfold nodes_of in *. rewrite rescore_perm, fmap_cons, Hd.
  rewrite <- insert_delete_eq, map_to_list_insert by apply lookup_delete_eq. done.
Qed.

Lemma node_map_rescore m : nodes_of l m → node_map rescore = <[snd (sn_key sn) := sn_addr sn]> (node_map l).
Proof.
  intros Hm. rewrite insert_id by (apply (node_map_lookup _ _ _ _ Hm); eauto). symmetry. apply (node_map_perm _ _ _ Hm).
  rewrite rescore_perm. etransitivity; [apply fmap_Permutation, (deleted_perm l k sn Hk)|done].
Qed.

End rescore.

Lemma null_or_node h test (o : option snode) :
  (∀ a, o = Some a → ∃ n, h !! sn_addr a = Some n ∧ score n = fst (sn_key a)) →
  null_or h (sn_addr <$> o) test = Some (match o with Some a => test (fst (sn_key a)) | None => true end).
Proof. intros Ho. destruct o as [a|]; [|done]. destruct (Ho a eq_refl) as (n & Hn & Hs). simpl. rewrite Hn. simpl. by rewrite Hs. Qed.

Lemma node_score h z l k a : zsl_inv h z l → l !! k = Some a → ∃ n, h !! sn_addr a = Some n ∧ score n = fst (sn_key a).
Proof. intros Hinv Hk. destruct (zi_nodes _ _ _ Hinv k a Hk) as (n & Hn & _ & Hs & _). eauto. Qed.

Lemma node_nan h z l k a : zsl_inv h z l → l !! k = Some a → isnan (fst (sn_key a)) = false.
Proof. intros Hinv Hk. pose proof (zi_scores _ _ _ Hinv) as Hs. by eapply Forall_lookup_1 in Hs. Qed.

(** The node before position [k]. *)
Definition prev_node (l : list snode) (k : nat) : option snode := match k with O => None | S j => l !! j end.

(** The new node of a list, with the memory of the rest kept. *)
Lemma insert_nodes F h z l m lvl s e :
  zsl_inv h z l → nodes_of l m → frame F h z l → (1 ≤ lvl ≤ ZSKIPLIST_MAXLEVEL)%nat → isnan s = false → Z.of_nat (size m) + 1 < 2 ^ 64 - 1 →
  m !! e = None →
  ∃ h' z' x k, zslInsert h z lvl s e = Some (h', z', x) ∧ zsl_inv h' z' (inserted l k x (s, e) lvl) ∧
    nodes_of (inserted l k x (s, e) lvl) (<[e := s]> m) ∧ frame F h' z' (inserted l k x (s, e) lvl) ∧
    h !! x = None ∧ zsl_header z' = zsl_header z ∧ (∃ n, h' !! x = Some n ∧ ele n = Some e ∧ score n = s).
Proof.
  intros Hinv Hm HF Hlvl Hs Hsize He. pose proof (nodes_length _ _ Hm) as Hlen.
  destruct (zslInsert_ok h z l lvl s e Hinv Hlvl Hs ltac:(lia) (nodes_new _ _ _ _ Hm He))
    as (h' & z' & x & k & Hins & Hk & Hinv' & Hx & Hhdr & Hdom).
  exists h', z', x, k. split_and!; [done|done|by apply nodes_insert|by eapply frame_insert|done|done|].
  destruct (zi_nodes _ _ _ Hinv' k (mk_snode x (s, e) lvl)) as (n & Hn & Hen & Hsn & _); [|by eauto].
  unfold inserted. rewrite lookup_app_r by (rewrite length_take; lia). rewrite length_take_le by done. by rewrite Nat.sub_diag.
Qed.

Section update.
Context (F : gset addr) (h : heap) (z : zskiplist) (l : list snode) (m : zmap).
Context (Hinv : zsl_inv h z l) (Hm : nodes_of l m) (HF : frame F h z l).
Context (cur : double) (e : bytes) (Hcur : isnan cur = false).
Context (lvl : nat) (Hlvl : (1 ≤ lvl ≤ ZSKIPLIST_MAXLEVEL)%nat) (new : double) (Hnew : isnan new = false).

(** The list after the update, with the node of the element at [x]. *)
Definition updated_nodes (h' : heap) (z' : zskiplist) (x : addr) : Prop :=
  (∃ l', zsl_inv h' z' l' ∧ nodes_of l' (<[e := new]> m) ∧ frame F h' z' l' ∧ node_map l' = <[e := x]> (node_map l)) ∧
  ∃ n, h' !! x = Some n ∧ ele n = Some e ∧ score n = new.

(** The slow path: the node is removed and inserted again. *)
Lemma reinsert_ok k sn ur :
  l !! k = Some sn → snd (sn_key sn) = e → search_result z l k ur →
  ∃ h' z' x, ('(h, z) ← zslDeleteNode h z (sn_addr sn) ur;
              '(h, z, newnode) ← zslInsert h z lvl new e;
              h ← zslFreeNode h (sn_addr sn);
              Some (h, z, newnode)) = Some (h', z', x) ∧ updated_nodes h' z' x.
Proof.
  intros Hk He Hur. destruct (zslDeleteNode_ok h z l k ur Hinv (search_update _ _ _ _ Hur) sn Hk)
    as (h1 & z1 & -> & Hinv1 & _ & Hhdr1 & _ & Hdom1 & Hnot1). bind_simpl.
  pose proof (nodes_delete _ _ _ _ Hm Hk) as Hm1. rewrite He in Hm1.
  destruct (frame_delete F h z l h1 z1 k sn Hinv HF Hk Hhdr1 Hdom1) as [HxF HF1].
  destruct (insert_nodes _ h1 z1 (deleted l k) (delete e m) lvl new e Hinv1 Hm1 HF1 Hlvl Hnew) as
    (h2 & z2 & x & k2 & -> & Hinv2 & Hm2 & HF2 & Hx & Hhdr2 & n & Hn & Hen & Hsn).
  { rewrite <- (nodes_length _ _ Hm1). pose proof (zi_bound _ _ _ Hinv). pose proof (deleted_length l k sn Hk). lia. }
  { apply lookup_delete_eq. }
  bind_simpl. destruct (proj2 (proj1 (HF2 (sn_addr sn))) ltac:(set_solver)) as [n2 Hn2].
  unfold zslFreeNode. rewrite Hn2. bind_simpl. destruct (frame_free F h2 z2 _ (sn_addr sn) HxF HF2 Hinv2) as [HF3 Hinv3].
  eexists _, _, x. split; [done|]. split.
  - eexists. split; [exact Hinv3|]. split_and!; [by rewrite <- insert_delete_eq|done|].
    rewrite (node_map_insert _ _ _ _ _ _ _ Hm1) by apply lookup_delete_eq. rewrite (node_map_delete _ _ _ _ Hm Hk), He. apply insert_delete_eq.
  - exists n. rewrite lookup_delete_ne; [done|]. intros Heq. destruct (proj2 (proj1 (HF1 (sn_addr sn))) ltac:(set_solver)) as [n1 Hn1].
    congruence.
Qed.

Lemma update_found s0 :
  m !! e = Some s0 → fkey s0 = fkey cur →
  ∃ h' z' x, zslUpdateScore h z lvl cur e new = Some (h', z', x) ∧ updated_nodes h' z' x.
Proof.
  intros He Hkey. apply (nodes_lookup _ _ _ _ Hm) in He as (k & sn & Hk & Hsn).
  unfold zslUpdateScore. destruct (locate_ok h z l Hinv cur e Hcur) as (k' & ur & -> & Hur & _ & Hlast & Hfwd & Hpos).
  assert (key_eq (sn_key sn) (cur, e)) as Heq by by rewrite Hsn. assert (k = k') as <- by by eapply Hpos.
  bind_simpl. rewrite Hlast. bind_simpl. rewrite Hfwd, Hk. cbn [fmap option_fmap option_map mbind option_bind].
  destruct (zi_nodes _ _ _ Hinv k sn Hk) as (n & Hn & Hen & Hsc & Hlev & Hback). rewrite Hn. bind_simpl.
  replace (node_is cur e n) with true by (symmetry; by apply (node_is_key h z l Hinv cur e Hcur k sn n)).
  assert (level n !! 0%nat = Some (nxt 0 (drop (S k) l))) as ->.
  { pose proof (zi_heights _ _ _ Hinv) as Hh. eapply Forall_lookup_1 in Hh; [|exact Hk]. simpl in Hh.
    pose proof (zi_links _ _ _ Hinv (S k) sn 0%nat Hk ltac:(lia)) as Hl. unfold get_level in Hl. by rewrite Hn in Hl. }
  bind_simpl. rewrite (nxt_zero _ _ _ _ Hinv).
  assert (backward n = sn_addr <$> prev_node l k) as -> by (rewrite Hback; by destruct k).
  rewrite (null_or_node h _ (prev_node l k)) by (intros a Ha; destruct k as [|j]; [discriminate|by eapply node_score]). bind_simpl.
  rewrite (null_or_node h _ (l !! S k)) by (intros a Ha; by eapply node_score). bind_simpl.
  match goal with |- context [if ?b then _ else _] => destruct b eqn:Hb end.
  - apply andb_true_iff in Hb as [Hb1 Hb2]. eexists _, _, _. split; [done|]. split.
    + exists (rescore l k sn new). split_and!.
      * apply rescore_inv; [done..| |].
        -- intros j a -> Ha. simpl in Hb1. rewrite Ha in Hb1. apply (sfltb_spec _ _ (node_nan _ _ _ _ _ Hinv Ha) Hnew), Hb1.
        -- intros a Ha. rewrite Ha in Hb2. apply (sfltb_spec _ _ Hnew (node_nan _ _ _ _ _ Hinv Ha)), Hb2.
      * pose proof (nodes_rescore l k sn Hk new m Hm) as Hr. by rewrite Hsn in Hr.
      * by apply frame_rescore.
      * pose proof (node_map_rescore l k sn Hk new m Hm) as Hr. by rewrite Hsn in Hr.
    + exists (set_score n new). rewrite lookup_insert_eq. simpl. split_and!; [done| |done]. by rewrite Hen, Hsn.
  - destruct (reinsert_ok k sn ur Hk) as (h' & z' & x & Hres); [by rewrite Hsn|done|]. exists h', z', x. exact Hres.
Qed.

(** The assertion of the code fails when the element is not there. *)
Lemma update_missing : (∀ s0, m !! e = Some s0 → fkey s0 ≠ fkey cur) → zslUpdateScore h z lvl cur e new = None.
Proof.
  intros Hno. unfold zslUpdateScore. destruct (locate_ok h z l Hinv cur e Hcur) as (k & ur & -> & Hur & _ & Hlast & Hfwd & Hpos).
  bind_simpl. rewrite Hlast. bind_simpl. rewrite Hfwd. destruct (l !! k) as [sn|] eqn:Hk; [|done].
  cbn [fmap option_fmap option_map mbind option_bind]. destruct (node_heap h z l Hinv k sn Hk) as [n Hn]. rewrite Hn. bind_simpl.
  destruct (node_is cur e n) eqn:Hb; [|done]. apply (node_is_key h z l Hinv cur e Hcur k sn n Hk Hn) in Hb as [Hs1 Hs2].
  exfalso. simpl in *. apply (Hno (fst (sn_key sn))); [|done]. rewrite <- Hs2. by eapply nodes_get.
Qed.

Lemma updated_repr h' z' x : updated_nodes h' z' x → zsl_repr F h' z' (<[e := new]> m).
Proof. intros [(l' & Hinv' & Hm' & HF' & _) _]. by exists l'. Qed.

End update.

(** ** Freeing *)

Lemma free_loop_ok (r : list snode) fuel (h : heap) :
  NoDup (sn_addr <$> r) →
  (∀ j s, r !! j = Some s → ∃ lv, get_level h (sn_addr s) 0 = Some lv ∧ forward lv = sn_addr <$> r !! S j) →
  (length r ≤ fuel)%nat →
  ∃ h', zslFree_loop fuel h (sn_addr <$> head r) = Some h' ∧
    ∀ a, is_Some (h' !! a) ↔ is_Some (h !! a) ∧ a ∉ sn_addr <$> r.
Proof.
  revert fuel h. induction r as [|s r IH]; intros fuel h Hnd Hlinks Hfuel.
  { exists h. split; [by destruct fuel|]. set_solver. }
  destruct fuel as [|fuel]; [simpl in Hfuel; lia|]. rewrite fmap_cons, NoDup_cons in Hnd. destruct Hnd as [Hnot Hnd].
  destruct (Hlinks 0%nat s eq_refl) as (lv & Hlv & Hf). cbn [head fmap option_fmap option_map zslFree_loop]. rewrite Hlv.
  bind_simpl. unfold zslFreeNode. destruct (h !! sn_addr s) as [n|] eqn:Hn; [|by unfold get_level in Hlv; rewrite Hn in Hlv].
  bind_simpl. rewrite Hf. change (r !! 0%nat) with ((s :: r) !! 1%nat). simpl. rewrite <- head_lookup.
  destruct (IH fuel (delete (sn_addr s) h) Hnd) as (h' & -> & Hdom).
  - intros j s' Hj. destruct (Hlinks (S j) s' Hj) as (lv' & Hlv' & Hf'). exists lv'. split; [|done].
    unfold get_level in *. rewrite lookup_delete_ne; [done|]. intros Heq. apply Hnot. rewrite Heq.
    apply list_elem_of_fmap. exists s'. split; [done|]. by eapply list_elem_of_lookup_2.
  - simpl in Hfuel. lia.
  - exists h'. split; [done|]. intros a. rewrite Hdom, not_elem_of_cons.
    destruct (decide (a = sn_addr s)) as [->|]; [rewrite lookup_delete_eq|rewrite lookup_delete_ne by done]; [|naive_solver].
    split; [by intros [[] _]|by intros (_ & ? & _)].
Qed.

Lemma free_ok F h z l : zsl_inv h z l → frame F h z l → ∃ h', zslFree h z = Some h' ∧ ∀ a, is_Some (h' !! a) ↔ a ∈ F.
Proof.
  intros Hinv HF. unfold zslFree. destruct (zi_level _ _ _ Hinv) as [H1 _].
  pose proof (zi_links _ _ _ Hinv 0 _ 0%nat eq_refl ltac:(simpl; lia)) as Hl0. simpl in Hl0. rewrite Hl0. bind_simpl.
  rewrite (nxt_zero _ _ _ _ Hinv), <- head_lookup. pose proof (zi_nodup _ _ _ Hinv) as Hnd. unfold with_header in Hnd.
  rewrite fmap_cons, NoDup_cons in Hnd. destruct Hnd as [Hh Hnd].
  destruct (free_loop_ok l (size (delete (zsl_header z) h)) (delete (zsl_header z) h) Hnd) as (h' & -> & Hdom).
  - intros j s Hj. exists (nxt 0 (drop (S j) l)). split; [|by eapply nxt_zero].
    rewrite <- (zi_links _ _ _ Hinv (S j) s 0 Hj).
    + unfold get_level. rewrite lookup_delete_ne; [done|]. intros Heq. apply Hh. simpl. rewrite Heq.
      apply list_elem_of_fmap. exists s. split; [done|]. by eapply list_elem_of_lookup_2.
    + pose proof (zi_heights _ _ _ Hinv) as Hhs. eapply Forall_lookup_1 in Hhs; [|done]. simpl in Hhs. lia.
  - pose proof (inv_size h z l Hinv). destruct (zi_header _ _ _ Hinv) as (n & Hn & _).
    rewrite map_size_delete_Some by eauto. lia.
  - exists h'. split; [done|]. intros a. rewrite Hdom. destruct (HF a) as [Ha HFa]. unfold with_header in *. rewrite fmap_cons in *. simpl in *.
    destruct (decide (a = zsl_header z)) as [->|]; [rewrite lookup_delete_eq|rewrite lookup_delete_ne by done; set_solver].
    split; [by intros [[] _]|]. set_solver.
Qed.

(** ** The operations on the map *)

(** Insertion implements insertion into the finite map, for every level that the random
    generator can give: the new node holds the element at a fresh address, the order by score
    and member, the spans, the backward links, the tail and the length are all maintained, and
    the heap holds nothing but the nodes of the list and what was there. *)
Theorem zslInsert_refines F h z m rs lvl s e :
  zsl_repr F h z m → zslRandomLevel rs = Some lvl → isnan s = false → m !! e = None → Z.of_nat (size m) < 2 ^ 64 - 2 →
  ∃ h' z' x, zslInsert h z lvl s e = Some (h', z', x) ∧ zsl_repr F h' z' (<[e := s]> m) ∧
    zsl_length z' = zsl_length z + 1 ∧ h !! x = None ∧ ∃ n, h' !! x = Some n ∧ ele n = Some e ∧ score n = s.
Proof.
  intros (l & Hinv & Hm & HF) Hrs Hs He Hsize. pose proof (nodes_length _ _ Hm) as Hlen.
  destruct (insert_nodes F h z l m lvl s e Hinv Hm HF (random_level_range _ _ Hrs) Hs ltac:(lia) He) as
    (h' & z' & x & k & Hins & Hinv' & Hm' & HF' & Hx & _ & Hn).
  exists h', z', x. split_and!; [done|by eexists| |done..].
  rewrite (zi_length _ _ _ Hinv), (zi_length _ _ _ Hinv'), inserted_list_perm. simpl. lia.
Qed.

(** Deletion implements deletion from the map: the element leaves the list exactly when the
    map has its member with an equal score (0 and -0 are equal), and only then the node is
    reported; it is freed, or handed over to the caller that asked for it.  Otherwise nothing
    changes. *)
Theorem zslDelete_refines F h z m s e keep :
  zsl_repr F h z m → isnan s = false →
  ∃ h' z' r, zslDelete h z s e keep = Some (h', z', r) ∧
    if has_score m e s
    then ∃ x n, r = Some x ∧ h !! x = Some n ∧ ele n = Some e ∧ (x ∉ F) ∧
           zsl_repr (if keep then {[x]} ∪ F else F) h' z' (delete e m)
    else r = None ∧ h' = h ∧ z' = z.
Proof.
  intros (l & Hinv & Hm & HF) Hs. destruct (zslDelete_ok h z l s e keep Hinv Hs) as
    [(k & sn & h' & z' & Hk & [Hk1 Hk2] & -> & Hinv' & _ & _ & HF')|[Hno ->]]; eexists _, _, _; (split; [done|]).
  - simpl in *. pose proof (nodes_get _ _ _ _ Hm Hk) as Hget. destruct (zi_nodes _ _ _ Hinv k sn Hk) as (n & Hn & Hen & _).
    pose proof (nodes_delete _ _ _ _ Hm Hk) as Hm'. rewrite Hk2 in Hget, Hen, Hm'.
    assert (has_score m e s = true) as ->.
    { unfold has_score. rewrite Hget. by apply (sfeqb_spec _ _ (node_nan _ _ _ _ _ Hinv Hk) Hs). }
    exists (sn_addr sn), n. split_and!; [done..| |exists (deleted l k); auto].
    intros Hin. apply (proj2 (HF (sn_addr sn)) Hin). unfold with_header. rewrite fmap_cons, (deleted_perm l k sn Hk). set_solver.
  - rewrite (has_score_none l m s e); [done..|]. by eapply zi_scores.
Qed.

(** The update of a score implements the update of the map, on both paths of the code (the
    new score in place when the neighbours allow it, removal and insertion otherwise), and
    returns the node that holds the new score; the assertion of the code fails exactly when the
    element is not there with an equal score. *)
Theorem zslUpdateScore_refines F h z m rs lvl cur e new :
  zsl_repr F h z m → zslRandomLevel rs = Some lvl → isnan cur = false → isnan new = false →
  if has_score m e cur
  then ∃ h' z' x, zslUpdateScore h z lvl cur e new = Some (h', z', x) ∧ zsl_repr F h' z' (<[e := new]> m) ∧
         ∃ n, h' !! x = Some n ∧ ele n = Some e ∧ score n = new
  else zslUpdateScore h z lvl cur e new = None.
Proof.
  intros (l & Hinv & Hm & HF) Hrs Hcur Hnew.
  unfold has_score. destruct (m !! e) as [s0|] eqn:He; [destruct (SFeqb s0 cur) eqn:Heq|].
  - destruct (update_found F h z l m Hinv Hm HF cur e Hcur lvl (random_level_range _ _ Hrs) new Hnew s0 He) as (h' & z' & x & Hu & Hup);
      [by apply (sfeqb_spec _ _ (nodes_nan _ _ _ _ _ _ Hinv Hm He) Hcur)|].
    exists h', z', x. split_and!; [done|by eapply updated_repr|apply Hup].
  - eapply update_missing; [done..|]. intros s1. rewrite He. intros [= <-] Hk.
    apply (sfeqb_spec _ _ (nodes_nan _ _ _ _ _ _ Hinv Hm He) Hcur) in Hk. congruence.
  - eapply update_missing; [done..|]. by rewrite He.
Qed.

(** Freeing a skip list frees every node and the header once, and nothing else: what
    remains in the heap are the other objects. *)
Theorem zslFree_frees_all F h z m :
  zsl_repr F h z m → ∃ h', zslFree h z = Some h' ∧ dom h' = F ∧ size h = (size h' + size m + 1)%nat.
Proof.
  intros (l & Hinv & Hm & HF). destruct (free_ok F h z l Hinv HF) as (h' & Hfree & Hdom). exists h'.
  assert (dom h' = F) as HdF by (apply set_eq; intros a; rewrite elem_of_dom; apply Hdom).
  split_and!; [done|done|]. rewrite (frame_size _ _ _ _ Hinv HF), (nodes_length _ _ Hm), <- HdF, size_dom. lia.
Qed.

(** ** Histories *)

(** The calls of the sorted set commands. *)
Inductive zop :=
  | OpInsert (rs : list Z) (s : double) (e : bytes)
  | OpDelete (s : double) (e : bytes)
  | OpUpdate (rs : list Z) (cur : double) (e : bytes) (new : double).

Definition zop_run (hz : heap * zskiplist) (o : zop) : option (heap * zskiplist) :=
  let '(h, z) := hz in
  match o with
  | OpInsert rs s e => lvl ← zslRandomLevel rs; '(h, z, _) ← zslInsert h z lvl s e; Some (h, z)
  | OpDelete s e => '(h, z, _) ← zslDelete h z s e false; Some (h, z)
  | OpUpdate rs cur e new => lvl ← zslRandomLevel rs; '(h, z, _) ← zslUpdateScore h z lvl cur e new; Some (h, z)
  end.

(** What the caller must respect, and the effect on the map. *)
Definition zop_spec (m : zmap) (o : zop) : option zmap :=
  match o with
  | OpInsert rs s e =>
      _ ← zslRandomLevel rs;
      if negb (isnan s) && bool_decide (m !! e = None) then Some (<[e := s]> m) else None
  | OpDelete s e =>
      if isnan s then None
      else Some (if has_score m e s then delete e m else m)
  | OpUpdate rs cur e new =>
      _ ← zslRandomLevel rs;
      if negb (isnan cur) && negb (isnan new) && has_score m e cur
      then Some (<[e := new]> m) else None
  end.

(** A sequence of calls, up to the first failure. *)
Fixpoint run_all {A B} (f : A → B → option A) (a : A) (ops : list B) : option A :=
  match ops with [] => Some a | o :: ops => a ← f a o; run_all f a ops end.

Lemma zop_step F h z m m' o :
  zsl_repr F h z m → Z.of_nat (size m) < 2 ^ 64 - 2 → zop_spec m o = Some m' →
  (size m' ≤ S (size m))%nat ∧ ∃ h' z', zop_run (h, z) o = Some (h', z') ∧ zsl_repr F h' z' m'.
Proof.
  intros Hrepr Hsize. pose proof Hrepr as (l & Hinv & Hm & HF). destruct o as [rs s e|s e|rs cur e new]; cbn [zop_spec zop_run].
  - destruct (zslRandomLevel rs) as [lvl|] eqn:Hrs; [|done]. bind_simpl.
    destruct (isnan s) eqn:Hs; [done|]. simpl. case_bool_decide as He; [|done]. intros [= <-].
    destruct (insert_nodes F h z l m lvl s e Hinv Hm HF (random_level_range _ _ Hrs) Hs ltac:(lia) He) as
      (h' & z' & x & k & -> & Hinv' & Hm' & HF' & _). split; [rewrite map_size_insert_None by done; lia|].
    eexists _, _. split; [done|]. by eexists.
  - destruct (isnan s) eqn:Hs; [done|]. intros [= <-].
    assert (size (delete e m) ≤ size m)%nat as Hle 
      by (destruct (m !! e) eqn:He; [rewrite map_size_delete_Some by eauto|rewrite map_size_delete_None by done]; lia).
    split; [case_match; lia|]. destruct (zslDelete_ok h z l s e false Hinv Hs) as
      [(k & sn & h' & z' & Hk & [Hk1 Hk2] & -> & Hinv' & _ & _ & HF')|[Hno ->]]; eexists _, _; (split; [done|]).
    + simpl in *. pose proof (nodes_get _ _ _ _ Hm Hk) as Hget. pose proof (nodes_delete _ _ _ _ Hm Hk) as Hm'. rewrite Hk2 in Hget, Hm'.
      unfold has_score. rewrite Hget. rewrite (proj2 (sfeqb_spec _ _ (node_nan _ _ _ _ _ Hinv Hk) Hs) Hk1). exists (deleted l k). auto.
    + rewrite (has_score_none l m s e); [done..|]. by eapply zi_scores.
  - destruct (zslRandomLevel rs) as [lvl|] eqn:Hrs; [|done]. bind_simpl.
    destruct (isnan cur) eqn:Hcur; [done|]. destruct (isnan new) eqn:Hnew; [done|]. simpl.
    unfold has_score. destruct (m !! e) as [s0|] eqn:He; [|done]. destruct (SFeqb s0 cur) eqn:Heq; [|done]. intros [= <-].
    destruct (update_found F h z l m Hinv Hm HF cur e Hcur lvl (random_level_range _ _ Hrs) new Hnew s0 He) as (h' & z' & x & -> & Hr).
    { apply (sfeqb_spec _ _ (nodes_nan _ _ _ _ _ _ Hinv Hm He) Hcur), Heq. }
    split; [rewrite map_size_insert_Some by eauto; lia|]. eexists _, _. split; [done|]. by eapply updated_repr.
Qed.

Lemma zop_history F ops h z m m' :
  zsl_repr F h z m → Z.of_nat (size m + length ops) < 2 ^ 64 - 1 → run_all zop_spec m ops = Some m' →
  ∃ h' z', run_all zop_run (h, z) ops = Some (h', z') ∧ zsl_repr F h' z' m'.
Proof.
  revert h z m. induction ops as [|o ops IH]; intros h z m Hr Hsize Hspec.
  - injection Hspec as <-. by exists h, z.
  - cbn [run_all] in *. destruct (zop_spec m o) as [m1|] eqn:Ho; [|done]. cbn [mbind option_bind length] in *.
    destruct (zop_step F h z m m1 o Hr ltac:(lia) Ho) as (Hle & h1 & z1 & -> & Hr1). bind_simpl.
    apply (IH h1 z1 m1); [done|lia|done].
Qed.

(** C24. The invariant over every history: a list created in any heap and changed by any
    sequence of calls that respect the callers' obligations never fails, stands for the map
    obtained by the same operations on maps, counts its elements, and holds exactly its nodes
    and the header in memory besides what was there. *)
Theorem zsl_history_invariant h0 ops m :
  run_all zop_spec ∅ ops = Some m → zlen ops < 2 ^ 64 - 1 →
  ∃ h z, run_all zop_run (zslCreate h0) ops = Some (h, z) ∧ zsl_repr (dom h0) h z m ∧
    zsl_length z = Z.of_nat (size m) ∧ size h = (size h0 + size m + 1)%nat ∧ dom h0 ⊆ dom h.
Proof.
  intros Hspec Hlen. pose proof (zslCreate_ok h0) as Hc. destruct (zslCreate h0) as [h1 z1]. destruct Hc as [Hinv1 HF1].
  destruct (zop_history (dom h0) ops h1 z1 ∅ m) as (h & z & Hrun & Hr); [|by rewrite map_size_empty|done|].
  { exists []. split_and!; [done| |done]. unfold nodes_of. by rewrite map_to_list_empty. }
  exists h, z. split_and!; [done..| | |]; destruct Hr as (l & Hinv & Hm & HF); pose proof (nodes_length _ _ Hm) as Hl.
  - by rewrite (zi_length _ _ _ Hinv), Hl.
  - pose proof (frame_size _ _ _ _ Hinv HF) as Hs. rewrite size_dom in Hs. lia.
  - intros a Ha. apply elem_of_dom, HF. by right.
Qed.

(** ** Witnesses *)

(** The double of an integer. *)
Definition dbl (n : Z) : double := binary_normalize 53 1024 n 0 false.

(** Two random numbers below the threshold give a node of level 3, none a node of level 1. *)
Definition ex_high : list Z := [7; 9; 2000000000].
Definition ex_low : list Z := [2000000000].

Definition ex_ops : list zop :=
  [OpInsert ex_low (dbl 3) [99]; OpInsert ex_high (dbl 1) [97]; OpInsert ex_low (dbl 3) [98; 98];
   OpInsert ex_high (dbl (-2)) [122]; OpDelete (dbl 7) [97]; OpUpdate ex_high (dbl 3) [99] (dbl (-5)); OpInsert ex_low (dbl 3) [];
   OpDelete (dbl (-2)) [122]].

Definition ex_zmap : zmap := <[[99] := dbl (-5)]> (<[[97] := dbl 1]> (<[[98; 98] := dbl 3]> (<[[] := dbl 3]> ∅))).

Definition ex_state : heap * zskiplist := default (∅, mk_zsl 1 None 0 1) (run_all zop_run (zslCreate ∅) ex_ops).

Lemma zsl_history_invariant_witness :
  run_all zop_spec ∅ ex_ops = Some ex_zmap ∧
  ∃ h z, run_all zop_run (zslCreate ∅) ex_ops = Some (h, z) ∧ zsl_repr ∅ h z ex_zmap ∧ zsl_length z = 4 ∧ size h = 5%nat.
Proof.
  assert (run_all zop_spec ∅ ex_ops = Some ex_zmap) as Hspec by (vm_compute; reflexivity). split; [exact Hspec|].
  destruct (zsl_history_invariant ∅ ex_ops ex_zmap Hspec ltac:(vm_compute; reflexivity)) as (h & z & H1 & H2 & H3 & H4 & _).
  exists h, z. rewrite dom_empty_L in H2. split; [exact H1|]. split; [exact H2|]. split; [exact H3|exact H4].
Defined.

Lemma ex_history ops m :
  run_all zop_spec ∅ ops = Some m → zlen ops < 2 ^ 64 - 1 →
  let hz := default (∅, mk_zsl 1 None 0 1) (run_all zop_run (zslCreate ∅) ops) in zsl_repr ∅ (fst hz) (snd hz) m.
Proof.
  intros Hspec Hlen. destruct (zop_history ∅ ops (fst (zslCreate ∅)) (snd (zslCreate ∅)) ∅ m) as (h & z & Hrun & Hr).
  - exists []. destruct (zslCreate_ok ∅) as [H1 H2]. split; [exact H1|]. split; [unfold nodes_of; by rewrite map_to_list_empty|exact H2].
  - rewrite map_size_empty. exact Hlen.
  - exact Hspec.
  - rewrite <- surjective_pairing in Hrun. rewrite Hrun. exact Hr.
Qed.

Lemma ex_repr : zsl_repr ∅ (fst ex_state) (snd ex_state) ex_zmap.
Proof. apply ex_history; vm_compute; reflexivity. Qed.

Lemma zslInsert_refines_witness :
  ∃ h' z' x, zslInsert (fst ex_state) (snd ex_state) 3 (dbl 2) [7] = Some (h', z', x) ∧ zsl_repr ∅ h' z' (<[[7] := dbl 2]> ex_zmap).
Proof.
  destruct (zslInsert_refines ∅ (fst ex_state) (snd ex_state) ex_zmap ex_high 3 (dbl 2) [7] ex_repr eq_refl eq_refl
    ltac:(vm_compute; reflexivity) ltac:(vm_compute; reflexivity)) as (h' & z' & x & H1 & H2 & _).
  exists h', z', x. split; [exact H1|exact H2].
Defined.

Lemma zslDelete_refines_witness :
  ∃ h' z' x, zslDelete (fst ex_state) (snd ex_state) (dbl 3) [98; 98] false = Some (h', z', Some x) ∧
    zsl_repr ∅ h' z' (delete [98; 98] ex_zmap).
Proof.
  destruct (zslDelete_refines ∅ (fst ex_state) (snd ex_state) ex_zmap (dbl 3) [98; 98] false ex_repr eq_refl)
    as (h' & z' & r & H1 & H2).
  assert (has_score ex_zmap [98; 98] (dbl 3) = true) as Hh by (vm_compute; reflexivity). rewrite Hh in H2.
  destruct H2 as (x & n & Hx & _ & _ & _ & H3). rewrite Hx in H1. exists h', z', x. split; [exact H1|exact H3].
Defined.

Lemma zslUpdateScore_refines_witness :
  (∃ h' z' x, zslUpdateScore (fst ex_state) (snd ex_state) 1 (dbl 1) [97] (dbl 2) = Some (h', z', x) ∧
     zsl_repr ∅ h' z' (<[[97] := dbl 2]> ex_zmap)) ∧
  zslUpdateScore (fst ex_state) (snd ex_state) 1 (dbl 4) [97] (dbl 2) = None.
Proof.
  assert (has_score ex_zmap [97] (dbl 1) = true) as Hh by (vm_compute; reflexivity).
  assert (has_score ex_zmap [97] (dbl 4) = false) as Hn by (vm_compute; reflexivity).
  pose proof (zslUpdateScore_refines ∅ (fst ex_state) (snd ex_state) ex_zmap ex_low 1 (dbl 1) [97] (dbl 2) ex_repr eq_refl eq_refl eq_refl) as H.
  pose proof (zslUpdateScore_refines ∅ (fst ex_state) (snd ex_state) ex_zmap ex_low 1 (dbl 4) [97] (dbl 2) ex_repr eq_refl eq_refl eq_refl) as H'.
  rewrite Hh in H. rewrite Hn in H'. split; [|exact H']. destruct H as (h' & z' & x & H1 & H2 & _). exists h', z', x. split; [exact H1|exact H2].
Defined.

Lemma zslFree_frees_all_witness : ∃ h', zslFree (fst ex_state) (snd ex_state) = Some h' ∧ dom h' = ∅.
Proof.
  destruct (zslFree_frees_all ∅ (fst ex_state) (snd ex_state) ex_zmap ex_repr) as (h' & H1 & H2 & _). exists h'. split; [exact H1|exact H2].
Defined.
