(* ===== verification/ZslRange.v ===== *)
(** * t_zset.c: ranks and ranges of a skip list *)

From S2P Require Import Prelude Zskiplist ZslInv ZslIns ZslDel ZslOps.

Local Open Scope Z_scope.

(** ** Ranks *)

(** All nodes are linked in level 0. *)
Lemma pred_zero h z l k u a : zsl_inv h z l → (k ≤ length l)%nat → pred_at z l k 0 u a → u = k.
Proof.
  intros Hinv Hk (s & Hs & _ & _ & Huk & Hlow). destruct (decide (u = k)); [done|]. exfalso.
  destruct (lookup_lt_is_Some_2 l u ltac:(lia)) as [su Hsu].
  assert (take (k - u) (drop u l) !! 0%nat = Some su) as Hin by (rewrite lookup_take_lt by lia; by rewrite lookup_drop, Nat.add_0_r).
  eapply Forall_lookup_1 in Hlow; [|exact Hin]. pose proof (zi_heights _ _ _ Hinv) as Hh. eapply Forall_lookup_1 in Hh; [|exact Hsu].
  simpl in *. lia.
Qed.

Section rank.
Context (h : heap) (z : zskiplist) (l : list snode) (Hinv : zsl_inv h z l).

Section get_rank.
Context (s : double) (e : bytes) (Hs : isnan s = false) (k : nat).
Context (Hcond : cond_upto h l (λ _, node_upto s e) k).

(** The element, if any, is the last node that does not come after [(s, e)]. *)
Context (found : bool) (Hfound : ∀ j sn, l !! j = Some sn → key_eq (sn_key sn) (s, e) ↔ S j = k ∧ found = true).
Context (Hpos : found = true → k ≠ 0%nat).

Lemma node_is_found u su :
  with_header z l !! u = Some su → ∃ n, h !! sn_addr su = Some n ∧ node_is s e n = bool_decide (u = k ∧ found = true).
Proof.
  intros Hu. destruct u as [|j].
  - injection Hu as <-. destruct (zi_header _ _ _ Hinv) as (n & Hn & He & _). exists n. split; [done|].
    unfold node_is. rewrite He. symmetry. apply bool_decide_eq_false. intros [Hk0 Hf]. apply Hpos in Hf. lia.
  - simpl in Hu. destruct (node_heap h z l Hinv j su Hu) as [n Hn]. exists n. split; [done|]. apply eq_true_iff_eq.
    rewrite (node_is_key h z l Hinv s e Hs j su n Hu Hn), (Hfound j su Hu). by rewrite bool_decide_eq_true.
Qed.

Lemma rank_loop_ok i p s0 :
  with_header z l !! p = Some s0 → (S i ≤ sn_height s0)%nat → (p ≤ k)%nat →
  zslGetRank_loop h s e (S i) (sn_addr s0) (Z.of_nat p) = Some (if found then Z.of_nat k else 0).
Proof.
  destruct Hcond as [Hk _]. revert p s0. induction i as [|i IH]; intros p s0 Hp Hi Hpk; cbn [zslGetRank_loop].
  all: pose proof (inv_size h z l Hinv) as Hsize.
  all: destruct (walk_ok h z l Hinv _ k Hcond (S (size h)) _ p s0 Hp ltac:(exact Hi) Hpk ltac:(lia)) as (u & a & -> & Hpu & Hpred).
  all: bind_simpl; pose proof Hpred as (su & Hu & <- & Hiu & Huk & _).
  all: destruct (node_is_found u su Hu) as (n & Hn & Hb); rewrite Hn; bind_simpl; rewrite Hb; case_bool_decide as Hd.
  - by destruct Hd as [-> ->].
  - apply (pred_zero h z l k u _ Hinv Hk) in Hpred as ->. destruct found; [by exfalso; apply Hd|done].
  - by destruct Hd as [-> ->].
  - apply (IH u su); [done|lia|done].
Qed.

End get_rank.

(** The number of elements that do not come after [(s, e)]. *)
Lemma upto_ok s e :
  isnan s = false →
  ∃ k, cond_upto h l (λ _, node_upto s e) k ∧ ∀ j sn, l !! j = Some sn → ¬ key_lt (s, e) (sn_key sn) ↔ (j < k)%nat.
Proof.
  intros Hs. destruct (sorted_prefix l (λ y, ¬ key_lt (s, e) y) (zi_sorted _ _ _ Hinv)) as (k & Hk & Hiff).
  { intros y w Hyw Hw Hlt. apply Hw. by eapply key_lt_trans. }
  exists k. split; [|intros; rewrite Hiff by done; lia]. split; [done|]. intros j sn n Hj Hn.
  destruct (zi_nodes _ _ _ Hinv j sn Hj) as (n' & Hn' & He & Hsc & _). rewrite Hn in Hn'. injection Hn' as <-.
  pose proof (node_nan _ _ _ _ _ Hinv Hj) as Hnan. rewrite <- (bool_decide_ext _ _ (Hiff j sn Hj)). apply eq_true_iff_eq.
  rewrite (node_upto_spec s e n _ He Hs) by by rewrite Hsc. rewrite bool_decide_eq_true, Hsc. by destruct (sn_key sn).
Qed.

Lemma get_rank_ok s e :
  isnan s = false →
  zslGetRank h z s e = Some (match list_find (λ sn, key_eq (sn_key sn) (s, e)) l with Some (j, _) => Z.of_nat (S j) | None => 0 end).
Proof.
  intros Hs. destruct (upto_ok s e Hs) as (k & Hcond & Hlt). destruct (zi_level _ _ _ Hinv) as [H1 _].
  assert (∀ j sn, l !! j = Some sn → key_eq (sn_key sn) (s, e) → S j = k) as Hlast.
  { intros j sn Hj Heq. assert (j < k)%nat as Hjk.
    { apply (Hlt j sn Hj). rewrite (key_lt_eq_r _ _ _ Heq). apply key_lt_irrefl. }
    destruct (decide (S j = k)); [done|]. exfalso. destruct Hcond as [Hk _].
    destruct (lookup_lt_is_Some_2 l (S j) ltac:(lia)) as [sn' Hj'].
    assert (key_lt (sn_key sn) (sn_key sn')) as Hlt' by (eapply (keys_lookup_lt l j (S j)); [apply (zi_sorted _ _ _ Hinv)|done..|lia]).
    rewrite (key_lt_eq_l _ _ _ Heq) in Hlt'. apply (Hlt (S j) sn' Hj'); [lia|done]. }
  unfold zslGetRank. destruct (zsl_level z) as [|i] eqn:Hlev; [lia|].
  destruct (list_find _ l) as [[j sn]|] eqn:Hfind.
  - apply list_find_Some in Hfind as (Hj & Heq & _). pose proof (Hlast j sn Hj Heq) as <-.
    apply (rank_loop_ok s e Hs (S j) Hcond true) with (p := 0%nat) (s0 := mk_snode (zsl_header z) (S754_zero false, []) (zsl_level z));
      [|done|done|simpl; lia|lia].
    intros j' sn' Hj'. split; [intros Heq'; split; [by apply (Hlast j' sn')|done]|]. intros [[= ->] _]. by assert (sn' = sn) as -> by congruence.
  - apply list_find_None in Hfind. rewrite Forall_lookup in Hfind.
    apply (rank_loop_ok s e Hs k Hcond false) with (p := 0%nat) (s0 := mk_snode (zsl_header z) (S754_zero false, []) (zsl_level z));
      [|done|done|simpl; lia|lia].
    intros j sn Hj. split; [|by intros []]. intros Heq. by apply (Hfind j sn Hj) in Heq.
Qed.

Section by_rank.
Context (rank : Z) (Hrank : 0 < rank) (k : nat) (Hk : k = Nat.min (Z.to_nat rank) (length l)).

Lemma by_rank_cond : cond_upto h l (λ r _, bool_decide (r <= rank)) k.
Proof. split; [lia|]. intros j sn n Hj Hn. apply lookup_lt_Some in Hj. apply bool_decide_ext. lia. Qed.

Lemma by_rank_loop_ok i p s0 :
  with_header z l !! p = Some s0 → (S i ≤ sn_height s0)%nat → (p ≤ k)%nat →
  zslGetElementByRank_loop h rank (S i) (sn_addr s0) (Z.of_nat p) = Some (sn_addr <$> l !! Z.to_nat (rank - 1)).
Proof.
  revert p s0. induction i as [|i IH]; intros p s0 Hp Hi Hpk; cbn [zslGetElementByRank_loop].
  all: pose proof (inv_size h z l Hinv) as Hsize.
  all: destruct (walk_ok h z l Hinv _ k by_rank_cond (S (size h)) _ p s0 Hp ltac:(exact Hi) Hpk ltac:(lia)) as (u & a & -> & Hpu & Hpred).
  all: bind_simpl; pose proof Hpred as (su & Hu & <- & Hiu & Huk & _).
  all: destruct (decide (Z.of_nat u = rank)) as [Hur|Hur].
  1, 3: destruct u as [|j]; [lia|]; simpl in Hu; replace (Z.to_nat (rank - 1)) with j by lia; by rewrite Hu.
  - apply (pred_zero h z l k u _ Hinv ltac:(lia)) in Hpred as ->. cbn [zslGetElementByRank_loop].
    by rewrite lookup_ge_None_2 by lia.
  - apply (IH u su); [done|lia|done].
Qed.

Lemma by_rank_ok : zslGetElementByRank h z rank = Some (sn_addr <$> l !! Z.to_nat (rank - 1)).
Proof.
  unfold zslGetElementByRank. destruct (zi_level _ _ _ Hinv) as [H1 _]. destruct (zsl_level z) as [|i] eqn:Hlev; [lia|].
  apply by_rank_loop_ok with (p := 0%nat) (s0 := mk_snode (zsl_header z) (S754_zero false, []) (zsl_level z)); [done|simpl; lia|lia].
Qed.

End by_rank.
End rank.

(** The number of elements before [(s, e)]. *)
Definition before_count (m : zmap) (s : double) (e : bytes) : nat :=
  size (filter (λ p, key_lt (snd p, fst p) (s, e)) m).

Lemma filter_prefix {A} (P : A → Prop) `{!∀ x, Decision (P x)} (l : list A) k :
  (k ≤ length l)%nat → (∀ j x, l !! j = Some x → P x ↔ (j < k)%nat) → filter P l = take k l.
Proof.
  revert k. induction l as [|x l IH]; intros k Hk HP; [by rewrite take_nil|].
  destruct k as [|k].
  - rewrite filter_cons_False by (rewrite (HP 0%nat x eq_refl); lia). rewrite (IH 0%nat); [done|lia|].
    intros j y Hj. rewrite (HP (S j) y Hj). lia.
  - rewrite filter_cons_True by (rewrite (HP 0%nat x eq_refl); lia). simpl. f_equal. apply IH; [simpl in Hk; lia|].
    intros j y Hj. rewrite (HP (S j) y Hj). lia.
Qed.

Lemma filter_map {A B} (f : A → B) (P : B → Prop) `{!∀ x, Decision (P x)} (l : list A) :
  filter P (f <$> l) = f <$> filter (λ x, P (f x)) l.
Proof. induction l as [|x l IH]; [done|]. rewrite fmap_cons, !filter_cons. case_decide; simpl; by rewrite IH. Qed.

(** The pairs of a map that satisfy a property. *)
Lemma nodes_filter l m (P : bytes * double → Prop) `{!∀ x, Decision (P x)} :
  nodes_of l m → nodes_of (filter (λ sn, P (sn_pair sn)) l) (filter P m).
Proof.
  unfold nodes_of. intros Hm. rewrite map_filter_alt, map_to_list_to_map.
  - rewrite <- filter_map. by rewrite Hm.
  - eapply sublist_NoDup; [apply (NoDup_fst_map_to_list m)|apply fmap_sublist, sublist_filter].
Qed.

(** The elements before position [j] are those that come before the element there. *)
Lemma sorted_position l m j sn s e :
  StronglySorted key_lt (sn_key <$> l) → nodes_of l m → l !! j = Some sn → key_eq (sn_key sn) (s, e) → before_count m s e = j.
Proof.
  intros Hs Hm Hj Heq. unfold before_count. pose proof (nodes_filter l m (λ p, key_lt (snd p, fst p) (s, e)) Hm) as Hc. apply nodes_length in Hc.
  rewrite <- Hc. pose proof (lookup_lt_Some _ _ _ Hj) as Hlt. rewrite (filter_prefix _ l j); [rewrite length_take; lia|lia|].
  intros i si Hi. assert (sn_key si = (snd (sn_pair si), fst (sn_pair si))) as <- by (simpl; by destruct (sn_key si)).
  rewrite <- (key_lt_eq_r _ _ _ Heq). split.
  - intros Hlt'. destruct (decide (i < j)%nat); [done|]. exfalso. destruct (decide (i = j)) as [->|].
    + assert (si = sn) as -> by congruence. by apply key_lt_irrefl in Hlt'.
    + assert (key_lt (sn_key sn) (sn_key si)) as Hlt2 by (eapply (keys_lookup_lt l j i); [done..|lia]).
      by apply (key_lt_irrefl (sn_key sn)), (key_lt_trans _ _ _ Hlt2).
  - intros Hij. by eapply (keys_lookup_lt l i j).
Qed.

Lemma find_has_score h z l m s e :
  zsl_inv h z l → nodes_of l m → isnan s = false →
  match list_find (λ sn, key_eq (sn_key sn) (s, e)) l with
  | Some (j, sn) => has_score m e s = true ∧ before_count m s e = j
  | None => has_score m e s = false
  end.
Proof.
  intros Hinv Hm Hs. destruct (list_find _ l) as [[j sn]|] eqn:Hf.
  - apply list_find_Some in Hf as (Hj & Heq & _). pose proof Heq as [Hk1 Hk2]. simpl in *. split.
    + unfold has_score. pose proof (nodes_get _ _ _ _ Hm Hj) as Hg. rewrite Hk2 in Hg. rewrite Hg.
      by apply (sfeqb_spec _ _ (node_nan _ _ _ _ _ Hinv Hj) Hs).
    + eapply sorted_position; [apply (zi_sorted _ _ _ Hinv)|done..].
  - apply list_find_None in Hf. rewrite Forall_lookup in Hf. eapply has_score_none; [done..|by eapply zi_scores].
Qed.

Lemma get_rank_repr h z l m s e :
  zsl_inv h z l → nodes_of l m → isnan s = false →
  zslGetRank h z s e = Some (if has_score m e s then Z.of_nat (S (before_count m s e)) else 0).
Proof.
  intros Hinv Hm Hs. rewrite (get_rank_ok h z l Hinv s e Hs). pose proof (find_has_score h z l m s e Hinv Hm Hs) as Hf.
  destruct (list_find _ l) as [[j sn]|]; [destruct Hf as [-> ->]; done|by rewrite Hf].
Qed.

(** The rank that the spans add up to is one more than the number of elements that come
    before in the order by score and member, and 0 for an element that is not there; and the
    two ways through the spans are inverse: the element at a rank from 1 to the number of
    elements has that rank, and beyond there is no element. *)
Theorem zsl_rank_roundtrip F h z m :
  zsl_repr F h z m →
  (∀ s e, isnan s = false → zslGetRank h z s e = Some (if has_score m e s then Z.of_nat (S (before_count m s e)) else 0)) ∧
  (∀ r, 1 <= r <= Z.of_nat (size m) → ∃ x n e, zslGetElementByRank h z r = Some (Some x) ∧ h !! x = Some n ∧
     ele n = Some e ∧ m !! e = Some (score n) ∧ zslGetRank h z (score n) e = Some r) ∧
  (∀ r, Z.of_nat (size m) < r → zslGetElementByRank h z r = Some None).
Proof.
  intros (l & Hinv & Hm & _). pose proof (nodes_length _ _ Hm) as Hlen. split_and!; [by intros; apply (get_rank_repr h z l)| |].
  - intros r Hr. destruct (lookup_lt_is_Some_2 l (Z.to_nat (r - 1)) ltac:(lia)) as [sn Hsn].
    destruct (zi_nodes _ _ _ Hinv _ sn Hsn) as (n & Hn & He & Hsc & _). exists (sn_addr sn), n, (snd (sn_key sn)).
    rewrite (by_rank_ok h z l Hinv r ltac:(lia) _ eq_refl), Hsn. split_and!; [done..|rewrite Hsc; by eapply nodes_get|].
    rewrite (get_rank_ok h z l Hinv) by (rewrite Hsc; by eapply node_nan). rewrite Hsc, <- surjective_pairing.
    destruct (list_find _ l) as [[j sn']|] eqn:Hf.
    + apply list_find_Some in Hf as (Hj & [_ Heq] & _). f_equal.
      pose proof (nodes_unique l m _ _ _ _ Hm Hj Hsn Heq). lia.
    + apply list_find_None in Hf. rewrite Forall_lookup in Hf. by destruct (Hf _ _ Hsn).
  - intros r Hr. rewrite (by_rank_ok h z l Hinv r ltac:(lia) _ eq_refl). by rewrite lookup_ge_None_2 by lia.
Qed.

(** ** Ranges *)

(** A property that the elements lose at most once holds of a prefix. *)
Lemma bool_prefix {A} (f : A → bool) (l : list A) :
  (∀ j k a b, (j < k)%nat → l !! j = Some a → l !! k = Some b → f b = true → f a = true) →
  ∃ k, (k ≤ length l)%nat ∧ ∀ j x, l !! j = Some x → f x = bool_decide (j < k)%nat.
Proof.
  induction l as [|y l IH]; intros Hmono; [exists 0%nat; by split|]. destruct (f y) eqn:Hy.
  - destruct IH as (k & Hk & Hf); [intros j i a b Hji Ha Hb; apply (Hmono (S j) (S i) a b); [lia|done..]|].
    exists (S k). split; [simpl; lia|]. intros [|j] x Hj; simpl in Hj; [injection Hj as <-; by rewrite bool_decide_true by lia|].
    rewrite (Hf j x Hj). apply bool_decide_ext. lia.
  - exists 0%nat. split; [simpl; lia|]. intros j x Hj. rewrite bool_decide_false by lia. destruct j as [|j]; [by injection Hj as <-|].
    destruct (f x) eqn:Hx; [|done]. rewrite <- Hy. symmetry. by apply (Hmono 0%nat (S j) y x ltac:(lia) eq_refl).
Qed.

Section range.
Context (h : heap) (z : zskiplist) (l : list snode) (Hinv : zsl_inv h z l).

(** The tests of the lower and of the upper bound, on nodes and on keys. *)
Context (gte lte : zskiplistNode → bool) (G L : zkey → bool).
Context (Hgte : ∀ n e, ele n = Some e → gte n = G (score n, e)) (Hlte : ∀ n e, ele n = Some e → lte n = L (score n, e)).

(** The elements of the range are those from position [kg] on and before position [kl]. *)
Context (kg kl : nat) (Hkg : (kg ≤ length l)%nat) (Hkl : (kl ≤ length l)%nat).
Context (HG : ∀ j s, l !! j = Some s → G (sn_key s) = bool_decide (kg ≤ j)%nat).
Context (HL : ∀ j s, l !! j = Some s → L (sn_key s) = bool_decide (j < kl)%nat).

Lemma range_node j s :
  l !! j = Some s → ∃ n, h !! sn_addr s = Some n ∧ gte n = bool_decide (kg ≤ j)%nat ∧ lte n = bool_decide (j < kl)%nat.
Proof.
  intros Hj. destruct (zi_nodes _ _ _ Hinv j s Hj) as (n & Hn & He & Hsc & _). exists n. split; [done|].
  rewrite (Hgte n _ He), (Hlte n _ He), Hsc, <- surjective_pairing. split; [by apply HG|by apply HL].
Qed.

Lemma header_link : get_level h (zsl_header z) 0 = Some (nxt 0 (drop 0 l)).
Proof.
  destruct (zi_level _ _ _ Hinv) as [H1 _].
  exact (zi_links _ _ _ Hinv 0 (mk_snode (zsl_header z) (S754_zero false, []) (zsl_level z)) 0%nat eq_refl ltac:(simpl; lia)).
Qed.

Lemma ends_ok : ends_in_range h z gte lte = Some (bool_decide (kg < length l ∧ 0 < kl)%nat).
Proof.
  unfold ends_in_range. rewrite (zi_tail _ _ _ Hinv), last_lookup. destruct (l !! pred (length l)) as [s|] eqn:Hlast; simpl.
  - pose proof (lookup_lt_Some _ _ _ Hlast) as Hlt. destruct (range_node _ s Hlast) as (n & -> & Hg & _). bind_simpl. rewrite Hg.
    case_bool_decide as Hd; simpl; [|f_equal; symmetry; apply bool_decide_eq_false; lia].
    rewrite header_link. bind_simpl. rewrite (nxt_zero _ _ _ _ Hinv).
    destruct (lookup_lt_is_Some_2 l 0 ltac:(lia)) as [s0 Hs0]. rewrite Hs0. simpl.
    destruct (range_node 0 s0 Hs0) as (n0 & -> & _ & Hl). bind_simpl. rewrite Hl. f_equal. apply bool_decide_ext. lia.
  - apply lookup_ge_None in Hlast. f_equal. symmetry. apply bool_decide_eq_false. lia.
Qed.

Lemma first_ok : (kg < length l)%nat → first_in h z gte lte = Some (if decide (kg < kl)%nat then sn_addr <$> l !! kg else None).
Proof.
  intros Hlt. unfold first_in. assert (cond_upto h l (λ _ n, negb (gte n)) kg) as Hc.
  { split; [done|]. intros j s n Hj Hn. destruct (range_node j s Hj) as (n' & Hn' & Hg & _). assert (n' = n) as -> by congruence.
    rewrite Hg. repeat case_bool_decide; done || lia. }
  destruct (search_ok h z l Hinv _ kg Hc) as (ur & -> & Hur). bind_simpl.
  destruct (search_head h z l Hinv _ kg Hc ur Hur) as (sk & ur' & -> & Hsk & Hpos). simpl.
  rewrite (zi_links _ _ _ Hinv kg sk 0 Hsk Hpos). bind_simpl. rewrite (nxt_zero _ _ _ _ Hinv).
  destruct (lookup_lt_is_Some_2 l kg Hlt) as [s Hs]. rewrite Hs. simpl. destruct (range_node kg s Hs) as (n & -> & _ & Hl).
  bind_simpl. rewrite Hl. case_bool_decide; by case_decide.
Qed.

Lemma last_ok : (0 < kl)%nat → last_in h z gte lte = Some (if decide (kg < kl)%nat then sn_addr <$> l !! pred kl else None).
Proof.
  intros Hlt. unfold last_in. assert (cond_upto h l (λ _, lte) kl) as Hc.
  { split; [done|]. intros j s n Hj Hn. destruct (range_node j s Hj) as (n' & Hn' & _ & Hl). assert (n' = n) as -> by congruence.
    rewrite Hl. apply bool_decide_ext. lia. }
  destruct (search_ok h z l Hinv _ kl Hc) as (ur & -> & Hur). bind_simpl.
  destruct (search_head h z l Hinv _ kl Hc ur Hur) as (sk & ur' & -> & Hsk & Hpos). simpl.
  assert (kl = S (pred kl)) as Hkl' by lia. rewrite Hkl' in Hsk. simpl in Hsk. destruct (range_node (pred kl) sk Hsk) as (n & -> & Hg & _). bind_simpl.
  rewrite Hg, Hsk. case_bool_decide; case_decide; done || lia.
Qed.

End range.

(** The node [r] is the first of the range [R] in the order [lt], if there is one. *)
Definition extreme (lt : zkey → zkey → Prop) (h : heap) (m : zmap) (R : zkey → bool) (r : option addr) : Prop :=
  match r with
  | None => ∀ e s, m !! e = Some s → R (s, e) = false
  | Some x => ∃ n e, h !! x = Some n ∧ ele n = Some e ∧ m !! e = Some (score n) ∧ R (score n, e) = true ∧
      ∀ e' s', m !! e' = Some s' → R (s', e') = true → ¬ lt (s', e') (score n, e)
  end.

Section extremes.
Context (h : heap) (z : zskiplist) (l : list snode) (m : zmap) (Hinv : zsl_inv h z l) (Hm : nodes_of l m).
Context (gte lte : zskiplistNode → bool) (G L : zkey → bool).
Context (Hgte : ∀ n e, ele n = Some e → gte n = G (score n, e)) (Hlte : ∀ n e, ele n = Some e → lte n = L (score n, e)).

(** On the elements the bounds agree with the order. *)
Context (Gup : ∀ j k a b, (j < k)%nat → l !! j = Some a → l !! k = Some b → G (sn_key a) = true → G (sn_key b) = true).
Context (Ldown : ∀ j k a b, (j < k)%nat → l !! j = Some a → l !! k = Some b → L (sn_key b) = true → L (sn_key a) = true).

Lemma range_bounds :
  ∃ kg kl, (kg ≤ length l)%nat ∧ (kl ≤ length l)%nat ∧
    (∀ j s, l !! j = Some s → G (sn_key s) = bool_decide (kg ≤ j)%nat) ∧
    (∀ j s, l !! j = Some s → L (sn_key s) = bool_decide (j < kl)%nat).
Proof.
  destruct (bool_prefix (λ s, negb (G (sn_key s))) l) as (kg & Hkg & HG).
  { intros j k a b Hjk Ha Hb. rewrite !negb_true_iff. intros Hgb. destruct (G (sn_key a)) eqn:Hga; [|done].
    by rewrite (Gup j k a b Hjk Ha Hb Hga) in Hgb. }
  destruct (bool_prefix (λ s, L (sn_key s)) l) as (kl & Hkl & HL); [intros j k a b; apply Ldown|].
  exists kg, kl. split_and!; [done..| |done]. intros j s Hj. pose proof (HG j s Hj) as Hg. simpl in Hg.
  apply (f_equal negb) in Hg. rewrite negb_involutive in Hg. rewrite Hg. repeat case_bool_decide; done || lia.
Qed.

(** A position of the range gives the extreme node. *)
Lemma extreme_some (lt : zkey → zkey → Prop) k s :
  l !! k = Some s → G (sn_key s) && L (sn_key s) = true →
  (∀ j sj, l !! j = Some sj → G (sn_key sj) && L (sn_key sj) = true → ¬ lt (sn_key sj) (sn_key s)) →
  extreme lt h m (λ key, G key && L key) (Some (sn_addr s)).
Proof.
  intros Hk HR Hmin. destruct (zi_nodes _ _ _ Hinv k s Hk) as (n & Hn & He & Hsc & _). exists n, (snd (sn_key s)).
  rewrite Hsc, <- surjective_pairing. split_and!; [done|done|by eapply nodes_get|done|].
  intros e' s' Hin HR'. apply (nodes_lookup _ _ _ _ Hm) in Hin as (j & sj & Hj & Hkey). rewrite <- Hkey in *. by eapply Hmin.
Qed.

Lemma extreme_none (lt : zkey → zkey → Prop) :
  (∀ j s, l !! j = Some s → G (sn_key s) && L (sn_key s) = false) → extreme lt h m (λ key, G key && L key) None.
Proof. intros Hno e s Hin. apply (nodes_lookup _ _ _ _ Hm) in Hin as (j & sj & Hj & <-). by eapply Hno. Qed.

Lemma not_before j k a b : l !! j = Some a → l !! k = Some b → (k ≤ j)%nat → ¬ key_lt (sn_key a) (sn_key b).
Proof.
  intros Ha Hb Hkj Hlt. destruct (decide (j = k)) as [->|]; [assert (a = b) as -> by congruence; by apply key_lt_irrefl in Hlt|].
  apply (key_lt_irrefl (sn_key a)). eapply key_lt_trans; [exact Hlt|].
  eapply (keys_lookup_lt l k j); [apply (zi_sorted _ _ _ Hinv)|done..|lia].
Qed.

(** The bodies of the functions, after the test of the bounds. *)
Lemma range_ends_ok :
  (∃ r, (b ← ends_in_range h z gte lte; if negb b then Some None else first_in h z gte lte) = Some r ∧
     extreme key_lt h m (λ key, G key && L key) r) ∧
  (∃ r, (b ← ends_in_range h z gte lte; if negb b then Some None else last_in h z gte lte) = Some r ∧
     extreme (flip key_lt) h m (λ key, G key && L key) r).
Proof.
  destruct range_bounds as (kg & kl & Hkg & Hkl & HG & HL).
  rewrite (ends_ok h z l Hinv gte lte G L Hgte Hlte kg kl Hkg Hkl HG HL). bind_simpl.
  assert (∀ j s, l !! j = Some s → G (sn_key s) && L (sn_key s) = bool_decide (kg ≤ j < kl)%nat) as HR.
  { intros j s Hj. rewrite (HG j s Hj), (HL j s Hj). repeat case_bool_decide; done || lia. }
  destruct (decide (kg < kl)%nat) as [Hlt|Hge].
  - rewrite bool_decide_true by lia. cbn [negb].
    rewrite (first_ok h z l Hinv gte lte G L Hgte Hlte kg kl Hkg Hkl HG HL) by lia.
    rewrite (last_ok h z l Hinv gte lte G L Hgte Hlte kg kl Hkg Hkl HG HL) by lia. rewrite !decide_True by done.
    destruct (lookup_lt_is_Some_2 l kg ltac:(lia)) as [a Ha], (lookup_lt_is_Some_2 l (pred kl) ltac:(lia)) as [b Hb].
    rewrite Ha, Hb. split; (eexists; split; [done|]).
    + apply (extreme_some _ kg); [done|rewrite (HR kg a Ha); apply bool_decide_eq_true; lia|].
      intros j sj Hj. rewrite (HR j sj Hj), bool_decide_eq_true. intros Hin. eapply not_before; [done..|lia].
    + apply (extreme_some _ (pred kl)); [done|rewrite (HR _ b Hb); apply bool_decide_eq_true; lia|].
      intros j sj Hj. rewrite (HR j sj Hj), bool_decide_eq_true. intros Hin. eapply not_before; [done..|lia].
  - assert (∀ lt, extreme lt h m (λ key, G key && L key) None) as Hnone.
    { intros lt. apply extreme_none. intros j s Hj. rewrite (HR j s Hj). apply bool_decide_eq_false. lia. }
    case_bool_decide as Hb; cbn [negb]; [|split; eexists; (split; [done|apply Hnone])].
    rewrite (first_ok h z l Hinv gte lte G L Hgte Hlte kg kl Hkg Hkl HG HL) by lia.
    rewrite (last_ok h z l Hinv gte lte G L Hgte Hlte kg kl Hkg Hkl HG HL) by lia. rewrite !decide_False by done.
    split; eexists; (split; [done|apply Hnone]).
Qed.

End extremes.

(** ** Scores *)

Definition in_score_range (range : zrangespec) (key : zkey) : bool :=
  zslValueGteMin (fst key) range && zslValueLteMax (fst key) range.

Lemma flt_le_trans a b c : flt a b → ¬ flt c b → flt a c.
Proof. intros Hab Hcb. destruct (flt_total b c) as [H|[H|H]]; [by eapply flt_trans|by rewrite <- (flt_eq_r _ _ _ H)|done]. Qed.

Lemma le_flt_trans a b c : ¬ flt b a → flt b c → flt a c.
Proof. intros Hba Hbc. destruct (flt_total a b) as [H|[H|H]]; [by eapply flt_trans|by rewrite (flt_eq_l _ _ _ H)|done]. Qed.

Lemma key_lt_score a b : key_lt a b → ¬ flt (fst b) (fst a).
Proof. intros [H|[H _]]; [by apply flt_asym|]. rewrite (flt_eq_r _ _ _ H). apply flt_irrefl. Qed.

(** A comparison with NaN is false. *)
Lemma nan_compare a b : isnan a = true ∨ isnan b = true → SFltb a b = false ∧ SFleb a b = false ∧ SFeqb a b = false.
Proof. unfold SFltb, SFleb, SFeqb. intros [H|H]; [by destruct a|]. destruct b; try done. by destruct a as [| | |[]]. Qed.

Section score_bounds.
Context (range : zrangespec) (a b : double).
Context (Ha : isnan a = false) (Hb : isnan b = false).

Lemma gte_min_mono : ¬ flt b a → zslValueGteMin a range = true → zslValueGteMin b range = true.
Proof.
  intros Hab. unfold zslValueGteMin. destruct (isnan (zr_min range)) eqn:Hn.
  { destruct (nan_compare (zr_min range) a (or_introl Hn)) as (-> & -> & _). by destruct (zr_minex range). }
  destruct (zr_minex range); [rewrite !sfltb_spec by done|rewrite !sfleb_spec by done].
  - intros H. by eapply flt_le_trans.
  - intros H Hlt. apply H. by eapply le_flt_trans.
Qed.

Lemma lte_max_mono : ¬ flt b a → zslValueLteMax b range = true → zslValueLteMax a range = true.
Proof.
  intros Hab. unfold zslValueLteMax. destruct (isnan (zr_max range)) eqn:Hn.
  { destruct (nan_compare b (zr_max range) (or_intror Hn)) as (-> & -> & _). by destruct (zr_maxex range). }
  destruct (zr_maxex range); [rewrite !sfltb_spec by done|rewrite !sfleb_spec by done].
  - intros H. by eapply le_flt_trans.
  - intros H Hlt. apply H. by eapply flt_le_trans.
Qed.

(** The test at the start of [zslIsInRange] holds of empty ranges only. *)
Lemma score_range_empty :
  SFltb (zr_max range) (zr_min range) || (SFeqb (zr_min range) (zr_max range) && (zr_minex range || zr_maxex range)) = true →
  zslValueGteMin a range && zslValueLteMax a range = false.
Proof.
  intros Hempty. destruct (isnan (zr_min range)) eqn:Hn1; [|destruct (isnan (zr_max range)) eqn:Hn2].
  { unfold zslValueGteMin. destruct (nan_compare (zr_min range) a (or_introl Hn1)) as (-> & -> & _). by destruct (zr_minex range). }
  { unfold zslValueLteMax. destruct (nan_compare a (zr_max range) (or_intror Hn2)) as (-> & -> & _).
    rewrite andb_comm. by destruct (zr_maxex range). }
  apply not_true_is_false. rewrite andb_true_iff. unfold zslValueGteMin, zslValueLteMax. intros [Hg Hl].
  apply orb_true_iff in Hempty as [Hlt|[Heq Hex]%andb_true_iff].
  - apply sfltb_spec in Hlt; [|done..]. destruct (zr_minex range), (zr_maxex range);
      rewrite ?sfltb_spec, ?sfleb_spec in Hg by done; rewrite ?sfltb_spec, ?sfleb_spec in Hl by done.
    all: try (by apply (flt_asym _ _ Hlt); eapply flt_trans).
    + apply Hl. by eapply flt_trans.
    + apply Hg. by eapply flt_trans.
    + apply Hg, (le_flt_trans _ (zr_max range)); done.
  - apply sfeqb_spec in Heq; [|done..]. destruct (zr_minex range), (zr_maxex range); try done;
      rewrite ?sfltb_spec, ?sfleb_spec in Hg by done; rewrite ?sfltb_spec, ?sfleb_spec in Hl by done.
    + rewrite (flt_eq_l _ _ _ Heq) in Hg. by apply (flt_asym _ _ Hg).
    + apply Hl. by rewrite <- (flt_eq_l _ _ _ Heq).
    + apply Hg. by rewrite (flt_eq_r _ _ _ Heq).
Qed.

End score_bounds.

Lemma sorted_scores h z l j k a b :
  zsl_inv h z l → (j < k)%nat → l !! j = Some a → l !! k = Some b → ¬ flt (fst (sn_key b)) (fst (sn_key a)).
Proof. intros Hinv Hjk Ha Hb. apply key_lt_score. eapply (keys_lookup_lt l j k); [apply (zi_sorted _ _ _ Hinv)|done..]. Qed.

(** [zslFirstInRange] and [zslLastInRange] return the first and the last element of a range
    of scores, with inclusive and exclusive bounds, infinities and -0, and NULL exactly when no
    element is in the range. *)
Theorem zslInRange_extremes F h z m range :
  zsl_repr F h z m →
  (∃ r, zslFirstInRange h z range = Some r ∧ extreme key_lt h m (in_score_range range) r) ∧
  (∃ r, zslLastInRange h z range = Some r ∧ extreme (flip key_lt) h m (in_score_range range) r).
Proof.
  intros (l & Hinv & Hm & _).
  destruct (range_ends_ok h z l m Hinv Hm (λ n, zslValueGteMin (score n) range) (λ n, zslValueLteMax (score n) range)
    (λ key, zslValueGteMin (fst key) range) (λ key, zslValueLteMax (fst key) range)) as [Hf Hl]; [done|done|..].
  { intros j k a b Hjk Ha Hb. apply gte_min_mono; [by eapply node_nan..|by eapply (sorted_scores h z l j k)]. }
  { intros j k a b Hjk Ha Hb. apply lte_max_mono; [by eapply node_nan..|by eapply (sorted_scores h z l j k)]. }
  unfold zslFirstInRange, zslLastInRange, zslIsInRange.
  destruct (SFltb _ _ || _) eqn:Hempty; [|by split].
  split; exists None; (split; [done|]); intros e s He; by apply score_range_empty; [eapply nodes_nan|].
Qed.

(** ** Members *)

Definition in_lex_range (range : zlexrangespec) (key : zkey) : bool :=
  zslLexValueGteMin (snd key) range && zslLexValueLteMax (snd key) range.

Section lex_bounds.
Context (range : zlexrangespec) (a b : bytes) (Hab : sdscmp a b < 0).

Lemma lex_gte_mono : zslLexValueGteMin a range = true → zslLexValueGteMin b range = true.
Proof.
  unfold zslLexValueGteMin. destruct (zl_min range) as [| |s], (zl_minex range); rewrite !bool_decide_eq_true; simpl; try lia.
  all: destruct (Z.lt_trichotomy (sdscmp b s) 0) as [H|[H|H]]; try lia; intros Hs.
  all: first [pose proof (sdscmp_trans _ _ _ Hab H); lia|apply sdscmp_eq in H as ->; lia].
Qed.

Lemma lex_lte_mono : zslLexValueLteMax b range = true → zslLexValueLteMax a range = true.
Proof.
  unfold zslLexValueLteMax. destruct (zl_max range) as [| |s], (zl_maxex range); rewrite !bool_decide_eq_true; simpl; try lia.
  - intros Hs. pose proof (sdscmp_trans _ _ _ Hab Hs). lia.
  - intros Hs. destruct (decide (sdscmp b s = 0)) as [->%sdscmp_eq|]; [lia|].
    pose proof (sdscmp_trans a b s Hab ltac:(lia)). lia.
Qed.

End lex_bounds.

(** The test at the start of [zslIsInLexRange] holds of empty ranges only. *)
Lemma lex_range_empty range a :
  (let cmp := sdscmplex (zl_min range) (zl_max range) in cmp > 0 ∨ (cmp = 0 ∧ zl_minex range || zl_maxex range = true)) →
  zslLexValueGteMin a range && zslLexValueLteMax a range = false.
Proof.
  intros Hempty. apply not_true_is_false. rewrite andb_true_iff. unfold zslLexValueGteMin, zslLexValueLteMax. intros [Hg Hl].
  destruct (zl_min range) as [| |s], (zl_max range) as [| |t], (zl_minex range), (zl_maxex range);
    rewrite ?bool_decide_eq_true in Hg, Hl; simpl in *; try lia.
  all: pose proof (sdscmp_anti s a) as A1; pose proof (sdscmp_anti a s) as A2; pose proof (sdscmp_anti s t) as A3; pose proof (sdscmp_anti t s) as A4;
    pose proof (sdscmp_anti a t) as A5; pose proof (sdscmp_anti t a) as A6.
  all: destruct (decide (sdscmp a s = 0)) as [->%sdscmp_eq|]; [rewrite ?sdscmp_refl in *; lia|].
  all: destruct (decide (sdscmp a t = 0)) as [->%sdscmp_eq|]; [rewrite ?sdscmp_refl in *; try lia|].
  all: try (pose proof (sdscmp_trans s a t ltac:(lia) ltac:(lia)); lia).
Qed.

Lemma sorted_members h z l m j k a b :
  zsl_inv h z l → nodes_of l m → (∀ e s e' s', m !! e = Some s → m !! e' = Some s' → SFeqb s s' = true) →
  (j < k)%nat → l !! j = Some a → l !! k = Some b → sdscmp (snd (sn_key a)) (snd (sn_key b)) < 0.
Proof.
  intros Hinv Hm Hsame Hjk Ha Hb. pose proof (Hsame _ _ _ _ (nodes_get _ _ _ _ Hm Ha) (nodes_get _ _ _ _ Hm Hb)) as Heq.
  apply (sfeqb_spec _ _ (node_nan _ _ _ _ _ Hinv Ha) (node_nan _ _ _ _ _ Hinv Hb)) in Heq.
  assert (key_lt (sn_key a) (sn_key b)) as [H|[_ H]] by (eapply (keys_lookup_lt l j k); [apply (zi_sorted _ _ _ Hinv)|done..]); [|done].
  rewrite (flt_eq_l _ _ _ Heq) in H. by apply flt_irrefl in H.
Qed.

(** [zslFirstInLexRange] and [zslLastInLexRange] return the first and the last element of a
    range of members when all scores are equal, as the commands on such ranges require. *)
Theorem zslInLexRange_extremes F h z m range :
  zsl_repr F h z m → (∀ e s e' s', m !! e = Some s → m !! e' = Some s' → SFeqb s s' = true) →
  (∃ r, zslFirstInLexRange h z range = Some r ∧ extreme key_lt h m (in_lex_range range) r) ∧
  (∃ r, zslLastInLexRange h z range = Some r ∧ extreme (flip key_lt) h m (in_lex_range range) r).
Proof.
  intros (l & Hinv & Hm & _) Hsame.
  destruct (range_ends_ok h z l m Hinv Hm (node_lex (λ e, zslLexValueGteMin e range)) (node_lex (λ e, zslLexValueLteMax e range))
    (λ key, zslLexValueGteMin (snd key) range) (λ key, zslLexValueLteMax (snd key) range)) as [Hf Hl].
  { intros n e He. unfold node_lex. by rewrite He. }
  { intros n e He. unfold node_lex. by rewrite He. }
  { intros j k a b Hjk Ha Hb. apply lex_gte_mono. by eapply sorted_members. }
  { intros j k a b Hjk Ha Hb. apply lex_lte_mono. by eapply sorted_members. }
  unfold zslFirstInLexRange, zslLastInLexRange, zslIsInLexRange.
  destruct (decide (_ ∨ _)) as [Hempty|]; [|by split].
  split; exists None; (split; [done|]); intros e s He; by apply lex_range_empty.
Qed.

(** ** The notation of ranges of members *)

(** The lexicographic order of byte strings. *)
Inductive lex_lt : bytes → bytes → Prop :=
  | lex_nil y b : lex_lt [] (y :: b)
  | lex_head x y a b : x < y → lex_lt (x :: a) (y :: b)
  | lex_tail x a b : lex_lt a b → lex_lt (x :: a) (x :: b).

Lemma sdscmp_lex a b : sdscmp a b < 0 ↔ lex_lt a b.
Proof.
  split.
  - revert b. induction a as [|x a IH]; intros [|y b]; autorewrite with sdscmp; try done; [constructor|].
    case_decide as H; [subst; intros Hc; constructor; by apply IH|]. intros. apply lex_head. lia.
  - induction 1 as [y b|x y a b H|x a b _ IH]; autorewrite with sdscmp; [lia| |by rewrite decide_True].
    rewrite decide_False by lia. lia.
Qed.

Lemma sdscmp_lex_gt a b : sdscmp a b > 0 ↔ lex_lt b a.
Proof. rewrite <- sdscmp_lex, sdscmp_anti. lia. Qed.

(** An item is a sign, which a NUL byte may follow, or a bracket before a string. *)
Definition lex_item (item : bytes) : bool :=
  match item with
  | 43 :: c | 45 :: c => bool_decide (head c = None ∨ head c = Some 0)
  | 40 :: _ | 91 :: _ => true
  | _ => false
  end.

(** The members that satisfy the item as a lower bound, and as an upper bound. *)
Definition lex_above (item e : bytes) : Prop :=
  match item with
  | 45 :: _ => True
  | 40 :: c => lex_lt c e
  | 91 :: c => c = e ∨ lex_lt c e
  | _ => False
  end.

Definition lex_below (item e : bytes) : Prop :=
  match item with
  | 43 :: _ => True
  | 40 :: c => lex_lt e c
  | 91 :: c => e = c ∨ lex_lt e c
  | _ => False
  end.

Lemma parse_item_spec item :
  match zslParseLexRangeItem item with
  | Some (b, ex) => lex_item item = true ∧
      (∀ e mx mxex, zslLexValueGteMin e (mk_lexrange b mx ex mxex) = true ↔ lex_above item e) ∧
      (∀ e mn mnex, zslLexValueLteMax e (mk_lexrange mn b mnex ex) = true ↔ lex_below item e)
  | None => lex_item item = false
  end.
Proof.
  assert (∀ c : bytes, (default 0 (head c) ≠ 0) ↔ ¬ (head c = None ∨ head c = Some 0)) as Hhead by (intros [|x c]; simpl; naive_solver).
  assert (∀ a b : bytes, sdscmp a b >= 0 ↔ b = a ∨ lex_lt b a) as Hge.
  { intros a b. rewrite <- (sdscmp_lex_gt a b). assert (b = a ↔ sdscmp a b = 0) as -> by (rewrite sdscmp_eq; naive_solver). lia. }
  assert (∀ a b : bytes, sdscmp a b <= 0 ↔ a = b ∨ lex_lt a b) as Hle.
  { intros a b. rewrite <- (sdscmp_lex a b), <- (sdscmp_eq a b). lia. }
  destruct item as [|x c]; [done|]. destruct x as [|x|x]; [done| |done].
  do 7 (try (destruct x as [x|x|]; try done)); cbn [zslParseLexRangeItem lex_item lex_above lex_below];
    unfold zslLexValueGteMin, zslLexValueLteMax; cbn [zl_min zl_max zl_minex zl_maxex sdscmplex].
  all: try (destruct (decide (default 0 (head c) ≠ 0)) as [Hc|Hc]; rewrite Hhead in Hc; [by rewrite bool_decide_false|]).
  all: split_and!; [done || (apply bool_decide_eq_true; by apply dec_stable)|intros e _ _..]; rewrite bool_decide_eq_true; try lia.
  - apply Hge.
  - apply Hle.
  - apply sdscmp_lex_gt.
  - apply sdscmp_lex.
Qed.


(** ** Witnesses *)

Lemma zsl_rank_roundtrip_witness :
  zslGetRank (fst ex_state) (snd ex_state) (dbl 3) [98; 98] = Some 4 ∧
  (∃ x n e, zslGetElementByRank (fst ex_state) (snd ex_state) 2 = Some (Some x) ∧ fst ex_state !! x = Some n ∧ ele n = Some e ∧
     zslGetRank (fst ex_state) (snd ex_state) (score n) e = Some 2) ∧
  zslGetElementByRank (fst ex_state) (snd ex_state) 5 = Some None.
Proof.
  destruct (zsl_rank_roundtrip ∅ (fst ex_state) (snd ex_state) ex_zmap ex_repr) as (H1 & H2 & H3). split_and!.
  - rewrite (H1 (dbl 3) [98; 98] eq_refl). vm_compute. reflexivity.
  - destruct (H2 2) as (x & n & e & Ha & Hb & Hc & _ & Hd); [split; [lia|vm_compute; congruence]|]. exists x, n, e.
    split; [exact Ha|]. split; [exact Hb|]. split; [exact Hc|exact Hd].
  - apply H3. vm_compute. reflexivity.
Defined.

(** The scores from 1, exclusive, to infinity. *)
Definition ex_range : zrangespec := mk_range (dbl 1) (S754_infinity false) true false.

Lemma zslInRange_extremes_witness :
  ∃ r, zslFirstInRange (fst ex_state) (snd ex_state) ex_range = Some (Some r) ∧
    extreme key_lt (fst ex_state) ex_zmap (in_score_range ex_range) (Some r).
Proof.
  destruct (zslInRange_extremes ∅ (fst ex_state) (snd ex_state) ex_zmap ex_range ex_repr) as [(r & H1 & H2) _].
  destruct r as [r|]; [exists r; split; [exact H1|exact H2]|]. exfalso.
  assert (zslFirstInRange (fst ex_state) (snd ex_state) ex_range ≠ Some None) as Hne by (vm_compute; congruence). by apply Hne.
Defined.

(** A list whose elements have the same score. *)
Definition ex_lex_ops : list zop := [OpInsert ex_low (dbl 0) [99]; OpInsert ex_high (dbl 0) [97]; OpInsert ex_low (dbl 0) [98; 98]].

Definition ex_lex_map : zmap := <[[98; 98] := dbl 0]> (<[[97] := dbl 0]> (<[[99] := dbl 0]> ∅)).

Definition ex_lex : heap * zskiplist := default (∅, mk_zsl 1 None 0 1) (run_all zop_run (zslCreate ∅) ex_lex_ops).

Lemma ex_lex_repr : zsl_repr ∅ (fst ex_lex) (snd ex_lex) ex_lex_map.
Proof. apply ex_history; vm_compute; reflexivity. Qed.

Lemma ex_lex_same e s e' s' : ex_lex_map !! e = Some s → ex_lex_map !! e' = Some s' → SFeqb s s' = true.
Proof.
  assert (∀ e s, ex_lex_map !! e = Some s → s = dbl 0) as Hall.
  { intros x y Hx. unfold ex_lex_map in Hx. rewrite !lookup_insert_Some, lookup_empty in Hx. naive_solver. }
  intros H1 H2. rewrite (Hall e s H1), (Hall e' s' H2). reflexivity.
Qed.

(** From a to c, exclusive. *)
Definition ex_lex_range : zlexrangespec := mk_lexrange (LexStr [97]) (LexStr [99]) false true.

Lemma zslInLexRange_extremes_witness :
  ∃ r, zslLastInLexRange (fst ex_lex) (snd ex_lex) ex_lex_range = Some (Some r) ∧
    extreme (flip key_lt) (fst ex_lex) ex_lex_map (in_lex_range ex_lex_range) (Some r).
Proof.
  destruct (zslInLexRange_extremes ∅ (fst ex_lex) (snd ex_lex) ex_lex_map ex_lex_range ex_lex_repr ex_lex_same) as [_ (r & H1 & H2)].
  destruct r as [r|]; [exists r; split; [exact H1|exact H2]|]. exfalso.
  assert (zslLastInLexRange (fst ex_lex) (snd ex_lex) ex_lex_range ≠ Some None) as Hne by (vm_compute; congruence). by apply Hne.
Defined.
