(* ===== verification/ZslDelRange.v ===== *)
(** * t_zset.c: deletion of a range from a skip list and from the dictionary beside it *)

From S2P Require Import Prelude Dict DictInv DictOps Zskiplist ZslInv ZslIns ZslDel ZslOps ZslRange.

Local Open Scope Z_scope.

(** What the deletions need of the dictionary of a sorted set: [denotes d m] tells that the
    dictionary maps the members of [m] to their scores. *)
Class ScoreDict {D : Type} (dictDelete : D → bytes → option D) (denotes : D → zmap → Prop) : Prop :=
  score_dict_delete d m e : denotes d m → ∃ d', dictDelete d e = Some d' ∧ denotes d' (delete e m).

(** The hash tables of dict.c provide it. *)
Global Instance dict_score_dict (dt : dictType bytes) `{!DictTypeOk dt} can :
  ScoreDict (λ (d : dict bytes double) e, fst <$> dictDelete dt can d e) (λ d m, dict_denotes dt d (Some <$> m)).
Proof.
  intros d m e Hd. destruct (generic_delete_ok dt can d (Some <$> m) e Hd) as (d' & he & _ & Hd' & -> & _).
  exists d'. split; [done|]. by rewrite fmap_delete.
Qed.

Section delete_range.
Context {D : Type} (dictDelete : D → bytes → option D) (denotes : D → zmap → Prop) `{!ScoreDict dictDelete denotes}.

(** The elements that are removed from position [k] on. *)
Definition cut (l : list snode) (k c : nat) : list snode := take k l ++ drop (k + c) l.

Lemma cut_zero l k : cut l k 0 = l.
Proof. unfold cut. by rewrite Nat.add_0_r, take_drop. Qed.

Lemma cut_deleted l k c sn : l !! k = Some sn → cut (deleted l k) k c = cut l k (S c).
Proof.
  intros Hk. pose proof (lookup_lt_Some _ _ _ Hk). unfold cut. rewrite (deleted_drop_high l k sn Hk) by lia. f_equal; [|f_equal; lia].
  unfold deleted. apply take_app_length'. rewrite length_take. lia.
Qed.

Lemma cut_length l k c : (k + c ≤ length l)%nat → length (cut l k c) = (length l - c)%nat.
Proof. intros. unfold cut. rewrite length_app, length_take, length_drop. lia. Qed.

Lemma delete_while_ok F c fuel h z d l m k ur (cond : Z → zskiplistNode → bool) t removed :
  zsl_inv h z l → nodes_of l m → frame F h z l → denotes d m → update_ok z l k ur → (k + c ≤ length l)%nat → (c < fuel)%nat →
  0 <= t → t + Z.of_nat c < 2 ^ 64 → 0 <= removed → removed + Z.of_nat c < 2 ^ 64 →
  (∀ i sn n, l !! (k + i)%nat = Some sn → ele n = Some (snd (sn_key sn)) → score n = fst (sn_key sn) → (i ≤ c)%nat →
     cond (t + Z.of_nat i) n = bool_decide (i < c)%nat) →
  ∃ h' z' d' m', delete_while dictDelete fuel h z d ur cond (sn_addr <$> l !! k) t removed = Some (h', z', d', removed + Z.of_nat c) ∧
    zsl_inv h' z' (cut l k c) ∧ nodes_of (cut l k c) m' ∧ frame F h' z' (cut l k c) ∧ denotes d' m'.
Proof.
  revert fuel h z d l m t removed. induction c as [|c IH]; intros fuel h z d l m t removed Hinv Hm HF Hd Hur Hc Hfuel Ht Ht' Hr Hr' Hcond;
    (destruct fuel as [|fuel]; [lia|]).
  - exists h, z, d, m. rewrite cut_zero, Z.add_0_r. split_and!; [|done..]. destruct (l !! k) as [sn|] eqn:Hk; [|done].
    destruct (zi_nodes _ _ _ Hinv k sn Hk) as (n & Hn & He & Hsc & _). cbn [fmap option_fmap option_map delete_while]. rewrite Hn.
    bind_simpl. pose proof (Hcond 0%nat sn n) as Hb. rewrite Nat.add_0_r, Z.add_0_r in Hb. by rewrite Hb.
  - destruct (lookup_lt_is_Some_2 l k ltac:(lia)) as [sn Hk]. rewrite Hk. cbn [fmap option_fmap option_map delete_while].
    destruct (zi_nodes _ _ _ Hinv k sn Hk) as (n & Hn & He & Hsc & Hlev & _). rewrite Hn. bind_simpl.
    pose proof (Hcond 0%nat sn n) as Hb. rewrite Nat.add_0_r, Z.add_0_r in Hb. rewrite Hb by (done || lia). rewrite bool_decide_true by lia.
    assert (level n !! 0%nat = Some (nxt 0 (drop (S k) l))) as ->.
    { pose proof (zi_heights _ _ _ Hinv) as Hh. eapply Forall_lookup_1 in Hh; [|exact Hk]. simpl in Hh.
      pose proof (zi_links _ _ _ Hinv (S k) sn 0%nat Hk ltac:(lia)) as Hl. unfold get_level in Hl. by rewrite Hn in Hl. }
    bind_simpl. destruct (zslDeleteNode_ok h z l k ur Hinv Hur sn Hk) as (h1 & z1 & -> & Hinv1 & _ & Hhdr & Hur1 & Hdom & Hnot).
    bind_simpl. rewrite He. bind_simpl.
    destruct (score_dict_delete d m (snd (sn_key sn)) Hd) as (d1 & -> & Hd1). bind_simpl.
    destruct (frame_delete F h z l h1 z1 k sn Hinv HF Hk Hhdr Hdom) as [HxF HF1].
    unfold zslFreeNode. destruct (proj2 (Hdom (sn_addr sn)) ltac:(eauto)) as [n1 ->]. bind_simpl.
    destruct (frame_free F h1 z1 _ (sn_addr sn) HxF HF1 Hinv1) as [HF2 Hinv2].
    rewrite (nxt_zero _ _ _ _ Hinv). rewrite !uwrap_small by range_lia.
    assert (l !! S k = deleted l k !! k) as -> by (rewrite (deleted_lookup l k sn Hk); by rewrite decide_False by lia).
    destruct (IH fuel (delete (sn_addr sn) h1) z1 d1 (deleted l k) (delete (snd (sn_key sn)) m) (t + 1) (removed + 1)) as
      (h' & z' & d' & m' & -> & Hinv' & Hm' & HF' & Hd'); try done; try lia.
    + by eapply nodes_delete.
    + pose proof (deleted_length l k sn Hk). lia.
    + intros i si ni Hi He' Hs' Hic. rewrite (deleted_lookup l k sn Hk) in Hi. rewrite decide_False in Hi by lia.
      replace (S (k + i)) with (k + S i)%nat in Hi by lia. pose proof (Hcond (S i) si ni Hi He' Hs' ltac:(lia)) as Hci.
      replace (t + 1 + Z.of_nat i) with (t + Z.of_nat (S i)) by lia. rewrite Hci. apply bool_decide_ext. lia.
    + rewrite (cut_deleted l k c sn Hk) in *. exists h', z', d', m'. split_and!; [|done..]. do 2 f_equal. lia.
Qed.

Lemma filter_cut {A} (P : A → Prop) `{!∀ x, Decision (P x)} (l : list A) k c :
  (∀ j x, l !! j = Some x → P x ↔ ¬ (k ≤ j < k + c)%nat) → filter P l = take k l ++ drop (k + c) l.
Proof.
  revert k c. induction l as [|x l IH]; intros k c HP; [by rewrite take_nil, drop_nil|].
  assert (∀ k' c', (∀ j y, l !! j = Some y → P y ↔ ¬ (k' ≤ j < k' + c')%nat) → filter P l = take k' l ++ drop (k' + c') l) as IH' by done.
  pose proof (HP 0%nat x eq_refl) as Hx. destruct k as [|k]; [destruct c as [|c]|].
  - rewrite filter_cons_True by (rewrite Hx; lia). rewrite (IH' 0%nat 0%nat); [done|]. intros j y Hj. rewrite (HP (S j) y Hj). lia.
  - rewrite filter_cons_False by (rewrite Hx; lia). rewrite (IH' 0%nat c); [done|]. intros j y Hj. rewrite (HP (S j) y Hj). lia.
  - rewrite filter_cons_True by (rewrite Hx; lia). simpl. f_equal. apply IH'. intros j y Hj. rewrite (HP (S j) y Hj). lia.
Qed.

Lemma nodes_of_inj l m m' : nodes_of l m → nodes_of l m' → m = m'.
Proof. unfold nodes_of. intros H1 H2. apply map_to_list_inj. by rewrite <- H1, <- H2. Qed.

(** The elements [R] have been removed from the skip list and from the dictionary. *)
Definition range_deleted (F : gset addr) (m : zmap) (R : zkey → bool) (res : option (heap * zskiplist * D * Z)) : Prop :=
  ∃ h z d, res = Some (h, z, d, Z.of_nat (size (filter (λ p, R (snd p, fst p) = true) m))) ∧
    zsl_repr F h z (filter (λ p, R (snd p, fst p) = false) m) ∧ denotes d (filter (λ p, R (snd p, fst p) = false) m).

Lemma delete_range_ok F h z d l m k c (skip keep : Z → zskiplistNode → bool) (R : zkey → bool) :
  zsl_inv h z l → nodes_of l m → frame F h z l → denotes d m → (k + c ≤ length l)%nat → cond_upto h l skip k →
  (∀ i sn n, l !! (k + i)%nat = Some sn → ele n = Some (snd (sn_key sn)) → score n = fst (sn_key sn) → (i ≤ c)%nat →
     keep (Z.of_nat k + 1 + Z.of_nat i) n = bool_decide (i < c)%nat) →
  (∀ j sn, l !! j = Some sn → R (sn_key sn) = bool_decide (k ≤ j < k + c)%nat) →
  range_deleted F m R (zsl_delete_range dictDelete h z d skip keep).
Proof.
  intros Hinv Hm HF Hd Hkc Hskip Hkeep HR. unfold zsl_delete_range. pose proof (zi_bound _ _ _ Hinv) as Hb. pose proof (inv_size h z l Hinv) as Hsize.
  destruct (search_ok h z l Hinv _ k Hskip) as (ur & -> & Hur). bind_simpl.
  destruct (search_head h z l Hinv _ k Hskip ur Hur) as (sk & ur' & Heq & Hsk & Hpos). rewrite Heq at 1. cbn [last_node].
  rewrite (zi_links _ _ _ Hinv k sk 0 Hsk Hpos). bind_simpl. rewrite (nxt_zero _ _ _ _ Hinv). rewrite Heq at 2.
  rewrite uwrap_small by range_lia.
  destruct (delete_while_ok F c (size h) h z d l m k ur keep (Z.of_nat k + 1) 0) as (h' & z' & d' & m' & -> & Hinv' & Hm' & HF' & Hd');
    try done; try lia; [by apply search_update|].
  assert (∀ sn, (snd (sn_pair sn), fst (sn_pair sn)) = sn_key sn) as Hsp by (intros sn; simpl; by destruct (sn_key sn)).
  assert (filter (λ sn, R (snd (sn_pair sn), fst (sn_pair sn)) = false) l = cut l k c) as Hcut.
  { apply filter_cut. intros j sn Hj. rewrite Hsp, (HR j sn Hj), bool_decide_eq_false. done. }
  assert (m' = filter (λ p, R (snd p, fst p) = false) m) as ->.
  { eapply nodes_of_inj; [exact Hm'|]. rewrite <- Hcut. exact (nodes_filter l m (λ p, R (snd p, fst p) = false) Hm). }
  exists h', z', d'. split_and!; [|by exists (cut l k c)|done]. do 2 f_equal.
  pose proof (map_filter_union_complement (λ p, R (snd p, fst p) = true) m) as Hun. apply (f_equal size) in Hun.
  rewrite map_size_disj_union in Hun by apply map_disjoint_filter_complement.
  rewrite <- (nodes_length _ _ Hm) in Hun. pose proof (nodes_length _ _ Hm') as Hl'. rewrite cut_length in Hl' by done.
  assert (filter (λ p, R (snd p, fst p) ≠ true) m = filter (λ p, R (snd p, fst p) = false) m) as Hneg.
  { apply map_filter_ext. intros e s _. by rewrite not_true_iff_false. }
  pose proof (f_equal size Hneg). lia.
Qed.

(** Bounds on keys that agree with the order of the elements. *)
Lemma delete_bounds_ok F h z d l m (gte lte : zskiplistNode → bool) (G L : zkey → bool) :
  zsl_inv h z l → nodes_of l m → frame F h z l → denotes d m →
  (∀ n e, ele n = Some e → gte n = G (score n, e)) → (∀ n e, ele n = Some e → lte n = L (score n, e)) →
  (∀ j k a b, (j < k)%nat → l !! j = Some a → l !! k = Some b → G (sn_key a) = true → G (sn_key b) = true) →
  (∀ j k a b, (j < k)%nat → l !! j = Some a → l !! k = Some b → L (sn_key b) = true → L (sn_key a) = true) →
  range_deleted F m (λ key, G key && L key) (zsl_delete_range dictDelete h z d (λ _ n, negb (gte n)) (λ _, lte)).
Proof.
  intros Hinv Hm HF Hd Hgte Hlte Gup Ldown. destruct (range_bounds l G L Gup Ldown) as (kg & kl & Hkg & Hkl & HG & HL).
  apply (delete_range_ok F h z d l m kg (kl - kg)); try done; [lia| | |].
  - split; [done|]. intros j s n Hj Hn. destruct (range_node h z l Hinv gte lte G L Hgte Hlte kg kl HG HL j s Hj) as (n' & Hn' & Hg & _).
    assert (n' = n) as -> by congruence. rewrite Hg. repeat case_bool_decide; done || lia.
  - intros i sn n Hi He Hsc _. rewrite (Hlte n _ He), Hsc, <- surjective_pairing, (HL _ _ Hi). apply bool_decide_ext. lia.
  - intros j sn Hj. rewrite (HG j sn Hj), (HL j sn Hj). repeat case_bool_decide; done || lia.
Qed.

(** C27. The deletion of a range of scores, of members (when all scores are equal) or of ranks
    removes exactly the elements of the range from the skip list and from the dictionary,
    frees their nodes, and returns their number; the result is again a skip list and a
    dictionary for the same map. *)
Theorem zslDeleteRange_refines F h z d m :
  zsl_repr F h z m → denotes d m →
  (∀ range, range_deleted F m (in_score_range range) (zslDeleteRangeByScore dictDelete h z range d)) ∧
  ((∀ e s e' s', m !! e = Some s → m !! e' = Some s' → SFeqb s s' = true) →
   ∀ range, range_deleted F m (in_lex_range range) (zslDeleteRangeByLex dictDelete h z range d)) ∧
  (∀ start fin, 0 <= start < 2 ^ 32 → 0 <= fin < 2 ^ 32 →
   range_deleted F m (λ key, bool_decide (start <= Z.of_nat (S (before_count m (fst key) (snd key))) <= fin))
     (zslDeleteRangeByRank dictDelete h z start fin d)).
Proof.
  intros (l & Hinv & Hm & HF) Hd. split_and!.
  - intros range. apply (delete_bounds_ok F h z d l m _ _ (λ key, zslValueGteMin (fst key) range) (λ key, zslValueLteMax (fst key) range)); try done;
      intros j k a b Hjk Ha Hb; [apply gte_min_mono|apply lte_max_mono]; try (by eapply node_nan); by eapply (sorted_scores h z l j k).
  - intros Hsame range.
    apply (delete_bounds_ok F h z d l m _ _ (λ key, zslLexValueGteMin (snd key) range) (λ key, zslLexValueLteMax (snd key) range)); try done.
    + intros n e He. unfold node_lex. by rewrite He.
    + intros n e He. unfold node_lex. by rewrite He.
    + intros j k a b Hjk Ha Hb. apply lex_gte_mono. by eapply sorted_members.
    + intros j k a b Hjk Ha Hb. apply lex_lte_mono. by eapply sorted_members.
  - intros start fin Hstart Hfin. set (k := Nat.min (Z.to_nat (start - 1)) (length l)).
    apply (delete_range_ok F h z d l m k (Nat.min (length l) (Z.to_nat fin) - k)); try done; [lia| | |].
    + split; [lia|]. intros j s n Hj _. apply lookup_lt_Some in Hj. apply bool_decide_ext. lia.
    + intros i sn n Hi _ _ Hic. apply lookup_lt_Some in Hi. apply bool_decide_ext. lia.
    + intros j sn Hj. rewrite (sorted_position l m j sn) by (done || apply (zi_sorted _ _ _ Hinv)). apply lookup_lt_Some in Hj. apply bool_decide_ext. lia.
Qed.

End delete_range.

(** ** Witnesses *)

(** The dictionary of the example, as a hash table. *)
Definition ex_bytes_type : dictType bytes :=
  mk_dictType bytes (λ k, u64 (foldl (λ a c, a * 33 + c) 5381 k)) (λ a b, bool_decide (a = b)) None false false (λ _, false).

Global Instance ex_bytes_type_ok : DictTypeOk ex_bytes_type.
Proof. split; [intros k1 k2; apply bool_decide_eq_true|]. intros k. by apply uwrap_range. Qed.

Definition ex_scores : dict bytes double :=
  default dictCreate (foldl (λ od p, d ← od; '(d, _) ← dictAdd ex_bytes_type DICT_RESIZE_ENABLE d (fst p) (snd p); Some d)
    (Some dictCreate) (map_to_list ex_zmap)).

Lemma ex_scores_denotes : dict_denotes ex_bytes_type ex_scores (Some <$> ex_zmap).
Proof. split; [apply dict_wfb_ok|]; vm_compute; reflexivity. Qed.

Lemma zslDeleteRange_refines_witness :
  range_deleted (λ d m, dict_denotes ex_bytes_type d (Some <$> m)) ∅ ex_zmap (in_score_range ex_range)
    (zslDeleteRangeByScore (λ d e, fst <$> dictDelete ex_bytes_type DICT_RESIZE_ENABLE d e) (fst ex_state) (snd ex_state) ex_range ex_scores) ∧
  size (filter (λ p, in_score_range ex_range (snd p, fst p) = true) ex_zmap) = 2%nat.
Proof.
  split; [|vm_compute; reflexivity].
  exact (proj1 (zslDeleteRange_refines _ (λ d m, dict_denotes ex_bytes_type d (Some <$> m)) ∅ (fst ex_state) (snd ex_state) ex_scores ex_zmap
    ex_repr ex_scores_denotes) ex_range).
Defined.
