(* ===== verification/Zzl.v ===== *)
(** * t_zset.c: sorted sets in a listpack

A small sorted set is a listpack in which every member is followed by its score, in the order by
score and member.  The score is an integer of the listpack when the double is one, and
otherwise a string.  NULL for a block (a listpack that would be too long) is not checked by
the code: it is [None]. *)

From S2P Require Import Prelude Util Listpack Zskiplist.

Local Open Scope Z_scope.

(** ** Doubles and integers *)

(** The conversion of a [long long] to a [double]: to the nearest, ties to even. *)
Definition double_of_ll (n : Z) : double := binary_normalize 53 1024 n 0 false.

(** The conversion of a [double] to a [long long]: towards zero.  It is undefined out of range,
    where the code does not use it, and on NaN, which then is different from every integer. *)
Definition ll_of_double (d : double) : Z :=
  match d with
  | S754_finite s m e =>
      let a := if decide (0 ≤ e) then Z.pos m * 2 ^ e else Z.pos m / 2 ^ (- e) in
      if s then - a else a
  | S754_zero _ => 0
  | S754_infinity _ | S754_nan => LLONG_MIN
  end.

(** [-LLONG_MAX/2] is rounded towards zero. *)
Definition double2ll (d : double) : option Z :=
  if SFltb d (double_of_ll (- (LLONG_MAX / 2))) || SFltb (double_of_ll (LLONG_MAX / 2)) d then None
  else
    let ll := ll_of_double d in
    if SFeqb (double_of_ll ll) d then Some ll else None.

Definition isinf (d : double) : bool := match d with S754_infinity _ => true | _ => false end.

Section zzl.

(** The contents of fresh memory; [strtod] of the C library; [fpconv_dtoa] of deps/fpconv. *)
Context (junk : nat → Z) (strtod : bytes → double) (fpconv_dtoa : double → bytes).

Definition MAX_D2STRING_CHARS : nat := 128.

(** The division 1.0/value gives the sign of a zero. *)
Definition d2string (value : double) : option bytes :=
  if isnan value then Some (str "nan")
  else if isinf value then Some (if SFltb value (S754_zero false) then str "-inf" else str "inf")
  else if SFeqb value (S754_zero false) then
    Some (if SFltb (SFdiv 53 1024 (double_of_ll 1) value) (S754_zero false) then str "-0" else str "0")
  else
    match double2ll value with
    | Some lvalue => ll_string MAX_D2STRING_CHARS lvalue
    | None => Some (fpconv_dtoa value)
    end.

(** ** Reading *)

Definition zzlStrtod (vstr : bytes) : double := strtod (take 127 vstr).

Definition zzlGetScore (zl : bytes) (sptr : Z) : option double :=
  v ← lpGet zl sptr;
  Some (match v with VStr vstr => zzlStrtod vstr | VInt vlong => double_of_ll vlong end).

(** [sdsfromlonglong] has a buffer of LONG_STR_SIZE bytes. *)
Definition lpGetObject (zl : bytes) (sptr : Z) : option bytes :=
  v ← lpGet zl sptr;
  match v with VStr vstr => Some vstr | VInt vlong => ll_string (Z.to_nat LONG_STR_SIZE) vlong end.

Definition zzlCompareElements (zl : bytes) (eptr : Z) (cstr : bytes) : option Z :=
  v ← lpGet zl eptr;
  vstr ← (match v with VStr vstr => Some vstr | VInt vlong => ll_string 32 vlong end);
  let cmp := memcmp vstr cstr in
  Some (if decide (cmp = 0) then s32 (u32 (zlen vstr - zlen cstr)) else cmp).

(** The block may be changed: the number of elements is cached. *)
Definition zzlLength (zl : bytes) : option (bytes * Z) :=
  '(zl, n) ← lpLength zl; Some (zl, u32 (n / 2)).

Definition zzlNext (zl : bytes) (sptr : Z) : option (option (Z * Z)) :=
  eptr ← lpNext zl sptr;
  match eptr with
  | Some eptr => sptr ← not_null (lpNext zl eptr); Some (Some (eptr, sptr))
  | None => Some None
  end.

Definition zzlPrev (zl : bytes) (eptr : Z) : option (option (Z * Z)) :=
  sptr ← lpPrev zl eptr;
  match sptr with
  | Some sptr => eptr ← not_null (lpPrev zl sptr); Some (Some (eptr, sptr))
  | None => Some None
  end.

(** ** Ranges of scores *)

Definition zzlIsInRange (zl : bytes) (range : zrangespec) : option bool :=
  if SFltb (zr_max range) (zr_min range) ||
     (SFeqb (zr_min range) (zr_max range) && (zr_minex range || zr_maxex range))
  then Some false
  else
    p ← lpSeek zl (-1);
    match p with
    | None => Some false
    | Some p =>
        score ← zzlGetScore zl p;
        if negb (zslValueGteMin score range) then Some false
        else
          p ← not_null (lpSeek zl 1);
          score ← zzlGetScore zl p;
          Some (zslValueLteMax score range)
    end.

Fixpoint zzlFirstInRange_loop (fuel : nat) (zl : bytes) (range : zrangespec) (eptr : option Z) : option (option Z) :=
  match eptr with
  | None => Some None
  | Some eptr =>
      match fuel with
      | O => None
      | S fuel =>
          sptr ← not_null (lpNext zl eptr);
          score ← zzlGetScore zl sptr;
          if zslValueGteMin score range then Some (if zslValueLteMax score range then Some eptr else None)
          else next ← lpNext zl sptr; zzlFirstInRange_loop fuel zl range next
      end
  end.

Definition zzlFirstInRange (zl : bytes) (range : zrangespec) : option (option Z) :=
  eptr ← lpSeek zl 0;
  b ← zzlIsInRange zl range;
  if negb b then Some None else zzlFirstInRange_loop (length zl) zl range eptr.

(** The element before [eptr], by way of its score. *)
Definition zzl_before (zl : bytes) (eptr : Z) : option (option Z) :=
  sptr ← lpPrev zl eptr;
  match sptr with
  | Some sptr => eptr ← not_null (lpPrev zl sptr); Some (Some eptr)
  | None => Some None
  end.

Fixpoint zzlLastInRange_loop (fuel : nat) (zl : bytes) (range : zrangespec) (eptr : option Z) : option (option Z) :=
  match eptr with
  | None => Some None
  | Some eptr =>
      match fuel with
      | O => None
      | S fuel =>
          sptr ← not_null (lpNext zl eptr);
          score ← zzlGetScore zl sptr;
          if zslValueLteMax score range then Some (if zslValueGteMin score range then Some eptr else None)
          else prev ← zzl_before zl eptr; zzlLastInRange_loop fuel zl range prev
      end
  end.

Definition zzlLastInRange (zl : bytes) (range : zrangespec) : option (option Z) :=
  eptr ← lpSeek zl (-2);
  b ← zzlIsInRange zl range;
  if negb b then Some None else zzlLastInRange_loop (length zl) zl range eptr.

(** ** Ranges of members *)

Definition zzlLexValueGteMin (zl : bytes) (p : Z) (spec : zlexrangespec) : option bool :=
  value ← lpGetObject zl p; Some (zslLexValueGteMin value spec).

Definition zzlLexValueLteMax (zl : bytes) (p : Z) (spec : zlexrangespec) : option bool :=
  value ← lpGetObject zl p; Some (zslLexValueLteMax value spec).

Definition zzlIsInLexRange (zl : bytes) (range : zlexrangespec) : option bool :=
  let cmp := sdscmplex (zl_min range) (zl_max range) in
  if decide (cmp > 0 ∨ (cmp = 0 ∧ (zl_minex range || zl_maxex range) = true)) then Some false
  else
    p ← lpSeek zl (-2);
    match p with
    | None => Some false
    | Some p =>
        b ← zzlLexValueGteMin zl p range;
        if negb b then Some false
        else p ← not_null (lpSeek zl 0); zzlLexValueLteMax zl p range
    end.

Fixpoint zzlFirstInLexRange_loop (fuel : nat) (zl : bytes) (range : zlexrangespec) (eptr : option Z) : option (option Z) :=
  match eptr with
  | None => Some None
  | Some eptr =>
      match fuel with
      | O => None
      | S fuel =>
          b ← zzlLexValueGteMin zl eptr range;
          if b : bool then b ← zzlLexValueLteMax zl eptr range; Some (if b : bool then Some eptr else None)
          else
            sptr ← not_null (lpNext zl eptr);
            next ← lpNext zl sptr;
            zzlFirstInLexRange_loop fuel zl range next
      end
  end.

Definition zzlFirstInLexRange (zl : bytes) (range : zlexrangespec) : option (option Z) :=
  eptr ← lpSeek zl 0;
  b ← zzlIsInLexRange zl range;
  if negb b then Some None else zzlFirstInLexRange_loop (length zl) zl range eptr.

Fixpoint zzlLastInLexRange_loop (fuel : nat) (zl : bytes) (range : zlexrangespec) (eptr : option Z) : option (option Z) :=
  match eptr with
  | None => Some None
  | Some eptr =>
      match fuel with
      | O => None
      | S fuel =>
          b ← zzlLexValueLteMax zl eptr range;
          if b : bool then b ← zzlLexValueGteMin zl eptr range; Some (if b : bool then Some eptr else None)
          else prev ← zzl_before zl eptr; zzlLastInLexRange_loop fuel zl range prev
      end
  end.

Definition zzlLastInLexRange (zl : bytes) (range : zlexrangespec) : option (option Z) :=
  eptr ← lpSeek zl (-2);
  b ← zzlIsInLexRange zl range;
  if negb b then Some None else zzlLastInLexRange_loop (length zl) zl range eptr.

(** ** Search, insertion and deletion *)

Definition zzlFind (zl ele : bytes) : option (option (Z * double)) :=
  p ← lpFirst zl;
  match p with
  | None => Some None
  | Some p =>
      eptr ← lpFind zl p ele 1;
      match eptr with
      | Some eptr =>
          sptr ← not_null (lpNext zl eptr);
          score ← zzlGetScore zl sptr;
          Some (Some (eptr, score))
      | None => Some None
      end
  end.

Definition zzlDelete (zl : bytes) (eptr : Z) : option bytes :=
  '(zl, _) ← lpDeleteRangeWithEntry junk zl eptr 2; Some zl.

Definition zzlInsertAt (zl : bytes) (eptr : option Z) (ele : bytes) (score : double) : option bytes :=
  let lscore := double2ll score in
  scorebuf ← (match lscore with Some _ => Some [] | None => d2string score end);
  match eptr with
  | None =>
      zl ← not_null (lpAppend junk zl ele);
      match lscore with
      | Some lscore => not_null (lpAppendInteger junk zl lscore)
      | None => not_null (lpAppend junk zl scorebuf)
      end
  | Some eptr =>
      '(zl, sptr) ← not_null (lpInsertString junk zl ele eptr LP_BEFORE);
      sptr ← sptr;
      '(zl, _) ← (match lscore with
                  | Some lscore => not_null (lpInsertInteger junk zl lscore sptr LP_AFTER)
                  | None => not_null (lpInsertString junk zl scorebuf sptr LP_AFTER)
                  end);
      Some zl
  end.

Fixpoint zzlInsert_loop (fuel : nat) (zl ele : bytes) (score : double) (eptr : option Z) : option bytes :=
  match eptr with
  | None => zzlInsertAt zl None ele score
  | Some eptr =>
      match fuel with
      | O => None
      | S fuel =>
          sptr ← not_null (lpNext zl eptr);
          s ← zzlGetScore zl sptr;
          here ← (if SFltb score s then Some true
                  else if SFeqb s score then cmp ← zzlCompareElements zl eptr ele; Some (bool_decide (cmp > 0))
                  else Some false);
          if here : bool then zzlInsertAt zl (Some eptr) ele score
          else next ← lpNext zl sptr; zzlInsert_loop fuel zl ele score next
      end
  end.

Definition zzlInsert (zl ele : bytes) (score : double) : option bytes :=
  eptr ← lpSeek zl 0; zzlInsert_loop (length zl) zl ele score eptr.

(** ** Deletion of ranges *)

Fixpoint zzlDeleteRangeByScore_loop (fuel : nat) (zl : bytes) (range : zrangespec) (eptr : option Z) (num : Z)
    : option (bytes * Z) :=
  match eptr with
  | None => Some (zl, num)
  | Some eptr =>
      match fuel with
      | O => None
      | S fuel =>
          sptr ← lpNext zl eptr;
          match sptr with
          | None => Some (zl, num)
          | Some sptr =>
              score ← zzlGetScore zl sptr;
              if zslValueLteMax score range then
                '(zl, eptr) ← lpDeleteRangeWithEntry junk zl eptr 2;
                zzlDeleteRangeByScore_loop fuel zl range eptr (u64 (num + 1))
              else Some (zl, num)
          end
      end
  end.

Definition zzlDeleteRangeByScore (zl : bytes) (range : zrangespec) : option (bytes * Z) :=
  eptr ← zzlFirstInRange zl range;
  zzlDeleteRangeByScore_loop (length zl) zl range eptr 0.

Fixpoint zzlDeleteRangeByLex_loop (fuel : nat) (zl : bytes) (range : zlexrangespec) (eptr : option Z) (num : Z)
    : option (bytes * Z) :=
  match eptr with
  | None => Some (zl, num)
  | Some eptr =>
      match fuel with
      | O => None
      | S fuel =>
          sptr ← lpNext zl eptr;
          match sptr with
          | None => Some (zl, num)
          | Some _ =>
              b ← zzlLexValueLteMax zl eptr range;
              if b : bool then
                '(zl, eptr) ← lpDeleteRangeWithEntry junk zl eptr 2;
                zzlDeleteRangeByLex_loop fuel zl range eptr (u64 (num + 1))
              else Some (zl, num)
          end
      end
  end.

Definition zzlDeleteRangeByLex (zl : bytes) (range : zlexrangespec) : option (bytes * Z) :=
  eptr ← zzlFirstInLexRange zl range;
  zzlDeleteRangeByLex_loop (length zl) zl range eptr 0.

(** [start] and [end] are 1-based and unsigned; the arguments of [lpDeleteRange] are a [long]
    and an [unsigned long]. *)
Definition zzlDeleteRangeByRank (zl : bytes) (start fin : Z) : option (bytes * Z) :=
  let num := u32 (u32 (fin - start) + 1) in
  zl ← lpDeleteRange junk zl (u32 (2 * u32 (start - 1))) (u32 (2 * num));
  Some (zl, num).

End zzl.
