(* ===== verification/ZzlInv.v ===== *)
(** * t_zset.c: what the listpack of a sorted set stands for *)

From S2P Require Import Prelude Util Listpack ListpackEnc ListpackOps ListpackMod ListpackBulk.
From S2P Require Import Zskiplist ZslInv ZslIns ZslDel ZslOps ZslRange Zzl.

Local Open Scope Z_scope.

(** ** Pairs in a flat list *)

Definition flat (ps : list (lpval * lpval)) : list lpval := ps ≫= λ p, [fst p; snd p].

Lemma flat_length ps : length (flat ps) = (2 * length ps)%nat.
Proof. induction ps as [|p ps IH]; [done|]. simpl in *. lia. Qed.

Lemma flat_app ps qs : flat (ps ++ qs) = flat ps ++ flat qs.
Proof. apply bind_app. Qed.

Lemma flat_lookup ps i p :
  ps !! i = Some p → flat ps !! (2 * i)%nat = Some (fst p) ∧ flat ps !! S (2 * i) = Some (snd p).
Proof.
  revert i. induction ps as [|q ps IH]; intros [|i] Hi; [done..|by injection Hi as ->|].
  replace (2 * S i)%nat with (S (S (2 * i))) by lia. by apply IH.
Qed.

Lemma flat_take ps i : take (2 * i) (flat ps) = flat (take i ps).
Proof.
  revert i. induction ps as [|q ps IH]; intros [|i]; [done|by rewrite !take_nil|done|].
  replace (2 * S i)%nat with (S (S (2 * i))) by lia. simpl. do 2 f_equal. apply IH.
Qed.

Lemma flat_drop ps i : drop (2 * i) (flat ps) = flat (drop i ps).
Proof.
  revert i. induction ps as [|q ps IH]; intros [|i]; [done|by rewrite !drop_nil|done|].
  replace (2 * S i)%nat with (S (S (2 * i))) by lia. simpl. apply IH.
Qed.

(** ** Maps up to the equality of scores *)

(** Equal as scores: -0 is equal to 0. *)
Definition feq (a b : double) : Prop := fkey a = fkey b ∧ isnan a = isnan b.

Global Instance feq_equiv : Equivalence feq.
Proof. split; [done| |]; unfold feq; [intros ?? [-> ->]|intros ??? [-> ->] [-> ->]]; done. Qed.

Lemma feq_key a b e : feq a b → key_eq (a, e) (b, e).
Proof. by intros [H _]. Qed.

Lemma feq_eqb a b : SFeqb a b = true → feq a b.
Proof.
  destruct (isnan a) eqn:Ha; [destruct (nan_compare a b (or_introl Ha)) as (_ & _ & ->); done|].
  destruct (isnan b) eqn:Hb; [destruct (nan_compare a b (or_intror Hb)) as (_ & _ & ->); done|].
  rewrite sfeqb_spec by done. intros H. split; [done|by rewrite Ha, Hb].
Qed.

(** Comparisons do not tell equal scores apart. *)
Global Instance SFltb_proper : Proper (feq ==> feq ==> eq) SFltb.
Proof.
  intros a a' [Ha Hna] b b' [Hb Hnb]. destruct (isnan a) eqn:Ea; [|destruct (isnan b) eqn:Eb].
  - destruct (nan_compare a b (or_introl Ea)) as (-> & _). by destruct (nan_compare a' b' (or_introl (eq_sym Hna))) as (-> & _).
  - destruct (nan_compare a b (or_intror Eb)) as (-> & _). by destruct (nan_compare a' b' (or_intror (eq_sym Hnb))) as (-> & _).
  - apply eq_true_iff_eq. rewrite !sfltb_spec by done. by rewrite (flt_eq_l _ _ _ Ha), (flt_eq_r _ _ _ Hb).
Qed.

Global Instance SFleb_proper : Proper (feq ==> feq ==> eq) SFleb.
Proof.
  intros a a' [Ha Hna] b b' [Hb Hnb]. destruct (isnan a) eqn:Ea; [|destruct (isnan b) eqn:Eb].
  - destruct (nan_compare a b (or_introl Ea)) as (_ & -> & _). by destruct (nan_compare a' b' (or_introl (eq_sym Hna))) as (_ & -> & _).
  - destruct (nan_compare a b (or_intror Eb)) as (_ & -> & _). by destruct (nan_compare a' b' (or_intror (eq_sym Hnb))) as (_ & -> & _).
  - apply eq_true_iff_eq. rewrite !sfleb_spec by done. by rewrite (flt_eq_l _ _ _ Hb), (flt_eq_r _ _ _ Ha).
Qed.

Global Instance SFeqb_proper : Proper (feq ==> feq ==> eq) SFeqb.
Proof.
  intros a a' [Ha Hna] b b' [Hb Hnb]. destruct (isnan a) eqn:Ea; [|destruct (isnan b) eqn:Eb].
  - destruct (nan_compare a b (or_introl Ea)) as (_ & _ & ->). by destruct (nan_compare a' b' (or_introl (eq_sym Hna))) as (_ & _ & ->).
  - destruct (nan_compare a b (or_intror Eb)) as (_ & _ & ->). by destruct (nan_compare a' b' (or_intror (eq_sym Hnb))) as (_ & _ & ->).
  - apply eq_true_iff_eq. rewrite !sfeqb_spec by done. by rewrite Ha, Hb.
Qed.

Global Instance isnan_proper : Proper (feq ==> eq) isnan.
Proof. by intros a b [_ H]. Qed.

(** The same members, with equal scores. *)
Definition zeq : relation zmap := map_Forall2 (λ _, feq).

Lemma zeq_lookup m m' e : zeq m m' → option_Forall2 feq (m !! e) (m' !! e).
Proof. intros Hm. apply (Hm e). Qed.

Global Instance zeq_equiv : Equivalence zeq.
Proof.
  split.
  - intros m e. destruct (m !! e); by constructor.
  - intros m m' Hm e. destruct (Hm e); by constructor.
  - intros m m' m'' H1 H2 e. specialize (H1 e). specialize (H2 e). destruct H1 as [a b Hab|]; inversion H2; subst; constructor.
    by etransitivity.
Qed.

Global Instance zeq_insert e : Proper (feq ==> zeq ==> zeq) (insert e : double → zmap → zmap).
Proof. intros a b Hab m m' Hm. by apply map_Forall2_insert_2. Qed.

Global Instance zeq_delete e : Proper (zeq ==> zeq) (delete e : zmap → zmap).
Proof. intros m m' Hm. by apply map_Forall2_delete. Qed.

Lemma zeq_size m m' : zeq m m' → size m = size m'.
Proof.
  intros Hm. rewrite <- !size_dom. f_equal. apply set_eq. intros e. rewrite !elem_of_dom.
  destruct (zeq_lookup _ _ e Hm); split; eauto; by intros [].
Qed.

(** ** Listpacks of pairs *)

Section repr.
Context (strtod : bytes → double).

(** The score that an element of the listpack stands for. *)
Definition value_score (v : lpval) : double :=
  match v with VStr s => zzlStrtod strtod s | VInt n => double_of_ll n end.

Definition pkey (p : lpval * lpval) : zkey := (value_score (snd p), lp_string (fst p)).

Record zzl_inv (zl : bytes) (ps : list (lpval * lpval)) : Prop := {
  zz_lp : lp_repr zl (flat ps);
  zz_sorted : StronglySorted key_lt (pkey <$> ps);
  zz_scores : Forall (λ p, isnan (fst (pkey p)) = false) ps;
}.

(** The pairs as the nodes of a list without links. *)
Definition pnode (p : lpval * lpval) : snode := mk_snode 1 (pkey p) 0.

(** The pairs are those of the map. *)
Definition pairs_of (ps : list (lpval * lpval)) (m : zmap) : Prop := nodes_of (pnode <$> ps) m.

Definition zzl_repr (zl : bytes) (m : zmap) : Prop :=
  ∃ ps m', zzl_inv zl ps ∧ pairs_of ps m' ∧ zeq m' m.

Section reading.
Context (zl : bytes) (ps : list (lpval * lpval)) (Hlp : lp_repr zl (flat ps)).

(** The pointers to member [i] and to its score. *)
Definition epos (i : nat) : Z := lp_pos (flat ps) (2 * i).
Definition spos (i : nat) : Z := lp_pos (flat ps) (S (2 * i)).
Definition eptr_at (i : nat) : option Z := if decide (i < length ps)%nat then Some (epos i) else None.

Lemma lp_ptr_pair i : lp_ptr (flat ps) (2 * i) = eptr_at i.
Proof. unfold lp_ptr, eptr_at. rewrite flat_length. repeat case_decide; done || lia. Qed.

Lemma zz_first : lpFirst zl = Some (eptr_at 0).
Proof. pose proof Hlp as (num & sl & -> & _ & Hf). rewrite lpFirst_ok by done. by rewrite <- (lp_ptr_pair 0). Qed.

Lemma zz_next i : (i < length ps)%nat → lpNext zl (epos i) = Some (Some (spos i)).
Proof.
  intros Hi. pose proof Hlp as (num & sl & -> & _ & Hf). unfold epos. rewrite lpNext_ok by (done || rewrite flat_length; lia).
  unfold lp_ptr, spos. by rewrite decide_True by (rewrite flat_length; lia).
Qed.

Lemma zz_next_pair i : (i < length ps)%nat → lpNext zl (spos i) = Some (eptr_at (S i)).
Proof.
  intros Hi. pose proof Hlp as (num & sl & -> & _ & Hf). unfold spos. rewrite lpNext_ok by (done || rewrite flat_length; lia).
  f_equal. rewrite <- lp_ptr_pair. f_equal. lia.
Qed.

Lemma zz_before i : (i < length ps)%nat → zzl_before zl (epos i) = Some (match i with O => None | S j => Some (epos j) end).
Proof.
  intros Hi. pose proof Hlp as (num & sl & -> & _ & Hf). unfold zzl_before, epos.
  rewrite lpPrev_ok by (done || rewrite flat_length; lia). bind_simpl. destruct i as [|j]; [done|].
  replace (2 * S j)%nat with (S (S (2 * j))) by lia. cbn [pred]. unfold not_null.
  rewrite lpPrev_ok by (done || rewrite flat_length; lia). done.
Qed.

Lemma zz_get i p :
  ps !! i = Some p → lpGet zl (epos i) = Some (fst p) ∧ lpGet zl (spos i) = Some (snd p) ∧ val_ok (fst p) ∧ val_ok (snd p).
Proof.
  intros Hi. pose proof Hlp as (num & sl & -> & _ & Hf). destruct (flat_lookup ps i p Hi) as [H1 H2].
  pose proof (fits_vals _ Hf) as Hv. split_and!; [by apply lpGet_ok|by apply lpGet_ok|by eapply Forall_lookup_1..].
Qed.

Lemma zz_score i p : ps !! i = Some p → zzlGetScore strtod zl (spos i) = Some (fst (pkey p)).
Proof. intros Hi. unfold zzlGetScore. destruct (zz_get i p Hi) as (_ & -> & _). bind_simpl. unfold pkey. by destruct (snd p). Qed.

Lemma zz_object i p : ps !! i = Some p → lpGetObject zl (epos i) = Some (snd (pkey p)).
Proof.
  intros Hi. unfold lpGetObject. destruct (zz_get i p Hi) as (-> & _ & Hok & _). bind_simpl. unfold pkey. simpl.
  destruct (fst p) as [s|n]; [done|]. by apply ll_string_ok; [|vm_compute; lia].
Qed.

Lemma zz_seek index :
  lpSeek zl index = Some (if decide (0 ≤ seek_index (flat ps) index) then lp_ptr (flat ps) (Z.to_nat (seek_index (flat ps) index)) else None).
Proof. pose proof Hlp as (num & sl & -> & Hn & Hf). by apply lpSeek_ok. Qed.

Lemma zz_fuel : (length ps ≤ length zl)%nat.
Proof.
  pose proof Hlp as (num & sl & -> & _ & Hf). pose proof (fuel_enough num (flat ps) sl Hf). rewrite flat_length in *. lia.
Qed.

(** The first and the last member and score. *)
Lemma zz_seek_first : lpSeek zl 0 = Some (eptr_at 0).
Proof. rewrite zz_seek. unfold seek_index. simpl. by rewrite <- (lp_ptr_pair 0). Qed.

Lemma zz_seek_first_score : lpSeek zl 1 = Some (if decide (0 < length ps)%nat then Some (spos 0) else None).
Proof.
  rewrite zz_seek. unfold seek_index. simpl. unfold lp_ptr, spos. rewrite flat_length. repeat case_decide; done || lia.
Qed.

Lemma zz_seek_last : lpSeek zl (-2) = Some (match length ps with O => None | S j => Some (epos j) end).
Proof.
  rewrite zz_seek. unfold seek_index. simpl. rewrite flat_length. destruct (length ps) as [|j] eqn:Hl; [done|].
  rewrite decide_True by lia. unfold lp_ptr. rewrite flat_length, decide_True by lia. do 2 f_equal. unfold epos. f_equal. lia.
Qed.

Lemma zz_seek_last_score : lpSeek zl (-1) = Some (match length ps with O => None | S j => Some (spos j) end).
Proof.
  rewrite zz_seek. unfold seek_index. simpl. rewrite flat_length. destruct (length ps) as [|j] eqn:Hl; [done|].
  rewrite decide_True by lia. unfold lp_ptr. rewrite flat_length, decide_True by lia. do 2 f_equal. unfold spos. f_equal. lia.
Qed.

End reading.
End repr.
