(* ===== verification/ZzlRange.v ===== *)
(** * t_zset.c: ranges of a sorted set in a listpack *)

From S2P Require Import Prelude Util Listpack ListpackEnc ListpackOps ListpackMod ListpackBulk.
From S2P Require Import Zskiplist ZslInv ZslIns ZslDel ZslOps ZslRange Zzl ZzlInv.

Local Open Scope Z_scope.

(** The tests for ranges that are always empty. *)
Definition score_empty (range : zrangespec) : bool :=
  SFltb (zr_max range) (zr_min range) || (SFeqb (zr_min range) (zr_max range) && (zr_minex range || zr_maxex range)).

Definition lex_empty (range : zlexrangespec) : Prop :=
  sdscmplex (zl_min range) (zl_max range) > 0 ∨
  (sdscmplex (zl_min range) (zl_max range) = 0 ∧ (zl_minex range || zl_maxex range) = true).

Global Instance lex_empty_dec range : Decision (lex_empty range).
Proof. unfold lex_empty. apply _. Defined.

Section ranges.
Context (strtod : bytes → double) (zl : bytes) (ps : list (lpval * lpval)).
Context (Hlp : lp_repr zl (flat ps)).

Local Abbreviation pkey := (pkey strtod).
Local Abbreviation epos := (epos ps).
Local Abbreviation spos := (spos ps).
Local Abbreviation eptr_at := (eptr_at ps).

(** The elements of the range are those from position [kg] on and before position [kl]. *)
Context (G L : zkey → bool) (kg kl : nat) (Hkg : (kg ≤ length ps)%nat) (Hkl : (kl ≤ length ps)%nat).
Context (HG : ∀ j p, ps !! j = Some p → G (pkey p) = bool_decide (kg ≤ j)%nat).
Context (HL : ∀ j p, ps !! j = Some p → L (pkey p) = bool_decide (j < kl)%nat).

Definition first_ptr : option Z := if decide (kg < kl)%nat then Some (epos kg) else None.
Definition last_ptr : option Z := if decide (kg < kl)%nat then Some (epos (pred kl)) else None.

(** *** Scores *)

Section scores.
Context (range : zrangespec).
Context (Hgte : ∀ k, G k = zslValueGteMin (fst k) range) (Hlte : ∀ k, L k = zslValueLteMax (fst k) range).

Lemma zz_ends :
  score_empty range = false →
  zzlIsInRange strtod zl range = Some (bool_decide (kg < length ps ∧ 0 < kl)%nat).
Proof.
  intros Hne. unfold zzlIsInRange. fold (score_empty range). rewrite Hne, (zz_seek_last_score zl ps Hlp). bind_simpl.
  destruct (length ps) as [|j] eqn:Hlen; [f_equal; symmetry; apply bool_decide_eq_false; lia|].
  destruct (lookup_lt_is_Some_2 ps j ltac:(lia)) as [p Hp], (lookup_lt_is_Some_2 ps 0 ltac:(lia)) as [q Hq].
  rewrite (zz_score strtod zl ps Hlp j p Hp). bind_simpl. rewrite <- Hgte, (HG j p Hp).
  case_bool_decide as Hj; simpl; [|f_equal; symmetry; apply bool_decide_eq_false; lia].
  unfold not_null. rewrite (zz_seek_first_score zl ps Hlp), decide_True by lia. bind_simpl.
  rewrite (zz_score strtod zl ps Hlp 0 q Hq). bind_simpl. rewrite <- Hlte, (HL 0 q Hq). f_equal. apply bool_decide_ext. lia.
Qed.

Lemma zz_first_loop fuel i :
  (i ≤ kg)%nat → (length ps ≤ i + fuel)%nat → zzlFirstInRange_loop strtod fuel zl range (eptr_at i) = Some first_ptr.
Proof.
  revert i. induction fuel as [|fuel IH]; intros i Hi Hf; unfold eptr_at; destruct (decide (i < length ps)%nat) as [Hlt|Hge]; [lia| | |].
  1, 3: unfold first_ptr; rewrite decide_False by lia; done.
  cbn [zzlFirstInRange_loop]. unfold not_null. rewrite (zz_next zl ps Hlp i Hlt). bind_simpl.
  destruct (lookup_lt_is_Some_2 ps i Hlt) as [p Hp]. rewrite (zz_score strtod zl ps Hlp i p Hp). bind_simpl.
  rewrite <- Hgte, <- Hlte, (HG i p Hp), (HL i p Hp). case_bool_decide as Hk.
  - assert (i = kg) as -> by lia. unfold first_ptr. case_bool_decide; case_decide; done.
  - rewrite (zz_next_pair zl ps Hlp i Hlt). bind_simpl. apply IH; lia.
Qed.

Lemma zz_last_loop fuel (i : nat) :
  (i ≤ length ps)%nat → (i ≤ fuel)%nat → (kl ≤ i)%nat →
  zzlLastInRange_loop strtod fuel zl range (match i with O => None | S j => Some (epos j) end) = Some last_ptr.
Proof.
  revert i. induction fuel as [|fuel IH]; intros [|i] Hi Hf Hk; try lia.
  1, 2: unfold last_ptr; rewrite decide_False by lia; done.
  cbn [zzlLastInRange_loop]. unfold not_null. rewrite (zz_next zl ps Hlp i) by lia. bind_simpl.
  destruct (lookup_lt_is_Some_2 ps i ltac:(lia)) as [p Hp]. rewrite (zz_score strtod zl ps Hlp i p Hp). bind_simpl.
  rewrite <- Hgte, <- Hlte, (HG i p Hp), (HL i p Hp). case_bool_decide as Hkl'.
  - assert (i = pred kl) as -> by lia. unfold last_ptr. case_bool_decide; case_decide; done || lia.
  - rewrite (zz_before zl ps Hlp i) by lia. bind_simpl. apply IH; lia.
Qed.

(** No element is in an empty range. *)
Lemma no_element : (∀ p, p ∈ ps → G (pkey p) && L (pkey p) = false) → ¬ (kg < kl)%nat.
Proof.
  intros Hno Hlt. destruct (lookup_lt_is_Some_2 ps kg ltac:(lia)) as [p Hp]. pose proof (Hno p ltac:(by eapply list_elem_of_lookup_2)) as Hf.
  rewrite (HG kg p Hp), (HL kg p Hp), !bool_decide_true in Hf by lia. done.
Qed.

Context (Hnan : Forall (λ p, isnan (fst (pkey p)) = false) ps).

Lemma zz_first_in : zzlFirstInRange strtod zl range = Some first_ptr.
Proof.
  unfold zzlFirstInRange. rewrite (zz_seek_first zl ps Hlp). bind_simpl. pose proof (zz_fuel zl ps Hlp).
  destruct (score_empty range) eqn:Hempty.
  - unfold zzlIsInRange. fold (score_empty range). rewrite Hempty. bind_simpl. simpl. unfold first_ptr. rewrite decide_False; [done|]. apply no_element.
    intros p Hp. rewrite Hgte, Hlte. rewrite Forall_forall in Hnan. apply score_range_empty; [by apply Hnan|done].
  - rewrite (zz_ends Hempty). bind_simpl. case_bool_decide as Hb; simpl; [by apply zz_first_loop; lia|].
    unfold first_ptr. by rewrite decide_False by lia.
Qed.

Lemma zz_last_in : zzlLastInRange strtod zl range = Some last_ptr.
Proof.
  unfold zzlLastInRange. rewrite (zz_seek_last zl ps Hlp). bind_simpl. pose proof (zz_fuel zl ps Hlp).
  destruct (score_empty range) eqn:Hempty.
  - unfold zzlIsInRange. fold (score_empty range). rewrite Hempty. bind_simpl. simpl. unfold last_ptr. rewrite decide_False; [done|]. apply no_element.
    intros p Hp. rewrite Hgte, Hlte. rewrite Forall_forall in Hnan. apply score_range_empty; [by apply Hnan|done].
  - rewrite (zz_ends Hempty). bind_simpl. case_bool_decide as Hb; simpl; [by apply zz_last_loop; lia|].
    unfold last_ptr. by rewrite decide_False by lia.
Qed.

End scores.

(** *** Members *)

Section members.
Context (range : zlexrangespec).
Context (Hgte : ∀ k, G k = zslLexValueGteMin (snd k) range) (Hlte : ∀ k, L k = zslLexValueLteMax (snd k) range).

Lemma zz_lex_gte i p : ps !! i = Some p → zzlLexValueGteMin zl (epos i) range = Some (bool_decide (kg ≤ i)%nat).
Proof. intros Hp. unfold zzlLexValueGteMin. rewrite (zz_object strtod zl ps Hlp i p Hp). bind_simpl. by rewrite <- Hgte, (HG i p Hp). Qed.

Lemma zz_lex_lte i p : ps !! i = Some p → zzlLexValueLteMax zl (epos i) range = Some (bool_decide (i < kl)%nat).
Proof. intros Hp. unfold zzlLexValueLteMax. rewrite (zz_object strtod zl ps Hlp i p Hp). bind_simpl. by rewrite <- Hlte, (HL i p Hp). Qed.

Lemma zz_lex_ends :
  ¬ lex_empty range →
  zzlIsInLexRange zl range = Some (bool_decide (kg < length ps ∧ 0 < kl)%nat).
Proof.
  intros Hne. unfold zzlIsInLexRange. rewrite decide_False by done. rewrite (zz_seek_last zl ps Hlp). bind_simpl.
  destruct (length ps) as [|j] eqn:Hlen; [f_equal; symmetry; apply bool_decide_eq_false; lia|].
  destruct (lookup_lt_is_Some_2 ps j ltac:(lia)) as [p Hp], (lookup_lt_is_Some_2 ps 0 ltac:(lia)) as [q Hq].
  rewrite (zz_lex_gte j p Hp). bind_simpl. case_bool_decide as Hj; simpl; [|f_equal; symmetry; apply bool_decide_eq_false; lia].
  unfold not_null. rewrite (zz_seek_first zl ps Hlp). unfold ZzlInv.eptr_at. rewrite decide_True by lia. bind_simpl.
  rewrite (zz_lex_lte 0 q Hq). f_equal. apply bool_decide_ext. lia.
Qed.

Lemma zz_lex_first_loop fuel i :
  (i ≤ kg)%nat → (length ps ≤ i + fuel)%nat → zzlFirstInLexRange_loop fuel zl range (eptr_at i) = Some first_ptr.
Proof.
  revert i. induction fuel as [|fuel IH]; intros i Hi Hf; unfold eptr_at; destruct (decide (i < length ps)%nat) as [Hlt|Hge]; [lia| | |].
  1, 3: unfold first_ptr; rewrite decide_False by lia; done.
  cbn [zzlFirstInLexRange_loop]. destruct (lookup_lt_is_Some_2 ps i Hlt) as [p Hp]. rewrite (zz_lex_gte i p Hp). bind_simpl.
  case_bool_decide as Hk.
  - assert (i = kg) as -> by lia. rewrite (zz_lex_lte kg p Hp). bind_simpl. unfold first_ptr. case_bool_decide; case_decide; done.
  - unfold not_null. rewrite (zz_next zl ps Hlp i Hlt). bind_simpl. rewrite (zz_next_pair zl ps Hlp i Hlt). bind_simpl. apply IH; lia.
Qed.

Lemma zz_lex_last_loop fuel (i : nat) :
  (i ≤ length ps)%nat → (i ≤ fuel)%nat → (kl ≤ i)%nat →
  zzlLastInLexRange_loop fuel zl range (match i with O => None | S j => Some (epos j) end) = Some last_ptr.
Proof.
  revert i. induction fuel as [|fuel IH]; intros [|i] Hi Hf Hk; try lia.
  1, 2: unfold last_ptr; rewrite decide_False by lia; done.
  cbn [zzlLastInLexRange_loop]. destruct (lookup_lt_is_Some_2 ps i ltac:(lia)) as [p Hp]. rewrite (zz_lex_lte i p Hp). bind_simpl.
  case_bool_decide as Hkl'.
  - assert (i = pred kl) as -> by lia. rewrite (zz_lex_gte _ p Hp). bind_simpl. unfold last_ptr. case_bool_decide; case_decide; done || lia.
  - rewrite (zz_before zl ps Hlp i) by lia. bind_simpl. apply IH; lia.
Qed.

Lemma zz_lex_first_in : zzlFirstInLexRange zl range = Some first_ptr.
Proof.
  unfold zzlFirstInLexRange. rewrite (zz_seek_first zl ps Hlp). bind_simpl. pose proof (zz_fuel zl ps Hlp).
  destruct (decide (lex_empty range)) as [Hempty|Hne].
  - unfold zzlIsInLexRange. rewrite decide_True by done. bind_simpl. simpl. unfold first_ptr. rewrite decide_False; [done|]. apply no_element.
    intros p _. rewrite Hgte, Hlte. by apply lex_range_empty.
  - rewrite (zz_lex_ends Hne). bind_simpl. case_bool_decide as Hb; simpl; [by apply zz_lex_first_loop; lia|].
    unfold first_ptr. by rewrite decide_False by lia.
Qed.

Lemma zz_lex_last_in : zzlLastInLexRange zl range = Some last_ptr.
Proof.
  unfold zzlLastInLexRange. rewrite (zz_seek_last zl ps Hlp). bind_simpl. pose proof (zz_fuel zl ps Hlp).
  destruct (decide (lex_empty range)) as [Hempty|Hne].
  - unfold zzlIsInLexRange. rewrite decide_True by done. bind_simpl. simpl. unfold last_ptr. rewrite decide_False; [done|]. apply no_element.
    intros p _. rewrite Hgte, Hlte. by apply lex_range_empty.
  - rewrite (zz_lex_ends Hne). bind_simpl. case_bool_decide as Hb; simpl; [by apply zz_lex_last_loop; lia|].
    unfold last_ptr. by rewrite decide_False by lia.
Qed.

End members.
End ranges.
