(* ===== verification/ZzlOps.v ===== *)
(** * t_zset.c: modifications of a sorted set in a listpack *)

From S2P Require Import Prelude Util Listpack ListpackEnc ListpackOps ListpackMod ListpackBulk.
From S2P Require Import Zskiplist ZslInv ZslIns ZslDel ZslOps ZslRange ZslDelRange Zzl ZzlInv ZzlRange.

Local Open Scope Z_scope.

(** ** Deletion *)

Lemma zz_delete junk zl ps i :
  lp_repr zl (flat ps) → (i < length ps)%nat →
  ∃ zl', lpDeleteRangeWithEntry junk zl (epos ps i) 2 = Some (zl', eptr_at (delete i ps) i) ∧ lp_repr zl' (flat (delete i ps)).
Proof.
  intros (num & sl & -> & Hnum & Hf) Hi.
  assert (spliced (flat ps) (2 * i) 2 None = flat (delete i ps)) as Hsp.
  { unfold spliced. cbn [option_list app]. rewrite delete_take_drop, flat_app, flat_take, <- (flat_drop ps (S i)). by replace (2 * S i)%nat with (2 * i + 2)%nat by lia. }
  destruct (with_entry_ok junk num (flat ps) sl Hf (2 * i) 2 Hnum) as (num' & Hd & Hnum'); [rewrite flat_length; lia|lia|].
  assert (2 `min` (length (flat ps) - 2 * i) = 2)%nat as Hmin by (rewrite flat_length; lia). rewrite Hmin, Hsp in *.
  rewrite lp_ptr_pair in Hd. eexists. split; [exact Hd|]. exists num', []. split_and!; [done..|].
  rewrite <- Hsp. by apply spliced_fits.
Qed.

Section delete_ranges.
Context (junk : nat → Z) (strtod : bytes → double).

Local Abbreviation pkey := (pkey strtod).

(** The list without the [c] pairs from position [i] on. *)
Definition cut_pairs (ps : list (lpval * lpval)) (i c : nat) : list (lpval * lpval) := take i ps ++ drop (i + c) ps.

Lemma cut_pairs_zero ps i : cut_pairs ps i 0 = ps.
Proof. unfold cut_pairs. by rewrite Nat.add_0_r, take_drop. Qed.

Lemma cut_pairs_delete ps i c : (i < length ps)%nat → cut_pairs (delete i ps) i c = cut_pairs ps i (S c).
Proof.
  intros Hi. unfold cut_pairs. rewrite delete_take_drop. rewrite take_app_length' by (rewrite length_take; lia).
  rewrite drop_app_ge by (rewrite length_take; lia). rewrite length_take_le, drop_drop by lia. do 2 f_equal. lia.
Qed.

Lemma delete_lookup (ps : list (lpval * lpval)) i j : (i < length ps)%nat → delete i ps !! (i + j)%nat = ps !! (i + S j)%nat.
Proof.
  intros Hi. rewrite delete_take_drop, lookup_app_r by (rewrite length_take; lia). rewrite length_take_le, lookup_drop by lia. f_equal. lia.
Qed.

(** The [c] pairs from position [i] on, and not the next one, are in the range. *)
Definition run_of (L : zkey → bool) (ps : list (lpval * lpval)) (i c : nat) : Prop :=
  (i + c ≤ length ps)%nat ∧ ∀ j p, ps !! (i + j)%nat = Some p → (j ≤ c)%nat → L (pkey p) = bool_decide (j < c)%nat.

Lemma run_delete L ps i c : run_of L ps i (S c) → run_of L (delete i ps) i c.
Proof.
  intros [Hlen HL]. split; [rewrite length_delete by (apply lookup_lt_is_Some; lia); lia|].
  intros j p Hj Hjc. rewrite delete_lookup in Hj by lia. rewrite (HL (S j) p Hj ltac:(lia)). apply bool_decide_ext. lia.
Qed.

Lemma run_delete_length (ps : list (lpval * lpval)) i : (i < length ps)%nat → length (delete i ps) = pred (length ps).
Proof. intros Hi. rewrite length_delete by (apply lookup_lt_is_Some; lia). lia. Qed.

Lemma delete_score_loop range c fuel zl ps i num :
  lp_repr zl (flat ps) → run_of (λ k, zslValueLteMax (fst k) range) ps i c → (length ps < i + fuel)%nat →
  0 ≤ num → num + Z.of_nat c < 2 ^ 64 →
  ∃ zl', zzlDeleteRangeByScore_loop junk strtod fuel zl range (eptr_at ps i) num = Some (zl', num + Z.of_nat c) ∧
    lp_repr zl' (flat (cut_pairs ps i c)).
Proof.
  revert fuel zl ps num. induction c as [|c IH]; intros fuel zl ps num Hlp Hrun Hf Hn Hc; pose proof Hrun as [Hlen HL];
    unfold eptr_at; destruct (decide (i < length ps)%nat) as [Hi|Hi]; try lia.
  2: { exists zl. rewrite cut_pairs_zero, Z.add_0_r. split; [by destruct fuel|done]. }
  all: destruct fuel as [|fuel]; [lia|]; cbn [zzlDeleteRangeByScore_loop]; rewrite (zz_next zl ps Hlp i Hi); bind_simpl.
  all: destruct (lookup_lt_is_Some_2 ps i Hi) as [p Hp]; rewrite (zz_score strtod zl ps Hlp i p Hp); bind_simpl.
  all: pose proof (HL 0%nat p) as HL0; rewrite Nat.add_0_r in HL0; rewrite HL0 by (done || lia).
  - rewrite bool_decide_false by lia. exists zl. by rewrite cut_pairs_zero, Z.add_0_r.
  - rewrite bool_decide_true by lia. destruct (zz_delete junk zl ps i Hlp Hi) as (zl1 & -> & Hlp1). bind_simpl.
    rewrite uwrap_small by range_lia. destruct (IH fuel zl1 (delete i ps) (num + 1) Hlp1) as (zl' & -> & Hlp').
    + by apply run_delete.
    + rewrite run_delete_length by done. lia.
    + lia.
    + lia.
    + exists zl'. rewrite cut_pairs_delete in Hlp' by done. split; [do 2 f_equal; lia|done].
Qed.

Lemma delete_lex_loop range c fuel zl ps i num :
  lp_repr zl (flat ps) → run_of (λ k, zslLexValueLteMax (snd k) range) ps i c → (length ps < i + fuel)%nat →
  0 ≤ num → num + Z.of_nat c < 2 ^ 64 →
  ∃ zl', zzlDeleteRangeByLex_loop junk fuel zl range (eptr_at ps i) num = Some (zl', num + Z.of_nat c) ∧
    lp_repr zl' (flat (cut_pairs ps i c)).
Proof.
  revert fuel zl ps num. induction c as [|c IH]; intros fuel zl ps num Hlp Hrun Hf Hn Hc; pose proof Hrun as [Hlen HL];
    unfold eptr_at; destruct (decide (i < length ps)%nat) as [Hi|Hi]; try lia.
  2: { exists zl. rewrite cut_pairs_zero, Z.add_0_r. split; [by destruct fuel|done]. }
  all: destruct fuel as [|fuel]; [lia|]; cbn [zzlDeleteRangeByLex_loop]; rewrite (zz_next zl ps Hlp i Hi); bind_simpl.
  all: destruct (lookup_lt_is_Some_2 ps i Hi) as [p Hp]; unfold zzlLexValueLteMax; rewrite (zz_object strtod zl ps Hlp i p Hp); bind_simpl.
  all: pose proof (HL 0%nat p) as HL0; rewrite Nat.add_0_r in HL0; rewrite HL0 by (done || lia).
  - rewrite bool_decide_false by lia. exists zl. by rewrite cut_pairs_zero, Z.add_0_r.
  - rewrite bool_decide_true by lia. destruct (zz_delete junk zl ps i Hlp Hi) as (zl1 & -> & Hlp1). bind_simpl.
    rewrite uwrap_small by range_lia. destruct (IH fuel zl1 (delete i ps) (num + 1) Hlp1) as (zl' & -> & Hlp').
    + by apply run_delete.
    + rewrite run_delete_length by done. lia.
    + lia.
    + lia.
    + exists zl'. rewrite cut_pairs_delete in Hlp' by done. split; [do 2 f_equal; lia|done].
Qed.

End delete_ranges.

(** ** Insertion *)

Lemma string_bound v : val_ok v → zlen (lp_string v) ≤ zlen (entry v) + 20.
Proof.
  rewrite entry_length. pose proof (backlen_size_range (zlen (enc v))). destruct v as [s|n]; cbn [enc lp_string] in *; intros Hv.
  - pose proof (str_enc_length s). lia.
  - pose proof (decimal_short n Hv). lia.
Qed.

Lemma spliced_total_insert vs i v : lp_total (spliced vs i 0 (Some v)) = lp_total vs + zlen (entry v).
Proof.
  unfold lp_total. rewrite spliced_body, !length_app, Nat.add_0_r. cbn [new_entry].
  rewrite <- (take_drop i vs) at 3. rewrite body_app, length_app. lia.
Qed.

(** An insertion that has room. *)
Lemma insert_room junk zl vs ele v where_ i :
  lp_repr zl vs → ele_denotes ele (Some v) → (i < length vs)%nat → where_ ≠ LP_REPLACE → lp_total vs + zlen (entry v) ≤ UINT32_MAX →
  let j := match where_ with LP_AFTER => S i | _ => i end in
  ∃ zl', lpInsert junk zl ele (lp_pos vs i) where_ = Some (Some (zl', Some (lp_pos vs j))) ∧ lp_repr zl' (spliced vs j 0 (Some v)).
Proof.
  intros Hlp Hele Hi Hw Htot j. pose proof (lpInsert_ok junk zl vs ele (Some v) where_ i Hlp Hele (or_introl Hi)) as Hs.
  unfold insert_spec in Hs. assert (insert_at (Some v) where_ i = (j, 0%nat)) as Hat by by destruct where_. rewrite Hat in Hs.
  rewrite decide_False in Hs by (rewrite spliced_total_insert; lia). destruct Hs as (zl' & Hs & Hlp'). exists zl'. split; [|done].
  rewrite Hs. rewrite decide_False by by intros []. done.
Qed.

Lemma append_room junk zl vs ele v :
  lp_repr zl vs → ele_denotes ele (Some v) → lp_total vs + zlen (entry v) ≤ UINT32_MAX →
  ∃ zl', (n ← lpGetTotalBytes zl; without_newp (lpInsert junk zl ele (n - 1) LP_BEFORE)) = Some (Some zl') ∧ lp_repr zl' (vs ++ [v]).
Proof.
  intros Hlp Hele Htot. pose proof (append_ele_ok junk zl vs ele v Hlp Hele) as Hr. unfold lp_result in Hr.
  rewrite decide_False in Hr; [done|]. rewrite lp_total_app. unfold body. simpl. rewrite app_nil_r. lia.
Qed.

Lemma string_denotes s : zlen s < 2 ^ 31 → ele_denotes (EleStr s) (Some (lp_norm s)).
Proof. intros Hs. split; [done|]. range_lia. Qed.

Lemma norm_bound s : zlen (entry (lp_norm s)) ≤ zlen s + 14.
Proof. pose proof (entry_bound (lp_norm s)) as H. by rewrite lp_string_norm in H. Qed.

(** *** Integers among the doubles *)

Definition valid_double (s : double) : Prop := valid_binary 53 1024 s = true.

Lemma digits2_pos_bound m : Z.pos m < 2 ^ Z.pos (digits2_pos m).
Proof.
  induction m as [m IH|m IH|]; simpl digits2_pos; [| |done].
  all: rewrite Pos2Z.inj_succ, Z.pow_succ_r by lia; lia.
Qed.

Lemma valid_mantissa sg m e : valid_double (S754_finite sg m e) → Z.pos m < 2 ^ 53.
Proof.
  unfold valid_double. simpl. unfold bounded, canonical_mantissa, fexp. rewrite andb_true_iff. intros [Hc _].
  apply Z.eqb_eq in Hc. pose proof (digits2_pos_bound m) as Hd.
  assert (Z.pos (digits2_pos m) ≤ 53) as Hle by lia. eapply Z.lt_le_trans; [exact Hd|]. apply Z.pow_le_mono_r; lia.
Qed.

Lemma double2ll_range s n : valid_double s → double2ll s = Some n → in_srange 64 n.
Proof.
  intros Hv. unfold double2ll. destruct (SFltb s _ || _) eqn:Hb; [done|]. destruct (SFeqb _ s) eqn:Heq; [|done]. intros [= <-].
  apply orb_false_iff in Hb as [Hlo Hhi].
  assert (isnan s = false) as Hn by by destruct s.
  apply not_true_iff_false in Hlo, Hhi. rewrite sfltb_spec in Hlo, Hhi by (done || (vm_compute; reflexivity)).
  unfold flt in Hlo, Hhi.
  assert (fkey (double_of_ll (- (LLONG_MAX / 2))) = (-1, -10, -4503599627370496)) as E1 by (vm_compute; reflexivity).
  assert (fkey (double_of_ll (LLONG_MAX / 2)) = (1, 10, 4503599627370496)) as E2 by (vm_compute; reflexivity).
  rewrite E1 in Hlo. rewrite E2 in Hhi.
  destruct s as [sg|[]| |sg m e]; simpl in Hlo, Hhi; [simpl; range_lia|exfalso; lia|exfalso; lia|done|].
  pose proof (valid_mantissa _ _ _ Hv) as Hm. unfold ll_of_double.
  assert (e ≤ 10 ∧ (e = 10 → Z.pos m ≤ 2 ^ 52)) as [He Hm52] by (destruct sg; simpl in Hlo, Hhi; pow2_lit; lia).
  assert (0 ≤ (if decide (0 ≤ e) then Z.pos m * 2 ^ e else Z.pos m / 2 ^ (- e)) ≤ 2 ^ 62) as Ha.
  { case_decide as He0.
    - split; [lia|]. destruct (decide (e = 10)) as [->|]; [pow2_lit; lia|].
      assert (2 ^ e ≤ 2 ^ 9) as Hp by (apply Z.pow_le_mono_r; lia). pow2_lit. nia.
    - assert (0 < 2 ^ (- e)) by (apply Z.pow_pos_nonneg; lia). split; [apply Z.div_pos; lia|].
      assert (Z.pos m / 2 ^ (- e) ≤ Z.pos m) by (apply Z.div_le_upper_bound; nia). pow2_lit. lia. }
  destruct sg; range_lia.
Qed.

Section insert.
Context (junk : nat → Z) (strtod : bytes → double) (fpconv_dtoa : double → bytes).

Local Abbreviation pkey := (pkey strtod).
Local Abbreviation value_score := (value_score strtod).
Local Abbreviation d2string := (d2string fpconv_dtoa).

(** The notation of the score, when it is not an integer, is read back as the score. *)
Definition reads_back (s : double) : Prop :=
  valid_double s ∧ isnan s = false ∧
  (double2ll s = None → ∃ buf, d2string s = Some buf ∧ zlen buf < 128 ∧ SFeqb (value_score (lp_norm buf)) s = true).

(** How the score is stored. *)
Definition score_entry (s : double) : lpval :=
  match double2ll s with Some n => VInt n | None => lp_norm (default [] (d2string s)) end.

Lemma score_entry_ok s :
  reads_back s → feq (value_score (score_entry s)) s ∧ zlen (entry (score_entry s)) ≤ 150.
Proof.
  intros (Hv & Hn & Hstr). unfold score_entry. destruct (double2ll s) as [n|] eqn:Hll.
  - pose proof Hll as Hll'. unfold double2ll in Hll'. destruct (_ || _); [done|]. destruct (SFeqb _ s) eqn:Heq; [|done].
    injection Hll' as <-. split; [by apply feq_eqb|]. pose proof (entry_bound (VInt (ll_of_double s))) as Hb.
    pose proof (decimal_short _ (double2ll_range s _ Hv Hll)). simpl in Hb. lia.
  - destruct (Hstr eq_refl) as (buf & -> & Hlen & Heq). simpl. split; [by apply feq_eqb|]. pose proof (norm_bound buf). lia.
Qed.

(** What is stored for the score. *)
Lemma score_denotes s :
  reads_back s →
  ∃ scorebuf, (match double2ll s with Some _ => Some [] | None => d2string s end) = Some scorebuf ∧
    ele_denotes (match double2ll s with Some n => EleInt (lpEncodeIntegerGetType n) | None => EleStr scorebuf end) (Some (score_entry s)).
Proof.
  intros (Hv & Hn & Hstr). unfold score_entry. destruct (double2ll s) as [n|] eqn:Hll.
  - exists []. split; [done|]. exists n. split_and!; [done|by eapply double2ll_range|done].
  - destruct (Hstr eq_refl) as (buf & -> & Hlen & _). exists buf. split; [done|]. apply (string_denotes buf). range_lia.
Qed.

Definition insert_pair (ps : list (lpval * lpval)) (i : nat) (ele : bytes) (s : double) : list (lpval * lpval) :=
  take i ps ++ (lp_norm ele, score_entry s) :: drop i ps.

Lemma insert_pair_flat ps i ele s :
  flat (insert_pair ps i ele s) = take (2 * i) (flat ps) ++ lp_norm ele :: score_entry s :: drop (2 * i) (flat ps).
Proof. unfold insert_pair. by rewrite flat_app, flat_take, flat_drop. Qed.

Lemma zzlInsertAt_ok zl ps i ele s :
  lp_repr zl (flat ps) → reads_back s → (i ≤ length ps)%nat → lp_total (flat ps) + zlen ele + 200 ≤ 2 ^ 31 →
  ∃ zl', zzlInsertAt junk fpconv_dtoa zl (eptr_at ps i) ele s = Some zl' ∧ lp_repr zl' (flat (insert_pair ps i ele s)).
Proof.
  intros Hlp Hs Hi Hroom. destruct (score_denotes s Hs) as (buf & Hbuf & Hele). destruct (score_entry_ok s Hs) as [_ Hsz].
  pose proof (norm_bound ele) as Hnb. pose proof (lp_pos_bound (flat ps) 0) as Hpos.
  assert (ele_denotes (EleStr ele) (Some (lp_norm ele))) as Hmem by (apply string_denotes; range_lia).
  unfold zzlInsertAt. rewrite Hbuf. bind_simpl. rewrite insert_pair_flat. unfold eptr_at. destruct (decide (i < length ps)%nat) as [Hlt|Hge].
  - destruct (insert_room junk zl (flat ps) (EleStr ele) (lp_norm ele) LP_BEFORE (2 * i) Hlp Hmem) as (zl1 & Hi1 & Hlp1);
      [rewrite flat_length; lia|done|range_lia|]. cbn zeta iota in Hi1, Hlp1. unfold lpInsertString, epos. rewrite Hi1.
    set (vs1 := spliced (flat ps) (2 * i) 0 (Some (lp_norm ele))) in *.
    assert (lp_pos (flat ps) (2 * i) = lp_pos vs1 (2 * i)) as Hp1.
    { unfold lp_pos, vs1, spliced. rewrite take_app_le by (rewrite length_take, flat_length; lia). by rewrite take_take, Nat.min_id. }
    assert ((2 * i < length vs1)%nat) as Hl1.
    { unfold vs1, spliced. rewrite !length_app, length_take, length_drop, flat_length. simpl. lia. }
    assert (lp_total vs1 = lp_total (flat ps) + zlen (entry (lp_norm ele))) as Ht1 by apply spliced_total_insert.
    destruct (insert_room junk zl1 vs1 _ (score_entry s) LP_AFTER (2 * i) Hlp1 Hele Hl1) as (zl2 & Hi2 & Hlp2); [done|range_lia|].
    cbn zeta iota in Hi2, Hlp2. unfold not_null. bind_simpl. exists zl2. split.
    + unfold lpInsertInteger. rewrite Hp1. destruct (double2ll s); rewrite Hi2; done.
    + replace (take (2 * i) (flat ps) ++ lp_norm ele :: score_entry s :: drop (2 * i) (flat ps))
        with (spliced vs1 (S (2 * i)) 0 (Some (score_entry s))); [done|].
      unfold spliced, vs1, spliced. rewrite !Nat.add_0_r. rewrite (cons_middle (lp_norm ele)). cbn [option_list app].
      assert (length (take (2 * i) (flat ps) ++ [lp_norm ele]) = S (2 * i)) as Hl.
      { rewrite length_app, length_take, flat_length. simpl. lia. }
      rewrite (app_assoc (take (2 * i) (flat ps)) [lp_norm ele]). rewrite take_app_length' by done. rewrite drop_app_length' by done.
      by rewrite <- app_assoc.
  - destruct (append_room junk zl (flat ps) (EleStr ele) (lp_norm ele) Hlp Hmem) as (zl1 & Ha1 & Hlp1); [range_lia|].
    unfold lpAppend. rewrite Ha1. unfold not_null. bind_simpl.
    assert (lp_total (flat ps ++ [lp_norm ele]) = lp_total (flat ps) + zlen (entry (lp_norm ele))) as Ht1.
    { rewrite lp_total_app. unfold body. simpl. by rewrite app_nil_r. }
    destruct (append_room junk zl1 _ _ (score_entry s) Hlp1 Hele) as (zl2 & Ha2 & Hlp2); [range_lia|].
    exists zl2. split.
    + unfold lpAppendInteger, lpInsertInteger. by destruct (double2ll s); rewrite Ha2.
    + rewrite take_ge, drop_ge by (rewrite flat_length; lia). by rewrite <- app_assoc in Hlp2.
Qed.

(** *** The place of the new pair *)

Section place.
Context (zl : bytes) (ps : list (lpval * lpval)) (Hlp : lp_repr zl (flat ps)).
Context (ele : bytes) (Hroom : lp_total (flat ps) + zlen ele + 200 ≤ 2 ^ 31).

Lemma member_bound i p : ps !! i = Some p → zlen (snd (pkey p)) < 2 ^ 31.
Proof.
  intros Hp. destruct (flat_lookup ps i p Hp) as [Hf _]. pose proof (lp_pos_S _ _ _ Hf). pose proof (lp_pos_bound (flat ps) (2 * i)).
  pose proof (lp_pos_bound (flat ps) (S (2 * i))). destruct (zz_get zl ps Hlp i p Hp) as (_ & _ & Hok & _).
  pose proof (string_bound (fst p) Hok). simpl. range_lia.
Qed.

Lemma zz_compare i p :
  ps !! i = Some p → ∃ c, zzlCompareElements zl (epos ps i) ele = Some c ∧ (c > 0 ↔ sdscmp (snd (pkey p)) ele > 0).
Proof.
  intros Hp. pose proof (member_bound i p Hp) as Hb. pose proof (lp_pos_bound (flat ps) 0) as Hpos.
  unfold zzlCompareElements. destruct (zz_get zl ps Hlp i p Hp) as (-> & _ & Hok & _). bind_simpl.
  assert ((match fst p with VStr vstr => Some vstr | VInt vlong => ll_string 32 vlong end) = Some (snd (pkey p))) as ->.
  { simpl. destruct (fst p) as [v|n]; [done|]. apply ll_string_ok; [done|lia]. }
  bind_simpl. eexists. split; [done|]. unfold sdscmp. case_decide; [|done]. rewrite swrap_uwrap, swrap_small by (lia || range_lia).
  repeat case_decide; lia.
Qed.

(** The pair goes before the first greater element. *)
Lemma zzlInsert_loop_ok s k fuel i :
  reads_back s → Forall (λ p, isnan (fst (pkey p)) = false) ps → (k ≤ length ps)%nat →
  (∀ j p, ps !! j = Some p → key_lt (s, ele) (pkey p) ↔ (k ≤ j)%nat) →
  (i ≤ k)%nat → (length ps ≤ i + fuel)%nat →
  zzlInsert_loop junk strtod fpconv_dtoa fuel zl ele s (eptr_at ps i) = zzlInsertAt junk fpconv_dtoa zl (eptr_at ps k) ele s.
Proof.
  intros (Hv & Hs & Hrb) Hnan Hk Hlt. revert i. induction fuel as [|fuel IH]; intros i Hi Hf; unfold eptr_at at 1;
    destruct (decide (i < length ps)%nat) as [Hl|Hl]; [lia| | |].
  1, 3: assert (i = k) as -> by lia; unfold eptr_at; by rewrite decide_False.
  cbn [zzlInsert_loop]. unfold not_null. rewrite (zz_next zl ps Hlp i Hl). bind_simpl.
  destruct (lookup_lt_is_Some_2 ps i Hl) as [p Hp]. rewrite (zz_score strtod zl ps Hlp i p Hp). bind_simpl.
  assert ((if SFltb s (fst (pkey p)) then Some true
           else if SFeqb (fst (pkey p)) s then cmp ← zzlCompareElements zl (epos ps i) ele; Some (bool_decide (cmp > 0))
           else Some false) = Some (bool_decide (k ≤ i)%nat)) as ->.
  { pose proof (Forall_lookup_1 (λ p, isnan (fst (pkey p)) = false) _ _ _ Hnan Hp) as Hn. cbn beta in Hn.
    rewrite <- (bool_decide_ext _ _ (Hlt i p Hp)).
    change (key_lt (s, ele) (pkey p)) with (flt s (fst (pkey p)) ∨ fkey s = fkey (fst (pkey p)) ∧ sdscmp ele (snd (pkey p)) < 0).
    destruct (SFltb s (fst (pkey p))) eqn:E1; [apply sfltb_spec in E1; [|done..]; by rewrite bool_decide_true by by left|].
    apply not_true_iff_false in E1. rewrite sfltb_spec in E1 by done.
    destruct (SFeqb (fst (pkey p)) s) eqn:E2.
    - apply sfeqb_spec in E2; [|done..]. destruct (zz_compare i p Hp) as (c & -> & Hc). bind_simpl. f_equal. apply bool_decide_ext.
      rewrite Hc. pose proof (sdscmp_anti ele (snd (pkey p))) as Ha. rewrite E2. split; [intros; right; split; [done|]; lia|].
      intros [H|[_ H]]; [done|lia].
    - f_equal. symmetry. apply bool_decide_eq_false. intros [H|[H _]]; [done|]. apply not_true_iff_false in E2.
      apply E2, sfeqb_spec; done. }
  bind_simpl. case_bool_decide as Hki.
  - assert (i = k) as -> by lia. unfold eptr_at. by rewrite decide_True.
  - rewrite (zz_next_pair zl ps Hlp i Hl). bind_simpl. apply IH; lia.
Qed.

End place.
End insert.

(** ** The operations on the pairs *)

Lemma pnode_insert strtod fpconv_dtoa ps i ele s :
  pnode strtod <$> insert_pair fpconv_dtoa ps i ele s =
  inserted (pnode strtod <$> ps) i 1 (value_score strtod (score_entry fpconv_dtoa s), ele) 0.
Proof.
  unfold insert_pair, inserted. rewrite fmap_app, fmap_cons, fmap_take, fmap_drop. do 2 f_equal. unfold pnode, pkey. simpl.
  by rewrite lp_string_norm.
Qed.

Lemma pnode_delete strtod (ps : list (lpval * lpval)) i : pnode strtod <$> delete i ps = deleted (pnode strtod <$> ps) i.
Proof. unfold deleted. by rewrite delete_take_drop, fmap_app, fmap_take, fmap_drop. Qed.

Lemma pnode_keys strtod (ps : list (lpval * lpval)) : sn_key <$> (pnode strtod <$> ps) = pkey strtod <$> ps.
Proof. by rewrite <- list_fmap_compose. Qed.

Lemma find_ref_flat ele ps :
  find_ref 1 ele (flat ps) 0 = (λ p, 2 * fst p)%nat <$> list_find (λ p, lp_string (fst p) = ele) ps.
Proof.
  induction ps as [|p ps IH]; [done|]. cbn [flat mbind list_bind app find_ref list_find]. case_decide; [done|].
  change (ps ≫= λ p, [fst p; snd p]) with (flat ps). rewrite IH. rewrite <- !option_fmap_compose. apply option_fmap_ext. intros []. simpl. lia.
Qed.

Section pairs.
Context (junk : nat → Z) (strtod : bytes → double) (fpconv_dtoa : double → bytes).
Context (zl : bytes) (ps : list (lpval * lpval)) (m : zmap).
Context (Hinv : zzl_inv strtod zl ps) (Hm : pairs_of strtod ps m).

Local Abbreviation pkey := (pkey strtod).

Lemma pairs_get i p : ps !! i = Some p → m !! snd (pkey p) = Some (fst (pkey p)).
Proof. intros Hp. apply (nodes_get _ _ i (pnode strtod p) Hm). by rewrite list_lookup_fmap, Hp. Qed.

Lemma pairs_lookup e s : m !! e = Some s ↔ ∃ i p, ps !! i = Some p ∧ pkey p = (s, e).
Proof.
  rewrite (nodes_lookup _ _ _ _ Hm). split.
  - intros (i & sn & Hi & Hk). rewrite list_lookup_fmap in Hi. destruct (ps !! i) as [p|] eqn:Hp; [|done]. injection Hi as <-. eauto.
  - intros (i & p & Hp & Hk). exists i, (pnode strtod p). by rewrite list_lookup_fmap, Hp.
Qed.

Lemma pairs_length : length ps = size m.
Proof. rewrite <- (nodes_length _ _ Hm). by rewrite length_fmap. Qed.

(** [zzlFind] finds the member and its score. *)
Lemma zzlFind_ok ele :
  match m !! ele with
  | Some s => ∃ i p, ps !! i = Some p ∧ pkey p = (s, ele) ∧ zzlFind strtod zl ele = Some (Some (epos ps i, s))
  | None => zzlFind strtod zl ele = Some None
  end.
Proof.
  pose proof (zz_lp _ _ _ Hinv) as Hlp. unfold zzlFind. rewrite (zz_first zl ps Hlp). bind_simpl. unfold eptr_at.
  destruct (decide (0 < length ps)%nat) as [H0|H0].
  2: { destruct (m !! ele) as [s|] eqn:He; [|done]. apply pairs_lookup in He as (i & p & Hp & _). apply lookup_lt_Some in Hp. lia. }
  pose proof (lpFind_ok zl (flat ps) ele 1 (2 * 0) Hlp ltac:(rewrite flat_length; lia)) as Hfind.
  change (lp_pos (flat ps) (2 * 0)) with (epos ps 0) in Hfind. change (Z.of_nat 1) with 1 in Hfind. rewrite Hfind. bind_simpl.
  rewrite drop_0, find_ref_flat. destruct (list_find _ ps) as [[i p]|] eqn:Hf; simpl.
  - apply list_find_Some in Hf as (Hp & He & _). pose proof (pairs_get i p Hp) as Hg. simpl in Hg. rewrite He in Hg. rewrite Hg.
    exists i, p. split_and!; [done|unfold pkey; by rewrite He|]. unfold not_null. fold (epos ps i).
    change (lp_pos (flat ps) (i + (i + 0))) with (epos ps i).
    rewrite (zz_next zl ps Hlp i) by by eapply lookup_lt_Some. bind_simpl. by rewrite (zz_score strtod zl ps Hlp i p Hp).
  - apply list_find_None in Hf. rewrite Forall_lookup in Hf. destruct (m !! ele) as [s|] eqn:He; [|done].
    apply pairs_lookup in He as (i & p & Hp & Hk). exfalso. apply (Hf i p Hp). by injection Hk.
Qed.

Lemma zzlDelete_ok i p :
  ps !! i = Some p →
  ∃ zl', zzlDelete junk zl (epos ps i) = Some zl' ∧ zzl_inv strtod zl' (delete i ps) ∧ pairs_of strtod (delete i ps) (delete (snd (pkey p)) m).
Proof.
  intros Hp. destruct (zz_delete junk zl ps i (zz_lp _ _ _ Hinv) ltac:(by eapply lookup_lt_Some)) as (zl' & Hd & Hlp').
  exists zl'. unfold zzlDelete. rewrite Hd. split; [done|]. split.
  - split; [done| |].
    + rewrite <- pnode_keys, pnode_delete. unfold deleted. rewrite fmap_app, fmap_take, fmap_drop, pnode_keys.
      apply sorted_delete, (zz_sorted _ _ _ Hinv).
    + apply Forall_delete. exact (zz_scores _ _ _ Hinv).
  - unfold pairs_of. rewrite pnode_delete. apply (nodes_delete _ _ i (pnode strtod p)); [done|]. by rewrite list_lookup_fmap, Hp.
Qed.

Lemma zzlInsert_ok ele s :
  reads_back strtod fpconv_dtoa s → m !! ele = None → lp_total (flat ps) + zlen ele + 200 ≤ 2 ^ 31 →
  ∃ zl' k, zzlInsert junk strtod fpconv_dtoa zl ele s = Some zl' ∧ zzl_inv strtod zl' (insert_pair fpconv_dtoa ps k ele s) ∧
    pairs_of strtod (insert_pair fpconv_dtoa ps k ele s) (<[ele := value_score strtod (score_entry fpconv_dtoa s)]> m).
Proof.
  intros Hs He Hroom. pose proof (zz_lp _ _ _ Hinv) as Hlp. pose proof (zz_sorted _ _ _ Hinv) as Hsort.
  destruct (score_entry_ok strtod fpconv_dtoa s Hs) as [Hfeq _]. rewrite <- pnode_keys in Hsort.
  destruct (sorted_prefix (pnode strtod <$> ps) (λ y, ¬ key_lt (s, ele) y) Hsort) as (k & Hk & Hiff).
  { intros y w Hyw Hw Hlt. apply Hw. by eapply key_lt_trans. }
  rewrite length_fmap in Hk.
  assert (∀ j p, ps !! j = Some p → key_lt (s, ele) (pkey p) ↔ (k ≤ j)%nat) as Hlt.
  { intros j p Hp. specialize (Hiff j (pnode strtod p)). rewrite list_lookup_fmap, Hp in Hiff. specialize (Hiff eq_refl). simpl in Hiff.
    destruct (decide (key_lt (s, ele) (pkey p))) as [Hd|Hd].
    - split; [|done]. intros _. destruct (decide (S j ≤ k)%nat) as [H|]; [by apply Hiff in H|lia].
    - split; [done|]. intros. apply Hiff in Hd. lia. }
  assert (∀ j p, ps !! j = Some p → (j < k)%nat → key_lt (pkey p) (s, ele)) as Hbefore.
  { intros j p Hp Hjk. destruct (key_total (pkey p) (s, ele)) as [|[[_ Heq]|H]]; [done| |apply (Hlt j p Hp) in H; lia].
    exfalso. pose proof (pairs_get j p Hp) as Hg. simpl in Heq, Hg. rewrite Heq in Hg. congruence. }
  destruct (zzlInsertAt_ok junk strtod fpconv_dtoa zl ps k ele s Hlp Hs Hk Hroom) as (zl' & Hat & Hlp').
  exists zl', k. split_and!.
  - unfold zzlInsert. rewrite (zz_seek_first zl ps Hlp). bind_simpl. pose proof (zz_fuel zl ps Hlp).
    rewrite (zzlInsert_loop_ok junk strtod fpconv_dtoa zl ps Hlp ele Hroom s k) by (done || lia || exact (zz_scores _ _ _ Hinv)). exact Hat.
  - split; [done| |].
    + rewrite <- pnode_keys, pnode_insert. unfold inserted. rewrite fmap_app, fmap_cons, fmap_take, fmap_drop, pnode_keys. simpl.
      apply sorted_insert; [exact (zz_sorted _ _ _ Hinv)| |]; rewrite <- ?fmap_take, <- ?fmap_drop, Forall_fmap, Forall_lookup; intros j p Hj; simpl.
      * apply lookup_take_Some in Hj as [Hj Hjk]. apply (key_lt_eq_r _ _ _ (feq_key _ _ ele Hfeq)). by eapply Hbefore.
      * rewrite lookup_drop in Hj. apply (key_lt_eq_l _ _ _ (feq_key _ _ ele Hfeq)). apply (Hlt _ _ Hj). lia.
    + unfold insert_pair. pose proof (zz_scores _ _ _ Hinv) as Hn. rewrite <- (take_drop k ps) in Hn. apply Forall_app in Hn as [H1 H2].
      apply Forall_app. split; [done|]. constructor; [|done]. simpl. rewrite Hfeq. apply Hs.
  - unfold pairs_of. rewrite pnode_insert. by apply nodes_insert.
Qed.

End pairs.
