(* ===== verification/ZzlRefine.v ===== *)
(** * t_zset.c: a sorted set in a listpack refines an ordered map *)

From S2P Require Import Prelude Util Listpack ListpackEnc ListpackOps ListpackMod ListpackBulk.
From S2P Require Import Zskiplist ZslInv ZslIns ZslDel ZslOps ZslRange ZslDelRange Zzl ZzlInv ZzlRange ZzlOps.

Local Open Scope Z_scope.

Section refine.
Context (junk : nat → Z) (strtod : bytes → double) (fpconv_dtoa : double → bytes).

Local Abbreviation pkey := (pkey strtod).
Local Abbreviation zzl_repr := (zzl_repr strtod).

(** The element at a pointer. *)
Definition key_at (zl : bytes) (eptr : Z) : option zkey :=
  e ← lpGetObject zl eptr; sptr ← not_null (lpNext zl eptr); s ← zzlGetScore strtod zl sptr; Some (s, e).

(** The pointer [r] is to the first element of the range [R] in the order [lt], if there is
    one. *)
Definition extreme_ptr (lt : zkey → zkey → Prop) (zl : bytes) (m : zmap) (R : zkey → bool) (r : option Z) : Prop :=
  match r with
  | None => ∀ e s, m !! e = Some s → R (s, e) = false
  | Some p => ∃ e s, key_at zl p = Some (s, e) ∧ m !! e = Some s ∧ R (s, e) = true ∧
      ∀ e' s', m !! e' = Some s' → R (s', e') = true → ¬ lt (s', e') (s, e)
  end.

(** What the deletion of a range [R] returns. *)
Definition zzl_range_deleted (m : zmap) (R : zkey → bool) (res : option (bytes * Z)) : Prop :=
  ∃ zl, res = Some (zl, Z.of_nat (size (filter (λ p, R (snd p, fst p) = true) m))) ∧
    zzl_repr zl (filter (λ p, R (snd p, fst p) = false) m).

Section bounds.
Context (zl : bytes) (ps : list (lpval * lpval)) (m : zmap).
Context (Hinv : zzl_inv strtod zl ps) (Hm : pairs_of strtod ps m).
Context (G L : zkey → bool).
Context (Gup : ∀ j k a b, (j < k)%nat → ps !! j = Some a → ps !! k = Some b → G (pkey a) = true → G (pkey b) = true).
Context (Ldown : ∀ j k a b, (j < k)%nat → ps !! j = Some a → ps !! k = Some b → L (pkey b) = true → L (pkey a) = true).

Lemma pair_bounds :
  ∃ kg kl, (kg ≤ length ps)%nat ∧ (kl ≤ length ps)%nat ∧
    (∀ j p, ps !! j = Some p → G (pkey p) = bool_decide (kg ≤ j)%nat) ∧
    (∀ j p, ps !! j = Some p → L (pkey p) = bool_decide (j < kl)%nat).
Proof.
  assert (∀ j a, (pnode strtod <$> ps) !! j = Some a → ∃ p, ps !! j = Some p ∧ a = pnode strtod p) as Hlook.
  { intros j a. rewrite list_lookup_fmap. destruct (ps !! j) as [p|]; [|done]. intros [= <-]. by exists p. }
  destruct (range_bounds (pnode strtod <$> ps) G L) as (kg & kl & Hkg & Hkl & HG & HL).
  - intros j k a b Hjk Ha Hb. apply Hlook in Ha as (p & Ha & ->), Hb as (q & Hb & ->). by apply (Gup j k).
  - intros j k a b Hjk Ha Hb. apply Hlook in Ha as (p & Ha & ->), Hb as (q & Hb & ->). by apply (Ldown j k).
  - rewrite length_fmap in *. exists kg, kl. split_and!; [done..| |]; intros j p Hp;
      [apply (HG j (pnode strtod p))|apply (HL j (pnode strtod p))]; by rewrite list_lookup_fmap, Hp.
Qed.

Lemma key_at_ok i p : ps !! i = Some p → key_at zl (epos ps i) = Some (pkey p).
Proof.
  intros Hp. pose proof (zz_lp _ _ _ Hinv) as Hlp. unfold key_at. rewrite (zz_object strtod zl ps Hlp i p Hp). bind_simpl.
  unfold not_null. rewrite (zz_next zl ps Hlp i) by by eapply lookup_lt_Some. bind_simpl.
  by rewrite (zz_score strtod zl ps Hlp i p Hp).
Qed.

Lemma pairs_sorted j k a b : ps !! j = Some a → ps !! k = Some b → (j < k)%nat → key_lt (pkey a) (pkey b).
Proof.
  intros Ha Hb Hjk. apply (keys_lookup_lt (pnode strtod <$> ps) j k (pnode strtod a) (pnode strtod b)); [|by rewrite list_lookup_fmap, ?Ha, ?Hb..|done].
  rewrite pnode_keys. exact (zz_sorted _ _ _ Hinv).
Qed.

Section ends.
Context (kg kl : nat) (Hkg : (kg ≤ length ps)%nat) (Hkl : (kl ≤ length ps)%nat).
Context (HG : ∀ j p, ps !! j = Some p → G (pkey p) = bool_decide (kg ≤ j)%nat).
Context (HL : ∀ j p, ps !! j = Some p → L (pkey p) = bool_decide (j < kl)%nat).

Lemma in_positions j p : ps !! j = Some p → G (pkey p) && L (pkey p) = bool_decide (kg ≤ j < kl)%nat.
Proof. intros Hp. rewrite (HG j p Hp), (HL j p Hp). repeat case_bool_decide; done || lia. Qed.

Lemma extreme_position lt k :
  (kg ≤ k < kl)%nat → (∀ j a b, (kg ≤ j < kl)%nat → ps !! j = Some a → ps !! k = Some b → ¬ lt (pkey a) (pkey b)) →
  extreme_ptr lt zl m (λ key, G key && L key) (Some (epos ps k)).
Proof.
  intros Hk Hmin. destruct (lookup_lt_is_Some_2 ps k ltac:(lia)) as [p Hp]. exists (snd (pkey p)), (fst (pkey p)).
  rewrite <- surjective_pairing. split_and!; [by apply key_at_ok|by eapply pairs_get|rewrite (in_positions k p Hp); apply bool_decide_eq_true; lia|].
  intros e' s' He' HR. apply (pairs_lookup strtod ps m Hm) in He' as (j & q & Hq & Hkey). rewrite <- Hkey in *.
  rewrite (in_positions j q Hq), bool_decide_eq_true in HR. by apply (Hmin j q p).
Qed.

Lemma extreme_nothing lt : ¬ (kg < kl)%nat → extreme_ptr lt zl m (λ key, G key && L key) None.
Proof.
  intros Hge e s He. apply (pairs_lookup strtod ps m Hm) in He as (j & q & Hq & <-). rewrite (in_positions j q Hq).
  apply bool_decide_eq_false. lia.
Qed.

Lemma pairs_not_before j k a b : ps !! j = Some a → ps !! k = Some b → (k ≤ j)%nat → ¬ key_lt (pkey a) (pkey b).
Proof.
  intros Ha Hb Hkj Hlt. destruct (decide (j = k)) as [->|]; [assert (a = b) as -> by congruence; by apply key_lt_irrefl in Hlt|].
  apply (key_lt_irrefl (pkey a)). eapply key_lt_trans; [exact Hlt|]. apply (pairs_sorted k j b a Hb Ha). lia.
Qed.

Lemma first_extreme : extreme_ptr key_lt zl m (λ key, G key && L key) (first_ptr ps kg kl).
Proof.
  unfold first_ptr. case_decide as Hlt; [|by apply extreme_nothing]. apply extreme_position; [lia|].
  intros j a b Hj Ha Hb. eapply pairs_not_before; [done..|lia].
Qed.

Lemma last_extreme : extreme_ptr (flip key_lt) zl m (λ key, G key && L key) (last_ptr ps kg kl).
Proof.
  unfold last_ptr. case_decide as Hlt; [|by apply extreme_nothing]. apply extreme_position; [lia|].
  intros j a b Hj Ha Hb. eapply pairs_not_before; [done..|lia].
Qed.

End ends.
End bounds.

(** The pairs that remain after the deletion of [c] pairs. *)
Lemma cut_range zl ps m zl' k c (R : zkey → bool) :
  zzl_inv strtod zl ps → pairs_of strtod ps m → (k + c ≤ length ps)%nat →
  (∀ j p, ps !! j = Some p → R (pkey p) = bool_decide (k ≤ j < k + c)%nat) →
  lp_repr zl' (flat (cut_pairs ps k c)) → zzl_range_deleted m R (Some (zl', Z.of_nat c)).
Proof.
  intros Hinv Hm Hkc HR Hlp'. exists zl'.
  assert (pnode strtod <$> cut_pairs ps k c = cut (pnode strtod <$> ps) k c) as Hpn.
  { unfold cut_pairs, cut. by rewrite fmap_app, fmap_take, fmap_drop. }
  assert (∀ sn, (snd (sn_pair sn), fst (sn_pair sn)) = sn_key sn) as Hsp by (intros sn; simpl; by destruct (sn_key sn)).
  assert (filter (λ sn, R (snd (sn_pair sn), fst (sn_pair sn)) = false) (pnode strtod <$> ps) = cut (pnode strtod <$> ps) k c) as Hcut.
  { apply filter_cut. intros j sn Hj. rewrite list_lookup_fmap in Hj. destruct (ps !! j) as [p|] eqn:Hp; [|done]. injection Hj as <-.
    rewrite Hsp. simpl. rewrite (HR j p Hp), bool_decide_eq_false. done. }
  assert (pairs_of strtod (cut_pairs ps k c) (filter (λ p, R (snd p, fst p) = false) m)) as Hm'.
  { unfold pairs_of. rewrite Hpn, <- Hcut. exact (nodes_filter _ m (λ p, R (snd p, fst p) = false) Hm). }
  split.
  - do 2 f_equal. pose proof (map_filter_union_complement (λ p, R (snd p, fst p) = true) m) as Hun. apply (f_equal size) in Hun.
    rewrite map_size_disj_union in Hun by apply map_disjoint_filter_complement. pose proof (pairs_length strtod _ _ Hm') as Hl'.
    assert (filter (λ p, R (snd p, fst p) ≠ true) m = filter (λ p, R (snd p, fst p) = false) m) as Hneg.
    { apply map_filter_ext. intros e s _. by rewrite not_true_iff_false. }
    pose proof (f_equal size Hneg). pose proof (pairs_length strtod _ _ Hm). unfold cut_pairs in Hl'.
    rewrite length_app, length_take, length_drop in Hl'. lia.
  - exists (cut_pairs ps k c), (filter (λ p, R (snd p, fst p) = false) m). split_and!; [|done|done]. split; [done| |].
    + rewrite <- pnode_keys, Hpn. unfold cut. rewrite fmap_app, fmap_take, fmap_drop, pnode_keys.
      apply sorted_cut, (zz_sorted _ _ _ Hinv).
    + unfold cut_pairs. apply Forall_app. split; [apply Forall_take|apply Forall_drop]; exact (zz_scores _ _ _ Hinv).
Qed.

(** The loop of a deletion starts at the first element of the range. *)
Lemma first_ptr_at ps kg kl : (kl ≤ length ps)%nat → (kg < kl)%nat → first_ptr ps kg kl = eptr_at ps kg.
Proof. intros Hkl Hlt. unfold first_ptr, eptr_at. by rewrite !decide_True by lia. Qed.

Lemma zz_fuel_lt zl ps : lp_repr zl (flat ps) → (length ps < length zl)%nat ∧ zlen ps < 2 ^ 31.
Proof.
  intros (num & sl & -> & _ & Hf). pose proof (lp_of_length num (flat ps) sl) as Hl. pose proof (length_body _ (fits_vals _ Hf)) as Hb.
  pose proof (fits_total _ Hf) as Ht. unfold lp_total in *. rewrite flat_length in Hb. split; [lia|range_lia].
Qed.

Lemma run_from L ps kg kl :
  (kg ≤ kl ≤ length ps)%nat → (∀ j p, ps !! j = Some p → L (pkey p) = bool_decide (j < kl)%nat) → run_of strtod L ps kg (kl - kg).
Proof. intros Hk HL. split; [lia|]. intros j p Hp _. rewrite (HL _ _ Hp). apply bool_decide_ext. lia. Qed.

(** The monotonicity of the bounds on the pairs. *)
Lemma score_bounds_ok zl ps range :
  zzl_inv strtod zl ps →
  ∃ kg kl, (kg ≤ length ps)%nat ∧ (kl ≤ length ps)%nat ∧
    (∀ j p, ps !! j = Some p → zslValueGteMin (fst (pkey p)) range = bool_decide (kg ≤ j)%nat) ∧
    (∀ j p, ps !! j = Some p → zslValueLteMax (fst (pkey p)) range = bool_decide (j < kl)%nat).
Proof.
  intros Hinv. pose proof (zz_scores _ _ _ Hinv) as Hn. rewrite Forall_lookup in Hn.
  apply (pair_bounds ps (λ k, zslValueGteMin (fst k) range) (λ k, zslValueLteMax (fst k) range));
    intros j k a b Hjk Ha Hb; [apply gte_min_mono|apply lte_max_mono]; try (by eapply Hn); apply key_lt_score; by eapply (pairs_sorted zl ps Hinv j k).
Qed.

Lemma lex_bounds_ok zl ps m range :
  zzl_inv strtod zl ps → pairs_of strtod ps m → (∀ e s e' s', m !! e = Some s → m !! e' = Some s' → SFeqb s s' = true) →
  ∃ kg kl, (kg ≤ length ps)%nat ∧ (kl ≤ length ps)%nat ∧
    (∀ j p, ps !! j = Some p → zslLexValueGteMin (snd (pkey p)) range = bool_decide (kg ≤ j)%nat) ∧
    (∀ j p, ps !! j = Some p → zslLexValueLteMax (snd (pkey p)) range = bool_decide (j < kl)%nat).
Proof.
  intros Hinv Hm Hsame.
  assert (∀ j k a b, (j < k)%nat → ps !! j = Some a → ps !! k = Some b → sdscmp (snd (pkey a)) (snd (pkey b)) < 0) as Hord.
  { intros j k a b Hjk Ha Hb. destruct (pairs_sorted zl ps Hinv j k a b Ha Hb Hjk) as [H|[_ H]]; [|done].
    destruct (feq_eqb _ _ (Hsame _ _ _ _ (pairs_get strtod ps m Hm j a Ha) (pairs_get strtod ps m Hm k b Hb))) as [Heq _].
    rewrite (flt_eq_l _ _ _ Heq) in H. by apply flt_irrefl in H. }
  apply (pair_bounds ps (λ k, zslLexValueGteMin (snd k) range) (λ k, zslLexValueLteMax (snd k) range));
    intros j k a b Hjk Ha Hb; [apply lex_gte_mono|apply lex_lte_mono]; by eapply Hord.
Qed.

Lemma delete_score_ok zl ps m range :
  zzl_inv strtod zl ps → pairs_of strtod ps m →
  zzl_range_deleted m (in_score_range range) (zzlDeleteRangeByScore junk strtod zl range).
Proof.
  intros Hinv Hm. pose proof (zz_lp _ _ _ Hinv) as Hlp. destruct (zz_fuel_lt zl ps Hlp) as [Hf H31].
  destruct (score_bounds_ok zl ps range Hinv) as (kg & kl & Hkg & Hkl & HG & HL). unfold zzlDeleteRangeByScore.
  rewrite (zz_first_in strtod zl ps Hlp (λ k, zslValueGteMin (fst k) range) (λ k, zslValueLteMax (fst k) range) kg kl Hkg Hkl HG HL range)
    by (done || exact (zz_scores _ _ _ Hinv)). bind_simpl.
  assert (∀ j p, ps !! j = Some p → in_score_range range (pkey p) = bool_decide (kg ≤ j < kg + (kl - kg))%nat) as HR.
  { intros j p Hp. unfold in_score_range. rewrite (HG j p Hp), (HL j p Hp). repeat case_bool_decide; done || lia. }
  destruct (decide (kg < kl)%nat) as [Hlt|Hge].
  - rewrite first_ptr_at by done. destruct (delete_score_loop junk strtod range (kl - kg) (length zl) zl ps kg 0 Hlp) as (zl' & -> & Hlp');
      [by apply run_from; [lia|]|lia|lia|range_lia|]. rewrite Z.add_0_l. by apply (cut_range zl ps m zl' kg (kl - kg)); [| |lia| |].
  - unfold first_ptr. rewrite decide_False by done. replace (kl - kg)%nat with 0%nat in HR by lia.
    assert (zzlDeleteRangeByScore_loop junk strtod (length zl) zl range None 0 = Some (zl, Z.of_nat 0)) as -> by by destruct (length zl).
    apply (cut_range zl ps m zl kg 0); [done|done|lia|done|]. by rewrite cut_pairs_zero.
Qed.

Lemma delete_lex_ok zl ps m range :
  zzl_inv strtod zl ps → pairs_of strtod ps m → (∀ e s e' s', m !! e = Some s → m !! e' = Some s' → SFeqb s s' = true) →
  zzl_range_deleted m (in_lex_range range) (zzlDeleteRangeByLex junk zl range).
Proof.
  intros Hinv Hm Hsame. pose proof (zz_lp _ _ _ Hinv) as Hlp. destruct (zz_fuel_lt zl ps Hlp) as [Hf H31].
  destruct (lex_bounds_ok zl ps m range Hinv Hm Hsame) as (kg & kl & Hkg & Hkl & HG & HL). unfold zzlDeleteRangeByLex.
  rewrite (zz_lex_first_in strtod zl ps Hlp (λ k, zslLexValueGteMin (snd k) range) (λ k, zslLexValueLteMax (snd k) range) kg kl Hkg Hkl HG HL range)
    by done. bind_simpl.
  assert (∀ j p, ps !! j = Some p → in_lex_range range (pkey p) = bool_decide (kg ≤ j < kg + (kl - kg))%nat) as HR.
  { intros j p Hp. unfold in_lex_range. rewrite (HG j p Hp), (HL j p Hp). repeat case_bool_decide; done || lia. }
  destruct (decide (kg < kl)%nat) as [Hlt|Hge].
  - rewrite first_ptr_at by done. destruct (delete_lex_loop junk strtod range (kl - kg) (length zl) zl ps kg 0 Hlp) as (zl' & -> & Hlp');
      [by apply run_from; [lia|]|lia|lia|range_lia|]. rewrite Z.add_0_l. by apply (cut_range zl ps m zl' kg (kl - kg)); [| |lia| |].
  - unfold first_ptr. rewrite decide_False by done. replace (kl - kg)%nat with 0%nat in HR by lia.
    assert (zzlDeleteRangeByLex_loop junk (length zl) zl range None 0 = Some (zl, Z.of_nat 0)) as -> by by destruct (length zl).
    apply (cut_range zl ps m zl kg 0); [done|done|lia|done|]. by rewrite cut_pairs_zero.
Qed.

Lemma delete_rank_ok zl ps m start fin :
  zzl_inv strtod zl ps → pairs_of strtod ps m → 1 ≤ start ≤ fin → fin ≤ Z.of_nat (size m) →
  zzl_range_deleted m (λ key, bool_decide (start ≤ Z.of_nat (S (before_count m (fst key) (snd key))) ≤ fin))
    (zzlDeleteRangeByRank junk zl start fin).
Proof.
  intros Hinv Hm Hs Hfin. pose proof (zz_lp _ _ _ Hinv) as Hlp. destruct (zz_fuel_lt zl ps Hlp) as [Hf H31].
  pose proof (pairs_length strtod ps m Hm) as Hlen. unfold zzlDeleteRangeByRank.
  rewrite (uwrap_small 32 (start - 1)), (uwrap_small 32 (fin - start)) by range_lia. rewrite !(uwrap_small 32 (fin - start + 1)) by range_lia.
  rewrite !uwrap_small by range_lia.
  destruct (lpDeleteRange_ok junk zl (flat ps) (2 * (start - 1)) (2 * (fin - start + 1)) Hlp ltac:(lia)) as (zl' & -> & Hlp'). bind_simpl.
  set (k := Z.to_nat (start - 1)). set (c := Z.to_nat (fin - start + 1)).
  replace (fin - start + 1) with (Z.of_nat c) by lia. apply (cut_range zl ps m zl' k c); [done|done|lia| |].
  - intros j p Hp. rewrite (sorted_position (pnode strtod <$> ps) m j (pnode strtod p)).
    + apply bool_decide_ext. lia.
    + rewrite pnode_keys. exact (zz_sorted _ _ _ Hinv).
    + done.
    + by rewrite list_lookup_fmap, Hp.
    + by split.
  - rewrite (delete_range_spliced (flat ps) _ _ (2 * k) (2 * c)) in Hlp'.
    + unfold cut_pairs. rewrite flat_app, <- flat_take, <- flat_drop, Nat.mul_add_distr_l. exact Hlp'.
    + unfold seek_index. rewrite decide_False by lia. lia.
    + rewrite flat_length. lia.
    + lia.
    + rewrite flat_length. lia.
Qed.

(** ** The refinement *)

(** C32. The search, insertion and deletion of the listpack of a sorted set implement those of an
    ordered map up to the sign of zero: [zzlFind] finds a member and its score, [zzlInsert]
    puts a new pair where the order wants it, and [zzlDelete] removes the pair that was found. *)
Theorem zzl_refines zl m ele s n :
  zzl_repr zl m → lpBytes zl = Some n → n + zlen ele + 200 ≤ 2 ^ 31 → reads_back strtod fpconv_dtoa s →
  match m !! ele with
  | Some s0 => ∃ eptr s1 zl', zzlFind strtod zl ele = Some (Some (eptr, s1)) ∧ feq s1 s0 ∧
      zzlDelete junk zl eptr = Some zl' ∧ zzl_repr zl' (delete ele m)
  | None => zzlFind strtod zl ele = Some None ∧
      ∃ zl', zzlInsert junk strtod fpconv_dtoa zl ele s = Some zl' ∧ zzl_repr zl' (<[ele := s]> m)
  end.
Proof.
  intros (ps & m' & Hinv & Hm & Hzeq) Hn Hroom Hs. pose proof (zzlFind_ok strtod zl ps m' Hinv Hm ele) as Hf.
  assert (lp_total (flat ps) = n) as Htot.
  { pose proof (zz_lp _ _ _ Hinv) as (num & sl & -> & _ & Hfit). unfold lpBytes in Hn. rewrite lp_of_total in Hn by done. by injection Hn. }
  pose proof (zeq_lookup _ _ ele Hzeq) as He. destruct (m' !! ele) as [s1|] eqn:H1, (m !! ele) as [s0|] eqn:H0; inversion He as [? ? Hfeq|]; subst.
  - destruct Hf as (i & p & Hp & Hkey & Hfind). destruct (zzlDelete_ok junk strtod zl ps m' Hinv Hm i p Hp) as (zl' & Hd & Hinv' & Hm').
    exists (epos ps i), s1, zl'. split_and!; [done..|]. exists (delete i ps), (delete ele m'). rewrite Hkey in Hm'. split_and!; [done..|].
    by rewrite Hzeq.
  - split; [done|]. destruct (zzlInsert_ok junk strtod fpconv_dtoa zl ps m' Hinv Hm ele s Hs H1 Hroom) as (zl' & k & Hi & Hinv' & Hm').
    exists zl'. split; [done|]. eexists _, _. split_and!; [exact Hinv'|exact Hm'|]. destruct (score_entry_ok strtod fpconv_dtoa s Hs) as [Hfeq _].
    by rewrite Hfeq, Hzeq.
Qed.

(** The ranges of a sorted set in a listpack: the first and the last element in a range of
    scores or (when all scores are equal) of members are found, NULL exactly when there is none,
    and the deletions of a range by score, member or rank remove exactly its elements and count
    them. *)
Theorem zzl_ranges_refine zl m :
  zzl_repr zl m →
  ∃ m', zeq m' m ∧
  (∀ range,
    (∃ r, zzlFirstInRange strtod zl range = Some r ∧ extreme_ptr key_lt zl m' (in_score_range range) r) ∧
    (∃ r, zzlLastInRange strtod zl range = Some r ∧ extreme_ptr (flip key_lt) zl m' (in_score_range range) r) ∧
    zzl_range_deleted m' (in_score_range range) (zzlDeleteRangeByScore junk strtod zl range)) ∧
  ((∀ e s e' s', m' !! e = Some s → m' !! e' = Some s' → SFeqb s s' = true) → ∀ range,
    (∃ r, zzlFirstInLexRange zl range = Some r ∧ extreme_ptr key_lt zl m' (in_lex_range range) r) ∧
    (∃ r, zzlLastInLexRange zl range = Some r ∧ extreme_ptr (flip key_lt) zl m' (in_lex_range range) r) ∧
    zzl_range_deleted m' (in_lex_range range) (zzlDeleteRangeByLex junk zl range)) ∧
  (∀ start fin, 1 ≤ start ≤ fin → fin ≤ Z.of_nat (size m) →
    zzl_range_deleted m' (λ key, bool_decide (start ≤ Z.of_nat (S (before_count m' (fst key) (snd key))) ≤ fin))
      (zzlDeleteRangeByRank junk zl start fin)).
Proof.
  intros (ps & m' & Hinv & Hm & Hzeq). exists m'. pose proof (zz_lp _ _ _ Hinv) as Hlp. split; [done|]. split_and!.
  - intros range. destruct (score_bounds_ok zl ps range Hinv) as (kg & kl & Hkg & Hkl & HG & HL).
    pose proof (zz_scores _ _ _ Hinv) as Hn. split_and!; [eexists; split|eexists; split|by eapply delete_score_ok].
    + apply (zz_first_in strtod zl ps Hlp (λ k, zslValueGteMin (fst k) range) (λ k, zslValueLteMax (fst k) range) kg kl); done.
    + apply (first_extreme zl ps m' Hinv Hm (λ k, zslValueGteMin (fst k) range) (λ k, zslValueLteMax (fst k) range) kg kl); done.
    + apply (zz_last_in strtod zl ps Hlp (λ k, zslValueGteMin (fst k) range) (λ k, zslValueLteMax (fst k) range) kg kl); done.
    + apply (last_extreme zl ps m' Hinv Hm (λ k, zslValueGteMin (fst k) range) (λ k, zslValueLteMax (fst k) range) kg kl); done.
  - intros Hsame range. destruct (lex_bounds_ok zl ps m' range Hinv Hm Hsame) as (kg & kl & Hkg & Hkl & HG & HL).
    split_and!; [eexists; split|eexists; split|by eapply delete_lex_ok].
    + apply (zz_lex_first_in strtod zl ps Hlp (λ k, zslLexValueGteMin (snd k) range) (λ k, zslLexValueLteMax (snd k) range) kg kl); done.
    + apply (first_extreme zl ps m' Hinv Hm (λ k, zslLexValueGteMin (snd k) range) (λ k, zslLexValueLteMax (snd k) range) kg kl); done.
    + apply (zz_lex_last_in strtod zl ps Hlp (λ k, zslLexValueGteMin (snd k) range) (λ k, zslLexValueLteMax (snd k) range) kg kl); done.
    + apply (last_extreme zl ps m' Hinv Hm (λ k, zslLexValueGteMin (snd k) range) (λ k, zslLexValueLteMax (snd k) range) kg kl); done.
  - intros start fin Hs Hfin. eapply delete_rank_ok; [done..|]. by rewrite (zeq_size _ _ Hzeq).
Qed.

End refine.

(** ** Witnesses *)

Definition ex_half : double := SFdiv 53 1024 (dbl 3) (dbl 2).
Definition ex_strtod (s : bytes) : double := if decide (s = str "1.5") then ex_half else S754_zero false.
Definition ex_dtoa (d : double) : bytes := str "1.5".
Definition ex_fresh (i : nat) : Z := 0.

(** Two members, one of them a number, with the scores 1 and 1.5. *)
Definition ex_ps : list (lpval * lpval) := [(VStr (str "a"), VInt 1); (VInt 7, VStr (str "1.5"))].
Definition ex_zl : bytes := lp_of 4 (flat ex_ps) [].
Definition ex_pmap : zmap := list_to_map (sn_pair <$> (pnode ex_strtod <$> ex_ps)).

Lemma ex_zzl_repr : zzl_repr ex_strtod ex_zl ex_pmap.
Proof.
  exists ex_ps, ex_pmap. split; [split| split; [|done]].
  - exists 4, []. split; [done|]. split; [right; done|]. split; [|by vm_compute].
    repeat constructor; simpl; range_lia.
  - constructor; [by repeat constructor|]. constructor; [|constructor]. left. apply sfltb_spec; by vm_compute.
  - by repeat constructor.
  - unfold pairs_of, nodes_of, ex_pmap. rewrite map_to_list_to_map; [done|]. apply (bool_decide_unpack _). vm_compute. exact I.
Qed.

Lemma ex_reads_back : reads_back ex_strtod ex_dtoa ex_half.
Proof.
  split; [by vm_compute|]. split; [by vm_compute|]. intros _. exists (str "1.5"). split_and!; [by vm_compute..|].
  vm_compute. reflexivity.
Qed.

Lemma zzl_refines_witness :
  (∃ zl', zzlInsert ex_fresh ex_strtod ex_dtoa ex_zl (str "b") ex_half = Some zl' ∧ zzl_repr ex_strtod zl' (<[str "b" := ex_half]> ex_pmap)) ∧
  (∃ eptr s zl', zzlFind ex_strtod ex_zl (str "7") = Some (Some (eptr, s)) ∧ zzlDelete ex_fresh ex_zl eptr = Some zl' ∧
    zzl_repr ex_strtod zl' (delete (str "7") ex_pmap)).
Proof.
  split.
  - pose proof (zzl_refines ex_fresh ex_strtod ex_dtoa ex_zl ex_pmap (str "b") ex_half 19 ex_zzl_repr ltac:(vm_compute; reflexivity)
      ltac:(vm_compute; discriminate) ex_reads_back) as H.
    assert (ex_pmap !! str "b" = None) as E by (vm_compute; reflexivity). rewrite E in H. exact (proj2 H).
  - pose proof (zzl_refines ex_fresh ex_strtod ex_dtoa ex_zl ex_pmap (str "7") ex_half 19 ex_zzl_repr ltac:(vm_compute; reflexivity)
      ltac:(vm_compute; discriminate) ex_reads_back) as H.
    assert (ex_pmap !! str "7" = Some ex_half) as E by (vm_compute; reflexivity). rewrite E in H.
    destruct H as (eptr & s1 & zl' & H1 & _ & H2 & H3). exists eptr, s1, zl'. split; [exact H1|]. split; [exact H2|exact H3].
Defined.

Lemma zzl_ranges_refine_witness :
  ∃ m', zeq m' ex_pmap ∧ ∃ zl' n, zzlDeleteRangeByRank ex_fresh ex_zl 1 1 = Some (zl', n) ∧
    zzl_repr ex_strtod zl' (filter (λ p, bool_decide (1 ≤ Z.of_nat (S (before_count m' (snd p) (fst p))) ≤ 1) = false) m').
Proof.
  destruct (zzl_ranges_refine ex_fresh ex_strtod ex_zl ex_pmap ex_zzl_repr) as (m' & Hz & _ & _ & H). exists m'. split; [exact Hz|].
  destruct (H 1 1 ltac:(lia) ltac:(vm_compute; discriminate)) as (zl' & H1 & H2). eexists zl', _. split; [exact H1|exact H2].
Defined.
