(* ===== verification/ScoreArith.v ===== *)
(** * Arithmetic on scores

The sum of two doubles is a double: the significand is normalised and the exponent in range.
Scores that are equal have equal sums. *)

From S2P Require Import Prelude Zskiplist ZslInv Zzl ZzlInv ZzlOps.

Local Open Scope Z_scope.

Local Abbreviation fexp := (fexp 53 1024).
Local Abbreviation shr_fexp := (shr_fexp 53 1024).

(** ** Digits *)

Lemma zdigits_nonneg m : 0 ≤ Zdigits2 m.
Proof. by destruct m. Qed.

Lemma zdigits_zero m : Zdigits2 m = 0 → m = 0.
Proof. by destruct m. Qed.

Lemma digits_succ p : Z.pos (digits2_pos p) ≤ Z.pos (digits2_pos (Pos.succ p)) ≤ Z.pos (digits2_pos p) + 1.
Proof. induction p; simpl; lia. Qed.

(** A shift by one place drops one digit. *)
Lemma shr_1_digits r : 0 ≤ shr_m r → 0 ≤ shr_m (shr_1 r) ∧ Zdigits2 (shr_m (shr_1 r)) = Z.max 0 (Zdigits2 (shr_m r) - 1).
Proof. destruct r as [[|[p|p|]|p] rb s]; simpl; try lia. Qed.

Lemma shr_iter_digits p r :
  0 ≤ shr_m r → 0 ≤ shr_m (iter_pos shr_1 p r) ∧ Zdigits2 (shr_m (iter_pos shr_1 p r)) = Z.max 0 (Zdigits2 (shr_m r) - Z.pos p).
Proof.
  revert r. induction p as [p IH|p IH|]; intros r Hr; cbn [iter_pos].
  - destruct (shr_1_digits r Hr) as [H1 E1]. destruct (IH _ H1) as [H2 E2]. destruct (IH _ H2) as [H3 E3]. split; [done|]. lia.
  - destruct (IH _ Hr) as [H2 E2]. destruct (IH _ H2) as [H3 E3]. split; [done|]. lia.
  - by apply shr_1_digits.
Qed.

Lemma shl_digits p d : Z.pos (digits2_pos (Pos.iter xO p d)) = Z.pos (digits2_pos p) + Z.pos d.
Proof.
  induction d as [|d IH] using Pos.peano_ind; [simpl; lia|]. rewrite Pos.iter_succ. simpl. lia.
Qed.

Lemma record_of_loc m l : shr_m (shr_record_of_loc m l) = m.
Proof. by destruct l as [|[]]. Qed.

(** ** Rounding *)

(** After the shift the exponent is that of the remaining digits, or nothing remains. *)
Lemma shr_fexp_ok m e l m' e' :
  0 ≤ m → e ≤ fexp (Zdigits2 m + e) → shr_fexp m e l = (m', e') →
  0 ≤ shr_m m' ∧ e' = fexp (Zdigits2 m + e) ∧ Zdigits2 (shr_m m') = Z.max 0 (Zdigits2 m + e - e').
Proof.
  intros Hm He. unfold SpecFloat.shr_fexp, shr. destruct (fexp (Zdigits2 m + e) - e) as [|p|p] eqn:Hd; [| |lia].
  - intros [= <- <-]. rewrite record_of_loc. pose proof (zdigits_nonneg m). split_and!; [done|lia|lia].
  - intros [= <- <-]. destruct (shr_iter_digits p (shr_record_of_loc m l)) as [H1 H2]; rewrite record_of_loc in *; [done|].
    split_and!; [done|lia|lia].
Qed.

Lemma round_digits m l :
  0 ≤ m → 0 ≤ round_nearest_even m l ∧ Zdigits2 m ≤ Zdigits2 (round_nearest_even m l) ∧ Zdigits2 (round_nearest_even m l) ≤ Zdigits2 m + 1.
Proof.
  intros Hm. assert (0 ≤ m + 1 ∧ Zdigits2 m ≤ Zdigits2 (m + 1) ≤ Zdigits2 m + 1) as H1.
  { destruct m as [|p|p]; [by simpl|change (Z.pos p + 1) with (Z.pos (p + 1)); rewrite Pos.add_1_r; pose proof (digits_succ p); simpl; lia|lia]. }
  destruct l as [|[]]; simpl; try case_match; lia.
Qed.

Lemma round_aux_valid sx m e l :
  0 ≤ m → e ≤ fexp (Zdigits2 m + e) → valid_double (binary_round_aux 53 1024 sx m e l).
Proof.
  intros Hm He. unfold binary_round_aux. destruct (shr_fexp m e l) as [r1 e1] eqn:H1.
  destruct (shr_fexp_ok m e l r1 e1 Hm He H1) as (Hr1 & He1 & Hd1).
  destruct (round_digits (shr_m r1) (loc_of_shr_record r1) Hr1) as (Hm2 & Hlo & Hhi). set (m2 := round_nearest_even _ _) in *.
  destruct (shr_fexp m2 e1 loc_Exact) as [r2 e2] eqn:H2.
  assert (e1 ≤ fexp (Zdigits2 m2 + e1)) as He2.
  { unfold SpecFloat.fexp, emin in *. pose proof (zdigits_nonneg m). lia. }
  destruct (shr_fexp_ok m2 e1 _ r2 e2 Hm2 He2 H2) as (Hr2 & He2' & Hd2).
  destruct (shr_m r2) as [|p|p] eqn:Hp; [done| |lia]. destruct (Z.leb_spec e2 (1024 - 53)) as [Hle|]; [|done].
  unfold valid_double, valid_binary, bounded, canonical_mantissa. apply andb_true_iff. split; [|by apply Z.leb_le].
  apply Z.eqb_eq. simpl in Hd2. rewrite Hd2, He2'. rewrite Z.max_r by lia. f_equal. lia.
Qed.

Lemma normalize_valid m e s : valid_double (binary_normalize 53 1024 m e s).
Proof.
  assert (∀ sx p, valid_double (binary_round 53 1024 sx p e)) as Hround.
  { intros sx p. unfold binary_round. destruct (shl_align p e _) as [mz ez] eqn:Ha. apply round_aux_valid; [lia|].
    unfold shl_align in Ha. set (d := Z.pos (digits2_pos p)) in *. destruct (fexp (d + e) - e) as [|n|n] eqn:Hd; injection Ha as <- <-.
    - simpl. fold d. lia.
    - simpl. fold d. lia.
    - simpl. rewrite shl_digits. fold d. assert (d + Z.pos n + fexp (d + e) = d + e) as -> by lia. lia. }
  destruct m; [done|apply Hround..].
Qed.

Lemma add_valid x y : valid_double x → valid_double y → valid_double (SFadd 53 1024 x y).
Proof.
  intros Hx Hy. destruct x as [sx|sx| |sx mx ex], y as [sy|sy| |sy my ey]; try done; try (by destruct sx, sy). apply normalize_valid.
Qed.

Lemma double_of_ll_valid n : valid_double (double_of_ll n).
Proof. apply normalize_valid. Qed.

(** ** Equal scores *)

Lemma feq_cases a b : feq a b → a = b ∨ ∃ s s', a = S754_zero s ∧ b = S754_zero s'.
Proof.
  intros [Hk Hn]. destruct a as [sa|[]| |[] ma ea], b as [sb|[]| |[] mb eb]; simplify_eq/=; eauto; left; f_equal; lia.
Qed.

Lemma feq_valid a b : feq a b → valid_double a → valid_double b.
Proof. intros [->|(s & s' & -> & ->)]%feq_cases; done. Qed.

(** Sums of equal scores are equal. *)
Global Instance add_proper : Proper (feq ==> feq ==> feq) (SFadd 53 1024).
Proof.
  intros a a' Ha b b' Hb. apply feq_cases in Ha as [->|(s & s' & -> & ->)], Hb as [->|(t & t' & -> & ->)]; [done|..].
  - by destruct a' as [[]|[]| |[] ? ?], t, t'.
  - by destruct b' as [[]|[]| |[] ? ?], s, s'.
  - by destruct s, s', t, t'.
Qed.
