(* ===== verification/Zset.v ===== *)
(** * t_zset.c: the sorted set object

A sorted set is a listpack of pairs while it is small, and otherwise a skip list together with a
dictionary from the members to the nodes of the skip list: the value of an entry is the address
of the [score] field of a node, here the address of the node.  The skip lists of all objects
live in one heap.  NULL pointers that the code dereferences and failed assertions are [None]. *)

From S2P Require Import Prelude Dict Listpack Zskiplist Zzl.

Local Open Scope Z_scope.

Record zset := mk_zset { zs_dict : dict bytes addr; zs_zsl : zskiplist }.

(** [zobj->encoding] with [zobj->ptr]. *)
Inductive zset_object :=
  | ZsetListpack (zl : bytes)
  | ZsetSkiplist (zs : zset).

Inductive zset_encoding := OBJ_ENCODING_LISTPACK | OBJ_ENCODING_SKIPLIST.

(** The flags of [zsetAdd]. *)
Definition ZADD_IN_INCR : Z := Z.shiftl 1 0.
Definition ZADD_IN_NX : Z := Z.shiftl 1 1.
Definition ZADD_IN_XX : Z := Z.shiftl 1 2.
Definition ZADD_IN_GT : Z := Z.shiftl 1 3.
Definition ZADD_IN_LT : Z := Z.shiftl 1 4.
Definition ZADD_OUT_NOP : Z := Z.shiftl 1 0.
Definition ZADD_OUT_NAN : Z := Z.shiftl 1 1.
Definition ZADD_OUT_ADDED : Z := Z.shiftl 1 2.
Definition ZADD_OUT_UPDATED : Z := Z.shiftl 1 3.

Definition has_flag (flags f : Z) : bool := negb (Z.eqb (Z.land flags f) 0).

(** The returned value, [*out_flags] and [*newscore] when it is written. *)
Record zadd_result := mk_added { za_ret : bool; za_flags : Z; za_newscore : option double }.

Inductive zadd_decision := AddNop | AddNan | AddScore (s : double).

(** What becomes of the score of a member that is there. *)
Definition zadd_decide (incr gt lt : bool) (score curscore : double) : zadd_decision :=
  let score := if incr then SFadd 53 1024 score curscore else score in
  if incr && isnan score then AddNan
  else if (lt && SFleb curscore score) || (gt && SFleb score curscore) then AddNop
  else AddScore score.

Section zset.

(** As in the listpacks of pairs. *)
Context (junk : nat → Z) (strtod : bytes → double) (fpconv_dtoa : double → bytes).
(** The functions of the dictionary and the global setting of dict.c. *)
Context (dt : dictType bytes) (can : dictResizeEnable).
(** The configuration. *)
Context (zset_max_listpack_entries zset_max_listpack_value : Z).
(** The results of [random()] in the calls of [zslRandomLevel], counted from 0 on. *)
Context (rnd : nat → list Z).

(** ** Creation and conversion *)

Definition createZsetObject (h : heap) : heap * zset :=
  let '(h, z) := zslCreate h in (h, mk_zset dictCreate z).

Definition zsetLength (o : zset_object) : option (zset_object * Z) :=
  match o with
  | ZsetListpack zl => '(zl, n) ← zzlLength zl; Some (ZsetListpack zl, n)
  | ZsetSkiplist zs => Some (o, zsl_length (zs_zsl zs))
  end.

(** [zslInsert] followed by [serverAssert(dictAdd(...) == DICT_OK)]. *)
Definition zset_put (h : heap) (zs : zset) (k : nat) (s : double) (e : bytes) : option (heap * zset) :=
  lvl ← zslRandomLevel (rnd k);
  '(h, z, node) ← zslInsert h (zs_zsl zs) lvl s e;
  '(d, ok) ← dictAdd dt can (zs_dict zs) e node;
  if ok : bool then Some (h, mk_zset d z) else None.

(** The loop over the pairs of the listpack. *)
Fixpoint zset_fill_loop (fuel : nat) (h : heap) (zs : zset) (zl : bytes) (p : option (Z * Z)) (k : nat)
    : option (heap * zset * nat) :=
  match p with
  | None => Some (h, zs, k)
  | Some (eptr, sptr) =>
      match fuel with
      | O => None
      | S fuel =>
          score ← zzlGetScore strtod zl sptr;
          ele ← lpGetObject zl eptr;
          '(h, zs) ← zset_put h zs k score ele;
          p ← zzlNext zl sptr;
          zset_fill_loop fuel h zs zl p (S k)
      end
  end.

Definition zset_to_skiplist (h : heap) (zl : bytes) (cap : Z) : option (heap * zset * nat) :=
  let '(h, z) := zslCreate h in
  '(d, _) ← dictExpand dictCreate cap;
  eptr ← lpSeek zl 0;
  p ← (match eptr with
       | Some eptr => sptr ← not_null (lpNext zl eptr); Some (Some (eptr, sptr))
       | None => Some None
       end);
  zset_fill_loop (length zl) h (mk_zset d z) zl p 0.

(** The loop over the nodes, which are freed. *)
Fixpoint zset_drain_loop (fuel : nat) (h : heap) (zl : bytes) (node : option addr) : option (heap * bytes) :=
  match node with
  | None => Some (h, zl)
  | Some x =>
      match fuel with
      | O => None
      | S fuel =>
          n ← h !! x;
          e ← ele n;
          zl ← zzlInsertAt junk fpconv_dtoa zl None e (score n);
          l ← level n !! 0%nat;
          h ← zslFreeNode h x;
          zset_drain_loop fuel h zl (forward l)
      end
  end.

(** The dictionary is released: its keys are freed with the nodes. *)
Definition zset_to_listpack (h : heap) (zs : zset) : option (heap * bytes) :=
  zl ← lpNew junk 0;
  l ← get_level h (zsl_header (zs_zsl zs)) 0;
  let h := delete (zsl_header (zs_zsl zs)) h in
  zset_drain_loop (size h) h zl (forward l).

(** With the number of random levels used. *)
Definition zsetConvertAndExpand (h : heap) (o : zset_object) (encoding : zset_encoding) (cap : Z)
    : option (heap * zset_object * nat) :=
  match o, encoding with
  | ZsetListpack zl, OBJ_ENCODING_SKIPLIST =>
      '(h, zs, k) ← zset_to_skiplist h zl cap; Some (h, ZsetSkiplist zs, k)
  | ZsetSkiplist zs, OBJ_ENCODING_LISTPACK =>
      '(h, zl) ← zset_to_listpack h zs; Some (h, ZsetListpack zl, 0%nat)
  | _, _ => Some (h, o, 0%nat)
  end.

Definition zsetConvert (h : heap) (o : zset_object) (encoding : zset_encoding) : option (heap * zset_object * nat) :=
  '(o, n) ← zsetLength o; zsetConvertAndExpand h o encoding n.

Definition zsetTypeCreate (h : heap) (size_hint val_len_hint : Z) : option (heap * zset_object) :=
  if bool_decide (size_hint ≤ zset_max_listpack_entries) && bool_decide (val_len_hint ≤ zset_max_listpack_value) then
    zl ← lpNew junk 0; Some (h, ZsetListpack zl)
  else
    let '(h, zs) := createZsetObject h in
    '(d, _) ← dictExpand (zs_dict zs) size_hint;
    Some (h, ZsetSkiplist (mk_zset d (zs_zsl zs))).

Definition zsetTypeMaybeConvert (h : heap) (o : zset_object) (size_hint : Z) : option (heap * zset_object * nat) :=
  match o with
  | ZsetListpack _ =>
      if decide (size_hint > zset_max_listpack_entries) then zsetConvertAndExpand h o OBJ_ENCODING_SKIPLIST size_hint
      else Some (h, o, 0%nat)
  | ZsetSkiplist _ => Some (h, o, 0%nat)
  end.

Definition zsetConvertToListpackIfNeeded (h : heap) (o : zset_object) (maxelelen totelelen : Z)
    : option (heap * zset_object * nat) :=
  match o with
  | ZsetListpack _ => Some (h, o, 0%nat)
  | ZsetSkiplist zs =>
      safe ← lpSafeToAdd None totelelen;
      if bool_decide (zsl_length (zs_zsl zs) ≤ zset_max_listpack_entries) &&
         bool_decide (maxelelen ≤ zset_max_listpack_value) && safe
      then zsetConvert h o OBJ_ENCODING_LISTPACK
      else Some (h, o, 0%nat)
  end.

(** ** Scores *)

(** [*(double* )dictGetVal(de)], by way of the node. *)
Definition zset_entry_score (h : heap) (d : dict bytes addr) (de : entry_ref) : option double :=
  e ← deref d de; v ← dictGetVal e; x ← v; n ← h !! x; Some (score n).

Definition zsetScore (h : heap) (o : zset_object) (member : bytes) : option (zset_object * option double) :=
  match o with
  | ZsetListpack zl => r ← zzlFind strtod zl member; Some (o, option_map snd r)
  | ZsetSkiplist zs =>
      '(d, de) ← dictFind dt can (zs_dict zs) member;
      let o := ZsetSkiplist (mk_zset d (zs_zsl zs)) in
      match de with
      | None => Some (o, None)
      | Some de => s ← zset_entry_score h d de; Some (o, Some s)
      end
  end.

(** ** Addition *)

(** The part of [zsetAdd] on a skip list, with the next random level. *)
Definition zset_add_skiplist (h : heap) (zs : zset) (k : nat) (score : double) (ele : bytes) (in_flags : Z)
    : option (heap * zset_object * zadd_result) :=
  let incr := has_flag in_flags ZADD_IN_INCR in
  let nx := has_flag in_flags ZADD_IN_NX in
  let xx := has_flag in_flags ZADD_IN_XX in
  let gt := has_flag in_flags ZADD_IN_GT in
  let lt := has_flag in_flags ZADD_IN_LT in
  '(d, de) ← dictFind dt can (zs_dict zs) ele;
  let zs := mk_zset d (zs_zsl zs) in
  match de with
  | Some de =>
      if nx then Some (h, ZsetSkiplist zs, mk_added true ZADD_OUT_NOP None)
      else
        curscore ← zset_entry_score h d de;
        match zadd_decide incr gt lt score curscore with
        | AddNan => Some (h, ZsetSkiplist zs, mk_added false ZADD_OUT_NAN None)
        | AddNop => Some (h, ZsetSkiplist zs, mk_added true ZADD_OUT_NOP None)
        | AddScore score =>
            if negb (SFeqb score curscore) then
              lvl ← zslRandomLevel (rnd k);
              '(h, z, znode) ← zslUpdateScore h (zs_zsl zs) lvl curscore ele score;
              d ← dictSetVal d de znode;
              Some (h, ZsetSkiplist (mk_zset d z), mk_added true ZADD_OUT_UPDATED (Some score))
            else Some (h, ZsetSkiplist zs, mk_added true 0 (Some score))
        end
  | None =>
      if negb xx then
        '(h, zs) ← zset_put h zs k score ele;
        Some (h, ZsetSkiplist zs, mk_added true ZADD_OUT_ADDED (Some score))
      else Some (h, ZsetSkiplist zs, mk_added true ZADD_OUT_NOP None)
  end.

(** The element is too long or the listpack becomes too long. *)
Definition zset_must_convert (zl ele : bytes) : option (bytes * bool) :=
  '(zl, n) ← zzlLength zl;
  if decide (u32 (n + 1) > zset_max_listpack_entries) then Some (zl, true)
  else if decide (zlen ele > zset_max_listpack_value) then Some (zl, true)
  else safe ← lpSafeToAdd (Some zl) (zlen ele); Some (zl, negb safe).

Definition zsetAdd (h : heap) (o : zset_object) (score : double) (ele : bytes) (in_flags : Z)
    : option (heap * zset_object * zadd_result) :=
  let incr := has_flag in_flags ZADD_IN_INCR in
  let nx := has_flag in_flags ZADD_IN_NX in
  let xx := has_flag in_flags ZADD_IN_XX in
  let gt := has_flag in_flags ZADD_IN_GT in
  let lt := has_flag in_flags ZADD_IN_LT in
  if isnan score then Some (h, o, mk_added false ZADD_OUT_NAN None)
  else
    match o with
    | ZsetListpack zl =>
        r ← zzlFind strtod zl ele;
        match r with
        | Some (eptr, curscore) =>
            if nx then Some (h, o, mk_added true ZADD_OUT_NOP None)
            else
              match zadd_decide incr gt lt score curscore with
              | AddNan => Some (h, o, mk_added false ZADD_OUT_NAN None)
              | AddNop => Some (h, o, mk_added true ZADD_OUT_NOP None)
              | AddScore score =>
                  if negb (SFeqb score curscore) then
                    zl ← zzlDelete junk zl eptr;
                    zl ← zzlInsert junk strtod fpconv_dtoa zl ele score;
                    Some (h, ZsetListpack zl, mk_added true ZADD_OUT_UPDATED (Some score))
                  else Some (h, o, mk_added true 0 (Some score))
              end
        | None =>
            if negb xx then
              '(zl, convert) ← zset_must_convert zl ele;
              if convert : bool then
                '(o, n) ← zsetLength (ZsetListpack zl);
                '(h, o, k) ← zsetConvertAndExpand h o OBJ_ENCODING_SKIPLIST (u64 (n + 1));
                match o with
                | ZsetSkiplist zs => zset_add_skiplist h zs k score ele in_flags
                | ZsetListpack _ => None
                end
              else
                zl ← zzlInsert junk strtod fpconv_dtoa zl ele score;
                Some (h, ZsetListpack zl, mk_added true ZADD_OUT_ADDED (Some score))
            else Some (h, o, mk_added true ZADD_OUT_NOP None)
        end
    | ZsetSkiplist zs => zset_add_skiplist h zs 0 score ele in_flags
    end.

(** ** Deletion *)

(** The score is read before the entry of the dictionary is freed. *)
Definition zsetRemoveFromSkiplist (h : heap) (zs : zset) (ele : bytes) : option (heap * zset * bool) :=
  '(d, de) ← dictUnlink dt can (zs_dict zs) ele;
  match de with
  | Some de =>
      v ← dictGetVal de; x ← v; n ← h !! x;
      '(h, z, r) ← zslDelete h (zs_zsl zs) (score n) ele false;
      match r with Some _ => Some (h, mk_zset d z, true) | None => None end
  | None => Some (h, mk_zset d (zs_zsl zs), false)
  end.

Definition zsetDel (h : heap) (o : zset_object) (ele : bytes) : option (heap * zset_object * bool) :=
  match o with
  | ZsetListpack zl =>
      r ← zzlFind strtod zl ele;
      match r with
      | Some (eptr, _) => zl ← zzlDelete junk zl eptr; Some (h, ZsetListpack zl, true)
      | None => Some (h, o, false)
      end
  | ZsetSkiplist zs =>
      '(h, zs, removed) ← zsetRemoveFromSkiplist h zs ele;
      if removed : bool then
        d ← (if htNeedsResize (zs_dict zs) then '(d, _) ← dictResize can (zs_dict zs); Some d else Some (zs_dict zs));
        Some (h, ZsetSkiplist (mk_zset d (zs_zsl zs)), true)
      else Some (h, ZsetSkiplist zs, false)
  end.

(** ** Ranks *)

Fixpoint zset_rank_loop (fuel : nat) (zl ele : bytes) (p : option (Z * Z)) (rank : Z) : option (option (Z * Z)) :=
  match p with
  | None => Some None
  | Some (eptr, sptr) =>
      match fuel with
      | O => None
      | S fuel =>
          b ← lpCompare zl eptr ele;
          if b : bool then Some (Some (sptr, rank))
          else p ← zzlNext zl sptr; zset_rank_loop fuel zl ele p (u64 (rank + 1))
      end
  end.

(** The rank from the front or from the back, as a [long]. *)
Definition rank_result (reverse : bool) (llen rank : Z) : Z :=
  s64 (u64 (if reverse then llen - rank else rank - 1)).

(** The rank with [*output_score] when it is written. *)
Definition zsetRank (h : heap) (o : zset_object) (ele : bytes) (reverse : bool)
    : option (zset_object * Z * option double) :=
  '(o, llen) ← zsetLength o;
  match o with
  | ZsetListpack zl =>
      eptr ← not_null (lpSeek zl 0);
      sptr ← not_null (lpNext zl eptr);
      r ← zset_rank_loop (length zl) zl ele (Some (eptr, sptr)) 1;
      match r with
      | Some (sptr, rank) => s ← zzlGetScore strtod zl sptr; Some (o, rank_result reverse llen rank, Some s)
      | None => Some (o, -1, None)
      end
  | ZsetSkiplist zs =>
      '(d, de) ← dictFind dt can (zs_dict zs) ele;
      let o := ZsetSkiplist (mk_zset d (zs_zsl zs)) in
      match de with
      | Some de =>
          s ← zset_entry_score h d de;
          rank ← zslGetRank h (zs_zsl zs) s ele;
          if decide (rank = 0) then None else Some (o, rank_result reverse llen rank, Some s)
      | None => Some (o, -1, None)
      end
  end.

End zset.
