(* ===== verification/ZsetInv.v ===== *)
(** * t_zset.c: what a sorted set object stands for

In both encodings the object stands for a map from members to scores.  A skip list and its
dictionary agree: the dictionary maps every member to the node that holds it. *)

From S2P Require Import Prelude Dict DictInv DictOps DictLife Util Listpack ListpackEnc ListpackOps ListpackMod ListpackBulk.
From S2P Require Import Zskiplist ZslInv ZslIns ZslDel ZslOps ZslRange ZslDelRange Zzl ZzlInv ZzlRange ZzlOps ZzlRefine ScoreArith Zset.

Local Open Scope Z_scope.

(** What the program relies on from [strtod] and [fpconv_dtoa]: the text of a score is read
    back as the score. *)
Class ScoreText (strtod : bytes → double) (fpconv_dtoa : double → bytes) : Prop :=
  score_text s : valid_double s → isnan s = false → reads_back strtod fpconv_dtoa s.

(** The type of the dictionary of a sorted set: values, and keys at any address. *)
Class ZsetDictType (dt : dictType bytes) : Prop := {
  zset_type_ok :: DictTypeOk dt;
  zset_type_value : no_value dt = false;
  zset_type_odd : keys_are_odd dt = false;
}.

(** Every call of [random()] that draws a level ends. *)
Class RandomLevels (rnd : nat → list Z) : Prop := random_level_some k : is_Some (zslRandomLevel (rnd k)).

(** An upper bound for the size of the pairs in a listpack. *)
Fixpoint text_bound (l : list (bytes * double)) : Z :=
  match l with [] => 0 | p :: l => zlen (fst p) + 200 + text_bound l end.

Global Instance text_bound_perm : Proper ((≡ₚ) ==> eq) text_bound.
Proof. induction 1; simpl; lia. Qed.

Lemma text_bound_nonneg l : 0 ≤ text_bound l.
Proof. induction l; simpl; lia. Qed.

Lemma text_bound_delete (m : zmap) e s :
  m !! e = Some s → text_bound (map_to_list m) = zlen e + 200 + text_bound (map_to_list (delete e m)).
Proof. intros He. by rewrite <- (map_to_list_delete m e s He). Qed.

Lemma text_bound_zeq (m m' : zmap) : zeq m m' → text_bound (map_to_list m) = text_bound (map_to_list m').
Proof.
  revert m'. induction m as [|e s m He IH] using map_ind; intros m' Hzeq.
  - assert (m' = ∅) as -> by (apply map_size_empty_inv; rewrite <- (zeq_size _ _ Hzeq); by rewrite map_size_empty). done.
  - pose proof (zeq_lookup _ _ e Hzeq) as Hl. rewrite lookup_insert_eq in Hl. inversion Hl as [? s' _ Hs'|]; subst.
    rewrite (text_bound_delete m' e s') by done. rewrite map_to_list_insert by done. simpl. f_equal. apply IH.
    rewrite <- Hzeq. by rewrite delete_insert_id.
Qed.

(** The scores in the listpack were written by the program: they are short. *)
Definition short_scores (ps : list (lpval * lpval)) : Prop := Forall (λ p, zlen (entry (snd p)) ≤ 150) ps.

Lemma pairs_total strtod ps m :
  pairs_of strtod ps m → short_scores ps → lp_total (flat ps) ≤ 7 + text_bound (map_to_list m).
Proof.
  intros Hm Hs. rewrite <- Hm. unfold lp_total. clear Hm m. induction Hs as [|p ps Hp Hs IH]; [done|].
  rewrite !fmap_cons. cbn [flat mbind list_bind app text_bound]. change (ps ≫= λ p, [fst p; snd p]) with (flat ps). rewrite !body_cons, !length_app.
  pose proof (entry_bound (fst p)). cbn [sn_pair pnode pkey sn_key fst snd] in *. lia.
Qed.

Section repr.
Context (strtod : bytes → double) (dt : dictType bytes) `{!ZsetDictType dt}.

(** The skip list with the nodes [l] and its dictionary. *)
Record zset_inv (F : gset addr) (h : heap) (zs : zset) (l : list snode) (m : zmap) : Prop := {
  zs_inv : zsl_inv h (zs_zsl zs) l;
  zs_nodes : nodes_of l m;
  zs_frame : frame F h (zs_zsl zs) l;
  zs_denotes : dict_denotes dt (zs_dict zs) (Some <$> node_map l);
}.

(** The object holds exactly [m]; the other objects of the heap are at [F]. *)
Definition zobj_holds (F : gset addr) (h : heap) (o : zset_object) (m : zmap) : Prop :=
  match o with
  | ZsetListpack zl => dom h = F ∧ ∃ ps, zzl_inv strtod zl ps ∧ pairs_of strtod ps m ∧ short_scores ps
  | ZsetSkiplist zs => ∃ l, zset_inv F h zs l m
  end.

(** The object stands for [m], up to the sign of zero. *)
Definition zobj_repr (F : gset addr) (h : heap) (o : zset_object) (m : zmap) : Prop :=
  ∃ m', zobj_holds F h o m' ∧ map_Forall (λ _, valid_double) m' ∧ zeq m' m.

(** ** The dictionary *)

Lemma zset_size F h zs l m : zset_inv F h zs l m → dictSize (zs_dict zs) = Z.of_nat (size m).
Proof.
  intros [_ Hm _ [Hwf Hd]]. rewrite <- (dict_map_size dt _ Hwf), Hd, map_size_fmap. f_equal. rewrite <- (nodes_length _ _ Hm).
  unfold node_map. rewrite map_size_list_to_map by by eapply member_addrs_nodup. apply length_fmap.
Qed.

(** The entry of a member leads to its node and score. *)
Lemma zset_find_ok can F h zs l m e :
  zset_inv F h zs l m →
  ∃ d r, dictFind dt can (zs_dict zs) e = Some (d, r) ∧ zset_inv F h (mk_zset d (zs_zsl zs)) l m ∧
    match r with
    | None => m !! e = None
    | Some de => ∃ s x, m !! e = Some s ∧ zset_entry_score h d de = Some s ∧ ref_to d de e (Some x) ∧ node_map l !! e = Some x
    end.
Proof.
  intros [Hinv Hm HF Hd]. destruct (dictFind_ok dt can (zs_dict zs) _ e Hd) as (d & r & Hfind & Hd' & Hr).
  exists d, r. split_and!; [done|by split|]. rewrite lookup_fmap in Hr. destruct r as [de|].
  - destruct Hr as (v & Hr & Hv). destruct (node_map l !! e) as [x|] eqn:Hx; [|done]. injection Hv as <-.
    pose proof Hx as (k & sn & Hk & He & Ha)%(node_map_lookup _ _ _ _ Hm). exists (fst (sn_key sn)), x. split_and!; [|..|done|done].
    + rewrite <- He. by eapply nodes_get.
    + destruct (ref_to_deref _ _ _ _ Hr) as (en & Hen & _ & Hval). unfold zset_entry_score. rewrite Hen. bind_simpl.
      destruct en as [| | |k' v' n]; [done..|]. simpl in Hval. subst v'. cbn [dictGetVal mbind option_bind].
      destruct (node_score _ _ _ _ _ Hinv Hk) as (n' & Hn' & Hs). rewrite <- Ha, Hn'. bind_simpl. by rewrite Hs.
  - apply (node_map_none _ _ _ Hm). by destruct (node_map l !! e).
Qed.

(** The node of an element that gets a new score. *)
Lemma zset_set_val_ok d r e M (x y : addr) :
  dict_denotes dt d (Some <$> M) → ref_to d r e (Some x) →
  ∃ d', dictSetVal d r y = Some d' ∧ dict_denotes dt d' (Some <$> <[e := y]> M).
Proof.
  intros [Hwf Hd] Hr. destruct (set_val_ok dt d r e (Some x) y Hwf zset_type_value Hr) as (d' & R & Hs & Hwf' & HR & HR' & _).
  exists d'. split; [done|]. split; [done|]. rewrite (dict_map_perm dt _ _ Hwf' HR'). simpl. rewrite fmap_insert, <- Hd.
  rewrite (dict_map_perm dt _ _ Hwf HR). simpl. by rewrite insert_insert_eq.
Qed.

(** A new element. *)
Lemma zset_put_ok can rnd `{!RandomLevels rnd} F h zs l m k s e :
  zset_inv F h zs l m → isnan s = false → m !! e = None → Z.of_nat (size m) < 2 ^ 60 →
  ∃ h' zs' l', zset_put dt can rnd h zs k s e = Some (h', zs') ∧ zset_inv F h' zs' l' (<[e := s]> m).
Proof.
  intros Hz Hs He Hsize. pose proof Hz as [Hinv Hm HF Hd]. unfold zset_put. destruct (random_level_some k) as [lvl Hlvl]. rewrite Hlvl. bind_simpl.
  destruct (insert_nodes F h (zs_zsl zs) l m lvl s e Hinv Hm HF (random_level_range _ _ Hlvl) Hs) as
    (h' & z' & x & j & -> & Hinv' & Hm' & HF' & _); [range_lia|done|]. bind_simpl.
  destruct (dictAdd_ok dt can (zs_dict zs) _ e x Hd) as (d' & Hadd & Hd').
  - unfold key_ok. rewrite (zset_type_odd (dt := dt)). done.
  - by rewrite (zset_size _ _ _ _ _ Hz).
  - assert ((Some <$> node_map l) !! e = None) as Hn by (rewrite lookup_fmap, (proj2 (node_map_none _ _ _ Hm) He); done).
    rewrite bool_decide_true in Hadd, Hd' by done. rewrite Hadd. bind_simpl. eexists h', _, _. split; [done|]. split; [done..|].
    simpl. rewrite (node_map_insert _ _ _ _ _ _ _ Hm He), fmap_insert. unfold stored_val in Hd'. rewrite (zset_type_value (dt := dt)) in Hd'. exact Hd'.
Qed.

(** The empty dictionary, with room for [cap] entries. *)
Lemma zset_expand_ok (d : dict bytes addr) cap :
  dict_denotes dt d ∅ → cap < LLONG_MAX → ∃ d' ok, dictExpand d cap = Some (d', ok) ∧ dict_denotes dt d' ∅.
Proof.
  intros [Hwf Hd] Hcap. destruct (expand_ok dt d cap None Hwf Hcap) as (d' & ok & mf & He & Hwf' & Hent & _).
  exists d', ok. unfold dictExpand. rewrite He. split; [done|]. split; [done|]. rewrite <- Hd. apply (dict_map_same dt); [done|by rewrite Hent].
Qed.

Lemma zset_create_ok h :
  let '(h', zs) := createZsetObject h in zset_inv (dom h) h' zs [] ∅.
Proof.
  pose proof (zslCreate_ok h) as Hc. unfold createZsetObject. destruct (zslCreate h) as [h' z]. destruct Hc as [H1 H2]. split; [done| |done|].
  - unfold nodes_of. by rewrite map_to_list_empty.
  - simpl. unfold node_map. simpl. rewrite fmap_empty. apply dict_create_denotes.
Qed.

End repr.
