(* ===== verification/ZsetConv.v ===== *)
(** * t_zset.c: conversions between the encodings of a sorted set *)

From S2P Require Import Prelude Dict DictInv DictOps DictLife Util Listpack ListpackEnc ListpackOps ListpackMod ListpackBulk.
From S2P Require Import Zskiplist ZslInv ZslIns ZslDel ZslOps ZslRange ZslDelRange Zzl ZzlInv ZzlRange ZzlOps ZzlRefine ScoreArith Zset ZsetInv.

Local Open Scope Z_scope.

(** ** Walking over the pairs of a listpack *)

Section pairs.
Context (strtod : bytes → double) (zl : bytes) (ps : list (lpval * lpval)) (m : zmap).
Context (Hinv : zzl_inv strtod zl ps) (Hm : pairs_of strtod ps m).

Local Abbreviation pkey := (pkey strtod).

(** The pointers to the member and the score of pair [i]. *)
Definition pair_ptr (i : nat) : option (Z * Z) := if decide (i < length ps)%nat then Some (epos ps i, spos ps i) else None.

Lemma zz_next_ok i : (i < length ps)%nat → zzlNext zl (spos ps i) = Some (pair_ptr (S i)).
Proof.
  intros Hi. pose proof (zz_lp _ _ _ Hinv) as Hlp. unfold zzlNext. rewrite (zz_next_pair zl ps Hlp i Hi). bind_simpl.
  unfold eptr_at, pair_ptr. case_decide as Hd; [|done]. unfold not_null. by rewrite (zz_next zl ps Hlp (S i) Hd).
Qed.

Lemma zz_first_ok :
  (eptr ← lpSeek zl 0;
   match eptr with Some eptr => sptr ← not_null (lpNext zl eptr); Some (Some (eptr, sptr)) | None => Some None end) = Some (pair_ptr 0).
Proof.
  pose proof (zz_lp _ _ _ Hinv) as Hlp. rewrite (zz_seek_first zl ps Hlp). bind_simpl. unfold eptr_at, pair_ptr. case_decide as Hd; [|done].
  unfold not_null. by rewrite (zz_next zl ps Hlp 0 Hd).
Qed.

(** The number of elements, which the code may store in the header. *)
Lemma zz_length_ok : ∃ zl', zzlLength zl = Some (zl', Z.of_nat (size m)) ∧ zzl_inv strtod zl' ps ∧ lpBytes zl' = lpBytes zl.
Proof.
  pose proof (zz_lp _ _ _ Hinv) as Hlp. destruct (zz_fuel_lt zl ps Hlp) as [_ H31]. pose proof (pairs_length strtod ps m Hm) as Hl.
  pose proof Hlp as (num & sl & -> & Hnum & Hf). destruct (lpLength_ok num (flat ps) sl Hf Hnum) as (num' & Hlen & Hnum').
  exists (lp_of num' (flat ps) sl). unfold zzlLength. rewrite Hlen. bind_simpl. split_and!.
  - rewrite flat_length, Nat2Z.inj_mul, Z.mul_comm, Z.div_mul by lia. rewrite uwrap_small by range_lia. by rewrite Hl.
  - destruct Hinv as [_ H1 H2]. split; [by exists num', sl|done..].
  - unfold lpBytes. by rewrite !lp_of_total.
Qed.

Lemma zz_bytes : lpBytes zl = Some (lp_total (flat ps)).
Proof. destruct (zz_lp _ _ _ Hinv) as (num & sl & -> & _ & Hf). unfold lpBytes. by rewrite lp_of_total. Qed.

(** The pairs before position [i], and the next one. *)
Lemma pairs_next i mi p :
  pairs_of strtod (take i ps) mi → ps !! i = Some p →
  mi !! snd (pkey p) = None ∧ pairs_of strtod (take (S i) ps) (<[snd (pkey p) := fst (pkey p)]> mi).
Proof.
  intros Hmi Hp. assert (mi !! snd (pkey p) = None) as Hnone.
  { destruct (mi !! snd (pkey p)) as [s|] eqn:He; [|done]. apply (pairs_lookup strtod _ _ Hmi) in He as (j & q & Hq & Hk).
    apply lookup_take_Some in Hq as [Hq Hj]. exfalso. enough (j = i) by lia.
    apply (nodes_unique (pnode strtod <$> ps) m j i (pnode strtod q) (pnode strtod p) Hm); [by rewrite list_lookup_fmap, ?Hq, ?Hp..|].
    simpl. by apply (f_equal snd) in Hk. }
  split; [done|]. unfold pairs_of, nodes_of in *. rewrite (take_S_r ps i p Hp), !fmap_app, map_to_list_insert by done.
  rewrite Hmi, Permutation_app_comm. done.
Qed.

End pairs.

(** ** From a listpack to a skip list *)

Section to_skiplist.
Context (strtod : bytes → double) (dt : dictType bytes) `{!ZsetDictType dt} (can : dictResizeEnable).
Context (rnd : nat → list Z) `{!RandomLevels rnd}.
Context (zl : bytes) (ps : list (lpval * lpval)) (m : zmap).
Context (Hinv : zzl_inv strtod zl ps) (Hm : pairs_of strtod ps m) (Hsize : Z.of_nat (size m) < 2 ^ 60).

Lemma fill_loop_ok F n fuel h zs l mi i k :
  (n + i = length ps)%nat → (n ≤ fuel)%nat → zset_inv dt F h zs l mi → pairs_of strtod (take i ps) mi →
  ∃ h' zs' l' k', zset_fill_loop strtod dt can rnd fuel h zs zl (pair_ptr ps i) k = Some (h', zs', k') ∧ zset_inv dt F h' zs' l' m.
Proof.
  pose proof (zz_lp _ _ _ Hinv) as Hlp. revert fuel h zs l mi i k. induction n as [|n IH]; intros fuel h zs l mi i k Hn Hfuel Hz Hmi.
  - exists h, zs, l, k. unfold pair_ptr. rewrite decide_False by lia. split; [by destruct fuel|].
    rewrite take_ge in Hmi by lia. by rewrite (nodes_of_inj _ _ _ Hm Hmi).
  - destruct fuel as [|fuel]; [lia|]. unfold pair_ptr. rewrite decide_True by lia. cbn [zset_fill_loop].
    destruct (lookup_lt_is_Some_2 ps i ltac:(lia)) as [p Hp]. rewrite (zz_score strtod zl ps Hlp i p Hp). bind_simpl.
    rewrite (zz_object strtod zl ps Hlp i p Hp). bind_simpl. destruct (pairs_next strtod ps m Hm i mi p Hmi Hp) as [Hnone Hmi'].
    pose proof (zz_scores _ _ _ Hinv) as Hnan. eapply Forall_lookup_1 in Hnan; [|done].
    assert (Z.of_nat (size mi) < 2 ^ 60) as Hs.
    { rewrite <- (pairs_length strtod _ _ Hmi), length_take. rewrite <- (pairs_length strtod _ _ Hm) in Hsize. lia. }
    destruct (zset_put_ok dt can rnd F h zs l mi k _ _ Hz Hnan Hnone Hs) as (h1 & zs1 & l1 & -> & Hz1). bind_simpl.
    rewrite (zz_next_ok strtod zl ps Hinv i) by lia. bind_simpl. eapply IH; [lia|lia|done|done].
Qed.

Lemma to_skiplist_ok h cap :
  cap < LLONG_MAX →
  ∃ h' zs l k, zset_to_skiplist strtod dt can rnd h zl cap = Some (h', zs, k) ∧ zset_inv dt (dom h) h' zs l m.
Proof.
  intros Hcap. unfold zset_to_skiplist. pose proof (zset_create_ok dt h) as Hc. unfold createZsetObject in Hc.
  destruct (zslCreate h) as [h1 z1] eqn:Hcr. destruct Hc as [Hi1 Hm1 HF1 Hd1]. simpl in *.
  unfold node_map in Hd1. simpl in Hd1. rewrite fmap_empty in Hd1. destruct (zset_expand_ok dt _ cap Hd1 Hcap) as (d & ok & -> & Hd). bind_simpl.
  pose proof (zz_first_ok strtod zl ps Hinv) as Hfirst. destruct (lpSeek zl 0) as [eptr|]; [|done]. bind_simpl. cbn [mbind option_bind] in Hfirst.
  rewrite Hfirst. bind_simpl. pose proof (zz_fuel zl ps (zz_lp _ _ _ Hinv)).
  destruct (fill_loop_ok (dom h) (length ps) (length zl) h1 (mk_zset d z1) [] ∅ 0 0) as (h' & zs' & l' & k' & Hf & Hz);
    [lia|done| | |by exists h', zs', l', k'].
  - split; [done..|]. simpl. unfold node_map. simpl. by rewrite fmap_empty.
  - unfold pairs_of, nodes_of. by rewrite map_to_list_empty.
Qed.

End to_skiplist.

(** ** From a skip list to a listpack *)

Section to_listpack.
Context (junk : nat → Z) (strtod : bytes → double) (fpconv_dtoa : double → bytes) `{!ScoreText strtod fpconv_dtoa}.

(** The pair of a node, and the score that it is read back as. *)
Definition node_pair (sn : snode) : lpval * lpval := (lp_norm (snd (sn_key sn)), score_entry fpconv_dtoa (fst (sn_key sn))).
Definition read_score (s : double) : double := value_score strtod (score_entry fpconv_dtoa s).

Lemma read_score_ok s : valid_double s → isnan s = false → feq (read_score s) s ∧ valid_double (read_score s).
Proof.
  intros Hv Hn. destruct (score_entry_ok strtod fpconv_dtoa s (score_text s Hv Hn)) as [Hf _]. split; [done|].
  eapply feq_valid; [symmetry; exact Hf|done].
Qed.

Definition node_ready (h : heap) (r : list snode) (j : nat) (sn : snode) : Prop :=
  ∃ n lv, h !! sn_addr sn = Some n ∧ ele n = Some (snd (sn_key sn)) ∧ score n = fst (sn_key sn) ∧
    level n !! 0%nat = Some lv ∧ forward lv = sn_addr <$> r !! S j.

Lemma drain_loop_ok (r : list snode) fuel h zl ps :
  NoDup (sn_addr <$> r) → (∀ j sn, r !! j = Some sn → node_ready h r j sn) → (length r ≤ fuel)%nat →
  Forall (λ sn, valid_double (fst (sn_key sn)) ∧ isnan (fst (sn_key sn)) = false) r →
  lp_repr zl (flat ps) → lp_total (flat ps) + text_bound (sn_pair <$> r) ≤ 2 ^ 31 →
  ∃ h' zl', zset_drain_loop junk fpconv_dtoa fuel h zl (sn_addr <$> head r) = Some (h', zl') ∧
    lp_repr zl' (flat (ps ++ (node_pair <$> r))) ∧ ∀ a, is_Some (h' !! a) ↔ is_Some (h !! a) ∧ a ∉ sn_addr <$> r.
Proof.
  revert fuel h zl ps. induction r as [|sn r IH]; intros fuel h zl ps Hnd Hready Hfuel Hok Hlp Hroom.
  { exists h, zl. split; [by destruct fuel|]. rewrite app_nil_r. split; [done|]. set_solver. }
  destruct fuel as [|fuel]; [simpl in Hfuel; lia|]. rewrite fmap_cons, NoDup_cons in Hnd. destruct Hnd as [Hnot Hnd].
  apply Forall_cons in Hok as [[Hv Hn] Hok]. destruct (Hready 0%nat sn eq_refl) as (n & lv & Hsn & He & Hs & Hlv & Hf).
  cbn [head fmap option_fmap option_map zset_drain_loop]. rewrite Hsn. bind_simpl. rewrite He. bind_simpl. rewrite Hs.
  cbn [text_bound fmap list_fmap sn_pair fst] in Hroom. pose proof (text_bound_nonneg (sn_pair <$> r)) as Hnn.
  destruct (zzlInsertAt_ok junk strtod fpconv_dtoa zl ps (length ps) (snd (sn_key sn)) (fst (sn_key sn)) Hlp (score_text _ Hv Hn)) as (zl1 & Hat & Hlp1);
    [lia|lia|]. unfold eptr_at in Hat. rewrite decide_False in Hat by lia. rewrite Hat. bind_simpl. rewrite Hlv. bind_simpl.
  unfold zslFreeNode. rewrite Hsn. bind_simpl. rewrite Hf. change (r !! 0%nat) with ((sn :: r) !! 1%nat). simpl. rewrite <- head_lookup.
  unfold insert_pair in Hlp1. rewrite firstn_all, skipn_all in Hlp1. fold (node_pair sn) in Hlp1.
  destruct (IH fuel (delete (sn_addr sn) h) zl1 (ps ++ [node_pair sn])) as (h' & zl' & -> & Hlp' & Hdom); [done| |simpl in Hfuel; lia|done|done| |].
  - intros j sn' Hj. destruct (Hready (S j) sn' Hj) as (n' & lv' & Hn' & Hrest). exists n', lv'. split; [|done].
    rewrite lookup_delete_ne; [done|]. intros Heq. apply Hnot. rewrite Heq. apply list_elem_of_fmap. exists sn'. split; [done|].
    by eapply list_elem_of_lookup_2.
  - rewrite flat_app, lp_total_app. unfold node_pair. cbn [flat mbind list_bind app fst snd]. unfold body. simpl. rewrite app_nil_r, length_app.
    pose proof (norm_bound (snd (sn_key sn))). destruct (score_entry_ok strtod fpconv_dtoa _ (score_text _ Hv Hn)) as [_ Hsz]. lia.
  - exists h', zl'. split; [done|]. rewrite <- app_assoc in Hlp'. split; [exact Hlp'|]. intros a. rewrite Hdom, not_elem_of_cons.
    destruct (decide (a = sn_addr sn)) as [->|]; [rewrite lookup_delete_eq|rewrite lookup_delete_ne by done; naive_solver].
    split; [by intros [[] _]|by intros (_ & ? & _)].
Qed.

(** The pairs of the nodes stand for the same map up to the sign of zero. *)
Lemma node_pairs_inv h z l m zl :
  zsl_inv h z l → nodes_of l m → map_Forall (λ _, valid_double) m → lp_repr zl (flat (node_pair <$> l)) →
  zzl_inv strtod zl (node_pair <$> l) ∧ pairs_of strtod (node_pair <$> l) (read_score <$> m).
Proof.
  intros Hinv Hm Hv Hlp. assert (∀ sn, pkey strtod (node_pair sn) = (read_score (fst (sn_key sn)), snd (sn_key sn))) as Hkey.
  { intros sn. unfold pkey, node_pair. simpl. by rewrite lp_string_norm. }
  assert (∀ k sn, l !! k = Some sn → feq (read_score (fst (sn_key sn))) (fst (sn_key sn))) as Hfeq.
  { intros k sn Hk. apply read_score_ok; [apply (Hv (snd (sn_key sn))); by eapply nodes_get|by eapply node_nan]. }
  split; [split; [done| |]|].
  - pose proof (zi_sorted _ _ _ Hinv) as Hs. rewrite <- list_fmap_compose. clear Hinv Hm Hlp.
    induction l as [|sn l IH]; [constructor|]. rewrite !fmap_cons in *. apply StronglySorted_inv in Hs as [Hs Hall]. constructor.
    + apply IH; [|done]. intros k sn' Hk. by apply (Hfeq (S k)).
    + rewrite Forall_fmap, Forall_lookup in *. intros j sn' Hj. specialize (Hall j sn' Hj). simpl in *. rewrite !Hkey.
      apply (key_lt_eq_l _ _ _ (feq_key _ _ _ (Hfeq 0%nat sn eq_refl))), (key_lt_eq_r _ _ _ (feq_key _ _ _ (Hfeq (S j) sn' Hj))).
      by destruct (sn_key sn), (sn_key sn').
  - rewrite Forall_fmap, Forall_lookup. intros k sn Hk. unfold compose. rewrite Hkey. cbn [fst]. rewrite (Hfeq k sn Hk). by eapply node_nan.
  - unfold pairs_of, nodes_of. rewrite map_to_list_fmap, <- Hm, <- !list_fmap_compose. apply reflexive_eq. apply list_fmap_ext.
    intros k sn _. unfold compose, sn_pair, pnode. cbn [sn_key]. rewrite Hkey. done.
Qed.

Lemma read_scores_zeq h z l m :
  zsl_inv h z l → nodes_of l m → map_Forall (λ _, valid_double) m →
  zeq (read_score <$> m) m ∧ map_Forall (λ _, valid_double) (read_score <$> m).
Proof.
  intros Hinv Hm Hv. assert (∀ e s, m !! e = Some s → feq (read_score s) s ∧ valid_double (read_score s)) as Hr.
  { intros e s He. apply read_score_ok; [by eapply Hv|by eapply nodes_nan]. }
  split.
  - intros e. rewrite lookup_fmap. destruct (m !! e) as [s|] eqn:He; constructor. by eapply Hr.
  - intros e s He. rewrite lookup_fmap in He. destruct (m !! e) as [s0|] eqn:He0; [|done]. injection He as <-. by eapply Hr.
Qed.

Lemma to_listpack_ok dt F h zs l m :
  zset_inv dt F h zs l m → map_Forall (λ _, valid_double) m → 7 + text_bound (map_to_list m) ≤ 2 ^ 31 →
  ∃ h' zl ps, zset_to_listpack junk fpconv_dtoa h zs = Some (h', zl) ∧ dom h' = F ∧
    zzl_inv strtod zl ps ∧ pairs_of strtod ps (read_score <$> m) ∧ short_scores ps.
Proof.
  intros [Hinv Hm HF _] Hv Hroom. set (z := zs_zsl zs) in *. unfold zset_to_listpack. destruct (lpNew_ok junk 0) as (zl0 & -> & Hlp0). bind_simpl.
  destruct (zi_level _ _ _ Hinv) as [H1 _]. fold z.
  pose proof (zi_links _ _ _ Hinv 0 _ 0%nat eq_refl ltac:(simpl; lia)) as Hl0. simpl in Hl0. rewrite Hl0. bind_simpl.
  rewrite (nxt_zero _ _ _ _ Hinv), <- head_lookup. pose proof (zi_nodup _ _ _ Hinv) as Hnd. unfold with_header in Hnd.
  rewrite fmap_cons, NoDup_cons in Hnd. destruct Hnd as [Hh Hnd].
  destruct (drain_loop_ok l (size (delete (zsl_header z) h)) (delete (zsl_header z) h) zl0 [] Hnd) as (h' & zl & -> & Hlp & Hdom).
  - intros j sn Hj. destruct (zi_nodes _ _ _ Hinv j sn Hj) as (n & Hn & He & Hs & Hlev & _). exists n, (nxt 0 (drop (S j) l)). split_and!; [|done..| |by eapply nxt_zero].
    + rewrite lookup_delete_ne; [done|]. intros Heq. apply Hh. simpl. rewrite Heq. apply list_elem_of_fmap. exists sn. split; [done|]. by eapply list_elem_of_lookup_2.
    + pose proof (zi_heights _ _ _ Hinv) as Hhs. eapply Forall_lookup_1 in Hhs; [|done]. simpl in Hhs.
      pose proof (zi_links _ _ _ Hinv (S j) sn 0 Hj ltac:(lia)) as Hl. unfold get_level in Hl. by rewrite Hn in Hl.
  - pose proof (inv_size h z l Hinv). destruct (zi_header _ _ _ Hinv) as (n & Hn & _). rewrite map_size_delete_Some by eauto. lia.
  - apply Forall_lookup. intros k sn Hk. split; [apply (Hv (snd (sn_key sn))); by eapply nodes_get|by eapply node_nan].
  - done.
  - rewrite Hm. done.
  - destruct (node_pairs_inv h z l m zl Hinv Hm Hv Hlp) as [Hz Hp]. exists h', zl, (node_pair <$> l). split_and!; [done| |done..|].
    + apply set_eq. intros a. rewrite elem_of_dom, Hdom. destruct (HF a) as [Ha HFa]. unfold with_header in *. rewrite fmap_cons in *. simpl in *.
    destruct (decide (a = zsl_header z)) as [->|]; [rewrite lookup_delete_eq|rewrite lookup_delete_ne by done; set_solver].
    split; [by intros [[] _]|]. set_solver.
    + apply Forall_fmap, Forall_lookup. intros k sn Hk. apply (score_entry_ok strtod). apply score_text; [|by eapply node_nan].
      apply (Hv (snd (sn_key sn))). by eapply nodes_get.
Qed.

End to_listpack.
