(* ===== verification/ZsetAdd.v ===== *)
(** * t_zset.c: addition to a sorted set in either encoding *)

From S2P Require Import Prelude Dict DictInv DictOps DictLife Util Listpack ListpackEnc ListpackOps ListpackMod ListpackBulk.
From S2P Require Import Zskiplist ZslInv ZslIns ZslDel ZslOps ZslRange ZslDelRange Zzl ZzlInv ZzlRange ZzlOps ZzlRefine ScoreArith.
From S2P Require Import Zset ZsetInv ZsetConv.

Local Open Scope Z_scope.

(** ** The effect of an addition on the map *)

(** As the comment of [zsetAdd] describes the flags: NX only adds, XX only updates, GT and LT only
    let a score increase or decrease, INCR adds to the current score. *)
Definition zadd_spec (m : zmap) (score : double) (ele : bytes) (in_flags : Z) : zmap * zadd_result :=
  let flag := has_flag in_flags in
  let refuse := (m, mk_added true ZADD_OUT_NOP None) in
  if isnan score then (m, mk_added false ZADD_OUT_NAN None)
  else
    match m !! ele with
    | None => if flag ZADD_IN_XX then refuse else (<[ele := score]> m, mk_added true ZADD_OUT_ADDED (Some score))
    | Some cur =>
        let new := if flag ZADD_IN_INCR then SFadd 53 1024 score cur else score in
        if flag ZADD_IN_NX then refuse
        else if isnan new then (m, mk_added false ZADD_OUT_NAN None)
        else if (flag ZADD_IN_GT && negb (SFltb cur new)) || (flag ZADD_IN_LT && negb (SFltb new cur)) then refuse
        else if SFeqb new cur then (m, mk_added true 0 (Some new))
        else (<[ele := new]> m, mk_added true ZADD_OUT_UPDATED (Some new))
    end.

(** Results with equal scores. *)
Definition added_eq (r r' : zadd_result) : Prop :=
  za_ret r = za_ret r' ∧ za_flags r = za_flags r' ∧ option_Forall2 feq (za_newscore r) (za_newscore r').

Lemma zadd_spec_proper m m' score ele flags :
  zeq m m' → zeq (zadd_spec m score ele flags).1 (zadd_spec m' score ele flags).1 ∧
    added_eq (zadd_spec m score ele flags).2 (zadd_spec m' score ele flags).2.
Proof.
  intros Hm. unfold zadd_spec, added_eq. destruct (isnan score); [split; [done|]; split_and!; by constructor|].
  pose proof (zeq_lookup _ _ ele Hm) as He. destruct (m !! ele) as [c|], (m' !! ele) as [c'|]; inversion He as [? ? Hc|]; subst.
  - set (new := if has_flag flags ZADD_IN_INCR then SFadd 53 1024 score c else score).
    set (new' := if has_flag flags ZADD_IN_INCR then SFadd 53 1024 score c' else score).
    assert (feq new new') as Hnew by (unfold new, new'; destruct (has_flag flags ZADD_IN_INCR); [by rewrite Hc|done]).
    rewrite (isnan_proper _ _ Hnew), (SFltb_proper _ _ Hc _ _ Hnew), (SFltb_proper _ _ Hnew _ _ Hc), (SFeqb_proper _ _ Hnew _ _ Hc).
    repeat case_match; (split; [first [exact Hm|by apply zeq_insert]|]); simpl; split_and!; by constructor.
  - case_match; (split; [first [exact Hm|by apply zeq_insert]|]); simpl; split_and!; by constructor.
Qed.

(** ** The decision of the code *)

Section decide.
Context (score cur : double) (Hs : isnan score = false) (Hc : isnan cur = false).

Lemma leb_negb a b : isnan a = false → isnan b = false → SFleb a b = negb (SFltb b a).
Proof.
  intros Ha Hb. apply eq_true_iff_eq. rewrite sfleb_spec by done. rewrite negb_true_iff, <- not_true_iff_false, sfltb_spec by done. done.
Qed.

Lemma decide_score incr gt lt s : zadd_decide incr gt lt score cur = AddScore s → isnan s = false.
Proof. unfold zadd_decide. destruct incr; simpl; repeat case_match; try done; congruence. Qed.

Lemma zadd_spec_found m ele flags :
  m !! ele = Some cur →
  zadd_spec m score ele flags =
    if has_flag flags ZADD_IN_NX then (m, mk_added true ZADD_OUT_NOP None)
    else
      match zadd_decide (has_flag flags ZADD_IN_INCR) (has_flag flags ZADD_IN_GT) (has_flag flags ZADD_IN_LT) score cur with
      | AddNan => (m, mk_added false ZADD_OUT_NAN None)
      | AddNop => (m, mk_added true ZADD_OUT_NOP None)
      | AddScore s =>
          if negb (SFeqb s cur) then (<[ele := s]> m, mk_added true ZADD_OUT_UPDATED (Some s)) else (m, mk_added true 0 (Some s))
      end.
Proof.
  intros He. unfold zadd_spec, zadd_decide. rewrite Hs, He. cbn zeta. destruct (has_flag flags ZADD_IN_NX); [done|].
  set (new := if has_flag flags ZADD_IN_INCR then SFadd 53 1024 score cur else score).
  assert (isnan new = has_flag flags ZADD_IN_INCR && isnan new) as Hn by (unfold new; by destruct (has_flag flags ZADD_IN_INCR)).
  rewrite <- Hn. destruct (isnan new) eqn:Hnew; [done|]. rewrite !leb_negb by done. rewrite orb_comm.
  destruct (_ || _); [done|]. by destruct (SFeqb new cur).
Qed.

End decide.

Lemma zadd_spec_valid m score ele flags :
  map_Forall (λ _, valid_double) m → valid_double score → map_Forall (λ _, valid_double) (zadd_spec m score ele flags).1.
Proof.
  intros Hm Hs. unfold zadd_spec. destruct (isnan score); [done|]. destruct (m !! ele) as [c|] eqn:He.
  - repeat case_match; simpl; try done; apply map_Forall_insert_2; try done; apply add_valid; [done|by eapply Hm].
  - case_match; simpl; [done|]. by apply map_Forall_insert_2.
Qed.

(** ** Addition to a skip list *)

Section add.
Context (junk : nat → Z) (strtod : bytes → double) (fpconv_dtoa : double → bytes) `{!ScoreText strtod fpconv_dtoa}.
Context (dt : dictType bytes) `{!ZsetDictType dt} (can : dictResizeEnable).
Context (max_entries max_value : Z) (rnd : nat → list Z) `{!RandomLevels rnd}.

Lemma add_skiplist_ok F h zs l m k score ele flags :
  zset_inv dt F h zs l m → isnan score = false → Z.of_nat (size m) < 2 ^ 60 →
  ∃ h' zs' l', zset_add_skiplist dt can rnd h zs k score ele flags = Some (h', ZsetSkiplist zs', (zadd_spec m score ele flags).2) ∧
    zset_inv dt F h' zs' l' (zadd_spec m score ele flags).1.
Proof.
  intros Hz Hs Hsize. unfold zset_add_skiplist. destruct (zset_find_ok dt can F h zs l m ele Hz) as (d & r & -> & Hz1 & Hr). bind_simpl.
  destruct r as [de|].
  - destruct Hr as (cur & x & He & Hscore & Href & Hx). pose proof Hz1 as [Hinv Hm HF Hd]. simpl in *.
    pose proof (nodes_nan _ _ _ _ _ _ Hinv Hm He) as Hc. rewrite (zadd_spec_found score cur Hs Hc m ele flags He).
    destruct (has_flag flags ZADD_IN_NX); [by eexists h, _, l|]. rewrite Hscore. bind_simpl.
    destruct (zadd_decide _ _ _ score cur) as [| |s] eqn:Hdec; [by eexists h, _, l..|].
    destruct (negb (SFeqb s cur)); [|by eexists h, _, l]. destruct (random_level_some k) as [lvl Hlvl]. rewrite Hlvl. bind_simpl.
    destruct (update_found F h (zs_zsl zs) l m Hinv Hm HF cur ele Hc lvl (random_level_range _ _ Hlvl) s (decide_score _ _ Hs Hc _ _ _ _ Hdec) cur He eq_refl)
      as (h' & z' & y & -> & (l' & Hinv' & Hm' & HF' & Hmap) & _). bind_simpl.
    destruct (zset_set_val_ok dt d de ele (node_map l) x y Hd Href) as (d' & -> & Hd'). bind_simpl.
    eexists h', _, l'. split; [done|]. split; [done..|]. simpl. by rewrite Hmap.
  - assert (zadd_spec m score ele flags = if has_flag flags ZADD_IN_XX then (m, mk_added true ZADD_OUT_NOP None)
      else (<[ele := score]> m, mk_added true ZADD_OUT_ADDED (Some score))) as -> by (unfold zadd_spec; by rewrite Hs, Hr).
    destruct (has_flag flags ZADD_IN_XX); simpl; [by eexists h, _, l|].
    destruct (zset_put_ok dt can rnd F h (mk_zset d (zs_zsl zs)) l m k score ele Hz1 Hs Hr Hsize) as (h' & zs' & l' & -> & Hz'). bind_simpl.
    by exists h', zs', l'.
Qed.

(** ** Addition to a listpack *)

(** What the configuration allows in a listpack. *)
Definition within_limits (o : zset_object) (m : zmap) : Prop :=
  match o with
  | ZsetListpack _ => Z.of_nat (size m) ≤ max_entries ∧ map_Forall (λ e _, zlen e ≤ max_value) m
  | ZsetSkiplist _ => True
  end.

Lemma limits_zeq o m m' : zeq m m' → within_limits o m → within_limits o m'.
Proof.
  intros Hzeq. destruct o; [|done]. intros [H1 H2]. split; [by rewrite <- (zeq_size _ _ Hzeq)|]. intros e s He.
  pose proof (zeq_lookup _ _ e Hzeq) as Hl. rewrite He in Hl. inversion Hl as [s0 ? _ Hs0|]; subst. by eapply H2.
Qed.

Lemma limits_update zl zl' m e s :
  is_Some (m !! e) → within_limits (ZsetListpack zl) m → within_limits (ZsetListpack zl') (<[e := s]> m).
Proof.
  intros [s0 He] [H1 H2]. split; [by rewrite map_size_insert_Some by eauto|]. apply map_Forall_insert_2; [by apply (H2 e s0)|done].
Qed.

Lemma limits_add zl m e s :
  m !! e = None → Z.of_nat (size m) + 1 ≤ max_entries → zlen e ≤ max_value → map_Forall (λ e _, zlen e ≤ max_value) m →
  within_limits (ZsetListpack zl) (<[e := s]> m).
Proof. intros He H1 H2 H3. split; [rewrite map_size_insert_None by done; lia|by apply map_Forall_insert_2]. Qed.

Lemma must_convert_ok zl ps m ele :
  zzl_inv strtod zl ps → pairs_of strtod ps m → zlen ele < 2 ^ 63 →
  ∃ zl' b, zset_must_convert max_entries max_value zl ele = Some (zl', b) ∧ zzl_inv strtod zl' ps ∧
    (b = false → lp_total (flat ps) + zlen ele ≤ 2 ^ 30 ∧ Z.of_nat (size m) + 1 ≤ max_entries ∧ zlen ele ≤ max_value).
Proof.
  intros Hinv Hm Hele. unfold zset_must_convert. destruct (zz_length_ok strtod zl ps m Hinv Hm) as (zl' & -> & Hinv' & Hb). bind_simpl.
  destruct (zz_fuel_lt zl ps (zz_lp _ _ _ Hinv)) as [_ H31]. pose proof (pairs_length strtod ps m Hm) as Hlen.
  rewrite uwrap_small by range_lia. case_decide; [by eexists _, true|]. case_decide; [by eexists _, true|]. unfold lpSafeToAdd. pose proof (zz_bytes strtod zl' ps Hinv') as Htot.
  unfold lpBytes in Htot. rewrite Htot. bind_simpl. eexists _, _. split; [done|]. split; [done|]. rewrite negb_involutive, bool_decide_eq_false.
  destruct (zz_lp _ _ _ Hinv') as (num & sl & _ & _ & Hf). pose proof (fits_total _ Hf) as Ht. pose proof (lp_pos_bound (flat ps) 0) as Hpos.
  unfold lp_total in *. rewrite uwrap_small by range_lia. change LISTPACK_MAX_SAFETY_SIZE with (2 ^ 30). lia.
Qed.

(** A pair that is inserted. *)
Lemma insert_holds F h zl ps m ele s :
  dom h = F → zzl_inv strtod zl ps → pairs_of strtod ps m → short_scores ps → map_Forall (λ _, valid_double) m → valid_double s → isnan s = false →
  m !! ele = None → lp_total (flat ps) + zlen ele + 200 ≤ 2 ^ 31 →
  ∃ zl' m', zzlInsert junk strtod fpconv_dtoa zl ele s = Some zl' ∧ zobj_holds strtod dt F h (ZsetListpack zl') m' ∧
    map_Forall (λ _, valid_double) m' ∧ zeq m' (<[ele := s]> m).
Proof.
  intros Hdom Hinv Hm Hsh Hv Hs Hn He Hroom.
  destruct (zzlInsert_ok junk strtod fpconv_dtoa zl ps m Hinv Hm ele s (score_text s Hs Hn) He Hroom) as (zl' & k & Hi & Hinv' & Hm').
  destruct (read_score_ok strtod fpconv_dtoa s Hs Hn) as [Hfeq Hval]. exists zl', (<[ele := read_score strtod fpconv_dtoa s]> m).
  split_and!; [done| |by apply map_Forall_insert_2|by rewrite Hfeq]. split; [done|]. eexists. split_and!; [done..|]. unfold insert_pair, short_scores in *.
  rewrite <- (take_drop k ps) in Hsh. apply Forall_app in Hsh as [H1 H2]. apply Forall_app. split; [done|]. constructor; [|done].
  apply (score_entry_ok strtod fpconv_dtoa s (score_text s Hs Hn)).
Qed.

Lemma add_listpack_ok F h zl ps m score ele flags :
  dom h = F → zzl_inv strtod zl ps → pairs_of strtod ps m → short_scores ps → map_Forall (λ _, valid_double) m → valid_double score →
  isnan score = false → Z.of_nat (size m) < 2 ^ 60 → zlen ele < 2 ^ 63 → (is_Some (m !! ele) → 7 + text_bound (map_to_list m) ≤ 2 ^ 31) →
  ∃ h' o' m', zsetAdd junk strtod fpconv_dtoa dt can max_entries max_value rnd h (ZsetListpack zl) score ele flags =
      Some (h', o', (zadd_spec m score ele flags).2) ∧
    zobj_holds strtod dt F h' o' m' ∧ map_Forall (λ _, valid_double) m' ∧ zeq m' (zadd_spec m score ele flags).1 ∧
    (within_limits (ZsetListpack zl) m → within_limits o' (zadd_spec m score ele flags).1).
Proof.
  intros Hdom Hinv Hm Hsh Hv Hsv Hs Hsize Hele Hroom. unfold zsetAdd. rewrite Hs. pose proof (zzlFind_ok strtod zl ps m Hinv Hm ele) as Hf.
  assert (zobj_holds strtod dt F h (ZsetListpack zl) m) as Hsame by (split; [done|]; by exists ps).
  pose proof (zadd_spec_valid m score ele flags Hv Hsv) as Hv'. destruct (m !! ele) as [cur|] eqn:He.
  - destruct Hf as (i & p & Hp & Hkey & ->). bind_simpl. specialize (Hroom ltac:(eauto)).
    assert (isnan cur = false) as Hc.
    { pose proof (zz_scores _ _ _ Hinv) as Hn. eapply Forall_lookup_1 in Hn; [|done]. by rewrite Hkey in Hn. }
    rewrite (zadd_spec_found score cur Hs Hc m ele flags He) in *.
    destruct (has_flag flags ZADD_IN_NX); [by eexists h, _, m|].
    destruct (zadd_decide _ _ _ score cur) as [| |s] eqn:Hdec; [by eexists h, _, m..|].
    destruct (negb (SFeqb s cur)); [|by eexists h, _, m]. simpl in Hv'.
    destruct (zzlDelete_ok junk strtod zl ps m Hinv Hm i p Hp) as (zl1 & -> & Hinv1 & Hm1). rewrite Hkey in Hm1. cbn [snd] in Hm1. bind_simpl.
    destruct (insert_holds F h zl1 (delete i ps) (delete ele m) ele s) as (zl2 & m2 & -> & Hh2 & Hv2 & Heq2); [done..| | | | | | |].
    + by apply Forall_delete.
    + by apply map_Forall_delete.
    + apply (Hv' ele). apply lookup_insert_eq.
    + exact (decide_score _ _ Hs Hc _ _ _ _ Hdec).
    + apply lookup_delete_eq.
    + pose proof (pairs_total strtod _ _ Hm1 ltac:(by apply Forall_delete)). rewrite (text_bound_delete m ele cur He) in Hroom. lia.
    + bind_simpl. eexists h, _, m2. rewrite insert_delete_eq in Heq2. split_and!; [done..|]. apply limits_update. eauto.
  - rewrite Hf. bind_simpl. assert (zadd_spec m score ele flags = if has_flag flags ZADD_IN_XX then (m, mk_added true ZADD_OUT_NOP None)
      else (<[ele := score]> m, mk_added true ZADD_OUT_ADDED (Some score))) as Hspec by (unfold zadd_spec; by rewrite Hs, He).
    destruct (has_flag flags ZADD_IN_XX) eqn:Hxx; [rewrite Hspec; by eexists h, _, m|]. cbn [negb].
    destruct (must_convert_ok zl ps m ele Hinv Hm Hele) as (zl1 & b & -> & Hinv1 & Hb). bind_simpl. destruct b.
    + cbn [zsetLength]. destruct (zz_length_ok strtod zl1 ps m Hinv1 Hm) as (zl2 & -> & Hinv2 & _). bind_simpl.
      unfold zsetConvertAndExpand. rewrite uwrap_small by range_lia.
      destruct (to_skiplist_ok strtod dt can rnd zl2 ps m Hinv2 Hm Hsize h (Z.of_nat (size m) + 1)) as (h1 & zs1 & l1 & k1 & -> & Hz1); [range_lia|].
      bind_simpl. destruct (add_skiplist_ok _ h1 zs1 l1 m k1 score ele flags Hz1 Hs Hsize) as (h2 & zs2 & l2 & -> & Hz2).
      rewrite Hdom in Hz2. eexists h2, (ZsetSkiplist zs2), _. split_and!; [done|by exists l2|done..].
    + destruct (insert_holds F h zl1 ps m ele score) as (zl2 & m2 & -> & Hh2 & Hv2 & Heq2); try done; [specialize (Hb eq_refl); lia|].
      bind_simpl. rewrite Hspec. eexists h, _, m2. split_and!; [done..|]. destruct (Hb eq_refl) as (_ & Hb1 & Hb2). intros [_ Hlim]. by apply limits_add.
Qed.

Lemma zsetAdd_ok F h o m score ele flags :
  zobj_repr strtod dt F h o m → valid_double score → Z.of_nat (size m) < 2 ^ 60 → zlen ele < 2 ^ 63 →
  (∀ zl, o = ZsetListpack zl → is_Some (m !! ele) → 7 + text_bound (map_to_list m) ≤ 2 ^ 31) →
  ∃ h' o' r, zsetAdd junk strtod fpconv_dtoa dt can max_entries max_value rnd h o score ele flags = Some (h', o', r) ∧
    zobj_repr strtod dt F h' o' (zadd_spec m score ele flags).1 ∧ added_eq r (zadd_spec m score ele flags).2 ∧
    (within_limits o m → within_limits o' (zadd_spec m score ele flags).1).
Proof.
  intros (m' & Hh & Hv & Hzeq) Hsv Hsize Hele Hroom. rewrite <- (zeq_size _ _ Hzeq) in Hsize.
  destruct (zadd_spec_proper m' m score ele flags Hzeq) as [Hmeq Hreq]. pose proof (zadd_spec_valid m' score ele flags Hv Hsv) as Hv'.
  destruct (isnan score) eqn:Hs.
  { exists h, o, (mk_added false ZADD_OUT_NAN None). unfold zsetAdd. rewrite Hs. unfold zadd_spec. rewrite Hs. split_and!; [done|by exists m'| |done].
    split_and!; by constructor. }
  destruct o as [zl|zs].
  - destruct Hh as [Hdom (ps & Hinv & Hm & Hsh)].
    destruct (add_listpack_ok F h zl ps m' score ele flags) as (h' & o' & m2 & Hadd & Hh2 & Hv2 & Heq2 & Hlim); try done.
    { intros Hin. rewrite (text_bound_zeq _ _ Hzeq). apply (Hroom zl); [done|]. pose proof (zeq_lookup _ _ ele Hzeq) as He. destruct Hin as [s Hin].
      rewrite Hin in He. inversion He. eauto. }
    eexists h', o', _. split_and!; [done| |done|].
    + exists m2. split_and!; [done..|]. by rewrite Heq2.
    + intros Hl. apply (limits_zeq _ _ _ Hmeq), Hlim. by eapply limits_zeq.
  - destruct Hh as [l Hz]. destruct (add_skiplist_ok F h zs l m' 0 score ele flags Hz Hs Hsize) as (h' & zs' & l' & Hadd & Hz').
    eexists h', (ZsetSkiplist zs'), _. split_and!; [unfold zsetAdd; rewrite Hs; exact Hadd| |done|done]. exists (zadd_spec m' score ele flags).1.
    split_and!; [by exists l'|done..].
Qed.

(** C6. [zsetAdd] implements the addition to an ordered map that its comment describes, with
    the flags NX, XX, GT, LT and INCR, the returned flags, the refusal of NaN and the new score:
    on a listpack, on a skip list with its dictionary, and when the addition converts the
    listpack.  Scores are equal up to the sign of zero.  Nothing is lost or leaked: the heap holds the
    nodes of this object and what was there. *)
Theorem zsetAdd_refines F h o m score ele flags :
  zobj_repr strtod dt F h o m → valid_double score → Z.of_nat (size m) < 2 ^ 60 → zlen ele < 2 ^ 63 →
  (∀ zl, o = ZsetListpack zl → is_Some (m !! ele) → 7 + text_bound (map_to_list m) ≤ 2 ^ 31) →
  ∃ h' o' r, zsetAdd junk strtod fpconv_dtoa dt can max_entries max_value rnd h o score ele flags = Some (h', o', r) ∧
    zobj_repr strtod dt F h' o' (zadd_spec m score ele flags).1 ∧ added_eq r (zadd_spec m score ele flags).2 ∧
    (within_limits o m → within_limits o' (zadd_spec m score ele flags).1).
Proof. apply zsetAdd_ok. Qed.

End add.

(** ** Witnesses *)

(** A notation of the doubles that is read back: the mantissa and the exponent after a letter. *)
Definition ex_text (d : double) : bytes :=
  match d with
  | S754_finite sg m e => 100 :: (if sg then 1 else 0) :: le_bytes 8 (Z.pos m) ++ le_bytes 2 (e + 2000)
  | _ => []
  end.

Definition ex_read (s : bytes) : double :=
  if decide (s = str "inf") then S754_infinity false
  else if decide (s = str "-inf") then S754_infinity true
  else
    match s with
    | 100 :: sg :: rest => S754_finite (bool_decide (sg = 1)) (Z.to_pos (le_val (take 8 rest))) (le_val (drop 8 rest) - 2000)
    | _ => S754_nan
    end.

Lemma ex_text_read sg m e : valid_double (S754_finite sg m e) → ex_read (ex_text (S754_finite sg m e)) = S754_finite sg m e.
Proof.
  intros Hv. pose proof (valid_mantissa sg m e Hv) as Hm. unfold valid_double in Hv. simpl in Hv. unfold bounded, canonical_mantissa, fexp, emin in Hv.
  apply andb_true_iff in Hv as [Hc He]. apply Z.eqb_eq in Hc. apply Z.leb_le in He.
  unfold ex_read, ex_text. rewrite !decide_False by (by destruct sg). pose proof (le_bytes_length 8 (Z.pos m) ltac:(lia)) as Hl.
  rewrite take_app_length', drop_app_length' by lia. rewrite !le_val_bytes by lia. rewrite !uwrap_small by range_lia.
  f_equal; [by destruct sg|lia].
Qed.

Lemma ex_text_string sg m e : lp_norm (ex_text (S754_finite sg m e)) = VStr (ex_text (S754_finite sg m e)).
Proof.
  unfold lp_norm, lpStringToInt64. destruct (string2ll (ex_text (S754_finite sg m e))) as [n|] eqn:Hn; [|done]. exfalso. unfold ex_text, string2ll in Hn.
  case_decide; [done|]. rewrite decide_False in Hn by (unfold char0; simpl; lia). rewrite decide_False in Hn by (unfold char0; simpl; lia).
  unfold string2ll_abs in Hn. rewrite decide_False in Hn by (unfold char0; simpl; lia). done.
Qed.

Global Instance ex_score_text : ScoreText ex_read ex_text.
Proof.
  intros s Hv Hn. split_and!; [done..|]. intros Hll. destruct s as [sg|sg| |sg m e].
  - destruct sg; vm_compute in Hll; done.
  - exists (if sg then str "-inf" else str "inf"). destruct sg; split_and!; vm_compute; reflexivity.
  - done.
  - exists (ex_text (S754_finite sg m e)). split_and!.
    + unfold d2string. cbn [isnan isinf]. assert (SFeqb (S754_finite sg m e) (S754_zero false) = false) as -> by by destruct sg. by rewrite Hll.
    + unfold ex_text. cbn [length]. rewrite length_app. pose proof (le_bytes_length 8 (Z.pos m) ltac:(lia)). pose proof (le_bytes_length 2 (e + 2000) ltac:(lia)). lia.
    + rewrite ex_text_string. unfold value_score, zzlStrtod. rewrite take_ge.
      * rewrite ex_text_read by done. by apply sfeqb_spec.
      * unfold ex_text. cbn [length]. rewrite length_app. pose proof (le_bytes_length 8 (Z.pos m) ltac:(lia)). pose proof (le_bytes_length 2 (e + 2000) ltac:(lia)). lia.
Qed.

Global Instance ex_zset_type : ZsetDictType ex_bytes_type.
Proof. split; [apply _|done..]. Qed.

Definition ex_random (k : nat) : list Z := if decide (k = 1)%nat then ex_high else ex_low.

Global Instance ex_random_levels : RandomLevels ex_random.
Proof. intros k. unfold ex_random. case_decide; eexists; vm_compute; reflexivity. Qed.

(** One member in a listpack; the addition of a second one converts it. *)
Definition ex_one : list (lpval * lpval) := [(VStr (str "a"), VInt 1)].
Definition ex_small : zset_object := ZsetListpack (lp_of 2 (flat ex_one) []).
Definition ex_small_map : zmap := {[str "a" := double_of_ll 1]}.

Definition ex_zadd := zsetAdd ex_fresh ex_read ex_text ex_bytes_type DICT_RESIZE_ENABLE 1 64 ex_random.

Lemma ex_small_repr : zobj_repr ex_read ex_bytes_type ∅ ∅ ex_small ex_small_map.
Proof.
  exists ex_small_map. split_and!; [split; [done|]|apply map_Forall_singleton, double_of_ll_valid|done]. exists ex_one. split_and!.
  - split; [|by repeat constructor..]. exists 2, []. split; [done|]. split; [right; done|]. split; [|by vm_compute]. repeat constructor; simpl; range_lia.
  - unfold pairs_of, nodes_of, ex_small_map. by rewrite map_to_list_singleton.
  - repeat constructor. by vm_compute.
Qed.

Definition ex_big : heap * zset_object := default (∅, ex_small) (fst <$> ex_zadd ∅ ex_small ex_half (str "b") 0).
Definition ex_big_map : zmap := <[str "b" := ex_half]> ex_small_map.

Lemma ex_big_repr : zobj_repr ex_read ex_bytes_type ∅ (fst ex_big) (snd ex_big) ex_big_map.
Proof.
  destruct (zsetAdd_ok ex_fresh ex_read ex_text ex_bytes_type DICT_RESIZE_ENABLE 1 64 ex_random ∅ ∅ ex_small ex_small_map ex_half (str "b") 0 ex_small_repr)
    as (h' & o' & r & Hadd & Hr & _); [by vm_compute..|intros ? _ [s Hs]; by vm_compute in Hs|].
  unfold ex_big, ex_zadd. rewrite Hadd. exact Hr.
Qed.

(** The score of [a] is incremented by 1.5 in the skip list, where GT allows it and LT does not. *)
Lemma zsetAdd_refines_witness :
  option_map snd (zsetLength (snd ex_big)) = Some 2 ∧
  (∃ h' o' r, ex_zadd (fst ex_big) (snd ex_big) ex_half (str "a") (Z.lor ZADD_IN_INCR ZADD_IN_GT) = Some (h', o', r) ∧ za_flags r = ZADD_OUT_UPDATED ∧
     zobj_repr ex_read ex_bytes_type ∅ h' o' (<[str "a" := SFadd 53 1024 ex_half (double_of_ll 1)]> ex_big_map)) ∧
  (∃ h' o' r, ex_zadd (fst ex_big) (snd ex_big) ex_half (str "a") (Z.lor ZADD_IN_INCR ZADD_IN_LT) = Some (h', o', r) ∧ za_flags r = ZADD_OUT_NOP ∧
     zobj_repr ex_read ex_bytes_type ∅ h' o' ex_big_map).
Proof.
  assert (∀ flags, ∃ h' o' r, ex_zadd (fst ex_big) (snd ex_big) ex_half (str "a") flags = Some (h', o', r) ∧
    zobj_repr ex_read ex_bytes_type ∅ h' o' (zadd_spec ex_big_map ex_half (str "a") flags).1 ∧
    added_eq r (zadd_spec ex_big_map ex_half (str "a") flags).2 ∧
    (within_limits 1 64 (snd ex_big) ex_big_map → within_limits 1 64 o' (zadd_spec ex_big_map ex_half (str "a") flags).1)) as H.
  { intros flags. refine (zsetAdd_refines ex_fresh ex_read ex_text ex_bytes_type DICT_RESIZE_ENABLE 1 64 ex_random ∅ (fst ex_big) (snd ex_big)
      ex_big_map ex_half (str "a") flags ex_big_repr _ _ _ _); [vm_compute; reflexivity..|]. intros zl Ho. vm_compute in Ho. discriminate Ho. }
  split; [vm_compute; reflexivity|]. split.
  - destruct (H (Z.lor ZADD_IN_INCR ZADD_IN_GT)) as (h' & o' & r & H1 & H2 & (_ & H3 & _) & _). exists h', o', r. split; [exact H1|]. split; [|exact H2].
    etransitivity; [exact H3|]. vm_compute. reflexivity.
  - destruct (H (Z.lor ZADD_IN_INCR ZADD_IN_LT)) as (h' & o' & r & H1 & H2 & (_ & H3 & _) & _). exists h', o', r. split; [exact H1|]. split; [|exact H2].
    etransitivity; [exact H3|]. vm_compute. reflexivity.
Defined.
