(* ===== verification/ZsetOps.v ===== *)
(** * t_zset.c: deletion, reading and conversion of a sorted set in either encoding *)

From S2P Require Import Prelude Dict DictInv DictOps DictLife Util Listpack ListpackEnc ListpackOps ListpackMod ListpackBulk.
From S2P Require Import Zskiplist ZslInv ZslIns ZslDel ZslOps ZslRange ZslDelRange Zzl ZzlInv ZzlRange ZzlOps ZzlRefine ScoreArith.
From S2P Require Import Zset ZsetInv ZsetConv ZsetAdd.

Local Open Scope Z_scope.

(** ** Counting up to the sign of zero *)

Lemma zeq_filter (P : bytes * double → Prop) `{!∀ p, Decision (P p)} m m' :
  zeq m m' → (∀ e s s', feq s s' → P (e, s) ↔ P (e, s')) → zeq (filter P m) (filter P m').
Proof.
  intros Hm HP e. rewrite !map_lookup_filter. destruct (zeq_lookup _ _ e Hm) as [s s' Hs|]; [|constructor]. simpl.
  pose proof (HP e s s' Hs). destruct (decide (P (e, s))), (decide (P (e, s'))); try tauto.
  - rewrite !option_guard_True by done. by constructor.
  - rewrite !option_guard_False by done. constructor.
Qed.

Lemma before_count_zeq m m' s s' e : zeq m m' → feq s s' → before_count m s e = before_count m' s' e.
Proof.
  intros Hm [Hs _]. unfold before_count.
  transitivity (size (filter (λ p, key_lt (snd p, fst p) (s', e)) m)).
  { f_equal. apply map_filter_ext. intros e' t _. by apply key_lt_eq_r. }
  apply zeq_size, zeq_filter; [done|]. intros e' t t' [Ht _]. by apply key_lt_eq_l.
Qed.

Section ops.
Context (junk : nat → Z) (strtod : bytes → double) (fpconv_dtoa : double → bytes) `{!ScoreText strtod fpconv_dtoa}.
Context (dt : dictType bytes) `{!ZsetDictType dt} (can : dictResizeEnable).
Context (max_entries max_value : Z) (rnd : nat → list Z) `{!RandomLevels rnd}.

(** ** Deletion *)

Lemma remove_ok F h zs l m e :
  zset_inv dt F h zs l m →
  ∃ h' zs' l', zsetRemoveFromSkiplist dt can h zs e = Some (h', zs', bool_decide (is_Some (m !! e))) ∧ zset_inv dt F h' zs' l' (delete e m).
Proof.
  intros [Hinv Hm HF Hd]. unfold zsetRemoveFromSkiplist. destruct (generic_delete_ok dt can (zs_dict zs) _ e Hd) as (d & he & -> & Hd' & _ & Hhe).
  bind_simpl. rewrite lookup_fmap in Hhe. destruct he as [he|].
  - destruct Hhe as [_ Hval]. destruct (node_map l !! e) as [x|] eqn:Hx; [|done]. injection Hval as Hval.
    destruct he as [| | |k' v' n]; [done..|]. simpl in Hval. subst v'. cbn [dictGetVal mbind option_bind].
    pose proof Hx as (k & sn & Hk & He & Ha)%(node_map_lookup _ _ _ _ Hm). destruct (node_score _ _ _ _ _ Hinv Hk) as (n' & Hn' & Hs).
    rewrite <- Ha, Hn'. bind_simpl. rewrite Hs. pose proof (node_nan _ _ _ _ _ Hinv Hk) as Hnan.
    destruct (zslDelete_ok h (zs_zsl zs) l (fst (sn_key sn)) e false Hinv Hnan) as
      [(j & sn' & h' & z' & Hj & [_ Hj2] & -> & Hinv' & _ & _ & HF')|[Hno _]].
    2: { exfalso. apply (Hno k sn Hk). by rewrite <- He, <- surjective_pairing. }
    simpl in Hj2. bind_simpl. pose proof (nodes_delete _ _ _ _ Hm Hj) as Hm'. pose proof (node_map_delete _ _ _ _ Hm Hj) as Hmap. rewrite Hj2 in Hm', Hmap.
    eexists h', _, _. rewrite bool_decide_true; [split; [done|]|].
    + split; [done..|by apply HF'|]. simpl. by rewrite Hmap, fmap_delete.
    + eexists. rewrite <- He. by eapply nodes_get.
  - assert (node_map l !! e = None) as Hnone by (by destruct (node_map l !! e)). apply (node_map_none _ _ _ Hm) in Hnone.
    eexists h, _, l. rewrite Hnone. split; [done|]. rewrite delete_id by done. split; [done..|]. simpl.
    rewrite delete_id in Hd'; [done|]. rewrite lookup_fmap, (proj2 (node_map_none _ _ _ Hm) Hnone). done.
Qed.

Lemma resize_if_ok F h zs l m :
  zset_inv dt F h zs l m → Z.of_nat (size m) < 2 ^ 60 →
  ∃ d, (if htNeedsResize (zs_dict zs) then '(d, _) ← dictResize can (zs_dict zs); Some d else Some (zs_dict zs)) = Some d ∧
    zset_inv dt F h (mk_zset d (zs_zsl zs)) l m.
Proof.
  intros Hz Hsize. pose proof Hz as [Hinv Hm HF Hd].
  destruct (shrink_if_needed_ok dt can (zs_dict zs) _ Hd) as (d & -> & Hd'); [by rewrite (zset_size dt _ _ _ _ _ Hz)|]. by exists d.
Qed.

Lemma zsetDel_ok F h o m ele :
  zobj_repr strtod dt F h o m → Z.of_nat (size m) < 2 ^ 60 →
  ∃ h' o', zsetDel junk strtod dt can h o ele = Some (h', o', bool_decide (is_Some (m !! ele))) ∧ zobj_repr strtod dt F h' o' (delete ele m).
Proof.
  intros (m' & Hh & Hv & Hzeq) Hsize. rewrite <- (zeq_size _ _ Hzeq) in Hsize.
  assert (bool_decide (is_Some (m !! ele)) = bool_decide (is_Some (m' !! ele))) as ->.
  { apply bool_decide_ext. destruct (zeq_lookup _ _ ele Hzeq); split; intros []; eauto. }
  assert (∀ h' o', zobj_holds strtod dt F h' o' (delete ele m') → zobj_repr strtod dt F h' o' (delete ele m)) as Hdone.
  { intros h' o' Hh'. exists (delete ele m'). split_and!; [done|by apply map_Forall_delete|by rewrite Hzeq]. }
  destruct o as [zl|zs]; simpl in Hh |- *.
  - destruct Hh as [Hdom (ps & Hinv & Hm & Hsh)]. pose proof (zzlFind_ok strtod zl ps m' Hinv Hm ele) as Hf. destruct (m' !! ele) as [s|] eqn:He.
    + destruct Hf as (i & p & Hp & Hkey & ->). bind_simpl. destruct (zzlDelete_ok junk strtod zl ps m' Hinv Hm i p Hp) as (zl' & -> & Hinv' & Hm').
      bind_simpl. rewrite Hkey in Hm'. eexists h, _. split; [done|]. apply Hdone. split; [done|]. eexists. split_and!; [done..|by apply Forall_delete].
    + rewrite Hf. bind_simpl. eexists h, _. split; [done|]. apply Hdone. rewrite delete_id by done. split; [done|]. by eexists.
  - destruct Hh as [l Hz]. destruct (remove_ok F h zs l m' ele Hz) as (h' & zs' & l' & -> & Hz'). bind_simpl.
    case_bool_decide as Hin; [|by eexists h', _; split; [done|]; apply Hdone; exists l'].
    destruct (resize_if_ok F h' zs' l' (delete ele m') Hz') as (d & -> & Hz''); [rewrite map_size_delete_Some by done; lia|].
    bind_simpl. eexists h', _. split; [done|]. apply Hdone. by exists l'.
Qed.

(** C31. [zsetDel] deletes the member from the map in either encoding and tells whether it was
    there.  On a skip list the node, its string and the entry of the dictionary go together, the assertion
    that the skip list has the element holds, and the dictionary may shrink. *)
Theorem zsetDel_refines F h o m ele :
  zobj_repr strtod dt F h o m → Z.of_nat (size m) < 2 ^ 60 →
  ∃ h' o', zsetDel junk strtod dt can h o ele = Some (h', o', bool_decide (is_Some (m !! ele))) ∧ zobj_repr strtod dt F h' o' (delete ele m).
Proof. apply zsetDel_ok. Qed.

(** ** Lengths, scores and ranks *)

Lemma length_ok F h o m :
  zobj_holds strtod dt F h o m → ∃ o', zsetLength o = Some (o', Z.of_nat (size m)) ∧ zobj_holds strtod dt F h o' m.
Proof.
  destruct o as [zl|zs]; simpl.
  - intros [Hdom (ps & Hinv & Hm & Hsh)]. destruct (zz_length_ok strtod zl ps m Hinv Hm) as (zl' & -> & Hinv' & _). bind_simpl.
    eexists. split; [done|]. split; [done|]. by exists ps.
  - intros [l Hz]. exists (ZsetSkiplist zs). split; [|by exists l]. do 2 f_equal. pose proof Hz as [Hinv Hm _ _]. by rewrite (zi_length _ _ _ Hinv), (nodes_length _ _ Hm).
Qed.

Lemma score_ok F h o m e :
  zobj_holds strtod dt F h o m → ∃ o', zsetScore strtod dt can h o e = Some (o', m !! e) ∧ zobj_holds strtod dt F h o' m.
Proof.
  destruct o as [zl|zs]; simpl.
  - intros Hh. pose proof Hh as [Hdom (ps & Hinv & Hm & _)]. pose proof (zzlFind_ok strtod zl ps m Hinv Hm e) as Hf.
    destruct (m !! e) as [s|]; [destruct Hf as (i & p & _ & _ & ->)|rewrite Hf]; bind_simpl; by eexists.
  - intros [l Hz]. destruct (zset_find_ok dt can F h zs l m e Hz) as (d & r & -> & Hz' & Hr). bind_simpl. destruct r as [de|].
    + destruct Hr as (s & x & -> & -> & _). bind_simpl. eexists. split; [done|]. by exists l.
    + rewrite Hr. eexists. split; [done|]. by exists l.
Qed.

Section rank_loop.
Context (zl : bytes) (ps : list (lpval * lpval)) (m : zmap) (Hinv : zzl_inv strtod zl ps) (Hm : pairs_of strtod ps m) (e : bytes).

Lemma zset_rank_loop_ok n fuel i :
  (n + i = length ps)%nat → (n ≤ fuel)%nat → (∀ j p, ps !! j = Some p → snd (pkey strtod p) = e → (i ≤ j)%nat) →
  zset_rank_loop fuel zl e (pair_ptr ps i) (Z.of_nat i + 1) =
    Some (match m !! e with Some s => Some (spos ps (before_count m s e), Z.of_nat (before_count m s e) + 1) | None => None end).
Proof.
  pose proof (zz_lp _ _ _ Hinv) as Hlp. destruct (zz_fuel_lt zl ps Hlp) as [_ H31]. revert fuel i. induction n as [|n IH]; intros fuel i Hn Hfuel Hbefore.
  - unfold pair_ptr. rewrite decide_False by lia. destruct (m !! e) as [s|] eqn:He; [|by destruct fuel].
    apply (pairs_lookup strtod ps m Hm) in He as (j & p & Hp & Hk). pose proof (lookup_lt_Some _ _ _ Hp). specialize (Hbefore j p Hp). rewrite Hk in Hbefore.
    specialize (Hbefore eq_refl). lia.
  - destruct fuel as [|fuel]; [lia|]. unfold pair_ptr. rewrite decide_True by lia. cbn [zset_rank_loop].
    destruct (lookup_lt_is_Some_2 ps i ltac:(lia)) as [p Hp]. destruct (flat_lookup ps i p Hp) as [Hfl _].
    unfold epos. rewrite (lpCompare_ok zl (flat ps) e (2 * i) (fst p) Hlp Hfl). bind_simpl. case_bool_decide as Heq.
    + pose proof (pairs_get strtod ps m Hm i p Hp) as Hg. unfold pkey in Hg. simpl in Hg. rewrite Heq in Hg. rewrite Hg.
      rewrite (sorted_position (pnode strtod <$> ps) m i (pnode strtod p)); [done| |done|by rewrite list_lookup_fmap, Hp|split; [done|exact Heq]].
      rewrite pnode_keys. exact (zz_sorted _ _ _ Hinv).
    + rewrite (zz_next_ok strtod zl ps Hinv i) by lia. bind_simpl. rewrite uwrap_small by range_lia.
      replace (Z.of_nat i + 1 + 1) with (Z.of_nat (S i) + 1) by lia. apply IH; [lia|lia|]. intros j q Hq Hkq. pose proof (Hbefore j q Hq Hkq).
      destruct (decide (j = i)) as [->|]; [|lia]. assert (q = p) as -> by congruence. by destruct Heq.
Qed.

End rank_loop.

Lemma rank_result_ok reverse n c :
  (c < n)%nat → Z.of_nat n < 2 ^ 60 → rank_result reverse (Z.of_nat n) (Z.of_nat c + 1) = Z.of_nat (if reverse then n - 1 - c else c).
Proof. intros Hc Hn. unfold rank_result. destruct reverse; (rewrite uwrap_small by range_lia); (rewrite swrap_small by range_lia); lia. Qed.

Lemma before_lt m s e : m !! e = Some s → (before_count m s e < size m)%nat.
Proof.
  intros He. unfold before_count. set (P := λ p, key_lt (snd p, fst p) (s, e)).
  pose proof (map_filter_union_complement P m) as Hun. apply (f_equal size) in Hun. rewrite map_size_disj_union in Hun by apply map_disjoint_filter_complement.
  enough (size (filter (λ p, ¬ P p) m) ≠ 0%nat) by lia. intros Hz. apply map_size_empty_inv in Hz.
  assert (filter (λ p, ¬ P p) m !! e = Some s) as Hin by (apply map_lookup_filter_Some; split; [done|]; apply key_lt_irrefl). by rewrite Hz in Hin.
Qed.

Lemma rank_ok F h o m e reverse :
  zobj_holds strtod dt F h o m → m ≠ ∅ → Z.of_nat (size m) < 2 ^ 60 →
  ∃ o', zsetRank strtod dt can h o e reverse =
      Some (o', match m !! e with Some s => Z.of_nat (if reverse then size m - 1 - before_count m s e else before_count m s e) | None => -1 end, m !! e) ∧
    zobj_holds strtod dt F h o' m.
Proof.
  intros Hh Hne Hsize. unfold zsetRank. destruct (length_ok F h o m Hh) as (o1 & -> & Hh1). bind_simpl. destruct o1 as [zl|zs].
  - pose proof Hh1 as [Hdom (ps & Hinv & Hm & _)]. pose proof (zz_lp _ _ _ Hinv) as Hlp. pose proof (pairs_length strtod ps m Hm) as Hlen.
    assert (0 < length ps)%nat as Hpos by (rewrite Hlen; pose proof (map_size_non_empty_iff m); destruct (size m); [tauto|lia]).
    unfold not_null. rewrite (zz_seek_first zl ps Hlp). unfold eptr_at. rewrite decide_True by done. bind_simpl.
    rewrite (zz_next zl ps Hlp 0 Hpos). bind_simpl. pose proof (zz_fuel zl ps Hlp) as Hfuel.
    pose proof (zset_rank_loop_ok zl ps m Hinv Hm e (length ps) (length zl) 0 ltac:(lia) Hfuel ltac:(lia)) as Hr. unfold pair_ptr in Hr.
    rewrite decide_True in Hr by done. change (Z.of_nat 0 + 1) with 1 in Hr. rewrite Hr. bind_simpl. destruct (m !! e) as [s|] eqn:He; [|by eexists].
    pose proof (before_lt m s e He) as Hlt. pose proof He as (j & p & Hp & Hk)%(pairs_lookup strtod ps m Hm).
    assert (before_count m s e = j) as Hbc.
    { apply (sorted_position (pnode strtod <$> ps) m j (pnode strtod p)); [rewrite pnode_keys; exact (zz_sorted _ _ _ Hinv)|done|by rewrite list_lookup_fmap, Hp|].
      simpl. by rewrite Hk. }
    rewrite <- Hbc in Hp. rewrite (zz_score strtod zl ps Hlp _ p Hp). bind_simpl. rewrite rank_result_ok by done. rewrite Hk. by eexists.
  - destruct Hh1 as [l Hz]. destruct (zset_find_ok dt can F h zs l m e Hz) as (d & r & -> & Hz' & Hr). bind_simpl. destruct r as [de|].
    + destruct Hr as (s & x & He & -> & _). bind_simpl. pose proof Hz' as [Hinv Hm _ _]. simpl in Hinv.
      pose proof (nodes_nan _ _ _ _ _ _ Hinv Hm He) as Hn. rewrite (get_rank_repr h (zs_zsl zs) l m s e Hinv Hm Hn). bind_simpl.
      assert (has_score m e s = true) as -> by (unfold has_score; rewrite He; by apply sfeqb_spec).
      rewrite decide_False by lia. rewrite Nat2Z.inj_succ, <- Z.add_1_r. rewrite rank_result_ok by (done || by apply before_lt). rewrite He.
      eexists. split; [done|]. by exists l.
    + rewrite Hr. eexists. split; [done|]. by exists l.
Qed.

(** What is read from a sorted set in either encoding: [zsetLength] is the number of members,
    [zsetScore] the score of a member, and [zsetRank] the number of elements before it in the order by score and
    member, counted from the front or from the back, or -1. *)
Theorem zset_reads_refine F h o m e reverse :
  zobj_repr strtod dt F h o m → Z.of_nat (size m) < 2 ^ 60 →
  (∃ o', zsetLength o = Some (o', Z.of_nat (size m)) ∧ zobj_repr strtod dt F h o' m) ∧
  (∃ o' s, zsetScore strtod dt can h o e = Some (o', s) ∧ option_Forall2 feq s (m !! e) ∧ zobj_repr strtod dt F h o' m) ∧
  (m ≠ ∅ → ∃ o' rank s, zsetRank strtod dt can h o e reverse = Some (o', rank, s) ∧ option_Forall2 feq s (m !! e) ∧ zobj_repr strtod dt F h o' m ∧
     rank = match m !! e with
            | Some s => Z.of_nat (if reverse then size m - 1 - before_count m s e else before_count m s e)
            | None => -1
            end).
Proof.
  intros (m' & Hh & Hv & Hzeq) Hsize. pose proof (zeq_size _ _ Hzeq) as Hs. pose proof (zeq_lookup _ _ e Hzeq) as He. split_and!.
  - destruct (length_ok F h o m' Hh) as (o' & -> & Hh'). rewrite Hs. exists o'. split; [done|]. by exists m'.
  - destruct (score_ok F h o m' e Hh) as (o' & -> & Hh'). exists o', (m' !! e). split_and!; [done..|]. by exists m'.
  - intros Hne. destruct (rank_ok F h o m' e reverse Hh) as (o' & -> & Hh'); [|lia|].
    { intros ->. apply Hne. apply map_size_empty_inv. by rewrite <- Hs, map_size_empty. }
    eexists o', _, _. split_and!; [done|done|by exists m'|]. destruct He as [s s' Hss|]; [|done].
    by rewrite Hs, (before_count_zeq _ _ _ _ e Hzeq Hss).
Qed.

(** ** Conversion *)

Definition zset_encoding_of (o : zset_object) : zset_encoding :=
  match o with ZsetListpack _ => OBJ_ENCODING_LISTPACK | ZsetSkiplist _ => OBJ_ENCODING_SKIPLIST end.

Lemma convert_ok F h o m encoding cap :
  zobj_holds strtod dt F h o m → map_Forall (λ _, valid_double) m → Z.of_nat (size m) < 2 ^ 60 → cap < LLONG_MAX →
  (encoding = OBJ_ENCODING_LISTPACK → 7 + text_bound (map_to_list m) ≤ 2 ^ 31) →
  ∃ h' o' k, zsetConvertAndExpand junk strtod fpconv_dtoa dt can rnd h o encoding cap = Some (h', o', k) ∧ zset_encoding_of o' = encoding ∧
    zobj_repr strtod dt F h' o' m.
Proof.
  intros Hh Hv Hsize Hcap Hroom. destruct o as [zl|zs], encoding; simpl; [by eexists h, _, 0%nat; split_and!; [..|exists m]| | |by eexists h, _, 0%nat; split_and!; [..|exists m]].
  - destruct Hh as [Hdom (ps & Hinv & Hm & _)]. destruct (to_skiplist_ok strtod dt can rnd zl ps m Hinv Hm Hsize h cap Hcap) as (h' & zs & l & k & -> & Hz).
    bind_simpl. eexists h', _, k. split_and!; [done..|]. exists m. rewrite Hdom in Hz. split_and!; [by exists l|done..].
  - destruct Hh as [l Hz]. destruct (to_listpack_ok junk strtod fpconv_dtoa dt F h zs l m Hz Hv (Hroom eq_refl)) as (h' & zl & ps & -> & Hdom & Hinv & Hm & Hsh).
    bind_simpl. eexists h', _, 0%nat. split_and!; [done..|]. destruct (read_scores_zeq strtod fpconv_dtoa h (zs_zsl zs) l m) as [Hzeq Hv'];
      [apply Hz|apply Hz|done|]. eexists. split_and!; [|exact Hv'|exact Hzeq]. split; [done|]. by exists ps.
Qed.

(** A conversion, in either direction and also by the functions that decide about it, keeps the map up to the sign
    of zero: [zsetConvertAndExpand] produces the encoding asked for, and [zsetConvert],
    [zsetTypeMaybeConvert] and [zsetConvertToListpackIfNeeded] never fail, when what goes to a listpack
    fits in it. *)
Theorem zset_conversions_refine F h o m encoding cap maxelelen totelelen :
  zobj_repr strtod dt F h o m → Z.of_nat (size m) < 2 ^ 60 → cap < LLONG_MAX → 7 + text_bound (map_to_list m) ≤ 2 ^ 31 →
  (∃ h' o' k, zsetConvertAndExpand junk strtod fpconv_dtoa dt can rnd h o encoding cap = Some (h', o', k) ∧ zset_encoding_of o' = encoding ∧
     zobj_repr strtod dt F h' o' m) ∧
  (∃ h' o' k, zsetConvert junk strtod fpconv_dtoa dt can rnd h o encoding = Some (h', o', k) ∧ zset_encoding_of o' = encoding ∧
     zobj_repr strtod dt F h' o' m) ∧
  (∃ h' o' k, zsetTypeMaybeConvert junk strtod fpconv_dtoa dt can max_entries rnd h o cap = Some (h', o', k) ∧ zobj_repr strtod dt F h' o' m) ∧
  (∃ h' o' k, zsetConvertToListpackIfNeeded junk strtod fpconv_dtoa dt can max_entries max_value rnd h o maxelelen totelelen = Some (h', o', k) ∧
     zobj_repr strtod dt F h' o' m).
Proof.
  intros Hrepr Hsize Hcap Htext. pose proof Hrepr as (m' & Hh & Hv & Hzeq). rewrite <- (text_bound_zeq _ _ Hzeq) in Htext.
  rewrite <- (zeq_size _ _ Hzeq) in Hsize.
  assert (∀ o enc c, zobj_holds strtod dt F h o m' → c < LLONG_MAX →
    ∃ h' o' k, zsetConvertAndExpand junk strtod fpconv_dtoa dt can rnd h o enc c = Some (h', o', k) ∧ zset_encoding_of o' = enc ∧
      zobj_repr strtod dt F h' o' m) as Hconv.
  { intros o1 enc c Hh1 Hc. destruct (convert_ok F h o1 m' enc c Hh1 Hv Hsize Hc) as (h' & o' & k & Heq & Henc & m2 & H1 & H2 & H3); [done|].
    exists h', o', k. split_and!; [done..|]. exists m2. split_and!; [done..|]. by rewrite H3. }
  assert (∀ enc, ∃ h' o' k, zsetConvert junk strtod fpconv_dtoa dt can rnd h o enc = Some (h', o', k) ∧ zset_encoding_of o' = enc ∧
     zobj_repr strtod dt F h' o' m) as Hconvert.
  { intros enc. unfold zsetConvert. destruct (length_ok F h o m' Hh) as (o1 & -> & Hh1). bind_simpl. apply Hconv; [done|range_lia]. }
  split_and!; [by apply Hconv|done|..].
  - unfold zsetTypeMaybeConvert. destruct o as [zl|zs]; [|by eexists h, _, 0%nat]. case_decide; [|by eexists h, _, 0%nat].
    destruct (Hconv (ZsetListpack zl) OBJ_ENCODING_SKIPLIST cap Hh Hcap) as (h' & o' & k & H1 & _ & H2). by exists h', o', k.
  - unfold zsetConvertToListpackIfNeeded. destruct o as [zl|zs]; [by eexists h, _, 0%nat|]. unfold lpSafeToAdd. bind_simpl.
    destruct (_ && _); [|by eexists h, _, 0%nat]. destruct (Hconvert OBJ_ENCODING_LISTPACK) as (h' & o' & k & H1 & _ & H2). by exists h', o', k.
Qed.

End ops.

(** ** Histories *)

(** The calls of the commands; every addition has its own random numbers. *)
Inductive zset_op :=
  | ZAdd (rnd : nat → list Z) (score : double) (ele : bytes) (in_flags : Z)
  | ZDel (ele : bytes)
  | ZScore (ele : bytes).

Section history.
Context (junk : nat → Z) (strtod : bytes → double) (fpconv_dtoa : double → bytes) `{!ScoreText strtod fpconv_dtoa}.
Context (dt : dictType bytes) `{!ZsetDictType dt} (can : dictResizeEnable).
Context (max_entries max_value : Z).

Definition zset_run (ho : heap * zset_object) (op : zset_op) : option (heap * zset_object) :=
  let '(h, o) := ho in
  match op with
  | ZAdd rnd score ele flags =>
      '(h, o, _) ← zsetAdd junk strtod fpconv_dtoa dt can max_entries max_value rnd h o score ele flags; Some (h, o)
  | ZDel ele => '(h, o, _) ← zsetDel junk strtod dt can h o ele; Some (h, o)
  | ZScore ele => '(o, _) ← zsetScore strtod dt can h o ele; Some (h, o)
  end.

Definition zset_effect (m : zmap) (op : zset_op) : zmap :=
  match op with
  | ZAdd _ score ele flags => (zadd_spec m score ele flags).1
  | ZDel ele => delete ele m
  | ZScore _ => m
  end.

Definition zset_op_ok (op : zset_op) : Prop :=
  match op with
  | ZAdd rnd score ele _ => RandomLevels rnd ∧ valid_double score ∧ zlen ele < 2 ^ 63
  | ZDel _ | ZScore _ => True
  end.

Local Abbreviation within_limits := (within_limits max_entries max_value).

Lemma text_bound_limit (m : zmap) :
  map_Forall (λ e _, zlen e ≤ max_value) m → text_bound (map_to_list m) ≤ Z.of_nat (size m) * (max_value + 200).
Proof.
  induction m as [|e s m He IH] using map_ind; intros Hm; [done|]. apply map_Forall_insert in Hm as [He' Hm]; [|done].
  rewrite map_to_list_insert, map_size_insert_None by done. simpl. specialize (IH Hm). lia.
Qed.

Lemma zadd_size m score ele flags : (size (zadd_spec m score ele flags).1 ≤ S (size m))%nat.
Proof.
  unfold zadd_spec. assert (∀ s : double, size (<[ele := s]> m) ≤ S (size m))%nat as Hins.
  { intros s. destruct (m !! ele) eqn:He; [rewrite map_size_insert_Some by eauto|rewrite map_size_insert_None by done]; lia. }
  repeat case_match; simpl; auto.
Qed.

Lemma delete_limits o o' m e :
  within_limits o m → (∀ zl', o' = ZsetListpack zl' → ∃ zl, o = ZsetListpack zl) → within_limits o' (delete e m).
Proof.
  intros Hl Hsame. destruct o' as [zl'|zs']; [|done]. destruct (Hsame zl' eq_refl) as [zl ->]. destruct Hl as [H1 H2]. split; [|by apply map_Forall_delete].
  destruct (m !! e) eqn:He; [rewrite map_size_delete_Some by eauto|rewrite map_size_delete_None by done]; lia.
Qed.

(** Deletions and reads keep the encoding. *)
Lemma del_encoding h o e h' o' b : zsetDel junk strtod dt can h o e = Some (h', o', b) → zset_encoding_of o' = zset_encoding_of o.
Proof.
  unfold zsetDel. destruct o as [zl|zs].
  - intros ([[p s]|] & _ & H)%bind_Some; [apply bind_Some in H as (zl' & _ & [= <- <- <-])|injection H as <- <- <-]; done.
  - intros ([[h1 zs1] r] & _ & H)%bind_Some. destruct r; [apply bind_Some in H as (d & _ & [= <- <- <-])|injection H as <- <- <-]; done.
Qed.

Lemma score_encoding h o e o' s : zsetScore strtod dt can h o e = Some (o', s) → zset_encoding_of o' = zset_encoding_of o.
Proof.
  unfold zsetScore. destruct o as [zl|zs].
  - intros (r & _ & [= <- <-])%bind_Some. done.
  - intros ([d [de|]] & _ & H)%bind_Some; [apply bind_Some in H as (s' & _ & [= <- <-])|injection H as <- <-]; done.
Qed.

Lemma encoding_listpack o o' : zset_encoding_of o' = zset_encoding_of o → ∀ zl', o' = ZsetListpack zl' → ∃ zl, o = ZsetListpack zl.
Proof. intros H zl' ->. destruct o; [by eexists|done]. Qed.

Context (Hconfig : 7 + max_entries * (max_value + 200) ≤ 2 ^ 31) (Hvalue : 0 ≤ max_value).

Lemma history_step F h o m op :
  zobj_repr strtod dt F h o m → within_limits o m → zset_op_ok op → Z.of_nat (size m) < 2 ^ 60 →
  (size (zset_effect m op) ≤ S (size m))%nat ∧
  ∃ h' o', zset_run (h, o) op = Some (h', o') ∧ zobj_repr strtod dt F h' o' (zset_effect m op) ∧ within_limits o' (zset_effect m op).
Proof.
  intros Hr Hl Hok Hsize. destruct op as [rnd score ele flags|ele|ele]; cbn [zset_run zset_effect].
  - destruct Hok as (Hrnd & Hs & He). split; [apply zadd_size|].
    destruct (zsetAdd_ok junk strtod fpconv_dtoa dt can max_entries max_value rnd F h o m score ele flags Hr Hs Hsize He) as (h' & o' & r & -> & Hr' & _ & Hl').
    { intros zl -> _. destruct Hl as [H1 H2]. pose proof (text_bound_limit m H2). nia. }
    bind_simpl. exists h', o'. auto.
  - split; [destruct (m !! ele) eqn:He; [rewrite map_size_delete_Some by eauto|rewrite map_size_delete_None by done]; lia|].
    destruct (zsetDel_ok junk strtod dt can F h o m ele Hr Hsize) as (h' & o' & Hd & Hr'). rewrite Hd. bind_simpl. exists h', o'. split_and!; [done..|].
    eapply delete_limits; [done|]. eapply encoding_listpack, del_encoding, Hd.
  - split; [lia|]. destruct Hr as (m' & Hh & Hv & Hzeq). destruct (score_ok strtod dt can F h o m' ele Hh) as (o' & Hs & Hh'). rewrite Hs. bind_simpl.
    exists h, o'. split_and!; [done|by exists m'|]. apply score_encoding in Hs. destruct o, o'; done.
Qed.

Lemma history_ok F ops h o m :
  zobj_repr strtod dt F h o m → within_limits o m → Forall zset_op_ok ops → Z.of_nat (size m + length ops) < 2 ^ 60 →
  ∃ h' o', run_all zset_run (h, o) ops = Some (h', o') ∧ zobj_repr strtod dt F h' o' (foldl zset_effect m ops) ∧
    within_limits o' (foldl zset_effect m ops).
Proof.
  revert h o m. induction ops as [|op ops IH]; intros h o m Hr Hl Hok Hsize; [by exists h, o|].
  apply Forall_cons in Hok as [Hop Hok]. simpl in Hsize. destruct (history_step F h o m op Hr Hl Hop ltac:(lia)) as (Hle & h1 & o1 & Hrun & Hr1 & Hl1).
  cbn [run_all foldl]. rewrite Hrun. bind_simpl. apply IH; [done..|lia].
Qed.

Lemma create_ok h size_hint val_len_hint :
  0 ≤ max_entries → size_hint < LLONG_MAX →
  ∃ h' o, zsetTypeCreate junk max_entries max_value h size_hint val_len_hint = Some (h', o) ∧ zobj_repr strtod dt (dom h) h' o ∅ ∧ within_limits o ∅.
Proof.
  intros Hmax Hhint. unfold zsetTypeCreate. destruct (_ && _).
  - destruct (lpNew_ok junk 0) as (zl & -> & Hlp). bind_simpl. eexists h, _. split_and!; [done| |split; [by rewrite map_size_empty|apply map_Forall_empty]].
    exists ∅. split_and!; [split; [done|]|apply map_Forall_empty|done]. exists []. split_and!; [by repeat constructor| |constructor].
    unfold pairs_of, nodes_of. by rewrite map_to_list_empty.
  - pose proof (zset_create_ok dt h) as Hc. destruct (createZsetObject h) as [h1 zs]. destruct Hc as [H1 H2 H3 H4].
    unfold node_map in H4. simpl in H4. rewrite fmap_empty in H4. destruct (zset_expand_ok dt _ size_hint H4 Hhint) as (d & ok & -> & Hd). bind_simpl.
    eexists h1, _. split_and!; [done| |done]. exists ∅. split_and!; [|apply map_Forall_empty|done]. exists []. split; [done..|]. simpl. unfold node_map. simpl. by rewrite fmap_empty.
Qed.

(** C5. The invariant over every history of a sorted set: from its creation on, any sequence of additions with any
    flags, deletions and reads never fails and no assertion is violated; the object, in
    whatever encoding it then is, stands for the map obtained by the same operations on maps; a listpack never has more members or longer ones than the configuration
    allows; and the heap holds only the nodes of the object besides what was there. *)
Theorem zset_history_invariant h0 size_hint val_len_hint ops :
  0 ≤ max_entries → size_hint < LLONG_MAX → Forall zset_op_ok ops → zlen ops < 2 ^ 60 →
  ∃ h o, (ho ← zsetTypeCreate junk max_entries max_value h0 size_hint val_len_hint; run_all zset_run ho ops) = Some (h, o) ∧
    zobj_repr strtod dt (dom h0) h o (foldl zset_effect ∅ ops) ∧ within_limits o (foldl zset_effect ∅ ops).
Proof.
  intros Hmax Hhint Hok Hlen. destruct (create_ok h0 size_hint val_len_hint Hmax Hhint) as (h1 & o1 & -> & Hr1 & Hl1). bind_simpl.
  apply history_ok; [done..|]. by rewrite map_size_empty.
Qed.

End history.

(** ** Witnesses *)

Lemma zsetDel_refines_witness :
  ∃ h' o', zsetDel ex_fresh ex_read ex_bytes_type DICT_RESIZE_ENABLE (fst ex_big) (snd ex_big) (str "a") = Some (h', o', true) ∧
    zobj_repr ex_read ex_bytes_type ∅ h' o' (delete (str "a") ex_big_map).
Proof.
  pose proof (zsetDel_refines ex_fresh ex_read ex_bytes_type DICT_RESIZE_ENABLE ∅ (fst ex_big) (snd ex_big) ex_big_map (str "a") ex_big_repr
    ltac:(vm_compute; reflexivity)) as H.
  assert (bool_decide (is_Some (ex_big_map !! str "a")) = true) as E by (vm_compute; reflexivity). rewrite E in H. exact H.
Defined.

Lemma zset_reads_refine_witness :
  (∃ o', zsetLength (snd ex_big) = Some (o', 2)) ∧
  (∃ o' s, zsetRank ex_read ex_bytes_type DICT_RESIZE_ENABLE (fst ex_big) (snd ex_big) (str "b") true = Some (o', 0, s)).
Proof.
  destruct (zset_reads_refine ex_read ex_bytes_type DICT_RESIZE_ENABLE ∅ (fst ex_big) (snd ex_big) ex_big_map (str "b") true ex_big_repr
    ltac:(vm_compute; reflexivity)) as (H1 & _ & H3). split.
  - destruct H1 as (o' & H1 & _). exists o'. etransitivity; [exact H1|]. vm_compute. reflexivity.
  - destruct (H3 ltac:(vm_compute; discriminate)) as (o' & rank & s & H & _ & _ & Hr). exists o', s. rewrite H, Hr. vm_compute. reflexivity.
Defined.

Lemma zset_conversions_refine_witness :
  ∃ h' o' k, zsetConvert ex_fresh ex_read ex_text ex_bytes_type DICT_RESIZE_ENABLE ex_random (fst ex_big) (snd ex_big) OBJ_ENCODING_LISTPACK = Some (h', o', k) ∧
    zset_encoding_of o' = OBJ_ENCODING_LISTPACK ∧ zobj_repr ex_read ex_bytes_type ∅ h' o' ex_big_map.
Proof.
  exact (proj1 (proj2 (zset_conversions_refine ex_fresh ex_read ex_text ex_bytes_type DICT_RESIZE_ENABLE 128 64 ex_random ∅ (fst ex_big) (snd ex_big)
    ex_big_map OBJ_ENCODING_LISTPACK 2 1 2 ex_big_repr ltac:(vm_compute; reflexivity) ltac:(vm_compute; reflexivity) ltac:(vm_compute; discriminate)))).
Defined.

Definition ex_zset_ops : list zset_op :=
  [ZAdd ex_random (double_of_ll 1) (str "a") 0; ZAdd ex_random ex_half (str "b") ZADD_IN_NX; ZScore (str "a"); ZAdd ex_random ex_half (str "c") ZADD_IN_XX;
   ZAdd ex_random ex_half (str "d") 0; ZAdd ex_random (double_of_ll 4) (str "a") (Z.lor ZADD_IN_INCR ZADD_IN_GT); ZDel (str "b")].

Lemma zset_history_invariant_witness :
  ∃ h o, (ho ← zsetTypeCreate ex_fresh 2 64 ∅ 0 0; run_all (zset_run ex_fresh ex_read ex_text ex_bytes_type DICT_RESIZE_ENABLE 2 64) ho ex_zset_ops) = Some (h, o) ∧
    zobj_repr ex_read ex_bytes_type (dom (∅ : heap)) h o (<[str "a" := double_of_ll 5]> {[str "d" := ex_half]}).
Proof.
  destruct (zset_history_invariant ex_fresh ex_read ex_text ex_bytes_type DICT_RESIZE_ENABLE 2 64 ltac:(vm_compute; discriminate) ltac:(lia) ∅ 0 0 ex_zset_ops)
    as (h & o & H1 & H2 & _); [lia|vm_compute; reflexivity| |vm_compute; reflexivity|].
  - unfold ex_zset_ops. repeat constructor; try (exact ex_random_levels); vm_compute; reflexivity.
  - exists h, o. split; [exact H1|]. assert (foldl zset_effect ∅ ex_zset_ops = <[str "a" := double_of_ll 5]> {[str "d" := ex_half]}) as E by (vm_compute; reflexivity).
    rewrite E in H2. exact H2.
Defined.
