(* ===== verification/Crc.v ===== *)
(** * crc16.c, crc64.c, crcspeed.c: checksums

The CRC-64 of RDB files and replies is computed eight bytes at a time from tables that are built at
the start from a bit by bit routine; the CRC-16 of a key chooses its cluster slot.  A read outside a table
is [None]. *)

From S2P Require Import Prelude.

Local Open Scope Z_scope.

Definition table_get (t : list Z) (i : Z) : option Z := if decide (0 ≤ i) then t !! Z.to_nat i else None.

(** ** crc16.c *)

Definition crc16tab : list Z := [
   0x0000; 0x1021; 0x2042; 0x3063; 0x4084; 0x50a5; 0x60c6; 0x70e7;
   0x8108; 0x9129; 0xa14a; 0xb16b; 0xc18c; 0xd1ad; 0xe1ce; 0xf1ef;
   0x1231; 0x0210; 0x3273; 0x2252; 0x52b5; 0x4294; 0x72f7; 0x62d6;
   0x9339; 0x8318; 0xb37b; 0xa35a; 0xd3bd; 0xc39c; 0xf3ff; 0xe3de;
   0x2462; 0x3443; 0x0420; 0x1401; 0x64e6; 0x74c7; 0x44a4; 0x5485;
   0xa56a; 0xb54b; 0x8528; 0x9509; 0xe5ee; 0xf5cf; 0xc5ac; 0xd58d;
   0x3653; 0x2672; 0x1611; 0x0630; 0x76d7; 0x66f6; 0x5695; 0x46b4;
   0xb75b; 0xa77a; 0x9719; 0x8738; 0xf7df; 0xe7fe; 0xd79d; 0xc7bc;
   0x48c4; 0x58e5; 0x6886; 0x78a7; 0x0840; 0x1861; 0x2802; 0x3823;
   0xc9cc; 0xd9ed; 0xe98e; 0xf9af; 0x8948; 0x9969; 0xa90a; 0xb92b;
   0x5af5; 0x4ad4; 0x7ab7; 0x6a96; 0x1a71; 0x0a50; 0x3a33; 0x2a12;
   0xdbfd; 0xcbdc; 0xfbbf; 0xeb9e; 0x9b79; 0x8b58; 0xbb3b; 0xab1a;
   0x6ca6; 0x7c87; 0x4ce4; 0x5cc5; 0x2c22; 0x3c03; 0x0c60; 0x1c41;
   0xedae; 0xfd8f; 0xcdec; 0xddcd; 0xad2a; 0xbd0b; 0x8d68; 0x9d49;
   0x7e97; 0x6eb6; 0x5ed5; 0x4ef4; 0x3e13; 0x2e32; 0x1e51; 0x0e70;
   0xff9f; 0xefbe; 0xdfdd; 0xcffc; 0xbf1b; 0xaf3a; 0x9f59; 0x8f78;
   0x9188; 0x81a9; 0xb1ca; 0xa1eb; 0xd10c; 0xc12d; 0xf14e; 0xe16f;
   0x1080; 0x00a1; 0x30c2; 0x20e3; 0x5004; 0x4025; 0x7046; 0x6067;
   0x83b9; 0x9398; 0xa3fb; 0xb3da; 0xc33d; 0xd31c; 0xe37f; 0xf35e;
   0x02b1; 0x1290; 0x22f3; 0x32d2; 0x4235; 0x5214; 0x6277; 0x7256;
   0xb5ea; 0xa5cb; 0x95a8; 0x8589; 0xf56e; 0xe54f; 0xd52c; 0xc50d;
   0x34e2; 0x24c3; 0x14a0; 0x0481; 0x7466; 0x6447; 0x5424; 0x4405;
   0xa7db; 0xb7fa; 0x8799; 0x97b8; 0xe75f; 0xf77e; 0xc71d; 0xd73c;
   0x26d3; 0x36f2; 0x0691; 0x16b0; 0x6657; 0x7676; 0x4615; 0x5634;
   0xd94c; 0xc96d; 0xf90e; 0xe92f; 0x99c8; 0x89e9; 0xb98a; 0xa9ab;
   0x5844; 0x4865; 0x7806; 0x6827; 0x18c0; 0x08e1; 0x3882; 0x28a3;
   0xcb7d; 0xdb5c; 0xeb3f; 0xfb1e; 0x8bf9; 0x9bd8; 0xabbb; 0xbb9a;
   0x4a75; 0x5a54; 0x6a37; 0x7a16; 0x0af1; 0x1ad0; 0x2ab3; 0x3a92;
   0xfd2e; 0xed0f; 0xdd6c; 0xcd4d; 0xbdaa; 0xad8b; 0x9de8; 0x8dc9;
   0x7c26; 0x6c07; 0x5c64; 0x4c45; 0x3ca2; 0x2c83; 0x1ce0; 0x0cc1;
   0xef1f; 0xff3e; 0xcf5d; 0xdf7c; 0xaf9b; 0xbfba; 0x8fd9; 0x9ff8;
   0x6e17; 0x7e36; 0x4e55; 0x5e74; 0x2e93; 0x3eb2; 0x0ed1; 0x1ef0
].

(** A [char] of the buffer may be negative: the mask makes it a byte. *)
Fixpoint crc16_loop (crc : Z) (buf : bytes) : option Z :=
  match buf with
  | [] => Some crc
  | c :: buf =>
      v ← table_get crc16tab (Z.land (Z.lxor (Z.shiftr crc 8) c) 0x00FF);
      crc16_loop (u16 (Z.lxor (Z.shiftl crc 8) v)) buf
  end.

Definition crc16 (buf : bytes) : option Z := crc16_loop 0 buf.

(** ** cluster.c: the slot of a key *)

(** The offset of the first byte [c] from [s] on, or the length of the key. *)
Fixpoint find_char (c : Z) (key : bytes) (s : nat) : nat :=
  match key with
  | [] => s
  | x :: key => if decide (x = c) then s else find_char c key (S s)
  end.

Definition keyHashSlot (key : bytes) : option Z :=
  let keylen := length key in
  let s := find_char 123 key 0 in
  if decide (s = keylen) then v ← crc16 key; Some (Z.land v 0x3FFF)
  else
    let e := find_char 125 (drop (s + 1) key) (s + 1) in
    if decide (e = keylen ∨ e = s + 1)%nat then v ← crc16 key; Some (Z.land v 0x3FFF)
    else v ← crc16 (take (e - s - 1) (drop (s + 1) key)); Some (Z.land v 0x3FFF).

(** ** crc64.c: bit by bit *)

Definition POLY : Z := 0xad93d23594c935a9.

Fixpoint crc_reflect_loop (n : nat) (data ret : Z) : Z :=
  match n with
  | O => ret
  | S n =>
      let data := Z.shiftr data 1 in
      crc_reflect_loop n data (u64 (Z.lor (Z.shiftl ret 1) (Z.land data 0x01)))
  end.

Definition crc_reflect (data : Z) (data_len : nat) : Z := crc_reflect_loop (data_len - 1) data (Z.land data 0x01).

(** The bits of [c] from mask [i] on. *)
Fixpoint crc64_bits (n : nat) (crc c i : Z) : Z :=
  match n with
  | O => crc
  | S n =>
      let bit := negb (Z.eqb (Z.land crc 0x8000000000000000) 0) in
      let bit := if Z.eqb (Z.land c i) 0 then bit else negb bit in
      let crc := u64 (Z.shiftl crc 1) in
      let crc := if bit then Z.lxor crc POLY else crc in
      crc64_bits n crc c (Z.shiftl i 1)
  end.

Fixpoint crc64_bytes (crc : Z) (data : bytes) : Z :=
  match data with
  | [] => crc
  | c :: data => crc64_bytes (Z.land (crc64_bits 8 crc c 0x01) 0xffffffffffffffff) data
  end.

Definition _crc64 (crc : Z) (data : bytes) : Z :=
  Z.lxor (crc_reflect (Z.land (crc64_bytes crc data) 0xffffffffffffffff) 64) 0x0000000000000000.

(** ** crcspeed.c: tables *)

(** The byte [n] is appended to the sequences of the previous table. *)
Definition next_crc (row0 : list Z) (crc : Z) : option Z :=
  v ← table_get row0 (Z.land crc 0xff); Some (Z.lxor v (Z.shiftr crc 8)).

(** The rows [k] to 7; the loops over [n] and [k] are exchanged, since the columns do not depend on each other. *)
Fixpoint nested_rows (k : nat) (row0 row : list Z) : option (list (list Z)) :=
  match k with
  | O => Some []
  | S k => row' ← mapM (next_crc row0) row; rest ← nested_rows k row0 row'; Some (row' :: rest)
  end.

Definition crcspeed64little_init (crcfn : Z → bytes → Z) : option (list (list Z)) :=
  let row0 := (λ n, crcfn 0 [Z.of_nat n]) <$> seq 0 256 in
  rows ← nested_rows 7 row0 row0;
  Some (row0 :: rows).

(** The portable code of [rev8], which [__builtin_bswap64] implements. *)
Definition rev8 (a : Z) : Z :=
  let m := 0xff00ff00ff00ff in
  let a := Z.lor (Z.land (Z.shiftr a 8) m) (u64 (Z.shiftl (Z.land a m) 8)) in
  let m := 0xffff0000ffff in
  let a := Z.lor (Z.land (Z.shiftr a 16) m) (u64 (Z.shiftl (Z.land a m) 16)) in
  Z.lor (Z.shiftr a 32) (u64 (Z.shiftl a 32)).

Definition crcspeed64big_init (crcfn : Z → bytes → Z) : option (list (list Z)) :=
  table ← crcspeed64little_init crcfn; Some (map (map rev8) table).

(** ** crcspeed.c: eight bytes at a time *)

Section crcspeed.
Context (table : list (list Z)).

Definition look (k : nat) (i : Z) : option Z := row ← table !! k; table_get row i.

Definition little_byte (crc b : Z) : option Z :=
  v ← look 0 (Z.land (Z.lxor crc b) 0xff); Some (Z.lxor v (Z.shiftr crc 8)).

Definition little_word (crc : Z) (w : bytes) : option Z :=
  let crc := Z.lxor crc (le_val w) in
  v7 ← look 7 (Z.land crc 0xff);
  v6 ← look 6 (Z.land (Z.shiftr crc 8) 0xff);
  v5 ← look 5 (Z.land (Z.shiftr crc 16) 0xff);
  v4 ← look 4 (Z.land (Z.shiftr crc 24) 0xff);
  v3 ← look 3 (Z.land (Z.shiftr crc 32) 0xff);
  v2 ← look 2 (Z.land (Z.shiftr crc 40) 0xff);
  v1 ← look 1 (Z.land (Z.shiftr crc 48) 0xff);
  v0 ← look 0 (Z.shiftr crc 56);
  Some (Z.lxor (Z.lxor (Z.lxor (Z.lxor (Z.lxor (Z.lxor (Z.lxor v7 v6) v5) v4) v3) v2) v1) v0).

Definition big_byte (crc b : Z) : option Z :=
  v ← look 0 (Z.lxor (Z.shiftr crc 56) b); Some (Z.lxor v (u64 (Z.shiftl crc 8))).

(** The machine reads the most significant byte first. *)
Definition big_word (crc : Z) (w : bytes) : option Z :=
  let crc := Z.lxor crc (le_val (reverse w)) in
  v0 ← look 0 (Z.land crc 0xff);
  v1 ← look 1 (Z.land (Z.shiftr crc 8) 0xff);
  v2 ← look 2 (Z.land (Z.shiftr crc 16) 0xff);
  v3 ← look 3 (Z.land (Z.shiftr crc 24) 0xff);
  v4 ← look 4 (Z.land (Z.shiftr crc 32) 0xff);
  v5 ← look 5 (Z.land (Z.shiftr crc 40) 0xff);
  v6 ← look 6 (Z.land (Z.shiftr crc 48) 0xff);
  v7 ← look 7 (Z.shiftr crc 56);
  Some (Z.lxor (Z.lxor (Z.lxor (Z.lxor (Z.lxor (Z.lxor (Z.lxor v0 v1) v2) v3) v4) v5) v6) v7).

(** The three loops, with the step for a byte and for a word: until [next] is aligned, words,
    and the remaining bytes. *)
Section loops.
Context (byte_step : Z → Z → option Z) (word_step : Z → bytes → option Z).

Fixpoint speed_bytes (crc : Z) (buf : bytes) : option Z :=
  match buf with
  | [] => Some crc
  | b :: buf => crc ← byte_step crc b; speed_bytes crc buf
  end.

Fixpoint speed_words (crc : Z) (buf : bytes) : option (Z * bytes) :=
  match buf with
  | b0 :: b1 :: b2 :: b3 :: b4 :: b5 :: b6 :: b7 :: rest =>
      crc ← word_step crc [b0; b1; b2; b3; b4; b5; b6; b7]; speed_words crc rest
  | _ => Some (crc, buf)
  end.

Fixpoint speed_align (crc next : Z) (buf : bytes) : option (Z * bytes) :=
  match buf with
  | [] => Some (crc, [])
  | b :: rest =>
      if decide (Z.land next 7 ≠ 0) then crc ← byte_step crc b; speed_align crc (next + 1) rest
      else Some (crc, buf)
  end.

Definition speed (crc next : Z) (buf : bytes) : option Z :=
  '(crc, buf) ← speed_align crc next buf;
  '(crc, buf) ← speed_words crc buf;
  speed_bytes crc buf.

End loops.

(** [next] is the address of the buffer. *)
Definition crcspeed64little (crc next : Z) (buf : bytes) : option Z := speed little_byte little_word crc next buf.

Definition crcspeed64big (crc next : Z) (buf : bytes) : option Z :=
  crc ← speed big_byte big_word (rev8 crc) next buf; Some (rev8 crc).

End crcspeed.

(** [little] tells the endianness of the machine. *)
Definition crcspeed64native_init (little : bool) (crcfn : Z → bytes → Z) : option (list (list Z)) :=
  if little then crcspeed64little_init crcfn else crcspeed64big_init crcfn.

Definition crcspeed64native (little : bool) (table : list (list Z)) (crc next : Z) (buf : bytes) : option Z :=
  if little then crcspeed64little table crc next buf else crcspeed64big table crc next buf.

Definition crc64_init (little : bool) : option (list (list Z)) := crcspeed64native_init little _crc64.

Definition crc64 (little : bool) (crc64_table : list (list Z)) (crc next : Z) (s : bytes) : option Z :=
  crcspeed64native little crc64_table crc next s.
