(* ===== verification/CrcEquiv.v ===== *)
(** * crc64.c, crcspeed.c: the fast checksum is the bit by bit one

The tables and the bit by bit routine are compared with a shift register on the reflected
polynomial, which is linear over [Z.lxor]. *)

From Stdlib Require Import Btauto.
From S2P Require Import Prelude Crc.

Local Open Scope Z_scope.

(** ** Bits *)

Lemma urange_testbit w z : 0 ≤ w → in_urange w z ↔ 0 ≤ z ∧ ∀ i, w ≤ i → Z.testbit z i = false.
Proof.
  intros Hw. split.
  - intros Hz. split; [range_lia|]. intros i Hi. by apply (testbit_range w).
  - intros [H0 Hz]. split; [done|]. destruct (decide (z = 0)) as [->|]; [by apply Z.pow_pos_nonneg|]. apply Z.log2_lt_pow2; [lia|].
    destruct (decide (Z.log2 z < w)) as [|Hge]; [done|]. pose proof (Z.bit_log2 z ltac:(lia)) as Hb. by rewrite Hz in Hb by lia.
Qed.

Lemma lxor_urange w a b : 0 ≤ w → in_urange w a → in_urange w b → in_urange w (Z.lxor a b).
Proof.
  intros Hw [Ha Ha']%urange_testbit [Hb Hb']%urange_testbit; [|done..]. apply urange_testbit; [done|]. split; [by apply Z.lxor_nonneg|].
  intros i Hi. by rewrite Z.lxor_spec, Ha', Hb'.
Qed.

(** Equality of words bit by bit. *)
Ltac bits i :=
  apply Z.bits_inj'; let Hi := fresh "H" i in intros i Hi;
  rewrite ?Z.lxor_spec, ?Z.lor_spec, ?Z.land_spec, ?Z.shiftr_spec by lia.

Lemma split_low n x : 0 ≤ n → Z.lxor (Z.land x (Z.ones n)) (Z.shiftl (Z.shiftr x n) n) = x.
Proof.
  intros Hn. bits i. rewrite Z.testbit_ones_nonneg by lia. destruct (Z.ltb_spec i n).
  - rewrite Z.shiftl_spec_low by done. by rewrite andb_true_r, xorb_false_r.
  - rewrite Z.shiftl_spec, Z.shiftr_spec by lia. rewrite andb_false_r, xorb_false_l. f_equal. lia.
Qed.

Lemma shiftr_small w z : in_urange w z → 0 ≤ w → Z.shiftr z w = 0.
Proof. intros Hz Hw. rewrite Z.shiftr_div_pow2 by done. apply Z.div_small. range_lia. Qed.

Lemma land_ones_urange x n : 0 ≤ n → in_urange n (Z.land x (Z.ones n)).
Proof. intros Hn. rewrite Z.land_ones by done. by apply uwrap_range. Qed.

Lemma land_ones_small x n : 0 ≤ n → in_urange n x → Z.land x (Z.ones n) = x.
Proof. intros Hn Hx. rewrite Z.land_ones by done. by apply uwrap_small. Qed.

(** A mask of one bit. *)
Lemma land_pow2_eqb c j : 0 ≤ j → Z.eqb (Z.land c (2 ^ j)) 0 = negb (Z.testbit c j).
Proof.
  intros Hj. destruct (Z.testbit c j) eqn:Hb; simpl.
  - apply Z.eqb_neq. intros Heq. apply (f_equal (λ z, Z.testbit z j)) in Heq. rewrite Z.land_spec, Hb, Z.pow2_bits_true, Z.bits_0 in Heq; done.
  - apply Z.eqb_eq. bits i. rewrite Z.bits_0, Z.pow2_bits_eqb by done. destruct (Z.eqb_spec j i) as [<-|]; [by rewrite Hb|apply andb_false_r].
Qed.

Lemma byte_urange b : byte_ok b → in_urange 8 b ∧ in_urange 64 b.
Proof. unfold byte_ok. intros Hb. range_lia. Qed.

(** ** The shift register *)

Definition RPOLY : Z := 0x95ac9329ac4bc9b5.

Definition step (x : Z) : Z := Z.lxor (Z.shiftr x 1) (if Z.odd x then RPOLY else 0).
Definition stepn (n : nat) (x : Z) : Z := Nat.iter n step x.

(** The checksum of [s] after [crc]: every byte enters at the low end and is shifted out. *)
Definition crc64_ref (crc : Z) (s : bytes) : Z := foldl (λ crc b, stepn 8 (Z.lxor crc b)) crc s.

Lemma step_lxor x y : step (Z.lxor x y) = Z.lxor (step x) (step y).
Proof.
  unfold step. rewrite Z.shiftr_lxor. rewrite <- !Z.bit0_odd, Z.lxor_spec.
  destruct (Z.testbit x 0), (Z.testbit y 0); cbn [xorb]; bits i; rewrite ?Z.bits_0;
    by destruct (Z.testbit x (i + 1)), (Z.testbit y (i + 1)), (Z.testbit RPOLY i).
Qed.

Lemma stepn_lxor n x y : stepn n (Z.lxor x y) = Z.lxor (stepn n x) (stepn n y).
Proof. unfold stepn. induction n as [|n IH]; [done|]. simpl. by rewrite IH, step_lxor. Qed.

Lemma stepn_add n k x : stepn (n + k) x = stepn n (stepn k x).
Proof. unfold stepn. apply Nat.iter_add. Qed.

(** A register whose low bits are 0 is only shifted. *)
Lemma stepn_shiftl n y : stepn n (Z.shiftl y (Z.of_nat n)) = y.
Proof.
  induction n as [|n IH]; [apply Z.shiftl_0_r|]. rewrite <- Nat.add_1_r, stepn_add.
  assert (stepn 1 (Z.shiftl y (Z.of_nat (n + 1))) = Z.shiftl y (Z.of_nat n)) as ->; [|done].
  unfold stepn, step. simpl. rewrite <- Z.bit0_odd, Z.shiftl_spec_low by lia. rewrite Z.lxor_0_r, Z.shiftr_shiftl_l by lia. f_equal. lia.
Qed.

Lemma lxor_stepn n x z : Z.lxor (stepn n x) z = stepn n (Z.lxor x (Z.shiftl z (Z.of_nat n))).
Proof. by rewrite stepn_lxor, stepn_shiftl. Qed.

(** The low bits go through the register and the others move down. *)
Lemma stepn_split n x : stepn n x = Z.lxor (stepn n (Z.land x (Z.ones (Z.of_nat n)))) (Z.shiftr x (Z.of_nat n)).
Proof. rewrite lxor_stepn, split_low by lia. done. Qed.

Lemma step_range x : in_urange 64 x → in_urange 64 (step x).
Proof.
  intros Hx. apply lxor_urange; [done| |destruct (Z.odd x); split; done]. rewrite Z.shiftr_div_pow2 by done. change (2 ^ 1) with 2.
  split; [apply Z.div_pos; range_lia|]. apply Z.div_lt_upper_bound; range_lia.
Qed.

Lemma stepn_range n x : in_urange 64 x → in_urange 64 (stepn n x).
Proof. intros Hx. unfold stepn. induction n; simpl; [done|by apply step_range]. Qed.

Lemma ref_range s crc : in_urange 64 crc → bytes_ok s → in_urange 64 (crc64_ref crc s).
Proof.
  intros Hc Hs. revert crc Hc. induction Hs as [|b s Hb Hs IH]; intros crc Hc; [done|]. apply IH, stepn_range, lxor_urange; [done..|by apply byte_urange].
Qed.

Lemma ref_app crc a b : crc64_ref crc (a ++ b) = crc64_ref (crc64_ref crc a) b.
Proof. apply foldl_app. Qed.

(** The bytes of a message enter as one little-endian number. *)
Lemma le_val_cons b w : in_urange 8 b → bytes_ok w → le_val (b :: w) = Z.lxor b (Z.shiftl (le_val w) 8).
Proof.
  intros Hb Hw. change (le_val (b :: w)) with (Z.lor b (Z.shiftl (le_val w) 8)). bits i. apply urange_testbit in Hb as [_ Hb]; [|done].
  destruct (decide (i < 8)).
  - rewrite Z.shiftl_spec_low by done. by rewrite orb_false_r, xorb_false_r.
  - by rewrite Hb by lia.
Qed.

Lemma ref_word crc w : bytes_ok w → crc64_ref crc w = stepn (8 * length w) (Z.lxor crc (le_val w)).
Proof.
  intros Hw. revert crc. induction Hw as [|b w Hb Hw IH]; intros crc; [simpl; by rewrite Z.lxor_0_r|].
  cbn [crc64_ref foldl length]. fold (crc64_ref (stepn 8 (Z.lxor crc b)) w). rewrite IH, lxor_stepn, <- stepn_add.
  rewrite le_val_cons by (done || by apply byte_urange). rewrite Z.lxor_assoc. f_equal. lia.
Qed.

(** The register forgets nothing. *)
Lemma step_zero x : in_urange 64 x → step x = 0 → x = 0.
Proof.
  unfold step. intros Hx. rewrite <- Z.bit0_odd. destruct (Z.testbit x 0) eqn:H0.
  - intros Heq%Z.lxor_eq. apply (f_equal (λ z, Z.testbit z 63)) in Heq. rewrite Z.shiftr_spec in Heq by done.
    apply urange_testbit in Hx as [_ Hx]; [|done]. rewrite Hx in Heq by lia. vm_compute in Heq. done.
  - rewrite Z.lxor_0_r. intros Heq. bits i. rewrite Z.bits_0. destruct (decide (i = 0)) as [->|]; [done|].
    replace i with (i - 1 + 1) by lia. rewrite <- Z.shiftr_spec by lia. by rewrite Heq, Z.bits_0.
Qed.

Lemma stepn_inj n x y : in_urange 64 x → in_urange 64 y → stepn n x = stepn n y → x = y.
Proof.
  intros Hx Hy Heq. apply Z.lxor_eq. assert (in_urange 64 (Z.lxor x y)) as Hr by by apply lxor_urange.
  assert (stepn n (Z.lxor x y) = 0) as H0 by (rewrite stepn_lxor, Heq; apply Z.lxor_nilpotent). clear Heq Hx Hy.
  unfold stepn in H0. induction n as [|n IH]; [done|]. simpl in H0. apply IH, step_zero; [by apply (stepn_range n)|done].
Qed.

(** ** The tables *)

(** Row [k] holds what [k + 1] bytes of shifting make of a byte. *)
Definition table_ok (table : list (list Z)) : Prop :=
  ∀ k i, (k < 8)%nat → 0 ≤ i < 256 → look table k i = Some (stepn (8 * S k) i).

Definition row_ok (k : nat) (row : list Z) : Prop := row = (λ n, stepn (8 * S k) (Z.of_nat n)) <$> seq 0 256.

Lemma row_get k row i : row_ok k row → 0 ≤ i < 256 → table_get row i = Some (stepn (8 * S k) i).
Proof.
  intros -> Hi. unfold table_get. rewrite decide_True by lia. rewrite list_lookup_fmap, lookup_seq_lt by lia.
  cbn [fmap option_fmap option_map]. by rewrite Nat.add_0_l, Z2Nat.id by lia.
Qed.

Lemma byte_index x : 0 ≤ Z.land x 0xff < 256.
Proof. change 0xff with (Z.ones 8). apply (land_ones_urange x 8). done. Qed.

Lemma next_crc_ok row0 crc : row_ok 0 row0 → next_crc row0 crc = Some (stepn 8 crc).
Proof.
  intros H0. unfold next_crc. rewrite (row_get 0 row0) by (done || apply byte_index). bind_simpl. rewrite (stepn_split 8 crc). done.
Qed.

Lemma nested_rows_ok n row0 k row :
  row_ok 0 row0 → row_ok k row →
  ∃ rows, nested_rows n row0 row = Some rows ∧ length rows = n ∧ ∀ j r, rows !! j = Some r → row_ok (S k + j) r.
Proof.
  intros H0. revert k row. induction n as [|n IH]; intros k row Hrow; [by exists []|]. cbn [nested_rows].
  assert (mapM (next_crc row0) row = Some ((λ n, stepn (8 * S (S k)) (Z.of_nat n)) <$> seq 0 256)) as ->.
  { rewrite Hrow. apply mapM_Some_2. rewrite Forall2_fmap. apply Forall_Forall2_diag, Forall_forall. intros m _. rewrite next_crc_ok by done.
    rewrite <- stepn_add. do 2 f_equal. lia. }
  remember ((λ n, stepn (8 * S (S k)) (Z.of_nat n)) <$> seq 0 256) as row' eqn:Hrow'. bind_simpl.
  destruct (IH (S k) row' Hrow') as (rows & -> & Hlen & Hrows). bind_simpl. eexists. split; [done|]. split; [simpl; lia|].
  intros [|j] r Hr; [injection Hr as <-|replace (S k + S j)%nat with (S (S k) + j)%nat by lia; by apply Hrows].
  by rewrite Nat.add_0_r.
Qed.

Lemma little_init_ok crcfn :
  (∀ n, (n < 256)%nat → crcfn 0 [Z.of_nat n] = stepn 8 (Z.of_nat n)) → ∃ table, crcspeed64little_init crcfn = Some table ∧ table_ok table.
Proof.
  intros Hfn. unfold crcspeed64little_init. set (row0 := _ <$> seq 0 256).
  assert (row_ok 0 row0) as H0.
  { unfold row_ok, row0. apply list_fmap_ext. intros i n Hn. apply lookup_seq in Hn as [-> Hn]. by apply Hfn. }
  destruct (nested_rows_ok 7 row0 0 row0 H0 H0) as (rows & -> & Hlen & Hrows). bind_simpl. eexists. split; [done|]. intros k i Hk Hi. unfold look.
  destruct k as [|k]; simpl; [by rewrite (row_get 0)|]. destruct (lookup_lt_is_Some_2 rows k ltac:(lia)) as [r Hr]. rewrite Hr. bind_simpl.
  rewrite (row_get (S k) r); [done|by apply (Hrows k)|done].
Qed.

(** ** Eight bytes at a time *)

Section loops.
Context (byte_step : Z → Z → option Z) (word_step : Z → bytes → option Z).
(** The register of the machine, as a function of that of the specification. *)
Context (enc : Z → Z).
Context (Hbyte : ∀ crc b, in_urange 64 crc → byte_ok b → byte_step (enc crc) b = Some (enc (stepn 8 (Z.lxor crc b)))).
Context (Hword : ∀ crc w, in_urange 64 crc → bytes_ok w → length w = 8%nat → word_step (enc crc) w = Some (enc (crc64_ref crc w))).

Lemma speed_bytes_ok s crc : in_urange 64 crc → bytes_ok s → speed_bytes byte_step (enc crc) s = Some (enc (crc64_ref crc s)).
Proof.
  intros Hc Hs. revert crc Hc. induction Hs as [|b s Hb Hs IH]; intros crc Hc; [done|]. cbn [speed_bytes]. rewrite Hbyte by done. bind_simpl.
  apply IH, stepn_range, lxor_urange; [done..|by apply byte_urange].
Qed.

Lemma speed_words_ok s crc :
  in_urange 64 crc → bytes_ok s → ∃ w r, s = w ++ r ∧ speed_words word_step (enc crc) s = Some (enc (crc64_ref crc w), r).
Proof.
  revert crc. induction s as [s IH] using (induction_ltof1 _ length). unfold ltof in IH. intros crc Hc Hs.
  destruct s as [|b0 [|b1 [|b2 [|b3 [|b4 [|b5 [|b6 [|b7 s]]]]]]]]; try (by eexists [], _).
  change (b0 :: _) with ([b0; b1; b2; b3; b4; b5; b6; b7] ++ s) in Hs |- *. set (w := [b0; b1; b2; b3; b4; b5; b6; b7]) in *.
  apply Forall_app in Hs as [Hw Hs]. destruct (IH s ltac:(simpl; lia) (crc64_ref crc w) ltac:(by apply ref_range) Hs) as (w' & r & -> & Hrest).
  exists (w ++ w'), r. split; [by rewrite app_assoc|]. cbn [w app speed_words]. fold w. rewrite Hword by done. bind_simpl.
  rewrite Hrest, <- ref_app. reflexivity.
Qed.

Lemma speed_align_ok s crc next :
  in_urange 64 crc → bytes_ok s → ∃ w r, s = w ++ r ∧ speed_align byte_step (enc crc) next s = Some (enc (crc64_ref crc w), r).
Proof.
  intros Hc Hs. revert crc next Hc. induction Hs as [|b s Hb Hs IH]; intros crc next Hc; [by exists [], []|]. cbn [speed_align].
  case_decide; [|by exists [], (b :: s)]. rewrite Hbyte by done. bind_simpl.
  destruct (IH (stepn 8 (Z.lxor crc b)) (next + 1)) as (w & r & -> & ->); [|by exists (b :: w), r].
  apply stepn_range, lxor_urange; [done..|by apply byte_urange].
Qed.

Lemma speed_ok s crc next : in_urange 64 crc → bytes_ok s → speed byte_step word_step (enc crc) next s = Some (enc (crc64_ref crc s)).
Proof.
  intros Hc Hs. unfold speed. destruct (speed_align_ok s crc next Hc Hs) as (w & r & -> & ->). bind_simpl. apply Forall_app in Hs as [Hw Hr].
  destruct (speed_words_ok r (crc64_ref crc w)) as (w' & r' & -> & ->); [by apply ref_range|done|]. bind_simpl. apply Forall_app in Hr as [Hw' Hr'].
  rewrite speed_bytes_ok; [|by apply ref_range; [apply ref_range|]|done]. rewrite !ref_app. reflexivity.
Qed.

End loops.

Section little.
Context (table : list (list Z)) (Htable : table_ok table).

Lemma little_byte_ok crc b : in_urange 64 crc → byte_ok b → little_byte table crc b = Some (stepn 8 (Z.lxor crc b)).
Proof.
  intros Hc Hb. unfold little_byte. rewrite Htable by (lia || apply byte_index). bind_simpl. rewrite (stepn_split 8 (Z.lxor crc b)).
  change (Z.of_nat 8) with 8. rewrite Z.shiftr_lxor, (shiftr_small 8 b) by (done || by apply byte_urange). by rewrite Z.lxor_0_r.
Qed.

(** One byte of a word. *)
Lemma word_byte k x : stepn (8 * S k) x = Z.lxor (stepn (8 * S k) (Z.land x 0xff)) (stepn (8 * k) (Z.shiftr x 8)).
Proof.
  replace (8 * S k)%nat with (8 * k + 8)%nat by lia. rewrite !stepn_add, (stepn_split 8 x), stepn_lxor. do 2 f_equal.
Qed.

Fixpoint word_sum (k : nat) (x : Z) : Z :=
  match k with
  | O => stepn (8 * 1) x
  | S k => Z.lxor (stepn (8 * S (S k)) (Z.land x 0xff)) (word_sum k (Z.shiftr x 8))
  end.

Lemma word_sum_ok k x : word_sum k x = stepn (8 * S k) x.
Proof. revert x. induction k as [|k IH]; intros x; [reflexivity|]. cbn [word_sum]. rewrite IH. symmetry. apply word_byte. Qed.

Lemma word_lookups x :
  stepn (8 * 8) x =
    Z.lxor (Z.lxor (Z.lxor (Z.lxor (Z.lxor (Z.lxor (Z.lxor (stepn (8 * 8) (Z.land x 255)) (stepn (8 * 7) (Z.land (Z.shiftr x 8) 255)))
      (stepn (8 * 6) (Z.land (Z.shiftr x 16) 255))) (stepn (8 * 5) (Z.land (Z.shiftr x 24) 255))) (stepn (8 * 4) (Z.land (Z.shiftr x 32) 255)))
      (stepn (8 * 3) (Z.land (Z.shiftr x 40) 255))) (stepn (8 * 2) (Z.land (Z.shiftr x 48) 255))) (stepn (8 * 1) (Z.shiftr x 56)).
Proof.
  rewrite <- (word_sum_ok 7 x). cbn [word_sum]. rewrite !Z.shiftr_shiftr by lia. rewrite !Z.lxor_assoc. reflexivity.
Qed.

Lemma word_index x : in_urange 64 x → 0 ≤ Z.shiftr x 56 < 256.
Proof. intros Hx. rewrite Z.shiftr_div_pow2 by lia. split; [apply Z.div_pos|apply Z.div_lt_upper_bound]; range_lia. Qed.

Lemma word_register crc w : in_urange 64 crc → bytes_ok w → length w = 8%nat → in_urange 64 (Z.lxor crc (le_val w)).
Proof. intros Hc Hw Hlen. apply lxor_urange; [done..|]. pose proof (le_val_range w Hw) as Hr. rewrite Hlen in Hr. exact Hr. Qed.

Lemma little_word_ok crc w :
  in_urange 64 crc → bytes_ok w → length w = 8%nat → little_word table crc w = Some (crc64_ref crc w).
Proof.
  intros Hc Hw Hlen. rewrite ref_word by done. rewrite Hlen. unfold little_word. pose proof (word_register crc w Hc Hw Hlen) as Hx.
  set (x := Z.lxor crc (le_val w)) in *. rewrite !Htable by (lia || apply byte_index || by apply word_index). rewrite (word_lookups x). reflexivity.
Qed.

Lemma little_ok crc next s : in_urange 64 crc → bytes_ok s → crcspeed64little table crc next s = Some (crc64_ref crc s).
Proof. apply (speed_ok _ _ (λ x, x)); [exact little_byte_ok|exact little_word_ok]. Qed.

End little.

(** ** Bit by bit *)

Lemma reflect_loop_bits n data ret i :
  (∀ j, 64 ≤ j → Z.testbit ret j = false) → 0 ≤ i →
  Z.testbit (crc_reflect_loop n data ret) i =
    bool_decide (i < 64) && (if decide (i < Z.of_nat n) then Z.testbit data (Z.of_nat n - i) else Z.testbit ret (i - Z.of_nat n)).
Proof.
  revert data ret. induction n as [|n IH]; intros data ret Hret Hi.
  - simpl. rewrite decide_False by lia. rewrite Z.sub_0_r. case_bool_decide; [done|]. apply Hret. lia.
  - cbn [crc_reflect_loop]. rewrite IH.
    2: { intros j Hj. rewrite uwrap_testbit by lia. by rewrite bool_decide_false by lia. }
    2: done.
    case_bool_decide as Hi64; [|done]. simpl andb. destruct (decide (i < Z.of_nat n)) as [Hn|Hn].
    + rewrite decide_True by lia. rewrite Z.shiftr_spec by lia. f_equal. lia.
    + rewrite uwrap_testbit by lia. rewrite bool_decide_true by lia. simpl andb. rewrite Z.lor_spec, Z.land_spec.
      destruct (decide (i = Z.of_nat n)) as [->|].
      * rewrite Z.sub_diag, Z.shiftl_spec_low, Z.shiftr_spec by lia. rewrite decide_True by lia. change (Z.testbit 1 0) with true.
        rewrite orb_false_l, andb_true_r. f_equal. lia.
      * rewrite decide_False by lia. rewrite Z.shiftl_spec by lia. change 1 with (Z.ones 1) at 3. rewrite Z.testbit_ones_nonneg by lia.
        rewrite (proj2 (Z.ltb_ge _ _)) by lia. rewrite andb_false_r, orb_false_r. f_equal. lia.
Qed.

Lemma reflect_bits data i : 0 ≤ i → Z.testbit (crc_reflect data 64) i = bool_decide (i < 64) && Z.testbit data (63 - i).
Proof.
  intros Hi. unfold crc_reflect. assert (∀ j, 0 ≤ j → Z.testbit (Z.land data 1) j = Z.testbit data j && bool_decide (j = 0)) as H1.
  { intros j Hj. rewrite Z.land_spec. f_equal. change 1 with (Z.ones 1). rewrite Z.testbit_ones_nonneg by lia.
    destruct (Z.ltb_spec j 1); case_bool_decide; done || lia. }
  rewrite reflect_loop_bits; [|intros j Hj; rewrite H1 by lia; by rewrite bool_decide_false, andb_false_r by lia|done].
  change (Z.of_nat (64 - 1)) with 63. case_bool_decide as H64; [|done]. rewrite !andb_true_l. destruct (decide (i < 63)) as [|Hge]; [done|].
  assert (i = 63) as -> by lia. rewrite H1 by lia. by rewrite bool_decide_true, andb_true_r by lia.
Qed.

Local Opaque crc_reflect.

Lemma reflect_lxor a b : crc_reflect (Z.lxor a b) 64 = Z.lxor (crc_reflect a 64) (crc_reflect b 64).
Proof. bits i. rewrite !reflect_bits by done. case_bool_decide; [|done]. by rewrite Z.lxor_spec. Qed.

(** A step of the register of [_crc64], seen in reverse. *)
Lemma reflect_step r : crc_reflect (u64 (Z.shiftl r 1)) 64 = Z.shiftr (crc_reflect r 64) 1.
Proof.
  bits i. rewrite !reflect_bits by lia. destruct (decide (i < 63)) as [Hlt|Hge].
  - rewrite !bool_decide_true by lia. cbn [andb]. rewrite uwrap_testbit, bool_decide_true by lia. cbn [andb].
    rewrite Z.shiftl_spec by lia. f_equal. lia.
  - rewrite (bool_decide_false (i + 1 < 64)) by lia. case_bool_decide; [|done]. replace (63 - i) with 0 by lia.
    rewrite uwrap_testbit by lia. rewrite Z.shiftl_spec_low by lia. by rewrite andb_false_r.
Qed.

Lemma crc64_bit_ok r (b : bool) :
  crc_reflect (let crc := u64 (Z.shiftl r 1) in if xorb (Z.testbit r 63) b then Z.lxor crc POLY else crc) 64 =
    step (Z.lxor (crc_reflect r 64) (Z.b2z b)).
Proof.
  cbn zeta. unfold step. assert (Z.odd (Z.lxor (crc_reflect r 64) (Z.b2z b)) = xorb (Z.testbit r 63) b) as ->.
  { rewrite <- Z.bit0_odd, Z.lxor_spec, reflect_bits by done. rewrite Z.sub_0_r. f_equal. by destruct b. }
  assert (Z.shiftr (Z.lxor (crc_reflect r 64) (Z.b2z b)) 1 = Z.shiftr (crc_reflect r 64) 1) as ->.
  { rewrite Z.shiftr_lxor. by destruct b; rewrite Z.lxor_0_r. }
  destruct (xorb (Z.testbit r 63) b); [rewrite reflect_lxor|rewrite Z.lxor_0_r]; rewrite reflect_step; [|done].
  f_equal; vm_compute; reflexivity.
Qed.

Lemma low_bits_step c j n :
  0 ≤ j → Z.land (Z.shiftr c j) (Z.ones (Z.of_nat (S n))) =
    Z.lxor (Z.b2z (Z.testbit c j)) (Z.shiftl (Z.land (Z.shiftr c (j + 1)) (Z.ones (Z.of_nat n))) 1).
Proof.
  intros Hj. bits i. rewrite Z.testbit_ones_nonneg by lia. destruct (decide (i = 0)) as [->|].
  - rewrite Z.shiftl_spec_low by lia. rewrite (proj2 (Z.ltb_lt _ _)) by lia. rewrite andb_true_r, xorb_false_r, Z.b2z_bit0. by rewrite Z.add_0_l.
  - rewrite Z.shiftl_spec by lia. rewrite Z.land_spec, Z.shiftr_spec, Z.testbit_ones_nonneg by lia.
    assert (Z.testbit (Z.b2z (Z.testbit c j)) i = false) as ->.
    { destruct (Z.testbit c j); [|apply Z.bits_0]. change (Z.b2z true) with (2 ^ 0). apply Z.pow2_bits_false. lia. }
    rewrite xorb_false_l. replace (i - 1 + (j + 1)) with (i + j) by lia. f_equal. apply eq_true_iff_eq. rewrite !Z.ltb_lt. lia.
Qed.

Lemma crc64_bits_ok n r c j :
  0 ≤ j → crc_reflect (crc64_bits n r c (2 ^ j)) 64 = stepn n (Z.lxor (crc_reflect r 64) (Z.land (Z.shiftr c j) (Z.ones (Z.of_nat n)))).
Proof.
  revert r j. induction n as [|n IH]; intros r j Hj.
  { change (Z.ones (Z.of_nat 0)) with 0. rewrite Z.land_0_r, Z.lxor_0_r. reflexivity. }
  cbn [crc64_bits].
  change 9223372036854775808 with (2 ^ 63). rewrite !land_pow2_eqb by lia. rewrite negb_involutive.
  assert (Z.shiftl (2 ^ j) 1 = 2 ^ (j + 1)) as -> by (rewrite Z.shiftl_mul_pow2 by lia; rewrite <- Z.pow_add_r by lia; done).
  rewrite IH by lia. assert (∀ x : bool, (if negb x then Z.testbit r 63 else negb (Z.testbit r 63)) = xorb (Z.testbit r 63) x) as ->
    by (intros x; by destruct x, (Z.testbit r 63)).
  pose proof (crc64_bit_ok r (Z.testbit c j)) as Hbit. cbn zeta in Hbit. rewrite Hbit. rewrite (low_bits_step c j n Hj), <- Z.lxor_assoc.
  change (step ?x) with (stepn 1 x). rewrite lxor_stepn, <- stepn_add, Nat.add_1_r. reflexivity.
Qed.

Lemma crc64_bits_range n r c i : in_urange 64 r → in_urange 64 (crc64_bits n r c i).
Proof.
  revert r i. induction n as [|n IH]; intros r i Hr; [done|]. cbn [crc64_bits]. apply IH.
  assert (in_urange 64 (u64 (Z.shiftl r 1))) by by apply uwrap_range. case_match; [|done]. apply lxor_urange; [done..|split; done].
Qed.

Lemma crc64_bytes_ok r data :
  in_urange 64 r → bytes_ok data →
  in_urange 64 (crc64_bytes r data) ∧ crc_reflect (crc64_bytes r data) 64 = crc64_ref (crc_reflect r 64) data.
Proof.
  intros Hr Hd. revert r Hr. induction Hd as [|c data Hc Hd IH]; intros r Hr; [done|]. cbn [crc64_bytes].
  pose proof (crc64_bits_range 8 r c 1 Hr) as Hrange. change 0xffffffffffffffff with (Z.ones 64). rewrite land_ones_small by done.
  destruct (IH _ Hrange) as [H1 H2]. split; [done|]. rewrite H2. change 1 with (2 ^ 0). rewrite crc64_bits_ok by done.
  rewrite Z.shiftr_0_r, land_ones_small; [reflexivity|done|]. by apply byte_urange.
Qed.

Lemma crc64_ref_ok data : bytes_ok data → _crc64 0 data = crc64_ref 0 data.
Proof.
  intros Hd. unfold _crc64. destruct (crc64_bytes_ok 0 data ltac:(done) Hd) as [H1 H2]. change 0xffffffffffffffff with (Z.ones 64).
  rewrite land_ones_small by done. rewrite Z.lxor_0_r, H2. reflexivity.
Qed.

(** ** The other byte order *)

Definition swap_stage (s mask a : Z) : Z := Z.lor (Z.land (Z.shiftr a s) mask) (u64 (Z.shiftl (Z.land a mask) s)).

Ltac known_bits :=
  cbn -[Z.testbit]; repeat match goal with
  | |- context [Z.testbit (Zpos ?m) ?k] => let b := eval vm_compute in (Z.testbit (Zpos m) k) in change (Z.testbit (Zpos m) k) with b
  end; rewrite ?andb_true_r, ?andb_false_r, ?orb_false_r; reflexivity.

Lemma swap_stage_bits s mask a i :
  (s, mask) = (8, 0xff00ff00ff00ff) ∨ (s, mask) = (16, 0xffff0000ffff) → 0 ≤ i < 64 → Z.testbit (swap_stage s mask a) i = Z.testbit a (Z.lxor i s).
Proof.
  intros Hs Hi. unfold swap_stage. rewrite Z.lor_spec, Z.land_spec, uwrap_testbit, bool_decide_true, andb_true_l by lia.
  rewrite Z.shiftr_spec, Z.shiftl_spec, Z.land_spec by lia. destruct Hs as [[= -> ->]|[= -> ->]]; bit_cases i ltac:(known_bits).
Qed.

Lemma swap_stage_high s mask a i : in_urange 64 mask → 64 ≤ i → Z.testbit (swap_stage s mask a) i = false.
Proof.
  intros Hm Hi. unfold swap_stage. rewrite Z.lor_spec, Z.land_spec, uwrap_testbit, bool_decide_false by lia.
  rewrite (testbit_range 64 mask) by (done || lia). by rewrite andb_false_r.
Qed.

Lemma xor_index i s : (s = 8 ∨ s = 16 ∨ s = 32) → 0 ≤ i < 64 → 0 ≤ Z.lxor i s < 64.
Proof. intros [->|[->| ->]] Hi; bit_cases i ltac:(vm_compute; split; congruence). Qed.

Lemma rev8_bits a i : 0 ≤ i < 64 → Z.testbit (rev8 a) i = Z.testbit a (Z.lxor i 56).
Proof.
  intros Hi. set (b := swap_stage 16 0xffff0000ffff (swap_stage 8 0xff00ff00ff00ff a)).
  change (rev8 a) with (Z.lor (Z.shiftr b 32) (u64 (Z.shiftl b 32))).
  assert (Z.testbit (Z.lor (Z.shiftr b 32) (u64 (Z.shiftl b 32))) i = Z.testbit b (Z.lxor i 32)) as ->.
  { rewrite Z.lor_spec, uwrap_testbit, bool_decide_true, andb_true_l by lia. rewrite Z.shiftr_spec, Z.shiftl_spec by lia.
    destruct (decide (i < 32)).
    - rewrite (Z.testbit_neg_r b (i - 32)), orb_false_r by lia. f_equal. bit_cases i ltac:(done || lia).
    - assert (Z.testbit b (i + 32) = false) as -> by (apply swap_stage_high; [done|lia]). rewrite orb_false_l. f_equal. bit_cases i ltac:(done || lia). }
  unfold b. rewrite !swap_stage_bits by (auto || (repeat (apply xor_index; auto))).
  by rewrite !Z.lxor_assoc.
Qed.

Lemma rev8_high a i : 64 ≤ i → Z.testbit (rev8 a) i = false.
Proof.
  intros Hi. unfold rev8. cbn zeta. rewrite Z.lor_spec, uwrap_testbit, bool_decide_false, andb_false_l, orb_false_r by lia.
  rewrite Z.shiftr_spec by lia. fold (swap_stage 8 0xff00ff00ff00ff a). apply swap_stage_high; [done|lia].
Qed.

Lemma rev8_nonneg a : 0 ≤ a → 0 ≤ rev8 a.
Proof.
  intros Ha. unfold rev8. cbn zeta. apply Z.lor_nonneg. split; [|by apply uwrap_range]. apply Z.shiftr_nonneg, Z.lor_nonneg. split; [|by apply uwrap_range].
  apply Z.land_nonneg. by right.
Qed.

Lemma rev8_range a : 0 ≤ a → in_urange 64 (rev8 a).
Proof. intros Ha. apply urange_testbit; [done|]. split; [by apply rev8_nonneg|]. intros i Hi. by apply rev8_high. Qed.

(** Equality of words whose bytes are reversed. *)
Ltac rev8_bits i :=
  bits i; destruct (decide (i < 64)); [rewrite ?rev8_bits by lia|rewrite ?rev8_high by lia].

Lemma rev8_lxor a b : rev8 (Z.lxor a b) = Z.lxor (rev8 a) (rev8 b).
Proof. rev8_bits i; [by rewrite Z.lxor_spec|done]. Qed.

Lemma rev8_rev8 a : in_urange 64 a → rev8 (rev8 a) = a.
Proof.
  intros Ha. rev8_bits i; [|by rewrite (testbit_range 64 a) by (done || lia)]. rewrite rev8_bits by (bit_cases i ltac:(vm_compute; split; congruence)).
  by rewrite Z.lxor_assoc, Z.lxor_nilpotent, Z.lxor_0_r.
Qed.

(** The bit [r] of byte [q] goes to the same bit of byte [7 - q]. *)
Lemma byte_cases i : 0 ≤ i < 64 → ∃ r q, i = r + 8 * q ∧ 0 ≤ r < 8 ∧ 0 ≤ q < 8 ∧ Z.lxor i 56 = r + 8 * (7 - q).
Proof.
  intros Hi. exists (i `mod` 8), (i / 8). pose proof (Z.div_mod i 8 ltac:(lia)). pose proof (Z.mod_pos_bound i 8 ltac:(lia)).
  split_and!; [lia|lia|lia|apply Z.div_pos; lia|apply Z.div_lt_upper_bound; lia|]. bit_cases i ltac:(reflexivity).
Qed.

Lemma rev8_byte x n m :
  in_urange 64 x → n + m = 56 ∧ 0 ≤ n ≤ 56 ∧ n mod 8 = 0 → Z.land (Z.shiftr (rev8 x) n) 0xff = Z.land (Z.shiftr x m) 0xff.
Proof.
  intros Hx (Hm & Hn & Hn8). pose proof (Z.div_mod n 8 ltac:(lia)). change 0xff with (Z.ones 8). bits i. rewrite Z.testbit_ones_nonneg by lia.
  destruct (Z.ltb_spec i 8); [|by rewrite !andb_false_r].
  f_equal. rewrite rev8_bits by lia. destruct (byte_cases (i + n) ltac:(lia)) as (r & q & Hrq & Hr & Hq & ->). f_equal. lia.
Qed.

Lemma top_byte x : in_urange 64 x → Z.land (Z.shiftr x 56) 0xff = Z.shiftr x 56.
Proof. intros Hx. change 0xff with (Z.ones 8). apply land_ones_small; [done|]. by apply word_index. Qed.

Lemma rev8_top x : in_urange 64 x → Z.shiftr (rev8 x) 56 = Z.land x 0xff.
Proof.
  intros Hx. rewrite <- top_byte, (rev8_byte x 56 0) by (done || apply rev8_range; range_lia). by rewrite Z.shiftr_0_r.
Qed.

Lemma rev8_bottom x : in_urange 64 x → Z.land (rev8 x) 0xff = Z.shiftr x 56.
Proof. intros Hx. rewrite <- (Z.shiftr_0_r (rev8 x)), (rev8_byte x 0 56) by done. by apply top_byte. Qed.

Lemma rev8_shift b j : byte_ok b → 0 ≤ j < 8 → rev8 (Z.shiftl b (8 * j)) = Z.shiftl b (8 * (7 - j)).
Proof.
  intros Hb Hj. assert (∀ k, k < 0 ∨ 8 ≤ k → Z.testbit b k = false) as Hout.
  { intros k [Hk|Hk]; [by apply Z.testbit_neg_r|]. apply (testbit_range 8); [done|by apply byte_urange|done]. }
  rev8_bits i.
  - destruct (byte_cases i ltac:(lia)) as (r & q & -> & Hr & Hq & ->). rewrite !Z.shiftl_spec by lia.
    destruct (decide (q = 7 - j)) as [->|]; [f_equal; lia|]. rewrite !Hout by lia. done.
  - rewrite Z.shiftl_spec by lia. by rewrite Hout by lia.
Qed.

Lemma rev8_low x : in_urange 64 x → u64 (Z.shiftl (rev8 x) 8) = rev8 (Z.shiftr x 8).
Proof.
  intros Hx. rev8_bits i.
  - rewrite uwrap_testbit, bool_decide_true, andb_true_l by lia. rewrite Z.shiftl_spec by lia.
    destruct (byte_cases i ltac:(lia)) as (r & q & -> & Hr & Hq & ->). rewrite Z.shiftr_spec by lia.
    destruct (decide (q = 0)) as [->|].
    + rewrite Z.testbit_neg_r by lia. symmetry. apply (testbit_range 64); [done|done|lia].
    + rewrite rev8_bits by lia. destruct (byte_cases (r + 8 * q - 8) ltac:(lia)) as (r' & q' & Hrq' & Hr' & Hq' & ->). f_equal. lia.
  - rewrite uwrap_testbit by lia. by rewrite bool_decide_false by lia.
Qed.

Lemma le_val_word b0 b1 b2 b3 b4 b5 b6 b7 :
  bytes_ok [b0; b1; b2; b3; b4; b5; b6; b7] →
  le_val [b0; b1; b2; b3; b4; b5; b6; b7] =
    Z.lxor (Z.shiftl b0 (8 * 0)) (Z.lxor (Z.shiftl b1 (8 * 1)) (Z.lxor (Z.shiftl b2 (8 * 2)) (Z.lxor (Z.shiftl b3 (8 * 3))
      (Z.lxor (Z.shiftl b4 (8 * 4)) (Z.lxor (Z.shiftl b5 (8 * 5)) (Z.lxor (Z.shiftl b6 (8 * 6)) (Z.shiftl b7 (8 * 7)))))))).
Proof.
  intros Hw. unfold bytes_ok in Hw. rewrite !Forall_cons in Hw. destruct Hw as (H0 & H1 & H2 & H3 & H4 & H5 & H6 & H7 & _).
  rewrite !le_val_cons by (repeat constructor; done || by apply byte_urange). change (le_val []) with 0.
  rewrite Z.shiftl_0_l, Z.lxor_0_r, !Z.shiftl_lxor, !Z.shiftl_shiftl, Z.shiftl_0_r by lia. reflexivity.
Qed.

(** A sum of eight words, from both ends. *)
Lemma lxor_chain_rev a b c d e f g h :
  Z.lxor a (Z.lxor b (Z.lxor c (Z.lxor d (Z.lxor e (Z.lxor f (Z.lxor g h)))))) =
    Z.lxor h (Z.lxor g (Z.lxor f (Z.lxor e (Z.lxor d (Z.lxor c (Z.lxor b a)))))).
Proof.
  rewrite (Z.lxor_comm a), (Z.lxor_comm b _), (Z.lxor_comm c _), (Z.lxor_comm d _), (Z.lxor_comm e _), (Z.lxor_comm f _), (Z.lxor_comm g _).
  by rewrite !Z.lxor_assoc.
Qed.

Lemma le_val_reverse w : bytes_ok w → length w = 8%nat → le_val (reverse w) = rev8 (le_val w).
Proof.
  intros Hw Hlen. destruct w as [|b0 [|b1 [|b2 [|b3 [|b4 [|b5 [|b6 [|b7 [|]]]]]]]]]; simplify_eq/=.
  change (reverse [b0; b1; b2; b3; b4; b5; b6; b7]) with [b7; b6; b5; b4; b3; b2; b1; b0].
  assert (bytes_ok [b7; b6; b5; b4; b3; b2; b1; b0]) as Hw' by by apply (Forall_reverse byte_ok [b0; b1; b2; b3; b4; b5; b6; b7]).
  rewrite !le_val_word by done. unfold bytes_ok in Hw. rewrite !Forall_cons in Hw. destruct Hw as (H0 & H1 & H2 & H3 & H4 & H5 & H6 & H7 & _).
  rewrite !rev8_lxor, !rev8_shift by (done || lia). apply lxor_chain_rev.
Qed.

(** The sums of the two word routines. *)
Lemma rev8_chain a b c d e f g h :
  rev8 (Z.lxor (Z.lxor (Z.lxor (Z.lxor (Z.lxor (Z.lxor (Z.lxor a b) c) d) e) f) g) h) =
    Z.lxor (Z.lxor (Z.lxor (Z.lxor (Z.lxor (Z.lxor (Z.lxor (rev8 h) (rev8 g)) (rev8 f)) (rev8 e)) (rev8 d)) (rev8 c)) (rev8 b)) (rev8 a).
Proof. rewrite !rev8_lxor, !Z.lxor_assoc. apply lxor_chain_rev. Qed.

Section big.
Context (table : list (list Z)) (Htable : table_ok table).

Lemma big_look k i : (k < 8)%nat → 0 ≤ i < 256 → look (map (map rev8) table) k i = Some (rev8 (stepn (8 * S k) i)).
Proof.
  intros Hk Hi. pose proof (Htable k i Hk Hi) as Hl. unfold look, table_get in *. change (map (map rev8) table) with (fmap (M:=list) (map rev8) table).
  rewrite list_lookup_fmap. destruct (table !! k) as [row|]; [|done]. cbn [fmap option_fmap option_map mbind option_bind] in *.
  rewrite decide_True in * by lia. change (map rev8 row) with (fmap (M:=list) rev8 row). by rewrite list_lookup_fmap, Hl.
Qed.

Lemma big_byte_ok crc b : in_urange 64 crc → byte_ok b → big_byte (map (map rev8) table) (rev8 crc) b = Some (rev8 (stepn 8 (Z.lxor crc b))).
Proof.
  intros Hc Hb. unfold big_byte. rewrite rev8_top by done.
  assert (Z.lxor (Z.land crc 0xff) b = Z.land (Z.lxor crc b) 0xff) as ->.
  { change 0xff with (Z.ones 8). rewrite <- (land_ones_small b 8) at 1 by (done || by apply byte_urange). bits i. rewrite Z.lxor_spec. btauto. }
  rewrite big_look by (lia || apply byte_index). bind_simpl. rewrite rev8_low by done. rewrite <- rev8_lxor.
  rewrite (stepn_split 8 (Z.lxor crc b)). change (Z.of_nat 8) with 8. rewrite Z.shiftr_lxor, (shiftr_small 8 b) by (done || by apply byte_urange).
  rewrite Z.lxor_0_r. reflexivity.
Qed.

Lemma big_word_ok crc w :
  in_urange 64 crc → bytes_ok w → length w = 8%nat → big_word (map (map rev8) table) (rev8 crc) w = Some (rev8 (crc64_ref crc w)).
Proof.
  intros Hc Hw Hlen. rewrite ref_word by done. rewrite Hlen. unfold big_word. rewrite le_val_reverse, <- rev8_lxor by done.
  pose proof (word_register crc w Hc Hw Hlen) as Hx. set (x := Z.lxor crc (le_val w)) in *.
  rewrite (word_lookups x), rev8_chain. rewrite rev8_top, rev8_bottom by done.
  rewrite (rev8_byte x 8 48), (rev8_byte x 16 40), (rev8_byte x 24 32), (rev8_byte x 32 24), (rev8_byte x 40 16), (rev8_byte x 48 8) by done.
  rewrite !big_look by (lia || apply byte_index || by apply word_index). reflexivity.
Qed.

Lemma big_ok crc next s :
  in_urange 64 crc → bytes_ok s → crcspeed64big (map (map rev8) table) crc next s = Some (crc64_ref crc s).
Proof.
  intros Hc Hs. unfold crcspeed64big. rewrite (speed_ok _ _ rev8 big_byte_ok big_word_ok) by done. bind_simpl.
  by rewrite rev8_rev8 by by apply ref_range.
Qed.

End big.

(** ** The checksum of a message *)

Definition crc64_table_ok (little : bool) (table : list (list Z)) : Prop :=
  ∀ crc next s, in_urange 64 crc → bytes_ok s → crc64 little table crc next s = Some (crc64_ref crc s).

Lemma crc64_init_ok little : ∃ table, crc64_init little = Some table ∧ crc64_table_ok little table.
Proof.
  destruct (little_init_ok _crc64) as (table & Hinit & Htable).
  { intros n Hn. rewrite crc64_ref_ok; [reflexivity|]. repeat constructor; lia. }
  unfold crc64_init, crcspeed64native_init, crc64_table_ok, crc64, crcspeed64native. destruct little.
  - exists table. split; [exact Hinit|]. by apply little_ok.
  - unfold crcspeed64big_init. rewrite Hinit. bind_simpl. exists (map (map rev8) table). split; [reflexivity|]. by apply big_ok.
Qed.
