(* ===== verification/CrcOk.v ===== *)
(** * crc16.c, crc64.c, cluster.c: what the checksums promise

The fast CRC-64 is the bit by bit one on every machine and detects every burst of up to 64 bits; the CRC-16 is the
shift register of its polynomial, and the slot of a key is that of its hash tag. *)

From S2P Require Import Prelude Crc CrcEquiv.

Local Open Scope Z_scope.

(** ** CRC-64 *)

Lemma crc64_app little table a b next next' :
  crc64_table_ok little table → bytes_ok a → bytes_ok b →
  (crc ← crc64 little table 0 next a; crc64 little table crc next' b) = Some (crc64_ref 0 (a ++ b)).
Proof.
  intros Ht Ha Hb. rewrite Ht by done. bind_simpl. rewrite Ht by (done || by apply ref_range). by rewrite ref_app.
Qed.

(** C28. [crc64_init] builds its tables on little-endian and big-endian machines, and with them [crc64] computes what the
    bit by bit routine [_crc64] computes, whatever the address of the buffer, in one piece or in two. *)
Theorem crc64_equivalence (little : bool) :
  ∃ table, crc64_init little = Some table ∧
    (∀ next s, bytes_ok s → crc64 little table 0 next s = Some (_crc64 0 s)) ∧
    (∀ next next' a b, bytes_ok a → bytes_ok b →
       (crc ← crc64 little table 0 next a; crc64 little table crc next' b) = Some (_crc64 0 (a ++ b))).
Proof.
  destruct (crc64_init_ok little) as (table & Hinit & Ht). exists table. split; [exact Hinit|]. split.
  - intros next s Hs. rewrite Ht by done. by rewrite crc64_ref_ok.
  - intros next next' a b Ha Hb. rewrite crc64_app by done. by rewrite crc64_ref_ok by by apply Forall_app.
Qed.

(** Equal checksums come from equal registers. *)
Lemma ref_cancel_l crc crc' s : in_urange 64 crc → in_urange 64 crc' → bytes_ok s → crc64_ref crc s = crc64_ref crc' s → crc = crc'.
Proof.
  intros Hc Hc' Hs Heq. revert crc crc' Hc Hc' Heq. induction Hs as [|b s Hb Hs IH]; intros crc crc' Hc Hc' Heq; [done|].
  pose proof (proj2 (byte_urange b Hb)) as Hb'.
  apply IH, stepn_inj in Heq; try (by apply lxor_urange); try (by apply stepn_range, lxor_urange).
  rewrite <- (Z.lxor_0_r crc), <- (Z.lxor_0_r crc'), <- (Z.lxor_nilpotent b), <- !Z.lxor_assoc. by rewrite Heq.
Qed.

Lemma lxor_cancel a b c : Z.lxor a b = Z.lxor a c → b = c.
Proof.
  intros Heq. rewrite <- (Z.lxor_0_l b), <- (Z.lxor_0_l c), <- (Z.lxor_nilpotent a), !Z.lxor_assoc. by rewrite Heq.
Qed.

Lemma ref_word_inj crc w w' :
  in_urange 64 crc → bytes_ok w → bytes_ok w' → length w = length w' → (length w ≤ 8)%nat → crc64_ref crc w = crc64_ref crc w' → w = w'.
Proof.
  intros Hc Hw Hw' Hlen H8. rewrite !ref_word by done. rewrite <- Hlen. intros Heq.
  assert (∀ v, bytes_ok v → (length v ≤ 8)%nat → in_urange 64 (le_val v)) as Hval.
  { intros v Hv Hv8. destruct (le_val_range v Hv) as [H0 H1]. split; [done|]. apply (Z.lt_le_trans _ _ _ H1). apply Z.pow_le_mono_r; [done|]. lia. }
  apply stepn_inj in Heq; [|apply lxor_urange; [done..|apply Hval; by rewrite <- ?Hlen]..]. apply lxor_cancel in Heq.
  rewrite <- (le_bytes_val (zlen w) w), <- (le_bytes_val (zlen w) w') by (done || by rewrite Hlen). by rewrite Heq.
Qed.

(** Damage within eight consecutive bytes changes the checksum. *)
Lemma ref_burst pre w w' post :
  bytes_ok pre → bytes_ok post → bytes_ok w → bytes_ok w' → length w = length w' → (length w ≤ 8)%nat → w ≠ w' →
  crc64_ref 0 (pre ++ w ++ post) ≠ crc64_ref 0 (pre ++ w' ++ post).
Proof.
  intros Hpre Hpost Hw Hw' Hlen H8 Hne Heq. rewrite !ref_app in Heq. assert (in_urange 64 (crc64_ref 0 pre)) as Hc by by apply ref_range.
  apply ref_cancel_l in Heq; [|by apply ref_range..|done]. by apply ref_word_inj in Heq.
Qed.

(** C29. Two messages of the same length that differ only within eight consecutive bytes have different checksums: the
    checksum of an RDB file detects every burst of damage of up to 64 bits on a byte boundary. *)
Theorem crc64_detects_bursts (little : bool) table (pre w w' post : bytes) next next' :
  crc64_init little = Some table → bytes_ok pre → bytes_ok post → bytes_ok w → bytes_ok w' →
  length w = length w' → (length w ≤ 8)%nat → w ≠ w' →
  crc64 little table 0 next (pre ++ w ++ post) ≠ crc64 little table 0 next' (pre ++ w' ++ post).
Proof.
  intros Hinit Hpre Hpost Hw Hw' Hlen H8 Hne Heq. destruct (crc64_init_ok little) as (table' & Hinit' & Ht).
  rewrite Hinit in Hinit'. injection Hinit' as <-.
  rewrite !Ht in Heq by (done || (repeat (apply Forall_app; split); done)). injection Heq as Heq. revert Heq. by apply ref_burst.
Qed.

Lemma crc64_detects_bursts_witness :
  ∃ table, crc64_init true = Some table ∧
    crc64 true table 0 0 ([1; 2] ++ [255] ++ [3]) ≠ crc64 true table 0 3 ([1; 2] ++ [254] ++ [3]).
Proof.
  destruct (crc64_init_ok true) as (table & Hinit & _). exists table. split; [exact Hinit|].
  apply (crc64_detects_bursts true table [1; 2] [255] [254] [3] 0 3 Hinit); repeat constructor; done || (simpl; lia).
Defined.

(** The result of [_crc64] is reflected and its argument is not, so that it does not continue from its own result. *)
Lemma crc64_bitwise_not_incremental : _crc64 (_crc64 0 [1]) [2] ≠ _crc64 0 [1; 2].
Proof. vm_compute. discriminate. Qed.

(** ** CRC-16 *)

Definition step16 (x : Z) : Z := Z.lxor (u16 (Z.shiftl x 1)) (if Z.testbit x 15 then 0x1021 else 0).
Definition stepn16 (n : nat) (x : Z) : Z := Nat.iter n step16 x.

(** Every byte enters at the high end of the register of the polynomial 0x1021. *)
Definition crc16_ref (crc : Z) (s : bytes) : Z := foldl (λ crc b, stepn16 8 (Z.lxor crc (Z.shiftl b 8))) crc s.

Lemma uwrap_lxor w x y : 0 ≤ w → uwrap w (Z.lxor x y) = Z.lxor (uwrap w x) (uwrap w y).
Proof. intros Hw. bits i. rewrite !uwrap_testbit by lia. rewrite Z.lxor_spec. by case_bool_decide. Qed.

Lemma step16_lxor x y : step16 (Z.lxor x y) = Z.lxor (step16 x) (step16 y).
Proof.
  unfold step16. rewrite Z.lxor_spec, Z.shiftl_lxor, uwrap_lxor by done.
  destruct (Z.testbit x 15), (Z.testbit y 15); cbn [xorb]; bits i; rewrite ?Z.bits_0;
    by destruct (Z.testbit (u16 (Z.shiftl x 1)) i), (Z.testbit (u16 (Z.shiftl y 1)) i), (Z.testbit 4129 i).
Qed.

Lemma stepn16_lxor n x y : stepn16 n (Z.lxor x y) = Z.lxor (stepn16 n x) (stepn16 n y).
Proof. unfold stepn16. induction n as [|n IH]; [done|]. simpl. by rewrite IH, step16_lxor. Qed.

Lemma byte_forallb (P : Z → bool) x : forallb P (Z.of_nat <$> seq 0 256) = true → in_urange 8 x → P x = true.
Proof.
  intros HP Hx. rewrite forallb_forall in HP. apply HP. replace x with (Z.of_nat (Z.to_nat x)) by range_lia.
  apply in_map, in_seq. range_lia.
Qed.

(** The table, and the registers whose high bits are 0. *)
Lemma crc16tab_ok x : in_urange 8 x → table_get crc16tab x = Some (stepn16 8 (Z.shiftl x 8)).
Proof.
  intros Hx. refine (bool_decide_eq_true_1 _ (byte_forallb (λ x, bool_decide (table_get crc16tab x = Some (stepn16 8 (Z.shiftl x 8)))) x _ Hx)).
  vm_compute; reflexivity.
Qed.

Lemma stepn16_low x : in_urange 8 x → stepn16 8 x = Z.shiftl x 8.
Proof. intros Hx. apply Z.eqb_eq. apply (byte_forallb (λ x, Z.eqb (stepn16 8 x) (Z.shiftl x 8))); [vm_compute; reflexivity|done]. Qed.

Lemma step16_range x : in_urange 16 (step16 x).
Proof. apply lxor_urange; [done|by apply uwrap_range|]. by destruct (Z.testbit x 15). Qed.

Lemma crc16_byte crc b :
  in_urange 16 crc → byte_ok b →
  (v ← table_get crc16tab (Z.land (Z.lxor (Z.shiftr crc 8) b) 0x00FF); Some (u16 (Z.lxor (Z.shiftl crc 8) v)))
    = Some (stepn16 8 (Z.lxor crc (Z.shiftl b 8))).
Proof.
  intros Hc Hb. change 0x00FF with (Z.ones 8). rewrite crc16tab_ok by by apply land_ones_urange. bind_simpl. f_equal.
  set (h := Z.lxor (Z.shiftr crc 8) b). assert (in_urange 8 h) as Hh.
  { apply lxor_urange; [done| |by apply byte_urange]. rewrite Z.shiftr_div_pow2 by done. split; [apply Z.div_pos|apply Z.div_lt_upper_bound]; range_lia. }
  rewrite land_ones_small by done. rewrite <- (split_low 8 crc) at 2 by done. rewrite Z.lxor_assoc, <- Z.shiftl_lxor. fold h.
  rewrite stepn16_lxor, (stepn16_low (Z.land crc _)) by by apply land_ones_urange. rewrite uwrap_lxor by done. f_equal.
  - bits i. rewrite uwrap_testbit by done. destruct (decide (i < 8)) as [|Hge].
    + rewrite !Z.shiftl_spec_low by lia. apply andb_false_r.
    + rewrite !Z.shiftl_spec by lia. rewrite Z.land_spec, Z.testbit_ones_nonneg by lia. rewrite andb_comm. f_equal.
      apply eq_true_iff_eq. rewrite bool_decide_eq_true, Z.ltb_lt. lia.
  - apply uwrap_small. apply step16_range.
Qed.

Lemma crc16_loop_ok crc s : in_urange 16 crc → bytes_ok s → crc16_loop crc s = Some (crc16_ref crc s) ∧ in_urange 16 (crc16_ref crc s).
Proof.
  intros Hc Hs. revert crc Hc. induction Hs as [|b s Hb Hs IH]; intros crc Hc; [done|]. cbn [crc16_loop crc16_ref foldl].
  pose proof (crc16_byte crc b Hc Hb) as Hbyte. destruct (table_get _ _) as [v|]; [|done]. revert Hbyte. bind_simpl. intros Hbyte%(inj Some). rewrite Hbyte.
  apply (IH (stepn16 8 (Z.lxor crc (Z.shiftl b 8)))), step16_range.
Qed.

(** ** Slots *)

(** [t] is the hash tag of [key]: what lies between the first opening brace and the first closing one after it,
    when it is not empty; the whole key otherwise. *)
Definition braces (key t : bytes) : Prop := ∃ a b, key = a ++ 123 :: t ++ 125 :: b ∧ (123 ∉ a) ∧ (125 ∉ t) ∧ t ≠ [].
Definition hash_tag (key t : bytes) : Prop := braces key t ∨ ((¬ ∃ t', braces key t') ∧ t = key).

Lemma find_char_here c a b s : c ∉ a → find_char c (a ++ c :: b) s = (s + length a)%nat.
Proof.
  revert s. induction a as [|x a IH]; intros s Ha; cbn [app find_char].
  - rewrite decide_True by done. simpl. lia.
  - apply not_elem_of_cons in Ha as [Hx Ha]. rewrite decide_False by done. rewrite IH by done. simpl. lia.
Qed.

Lemma find_char_none c a s : c ∉ a → find_char c a s = (s + length a)%nat.
Proof.
  revert s. induction a as [|x a IH]; intros s Ha; cbn [find_char]; [simpl; lia|].
  apply not_elem_of_cons in Ha as [Hx Ha]. rewrite decide_False by done. rewrite IH by done. simpl. lia.
Qed.

(** The tag of a key, from the two searches. *)
Lemma slot_of_braces key t : braces key t → keyHashSlot key = (v ← crc16 t; Some (Z.land v 0x3FFF)).
Proof.
  intros (a & b & -> & Ha & Ht & Hne). unfold keyHashSlot. rewrite find_char_here by done. rewrite decide_False by (rewrite length_app; simpl; lia).
  replace (drop (0 + length a + 1) (a ++ 123 :: t ++ 125 :: b)) with (t ++ 125 :: b)
    by (rewrite drop_app_ge by lia; by replace (0 + length a + 1 - length a)%nat with 1%nat by lia).
  rewrite find_char_here by done. assert (length t ≠ 0%nat) by (intros ?%nil_length_inv; done).
  rewrite decide_False by (rewrite length_app, length_cons, length_app, length_cons; lia).
  by rewrite take_app_length' by lia.
Qed.

Lemma slot_no_braces key : (¬ ∃ t, braces key t) → keyHashSlot key = (v ← crc16 key; Some (Z.land v 0x3FFF)).
Proof.
  intros Hno. unfold keyHashSlot. destruct (decide (123 ∈ key)) as [Hin|Hin].
  2: { rewrite find_char_none by done. by rewrite decide_True by lia. }
  apply list_elem_of_split_l in Hin as (a & r & -> & Ha). rewrite find_char_here by done. case_decide as Hlen; [done|].
  replace (drop (0 + length a + 1) (a ++ 123 :: r)) with r
    by (rewrite drop_app_ge by lia; by replace (0 + length a + 1 - length a)%nat with 1%nat by lia).
  destruct (decide (125 ∈ r)) as [Hin|Hin].
  2: { rewrite find_char_none by done. rewrite decide_True; [done|]. left. rewrite length_app. simpl. lia. }
  apply list_elem_of_split_l in Hin as (t & b & -> & Ht). rewrite find_char_here by done. destruct t as [|x t].
  - rewrite decide_True; [done|]. right. simpl. lia.
  - destruct Hno. by exists (x :: t), a, b.
Qed.

(** C30. The slot of a key is the CRC-16 of its hash tag, modulo the number of slots: no key reads outside the table, every
    slot is below 16384, and keys with the same tag share a slot. *)
Theorem keyHashSlot_ok (key t : bytes) :
  bytes_ok key → hash_tag key t → keyHashSlot key = Some (crc16_ref 0 t `mod` 16384) ∧ 0 ≤ crc16_ref 0 t `mod` 16384 < 16384.
Proof.
  intros Hkey Htag. split; [|by apply Z.mod_pos_bound].
  assert (bytes_ok t ∧ keyHashSlot key = (v ← crc16 t; Some (Z.land v 0x3FFF))) as [Ht ->].
  { destruct Htag as [Hb|[Hno ->]]; [|split; [done|by apply slot_no_braces]]. split; [|by apply slot_of_braces].
    destruct Hb as (a & b & -> & _). unfold bytes_ok in *. rewrite Forall_app, Forall_cons, Forall_app in Hkey. naive_solver. }
  unfold crc16. destruct (crc16_loop_ok 0 t) as [-> _]; [done..|]. bind_simpl. f_equal. by apply (Z.land_ones _ 14).
Qed.

Lemma keyHashSlot_ok_witness : keyHashSlot [97; 123; 98; 99; 125; 100] = Some (crc16_ref 0 [98; 99] `mod` 16384).
Proof.
  apply (keyHashSlot_ok [97; 123; 98; 99; 125; 100] [98; 99]); [repeat constructor; lia|].
  left. exists [97], [100]. split_and!; [done|set_solver..|done].
Defined.
