(* ===== verification/Tset.v ===== *)
(** * t_set.c: the set object

A set of strings is an intset while all its members are integers, a listpack while it is small, and
otherwise a hash table without values.  A member is passed around as a string, or as an integer when
the pointer to the string is NULL.  Failed assertions are [None].  The argument [str_is_sds] of
the C functions decides only whether a string is copied before the hash table keeps it. *)

From S2P Require Import Prelude Intset Dict Util Listpack.

Local Open Scope Z_scope.

(** [robj] of type OBJ_SET: [encoding] with [ptr]. *)
Inductive set_object :=
  | SetIntset (iset : intset)
  | SetListpack (lp : bytes)
  | SetHt (ht : dict bytes ()).

Inductive set_encoding := OBJ_ENCODING_INTSET | OBJ_ENCODING_LISTPACK | OBJ_ENCODING_HT.

Global Instance set_encoding_eq_dec : EqDecision set_encoding.
Proof. solve_decision. Defined.

Definition encoding (o : set_object) : set_encoding :=
  match o with
  | SetIntset _ => OBJ_ENCODING_INTSET
  | SetListpack _ => OBJ_ENCODING_LISTPACK
  | SetHt _ => OBJ_ENCODING_HT
  end.

(** [(str, len)], or [llval] when [str] is NULL. *)
Inductive set_value := ValStr (str : bytes) | ValInt (llval : Z).

(** The string that is added, looked up or removed when the set is not an intset: [tmpbuf] has
    LONG_STR_SIZE bytes. *)
Definition value_str (v : set_value) : option bytes :=
  match v with ValStr str => Some str | ValInt llval => ll_string (Z.to_nat LONG_STR_SIZE) llval end.

Definition isSdsRepresentableAsLongLong (s : bytes) : bool := bool_decide (is_Some (string2ll s)).

(** ** Iterators *)

(** The field of [setTypeIterator] that the encoding uses. *)
Inductive setTypeIterator :=
  | IterHt (di : @dictIterator bytes ())
  | IterIntset (ii : Z)
  | IterListpack (lpi : option Z).

Definition setTypeInitIterator (subject : set_object) : setTypeIterator :=
  match subject with
  | SetHt _ => IterHt (dictInitIterator)
  | SetIntset _ => IterIntset 0
  | SetListpack _ => IterListpack None
  end.

Section set.

(** The bytes [zrealloc] returns beyond the old size. *)
Context (junk : nat → Z).
(** The functions of [setDictType], the global setting of dict.c, the addresses of the tables. *)
Context (dt : dictType bytes) (can : dictResizeEnable) (table_addr : bool → Z).
(** The configuration. *)
Context (set_max_intset_entries set_max_listpack_entries set_max_listpack_value : Z).

(** The iterator is not a safe one: it does not change the dictionary. *)
Definition next_ht (d : dict bytes ()) (di : dictIterator) : option (setTypeIterator * option set_value) :=
  '(_, di, de) ← dictNext table_addr (Z.to_nat (dictSlots d) + 4) d di;
  match de with
  | None => Some (IterHt di, None)
  | Some de => str ← dictGetKey de; Some (IterHt di, Some (ValStr str))
  end.

Definition next_intset (iset : intset) (ii : Z) : option (setTypeIterator * option set_value) :=
  llele ← intsetGet iset (u32 ii); Some (IterIntset (ii + 1), option_map ValInt llele).

Definition next_listpack (lp : bytes) (lpi : option Z) : option (setTypeIterator * option set_value) :=
  next ← (match lpi with None => lpFirst lp | Some lpi => lpNext lp lpi end : option (option Z));
  match next with
  | None => Some (IterListpack lpi, None)
  | Some p =>
      v ← lpGet lp p;
      Some (IterListpack (Some p), Some (match v with VStr str => ValStr str | VInt llele => ValInt llele end))
  end.

Definition setTypeNext (subject : set_object) (si : setTypeIterator) : option (setTypeIterator * option set_value) :=
  match subject, si with
  | SetHt d, IterHt di => next_ht d di
  | SetIntset iset, IterIntset ii => next_intset iset ii
  | SetListpack lp, IterListpack lpi => next_listpack lp lpi
  | _, _ => None
  end.

(** The check for misuse of the iterator of a dictionary. *)
Definition setTypeReleaseIterator (subject : set_object) (si : setTypeIterator) : option () :=
  match subject, si with
  | SetHt d, IterHt di => _ ← dictResetIterator table_addr d di; Some ()
  | _, _ => Some ()
  end.

Definition setTypeNextObject (subject : set_object) (si : setTypeIterator) : option (setTypeIterator * option bytes) :=
  '(si, v) ← setTypeNext subject si;
  match v with None => Some (si, None) | Some v => s ← value_str v; Some (si, Some s) end.

(** More rounds than there are elements. *)
Definition set_fuel (o : set_object) : nat :=
  match o with
  | SetIntset iset => S (Z.to_nat (is_length iset))
  | SetListpack lp => S (length lp)
  | SetHt d => S (Z.to_nat (dictSize d))
  end.

(** [while (setTypeNext(si, ...) != -1) { body }] over the set that [subject] finds in the state; the body
    returns [false] for [break]. *)
Fixpoint set_foreach {A} (fuel : nat) (subject : A → option set_object) (body : set_value → A → option (A * bool))
    (si : setTypeIterator) (a : A) : option (A * setTypeIterator) :=
  match fuel with
  | O => None
  | S fuel =>
      o ← subject a;
      '(si, v) ← setTypeNext o si;
      match v with
      | None => Some (a, si)
      | Some v =>
          '(a, continue) ← body v a;
          if continue : bool then set_foreach fuel subject body si a else Some (a, si)
      end
  end.

(** The iterator is created before the loop and released after it. *)
Definition set_iterate {A} (subject : A → option set_object) (body : set_value → A → option (A * bool)) (a : A) : option A :=
  o ← subject a;
  '(a, si) ← set_foreach (set_fuel o) subject body (setTypeInitIterator o) a;
  o ← subject a;
  _ ← setTypeReleaseIterator o si;
  Some a.

(** ** Size and conversion *)

(** The block of a listpack may be changed: the number of elements is cached. *)
Definition setTypeSize (o : set_object) : option (set_object * Z) :=
  match o with
  | SetHt d => Some (o, dictSize d)
  | SetIntset iset => Some (o, intsetLen iset)
  | SetListpack lp => '(lp, n) ← lpLength lp; Some (SetListpack lp, n)
  end.

(** [serverAssert(dictAdd(d, element, NULL) == DICT_OK)]. *)
Definition dict_add_new (d : dict bytes ()) (element : bytes) : option (dict bytes ()) :=
  '(d, ok) ← dictAdd dt can d element (); if ok : bool then Some d else None.

(** [panic] is [None] when the code panics on failure of the allocation, and otherwise tells
    whether it succeeds; the returned flag is C_OK. *)
Definition setTypeConvertAndExpand (o : set_object) (enc : set_encoding) (cap : Z) (panic : option bool)
    : option (set_object * bool) :=
  if decide (encoding o = enc) then None
  else
    match enc with
    | OBJ_ENCODING_HT =>
        '(d, ok) ← (match panic with
                    | None => '(d, _) ← dictExpand dictCreate cap; Some (d, true)
                    | Some alloc_ok => dictTryExpand dictCreate cap alloc_ok
                    end);
        if negb ok then Some (o, false)
        else
          d ← set_iterate (λ _, Some o) (λ v d, s ← value_str v; d ← dict_add_new d s; Some (d, true)) d;
          Some (SetHt d, true)
    | OBJ_ENCODING_LISTPACK =>
        estcap ← (match o with
                  | SetIntset iset =>
                      if decide (intsetLen iset > 0) then
                        lo ← intsetMin iset;
                        hi ← intsetMax iset;
                        Some (Z.max (lpEstimateBytesRepeatedInteger lo cap) (lpEstimateBytesRepeatedInteger hi cap))
                      else Some (u64 (cap * 2))
                  | _ => Some (u64 (cap * 2))
                  end);
        lp ← lpNew junk estcap;
        lp ← set_iterate (λ _, Some o)
               (λ v lp, lp ← not_null (match v with
                                       | ValStr str => lpAppend junk lp str
                                       | ValInt llele => lpAppendInteger junk lp llele
                                       end);
                        Some (lp, true)) lp;
        Some (SetListpack lp, true)
    | OBJ_ENCODING_INTSET => None
    end.

Definition setTypeConvert (o : set_object) (enc : set_encoding) : option set_object :=
  '(o, n) ← setTypeSize o; fst <$> setTypeConvertAndExpand o enc n None.

Definition setTypeCreate (value : bytes) (size_hint : Z) : option set_object :=
  if isSdsRepresentableAsLongLong value && bool_decide (size_hint ≤ set_max_intset_entries) then Some (SetIntset intsetNew)
  else if decide (size_hint ≤ set_max_listpack_entries) then lp ← lpNew junk 0; Some (SetListpack lp)
  else '(d, _) ← dictExpand dictCreate size_hint; Some (SetHt d).

Definition setTypeMaybeConvert (o : set_object) (size_hint : Z) : option set_object :=
  if decide ((encoding o = OBJ_ENCODING_LISTPACK ∧ size_hint > set_max_listpack_entries) ∨
             (encoding o = OBJ_ENCODING_INTSET ∧ size_hint > set_max_intset_entries))
  then fst <$> setTypeConvertAndExpand o OBJ_ENCODING_HT size_hint None
  else Some o.

Definition intsetMaxEntries : Z :=
  if decide (set_max_intset_entries >= Z.shiftl 1 30) then Z.shiftl 1 30 else set_max_intset_entries.

Definition maybeConvertIntset (subject : set_object) : option set_object :=
  match subject with
  | SetIntset iset =>
      if decide (intsetLen iset > intsetMaxEntries) then setTypeConvert subject OBJ_ENCODING_HT else Some subject
  | _ => None
  end.

(** Every member is an integer: both assertions of the loop are [None]. *)
Definition maybeConvertToIntset (o : set_object) : option set_object :=
  match o with
  | SetIntset _ => Some o
  | _ =>
      '(o, n) ← setTypeSize o;
      if decide (n > intsetMaxEntries) then Some o
      else
        iset ← set_iterate (λ _, Some o)
               (λ v iset, llval ← (match v with ValStr str => string2ll str | ValInt llval => Some llval end);
                        '(iset, success) ← intsetAdd junk iset llval;
                        if success : bool then Some (iset, true) else None) intsetNew;
        Some (SetIntset iset)
  end.

(** ** Addition *)

Definition set_add_ht (ht : dict bytes ()) (str : bytes) : option (dict bytes () * bool) :=
  '(ht, position) ← dictFindPositionForInsert dt can ht str;
  match position with
  | Bucket table idx => '(ht, _) ← dictInsertAtPosition dt ht str table idx; Some (ht, true)
  | _ => Some (ht, false)
  end.

(** [lpFind] from the first element on. *)
Definition set_lp_find (lp str : bytes) : option (option Z) :=
  p ← lpFirst lp; match p with None => Some None | Some p => lpFind lp p str 0 end.

(** Conversion to a hash table, to which the new element is added. *)
Definition set_convert_add (o : set_object) (cap : Z) (str : bytes) : option set_object :=
  '(o, _) ← setTypeConvertAndExpand o OBJ_ENCODING_HT cap None;
  match o with SetHt d => d ← dict_add_new d str; Some (SetHt d) | _ => None end.

Definition set_add_listpack (lp : bytes) (v : set_value) (str : bytes) : option (set_object * bool) :=
  p ← set_lp_find lp str;
  match p with
  | Some _ => Some (SetListpack lp, false)
  | None =>
      '(lp, n) ← lpLength lp;
      safe ← lpSafeToAdd (Some lp) (zlen str);
      if bool_decide (n < set_max_listpack_entries) && bool_decide (zlen str ≤ set_max_listpack_value) && safe then
        lp ← not_null (match v with ValInt llval => lpAppendInteger junk lp llval | ValStr str => lpAppend junk lp str end);
        Some (SetListpack lp, true)
      else
        '(lp, n) ← lpLength lp;
        o ← set_convert_add (SetListpack lp) (n + 1) str;
        Some (o, true)
  end.

Definition set_add_intset_ll (iset : intset) (llval : Z) : option (set_object * bool) :=
  '(iset, success) ← intsetAdd junk iset llval;
  o ← (if success : bool then maybeConvertIntset (SetIntset iset) else Some (SetIntset iset));
  Some (o, success).

(** The longest element and the size of a listpack with the elements of the intset, at most. *)
Definition intset_listpack_bounds (iset : intset) : option (Z * Z) :=
  let n := intsetLen iset in
  if decide (n ≠ 0) then
    hi ← intsetMax iset;
    lo ← intsetMin iset;
    Some (Z.max (sdigits10 hi) (sdigits10 lo),
          Z.max (lpEstimateBytesRepeatedInteger hi n) (lpEstimateBytesRepeatedInteger lo n))
  else Some (0, 0).

Definition set_add_intset_str (iset : intset) (str : bytes) : option (set_object * bool) :=
  match string2ll str with
  | Some value => set_add_intset_ll iset value
  | None =>
      '(maxelelen, totsize) ← intset_listpack_bounds iset;
      safe ← lpSafeToAdd None (u64 (totsize + zlen str));
      if bool_decide (intsetLen iset < set_max_listpack_entries) && bool_decide (zlen str ≤ set_max_listpack_value) &&
         bool_decide (maxelelen ≤ set_max_listpack_value) && safe
      then
        '(o, _) ← setTypeConvertAndExpand (SetIntset iset) OBJ_ENCODING_LISTPACK (intsetLen iset + 1) None;
        match o with
        | SetListpack lp =>
            lp ← not_null (lpAppend junk lp str);
            lp ← lpShrinkToFit junk lp;
            Some (SetListpack lp, true)
        | _ => None
        end
      else o ← set_convert_add (SetIntset iset) (intsetLen iset + 1) str; Some (o, true)
  end.

(** The set and the returned value. *)
Definition setTypeAddAux (o : set_object) (v : set_value) : option (set_object * bool) :=
  match o, v with
  | SetIntset iset, ValInt llval => set_add_intset_ll iset llval
  | _, _ =>
      str ← value_str v;
      match o with
      | SetHt ht => '(ht, added) ← set_add_ht ht str; Some (SetHt ht, added)
      | SetListpack lp => set_add_listpack lp v str
      | SetIntset iset => set_add_intset_str iset str
      end
  end.

Definition setTypeAdd (o : set_object) (value : bytes) : option (set_object * bool) := setTypeAddAux o (ValStr value).

(** ** Removal *)

Definition set_remove_intset (iset : intset) (llval : Z) : option (set_object * bool) :=
  '(iset, success) ← intsetRemove junk iset llval; Some (SetIntset iset, success).

Definition setTypeRemoveAux (o : set_object) (v : set_value) : option (set_object * bool) :=
  match o, v with
  | SetIntset iset, ValInt llval => set_remove_intset iset llval
  | _, _ =>
      str ← value_str v;
      match o with
      | SetHt d =>
          '(d, deleted) ← dictDelete dt can d str;
          d ← (if deleted : bool then if htNeedsResize d then '(d, _) ← dictResize can d; Some d else Some d else Some d);
          Some (SetHt d, deleted)
      | SetListpack lp =>
          p ← set_lp_find lp str;
          match p with
          | Some p => '(lp, _) ← not_null (lpDelete junk lp p); Some (SetListpack lp, true)
          | None => Some (o, false)
          end
      | SetIntset iset =>
          match string2ll str with Some llval => set_remove_intset iset llval | None => Some (o, false) end
      end
  end.

Definition setTypeRemove (o : set_object) (value : bytes) : option (set_object * bool) := setTypeRemoveAux o (ValStr value).

(** ** Membership *)

(** A lookup in a dictionary can move a bucket. *)
Definition setTypeIsMemberAux (o : set_object) (v : set_value) : option (set_object * bool) :=
  match o, v with
  | SetIntset iset, ValInt llval => b ← intsetFind iset llval; Some (o, b)
  | _, _ =>
      str ← value_str v;
      match o with
      | SetListpack lp => p ← set_lp_find lp str; Some (o, bool_decide (is_Some p))
      | SetIntset iset =>
          match string2ll str with Some llval => b ← intsetFind iset llval; Some (o, b) | None => Some (o, false) end
      | SetHt d => '(d, de) ← dictFind dt can d str; Some (SetHt d, bool_decide (is_Some de))
      end
  end.

Definition setTypeIsMember (o : set_object) (value : bytes) : option (set_object * bool) := setTypeIsMemberAux o (ValStr value).

(** ** Copies *)

Definition setTypeDup (o : set_object) : option set_object :=
  match o with
  | SetIntset iset =>
      blob ← mem_read (intset_blob iset) 0 (intsetBlobLen iset); iset ← intset_of_blob blob; Some (SetIntset iset)
  | SetListpack lp => sz ← lpBytes lp; lp ← mem_read lp 0 sz; Some (SetListpack lp)
  | SetHt d =>
      '(ht, _) ← dictExpand dictCreate (dictSize d);
      set_iterate (λ _, Some o) (λ v set, '(set, _) ← setTypeAddAux set v; Some (set, true)) (SetHt ht)
  end.

End set.
