(* ===== verification/TsetInv.v ===== *)
(** * t_set.c: what a set object stands for, and iteration over it *)

From S2P Require Import Prelude Intset Dict DictInv DictOps DictLife Util Listpack ListpackEnc ListpackOps ListpackMod ListpackBulk Tset.

Local Open Scope Z_scope.

(** The type of the dictionary of a set: keys without values, at odd addresses. *)
Class SetDictType (dt : dictType bytes) : Prop := {
  set_type_ok :: DictTypeOk dt;
  set_type_no_value : no_value dt = true;
  set_type_odd : ∀ k, key_lsb dt k = true;
}.

(** The member that a value stands for. *)
Definition value_string (v : set_value) : bytes := match v with ValStr s => s | ValInt n => decimal n end.

(** The length of a string is a [size_t] below 2^63, and integers have 64 bits. *)
Definition value_ok (v : set_value) : Prop :=
  match v with ValStr s => zlen s < 2 ^ 63 | ValInt n => in_srange 64 n end.

Definition lp_value (v : lpval) : set_value := match v with VStr s => ValStr s | VInt n => ValInt n end.

Lemma lp_value_string v : value_string (lp_value v) = lp_string v.
Proof. by destruct v. Qed.

Lemma lp_value_strings (vs : list lpval) : value_string <$> (lp_value <$> vs) = lp_string <$> vs.
Proof. rewrite <- list_fmap_compose. apply list_fmap_ext. intros ? v _. apply lp_value_string. Qed.

Lemma value_str_ok v : value_ok v → value_str v = Some (value_string v).
Proof. destruct v; simpl; [done|]. intros Hn. by apply ll_string_ok; [|vm_compute; lia]. Qed.

Lemma decimal_inj n m : in_srange 64 n → in_srange 64 m → decimal n = decimal m → n = m.
Proof.
  intros Hn Hm Heq. assert (string2ll (decimal n) = Some n) as H1 by by apply string2ll_ok.
  assert (string2ll (decimal m) = Some m) as H2 by by apply string2ll_ok. congruence.
Qed.

Section repr.
Context (dt : dictType bytes) `{!SetDictType dt} (table_addr : bool → Z).
Implicit Types (o : set_object) (vals rest : list set_value) (X : gset bytes).

(** The members in the order of an iteration. *)
Definition set_holds (o : set_object) (vals : list set_value) : Prop :=
  match o with
  | SetIntset s => ∃ vs, intset_wf s vs ∧ zlen vs ≤ INTSET_LIMIT ∧ vals = ValInt <$> vs
  | SetListpack lp => ∃ vs, lp_repr lp vs ∧ vals = lp_value <$> vs ∧ NoDup (lp_string <$> vs)
  | SetHt d => dict_wf dt d ∧ vals = (λ p, ValStr p.1) <$> dict_entries d ∧ Forall (λ p, zlen p.1 < 2 ^ 63) (dict_entries d)
  end.

(** The object holds the set [X] of strings. *)
Definition set_repr (o : set_object) (X : gset bytes) : Prop :=
  ∃ vals, set_holds o vals ∧ list_to_set (value_string <$> vals) = X.

(** The object stands for [X], with room for one more integer. *)
Definition set_small (o : set_object) : Prop := match o with SetIntset s => intsetLen s < INTSET_LIMIT | _ => True end.

Definition set_inv (o : set_object) (X : gset bytes) : Prop := set_repr o X ∧ set_small o.

Lemma intset_strings (vs : list Z) : value_string <$> (ValInt <$> vs) = decimal <$> vs.
Proof. by rewrite <- list_fmap_compose. Qed.

Lemma ht_strings (d : dict bytes ()) : value_string <$> ((λ p, ValStr p.1) <$> dict_entries d) = (dict_entries d).*1.
Proof. by rewrite <- list_fmap_compose. Qed.

Lemma enc_srange e n : enc_ok e → in_srange (e * 8) n → in_srange 64 n.
Proof. intros [->|[->| ->]] Hn; range_lia. Qed.

Lemma intset_srange s vs : intset_wf s vs → Forall (in_srange 64) vs.
Proof.
  intros [Hr _]. eapply Forall_impl; [apply (repr_range _ _ Hr)|]. intros n Hn. by eapply enc_srange; [apply (repr_enc _ _ Hr)|].
Qed.

Lemma sorted_nodup vs : StronglySorted Z.lt vs → NoDup vs.
Proof.
  induction 1 as [|x vs Hs IH Hx]; constructor; [|done]. intros Hin. rewrite Forall_forall in Hx. specialize (Hx _ Hin). lia.
Qed.

Lemma decimal_nodup vs : Forall (in_srange 64) vs → NoDup vs → NoDup (decimal <$> vs).
Proof.
  intros Hr Hn. revert Hr. induction Hn as [|x vs Hx Hn IH]; intros Hr; [constructor|]. inversion_clear Hr as [|? ? Hx' Hr'].
  simpl. constructor; [|by apply IH]. intros (y & Heq & Hy)%list_elem_of_fmap. rewrite Forall_forall in Hr'.
  apply decimal_inj in Heq; [by subst|done|by apply Hr'].
Qed.

(** Every iteration passes every member once. *)
Lemma holds_nodup o vals : set_holds o vals → NoDup (value_string <$> vals).
Proof.
  destruct o as [s|lp|d].
  - intros (vs & Hwf & _ & ->). rewrite intset_strings. apply decimal_nodup; [by eapply intset_srange|]. apply sorted_nodup, Hwf.
  - intros (vs & _ & -> & Hnd). by rewrite lp_value_strings.
  - intros (Hwf & -> & _). rewrite ht_strings. apply Hwf.
Qed.

Lemma holds_size o vals X : set_holds o vals → list_to_set (value_string <$> vals) = X → Z.of_nat (size X) = zlen vals.
Proof. intros Hh <-. rewrite size_list_to_set by by eapply holds_nodup. by rewrite length_fmap. Qed.

Lemma holds_values o vals : set_holds o vals → Forall value_ok vals.
Proof.
  destruct o as [s|lp|d].
  - intros (vs & Hwf & _ & ->). apply Forall_fmap. eapply Forall_impl; [by eapply intset_srange|]. done.
  - intros (vs & (num & sl & _ & _ & [Hv _]) & -> & _). apply Forall_fmap. eapply Forall_impl; [exact Hv|].
    intros [s|n] Hok; simpl in *; [range_lia|done].
  - intros (_ & -> & Hv). by apply Forall_fmap.
Qed.

(** ** Iteration *)

(** The iterator has [rest] left. *)
Definition iter_at (o : set_object) (si : setTypeIterator) (rest : list set_value) : Prop :=
  match o, si with
  | SetIntset s, IterIntset ii =>
      ∃ vs (i : nat), intset_wf s vs ∧ zlen vs ≤ INTSET_LIMIT ∧ ii = Z.of_nat i ∧ (i ≤ length vs)%nat ∧ rest = ValInt <$> drop i vs
  | SetListpack lp, IterListpack lpi =>
      ∃ vs (i : nat), lp_repr lp vs ∧ (i ≤ length vs)%nat ∧ rest = lp_value <$> drop i vs ∧
        lpi = match i with O => None | S j => Some (lp_pos vs j) end
  | SetHt d, IterHt di =>
      dict_wf dt d ∧ iter_wf d di ∧ it_safe di = false ∧ rest = (λ p, ValStr p.1) <$> iter_rest d di ∧
        (iter_first di = true ∨ it_fingerprint di = dictFingerprint table_addr d)
  | _, _ => False
  end.

Lemma init_iter_at o vals : set_holds o vals → iter_at o (setTypeInitIterator o) vals.
Proof.
  destruct o as [s|lp|d]; simpl.
  - intros (vs & Hwf & Hlen & ->). exists vs, 0%nat. split_and!; [done..|lia|done].
  - intros (vs & Hlp & -> & _). exists vs, 0%nat. split_and!; [done|lia|done..].
  - intros (Hwf & -> & _). split_and!; [done| |done..|by left]. split; [|done..]. simpl. lia.
Qed.

(** [setTypeNext] returns the next value, and the iterator can be released at any time. *)
Lemma setTypeNext_ok o si rest :
  iter_at o si rest →
  ∃ si', setTypeNext table_addr o si = Some (si', head rest) ∧ (rest ≠ [] → iter_at o si' (tail rest)) ∧
    setTypeReleaseIterator table_addr o si' = Some ().
Proof.
  destruct o as [s|lp|d], si as [di|ii|lpi]; try done.
  - intros (vs & i & Hwf & Hlen & -> & Hi & ->). simpl. unfold next_intset, intsetGet. pose proof Hwf as [Hr _]. rewrite (repr_len _ _ Hr).
    unfold INTSET_LIMIT in Hlen.
    rewrite uwrap_small by range_lia. case_decide as Hlt.
    + destruct (lookup_lt_is_Some_2 vs i ltac:(lia)) as [v Hv]. rewrite swrap_small by range_lia.
      rewrite (get_repr_Z _ _ _ v Hr) by (lia || by rewrite Nat2Z.id). rewrite (drop_S _ _ _ Hv). simpl. eexists. split; [done|]. split; [|done].
      intros _. exists vs, (S i). split_and!; [done..|lia|lia|done].
    + rewrite drop_ge by lia. simpl. eexists. by split_and!.
  - intros (vs & i & Hlp & Hi & -> & ->). pose proof Hlp as (num & sl & Heq & Hnum & Hfits). simpl. unfold next_listpack.
    assert (match match i with O => None | S j => Some (lp_pos vs j) end with None => lpFirst lp | Some lpi => lpNext lp lpi end = Some (lp_ptr vs i)) as ->.
    { rewrite Heq. destruct i as [|i]; [by apply lpFirst_ok|apply lpNext_ok; [done|lia]]. }
    bind_simpl. unfold lp_ptr. case_decide as Hlt.
    + destruct (lookup_lt_is_Some_2 vs i Hlt) as [v Hv]. rewrite Heq, (lpGet_ok num vs sl Hfits i v Hv), <- Heq. bind_simpl. rewrite (drop_S _ _ _ Hv).
      eexists. split; [done|]. split; [|done]. intros _. exists vs, (S i). split_and!; [done|lia|done..].
    + rewrite drop_ge by lia. simpl. eexists. by split_and!.
  - intros (Hwf & Hit & Hs & -> & Hfp). cbn [setTypeNext]. unfold next_ht.
    assert (iter_rounds d di < Z.of_nat (Z.to_nat (dictSlots d) + 4)) as Hf by by apply (iter_rounds_slots dt).
    destruct (dictNext_ok dt table_addr _ d di Hwf Hit Hf) as (it1 & r & Hn & Hs1 & Hfp1 & Hnf & Hr). rewrite Hn. bind_simpl.
    assert (it_fingerprint it1 = dictFingerprint table_addr d) as Hfp'.
    { rewrite Hfp1. unfold iter_fp. rewrite Hs. destruct Hfp as [->|Hfp]; [done|]. by destruct (iter_first di). }
    assert (setTypeReleaseIterator table_addr (SetHt d) (IterHt it1) = Some ()) as Hrel.
    { simpl. unfold dictResetIterator. apply bool_decide_eq_false in Hnf. rewrite decide_False by done. rewrite Hs1, Hs. by rewrite decide_True by done. }
    destruct r as [e|].
    + destruct Hr as (k & -> & Hit1 & ->). bind_simpl. eexists. split; [done|]. split; [|done]. intros _. simpl. split_and!; [done..|congruence|done|by right].
    + rewrite Hr. eexists. by split_and!.
Qed.

(** A loop that keeps [I] for what is left, and reaches [Q] at the end or with a break. *)
Lemma foreach_ok {A} (subject : A → option set_object) body (I : list set_value → A → Prop) (Q : A → Prop) o fuel si rest a :
  (∀ rest a, I rest a → subject a = Some o) →
  (∀ v rest a, I (v :: rest) a →
     ∃ a' (c : bool), body v a = Some (a', c) ∧ if c then I rest a' else subject a' = Some o ∧ Q a') →
  (∀ a, I [] a → Q a) →
  iter_at o si rest → (length rest < fuel)%nat → I rest a →
  ∃ a' si', set_foreach table_addr fuel subject body si a = Some (a', si') ∧ subject a' = Some o ∧
    setTypeReleaseIterator table_addr o si' = Some () ∧ Q a'.
Proof.
  intros Hsub Hbody Hend. revert si rest a. induction fuel as [|fuel IH]; intros si rest a Hat Hf HI; [lia|]. cbn [set_foreach].
  rewrite (Hsub _ _ HI). bind_simpl. destruct (setTypeNext_ok o si rest Hat) as (si' & -> & Hat' & Hrel). bind_simpl.
  destruct rest as [|v rest]; simpl.
  { exists a, si'. split_and!; [done|by eapply Hsub|done|by apply Hend]. }
  destruct (Hbody v rest a HI) as (a' & c & -> & Hc). bind_simpl. destruct c; [|exists a', si'; naive_solver].
  apply (IH si' rest a'); [by apply Hat'|simpl in Hf; lia|done].
Qed.

Lemma holds_fuel o vals : set_holds o vals → (length vals < set_fuel o)%nat.
Proof.
  destruct o as [s|lp|d]; simpl.
  - intros (vs & [Hr _] & _ & ->). rewrite (repr_len _ _ Hr), length_fmap. lia.
  - intros (vs & (num & sl & -> & Hnum & Hfits) & -> & _). rewrite length_fmap. pose proof (fuel_enough num vs sl Hfits). lia.
  - intros (Hwf & -> & _). rewrite length_fmap, (dict_size_entries dt) by done. lia.
Qed.

Lemma iterate_ok {A} (subject : A → option set_object) body (I : list set_value → A → Prop) (Q : A → Prop) o vals a :
  set_holds o vals →
  (∀ rest a, I rest a → subject a = Some o) →
  (∀ v rest a, I (v :: rest) a →
     ∃ a' (c : bool), body v a = Some (a', c) ∧ if c then I rest a' else subject a' = Some o ∧ Q a') →
  (∀ a, I [] a → Q a) → I vals a →
  ∃ a', set_iterate table_addr subject body a = Some a' ∧ subject a' = Some o ∧ Q a'.
Proof.
  intros Hh Hsub Hbody Hend HI. unfold set_iterate. rewrite (Hsub _ _ HI). bind_simpl.
  destruct (foreach_ok subject body I Q o (set_fuel o) (setTypeInitIterator o) vals a) as (a' & si' & -> & Ha' & Hrel & HQ);
    [done..|by apply init_iter_at|by apply holds_fuel|done|].
  bind_simpl. rewrite Ha'. bind_simpl. rewrite Hrel. bind_simpl. by exists a'.
Qed.

(** ** The three encodings *)

Lemma repr_intset s X :
  set_repr (SetIntset s) X ↔ ∃ Y, intset_denotes s Y ∧ intsetLen s ≤ INTSET_LIMIT ∧ set_map decimal Y = X.
Proof.
  split.
  - intros (vals & (vs & Hwf & Hlen & ->) & <-). exists (list_to_set vs). split_and!.
    + by exists vs.
    + unfold intsetLen. destruct Hwf as [Hr _]. by rewrite (repr_len _ _ Hr).
    + rewrite intset_strings. apply set_eq. intros x. rewrite elem_of_map, elem_of_list_to_set, list_elem_of_fmap. set_solver.
  - intros (Y & (vs & Hwf & <-) & Hlen & <-). unfold intsetLen in Hlen. pose proof Hwf as [Hr _]. rewrite (repr_len _ _ Hr) in Hlen.
    exists (ValInt <$> vs). split; [by exists vs|]. rewrite intset_strings. apply set_eq. intros x.
    rewrite elem_of_map, elem_of_list_to_set, list_elem_of_fmap. set_solver.
Qed.

Lemma repr_listpack lp X :
  set_repr (SetListpack lp) X ↔ ∃ vs, lp_repr lp vs ∧ NoDup (lp_string <$> vs) ∧ list_to_set (lp_string <$> vs) = X.
Proof.
  split.
  - intros (vals & (vs & Hlp & -> & Hnd) & <-). exists vs. by rewrite lp_value_strings.
  - intros (vs & Hlp & Hnd & <-). exists (lp_value <$> vs). split; [by exists vs|]. by rewrite lp_value_strings.
Qed.

Lemma repr_ht d X :
  set_repr (SetHt d) X ↔ ∃ M, dict_denotes dt d M ∧ dom M = X ∧ set_Forall (λ k, zlen k < 2 ^ 63) X.
Proof.
  assert (dict_wf dt d → dom (dict_map d) = list_to_set (dict_entries d).*1) as Hdom.
  { intros Hwf. unfold dict_map. by rewrite dom_list_to_map_L. }
  split.
  - intros (vals & (Hwf & -> & Hv) & <-). exists (dict_map d). rewrite ht_strings. split_and!; [done|by apply Hdom|].
    intros k (p & -> & Hp)%elem_of_list_to_set%list_elem_of_fmap. rewrite Forall_forall in Hv. by apply Hv.
  - intros (M & [Hwf <-] & <- & Hv). eexists. split; [split_and!; [done..|]|by rewrite ht_strings, Hdom].
    apply Forall_forall. intros p Hp. apply Hv. rewrite Hdom by done. apply elem_of_list_to_set, list_elem_of_fmap. by exists p.
Qed.

End repr.
