(* ===== verification/TsetConv.v ===== *)
(** * t_set.c: conversions between the encodings of a set *)

From S2P Require Import Prelude Intset Dict DictInv DictOps DictLife Util Listpack ListpackEnc ListpackOps ListpackMod ListpackBulk Tset TsetInv.

Local Open Scope Z_scope.

(** ** The size of integers in a listpack *)

(** The encoded length grows with the distance from 0. *)
Definition int_len (n : Z) : Z :=
  if decide (0 ≤ n ≤ 127) then 1 else if decide (-4096 ≤ n ≤ 4095) then 2 else if decide (-32768 ≤ n ≤ 32767) then 3
  else if decide (-8388608 ≤ n ≤ 8388607) then 4 else if decide (-2147483648 ≤ n ≤ 2147483647) then 5 else 9.

Lemma int_enc_len n : zlen (lpEncodeIntegerGetType n) = int_len n.
Proof.
  unfold lpEncodeIntegerGetType, int_len. repeat case_decide; try lia; try done; cbn [length]; rewrite Nat2Z.inj_succ, le_bytes_length by lia; done.
Qed.

Lemma int_len_range n : 1 ≤ int_len n ≤ 9.
Proof. unfold int_len. repeat case_decide; lia. Qed.

Lemma int_entry_len n : zlen (entry (VInt n)) = int_len n + 1.
Proof.
  rewrite entry_length. simpl. rewrite int_enc_len. pose proof (int_len_range n). unfold lpBacklenSize, lpEncodeBacklen.
  rewrite decide_True by lia. done.
Qed.

Lemma int_len_between lo n hi : lo ≤ n ≤ hi → int_len n ≤ Z.max (int_len lo) (int_len hi).
Proof. intros Hn. unfold int_len. repeat case_decide; lia. Qed.

Lemma estimate_ok n rep : lpEstimateBytesRepeatedInteger n rep = 7 + (int_len n + 1) * rep.
Proof.
  unfold lpEstimateBytesRepeatedInteger. rewrite int_enc_len. pose proof (int_len_range n). unfold lpBacklenSize, lpEncodeBacklen.
  rewrite decide_True by lia. unfold LP_HDR_SIZE. cbn [length]. lia.
Qed.

(** The estimate is an upper bound for the listpack of any integers between the two. *)
Lemma estimate_bound lo hi (vs : list Z) :
  Forall (λ n, lo ≤ n ≤ hi) vs →
  lp_total (VInt <$> vs) ≤
    Z.max (lpEstimateBytesRepeatedInteger hi (zlen vs)) (lpEstimateBytesRepeatedInteger lo (zlen vs)).
Proof.
  intros Hvs. rewrite !estimate_ok. unfold lp_total.
  assert (zlen (body (VInt <$> vs)) ≤ (Z.max (int_len lo) (int_len hi) + 1) * zlen vs); [|nia].
  induction Hvs as [|n vs Hn Hvs IH]; [simpl; lia|]. rewrite fmap_cons, body_cons, length_app, Nat2Z.inj_add, int_entry_len.
  pose proof (int_len_between _ _ _ Hn). cbn [length]. nia.
Qed.

(** ** Prefixes of a listpack *)

Section conv.
Context (junk : nat → Z) (dt : dictType bytes) `{!SetDictType dt} (can : dictResizeEnable) (table_addr : bool → Z).
Implicit Types (o : set_object) (vals rest : list set_value) (X : gset bytes).

(** ** To a hash table *)

Lemma ht_empty : set_repr dt (SetHt (dictCreate : dict bytes ())) ∅.
Proof. apply repr_ht. exists ∅. split_and!; [apply (dict_create_denotes dt)|apply dom_empty_L|done]. Qed.

Lemma ht_size d X : set_repr dt (SetHt d) X → dictSize d = Z.of_nat (size X).
Proof.
  intros (M & [Hwf HM] & <- & _)%repr_ht. rewrite <- (dict_map_size dt d Hwf), HM. by rewrite size_dom.
Qed.

Lemma ht_add d X s :
  set_repr dt (SetHt d) X → zlen s < 2 ^ 63 → Z.of_nat (size X) < 2 ^ 60 →
  ∃ d', dictAdd dt can d s () = Some (d', bool_decide (s ∉ X)) ∧ set_repr dt (SetHt d') ({[s]} ∪ X).
Proof.
  intros Hd Hs Hsize. pose proof Hd as (M & HM & HX & Hlen)%repr_ht.
  destruct (dictAdd_ok dt can d M s () HM) as (d' & -> & Hd'); [by intros _; apply set_type_odd|by rewrite (ht_size _ _ Hd)|].
  assert (M !! s = None ↔ s ∉ X) as Hiff by by rewrite <- HX, not_elem_of_dom. exists d'. split.
  { do 2 f_equal. by apply bool_decide_ext. }
  apply repr_ht. eexists. split; [exact Hd'|]. split; [|set_solver]. case_bool_decide as Hn; rewrite <- HX.
  - apply dom_insert_L.
  - assert (s ∈ dom M); [|set_solver]. apply elem_of_dom. by apply not_eq_None_Some.
Qed.

Lemma dict_add_new_ok d X s :
  set_repr dt (SetHt d) X → zlen s < 2 ^ 63 → Z.of_nat (size X) < 2 ^ 60 → s ∉ X →
  ∃ d', dict_add_new dt can d s = Some d' ∧ set_repr dt (SetHt d') ({[s]} ∪ X).
Proof.
  intros Hd Hs Hsize Hn. destruct (ht_add d X s Hd Hs Hsize) as (d' & Ha & Hd'). rewrite bool_decide_true in Ha by done.
  exists d'. unfold dict_add_new. by rewrite Ha.
Qed.

Lemma ht_expand cap :
  cap < LLONG_MAX → ∃ d ok, dictExpand (dictCreate : dict bytes ()) cap = Some (d, ok) ∧ set_repr dt (SetHt d) ∅.
Proof.
  intros Hcap. destruct (dict_create_denotes (V := ()) dt) as [Hwf HM].
  destruct (expand_ok dt dictCreate cap None Hwf Hcap) as (d & ok & mf & He & Hwf' & Hent & _).
  exists d, ok. unfold dictExpand. rewrite He. split; [done|]. apply repr_ht. exists ∅. split_and!; [|apply dom_empty_L|done].
  split; [done|]. rewrite <- HM. apply (dict_map_same dt); [done|by rewrite Hent].
Qed.

Lemma string_fresh (done' : list set_value) v rest :
  NoDup (value_string <$> done' ++ v :: rest) → value_string v ∉ (list_to_set (value_string <$> done') : gset bytes).
Proof.
  rewrite fmap_app, fmap_cons. intros (_ & Hd & _)%NoDup_app Hin%elem_of_list_to_set. apply (Hd _ Hin). set_solver.
Qed.

(** The loop that fills the hash table. *)
Lemma fill_ht_ok o vals d :
  set_holds dt o vals → zlen vals < 2 ^ 60 → set_repr dt (SetHt d) ∅ →
  ∃ d', set_iterate table_addr (λ _, Some o) (λ v d, s ← value_str v; d ← dict_add_new dt can d s; Some (d, true)) d = Some d' ∧
    set_repr dt (SetHt d') (list_to_set (value_string <$> vals)).
Proof.
  intros Hh Hlen Hd. pose proof (holds_nodup dt _ _ Hh) as Hnd. pose proof (holds_values dt _ _ Hh) as Hv.
  edestruct (iterate_ok dt table_addr (λ _ : dict bytes (), Some o) (λ v d, s ← value_str v; d ← dict_add_new dt can d s; Some (d, true))
    (λ rest d, ∃ done', vals = done' ++ rest ∧ set_repr dt (SetHt d) (list_to_set (value_string <$> done')))
    (λ d, set_repr dt (SetHt d) (list_to_set (value_string <$> vals))) o vals d) as (d' & Hi & _ & HQ); [done|done| | | |by exists d'].
  - intros v rest d0 (done' & -> & Hd0). assert (value_ok v) as Hok by (apply Forall_app in Hv as [_ Hv]; by inversion Hv).
    rewrite value_str_ok by done. bind_simpl. destruct (dict_add_new_ok d0 _ (value_string v) Hd0) as (d1 & -> & Hd1).
    + destruct v as [s|n]; simpl in *; [done|]. pose proof (decimal_short n Hok). lia.
    + rewrite size_list_to_set by (rewrite fmap_app in Hnd; by apply NoDup_app in Hnd as [? _]). rewrite length_fmap, length_app in *. lia.
    + by eapply string_fresh.
    + bind_simpl. exists d1, true. split; [done|]. exists (done' ++ [v]). split; [by rewrite <- app_assoc|].
      rewrite fmap_app, list_to_set_app_L. simpl. by rewrite union_empty_r_L, union_comm_L.
  - intros d0 (done' & -> & Hd0). by rewrite app_nil_r.
  - by exists [].
Qed.

Lemma convert_ht_ok o X cap :
  set_repr dt o X → encoding o ≠ OBJ_ENCODING_HT → cap < LLONG_MAX → Z.of_nat (size X) < 2 ^ 60 →
  ∃ d, setTypeConvertAndExpand junk dt can table_addr o OBJ_ENCODING_HT cap None = Some (SetHt d, true) ∧ set_repr dt (SetHt d) X.
Proof.
  intros (vals & Hh & HX) Hne Hcap Hsize. unfold setTypeConvertAndExpand. rewrite decide_False by done.
  destruct (ht_expand cap Hcap) as (d & ok & -> & Hd). bind_simpl. cbn [negb].
  rewrite (holds_size dt o vals X Hh HX) in Hsize. destruct (fill_ht_ok o vals d Hh Hsize Hd) as (d' & -> & Hd'). bind_simpl.
  exists d'. split; [done|]. by rewrite <- HX.
Qed.

(** The allocation can fail when the caller asks for that. *)
Lemma try_convert_ht_ok o X cap alloc_ok :
  set_repr dt o X → encoding o ≠ OBJ_ENCODING_HT → Z.of_nat (size X) < 2 ^ 60 →
  ∃ o' ok, setTypeConvertAndExpand junk dt can table_addr o OBJ_ENCODING_HT cap (Some alloc_ok) = Some (o', ok) ∧ set_repr dt o' X ∧
    (if ok then encoding o' = OBJ_ENCODING_HT else o' = o ∧ alloc_ok = false).
Proof.
  intros (vals & Hh & HX) Hne Hsize. unfold setTypeConvertAndExpand. rewrite decide_False by done.
  destruct (dict_create_denotes (V := ()) dt) as [Hwf HM].
  destruct (expand_any dt dictCreate cap (Some alloc_ok) Hwf) as (d & ok & mf & He & Hwf' & Hent & Hmf).
  unfold dictTryExpand. rewrite He. bind_simpl. destruct mf; cbn [negb].
  - exists o, false. split_and!; [done|by exists vals|done|]. specialize (Hmf eq_refl). congruence.
  - assert (set_repr dt (SetHt d) ∅) as Hd.
    { apply repr_ht. exists ∅. split_and!; [|apply dom_empty_L|done]. split; [done|]. rewrite <- HM. apply (dict_map_same dt); [done|by rewrite Hent]. }
    rewrite (holds_size dt o vals X Hh HX) in Hsize. destruct (fill_ht_ok o vals d Hh Hsize Hd) as (d' & -> & Hd'). bind_simpl.
    exists (SetHt d'), true. split_and!; [done|by rewrite <- HX|done].
Qed.

(** ** To a listpack *)

(** How a value is stored. *)
Definition lp_of_value (v : set_value) : lpval := match v with ValStr s => lp_norm s | ValInt n => VInt n end.

Lemma lp_of_value_string v : lp_string (lp_of_value v) = value_string v.
Proof. destruct v; simpl; [apply lp_string_norm|done]. Qed.

Lemma lp_of_values_string vals : lp_string <$> (lp_of_value <$> vals) = value_string <$> vals.
Proof. rewrite <- list_fmap_compose. apply list_fmap_ext. intros ? v _. apply lp_of_value_string. Qed.

(** One more element, in its integer or string form. *)
Lemma append_value_ok lp vs v :
  lp_repr lp vs → value_ok v → zlen (value_string v) < 2 ^ 32 - 16 → lp_total (vs ++ [lp_of_value v]) ≤ UINT32_MAX →
  ∃ lp', not_null (match v with ValStr str => lpAppend junk lp str | ValInt llele => lpAppendInteger junk lp llele end) = Some lp' ∧
    lp_repr lp' (vs ++ [lp_of_value v]).
Proof.
  intros Hlp Hok Hlen Htot. assert (in_srange 64 0) as H0 by range_lia.
  assert (lp_result (vs ++ [lp_of_value v]) (match v with ValStr str => lpAppend junk lp str | ValInt llele => lpAppendInteger junk lp llele end)) as Hres.
  { destruct v as [s|n].
    - destruct (lp_append_prepend_ok junk lp vs s 0 Hlp Hlen H0) as (Ha & _). exact Ha.
    - destruct (lp_append_prepend_ok junk lp vs [] n Hlp eq_refl Hok) as (_ & _ & Ha & _). exact Ha. }
  unfold lp_result in Hres. rewrite decide_False in Hres by lia. destruct Hres as (lp' & -> & Hlp'). by exists lp'.
Qed.

Lemma convert_listpack_ok o vals cap :
  set_holds dt o vals → encoding o ≠ OBJ_ENCODING_LISTPACK → (∀ s, o = SetIntset s → zlen vals < 2 ^ 31) →
  Forall (λ v, zlen (value_string v) < 2 ^ 32 - 16) vals → lp_total (lp_of_value <$> vals) ≤ UINT32_MAX →
  ∃ lp, setTypeConvertAndExpand junk dt can table_addr o OBJ_ENCODING_LISTPACK cap None = Some (SetListpack lp, true) ∧
    lp_repr lp (lp_of_value <$> vals).
Proof.
  intros Hh Hne Hint Hlen Htot. unfold setTypeConvertAndExpand. rewrite decide_False by done.
  match goal with |- context [mbind _ ?e] => assert (∃ estcap, e = Some estcap) as [estcap ->] end.
  { destruct o as [s| |]; [|eexists; reflexivity..]. case_decide as H0; [|eexists; reflexivity]. specialize (Hint s eq_refl).
    destruct Hh as (vs & Hwf & Hlim & ->). pose proof Hwf as [Hr _]. unfold intsetLen in H0. rewrite (repr_len _ _ Hr) in H0.
    destruct (intset_access_ok s (list_to_set vs)) as (_ & _ & _ & _ & Hmm & _);
      [by exists vs|unfold intsetLen; rewrite (repr_len _ _ Hr); by rewrite length_fmap in Hint|].
    destruct Hmm as (lo & hi & -> & -> & _); [|eexists; reflexivity]. destruct vs; [simpl in H0; lia|]. rewrite list_to_set_cons. set_solver. }
  bind_simpl. destruct (lpNew_ok junk estcap) as (lp & -> & Hlp). bind_simpl. pose proof (holds_values dt _ _ Hh) as Hv.
  match goal with |- context [set_iterate _ ?su ?bo lp] =>
    edestruct (iterate_ok dt table_addr su bo (λ rest lp, ∃ done', vals = done' ++ rest ∧ lp_repr lp (lp_of_value <$> done'))
      (λ lp, lp_repr lp (lp_of_value <$> vals)) o vals lp) as (lp' & -> & _ & HQ) end; [done|done| | |by exists []|bind_simpl; by exists lp'].
  - intros v rest lp0 (done' & -> & Hlp0). apply Forall_app in Hv as [_ Hv]. apply Forall_app in Hlen as [_ Hlen].
    inversion_clear Hv. inversion_clear Hlen. rewrite fmap_app, fmap_cons, lp_total_app, body_cons, length_app in Htot.
    destruct (append_value_ok lp0 (lp_of_value <$> done') v) as (lp1 & -> & Hlp1);
      [done..|rewrite lp_total_app, body_cons, length_app; simpl; lia|]. bind_simpl. exists lp1, true. split; [done|].
    exists (done' ++ [v]). split; [by rewrite <- app_assoc|]. by rewrite fmap_app.
  - intros lp0 (done' & -> & Hlp0). by rewrite app_nil_r.
Qed.

End conv.
