(* ===== verification/TsetOps.v ===== *)
(** * t_set.c: a set object is a finite set of strings

Addition, removal, membership, size, conversions and copies, in every encoding. *)

From S2P Require Import Prelude Intset Dict DictInv DictOps DictLife Util Listpack ListpackEnc ListpackOps ListpackMod ListpackBulk.
From S2P Require Import Tset TsetInv TsetConv.

Local Open Scope Z_scope.

(** The first element equal to [s]. *)
Lemma find_ref_first s (vs : list lpval) :
  match find_ref 0 s vs 0 with
  | Some i => ∃ v, vs !! i = Some v ∧ lp_string v = s
  | None => s ∉ lp_string <$> vs
  end.
Proof.
  induction vs as [|v vs IH]; [simpl; apply not_elem_of_nil|]. cbn [find_ref]. case_decide as Hv; [by exists v|].
  destruct (find_ref 0 s vs 0) as [i|]; simpl; [exact IH|]. rewrite not_elem_of_cons. done.
Qed.

Lemma set_lp_find_ok lp vs s :
  lp_repr lp vs →
  ∃ r, set_lp_find lp s = Some r ∧
    match r with Some p => ∃ i v, p = lp_pos vs i ∧ vs !! i = Some v ∧ lp_string v = s | None => s ∉ lp_string <$> vs end.
Proof.
  intros Hlp. pose proof Hlp as (num & sl & Heq & Hnum & Hfits). unfold set_lp_find.
  assert (lpFirst lp = Some (lp_ptr vs 0)) as -> by (rewrite Heq; by apply lpFirst_ok). bind_simpl.
  unfold lp_ptr. case_decide as H0.
  - change 0 with (Z.of_nat 0). rewrite (lpFind_ok lp vs s 0 0 Hlp H0), drop_0. pose proof (find_ref_first s vs) as Hf. destruct (find_ref 0 s vs 0) as [i|]; simpl.
    + destruct Hf as (v & Hv & Hs). eexists. split; [done|]. by exists i, v.
    + by eexists.
  - eexists. split; [done|]. destruct vs; [apply not_elem_of_nil|simpl in H0; lia].
Qed.

Lemma size_union_new (X : gset bytes) s : s ∉ X → size ({[s]} ∪ X) = S (size X).
Proof. intros Hs. rewrite size_union by set_solver. by rewrite size_singleton. Qed.

Lemma size_list_le (l : list bytes) : (size (list_to_set l : gset bytes) ≤ length l)%nat.
Proof.
  induction l as [|x l IH]; [done|]. rewrite list_to_set_cons, size_union_alt, size_singleton.
  assert (size ((list_to_set l : gset bytes) ∖ {[x]}) ≤ size (list_to_set l : gset bytes))%nat by (apply subseteq_size; set_solver). simpl. lia.
Qed.

Lemma union_present (X : gset bytes) s : s ∈ X → {[s]} ∪ X = X.
Proof. set_solver. Qed.

Lemma denotes_srange s Y : intset_denotes s Y → set_Forall (in_srange 64) Y.
Proof. intros (vs & Hwf & <-) n Hn%elem_of_list_to_set. pose proof (intset_srange _ _ Hwf) as Hr. rewrite Forall_forall in Hr. by apply Hr. Qed.

Lemma elem_decimal s Y n : intset_denotes s Y → in_srange 64 n → decimal n ∈ (set_map decimal Y : gset bytes) ↔ n ∈ Y.
Proof.
  intros HY Hn. rewrite elem_of_map. split; [|by exists n]. intros (m & Heq & Hm). pose proof (denotes_srange _ _ HY m Hm).
  apply decimal_inj in Heq; [by subst|done..].
Qed.

Section facts.
Context (dt : dictType bytes) `{!SetDictType dt}.
Implicit Types (o : set_object) (X : gset bytes).

(** ** Size *)

Lemma setTypeSize_ok o X :
  set_repr dt o X → ∃ o', setTypeSize o = Some (o', Z.of_nat (size X)) ∧ set_repr dt o' X ∧ encoding o' = encoding o.
Proof.
  intros Ho. destruct o as [s|lp|d].
  - exists (SetIntset s). split_and!; [|done..]. pose proof Ho as (Y & HY & Hlen & <-)%(repr_intset dt). simpl.
    rewrite (denotes_length _ _ HY). do 3 f_equal. destruct HY as (vs & Hwf & <-).
    pose proof (intset_srange _ _ Hwf) as Hr.
    assert (set_map decimal (list_to_set vs : gset Z) = (list_to_set (decimal <$> vs) : gset bytes)) as ->.
    { apply set_eq. intros x. rewrite elem_of_map, elem_of_list_to_set, list_elem_of_fmap. set_solver. }
    pose proof (sorted_nodup vs (proj2 Hwf)) as Hnd.
    rewrite !size_list_to_set by (done || by apply decimal_nodup). by rewrite length_fmap.
  - apply (repr_listpack dt) in Ho as (vs & (num & sl & -> & Hnum & Hfits) & Hnd & <-). simpl.
    destruct (lpLength_ok num vs sl Hfits Hnum) as (num' & -> & Hnum'). bind_simpl. eexists. split_and!; [|apply repr_listpack|done].
    + rewrite size_list_to_set by done. by rewrite length_fmap.
    + exists vs. split_and!; [by apply lp_of_repr|done..].
  - exists (SetHt d). split_and!; [|done..]. simpl. by rewrite (ht_size dt d X Ho).
Qed.

Lemma intset_size s X : set_repr dt (SetIntset s) X → intsetLen s = Z.of_nat (size X).
Proof. intros Ho. destruct (setTypeSize_ok _ _ Ho) as (o' & [= _ Hn] & _). done. Qed.

End facts.

Section ops.
Context (junk : nat → Z) (dt : dictType bytes) `{!SetDictType dt} (can : dictResizeEnable) (table_addr : bool → Z).
Context (set_max_intset_entries set_max_listpack_entries set_max_listpack_value : Z).
Context (Hcfg : 0 ≤ set_max_intset_entries < INTSET_LIMIT).
Implicit Types (o : set_object) (X : gset bytes).

(** The sizes that the configuration allows for the compact encodings. *)
Definition set_limits (o : set_object) (X : gset bytes) : Prop :=
  match o with
  | SetIntset _ => Z.of_nat (size X) ≤ set_max_intset_entries
  | SetListpack _ => Z.of_nat (size X) ≤ set_max_listpack_entries ∧ set_Forall (λ s, zlen s ≤ set_max_listpack_value) X
  | SetHt _ => True
  end.

(** What an addition of [s] to [o] has to achieve. *)
Definition adds (o : set_object) (X : gset bytes) (s : bytes) (r : option (set_object * bool)) : Prop :=
  ∃ o', r = Some (o', bool_decide (s ∉ X)) ∧ set_inv dt o' ({[s]} ∪ X) ∧ (set_limits o X → set_limits o' ({[s]} ∪ X)).

(** ** Addition to a hash table *)

Lemma set_add_ht_dict ht s : set_add_ht dt can ht s = dictAdd dt can ht s ().
Proof.
  unfold set_add_ht, dictAdd, dictAddRaw. destruct (dictFindPositionForInsert dt can ht s) as [[ht' p]|]; [|done]. bind_simpl.
  destruct p as [r|t i|]; bind_simpl; [done| |done]. destruct (dictInsertAtPosition dt ht' s t i) as [[ht'' r]|]; [|done]. bind_simpl.
  by rewrite set_type_no_value.
Qed.

Lemma value_length v : value_ok v → zlen (value_string v) < 2 ^ 63.
Proof. destruct v as [s|n]; [done|]. intros Hn. pose proof (decimal_short n Hn). simpl. lia. Qed.

Lemma set_add_ht_ok ht X s :
  set_repr dt (SetHt ht) X → zlen s < 2 ^ 63 → Z.of_nat (size X) < 2 ^ 60 →
  adds (SetHt ht) X s ('(ht, added) ← set_add_ht dt can ht s; Some (SetHt ht, added)).
Proof.
  intros Hd Hs Hsize. rewrite set_add_ht_dict. destruct (ht_add dt can ht X s Hd Hs Hsize) as (d' & -> & Hd'). bind_simpl.
  exists (SetHt d'). by split_and!.
Qed.

(** Conversion and addition. *)
Lemma set_convert_add_ok o X cap s :
  set_repr dt o X → encoding o ≠ OBJ_ENCODING_HT → cap < LLONG_MAX → Z.of_nat (size X) < 2 ^ 60 → zlen s < 2 ^ 63 → s ∉ X →
  ∃ d, set_convert_add junk dt can table_addr o cap s = Some (SetHt d) ∧ set_repr dt (SetHt d) ({[s]} ∪ X).
Proof.
  intros Ho Hne Hcap Hsize Hs Hn. unfold set_convert_add.
  destruct (convert_ht_ok junk dt can table_addr o X cap Ho Hne Hcap Hsize) as (d & -> & Hd). bind_simpl.
  destruct (dict_add_new_ok dt can d X s Hd Hs Hsize Hn) as (d' & -> & Hd'). bind_simpl. by exists d'.
Qed.

Lemma lp_size lp X : set_repr dt (SetListpack lp) X → Z.of_nat (size X) < 2 ^ 31.
Proof.
  intros (vs & (num & sl & _ & _ & Hfits) & Hnd & <-)%(repr_listpack dt). rewrite size_list_to_set by done. rewrite length_fmap.
  pose proof (length_body vs (fits_vals _ Hfits)). pose proof (fits_total _ Hfits). unfold lp_total, UINT32_MAX in *. lia.
Qed.

(** ** Addition to a listpack *)

Lemma set_add_listpack_ok lp X v :
  set_repr dt (SetListpack lp) X → value_ok v →
  adds (SetListpack lp) X (value_string v)
    (set_add_listpack junk dt can table_addr set_max_listpack_entries set_max_listpack_value lp v (value_string v)).
Proof.
  intros Ho Hok. pose proof (lp_size lp X Ho) as Hsz. pose proof Ho as (vs & Hlp & Hnd & HX)%(repr_listpack dt).
  pose proof (value_length v Hok) as Hvlen. set (s := value_string v) in *.
  assert (s ∈ X ↔ s ∈ lp_string <$> vs) as Hin by (rewrite <- HX; apply elem_of_list_to_set).
  unfold set_add_listpack. destruct (set_lp_find_ok lp vs s Hlp) as (r & -> & Hr). bind_simpl. destruct r as [p|].
  { destruct Hr as (i & w & -> & Hw & Hs). assert (s ∈ X) as HsX by (apply Hin, list_elem_of_fmap; exists w; eauto using list_elem_of_lookup_2).
    exists (SetListpack lp). rewrite bool_decide_false by tauto. rewrite union_present by done. by split_and!. }
  assert (s ∉ X) as HsX by tauto. destruct (setTypeSize_ok dt _ _ Ho) as (o1 & Hsize & Ho1 & _). simpl in Hsize.
  destruct (lpLength lp) as [[lp1 n]|]; [|done]. revert Hsize. bind_simpl. intros [= <- ->].
  pose proof Ho1 as (vs1 & Hlp1 & Hnd1 & HX1)%(repr_listpack dt). pose proof Hlp1 as (num & sl & Heq & Hnum & Hfits).
  assert (lpSafeToAdd (Some lp1) (zlen s) = Some (bool_decide (lp_total vs1 + zlen s ≤ 2 ^ 30))) as ->.
  { unfold lpSafeToAdd. rewrite Heq, lp_of_total by done. bind_simpl. pose proof (fits_total _ Hfits).
    rewrite uwrap_small by (unfold lp_total, UINT32_MAX in *; range_lia). f_equal. rewrite <- bool_decide_not. apply bool_decide_ext.
    unfold LISTPACK_MAX_SAFETY_SIZE. change (Z.shiftl 1 30) with (2 ^ 30). lia. }
  bind_simpl. destruct (bool_decide _ && _ && _) eqn:Hc.
  - rewrite !andb_true_iff, !bool_decide_eq_true in Hc. destruct Hc as [[Hn Hvl] Hsafe]. pose proof (entry_bound (lp_of_value v)) as Hb.
    rewrite lp_of_value_string in Hb. fold s in Hb.
    destruct (append_value_ok junk lp1 vs1 v Hlp1 Hok) as (lp2 & Happ & Hlp2).
    { fold s. unfold lp_total in *. lia. }
    { rewrite lp_total_app, body_cons, length_app. unfold UINT32_MAX. simpl. lia. }
    replace (match v with ValInt llval => lpAppendInteger junk lp1 llval | ValStr str => lpAppend junk lp1 str end)
      with (match v with ValStr str => lpAppend junk lp1 str | ValInt llval => lpAppendInteger junk lp1 llval end) by by destruct v.
    rewrite Happ. bind_simpl. exists (SetListpack lp2). split_and!; [by rewrite bool_decide_true| |].
    + split; [|done]. apply (repr_listpack dt). exists (vs1 ++ [lp_of_value v]). split; [done|].
      rewrite fmap_app. simpl. rewrite lp_of_value_string. fold s. split.
      * apply NoDup_app. split_and!; [done| |apply NoDup_singleton]. intros x Hx ->%list_elem_of_singleton. apply HsX. rewrite <- HX1. by apply elem_of_list_to_set.
      * rewrite list_to_set_app_L, HX1. simpl. by rewrite union_empty_r_L, union_comm_L.
    + intros [_ Hall]. simpl. rewrite size_union_new by done. split; [lia|]. apply set_Forall_union; [by apply set_Forall_singleton|done].
  - destruct (setTypeSize_ok dt _ _ Ho1) as (o2 & Hsize2 & Ho2 & _). simpl in Hsize2.
    destruct (lpLength lp1) as [[lp2 n]|]; [|done]. revert Hsize2. bind_simpl. intros [= <- ->].
    destruct (set_convert_add_ok (SetListpack lp2) X (Z.of_nat (size X) + 1) s Ho2) as (d & -> & Hd); [done|range_lia|lia|done..|].
    bind_simpl. exists (SetHt d). split_and!; [by rewrite bool_decide_true|by split|done].
Qed.

(** ** Addition to an intset *)

Lemma max_entries_le : intsetMaxEntries set_max_intset_entries ≤ set_max_intset_entries ∧
  intsetMaxEntries set_max_intset_entries < INTSET_LIMIT.
Proof. unfold intsetMaxEntries, INTSET_LIMIT in *. change (Z.shiftl 1 30) with (2 ^ 30). case_decide; lia. Qed.

Lemma maybeConvertIntset_ok s X :
  set_repr dt (SetIntset s) X →
  ∃ o, maybeConvertIntset junk dt can table_addr set_max_intset_entries (SetIntset s) = Some o ∧ set_inv dt o X ∧ set_limits o X.
Proof.
  intros Ho. unfold maybeConvertIntset. rewrite (intset_size dt s X Ho). pose proof max_entries_le. case_decide as Hgt.
  - unfold setTypeConvert. destruct (setTypeSize_ok dt _ _ Ho) as (o' & -> & Ho' & Henc). bind_simpl.
    pose proof Ho as (Y & _ & Hlen & _)%(repr_intset dt). rewrite (intset_size dt s X Ho) in Hlen. unfold INTSET_LIMIT in Hlen.
    destruct (convert_ht_ok junk dt can table_addr o' X (Z.of_nat (size X)) Ho') as (d & -> & Hd); [by rewrite Henc|range_lia..|].
    exists (SetHt d). by split_and!.
  - exists (SetIntset s). split_and!; [done| |simpl; lia]. split; [done|]. simpl. rewrite (intset_size dt s X Ho). lia.
Qed.

Lemma add_intset_ll_ok s X n :
  set_inv dt (SetIntset s) X → in_srange 64 n →
  adds (SetIntset s) X (decimal n) (set_add_intset_ll junk dt can table_addr set_max_intset_entries s n).
Proof.
  intros [Ho Hlt] Hn. pose proof Ho as (Y & HY & _ & <-)%(repr_intset dt). unfold set_add_intset_ll.
  destruct (intsetAdd_ok junk s Y n HY Hlt Hn) as (s' & -> & HY' & _). bind_simpl.
  assert (bool_decide (decimal n ∉ (set_map decimal Y : gset bytes)) = bool_decide (n ∉ Y)) as Hb.
  { apply bool_decide_ext. by rewrite (elem_decimal s Y n HY Hn). }
  unfold adds. rewrite Hb. assert (set_repr dt (SetIntset s') ({[decimal n]} ∪ set_map decimal Y)) as Ho'.
  { apply (repr_intset dt). exists ({[n]} ∪ Y). split_and!; [done| |by rewrite set_map_union_L, set_map_singleton_L].
    simpl in Hlt. rewrite (denotes_length _ _ HY'), size_union_alt, size_singleton. rewrite (denotes_length _ _ HY) in Hlt.
    assert (size (Y ∖ {[n]}) ≤ size Y)%nat by (apply subseteq_size; set_solver). lia. }
  clear Hb. case_bool_decide as Hnew.
  - destruct (maybeConvertIntset_ok s' _ Ho') as (o & -> & Hinv & Hlim). bind_simpl. exists o. split; [done|]. split; [exact Hinv|]. intros _. exact Hlim.
  - assert ({[decimal n]} ∪ set_map decimal Y = (set_map decimal Y : gset bytes)) as Heq.
    { apply union_present, (elem_decimal s Y n HY Hn). destruct (decide (n ∈ Y)); tauto. }
    rewrite Heq in *. exists (SetIntset s'). split_and!; [done| |done]. split; [done|]. simpl in *.
    by rewrite (intset_size dt s' _ Ho'), <- (intset_size dt s _ Ho).
Qed.

Lemma bounds_ok s X :
  set_repr dt (SetIntset s) X →
  ∃ vs maxlen tot, intset_listpack_bounds s = Some (maxlen, tot) ∧ set_holds dt (SetIntset s) (ValInt <$> vs) ∧
    list_to_set (decimal <$> vs) = X ∧ Forall (λ n, zlen (decimal n) ≤ maxlen) vs ∧ 0 ≤ tot < 2 ^ 33 ∧
    lp_total (VInt <$> vs) ≤ Z.max 7 tot.
Proof.
  intros Ho. pose proof Ho as (vals & (vs & Hwf & Hlim & ->) & HX). rewrite intset_strings in HX. unfold intset_listpack_bounds.
  pose proof Hwf as [Hr Hs]. pose proof (repr_len _ _ Hr) as Hlen. unfold intsetLen. rewrite Hlen. unfold INTSET_LIMIT in Hlim.
  destruct (decide (zlen vs ≠ 0)) as [H0|H0].
  - destruct (intset_access_ok s (list_to_set vs)) as (_ & _ & _ & _ & Hmm & _);
      [by exists vs|unfold intsetLen; rewrite Hlen; lia|].
    destruct Hmm as (lo & hi & -> & -> & Hlo & Hhi & Hbetween); [destruct vs; [done|]; rewrite list_to_set_cons; set_solver|]. bind_simpl.
    apply elem_of_list_to_set in Hlo, Hhi. assert (Forall (λ n, lo ≤ n ≤ hi) vs) as Hall by (apply Forall_forall; intros n Hn; by apply Hbetween, elem_of_list_to_set).
    pose proof (intset_srange _ _ Hwf) as Hrange. rewrite Forall_forall in Hrange. pose proof (Hrange _ Hlo) as Rlo. pose proof (Hrange _ Hhi) as Rhi.
    exists vs, (Z.max (sdigits10 hi) (sdigits10 lo)). eexists. split_and!; [done|by exists vs|done| | | |].
    + eapply Forall_impl; [exact Hall|]. intros n Hn. simpl. rewrite !sdigits10_ok by done.
      pose proof (decimal_length_between lo n hi Rlo Rhi Hn). lia.
    + rewrite !estimate_ok. pose proof (int_len_range lo). pose proof (int_len_range hi). nia.
    + rewrite !estimate_ok. pose proof (int_len_range lo). pose proof (int_len_range hi). nia.
    + pose proof (estimate_bound lo hi vs Hall). lia.
  - exists vs, 0, 0. destruct vs; [|simpl in H0; lia]. split_and!; [done|by exists []|done|constructor|lia..|done].
Qed.

Lemma not_number s Y str : intset_denotes s Y → string2ll str = None → str ∉ (set_map decimal Y : gset bytes).
Proof.
  intros HY Hstr (n & -> & Hn)%elem_of_map. assert (string2ll (decimal n) = Some n); [|congruence].
  apply string2ll_ok. split; [by apply (denotes_srange _ _ HY)|done].
Qed.

Lemma values_of_ints (vs : list Z) : lp_of_value <$> (ValInt <$> vs) = VInt <$> vs.
Proof. by rewrite <- list_fmap_compose. Qed.

Lemma lp_strings_of_ints (vs : list Z) : lp_string <$> (VInt <$> vs) = decimal <$> vs.
Proof. by rewrite <- list_fmap_compose. Qed.

(** The conversion of an intset to a listpack with one more string. *)
Lemma intset_to_listpack_ok s X (vs : list Z) str :
  set_holds dt (SetIntset s) (ValInt <$> vs) → list_to_set (decimal <$> vs) = X → str ∉ X →
  lp_total (VInt <$> vs) + zlen str ≤ 2 ^ 30 + 7 →
  ∃ lp, ('(o, _) ← setTypeConvertAndExpand junk dt can table_addr (SetIntset s) OBJ_ENCODING_LISTPACK (intsetLen s + 1) None;
         match o with
         | SetListpack lp => lp ← not_null (lpAppend junk lp str); lp ← lpShrinkToFit junk lp; Some (SetListpack lp, true)
         | _ => None
         end) = Some (SetListpack lp, true) ∧ set_repr dt (SetListpack lp) ({[str]} ∪ X).
Proof.
  intros Hh HX Hn Htot. pose proof (holds_nodup dt _ _ Hh) as Hnd. rewrite intset_strings in Hnd.
  pose proof (holds_values dt _ _ Hh) as Hv. pose proof Hh as (vs' & Hwf & Hlim & Hvs'). apply (f_equal length) in Hvs' as Hlen.
  rewrite !length_fmap in Hlen. rewrite <- Hlen in Hlim. unfold INTSET_LIMIT in Hlim. assert (zlen str ≤ 2 ^ 30) as Hstr by (unfold lp_total in Htot; lia).
  destruct (convert_listpack_ok junk dt can table_addr (SetIntset s) (ValInt <$> vs) (intsetLen s + 1) Hh) as (lp & -> & Hlp).
  - done.
  - intros _ _. rewrite length_fmap. lia.
  - apply Forall_fmap. rewrite Forall_fmap in Hv. eapply Forall_impl; [exact Hv|]. intros n Hok. simpl in *. pose proof (decimal_short n Hok). lia.
  - rewrite values_of_ints. unfold UINT32_MAX. lia.
  - bind_simpl. rewrite values_of_ints in Hlp. pose proof (entry_bound (lp_norm str)) as Hb. rewrite lp_string_norm in Hb.
    destruct (append_value_ok junk lp (VInt <$> vs) (ValStr str) Hlp) as (lp1 & -> & Hlp1);
      [simpl; lia|simpl; lia|rewrite lp_total_app, body_cons, length_app; unfold UINT32_MAX; simpl; lia|].
    bind_simpl. destruct Hlp1 as (num & sl & -> & Hnum & Hfits). rewrite shrink_ok by done. bind_simpl. eexists. split; [done|].
    apply (repr_listpack dt). eexists. split; [by apply lp_of_repr|]. rewrite fmap_app, lp_strings_of_ints. simpl. rewrite lp_string_norm. split.
    + apply NoDup_app. split_and!; [done| |apply NoDup_singleton]. intros x Hx ->%list_elem_of_singleton. apply Hn. rewrite <- HX. by apply elem_of_list_to_set.
    + rewrite list_to_set_app_L, HX. simpl. by rewrite union_empty_r_L, union_comm_L.
Qed.

Lemma add_intset_str_ok s X str :
  set_inv dt (SetIntset s) X → zlen str < 2 ^ 63 →
  adds (SetIntset s) X str
    (set_add_intset_str junk dt can table_addr set_max_intset_entries set_max_listpack_entries set_max_listpack_value s str).
Proof.
  intros Hinv Hlen. unfold set_add_intset_str. destruct (string2ll str) as [n|] eqn:Hstr.
  { apply string2ll_ok in Hstr as [Hn ->]. by apply add_intset_ll_ok. }
  pose proof Hinv as [Ho _]. assert (str ∉ X) as Hnew by (apply (repr_intset dt) in Ho as (Y & HY & _ & <-); by eapply not_number).
  destruct (bounds_ok s X Ho) as (vs & maxlen & tot & -> & Hh & HX & Hmax & Htot & Htotal). bind_simpl.
  unfold lpSafeToAdd. bind_simpl. rewrite (uwrap_small 64 (tot + zlen str)), Z.add_0_l, uwrap_small by range_lia.
  pose proof (intset_size dt s X Ho) as Hsize. pose proof Hinv as [_ Hsmall]. simpl in Hsmall. unfold INTSET_LIMIT in Hsmall.
  destruct (bool_decide _ && _ && _ && _) eqn:Hc.
  - rewrite !andb_true_iff, negb_true_iff, !bool_decide_eq_true, bool_decide_eq_false in Hc. destruct Hc as [[[Hn Hvl] Hml] Hsafe].
    unfold LISTPACK_MAX_SAFETY_SIZE in Hsafe. change (Z.shiftl 1 30) with (2 ^ 30) in Hsafe.
    destruct (intset_to_listpack_ok s X vs str Hh HX Hnew) as (lp & -> & Hlp); [lia|].
    exists (SetListpack lp). split_and!; [by rewrite bool_decide_true|by split|]. intros _. simpl. rewrite size_union_new by done.
    split; [lia|]. apply set_Forall_union; [by apply set_Forall_singleton|]. rewrite <- HX.
    intros x (n & -> & Hx)%elem_of_list_to_set%list_elem_of_fmap. rewrite Forall_forall in Hmax. specialize (Hmax _ Hx). lia.
  - destruct (set_convert_add_ok (SetIntset s) X (intsetLen s + 1) str Ho) as (d & -> & Hd); [done|range_lia|lia|done..|].
    bind_simpl. exists (SetHt d). split_and!; [by rewrite bool_decide_true|by split|done].
Qed.

Lemma setTypeAddAux_ok o X v :
  set_inv dt o X → value_ok v → Z.of_nat (size X) < 2 ^ 60 →
  adds o X (value_string v)
    (setTypeAddAux junk dt can table_addr set_max_intset_entries set_max_listpack_entries set_max_listpack_value o v).
Proof.
  intros Hinv Hv Hsize. pose proof Hinv as [Ho _]. pose proof (value_length v Hv) as Hlen. unfold setTypeAddAux.
  destruct o as [s|lp|d].
  - destruct v as [str|n]; [apply add_intset_str_ok; done|by apply add_intset_ll_ok].
  - rewrite value_str_ok by done. bind_simpl. by apply set_add_listpack_ok.
  - rewrite value_str_ok by done. bind_simpl. by apply set_add_ht_ok.
Qed.

(** ** Removal *)

Definition removes (o : set_object) (X : gset bytes) (s : bytes) (r : option (set_object * bool)) : Prop :=
  ∃ o', r = Some (o', bool_decide (s ∈ X)) ∧ set_inv dt o' (X ∖ {[s]}) ∧ (set_limits o X → set_limits o' (X ∖ {[s]})).

Lemma size_difference_le X s : (size (X ∖ {[s]}) ≤ size X)%nat.
Proof. apply subseteq_size. set_solver. Qed.

Lemma removes_absent o X s r : set_inv dt o X → s ∉ X → r = Some (o, false) → removes o X s r.
Proof.
  intros Hinv Hn ->. exists o. rewrite bool_decide_false by done. replace (X ∖ {[s]}) with X by set_solver. by split_and!.
Qed.

Lemma limits_difference o o' X s : encoding o' = encoding o → set_limits o X → set_limits o' (X ∖ {[s]}).
Proof.
  pose proof (size_difference_le X s). destruct o, o'; simpl; try done; [lia|]. intros _ [H1 H2]. split; [lia|]. intros x Hx. apply H2. set_solver.
Qed.

Lemma remove_intset_ok s X n :
  set_inv dt (SetIntset s) X → in_srange 64 n → removes (SetIntset s) X (decimal n) (set_remove_intset junk s n).
Proof.
  intros [Ho Hlt] Hn. pose proof Ho as (Y & HY & Hle & <-)%(repr_intset dt). unfold set_remove_intset.
  destruct (intsetRemove_ok junk s Y n HY Hle Hn) as (s' & -> & HY'). bind_simpl. exists (SetIntset s').
  split; [do 2 f_equal; apply bool_decide_ext; symmetry; by apply (elem_decimal s)|].
  assert (set_map decimal (Y ∖ {[n]}) = (set_map decimal Y ∖ {[decimal n]} : gset bytes)) as Hmap.
  { apply set_eq. intros x. rewrite elem_of_difference, elem_of_singleton, !elem_of_map. split.
    - intros (m & -> & [Hm Hne]%elem_of_difference). split; [by exists m|]. intros Heq. apply Hne, elem_of_singleton.
      apply decimal_inj; [by apply (denotes_srange _ _ HY)|done..].
    - intros [(m & -> & Hm) Hne]. exists m. split; [done|]. apply elem_of_difference. split; [done|]. intros ->%elem_of_singleton. done. }
  assert (intsetLen s' ≤ intsetLen s) as Hle'.
  { rewrite (denotes_length _ _ HY'), (denotes_length _ _ HY). apply Nat2Z.inj_le, subseteq_size. set_solver. }
  split; [|by apply limits_difference]. split; [|simpl in *; lia]. apply (repr_intset dt). exists (Y ∖ {[n]}). split_and!; [done|lia|done].
Qed.

Lemma remove_listpack_ok lp X s :
  set_repr dt (SetListpack lp) X →
  removes (SetListpack lp) X s
    (p ← set_lp_find lp s;
     match p with
     | Some p => '(lp, _) ← not_null (lpDelete junk lp p); Some (SetListpack lp, true)
     | None => Some (SetListpack lp, false)
     end).
Proof.
  intros Ho. pose proof Ho as (vs & Hlp & Hnd & HX)%(repr_listpack dt).
  destruct (set_lp_find_ok lp vs s Hlp) as (r & -> & Hr). bind_simpl. destruct r as [p|].
  - destruct Hr as (i & v & -> & Hv & Hs). pose proof (lookup_lt_Some _ _ _ Hv) as Hi.
    destruct (lp_replace_delete_ok junk lp vs [] i Hlp Hi eq_refl) as (_ & lp' & -> & Hlp'). simpl. exists (SetListpack lp').
    assert (s ∈ X) as Hin by (rewrite <- HX; apply elem_of_list_to_set, list_elem_of_fmap; exists v; eauto using list_elem_of_lookup_2).
    split; [by rewrite bool_decide_true|]. split; [|by apply limits_difference]. split; [|done]. apply (repr_listpack dt). exists (delete i vs). split; [done|].
    rewrite delete_take_drop. pose proof (take_drop_middle vs i v Hv) as Hmid. rewrite <- Hmid in Hnd, HX.
    rewrite fmap_app, fmap_cons, Hs in Hnd, HX. apply NoDup_app in Hnd as (Hnd1 & Hd & [Hn2 Hnd2]%NoDup_cons). rewrite fmap_app. split.
    + apply NoDup_app. split_and!; [done| |done]. intros x Hx Hx'. apply (Hd x Hx). by right.
    + rewrite <- HX. rewrite !list_to_set_app_L, list_to_set_cons. apply set_eq. intros x. specialize (Hd x). set_solver.
  - apply removes_absent; [by split| |done]. rewrite <- HX. by rewrite elem_of_list_to_set.
Qed.

Lemma remove_ht_ok d X s :
  set_repr dt (SetHt d) X → Z.of_nat (size X) < 2 ^ 60 →
  removes (SetHt d) X s
    ('(d, deleted) ← dictDelete dt can d s;
     d ← (if deleted : bool then if htNeedsResize d then '(d, _) ← dictResize can d; Some d else Some d else Some d);
     Some (SetHt d, deleted)).
Proof.
  intros Ho Hsize. pose proof Ho as (M & HM & HX & Hlen)%(repr_ht dt).
  destruct (generic_delete_ok dt can d M s HM) as (d' & he & _ & HM' & -> & _). bind_simpl.
  assert (set_repr dt (SetHt d') (X ∖ {[s]})) as Ho'.
  { apply (repr_ht dt). exists (delete s M). split_and!; [done|by rewrite dom_delete_L, HX|]. intros x Hx. apply Hlen. set_solver. }
  assert (bool_decide (is_Some (M !! s)) = bool_decide (s ∈ X)) as -> by (apply bool_decide_ext; by rewrite <- HX, elem_of_dom).
  pose proof Ho' as (M' & HM'' & HX' & Hlen')%(repr_ht dt). pose proof (size_difference_le X s).
  destruct (shrink_if_needed_ok dt can d' M' HM'') as (d'' & Hsh & Hd''); [rewrite (ht_size dt d' _ Ho'); lia|].
  assert (set_repr dt (SetHt d'') (X ∖ {[s]})) as Ho'' by (apply (repr_ht dt); by exists M').
  case_bool_decide as Hin.
  - rewrite Hsh. bind_simpl. exists (SetHt d''). rewrite bool_decide_true by done. split; [done|]. by split.
  - bind_simpl. exists (SetHt d'). rewrite bool_decide_false by done. split; [done|]. by split.
Qed.

Lemma setTypeRemoveAux_ok o X v :
  set_inv dt o X → value_ok v → Z.of_nat (size X) < 2 ^ 60 → removes o X (value_string v) (setTypeRemoveAux junk dt can o v).
Proof.
  intros Hinv Hv Hsize. pose proof Hinv as [Ho _]. unfold setTypeRemoveAux. destruct o as [s|lp|d].
  - destruct v as [str|n]; [|by apply remove_intset_ok]. simpl. destruct (string2ll str) as [n|] eqn:Hstr.
    + apply string2ll_ok in Hstr as [Hn ->]. by apply remove_intset_ok.
    + apply removes_absent; [done| |done]. pose proof Ho as (Y & HY & _ & <-)%(repr_intset dt). by eapply not_number.
  - rewrite value_str_ok by done. bind_simpl. by apply remove_listpack_ok.
  - rewrite value_str_ok by done. bind_simpl. by apply remove_ht_ok.
Qed.

(** ** Membership *)

Lemma setTypeIsMemberAux_ok o X v :
  set_inv dt o X → value_ok v →
  ∃ o', setTypeIsMemberAux dt can o v = Some (o', bool_decide (value_string v ∈ X)) ∧ set_inv dt o' X ∧ encoding o' = encoding o.
Proof.
  intros Hinv Hv. pose proof Hinv as [Ho Hsmall]. unfold setTypeIsMemberAux. destruct o as [s|lp|d].
  - exists (SetIntset s). split; [|done]. pose proof Ho as (Y & HY & _ & <-)%(repr_intset dt).
    assert (∀ n, in_srange 64 n → intsetFind s n = Some (bool_decide (decimal n ∈ (set_map decimal Y : gset bytes)))) as Hfind.
    { intros n Hn. rewrite (intsetFind_refines s Y n HY) by (done || (simpl in Hsmall; unfold INTSET_LIMIT in *; lia)).
      f_equal. apply bool_decide_ext. symmetry. by apply (elem_decimal s). }
    destruct v as [str|n]; [|by rewrite Hfind]. simpl. destruct (string2ll str) as [n|] eqn:Hstr.
    + apply string2ll_ok in Hstr as [Hn ->]. by rewrite Hfind.
    + rewrite bool_decide_false; [done|by eapply not_number].
  - rewrite value_str_ok by done. bind_simpl. pose proof Ho as (vs & Hlp & Hnd & <-)%(repr_listpack dt).
    destruct (set_lp_find_ok lp vs (value_string v) Hlp) as (r & -> & Hr). bind_simpl. eexists. split; [|done]. do 2 f_equal.
    apply bool_decide_ext. rewrite elem_of_list_to_set. destruct r as [p|].
    + split; [intros _|by eexists]. destruct Hr as (i & w & -> & Hw & <-). apply list_elem_of_fmap. exists w. eauto using list_elem_of_lookup_2.
    + split; [by intros [? ?]|done].
  - rewrite value_str_ok by done. bind_simpl. pose proof Ho as (M & HM & <- & Hlen)%(repr_ht dt).
    destruct (dictFind_ok dt can d M (value_string v) HM) as (d' & r & -> & HM' & Hr). bind_simpl. exists (SetHt d'). split.
    + do 2 f_equal. apply bool_decide_ext. rewrite elem_of_dom. destruct r as [r|]; [|by rewrite Hr; split; intros [? ?]].
      destruct Hr as (w & _ & ->). split; by eexists.
    + split; [|done]. split; [|done]. apply (repr_ht dt). by exists M.
Qed.

(** ** Creation, conversion and copies *)

Lemma intset_new_ok : set_inv dt (SetIntset intsetNew) ∅.
Proof.
  split; [|done]. apply (repr_intset dt). exists ∅. split_and!; [|done..]. exists []. split; [|done]. split; [|constructor].
  split; simpl; [by left|done|done|done|constructor].
Qed.

Lemma lp_new_inv cap : ∃ lp, lpNew junk cap = Some lp ∧ set_inv dt (SetListpack lp) ∅.
Proof.
  destruct (lpNew_ok junk cap) as (lp & -> & Hlp). exists lp. split; [done|]. split; [|done]. apply (repr_listpack dt).
  exists []. split_and!; [done|constructor|done].
Qed.

Lemma setTypeCreate_ok value hint :
  hint < LLONG_MAX →
  ∃ o, setTypeCreate junk set_max_intset_entries set_max_listpack_entries value hint = Some o ∧ set_inv dt o ∅.
Proof.
  intros Hh. unfold setTypeCreate. destruct (_ && _); [eexists; split; [done|apply intset_new_ok]|]. case_decide.
  - destruct (lp_new_inv 0) as (lp & -> & Hlp). bind_simpl. by eexists.
  - destruct (ht_expand dt hint Hh) as (d & ok & -> & Hd). bind_simpl. eexists. split; [done|]. by split.
Qed.

Lemma convert_to_ht_ok o X :
  set_repr dt o X → encoding o ≠ OBJ_ENCODING_HT → Z.of_nat (size X) < 2 ^ 60 →
  ∃ d, setTypeConvert junk dt can table_addr o OBJ_ENCODING_HT = Some (SetHt d) ∧ set_repr dt (SetHt d) X.
Proof.
  intros Ho Hne Hsize. unfold setTypeConvert. destruct (setTypeSize_ok dt _ _ Ho) as (o' & -> & Ho' & Henc). bind_simpl.
  destruct (convert_ht_ok junk dt can table_addr o' X (Z.of_nat (size X)) Ho') as (d & -> & Hd); [by rewrite Henc|range_lia|done|]. by exists d.
Qed.

Lemma setTypeMaybeConvert_ok o X hint :
  set_inv dt o X → hint < LLONG_MAX → Z.of_nat (size X) < 2 ^ 60 →
  ∃ o', setTypeMaybeConvert junk dt can table_addr set_max_intset_entries set_max_listpack_entries o hint = Some o' ∧ set_inv dt o' X.
Proof.
  intros Hinv Hh Hsize. unfold setTypeMaybeConvert. case_decide as Hc; [|by exists o].
  destruct (convert_ht_ok junk dt can table_addr o X hint) as (d & -> & Hd); [apply Hinv|by destruct Hc as [[-> _]|[-> _]]|done..|]. eexists. split; [done|]. by split.
Qed.

(** A set of integers becomes an intset, whatever encoding it is in. *)
Lemma to_intset_ok o X :
  set_repr dt o X → set_Forall (λ s, is_Some (string2ll s)) X → Z.of_nat (size X) ≤ intsetMaxEntries set_max_intset_entries →
  ∃ s, set_iterate table_addr (λ _, Some o)
         (λ v s, llval ← (match v with ValStr str => string2ll str | ValInt llval => Some llval end);
                 '(s, success) ← intsetAdd junk s llval;
                 if success : bool then Some (s, true) else None) intsetNew = Some s ∧
    set_repr dt (SetIntset s) X.
Proof.
  intros (vals & Hh & HX) Hint Hsize. pose proof (holds_nodup dt _ _ Hh) as Hnd. pose proof (holds_values dt _ _ Hh) as Hv.
  rewrite (holds_size dt o vals X Hh HX) in Hsize. pose proof max_entries_le as [_ Hmax].
  match goal with |- context [set_iterate _ ?su ?bo _] =>
    edestruct (iterate_ok dt table_addr su bo
      (λ rest s, ∃ done', vals = done' ++ rest ∧ set_repr dt (SetIntset s) (list_to_set (value_string <$> done')))
      (λ s, set_repr dt (SetIntset s) X) o vals intsetNew) as (s & -> & _ & HQ) end; [done|done| | | |by exists s].
  - intros v rest s (done' & Hvals & Hs). assert (value_ok v) as Hok by (rewrite Hvals in Hv; apply Forall_app in Hv as [_ Hv]; by inversion Hv).
    assert (∃ n, match v with ValStr str => string2ll str | ValInt llval => Some llval end = Some n ∧ in_srange 64 n ∧ value_string v = decimal n)
      as (n & -> & Hn & Hvn).
    { destruct v as [str|n]; [|by exists n]. destruct (Hint str) as [n Hstr]; [|apply string2ll_ok in Hstr as Hs'; exists n; naive_solver].
      rewrite <- HX, Hvals. apply elem_of_list_to_set, list_elem_of_fmap. exists (ValStr str). set_solver. }
    bind_simpl. pose proof Hs as (Y & HY & _ & Hmap)%(repr_intset dt).
    assert (Z.of_nat (size (list_to_set (value_string <$> done') : gset bytes)) < zlen vals) as Hlt.
    { rewrite size_list_to_set by (rewrite Hvals, fmap_app in Hnd; by apply NoDup_app in Hnd as [? _]). rewrite Hvals, length_fmap, length_app. simpl. lia. }
    destruct (intsetAdd_ok junk s Y n HY) as (s' & -> & HY' & _); [rewrite (intset_size dt s _ Hs); lia|done|].
    rewrite bool_decide_true.
    2: { rewrite <- (elem_decimal s Y n HY Hn), Hmap, <- Hvn. rewrite Hvals in Hnd. by eapply string_fresh. }
    bind_simpl. exists s', true. split; [done|]. exists (done' ++ [v]). split; [by rewrite <- app_assoc|].
    rewrite fmap_app, list_to_set_app_L. simpl. rewrite union_empty_r_L, <- Hmap, Hvn, union_comm_L. apply (repr_intset dt).
    exists ({[n]} ∪ Y). split_and!; [done| |by rewrite set_map_union_L, set_map_singleton_L].
    rewrite (denotes_length _ _ HY'), size_union_alt, size_singleton.
    assert (size (Y ∖ {[n]}) ≤ size Y)%nat by (apply subseteq_size; set_solver).
    rewrite <- (intset_size dt s _ Hs), (denotes_length _ _ HY) in Hlt. unfold INTSET_LIMIT in *. lia.
  - intros s (done' & Hvals & Hs). rewrite app_nil_r in Hvals. by rewrite <- HX, Hvals.
  - exists []. split; [done|]. apply intset_new_ok.
Qed.

Lemma maybeConvertToIntset_ok o X :
  set_inv dt o X → set_Forall (λ s, is_Some (string2ll s)) X →
  ∃ o', maybeConvertToIntset junk table_addr set_max_intset_entries o = Some o' ∧ set_inv dt o' X ∧
    (Z.of_nat (size X) ≤ intsetMaxEntries set_max_intset_entries → encoding o' = OBJ_ENCODING_INTSET).
Proof.
  intros Hinv Hint. assert (encoding o = OBJ_ENCODING_INTSET ∨ maybeConvertToIntset junk table_addr set_max_intset_entries o =
    ('(o, n) ← setTypeSize o;
     if decide (n > intsetMaxEntries set_max_intset_entries) then Some o
     else s ← set_iterate table_addr (λ _, Some o)
               (λ v s, llval ← (match v with ValStr str => string2ll str | ValInt llval => Some llval end);
                       '(s, success) ← intsetAdd junk s llval;
                       if success : bool then Some (s, true) else None) intsetNew; Some (SetIntset s))) as [Henc| ->]
    by (destruct o; [by left|by right..]).
  { exists o. by destruct o. }
  destruct (setTypeSize_ok dt o X (proj1 Hinv)) as (o1 & -> & Ho1 & Henc1). bind_simpl. pose proof max_entries_le.
  assert (set_small o1) as Hsm by (destruct Hinv as [Hr Hsm]; destruct o1, o; try done; simpl in *; by rewrite (intset_size dt _ _ Ho1), <- (intset_size dt _ _ Hr)).
  case_decide as Hgt; [exists o1; split; [done|]; split; [by split|lia]|].
  destruct (to_intset_ok o1 X Ho1 Hint ltac:(lia)) as (s & -> & Hs). bind_simpl. exists (SetIntset s). split; [done|]. split; [|done].
  split; [done|]. simpl. rewrite (intset_size dt s X Hs). lia.
Qed.

Lemma dup_ht_ok d X ht :
  set_repr dt (SetHt d) X → set_repr dt (SetHt ht) ∅ → Z.of_nat (size X) < 2 ^ 60 →
  ∃ o, set_iterate table_addr (λ _, Some (SetHt d))
         (λ v o, '(o, _) ← setTypeAddAux junk dt can table_addr set_max_intset_entries set_max_listpack_entries set_max_listpack_value o v; Some (o, true))
         (SetHt ht) = Some o ∧ set_repr dt o X ∧ encoding o = OBJ_ENCODING_HT.
Proof.
  intros (vals & Hh & HX) Hht Hsize. pose proof (holds_nodup dt _ _ Hh) as Hnd. pose proof (holds_values dt _ _ Hh) as Hv.
  rewrite (holds_size dt _ vals X Hh HX) in Hsize.
  match goal with |- context [set_iterate _ ?su ?bo _] =>
    edestruct (iterate_ok dt table_addr su bo
      (λ rest o, ∃ done' d', o = SetHt d' ∧ vals = done' ++ rest ∧ set_repr dt o (list_to_set (value_string <$> done')))
      (λ o, set_repr dt o X ∧ encoding o = OBJ_ENCODING_HT) (SetHt d) vals (SetHt ht)) as (o & -> & _ & HQ) end; [done|done| | | |by exists o].
  - intros v rest o (done' & d' & -> & Hvals & Hd'). assert (value_ok v) as Hok by (rewrite Hvals in Hv; apply Forall_app in Hv as [_ Hv]; by inversion Hv).
    cbn [setTypeAddAux]. rewrite value_str_ok by done. bind_simpl. rewrite set_add_ht_dict.
    destruct (ht_add dt can d' _ (value_string v) Hd') as (d1 & -> & Hd1); [by apply value_length| |].
    { rewrite size_list_to_set by (rewrite Hvals, fmap_app in Hnd; by apply NoDup_app in Hnd as [? _]). rewrite Hvals, length_app in Hsize. rewrite length_fmap. lia. }
    bind_simpl. eexists _, true. split; [done|]. exists (done' ++ [v]), d1. split_and!; [done|by rewrite <- app_assoc|].
    rewrite fmap_app, list_to_set_app_L. simpl. by rewrite union_empty_r_L, union_comm_L.
  - intros o (done' & d' & -> & Hvals & Hd'). rewrite app_nil_r in Hvals. by rewrite <- HX, Hvals.
  - by exists [], ht.
Qed.

Lemma setTypeDup_ok o X :
  set_inv dt o X → Z.of_nat (size X) < 2 ^ 60 →
  ∃ o', setTypeDup junk dt can table_addr set_max_intset_entries set_max_listpack_entries set_max_listpack_value o = Some o' ∧
    set_inv dt o' X ∧ encoding o' = encoding o.
Proof.
  intros Hinv Hsize. pose proof Hinv as [Ho Hsmall]. destruct o as [s|lp|d]; cbn [setTypeDup].
  - exists (SetIntset s). split; [|done]. destruct Ho as (vals & (vs & [Hr _] & Hle & _) & _).
    pose proof (repr_enc _ _ Hr) as He. pose proof (repr_len _ _ Hr) as Hl. unfold INTSET_LIMIT in Hle. assert (2 ≤ is_encoding s ≤ 8) by (unfold enc_ok in He; lia).
    assert (zlen (intset_blob s) = 8 + is_length s * is_encoding s) as Hsz.
    { unfold intset_blob. rewrite !length_app, !Nat2Z.inj_add, !le_bytes_length by lia. rewrite (repr_size _ _ Hr), Hl. lia. }
    assert (0 ≤ is_length s * is_encoding s ≤ 2 ^ 29 * 8) by nia. unfold intsetBlobLen, sizeof_intset. rewrite uwrap_small by range_lia. rewrite <- Hsz.
    rewrite (bytes_at_read _ 0 (intset_blob s)) by (done || (rewrite <- (app_nil_r (intset_blob s)) at 1; apply (bytes_at_mid []))).
    bind_simpl. by rewrite blob_parse by (pow2_lit; lia).
  - pose proof Ho as (vs & (num & sl & -> & Hnum & Hfits) & Hnd & HX)%(repr_listpack dt). unfold lpBytes. rewrite lp_of_total by done. bind_simpl.
    rewrite lp_of_app. assert (zlen (lp_of num vs []) = lp_total vs) as Hlen by (rewrite lp_of_length; cbn [length]; lia).
    rewrite (bytes_at_read _ 0 (lp_of num vs [])) by (exact Hlen || (unfold lp_total; lia) || apply (bytes_at_mid [])). bind_simpl. eexists. split; [done|]. split; [|done].
    split; [|done]. apply (repr_listpack dt). exists vs. split_and!; [by apply lp_of_repr|done..].
  - destruct (ht_expand dt (dictSize d)) as (ht & ok & -> & Hht); [rewrite (ht_size dt d X Ho); range_lia|]. bind_simpl.
    destruct (dup_ht_ok d X ht Ho Hht Hsize) as (o & -> & Ho' & Henc). exists o. split_and!; [done| |done]. split; [done|]. by destruct o.
Qed.

End ops.
