(* ===== verification/TsetCmd.v ===== *)
(** * t_set.c: the commands on sets

The keyspace is a map from keys to values; the pointer to the set of a key is the key, so that two
arguments are the same object exactly when they are the same key.  What a command does
is the new keyspace, the reply, and whether the data set was changed ([server.dirty]).  Expiry,
notifications and statistics are left out. *)

From S2P Require Import Prelude Intset Dict Util Listpack Tset.

Local Open Scope Z_scope.

Inductive db_value := DbSet (o : set_object) | DbOther.

Abbreviation redisDb := (gmap bytes db_value).

(** The replies of these commands: an error, an integer, an array of integers, or a set with the length announced. *)
Inductive set_reply := WrongType | ReplyInt (n : Z) | ReplyArray (l : list Z) | ReplySet (len : Z) (elements : list set_value).

(** [sets[j]], [None] for NULL. *)
Definition set_ptr := option bytes.

(** [qsort] of the C library, with the state that the comparison reads and changes. *)
Definition qsort_fn := ∀ (A S : Type), (A → A → S → option (S * Z)) → list A → S → option (S * list A).

Definition get_set (db : redisDb) (k : bytes) : option set_object :=
  v ← db !! k; match v with DbSet o => Some o | DbOther => None end.

(** A call on the set at [k], which it may change. *)
Definition on_set {R : Type} (db : redisDb) (k : bytes) (f : set_object → option (set_object * R)) : option (redisDb * R) :=
  o ← get_set db k; '(o, r) ← f o; Some (<[k := DbSet o]> db, r).

(** [lookupKeyRead] and [checkType] for every key; [None] when one of them is not a set. *)
Fixpoint lookup_sets (db : redisDb) (keys : list bytes) : option (list set_ptr) :=
  match keys with
  | [] => Some []
  | k :: keys =>
      match db !! k with
      | Some DbOther => None
      | Some (DbSet _) => sets ← lookup_sets db keys; Some (Some k :: sets)
      | None => sets ← lookup_sets db keys; Some (None :: sets)
      end
  end.

(** [dbDelete]: whether the key was there. *)
Definition dbDelete (db : redisDb) (k : bytes) : redisDb * bool := (delete k db, bool_decide (is_Some (db !! k))).

Definition setKey (db : redisDb) (k : bytes) (o : set_object) : redisDb := <[k := DbSet o]> db.

Section commands.

Context (junk : nat → Z) (dt : dictType bytes) (can : dictResizeEnable) (table_addr : bool → Z).
Context (set_max_intset_entries set_max_listpack_entries set_max_listpack_value : Z).
Context (qsort : qsort_fn).

Local Abbreviation setTypeAddAux :=
  (setTypeAddAux junk dt can table_addr set_max_intset_entries set_max_listpack_entries set_max_listpack_value).
Local Abbreviation setTypeRemoveAux := (setTypeRemoveAux junk dt can).
Local Abbreviation setTypeIsMemberAux := (setTypeIsMemberAux dt can).

(** Every comparison asks for the sizes again. *)
Definition qsortCompareSetsByCardinality (s1 s2 : set_ptr) (db : redisDb) : option (redisDb * Z) :=
  k1 ← s1; k2 ← s2;
  '(db, n1) ← on_set db k1 setTypeSize; '(db, n2) ← on_set db k2 setTypeSize;
  if decide (n1 > n2) then Some (db, 1)
  else
    '(db, n1) ← on_set db k1 setTypeSize; '(db, n2) ← on_set db k2 setTypeSize;
    if decide (n1 < n2) then Some (db, -1) else Some (db, 0).

Definition ptr_size (s : set_ptr) (db : redisDb) : option (redisDb * Z) :=
  match s with Some k => on_set db k setTypeSize | None => Some (db, 0) end.

Definition qsortCompareSetsByRevCardinality (s1 s2 : set_ptr) (db : redisDb) : option (redisDb * Z) :=
  '(db, first) ← ptr_size s1 db; '(db, second) ← ptr_size s2 db;
  if decide (first < second) then Some (db, 1) else if decide (first > second) then Some (db, -1) else Some (db, 0).

(** ** SINTER, SINTERCARD, SINTERSTORE *)

(** The state of the loop: the reply that is being written or the set that is being built. *)
Record sinter_state := mk_sinter {
  si_db : redisDb;
  (** Used only when the result is stored. *)
  si_dstset : set_object;
  si_only_integers : bool;
  si_cardinality : Z;
  si_reply : list set_value;
}.

(** [for (j = 1; j < setnum; j++)]: whether all the other sets contain the element. *)
Fixpoint sinter_test (db : redisDb) (first : bytes) (sets : list set_ptr) (v : set_value) : option (redisDb * bool) :=
  match sets with
  | [] => Some (db, true)
  | s :: sets =>
      k ← s;
      if decide (k = first) then sinter_test db first sets v
      else
        '(db, member) ← on_set db k (λ o, setTypeIsMemberAux o v);
        if member : bool then sinter_test db first sets v else Some (db, false)
  end.

(** The form in which an element is added to the destination, and the new [only_integers]. *)
Definition sinter_element (enc : set_encoding) (dstset : set_object) (only_integers : bool) (v : set_value) : set_value * bool :=
  match v with
  | ValInt _ => (v, only_integers)
  | ValStr str =>
      if only_integers then
        match (if decide (enc = OBJ_ENCODING_HT) then string2ll str else None) with
        | Some intobj =>
            (match dstset with SetListpack _ | SetIntset _ => ValInt intobj | SetHt _ => v end, true)
        | None => (v, false)
        end
      else (v, only_integers)
  end.

(** [dstkey]; [None] for a reply with the elements or, with [cardinality_only], their number. *)
Definition sinter_body (enc : set_encoding) (first : bytes) (sets : list set_ptr) (dstkey : option bytes)
    (cardinality_only : bool) (limit : Z) (v : set_value) (st : sinter_state) : option (sinter_state * bool) :=
  '(db, all) ← sinter_test (si_db st) first sets v;
  if negb all then Some (mk_sinter db (si_dstset st) (si_only_integers st) (si_cardinality st) (si_reply st), true)
  else if cardinality_only then
    let cardinality := u64 (si_cardinality st + 1) in
    Some (mk_sinter db (si_dstset st) (si_only_integers st) cardinality (si_reply st),
          negb (bool_decide (limit ≠ 0) && bool_decide (cardinality >= limit)))
  else
    match dstkey with
    | None =>
        Some (mk_sinter db (si_dstset st) (si_only_integers st) (u64 (si_cardinality st + 1)) (si_reply st ++ [v]), true)
    | Some _ =>
        let '(v, only_integers) := sinter_element enc (si_dstset st) (si_only_integers st) v in
        '(dstset, _) ← setTypeAddAux (si_dstset st) v;
        Some (mk_sinter db dstset only_integers (si_cardinality st) (si_reply st), true)
    end.

(** The destination has the encoding that its elements are likely to need. *)
Definition sinter_dstset (o : set_object) : option set_object :=
  match o with
  | SetIntset _ => Some (SetIntset intsetNew)
  | SetListpack lp => n ← lpBytes lp; lp ← lpNew junk n; Some (SetListpack lp)
  | SetHt _ => lp ← lpNew junk 0; Some (SetListpack lp)
  end.

(** The result is stored when it is not empty. *)
Definition store_result (db : redisDb) (dstkey : bytes) (dstset : set_object) (finish : set_object → option set_object)
    : option (redisDb * set_reply * Z) :=
  '(dstset, n) ← setTypeSize dstset;
  if decide (n > 0) then
    dstset ← finish dstset;
    '(dstset, n) ← setTypeSize dstset;
    Some (setKey db dstkey dstset, ReplyInt n, 1)
  else
    let '(db, deleted) := dbDelete db dstkey in Some (db, ReplyInt 0, if deleted : bool then 1 else 0).

Definition sinter_finish (only_integers : bool) (dstset : set_object) : option set_object :=
  dstset ← (if only_integers then maybeConvertToIntset junk table_addr set_max_intset_entries dstset else Some dstset);
  match dstset with
  | SetListpack lp => lp ← lpShrinkToFit junk lp; Some (SetListpack lp)
  | _ => Some dstset
  end.

Definition sinterGenericCommand (db : redisDb) (setkeys : list bytes) (dstkey : option bytes) (cardinality_only : bool) (limit : Z)
    : option (redisDb * set_reply * Z) :=
  match lookup_sets db setkeys with
  | None => Some (db, WrongType, 0)
  | Some sets =>
      if decide (None ∈ sets) then
        match dstkey with
        | Some dstkey => let '(db, deleted) := dbDelete db dstkey in Some (db, ReplyInt 0, if deleted : bool then 1 else 0)
        | None => Some (db, if cardinality_only then ReplyInt 0 else ReplySet 0 [], 0)
        end
      else
        '(db, sets) ← qsort set_ptr redisDb qsortCompareSetsByCardinality sets db;
        s0 ← head sets;
        first ← s0;
        o ← get_set db first;
        dstset ← (match dstkey with Some _ => sinter_dstset o | None => Some (SetIntset intsetNew) end);
        st ← set_iterate table_addr (λ st, get_set (si_db st) first)
               (sinter_body (encoding o) first (tail sets) dstkey cardinality_only limit) (mk_sinter db dstset true 0 []);
        if cardinality_only then Some (si_db st, ReplyInt (si_cardinality st), 0)
        else
          match dstkey with
          | Some dstkey => store_result (si_db st) dstkey (si_dstset st) (sinter_finish (si_only_integers st))
          | None => Some (si_db st, ReplySet (si_cardinality st) (si_reply st), 0)
          end
  end.

(** ** SUNION, SDIFF and their STORE variants *)

Inductive set_op := SET_OP_UNION | SET_OP_DIFF.

Global Instance set_op_eq_dec : EqDecision set_op.
Proof. solve_decision. Defined.

(** The state of the loops: [dstset] and the [int] variable [cardinality]. *)
Record sdiff_state := mk_sdiff { sd_db : redisDb; sd_dstset : set_object; sd_cardinality : Z }.

(** [cardinality += setTypeAddAux(dstset, ...)]. *)
Definition sdiff_add (v : set_value) (st : sdiff_state) : option sdiff_state :=
  '(dstset, added) ← setTypeAddAux (sd_dstset st) v;
  Some (mk_sdiff (sd_db st) dstset (s32 (sd_cardinality st + if added : bool then 1 else 0))).

Definition sdiff_remove (v : set_value) (st : sdiff_state) : option sdiff_state :=
  '(dstset, removed) ← setTypeRemoveAux (sd_dstset st) v;
  Some (mk_sdiff (sd_db st) dstset (s32 (sd_cardinality st - if removed : bool then 1 else 0))).

(** A loop over all the elements of one set. *)
Definition sdiff_each (k : bytes) (f : set_value → sdiff_state → option sdiff_state) (st : sdiff_state) : option sdiff_state :=
  set_iterate table_addr (λ st, get_set (sd_db st) k) (λ v st, st ← f v st; Some (st, true)) st.

Fixpoint sunion_sets (sets : list set_ptr) (st : sdiff_state) : option sdiff_state :=
  match sets with
  | [] => Some st
  | None :: sets => sunion_sets sets st
  | Some k :: sets => st ← sdiff_each k sdiff_add st; sunion_sets sets st
  end.

(** The work of the two algorithms, as [long long]. *)
Fixpoint sdiff_work (first : bytes) (sets : list set_ptr) (db : redisDb) (one two : Z) : option (redisDb * Z * Z) :=
  match sets with
  | [] => Some (db, one, two)
  | None :: sets => sdiff_work first sets db one two
  | Some k :: sets =>
      '(db, n0) ← on_set db first setTypeSize;
      '(db, n) ← on_set db k setTypeSize;
      sdiff_work first sets db (s64 (one + n0)) (s64 (two + n))
  end.

(** Algorithm 1: [true] when none of the other sets has the element. *)
Fixpoint sdiff_test (db : redisDb) (first : bytes) (sets : list set_ptr) (v : set_value) : option (redisDb * bool) :=
  match sets with
  | [] => Some (db, true)
  | None :: sets => sdiff_test db first sets v
  | Some k :: sets =>
      if decide (k = first) then Some (db, false)
      else
        '(db, member) ← on_set db k (λ o, setTypeIsMemberAux o v);
        if member : bool then Some (db, false) else sdiff_test db first sets v
  end.

Definition sdiff_algo_one (first : bytes) (sets : list set_ptr) (st : sdiff_state) : option sdiff_state :=
  sdiff_each first
    (λ v st, '(db, none) ← sdiff_test (sd_db st) first sets v;
             let st := mk_sdiff db (sd_dstset st) (sd_cardinality st) in
             if none : bool then sdiff_add v st else Some st) st.

(** Algorithm 2, from the second set on; the loop ends when the result is empty. *)
Fixpoint sdiff_subtract (sets : list set_ptr) (st : sdiff_state) : option sdiff_state :=
  match sets with
  | [] => Some st
  | None :: sets => sdiff_subtract sets st
  | Some k :: sets =>
      st ← sdiff_each k sdiff_remove st;
      if decide (sd_cardinality st = 0) then Some st else sdiff_subtract sets st
  end.

Definition sdiff_algo_two (first : bytes) (sets : list set_ptr) (st : sdiff_state) : option sdiff_state :=
  st ← sdiff_each first sdiff_add st;
  if decide (sd_cardinality st = 0) then Some st else sdiff_subtract sets st.

(** The difference of the first set and the others. *)
Definition sdiff_sets (first : bytes) (sets : list set_ptr) (st : sdiff_state) : option sdiff_state :=
  '(db, one, two) ← sdiff_work first (Some first :: sets) (sd_db st) 0 0;
  if decide (one ÷ 2 ≤ two) then
    '(db, sets) ← (if decide (sets = []) then Some (db, sets)
                   else qsort set_ptr redisDb qsortCompareSetsByRevCardinality sets db);
    sdiff_algo_one first sets (mk_sdiff db (sd_dstset st) (sd_cardinality st))
  else sdiff_algo_two first sets (mk_sdiff db (sd_dstset st) (sd_cardinality st)).

(** The elements of the result, in the order of an iteration. *)
Definition reply_elements (dstset : set_object) : option (list set_value) :=
  set_iterate table_addr (λ _, Some dstset) (λ v l, Some (l ++ [v], true)) [].

(** The choice of the operation; a difference of a set that is not there, or with itself, is empty. *)
Definition sop_collect (op : set_op) (sets : list set_ptr) (st : sdiff_state) : option sdiff_state :=
  match op with
  | SET_OP_UNION => sunion_sets sets st
  | SET_OP_DIFF =>
      s0 ← head sets;
      match s0 with
      | None => Some st
      | Some first => if decide (Some first ∈ tail sets) then Some st else sdiff_sets first (tail sets) st
      end
  end.

Definition sunionDiffGenericCommand (db : redisDb) (setkeys : list bytes) (dstkey : option bytes) (op : set_op)
    : option (redisDb * set_reply * Z) :=
  match lookup_sets db setkeys with
  | None => Some (db, WrongType, 0)
  | Some sets =>
      st ← sop_collect op sets (mk_sdiff db (SetIntset intsetNew) 0);
      match dstkey with
      | None => l ← reply_elements (sd_dstset st); Some (sd_db st, ReplySet (sd_cardinality st) l, 0)
      | Some dstkey => store_result (sd_db st) dstkey (sd_dstset st) Some
      end
  end.

(** ** SADD, SREM, SMOVE, SISMEMBER, SMISMEMBER, SCARD *)

Local Abbreviation setTypeAdd := (setTypeAdd junk dt can table_addr set_max_intset_entries set_max_listpack_entries set_max_listpack_value).
Local Abbreviation setTypeRemove := (setTypeRemove junk dt can).
Local Abbreviation setTypeIsMember := (setTypeIsMember dt can).

Definition reply_bool (b : bool) : Z := if b then 1 else 0.

(** The loop over the arguments, with the [int] variable [added]. *)
Fixpoint sadd_members (set : set_object) (members : list bytes) (added : Z) : option (set_object * Z) :=
  match members with
  | [] => Some (set, added)
  | m :: members => '(set, b) ← setTypeAdd set m; sadd_members set members (if b : bool then s32 (added + 1) else added)
  end.

Definition saddCommand (db : redisDb) (key : bytes) (members : list bytes) : option (redisDb * set_reply * Z) :=
  match db !! key with
  | Some DbOther => Some (db, WrongType, 0)
  | v =>
      set ← (match v with
             | Some (DbSet set) =>
                 setTypeMaybeConvert junk dt can table_addr set_max_intset_entries set_max_listpack_entries set (zlen members)
             | _ => m ← head members; setTypeCreate junk set_max_intset_entries set_max_listpack_entries m (zlen members)
             end);
      '(set, added) ← sadd_members set members 0;
      Some (<[key := DbSet set]> db, ReplyInt added, added)
  end.

(** The loop over the arguments, which ends when the set is empty; then the key is removed. *)
Fixpoint srem_members (set : set_object) (members : list bytes) (deleted : Z) : option (set_object * Z * bool) :=
  match members with
  | [] => Some (set, deleted, false)
  | m :: members =>
      '(set, b) ← setTypeRemove set m;
      if b : bool then
        let deleted := s32 (deleted + 1) in
        '(set, n) ← setTypeSize set;
        if decide (n = 0) then Some (set, deleted, true) else srem_members set members deleted
      else srem_members set members deleted
  end.

Definition sremCommand (db : redisDb) (key : bytes) (members : list bytes) : option (redisDb * set_reply * Z) :=
  match db !! key with
  | None => Some (db, ReplyInt 0, 0)
  | Some DbOther => Some (db, WrongType, 0)
  | Some (DbSet set) =>
      '(set, deleted, keyremoved) ← srem_members set members 0;
      let db := if keyremoved : bool then (dbDelete db key).1 else <[key := DbSet set]> db in
      Some (db, ReplyInt deleted, deleted)
  end.

(** The two sets; [dstset] is [None] when there is no such key. *)
Definition smove_sets (db : redisDb) (src dst ele : bytes) (srcset : set_object) (dstset : option set_object)
    : option (redisDb * set_reply * Z) :=
  if decide (src = dst) then
    '(srcset, b) ← setTypeIsMember srcset ele; Some (<[src := DbSet srcset]> db, ReplyInt (reply_bool b), 0)
  else
    '(srcset, b) ← setTypeRemove srcset ele;
    if negb b then Some (<[src := DbSet srcset]> db, ReplyInt 0, 0)
    else
      '(srcset, n) ← setTypeSize srcset;
      let db := if decide (n = 0) then (dbDelete db src).1 else <[src := DbSet srcset]> db in
      dstset ← (match dstset with
                | Some dstset => Some dstset
                | None => setTypeCreate junk set_max_intset_entries set_max_listpack_entries ele 1
                end);
      '(dstset, b) ← setTypeAdd dstset ele;
      Some (<[dst := DbSet dstset]> db, ReplyInt 1, if b : bool then 2 else 1).

Definition smoveCommand (db : redisDb) (src dst ele : bytes) : option (redisDb * set_reply * Z) :=
  match db !! src, db !! dst with
  | None, _ => Some (db, ReplyInt 0, 0)
  | Some DbOther, _ | _, Some DbOther => Some (db, WrongType, 0)
  | Some (DbSet srcset), Some (DbSet dstset) => smove_sets db src dst ele srcset (Some dstset)
  | Some (DbSet srcset), None => smove_sets db src dst ele srcset None
  end.

Definition sismemberCommand (db : redisDb) (key ele : bytes) : option (redisDb * set_reply * Z) :=
  match db !! key with
  | None => Some (db, ReplyInt 0, 0)
  | Some DbOther => Some (db, WrongType, 0)
  | Some (DbSet _) => '(db, b) ← on_set db key (λ set, setTypeIsMember set ele); Some (db, ReplyInt (reply_bool b), 0)
  end.

Fixpoint smismember_members (set : set_object) (members : list bytes) : option (set_object * list Z) :=
  match members with
  | [] => Some (set, [])
  | m :: members =>
      '(set, b) ← setTypeIsMember set m; '(set, l) ← smismember_members set members; Some (set, reply_bool b :: l)
  end.

Definition smismemberCommand (db : redisDb) (key : bytes) (members : list bytes) : option (redisDb * set_reply * Z) :=
  match db !! key with
  | None => Some (db, ReplyArray ((λ _, 0) <$> members), 0)
  | Some DbOther => Some (db, WrongType, 0)
  | Some (DbSet _) => '(db, l) ← on_set db key (λ set, smismember_members set members); Some (db, ReplyArray l, 0)
  end.

Definition scardCommand (db : redisDb) (key : bytes) : option (redisDb * set_reply * Z) :=
  match db !! key with
  | None => Some (db, ReplyInt 0, 0)
  | Some DbOther => Some (db, WrongType, 0)
  | Some (DbSet _) => '(db, n) ← on_set db key setTypeSize; Some (db, ReplyInt n, 0)
  end.

(** ** The commands with their arguments *)

Inductive set_cmd :=
  | SADD (key : bytes) (members : list bytes)
  | SREM (key : bytes) (members : list bytes)
  | SMOVE (src dst ele : bytes)
  | SISMEMBER (key ele : bytes)
  | SMISMEMBER (key : bytes) (members : list bytes)
  | SCARD (key : bytes)
  | SINTER (keys : list bytes)
  | SINTERCARD (keys : list bytes) (limit : Z)
  | SINTERSTORE (dst : bytes) (keys : list bytes)
  | SUNION (keys : list bytes)
  | SUNIONSTORE (dst : bytes) (keys : list bytes)
  | SDIFF (keys : list bytes)
  | SDIFFSTORE (dst : bytes) (keys : list bytes).

Definition set_exec (db : redisDb) (c : set_cmd) : option (redisDb * set_reply * Z) :=
  match c with
  | SADD key members => saddCommand db key members
  | SREM key members => sremCommand db key members
  | SMOVE src dst ele => smoveCommand db src dst ele
  | SISMEMBER key ele => sismemberCommand db key ele
  | SMISMEMBER key members => smismemberCommand db key members
  | SCARD key => scardCommand db key
  | SINTER keys => sinterGenericCommand db keys None false 0
  | SINTERCARD keys limit => sinterGenericCommand db keys None true limit
  | SINTERSTORE dst keys => sinterGenericCommand db keys (Some dst) false 0
  | SUNION keys => sunionDiffGenericCommand db keys None SET_OP_UNION
  | SUNIONSTORE dst keys => sunionDiffGenericCommand db keys (Some dst) SET_OP_UNION
  | SDIFF keys => sunionDiffGenericCommand db keys None SET_OP_DIFF
  | SDIFFSTORE dst keys => sunionDiffGenericCommand db keys (Some dst) SET_OP_DIFF
  end.

(** A sequence of commands: the replies, and [server.dirty]. *)
Fixpoint set_run (db : redisDb) (cs : list set_cmd) : option (redisDb * list (set_reply * Z)) :=
  match cs with
  | [] => Some (db, [])
  | c :: cs => '(db, r, dirty) ← set_exec db c; '(db, rs) ← set_run db cs; Some (db, (r, dirty) :: rs)
  end.

End commands.
