(* ===== verification/TsetAlg.v ===== *)
(** * t_set.c: intersections, unions and differences are computed *)

From S2P Require Import Prelude Intset Dict DictInv DictOps DictLife Util Listpack ListpackEnc ListpackOps ListpackMod ListpackBulk.
From S2P Require Import Tset TsetInv TsetConv TsetOps TsetCmd.

Local Open Scope Z_scope.

(** What the commands rely on from [qsort]: it compares only elements of the array, and permutes it.  The order decides
    only how much work is done. *)
Class QsortOk (qsort : qsort_fn) : Prop :=
  qsort_ok A S (cmp : A → A → S → option (S * Z)) (l : list A) (I : S → Prop) (s : S) :
    (∀ a b s, a ∈ l → b ∈ l → I s → ∃ s' r, cmp a b s = Some (s', r) ∧ I s') → I s →
    ∃ s' l', qsort A S cmp l s = Some (s', l') ∧ I s' ∧ l' ≡ₚ l.

(** The abstract keyspace: [Some X] for a set, [None] for a value of another type. *)
Abbreviation aspace := (gmap bytes (option (gset bytes))).

(** A key that is not there is an empty set. *)
Definition set_of (A : aspace) (k : bytes) : gset bytes := match A !! k with Some (Some X) => X | _ => ∅ end.
Definition ptr_set (A : aspace) (p : set_ptr) : gset bytes := match p with Some k => set_of A k | None => ∅ end.

Definition is_set (A : aspace) (k : bytes) : Prop := ∃ X, A !! k = Some (Some X).

(** The pointer that a lookup finds. *)
Definition ptr_of (A : aspace) (k : bytes) : set_ptr := (λ _, k) <$> A !! k.

Definition ptr_ok (A : aspace) (p : set_ptr) : Prop := match p with Some k => is_set A k | None => True end.

Definition sets_small (A : aspace) : Prop := ∀ k, Z.of_nat (size (set_of A k)) < 2 ^ 60.

Lemma ptr_set_of A k : ptr_set A (ptr_of A k) = set_of A k.
Proof. unfold ptr_of, ptr_set. destruct (A !! k) eqn:Hk; simpl; [done|]. unfold set_of. by rewrite Hk. Qed.

Lemma ptr_of_ok A k : A !! k ≠ Some None → ptr_ok A (ptr_of A k).
Proof. unfold ptr_of, ptr_ok, is_set. intros Hne. destruct (A !! k) as [[X|]|] eqn:Hk; simpl; [by exists X|done|done]. Qed.

Section space.
Context (dt : dictType bytes) `{!SetDictType dt}.
Implicit Types (o : set_object) (X : gset bytes) (db : redisDb) (A : aspace).

Definition val_repr (v : db_value) (x : option (gset bytes)) : Prop :=
  match v, x with DbSet o, Some X => set_inv dt o X | DbOther, None => True | _, _ => False end.

(** The keyspace stands for [A]. *)
Definition db_repr (db : redisDb) (A : aspace) : Prop := ∀ k, option_Forall2 val_repr (db !! k) (A !! k).

Lemma db_repr_insert db A k v x : db_repr db A → val_repr v x → db_repr (<[k := v]> db) (<[k := x]> A).
Proof. intros Hdb Hv k'. destruct (decide (k = k')) as [<-|]; [rewrite !lookup_insert_eq; by constructor|rewrite !lookup_insert_ne by done; apply Hdb]. Qed.

Lemma db_repr_delete db A k : db_repr db A → db_repr (delete k db) (delete k A).
Proof. intros Hdb k'. destruct (decide (k = k')) as [<-|]; [rewrite !lookup_delete_eq; constructor|rewrite !lookup_delete_ne by done; apply Hdb]. Qed.

Lemma get_set_ok db A k : db_repr db A → is_set A k → ∃ o, get_set db k = Some o ∧ set_inv dt o (set_of A k) ∧ db !! k = Some (DbSet o).
Proof.
  intros Hdb [X HX]. unfold get_set, set_of. specialize (Hdb k). rewrite HX in *. inversion Hdb as [v x Hv Hk|]; subst. destruct v as [o|]; [|done].
  by exists o.
Qed.

(** A call that keeps the set. *)
Lemma on_set_ok {R : Type} db A k (f : set_object → option (set_object * R)) r :
  db_repr db A → is_set A k →
  (∀ o, set_inv dt o (set_of A k) → ∃ o', f o = Some (o', r) ∧ set_inv dt o' (set_of A k)) →
  ∃ db', on_set db k f = Some (db', r) ∧ db_repr db' A ∧ ∀ k', k' ≠ k → get_set db' k' = get_set db k'.
Proof.
  intros Hdb Hk Hf. destruct (get_set_ok db A k Hdb Hk) as (o & Hget & Ho & Hl). destruct (Hf o Ho) as (o' & Hfo & Ho').
  unfold on_set. rewrite Hget. bind_simpl. rewrite Hfo. bind_simpl. eexists. split; [done|]. split.
  - destruct Hk as [X HX]. assert (<[k := Some X]> A = A) as <- by by apply insert_id. apply db_repr_insert; [done|].
    simpl. unfold set_of in Ho'. by rewrite HX in Ho'.
  - intros k' Hne. unfold get_set. by rewrite lookup_insert_ne.
Qed.

Lemma size_inv o X : set_inv dt o X → ∃ o', setTypeSize o = Some (o', Z.of_nat (size X)) ∧ set_inv dt o' X.
Proof.
  intros [Ho Hsmall]. destruct (setTypeSize_ok dt o X Ho) as (o' & Hs & Ho' & Henc). exists o'. split; [done|]. split; [done|].
  destruct o', o; try done. simpl in *. by rewrite (intset_size dt _ _ Ho'), <- (intset_size dt _ _ Ho).
Qed.

Lemma on_set_size db A k :
  db_repr db A → is_set A k → ∃ db', on_set db k setTypeSize = Some (db', Z.of_nat (size (set_of A k))) ∧ db_repr db' A.
Proof. intros Hdb Hk. destruct (on_set_ok db A k setTypeSize (Z.of_nat (size (set_of A k))) Hdb Hk) as (db' & H1 & H2 & _); [intros o; apply size_inv|by exists db']. Qed.

Lemma ptr_size_ok db A p : db_repr db A → ptr_ok A p → ∃ db' n, ptr_size p db = Some (db', n) ∧ db_repr db' A.
Proof.
  intros Hdb Hp. destruct p as [k|]; simpl; [|by eexists _, _]. destruct (on_set_size db A k Hdb Hp) as (db' & -> & Hdb'). by eexists _, _.
Qed.

Lemma compare_ok db A p q :
  db_repr db A → ptr_ok A p → ptr_ok A q → p ≠ None → q ≠ None →
  ∃ db' r, qsortCompareSetsByCardinality p q db = Some (db', r) ∧ db_repr db' A.
Proof.
  intros Hdb Hp Hq Hpn Hqn. destruct p as [p|], q as [q|]; try done. unfold qsortCompareSetsByCardinality. bind_simpl.
  destruct (on_set_size db A p Hdb Hp) as (db1 & -> & H1). bind_simpl. destruct (on_set_size db1 A q H1 Hq) as (db2 & -> & H2). bind_simpl.
  case_decide; [by eexists _, _|]. destruct (on_set_size db2 A p H2 Hp) as (db3 & -> & H3). bind_simpl.
  destruct (on_set_size db3 A q H3 Hq) as (db4 & -> & H4). bind_simpl. case_decide; by eexists _, _.
Qed.

Lemma rev_compare_ok db A p q :
  db_repr db A → ptr_ok A p → ptr_ok A q → ∃ db' r, qsortCompareSetsByRevCardinality p q db = Some (db', r) ∧ db_repr db' A.
Proof.
  intros Hdb Hp Hq. unfold qsortCompareSetsByRevCardinality. destruct (ptr_size_ok db A p Hdb Hp) as (db1 & n1 & -> & H1). bind_simpl.
  destruct (ptr_size_ok db1 A q H1 Hq) as (db2 & n2 & -> & H2). bind_simpl. repeat case_decide; by eexists _, _.
Qed.

Lemma lookup_sets_ok db A keys :
  db_repr db A → lookup_sets db keys = if decide (Exists (λ k, A !! k = Some None) keys) then None else Some (ptr_of A <$> keys).
Proof.
  intros Hdb. induction keys as [|k keys IH].
  { rewrite decide_False; [done|]. intros He. inversion He. }
  cbn [lookup_sets]. rewrite IH. clear IH. rewrite fmap_cons. specialize (Hdb k). inversion Hdb as [v x Hv Hk HA|Hk HA].
  - destruct v as [o|], x as [X|]; try done.
    + assert (ptr_of A k = Some k) as -> by (unfold ptr_of; by rewrite <- HA). destruct (decide (Exists (λ k, A !! k = Some None) keys)) as [He|He].
      * rewrite decide_True; [done|]. by apply Exists_cons_tl.
      * rewrite decide_False; [done|]. rewrite Exists_cons, <- HA. naive_solver.
    + rewrite decide_True; [done|]. by apply Exists_cons_hd.
  - assert (ptr_of A k = None) as -> by (unfold ptr_of; by rewrite <- HA). destruct (decide (Exists (λ k, A !! k = Some None) keys)) as [He|He].
    + rewrite decide_True; [done|]. by apply Exists_cons_tl.
    + rewrite decide_False; [done|]. rewrite Exists_cons, <- HA. naive_solver.
Qed.

End space.

Section alg.
Context (junk : nat → Z) (dt : dictType bytes) `{!SetDictType dt} (can : dictResizeEnable) (table_addr : bool → Z).
Context (set_max_intset_entries set_max_listpack_entries set_max_listpack_value : Z).
Context (Hcfg : 0 ≤ set_max_intset_entries < INTSET_LIMIT).
Context (qsort : qsort_fn) `{!QsortOk qsort}.
Implicit Types (o : set_object) (X : gset bytes) (db : redisDb) (A : aspace).

Local Abbreviation db_repr := (db_repr dt).
Local Abbreviation addAux := (setTypeAddAux junk dt can table_addr set_max_intset_entries set_max_listpack_entries set_max_listpack_value).

Lemma on_set_member db A k v :
  db_repr db A → is_set A k → value_ok v →
  ∃ db', on_set db k (λ o, setTypeIsMemberAux dt can o v) = Some (db', bool_decide (value_string v ∈ set_of A k)) ∧ db_repr db' A ∧
    ∀ k', k' ≠ k → get_set db' k' = get_set db k'.
Proof.
  intros Hdb Hk Hv. apply on_set_ok; [done..|]. intros o Ho. destruct (setTypeIsMemberAux_ok dt can o _ v Ho Hv) as (o' & Ho' & Hinv & _). by exists o'.
Qed.

(** ** Intersection *)

(** The elements that all the sets have. *)
Definition kept A (sets : list set_ptr) (l : list set_value) : list set_value :=
  filter (λ v, Forall (λ p, value_string v ∈ ptr_set A p) sets) l.

Lemma sinter_test_ok db A first sets v :
  db_repr db A → Forall (λ p, ptr_ok A p ∧ p ≠ None) sets → value_ok v → value_string v ∈ set_of A first →
  ∃ db', sinter_test dt can db first sets v = Some (db', bool_decide (Forall (λ p, value_string v ∈ ptr_set A p) sets)) ∧
    db_repr db' A ∧ get_set db' first = get_set db first.
Proof.
  intros Hdb Hsets Hv Hfirst. revert db Hdb. induction Hsets as [|p sets [Hp Hne] Hsets IH]; intros db Hdb; cbn [sinter_test].
  { exists db. by rewrite bool_decide_true by constructor. }
  destruct p as [k|]; [|done]. bind_simpl. case_decide as Heq.
  - subst k. destruct (IH db Hdb) as (db' & -> & Hdb' & Hget). exists db'. split_and!; [|done..]. do 2 f_equal. apply bool_decide_ext.
    rewrite Forall_cons. naive_solver.
  - destruct (on_set_member db A k v Hdb Hp Hv) as (db1 & -> & Hdb1 & Hget1). bind_simpl.
    destruct (decide (value_string v ∈ set_of A k)) as [Hin|Hin]; [rewrite bool_decide_true by done|rewrite bool_decide_false by done].
    + destruct (IH db1 Hdb1) as (db' & -> & Hdb' & Hget). exists db'. split_and!; [|done|rewrite Hget; by apply Hget1]. do 2 f_equal. apply bool_decide_ext.
      rewrite Forall_cons. naive_solver.
    + exists db1. split_and!; [|done|by apply Hget1]. rewrite bool_decide_false; [done|]. rewrite Forall_cons. naive_solver.
Qed.

(** What the loop has done so far with the elements [l]. *)
Definition sinter_done A (sets : list set_ptr) (dstkey : option bytes) (card : bool) (limit : Z) (l : list set_value) (st : sinter_state) : Prop :=
  if card then si_cardinality st = zlen (kept A sets l)
  else match dstkey with
       | None => si_reply st = kept A sets l ∧ si_cardinality st = zlen (kept A sets l)
       | Some _ => set_inv dt (si_dstset st) (list_to_set (value_string <$> kept A sets l)) ∧
           (si_only_integers st = true → Forall (λ v, is_Some (string2ll (value_string v))) (kept A sets l))
       end.

Lemma sinter_element_ok enc dst only v :
  value_ok v →
  let '(v', only') := sinter_element enc dst only v in
  value_ok v' ∧ value_string v' = value_string v ∧ (only' = true → only = true ∧ is_Some (string2ll (value_string v))).
Proof.
  intros Hv. unfold sinter_element. destruct v as [str|n].
  - destruct only; [|by split_and!]. destruct (if decide (enc = OBJ_ENCODING_HT) then string2ll str else None) as [n|] eqn:Hs; [|by split_and!].
    case_decide; [|done]. pose proof Hs as Hs'. apply string2ll_ok in Hs' as [Hn Hstr]. simpl. rewrite Hs.
    destruct dst; split_and!; try done; by rewrite Hstr.
  - split_and!; [done..|]. intros ->. split; [done|]. simpl. exists n. by apply string2ll_ok.
Qed.

Lemma kept_snoc A sets l v :
  kept A sets (l ++ [v]) = if decide (Forall (λ p, value_string v ∈ ptr_set A p) sets) then kept A sets l ++ [v] else kept A sets l.
Proof.
  unfold kept. rewrite filter_app. case_decide; [by rewrite filter_cons_True, filter_nil|by rewrite filter_cons_False, filter_nil, app_nil_r].
Qed.

Lemma kept_length A sets l : (length (kept A sets l) ≤ length l)%nat.
Proof. apply length_filter. Qed.

Definition below_limit (card : bool) (limit : Z) (st : sinter_state) : Prop := card = true → limit = 0 ∨ si_cardinality st < limit.

(** One element. *)
Lemma sinter_body_ok A first sets dstkey (card : bool) limit enc l v st :
  sets_small A → Forall (λ p, ptr_ok A p ∧ p ≠ None) sets → value_ok v → value_string v ∈ set_of A first → zlen l < 2 ^ 60 →
  db_repr (si_db st) A → sinter_done A sets dstkey card limit l st → below_limit card limit st →
  ∃ st' c, sinter_body junk dt can table_addr set_max_intset_entries set_max_listpack_entries set_max_listpack_value
             enc first sets dstkey card limit v st = Some (st', c) ∧
    db_repr (si_db st') A ∧ get_set (si_db st') first = get_set (si_db st) first ∧ sinter_done A sets dstkey card limit (l ++ [v]) st' ∧
    (if c then below_limit card limit st' else card = true ∧ limit ≠ 0 ∧ si_cardinality st' = limit).
Proof.
  intros Hsmall Hsets Hv Hfirst Hlen Hdb Hdone Hbelow. unfold sinter_body.
  destruct (sinter_test_ok (si_db st) A first sets v Hdb Hsets Hv Hfirst) as (db' & -> & Hdb' & Hget). bind_simpl.
  pose proof (kept_length A sets l) as Hkl. unfold sinter_done in *. rewrite kept_snoc.
  destruct (decide (Forall (λ p, value_string v ∈ ptr_set A p) sets)) as [Hall|Hall]; [rewrite bool_decide_true by done|rewrite bool_decide_false by done].
  2: { cbn [negb]. eexists _, true. by split_and!. }
  cbn [negb]. destruct card.
  { eexists _, _. split; [done|]. cbn [si_db si_cardinality]. rewrite length_app, uwrap_small by (rewrite Hdone; range_lia). split_and!; [done..|simpl; lia|].
    unfold below_limit in *. cbn [si_cardinality]. specialize (Hbelow eq_refl). destruct (decide (limit = 0)) as [->|Hl]; [by left|].
    rewrite (bool_decide_true (limit ≠ 0)) by done. destruct (decide (si_cardinality st + 1 >= limit)); [rewrite bool_decide_true by done|rewrite bool_decide_false by done]; simpl.
    - split_and!; [done..|lia].
    - right. lia. }
  destruct dstkey as [dst|].
  - destruct Hdone as [Hdst Hints]. pose proof (sinter_element_ok enc (si_dstset st) (si_only_integers st) v Hv) as He.
    destruct (sinter_element _ _ _ _) as [v' only']. destruct He as (Hv' & Hstr & Honly).
    destruct (setTypeAddAux_ok junk dt can table_addr _ set_max_listpack_entries set_max_listpack_value Hcfg _ _ v' Hdst Hv') as (o' & -> & Ho' & _).
    { pose proof (size_list_le (value_string <$> kept A sets l)) as Hsz. rewrite length_fmap in Hsz. lia. }
    bind_simpl. eexists _, true. split; [done|]. cbn [si_db si_dstset si_only_integers]. rewrite Hstr in Ho'. split_and!; [done..| | |done].
    + rewrite fmap_app, list_to_set_app_L. simpl. by rewrite union_empty_r_L, union_comm_L.
    + intros Ho. destruct (Honly Ho) as [H1 H2]. apply Forall_app. split; [by apply Hints|by constructor].
  - destruct Hdone as [Hr Hc]. eexists _, true. split; [done|]. cbn [si_db si_reply si_cardinality]. split_and!; [done..|by rewrite Hr| |done].
    rewrite length_app, uwrap_small by (rewrite Hc; range_lia). simpl. lia.
Qed.

(** The key is removed when the result is empty. *)
Definition stored A (dst : bytes) X : aspace := if decide (X = ∅) then delete dst A else <[dst := Some X]> A.

(** The data set is changed unless nothing is stored and nothing was there. *)
Definition changed A (dst : bytes) X : Z := if decide (X = ∅ ∧ A !! dst = None) then 0 else 1.

Lemma delete_result_ok db A dst :
  db_repr db A →
  ∃ db', (let '(db, deleted) := dbDelete db dst in Some (db, ReplyInt 0, if deleted : bool then 1 else 0)) = Some (db', ReplyInt 0, changed A dst ∅) ∧
    db_repr db' (stored A dst ∅).
Proof.
  intros Hdb. unfold dbDelete, changed, stored. rewrite (decide_True (P := ∅ = ∅)) by done. eexists. split; [|by apply db_repr_delete]. do 2 f_equal.
  specialize (Hdb dst). inversion Hdb as [v x _ Hk HA|Hk HA].
  - rewrite bool_decide_true by by eexists. by rewrite decide_False by by intros [_ ?].
  - rewrite bool_decide_false by by intros [? ?]. by rewrite decide_True.
Qed.

Lemma store_result_ok db A dst o X finish :
  db_repr db A → set_inv dt o X → (∀ o, set_inv dt o X → ∃ o', finish o = Some o' ∧ set_inv dt o' X) →
  ∃ db', store_result db dst o finish = Some (db', ReplyInt (Z.of_nat (size X)), changed A dst X) ∧ db_repr db' (stored A dst X).
Proof.
  intros Hdb Ho Hfin. unfold store_result. destruct (size_inv dt o X Ho) as (o1 & -> & Ho1). bind_simpl. destruct (decide (X = ∅)) as [->|Hne].
  - rewrite size_empty. by apply delete_result_ok.
  - assert (size X ≠ 0%nat) by (intros H0; apply Hne, leibniz_equiv; by apply size_empty_inv). rewrite decide_True by lia. destruct (Hfin o1 Ho1) as (o2 & -> & Ho2). bind_simpl.
    destruct (size_inv dt o2 X Ho2) as (o3 & -> & Ho3). bind_simpl. unfold changed, stored. rewrite (decide_False (P := X = ∅ ∧ _)) by naive_solver.
    rewrite decide_False by done. eexists. split; [done|]. by apply db_repr_insert.
Qed.

Lemma sinter_finish_ok only o X :
  (only = true → set_Forall (λ s, is_Some (string2ll s)) X) → set_inv dt o X →
  ∃ o', sinter_finish junk table_addr set_max_intset_entries only o = Some o' ∧ set_inv dt o' X.
Proof.
  intros Honly Ho. unfold sinter_finish.
  assert (∃ o1, (if only then maybeConvertToIntset junk table_addr set_max_intset_entries o else Some o) = Some o1 ∧ set_inv dt o1 X) as (o1 & -> & Ho1).
  { destruct only; [|by exists o]. destruct (maybeConvertToIntset_ok junk dt table_addr _ Hcfg o X Ho (Honly eq_refl)) as (o1 & -> & Ho1 & _). by exists o1. }
  bind_simpl. destruct o1 as [|lp|]; [by eexists| |by eexists]. destruct Ho1 as [(vs & (num & sl & -> & Hnum & Hfits) & Hnd & HX)%(repr_listpack dt) _].
  rewrite shrink_ok by done. bind_simpl. eexists. split; [done|]. split; [|done]. apply (repr_listpack dt). exists vs. split_and!; [by apply lp_of_repr|done..].
Qed.

(** The loop over the first set. *)
Lemma sinter_loop_ok db A first sets o dstkey (card : bool) limit dst0 :
  sets_small A → Forall (λ p, ptr_ok A p ∧ p ≠ None) sets → db_repr db A → get_set db first = Some o → set_inv dt o (set_of A first) → set_inv dt dst0 ∅ →
  0 ≤ limit →
  ∃ st vals, set_iterate table_addr (λ st, get_set (si_db st) first)
      (sinter_body junk dt can table_addr set_max_intset_entries set_max_listpack_entries set_max_listpack_value (encoding o) first sets dstkey card limit)
      (mk_sinter db dst0 true 0 []) = Some st ∧
    list_to_set (value_string <$> vals) = set_of A first ∧ NoDup (value_string <$> vals) ∧ db_repr (si_db st) A ∧
    if card then si_cardinality st = if decide (limit = 0) then zlen (kept A sets vals) else Z.min limit (zlen (kept A sets vals))
    else sinter_done A sets dstkey card limit vals st.
Proof.
  intros Hsmall Hsets Hdb Hget [(vals & Hh & HX) _] Hdst Hlim. pose proof (holds_nodup dt _ _ Hh) as Hnd. pose proof (holds_values dt _ _ Hh) as Hvals.
  pose proof (Hsmall first) as Hsz. rewrite (holds_size dt _ _ _ Hh HX) in Hsz.
  match goal with |- context [set_iterate _ ?su ?bo ?st0] =>
    edestruct (iterate_ok dt table_addr su bo
      (λ rest st, ∃ l, vals = l ++ rest ∧ db_repr (si_db st) A ∧ get_set (si_db st) first = Some o ∧ sinter_done A sets dstkey card limit l st ∧ below_limit card limit st)
      (λ st, db_repr (si_db st) A ∧ if card then si_cardinality st = if decide (limit = 0) then zlen (kept A sets vals) else Z.min limit (zlen (kept A sets vals))
         else sinter_done A sets dstkey card limit vals st) o vals st0) as (st & -> & _ & Hst & Hdone) end.
  - done.
  - naive_solver.
  - intros v rest st (l & Hl & Hdb' & Hg & Hdone & Hbelow).
    assert (value_ok v) as Hv by (rewrite Hl in Hvals; apply Forall_app in Hvals as [_ Hvals]; by inversion Hvals).
    assert (value_string v ∈ set_of A first) as Hin by (rewrite <- HX, Hl; apply elem_of_list_to_set, list_elem_of_fmap; exists v; set_solver).
    destruct (sinter_body_ok A first sets dstkey card limit (encoding o) l v st) as (st' & c & Hbody & Hdb'' & Hg' & Hdone' & Hc);
      [done|done|done|done|rewrite Hl, length_app in Hsz; lia|done|done|done|]. exists st', c. split; [done|]. destruct c.
    + exists (l ++ [v]). split_and!; [by rewrite <- app_assoc|done|congruence|done..].
    + destruct Hc as (-> & Hlim0 & Hcard). split; [congruence|]. split; [done|]. rewrite decide_False by done. unfold sinter_done in Hdone'.
      rewrite Hcard in *. assert (vals = (l ++ [v]) ++ rest) as -> by by rewrite <- app_assoc. unfold kept in *. rewrite filter_app, length_app. lia.
  - intros st (l & Hl & Hdb' & _ & Hdone & Hbelow). rewrite app_nil_r in Hl. subst l. split; [done|]. unfold below_limit in Hbelow.
    destruct card; [|done]. unfold sinter_done in Hdone. specialize (Hbelow eq_refl). case_decide; lia.
  - exists []. split_and!; [done..| |]; unfold sinter_done, below_limit; simpl.
    + destruct card; [done|]. destruct dstkey; [|done]. split; [done|]. constructor.
    + intros _. lia.
  - exists st, vals. by split_and!.
Qed.

Lemma sinter_dstset_ok o X (dstkey : option bytes) :
  set_inv dt o X →
  ∃ dst, (match dstkey with Some _ => sinter_dstset junk o | None => Some (SetIntset intsetNew) end) = Some dst ∧ set_inv dt dst ∅.
Proof.
  intros [Ho _]. assert (∃ dst, sinter_dstset junk o = Some dst ∧ set_inv dt dst ∅) as (dst & -> & Hdst).
  { destruct o as [s|lp|d]; cbn [sinter_dstset]; [by eexists; split; [done|apply intset_new_ok]| |].
    - apply (repr_listpack dt) in Ho as (vs & (num & sl & -> & Hnum & Hfits) & _). unfold lpBytes. rewrite lp_of_total by done. bind_simpl.
      destruct (lp_new_inv junk dt (lp_total vs)) as (lp & -> & Hlp). bind_simpl. by eexists.
    - destruct (lp_new_inv junk dt 0) as (lp & -> & Hlp). bind_simpl. by eexists. }
  destruct dstkey; [by exists dst|]. eexists. split; [done|]. by apply intset_new_ok.
Qed.

Lemma kept_set A first sets vals X :
  list_to_set (value_string <$> vals) = set_of A first → NoDup (value_string <$> vals) →
  (∀ x, x ∈ X ↔ x ∈ set_of A first ∧ Forall (λ p, x ∈ ptr_set A p) sets) →
  list_to_set (value_string <$> kept A sets vals) = X ∧ NoDup (value_string <$> kept A sets vals) ∧ zlen (kept A sets vals) = Z.of_nat (size X).
Proof.
  intros Hvals Hnd HX. assert (value_string <$> kept A sets vals = filter (λ x, Forall (λ p, x ∈ ptr_set A p) sets) (value_string <$> vals)) as Heq.
  { clear. unfold kept. induction vals as [|v vals IH]; [done|]. rewrite fmap_cons, !filter_cons. case_decide; [by rewrite fmap_cons, IH|done]. }
  assert (NoDup (value_string <$> kept A sets vals)) as Hnd' by (rewrite Heq; by apply NoDup_filter).
  assert (list_to_set (value_string <$> kept A sets vals) = X) as HX'.
  { apply set_eq. intros x. rewrite HX, <- Hvals, !elem_of_list_to_set, Heq, list_elem_of_filter. tauto. }
  split_and!; [done..|]. rewrite <- HX', size_list_to_set by done. by rewrite length_fmap.
Qed.

(** The result that the commands give for the intersection [X]. *)
Definition sinter_result A (dstkey : option bytes) (card : bool) (limit : Z) X (db' : redisDb) (reply : set_reply) (dirty : Z) : Prop :=
  if card then db_repr db' A ∧ dirty = 0 ∧ reply = ReplyInt (if decide (limit = 0) then Z.of_nat (size X) else Z.min limit (Z.of_nat (size X)))
  else match dstkey with
       | None => db_repr db' A ∧ dirty = 0 ∧ ∃ l, reply = ReplySet (Z.of_nat (size X)) l ∧ value_string <$> l ≡ₚ elements X
       | Some dst => db_repr db' (stored A dst X) ∧ dirty = changed A dst X ∧ reply = ReplyInt (Z.of_nat (size X))
       end.

Lemma sinter_ok db A keys X dstkey (card : bool) limit :
  db_repr db A → sets_small A → keys ≠ [] → 0 ≤ limit → (card = true → dstkey = None) → Forall (λ k, A !! k ≠ Some None) keys →
  (∀ x, x ∈ X ↔ ∀ k, k ∈ keys → x ∈ set_of A k) →
  ∃ db' reply dirty, sinterGenericCommand junk dt can table_addr set_max_intset_entries set_max_listpack_entries set_max_listpack_value qsort
      db keys dstkey card limit = Some (db', reply, dirty) ∧ sinter_result A dstkey card limit X db' reply dirty.
Proof.
  intros Hdb Hsmall Hkeys Hlim Hcard Htypes HX. unfold sinterGenericCommand. rewrite (lookup_sets_ok dt db A keys Hdb).
  rewrite decide_False. 2: { rewrite Exists_exists. intros (k & Hk & HN). rewrite Forall_forall in Htypes. by apply (Htypes k). }
  set (ptrs := ptr_of A <$> keys). assert (∀ x, x ∈ X ↔ Forall (λ p, x ∈ ptr_set A p) ptrs) as HXp.
  { intros x. rewrite HX. unfold ptrs. rewrite Forall_fmap, Forall_forall. unfold compose. by setoid_rewrite ptr_set_of. }
  assert (Forall (ptr_ok A) ptrs) as Hok.
  { unfold ptrs. rewrite Forall_fmap. eapply Forall_impl; [exact Htypes|]. intros k Hk. by apply ptr_of_ok. }
  case_decide as Hnull.
  { assert (X = ∅) as ->. { apply set_eq. intros x. rewrite HXp, Forall_forall. split; [|set_solver]. intros H. by specialize (H None Hnull). }
    unfold sinter_result. destruct dstkey as [dst|].
    - destruct card; [by specialize (Hcard eq_refl)|]. destruct (delete_result_ok db A dst Hdb) as (db' & -> & Hdb'). by eexists _, _, _.
    - destruct card; (eexists _, _, _; split; [done|]); (split; [done|]); (split; [done|]); rewrite size_empty.
      + by case_decide; [|rewrite Z.min_r by done].
      + exists []. by rewrite elements_empty. }
  assert (Forall (λ p, ptr_ok A p ∧ p ≠ None) ptrs) as Hptrs.
  { apply Forall_forall. intros p Hp. rewrite Forall_forall in Hok. split; [by apply Hok|]. by intros ->. }
  destruct (qsort_ok set_ptr redisDb qsortCompareSetsByCardinality ptrs (λ db, db_repr db A) db) as (db1 & sets & -> & Hdb1 & Hperm).
  { intros p q db0 Hp Hq Hdb0. rewrite Forall_forall in Hptrs. apply (compare_ok dt db0 A); [done|by apply Hptrs..]. }
  { done. }
  bind_simpl. rewrite <- Hperm in Hptrs. setoid_rewrite <- Hperm in HXp.
  destruct sets as [|[first|] sets]; [|cbn [head tail]|by inversion_clear Hptrs as [|? ? [_ ?]]].
  { symmetry in Hperm. apply Permutation_nil_r in Hperm. unfold ptrs in Hperm. by destruct keys. }
  bind_simpl. inversion_clear Hptrs as [|? ? [Hfirst _] Hsets]. destruct (get_set_ok dt db1 A first Hdb1 Hfirst) as (o & Hget & Ho & _). rewrite Hget. bind_simpl.
  destruct (sinter_dstset_ok o _ dstkey Ho) as (dst0 & -> & Hdst0). bind_simpl.
  destruct (sinter_loop_ok db1 A first sets o dstkey card limit dst0) as (st & vals & -> & Hvals & Hnd & Hdb2 & Hst); [done..|]. bind_simpl.
  destruct (kept_set A first sets vals X Hvals Hnd) as (HXk & Hndk & Hlen); [intros x; rewrite HXp, Forall_cons; done|].
  unfold sinter_result. destruct card; [eexists _, _, _; split; [done|]; by rewrite Hst, Hlen|]. unfold sinter_done in Hst. destruct dstkey as [dst|].
  - destruct Hst as [Hdst Hints]. rewrite HXk in Hdst.
    destruct (store_result_ok (si_db st) A dst (si_dstset st) X (sinter_finish junk table_addr set_max_intset_entries (si_only_integers st)) Hdb2 Hdst)
      as (db' & -> & Hdb').
    { intros o' Ho'. apply sinter_finish_ok; [|done]. intros Hon. specialize (Hints Hon). rewrite <- HXk.
      intros x (v & -> & Hv)%elem_of_list_to_set%list_elem_of_fmap. rewrite Forall_forall in Hints. by apply Hints. }
    by eexists _, _, _.
  - destruct Hst as [-> ->]. eexists _, _, _. split; [done|]. split_and!; [done..|]. rewrite Hlen. eexists. split; [done|].
    rewrite <- HXk. symmetry. by apply elements_list_to_set.
Qed.

(** A key of another type makes the command fail, and nothing is changed. *)
Lemma sinter_wrong_type db A keys dstkey card limit :
  db_repr db A → Exists (λ k, A !! k = Some None) keys →
  sinterGenericCommand junk dt can table_addr set_max_intset_entries set_max_listpack_entries set_max_listpack_value qsort
    db keys dstkey card limit = Some (db, WrongType, 0).
Proof. intros Hdb Hex. unfold sinterGenericCommand. rewrite (lookup_sets_ok dt db A keys Hdb). by rewrite decide_True. Qed.

End alg.
