(* ===== verification/TsetDiff.v ===== *)
(** * t_set.c: unions and differences are computed, by either algorithm *)

From S2P Require Import Prelude Intset Dict DictInv DictOps DictLife Util Listpack ListpackEnc ListpackOps ListpackMod ListpackBulk.
From S2P Require Import Tset TsetInv TsetConv TsetOps TsetCmd TsetAlg.

Local Open Scope Z_scope.

Section diff.
Context (junk : nat → Z) (dt : dictType bytes) `{!SetDictType dt} (can : dictResizeEnable) (table_addr : bool → Z).
Context (set_max_intset_entries set_max_listpack_entries set_max_listpack_value : Z).
Context (Hcfg : 0 ≤ set_max_intset_entries < INTSET_LIMIT).
Context (qsort : qsort_fn) `{!QsortOk qsort}.
Implicit Types (k first : bytes) (keys : list bytes) (v : set_value) (sets : list set_ptr) (o : set_object) (X Y D : gset bytes) (db : redisDb) (A : aspace) (st : sdiff_state).

Local Abbreviation db_repr := (db_repr dt).
Local Abbreviation sdiff_add := (sdiff_add junk dt can table_addr set_max_intset_entries set_max_listpack_entries set_max_listpack_value).
Local Abbreviation sdiff_remove := (sdiff_remove junk dt can).

(** The state has collected the set [Y]. *)
Definition collected A st Y : Prop :=
  db_repr (sd_db st) A ∧ set_inv dt (sd_dstset st) Y ∧ sd_cardinality st = s32 (Z.of_nat (size Y)).

(** The elements of any of the sets. *)
Definition any_of A (sets : list set_ptr) : gset bytes := ⋃ (ptr_set A <$> sets).

Lemma any_of_keys A keys : any_of A (ptr_of A <$> keys) = ⋃ (set_of A <$> keys).
Proof. unfold any_of. rewrite <- list_fmap_compose. f_equal. apply list_fmap_ext. intros ? k _. apply ptr_set_of. Qed.

Lemma any_of_cons A p sets : any_of A (p :: sets) = ptr_set A p ∪ any_of A sets.
Proof. done. Qed.

Lemma any_of_perm A sets sets' : sets ≡ₚ sets' → any_of A sets = any_of A sets'.
Proof. induction 1; rewrite ?any_of_cons; [done|set_solver|set_solver|congruence]. Qed.

Lemma s32_step z d : s32 (s32 z + d) = s32 (z + d).
Proof.
  unfold swrap. generalize (2 ^ (32 - 1)) (2 ^ 32). intros h m.
  replace ((z + h) `mod` m - h + d + h) with ((z + h) `mod` m + d) by lia. rewrite Zplus_mod_idemp_l. by replace (z + h + d) with (z + d + h) by lia.
Qed.

Lemma s32_empty X : Z.of_nat (size X) < 2 ^ 32 → 0 = s32 (Z.of_nat (size X)) → X = ∅.
Proof.
  intros Hlt H0. apply leibniz_equiv, size_empty_inv. apply (f_equal (uwrap 32)) in H0. rewrite uwrap_swrap, !uwrap_small in H0 by range_lia. lia.

Qed.

(** A loop over all the elements of one set, which [J] describes by the elements that are done. *)
Lemma each_ok A k (f : set_value → sdiff_state → option sdiff_state) (J : gset bytes → sdiff_state → Prop) st :
  db_repr (sd_db st) A → is_set A k → J ∅ st →
  (∀ D v st, value_ok v → value_string v ∈ set_of A k → value_string v ∉ D → D ⊆ set_of A k → db_repr (sd_db st) A → J D st →
     ∃ st', f v st = Some st' ∧ db_repr (sd_db st') A ∧ get_set (sd_db st') k = get_set (sd_db st) k ∧ J ({[value_string v]} ∪ D) st') →
  ∃ st', sdiff_each table_addr k f st = Some st' ∧ db_repr (sd_db st') A ∧ J (set_of A k) st'.
Proof.
  intros Hdb Hk HJ Hf. destruct (get_set_ok dt (sd_db st) A k Hdb Hk) as (o & Hget & [(vals & Hh & HX) _] & _).
  pose proof (holds_nodup dt _ _ Hh) as Hnd. pose proof (holds_values dt _ _ Hh) as Hvals. unfold sdiff_each.
  match goal with |- context [set_iterate _ ?su ?bo _] =>
    edestruct (iterate_ok dt table_addr su bo
      (λ rest st, ∃ l, vals = l ++ rest ∧ db_repr (sd_db st) A ∧ get_set (sd_db st) k = Some o ∧ J (list_to_set (value_string <$> l)) st)
      (λ st, db_repr (sd_db st) A ∧ J (set_of A k) st) o vals st Hh) as (st' & -> & _ & Hdb' & HJ') end.
  - naive_solver.
  - intros v rest st1 (l & Hl & Hdb1 & Hg1 & HJ1). subst vals. apply Forall_app in Hvals as [_ Hvals]. inversion_clear Hvals as [|? ? Hv _].
    rewrite fmap_app, fmap_cons in Hnd, HX. apply NoDup_app in Hnd as (_ & Hnd & _).
    destruct (Hf (list_to_set (value_string <$> l)) v st1) as (st2 & Hs & Hdb2 & Hg2 & HJ2); [done|set_solver| |set_solver|done..|].
    + rewrite elem_of_list_to_set. intros Hin. apply (Hnd _ Hin). by left.
    + rewrite Hs. bind_simpl. exists st2, true. split; [done|]. exists (l ++ [v]). split_and!; [by rewrite <- app_assoc|done|congruence|].
      rewrite fmap_app, list_to_set_app_L, union_comm_L. simpl. by rewrite union_empty_r_L.
  - intros st1 (l & Hl & Hdb1 & _ & HJ1). rewrite app_nil_r in Hl. subst l. by rewrite HX in HJ1.
  - exists []. by split_and!.
  - by exists st'.
Qed.

(** ** One element *)

Lemma sdiff_add_ok A st Y v :
  collected A st Y → value_ok v → Z.of_nat (size Y) < 2 ^ 60 →
  ∃ st', sdiff_add v st = Some st' ∧ collected A st' ({[value_string v]} ∪ Y) ∧ sd_db st' = sd_db st.
Proof.
  intros (Hdb & Ho & Hc) Hv Hsize. unfold sdiff_add.
  destruct (setTypeAddAux_ok junk dt can table_addr _ set_max_listpack_entries set_max_listpack_value Hcfg _ _ v Ho Hv Hsize) as (o' & -> & Ho' & _).
  bind_simpl. eexists. split; [done|]. split; [|done]. split_and!; [done..|]. simpl. rewrite Hc, s32_step. f_equal.
  destruct (decide (value_string v ∈ Y)) as [Hin|Hin]; [rewrite bool_decide_false by naive_solver|rewrite bool_decide_true by done].
  - rewrite union_present by done. lia.
  - rewrite size_union_new by done. lia.
Qed.

Lemma sdiff_remove_ok A st Y v :
  collected A st Y → value_ok v → Z.of_nat (size Y) < 2 ^ 60 →
  ∃ st', sdiff_remove v st = Some st' ∧ collected A st' (Y ∖ {[value_string v]}) ∧ sd_db st' = sd_db st.
Proof.
  intros (Hdb & Ho & Hc) Hv Hsize. unfold sdiff_remove.
  destruct (setTypeRemoveAux_ok junk dt can _ set_max_listpack_entries set_max_listpack_value Hcfg _ _ v Ho Hv Hsize) as (o' & -> & Ho' & _).
  bind_simpl. eexists. split; [done|]. split; [|done]. split_and!; [done..|]. simpl. rewrite Hc, <- Z.add_opp_r, s32_step. f_equal.
  destruct (decide (value_string v ∈ Y)) as [Hin|Hin]; [rewrite bool_decide_true by done|rewrite bool_decide_false by done].
  - rewrite size_difference, size_singleton by set_solver. assert (size Y ≠ 0)%nat; [|lia]. intros H0%size_empty_inv. set_solver.
  - replace (Y ∖ {[value_string v]}) with Y by set_solver. lia.
Qed.

(** ** Union *)

Lemma sunion_sets_ok A sets st Y :
  Forall (ptr_ok A) sets → collected A st Y → Z.of_nat (size (any_of A sets ∪ Y)) < 2 ^ 60 →
  ∃ st', sunion_sets junk dt can table_addr set_max_intset_entries set_max_listpack_entries set_max_listpack_value sets st = Some st' ∧
    collected A st' (any_of A sets ∪ Y).
Proof.
  intros Hok. revert st Y. induction Hok as [|p sets Hp Hok IH]; intros st Y Hc Hsize; cbn [sunion_sets].
  { exists st. unfold any_of. simpl. by rewrite union_empty_l_L. }
  rewrite any_of_cons in *. destruct p as [k|].
  2: { simpl in *. rewrite union_empty_l_L in *. by apply IH. }
  destruct (each_ok A k sdiff_add (λ D st, collected A st (D ∪ Y)) st) as (st1 & -> & _ & Hc1); [apply Hc|done|by rewrite union_empty_l_L| |].
  - intros D v st1 Hv Hin _ HD _ Hc1. destruct (sdiff_add_ok A st1 (D ∪ Y) v Hc1 Hv) as (st2 & -> & Hc2 & Hdb2).
    { assert (size (D ∪ Y) ≤ size (ptr_set A (Some k) ∪ any_of A sets ∪ Y))%nat; [|lia]. apply subseteq_size. simpl. set_solver. }
    exists st2. split_and!; [done|apply Hc2|by rewrite Hdb2|]. by rewrite <- union_assoc_L.
  - bind_simpl. assert (ptr_set A (Some k) ∪ any_of A sets ∪ Y = any_of A sets ∪ (set_of A k ∪ Y)) as Heq by (simpl; set_solver).
    rewrite Heq in *. by apply IH.
Qed.

(** ** Difference *)

(** The estimate decides only which algorithm is used. *)
Lemma sdiff_work_ok A first sets db one two :
  db_repr db A → is_set A first → Forall (ptr_ok A) sets →
  ∃ db' one' two', sdiff_work first sets db one two = Some (db', one', two') ∧ db_repr db' A.
Proof.
  intros Hdb Hfirst Hok. revert db one two Hdb. induction Hok as [|[k|] sets Hp Hok IH]; intros db one two Hdb; cbn [sdiff_work];
    [by eexists _, _, _| |by apply IH].
  destruct (on_set_size dt db A first Hdb Hfirst) as (db1 & -> & Hdb1). bind_simpl.
  destruct (on_set_size dt db1 A k Hdb1 Hp) as (db2 & -> & Hdb2). bind_simpl. by apply IH.
Qed.

Lemma sdiff_test_ok A first sets db v :
  db_repr db A → Forall (ptr_ok A) sets → value_ok v → value_string v ∈ set_of A first →
  ∃ db', sdiff_test dt can db first sets v = Some (db', bool_decide (value_string v ∉ any_of A sets)) ∧ db_repr db' A ∧
    get_set db' first = get_set db first.
Proof.
  intros Hdb Hok Hv Hfirst. revert db Hdb. induction Hok as [|p sets Hp Hok IH]; intros db Hdb; cbn [sdiff_test].
  { exists db. rewrite bool_decide_true; [done|]. apply not_elem_of_empty. }
  rewrite any_of_cons. destruct p as [k|]; cbn [ptr_set]; [|rewrite union_empty_l_L; by apply IH]. destruct (decide (k = first)) as [Heq|Heq].
  { subst k. exists db. by rewrite bool_decide_false by set_solver. }
  destruct (on_set_member dt can db A k v Hdb Hp Hv) as (db1 & -> & Hdb1 & Hget1). bind_simpl.
  destruct (decide (value_string v ∈ set_of A k)) as [Hin|Hin]; [rewrite bool_decide_true by done|rewrite bool_decide_false by done].
  - exists db1. split_and!; [|done|by apply Hget1]. by rewrite bool_decide_false by set_solver.
  - destruct (IH db1 Hdb1) as (db' & -> & Hdb' & Hget). exists db'. split_and!; [|done|rewrite Hget; by apply Hget1]. do 2 f_equal. apply bool_decide_ext. set_solver.
Qed.

Lemma sdiff_algo_one_ok A first sets st :
  sets_small A → is_set A first → Forall (ptr_ok A) sets → collected A st ∅ →
  ∃ st', sdiff_algo_one junk dt can table_addr set_max_intset_entries set_max_listpack_entries set_max_listpack_value first sets st = Some st' ∧
    collected A st' (set_of A first ∖ any_of A sets).
Proof.
  intros Hsmall Hfirst Hok Hc. unfold sdiff_algo_one.
  match goal with |- context [sdiff_each _ _ ?f _] => destruct (each_ok A first f (λ D st, collected A st (D ∖ any_of A sets)) st) as (st' & -> & _ & Hc') end;
    [apply Hc|done|by replace (∅ ∖ any_of A sets) with (∅ : gset bytes) by set_solver| |by exists st'].
  intros D v st1 Hv Hin _ HD Hdb1 Hc1. destruct (sdiff_test_ok A first sets (sd_db st1) v Hdb1 Hok Hv Hin) as (db2 & -> & Hdb2 & Hget). bind_simpl.
  pose proof Hc1 as (_ & Ho1 & Hcard1).
  destruct (decide (value_string v ∈ any_of A sets)) as [Hany|Hany]; [rewrite bool_decide_false by naive_solver|rewrite bool_decide_true by done].
  - eexists. split; [done|]. split_and!; [done..|]. by replace (({[value_string v]} ∪ D) ∖ any_of A sets) with (D ∖ any_of A sets) by set_solver.
  - destruct (sdiff_add_ok A (mk_sdiff db2 (sd_dstset st1) (sd_cardinality st1)) (D ∖ any_of A sets) v) as (st2 & -> & Hc2 & Hdb2'); [by split_and!|done| |].
    { specialize (Hsmall first). assert (size (D ∖ any_of A sets) ≤ size (set_of A first))%nat; [|lia]. apply subseteq_size. set_solver. }
    exists st2. split; [done|]. rewrite Hdb2'. split_and!; [done..|].
    by replace (({[value_string v]} ∪ D) ∖ any_of A sets) with ({[value_string v]} ∪ D ∖ any_of A sets) by set_solver.
Qed.

(** Algorithm 2 stops when nothing is left; the [int] counter shows that for less than 2^32 elements. *)
Lemma sdiff_subtract_ok A sets st Y :
  Forall (ptr_ok A) sets → collected A st Y → Z.of_nat (size Y) < 2 ^ 32 →
  ∃ st', sdiff_subtract junk dt can table_addr sets st = Some st' ∧ collected A st' (Y ∖ any_of A sets).
Proof.
  intros Hok. revert st Y. induction Hok as [|p sets Hp Hok IH]; intros st Y Hc Hsize; cbn [sdiff_subtract].
  { exists st. unfold any_of. simpl. by rewrite difference_empty_L. }
  rewrite any_of_cons. destruct p as [k|]; cbn [ptr_set]; [|rewrite union_empty_l_L; by apply IH].
  destruct (each_ok A k sdiff_remove (λ D st, collected A st (Y ∖ D)) st) as (st1 & -> & _ & Hc1); [apply Hc|done|by rewrite difference_empty_L| |].
  - intros D v st1 Hv _ _ _ _ Hc1. destruct (sdiff_remove_ok A st1 (Y ∖ D) v Hc1 Hv) as (st2 & -> & Hc2 & Hdb2).
    { assert (size (Y ∖ D) ≤ size Y)%nat; [|lia]. apply subseteq_size. set_solver. }
    exists st2. split_and!; [done|apply Hc2|by rewrite Hdb2|]. by replace (Y ∖ ({[value_string v]} ∪ D)) with (Y ∖ D ∖ {[value_string v]}) by set_solver.
  - bind_simpl. assert (size (Y ∖ set_of A k) ≤ size Y)%nat as Hle by (apply subseteq_size; set_solver). case_decide as H0.
    + pose proof Hc1 as (_ & _ & Hcard). rewrite H0 in Hcard. assert (Y ∖ set_of A k = ∅) as He by (eapply s32_empty; [|done]; lia).
      exists st1. split; [done|]. by replace (Y ∖ (set_of A k ∪ any_of A sets)) with (Y ∖ set_of A k) by set_solver.
    + destruct (IH st1 (Y ∖ set_of A k) Hc1) as (st2 & -> & Hc2); [lia|]. exists st2. split; [done|].
      by replace (Y ∖ (set_of A k ∪ any_of A sets)) with (Y ∖ set_of A k ∖ any_of A sets) by set_solver.
Qed.

Lemma sdiff_algo_two_ok A first sets st :
  Z.of_nat (size (set_of A first)) < 2 ^ 32 → is_set A first → Forall (ptr_ok A) sets → collected A st ∅ →
  ∃ st', sdiff_algo_two junk dt can table_addr set_max_intset_entries set_max_listpack_entries set_max_listpack_value first sets st = Some st' ∧
    collected A st' (set_of A first ∖ any_of A sets).
Proof.
  intros Hsize Hfirst Hok Hc. unfold sdiff_algo_two.
  destruct (each_ok A first sdiff_add (λ D st, collected A st D) st) as (st1 & -> & _ & Hc1); [apply Hc|done..| |].
  - intros D v st1 Hv _ _ HD _ Hc1. destruct (sdiff_add_ok A st1 D v Hc1 Hv) as (st2 & -> & Hc2 & Hdb2).
    { assert (size D ≤ size (set_of A first))%nat; [by apply subseteq_size|lia]. }
    exists st2. split_and!; [done|apply Hc2|by rewrite Hdb2|done].
  - bind_simpl. case_decide as H0; [|by apply sdiff_subtract_ok].
    pose proof Hc1 as (_ & _ & Hcard). rewrite H0 in Hcard. apply s32_empty in Hcard; [|done]. exists st1. split; [done|].
    rewrite Hcard in *. by replace (∅ ∖ any_of A sets) with (∅ : gset bytes) by set_solver.
Qed.

Lemma sdiff_sets_ok A first sets st :
  sets_small A → Z.of_nat (size (set_of A first)) < 2 ^ 32 → is_set A first → Forall (ptr_ok A) sets → collected A st ∅ →
  ∃ st', sdiff_sets junk dt can table_addr set_max_intset_entries set_max_listpack_entries set_max_listpack_value qsort first sets st = Some st' ∧
    collected A st' (set_of A first ∖ any_of A sets).
Proof.
  intros Hsmall Hsize Hfirst Hok (Hdb & Ho & Hc). unfold sdiff_sets.
  destruct (sdiff_work_ok A first (Some first :: sets) (sd_db st) 0 0 Hdb Hfirst) as (db1 & one & two & -> & Hdb1); [by constructor|]. bind_simpl.
  case_decide; [|by apply sdiff_algo_two_ok].
  assert (∃ db2 sets', (if decide (sets = []) then Some (db1, sets) else qsort set_ptr redisDb qsortCompareSetsByRevCardinality sets db1) = Some (db2, sets') ∧
    db_repr db2 A ∧ sets' ≡ₚ sets) as (db2 & sets' & -> & Hdb2 & Hperm).
  { case_decide; [by eexists _, _|]. apply (qsort_ok _ _ _ sets (λ db, db_repr db A)); [|done].
    intros p q db Hp Hq Hdb'. rewrite Forall_forall in Hok. apply (rev_compare_ok dt db A); [done|by apply Hok..]. }
  bind_simpl. rewrite <- (any_of_perm A _ _ Hperm). apply sdiff_algo_one_ok; [done..|by rewrite Hperm|done].
Qed.

(** ** The commands *)

Lemma reply_elements_ok o X :
  set_inv dt o X → ∃ l, reply_elements table_addr o = Some l ∧ value_string <$> l ≡ₚ elements X.
Proof.
  intros [(vals & Hh & HX) _]. unfold reply_elements.
  match goal with |- context [set_iterate _ ?su ?bo _] =>
    edestruct (iterate_ok dt table_addr su bo (λ rest l, vals = l ++ rest) (λ l, l = vals) o vals []) as (l & -> & _ & ->) end; [done|done| |..].
  - intros v rest l Hl. exists (l ++ [v]), true. split; [done|]. by rewrite <- app_assoc.
  - intros l Hl. by rewrite app_nil_r in Hl.
  - done.
  - exists vals. split; [done|]. rewrite <- HX. symmetry. apply elements_list_to_set. by eapply holds_nodup.
Qed.

(** The set that the command computes. *)
Definition sop_result A (op : set_op) keys : gset bytes :=
  match op with
  | SET_OP_UNION => ⋃ (set_of A <$> keys)
  | SET_OP_DIFF => match keys with [] => ∅ | k :: keys => set_of A k ∖ ⋃ (set_of A <$> keys) end
  end.

(** What the command does with the set [X]: the [int] counter is the length that the reply announces. *)
Definition sop_done A (dstkey : option bytes) X (db' : redisDb) (reply : set_reply) (dirty : Z) : Prop :=
  match dstkey with
  | None => db_repr db' A ∧ dirty = 0 ∧ ∃ l, reply = ReplySet (s32 (Z.of_nat (size X))) l ∧ value_string <$> l ≡ₚ elements X
  | Some dst => db_repr db' (stored A dst X) ∧ dirty = changed A dst X ∧ reply = ReplyInt (Z.of_nat (size X))
  end.

(** What the counters need: the union has less than 2^60 elements, the first set of a difference less than 2^32. *)
Definition sop_small A (op : set_op) keys : Prop :=
  match op with
  | SET_OP_UNION => Z.of_nat (size (sop_result A op keys)) < 2 ^ 60
  | SET_OP_DIFF => sets_small A ∧ ∀ k, head keys = Some k → Z.of_nat (size (set_of A k)) < 2 ^ 32
  end.

Lemma collect_ok A op keys db :
  db_repr db A → keys ≠ [] → Forall (λ k, A !! k ≠ Some None) keys → sop_small A op keys →
  ∃ st', sop_collect junk dt can table_addr set_max_intset_entries set_max_listpack_entries set_max_listpack_value qsort
      op (ptr_of A <$> keys) (mk_sdiff db (SetIntset intsetNew) 0) = Some st' ∧ collected A st' (sop_result A op keys).
Proof.
  intros Hdb Hne Htypes Hsmall. set (sets := ptr_of A <$> keys). set (st := mk_sdiff _ _ _). unfold sop_collect. assert (Forall (ptr_ok A) sets) as Hok.
  { unfold sets. rewrite Forall_fmap. eapply Forall_impl; [exact Htypes|]. intros k Hk. by apply ptr_of_ok. }
  assert (collected A st ∅) as Hst by (split_and!; [done|by apply intset_new_ok|done]). destruct op; cbn [sop_result sop_small] in *.
  - destruct (sunion_sets_ok A sets st ∅ Hok Hst) as (st' & -> & Hc); unfold sets in *; rewrite any_of_keys, union_empty_r_L in *; [done|by exists st'].
  - destruct keys as [|k keys]; [done|]. destruct Hsmall as [Hsmall Hk]. specialize (Hk k eq_refl). unfold sets in *. cbn [fmap list_fmap head tail] in *.
    inversion_clear Hok as [|? ? Hp Hok']. bind_simpl. pose proof (ptr_set_of A k) as Hset. destruct (ptr_of A k) as [first|] eqn:Hfirst.
    + assert (first = k) as -> by (unfold ptr_of in Hfirst; destruct (A !! k); by inversion Hfirst). case_decide as Hin.
      * exists st. split; [done|]. apply list_elem_of_fmap in Hin as (k' & Hk' & Hin). assert (k' = k) as -> by (unfold ptr_of in Hk'; destruct (A !! k'); by inversion Hk').
        assert (set_of A k ⊆ ⋃ (set_of A <$> keys)) as Hsub.
        { intros x Hx. apply elem_of_union_list. exists (set_of A k). split; [|done]. apply list_elem_of_fmap. by exists k. }
        by replace (set_of A k ∖ ⋃ (set_of A <$> keys)) with (∅ : gset bytes) by set_solver.
      * rewrite <- any_of_keys. by apply sdiff_sets_ok.
    + exists st. split; [done|]. simpl in Hset. rewrite <- Hset. by replace (∅ ∖ ⋃ (set_of A <$> keys)) with (∅ : gset bytes) by set_solver.
Qed.

Lemma sunion_sdiff_ok A op keys dstkey db :
  db_repr db A → keys ≠ [] → Forall (λ k, A !! k ≠ Some None) keys → sop_small A op keys →
  ∃ db' reply dirty, sunionDiffGenericCommand junk dt can table_addr set_max_intset_entries set_max_listpack_entries set_max_listpack_value qsort
      db keys dstkey op = Some (db', reply, dirty) ∧ sop_done A dstkey (sop_result A op keys) db' reply dirty.
Proof.
  intros Hdb Hne Htypes Hsmall. unfold sunionDiffGenericCommand. rewrite (lookup_sets_ok dt db A keys Hdb).
  rewrite decide_False. 2: { rewrite Exists_exists. intros (k & Hk & HN). rewrite Forall_forall in Htypes. by apply (Htypes k). }
  destruct (collect_ok A op keys db Hdb Hne Htypes Hsmall) as (st & -> & Hdb' & Ho & Hcard). bind_simpl. unfold sop_done.
  destruct dstkey as [dst|].
  - destruct (store_result_ok dt _ Hcfg (sd_db st) A dst (sd_dstset st) _ Some Hdb' Ho) as (db' & -> & Hs); [intros o Hoo; by exists o|]. by eexists _, _, _.
  - destruct (reply_elements_ok _ _ Ho) as (l & -> & Hl). bind_simpl. eexists _, _, _. split; [done|]. split_and!; [done..|]. rewrite Hcard. by exists l.
Qed.

Lemma sunion_wrong_type A op keys dstkey db :
  db_repr db A → Exists (λ k, A !! k = Some None) keys →
  sunionDiffGenericCommand junk dt can table_addr set_max_intset_entries set_max_listpack_entries set_max_listpack_value qsort db keys dstkey op =
    Some (db, WrongType, 0).
Proof. intros Hdb Hex. unfold sunionDiffGenericCommand. rewrite (lookup_sets_ok dt db A keys Hdb). by rewrite decide_True. Qed.

End diff.
