(* ===== verification/TsetKeys.v ===== *)
(** * t_set.c: the commands implement operations on a keyspace of sets *)

From S2P Require Import Prelude Intset Dict DictInv DictOps DictLife Util Listpack ListpackEnc ListpackOps ListpackMod ListpackBulk.
From S2P Require Import Tset TsetInv TsetConv TsetOps TsetCmd TsetAlg TsetDiff.

Local Open Scope Z_scope.

(** ** The abstract commands *)

Inductive areply := AWrongType | AInt (n : Z) | AArray (l : list Z) | ASet (X : gset bytes).

Definition any_wrong (A : aspace) (keys : list bytes) : Prop := Exists (λ k, A !! k = Some None) keys.

Global Instance any_wrong_dec A keys : Decision (any_wrong A keys).
Proof. unfold any_wrong. apply _. Defined.

Definition inter_of (A : aspace) (keys : list bytes) : gset bytes :=
  match keys with [] => ∅ | k :: keys => foldr (λ k X, set_of A k ∩ X) (set_of A k) keys end.

Definition asize (X : gset bytes) : Z := Z.of_nat (size X).

(** Nothing changes. *)
Definition aread (A : aspace) (keys : list bytes) (r : areply) : aspace * areply * Z :=
  if decide (any_wrong A keys) then (A, AWrongType, 0) else (A, r, 0).

Definition astore (A : aspace) (keys : list bytes) (dst : bytes) (X : gset bytes) : aspace * areply * Z :=
  if decide (any_wrong A keys) then (A, AWrongType, 0) else (stored A dst X, AInt (asize X), changed A dst X).

(** The keyspace, the reply and the number of changes. *)
Definition aexec (A : aspace) (c : set_cmd) : aspace * areply * Z :=
  match c with
  | SADD key members =>
      if decide (any_wrong A [key]) then (A, AWrongType, 0)
      else
        let Y := list_to_set members ∪ set_of A key in let n := asize Y - asize (set_of A key) in (<[key := Some Y]> A, AInt n, n)
  | SREM key members =>
      if decide (any_wrong A [key]) then (A, AWrongType, 0)
      else
        let Y := set_of A key ∖ list_to_set members in let n := asize (set_of A key) - asize Y in (stored A key Y, AInt n, n)
  | SMOVE src dst ele =>
      if decide (A !! src = None) then (A, AInt 0, 0)
      else if decide (any_wrong A [src; dst]) then (A, AWrongType, 0)
      else if decide (ele ∉ set_of A src) then (A, AInt 0, 0)
      else if decide (src = dst) then (A, AInt 1, 0)
      else (<[dst := Some ({[ele]} ∪ set_of A dst)]> (stored A src (set_of A src ∖ {[ele]})), AInt 1,
            if decide (ele ∈ set_of A dst) then 1 else 2)
  | SISMEMBER key ele => aread A [key] (AInt (reply_bool (bool_decide (ele ∈ set_of A key))))
  | SMISMEMBER key members => aread A [key] (AArray ((λ m, reply_bool (bool_decide (m ∈ set_of A key))) <$> members))
  | SCARD key => aread A [key] (AInt (asize (set_of A key)))
  | SINTER keys => aread A keys (ASet (inter_of A keys))
  | SINTERCARD keys limit =>
      aread A keys (AInt (if decide (limit = 0) then asize (inter_of A keys) else Z.min limit (asize (inter_of A keys))))
  | SINTERSTORE dst keys => astore A keys dst (inter_of A keys)
  | SUNION keys => aread A keys (ASet (sop_result A SET_OP_UNION keys))
  | SUNIONSTORE dst keys => astore A keys dst (sop_result A SET_OP_UNION keys)
  | SDIFF keys => aread A keys (ASet (sop_result A SET_OP_DIFF keys))
  | SDIFFSTORE dst keys => astore A keys dst (sop_result A SET_OP_DIFF keys)
  end.

(** A set is sent in any order, with the right length. *)
Definition reply_matches (r : set_reply) (a : areply) : Prop :=
  match r, a with
  | WrongType, AWrongType => True
  | ReplyInt n, AInt m => n = m
  | ReplyArray l, AArray m => l = m
  | ReplySet n l, ASet X => n = asize X ∧ value_string <$> l ≡ₚ elements X
  | _, _ => False
  end.

(** No key holds an empty set. *)
Definition no_empty (A : aspace) : Prop := map_Forall (λ _ x, x ≠ Some ∅) A.

(** All the sets have less than 2^31 elements. *)
Definition space_small (A : aspace) : Prop := map_Forall (λ _ x, asize (default ∅ x) < 2 ^ 31) A.

Lemma space_small_set A k : space_small A → asize (set_of A k) < 2 ^ 31.
Proof. intros Hs. unfold set_of. specialize (Hs k). destruct (A !! k) as [[X|]|]; [by apply (Hs (Some X))|done..]. Qed.

Definition areply_small (r : areply) : Prop := match r with ASet X => asize X < 2 ^ 31 | _ => True end.

(** What the parser of requests guarantees of the arguments. *)
Definition members_ok (l : list bytes) : Prop := l ≠ [] ∧ zlen l < 2 ^ 31 ∧ Forall (λ m, zlen m < 2 ^ 63) l.

Definition cmd_ok (c : set_cmd) : Prop :=
  match c with
  | SADD _ members | SREM _ members | SMISMEMBER _ members => members_ok members
  | SMOVE _ _ ele | SISMEMBER _ ele => members_ok [ele]
  | SCARD _ => True
  | SINTERCARD keys limit => keys ≠ [] ∧ 0 ≤ limit
  | SINTER keys | SINTERSTORE _ keys | SUNION keys | SUNIONSTORE _ keys | SDIFF keys | SDIFFSTORE _ keys => keys ≠ []
  end.

Lemma inter_of_spec A keys x : keys ≠ [] → x ∈ inter_of A keys ↔ ∀ k, k ∈ keys → x ∈ set_of A k.
Proof.
  destruct keys as [|k0 keys]; [done|]. intros _. simpl. induction keys as [|k keys IH]; simpl; [set_solver|]. rewrite elem_of_intersection, IH. set_solver.
Qed.

Lemma set_of_insert A k X : set_of (<[k := Some X]> A) k = X.
Proof. unfold set_of. by rewrite lookup_insert_eq. Qed.

Lemma set_of_stored A k X : set_of (stored A k X) k = X.
Proof. unfold stored, set_of. case_decide as He; [by rewrite lookup_delete_eq|by rewrite lookup_insert_eq]. Qed.

Lemma no_empty_insert A k X : no_empty A → X ≠ ∅ → no_empty (<[k := Some X]> A).
Proof. intros HA HX. apply map_Forall_insert_2; [congruence|done]. Qed.

Lemma no_empty_stored A k X : no_empty A → no_empty (stored A k X).
Proof. intros HA. unfold stored. case_decide; [by apply map_Forall_delete|by apply no_empty_insert]. Qed.

(** No command leaves an empty set behind. *)
Lemma aexec_no_empty A c : no_empty A → cmd_ok c → no_empty (aexec A c).1.1.
Proof.
  intros HA Hc. destruct c; cbn [aexec]; unfold aread, astore; repeat case_decide; cbn [fst]; try done; try by apply no_empty_stored.
  - apply no_empty_insert; [done|]. destruct Hc as [Hne _]. destruct members as [|m members]; [done|]. set_solver.
  - apply no_empty_insert; [by apply no_empty_stored|]. set_solver.
  - apply no_empty_insert; [by apply no_empty_stored|]. set_solver.
Qed.

(** ** Sequences of commands *)

Fixpoint arun (A : aspace) (cs : list set_cmd) : aspace * list (areply * Z) :=
  match cs with
  | [] => (A, [])
  | c :: cs => let '(A, r, d) := aexec A c in let '(A, rs) := arun A cs in (A, (r, d) :: rs)
  end.

(** The sets and the replies fit the counters. *)
Definition cmd_fits (A : aspace) (c : set_cmd) : Prop :=
  cmd_ok c ∧ space_small (aexec A c).1.1 ∧ areply_small (aexec A c).1.2.

Fixpoint run_fits (A : aspace) (cs : list set_cmd) : Prop :=
  match cs with [] => True | c :: cs => cmd_fits A c ∧ run_fits (aexec A c).1.1 cs end.

Global Instance cmd_ok_dec c : Decision (cmd_ok c).
Proof. destruct c; cbn [cmd_ok]; unfold members_ok; apply _. Defined.

Global Instance cmd_fits_dec A c : Decision (cmd_fits A c).
Proof. unfold cmd_fits, space_small. destruct (aexec A c) as [[A' r] d]. destruct r; cbn [fst snd areply_small]; apply _. Defined.

Global Instance run_fits_dec A cs : Decision (run_fits A cs).
Proof. revert A. induction cs; intros A; cbn [run_fits]; apply _. Defined.

Section keys.
Context (junk : nat → Z) (dt : dictType bytes) `{!SetDictType dt} (can : dictResizeEnable) (table_addr : bool → Z).
Context (set_max_intset_entries set_max_listpack_entries set_max_listpack_value : Z).
Context (Hcfg : 0 ≤ set_max_intset_entries < INTSET_LIMIT).
Context (qsort : qsort_fn) `{!QsortOk qsort}.
Implicit Types (k key : bytes) (keys members : list bytes) (o : set_object) (X Y : gset bytes) (db : redisDb) (A : aspace).

Local Abbreviation db_repr := (db_repr dt).
Local Abbreviation exec := (set_exec junk dt can table_addr set_max_intset_entries set_max_listpack_entries set_max_listpack_value qsort).

(** ** The loops over members *)

Lemma sadd_members_ok o X members added :
  set_inv dt o X → Forall (λ m, zlen m < 2 ^ 63) members → asize (list_to_set members ∪ X) < 2 ^ 60 → 0 ≤ added → added + zlen members < 2 ^ 31 →
  ∃ o', sadd_members junk dt can table_addr set_max_intset_entries set_max_listpack_entries set_max_listpack_value o members added =
      Some (o', added + asize (list_to_set members ∪ X) - asize X) ∧ set_inv dt o' (list_to_set members ∪ X).
Proof.
  intros Ho Hm. revert o X added Ho. induction Hm as [|m members Hm Hms IH]; intros o X added Ho Hsize H0 Hlt; cbn [sadd_members].
  { exists o. cbn [list_to_set]. rewrite union_empty_l_L. split; [do 2 f_equal; lia|done]. }
  assert (list_to_set (m :: members) ∪ X = list_to_set members ∪ ({[m]} ∪ X)) as Heq by set_solver. rewrite Heq in *. unfold asize in *.
  assert (size ({[m]} ∪ X) ≤ size (list_to_set members ∪ ({[m]} ∪ X)))%nat as Hle1 by (apply subseteq_size; set_solver).
  assert (size X ≤ size ({[m]} ∪ X))%nat as Hle2 by (apply subseteq_size; set_solver).
  destruct (setTypeAddAux_ok junk dt can table_addr _ set_max_listpack_entries set_max_listpack_value Hcfg o X (ValStr m) Ho) as (o1 & Hadd & Ho1 & _); [done|lia|].
  unfold setTypeAdd. rewrite Hadd. bind_simpl. cbn [value_string] in Ho1.
  destruct (decide (m ∈ X)) as [Hin|Hin]; [rewrite bool_decide_false by naive_solver|rewrite bool_decide_true by done]; cbn [length] in Hlt.
  - rewrite (union_present X m Hin) in *. apply IH; [done..|lia].
  - rewrite swrap_small by range_lia. destruct (IH o1 ({[m]} ∪ X) (added + 1) Ho1) as (o' & -> & Ho'); [lia..|]. exists o'. split; [|done].
    do 2 f_equal. pose proof (size_union_new X m Hin). lia.
Qed.

Lemma srem_members_ok o X members deleted :
  set_inv dt o X → X ≠ ∅ → Forall (λ m, zlen m < 2 ^ 63) members → asize X < 2 ^ 31 → 0 ≤ deleted → deleted + zlen members < 2 ^ 31 →
  let Y := X ∖ list_to_set members in
  ∃ o', srem_members junk dt can o members deleted = Some (o', deleted + asize X - asize Y, bool_decide (Y = ∅)) ∧ set_inv dt o' Y.
Proof.
  intros Ho HX Hm. revert o X deleted Ho HX. induction Hm as [|m members Hm Hms IH]; intros o X deleted Ho HX Hsize H0 Hlt Y; cbn [srem_members].
  { exists o. subst Y. cbn [list_to_set]. rewrite difference_empty_L, bool_decide_false by done. split; [do 3 f_equal; lia|done]. }
  assert (Y = (X ∖ {[m]}) ∖ list_to_set members) as HY by (subst Y; set_solver). clearbody Y. subst Y. unfold asize in *. cbn [length] in Hlt.
  destruct (setTypeRemoveAux_ok junk dt can _ set_max_listpack_entries set_max_listpack_value Hcfg o X (ValStr m) Ho) as (o1 & Hrem & Ho1 & _); [done|lia|].
  unfold setTypeRemove. rewrite Hrem. bind_simpl. cbn [value_string] in Ho1.
  destruct (decide (m ∈ X)) as [Hin|Hin]; [rewrite bool_decide_true by done|rewrite bool_decide_false by done].
  - destruct (size_inv dt o1 _ Ho1) as (o2 & -> & Ho2). bind_simpl. rewrite swrap_small by range_lia.
    assert (Z.of_nat (size (X ∖ {[m]})) = Z.of_nat (size X) - 1) as Hsz.
    { rewrite size_difference, size_singleton by set_solver. assert (size X ≠ 0)%nat; [|lia]. by intros ?%size_empty_inv%leibniz_equiv. }
    destruct (decide (X ∖ {[m]} = ∅)) as [He|He].
    + rewrite He in *. rewrite size_empty in *. replace (∅ ∖ list_to_set members) with (∅ : gset bytes) by set_solver. rewrite decide_True by done.
      rewrite bool_decide_true, size_empty by done. exists o2. split; [do 3 f_equal; lia|done].
    + rewrite decide_False. 2: { intros Hz. apply He, leibniz_equiv, size_empty_inv. lia. }
      destruct (IH o2 (X ∖ {[m]}) (deleted + 1) Ho2 He) as (o' & -> & Ho'); [lia..|]. exists o'. split; [do 3 f_equal; lia|done].
  - replace (X ∖ {[m]}) with X in * by set_solver. apply IH; [done..|lia].
Qed.

Lemma smismember_ok o X members :
  set_inv dt o X → Forall (λ m, zlen m < 2 ^ 63) members →
  ∃ o', smismember_members dt can o members = Some (o', (λ m, reply_bool (bool_decide (m ∈ X))) <$> members) ∧ set_inv dt o' X.
Proof.
  intros Ho Hm. revert o Ho. induction Hm as [|m members Hm Hms IH]; intros o Ho; cbn [smismember_members]; [by exists o|]. unfold setTypeIsMember.
  destruct (setTypeIsMemberAux_ok dt can o X (ValStr m) Ho Hm) as (o1 & -> & Ho1 & _). bind_simpl.
  destruct (IH o1 Ho1) as (o' & -> & Ho'). bind_simpl. by exists o'.
Qed.

(** ** What a lookup finds *)

Lemma key_cases db A k :
  db_repr db A →
  (db !! k = None ∧ A !! k = None ∧ set_of A k = ∅) ∨ (db !! k = Some DbOther ∧ A !! k = Some None) ∨
  (∃ o X, db !! k = Some (DbSet o) ∧ A !! k = Some (Some X) ∧ set_of A k = X ∧ set_inv dt o X).
Proof.
  intros Hdb. specialize (Hdb k). unfold set_of. inversion Hdb as [v x Hv Hk HA|Hk HA]; [|by left]. right.
  destruct v as [o|], x as [X|]; try done; [right; by exists o, X|by left].
Qed.

Lemma any_wrong_one A k : any_wrong A [k] ↔ A !! k = Some None.
Proof. unfold any_wrong. rewrite Exists_cons, Exists_nil. tauto. Qed.

(** The result of one command. *)
Definition refines A (c : set_cmd) (res : option (redisDb * set_reply * Z)) : Prop :=
  ∃ db' r, res = Some (db', r, (aexec A c).2) ∧ db_repr db' (aexec A c).1.1 ∧ reply_matches r (aexec A c).1.2.

Lemma stored_same A k X : A !! k = Some (Some X) → X ≠ ∅ → stored A k X = A.
Proof. intros HA HX. unfold stored. rewrite decide_False by done. by rewrite insert_id. Qed.

Lemma stored_absent A k : A !! k = None → stored A k ∅ = A.
Proof. intros HA. unfold stored. rewrite decide_True by done. by apply delete_id. Qed.

Lemma db_repr_same db A k o X : db_repr db A → A !! k = Some (Some X) → set_inv dt o X → db_repr (<[k := DbSet o]> db) A.
Proof. intros Hdb HA Ho. rewrite <- (insert_id A k (Some X)) by done. by apply db_repr_insert. Qed.

Lemma refines_intro A c res A' ra d db' r :
  aexec A c = (A', ra, d) → res = Some (db', r, d) → db_repr db' A' → reply_matches r ra → refines A c res.
Proof. intros Ha -> Hdb Hr. exists db', r. by rewrite Ha. Qed.

(** ** Commands on one key *)

(** The members are added to the set that was found or created. *)
Lemma sadd_finish db A key members o :
  db_repr db A → members_ok members → asize (list_to_set members ∪ set_of A key) < 2 ^ 31 → A !! key ≠ Some None → set_inv dt o (set_of A key) →
  refines A (SADD key members)
    ('(set, added) ← sadd_members junk dt can table_addr set_max_intset_entries set_max_listpack_entries set_max_listpack_value o members 0;
     Some (<[key := DbSet set]> db, ReplyInt added, added)).
Proof.
  intros Hdb (Hne & Hlen & Hms) Hsize HA Ho. destruct (sadd_members_ok o _ members 0 Ho Hms) as (o' & -> & Ho'); [lia..|]. bind_simpl.
  eapply refines_intro; [cbn [aexec]; by rewrite decide_False by by rewrite any_wrong_one|reflexivity|by apply db_repr_insert|simpl; lia].
Qed.

Lemma sadd_refines db A key members :
  db_repr db A → members_ok members → (A !! key ≠ Some None → asize (list_to_set members ∪ set_of A key) < 2 ^ 31) →
  refines A (SADD key members) (exec db (SADD key members)).
Proof.
  intros Hdb Hok Hsize. pose proof Hok as (Hne & Hlen & _). cbn [set_exec]. unfold saddCommand.
  destruct (key_cases db A key Hdb) as [(-> & HA & HX)|[(-> & HA)|(o & X & -> & HA & HX & Ho)]].
  - destruct members as [|m members]; [done|]. cbn [head]. bind_simpl.
    destruct (setTypeCreate_ok junk dt set_max_intset_entries set_max_listpack_entries m (zlen (m :: members))) as (o & -> & Ho); [range_lia|]. bind_simpl.
    apply sadd_finish; [done..|apply Hsize; congruence|by rewrite HA|by rewrite HX].
  - eapply refines_intro; [cbn [aexec]; by rewrite decide_True by by apply any_wrong_one|done..].
  - assert (size X ≤ size (list_to_set members ∪ set_of A key))%nat by (apply subseteq_size; set_solver). specialize (Hsize ltac:(congruence)). unfold asize in Hsize.
    destruct (setTypeMaybeConvert_ok junk dt can table_addr set_max_intset_entries set_max_listpack_entries o X (zlen members) Ho) as (o' & -> & Ho'); [range_lia|lia|].
    bind_simpl. apply sadd_finish; [done..|by rewrite HA|by rewrite HX].
Qed.

Lemma srem_refines db A key members :
  db_repr db A → no_empty A → members_ok members → asize (set_of A key) < 2 ^ 31 → refines A (SREM key members) (exec db (SREM key members)).
Proof.
  intros Hdb Hemp (Hne & Hlen & Hms) Hsize. cbn [set_exec]. unfold sremCommand.
  destruct (key_cases db A key Hdb) as [(-> & HA & HX)|[(-> & HA)|(o & X & -> & HA & HX & Ho)]].
  - assert (∅ ∖ list_to_set members = (∅ : gset bytes)) as He by set_solver.
    eapply refines_intro; [cbn [aexec]; rewrite decide_False by (rewrite any_wrong_one; congruence); rewrite HX, He; reflexivity|..].
    + by rewrite Z.sub_diag.
    + by rewrite stored_absent.
    + simpl. lia.
  - eapply refines_intro; [cbn [aexec]; by rewrite decide_True by by apply any_wrong_one|done..].
  - rewrite HX in Hsize. assert (X ≠ ∅) as Hne0 by (intros ->; by apply (Hemp key (Some ∅))).
    destruct (srem_members_ok o X members 0 Ho Hne0 Hms Hsize) as (o' & -> & Ho'); [lia..|]. bind_simpl. rewrite Z.add_0_l.
    eapply refines_intro; [cbn [aexec]; rewrite decide_False by (rewrite any_wrong_one; congruence); rewrite HX; reflexivity|reflexivity| |done].
    unfold stored. destruct (decide (X ∖ list_to_set members = ∅)) as [He|He]; [rewrite bool_decide_true by done|rewrite bool_decide_false by done].
    + by apply db_repr_delete.
    + by apply db_repr_insert.
Qed.

(** A command that only reads one set. *)
Lemma read_refines {R : Type} db A key c (f : set_object → option (set_object * R)) r0 ra (reply : R → set_reply) (v : R) :
  db_repr db A → aexec A c = aread A [key] ra → (set_of A key = ∅ → reply_matches r0 ra) →
  (∀ o, set_inv dt o (set_of A key) → ∃ o', f o = Some (o', v) ∧ set_inv dt o' (set_of A key)) → reply_matches (reply v) ra →
  refines A c (match db !! key with
               | None => Some (db, r0, 0)
               | Some DbOther => Some (db, WrongType, 0)
               | Some (DbSet _) => '(db, v) ← on_set db key f; Some (db, reply v, 0)
               end).
Proof.
  intros Hdb Hc H0 Hf Hr. unfold aread in Hc.
  destruct (key_cases db A key Hdb) as [(-> & HN & HX)|[(-> & HN)|(o & X & -> & HX & _ & _)]].
  - rewrite decide_False in Hc by (rewrite any_wrong_one; congruence). eapply refines_intro; [done..|by apply H0].
  - rewrite decide_True in Hc by by apply any_wrong_one. by eapply refines_intro.
  - rewrite decide_False in Hc by (rewrite any_wrong_one; congruence).
    destruct (on_set_ok dt db A key f v Hdb) as (db' & -> & Hdb' & _); [by exists X|done|]. bind_simpl. by eapply refines_intro.
Qed.

Lemma sismember_refines db A key ele :
  db_repr db A → zlen ele < 2 ^ 63 → refines A (SISMEMBER key ele) (exec db (SISMEMBER key ele)).
Proof.
  intros Hdb Hele. eapply (read_refines db A key _ (λ set, setTypeIsMember dt can set ele) _ _ (λ b, ReplyInt (reply_bool b))
    (bool_decide (ele ∈ set_of A key))); [done|reflexivity| | |done].
  - intros HX. simpl. by rewrite HX, bool_decide_false.
  - intros o Ho. destruct (setTypeIsMemberAux_ok dt can o _ (ValStr ele) Ho Hele) as (o' & ? & ? & _). by exists o'.
Qed.

Lemma smismember_refines db A key members :
  db_repr db A → members_ok members → refines A (SMISMEMBER key members) (exec db (SMISMEMBER key members)).
Proof.
  intros Hdb (_ & _ & Hms). eapply (read_refines db A key _ (λ set, smismember_members dt can set members) _ _ ReplyArray
    ((λ m, reply_bool (bool_decide (m ∈ set_of A key))) <$> members)); [done|reflexivity| | |done].
  - intros HX. simpl. apply list_fmap_ext. intros ? m _. by rewrite HX, bool_decide_false.
  - intros o Ho. by apply smismember_ok.
Qed.

Lemma scard_refines db A key : db_repr db A → refines A (SCARD key) (exec db (SCARD key)).
Proof.
  intros Hdb. eapply (read_refines db A key _ setTypeSize _ _ ReplyInt (asize (set_of A key))); [done|reflexivity| | |done].
  - intros HX. simpl. by rewrite HX.
  - intros o Ho. by apply size_inv.
Qed.

Lemma any_wrong_two A k k' : any_wrong A [k; k'] ↔ A !! k = Some None ∨ A !! k' = Some None.
Proof. unfold any_wrong. rewrite !Exists_cons, Exists_nil. tauto. Qed.

(** What the destination is, found or not. *)
Definition dst_inv A dst (dstset : option set_object) : Prop :=
  match dstset with Some o => set_inv dt o (set_of A dst) | None => set_of A dst = ∅ end.

Lemma smove_sets_ok db A src dst ele X o dstset :
  db_repr db A → A !! src = Some (Some X) → A !! dst ≠ Some None → zlen ele < 2 ^ 63 → space_small A →
  set_inv dt o X → dst_inv A dst dstset →
  refines A (SMOVE src dst ele)
    (smove_sets junk dt can table_addr set_max_intset_entries set_max_listpack_entries set_max_listpack_value db src dst ele o dstset).
Proof.
  intros Hdb HX Hdst Hele Hsmall Ho Hd. assert (set_of A src = X) as HsX by (unfold set_of; by rewrite HX). unfold smove_sets.
  assert (aexec A (SMOVE src dst ele) = if decide (ele ∉ X) then (A, AInt 0, 0) else if decide (src = dst) then (A, AInt 1, 0)
    else (<[dst := Some ({[ele]} ∪ set_of A dst)]> (stored A src (X ∖ {[ele]})), AInt 1, if decide (ele ∈ set_of A dst) then 1 else 2)) as Ha.
  { cbn [aexec]. rewrite decide_False by congruence. rewrite decide_False by (rewrite any_wrong_two; naive_solver congruence). by rewrite HsX. }
  destruct (decide (src = dst)) as [Heq|Hne].
  { unfold setTypeIsMember. destruct (setTypeIsMemberAux_ok dt can o X (ValStr ele) Ho Hele) as (o' & -> & Ho' & _). bind_simpl. cbn [value_string].
    assert (aexec A (SMOVE src dst ele) = (A, AInt (reply_bool (bool_decide (ele ∈ X))), 0)) as Ha'.
    { rewrite Ha. destruct (decide (ele ∈ X)); [by rewrite decide_False, bool_decide_true by naive_solver|by rewrite decide_True, bool_decide_false]. }
    eapply refines_intro; [exact Ha'|done|by eapply db_repr_same|done]. }
  unfold setTypeRemove. pose proof (space_small_set A src Hsmall) as Hs. rewrite HsX in Hs. unfold asize in Hs.
  destruct (setTypeRemoveAux_ok junk dt can _ set_max_listpack_entries set_max_listpack_value Hcfg o X (ValStr ele) Ho) as (o1 & -> & Ho1 & _); [done|lia|].
  bind_simpl. cbn [value_string] in *. destruct (decide (ele ∉ X)) as [Hn|Hin].
  { rewrite bool_decide_false by done. eapply refines_intro; [exact Ha|done| |done]. replace (X ∖ {[ele]}) with X in Ho1 by set_solver. by eapply db_repr_same. }
  apply dec_stable in Hin. rewrite bool_decide_true by done. cbn [negb]. destruct (size_inv dt o1 _ Ho1) as (o2 & -> & Ho2). bind_simpl.
  assert (∃ d, (match dstset with Some dstset => Some dstset | None => setTypeCreate junk set_max_intset_entries set_max_listpack_entries ele 1 end) = Some d ∧
    set_inv dt d (set_of A dst)) as (d & -> & Hd').
  { destruct dstset as [d|]; [by exists d|]. simpl in Hd. rewrite Hd. by apply setTypeCreate_ok; [|range_lia]. }
  bind_simpl. unfold setTypeAdd. apply (space_small_set A dst) in Hsmall. unfold asize in Hsmall.
  destruct (setTypeAddAux_ok junk dt can table_addr _ set_max_listpack_entries set_max_listpack_value Hcfg d _ (ValStr ele) Hd') as (o3 & -> & Ho3 & _); [done|lia|].
  bind_simpl. cbn [value_string] in *.
  assert ((if bool_decide (ele ∉ set_of A dst) then 2 else 1) = if decide (ele ∈ set_of A dst) then 1 else 2) as ->.
  { destruct (decide (ele ∈ set_of A dst)); [by rewrite bool_decide_false by naive_solver|by rewrite bool_decide_true]. }
  eapply refines_intro; [exact Ha|reflexivity| |done].
  apply db_repr_insert; [|done]. unfold stored. destruct (decide (X ∖ {[ele]} = ∅)) as [He|He].
  - rewrite He, size_empty. by apply db_repr_delete.
  - rewrite decide_False by (intros Hz; apply He, leibniz_equiv, size_empty_inv; lia). by apply db_repr_insert.
Qed.

Lemma smove_refines db A src dst ele :
  db_repr db A → zlen ele < 2 ^ 63 → space_small A → refines A (SMOVE src dst ele) (exec db (SMOVE src dst ele)).
Proof.
  intros Hdb Hele Hsmall. cbn [set_exec]. unfold smoveCommand.
  destruct (key_cases db A src Hdb) as [(-> & HA & HX)|[(-> & HA)|(o & X & -> & HA & HX & Ho)]].
  - eapply refines_intro; [cbn [aexec]; by rewrite decide_True|done..].
  - eapply refines_intro; [cbn [aexec]; rewrite decide_False by congruence; by rewrite decide_True by (apply any_wrong_two; by left)|by destruct (db !! dst) as [[|]|]|done..].
  - destruct (key_cases db A dst Hdb) as [(-> & Hd & HdX)|[(-> & Hd)|(d & Y & -> & Hd & HdX & Hod)]].
    + eapply smove_sets_ok; try done. congruence.
    + eapply refines_intro; [cbn [aexec]; rewrite decide_False by congruence; by rewrite decide_True by (apply any_wrong_two; by right)|done..].
    + eapply smove_sets_ok; try done; [congruence|]. simpl. by rewrite HdX.
Qed.

(** ** Commands on several keys *)

Lemma not_wrong A keys : ¬ any_wrong A keys → Forall (λ k, A !! k ≠ Some None) keys.
Proof. intros Hw. apply Forall_forall. intros k Hk HA. apply Hw. apply Exists_exists. by exists k. Qed.

Lemma space_sets_small A : space_small A → sets_small A.
Proof. intros Hs k. apply (space_small_set A k) in Hs. unfold asize in Hs. lia. Qed.

Lemma sinter_read_refines db A keys c (card : bool) limit ra :
  db_repr db A → space_small A → keys ≠ [] → 0 ≤ limit → aexec A c = aread A keys ra →
  ra = (if card then AInt (if decide (limit = 0) then asize (inter_of A keys) else Z.min limit (asize (inter_of A keys))) else ASet (inter_of A keys)) →
  refines A c (sinterGenericCommand junk dt can table_addr set_max_intset_entries set_max_listpack_entries set_max_listpack_value qsort
    db keys None card limit).
Proof.
  intros Hdb Hsmall Hne Hlim Hc ->. unfold aread in Hc. case_decide as Hw.
  { by eapply refines_intro; [exact Hc|by eapply sinter_wrong_type|..]. }
  destruct (sinter_ok junk dt can table_addr _ set_max_listpack_entries set_max_listpack_value Hcfg qsort db A keys (inter_of A keys) None card limit)
    as (db' & r & dirty & -> & Hr); [done|by apply space_sets_small|done..|by apply not_wrong|intros x; by apply inter_of_spec|].
  unfold sinter_result in Hr. destruct card; destruct Hr as (Hdb' & -> & Hr).
  - subst r. by eapply refines_intro.
  - destruct Hr as (l & -> & Hl). by eapply refines_intro.
Qed.

Lemma sinterstore_refines db A dst keys :
  db_repr db A → space_small A → keys ≠ [] → refines A (SINTERSTORE dst keys) (exec db (SINTERSTORE dst keys)).
Proof.
  intros Hdb Hsmall Hne. cbn [set_exec]. destruct (decide (any_wrong A keys)) as [Hw|Hw].
  { eapply refines_intro; [cbn [aexec]; unfold astore; by rewrite decide_True|by eapply sinter_wrong_type|done..]. }
  destruct (sinter_ok junk dt can table_addr _ set_max_listpack_entries set_max_listpack_value Hcfg qsort db A keys (inter_of A keys) (Some dst) false 0)
    as (db' & r & dirty & -> & Hdb' & -> & ->); [done|by apply space_sets_small|done..|by apply not_wrong|intros x; by apply inter_of_spec|].
  eapply refines_intro; [cbn [aexec]; unfold astore; by rewrite decide_False|done..].
Qed.

Lemma sop_small_space A op keys : space_small A → asize (sop_result A op keys) < 2 ^ 31 → sop_small A op keys.
Proof.
  intros Hs Hr. unfold sop_small, asize in *. destruct op; [lia|]. split; [by apply space_sets_small|]. intros k _. apply (space_small_set A k) in Hs. unfold asize in Hs. lia.
Qed.

Lemma sop_read_refines db A keys c op :
  db_repr db A → space_small A → keys ≠ [] → (¬ any_wrong A keys → asize (sop_result A op keys) < 2 ^ 31) → aexec A c = aread A keys (ASet (sop_result A op keys)) →
  refines A c (sunionDiffGenericCommand junk dt can table_addr set_max_intset_entries set_max_listpack_entries set_max_listpack_value qsort
    db keys None op).
Proof.
  intros Hdb Hsmall Hne Hr Hc. unfold aread in Hc. case_decide as Hw.
  { by eapply refines_intro; [exact Hc|by eapply sunion_wrong_type|..]. }
  destruct (sunion_sdiff_ok junk dt can table_addr _ set_max_listpack_entries set_max_listpack_value Hcfg qsort A op keys None db)
    as (db' & r & dirty & -> & Hdb' & -> & l & -> & Hl); [done..|by apply not_wrong|by apply sop_small_space; [|apply Hr]|]. specialize (Hr Hw).
  eapply refines_intro; [done..|]. split; [|done]. unfold asize in *. by rewrite swrap_small by range_lia.
Qed.

Lemma sop_store_refines db A keys c op dst :
  db_repr db A → space_small A → keys ≠ [] → (¬ any_wrong A keys → asize (sop_result A op keys) < 2 ^ 31) → aexec A c = astore A keys dst (sop_result A op keys) →
  refines A c (sunionDiffGenericCommand junk dt can table_addr set_max_intset_entries set_max_listpack_entries set_max_listpack_value qsort
    db keys (Some dst) op).
Proof.
  intros Hdb Hsmall Hne Hr Hc. unfold astore in Hc. case_decide as Hw.
  { by eapply refines_intro; [exact Hc|by eapply sunion_wrong_type|..]. }
  destruct (sunion_sdiff_ok junk dt can table_addr _ set_max_listpack_entries set_max_listpack_value Hcfg qsort A op keys (Some dst) db)
    as (db' & r & dirty & -> & Hdb' & -> & ->); [done..|by apply not_wrong|by apply sop_small_space; [|apply Hr]|]. specialize (Hr Hw).
  by eapply refines_intro.
Qed.

(** ** Every command *)

Lemma exec_ok db A c :
  db_repr db A → no_empty A → space_small A → cmd_fits A c → refines A c (exec db c).
Proof.
  intros Hdb Hemp Hsmall (Hok & Hres & Hrep). destruct c; cbn [cmd_ok aexec] in *.
  - apply sadd_refines; [done..|]. intros Hk. rewrite decide_False in Hres by by rewrite any_wrong_one. cbn [fst] in Hres. apply (space_small_set _ key) in Hres.
    by rewrite set_of_insert in Hres.
  - apply srem_refines; [done..|]. by apply space_small_set.
  - destruct Hok as (_ & _ & He). inversion_clear He. by apply smove_refines.
  - destruct Hok as (_ & _ & He). inversion_clear He. by apply sismember_refines.
  - by apply smismember_refines.
  - by apply scard_refines.
  - by eapply sinter_read_refines.
  - destruct Hok. by eapply sinter_read_refines.
  - by apply sinterstore_refines.
  - eapply sop_read_refines; [done..| |reflexivity]. intros Hw. unfold aread in Hrep. by rewrite decide_False in Hrep.
  - eapply sop_store_refines; [done..| |reflexivity]. intros Hw. unfold astore in Hres. rewrite decide_False in Hres by done.
    cbn [fst] in Hres. apply (space_small_set _ dst) in Hres. by rewrite set_of_stored in Hres.
  - eapply sop_read_refines; [done..| |reflexivity]. intros Hw. unfold aread in Hrep. by rewrite decide_False in Hrep.
  - eapply sop_store_refines; [done..| |reflexivity]. intros Hw. unfold astore in Hres. rewrite decide_False in Hres by done.
    cbn [fst] in Hres. apply (space_small_set _ dst) in Hres. by rewrite set_of_stored in Hres.
Qed.

Lemma run_ok db A cs :
  db_repr db A → no_empty A → space_small A → run_fits A cs →
  ∃ db' rs, set_run junk dt can table_addr set_max_intset_entries set_max_listpack_entries set_max_listpack_value qsort db cs = Some (db', rs) ∧
    db_repr db' (arun A cs).1 ∧ no_empty (arun A cs).1 ∧ Forall2 (λ r a, reply_matches r.1 a.1 ∧ r.2 = a.2) rs (arun A cs).2.
Proof.
  revert db A. induction cs as [|c cs IH]; intros db A Hdb Hemp Hsmall Hfits; cbn [set_run arun]; [by exists db, []|]. destruct Hfits as [Hc Hcs].
  destruct (exec_ok db A c Hdb Hemp Hsmall Hc) as (db1 & r & -> & Hdb1 & Hr). bind_simpl. pose proof Hc as (Hok & Hsmall1 & _).
  pose proof (aexec_no_empty A c Hemp Hok) as Hemp1. destruct (aexec A c) as [[A1 ra] d]. cbn [fst snd] in *.
  destruct (IH db1 A1 Hdb1 Hemp1 Hsmall1 Hcs) as (db2 & rs & -> & Hdb2 & Hemp2 & Hrs). bind_simpl. destruct (arun A1 cs) as [A2 ras]. cbn [fst snd] in *.
  eexists _, _. split; [done|]. split_and!; [done..|]. by constructor.
Qed.

End keys.
