(* ===== verification/TsetRefine.v ===== *)
(** * t_set.c: the theorems on set objects and on the commands *)

From S2P Require Import Prelude Intset Dict DictInv DictOps DictLife Util Listpack ListpackEnc ListpackOps ListpackMod ListpackBulk.
From S2P Require Import Tset TsetInv TsetConv TsetOps TsetCmd TsetAlg TsetDiff TsetKeys.

Local Open Scope Z_scope.

(** ** Histories of one object *)

Inductive obj_op := OpAdd (s : bytes) | OpRemove (s : bytes) | OpIsMember (s : bytes) | OpSize.

(** What the operation does to the set. *)
Definition obj_effect (X : gset bytes) (op : obj_op) : gset bytes :=
  match op with OpAdd s => {[s]} ∪ X | OpRemove s => X ∖ {[s]} | OpIsMember _ | OpSize => X end.

Definition obj_arg (op : obj_op) : bytes := match op with OpAdd s | OpRemove s | OpIsMember s => s | OpSize => [] end.

Section history.
Context (junk : nat → Z) (dt : dictType bytes) (can : dictResizeEnable) (table_addr : bool → Z).
Context (set_max_intset_entries set_max_listpack_entries set_max_listpack_value : Z).

Definition obj_step (o : set_object) (op : obj_op) : option set_object :=
  match op with
  | OpAdd s => fst <$> setTypeAdd junk dt can table_addr set_max_intset_entries set_max_listpack_entries set_max_listpack_value o s
  | OpRemove s => fst <$> setTypeRemove junk dt can o s
  | OpIsMember s => fst <$> setTypeIsMember dt can o s
  | OpSize => fst <$> setTypeSize o
  end.

Fixpoint obj_run (o : set_object) (ops : list obj_op) : option set_object :=
  match ops with [] => Some o | op :: ops => o ← obj_step o op; obj_run o ops end.

End history.

Section theorems.
Context (junk : nat → Z) (dt : dictType bytes) `{!SetDictType dt} (can : dictResizeEnable) (table_addr : bool → Z).
Context (set_max_intset_entries set_max_listpack_entries set_max_listpack_value : Z).
Implicit Types (o : set_object) (X : gset bytes) (db : redisDb) (A : aspace).

Local Abbreviation limits := (set_limits set_max_intset_entries set_max_listpack_entries set_max_listpack_value).

Lemma limits_encoding o o' X : encoding o' = encoding o → limits o X → limits o' X.
Proof. by destruct o, o'. Qed.

Lemma obj_step_ok o X op :
  0 ≤ set_max_intset_entries < INTSET_LIMIT → set_inv dt o X → limits o X → Z.of_nat (size X) < 2 ^ 60 → zlen (obj_arg op) < 2 ^ 63 →
  ∃ o', obj_step junk dt can table_addr set_max_intset_entries set_max_listpack_entries set_max_listpack_value o op = Some o' ∧
    set_inv dt o' (obj_effect X op) ∧ limits o' (obj_effect X op).
Proof.
  intros Hcfg Ho Hlim Hsize Harg. destruct op as [s|s|s|]; simpl in Harg; cbn [obj_step obj_effect]; unfold setTypeAdd, setTypeRemove, setTypeIsMember.
  - destruct (setTypeAddAux_ok junk dt can table_addr _ set_max_listpack_entries set_max_listpack_value Hcfg o X (ValStr s) Ho Harg Hsize) as (o' & -> & Ho' & Hl).
    exists o'. split_and!; [done..|by apply Hl].
  - destruct (setTypeRemoveAux_ok junk dt can _ set_max_listpack_entries set_max_listpack_value Hcfg o X (ValStr s) Ho Harg Hsize) as (o' & -> & Ho' & Hl).
    exists o'. split_and!; [done..|by apply Hl].
  - destruct (setTypeIsMemberAux_ok dt can o X (ValStr s) Ho Harg) as (o' & -> & Ho' & He). exists o'. split_and!; [done..|by eapply limits_encoding].
  - pose proof (size_inv dt o X Ho) as (o' & Hs & Ho'). destruct (setTypeSize_ok dt o X) as (o'' & Hs' & _ & He); [apply Ho|]. rewrite Hs in *.
    injection Hs' as <-. exists o'. split_and!; [done..|by eapply limits_encoding].
Qed.

Lemma obj_size X op : (size (obj_effect X op) ≤ S (size X))%nat.
Proof.
  assert (∀ s, size (X ∖ {[s]}) ≤ size X)%nat as Hle by (intros s; apply subseteq_size; set_solver).
  destruct op as [s|s| |]; cbn [obj_effect]; [|pose proof (Hle s); lia|lia..]. pose proof (Hle s). rewrite size_union_alt, size_singleton. lia.
Qed.

Lemma obj_run_ok ops o X :
  0 ≤ set_max_intset_entries < INTSET_LIMIT → set_inv dt o X → limits o X → Z.of_nat (size X) + zlen ops ≤ 2 ^ 60 →
  Forall (λ op, zlen (obj_arg op) < 2 ^ 63) ops →
  ∃ o', obj_run junk dt can table_addr set_max_intset_entries set_max_listpack_entries set_max_listpack_value o ops = Some o' ∧
    set_inv dt o' (foldl obj_effect X ops) ∧ limits o' (foldl obj_effect X ops).
Proof.
  intros Hcfg Ho Hlim Hsize Hargs. revert o X Ho Hlim Hsize. induction Hargs as [|op ops Harg Hargs IH]; intros o X Ho Hlim Hsize; cbn [obj_run foldl]; [by exists o|].
  cbn [length] in Hsize. destruct (obj_step_ok o X op Hcfg Ho Hlim) as (o1 & -> & Ho1 & Hlim1); [lia|done|]. bind_simpl.
  apply IH; [done..|]. pose proof (obj_size X op). lia.
Qed.

Lemma create_limits value hint o :
  0 ≤ set_max_intset_entries → 0 ≤ set_max_listpack_entries →
  setTypeCreate junk set_max_intset_entries set_max_listpack_entries value hint = Some o → limits o ∅.
Proof.
  intros H1 H2. unfold setTypeCreate. destruct (_ && _); [by intros [= <-]|]. case_decide.
  - destruct (lpNew junk 0); [|done]. bind_simpl. intros [= <-]. done.
  - destruct (dictExpand dictCreate hint) as [[d ?]|]; [|done]. bind_simpl. by intros [= <-].
Qed.

(** C21. Adding a value - a string, or an integer for its decimal digits - to a set object in any of the three
    encodings gives an object for the set with the member, and tells whether it was new.  The object is
    converted when it has to be: an intset or a listpack that grew past the configured limits does not stay one. *)
Theorem setTypeAddAux_refines o X v :
  0 ≤ set_max_intset_entries < INTSET_LIMIT → set_inv dt o X → value_ok v → Z.of_nat (size X) < 2 ^ 60 →
  ∃ o', setTypeAddAux junk dt can table_addr set_max_intset_entries set_max_listpack_entries set_max_listpack_value o v =
      Some (o', bool_decide (value_string v ∉ X)) ∧
    set_inv dt o' ({[value_string v]} ∪ X) ∧ (limits o X → limits o' ({[value_string v]} ∪ X)).
Proof. intros Hcfg Ho Hv Hsize. by apply setTypeAddAux_ok. Qed.

(** Removing a value gives an object for the set without it and tells whether it was there; asking for
    a member, or for the size, gives the right answer and an object for the same set in the same encoding. *)
Theorem set_remove_member_refine o X v :
  0 ≤ set_max_intset_entries < INTSET_LIMIT → set_inv dt o X → value_ok v → Z.of_nat (size X) < 2 ^ 60 →
  (∃ o', setTypeRemoveAux junk dt can o v = Some (o', bool_decide (value_string v ∈ X)) ∧ set_inv dt o' (X ∖ {[value_string v]})) ∧
  (∃ o', setTypeIsMemberAux dt can o v = Some (o', bool_decide (value_string v ∈ X)) ∧ set_inv dt o' X ∧ encoding o' = encoding o) ∧
  (∃ o', setTypeSize o = Some (o', Z.of_nat (size X)) ∧ set_repr dt o' X ∧ encoding o' = encoding o).
Proof.
  intros Hcfg Ho Hv Hsize. split_and!.
  - destruct (setTypeRemoveAux_ok junk dt can _ set_max_listpack_entries set_max_listpack_value Hcfg o X v Ho Hv Hsize) as (o' & -> & Ho' & _). by exists o'.
  - by apply setTypeIsMemberAux_ok.
  - apply setTypeSize_ok; [done|apply Ho].
Qed.

(** C22. A set object that was created by [setTypeCreate] stands for the set that its history of additions and
    removals gives, and respects the configured limits of its encoding at all times. *)
Theorem set_object_invariant value hint ops :
  0 ≤ set_max_intset_entries < INTSET_LIMIT → 0 ≤ set_max_listpack_entries → hint < LLONG_MAX → zlen ops ≤ 2 ^ 60 →
  Forall (λ op, zlen (obj_arg op) < 2 ^ 63) ops →
  ∃ o o', setTypeCreate junk set_max_intset_entries set_max_listpack_entries value hint = Some o ∧
    obj_run junk dt can table_addr set_max_intset_entries set_max_listpack_entries set_max_listpack_value o ops = Some o' ∧
    set_inv dt o' (foldl obj_effect ∅ ops) ∧ limits o' (foldl obj_effect ∅ ops).
Proof.
  intros Hcfg Hlp Hhint Hlen Hargs.
  destruct (setTypeCreate_ok junk dt set_max_intset_entries set_max_listpack_entries value hint Hhint) as (o & Hcr & Ho).
  destruct (obj_run_ok ops o ∅ Hcfg Ho) as (o' & Hrun & Ho' & Hlim); [|by rewrite size_empty|done|by exists o, o'].
  eapply create_limits; [|done..]. lia.
Qed.


End theorems.

Section command_theorems.
Context (junk : nat → Z) (dt : dictType bytes) `{!SetDictType dt} (can : dictResizeEnable) (table_addr : bool → Z).
Context (set_max_intset_entries set_max_listpack_entries set_max_listpack_value : Z).
Context (qsort : qsort_fn) `{!QsortOk qsort}.
Implicit Types (o : set_object) (X : gset bytes) (db : redisDb) (A : aspace).

(** C18. SINTER, SINTERCARD and SINTERSTORE compute the intersection of the sets, whatever their encodings and
    in whatever order [qsort] leaves them: as elements (each once, with the right length), as a number that
    LIMIT bounds, or under a key that is removed when the result is empty.  A key that holds something
    else makes the command fail before anything is changed. *)
Theorem sinter_correct db A keys dstkey (card : bool) limit :
  0 ≤ set_max_intset_entries < INTSET_LIMIT → db_repr dt db A → sets_small A → keys ≠ [] → 0 ≤ limit → (card = true → dstkey = None) →
  ∃ db' reply dirty, sinterGenericCommand junk dt can table_addr set_max_intset_entries set_max_listpack_entries set_max_listpack_value qsort
      db keys dstkey card limit = Some (db', reply, dirty) ∧
    if decide (any_wrong A keys) then db' = db ∧ reply = WrongType ∧ dirty = 0
    else sinter_result dt A dstkey card limit (inter_of A keys) db' reply dirty.
Proof.
  intros Hcfg Hdb Hsmall Hne Hlim Hcard. case_decide as Hw.
  - exists db, WrongType, 0. split; [|done]. by eapply sinter_wrong_type.
  - apply sinter_ok; [done..|by apply not_wrong|]. intros x. by apply inter_of_spec.
Qed.

(** C19. SUNION, SDIFF and their STORE variants compute the union of the sets, and the difference of the first
    set and the others, by whichever algorithm the estimate of the work selects; the length of the reply is
    the number of elements as an [int]. *)
Theorem sunion_sdiff_correct db A keys dstkey op :
  0 ≤ set_max_intset_entries < INTSET_LIMIT → db_repr dt db A → keys ≠ [] → sop_small A op keys →
  ∃ db' reply dirty, sunionDiffGenericCommand junk dt can table_addr set_max_intset_entries set_max_listpack_entries set_max_listpack_value qsort
      db keys dstkey op = Some (db', reply, dirty) ∧
    if decide (any_wrong A keys) then db' = db ∧ reply = WrongType ∧ dirty = 0
    else sop_done dt A dstkey (sop_result A op keys) db' reply dirty.
Proof.
  intros Hcfg Hdb Hne Hsmall. case_decide as Hw.
  - exists db, WrongType, 0. split; [|done]. by eapply sunion_wrong_type.
  - apply sunion_sdiff_ok; [done..|by apply not_wrong|done].
Qed.

(** C20. The two algorithms for the difference agree: the one that tests each element of the first set against the
    others, and the one that copies the first set and removes the elements of the others from it, both
    end with the same set and the same count. *)
Theorem sdiff_algorithms_agree db A first sets :
  0 ≤ set_max_intset_entries < INTSET_LIMIT → db_repr dt db A → sets_small A → Z.of_nat (size (set_of A first)) < 2 ^ 32 →
  is_set A first → Forall (ptr_ok A) sets →
  let st := mk_sdiff db (SetIntset intsetNew) 0 in
  ∃ st1 st2 X,
    sdiff_algo_one junk dt can table_addr set_max_intset_entries set_max_listpack_entries set_max_listpack_value first sets st = Some st1 ∧
    sdiff_algo_two junk dt can table_addr set_max_intset_entries set_max_listpack_entries set_max_listpack_value first sets st = Some st2 ∧
    set_inv dt (sd_dstset st1) X ∧ set_inv dt (sd_dstset st2) X ∧ sd_cardinality st1 = sd_cardinality st2 ∧
    ∀ x, x ∈ X ↔ x ∈ set_of A first ∧ Forall (λ p, x ∉ ptr_set A p) sets.
Proof.
  intros Hcfg Hdb Hsmall Hsize Hfirst Hok st. assert (collected dt A st ∅) as Hst by (split_and!; [done|by apply intset_new_ok|done]).
  destruct (sdiff_algo_one_ok junk dt can table_addr _ set_max_listpack_entries set_max_listpack_value Hcfg qsort A first sets st) as (st1 & H1 & _ & Ho1 & Hc1); [done..|].
  destruct (sdiff_algo_two_ok junk dt can table_addr _ set_max_listpack_entries set_max_listpack_value Hcfg qsort A first sets st) as (st2 & H2 & _ & Ho2 & Hc2); [done..|].
  exists st1, st2, (set_of A first ∖ any_of A sets). split_and!; [done..|congruence|]. intros x. rewrite elem_of_difference.
  unfold any_of. rewrite elem_of_union_list, Forall_forall. setoid_rewrite list_elem_of_fmap. naive_solver.
Qed.

(** C7. A sequence of commands on sets - SADD, SREM, SMOVE, SISMEMBER, SMISMEMBER, SCARD, SINTER, SINTERCARD,
    SUNION, SDIFF and the STORE variants - behaves as the same sequence on a map from keys to
    finite sets of strings: every command ends, with the reply and the count of changes of the abstract command, and
    no key is left with an empty set. *)
Theorem set_commands_refine db A cs :
  0 ≤ set_max_intset_entries < INTSET_LIMIT → db_repr dt db A → no_empty A → space_small A → run_fits A cs →
  ∃ db' rs, set_run junk dt can table_addr set_max_intset_entries set_max_listpack_entries set_max_listpack_value qsort db cs = Some (db', rs) ∧
    db_repr dt db' (arun A cs).1 ∧ no_empty (arun A cs).1 ∧ Forall2 (λ r a, reply_matches r.1 a.1 ∧ r.2 = a.2) rs (arun A cs).2.
Proof. intros Hcfg. by apply run_ok. Qed.

End command_theorems.

(** ** Examples *)

(** A hash function that gives most keys different buckets, for keys without values at odd addresses. *)
Definition ex_set_type : dictType bytes :=
  mk_dictType bytes (λ k, u64 (foldl (λ h b, h * 31 + b) 7 k)) (λ a b, bool_decide (a = b)) None true true (λ _, true).

Global Instance ex_set_type_ok : SetDictType ex_set_type.
Proof.
  split; [|done..]. split; [intros a b; apply bool_decide_eq_true|]. intros k. by apply uwrap_range.
Qed.

(** Insertion sort as [qsort]. *)
Fixpoint insert_by {A S : Type} (cmp : A → A → S → option (S * Z)) (a : A) (l : list A) (s : S) : option (S * list A) :=
  match l with
  | [] => Some (s, [a])
  | b :: l => '(s, r) ← cmp a b s; if decide (r <= 0) then Some (s, a :: b :: l) else '(s, l) ← insert_by cmp a l s; Some (s, b :: l)
  end.

Fixpoint sort_by {A S : Type} (cmp : A → A → S → option (S * Z)) (l : list A) (s : S) : option (S * list A) :=
  match l with [] => Some (s, []) | a :: l => '(s, l) ← sort_by cmp l s; insert_by cmp a l s end.

Definition ex_qsort : qsort_fn := @sort_by.

Lemma insert_by_ok {A S : Type} (cmp : A → A → S → option (S * Z)) a l (I : S → Prop) s :
  (∀ b s, b ∈ l → I s → ∃ s' r, cmp a b s = Some (s', r) ∧ I s') → I s →
  ∃ s' l', insert_by cmp a l s = Some (s', l') ∧ I s' ∧ l' ≡ₚ a :: l.
Proof.
  intros Hcmp. revert s. induction l as [|b l IH]; intros s HI; simpl; [by eexists _, _|].
  destruct (Hcmp b s) as (s1 & r & -> & H1); [by left|done|]. bind_simpl. case_decide; [by eexists _, _|].
  destruct (IH ltac:(intros c s0 Hc; apply Hcmp; by right) s1 H1) as (s2 & l2 & -> & H2 & Hp). bind_simpl. eexists _, _. split_and!; [done..|].
  rewrite Hp. constructor.
Qed.

Global Instance ex_qsort_ok : QsortOk ex_qsort.
Proof.
  intros A S cmp l I s Hcmp. unfold ex_qsort. revert s. induction l as [|a l IH]; intros s HI; simpl; [by eexists _, _|].
  destruct (IH ltac:(intros b c s0 Hb Hc; apply Hcmp; by right) s HI) as (s1 & l1 & -> & H1 & Hp). bind_simpl.
  destruct (insert_by_ok cmp a l1 I s1) as (s2 & l2 & -> & H2 & Hp2); [|done|].
  - intros b s0 Hb. apply Hcmp; [by left|]. right. by rewrite <- Hp.
  - eexists _, _. split_and!; [done..|]. by rewrite Hp2, Hp.
Qed.

(** A configuration with small limits. *)
Definition ex_sadd := setTypeAddAux (λ _, 0) ex_set_type DICT_RESIZE_ENABLE (λ _, 0) 4 4 8.

Lemma setTypeAddAux_refines_witness :
  set_inv ex_set_type (SetIntset intsetNew) ∅ ∧
  (∃ o', ex_sadd (SetIntset intsetNew) (ValStr (str "abc")) = Some (o', true) ∧ set_inv ex_set_type o' ({[str "abc"]} ∪ ∅)) ∧
  (∃ o', ex_sadd (SetIntset intsetNew) (ValStr (str "-70000")) = Some (o', true) ∧ set_inv ex_set_type o' ({[str "-70000"]} ∪ ∅) ∧
     encoding o' = OBJ_ENCODING_INTSET).
Proof.
  assert (set_inv ex_set_type (SetIntset intsetNew) ∅) as H0 by exact (intset_new_ok ex_set_type). split; [exact H0|].
  split.
  - destruct (setTypeAddAux_refines (λ _, 0) ex_set_type DICT_RESIZE_ENABLE (λ _, 0) 4 4 8 (SetIntset intsetNew) ∅ (ValStr (str "abc")))
      as (o' & H1 & H2 & _); [vm_compute; split; [discriminate|reflexivity]|exact H0|vm_compute; reflexivity|vm_compute; reflexivity|].
    exists o'. split; [exact H1|exact H2].
  - destruct (setTypeAddAux_refines (λ _, 0) ex_set_type DICT_RESIZE_ENABLE (λ _, 0) 4 4 8 (SetIntset intsetNew) ∅ (ValStr (str "-70000")))
      as (o' & H1 & H2 & _); [vm_compute; split; [discriminate|reflexivity]|exact H0|vm_compute; reflexivity|vm_compute; reflexivity|].
    exists o'. split; [exact H1|]. split; [exact H2|]. change (ex_sadd (SetIntset intsetNew) (ValStr (str "-70000")) = Some (o', true)) in H1.
    vm_compute in H1. injection H1 as <-. reflexivity.
Defined.

(** A set with one integer. *)
Lemma ex_one : ∃ o, ex_sadd (SetIntset intsetNew) (ValStr (str "5")) = Some (o, true) ∧ set_inv ex_set_type o {[str "5"]} ∧ encoding o = OBJ_ENCODING_INTSET.
Proof.
  destruct (setTypeAddAux_ok (λ _, 0) ex_set_type DICT_RESIZE_ENABLE (λ _, 0) 4 4 8 ltac:(done) (SetIntset intsetNew) ∅ (ValStr (str "5")))
    as (o & H1 & H2 & _); [exact (intset_new_ok ex_set_type)|done..|]. exists o. split; [exact H1|]. cbn [value_string] in H2. rewrite union_empty_r_L in H2.
  split; [exact H2|]. vm_compute in H1. injection H1 as <-. reflexivity.
Qed.

Lemma set_remove_member_refine_witness :
  ∃ o, ex_sadd (SetIntset intsetNew) (ValStr (str "5")) = Some (o, true) ∧
    (∃ o', setTypeRemoveAux (λ _, 0) ex_set_type DICT_RESIZE_ENABLE o (ValInt 5) = Some (o', true) ∧ set_inv ex_set_type o' ∅) ∧
    (∃ o', setTypeIsMemberAux ex_set_type DICT_RESIZE_ENABLE o (ValInt 5) = Some (o', true)) ∧ (∃ o', setTypeSize o = Some (o', 1)).
Proof.
  destruct ex_one as (o & H1 & H2 & _). exists o. split; [exact H1|].
  destruct (set_remove_member_refine (λ _, 0) ex_set_type DICT_RESIZE_ENABLE 4 4 8 o {[str "5"]} (ValInt 5)) as ((o1 & Hr & Hr') & (o2 & Hm & _) & (o3 & Hs & _));
    [vm_compute; split; [discriminate|reflexivity]|exact H2|vm_compute; split; [discriminate|reflexivity]|vm_compute; reflexivity|].
  split; [|split].
  - exists o1. split; [exact Hr|]. replace ({[str "5"]} ∖ {[value_string (ValInt 5)]}) with (∅ : gset bytes) in Hr'; [exact Hr'|]. vm_compute. reflexivity.
  - exists o2. exact Hm.
  - exists o3. exact Hs.
Defined.


(** Integers, until there are too many for an intset, and one more string. *)
Definition ex_ops : list obj_op := (OpAdd <$> [str "5"; str "-70000"; str "3"; str "9"; str "abc"]) ++ [OpRemove (str "3"); OpIsMember (str "9"); OpSize].

Lemma set_object_invariant_witness :
  ∃ o o', setTypeCreate (λ _, 0) 4 4 (str "5") 1 = Some o ∧ encoding o = OBJ_ENCODING_INTSET ∧
    obj_run (λ _, 0) ex_set_type DICT_RESIZE_ENABLE (λ _, 0) 4 4 8 o ex_ops = Some o' ∧ encoding o' = OBJ_ENCODING_HT ∧
    set_inv ex_set_type o' (list_to_set [str "5"; str "-70000"; str "9"; str "abc"]).
Proof.
  destruct (set_object_invariant (λ _, 0) ex_set_type DICT_RESIZE_ENABLE (λ _, 0) 4 4 8 (str "5") 1 ex_ops) as (o & o' & H1 & H2 & H3 & _);
    [vm_compute; split; [discriminate|reflexivity]|vm_compute; discriminate|vm_compute; reflexivity|vm_compute; discriminate|
     repeat constructor; vm_compute; reflexivity|].
  exists o, o'. split; [exact H1|]. assert (o = SetIntset intsetNew) as -> by (vm_compute in H1; injection H1 as <-; reflexivity).
  split; [reflexivity|]. split; [exact H2|]. split; [vm_compute in H2; injection H2 as <-; reflexivity|].
  replace (foldl obj_effect ∅ ex_ops) with (list_to_set [str "5"; str "-70000"; str "9"; str "abc"] : gset bytes) in H3; [exact H3|]. vm_compute. reflexivity.
Defined.

(** Three keys, one of them with a larger set. *)
Definition ex_cmds : list set_cmd :=
  [SADD (str "k") [str "1"; str "2"; str "abc"]; SADD (str "l") [str "2"; str "3"; str "abc"; str "4"; str "5"; str "6"]; SADD (str "m") [str "2"]].

Definition ex_run := set_run (λ _, 0) ex_set_type DICT_RESIZE_ENABLE (λ _, 0) 4 4 8 ex_qsort.

Definition ex_space : aspace := (arun ∅ ex_cmds).1.

Lemma ex_db : ∃ db rs, ex_run ∅ ex_cmds = Some (db, rs) ∧ db_repr ex_set_type db ex_space.
Proof.
  destruct (run_ok (λ _, 0) ex_set_type DICT_RESIZE_ENABLE (λ _, 0) 4 4 8 ltac:(done) ex_qsort ∅ ∅ ex_cmds) as (db & rs & H1 & H2 & _).
  - intros k. rewrite !lookup_empty. constructor.
  - apply map_Forall_empty.
  - apply map_Forall_empty.
  - apply (bool_decide_unpack _). vm_compute. exact I.
  - exists db, rs. split; [exact H1|exact H2].
Qed.

Lemma ex_small : sets_small ex_space.
Proof. apply space_sets_small, (bool_decide_unpack _). vm_compute. exact I. Qed.

Lemma sinter_correct_witness :
  ∃ db rs db' reply, ex_run ∅ ex_cmds = Some (db, rs) ∧
    sinterGenericCommand (λ _, 0) ex_set_type DICT_RESIZE_ENABLE (λ _, 0) 4 4 8 ex_qsort db [str "k"; str "l"] (Some (str "d")) false 0 = Some (db', reply, 1) ∧
    reply = ReplyInt 2 ∧ db_repr ex_set_type db' (<[str "d" := Some (list_to_set [str "2"; str "abc"])]> ex_space).
Proof.
  destruct ex_db as (db & rs & H1 & H2). exists db, rs.
  destruct (sinter_correct (λ _, 0) ex_set_type DICT_RESIZE_ENABLE (λ _, 0) 4 4 8 ex_qsort db ex_space [str "k"; str "l"] (Some (str "d")) false 0)
    as (db' & reply & dirty & H3 & H4);
    [vm_compute; split; [discriminate|reflexivity]|exact H2|exact ex_small|discriminate|vm_compute; discriminate|discriminate|].
  rewrite decide_False in H4 by (apply (bool_decide_unpack _); vm_compute; exact I). destruct H4 as (H5 & H6 & H7). exists db', reply.
  replace (changed ex_space (str "d") (inter_of ex_space [str "k"; str "l"])) with 1 in H6 by (vm_compute; reflexivity).
  replace (inter_of ex_space [str "k"; str "l"]) with (list_to_set [str "2"; str "abc"] : gset bytes) in * by (vm_compute; reflexivity).
  split; [exact H1|]. split; [rewrite <- H6; exact H3|]. split; [exact H7|exact H5].
Defined.

Lemma sunion_sdiff_correct_witness :
  ∃ db rs db' l, ex_run ∅ ex_cmds = Some (db, rs) ∧
    sunionDiffGenericCommand (λ _, 0) ex_set_type DICT_RESIZE_ENABLE (λ _, 0) 4 4 8 ex_qsort db [str "k"; str "l"] None SET_OP_DIFF =
      Some (db', ReplySet 1 l, 0) ∧ value_string <$> l ≡ₚ [str "1"].
Proof.
  destruct ex_db as (db & rs & H1 & H2). exists db, rs.
  destruct (sunion_sdiff_correct (λ _, 0) ex_set_type DICT_RESIZE_ENABLE (λ _, 0) 4 4 8 ex_qsort db ex_space [str "k"; str "l"] None SET_OP_DIFF)
    as (db' & reply & dirty & H3 & H4); [vm_compute; split; [discriminate|reflexivity]|exact H2|discriminate| |].
  { split; [exact ex_small|]. intros k [= <-]. vm_compute. reflexivity. }
  rewrite decide_False in H4 by (apply (bool_decide_unpack _); vm_compute; exact I). destruct H4 as (_ & -> & l & -> & Hl). exists db', l.
  split; [exact H1|]. split; [exact H3|]. etransitivity; [exact Hl|]. vm_compute. reflexivity.
Defined.

Lemma sdiff_algorithms_agree_witness :
  ∃ db rs st1 st2, ex_run ∅ ex_cmds = Some (db, rs) ∧
    let st := mk_sdiff db (SetIntset intsetNew) 0 in let sets := [Some (str "k"); None; Some (str "m")] in
    sdiff_algo_one (λ _, 0) ex_set_type DICT_RESIZE_ENABLE (λ _, 0) 4 4 8 (str "l") sets st = Some st1 ∧
    sdiff_algo_two (λ _, 0) ex_set_type DICT_RESIZE_ENABLE (λ _, 0) 4 4 8 (str "l") sets st = Some st2 ∧
    sd_cardinality st1 = sd_cardinality st2.
Proof.
  destruct ex_db as (db & rs & H1 & H2). exists db, rs.
  destruct (sdiff_algorithms_agree (λ _, 0) ex_set_type DICT_RESIZE_ENABLE (λ _, 0) 4 4 8 ex_qsort db ex_space (str "l") [Some (str "k"); None; Some (str "m")])
    as (st1 & st2 & X & H3 & H4 & _ & _ & H5 & _); [vm_compute; split; [discriminate|reflexivity]|exact H2|exact ex_small|vm_compute; reflexivity|..].
  - eexists. vm_compute. reflexivity.
  - repeat constructor; eexists; vm_compute; reflexivity.
  - exists st1, st2. split; [exact H1|]. split; [exact H3|]. split; [exact H4|exact H5].
Defined.

Lemma set_commands_refine_witness :
  let cs := ex_cmds ++ [SMOVE (str "k") (str "m") (str "abc"); SUNIONSTORE (str "k") [str "m"; str "none"]; SREM (str "m") [str "abc"; str "2"]; SCARD (str "k");
                        SISMEMBER (str "k") (str "abc"); SINTERCARD [str "k"; str "l"] 1; SINTER [str "m"; str "k"]] in
  ∃ db rs, ex_run ∅ cs = Some (db, rs) ∧
    Forall2 (λ r a, reply_matches r.1 a.1 ∧ r.2 = a.2) rs
      [(AInt 3, 3); (AInt 6, 6); (AInt 1, 1); (AInt 1, 2); (AInt 2, 1); (AInt 2, 2); (AInt 2, 0); (AInt 1, 0); (AInt 1, 0); (ASet ∅, 0)].
Proof.
  intros cs. destruct (set_commands_refine (λ _, 0) ex_set_type DICT_RESIZE_ENABLE (λ _, 0) 4 4 8 ex_qsort ∅ ∅ cs) as (db & rs & H1 & _ & _ & H2).
  - vm_compute. split; [discriminate|reflexivity].
  - intros k. rewrite !lookup_empty. constructor.
  - apply map_Forall_empty.
  - apply map_Forall_empty.
  - apply (bool_decide_unpack _). vm_compute. exact I.
  - exists db, rs. split; [exact H1|].
    replace (arun ∅ cs).2 with
      [(AInt 3, 3); (AInt 6, 6); (AInt 1, 1); (AInt 1, 2); (AInt 2, 1); (AInt 2, 2); (AInt 2, 0); (AInt 1, 0); (AInt 1, 0); (ASet ∅, 0)] in H2; [exact H2|].
    vm_compute. reflexivity.
Defined.
