(* ===== verification/Lzf.v ===== *)
(** * lzf_c.c, lzf_d.c: compression of strings

The input and the output are blocks of memory; positions in them are offsets, and only the pointers that
the hash table stores are addresses.  The hash table lives on the stack and is not initialised
([INIT_HTAB] is 0): [stack] gives the pointers it holds at first, which can be anything.  The options of
lzfP.h are those of the program: [HLOG] 16, [VERY_FAST] 1, [ULTRA_FAST] 0, [CHECK_INPUT] 1. *)

From S2P Require Import Prelude.

Local Open Scope Z_scope.

Definition HLOG : Z := 16.
Definition HSIZE : Z := Z.shiftl 1 HLOG.
Definition MAX_LIT : Z := Z.shiftl 1 5.
Definition MAX_OFF : Z := Z.shiftl 1 13.
Definition MAX_REF : Z := Z.shiftl 1 8 + Z.shiftl 1 3.

(** ** Compression *)

Section compress.

(** [in_data]: its address and its bytes. *)
Context (in_addr : Z) (inp : bytes).
(** What the uninitialised table holds. *)
Context (stack : Z → Z).

Definition FRST (p : Z) : option Z := a ← mem_get inp p; b ← mem_get inp (p + 1); Some (Z.lor (Z.shiftl a 8) b).
Definition NEXT (v p : Z) : option Z := c ← mem_get inp (p + 2); Some (Z.lor (u32 (Z.shiftl v 8)) c).
Definition IDX (h : Z) : Z := Z.land (u32 (Z.shiftr h (3 * 8 - HLOG) - h * 5)) (HSIZE - 1).

(** The entries that have been written. *)
Abbreviation htab_t := (gmap Z Z).

Definition slot (htab : htab_t) (i : Z) : Z := default (stack i) (htab !! i).

(** The offset of the match at [ref], if it is one.  The subtraction is one of [size_t]. *)
Definition lzf_match (ip ref : Z) : option (option Z) :=
  let off := u64 (in_addr + ip - ref - 1) in
  if decide (off < MAX_OFF ∧ ref > in_addr) then
    let r := ref - in_addr in
    a ← mem_get inp (r + 2); b ← mem_get inp (ip + 2);
    if decide (a = b) then
      a ← mem_read inp r 2; b ← mem_read inp ip 2;
      Some (if decide (a = b) then Some off else None)
    else Some None
  else Some None.

(** [len++; if (ref[len] != ip[len]) break;], [n] times; [true] for the break. *)
Fixpoint match_unrolled (n : nat) (r ip len : Z) : option (Z * bool) :=
  match n with
  | O => Some (len, false)
  | S n =>
      let len := len + 1 in
      a ← mem_get inp (r + len); b ← mem_get inp (ip + len);
      if decide (a ≠ b) then Some (len, true) else match_unrolled n r ip len
  end.

(** [do len++; while (len < maxlen && ref[len] == ip[len]);] *)
Fixpoint match_loop (fuel : nat) (r ip maxlen len : Z) : option Z :=
  match fuel with
  | O => None
  | S fuel =>
      let len := len + 1 in
      if decide (len < maxlen) then
        a ← mem_get inp (r + len); b ← mem_get inp (ip + len);
        if decide (a = b) then match_loop fuel r ip maxlen len else Some len
      else Some len
  end.

Definition match_len (r ip maxlen : Z) : option Z :=
  '(len, stop) ← (if decide (maxlen > 16) then match_unrolled 16 r ip 2 else Some (2, false));
  if stop : bool then Some len else match_loop (Z.to_nat MAX_REF) r ip maxlen len.

(** The variables of the loop. *)
Record lzf_state := mk_lzf { z_ip : Z; z_op : Z; z_lit : Z; z_hval : Z; z_htab : htab_t; z_out : bytes }.

Inductive lzf_flow := Return0 (out : bytes) | Break (st : lzf_state) | Continue (st : lzf_state).

Definition put (out : bytes) (op b : Z) : option bytes := mem_write out op [u8 b].

(** [!lit]. *)
Definition no_lit (lit : Z) : Z := if decide (lit = 0) then 1 else 0.

(** The offset and the length of a match. *)
Definition put_ref (out : bytes) (op off len : Z) : option (bytes * Z) :=
  '(out, op) ←
    (if decide (len < 7) then out ← put out op (Z.shiftr off 8 + Z.shiftl len 5); Some (out, op + 1)
     else
       out ← put out op (Z.shiftr off 8 + Z.shiftl 7 5);
       out ← put out (op + 1) (len - 7);
       Some (out, op + 2));
  out ← put out op off; Some (out, op + 1).

(** A match at offset [r] of the input. *)
Definition lzf_back (st : lzf_state) (hval : Z) (htab : htab_t) (r off : Z) : option lzf_flow :=
  let '(mk_lzf ip op lit _ _ out) := st in
  let maxlen := zlen inp - ip - 2 in
  let maxlen := if decide (maxlen > MAX_REF) then MAX_REF else maxlen in
  if bool_decide (op + 3 + 1 >= zlen out) && bool_decide (op - no_lit lit + 3 + 1 >= zlen out) then Some (Return0 out)
  else
    out ← put out (op - lit - 1) (lit - 1);
    let op := op - no_lit lit in
    len ← match_len r ip maxlen;
    let len := len - 2 in
    let ip := ip + 1 in
    '(out, op) ← put_ref out op off len;
    let op := op + 1 in
    let ip := ip + (len + 1) in
    if decide (ip >= zlen inp - 2) then Some (Break (mk_lzf ip op 0 hval htab out))
    else
      let ip := ip - 2 in
      hval ← FRST ip;
      hval ← NEXT hval ip;
      let htab := <[IDX hval := in_addr + ip]> htab in
      let ip := ip + 1 in
      hval ← NEXT hval ip;
      let htab := <[IDX hval := in_addr + ip]> htab in
      Some (Continue (mk_lzf (ip + 1) op 0 hval htab out)).

(** [lit++; *op++ = *ip++;] and the end of a run of [MAX_LIT] bytes. *)
Definition lzf_literal (st : lzf_state) (hval : Z) (htab : htab_t) : option lzf_state :=
  let '(mk_lzf ip op lit _ _ out) := st in
  b ← mem_get inp ip;
  let lit := lit + 1 in
  out ← put out op b;
  let op := op + 1 in
  if decide (lit = MAX_LIT) then
    out ← put out (op - lit - 1) (lit - 1); Some (mk_lzf (ip + 1) (op + 1) 0 hval htab out)
  else Some (mk_lzf (ip + 1) op lit hval htab out).

Definition lzf_step (st : lzf_state) : option lzf_flow :=
  let ip := z_ip st in
  hval ← NEXT (z_hval st) ip;
  let ref := slot (z_htab st) (IDX hval) in
  let htab := <[IDX hval := in_addr + ip]> (z_htab st) in
  m ← lzf_match ip ref;
  match m with
  | Some off => lzf_back st hval htab (ref - in_addr) off
  | None =>
      if decide (z_op st >= zlen (z_out st)) then Some (Return0 (z_out st))
      else Continue <$> lzf_literal st hval htab
  end.

Fixpoint lzf_loop (fuel : nat) (st : lzf_state) : option lzf_flow :=
  match fuel with
  | O => None
  | S fuel =>
      if decide (z_ip st < zlen inp - 2) then
        fl ← lzf_step st;
        match fl with Continue st => lzf_loop fuel st | Break st => Some (Break st) | Return0 out => Some (Return0 out) end
      else Some (Break st)
  end.

(** The last bytes. *)
Fixpoint lzf_tail (fuel : nat) (st : lzf_state) : option lzf_state :=
  match fuel with
  | O => None
  | S fuel =>
      if decide (z_ip st < zlen inp) then st ← lzf_literal st (z_hval st) (z_htab st); lzf_tail fuel st else Some st
  end.

(** The output block and the returned value: the number of bytes written, or 0. *)
Definition lzf_compress (out : bytes) : option (bytes * Z) :=
  if decide (zlen inp = 0 ∨ zlen out = 0) then Some (out, 0)
  else
    hval ← FRST 0;
    fl ← lzf_loop (S (length inp)) (mk_lzf 0 1 0 hval ∅ out);
    match fl with
    | Return0 out => Some (out, 0)
    | Continue _ => None
    | Break st =>
        if decide (z_op st + 3 > zlen (z_out st)) then Some (z_out st, 0)
        else
          '(mk_lzf _ op lit _ _ out) ← lzf_tail (S (length inp)) st;
          out ← put out (op - lit - 1) (lit - 1);
          Some (out, op - no_lit lit)
    end.

End compress.

(** ** Decompression *)

Inductive lzf_errno := E2BIG | EINVAL.

(** [*op++ = *ip++;], [n] times. *)
Fixpoint copy_in (n : nat) (inp : bytes) (ip : Z) (out : bytes) (op : Z) : option bytes :=
  match n with
  | O => Some out
  | S n => b ← mem_get inp ip; out ← put out op b; copy_in n inp (ip + 1) out (op + 1)
  end.

(** [*op++ = *ref++;], [n] times: a byte may be one that was just written. *)
Fixpoint copy_ref (n : nat) (out : bytes) (ref op : Z) : option bytes :=
  match n with
  | O => Some out
  | S n => b ← mem_get out ref; out ← put out op b; copy_ref n out (ref + 1) (op + 1)
  end.

Definition lzf_copy (out : bytes) (ref op len : Z) : option bytes :=
  if decide (len ≤ 9) then copy_ref (Z.to_nat (len + 2)) out ref op
  else
    let len := len + 2 in
    if decide (op >= ref + len) then s ← mem_read out ref len; mem_write out op s
    else copy_ref (Z.to_nat len) out ref op.

(** The output block with the returned value, and the error that is set. *)
Definition lzf_result : Type := bytes * Z * option lzf_errno.

Section decompress.
Context (inp : bytes).

Definition d_literal (ctrl ip : Z) (out : bytes) (op : Z) : option (lzf_result + (Z * bytes * Z)) :=
  let ctrl := ctrl + 1 in
  if decide (op + ctrl > zlen out) then Some (inl (out, 0, Some E2BIG))
  else if decide (ip + ctrl > zlen inp) then Some (inl (out, 0, Some EINVAL))
  else out ← copy_in (Z.to_nat ctrl) inp ip out op; Some (inr (ip + ctrl, out, op + ctrl)).

(** [if (len == 7) { len += *ip++; ... }]: the length and [ip], or [None] when the input ends. *)
Definition d_len (len ip : Z) : option (option (Z * Z)) :=
  if decide (len = 7) then
    b ← mem_get inp ip;
    if decide (ip + 1 >= zlen inp) then Some None else Some (Some (len + b, ip + 1))
  else Some (Some (len, ip)).

Definition d_back (ctrl ip : Z) (out : bytes) (op : Z) : option (lzf_result + (Z * bytes * Z)) :=
  let len := Z.shiftr ctrl 5 in
  let ref := op - Z.shiftl (Z.land ctrl 0x1f) 8 - 1 in
  if decide (ip >= zlen inp) then Some (inl (out, 0, Some EINVAL))
  else
    l ← d_len len ip;
    match l with
    | None => Some (inl (out, 0, Some EINVAL))
    | Some (len, ip) =>
        b ← mem_get inp ip;
        let ref := ref - b in
        let ip := ip + 1 in
        if decide (op + len + 2 > zlen out) then Some (inl (out, 0, Some E2BIG))
        else if decide (ref < 0) then Some (inl (out, 0, Some EINVAL))
        else out ← lzf_copy out ref op len; Some (inr (ip, out, op + len + 2))
    end.

Definition d_step (ip : Z) (out : bytes) (op : Z) : option (lzf_result + (Z * bytes * Z)) :=
  ctrl ← mem_get inp ip;
  if decide (ctrl < Z.shiftl 1 5) then d_literal ctrl (ip + 1) out op else d_back ctrl (ip + 1) out op.

Fixpoint d_loop (fuel : nat) (ip : Z) (out : bytes) (op : Z) : option lzf_result :=
  match fuel with
  | O => None
  | S fuel =>
      if decide (ip < zlen inp) then
        r ← d_step ip out op;
        match r with inl r => Some r | inr (ip, out, op) => d_loop fuel ip out op end
      else Some (out, op, None)
  end.

Definition lzf_decompress (out : bytes) : option lzf_result := d_loop (S (length inp)) 0 out 0.

End decompress.
