(* ===== verification/LzfOk.v ===== *)
(** * lzf_c.c, lzf_d.c: a compressed string is decompressed to itself *)

From S2P Require Import Prelude Lzf.

Local Open Scope Z_scope.

(** ** The format *)

(** The [n] bytes that a reference [off] bytes back from the end of [d] stands for; they can overlap the result. *)
Definition copied (d : bytes) (off : Z) (n : nat) (run : bytes) : Prop :=
  length run = n ∧ ∀ i, (i < n)%nat → run !! i = (d ++ run) !! Z.to_nat (zlen d + Z.of_nat i - off - 1).

(** The bytes of a reference to [len + 2] bytes. *)
Definition ref_bytes (off len : Z) : bytes :=
  (if decide (len < 7) then [Z.shiftr off 8 + Z.shiftl len 5] else [Z.shiftr off 8 + Z.shiftl 7 5; len - 7]) ++ [u8 off].

(** [lzf_out c d]: the bytes [c] decompress to [d]. *)
Inductive lzf_out : bytes → bytes → Prop :=
  | out_nil : lzf_out [] []
  | out_lit c d run : lzf_out c d → 1 ≤ zlen run ≤ MAX_LIT → lzf_out (c ++ (zlen run - 1) :: run) (d ++ run)
  | out_ref c d off len run :
      lzf_out c d → 0 ≤ off < MAX_OFF → off < zlen d → 1 ≤ len ≤ MAX_REF - 2 → copied d off (Z.to_nat (len + 2)) run →
      lzf_out (c ++ ref_bytes off len) (d ++ run).

Lemma put_mid a x b y : byte_ok y → put (a ++ x :: b) (zlen a) y = Some (a ++ y :: b).
Proof. intros Hy. unfold put. rewrite uwrap_small by (unfold byte_ok in Hy; range_lia). by rewrite (mem_write_mid a [x] b [y]). Qed.

Lemma get_mid a x b i : i = zlen a → mem_get (a ++ x :: b) i = Some x.
Proof. intros ->. apply mem_get_here. Qed.

Lemma drop_cons_length {A} (rest : list A) n : (n < length rest)%nat → ∃ x r, rest = x :: r ∧ (n ≤ length r)%nat.
Proof. destruct rest as [|x r]; simpl; [lia|]. exists x, r. split; [done|lia]. Qed.

(** ** Copies *)

Lemma copy_in_ok run : ∀ a b d rest,
  bytes_ok run → (length run ≤ length rest)%nat →
  copy_in (length run) (a ++ run ++ b) (zlen a) (d ++ rest) (zlen d) = Some (d ++ run ++ drop (length run) rest).
Proof.
  induction run as [|x run IH]; intros a b d rest Hok Hlen; simpl in *; [by rewrite drop_0|]. inversion_clear Hok as [|? ? Hx Hok'].
  destruct (drop_cons_length rest (length run)) as (y & r & -> & Hr); [lia|]. rewrite mem_get_here. bind_simpl. rewrite put_mid by done. bind_simpl.
  specialize (IH (a ++ [x]) b (d ++ [x]) r Hok' Hr). rewrite <- !app_assoc, !length_app in IH. simpl in IH.
  replace (zlen a + 1) with (Z.of_nat (length a + 1)) by lia. replace (zlen d + 1) with (Z.of_nat (length d + 1)) by lia. exact IH.
Qed.

Lemma copied_cons d off n x run :
  0 ≤ off < zlen d → copied d off (S n) (x :: run) →
  mem_get d (zlen d - off - 1) = Some x ∧ copied (d ++ [x]) off n run.
Proof.
  intros Hoff [Hlen Hc]. split.
  - specialize (Hc 0%nat ltac:(lia)). simpl in Hc. unfold mem_get. rewrite decide_True by lia.
    rewrite lookup_app_l in Hc by lia. rewrite Hc. f_equal. lia.
  - split; [simpl in Hlen; lia|]. intros i Hi. specialize (Hc (S i) ltac:(lia)). simpl in Hc. rewrite Hc, <- app_assoc. simpl. f_equal.
    rewrite length_app. simpl. lia.
Qed.

Lemma get_app_l d rest i x : mem_get d i = Some x → mem_get (d ++ rest) i = Some x.
Proof. unfold mem_get. case_decide; [|done]. apply lookup_app_l_Some. Qed.

Lemma copy_ref_ok n : ∀ d off run rest,
  0 ≤ off < zlen d → copied d off n run → bytes_ok d → (n ≤ length rest)%nat →
  copy_ref n (d ++ rest) (zlen d - off - 1) (zlen d) = Some (d ++ run ++ drop n rest).
Proof.
  induction n as [|n IH]; intros d off run rest Hoff Hc Hok Hlen; cbn [copy_ref].
  { destruct Hc as [Hl _]. destruct run; [|done]. by rewrite drop_0. }
  destruct run as [|x run]; [by destruct Hc|]. destruct (copied_cons d off n x run Hoff Hc) as [Hx Hc'].
  destruct (drop_cons_length rest n) as (y & r & -> & Hr); [lia|]. rewrite (get_app_l _ _ _ _ Hx). bind_simpl.
  assert (byte_ok x) as Hxo. { unfold mem_get in Hx. rewrite decide_True in Hx by lia. by eapply Forall_lookup_1 in Hx. }
  rewrite put_mid by done. bind_simpl. specialize (IH (d ++ [x]) off run r). rewrite <- !app_assoc, !length_app in IH. simpl in IH.
  replace (zlen d - off - 1 + 1) with (Z.of_nat (length d + 1) - off - 1) by lia. replace (zlen d + 1) with (Z.of_nat (length d + 1)) by lia.
  apply IH; [lia|done| |done]. apply Forall_app. split; [done|by constructor].
Qed.

(** The [memcpy] of areas that do not overlap. *)
Lemma copied_block d off n run :
  0 ≤ off < zlen d → copied d off n run → Z.of_nat n ≤ off + 1 → mem_read d (zlen d - off - 1) (Z.of_nat n) = Some run.
Proof.
  intros Hoff [Hlen Hc] Hn. unfold mem_read. rewrite decide_True by (unfold in_block; lia). f_equal. apply list_eq. intros i.
  rewrite Nat2Z.id. destruct (decide (i < n)%nat) as [Hi|Hi].
  - rewrite lookup_take_lt, lookup_drop, Hc by done. rewrite lookup_app_l by lia. f_equal. lia.
  - rewrite lookup_take_ge, lookup_ge_None_2 by lia. done.
Qed.

Lemma read_app_l c rest off n s : mem_read c off n = Some s → mem_read (c ++ rest) off n = Some s.
Proof.
  unfold mem_read, in_block. case_decide as Hb; [|done]. intros [= <-]. rewrite decide_True by (rewrite length_app; lia). f_equal.
  rewrite drop_app_le, take_app_le by (rewrite ?length_drop; lia). done.
Qed.

Lemma lzf_copy_ok d off len run rest :
  0 ≤ off < zlen d → 0 ≤ len → copied d off (Z.to_nat (len + 2)) run → bytes_ok d → len + 2 ≤ zlen rest →
  lzf_copy (d ++ rest) (zlen d - off - 1) (zlen d) len = Some (d ++ run ++ drop (length run) rest).
Proof.
  intros Hoff Hlen Hc Hok Hrest. pose proof Hc as [Hl _]. unfold lzf_copy. rewrite Hl. case_decide; [by apply copy_ref_ok; [..|lia]|].
  case_decide; [|by apply copy_ref_ok; [..|lia]]. pose proof (copied_block d off _ run Hoff Hc ltac:(lia)) as Hr. rewrite Z2Nat.id in Hr by lia.
  rewrite (read_app_l _ _ _ _ _ Hr). bind_simpl. rewrite <- Hl in *. rewrite <- (take_drop (length run) rest) at 1.
  rewrite mem_write_mid; [done|..]; rewrite ?length_take; lia.
Qed.

(** ** Decompression of the format *)

Lemma ref_first off len : 0 ≤ off < MAX_OFF → 0 ≤ len ≤ 7 →
  let b := Z.shiftr off 8 + Z.shiftl len 5 in
  byte_ok b ∧ Z.shiftr b 5 = len ∧ Z.shiftl (Z.land b 0x1f) 8 + u8 off = off ∧ (1 ≤ len → Z.shiftl 1 5 ≤ b).
Proof.
  intros Hoff Hlen b. subst b. change MAX_OFF with 8192 in Hoff. change (Z.shiftl 1 5) with 32. unfold byte_ok.
  change 0x1f with (Z.ones 5). rewrite Z.land_ones, !Z.shiftr_div_pow2, !Z.shiftl_mul_pow2 by lia. unfold uwrap. pow2_lit.
  pose proof (Z.div_mod off 256 ltac:(lia)). pose proof (Z.mod_pos_bound off 256 ltac:(lia)).
  assert (0 ≤ off / 256 < 32) as Hq by (split; [apply Z.div_pos; lia|apply Z.div_lt_upper_bound; lia]).
  split; [lia|]. split; [|split].
  - rewrite Z.div_add by lia. rewrite Z.div_small by lia. lia.
  - rewrite Z.mod_add by lia. rewrite Z.mod_small by lia. lia.
  - lia.
Qed.

Lemma u8_range z : byte_ok (u8 z).
Proof. apply uwrap_range. lia. Qed.

Lemma ref_bytes_ok off len : 0 ≤ off < MAX_OFF → 1 ≤ len ≤ MAX_REF - 2 → bytes_ok (ref_bytes off len).
Proof.
  intros Hoff Hlen. change MAX_REF with 264 in Hlen. unfold ref_bytes. apply Forall_app. split; [|by constructor; [apply u8_range|]].
  case_decide.
  - destruct (ref_first off len Hoff ltac:(lia)) as [Hb _]. by constructor.
  - destruct (ref_first off 7 Hoff ltac:(lia)) as [Hb _]. constructor; [done|]. constructor; [unfold byte_ok; lia|done].
Qed.

Lemma lzf_out_bytes c d : lzf_out c d → bytes_ok c → bytes_ok d.
Proof.
  induction 1 as [|c d run _ IH Hlen|c d off len run _ IH Hoff Hlt Hlen Hc]; [done|..]; intros Hok; apply Forall_app in Hok as [Hok1 Hok2].
  - inversion_clear Hok2. apply Forall_app. split; [by apply IH|done].
  - apply Forall_app. specialize (IH Hok1). split; [done|]. clear -IH Hc Hoff Hlt. revert d run Hc IH Hlt. generalize (Z.to_nat (len + 2)). intros n.
    induction n as [|n IHn]; intros d run Hc Hd Hlt; [by destruct Hc as [Hl _]; destruct run|]. destruct run as [|x run]; [by destruct Hc|].
    destruct (copied_cons d off n x run ltac:(lia) Hc) as [Hx Hc']. unfold mem_get in Hx. rewrite decide_True in Hx by lia. eapply Forall_lookup_1 in Hx; [|done].
    constructor; [done|]. apply (IHn (d ++ [x])); [done| |rewrite length_app; simpl; lia]. apply Forall_app. split; [done|by constructor].
Qed.

Lemma d_literal_ok c run tl d rest :
  1 ≤ zlen run ≤ MAX_LIT → bytes_ok run → zlen run ≤ zlen rest →
  d_step (c ++ (zlen run - 1) :: run ++ tl) (zlen c) (d ++ rest) (zlen d) =
    Some (inr (zlen (c ++ (zlen run - 1) :: run), d ++ run ++ drop (length run) rest, zlen (d ++ run))).
Proof.
  intros Hlen Hok Hrest. change MAX_LIT with 32 in Hlen. unfold d_step. rewrite mem_get_here. bind_simpl. change (Z.shiftl 1 5) with 32.
  rewrite decide_True by lia. unfold d_literal. rewrite decide_False by (rewrite length_app; lia).
  rewrite decide_False by (rewrite length_app; simpl; rewrite length_app; lia). replace (zlen run - 1 + 1) with (zlen run) by lia. rewrite Nat2Z.id.
  pose proof (copy_in_ok run (c ++ [zlen run - 1]) tl d rest Hok ltac:(lia)) as Hc. rewrite <- app_assoc, length_app in Hc. cbn [app length] in Hc.
  replace (zlen c + 1) with (Z.of_nat (length c + 1)) by lia. rewrite Hc. bind_simpl. rewrite !length_app. cbn [length]. repeat f_equal; lia.
Qed.

Lemma d_back_ok c off len tl d run rest :
  0 ≤ off < MAX_OFF → off < zlen d → 1 ≤ len ≤ MAX_REF - 2 → copied d off (Z.to_nat (len + 2)) run → bytes_ok d → len + 2 ≤ zlen rest →
  d_step (c ++ ref_bytes off len ++ tl) (zlen c) (d ++ rest) (zlen d) =
    Some (inr (zlen (c ++ ref_bytes off len), d ++ run ++ drop (length run) rest, zlen (d ++ run))).
Proof.
  intros Hoff Hd Hlen Hc Hok Hrest. change MAX_REF with 264 in Hlen. pose proof Hc as [Hrun _]. unfold d_step, ref_bytes. destruct (decide (len < 7)) as [H7|H7].
  - destruct (ref_first off len Hoff ltac:(lia)) as (Hb & H5 & Hsum & Hge). cbn [app]. rewrite mem_get_here. bind_simpl. rewrite decide_False by lia.
    unfold d_back. rewrite H5. unfold d_len. rewrite (decide_False (P := len = 7)) by lia. bind_simpl.
    rewrite decide_False by (rewrite length_app; simpl; lia).
    assert (mem_get (c ++ (Z.shiftr off 8 + Z.shiftl len 5) :: u8 off :: tl) (zlen c + 1) = Some (u8 off)) as -> by by rewrite mem_get_suffix.
    bind_simpl. rewrite decide_False by (rewrite length_app; lia). rewrite decide_False by lia.
    replace (zlen d - Z.shiftl (Z.land (Z.shiftr off 8 + Z.shiftl len 5) 31) 8 - 1 - u8 off) with (zlen d - off - 1) by lia.
    rewrite (lzf_copy_ok d off len run rest) by (done || lia). bind_simpl. rewrite !length_app. cbn [length]. repeat f_equal; lia.
  - destruct (ref_first off 7 Hoff ltac:(lia)) as (Hb & H5 & Hsum & Hge). cbn [app]. rewrite mem_get_here. bind_simpl. rewrite decide_False by lia.
    unfold d_back. rewrite H5. unfold d_len. rewrite (decide_True (P := 7 = 7)) by lia. rewrite decide_False by (rewrite length_app; simpl; lia).
    set (b := Z.shiftr off 8 + Z.shiftl 7 5) in *.
    assert (mem_get (c ++ b :: (len - 7) :: u8 off :: tl) (zlen c + 1) = Some (len - 7)) as -> by by rewrite mem_get_suffix. bind_simpl.
    rewrite decide_False by (rewrite length_app; simpl; lia). bind_simpl.
    assert (mem_get (c ++ b :: (len - 7) :: u8 off :: tl) (zlen c + 1 + 1) = Some (u8 off)) as -> by (rewrite <- Z.add_assoc; by rewrite mem_get_suffix).
    bind_simpl. replace (7 + (len - 7)) with len by lia. rewrite decide_False by (rewrite length_app; lia). rewrite decide_False by lia.
    replace (zlen d - Z.shiftl (Z.land b 31) 8 - 1 - u8 off) with (zlen d - off - 1) by lia.
    rewrite (lzf_copy_ok d off len run rest) by (done || lia). bind_simpl. rewrite !length_app. cbn [length]. repeat f_equal; lia.
Qed.

Lemma d_loop_ok c d : lzf_out c d → bytes_ok c → ∀ tl out,
  zlen d ≤ zlen out →
  ∃ k, (k ≤ length c)%nat ∧ ∀ fuel, d_loop (c ++ tl) (k + fuel) 0 out 0 = d_loop (c ++ tl) fuel (zlen c) (d ++ drop (length d) out) (zlen d).
Proof.
  induction 1 as [|c d run Hout IH Hlen|c d off len run Hout IH Hoff Hlt Hlen Hc]; intros Hok tl out Hle.
  - exists 0%nat. split; [done|]. intros fuel. by rewrite drop_0.
  - apply Forall_app in Hok as [Hokc Hokr]. inversion_clear Hokr as [|? ? _ Hokr']. rewrite length_app in Hle.
    destruct (IH Hokc ((zlen run - 1 :: run) ++ tl) out ltac:(lia)) as (k & Hk & Hloop). exists (k + 1)%nat. rewrite length_app. simpl length. split; [lia|].
    intros fuel. rewrite <- app_assoc, <- Nat.add_assoc, Hloop. cbn [Nat.add d_loop]. rewrite decide_True by (rewrite !length_app; simpl; lia).
    cbn [app]. rewrite (d_literal_ok c run tl d) by (done || (rewrite length_drop; lia)). bind_simpl. rewrite drop_drop, <- app_assoc, !length_app. done.
  - apply Forall_app in Hok as [Hokc Hokr]. pose proof Hc as [Hrun _]. pose proof (lzf_out_bytes c d Hout Hokc) as Hokd. change MAX_REF with 264 in Hlen.
    rewrite length_app in Hle.
    destruct (IH Hokc (ref_bytes off len ++ tl) out ltac:(lia)) as (k & Hk & Hloop). exists (k + 1)%nat.
    assert (1 ≤ length (ref_bytes off len))%nat as H1 by (unfold ref_bytes; rewrite length_app; simpl; lia). rewrite length_app. split; [lia|].
    intros fuel. rewrite <- app_assoc, <- Nat.add_assoc, Hloop. cbn [Nat.add d_loop]. rewrite decide_True by (rewrite !length_app; simpl; lia).
    rewrite (d_back_ok c off len tl d run) by (done || (rewrite length_drop; lia)). bind_simpl. rewrite drop_drop, <- app_assoc, !length_app. done.
Qed.

(** A block in the format decompresses to what it stands for. *)
Lemma decompress_ok c d out :
  lzf_out c d → bytes_ok c → zlen d ≤ zlen out → lzf_decompress c out = Some (d ++ drop (length d) out, zlen d, None).
Proof.
  intros Hout Hok Hle. destruct (d_loop_ok c d Hout Hok [] out Hle) as (k & Hk & Hloop). rewrite app_nil_r in Hloop. unfold lzf_decompress.
  replace (S (length c)) with (k + S (length c - k))%nat by lia. rewrite Hloop. cbn [d_loop]. by rewrite decide_False by lia.
Qed.

(** ** Decompression of any input *)

Lemma get_in_block c i : 0 ≤ i < zlen c → ∃ b, mem_get c i = Some b.
Proof. intros Hi. unfold mem_get. rewrite decide_True by lia. apply lookup_lt_is_Some_2. lia. Qed.

(** A block keeps its size, and has bytes if it had bytes. *)
Definition same_block (out out' : bytes) : Prop := length out' = length out ∧ (bytes_ok out → bytes_ok out').

Lemma same_block_trans a b c : same_block a b → same_block b c → same_block a c.
Proof. intros [H1 H2] [H3 H4]. split; [congruence|auto]. Qed.

Lemma write_same_block out op xs out' : mem_write out op xs = Some out' → bytes_ok xs → same_block out out'.
Proof.
  intros Hw Hxs. split; [by eapply mem_write_length|]. intros Hout. unfold mem_write in Hw. case_decide; [|done]. injection Hw as <-.
  apply Forall_app. split; [by apply Forall_take|]. apply Forall_app. split; [done|by apply Forall_drop].
Qed.

Lemma put_in_block out op b : 0 ≤ op < zlen out → ∃ out', put out op b = Some out' ∧ same_block out out'.
Proof.
  intros Hop. unfold put. destruct (mem_write_Some out op [u8 b]) as [out' Hw]; [unfold in_block; simpl; lia|]. exists out'. split; [done|].
  eapply write_same_block; [done|]. constructor; [apply u8_range|constructor].
Qed.

Lemma copy_in_safe n : ∀ inp ip out op,
  0 ≤ ip → ip + Z.of_nat n ≤ zlen inp → 0 ≤ op → op + Z.of_nat n ≤ zlen out →
  ∃ out', copy_in n inp ip out op = Some out' ∧ same_block out out'.
Proof.
  induction n as [|n IH]; intros inp ip out op Hip Hin Hop Hout; cbn [copy_in]; [by exists out; split|].
  destruct (get_in_block inp ip) as [b ->]; [lia|]. bind_simpl. destruct (put_in_block out op b) as (out1 & -> & Hl); [lia|]. bind_simpl.
  destruct (IH inp (ip + 1) out1 (op + 1)) as (out' & -> & Hl'); [lia|lia|lia|destruct Hl; lia|]. exists out'. split; [done|by eapply same_block_trans].
Qed.

Lemma copy_ref_safe n : ∀ out ref op,
  0 ≤ ref → ref < op → op + Z.of_nat n ≤ zlen out → ∃ out', copy_ref n out ref op = Some out' ∧ same_block out out'.
Proof.
  induction n as [|n IH]; intros out ref op Href Hlt Hout; cbn [copy_ref]; [by exists out; split|].
  destruct (get_in_block out ref) as [b ->]; [lia|]. bind_simpl. destruct (put_in_block out op b) as (out1 & -> & Hl); [lia|]. bind_simpl.
  destruct (IH out1 (ref + 1) (op + 1)) as (out' & -> & Hl'); [lia|lia|destruct Hl; lia|]. exists out'. split; [done|by eapply same_block_trans].
Qed.

Lemma lzf_copy_safe out ref op len :
  0 ≤ ref → ref < op → 0 ≤ len → op + len + 2 ≤ zlen out → ∃ out', lzf_copy out ref op len = Some out' ∧ same_block out out'.
Proof.
  intros Href Hlt Hlen Hout. unfold lzf_copy. case_decide; [apply copy_ref_safe; lia|]. case_decide; [|apply copy_ref_safe; lia].
  destruct (mem_read_Some out ref (len + 2)) as [s Hs]; [unfold in_block; lia|]. rewrite Hs. bind_simpl. pose proof (mem_read_length _ _ _ _ Hs) as Hl.
  destruct (mem_write_Some out op s) as [out' Hw]; [unfold in_block; lia|]. exists out'. split; [done|]. split; [by eapply mem_write_length|].
  intros Hok. eapply write_same_block; [done|by eapply mem_read_bytes_ok|done].
Qed.

(** A step stays inside the two blocks, and advances or reports an error. *)
Definition step_safe (inp : bytes) (ip : Z) (out : bytes) (r : option (lzf_result + (Z * bytes * Z))) : Prop :=
  match r with
  | None => False
  | Some (inl (out', n, e)) => same_block out out' ∧ n = 0 ∧ e ≠ None
  | Some (inr (ip', out', op')) => ip < ip' ≤ zlen inp ∧ same_block out out' ∧ 0 ≤ op' ≤ zlen out
  end.

Lemma get_byte c i b : bytes_ok c → mem_get c i = Some b → byte_ok b.
Proof. unfold mem_get. case_decide; [|done]. intros Hok Hb. by eapply Forall_lookup_1 in Hb. Qed.

Lemma d_step_safe inp ip out op : bytes_ok inp → 0 ≤ ip < zlen inp → 0 ≤ op ≤ zlen out → step_safe inp ip out (d_step inp ip out op).
Proof.
  intros Hok Hip Hop. unfold d_step. destruct (get_in_block inp ip Hip) as [ctrl Hc]. rewrite Hc. bind_simpl. apply (get_byte inp) in Hc; [|done].
  unfold byte_ok in Hc. change (Z.shiftl 1 5) with 32. case_decide as Hlit.
  - unfold d_literal. case_decide; [by split_and!|]. case_decide; [by split_and!|]. destruct (copy_in_safe (Z.to_nat (ctrl + 1)) inp (ip + 1) out op) as (out' & -> & Hl); [lia..|].
    bind_simpl. split_and!; [lia|lia|done|lia|lia].
  - unfold d_back. case_decide; [done|]. assert (0 ≤ Z.shiftr ctrl 5) as H5 by (apply Z.shiftr_nonneg; lia).
    assert (∃ l, d_len inp (Z.shiftr ctrl 5) (ip + 1) = Some l ∧ match l with None => True | Some (len, ip') => 0 ≤ len ∧ ip + 1 ≤ ip' < zlen inp end) as (l & -> & Hl).
    { unfold d_len. case_decide; [|eexists; split; [done|simpl; lia]]. destruct (get_in_block inp (ip + 1)) as [b Hb]; [lia|]. rewrite Hb. bind_simpl.
      apply (get_byte inp) in Hb; [|done]. unfold byte_ok in Hb. case_decide; eexists; (split; [done|]); [done|simpl; lia]. }
    bind_simpl. destruct l as [[len ip']|]; [|done]. destruct (get_in_block inp ip') as [b Hb]; [lia|]. rewrite Hb. bind_simpl.
    apply (get_byte inp) in Hb; [|done]. unfold byte_ok in Hb. case_decide; [done|]. case_decide; [done|].
    assert (0 ≤ Z.shiftl (Z.land ctrl 31) 8) as H8 by (apply Z.shiftl_nonneg, Z.land_nonneg; lia).
    match goal with |- context [lzf_copy out ?ref op len] => destruct (lzf_copy_safe out ref op len) as (out' & -> & Hlen); [lia..|] end.
    bind_simpl. split_and!; [lia|lia|done|lia|lia].
Qed.

Lemma d_loop_safe inp fuel : ∀ ip out op,
  bytes_ok inp → 0 ≤ ip ≤ zlen inp → 0 ≤ op ≤ zlen out → zlen inp - ip < Z.of_nat fuel →
  ∃ out' n e, d_loop inp fuel ip out op = Some (out', n, e) ∧ same_block out out' ∧ 0 ≤ n ≤ zlen out ∧ (e ≠ None → n = 0).
Proof.
  induction fuel as [|fuel IH]; intros ip out op Hok Hip Hop Hf; [lia|]. cbn [d_loop]. case_decide as Hlt.
  2: { exists out, op, None. split_and!; [done|by split|lia|lia|by intros []]. }
  pose proof (d_step_safe inp ip out op Hok ltac:(lia) Hop) as Hs. destruct (d_step inp ip out op) as [[[[out' n] e]|[[ip' out'] op']]|]; [..|done]; simpl in Hs; bind_simpl.
  - destruct Hs as (Hl & -> & He). exists out', 0, e. split_and!; [done|done|lia|lia|done].
  - destruct Hs as (Hip' & Hl & Hop'). destruct (IH ip' out' op') as (out2 & n & e & -> & Hl2 & Hn & He); [done|lia|destruct Hl; lia|lia|].
    exists out2, n, e. split_and!; [done|by eapply same_block_trans|lia|destruct Hl; lia|done].
Qed.

Lemma decompress_safe inp out :
  bytes_ok inp → ∃ out' n e, lzf_decompress inp out = Some (out', n, e) ∧ same_block out out' ∧ 0 ≤ n ≤ zlen out ∧ (e ≠ None → n = 0).
Proof. intros Hok. apply d_loop_safe; [done|lia..]. Qed.
