(* ===== verification/LzfEnc.v ===== *)
(** * lzf_c.c: what the compressor writes is in the format *)

From S2P Require Import Prelude Lzf LzfOk.

Local Open Scope Z_scope.

Section enc.
Context (in_addr : Z) (inp : bytes) (stack : Z → Z).
(** The input lies in memory above the first pages, and the words of the stack are addresses. *)
Context (Haddr : MAX_OFF ≤ in_addr) (Hend : in_addr + zlen inp < 2 ^ 64) (Hstack : ∀ i, in_urange 64 (stack i)) (Hinp : bytes_ok inp).
Implicit Types (st : lzf_state) (c d run rest sl : bytes) (htab : gmap Z Z).

(** ** Matches *)

(** The [n] bytes at [r] and at [ip] are the same. *)
Definition same (r ip n : Z) : Prop := ∀ i : nat, Z.of_nat i < n → inp !! (Z.to_nat r + i)%nat = inp !! (Z.to_nat ip + i)%nat.

Definition htab_ok htab : Prop := map_Forall (λ _ v, in_urange 64 v) htab.

Lemma slot_range htab i : htab_ok htab → in_urange 64 (slot stack htab i).
Proof. intros Hh. unfold slot. destruct (htab !! i) as [v|] eqn:Hv; simpl; [by eapply Hh|apply Hstack]. Qed.

Lemma htab_insert htab i ip : htab_ok htab → 0 ≤ ip ≤ zlen inp → htab_ok (<[i := in_addr + ip]> htab).
Proof.
  intros Hh Hip. apply map_Forall_insert_2; [|done]. unfold in_urange. change MAX_OFF with 8192 in Haddr. lia.
Qed.

Lemma same_step r ip n a b : 0 ≤ r → 0 ≤ ip → 0 ≤ n → same r ip n → mem_get inp (r + n) = Some a → mem_get inp (ip + n) = Some b → a = b → same r ip (n + 1).
Proof.
  intros Hr Hip Hn Hs Ha Hb <- i Hi. unfold mem_get in *. rewrite decide_True in Ha by lia. rewrite decide_True in Hb by lia. destruct (decide (Z.of_nat i < n)) as [Hlt|Hge]; [by apply Hs|].
  replace (Z.to_nat r + i)%nat with (Z.to_nat (r + n)) by lia. replace (Z.to_nat ip + i)%nat with (Z.to_nat (ip + n)) by lia. by rewrite Ha, Hb.
Qed.

Lemma read_two_get i s : mem_read inp i 2 = Some s → ∃ a b, s = [a; b] ∧ mem_get inp i = Some a ∧ mem_get inp (i + 1) = Some b.
Proof.
  intros Hs. pose proof (mem_read_bytes_at _ _ _ _ Hs) as [Hi Hat]. apply mem_read_length in Hs. destruct s as [|a [|b [|? ?]]]; try (simpl in Hs; lia).
  exists a, b. split; [done|]. unfold mem_get. rewrite !decide_True by lia. pose proof (Hat 0%nat a eq_refl) as H0. pose proof (Hat 1%nat b eq_refl) as H1.
  rewrite Nat.add_0_r in H0. split; [done|]. rewrite <- H1. f_equal. lia.
Qed.

(** Whatever the table holds, a match is one inside the input. *)
Lemma lzf_match_ok ip ref :
  0 ≤ ip → ip + 3 ≤ zlen inp → in_urange 64 ref →
  ∃ m, lzf_match in_addr inp ip ref = Some m ∧
    match m with
    | None => True
    | Some off => 0 ≤ off < MAX_OFF ∧ off < ip ∧ ref - in_addr = ip - off - 1 ∧ same (ip - off - 1) ip 3
    end.
Proof.
  intros Hip Hlen Href. unfold lzf_match. change MAX_OFF with 8192 in *. case_decide as Hc; [|by exists None]. destruct Hc as [Hoff Hgt].
  assert (0 ≤ in_addr + ip - ref - 1 ∧ u64 (in_addr + ip - ref - 1) = in_addr + ip - ref - 1) as [H0 Heq].
  { destruct (decide (0 ≤ in_addr + ip - ref - 1)) as [H0|H0]; [split; [done|apply uwrap_small; range_lia]|]. exfalso.
    assert (u64 (in_addr + ip - ref - 1) = in_addr + ip - ref - 1 + 2 ^ 64) as Hw.
    { unfold uwrap. rewrite <- (Z.mod_add _ 1) by done. apply Z.mod_small. range_lia. }
    rewrite Hw in Hoff. range_lia. }
  rewrite Heq in *. set (off := in_addr + ip - ref - 1) in *. assert (ref - in_addr = ip - off - 1) as Hr by lia. rewrite Hr.
  destruct (get_in_block inp (ip - off - 1 + 2)) as [a2 Ha2]; [lia|]. destruct (get_in_block inp (ip + 2)) as [b2 Hb2]; [lia|]. rewrite Ha2, Hb2. bind_simpl.
  case_decide as H2; [|by exists None]. destruct (mem_read_Some inp (ip - off - 1) 2) as [s Hs]; [unfold in_block; lia|].
  destruct (mem_read_Some inp ip 2) as [t Ht]; [unfold in_block; lia|]. rewrite Hs, Ht. bind_simpl. eexists. split; [done|]. case_decide as Hst; [|done].
  split_and!; [lia..|]. destruct (read_two_get _ _ Hs) as (a & b & -> & Ha & Hb). destruct (read_two_get _ _ Ht) as (a' & b' & -> & Ha' & Hb'). injection Hst as -> ->.
  apply (same_step _ _ 2 a2 b2); [lia|lia|lia| |done..]. apply (same_step _ _ 1 b' b'); [lia|lia|lia| |done..].
  apply (same_step _ _ 0 a' a'); [lia|lia|lia| |by rewrite Z.add_0_r|by rewrite Z.add_0_r|done]. intros i Hi. lia.
Qed.

(** The length of a match: all its bytes are equal, and it ends inside the input. *)
Lemma unrolled_ok n r ip len :
  0 ≤ r → r < ip → 0 ≤ len → same r ip (len + 1) → ip + len + Z.of_nat n < zlen inp →
  ∃ len' b, match_unrolled inp n r ip len = Some (len', b) ∧ len ≤ len' ≤ len + Z.of_nat n ∧
    if b then len < len' ∧ same r ip len' else len' = len + Z.of_nat n ∧ same r ip (len' + 1).
Proof.
  intros Hr Hlt. revert len. induction n as [|n IH]; intros len Hlen Hs Hin; cbn [match_unrolled].
  { exists len, false. split_and!; [done|lia..|done]. }
  destruct (get_in_block inp (r + (len + 1))) as [a Ha]; [lia|]. destruct (get_in_block inp (ip + (len + 1))) as [b Hb]; [lia|]. rewrite Ha, Hb. bind_simpl.
  case_decide as Hab; [exists (len + 1), true; split_and!; [done|lia..|done]|].
  destruct (IH (len + 1)) as (len' & c & -> & Hl & Hc); [lia|apply (same_step r ip (len + 1) a b); [lia|lia|lia|done..]|lia|].
  exists len', c. split; [done|]. split; [lia|]. destruct c; [split; [lia|apply Hc]|split; [lia|apply Hc]].
Qed.

Lemma match_loop_ok fuel r ip maxlen len :
  0 ≤ r → r < ip → 0 ≤ len → same r ip (len + 1) → ip + maxlen ≤ zlen inp → ip + len + 1 ≤ zlen inp → maxlen - len < Z.of_nat fuel → (0 < fuel)%nat →
  ∃ len', match_loop inp fuel r ip maxlen len = Some len' ∧ len < len' ≤ Z.max (len + 1) maxlen ∧ same r ip len'.
Proof.
  intros Hr Hlt. revert len. induction fuel as [|fuel IH]; intros len Hlen Hs Hmax Hin Hf H0; [lia|]. cbn [match_loop].
  case_decide as Hc; [|exists (len + 1); split_and!; [done|lia..|done]].
  destruct (get_in_block inp (r + (len + 1))) as [a Ha]; [lia|]. destruct (get_in_block inp (ip + (len + 1))) as [b Hb]; [lia|]. rewrite Ha, Hb. bind_simpl.
  case_decide as Hab; [|exists (len + 1); split_and!; [done|lia..|done]].
  destruct (IH (len + 1)) as (len' & -> & Hl & Hs'); [lia|apply (same_step r ip (len + 1) a b); [lia|lia|lia|done..]|lia..|].
  exists len'. split_and!; [done|lia..|done].
Qed.

Lemma match_len_ok r ip :
  0 ≤ r → r < ip → ip + 3 ≤ zlen inp → same r ip 3 →
  let maxlen := zlen inp - ip - 2 in let maxlen := if decide (maxlen > MAX_REF) then MAX_REF else maxlen in
  ∃ len, match_len inp r ip maxlen = Some len ∧ 3 ≤ len ≤ MAX_REF ∧ ip + len ≤ zlen inp ∧ same r ip len.
Proof.
  intros Hr Hlt Hin Hs m maxlen. assert (maxlen = Z.min m 264) as Hm by (unfold maxlen; change MAX_REF with 264; case_decide; lia). clearbody maxlen. subst m.
  unfold match_len. change MAX_REF with 264. case_decide as H16.
  - destruct (unrolled_ok 16 r ip 2) as (len & b & -> & Hl & Hb); [lia|lia|lia|done|lia|]. bind_simpl. destruct b; [exists len; split_and!; [done|lia..|apply Hb]|].
    destruct Hb as [Hlen Hs']. destruct (match_loop_ok 264 r ip maxlen len) as (len' & Hml & Hl' & Hs''); [lia|lia|lia|done|lia..|].
    exists len'. split_and!; [exact Hml|lia..|done].
  - bind_simpl. destruct (match_loop_ok 264 r ip maxlen 2) as (len' & Hml & Hl' & Hs''); [lia|lia|lia|done|lia..|]. exists len'. split_and!; [exact Hml|lia..|done].
Qed.

(** ** The state of the loop *)

Context (N : Z).

(** [c] is complete and stands for [d]; a run of literals has begun after it.  After a full run at the end of the output
    the place for the next length may be missing. *)
Definition lzf_inv st : Prop :=
  ∃ c d run rest,
    lzf_out c d ∧ bytes_ok c ∧ inp = d ++ run ++ rest ∧ zlen run = z_lit st ∧ z_lit st < MAX_LIT ∧ z_op st = zlen c + 1 + z_lit st ∧
    z_ip st = zlen d + z_lit st ∧ htab_ok (z_htab st) ∧ zlen (z_out st) = N ∧
    ((∃ h sl, z_out st = c ++ h :: run ++ sl) ∨ (run = [] ∧ z_out st = c)).

Lemma put_at a x b y : put (a ++ x :: b) (zlen a) y = Some (a ++ u8 y :: b).
Proof. unfold put. by rewrite (mem_write_mid a [x] b [u8 y]). Qed.

(** The run is closed, or taken back when it is empty. *)
Lemma close_run c d h run sl :
  lzf_out c d → bytes_ok c → bytes_ok run → zlen run < MAX_LIT →
  ∃ c1 sl1, put (c ++ h :: run ++ sl) (zlen c) (zlen run - 1) = Some (c1 ++ sl1) ∧ lzf_out c1 (d ++ run) ∧ bytes_ok c1 ∧
    zlen c1 = zlen c + 1 + zlen run - no_lit (zlen run) ∧ length (c1 ++ sl1) = length (c ++ h :: run ++ sl).
Proof.
  intros Hout Hc Hrun Hlit. change MAX_LIT with 32 in Hlit. rewrite put_at. unfold no_lit. destruct run as [|x run].
  - exists c, (255 :: sl). rewrite app_nil_r, decide_True by done. split_and!; [done..|simpl; lia|by rewrite !length_app].
  - set (run1 := x :: run) in *. assert (1 ≤ zlen run1) as H1 by (unfold run1; simpl; lia).
    rewrite uwrap_small by range_lia. exists (c ++ (zlen run1 - 1) :: run1), sl. rewrite <- app_assoc. split; [done|]. split.
    + apply out_lit; [done|change MAX_LIT with 32; lia].
    + split_and!.
      * apply Forall_app. split; [done|]. constructor; [unfold byte_ok; lia|done].
      * rewrite decide_False by lia. rewrite length_app. simpl. lia.
      * rewrite !length_app. simpl. rewrite !length_app. simpl. lia.
Qed.

Lemma lzf_literal_ok st hval htab :
  lzf_inv st → htab_ok htab → z_ip st < zlen inp → z_op st < N →
  ∃ st', lzf_literal inp st hval htab = Some st' ∧ lzf_inv st' ∧ z_ip st' = z_ip st + 1 ∧
    (if decide (z_lit st + 1 = MAX_LIT) then z_lit st' = 0 ∧ z_op st' = z_op st + 2 else z_lit st' = z_lit st + 1 ∧ z_op st' = z_op st + 1).
Proof.
  intros (c & d & run & rest & Hout & Hc & Hin & Hrun & Hlit & Hop & Hip & Hh & HN & Ho) Hh' Hlt Hop'. destruct st as [ip op lit hv ht out]. simpl in *.
  change MAX_LIT with 32 in *. destruct Ho as [(h & sl & ->)|[-> ->]]; [|simpl in Hrun; lia].
  destruct rest as [|b rest]; [rewrite Hin, !length_app in Hlt; simpl in Hlt; lia|].
  destruct sl as [|s sl]; [rewrite length_app in HN; simpl in HN; rewrite length_app in HN; simpl in HN; lia|].
  assert (byte_ok b) as Hb by (rewrite Hin in Hinp; apply Forall_app in Hinp as [_ Hi]; apply Forall_app in Hi as [_ Hi]; by inversion Hi).
  assert (bytes_ok run) as Hr by (rewrite Hin in Hinp; apply Forall_app in Hinp as [_ Hi]; by apply Forall_app in Hi as [Hi _]).
  assert (mem_get inp ip = Some b) as ->.
  { rewrite Hin, app_assoc. apply get_mid. rewrite length_app. lia. }
  bind_simpl. assert (put (c ++ h :: run ++ s :: sl) op b = Some (c ++ h :: run ++ b :: sl)) as ->.
  { assert (c ++ h :: run ++ s :: sl = (c ++ h :: run) ++ s :: sl) as -> by by rewrite <- app_assoc.
    replace op with (zlen (c ++ h :: run)) by (rewrite length_app; simpl; lia). rewrite put_mid by done. by rewrite <- app_assoc. }
  bind_simpl. assert (inp = d ++ (run ++ [b]) ++ rest) as Hin' by by rewrite Hin, <- !app_assoc.
  assert (c ++ h :: run ++ b :: sl = c ++ h :: (run ++ [b]) ++ sl) as -> by by rewrite <- !app_assoc.
  destruct (decide (lit + 1 = 32)) as [Hm|Hm].
  - replace (op + 1 - (lit + 1) - 1) with (zlen c) by lia. rewrite put_at. bind_simpl. eexists. split; [done|]. cbn [z_ip z_op z_lit]. split; [|lia].
    exists (c ++ (zlen (run ++ [b]) - 1) :: run ++ [b]), (d ++ run ++ [b]), [], rest. cbn [z_ip z_op z_lit z_htab z_out]. split_and!.
    + apply out_lit; [done|]. change MAX_LIT with 32. rewrite length_app. simpl. lia.
    + apply Forall_app. split; [done|]. constructor; [unfold byte_ok; rewrite length_app; simpl; lia|]. apply Forall_app. split; [done|by constructor].
    + by rewrite <- app_assoc.
    + done.
    + done.
    + rewrite !length_app. simpl. rewrite length_app. simpl. lia.
    + rewrite !length_app. simpl. lia.
    + done.
    + rewrite <- HN, !length_app. simpl. rewrite !length_app. simpl. lia.
    + rewrite uwrap_small by range_lia. replace (lit + 1 - 1) with (zlen (run ++ [b]) - 1) by (rewrite length_app; simpl; lia).
      destruct sl as [|s' sl]; [right; by rewrite app_nil_r|left]. exists s', sl. by rewrite <- (app_assoc c).
  - eexists. split; [done|]. cbn [z_ip z_op z_lit]. split; [|lia]. exists c, d, (run ++ [b]), rest. cbn [z_ip z_op z_lit z_htab z_out].
    split_and!; [done..|rewrite length_app; simpl; lia|change MAX_LIT with 32; lia|lia|lia|done| |left; by exists h, sl].
    rewrite <- HN, !length_app. simpl. rewrite !length_app. simpl. lia.
Qed.

(** ** A reference *)

Lemma put_ref_ok c1 sl off len :
  0 ≤ off < MAX_OFF → 1 ≤ len ≤ MAX_REF - 2 → 3 < zlen sl →
  ∃ h sl', put_ref (c1 ++ sl) (zlen c1) off len = Some (c1 ++ ref_bytes off len ++ h :: sl', zlen (c1 ++ ref_bytes off len)) ∧
    length (ref_bytes off len ++ h :: sl') = length sl.
Proof.
  intros Hoff Hlen Hsl. destruct sl as [|s0 [|s1 [|s2 [|s3 sl]]]]; try (simpl in Hsl; lia). change MAX_REF with 264 in Hlen. unfold put_ref, ref_bytes. case_decide as H7.
  - destruct (ref_first off len Hoff ltac:(lia)) as (Hb & _). rewrite put_mid by done. bind_simpl. exists s2, (s3 :: sl).
    set (b := Z.shiftr off 8 + Z.shiftl len 5) in *. assert (c1 ++ b :: s1 :: s2 :: s3 :: sl = (c1 ++ [b]) ++ s1 :: s2 :: s3 :: sl) as -> by by rewrite <- app_assoc.
    replace (zlen c1 + 1) with (zlen (c1 ++ [b])) by (rewrite length_app; simpl; lia). rewrite put_at. bind_simpl. split; [|done].
    rewrite <- !app_assoc, !length_app. simpl. do 2 f_equal. lia.
  - destruct (ref_first off 7 Hoff ltac:(lia)) as (Hb & _). rewrite put_mid by done. bind_simpl. exists s3, sl.
    set (b := Z.shiftr off 8 + Z.shiftl 7 5) in *. assert (c1 ++ b :: s1 :: s2 :: s3 :: sl = (c1 ++ [b]) ++ s1 :: s2 :: s3 :: sl) as -> by by rewrite <- app_assoc.
    replace (zlen c1 + 1) with (zlen (c1 ++ [b])) by (rewrite length_app; simpl; lia). rewrite put_mid by (unfold byte_ok; lia). bind_simpl.
    assert ((c1 ++ [b]) ++ (len - 7) :: s2 :: s3 :: sl = (c1 ++ [b; len - 7]) ++ s2 :: s3 :: sl) as -> by by rewrite <- !app_assoc.
    replace (zlen c1 + 2) with (zlen (c1 ++ [b; len - 7])) by (rewrite length_app; simpl; lia). rewrite put_at. bind_simpl. split; [|done].
    rewrite <- !app_assoc, !length_app. simpl. do 2 f_equal. lia.
Qed.

(** The bytes of a match are the ones that a reference copies. *)
Lemma same_copied d run rest off len :
  inp = (d ++ run) ++ rest → 0 ≤ off → off < zlen (d ++ run) → 0 ≤ len → zlen (d ++ run) + len ≤ zlen inp → same (zlen (d ++ run) - off - 1) (zlen (d ++ run)) len →
  copied (d ++ run) off (Z.to_nat len) (take (Z.to_nat len) rest).
Proof.
  intros Hin Hoff Hlt Hlen Hend' Hs. rewrite Hin, (length_app (d ++ run)) in Hend'. split; [rewrite length_take; lia|]. intros i Hi.
  specialize (Hs i ltac:(lia)). rewrite Hin, Nat2Z.id in Hs. rewrite (lookup_app_r (d ++ run) rest (length (d ++ run) + i)) in Hs by lia.
  replace (length (d ++ run) + i - length (d ++ run))%nat with i in Hs by lia. rewrite lookup_take_lt by done. rewrite <- Hs.
  replace (Z.to_nat (zlen (d ++ run) - off - 1) + i)%nat with (Z.to_nat (zlen (d ++ run) + Z.of_nat i - off - 1)) by lia.
  set (j := Z.to_nat (zlen (d ++ run) + Z.of_nat i - off - 1)). destruct (decide (j < length (d ++ run))%nat) as [Hj|Hj].
  - by rewrite !(lookup_app_l (d ++ run)) by done.
  - rewrite !(lookup_app_r (d ++ run)) by lia. rewrite lookup_take_lt; [done|]. subst j. lia.
Qed.

Lemma next_ok v p : 0 ≤ p → p + 2 < zlen inp → ∃ h, NEXT inp v p = Some h.
Proof. intros Hp Hlt. unfold NEXT. destruct (get_in_block inp (p + 2)) as [b ->]; [lia|]. bind_simpl. by eexists. Qed.

Lemma frst_ok p : 0 ≤ p → p + 1 < zlen inp → ∃ h, FRST inp p = Some h.
Proof.
  intros Hp Hlt. unfold FRST. destruct (get_in_block inp p) as [a ->]; [lia|]. bind_simpl. destruct (get_in_block inp (p + 1)) as [b ->]; [lia|]. bind_simpl. by eexists.
Qed.

(** What a round of the loop can do. *)
Definition flow_ok st (fl : lzf_flow) : Prop :=
  match fl with
  | Return0 out => zlen out = N
  | Continue st' => lzf_inv st' ∧ z_ip st < z_ip st' ≤ zlen inp
  | Break st' => lzf_inv st' ∧ zlen inp - 2 ≤ z_ip st' ≤ zlen inp
  end.

Lemma lzf_back_ok st hval htab off :
  lzf_inv st → htab_ok htab → z_ip st + 3 ≤ zlen inp → 0 ≤ off < MAX_OFF → off < z_ip st → same (z_ip st - off - 1) (z_ip st) 3 →
  ∃ fl, lzf_back in_addr inp st hval htab (z_ip st - off - 1) off = Some fl ∧ flow_ok st fl.
Proof.
  intros (c & d & run & rest & Hout & Hc & Hin & Hrun & Hlit & Hop & Hip & _ & HN & Ho) Hh Hlt Hoff Hoff' Hs. destruct st as [ip op lit hv ht out]. cbn [z_ip z_op z_lit z_htab z_out] in *.
  unfold lzf_back. destruct (bool_decide (op + 3 + 1 >= zlen out) && _) eqn:Htest.
  { eexists. split; [done|]. done. }
  assert (op - no_lit lit + 4 < N) as Hroom.
  { apply andb_false_iff in Htest as [Ht%bool_decide_eq_false|Ht%bool_decide_eq_false]; [|lia]. unfold no_lit. case_decide; lia. }
  destruct Ho as [(h & sl & ->)|[-> ->]].
  2: { simpl in Hrun. unfold no_lit in Hroom. rewrite decide_True in Hroom by lia. lia. }
  assert (bytes_ok run) as Hr by (rewrite Hin in Hinp; apply Forall_app in Hinp as [_ Hi]; by apply Forall_app in Hi as [Hi _]).
  destruct (close_run c d h run sl Hout Hc Hr ltac:(lia)) as (c1 & sl1 & Hput & Hout1 & Hc1 & Hl1 & Hlen1).
  replace (op - lit - 1) with (zlen c) by lia. rewrite <- Hrun, Hput. bind_simpl. rewrite <- Hrun in *.
  destruct (match_len_ok (ip - off - 1) ip) as (len & -> & Hlen & Hend' & Hs'); [lia..|done|]. bind_simpl. replace (op - no_lit (zlen run)) with (zlen c1) by lia.
  change MAX_REF with 264 in Hlen. rewrite length_app in Hlen1.
  destruct (put_ref_ok c1 sl1 off (len - 2)) as (h2 & sl2 & -> & Hl2); [done|change MAX_REF with 264; lia|lia|]. bind_simpl.
  set (c2 := c1 ++ ref_bytes off (len - 2)) in *. assert (zlen (d ++ run) = ip) as Hip' by (rewrite length_app; lia). rewrite app_assoc in Hin.
  set (m := take (Z.to_nat len) rest) in *.
  assert (copied (d ++ run) off (Z.to_nat len) m) as Hcp by (apply same_copied; [done|lia|lia|lia|lia|by rewrite Hip']).
  assert (lzf_out c2 ((d ++ run) ++ m)) as Hout2.
  { apply out_ref; [done..|lia|change MAX_REF with 264; lia|by replace (len - 2 + 2) with len by lia]. }
  assert (bytes_ok c2) as Hc2 by (apply Forall_app; split; [done|apply ref_bytes_ok; [done|change MAX_REF with 264; lia]]).
  assert (zlen m = len) as Hm by (destruct Hcp as [-> _]; lia).
  assert (∀ hv' ht', htab_ok ht' → lzf_inv (mk_lzf (ip + len) (zlen c2 + 1) 0 hv' ht' (c1 ++ ref_bytes off (len - 2) ++ h2 :: sl2))) as Hinv.
  { intros hv' ht' Hh'. exists c2, ((d ++ run) ++ m), [], (drop (Z.to_nat len) rest). cbn [z_ip z_op z_lit z_htab z_out]. split_and!; [done..| |done|done|lia| |done| |].
    - rewrite Hin at 1. simpl. rewrite <- (app_assoc (d ++ run) m). unfold m. by rewrite take_drop.
    - rewrite (length_app (d ++ run)). lia.
    - rewrite length_app, Hl2. lia.
    - left. exists h2, sl2. unfold c2. by rewrite <- app_assoc. }
  replace (ip + 1 + (len - 2 + 1)) with (ip + len) by lia. clear Htest. case_decide as Hbr.
  { eexists. split; [reflexivity|]. split; [by apply Hinv|]. cbn [z_ip]. lia. }
  destruct (frst_ok (ip + len - 2)) as [h3 ->]; [lia..|]. bind_simpl. destruct (next_ok h3 (ip + len - 2)) as [h4 ->]; [lia..|]. bind_simpl.
  destruct (next_ok h4 (ip + len - 2 + 1)) as [h5 ->]; [lia..|]. bind_simpl. eexists. split; [reflexivity|]. cbn [flow_ok z_ip]. split; [|lia].
  replace (ip + len - 2 + 1 + 1) with (ip + len) by lia. apply Hinv. apply htab_insert; [apply htab_insert; [done|lia]|lia].
Qed.

Lemma lzf_step_ok st : lzf_inv st → 0 ≤ z_ip st → z_ip st < zlen inp - 2 → ∃ fl, lzf_step in_addr inp stack st = Some fl ∧ flow_ok st fl.
Proof.
  intros Hinv H0 Hlt. unfold lzf_step. destruct (next_ok (z_hval st) (z_ip st)) as [h ->]; [lia..|]. bind_simpl.
  assert (htab_ok (z_htab st)) as Hh by (destruct Hinv as (? & ? & ? & ? & _ & _ & _ & _ & _ & _ & _ & Hh & _); done).
  assert (zlen (z_out st) = N) as HN by (destruct Hinv as (? & ? & ? & ? & _ & _ & _ & _ & _ & _ & _ & _ & HN & _); done).
  pose proof (htab_insert (z_htab st) (IDX h) (z_ip st) Hh ltac:(lia)) as Hh'.
  destruct (lzf_match_ok (z_ip st) (slot stack (z_htab st) (IDX h))) as (m & -> & Hm); [lia..|by apply slot_range|]. bind_simpl. destruct m as [off|].
  - destruct Hm as (Ho & Hlt' & Hr & Hs). rewrite Hr. by apply lzf_back_ok; [..|lia| | |].
  - case_decide; [by eexists|]. destruct (lzf_literal_ok st h (<[IDX h := in_addr + z_ip st]> (z_htab st)) Hinv Hh') as (st' & -> & Hinv' & Hip & _); [lia..|].
    eexists. split; [done|]. split; [done|lia].
Qed.

(** ** The loops *)

Lemma inv_ip st : lzf_inv st → 0 ≤ z_ip st ≤ zlen inp.
Proof.
  intros (c & d & run & rest & _ & _ & Hin & Hrun & _ & _ & Hip & _). rewrite Hin, !length_app. lia.
Qed.

Lemma lzf_loop_ok fuel st :
  lzf_inv st → zlen inp - z_ip st < Z.of_nat fuel →
  ∃ fl, lzf_loop in_addr inp stack fuel st = Some fl ∧
    match fl with Return0 out => zlen out = N | Break st' => lzf_inv st' ∧ zlen inp - 2 ≤ z_ip st' | Continue _ => False end.
Proof.
  revert st. induction fuel as [|fuel IH]; intros st Hinv Hf; pose proof (inv_ip st Hinv) as Hip; [lia|]. cbn [lzf_loop].
  case_decide as Hlt; [|eexists; split; [done|]; split; [done|lia]].
  destruct (lzf_step_ok st Hinv ltac:(lia) Hlt) as (fl & -> & Hfl). bind_simpl. destruct fl as [out|st'|st']; cbn [flow_ok] in Hfl.
  - by eexists.
  - eexists. split; [done|]. destruct Hfl as [Hi Hp]. split; [done|lia].
  - destruct Hfl as [Hi Hp]. apply IH; [done|lia].
Qed.

(** The last bytes find room. *)
Lemma lzf_tail_ok fuel st :
  lzf_inv st → zlen inp - z_ip st < Z.of_nat fuel → zlen inp - z_ip st ≤ 2 →
  z_op st + (zlen inp - z_ip st) + (if decide (z_lit st + (zlen inp - z_ip st) < MAX_LIT) then 0 else 1) ≤ N →
  ∃ st', lzf_tail inp fuel st = Some st' ∧ lzf_inv st' ∧ z_ip st' = zlen inp ∧ z_op st' ≤ N.
Proof.
  change MAX_LIT with 32. revert st. induction fuel as [|fuel IH]; intros st Hinv Hf H2 Hroom; pose proof (inv_ip st Hinv) as Hip; [lia|]. cbn [lzf_tail].
  destruct (decide (z_ip st < zlen inp)) as [Hlt|Hge].
  2: { exists st. split_and!; [done..|lia|]. destruct (decide (z_lit st + (zlen inp - z_ip st) < 32)); lia. }
  assert (htab_ok (z_htab st)) as Hh by (destruct Hinv as (? & ? & ? & ? & _ & _ & _ & _ & _ & _ & _ & Hh & _); done).
  assert (0 ≤ z_lit st < 32) as Hlit by (destruct Hinv as (? & ? & ? & ? & _ & _ & _ & Hr & Hl & _); change MAX_LIT with 32 in Hl; lia).
  destruct (lzf_literal_ok st (z_hval st) (z_htab st) Hinv Hh Hlt) as (st' & -> & Hinv' & Hip' & Hl'); [destruct (decide (z_lit st + (zlen inp - z_ip st) < 32)); lia|].
  bind_simpl. change MAX_LIT with 32 in Hl'. apply IH; [done|lia..|]. rewrite Hip'.
  destruct (decide (z_lit st + 1 = 32)); destruct Hl' as [-> ->]; destruct (decide (z_lit st + (zlen inp - z_ip st) < 32)); case_decide; lia.
Qed.

(** The compressor stays inside its blocks, and what it returns is in the format. *)
Lemma lzf_compress_ok out :
  zlen out = N → 2 ≤ zlen inp →
  ∃ out' n, lzf_compress in_addr inp stack out = Some (out', n) ∧ zlen out' = N ∧ 0 ≤ n ≤ N ∧
    (n ≠ 0 → ∃ c sl, out' = c ++ sl ∧ n = zlen c ∧ lzf_out c inp ∧ bytes_ok c).
Proof.
  intros HN H2. unfold lzf_compress. case_decide as H0; [exists out, 0; split_and!; [done..|lia|lia|done]|].
  destruct (frst_ok 0) as [h ->]; [lia..|]. bind_simpl.
  destruct (lzf_loop_ok (S (length inp)) (mk_lzf 0 1 0 h ∅ out)) as (fl & -> & Hfl).
  { exists [], [], [], inp. destruct out as [|o out]; [simpl in H0; lia|]. simpl in *. split_and!; [constructor|constructor|done..|apply map_Forall_empty|done|]. left. by exists o, out. }
  { simpl. lia. }
  bind_simpl. destruct fl as [out1|st|st]; [exists out1, 0; split_and!; [done..|lia|lia|done]| |done]. destruct Hfl as [Hinv Hip].
  pose proof (inv_ip st Hinv) as Hip'. assert (zlen (z_out st) = N) as HN' by (destruct Hinv as (? & ? & ? & ? & _ & _ & _ & _ & _ & _ & _ & _ & HN' & _); done).
  case_decide as H3; [exists (z_out st), 0; split_and!; [done..|lia|lia|done]|].
  destruct (lzf_tail_ok (S (length inp)) st Hinv) as (st' & -> & Hinv' & Hip2 & Hop); [lia|lia|case_decide; lia|]. bind_simpl.
  destruct Hinv' as (c & d & run & rest & Hout & Hc & Hin & Hrun & Hlit & Hop' & Hip3 & _ & HN2 & Ho). destruct st' as [ip op lit hv ht out2]. cbn [z_ip z_op z_lit z_htab z_out] in *.
  assert (rest = []) as ->. { destruct rest as [|x rest]; [done|]. rewrite Hin, !length_app in Hip2. simpl in Hip2. lia. }
  rewrite app_nil_r in Hin. destruct Ho as [(h2 & sl & ->)|[-> ->]]; [|simpl in *; lia].
  assert (bytes_ok run) as Hr by (rewrite Hin in Hinp; by apply Forall_app in Hinp as [_ Hi]).
  destruct (close_run c d h2 run sl Hout Hc Hr ltac:(lia)) as (c1 & sl1 & Hput & Hout1 & Hc1 & Hl1 & Hlen1).
  replace (op - lit - 1) with (zlen c) by lia. rewrite <- Hrun, Hput. bind_simpl. exists (c1 ++ sl1), (op - no_lit (zlen run)).
  split; [done|]. split; [lia|]. split; [rewrite length_app in Hlen1; lia|]. intros _. exists c1, sl1. rewrite Hin. split_and!; [done|lia|done..].
Qed.

End enc.


(** C15. [lzf_decompress] is safe on any input: it reads and writes only inside its two blocks, ends, and returns
    either a length that fits the output or 0 with an error. *)
Theorem lzf_decompress_safe inp out :
  bytes_ok inp → ∃ out' n e, lzf_decompress inp out = Some (out', n, e) ∧ length out' = length out ∧ 0 ≤ n ≤ zlen out ∧ (e ≠ None → n = 0).
Proof. intros Hok. destruct (decompress_safe inp out Hok) as (out' & n & e & ? & [? _] & ?). by exists out', n, e. Qed.

(** ** Examples *)

Definition ex_lzf : bytes := str "aaaaaaaaaaaaaaaaaaaabcabcabcabcabc0123456789-0123456789-aaaaaaaaaa".


Lemma lzf_decompress_safe_witness :
  bytes_ok [0x20; 5] ∧ ∃ out' n e, lzf_decompress [0x20; 5] [1; 2; 3] = Some (out', n, e) ∧ e = Some EINVAL ∧ n = 0.
Proof.
  assert (bytes_ok [0x20; 5]) as H by (repeat (constructor; [vm_compute; split; [discriminate|reflexivity]|]); constructor). split; [exact H|].
  destruct (lzf_decompress_safe [0x20; 5] [1; 2; 3] H) as (out' & n & e & H1 & _ & _ & H2). exists out', n, e. split; [exact H1|].
  assert (e = Some EINVAL) as -> by (vm_compute in H1; injection H1 as _ _ <-; reflexivity). split; [reflexivity|]. apply H2. discriminate.
Defined.
