(* ===== verification/Rio.v ===== *)
(** * rio.h, rio.c: streams

A stream is a record of functions - its backend - with a checksum, error flags and a count.  What a
client may rely on is stated as two classes, for backends that are written to and read from; the
buffer backend of rio.c is an instance of both.  The small monad at the end threads a stream
through the functions of rdb.c, with their early returns on errors. *)

From S2P Require Import Prelude.

Local Open Scope Z_scope.

(** ** Streams *)

(** [read] and [write] of [struct _rio]; [None] is the return value 0. *)
Record rio_ops (S : Type) := mk_rio_ops { op_read : S → Z → option (S * bytes); op_write : S → bytes → option S }.
Arguments mk_rio_ops {S}.
Arguments op_read {S}.
Arguments op_write {S}.

(** [io] is the union with the state of the backend; the two flags are RIO_FLAG_READ_ERROR and RIO_FLAG_WRITE_ERROR. *)
Record rio (S : Type) := mk_rio {
  rio_io : S;
  rio_cksum : Z;
  rio_read_error : bool;
  rio_write_error : bool;
  rio_processed_bytes : Z;
  rio_max_processing_chunk : Z;
}.
Arguments mk_rio {S}.
Arguments rio_io {S}.
Arguments rio_cksum {S}.
Arguments rio_read_error {S}.
Arguments rio_write_error {S}.
Arguments rio_processed_bytes {S}.
Arguments rio_max_processing_chunk {S}.

Section rio.
Context {S : Type} (ops : rio_ops S).
(** [update_cksum]; [None] is NULL. *)
Context (update_cksum : option (Z → bytes → Z)).
Implicit Types (r : rio S).

Definition cksum_step (cksum : Z) (buf : bytes) : Z := match update_cksum with Some f => f cksum buf | None => cksum end.

(** The bytes that are processed by one call of the backend. *)
Definition rio_chunk r (len : Z) : Z :=
  if decide (rio_max_processing_chunk r ≠ 0 ∧ rio_max_processing_chunk r < len) then rio_max_processing_chunk r else len.

(** [while (len) { ... }]; the flag is [true] when everything was written. *)
Fixpoint rio_write_loop (fuel : nat) r (buf : bytes) : option (rio S * bool) :=
  match fuel with
  | O => None
  | Datatypes.S fuel =>
      if decide (zlen buf = 0) then Some (r, true)
      else
        let n := rio_chunk r (zlen buf) in
        let chunk := take (Z.to_nat n) buf in
        let cksum := cksum_step (rio_cksum r) chunk in
        match op_write ops (rio_io r) chunk with
        | None => Some (mk_rio (rio_io r) cksum (rio_read_error r) true (rio_processed_bytes r) (rio_max_processing_chunk r), false)
        | Some io =>
            rio_write_loop fuel
              (mk_rio io cksum (rio_read_error r) (rio_write_error r) (u64 (rio_processed_bytes r + n)) (rio_max_processing_chunk r))
              (drop (Z.to_nat n) buf)
        end
  end.

Definition rioWrite r (buf : bytes) : option (rio S * bool) :=
  if rio_write_error r then Some (r, false) else rio_write_loop (Datatypes.S (length buf)) r buf.

(** The bytes that were read, after [acc]. *)
Fixpoint rio_read_loop (fuel : nat) r (len : Z) (acc : bytes) : option (rio S * option bytes) :=
  match fuel with
  | O => None
  | Datatypes.S fuel =>
      if decide (len = 0) then Some (r, Some acc)
      else
        let n := rio_chunk r len in
        match op_read ops (rio_io r) n with
        | None => Some (mk_rio (rio_io r) (rio_cksum r) true (rio_write_error r) (rio_processed_bytes r) (rio_max_processing_chunk r), None)
        | Some (io, chunk) =>
            rio_read_loop fuel
              (mk_rio io (cksum_step (rio_cksum r) chunk) (rio_read_error r) (rio_write_error r) (u64 (rio_processed_bytes r + n))
                 (rio_max_processing_chunk r))
              (len - n) (acc ++ chunk)
        end
  end.

Definition rioRead r (len : Z) : option (rio S * option bytes) :=
  if rio_read_error r then Some (r, None) else rio_read_loop (Datatypes.S (Z.to_nat len)) r len [].

End rio.

(** ** The buffer backend *)

Record rio_buffer := mk_buffer { buffer_ptr : bytes; buffer_pos : Z }.

Definition rioBufferWrite (b : rio_buffer) (buf : bytes) : option rio_buffer :=
  Some (mk_buffer (buffer_ptr b ++ buf) (buffer_pos b + zlen buf)).

Definition rioBufferRead (b : rio_buffer) (len : Z) : option (rio_buffer * bytes) :=
  if decide (u64 (zlen (buffer_ptr b) - buffer_pos b) < len) then None
  else buf ← mem_read (buffer_ptr b) (buffer_pos b) len; Some (mk_buffer (buffer_ptr b) (buffer_pos b + len), buf).

Definition rioBufferIO : rio_ops rio_buffer := mk_rio_ops rioBufferRead rioBufferWrite.

Definition rioInitWithBuffer (s : bytes) : rio rio_buffer := mk_rio (mk_buffer s 0) 0 false false 0 0.

(** ** What a client relies on *)

(** A write that succeeds appends the bytes. *)
Class RioWriter {S} (ops : rio_ops S) (written : S → bytes) : Prop :=
  writer_appends s buf s' : op_write ops s buf = Some s' → written s' = written s ++ buf.

(** A read returns the next bytes, unless there are not enough of them. *)
Class RioReader {S} (ops : rio_ops S) (ready : S → Prop) (pending : S → bytes) : Prop :=
  reader_next s a b : ready s → pending s = a ++ b → ∃ s', op_read ops s (zlen a) = Some (s', a) ∧ ready s' ∧ pending s' = b.

(** A read of more bytes than there are fails. *)
Class RioShort {S} (ops : rio_ops S) (ready : S → Prop) (pending : S → bytes) : Prop :=
  reader_short s n : ready s → zlen (pending s) < n → op_read ops s n = None.

Definition buffer_ready (b : rio_buffer) : Prop := 0 ≤ buffer_pos b ≤ zlen (buffer_ptr b) ∧ zlen (buffer_ptr b) < 2 ^ 63.
Definition buffer_pending (b : rio_buffer) : bytes := drop (Z.to_nat (buffer_pos b)) (buffer_ptr b).

Global Instance buffer_writer : RioWriter rioBufferIO buffer_ptr.
Proof. intros s buf s'. simpl. by intros [= <-]. Qed.

Global Instance buffer_reader : RioReader rioBufferIO buffer_ready buffer_pending.
Proof.
  intros [ptr pos] a b [Hpos Hlen] Hp. unfold buffer_ready, buffer_pending in *. simpl in *. unfold rioBufferRead. simpl.
  assert (ptr = take (Z.to_nat pos) ptr ++ a ++ b) as Hptr by (rewrite <- Hp; by rewrite take_drop).
  pose proof (f_equal length Hptr) as Hl. rewrite !length_app, length_take in Hl. rewrite uwrap_small by range_lia. rewrite decide_False by lia.
  assert (mem_read ptr pos (zlen a) = Some a) as ->. { rewrite Hptr. apply mem_read_mid; [rewrite length_take; lia|done]. }
  bind_simpl. eexists. split; [done|]. simpl. split; [lia|]. replace (Z.to_nat (pos + zlen a)) with (Z.to_nat pos + length a)%nat by lia.
  rewrite <- drop_drop, Hp. by rewrite drop_app_length.
Qed.

Global Instance buffer_short : RioShort rioBufferIO buffer_ready buffer_pending.
Proof.
  intros [ptr pos] n [Hpos Hlen]. unfold buffer_pending. simpl in *. rewrite length_drop. intros Hn. unfold rioBufferRead. simpl.
  rewrite uwrap_small by range_lia. by rewrite decide_True by lia.
Qed.

(** ** Streams over such backends *)

Section laws.
Context {S : Type} (ops : rio_ops S) (update_cksum : option (Z → bytes → Z)).
Implicit Types (r : rio S).

(** The checksum of a string is the one that its parts give in turn. *)
Class CksumApp : Prop := {
  cksum_nil c : cksum_step update_cksum c [] = c;
  cksum_app c a b : cksum_step update_cksum c (a ++ b) = cksum_step update_cksum (cksum_step update_cksum c a) b;
}.

Lemma chunk_range r len : 0 ≤ rio_max_processing_chunk r → 0 < len → 0 < rio_chunk r len ≤ len.
Proof. intros Hm Hl. unfold rio_chunk. case_decide; lia. Qed.

(** A stream that has been written to. *)
Record wrote (written : S → bytes) r r' (buf : bytes) : Prop := {
  wrote_bytes : written (rio_io r') = written (rio_io r) ++ buf;
  wrote_cksum : rio_cksum r' = cksum_step update_cksum (rio_cksum r) buf;
  wrote_error : rio_write_error r' = false;
  wrote_chunk : rio_max_processing_chunk r' = rio_max_processing_chunk r;
}.

(** A backend that never fails, such as a buffer. *)
Definition infallible : Prop := ∀ s buf, op_write ops s buf ≠ None.

Lemma write_loop_ok (written : S → bytes) `{!RioWriter ops written} `{!CksumApp} fuel : ∀ r buf,
  0 ≤ rio_max_processing_chunk r → rio_write_error r = false → (length buf < fuel)%nat →
  ∃ r' ok, rio_write_loop ops update_cksum fuel r buf = Some (r', ok) ∧ (infallible → ok = true) ∧
    if ok then wrote written r r' buf else rio_write_error r' = true.
Proof.
  induction fuel as [|fuel IH]; intros r buf Hm He Hf; [lia|]. cbn [rio_write_loop]. case_decide as H0.
  { destruct buf; [|done]. exists r, true. split; [done|]. split; [done|]. split; [by rewrite app_nil_r|by rewrite cksum_nil|done..]. }
  pose proof (chunk_range r (zlen buf) Hm ltac:(lia)) as Hc. set (n := rio_chunk r (zlen buf)) in *. set (chunk := take (Z.to_nat n) buf).
  destruct (op_write ops (rio_io r) chunk) as [io|] eqn:Hw; [|eexists _, false; split_and!; [done|by intros Hi; apply Hi in Hw|done]].
  match goal with |- context [rio_write_loop _ _ fuel ?r1 ?b1] => destruct (IH r1 b1) as (r' & ok & -> & Hinf & Hok); [done..|rewrite length_drop; lia|] end.
  exists r', ok. split; [done|]. split; [done|]. destruct ok; [|done]. destruct Hok as [H1 H2 H3 H4]. simpl in *. unfold chunk in *. apply (writer_appends (written := written)) in Hw.
  split; [by rewrite H1, Hw, <- app_assoc, take_drop|by rewrite H2, <- cksum_app, take_drop|done..].
Qed.

Record was_read (pending : S → bytes) r r' (buf rest : bytes) : Prop := {
  read_pending : pending (rio_io r') = rest;
  read_cksum : rio_cksum r' = cksum_step update_cksum (rio_cksum r) buf;
  read_error : rio_read_error r' = false;
  read_chunk : rio_max_processing_chunk r' = rio_max_processing_chunk r;
}.

Lemma read_loop_ok ready (pending : S → bytes) `{!RioReader ops ready pending} `{!CksumApp} fuel : ∀ r a b acc,
  0 ≤ rio_max_processing_chunk r → rio_read_error r = false → (length a < fuel)%nat → ready (rio_io r) → pending (rio_io r) = a ++ b →
  ∃ r', rio_read_loop ops update_cksum fuel r (zlen a) acc = Some (r', Some (acc ++ a)) ∧ ready (rio_io r') ∧ was_read pending r r' a b.
Proof.
  induction fuel as [|fuel IH]; intros r a b acc Hm He Hf Hr Hp; [lia|]. cbn [rio_read_loop]. case_decide as H0.
  { destruct a; [|done]. exists r. rewrite app_nil_r. split; [done|]. split; [done|]. split; [done|by rewrite cksum_nil|done..]. }
  pose proof (chunk_range r (zlen a) Hm ltac:(lia)) as Hc. set (n := rio_chunk r (zlen a)) in *. rewrite <- (take_drop (Z.to_nat n) a), <- app_assoc in Hp.
  destruct (reader_next (pending := pending) (rio_io r) _ _ Hr Hp) as (io & Hread & Hr' & Hp'). rewrite length_take_le, Z2Nat.id in Hread by lia. rewrite Hread.
  replace (zlen a - n) with (zlen (drop (Z.to_nat n) a)) by (rewrite length_drop; lia).
  match goal with |- context [rio_read_loop _ _ fuel ?r1 _ ?acc1] =>
    destruct (IH r1 (drop (Z.to_nat n) a) b acc1) as (r' & -> & Hr2 & [H1 H2 H3 H4]); [done..|rewrite length_drop; lia|done|done|] end. simpl in *.
  exists r'. rewrite <- app_assoc, take_drop. split; [done|]. split; [done|]. split; [done|by rewrite H2, <- cksum_app, take_drop|done..].
Qed.

(** A read of any size returns: with the bytes, or with an error after some of them. *)
Lemma read_loop_total ready (pending : S → bytes) `{!RioReader ops ready pending} `{!RioShort ops ready pending} fuel : ∀ r len acc,
  0 ≤ rio_max_processing_chunk r → ready (rio_io r) → 0 ≤ len < Z.of_nat fuel →
  ∃ r' x a, rio_read_loop ops update_cksum fuel r len acc = Some (r', x) ∧ rio_max_processing_chunk r' = rio_max_processing_chunk r ∧ ready (rio_io r') ∧
    pending (rio_io r) = a ++ pending (rio_io r') ∧ (∀ b, x = Some b → b = acc ++ a ∧ zlen a = len).
Proof.
  induction fuel as [|fuel IH]; intros r len acc Hm Hr Hf; [lia|]. cbn [rio_read_loop]. case_decide as H0.
  { exists r, (Some acc), []. split_and!; [done..|]. intros b [= <-]. by rewrite app_nil_r. }
  pose proof (chunk_range r len Hm ltac:(lia)) as Hc. set (n := rio_chunk r len) in *.
  destruct (decide (zlen (pending (rio_io r)) < n)) as [Hs|Hs]; [rewrite (reader_short (pending := pending)) by done; by eexists _, None, []|].
  destruct (reader_next (pending := pending) (rio_io r) (take (Z.to_nat n) (pending (rio_io r))) (drop (Z.to_nat n) (pending (rio_io r))) Hr) as (io & Hread & Hr' & Hp'); [by rewrite take_drop|].
  rewrite length_take_le, Z2Nat.id in Hread by lia. rewrite Hread.
  match goal with |- context [rio_read_loop _ _ fuel ?r1 ?l1 ?acc1] => destruct (IH r1 l1 acc1) as (r' & x & a & -> & Hm2 & Hr2 & Hp2 & Hx); [done|done|lia|] end. simpl in *.
  eexists r', x, (take (Z.to_nat n) (pending (rio_io r)) ++ a). split_and!; [done..| |].
  - by rewrite <- app_assoc, <- Hp2, Hp', take_drop.
  - intros b Hb. destruct (Hx b Hb) as [-> Hl]. rewrite <- app_assoc. split; [done|]. rewrite length_app, length_take_le by lia. lia.
Qed.

Lemma rioRead_total ready (pending : S → bytes) `{!RioReader ops ready pending} `{!RioShort ops ready pending} r len :
  0 ≤ rio_max_processing_chunk r → ready (rio_io r) → 0 ≤ len →
  ∃ r' x a, rioRead ops update_cksum r len = Some (r', x) ∧ rio_max_processing_chunk r' = rio_max_processing_chunk r ∧ ready (rio_io r') ∧
    pending (rio_io r) = a ++ pending (rio_io r') ∧ (∀ b, x = Some b → b = a ∧ zlen a = len).
Proof.
  intros Hm Hr Hl. unfold rioRead. destruct (rio_read_error r); [by eexists r, None, []|]. apply (read_loop_total ready pending); [done..|lia].
Qed.

Lemma rioWrite_ok (written : S → bytes) `{!RioWriter ops written} `{!CksumApp} r buf :
  0 ≤ rio_max_processing_chunk r → rio_write_error r = false →
  ∃ r' ok, rioWrite ops update_cksum r buf = Some (r', ok) ∧ (infallible → ok = true) ∧
    if ok then wrote written r r' buf else rio_write_error r' = true.
Proof. intros Hm He. unfold rioWrite. rewrite He. apply write_loop_ok; [done..|lia]. Qed.

Lemma rioRead_ok ready (pending : S → bytes) `{!RioReader ops ready pending} `{!CksumApp} r a b :
  0 ≤ rio_max_processing_chunk r → rio_read_error r = false → ready (rio_io r) → pending (rio_io r) = a ++ b →
  ∃ r', rioRead ops update_cksum r (zlen a) = Some (r', Some a) ∧ ready (rio_io r') ∧ was_read pending r r' a b.
Proof. intros Hm He Hr Hp. unfold rioRead. rewrite He, Nat2Z.id. apply (read_loop_ok ready pending); [done..|lia|done|done]. Qed.

End laws.

(** Without a checksum there is nothing to compute. *)
Global Instance no_cksum_app : CksumApp None.
Proof. by split. Qed.

Lemma buffer_infallible : infallible rioBufferIO.
Proof. done. Qed.

(** ** Computations on a stream *)

(** A function that uses a stream: [None] is undefined behaviour or a failed assertion; a result without a
    value is a return because of an error. *)
Definition io (X A : Type) : Type := X → option (X * option A).

Definition io_ret {X A} (a : A) : io X A := λ x, Some (x, Some a).
Definition io_err {X A} : io X A := λ x, Some (x, None).
Definition io_bind {X A B} (m : io X A) (f : A → io X B) : io X B :=
  λ x, '(x, r) ← m x; match r with Some a => f a x | None => Some (x, None) end.
(** A part that does not use the stream. *)
Definition io_of {X A} (o : option A) : io X A := λ x, a ← o; Some (x, Some a).

Declare Scope io_scope.
Delimit Scope io_scope with io.
Notation "'let!' x ':=' m 'in' k" := (io_bind m (λ x, k)) (at level 10, x pattern, m at level 100, k at level 200) : io_scope.
