(* ===== verification/Rdb.v ===== *)
(** * rdb.c: lengths, integers and strings

A function that saves takes the stream, or NULL when only the size is wanted, and returns the
number of bytes; a function that loads returns the value.  An error - the C functions return -1 or NULL - is a
result without a value.  A report of a corrupt file is such an error: outside RESTORE it ends the process. *)

From S2P Require Import Prelude Util Lzf Rio.

Local Open Scope Z_scope.
Local Open Scope io_scope.

Definition RDB_6BITLEN : Z := 0.
Definition RDB_14BITLEN : Z := 1.
Definition RDB_32BITLEN : Z := 0x80.
Definition RDB_64BITLEN : Z := 0x81.
Definition RDB_ENCVAL : Z := 3.
Definition RDB_LENERR : Z := ULLONG_MAX.
Definition RDB_ENC_INT8 : Z := 0.
Definition RDB_ENC_INT16 : Z := 1.
Definition RDB_ENC_INT32 : Z := 2.
Definition RDB_ENC_LZF : Z := 3.
Definition RDB_LOAD_NONE : Z := 0.
Definition RDB_LOAD_ENC : Z := 1.
Definition RDB_LOAD_PLAIN : Z := 2.
Definition RDB_LOAD_SDS : Z := 4.

(** The bytes of [htonl] and [htonu64]. *)
Definition net_bytes (n z : Z) : bytes := reverse (le_bytes n z).
Definition net_val (bs : bytes) : Z := le_val (reverse bs).

(** [robj] of type OBJ_STRING: an integer in the pointer, or an sds. *)
Inductive string_object := ObjInt (n : Z) | ObjString (s : bytes).

(** What [rdbGenericLoadStringObject] returns, by its flags. *)
Inductive rdb_loaded := LoadedPlain (s : bytes) | LoadedSds (s : bytes) | LoadedObject (o : string_object).

(** [value >= lo && value <= hi] in [rdbEncodeInteger]. *)
Definition rdbEncodeInteger (value : Z) : bytes :=
  if decide (- Z.shiftl 1 7 ≤ value ≤ Z.shiftl 1 7 - 1) then
    [Z.lor (Z.shiftl RDB_ENCVAL 6) RDB_ENC_INT8; Z.land value 0xFF]
  else if decide (- Z.shiftl 1 15 ≤ value ≤ Z.shiftl 1 15 - 1) then
    [Z.lor (Z.shiftl RDB_ENCVAL 6) RDB_ENC_INT16; Z.land value 0xFF; Z.land (Z.shiftr value 8) 0xFF]
  else if decide (- Z.shiftl 1 31 ≤ value ≤ Z.shiftl 1 31 - 1) then
    [Z.lor (Z.shiftl RDB_ENCVAL 6) RDB_ENC_INT32; Z.land value 0xFF; Z.land (Z.shiftr value 8) 0xFF;
     Z.land (Z.shiftr value 16) 0xFF; Z.land (Z.shiftr value 24) 0xFF]
  else [].

Definition rdbTryIntegerEncoding (s : bytes) : bytes :=
  match string2ll s with Some value => rdbEncodeInteger value | None => [] end.

(** [createStringObjectFromLongLongForValue] and [...WithSds]; a shared object is the same value. *)
Definition createStringObjectFromLongLongForValue (value : Z) : string_object := ObjInt value.
Definition createStringObjectFromLongLongWithSds (value : Z) : option string_object :=
  s ← ll_string (Z.to_nat LONG_STR_SIZE) value; Some (ObjString s).

Section rdb.
Context {S : Type} (ops : rio_ops S) (update_cksum : option (Z → bytes → Z)).
(** [server.rdb_compression]. *)
Context (rdb_compression : bool).
(** The address of a string that is compressed, the table of the compressor before it is used, and the bytes of fresh
    blocks. *)
Context (addr : Z) (stack : Z → Z) (junk : nat → Z).
(** Whether an allocation of this size succeeds. *)
Context (alloc : Z → bool).

(** ** Saving *)

Abbreviation save_t := (io (option (rio S)) Z).

Definition rdbWriteRaw (p : bytes) : save_t :=
  λ rdb,
    match rdb with
    | None => Some (None, Some (zlen p))
    | Some r => '(r, ok) ← rioWrite ops update_cksum r p; Some (Some r, if ok : bool then Some (zlen p) else None)
    end.

Definition rdbSaveType (type : Z) : save_t := rdbWriteRaw [u8 type].

Definition rdbSaveLen (len : Z) : save_t :=
  if decide (len < Z.shiftl 1 6) then
    let! _ := rdbWriteRaw [Z.lor (Z.land len 0xFF) (Z.shiftl RDB_6BITLEN 6)] in io_ret 1
  else if decide (len < Z.shiftl 1 14) then
    let! _ := rdbWriteRaw [Z.lor (Z.land (Z.shiftr len 8) 0xFF) (Z.shiftl RDB_14BITLEN 6); Z.land len 0xFF] in io_ret 2
  else if decide (len ≤ UINT32_MAX) then
    let! _ := rdbWriteRaw [RDB_32BITLEN] in
    let! _ := rdbWriteRaw (net_bytes 4 len) in
    io_ret (1 + 4)
  else
    let! _ := rdbWriteRaw [RDB_64BITLEN] in
    let! _ := rdbWriteRaw (net_bytes 8 len) in
    io_ret (1 + 8).

Definition rdbSaveLzfBlob (data : bytes) (original_len : Z) : save_t :=
  let! n1 := rdbWriteRaw [Z.lor (Z.shiftl RDB_ENCVAL 6) RDB_ENC_LZF] in
  let! n2 := rdbSaveLen (zlen data) in
  let! n3 := rdbSaveLen original_len in
  let! n4 := rdbWriteRaw data in
  io_ret (n1 + n2 + n3 + n4).

(** 0 when the string is not compressed. *)
Definition rdbSaveLzfStringObject (s : bytes) : save_t :=
  if decide (zlen s ≤ 4) then io_ret 0
  else
    let outlen := zlen s - 4 in
    let! (out, comprlen) := io_of (lzf_compress addr s stack (junk <$> seq 0 (Z.to_nat outlen))) in
    if decide (comprlen = 0) then io_ret 0 else rdbSaveLzfBlob (take (Z.to_nat comprlen) out) (zlen s).

(** [Store verbatim]. *)
Definition rdb_save_verbatim (s : bytes) : save_t :=
  let! n := rdbSaveLen (zlen s) in
  if decide (zlen s > 0) then let! _ := rdbWriteRaw s in io_ret (n + zlen s) else io_ret n.

Definition rdbSaveRawString (s : bytes) : save_t :=
  let enc := if decide (zlen s ≤ 11) then rdbTryIntegerEncoding s else [] in
  if decide (zlen enc > 0) then let! _ := rdbWriteRaw enc in io_ret (zlen enc)
  else if rdb_compression && bool_decide (zlen s > 20) then
    let! n := rdbSaveLzfStringObject s in
    if decide (n > 0) then io_ret n else rdb_save_verbatim s
  else rdb_save_verbatim s.

Definition rdbSaveLongLongAsStringObject (value : Z) : save_t :=
  let enc := rdbEncodeInteger value in
  if decide (zlen enc > 0) then rdbWriteRaw enc
  else
    let! buf := io_of (ll_string 32 value) in
    if decide (zlen buf < 32) then
      let! n1 := rdbSaveLen (zlen buf) in
      let! n2 := rdbWriteRaw buf in
      io_ret (n1 + n2)
    else io_of None.

Definition rdbSaveStringObject (obj : string_object) : save_t :=
  match obj with
  | ObjInt n => rdbSaveLongLongAsStringObject n
  | ObjString s => rdbSaveRawString s
  end.

(** ** Loading *)

Abbreviation load_t A := (io (rio S) A).

Definition rdb_read (len : Z) : load_t bytes := λ r, rioRead ops update_cksum r len.

Definition rdbLoadType : load_t Z := let! b := rdb_read 1 in io_of (head b).

Definition rdbIsObjectType (t : Z) : bool := bool_decide ((t >= 0 ∧ t ≤ 7) ∨ (t >= 9 ∧ t ≤ 21)).

Definition rdbLoadObjectType : load_t Z := let! type := rdbLoadType in if rdbIsObjectType type then io_ret type else io_err.

(** Whether the length is a special encoding, and the length. *)
Definition rdbLoadLenByRef : load_t (bool * Z) :=
  let! b := rdb_read 1 in
  let! buf0 := io_of (head b) in
  let type := Z.shiftr (Z.land buf0 0xC0) 6 in
  if decide (type = RDB_ENCVAL) then io_ret (true, Z.land buf0 0x3F)
  else if decide (type = RDB_6BITLEN) then io_ret (false, Z.land buf0 0x3F)
  else if decide (type = RDB_14BITLEN) then
    let! b := rdb_read 1 in
    let! buf1 := io_of (head b) in
    io_ret (false, Z.lor (Z.shiftl (Z.land buf0 0x3F) 8) buf1)
  else if decide (buf0 = RDB_32BITLEN) then let! b := rdb_read 4 in io_ret (false, net_val b)
  else if decide (buf0 = RDB_64BITLEN) then let! b := rdb_read 8 in io_ret (false, net_val b)
  else io_err.

(** An error is the length RDB_LENERR. *)
Definition rdbLoadLen : load_t (bool * Z) :=
  λ r, '(r, x) ← rdbLoadLenByRef r; Some (r, Some (default (false, RDB_LENERR) x)).

Definition has_load_flag (flags flag : Z) : bool := bool_decide (Z.land flags flag ≠ 0).

Definition rdb_load_integer (enctype : Z) : load_t Z :=
  if decide (enctype = RDB_ENC_INT8) then let! enc := rdb_read 1 in io_ret (s8 (le_val enc))
  else if decide (enctype = RDB_ENC_INT16) then let! enc := rdb_read 2 in io_ret (s16 (le_val enc))
  else if decide (enctype = RDB_ENC_INT32) then let! enc := rdb_read 4 in io_ret (s32 (le_val enc))
  else io_err.

Definition rdbLoadIntegerObject (enctype flags : Z) : load_t rdb_loaded :=
  let! val := rdb_load_integer enctype in
  if has_load_flag flags RDB_LOAD_PLAIN then let! s := io_of (ll_string (Z.to_nat LONG_STR_SIZE) val) in io_ret (LoadedPlain s)
  else if has_load_flag flags RDB_LOAD_SDS then let! s := io_of (ll_string (Z.to_nat LONG_STR_SIZE) val) in io_ret (LoadedSds s)
  else if has_load_flag flags RDB_LOAD_ENC then io_ret (LoadedObject (createStringObjectFromLongLongForValue val))
  else let! o := io_of (createStringObjectFromLongLongWithSds val) in io_ret (LoadedObject o).

(** The form in which a string is returned. *)
Definition load_as (flags : Z) (s : bytes) : rdb_loaded :=
  if has_load_flag flags RDB_LOAD_PLAIN then LoadedPlain s
  else if has_load_flag flags RDB_LOAD_SDS then LoadedSds s
  else LoadedObject (ObjString s).

Definition rdbLoadLzfStringObject (flags : Z) : load_t rdb_loaded :=
  let! (_, clen) := rdbLoadLen in
  if decide (clen = RDB_LENERR) then io_err
  else
    let! (_, len) := rdbLoadLen in
    if decide (len = RDB_LENERR) then io_err
    else if negb (alloc clen) then io_err
    else if negb (alloc len) then io_err
    else
      let! c := rdb_read clen in
      let! (val, n, _) := io_of (lzf_decompress c (junk <$> seq 0 (Z.to_nat len))) in
      if decide (n ≠ len) then io_err else io_ret (load_as flags val).

Definition rdbGenericLoadStringObject (flags : Z) : load_t rdb_loaded :=
  let! (isencoded, len) := rdbLoadLen in
  if decide (len = RDB_LENERR) then io_err
  else if isencoded : bool then
    if decide (len = RDB_ENC_INT8 ∨ len = RDB_ENC_INT16 ∨ len = RDB_ENC_INT32) then rdbLoadIntegerObject len flags
    else if decide (len = RDB_ENC_LZF) then rdbLoadLzfStringObject flags
    else io_err
  else if negb (alloc len) then io_err
  else
    let! s := (if decide (len ≠ 0) then rdb_read len else io_ret []) in
    io_ret (load_as flags s).

Definition rdbLoadStringObject : load_t rdb_loaded := rdbGenericLoadStringObject RDB_LOAD_NONE.
Definition rdbLoadEncodedStringObject : load_t rdb_loaded := rdbGenericLoadStringObject RDB_LOAD_ENC.

End rdb.
