(* ===== verification/RdbOk.v ===== *)
(** * rdb.c: what is saved is loaded *)

From S2P Require Import Prelude Util Lzf LzfOk LzfEnc Crc CrcEquiv CrcOk Rio Rdb.

Local Open Scope Z_scope.
Local Open Scope io_scope.

(** ** The formats *)

Lemma net_length n z : 0 ≤ n → zlen (net_bytes n z) = n.
Proof. intros Hn. unfold net_bytes. rewrite length_reverse. by apply le_bytes_length. Qed.

Lemma net_roundtrip n z : 0 ≤ n → net_val (net_bytes n z) = uwrap (n * 8) z.
Proof. intros Hn. unfold net_val, net_bytes. rewrite reverse_involutive. by apply le_val_bytes. Qed.

(** The bytes of a length. *)
Definition len_bytes (len : Z) : bytes :=
  if decide (len < 64) then [len]
  else if decide (len < 16384) then [Z.lor (Z.shiftr len 8) 64; Z.land len 255]
  else if decide (len ≤ UINT32_MAX) then RDB_32BITLEN :: net_bytes 4 len
  else RDB_64BITLEN :: net_bytes 8 len.

Lemma len_6bit len : 0 ≤ len < 64 →
  Z.lor (Z.land len 0xFF) (Z.shiftl RDB_6BITLEN 6) = len ∧ Z.shiftr (Z.land len 0xC0) 6 = RDB_6BITLEN ∧ Z.land len 0x3F = len.
Proof.
  intros Hl. assert ((Z.lor (Z.land len 0xFF) (Z.shiftl RDB_6BITLEN 6) =? len) && (Z.shiftr (Z.land len 0xC0) 6 =? RDB_6BITLEN) && (Z.land len 0x3F =? len) = true) as H.
  { revert len Hl. apply (forall_below 64). vm_compute. reflexivity. }
  rewrite !andb_true_iff, !Z.eqb_eq in H. tauto.
Qed.

Lemma len_14bit len : 0 ≤ len < 16384 →
  let b := Z.lor (Z.shiftr len 8) 64 in
  Z.lor (Z.land (Z.shiftr len 8) 0xFF) (Z.shiftl RDB_14BITLEN 6) = b ∧ Z.shiftr (Z.land b 0xC0) 6 = RDB_14BITLEN ∧
  Z.lor (Z.shiftl (Z.land b 0x3F) 8) (Z.land len 255) = len ∧ byte_ok b.
Proof.
  intros Hl b. set (hi := Z.shiftr len 8) in *.
  assert (0 ≤ hi < 64) as Hhi. { unfold hi. rewrite Z.shiftr_div_pow2 by lia. change (2 ^ 8) with 256. split; [apply Z.div_pos; lia|apply Z.div_lt_upper_bound; lia]. }
  assert ((Z.lor (Z.land hi 0xFF) (Z.shiftl RDB_14BITLEN 6) =? b) && (Z.shiftr (Z.land b 0xC0) 6 =? RDB_14BITLEN) && (Z.land b 0x3F =? hi) && (0 <=? b) && (b <? 256) = true) as H.
  { subst b. clearbody hi. revert hi Hhi. apply (forall_below 64). vm_compute. reflexivity. }
  rewrite !andb_true_iff, !Z.eqb_eq, Z.leb_le, Z.ltb_lt in H. destruct H as [[[[H1 H2] H3] H4] H5]. split_and!; [done|done| |unfold byte_ok; lia]. rewrite H3. apply hi_lo.
Qed.

(** The bytes of a value: there is at least one. *)
Definition some_bytes (bs : bytes) : Prop := bytes_ok bs ∧ bs ≠ [].

Lemma some_bytes_cons b bs : byte_ok b → bytes_ok bs → some_bytes (b :: bs).
Proof. intros Hb Hbs. split; [by constructor|done]. Qed.

Lemma some_bytes_app a b : some_bytes a → bytes_ok b → some_bytes (a ++ b).
Proof. intros [Ha Hne] Hb. split; [by apply Forall_app|]. by destruct a. Qed.

Lemma net_ok n z : 0 ≤ n → bytes_ok (net_bytes n z).
Proof. intros Hn. unfold net_bytes, bytes_ok. rewrite Forall_reverse. by apply le_bytes_ok. Qed.

Lemma len_bytes_ok len : 0 ≤ len < 2 ^ 64 → some_bytes (len_bytes len).
Proof.
  intros Hl. unfold len_bytes. case_decide; [apply some_bytes_cons; [unfold byte_ok; lia|constructor]|]. case_decide.
  { destruct (len_14bit len ltac:(lia)) as (_ & _ & _ & Hb). apply some_bytes_cons; [done|]. constructor; [|constructor]. change 255 with (Z.ones 8). rewrite Z.land_ones by lia. apply u8_range. }
  case_decide; (apply some_bytes_cons; [vm_compute; split; [discriminate|reflexivity]|]); by apply net_ok.
Qed.

(** The bytes of an integer after the first one are those of the machine. *)
Lemma encode_integer value :
  in_srange 64 value →
  match rdbEncodeInteger value with
  | [] => ¬ in_srange 32 value
  | b :: enc => ∃ e n, b = 0xC0 + e ∧ enc = le_bytes n value ∧ in_srange (n * 8) value ∧
      (e = RDB_ENC_INT8 ∧ n = 1 ∨ e = RDB_ENC_INT16 ∧ n = 2 ∨ e = RDB_ENC_INT32 ∧ n = 4)
  end.
Proof.
  intros Hv. unfold rdbEncodeInteger. change (Z.shiftl 1 7) with 128. change (Z.shiftl 1 15) with 32768. change (Z.shiftl 1 31) with 2147483648.
  case_decide; [exists RDB_ENC_INT8, 1; split_and!; [done|reflexivity|range_lia|by left]|].
  case_decide; [exists RDB_ENC_INT16, 2; split_and!; [done|reflexivity|range_lia|by right; left]|].
  case_decide; [exists RDB_ENC_INT32, 4; split_and!; [done| |range_lia|by right; right]|range_lia].
  change (le_bytes 4 value) with [Z.land value 255; Z.land (Z.shiftr value 8) 255; Z.land (Z.shiftr (Z.shiftr value 8) 8) 255;
    Z.land (Z.shiftr (Z.shiftr (Z.shiftr value 8) 8) 8) 255]. by rewrite !Z.shiftr_shiftr by lia.
Qed.

Lemma integer_bytes_ok n b enc : in_srange 64 n → rdbEncodeInteger n = b :: enc → some_bytes (b :: enc).
Proof.
  intros Hn Henc. pose proof (encode_integer n Hn) as He. rewrite Henc in He. destruct He as (e & k & -> & -> & _ & Hk).
  unfold RDB_ENC_INT8, RDB_ENC_INT16, RDB_ENC_INT32 in Hk. apply some_bytes_cons; [unfold byte_ok; lia|]. apply le_bytes_ok. lia.
Qed.

Section streams.
Context {S : Type} (ops : rio_ops S) (update_cksum : option (Z → bytes → Z)) `{!CksumApp update_cksum}.
Context (written : S → bytes) `{!RioWriter ops written}.
Context (ready : S → Prop) (pending : S → bytes) `{!RioReader ops ready pending}.
Implicit Types (r : rio S) (bs : bytes).

(** [m] writes the bytes [bs] and returns [v], unless the stream fails: then it returns the error. *)
Definition emits {A} (m : io (option (rio S)) A) bs (v : A) : Prop :=
  m None = Some (None, Some v) ∧
  ∀ r, 0 ≤ rio_max_processing_chunk r → rio_write_error r = false →
    ∃ r' (ok : bool), m (Some r) = Some (Some r', if ok then Some v else None) ∧ (infallible ops → ok = true) ∧
      if ok then wrote update_cksum written r r' bs else rio_write_error r' = true.

(** [m] takes the bytes [bs] from a stream and returns [v]. *)
Definition loads {A} (m : io (rio S) A) bs (v : A) : Prop :=
  ∀ r rest, 0 ≤ rio_max_processing_chunk r → rio_read_error r = false → ready (rio_io r) → pending (rio_io r) = bs ++ rest →
    ∃ r', m r = Some (r', Some v) ∧ ready (rio_io r') ∧ was_read update_cksum pending r r' bs rest.

Lemma emits_raw p : emits (rdbWriteRaw ops update_cksum p) p (zlen p).
Proof.
  split; [done|]. intros r Hm He. unfold rdbWriteRaw. destruct (rioWrite_ok ops update_cksum written r p Hm He) as (r' & ok & -> & Hinf & Hok). bind_simpl. by exists r', ok.
Qed.

Lemma emits_ret {A} (v : A) : emits (io_ret v) [] v.
Proof. split; [done|]. intros r Hm He. exists r, true. split; [done|]. split; [done|]. split; [by rewrite app_nil_r|by rewrite cksum_nil|done..]. Qed.

Lemma emits_bind {A B} (m : io (option (rio S)) A) (f : A → io (option (rio S)) B) bs bs' v w :
  emits m bs v → emits (f v) bs' w → emits (io_bind m f) (bs ++ bs') w.
Proof.
  intros [H0 H1] [G0 G1]. unfold io_bind. split; [by rewrite H0; bind_simpl|]. intros r Hm He. destruct (H1 r Hm He) as (r1 & ok & -> & Hinf & Hok). bind_simpl.
  destruct ok; [|exists r1, false; by split_and!]. destruct Hok as [W1 W2 W3 W4]. destruct (G1 r1) as (r2 & ok & -> & Hinf2 & Hok); [by rewrite W4|done|]. exists r2, ok. split; [done|]. split; [done|].
  destruct ok; [|done]. destruct Hok as [V1 V2 V3 V4]. split; [by rewrite V1, W1, <- app_assoc|by rewrite V2, W2, <- cksum_app|done|congruence].
Qed.

Lemma emits_map {A B} (m : io (option (rio S)) A) (f : A → B) bs v : emits m bs v → emits (let! x := m in io_ret (f x)) bs (f v).
Proof. intros Hm. rewrite <- (app_nil_r bs). eapply emits_bind; [exact Hm|apply emits_ret]. Qed.

Lemma emits_of {A B} (o : option A) (f : A → io (option (rio S)) B) bs v w : o = Some v → emits (f v) bs w → emits (io_bind (io_of o) f) bs w.
Proof. by intros ->. Qed.

Lemma loads_read a : loads (rdb_read ops update_cksum (zlen a)) a a.
Proof. intros r rest Hm He Hr Hp. by apply (rioRead_ok ops update_cksum ready pending r a rest). Qed.

Lemma loads_ret {A} (v : A) : loads (io_ret v) [] v.
Proof. intros r rest Hm He Hr Hp. exists r. split; [done|]. split; [done|]. split; [done|by rewrite cksum_nil|done..]. Qed.

Lemma loads_bind {A B} (m : io (rio S) A) (f : A → io (rio S) B) bs bs' v w :
  loads m bs v → loads (f v) bs' w → loads (io_bind m f) (bs ++ bs') w.
Proof.
  intros H1 G1 r rest Hm He Hr Hp. rewrite <- app_assoc in Hp. destruct (H1 r (bs' ++ rest) Hm He Hr Hp) as (r1 & Hm1 & Hr1 & [R1 R2 R3 R4]).
  destruct (G1 r1 rest) as (r2 & Hm2 & Hr2 & [Q1 Q2 Q3 Q4]); [by rewrite R4|done..|]. unfold io_bind. rewrite Hm1. bind_simpl. exists r2. split; [done|]. split; [done|].
  split; [done|by rewrite Q2, R2, <- cksum_app|done|congruence].
Qed.

Lemma loads_map {A B} (m : io (rio S) A) (f : A → B) bs v : loads m bs v → loads (let! x := m in io_ret (f x)) bs (f v).
Proof. intros Hm. rewrite <- (app_nil_r bs). eapply loads_bind; [exact Hm|apply loads_ret]. Qed.

Lemma loads_of {A B} (o : option A) (f : A → io (rio S) B) bs v w : o = Some v → loads (f v) bs w → loads (io_bind (io_of o) f) bs w.
Proof. by intros ->. Qed.

(** ** Lengths *)

Lemma save_len_ok len : 0 ≤ len < 2 ^ 64 → emits (rdbSaveLen ops update_cksum len) (len_bytes len) (zlen (len_bytes len)).
Proof.
  intros Hl. unfold rdbSaveLen, len_bytes. change (Z.shiftl 1 6) with 64. change (Z.shiftl 1 14) with 16384. case_decide.
  { destruct (len_6bit len ltac:(lia)) as [-> _]. apply (emits_bind _ _ [len] [] 1); [apply emits_raw|apply emits_ret]. }
  case_decide.
  { destruct (len_14bit len ltac:(lia)) as [-> _]. apply (emits_bind _ _ [_; _] [] 2); [apply emits_raw|apply emits_ret]. }
  case_decide.
  - eapply (emits_bind _ _ [RDB_32BITLEN] _ 1); [apply emits_raw|].
    cbn [length]. replace (Z.of_nat (Datatypes.S (length (net_bytes 4 len)))) with (1 + 4) by (pose proof (net_length 4 len ltac:(lia)); lia).
    apply (emits_map _ (λ _, _) _ (zlen (net_bytes 4 len))), emits_raw.
  - eapply (emits_bind _ _ [RDB_64BITLEN] _ 1); [apply emits_raw|].
    cbn [length]. replace (Z.of_nat (Datatypes.S (length (net_bytes 8 len)))) with (1 + 8) by (pose proof (net_length 8 len ltac:(lia)); lia).
    apply (emits_map _ (λ _, _)  _ (zlen (net_bytes 8 len))), emits_raw.
Qed.

Lemma loads_byte {A} b (f : Z → io (rio S) A) bs v :
  loads (f b) bs v → loads (let! x := rdb_read ops update_cksum 1 in let! y := io_of (head x) in f y) (b :: bs) v.
Proof. intros Hf. apply (loads_bind _ _ [b] bs [b]); [apply (loads_read [b])|]. by apply loads_of with b. Qed.

Lemma loads_net {A} n len (f : Z → A) :
  0 ≤ n → in_urange (n * 8) len → loads (let! b := rdb_read ops update_cksum n in io_ret (f (net_val b))) (net_bytes n len) (f len).
Proof.
  intros Hn Hl. pose proof (loads_read (net_bytes n len)) as H. rewrite net_length in H by done. apply (loads_map _ (λ b, f (net_val b))) in H.
  by rewrite net_roundtrip, uwrap_small in H.
Qed.

Lemma load_len_ok len : 0 ≤ len < 2 ^ 64 → loads (rdbLoadLenByRef ops update_cksum) (len_bytes len) (false, len).
Proof.
  intros Hl. unfold rdbLoadLenByRef, len_bytes. case_decide.
  { destruct (len_6bit len ltac:(lia)) as (_ & H6 & Hlen). apply loads_byte. rewrite H6, Hlen. apply loads_ret. }
  case_decide.
  { destruct (len_14bit len ltac:(lia)) as (_ & H14 & Hlen & _). apply loads_byte. rewrite H14. cbn [decide]. rewrite decide_False by done. rewrite decide_False by done.
    rewrite decide_True by done. apply loads_byte. rewrite Hlen. apply loads_ret. }
  case_decide.
  - apply loads_byte. change (Z.shiftr (Z.land RDB_32BITLEN 192) 6) with 2. repeat (rewrite decide_False by done). rewrite decide_True by done.
    apply (loads_net 4 len (λ l, (false, l))); [done|]. range_lia.
  - apply loads_byte. change (Z.shiftr (Z.land RDB_64BITLEN 192) 6) with 2. repeat (rewrite decide_False by done). rewrite decide_True by done.
    apply (loads_net 8 len (λ l, (false, l))); [done|]. range_lia.
Qed.

Lemma load_default {A} (m : io (rio S) A) d bs v :
  loads m bs v → loads (λ r, '(r, x) ← m r; Some (r, Some (default d x))) bs v.
Proof. intros Hm r rest H1 H2 H3 H4. destruct (Hm r rest H1 H2 H3 H4) as (r' & -> & Hr & Hw). bind_simpl. by exists r'. Qed.

Lemma rdbLoadLen_ok len : 0 ≤ len < 2 ^ 64 → loads (rdbLoadLen ops update_cksum) (len_bytes len) (false, len).
Proof. intros Hl. unfold rdbLoadLen. by apply load_default, load_len_ok. Qed.

(** The first byte of a special encoding. *)
Lemma load_encoded e : 0 ≤ e < 4 → loads (rdbLoadLen ops update_cksum) [0xC0 + e] (true, e).
Proof.
  intros He. unfold rdbLoadLen. apply load_default. unfold rdbLoadLenByRef. apply loads_byte.
  assert (e = 0 ∨ e = 1 ∨ e = 2 ∨ e = 3) as [-> | [-> | [-> | ->]]] by lia; apply loads_ret.
Qed.

(** ** Strings *)

Context (rdb_compression : bool) (addr : Z) (stack : Z → Z) (junk : nat → Z) (alloc : Z → bool).

(** The string of an object. *)
Definition object_string (o : string_object) : bytes := match o with ObjInt n => decimal n | ObjString s => s end.

(** The string [t] in the form that the flags ask for. *)
Definition loaded (flags : Z) (t : bytes) (v : rdb_loaded) : Prop :=
  if has_load_flag flags RDB_LOAD_PLAIN then v = LoadedPlain t
  else if has_load_flag flags RDB_LOAD_SDS then v = LoadedSds t
  else ∃ o, v = LoadedObject o ∧ object_string o = t ∧ match o with ObjInt n => in_srange 64 n | ObjString _ => True end.

Lemma load_as_string flags t : loaded flags t (load_as flags t).
Proof. unfold loaded, load_as. repeat case_match; [done..|]. by exists (ObjString t). Qed.

(** The bytes [bs] are loaded as the string [t], whatever the flags. *)
Definition string_of bs (t : bytes) : Prop :=
  ∀ flags, ∃ v, loads (rdbGenericLoadStringObject ops update_cksum junk alloc flags) bs v ∧ loaded flags t v.

Lemma loads_le k w n :
  0 < k → w = k * 8 → in_srange w n → loads (let! enc := rdb_read ops update_cksum k in io_ret (swrap w (le_val enc))) (le_bytes k n) n.
Proof.
  intros Hk Hw Hn. pose proof (loads_read (le_bytes k n)) as Hr. rewrite le_bytes_length in Hr by lia. apply (loads_map _ (λ enc, swrap w (le_val enc))) in Hr.
  by rewrite (swrap_le_val_bytes k w n) in Hr.
Qed.

Lemma load_int_ok flags n e k :
  in_srange (k * 8) n → (e = RDB_ENC_INT8 ∧ k = 1 ∨ e = RDB_ENC_INT16 ∧ k = 2 ∨ e = RDB_ENC_INT32 ∧ k = 4) →
  ∃ v, loads (rdbLoadIntegerObject ops update_cksum e flags) (le_bytes k n) v ∧ loaded flags (decimal n) v.
Proof.
  intros Hn Hk. assert (in_srange 64 n) as Hn64 by (destruct Hk as [[_ ->]|[[_ ->]|[_ ->]]]; range_lia).
  assert (loads (rdb_load_integer ops update_cksum e) (le_bytes k n) n) as Hload.
  { destruct Hk as [[-> ->]|[[-> ->]|[-> ->]]]; [by apply (loads_le 1 8)|by apply (loads_le 2 16)|by apply (loads_le 4 32)]. }
  assert (ll_string (Z.to_nat LONG_STR_SIZE) n = Some (decimal n)) as Hs by (apply ll_string_ok; [done|vm_compute; lia]).
  unfold rdbLoadIntegerObject, loaded. rewrite <- (app_nil_r (le_bytes k n)).
  destruct (has_load_flag flags RDB_LOAD_PLAIN); [eexists; split; [eapply loads_bind; [exact Hload|]; eapply loads_of; [exact Hs|apply loads_ret]|done]|].
  destruct (has_load_flag flags RDB_LOAD_SDS); [eexists; split; [eapply loads_bind; [exact Hload|]; eapply loads_of; [exact Hs|apply loads_ret]|done]|].
  destruct (has_load_flag flags RDB_LOAD_ENC); [eexists; split; [eapply loads_bind; [exact Hload|]; apply loads_ret|by eexists]|].
  eexists. split; [eapply loads_bind; [exact Hload|]; eapply loads_of; [unfold createStringObjectFromLongLongWithSds; by rewrite Hs|apply loads_ret]|by eexists].
Qed.

(** An integer in its short form. *)
Lemma integer_string_of n b enc : in_srange 64 n → rdbEncodeInteger n = b :: enc → string_of (b :: enc) (decimal n).
Proof.
  intros Hn Henc flags. pose proof (encode_integer n Hn) as He. rewrite Henc in He. destruct He as (e & k & -> & -> & Hr & Hk).
  destruct (load_int_ok flags n e k Hr Hk) as (v & Hv & Hs). exists v. split; [|done]. unfold rdbGenericLoadStringObject.
  assert (0 ≤ e < 4 ∧ (e = RDB_ENC_INT8 ∨ e = RDB_ENC_INT16 ∨ e = RDB_ENC_INT32)) as [He4 He].
  { unfold RDB_ENC_INT8, RDB_ENC_INT16, RDB_ENC_INT32 in *. lia. }
  apply (loads_bind _ _ [0xC0 + e] _ (true, e)); [by apply load_encoded|]. cbn beta iota. rewrite decide_False by (unfold RDB_LENERR, ULLONG_MAX; lia). by rewrite decide_True.
Qed.

(** A string with its length. *)
Lemma verbatim_string_of t : zlen t < 2 ^ 63 → alloc (zlen t) = true → string_of (len_bytes (zlen t) ++ t) t.
Proof.
  intros Hl Ha flags. exists (load_as flags t). split; [|apply load_as_string]. unfold rdbGenericLoadStringObject.
  eapply loads_bind; [apply rdbLoadLen_ok; lia|]. cbn beta iota. rewrite decide_False by (unfold RDB_LENERR, ULLONG_MAX; lia). rewrite Ha. cbn [negb].
  apply (loads_map _ (load_as flags)). case_decide; [apply loads_read|]. destruct t; [apply loads_ret|done].
Qed.

Lemma save_verbatim_ok t :
  zlen t < 2 ^ 63 → emits (rdb_save_verbatim ops update_cksum t) (len_bytes (zlen t) ++ t) (zlen (len_bytes (zlen t) ++ t)).
Proof.
  intros Hl. unfold rdb_save_verbatim. eapply emits_bind; [apply save_len_ok; lia|]. rewrite length_app, Nat2Z.inj_add. case_decide.
  - apply (emits_map _ (λ _, _) t (zlen t)), emits_raw.
  - destruct t; [|done]. rewrite Z.add_0_r. apply emits_ret.
Qed.

(** A compressed string. *)
Definition lzf_blob (c : bytes) (len : Z) : bytes := 0xC3 :: len_bytes (zlen c) ++ len_bytes len ++ c.

Lemma lzf_string_of c t :
  lzf_out c t → bytes_ok c → zlen c < 2 ^ 63 → zlen t < 2 ^ 63 → alloc (zlen c) = true → alloc (zlen t) = true → string_of (lzf_blob c (zlen t)) t.
Proof.
  intros Hout Hok Hc Ht Hac Hat flags. exists (load_as flags t). split; [|apply load_as_string]. unfold rdbGenericLoadStringObject, lzf_blob.
  apply (loads_bind _ _ [0xC0 + RDB_ENC_LZF] _ (true, RDB_ENC_LZF)); [by apply load_encoded|]. cbn beta iota. rewrite decide_False by done.
  rewrite decide_False by (unfold RDB_ENC_LZF, RDB_ENC_INT8, RDB_ENC_INT16, RDB_ENC_INT32; lia). rewrite decide_True by done. unfold rdbLoadLzfStringObject.
  eapply loads_bind; [apply rdbLoadLen_ok; lia|]. cbn beta iota. rewrite decide_False by (unfold RDB_LENERR, ULLONG_MAX; lia).
  eapply loads_bind; [apply rdbLoadLen_ok; lia|]. cbn beta iota. rewrite decide_False by (unfold RDB_LENERR, ULLONG_MAX; lia). rewrite Hac, Hat. cbn [negb].
  rewrite <- (app_nil_r c). eapply loads_bind; [rewrite !app_nil_r; apply loads_read|].
  assert (lzf_decompress c (junk <$> seq 0 (Z.to_nat (zlen t))) = Some (t, zlen t, None)) as Hd.
  { rewrite (decompress_ok c t) by (done || by rewrite length_fmap, length_seq, Nat2Z.id). rewrite drop_ge, app_nil_r; [done|]. by rewrite length_fmap, length_seq, Nat2Z.id. }
  eapply loads_of; [exact Hd|]. cbn beta iota. rewrite decide_False by lia. apply loads_ret.
Qed.

Lemma save_blob_ok c len :
  zlen c < 2 ^ 63 → 0 ≤ len < 2 ^ 63 → emits (rdbSaveLzfBlob ops update_cksum c len) (lzf_blob c len) (zlen (lzf_blob c len)).
Proof.
  intros Hc Hl. unfold rdbSaveLzfBlob, lzf_blob. eapply (emits_bind _ _ [_] _ 1); [apply emits_raw|]. eapply emits_bind; [apply save_len_ok; lia|].
  eapply emits_bind; [apply save_len_ok; lia|].
  replace (Z.of_nat (length (0xC3 :: len_bytes (zlen c) ++ len_bytes len ++ c))) with (1 + zlen (len_bytes (zlen c)) + zlen (len_bytes len) + zlen c)
    by (cbn [length]; rewrite !length_app; lia). apply (emits_map _ (λ n4, _ + n4)), emits_raw.
Qed.

(** What is saved for a string is loaded as that string. *)
Lemma save_raw_ok t :
  bytes_ok t → zlen t < 2 ^ 63 → MAX_OFF ≤ addr → addr + zlen t < 2 ^ 64 → (∀ i, in_urange 64 (stack i)) → (∀ n, 0 ≤ n ≤ zlen t → alloc n = true) →
  ∃ bs, emits (rdbSaveRawString ops update_cksum rdb_compression addr stack junk t) bs (zlen bs) ∧ string_of bs t ∧ some_bytes bs.
Proof.
  intros Hok Ht Haddr Hend Hstack Halloc. unfold rdbSaveRawString. set (enc := if decide (zlen t ≤ 11) then _ else _).
  destruct enc as [|b e] eqn:Henc.
  2: { subst enc. case_decide as H11; [|done]. unfold rdbTryIntegerEncoding in Henc. destruct (string2ll t) as [n|] eqn:Hs; [|done].
       apply string2ll_ok in Hs as [Hn ->]. exists (b :: e). split; [|split; [by eapply integer_string_of|by eapply integer_bytes_ok]]. rewrite decide_True by (cbn [length]; lia).
       apply (emits_map _ (λ _, _) _ (zlen (b :: e))), emits_raw. }
  clear Henc enc. rewrite decide_False by (simpl; lia).
  assert (∃ bs, emits (rdb_save_verbatim ops update_cksum t) bs (zlen bs) ∧ string_of bs t ∧ some_bytes bs) as Hverb.
  { exists (len_bytes (zlen t) ++ t). split; [by apply save_verbatim_ok|]. split; [apply verbatim_string_of; [done|by apply Halloc; lia]|].
    apply some_bytes_app; [apply len_bytes_ok; lia|done]. }
  destruct (rdb_compression && _) eqn:Hcomp; [|done]. apply andb_true_iff in Hcomp as [_ H20%bool_decide_eq_true]. unfold rdbSaveLzfStringObject.
  rewrite decide_False by lia. set (buf := junk <$> seq 0 (Z.to_nat (zlen t - 4))). assert (zlen buf = zlen t - 4) as Hbuf by (unfold buf; rewrite length_fmap, length_seq; lia).
  destruct (lzf_compress_ok addr t stack Haddr Hend Hstack Hok (zlen buf) buf eq_refl ltac:(lia)) as (out & n & Hlzf & Hlen & Hn & Hfmt).
  destruct (decide (n = 0)) as [->|Hn0].
  - destruct Hverb as (bs & Hem & Hstr & Hne). exists bs. split; [|done]. change bs with ([] ++ bs) at 1.
    apply (emits_bind _ _ [] bs 0); [|by rewrite decide_False by lia]. eapply emits_of; [exact Hlzf|]. cbn beta iota. rewrite decide_True by done. apply emits_ret.
  - destruct (Hfmt Hn0) as (c & sl & -> & -> & Hout & Hokc). exists (lzf_blob c (zlen t)). split; [|split].
    + rewrite <- (app_nil_r (lzf_blob c (zlen t))) at 1. apply (emits_bind _ _ _ [] (zlen (lzf_blob c (zlen t)))).
      * eapply emits_of; [exact Hlzf|]. cbn beta iota. rewrite decide_False by done. rewrite Nat2Z.id, take_app_length. apply save_blob_ok; lia.
      * rewrite decide_True by (unfold lzf_blob; cbn [length]; lia). apply emits_ret.
    + apply lzf_string_of; [done..|lia|done|apply Halloc; lia|apply Halloc; lia].
    + apply some_bytes_cons; [vm_compute; split; [discriminate|reflexivity]|]. apply Forall_app. split; [apply len_bytes_ok; lia|].
      apply Forall_app. split; [apply len_bytes_ok; lia|done].
Qed.

Lemma save_object_ok o :
  match o with ObjInt n => in_srange 64 n | ObjString t => bytes_ok t ∧ zlen t < 2 ^ 63 ∧ addr + zlen t < 2 ^ 64 end →
  MAX_OFF ≤ addr → (∀ i, in_urange 64 (stack i)) → (∀ n, 0 ≤ n ≤ zlen (object_string o) → alloc n = true) →
  ∃ bs, emits (rdbSaveStringObject ops update_cksum rdb_compression addr stack junk o) bs (zlen bs) ∧ string_of bs (object_string o) ∧ some_bytes bs.
Proof.
  intros Ho Haddr Hstack Halloc. destruct o as [n|t]; cbn [rdbSaveStringObject object_string] in *.
  2: { destruct Ho as (Hok & Ht & Hend). by apply save_raw_ok. }
  unfold rdbSaveLongLongAsStringObject. pose proof (decimal_short n Ho) as Hd. destruct (rdbEncodeInteger n) as [|b e] eqn:Henc.
  - rewrite decide_False by (simpl; lia). exists (len_bytes (zlen (decimal n)) ++ decimal n). split_and!.
    + eapply emits_of; [apply ll_string_ok; [done|lia]|]. rewrite decide_True by lia. eapply emits_bind; [apply save_len_ok; lia|].
      rewrite length_app, Nat2Z.inj_add. apply (emits_map _ (λ n2, _ + n2)), emits_raw.
    + apply verbatim_string_of; [lia|]. apply Halloc. lia.
    + apply some_bytes_app; [apply len_bytes_ok; lia|apply decimal_bytes_ok].
  - rewrite decide_True by (cbn [length]; lia). exists (b :: e). split; [apply emits_raw|]. split; [by eapply integer_string_of|by eapply integer_bytes_ok].
Qed.

End streams.
