(* ===== verification/RdbObj.v ===== *)
(** * rdb.c: strings and sets as values; cluster.c: DUMP and RESTORE

Saving and loading of the objects of two types, with the conversions between the encodings of a set
that loading makes according to the configuration, and the validation of the compact encodings. *)

From S2P Require Import Prelude Intset Dict Util Listpack Lzf Rio Rdb Tset.

Local Open Scope Z_scope.
Local Open Scope io_scope.

Definition RDB_VERSION : Z := 11.
Definition RDB_TYPE_STRING : Z := 0.
Definition RDB_TYPE_SET : Z := 2.
Definition RDB_TYPE_SET_INTSET : Z := 11.
Definition RDB_TYPE_SET_LISTPACK : Z := 20.

(** [robj] of type OBJ_STRING or OBJ_SET. *)
Inductive robj := RString (o : string_object) | RSet (o : set_object).

(** The type that [rdbSaveObjectType] writes. *)
Definition rdb_object_type (o : robj) : Z :=
  match o with
  | RString _ => RDB_TYPE_STRING
  | RSet (SetIntset _) => RDB_TYPE_SET_INTSET
  | RSet (SetHt _) => RDB_TYPE_SET
  | RSet (SetListpack _) => RDB_TYPE_SET_LISTPACK
  end.

(** object.c; shared integers are integers, and whether a string is embedded in its object is not told apart. *)
Definition tryObjectEncodingEx (refcount : Z) (o : string_object) : string_object :=
  match o with
  | ObjInt _ => o
  | ObjString s =>
      if decide (refcount > 1) then o
      else if decide (zlen s ≤ 20) then match string2l s with Some value => ObjInt value | None => o end
      else o
  end.

(** ** Validation *)

Inductive sanitize_dump := SANITIZE_DUMP_NO | SANITIZE_DUMP_YES | SANITIZE_DUMP_CLIENTS.

(** [deep_integrity_validation] of [rdbLoadObject]; the client, if there is one: CLIENT_MASTER, and the flag
    USER_FLAG_SANITIZE_PAYLOAD_SKIP of its user. *)
Definition deep_validation (sanitize_dump_payload : sanitize_dump) (loading : bool) (current_client : option (bool * option bool)) : bool :=
  match sanitize_dump_payload with
  | SANITIZE_DUMP_NO => false
  | SANITIZE_DUMP_YES => true
  | SANITIZE_DUMP_CLIENTS =>
      let skip := loading || match current_client with Some (master, _) => master | None => false end in
      let skip := if negb skip then match current_client with Some (_, Some flag) => flag | _ => skip end else skip in
      negb skip
  end.

Section validation.
(** [hashDictType] and the setting of dict.c. *)
Context (hdt : dictType bytes) (can : dictResizeEnable).

(** [data]: the number of entries seen, and the dictionary once there is one. *)
Definition dups_data : Type := Z * option (dict bytes ()).

Definition _lpEntryValidation (lp : bytes) (pairs : bool) (p head_count : Z) (data : dups_data) : option (dups_data * bool) :=
  let '(count, fields) := data in
  fields ← (match fields with
            | Some d => Some d
            | None => '(d, _) ← dictExpand dictCreate (if pairs then head_count / 2 else head_count); Some d
            end);
  '(fields, ok) ← (if negb pairs || bool_decide (Z.land count 1 = 0) then
                     v ← lpGet lp p;
                     str ← value_str (match v with VStr s => ValStr s | VInt n => ValInt n end);
                     dictAdd hdt can fields str ()
                   else Some (fields, true));
  if ok : bool then Some ((count + 1, Some fields), true) else Some ((count, Some fields), false).

Definition lpValidateIntegrityAndDups (lp : bytes) (deep pairs : bool) : option bool :=
  if negb deep then '(_, ret) ← lpValidateIntegrity lp false None (); Some ret
  else
    '(data, ret) ← lpValidateIntegrity lp true (Some (_lpEntryValidation lp pairs)) (0, None);
    Some (if pairs && bool_decide (Z.land (fst data) 1 ≠ 0) then false else ret).

End validation.

Section object.
Context {S : Type} (ops : rio_ops S) (update_cksum : option (Z → bytes → Z)).
Context (rdb_compression : bool).
(** The addresses of strings, the table of the compressor, the bytes of fresh blocks and the allocations that succeed. *)
Context (addr : bytes → Z) (stack : bytes → Z → Z) (junk : nat → Z) (alloc : Z → bool).
(** The types of dictionaries, the setting of dict.c, the addresses of tables, and the tables that can be allocated. *)
Context (dt hdt : dictType bytes) (can : dictResizeEnable) (table_addr : bool → Z) (dict_alloc : Z → bool).
(** The configuration. *)
Context (set_max_intset_entries set_max_listpack_entries set_max_listpack_value : Z).

(** ** Saving *)

Abbreviation save_t := (io (option (rio S)) Z).

Definition save_raw (s : bytes) : save_t := rdbSaveRawString ops update_cksum rdb_compression (addr s) (stack s) junk s.

Definition rdbSaveObjectType (o : robj) : save_t := rdbSaveType ops update_cksum (rdb_object_type o).

(** The loop over the members, until one cannot be written. *)
Definition save_members (d : dict bytes ()) (nwritten : Z) : save_t :=
  λ rdb,
    set_iterate table_addr (λ _, Some (SetHt d))
      (λ ele '(rdb, nwritten),
         ele ← value_str ele;
         '(rdb, n) ← save_raw ele rdb;
         Some (match n, nwritten with
               | Some n, Some nwritten => (rdb, Some (nwritten + n), true)
               | _, _ => (rdb, None, false)
               end)) (rdb, Some nwritten).

Definition rdbSaveObject (o : robj) : save_t :=
  match o with
  | RString (ObjInt n) => rdbSaveStringObject ops update_cksum rdb_compression 0 (λ _, 0) junk (ObjInt n)
  | RString (ObjString s) => rdbSaveStringObject ops update_cksum rdb_compression (addr s) (stack s) junk (ObjString s)
  | RSet (SetHt d) => let! n := rdbSaveLen ops update_cksum (dictSize d) in save_members d n
  | RSet (SetIntset iset) => let! l := io_of (mem_read (intset_blob iset) 0 (intsetBlobLen iset)) in save_raw l
  | RSet (SetListpack lp) => let! l := io_of (lpBytes lp) in let! l := io_of (mem_read lp 0 l) in save_raw l
  end.

(** ** Loading *)

Abbreviation load_t A := (io (rio S) A).

(** A step that can find an error. *)
Definition io_check {X A} (o : option (option A)) : io X A := λ x, a ← o; Some (x, a).

Definition load_string (flags : Z) : load_t rdb_loaded := rdbGenericLoadStringObject ops update_cksum junk alloc flags.

(** [setTypeConvertAndExpand(o, OBJ_ENCODING_HT, len, 0)]. *)
Definition load_convert (o : set_object) (len : Z) : option (option set_object) :=
  '(o, ok) ← setTypeConvertAndExpand junk dt can table_addr o OBJ_ENCODING_HT len (Some (dict_alloc len));
  Some (if ok : bool then Some o else None).

(** [if (o->encoding == OBJ_ENCODING_INTSET) { ... }]. *)
Definition load_intset (len : Z) (o : set_object) (sdsele : bytes) (maxelelen sumelelen : Z) : option (option set_object) :=
  match o with
  | SetIntset iset =>
      match string2ll sdsele with
      | Some llval => '(iset, success) ← intsetAdd junk iset llval; Some (if success : bool then Some (SetIntset iset) else None)
      | None =>
          '(o, n) ← setTypeSize o;
          safe ← lpSafeToAdd None sumelelen;
          if bool_decide (n < set_max_listpack_entries) && bool_decide (maxelelen ≤ set_max_listpack_value) && safe
          then o ← setTypeConvert junk dt can table_addr o OBJ_ENCODING_LISTPACK; Some (Some o)
          else load_convert o len
      end
  | _ => Some (Some o)
  end.

(** [if (o->encoding == OBJ_ENCODING_LISTPACK) { ... }]. *)
Definition load_listpack (len : Z) (o : set_object) (sdsele : bytes) : option (option set_object) :=
  match o with
  | SetListpack lp =>
      '(lp, n) ← lpLength lp;
      safe ← lpSafeToAdd (Some lp) (zlen sdsele);
      if bool_decide (n < set_max_listpack_entries) && bool_decide (zlen sdsele ≤ set_max_listpack_value) && safe then
        p ← set_lp_find lp sdsele;
        match p with
        | Some _ => Some None
        | None => lp ← not_null (lpAppend junk lp sdsele); Some (Some (SetListpack lp))
        end
      else load_convert (SetListpack lp) len
  | _ => Some (Some o)
  end.

(** [if (o->encoding == OBJ_ENCODING_HT) { ... }]. *)
Definition load_ht (o : set_object) (sdsele : bytes) : option (option set_object) :=
  match o with
  | SetHt d => '(d, ok) ← dictAdd dt can d sdsele (); Some (if ok : bool then Some (SetHt d) else None)
  | _ => Some (Some o)
  end.

(** One element: each part also handles the encoding that the part before has chosen. *)
Definition load_member (len : Z) (o : set_object) (sdsele : bytes) (maxelelen sumelelen : Z) : option (option set_object) :=
  o ← load_intset len o sdsele maxelelen sumelelen;
  match o with
  | None => Some None
  | Some o =>
      o ← load_listpack len o sdsele;
      match o with
      | None => Some None
      | Some o => load_ht o sdsele
      end
  end.

(** [for (i = 0; i < len; i++)]; [i] is an unsigned int, [len] has 64 bits. *)
Fixpoint load_members (fuel : nat) (len i : Z) (o : set_object) (maxelelen sumelelen : Z) : load_t set_object :=
  if decide (i < len) then
    match fuel with
    | O => io_of None
    | Datatypes.S fuel =>
        let! sdsele := load_string RDB_LOAD_SDS in
        let! sdsele := io_of (match sdsele with LoadedSds s => Some s | _ => None end) in
        let elelen := zlen sdsele in
        let sumelelen := u64 (sumelelen + elelen) in
        let maxelelen := Z.max maxelelen elelen in
        let! o := io_check (load_member len o sdsele maxelelen sumelelen) in
        load_members fuel len (u32 (i + 1)) o maxelelen sumelelen
    end
  else io_ret o.

(** The object that is filled: a hash table when there are too many elements for an intset. *)
Definition load_set_create (len : Z) : option (option set_object) :=
  if decide (len > intsetMaxEntries set_max_intset_entries) then
    if decide (len > DICT_HT_INITIAL_SIZE) then
      '(d, ok) ← dictTryExpand dictCreate len (dict_alloc len); Some (if ok : bool then Some (SetHt d) else None)
    else Some (Some (SetHt dictCreate))
  else Some (Some (SetIntset intsetNew)).

(** A value without an object is the error RDB_LOAD_ERR_EMPTY_KEY. *)
Definition load_set : load_t (option robj) :=
  let! (_, len) := rdbLoadLen ops update_cksum in
  if decide (len = RDB_LENERR) then io_err
  else if decide (len = 0) then io_ret None
  else
    let! o := io_check (load_set_create len) in
    let! o := load_members (Z.to_nat len) len 0 o 0 0 in
    io_ret (Some (RSet o)).

Definition load_set_intset (deep : bool) (encoded : bytes) : option (option robj) :=
  ok ← intsetValidateIntegrity encoded deep;
  if negb ok then Some None
  else
    iset ← intset_of_blob encoded;
    o ← (if decide (intsetLen iset > set_max_intset_entries) then setTypeConvert junk dt can table_addr (SetIntset iset) OBJ_ENCODING_HT
         else Some (SetIntset iset));
    Some (Some (RSet o)).

Definition load_set_listpack (deep : bool) (encoded : bytes) : option (option (option robj)) :=
  ok ← lpValidateIntegrityAndDups hdt can encoded deep false;
  if negb ok then Some None
  else
    '(o, n) ← setTypeSize (SetListpack encoded);
    if decide (n = 0) then Some (Some None)
    else
      '(o, n) ← setTypeSize o;
      o ← (if decide (n > set_max_listpack_entries) then setTypeConvert junk dt can table_addr o OBJ_ENCODING_HT else Some o);
      Some (Some (Some (RSet o))).

(** [None] stands also for the types that are not modelled. *)
Definition rdbLoadObject (deep : bool) (rdbtype : Z) : load_t (option robj) :=
  if decide (rdbtype = RDB_TYPE_STRING) then
    let! v := load_string RDB_LOAD_ENC in
    let! o := io_of (match v with LoadedObject o => Some o | _ => None end) in
    io_ret (Some (RString (tryObjectEncodingEx 1 o)))
  else if decide (rdbtype = RDB_TYPE_SET) then load_set
  else if decide (rdbtype = RDB_TYPE_SET_INTSET ∨ rdbtype = RDB_TYPE_SET_LISTPACK) then
    let! v := load_string RDB_LOAD_PLAIN in
    let! encoded := io_of (match v with LoadedPlain s => Some s | _ => None end) in
    if decide (rdbtype = RDB_TYPE_SET_INTSET) then let! o := io_check (load_set_intset deep encoded) in io_ret (Some o)
    else io_check (load_set_listpack deep encoded)
  else io_of None.

End object.

(** ** DUMP and RESTORE *)

Section dump.
Context (rdb_compression : bool) (addr : bytes → Z) (stack : bytes → Z → Z) (junk : nat → Z) (alloc : Z → bool).
Context (dt hdt : dictType bytes) (can : dictResizeEnable) (table_addr : bool → Z) (dict_alloc : Z → bool).
Context (set_max_intset_entries set_max_listpack_entries set_max_listpack_value : Z).
(** [crc64] with its table. *)
Context (crc : Z → bytes → option Z).
(** [server.skip_checksum_validation]. *)
Context (skip_checksum_validation : bool).

(** The bytes of the payload.  The assertions fail when a function returns 0; -1 passes. *)
Definition createDumpPayload (o : robj) : option bytes :=
  '(rdb, t) ← rdbSaveObjectType rioBufferIO None o (Some (rioInitWithBuffer []));
  '(rdb, n) ← (if decide (t = Some 0) then None else rdbSaveObject rioBufferIO None rdb_compression addr stack junk table_addr o rdb);
  r ← (if decide (n = Some 0) then None else rdb);
  let ptr := buffer_ptr (rio_io r) ++ [Z.land RDB_VERSION 0xff; Z.land (Z.shiftr RDB_VERSION 8) 0xff] in
  c ← crc 0 ptr;
  Some (ptr ++ le_bytes 8 c).

(** [true] is C_OK; the version is returned too. *)
Definition verifyDumpPayload (p : bytes) : option (bool * option Z) :=
  let len := zlen p in
  if decide (len < 10) then Some (false, None)
  else
    let footer := len - 10 in
    f0 ← mem_get p footer;
    f1 ← mem_get p (footer + 1);
    let rdbver := u16 (Z.lor (Z.shiftl f1 8) f0) in
    if decide (rdbver > RDB_VERSION) then Some (false, Some rdbver)
    else if skip_checksum_validation then Some (true, Some rdbver)
    else
      body ← mem_read p 0 (len - 8);
      c ← crc 0 body;
      sum ← mem_read p (footer + 2) 8;
      Some (bool_decide (le_bytes 8 c = sum), Some rdbver).

Inductive restored := BadChecksum | BadFormat | Restored (obj : robj).

(** The part of [restoreCommand] from the check of the payload to the object. *)
Definition restore_object (deep : bool) (p : bytes) : option restored :=
  '(ok, _) ← verifyDumpPayload p;
  if negb ok then Some BadChecksum
  else
    '(payload, type) ← rdbLoadObjectType rioBufferIO None (rioInitWithBuffer p);
    match type with
    | None => Some BadFormat
    | Some type =>
        '(_, obj) ← rdbLoadObject rioBufferIO None junk alloc dt hdt can table_addr dict_alloc set_max_intset_entries set_max_listpack_entries
                      set_max_listpack_value deep type payload;
        Some (match obj with Some (Some obj) => Restored obj | _ => BadFormat end)
    end.

End dump.
