(* ===== verification/RdbBlob.v ===== *)
(** * Compact encodings as strings: their bytes, and that validation accepts them *)

From S2P Require Import Prelude Intset Dict DictInv DictOps DictLife Util Listpack ListpackEnc ListpackOps ListpackBulk ListpackVal Tset TsetInv TsetConv TsetOps Rdb RdbObj.

Local Open Scope Z_scope.

(** ** Bytes *)

Lemma byte_land x : byte_ok (Z.land x 255).
Proof. change 255 with (Z.ones 8). rewrite Z.land_ones by lia. by apply (uwrap_range 8). Qed.

Lemma byte_lor a b : byte_ok a → byte_ok b → byte_ok (Z.lor a b).
Proof. intros Ha Hb. assert (in_urange 8 (Z.lor a b)); [|done]. by apply lor_range. Qed.

Lemma byte_low7 x : byte_ok (Z.lor (Z.land x 127) 128).
Proof. apply byte_lor; [|done]. change 127 with (Z.ones 7). rewrite Z.land_ones by lia. pose proof (Z.mod_pos_bound x (2 ^ 7) ltac:(lia)). unfold byte_ok. lia. Qed.

Lemma byte_shiftr x n : 0 ≤ n → 0 ≤ x < 256 * 2 ^ n → byte_ok (Z.shiftr x n).
Proof.
  intros Hn Hx. rewrite Z.shiftr_div_pow2 by lia. assert (0 < 2 ^ n) by (apply Z.pow_pos_nonneg; lia).
  split; [apply Z.div_pos; lia|apply Z.div_lt_upper_bound; lia].
Qed.

Lemma backlen_bytes l : 0 ≤ l → bytes_ok (lpEncodeBacklen l).
Proof.
  intros Hl. unfold lpEncodeBacklen.
  repeat case_decide; repeat constructor; first [apply byte_low7|apply byte_shiftr; lia|by apply (uwrap_range 8)|unfold byte_ok; lia].
Qed.

Lemma integer_bytes n : in_srange 64 n → bytes_ok (lpEncodeIntegerGetType n).
Proof.
  intros Hn. unfold lpEncodeIntegerGetType.
  repeat case_decide; try (constructor; [unfold byte_ok; lia|by apply le_bytes_ok]); [repeat constructor; unfold byte_ok; lia|..];
    (constructor; [apply byte_lor; [apply byte_shiftr; change (Z.shiftl 1 13) with 8192; lia|done]|constructor; [apply byte_land|constructor]]).
Qed.

Lemma string_bytes s : bytes_ok s → zlen s < 2 ^ 32 → bytes_ok (lpEncodeString s).
Proof.
  intros Hs Hl. unfold lpEncodeString. case_decide; [constructor; [|done]; apply byte_lor; [unfold byte_ok; lia|done]|].
  case_decide; [constructor; [apply byte_lor; [apply byte_shiftr; lia|done]|constructor; [apply byte_land|done]]|].
  constructor; [done|]. apply Forall_app. split; [by apply le_bytes_ok|done].
Qed.

Lemma entry_bytes v : val_ok v → bytes_ok (lp_string v) → bytes_ok (entry v).
Proof.
  intros Hv Hs. apply Forall_app. split; [|apply backlen_bytes; lia]. destruct v as [s|n]; simpl in *; [apply string_bytes; [done|lia]|by apply integer_bytes].
Qed.

(** The bytes of a listpack whose elements are strings of bytes. *)
Lemma lp_bytes num vs : lp_fits vs → Forall bytes_ok (lp_string <$> vs) → bytes_ok (lp_of num vs []).
Proof.
  intros [Hv _] Hs. unfold lp_of. repeat (apply Forall_app; split); try by apply le_bytes_ok; try by repeat constructor.
  - unfold body. induction vs as [|v vs IH]; [constructor|]. inversion_clear Hv. inversion_clear Hs. simpl. apply Forall_app. split; [by apply entry_bytes|by apply IH].
  - by repeat constructor.
  - constructor.
Qed.

(** Every byte of an intset belongs to an element. *)
Lemma intset_bytes s vs : intset_repr s vs → bytes_ok (intset_blob s).
Proof.
  intros Hr. unfold intset_blob. apply Forall_app. split; [by apply le_bytes_ok|]. apply Forall_app. split; [by apply le_bytes_ok|].
  pose proof (repr_enc _ _ Hr) as He. pose proof (repr_size _ _ Hr) as Hsz. set (e := is_encoding s) in *.
  assert (2 ≤ e ≤ 8) as He' by (unfold enc_ok in He; lia). apply Forall_lookup. intros j x Hx. apply lookup_lt_Some in Hx as Hj.
  pose proof (Z.div_mod (Z.of_nat j) e ltac:(lia)) as Hdm. pose proof (Z.mod_pos_bound (Z.of_nat j) e ltac:(lia)) as Hm.
  assert (0 ≤ Z.of_nat j / e < zlen vs) as Hq by (split; [apply Z.div_pos; lia|apply Z.div_lt_upper_bound; lia]).
  destruct (lookup_lt_is_Some_2 vs (Z.to_nat (Z.of_nat j / e))) as [v Hv]; [lia|].
  pose proof (repr_slots _ _ Hr _ _ Hv) as [_ Hat]. fold e in Hat. pose proof (le_bytes_length e v ltac:(lia)) as Hl.
  destruct (lookup_lt_is_Some_2 (le_bytes e v) (Z.to_nat (Z.of_nat j mod e))) as [y Hy]; [lia|].
  pose proof (Hat _ _ Hy) as Hy'. replace (Z.to_nat _ + Z.to_nat (Z.of_nat j mod e))%nat with j in Hy' by lia. assert (x = y) as -> by congruence.
  pose proof (le_bytes_ok e v ltac:(lia)) as Hok. unfold bytes_ok in Hok. rewrite Forall_lookup in Hok. by eapply Hok.
Qed.

(** ** Validation *)

Lemma intset_blob_size s vs : intset_repr s vs → zlen (intset_blob s) = 8 + zlen vs * is_encoding s.
Proof.
  intros Hr. pose proof (repr_enc _ _ Hr) as He. unfold intset_blob.
  rewrite !length_app, !Nat2Z.inj_add, !le_bytes_length by (unfold enc_ok in He; lia). rewrite (repr_size _ _ Hr). lia.
Qed.

Lemma intset_validate_accepts s vs deep :
  intset_wf s vs → vs ≠ [] → zlen vs ≤ INTSET_LIMIT →
  intsetValidateIntegrity (intset_blob s) deep = Some true ∧ intset_of_blob (intset_blob s) = Some s.
Proof.
  intros [Hr Hs] Hne Hlen. pose proof (repr_enc _ _ Hr) as He. pose proof (repr_len _ _ Hr) as Hl. pose proof (intset_blob_size s vs Hr) as Hsz.
  unfold INTSET_LIMIT in Hlen. assert (2 ≤ is_encoding s ≤ 8) by (unfold enc_ok in He; lia).
  assert (intset_of_blob (intset_blob s) = Some s) as Hp by (apply blob_parse; range_lia). split; [|done].
  assert (0 ≤ zlen vs * is_encoding s ≤ 2 ^ 29 * 8) by nia. unfold intsetValidateIntegrity, sizeof_intset. rewrite decide_False by lia. rewrite Hp. bind_simpl.
  rewrite decide_True by (unfold enc_ok, INTSET_ENC_INT16, INTSET_ENC_INT32, INTSET_ENC_INT64 in *; lia).
  rewrite Hl. rewrite (uwrap_small 64 (zlen vs * is_encoding s)) by range_lia. rewrite uwrap_small by range_lia. rewrite decide_False by lia.
  rewrite decide_False by (destruct vs; [done|simpl; lia]). destruct deep; [|done]. cbn [negb].
  destruct (lookup_lt_is_Some_2 vs 0) as [x0 Hx0]; [destruct vs; [done|simpl; lia]|]. rewrite (get_repr s vs 0 x0 Hr Hx0 : _intsetGet s 0 = _). bind_simpl.
  destruct (validate_loop_ok s vs (Z.to_nat (zlen vs - 1)) 1 x0 Hr) as (b & Hb & Hiff); [lia|destruct vs; [done|simpl; lia]|]. change (Z.of_nat 1) with 1 in Hb.
  rewrite Hb. f_equal. apply Hiff. rewrite <- (drop_S vs x0 0 Hx0), drop_0. by apply StronglySorted_Sorted.
Qed.

(** [hashDictType] has no flags. *)
Class HashDictType (hdt : dictType bytes) : Prop := {
  hash_type_ok :: DictTypeOk hdt;
  hash_type_flags : no_value hdt = false ∧ keys_are_odd hdt = false;
}.

Section dups.
Context (hdt : dictType bytes) `{!HashDictType hdt} (can : dictResizeEnable).

(** The data of the callback after the elements [vs]. *)
Definition dups_at (vs : list lpval) (data : dups_data) : Prop :=
  fst data = zlen vs ∧
  match snd data with
  | None => vs = []
  | Some d => ∃ M, dict_denotes hdt d M ∧ dom M = list_to_set (lp_string <$> vs)
  end.

Lemma fresh_dict cap : cap < LLONG_MAX → ∃ d ok, dictExpand (dictCreate : dict bytes ()) cap = Some (d, ok) ∧ dict_denotes hdt d ∅.
Proof.
  intros Hcap. destruct (dict_create_denotes (V := ()) hdt) as [Hwf HM].
  destruct (expand_ok hdt dictCreate cap None Hwf Hcap) as (d & ok & mf & He & Hwf' & Hent & _).
  exists d, ok. unfold dictExpand. rewrite He. split; [done|]. split; [done|]. rewrite <- HM. apply (dict_map_same hdt); [done|by rewrite Hent].
Qed.

(** One more element, which is new or not. *)
Lemma dups_step num vs sl i v data :
  lp_fits vs → vs !! i = Some v → NoDup (lp_string <$> vs) → 0 ≤ num ≤ 65535 → dups_at (take i vs) data →
  ∃ data', _lpEntryValidation hdt can (lp_of num vs sl) false (lp_pos vs i) num data = Some (data', true) ∧ dups_at (take (S i) vs) data'.
Proof.
  intros Hfits Hv Hnd Hnum [Hc Hd]. destruct data as [count fields]. simpl in *. unfold _lpEntryValidation.
  match goal with |- context [mbind _ ?e] => assert (∃ d M, e = Some d ∧ dict_denotes hdt d M ∧ dom M = list_to_set (lp_string <$> take i vs)) as (d & M & -> & HM & Hdom) end.
  { destruct fields as [d|]; [destruct Hd as (M & ? & ?); by exists d, M|]. destruct (fresh_dict num) as (d & ok & -> & HM); [range_lia|].
    bind_simpl. exists d, ∅. rewrite Hd. split; [done|]. split; [done|]. by rewrite dom_empty_L. }
  bind_simpl. cbn [negb orb]. rewrite (lpGet_ok num vs sl Hfits i v Hv). bind_simpl.
  assert (val_ok v) as Hvok by (destruct Hfits as [Hf _]; rewrite Forall_lookup in Hf; by eapply Hf).
  assert (value_str (match v with VStr s => ValStr s | VInt n => ValInt n end) = Some (lp_string v)) as ->.
  { destruct v as [s|n]; [done|]. by apply (value_str_ok (ValInt n)). }
  bind_simpl. apply lookup_lt_Some in Hv as Hlt.
  destruct (dictAdd_ok hdt can d M (lp_string v) () HM) as (d' & Hadd & HM').
  { intros Hodd. destruct hash_type_flags as [_ Hf]. congruence. }
  { destruct HM as [Hwf <-]. rewrite <- (dict_map_size hdt d Hwf), <- size_dom, Hdom. pose proof (size_list_le (lp_string <$> take i vs)) as Hle.
    rewrite length_fmap, length_take in Hle. pose proof (length_body vs (fits_vals _ Hfits)). pose proof (fits_total _ Hfits). unfold lp_total, UINT32_MAX in *. lia. }
  assert (M !! lp_string v = None) as Hnew.
  { apply not_elem_of_dom. rewrite Hdom, elem_of_list_to_set. rewrite <- (take_drop_middle vs i v Hv), fmap_app, fmap_cons in Hnd.
    apply NoDup_app in Hnd as (_ & Hnd & _). intros Hin. apply (Hnd _ Hin). by left. }
  rewrite bool_decide_true in Hadd, HM' by done. rewrite Hadd. bind_simpl. eexists. split; [done|]. split; simpl.
  - rewrite Hc, !length_take. lia.
  - eexists. split; [exact HM'|]. rewrite dom_insert_L, Hdom. rewrite (take_S_r _ _ _ Hv), fmap_app, list_to_set_app_L. simpl. by rewrite union_empty_r_L, union_comm_L.
Qed.

Lemma dups_accepts num vs sl : ∀ n i data,
  lp_fits vs → NoDup (lp_string <$> vs) → 0 ≤ num ≤ 65535 → (i + n = length vs)%nat → dups_at (take i vs) data →
  ∃ data', cb_accepts (Some (_lpEntryValidation hdt can (lp_of num vs sl) false)) num vs i data data'.
Proof.
  induction n as [|n IH]; intros i data Hfits Hnd Hnum Hi Hd; [exists data; replace i with (length vs) by lia; constructor|].
  destruct (lookup_lt_is_Some_2 vs i) as [v Hv]; [lia|]. destruct (dups_step num vs sl i v data Hfits Hv Hnd Hnum Hd) as (data1 & Hstep & Hd1).
  destruct (IH (S i) data1) as (data' & Hacc); [done..|lia|done|]. exists data'. eapply accepts_step; [done|lia|done|done].
Qed.

(** The listpack of a set is accepted, with or without the deep check. *)
Lemma lp_validate_dups num vs deep :
  lp_fits vs → num_ok num vs → NoDup (lp_string <$> vs) → lpValidateIntegrityAndDups hdt can (lp_of num vs []) deep false = Some true.
Proof.
  intros Hfits Hnum Hnd. unfold lpValidateIntegrityAndDups. destruct deep; cbn [negb].
  - destruct (dups_accepts num vs [] (length vs) 0 (0, None)) as (data' & Hacc); [done|done| |lia|by rewrite take_0|].
    { unfold num_ok, LP_HDR_NUMELE_UNKNOWN in Hnum. lia. }
    rewrite (validate_accepts num vs _ _ _ true Hfits Hnum Hacc). done.
  - rewrite (validate_accepts num vs None () () false Hfits Hnum); [done|]. apply accepts_null; [done|lia].
Qed.

End dups.
