(* ===== verification/RdbLoad.v ===== *)
(** * rdb.c: filling a set while it is loaded *)

From S2P Require Import Prelude Intset Dict DictInv DictOps DictLife Util Listpack ListpackEnc ListpackOps ListpackMod ListpackBulk.
From S2P Require Import Tset TsetInv TsetConv TsetOps Lzf Rio Rdb RdbObj.

Local Open Scope Z_scope.

(** ** The size of integers in decimal notation and in a listpack *)

Lemma dec_lower (k : nat) v : 10 ^ Z.of_nat k ≤ v < 10 ^ 20 → Z.of_nat k + 1 ≤ zlen (dec v).
Proof.
  revert v. induction k as [|k IH]; intros v Hv; [pose proof (dec_nonempty v); lia|]. rewrite Nat2Z.inj_succ, Z.pow_succ_r in Hv by lia.
  assert (0 < 10 ^ Z.of_nat k) by (apply Z.pow_pos_nonneg; lia). rewrite dec_step, length_app by lia.
  specialize (IH (v / 10)). cbn [length]. assert (10 ^ Z.of_nat k ≤ v / 10 < 10 ^ 20); [|specialize (IH H0); lia].
  split; [apply Z.div_le_lower_bound; lia|apply Z.div_lt_upper_bound; lia].
Qed.

Lemma decimal_lower n k : in_srange 64 n → 10 ^ Z.of_nat k ≤ Z.abs n → Z.of_nat k + 1 + Z.b2z (bool_decide (n < 0)) ≤ zlen (decimal n).
Proof.
  intros Hn Hk. unfold decimal. case_decide; [rewrite bool_decide_true by done|rewrite bool_decide_false by done]; cbn [length Z.b2z].
  - pose proof (dec_lower k (- n)) as Hd. range_lia.
  - pose proof (dec_lower k n) as Hd. range_lia.
Qed.

Lemma decimal_pos n : 1 ≤ zlen (decimal n).
Proof. unfold decimal. case_decide; [cbn [length]; lia|]. pose proof (dec_nonempty n). lia. Qed.

(** An integer takes at most twice the bytes of its notation. *)
Lemma int_entry_decimal n : in_srange 64 n → zlen (entry (VInt n)) ≤ 2 * zlen (decimal n).
Proof.
  intros Hn. rewrite int_entry_len. pose proof (decimal_pos n). pose proof (decimal_lower n 0 Hn). pose proof (decimal_lower n 2 Hn).
  pose proof (decimal_lower n 3 Hn). pose proof (decimal_lower n 4 Hn). pose proof (decimal_lower n 6 Hn). pose proof (decimal_lower n 9 Hn).
  simpl Z.of_nat in *. change (10 ^ 0) with 1 in *. change (10 ^ 2) with 100 in *. change (10 ^ 3) with 1000 in *. change (10 ^ 4) with 10000 in *.
  change (10 ^ 6) with 1000000 in *. change (10 ^ 9) with 1000000000 in *. unfold int_len.
  destruct (decide (n < 0)); [rewrite bool_decide_true in * by done|rewrite bool_decide_false in * by done]; cbn [Z.b2z] in *; repeat case_decide; lia.
Qed.

(** The lengths of strings, added up. *)
Definition sum_lens (l : list bytes) : Z := foldr (λ s n, zlen s + n) 0 l.

Lemma sum_lens_perm l l' : l ≡ₚ l' → sum_lens l = sum_lens l'.
Proof. induction 1; simpl in *; lia. Qed.

Lemma sum_lens_app l l' : sum_lens (l ++ l') = sum_lens l + sum_lens l'.
Proof. induction l; simpl; lia. Qed.

Lemma sum_lens_nonneg l : 0 ≤ sum_lens l.
Proof. induction l; simpl; lia. Qed.

Lemma sum_lens_le l m : Forall (λ s, zlen s ≤ m) l → sum_lens l ≤ m * zlen l.
Proof. induction 1; simpl; lia. Qed.

Lemma body_decimals (vs : list Z) : Forall (in_srange 64) vs → zlen (body (VInt <$> vs)) ≤ 2 * sum_lens (decimal <$> vs).
Proof.
  induction 1 as [|n vs Hn Hvs IH]; [done|]. rewrite !fmap_cons, body_cons, length_app. simpl. pose proof (int_entry_decimal n Hn). lia.
Qed.

(** ** Members *)

Section load.
Context (junk : nat → Z) (dt : dictType bytes) `{!SetDictType dt} (can : dictResizeEnable) (table_addr : bool → Z) (dict_alloc : Z → bool).
Context (set_max_intset_entries set_max_listpack_entries set_max_listpack_value : Z).
Context (Hcfg : 0 ≤ set_max_intset_entries < INTSET_LIMIT).
Implicit Types (o : set_object) (X : gset bytes) (ms : list bytes).

(** The object holds the members [ms]; an intset has room for [len] of them, and its members have been counted. *)
Definition loading (len : Z) (o : set_object) (ms : list bytes) (maxelelen sumelelen : Z) : Prop :=
  set_repr dt o (list_to_set ms) ∧ NoDup ms ∧
  match o with
  | SetIntset _ => len ≤ intsetMaxEntries set_max_intset_entries ∧ sumelelen = sum_lens ms ∧ Forall (λ s, zlen s ≤ maxelelen) ms
  | _ => True
  end.

Lemma loading_size len o ms maxl sum : loading len o ms maxl sum → Z.of_nat (size (list_to_set ms : gset bytes)) = zlen ms.
Proof. intros (_ & Hnd & _). by rewrite size_list_to_set. Qed.

(** A failed allocation or a member that is there already. *)
Definition refused (len : Z) (ms : list bytes) (s : bytes) : Prop := s ∈ ms ∨ dict_alloc len = false.

Lemma load_convert_ok o X len :
  set_repr dt o X → encoding o ≠ OBJ_ENCODING_HT → Z.of_nat (size X) < 2 ^ 60 →
  ∃ r, load_convert junk dt can table_addr dict_alloc o len = Some r ∧
    match r with Some o' => ∃ d, o' = SetHt d ∧ set_repr dt o' X | None => dict_alloc len = false end.
Proof.
  intros Ho Hne Hsize. unfold load_convert.
  destruct (try_convert_ht_ok junk dt can table_addr o X len (dict_alloc len) Ho Hne Hsize) as (o' & ok & -> & Ho' & Hok). bind_simpl.
  eexists. split; [done|]. destruct ok; [|by destruct Hok]. destruct o'; try done. by eexists.
Qed.

Lemma load_ht_ok d ms s :
  set_repr dt (SetHt d) (list_to_set ms) → NoDup ms → zlen s < 2 ^ 63 → zlen ms < 2 ^ 60 →
  ∃ r, load_ht dt can (SetHt d) s = Some r ∧
    match r with Some o' => ∃ d', o' = SetHt d' ∧ (s ∉ ms) ∧ set_repr dt o' (list_to_set (ms ++ [s])) | None => s ∈ ms end.
Proof.
  intros Hd Hnd Hs Hsize. simpl. destruct (ht_add dt can d _ s Hd Hs) as (d' & -> & Hd'); [by rewrite size_list_to_set|]. bind_simpl.
  eexists. split; [done|]. case_bool_decide as Hn; rewrite elem_of_list_to_set in Hn; [|destruct (decide (s ∈ ms)); tauto].
  exists d'. split; [done|]. split; [done|]. rewrite list_to_set_app_L. simpl. by rewrite union_empty_r_L, union_comm_L.
Qed.

Lemma load_listpack_ok lp ms s len :
  set_repr dt (SetListpack lp) (list_to_set ms) → zlen s < 2 ^ 63 →
  ∃ r, load_listpack junk dt can table_addr dict_alloc set_max_listpack_entries set_max_listpack_value len (SetListpack lp) s = Some r ∧
    match r with
    | Some (SetListpack lp') => (s ∉ ms) ∧ set_repr dt (SetListpack lp') (list_to_set (ms ++ [s]))
    | Some (SetHt d) => set_repr dt (SetHt d) (list_to_set ms)
    | Some (SetIntset _) => False
    | None => refused len ms s
    end.
Proof.
  intros Ho Hs. pose proof (lp_size dt lp _ Ho) as Hsz. unfold load_listpack.
  destruct (setTypeSize_ok dt _ _ Ho) as (o1 & Hsize & Ho1 & _). simpl in Hsize.
  destruct (lpLength lp) as [[lp1 n]|]; [|done]. revert Hsize. bind_simpl. intros [= <- ->].
  pose proof Ho1 as (vs & Hlp & Hnd & HX)%(repr_listpack dt). pose proof Hlp as (num & sl & Heq & Hnum & Hfits).
  assert (lpSafeToAdd (Some lp1) (zlen s) = Some (bool_decide (lp_total vs + zlen s ≤ 2 ^ 30))) as ->.
  { unfold lpSafeToAdd. rewrite Heq, lp_of_total by done. bind_simpl. pose proof (fits_total _ Hfits).
    rewrite uwrap_small by (unfold lp_total, UINT32_MAX in *; range_lia). f_equal. rewrite <- bool_decide_not. apply bool_decide_ext.
    unfold LISTPACK_MAX_SAFETY_SIZE. change (Z.shiftl 1 30) with (2 ^ 30). lia. }
  bind_simpl. destruct (bool_decide _ && _ && _) eqn:Hc.
  - rewrite !andb_true_iff, !bool_decide_eq_true in Hc. destruct Hc as [_ Hsafe]. destruct (set_lp_find_ok lp1 vs s Hlp) as (p & -> & Hp). bind_simpl.
    destruct p as [p|].
    { eexists. split; [done|]. left. destruct Hp as (i & w & _ & Hw & <-). apply (elem_of_list_to_set (C := gset bytes)). rewrite <- HX.
      apply elem_of_list_to_set, list_elem_of_fmap. exists w. split; [done|]. by eapply list_elem_of_lookup_2. }
    pose proof (entry_bound (lp_norm s)) as Hb. rewrite lp_string_norm in Hb.
    destruct (append_value_ok junk lp1 vs (ValStr s) Hlp) as (lp2 & -> & Hlp2);
      [simpl; lia|simpl; unfold lp_total in *; lia|rewrite lp_total_app, body_cons, length_app; unfold UINT32_MAX; simpl; lia|].
    bind_simpl. eexists. split; [done|]. split.
    + intros Hin. apply Hp. assert (s ∈ (list_to_set (lp_string <$> vs) : gset bytes)); [|set_solver]. rewrite HX. by apply elem_of_list_to_set.
    + apply (repr_listpack dt). eexists. split; [exact Hlp2|]. rewrite fmap_app. simpl. rewrite lp_string_norm. split.
      * apply NoDup_app. split_and!; [done| |apply NoDup_singleton]. intros x Hx ->%list_elem_of_singleton. done.
      * by rewrite !list_to_set_app_L, HX.
  - destruct (load_convert_ok (SetListpack lp1) _ len Ho1) as (r & -> & Hr); [done|lia|]. eexists. split; [done|].
    destruct r as [o'|]; [by destruct Hr as (d & -> & Hd)|by right].
Qed.

(** A string that is not an integer: the intset becomes a listpack or a hash table. *)
Lemma load_intset_str s ms str len maxl sum :
  loading len (SetIntset s) ms maxl sum → string2ll str = None → zlen str < 2 ^ 63 → zlen ms < len →
  ∃ r, load_intset junk dt can table_addr dict_alloc set_max_listpack_entries set_max_listpack_value len (SetIntset s) str
         (Z.max maxl (zlen str)) (u64 (sum + zlen str)) = Some r ∧
    match r with
    | Some (SetIntset _) => False
    | Some o' => set_repr dt o' (list_to_set ms)
    | None => dict_alloc len = false
    end.
Proof.
  intros Hld Hstr Hlen Hlt. pose proof Hld as (Ho & Hnd & Hlim & -> & _). pose proof (max_entries_le _ Hcfg) as [_ Hmax]. unfold INTSET_LIMIT in Hmax.
  assert (Z.of_nat (size (list_to_set ms : gset bytes)) = zlen ms) as Hsz by by eapply loading_size.
  pose proof Ho as (vals & Hh & HX). pose proof Hh as (vs & Hwf & Hvlim & ->). rewrite intset_strings in HX.
  pose proof (intset_srange _ _ Hwf) as Hr. pose proof (sorted_nodup vs (proj2 Hwf)) as Hvnd.
  assert (decimal <$> vs ≡ₚ ms) as Hperm.
  { apply NoDup_Permutation; [by apply decimal_nodup|done|]. intros x. rewrite <- !(elem_of_list_to_set (C := gset bytes)). by rewrite HX. }
  assert (0 ≤ sum_lens ms ≤ 20 * zlen ms) as Hsum.
  { split; [apply sum_lens_nonneg|]. apply sum_lens_le. rewrite <- Hperm. apply Forall_fmap. eapply Forall_impl; [exact Hr|]. apply decimal_short. }
  cbn [load_intset]. rewrite Hstr. rewrite uwrap_small by range_lia. cbn [setTypeSize]. bind_simpl. unfold lpSafeToAdd. bind_simpl. rewrite Z.add_0_l, uwrap_small by range_lia.
  destruct (bool_decide _ && _ && _) eqn:Hc.
  - rewrite !andb_true_iff, negb_true_iff, bool_decide_eq_false in Hc. destruct Hc as [_ Hsafe].
    unfold LISTPACK_MAX_SAFETY_SIZE in Hsafe. change (Z.shiftl 1 30) with (2 ^ 30) in Hsafe. unfold setTypeConvert. cbn [setTypeSize]. bind_simpl.
    apply Permutation_length in Hperm as Hl. rewrite length_fmap in Hl. pose proof (body_decimals vs Hr) as Hbody. rewrite (sum_lens_perm _ _ Hperm) in Hbody.
    destruct (convert_listpack_ok junk dt can table_addr (SetIntset s) (ValInt <$> vs) (intsetLen s) Hh) as (lp & -> & Hlp).
    + done.
    + intros _ _. rewrite length_fmap. lia.
    + apply Forall_fmap. eapply Forall_impl; [exact Hr|]. intros n Hok. simpl in *. pose proof (decimal_short n Hok). lia.
    + rewrite values_of_ints. unfold lp_total, UINT32_MAX. lia.
    + bind_simpl. eexists. split; [done|]. simpl. apply (repr_listpack dt). exists (VInt <$> vs). rewrite values_of_ints in Hlp. rewrite lp_strings_of_ints.
      split_and!; [done|by apply decimal_nodup|done].
  - destruct (load_convert_ok (SetIntset s) _ len Ho) as (r & -> & Hrr); [done|lia|]. eexists. split; [done|].
    destruct r as [o'|]; [by destruct Hrr as (d & -> & Hd)|done].
Qed.

Lemma load_intset_int s ms n len maxl sum :
  loading len (SetIntset s) ms maxl sum → in_srange 64 n → zlen ms < len →
  ∃ s', intsetAdd junk s n = Some (s', bool_decide (decimal n ∉ ms)) ∧
    (decimal n ∉ ms → loading len (SetIntset s') (ms ++ [decimal n]) (Z.max maxl (zlen (decimal n))) (u64 (sum + zlen (decimal n)))).
Proof.
  intros Hld Hn Hlt. pose proof Hld as (Ho & Hnd & Hlim & -> & Hmaxl). pose proof (max_entries_le _ Hcfg) as [_ Hmax]. unfold INTSET_LIMIT in Hmax.
  assert (Z.of_nat (size (list_to_set ms : gset bytes)) = zlen ms) as Hsz by by eapply loading_size.
  pose proof (intset_size dt s _ Ho) as Hlen. pose proof Ho as (Y & HY & _ & HX)%(repr_intset dt).
  destruct (intsetAdd_ok junk s Y n HY) as (s' & -> & HY' & _); [unfold INTSET_LIMIT; lia|done|].
  assert (n ∈ Y ↔ decimal n ∈ ms) as Hin. { rewrite <- (elem_decimal s Y n HY Hn), HX. apply elem_of_list_to_set. }
  exists s'. split; [f_equal; f_equal; apply bool_decide_ext; by rewrite Hin|]. intros Hnew. split_and!.
  - apply (repr_intset dt). exists ({[n]} ∪ Y). split_and!; [done| |].
    + rewrite (denotes_length _ _ HY'), size_union by set_solver. rewrite size_singleton. rewrite (denotes_length _ _ HY) in Hlen. unfold INTSET_LIMIT. lia.
    + rewrite set_map_union_L, set_map_singleton_L, HX, list_to_set_app_L. simpl. by rewrite union_empty_r_L, union_comm_L.
  - apply NoDup_app. split_and!; [done| |apply NoDup_singleton]. intros x Hx ->%list_elem_of_singleton. done.
  - done.
  - assert (sum_lens ms ≤ 20 * zlen ms).
    { apply sum_lens_le, Forall_forall. intros x Hx. assert (x ∈ (set_map decimal Y : gset bytes)) as (m & -> & Hm)%elem_of_map by (rewrite HX; by apply elem_of_list_to_set).
      by apply decimal_short, (denotes_srange _ _ HY). }
    pose proof (sum_lens_nonneg ms). pose proof (decimal_short n Hn). rewrite sum_lens_app. simpl. rewrite uwrap_small by range_lia. lia.
  - apply Forall_app. split; [eapply Forall_impl; [exact Hmaxl|]; simpl; lia|]. constructor; [lia|constructor].
Qed.

(** One element: it is added, unless it is there already or there is no memory. *)
Lemma load_member_ok len o ms s maxl sum :
  loading len o ms maxl sum → zlen s < 2 ^ 63 → zlen ms < len → zlen ms < 2 ^ 60 →
  ∃ r, load_member junk dt can table_addr dict_alloc set_max_listpack_entries set_max_listpack_value len o s (Z.max maxl (zlen s)) (u64 (sum + zlen s)) = Some r ∧
    match r with
    | Some o' => (s ∉ ms) ∧ loading len o' (ms ++ [s]) (Z.max maxl (zlen s)) (u64 (sum + zlen s))
    | None => refused len ms s
    end.
Proof.
  intros Hld Hs Hlen H60. pose proof Hld as (Ho & Hnd & _).
  assert (s ∉ ms → NoDup (ms ++ [s])) as Hnd'.
  { intros Hn. apply NoDup_app. split_and!; [done| |apply NoDup_singleton]. intros x Hx ->%list_elem_of_singleton. done. }
  assert (∀ d, set_repr dt (SetHt d) (list_to_set ms) →
    ∃ r, load_ht dt can (SetHt d) s = Some r ∧
      match r with Some o' => (s ∉ ms) ∧ loading len o' (ms ++ [s]) (Z.max maxl (zlen s)) (u64 (sum + zlen s)) | None => refused len ms s end) as Hht.
  { intros d Hd. destruct (load_ht_ok d ms s Hd Hnd Hs H60) as (r & -> & Hr). eexists. split; [done|]. destruct r as [o'|]; [|by left].
    destruct Hr as (d' & -> & Hn & Hd'). split; [done|]. split; [done|]. split; [by apply Hnd'|done]. }
  assert (∀ lp, set_repr dt (SetListpack lp) (list_to_set ms) →
    ∃ r, (o ← load_listpack junk dt can table_addr dict_alloc set_max_listpack_entries set_max_listpack_value len (SetListpack lp) s;
          match o with None => Some None | Some o => load_ht dt can o s end) = Some r ∧
      match r with Some o' => (s ∉ ms) ∧ loading len o' (ms ++ [s]) (Z.max maxl (zlen s)) (u64 (sum + zlen s)) | None => refused len ms s end) as Hlp.
  { intros lp Hlp. destruct (load_listpack_ok lp ms s len Hlp Hs) as (r & -> & Hr). bind_simpl. destruct r as [[?|lp'|d]|]; [done| |by apply Hht|by eexists].
    destruct Hr as [Hn Hlp']. eexists. split; [done|]. split; [done|]. split; [done|]. split; [by apply Hnd'|done]. }
  unfold load_member. destruct o as [iset|lp|d]; [|cbn [load_intset]; bind_simpl; by apply Hlp|cbn [load_intset load_listpack]; bind_simpl; by apply Hht].
  destruct (string2ll s) as [n|] eqn:Hstr.
  - apply string2ll_ok in Hstr as Hn. destruct Hn as [Hn ->]. cbn [load_intset]. rewrite Hstr. destruct (load_intset_int iset ms n len maxl sum Hld Hn Hlen) as (s' & -> & Hs'). bind_simpl.
    case_bool_decide as Hnew; [|eexists; split; [done|]; left; destruct (decide (decimal n ∈ ms)); tauto]. cbn [load_listpack load_ht]. bind_simpl. eexists. split; [done|]. split; [done|]. by apply Hs'.
  - destruct (load_intset_str iset ms s len maxl sum Hld Hstr Hs Hlen) as (r & -> & Hr). bind_simpl.
    destruct r as [[?|lp|d]|]; [done|by apply Hlp|cbn [load_listpack]; bind_simpl; by apply Hht|eexists; split; [done|]; by right].
Qed.

(** The set that iset filled. *)
Lemma load_set_create_ok len :
  0 < len →
  ∃ r, load_set_create dict_alloc set_max_intset_entries len = Some r ∧
    match r with Some o => loading len o [] 0 0 | None => dict_alloc len = false end.
Proof.
  intros Hlen. unfold load_set_create. destruct (dict_create_denotes (V := ()) dt) as [Hwf HM]. case_decide as Hgt; [case_decide|].
  - destruct (expand_any dt dictCreate len (Some (dict_alloc len)) Hwf) as (d & ok & mf & He & Hwf' & Hent & Hmf).
    unfold dictTryExpand. rewrite He. bind_simpl. eexists. split; [done|]. destruct mf; simpl; [specialize (Hmf eq_refl); congruence|].
    split; [|split; [constructor|done]]. apply repr_ht. exists ∅. split_and!; [|by rewrite dom_empty_L|done]. split; [done|]. rewrite <- HM. apply (dict_map_same dt); [done|by rewrite Hent].
  - eexists. split; [done|]. split; [apply (ht_empty dt)|]. split; [constructor|done].
  - eexists. split; [done|]. split; [|split; [constructor|split_and!; [lia|done|constructor]]]. apply (intset_new_ok dt).
Qed.

End load.
