(* ===== verification/RdbObjOk.v ===== *)
(** * rdb.c: values that are saved are loaded *)

From S2P Require Import Prelude Intset Dict DictInv DictOps DictLife Util Listpack ListpackEnc ListpackOps ListpackMod ListpackBulk.
From S2P Require Import Tset TsetInv TsetConv TsetOps Lzf Rio Rdb RdbOk RdbObj RdbBlob RdbLoad.

Local Open Scope Z_scope.
Local Open Scope io_scope.

(** What an object stands for. *)
Inductive value := StringValue (s : bytes) | SetValue (X : gset bytes).

Section objects.
Context {S : Type} (ops : rio_ops S) (update_cksum : option (Z → bytes → Z)) `{!CksumApp update_cksum}.
Context (written : S → bytes) `{!RioWriter ops written}.
Context (ready : S → Prop) (pending : S → bytes) `{!RioReader ops ready pending}.
Context (rdb_compression : bool) (addr : bytes → Z) (stack : bytes → Z → Z) (junk : nat → Z) (alloc : Z → bool).
Context (dt hdt : dictType bytes) `{!SetDictType dt} `{!HashDictType hdt} (can : dictResizeEnable) (table_addr : bool → Z) (dict_alloc : Z → bool).
Context (set_max_intset_entries set_max_listpack_entries set_max_listpack_value : Z).
Implicit Types (r : rio S) (bs : bytes).

(** The object holds the value.  The strings have bytes and sizes below 2^63; a set is not empty and
    has less than 2^32 members. *)
Definition robj_holds (o : robj) (v : value) : Prop :=
  match o, v with
  | RString o, StringValue s => object_string o = s ∧ bytes_ok s ∧ zlen s < 2 ^ 63 ∧ match o with ObjInt n => in_srange 64 n | ObjString _ => True end
  | RSet o, SetValue X => set_inv dt o X ∧ set_Forall bytes_ok X ∧ X ≠ ∅ ∧ Z.of_nat (size X) < 2 ^ 32
  | _, _ => False
  end.

(** Strings lie in memory above the first 8 KB, and the stack has machine words. *)
Context (Haddr : ∀ s, zlen s < 2 ^ 63 → MAX_OFF ≤ addr s ∧ addr s + zlen s < 2 ^ 64).
Context (Hstack : ∀ s i, in_urange 64 (stack s i)).
(** No allocation fails. *)
Context (Halloc : ∀ n, 0 ≤ n < 2 ^ 63 → alloc n = true) (Hdict : ∀ n, dict_alloc n = true).
Context (Hcfg : 0 ≤ set_max_intset_entries < INTSET_LIMIT).

Local Abbreviation emits := (emits ops update_cksum written).
Local Abbreviation loads := (loads update_cksum ready pending).
Local Abbreviation string_of := (string_of ops update_cksum ready pending junk alloc).
Local Abbreviation save_raw := (save_raw ops update_cksum rdb_compression addr stack junk).
Local Abbreviation rdbSaveObject := (rdbSaveObject ops update_cksum rdb_compression addr stack junk table_addr).
Local Abbreviation rdbLoadObject := (rdbLoadObject ops update_cksum junk alloc dt hdt can table_addr dict_alloc set_max_intset_entries set_max_listpack_entries
  set_max_listpack_value).

(** [bs] are the bytes of the string [s]. *)
Definition saved s bs : Prop := emits (save_raw s) bs (zlen bs) ∧ string_of bs s ∧ some_bytes bs.

Lemma save_string s : bytes_ok s → zlen s < 2 ^ 63 → ∃ bs, saved s bs.
Proof.
  intros Hok Hl. destruct (Haddr s Hl) as [H1 H2]. apply (save_raw_ok ops update_cksum written ready pending); [done..|by apply Hstack|].
  intros n Hn. apply Halloc. lia.
Qed.

(** ** The members of a hash table *)

(** The members one after the other. *)
Fixpoint save_list (ms : list bytes) (n : Z) : io (option (rio S)) Z :=
  match ms with [] => io_ret n | m :: ms => let! k := save_raw m in save_list ms (n + k) end.

Lemma save_members_list d ms n x res :
  set_holds dt (SetHt d) (ValStr <$> ms) → save_list ms n x = Some res →
  save_members ops update_cksum rdb_compression addr stack junk table_addr d n x = Some res.
Proof.
  intros Hh Hres. unfold save_members.
  edestruct (iterate_ok dt table_addr (λ _ : option (rio S) * option Z, Some (SetHt d))
    (λ ele '(rdb, nwritten), ele ← value_str ele; '(rdb, n) ← save_raw ele rdb;
       Some (match n, nwritten with Some n, Some nwritten => (rdb, Some (nwritten + n), true) | _, _ => (rdb, None, false) end))
    (λ rest a, ∃ ms' n', rest = ValStr <$> ms' ∧ snd a = Some n' ∧ save_list ms' n' (fst a) = Some res)
    (λ a, a = res) (SetHt d) (ValStr <$> ms) (x, Some n)) as (a & Ha & _ & ->); [done|done| | | |exact Ha].
  - intros v rest [x' nw] (ms' & n' & Hms & Hn & Hl). simpl in Hn. subst nw. destruct ms' as [|m ms']; [done|]. rewrite fmap_cons in Hms. injection Hms as -> ->.
    cbn [value_str]. bind_simpl. cbn [save_list] in Hl. unfold io_bind in Hl. simpl in Hl. destruct (save_raw m x') as [[x1 k]|]; [|done]. revert Hl. bind_simpl. intros Hl.
    destruct k as [k|]; eexists _, _; (split; [reflexivity|]); simpl; [by exists ms', (n' + k)|]. by injection Hl as <-.
  - intros [x' nw] (ms' & n' & Hms & Hn & Hl). simpl in Hn. subst nw. destruct ms'; [|done]. simpl in Hl. by injection Hl.
  - by exists ms, n.
Qed.

Lemma emits_of_result {A} (m m' : io (option (rio S)) A) bs v : (∀ x res, m x = Some res → m' x = Some res) → emits m bs v → emits m' bs v.
Proof.
  intros Hm [H0 H1]. split; [by apply Hm|]. intros r Hc He. destruct (H1 r Hc He) as (r' & ok & Hr & ?). exists r', ok. split; [by apply Hm|done].
Qed.

Lemma save_list_ok ms : ∀ n bss, Forall2 saved ms bss → emits (save_list ms n) (concat bss) (n + zlen (concat bss)).
Proof.
  induction ms as [|m ms IH]; intros n bss Hb; inversion_clear Hb as [|? bs ? bss' Hbs Hbss]; cbn [save_list concat].
  - rewrite Z.add_0_r. apply (emits_ret ops update_cksum written).
  - eapply (emits_bind ops update_cksum written); [apply Hbs|]. rewrite length_app. replace (n + Z.of_nat (length bs + length (concat bss')))
      with (n + zlen bs + zlen (concat bss')) by lia. by apply IH.
Qed.

Lemma save_strings ms : Forall bytes_ok ms → Forall (λ s, zlen s < 2 ^ 63) ms → ∃ bss, Forall2 saved ms bss ∧ bytes_ok (concat bss).
Proof.
  induction ms as [|m ms IH]; intros Hok Hl; [exists []; split; constructor|]. inversion_clear Hok. inversion_clear Hl.
  destruct IH as (bss & Hbss & Hb); [done..|]. destruct (save_string m) as (bs & Hbs); [done..|]. exists (bs :: bss). split; [by constructor|].
  simpl. apply Forall_app. split; [apply Hbs|done].
Qed.

Lemma loads_check {A B} (o : option (option A)) (f : A → io (rio S) B) bs v w : o = Some (Some v) → loads (f v) bs w → loads (io_bind (io_check o) f) bs w.
Proof. by intros ->. Qed.

Lemma load_flags bs s flags : string_of bs s → ∃ v, loads (load_string ops update_cksum junk alloc flags) bs v ∧ loaded flags s v.
Proof. intros Hs. apply Hs. Qed.

Lemma load_sds bs s : string_of bs s → loads (load_string ops update_cksum junk alloc RDB_LOAD_SDS) bs (LoadedSds s).
Proof. intros Hs. destruct (load_flags bs s RDB_LOAD_SDS Hs) as (v & Hv & ->). done. Qed.

Lemma load_plain bs s : string_of bs s → loads (load_string ops update_cksum junk alloc RDB_LOAD_PLAIN) bs (LoadedPlain s).
Proof. intros Hs. destruct (load_flags bs s RDB_LOAD_PLAIN Hs) as (v & Hv & ->). done. Qed.

Local Abbreviation load_members := (load_members ops update_cksum junk alloc dt can table_addr dict_alloc set_max_listpack_entries set_max_listpack_value).
Local Abbreviation loading := (loading dt set_max_intset_entries).

(** The loop over the rest of the members. *)
Lemma load_members_ok ms : ∀ fuel len ps o maxl sum bss,
  loading len o ps maxl sum → NoDup (ps ++ ms) → Forall (λ s, zlen s < 2 ^ 63) ms → Forall2 saved ms bss →
  len = zlen ps + zlen ms → len < 2 ^ 32 → (length ms ≤ fuel)%nat →
  ∃ o' maxl' sum', loads (load_members fuel len (zlen ps) o maxl sum) (concat bss) o' ∧ loading len o' (ps ++ ms) maxl' sum'.
Proof.
  induction ms as [|m ms IH]; intros fuel len ps o maxl sum bss Hld Hnd Hl Hb Hlen H32 Hf; inversion_clear Hb as [|? bs ? bss' Hbs Hbss].
  { exists o, maxl, sum. rewrite app_nil_r. split; [|done]. destruct fuel; cbn [RdbObj.load_members]; rewrite decide_False by (simpl in Hlen; lia); apply loads_ret; done. }
  inversion_clear Hl as [|? ? Hm Hms]. destruct fuel as [|fuel]; [simpl in Hf; lia|]. cbn [length] in Hlen, Hf.
  destruct (load_member_ok junk dt can table_addr dict_alloc _ set_max_listpack_entries set_max_listpack_value Hcfg len o ps m maxl sum Hld Hm) as (r & Hr & Hres); [lia..|].
  assert (m ∉ ps) as Hnew. { apply NoDup_app in Hnd as (_ & Hnd & _). intros Hin. apply (Hnd _ Hin). by left. }
  destruct r as [o1|]; [|destruct Hres as [?|Hfail]; [done|by rewrite Hdict in Hfail]]. destruct Hres as [_ Hld1].
  destruct (IH fuel len (ps ++ [m]) o1 (Z.max maxl (zlen m)) (u64 (sum + zlen m)) bss') as (o' & maxl' & sum' & Hload & Hld'); [done|by rewrite <- app_assoc|done..|rewrite length_app; simpl; lia|done|lia|].
  exists o', maxl', sum'. rewrite <- app_assoc in Hld'. split; [|done]. cbn [RdbObj.load_members]. rewrite decide_True by lia. cbn [concat].
  eapply (loads_bind update_cksum ready pending); [apply load_sds, Hbs|]. eapply (loads_of update_cksum ready pending); [done|]. eapply loads_check; [exact Hr|].
  rewrite uwrap_small by range_lia. replace (zlen ps + 1) with (zlen (ps ++ [m])) by (rewrite length_app; simpl; lia). exact Hload.
Qed.

(** ** Objects *)

(** What is saved for [o] is loaded as an object with the value [v]. *)
Definition object_saved (o : robj) (v : value) : Prop :=
  ∃ bs, emits (rdbSaveObject o) bs (zlen bs) ∧ some_bytes bs ∧
    ∀ deep, ∃ o', loads (rdbLoadObject deep (rdb_object_type o)) bs (Some o') ∧ robj_holds o' v.

Lemma encode_object_string o :
  match o with ObjInt n => in_srange 64 n | ObjString _ => True end →
  object_string (tryObjectEncodingEx 1 o) = object_string o ∧
  match tryObjectEncodingEx 1 o with ObjInt n => in_srange 64 n | ObjString _ => True end.
Proof.
  destruct o as [n|s]; [done|]. intros _. cbn [tryObjectEncodingEx]. rewrite decide_False by lia. case_decide; [|done].
  unfold string2l. destruct (string2ll s) as [n|] eqn:Hs; [|done]. bind_simpl. apply string2ll_ok in Hs as [Hn ->].
  case_decide; [done|]. done.
Qed.

Lemma string_object_saved o s : robj_holds (RString o) (StringValue s) → object_saved (RString o) (StringValue s).
Proof.
  intros (Hs & Hok & Hl & Hn).
  assert (∃ bs, emits (rdbSaveObject (RString o)) bs (zlen bs) ∧ string_of bs s ∧ some_bytes bs) as (bs & Hem & Hstr & Hbs).
  { destruct o as [n|t]; cbn [RdbObj.rdbSaveObject object_string] in *; subst s; [|by apply save_string].
    apply (save_object_ok ops update_cksum written ready pending rdb_compression 8192 (λ _, 0) junk alloc (ObjInt n)); [done|done| |]; [intros; range_lia|].
    intros k Hk. apply Halloc. simpl in Hk. lia. }
  exists bs. split; [done|]. split; [done|]. intros deep. destruct (load_flags bs s RDB_LOAD_ENC Hstr) as (v & Hv & o' & -> & Ho' & Hn').
  destruct (encode_object_string o' Hn') as [He1 He2]. exists (RString (tryObjectEncodingEx 1 o')). split; [|split; [by rewrite He1|by split_and!]]. unfold RdbObj.rdbLoadObject. rewrite decide_True by done. rewrite <- (app_nil_r bs).
  eapply (loads_bind update_cksum ready pending); [exact Hv|]. eapply (loads_of update_cksum ready pending); [done|]. by apply loads_ret.
Qed.

Lemma intset_object_saved iset X : robj_holds (RSet (SetIntset iset)) (SetValue X) → object_saved (RSet (SetIntset iset)) (SetValue X).
Proof.
  intros ([Ho Hsmall] & Hb & Hne & Hsize). pose proof Ho as (vals & (vs & Hwf & Hlim & ->) & HX). pose proof Hwf as [Hr _].
  assert (vs ≠ []) as Hvs by (intros ->; by apply Hne). pose proof (intset_blob_size iset vs Hr) as Hsz. pose proof (repr_enc _ _ Hr) as He.
  assert (2 ≤ is_encoding iset ≤ 8) by (unfold enc_ok in He; lia). assert (0 ≤ zlen vs * is_encoding iset ≤ INTSET_LIMIT * 8) as Hmul by nia. unfold INTSET_LIMIT in Hmul.
  assert (mem_read (intset_blob iset) 0 (intsetBlobLen iset) = Some (intset_blob iset)) as Hread.
  { unfold intsetBlobLen, sizeof_intset. rewrite (repr_len _ _ Hr), uwrap_small by range_lia. rewrite <- Hsz.
    apply bytes_at_read; [|done|lia]. rewrite <- (app_nil_r (intset_blob iset)) at 1. apply (bytes_at_mid []). }
  destruct (save_string (intset_blob iset)) as (bs & Hem & Hstr & Hbs); [by eapply intset_bytes|range_lia|].
  exists bs. split; [eapply (emits_of ops update_cksum written); [exact Hread|exact Hem]|]. split; [done|]. intros deep.
  destruct (intset_validate_accepts iset vs deep Hwf Hvs Hlim) as [Hval Hblob].
  assert (∃ o', load_set_intset junk dt can table_addr set_max_intset_entries deep (intset_blob iset) = Some (Some (RSet o')) ∧ set_inv dt o' X) as (o' & Hload & Ho').
  { unfold load_set_intset. rewrite Hval. bind_simpl. cbn [negb]. rewrite Hblob. bind_simpl. case_decide as Hgt; bind_simpl; [|by exists (SetIntset iset)].
    unfold setTypeConvert. destruct (setTypeSize_ok dt _ _ Ho) as (o1 & -> & Ho1 & Henc). bind_simpl.
    destruct (convert_ht_ok junk dt can table_addr o1 X (Z.of_nat (size X)) Ho1) as (d & -> & Hd); [by rewrite Henc|range_lia..|]. by exists (SetHt d). }
  exists (RSet o'). split; [|done]. unfold RdbObj.rdbLoadObject. rewrite !decide_False by done. rewrite decide_True by (left; done). rewrite <- (app_nil_r bs).
  eapply (loads_bind update_cksum ready pending); [by apply load_plain|]. eapply (loads_of update_cksum ready pending); [done|].
  cbn beta. rewrite decide_True by done. eapply loads_check; [exact Hload|]. by apply loads_ret.
Qed.

Lemma listpack_object_saved lp X : robj_holds (RSet (SetListpack lp)) (SetValue X) → object_saved (RSet (SetListpack lp)) (SetValue X).
Proof.
  intros ([Ho _] & Hb & Hne & Hsize). pose proof Ho as (vs & (num & sl & -> & Hnum & Hfits) & Hnd & HX)%(repr_listpack dt).
  pose proof (lp_of_length num vs []) as Hlen. cbn [length] in Hlen. rewrite Z.add_0_r in Hlen. pose proof (fits_total _ Hfits) as Htot.
  assert (Forall bytes_ok (lp_string <$> vs)) as Hstrs. { apply Forall_forall. intros x Hx. apply Hb. rewrite <- HX. by apply elem_of_list_to_set. }
  destruct (save_string (lp_of num vs [])) as (bs & Hem & Hstr & Hbs); [by apply lp_bytes|unfold UINT32_MAX in *; lia|].
  assert (set_repr dt (SetListpack (lp_of num vs [])) X) as Ho'.
  { apply (repr_listpack dt). exists vs. split_and!; [|done..]. by apply lp_of_repr. }
  exists bs. split.
  { cbn [RdbObj.rdbSaveObject]. eapply (emits_of ops update_cksum written); [unfold lpBytes; by apply lp_of_total|].
    eapply (emits_of ops update_cksum written); [|exact Hem]. rewrite lp_of_app. apply bytes_at_read; [apply (bytes_at_mid [])|done|unfold lp_total; lia]. }
  split; [done|]. intros deep.
  assert (∃ o', load_set_listpack junk dt hdt can table_addr set_max_listpack_entries deep (lp_of num vs []) = Some (Some (Some (RSet o'))) ∧ set_inv dt o' X) as (o' & Hload & Hinv).
  { unfold load_set_listpack. rewrite lp_validate_dups by done. bind_simpl. cbn [negb]. destruct (setTypeSize_ok dt _ _ Ho') as (o1 & -> & Ho1 & Henc1). bind_simpl.
    assert (size X ≠ 0%nat) as Hs0 by (intros H0; by apply Hne, leibniz_equiv, size_empty_inv).
    rewrite decide_False by lia. destruct (setTypeSize_ok dt _ _ Ho1) as (o2 & -> & Ho2 & Henc2). bind_simpl. case_decide as Hgt.
    - unfold setTypeConvert. destruct (setTypeSize_ok dt _ _ Ho2) as (o3 & -> & Ho3 & Henc3). bind_simpl.
      destruct (convert_ht_ok junk dt can table_addr o3 X (Z.of_nat (size X)) Ho3) as (d & -> & Hd); [by rewrite Henc3, Henc2, Henc1|range_lia..|]. by exists (SetHt d).
    - bind_simpl. exists o2. split; [done|]. split; [done|]. rewrite Henc1 in Henc2. by destruct o2. }
  exists (RSet o'). split; [|done]. unfold RdbObj.rdbLoadObject. rewrite !decide_False by done. rewrite decide_True by (right; done). rewrite <- (app_nil_r bs).
  eapply (loads_bind update_cksum ready pending); [by apply load_plain|]. eapply (loads_of update_cksum ready pending); [done|].
  cbn beta. rewrite decide_False by done. rewrite Hload. by apply loads_ret.
Qed.

Lemma ht_object_saved d X : robj_holds (RSet (SetHt d)) (SetValue X) → object_saved (RSet (SetHt d)) (SetValue X).
Proof.
  intros ([Ho _] & Hb & Hne & Hsize). pose proof Ho as (vals & (Hwf & -> & Hv) & HX). set (ms := (dict_entries d).*1).
  assert ((λ p : bytes * option (), ValStr p.1) <$> dict_entries d = ValStr <$> ms) as Hms by (unfold ms; by rewrite <- list_fmap_compose).
  assert (list_to_set ms = X) as HmsX by (rewrite <- HX, ht_strings; done). assert (NoDup ms) as Hnd by apply Hwf.
  assert (zlen ms = dictSize d) as Hlen by (rewrite (ht_size dt d X Ho), <- HmsX, size_list_to_set by done; done).
  assert (Forall (λ s, zlen s < 2 ^ 63) ms) as Hl63 by by apply Forall_fmap.
  assert (Forall bytes_ok ms) as Hbytes by (apply Forall_forall; intros x Hx; apply Hb; rewrite <- HmsX; by apply elem_of_list_to_set).
  assert (dictSize d = Z.of_nat (size X)) as Hds by by apply (ht_size dt). assert (0 < zlen ms) as Hpos. { destruct ms; [by rewrite <- HmsX in Hne|simpl; lia]. }
  destruct (save_strings ms Hbytes Hl63) as (bss & Hbss & Hbok). exists (len_bytes (dictSize d) ++ concat bss). split.
  { cbn [RdbObj.rdbSaveObject]. eapply (emits_bind ops update_cksum written); [apply (save_len_ok ops update_cksum written); lia|].
    rewrite length_app, Nat2Z.inj_add. eapply emits_of_result; [|by apply save_list_ok]. intros x res. apply save_members_list. split_and!; [done|by rewrite Hms|done]. }
  split; [apply some_bytes_app; [apply len_bytes_ok; lia|done]|]. intros deep.
  destruct (load_set_create_ok dt dict_alloc set_max_intset_entries (dictSize d)) as (r & Hr & Hres); [lia|]. destruct r as [o1|]; [|by rewrite Hdict in Hres].
  destruct (load_members_ok ms (Z.to_nat (dictSize d)) (dictSize d) [] o1 0 0 bss Hres) as (o' & maxl & sum & Hload & Hld); [done..|simpl; lia|lia|lia|].
  exists (RSet o'). split.
  - unfold RdbObj.rdbLoadObject. rewrite decide_False by done. rewrite decide_True by done. unfold load_set.
    eapply (loads_bind update_cksum ready pending); [apply (rdbLoadLen_ok ops update_cksum ready pending); lia|]. cbn beta iota.
    rewrite decide_False by (unfold RDB_LENERR, ULLONG_MAX; lia). rewrite decide_False by lia. eapply loads_check; [exact Hr|].
    apply (loads_map update_cksum ready pending _ (λ o, Some (RSet o))). exact Hload.
  - destruct Hld as (Ho' & _ & Hint). simpl app in Ho'. rewrite HmsX in Ho'. split_and!; [|done..]. split; [done|]. destruct o' as [s| |]; [|done..]. simpl.
    rewrite (intset_size dt s X Ho'). destruct Hint as [Hle _]. pose proof (max_entries_le _ Hcfg). lia.
Qed.

Lemma object_saved_ok o v : robj_holds o v → object_saved o v.
Proof.
  intros Ho. destruct o as [o|[s|lp|d]], v; try done; [by apply string_object_saved|by apply intset_object_saved|by apply listpack_object_saved|by apply ht_object_saved].
Qed.

End objects.
