(* ===== verification/RdbDump.v ===== *)
(** * cluster.c: DUMP and RESTORE *)

From S2P Require Import Prelude Intset Dict DictInv Util Listpack Crc CrcEquiv CrcOk Tset TsetInv Lzf Rio Rdb RdbOk RdbObj RdbBlob RdbObjOk.

Local Open Scope Z_scope.
Local Open Scope io_scope.

(** ** The footer *)

Lemma get_at a x b i : i = zlen a → mem_get (a ++ x :: b) i = Some x.
Proof. intros ->. unfold mem_get. rewrite decide_True by lia. rewrite Nat2Z.id. by rewrite list_lookup_middle. Qed.

Lemma read_at a b c off n : off = zlen a → n = zlen b → mem_read (a ++ b ++ c) off n = Some b.
Proof. intros -> ->. apply mem_read_mid; [lia|done]. Qed.

Section footer.
Context (little : bool) (table : list (list Z)) (Htable : crc64_table_ok little table) (next : bytes → Z).

Definition dump_crc (c : Z) (s : bytes) : option Z := crc64 little table c (next s) s.

Lemma dump_crc_ok s : bytes_ok s → dump_crc 0 s = Some (crc64_ref 0 s).
Proof. intros Hs. unfold dump_crc. by apply Htable. Qed.

(** What the check computes for a payload of bytes. *)
Lemma verify_ok skip b0 f0 f1 sum :
  bytes_ok (b0 ++ [f0; f1]) → zlen sum = 8 →
  let ver := u16 (Z.lor (Z.shiftl f1 8) f0) in
  verifyDumpPayload dump_crc skip (b0 ++ [f0; f1] ++ sum) =
    Some (bool_decide (ver ≤ RDB_VERSION) && (skip || bool_decide (le_bytes 8 (crc64_ref 0 (b0 ++ [f0; f1])) = sum)), Some ver).
Proof.
  intros Hok Hsum ver. unfold verifyDumpPayload.
  assert (zlen (b0 ++ [f0; f1] ++ sum) = zlen b0 + 10) as -> by (rewrite !length_app; simpl; lia). rewrite decide_False by lia.
  replace (zlen b0 + 10 - 10) with (zlen b0) by lia. change ([f0; f1] ++ sum) with (f0 :: f1 :: sum). rewrite (get_at b0 f0 (f1 :: sum) (zlen b0)) by done. bind_simpl.
  replace (b0 ++ f0 :: f1 :: sum) with ((b0 ++ [f0]) ++ f1 :: sum) by by rewrite <- app_assoc. rewrite (get_at (b0 ++ [f0]) f1 sum) by (rewrite length_app; simpl; lia). bind_simpl.
  fold ver. case_decide as Hv; [by rewrite bool_decide_false by lia|]. rewrite bool_decide_true by lia. destruct skip; [done|]. cbn [andb orb].
  replace ((b0 ++ [f0]) ++ f1 :: sum) with ((b0 ++ [f0; f1]) ++ sum) by by rewrite <- !app_assoc.
  rewrite (read_at [] (b0 ++ [f0; f1]) sum 0) by (done || (rewrite length_app; simpl; lia)). bind_simpl. rewrite dump_crc_ok by done. bind_simpl.
  rewrite <- (app_nil_r sum) at 1. rewrite (read_at (b0 ++ [f0; f1]) sum []) by (done || (rewrite length_app; simpl; lia)). done.
Qed.

(** The two bytes of the version and the eight of the checksum. *)
Lemma split_payload (p : bytes) : 10 ≤ zlen p → ∃ b0 f0 f1 sum, p = b0 ++ [f0; f1] ++ sum ∧ zlen sum = 8.
Proof.
  intros Hl. set (n := (length p - 10)%nat). assert (length (drop n p) = 10%nat) as Hd by (rewrite length_drop; lia).
  destruct (drop n p) as [|f0 [|f1 sum]] eqn:Hdrop; [done|done|]. exists (take n p), f0, f1, sum. simpl. rewrite <- Hdrop, take_drop. split; [done|]. simpl in Hd. lia.
Qed.

Lemma verify_short skip (p : bytes) : zlen p < 10 → verifyDumpPayload dump_crc skip p = Some (false, None).
Proof. intros Hl. unfold verifyDumpPayload. by rewrite decide_True. Qed.

Lemma le_bytes_inj a b : in_urange 64 a → in_urange 64 b → le_bytes 8 a = le_bytes 8 b → a = b.
Proof. intros Ha Hb Heq. apply (f_equal le_val) in Heq. by rewrite !le_val_bytes, !uwrap_small in Heq by done. Qed.

Lemma some_fst {A B} (a a' : A) (b b' : B) : Some (a, b) = Some (a', b') → a = a'.
Proof. congruence. Qed.

(** A payload that passes the check. *)
Lemma verify_accepts p ver :
  bytes_ok p → verifyDumpPayload dump_crc false p = Some (true, ver) → ∃ body, p = body ++ le_bytes 8 (crc64_ref 0 body) ∧ bytes_ok body.
Proof.
  intros Hok Hv. destruct (decide (zlen p < 10)) as [Hs|Hs]; [by rewrite verify_short in Hv|]. destruct (split_payload p) as (b0 & f0 & f1 & sum & -> & Hsum); [lia|].
  rewrite app_assoc in Hok. apply Forall_app in Hok as [Hbody _]. rewrite verify_ok in Hv by done. apply some_fst, andb_true_iff in Hv as [_ Hv].
  cbn [orb] in Hv. apply bool_decide_eq_true in Hv. exists (b0 ++ [f0; f1]). split; [by rewrite <- app_assoc, Hv|done].
Qed.

(** Another checksum, or another body with the same checksum field, is refused unless the checksums of the bodies agree. *)
Lemma verify_refuses body sum :
  bytes_ok body → zlen sum = 8 → le_bytes 8 (crc64_ref 0 body) ≠ sum → ∃ ver, verifyDumpPayload dump_crc false (body ++ sum) = Some (false, ver).
Proof.
  intros Hok Hsum Hne. destruct (decide (zlen (body ++ sum) < 10)) as [Hs|Hs]; [exists None; by apply verify_short|].
  destruct (split_payload (body ++ sum)) as (b0 & f0 & f1 & sum' & Heq & Hsum'); [lia|]. rewrite app_assoc in Heq.
  apply app_inj_2 in Heq as [-> ->]; [|lia]. rewrite <- app_assoc, verify_ok by done. rewrite (bool_decide_false (le_bytes 8 _ = _)) by done. eexists. by rewrite andb_false_r.
Qed.

Lemma damage_refused pre w w' post ver :
  bytes_ok (pre ++ w ++ post) → bytes_ok w' → length w = length w' → w ≠ w' → (length w ≤ 8)%nat →
  8 ≤ zlen post ∨ zlen w + zlen post ≤ 8 → verifyDumpPayload dump_crc false (pre ++ w ++ post) = Some (true, ver) →
  ∃ ver', verifyDumpPayload dump_crc false (pre ++ w' ++ post) = Some (false, ver').
Proof.
  intros Hok Hw' Hlen Hne H8 Hwhere (body & Hp & Hbody)%verify_accepts; [|done]. set (sum := le_bytes 8 (crc64_ref 0 body)) in *.
  assert (zlen sum = 8) as Hsum by by apply le_bytes_length. apply Forall_app in Hok as [Hpre Hok]. apply Forall_app in Hok as [Hw Hpost].
  pose proof (f_equal length Hp) as Hl. rewrite !length_app in Hl. destruct Hwhere as [Hpost8|Hin].
  - (* in front of the checksum *)
    assert (∃ post0, post = post0 ++ sum) as (post0 & ->).
    { exists (take (length post - 8) post). rewrite <- (take_drop (length post - 8) post) in Hp at 1. rewrite !app_assoc in Hp. apply app_inj_2 in Hp as [_ Hd]; [|rewrite length_drop; lia].
      by rewrite <- Hd, take_drop. }
    rewrite !app_assoc in Hp. apply app_inj_2 in Hp as [Hb _]; [|done]. rewrite <- !app_assoc in Hb. apply Forall_app in Hpost as [Hpost0 _].
    destruct (verify_refuses (pre ++ w' ++ post0) sum) as (ver' & Hv); [repeat (apply Forall_app; split); done|done| |exists ver'; by rewrite !app_assoc in *].
    intros Heq. apply le_bytes_inj in Heq; [|by apply ref_range; [|repeat (apply Forall_app; split)]|by apply ref_range]. rewrite <- Hb in Heq. symmetry in Heq. revert Heq. by apply ref_burst.
  - (* inside the checksum *)
    assert (∃ pre1, pre = body ++ pre1) as (pre1 & ->).
    { exists (drop (length body) pre). rewrite <- (take_drop (length body) pre) in Hp at 1. rewrite <- app_assoc in Hp. apply app_inj_1 in Hp as [Ht _]; [|rewrite length_take; lia].
      by rewrite <- Ht at 1; rewrite take_drop. }
    rewrite <- app_assoc in Hp. apply app_inv_head in Hp. rewrite !length_app in Hl. destruct (verify_refuses body (pre1 ++ w' ++ post)) as (ver' & Hv); [done| | |exists ver'; by rewrite <- app_assoc].
    + rewrite !length_app. lia.
    + intros Heq. fold sum in Heq. rewrite <- Hp in Heq. apply app_inv_head in Heq. by apply app_inv_tail in Heq.
Qed.

End footer.

(** ** Dump and restore *)

Section dump.
Context (rdb_compression : bool) (addr : bytes → Z) (stack : bytes → Z → Z) (junk : nat → Z) (alloc : Z → bool).
Context (dt hdt : dictType bytes) `{!SetDictType dt} `{!HashDictType hdt} (can : dictResizeEnable) (table_addr : bool → Z) (dict_alloc : Z → bool).
Context (set_max_intset_entries set_max_listpack_entries set_max_listpack_value : Z).
Context (little : bool) (table : list (list Z)) (Htable : crc64_table_ok little table) (next : bytes → Z) (skip : bool).

Local Abbreviation rloads := (loads None buffer_ready buffer_pending).

Lemma load_type_ok t : rdbIsObjectType t = true → rloads (rdbLoadObjectType rioBufferIO None) [t] t.
Proof.
  intros Ht. unfold rdbLoadObjectType. apply (loads_bind None buffer_ready buffer_pending _ _ [t] [] t); [|rewrite Ht; by apply loads_ret].
  unfold rdbLoadType. apply (loads_bind None buffer_ready buffer_pending _ _ [t] [] [t]); [apply (loads_read rioBufferIO None buffer_ready buffer_pending [t])|by apply loads_ret].
Qed.

Lemma object_type_ok o : byte_ok (rdb_object_type o) ∧ rdbIsObjectType (rdb_object_type o) = true.
Proof. destruct o as [|[]]; by vm_compute. Qed.

(** The bytes of a buffer that has been written to. *)
Lemma buffer_emits {A} (m : io (option (rio rio_buffer)) A) bs v r :
  emits rioBufferIO None buffer_ptr m bs v → rio_max_processing_chunk r = 0 → rio_write_error r = false →
  ∃ r', m (Some r) = Some (Some r', Some v) ∧ buffer_ptr (rio_io r') = buffer_ptr (rio_io r) ++ bs ∧ rio_max_processing_chunk r' = 0 ∧ rio_write_error r' = false.
Proof.
  intros [_ Hm] Hc He. destruct (Hm r ltac:(lia) He) as (r' & ok & Hr & Hinf & Hok). rewrite (Hinf buffer_infallible) in Hr, Hok. destruct Hok as [W1 W2 W3 W4].
  exists r'. split_and!; [done..|congruence|done].
Qed.

Lemma buffer_loads {A} (m : io (rio rio_buffer) A) bs v r rest :
  rloads m bs v → rio_max_processing_chunk r = 0 → rio_read_error r = false → buffer_ready (rio_io r) → buffer_pending (rio_io r) = bs ++ rest →
  ∃ r', m r = Some (r', Some v) ∧ rio_max_processing_chunk r' = 0 ∧ rio_read_error r' = false ∧ buffer_ready (rio_io r') ∧ buffer_pending (rio_io r') = rest.
Proof.
  intros Hm Hc He Hr Hp. destruct (Hm r rest ltac:(lia) He Hr Hp) as (r' & Hr' & Hready & [R1 R2 R3 R4]). exists r'. split_and!; [done|congruence|done..].
Qed.

Lemma version_bytes : bytes_ok [11; 0].
Proof. repeat constructor; unfold byte_ok; lia. Qed.

(** The payload of an object. *)
Definition payload_of (o : robj) (bs : bytes) : bytes :=
  let body := (rdb_object_type o :: bs) ++ [11; 0] in body ++ le_bytes 8 (crc64_ref 0 body).

Lemma create_payload o v bs :
  emits rioBufferIO None buffer_ptr (rdbSaveObject rioBufferIO None rdb_compression addr stack junk table_addr o) bs v → some_bytes bs → v ≠ 0 →
  createDumpPayload rdb_compression addr stack junk table_addr (dump_crc little table next) o = Some (payload_of o bs).
Proof.
  intros Hem [Hbs _] Hv. destruct (object_type_ok o) as [Hbyte _]. unfold createDumpPayload.
  assert (u8 (rdb_object_type o) = rdb_object_type o) as Hu8 by (apply uwrap_small, Hbyte).
  destruct (buffer_emits (rdbSaveObjectType rioBufferIO None o) [rdb_object_type o] 1 (rioInitWithBuffer [])) as (r1 & -> & H1 & Hc1 & He1); [|done..|].
  { unfold rdbSaveObjectType, rdbSaveType. rewrite Hu8. apply (emits_raw rioBufferIO None buffer_ptr [rdb_object_type o]). }
  bind_simpl. rewrite decide_False by done. destruct (buffer_emits _ bs v r1 Hem Hc1 He1) as (r2 & -> & H2 & _). bind_simpl. rewrite decide_False by congruence. bind_simpl.
  rewrite H2, H1. cbn [rioInitWithBuffer rio_io buffer_ptr app]. change (Z.land RDB_VERSION 255) with 11. change (Z.land (Z.shiftr RDB_VERSION 8) 255) with 0.
  rewrite (dump_crc_ok little table Htable); [done|]. constructor; [done|]. apply Forall_app. split; [done|apply version_bytes].
Qed.

Lemma verify_payload o bs : bytes_ok bs → verifyDumpPayload (dump_crc little table next) skip (payload_of o bs) = Some (true, Some 11).
Proof.
  intros Hbs. destruct (object_type_ok o) as [Hbyte _]. unfold payload_of. rewrite <- app_assoc. rewrite (verify_ok little table Htable).
  - rewrite (bool_decide_true (le_bytes 8 _ = _)) by done. by rewrite orb_true_r.
  - constructor; [done|]. apply Forall_app. split; [done|apply version_bytes].
  - by apply le_bytes_length.
Qed.

Lemma restore_payload o bs deep o' :
  bytes_ok bs → zlen (payload_of o bs) < 2 ^ 63 →
  rloads (rdbLoadObject rioBufferIO None junk alloc dt hdt can table_addr dict_alloc set_max_intset_entries set_max_listpack_entries set_max_listpack_value deep (rdb_object_type o))
    bs (Some o') →
  restore_object junk alloc dt hdt can table_addr dict_alloc set_max_intset_entries set_max_listpack_entries set_max_listpack_value (dump_crc little table next) skip deep
    (payload_of o bs) = Some (Restored o').
Proof.
  intros Hbs Hlen Hload. unfold restore_object. rewrite verify_payload by done. bind_simpl. cbn [negb]. destruct (object_type_ok o) as [_ Htype].
  destruct (buffer_loads _ [rdb_object_type o] _ (rioInitWithBuffer (payload_of o bs)) (bs ++ [11; 0] ++ le_bytes 8 (crc64_ref 0 ((rdb_object_type o :: bs) ++ [11; 0]))) (load_type_ok _ Htype))
    as (r1 & -> & Hc1 & He1 & Hr1 & Hp1); [done|done| | |].
  { unfold buffer_ready, rioInitWithBuffer. simpl rio_io. cbn [buffer_pos buffer_ptr]. lia. }
  { unfold buffer_pending, rioInitWithBuffer, payload_of. cbn [rio_io buffer_pos buffer_ptr]. rewrite drop_0. rewrite <- app_assoc. done. }
  bind_simpl. destruct (buffer_loads _ _ _ r1 _ Hload Hc1 He1 Hr1 Hp1) as (r2 & -> & _). done.
Qed.

End dump.
