(* ===== verification/RdbSafe.v ===== *)
(** * rdb.c: loading from any bytes

Whatever the bytes are, loading a string or a set ends with an error or with a well-formed object. *)

From S2P Require Import Prelude Intset Dict DictInv DictOps Util Listpack Crc CrcEquiv Tset TsetInv TsetConv TsetOps Lzf LzfOk Rio Rdb RdbOk RdbObj RdbBlob RdbLoad RdbObjOk RdbDump.

Local Open Scope Z_scope.
Local Open Scope io_scope.

Section safety.
Context {S : Type} (ops : rio_ops S) (update_cksum : option (Z → bytes → Z)).
Context (ready : S → Prop) (pending : S → bytes) `{!RioReader ops ready pending} `{!RioShort ops ready pending}.
Implicit Types (r : rio S).

Definition left_of r : Z := zlen (pending (rio_io r)).

Lemma left_nonneg r : 0 ≤ left_of r.
Proof. unfold left_of. lia. Qed.

(** With at most [n] bytes left, [m] returns an error, or a value [v] after [c] bytes with [Q v c]. *)
Definition safe {A} (n : Z) (m : io (rio S) A) (Q : A → Z → Prop) : Prop :=
  ∀ r, 0 ≤ rio_max_processing_chunk r → ready (rio_io r) → bytes_ok (pending (rio_io r)) → left_of r ≤ n →
  ∃ r' x, m r = Some (r', x) ∧ 0 ≤ rio_max_processing_chunk r' ∧ ready (rio_io r') ∧ bytes_ok (pending (rio_io r')) ∧ left_of r' ≤ left_of r ∧
    (∀ v, x = Some v → Q v (left_of r - left_of r')).

Lemma safe_ret {A} n (v : A) (Q : A → Z → Prop) : Q v 0 → safe n (io_ret v) Q.
Proof. intros HQ r Hc Hr Hb Hn. exists r, (Some v). split_and!; [done..|]. intros w [= <-]. by rewrite Z.sub_diag. Qed.

Lemma safe_err {A} n (Q : A → Z → Prop) : safe n io_err Q.
Proof. intros r Hc Hr Hb Hn. exists r, None. by split_and!. Qed.

Lemma safe_bind {A B} n (m : io (rio S) A) (f : A → io (rio S) B) (Q : A → Z → Prop) (R : B → Z → Prop) :
  safe n m Q → (∀ v c, 0 ≤ c ≤ n → Q v c → safe (n - c) (f v) (λ w c', R w (c + c'))) → safe n (io_bind m f) R.
Proof.
  intros Hm Hf r Hc Hr Hb Hn. destruct (Hm r Hc Hr Hb Hn) as (r1 & x & Hm1 & Hc1 & Hr1 & Hb1 & Hl1 & Hx). unfold io_bind. rewrite Hm1. bind_simpl.
  destruct x as [v|]; [|by exists r1, None]. pose proof (left_nonneg r1). destruct (Hf v (left_of r - left_of r1) ltac:(lia) (Hx v eq_refl) r1 Hc1 Hr1 Hb1) as (r2 & y & -> & Hc2 & Hr2 & Hb2 & Hl2 & Hy); [lia|].
  exists r2, y. split_and!; [done..|lia|]. intros w Hw. specialize (Hy w Hw). by replace (left_of r - left_of r1 + (left_of r1 - left_of r2)) with (left_of r - left_of r2) in Hy by lia.
Qed.

Lemma safe_of {A B} n (o : option A) (f : A → io (rio S) B) v R : o = Some v → safe n (f v) R → safe n (io_bind (io_of o) f) R.
Proof. by intros ->. Qed.

(** A check that finds an error or a value. *)
Lemma safe_check {A B} n (o : option (option A)) (f : A → io (rio S) B) R x : o = Some x → (∀ v, x = Some v → safe n (f v) R) → safe n (io_bind (io_check o) f) R.
Proof. intros -> Hx. destruct x as [v|]; [by apply (Hx v)|]. apply safe_err. Qed.

Lemma safe_weaken {A} n (m : io (rio S) A) (Q R : A → Z → Prop) : safe n m Q → (∀ v c, 0 ≤ c ≤ n → Q v c → R v c) → safe n m R.
Proof.
  intros Hm HQ r Hc Hr Hb Hn. destruct (Hm r Hc Hr Hb Hn) as (r1 & x & Hm1 & Hc1 & Hr1 & Hb1 & Hl1 & Hx). exists r1, x. split_and!; [done..|].
  intros v Hv. pose proof (left_nonneg r1). apply HQ; [lia|by apply Hx].
Qed.

Lemma safe_vacuous {A} n (m : io (rio S) A) (Q : A → Z → Prop) : n < 0 → safe n m Q.
Proof. intros Hn r _ _ _ Hl. unfold left_of in Hl. lia. Qed.

Lemma safe_read n len : 0 ≤ len → safe n (rdb_read ops update_cksum len) (λ a c, zlen a = len ∧ bytes_ok a ∧ c = len).
Proof.
  intros Hl r Hc Hr Hb Hn. destruct (rioRead_total ops update_cksum ready pending r len Hc Hr Hl) as (r' & x & a & Hread & Hc' & Hr' & Hp & Hx).
  unfold left_of. rewrite Hp in *. apply Forall_app in Hb as [Ha Hb]. exists r', x. rewrite length_app. split_and!; [done|lia|done|done|lia|].
  intros b Hb'. destruct (Hx b Hb') as [-> Hla]. split_and!; [done..|lia].
Qed.

(** One byte. *)
Lemma safe_byte {A} n (f : Z → io (rio S) A) R :
  (∀ b, byte_ok b → safe (n - 1) (f b) (λ w c, R w (1 + c))) → safe n (let! x := rdb_read ops update_cksum 1 in let! y := io_of (head x) in f y) R.
Proof.
  intros Hf. eapply safe_bind; [by apply safe_read|]. intros a c _ (Hl & Hok & ->). destruct a as [|b [|]]; [done| |simpl in Hl; lia].
  inversion_clear Hok. eapply safe_of; [done|]. by apply Hf.
Qed.

(** ** Lengths *)

Definition len_ok (x : bool * Z) : Prop := 0 ≤ snd x < 2 ^ 64.

Lemma land_range x m n : 0 ≤ n → m = Z.ones n → 0 ≤ Z.land x m < 2 ^ n.
Proof. intros Hn ->. rewrite Z.land_ones by lia. apply Z.mod_pos_bound. apply Z.pow_pos_nonneg; lia. Qed.

Lemma net_val_range b : bytes_ok b → in_urange (zlen b * 8) (net_val b).
Proof. intros Hb. unfold net_val. rewrite <- (length_reverse b). apply le_val_range. unfold bytes_ok. by rewrite Forall_reverse. Qed.

Lemma safe_net n k : 0 ≤ k ≤ 8 → safe n (let! b := rdb_read ops update_cksum k in io_ret (false, net_val b)) (λ x c, len_ok x).
Proof.
  intros Hk. eapply safe_bind; [by apply safe_read; lia|]. intros b c _ (Hl & Hok & _). apply safe_ret. unfold len_ok. simpl.
  pose proof (net_val_range b Hok) as Hr. rewrite Hl in Hr. unfold in_urange in Hr. assert (2 ^ (k * 8) ≤ 2 ^ 64) by (apply Z.pow_le_mono_r; lia). lia.
Qed.

Lemma load_len_safe n : safe n (rdbLoadLenByRef ops update_cksum) (λ x c, len_ok x ∧ 1 ≤ c).
Proof.
  unfold rdbLoadLenByRef. apply safe_byte. intros b Hb. pose proof (land_range b 0x3F 6 ltac:(lia) eq_refl) as H6.
  assert (∀ m, safe (n - 1) m (λ x c, len_ok x) → safe (n - 1) m (λ w c, len_ok w ∧ 1 ≤ 1 + c)) as Hw by (intros m Hm; eapply safe_weaken; [exact Hm|]; simpl; intros; split; [done|lia]).
  case_decide; [apply Hw, safe_ret; unfold len_ok; simpl; lia|]. case_decide; [apply Hw, safe_ret; unfold len_ok; simpl; lia|].
  case_decide.
  { apply Hw, safe_byte. intros b1 Hb1. apply safe_ret. unfold len_ok. simpl. assert (in_urange 64 (Z.lor (Z.shiftl (Z.land b 63) 8) b1)); [|done].
    apply ListpackVal.lor_range; [lia| |unfold byte_ok in Hb1; range_lia]. rewrite Z.shiftl_mul_pow2 by lia. range_lia. }
  case_decide; [apply Hw, safe_net; lia|]. case_decide; [apply Hw, safe_net; lia|]. apply safe_err.
Qed.

Lemma rdbLoadLen_safe n : safe n (rdbLoadLen ops update_cksum) (λ x c, len_ok x ∧ (snd x = RDB_LENERR ∨ 1 ≤ c)).
Proof.
  intros r Hc Hr Hb Hn. destruct (load_len_safe n r Hc Hr Hb Hn) as (r' & x & Hm & Hc' & Hr' & Hb' & Hl & Hx). unfold rdbLoadLen. rewrite Hm. bind_simpl.
  eexists r', _. split_and!; [done..|]. intros v [= <-]. destruct x as [v|]; simpl; [destruct (Hx v eq_refl); auto|]. split; [|by left]. unfold len_ok, RDB_LENERR, ULLONG_MAX. simpl. lia.
Qed.

(** A length that is not the error. *)
Lemma safe_len {A} n (f : bool * Z → io (rio S) A) R :
  (∀ e len c, 0 ≤ len < 2 ^ 64 → 1 ≤ c → safe (n - c) (f (e, len)) (λ w c', R w (c + c'))) →
  safe n (let! (e, len) := rdbLoadLen ops update_cksum in if decide (len = RDB_LENERR) then io_err else f (e, len)) R.
Proof.
  intros Hf. eapply safe_bind; [apply rdbLoadLen_safe|]. intros [e len] c _ [Hl Hcase]. unfold len_ok in Hl. simpl in *. case_decide; [apply safe_err|].
  apply Hf; [done|]. by destruct Hcase.
Qed.

(** ** Strings *)

Context (junk : nat → Z) (Hjunk : ∀ i, byte_ok (junk i)) (alloc : Z → bool).
(** Strings of 2 GB and more are not allocated. *)
Context (Halloc : ∀ n, alloc n = true → n < 2 ^ 31).

(** A string of bytes in the form that the flags ask for. *)
Definition loaded_ok (flags : Z) (v : rdb_loaded) : Prop := ∃ t, loaded flags t v ∧ bytes_ok t ∧ zlen t < 2 ^ 31.

Lemma load_integer_safe n e :
  safe n (rdb_load_integer ops update_cksum e) (λ v c, in_srange 64 v).
Proof.
  unfold rdb_load_integer. repeat case_decide; [..|apply safe_err]; (eapply safe_bind; [by apply safe_read|]); intros b c _ (Hl & Hok & _); apply safe_ret.
  - pose proof (swrap_range 8 (le_val b)). range_lia.
  - pose proof (swrap_range 16 (le_val b)). range_lia.
  - pose proof (swrap_range 32 (le_val b)). range_lia.
Qed.

Lemma decimal_loaded flags v m : in_srange 64 m → loaded flags (decimal m) v → loaded_ok flags v.
Proof. intros Hm Hv. exists (decimal m). pose proof (decimal_short m Hm). split; [done|]. split; [apply decimal_bytes_ok|lia]. Qed.

Lemma load_int_safe n e flags : safe n (rdbLoadIntegerObject ops update_cksum e flags) (λ v c, loaded_ok flags v).
Proof.
  unfold rdbLoadIntegerObject. eapply safe_bind; [apply load_integer_safe|]. intros m c _ Hm. cbn beta in Hm.
  assert (ll_string (Z.to_nat LONG_STR_SIZE) m = Some (decimal m)) as Hs by (apply ll_string_ok; [done|vm_compute; lia]).
  assert (∀ v, loaded flags (decimal m) v → safe (n - c) (io_ret v) (λ w _, loaded_ok flags w)) as Hret by (intros v Hv; apply safe_ret; by eapply decimal_loaded).
  unfold loaded in Hret. destruct (has_load_flag flags RDB_LOAD_PLAIN); [eapply safe_of; [exact Hs|]; by apply Hret|].
  destruct (has_load_flag flags RDB_LOAD_SDS); [eapply safe_of; [exact Hs|]; by apply Hret|].
  destruct (has_load_flag flags RDB_LOAD_ENC); [apply Hret; by eexists|]. eapply safe_of; [unfold createStringObjectFromLongLongWithSds; by rewrite Hs|]. apply Hret. by eexists.
Qed.

Lemma load_lzf_safe n flags : safe n (rdbLoadLzfStringObject ops update_cksum junk alloc flags) (λ v c, loaded_ok flags v).
Proof.
  unfold rdbLoadLzfStringObject. apply (safe_len n (λ '(_, clen), _)). intros _ clen c Hclen _. apply (safe_len _ (λ '(_, len), _)). intros _ len c' Hlen _.
  destruct (alloc clen); [|apply safe_err]. destruct (alloc len) eqn:Ha; [|apply safe_err]. cbn [negb]. eapply safe_bind; [by apply safe_read; lia|]. intros a k _ (Hl & Hok & _).
  set (out := junk <$> seq 0 (Z.to_nat len)). destruct (decompress_safe a out Hok) as (out' & m & e & Hd & [Hlo Hbo] & _). eapply safe_of; [exact Hd|]. cbn beta iota.
  case_decide; [apply safe_err|]. apply safe_ret. exists out'. split; [apply load_as_string|]. split.
  - apply Hbo, Forall_fmap, Forall_forall. intros i _. apply Hjunk.
  - apply Halloc in Ha. rewrite Hlo. unfold out. rewrite length_fmap, length_seq. lia.
Qed.

Lemma load_string_safe n flags : safe n (load_string ops update_cksum junk alloc flags) (λ v c, loaded_ok flags v ∧ 1 ≤ c).
Proof.
  unfold load_string, rdbGenericLoadStringObject. apply (safe_len n (λ '(isencoded, len), _)). intros e len c Hlen Hc. cbn beta iota.
  assert (∀ m, safe (n - c) m (λ v _, loaded_ok flags v) → safe (n - c) m (λ v c', loaded_ok flags v ∧ 1 ≤ c + c')) as Hw by (intros m Hm; eapply safe_weaken; [exact Hm|]; simpl; intros; split; [done|lia]).
  destruct e.
  - case_decide; [apply Hw, load_int_safe|]. case_decide; [apply Hw, load_lzf_safe|apply safe_err].
  - destruct (alloc len) eqn:Ha; [|apply safe_err]. cbn [negb]. apply Hw. eapply (safe_bind _ _ _ (λ s _, bytes_ok s ∧ zlen s = len)).
    + case_decide; [eapply safe_weaken; [apply safe_read; lia|]; simpl; intros; tauto|]. apply safe_ret. split; [constructor|simpl; lia].
    + intros s k _ [Hs Hl]. apply safe_ret. exists s. split; [apply load_as_string|]. split; [done|]. apply Halloc in Ha. lia.
Qed.

(** ** Sets *)

Context (dt hdt : dictType bytes) `{!SetDictType dt} (can : dictResizeEnable) (table_addr : bool → Z) (dict_alloc : Z → bool).
Context (set_max_intset_entries set_max_listpack_entries set_max_listpack_value : Z).
Context (Hcfg : 0 ≤ set_max_intset_entries < INTSET_LIMIT).

Local Abbreviation loading := (loading dt set_max_intset_entries).

(** The object is well formed. *)
Definition object_ok (o : robj) : Prop := ∃ v, robj_holds dt o v.

Lemma load_members_safe fuel : ∀ n len ps o maxl sum,
  loading len o ps maxl sum → Forall bytes_ok ps → n + zlen ps < 2 ^ 32 → len - zlen ps ≤ Z.of_nat fuel → zlen ps ≤ len →
  safe n (load_members ops update_cksum junk alloc dt can table_addr dict_alloc set_max_listpack_entries set_max_listpack_value fuel len (zlen ps) o maxl sum)
    (λ o' c, ∃ ms maxl' sum', loading len o' ms maxl' sum' ∧ Forall bytes_ok ms ∧ zlen ms = len ∧ zlen ms ≤ zlen ps + c).
Proof.
  induction fuel as [|fuel IH]; intros n len ps o maxl sum Hld Hb Hn Hf Hle; cbn [load_members].
  { rewrite decide_False by lia. apply safe_ret. exists ps, maxl, sum. split_and!; [done..|lia|lia]. }
  case_decide as Hlt; [|apply safe_ret; exists ps, maxl, sum; split_and!; [done..|lia|lia]].
  eapply safe_bind; [apply load_string_safe|]. intros v c _ [(t & -> & Ht & Hl) Hc]. eapply safe_of; [done|].
  destruct (decide (n - c < 0)) as [Hneg|Hpos]; [by apply safe_vacuous|].
  destruct (load_member_ok junk dt can table_addr dict_alloc _ set_max_listpack_entries set_max_listpack_value Hcfg len o ps t maxl sum Hld) as (x & Hx & Hres); [lia..|].
  eapply safe_check; [exact Hx|]. intros o1 ->. destruct Hres as [_ Hld1]. rewrite uwrap_small by range_lia.
  assert (zlen ps + 1 = zlen (ps ++ [t])) as Hlen by (rewrite length_app; simpl; lia). rewrite Hlen.
  eapply safe_weaken; [apply (IH (n - c)); [exact Hld1|apply Forall_app; split; [done|by constructor]|lia|lia|lia]|].
  intros o' k Hk (ms & maxl' & sum' & Hld' & Hbm & Hlm & Hle'). exists ms, maxl', sum'. split_and!; [done..|]. lia.
Qed.

(** A sorted list has no more elements than there are numbers between its bounds. *)
Lemma sorted_length (vs : list Z) lo hi : StronglySorted Z.lt vs → Forall (λ v, lo ≤ v ≤ hi) vs → lo - 1 ≤ hi → zlen vs ≤ hi - lo + 1.
Proof.
  intros Hs. revert lo. induction Hs as [|v vs Hs IH Hv]; intros lo Hr Hlh; [simpl; lia|]. inversion_clear Hr as [|? ? Hv0 Hr'].
  cbn [length]. enough (zlen vs ≤ hi - (v + 1) + 1) by lia. apply IH; [|lia]. rewrite Forall_forall in *. intros x Hx. specialize (Hv x Hx). specialize (Hr' x Hx). lia.
Qed.

Lemma load_set_safe n : n < 2 ^ 32 →
  safe n (load_set ops update_cksum junk alloc dt can table_addr dict_alloc set_max_intset_entries set_max_listpack_entries set_max_listpack_value)
    (λ x c, ∀ o, x = Some o → object_ok o).
Proof.
  intros Hn. unfold load_set. apply (safe_len n (λ '(_, len), _)). intros e len c Hlen Hc. cbn beta iota. case_decide as H0; [by apply safe_ret|].
  destruct (decide (n - c < 0)) as [Hneg|Hpos]; [by apply safe_vacuous|].
  destruct (load_set_create_ok dt dict_alloc set_max_intset_entries len) as (x & Hx & Hres); [lia|]. eapply safe_check; [exact Hx|]. intros o ->.
  eapply safe_bind; [apply (load_members_safe (Z.to_nat len) (n - c) len [] o 0 0 Hres); [constructor|simpl; lia..]|].
  intros o' k Hk (ms & maxl & sum & Hld & Hb & Hlm & Hle). apply safe_ret. intros o1 [= <-]. pose proof Hld as (Ho & Hnd & Hint). exists (SetValue (list_to_set ms)).
  assert (size (list_to_set ms : gset bytes) = length ms) as Hsz by by rewrite size_list_to_set. split_and!.
  - split; [done|]. destruct o' as [s| |]; [|done..]. simpl. rewrite (intset_size dt s _ Ho). destruct Hint as [Hint _]. pose proof (max_entries_le _ Hcfg). lia.
  - intros y Hy%elem_of_list_to_set. rewrite Forall_forall in Hb. by apply Hb.
  - intros Heq. rewrite Heq, size_empty in Hsz. lia.
  - simpl in Hle. lia.
Qed.

(** The bytes of an intset that passes the check. *)
Lemma load_set_intset_safe p :
  bytes_ok p → zlen p < 2 ^ 31 → ∃ x, load_set_intset junk dt can table_addr set_max_intset_entries true p = Some x ∧ ∀ o, x = Some o → object_ok o.
Proof.
  intros Hok Hl. unfold load_set_intset. destruct (intset_validate_ok p Hok Hl) as (b & -> & Hb). bind_simpl. destruct b; [|by eexists]. cbn [negb].
  destruct (proj1 Hb eq_refl) as (s & Y & Hne & HY & ->). destruct (blob_inv s Y HY Hne Hl) as (-> & _ & Henc & Hsz & _). bind_simpl.
  pose proof HY as (vs & [Hr Hs] & HYs). pose proof (repr_len _ _ Hr) as Hlen.
  assert (zlen vs ≤ INTSET_LIMIT) as Hlim.
  { unfold INTSET_LIMIT. destruct Henc as [He|He]; [|nia]. pose proof (repr_range _ _ Hr) as Hrange. rewrite He in Hrange.
    assert (zlen vs ≤ 32767 - -32768 + 1); [|lia]. apply sorted_length; [done| |lia]. eapply Forall_impl; [exact Hrange|]. intros x Hx. range_lia. }
  assert (set_repr dt (SetIntset s) (set_map decimal Y)) as Ho by (apply (repr_intset dt); exists Y; split_and!; [done|unfold intsetLen; lia|done]).
  pose proof (intset_size dt s _ Ho) as Hsize. unfold intsetLen in Hsize. unfold INTSET_LIMIT in Hlim.
  assert (∀ o, set_inv dt o (set_map decimal Y) → object_ok (RSet o)) as Hobj.
  { intros o Hinv. exists (SetValue (set_map decimal Y)). split_and!; [done| | |lia].
    - intros x (m & -> & _)%elem_of_map. apply decimal_bytes_ok.
    - intros Heq. apply Hne, set_eq. intros m. split; [|set_solver]. intros Hm. assert (decimal m ∈ (set_map decimal Y : gset bytes)) by (apply elem_of_map; by exists m). set_solver. }
  case_decide as Hgt; bind_simpl.
  - unfold setTypeConvert. destruct (setTypeSize_ok dt _ _ Ho) as (o1 & -> & Ho1 & Henc1). bind_simpl.
    destruct (convert_ht_ok junk dt can table_addr o1 _ (Z.of_nat (size (set_map decimal Y : gset bytes))) Ho1) as (d & -> & Hd); [by rewrite Henc1|range_lia..|].
    eexists. split; [done|]. intros o [= <-]. by apply Hobj.
  - eexists. split; [done|]. intros o [= <-]. apply Hobj. split; [done|]. simpl. lia.
Qed.

Local Abbreviation rdbLoadObject := (rdbLoadObject ops update_cksum junk alloc dt hdt can table_addr dict_alloc set_max_intset_entries set_max_listpack_entries
  set_max_listpack_value).

Lemma load_object_safe n t : n < 2 ^ 32 → t = RDB_TYPE_STRING ∨ t = RDB_TYPE_SET ∨ t = RDB_TYPE_SET_INTSET → safe n (rdbLoadObject true t) (λ x c, ∀ o, x = Some o → object_ok o).
Proof.
  intros Hn Ht. unfold RdbObj.rdbLoadObject. case_decide.
  { eapply safe_bind; [apply load_string_safe|]. intros v c _ [(t' & (o & -> & Ho & Hint) & Hb & Hl) _]. eapply safe_of; [done|]. apply safe_ret. intros o' [= <-].
    exists (StringValue t'). destruct (encode_object_string o Hint) as [He1 He2]. split_and!; [by rewrite He1|done|lia|done]. }
  case_decide; [by apply load_set_safe|]. rewrite decide_True by tauto.
  eapply safe_bind; [apply load_string_safe|]. intros v c _ [(p & -> & Hb & Hl) _]. eapply safe_of; [done|]. rewrite decide_True by tauto.
  destruct (load_set_intset_safe p Hb Hl) as (x & Hx & Hobj). eapply safe_check; [exact Hx|]. intros o ->. apply safe_ret. intros o' [= <-]. by apply Hobj.
Qed.

End safety.

(** The type of a payload. *)
Lemma load_type_result p :
  bytes_ok p → zlen p < 2 ^ 63 →
  ∃ r x, rdbLoadObjectType rioBufferIO None (rioInitWithBuffer p) = Some (r, x) ∧ 0 ≤ rio_max_processing_chunk r ∧ buffer_ready (rio_io r) ∧
    bytes_ok (buffer_pending (rio_io r)) ∧ left_of buffer_pending r ≤ zlen p ∧ (∀ t, x = Some t → head p = Some t ∧ rdbIsObjectType t = true).
Proof.
  intros Hp Hl. destruct (rioRead_total rioBufferIO None buffer_ready buffer_pending (rioInitWithBuffer p) 1) as (r & x & a & Hread & Hc & Hr & Hpend & Hx); [done| |lia|].
  { unfold buffer_ready. cbn. lia. }
  unfold buffer_pending in Hpend at 1. cbn [rio_io rioInitWithBuffer buffer_ptr buffer_pos] in Hpend. rewrite drop_0 in Hpend.
  unfold rdbLoadObjectType, rdbLoadType, rdb_read, io_bind. rewrite Hread. bind_simpl. rewrite Hpend in Hp. apply Forall_app in Hp as [_ Hb].
  assert (left_of buffer_pending r ≤ zlen p) as Hleft by (unfold left_of; rewrite Hpend, length_app; lia).
  destruct x as [b|]; bind_simpl; [|exists r, None; split_and!; [done|rewrite Hc; done|done..]].
  destruct (Hx b eq_refl) as [-> Hla]. destruct a as [|t [|]]; [done| |simpl in Hla; lia]. unfold io_of. simpl.
  destruct (rdbIsObjectType t) eqn:Ht; eexists r, _; (split; [reflexivity|]); split_and!; try done; try (rewrite Hc; done).
  intros t' [= <-]. by rewrite Hpend.
Qed.
