(* ===== verification/RdbTheorems.v ===== *)
(** * rdb.c, cluster.c: saving and loading of values, DUMP and RESTORE *)

From S2P Require Import Prelude Intset Dict DictInv DictLife Util Listpack Crc CrcEquiv Tset TsetInv TsetConv TsetOps TsetRefine.
From S2P Require Import Lzf Rio Rdb RdbOk RdbObj RdbBlob RdbObjOk RdbDump RdbSafe.

Local Open Scope Z_scope.

(** Strings lie above the first 8 KB of memory, the stack has machine words, no allocation fails, and the limit for
    intsets is below the size from which their offsets overflow. *)
Record rdb_env (addr : bytes → Z) (stack : bytes → Z → Z) (alloc dict_alloc : Z → bool) (set_max_intset_entries : Z) : Prop := {
  env_addr s : zlen s < 2 ^ 63 → MAX_OFF ≤ addr s ∧ addr s + zlen s < 2 ^ 64;
  env_stack s i : in_urange 64 (stack s i);
  env_alloc n : 0 ≤ n < 2 ^ 63 → alloc n = true;
  env_dict n : dict_alloc n = true;
  env_limit : 0 ≤ set_max_intset_entries < INTSET_LIMIT;
}.

Section theorems.
Context (rdb_compression : bool) (addr : bytes → Z) (stack : bytes → Z → Z) (junk : nat → Z) (alloc : Z → bool).
Context (dt hdt : dictType bytes) `{!SetDictType dt} `{!HashDictType hdt} (can : dictResizeEnable) (table_addr : bool → Z) (dict_alloc : Z → bool).
Context (set_max_intset_entries set_max_listpack_entries set_max_listpack_value : Z).

(** C11. A string or a set that [rdbSaveObject] writes to a stream is read back by [rdbLoadObject] as an object with the
    same value, whatever the encoding of the object, the compression, the limits of the configuration that decide
    on the encoding of the loaded object, and the chunks of the stream; the returned number is the number of
    bytes, also when there is no stream.  When a write fails, -1 is returned and the stream has its error
    flag set.  The checksum of the stream is updated with the bytes. *)
Theorem rdb_object_roundtrip {S} (ops : rio_ops S) update_cksum `{!CksumApp update_cksum} written `{!RioWriter ops written}
    ready pending `{!RioReader ops ready pending} o v :
  rdb_env addr stack alloc dict_alloc set_max_intset_entries → robj_holds dt o v →
  ∃ bs, emits ops update_cksum written (rdbSaveObject ops update_cksum rdb_compression addr stack junk table_addr o) bs (zlen bs) ∧ bs ≠ [] ∧
    ∀ deep, ∃ o', loads update_cksum ready pending
      (rdbLoadObject ops update_cksum junk alloc dt hdt can table_addr dict_alloc set_max_intset_entries set_max_listpack_entries set_max_listpack_value deep
         (rdb_object_type o)) bs (Some o') ∧ robj_holds dt o' v.
Proof.
  intros [H1 H2 H3 H4 H5] Ho. destruct (object_saved_ok ops update_cksum written ready pending rdb_compression addr stack junk alloc dt hdt can table_addr dict_alloc
    set_max_intset_entries set_max_listpack_entries set_max_listpack_value H1 H2 H3 H4 H5 o v Ho) as (bs & Hem & [_ Hne] & Hload). by exists bs.
Qed.

(** C10. The payload of DUMP passes the check of RESTORE and restores an object with the same value: for strings and
    for sets in every encoding, with or without compression, with or without the deep validation, on machines of
    either byte order. *)
Theorem dump_restore_roundtrip little table next skip o v :
  rdb_env addr stack alloc dict_alloc set_max_intset_entries → crc64_init little = Some table → robj_holds dt o v →
  ∃ p, createDumpPayload rdb_compression addr stack junk table_addr (dump_crc little table next) o = Some p ∧
    (zlen p < 2 ^ 63 → verifyDumpPayload (dump_crc little table next) skip p = Some (true, Some RDB_VERSION) ∧
      ∀ deep, ∃ o', restore_object junk alloc dt hdt can table_addr dict_alloc set_max_intset_entries set_max_listpack_entries set_max_listpack_value
        (dump_crc little table next) skip deep p = Some (Restored o') ∧ robj_holds dt o' v).
Proof.
  intros [H1 H2 H3 H4 H5] Hinit Ho. destruct (crc64_init_ok little) as (table' & Hinit' & Htable). rewrite Hinit in Hinit'. injection Hinit' as <-.
  destruct (object_saved_ok rioBufferIO None buffer_ptr buffer_ready buffer_pending rdb_compression addr stack junk alloc dt hdt can table_addr dict_alloc
    set_max_intset_entries set_max_listpack_entries set_max_listpack_value H1 H2 H3 H4 H5 o v Ho) as (bs & Hem & Hbs & Hload).
  exists (payload_of o bs). split; [eapply create_payload; [done|done|done|]; destruct Hbs as [_ Hne]; destruct bs; [done|simpl; lia]|]. intros Hlen.
  split; [apply verify_payload; [done|apply Hbs]|]. intros deep. destruct (Hload deep) as (o' & Hl & Ho'). exists o'. split; [|done]. by apply restore_payload; [|apply Hbs|..].
Qed.

End theorems.

(** C13. A payload that RESTORE accepts is refused after any damage of up to eight consecutive bytes in front of the
    checksum, or inside the checksum. *)
Theorem dump_detects_damage little table next (pre w w' post : bytes) ver :
  crc64_init little = Some table → bytes_ok (pre ++ w ++ post) → bytes_ok w' → length w = length w' → w ≠ w' → (length w ≤ 8)%nat →
  8 ≤ zlen post ∨ zlen w + zlen post ≤ 8 → verifyDumpPayload (dump_crc little table next) false (pre ++ w ++ post) = Some (true, ver) →
  ∃ ver', verifyDumpPayload (dump_crc little table next) false (pre ++ w' ++ post) = Some (false, ver').
Proof.
  intros Hinit. destruct (crc64_init_ok little) as (table' & Hinit' & Htable). rewrite Hinit in Hinit'. injection Hinit' as <-. by apply damage_refused.
Qed.

Lemma verify_total little table next skip p :
  crc64_table_ok little table → bytes_ok p → ∃ ok ver, verifyDumpPayload (dump_crc little table next) skip p = Some (ok, ver).
Proof.
  intros Htable Hp. destruct (decide (zlen p < 10)) as [Hs|Hs]; [eexists _, _; by apply verify_short|].
  destruct (split_payload p) as (b0 & f0 & f1 & sum & -> & Hsum); [lia|]. rewrite app_assoc in Hp. apply Forall_app in Hp as [Hb _]. eexists _, _. by apply verify_ok.
Qed.


(** ** Examples *)

Definition ex_hash_type : dictType bytes := mk_dictType bytes (hashFunction ex_set_type) (keyCompare ex_set_type) None false false (λ _, true).

Global Instance ex_hash_type_ok : HashDictType ex_hash_type.
Proof. split; [|done]. split; [apply (keyCompare_spec (dt := ex_set_type))|apply (hash_range (dt := ex_set_type))]. Qed.

Lemma ex_env : rdb_env (λ _, 8192) (λ _ _, 0) (λ _, true) (λ _, true) 1.
Proof. split; [|done..]. intros s Hs. unfold MAX_OFF. change (Z.shiftl 1 13) with 8192. lia. Qed.

(** The set of the strings 3 and 9. *)
Definition ex_object : robj := RSet (SetIntset intset_3_9).
Definition ex_value : value := SetValue (set_map decimal set_3_9).

Lemma ex_holds : robj_holds ex_set_type ex_object ex_value.
Proof.
  split_and!; [|intros x (n & -> & _)%elem_of_map; apply decimal_bytes_ok|vm_compute; discriminate|vm_compute; reflexivity].
  split; [|vm_compute; reflexivity]. apply (repr_intset ex_set_type). exists set_3_9. split_and!; [apply intset_3_9_denotes|vm_compute; discriminate|done].
Qed.

Definition ex_crc (c : Z) (s : bytes) : option Z := table ← crc64_init true; dump_crc true table (λ _, 0) c s.

Definition ex_dump (o : robj) : option bytes := createDumpPayload true (λ _, 8192) (λ _ _, 0) (λ _, 0) (λ _, 0) ex_crc o.
Definition ex_restore (deep : bool) (p : bytes) : option restored :=
  restore_object (λ _, 0) (λ n, n <? 2 ^ 31) ex_set_type ex_hash_type DICT_RESIZE_ENABLE (λ _, 0) (λ _, true) 1 4 8 ex_crc false deep p.

(** The payload of the string 10: a type, an integer of 8 bits, the version and the checksum.  The intset becomes a hash
    table in a server that allows one integer only.  A set with a member twice is refused, as is a damaged payload. *)
Example dump_ex :
  ex_dump (RString (ObjString (str "10"))) = Some ([0; 0xC0; 10; 11; 0] ++ [7; 64; 234; 54; 243; 49; 138; 50]) ∧
  (p ← ex_dump (RString (ObjString (replicate 40 97))); ex_restore true p) = Some (Restored (RString (ObjString (replicate 40 97)))) ∧
  (p ← ex_dump ex_object; r ← ex_restore true p; match r with Restored (RSet o) => Some (encoding o) | _ => None end) = Some OBJ_ENCODING_HT ∧
  (let body := [2; 2; 1; 97; 1; 97; 11; 0] in c ← ex_crc 0 body; ex_restore true (body ++ le_bytes 8 c)) = Some BadFormat ∧
  ex_restore true ([0; 0xC0; 10; 11; 0] ++ [7; 64; 234; 54; 243; 49; 138; 51]) = Some BadChecksum.
Proof. by vm_compute. Qed.

Lemma rdb_object_roundtrip_witness :
  robj_holds ex_set_type ex_object ex_value ∧
  ∃ bs, emits rioBufferIO None buffer_ptr (rdbSaveObject rioBufferIO None true (λ _, 8192) (λ _ _, 0) (λ _, 0) (λ _, 0) ex_object) bs (zlen bs) ∧
    ∃ o', loads None buffer_ready buffer_pending (rdbLoadObject rioBufferIO None (λ _, 0) (λ _, true) ex_set_type ex_hash_type DICT_RESIZE_ENABLE (λ _, 0) (λ _, true) 1 4 8 true
      RDB_TYPE_SET_INTSET) bs (Some o') ∧ robj_holds ex_set_type o' ex_value.
Proof.
  split; [exact ex_holds|].
  destruct (rdb_object_roundtrip true (λ _, 8192) (λ _ _, 0) (λ _, 0) (λ _, true) ex_set_type ex_hash_type DICT_RESIZE_ENABLE (λ _, 0) (λ _, true) 1 4 8
    rioBufferIO None buffer_ptr buffer_ready buffer_pending ex_object ex_value ex_env ex_holds) as (bs & Hem & _ & Hload).
  exists bs. split; [exact Hem|]. exact (Hload true).
Defined.

Lemma dump_restore_roundtrip_witness :
  ∃ table p, crc64_init true = Some table ∧
    createDumpPayload true (λ _, 8192) (λ _ _, 0) (λ _, 0) (λ _, 0) (dump_crc true table (λ _, 0)) ex_object = Some p ∧
    (zlen p < 2 ^ 63 → verifyDumpPayload (dump_crc true table (λ _, 0)) false p = Some (true, Some RDB_VERSION)).
Proof.
  destruct (crc64_init_ok true) as (table & Hinit & _).
  destruct (dump_restore_roundtrip true (λ _, 8192) (λ _ _, 0) (λ _, 0) (λ _, true) ex_set_type ex_hash_type DICT_RESIZE_ENABLE (λ _, 0) (λ _, true) 1 4 8
    true table (λ _, 0) false ex_object ex_value ex_env Hinit ex_holds) as (p & Hp & Hv).
  exists table, p. split; [exact Hinit|]. split; [exact Hp|]. intros Hl. exact (proj1 (Hv Hl)).
Defined.

Lemma ex_accepted table :
  crc64_table_ok true table →
  verifyDumpPayload (dump_crc true table (λ _, 0)) false ([0; 0xC0] ++ [10] ++ [11; 0; 7; 64; 234; 54; 243; 49; 138; 50]) = Some (true, Some 11).
Proof.
  intros Htable. change ([0; 0xC0] ++ [10] ++ [11; 0; 7; 64; 234; 54; 243; 49; 138; 50]) with ([0; 0xC0; 10] ++ [11; 0] ++ [7; 64; 234; 54; 243; 49; 138; 50]).
  rewrite (verify_ok true table Htable); [vm_compute; reflexivity| |reflexivity]. repeat (constructor; [vm_compute; split; [discriminate|reflexivity]|]). constructor.
Qed.

Lemma dump_detects_damage_witness :
  ∃ table ver, crc64_init true = Some table ∧
    verifyDumpPayload (dump_crc true table (λ _, 0)) false ([0; 0xC0] ++ [12] ++ [11; 0; 7; 64; 234; 54; 243; 49; 138; 50]) = Some (false, ver).
Proof.
  destruct (crc64_init_ok true) as (table & Hinit & Htable). exists table.
  destruct (dump_detects_damage true table (λ _, 0) [0; 0xC0] [10] [12] [11; 0; 7; 64; 234; 54; 243; 49; 138; 50] (Some 11) Hinit) as (ver & Hv).
  - repeat (constructor; [vm_compute; split; [discriminate|reflexivity]|]). constructor.
  - repeat (constructor; [vm_compute; split; [discriminate|reflexivity]|]). constructor.
  - reflexivity.
  - discriminate.
  - vm_compute. lia.
  - left. vm_compute. discriminate.
  - by apply ex_accepted.
  - exists ver. split; [exact Hinit|exact Hv].
Defined.

