(* ===== verification/Sds.v ===== *)
(** * sds.c: operations on dynamic strings

A string is the list of its bytes; reading the byte after the last one gives the terminator 0.
The file has the ranges and the searches of sds.c, quoting ([sdscatrepr]) and the splitting of a line in
arguments ([sdssplitargs]), and proves that splitting inverts quoting. *)

From S2P Require Import Prelude Util.

Local Open Scope Z_scope.

(** ** Ranges *)

Definition sdssubstr (s : bytes) (start len : Z) : bytes :=
  let oldlen := zlen s in
  let '(start, len) := if decide (start >= oldlen) then (0, 0) else (start, len) in
  let len := if decide (len > oldlen - start) then oldlen - start else len in
  take (Z.to_nat len) (drop (Z.to_nat start) s).

(** [start] and [stop] are signed; they become unsigned at the call of [sdssubstr]. *)
Definition sdsrange (s : bytes) (start stop : Z) : bytes :=
  let len := zlen s in
  if decide (len = 0) then s
  else
    let start := if decide (start < 0) then len + start else start in
    let stop := if decide (stop < 0) then len + stop else stop in
    let newlen := if decide (start > stop) then 0 else stop - start + 1 in
    sdssubstr s (u64 start) (u64 newlen).

(** [strchr(s, c)] for [c] other than the terminator: the offset of the first [c] before the terminator. *)
Fixpoint strchr (s : bytes) (c : Z) : option Z :=
  match s with
  | [] => None
  | b :: s => if decide (b = c) then Some 0 else if decide (b = 0) then None else Z.succ <$> strchr s c
  end.

(** [strchr(cset, c) != NULL], also for the terminator itself. *)
Definition in_cset (cset : bytes) (c : Z) : bool := bool_decide (c = 0) || bool_decide (is_Some (strchr cset c)).

(** [while (sp <= end && strchr(cset, *sp)) sp++]. *)
Definition trim_left (cset s : bytes) : bytes := drop_while (in_cset cset) s.

(** [while (ep > sp && strchr(cset, *ep)) ep--]: the byte at [sp] is kept. *)
Definition trim_right (cset s : bytes) : bytes :=
  match s with
  | [] => []
  | b :: t => b :: reverse (drop_while (in_cset cset) (reverse t))
  end.

Definition sdstrim (s cset : bytes) : bytes := trim_right cset (trim_left cset s).

Definition sdsmapchars (s from to : bytes) : bytes := (λ c, mapchar c (zip from to)) <$> s.

(** ** Separators *)

(** [for (j = 0; j < len - (seplen - 1); j++)]: [p] is [s + j] and [tok] the bytes from [start] to [j]. *)
Fixpoint sdssplitlen_loop (fuel : nat) (p sep tok : bytes) (tokens : list bytes) : option (list bytes) :=
  match fuel with
  | O => None
  | S fuel =>
      if decide (zlen p - (zlen sep - 1) > 0) then
        if decide (take (length sep) p = sep)
        then sdssplitlen_loop fuel (drop (length sep) p) sep [] (tokens ++ [tok])
        else sdssplitlen_loop fuel (drop 1 p) sep (tok ++ take 1 p) tokens
      else Some (tokens ++ [tok ++ p])
  end.

(** [None] inside is the result NULL with a count of 0. *)
Definition sdssplitlen (s sep : bytes) : option (option (list bytes)) :=
  if decide (zlen sep < 1 ∨ zlen s <= 0) then Some None
  else Some <$> sdssplitlen_loop (S (length s)) s sep [] [].

Fixpoint sdsjoinsds (argv : list bytes) (sep : bytes) : bytes :=
  match argv with
  | [] => []
  | [a] => a
  | a :: argv => a ++ sep ++ sdsjoinsds argv sep
  end.

(** ** Quoting *)

Definition isprint (c : Z) : bool := bool_decide (32 ≤ c ≤ 126).

(** [%02x] of a byte. *)
Definition hex_char (n : Z) : Z := if decide (n < 10) then 48 + n else 87 + n.
Definition hex2 (c : Z) : bytes := [hex_char (c / 16); hex_char (c mod 16)].

(** One round of the loop of [sdscatrepr]. *)
Definition repr_char (c : Z) : bytes :=
  if decide (c = 92 ∨ c = 34) then [92; c]
  else if decide (c = 10) then str "\n"
  else if decide (c = 13) then str "\r"
  else if decide (c = 9) then str "\t"
  else if decide (c = 7) then str "\a"
  else if decide (c = 8) then str "\b"
  else if isprint c then [c]
  else [92; 120] ++ hex2 c.

Definition sdscatrepr (s p : bytes) : bytes := s ++ [34] ++ (p ≫= repr_char) ++ [34].

Definition sdsneedsrepr (s : bytes) : bool :=
  existsb (λ c, bool_decide (c = 92 ∨ c = 34 ∨ c = 10 ∨ c = 13 ∨ c = 9 ∨ c = 7 ∨ c = 8) || negb (isprint c) || isspace c) s.

(** ** Splitting a line *)

Definition is_hex_digit (c : Z) : bool :=
  bool_decide (48 ≤ c ≤ 57) || bool_decide (97 ≤ c ≤ 102) || bool_decide (65 ≤ c ≤ 70).

Definition hex_digit_to_int (c : Z) : Z :=
  if decide (48 ≤ c ≤ 57) then c - 48
  else if decide (97 ≤ c ≤ 102) then c - 87
  else if decide (65 ≤ c ≤ 70) then c - 55
  else 0.

(** [*(p+i)]. *)
Definition at_p (p : bytes) (i : nat) : Z := default 0 (p !! i).

(** The byte that an escape letter stands for. *)
Definition unescape (c : Z) : Z :=
  if decide (c = 110) then 10
  else if decide (c = 114) then 13
  else if decide (c = 116) then 9
  else if decide (c = 98) then 8
  else if decide (c = 97) then 7
  else c.

(** [*p && !isspace( *p )] after a closing quote. *)
Definition glued (c : Z) : bool := negb (bool_decide (c = 0)) && negb (isspace c).

(** [while(!done)]: [Some None] is [goto err], else the token and the rest of the line. *)
Fixpoint split_token (fuel : nat) (p : bytes) (inq insq : bool) (current : bytes) : option (option (bytes * bytes)) :=
  match fuel with
  | O => None
  | S fuel =>
      let c := at_p p 0 in
      if inq then
        if decide (c = 92 ∧ at_p p 1 = 120 ∧ is_hex_digit (at_p p 2) = true ∧ is_hex_digit (at_p p 3) = true) then
          let byte := u8 (hex_digit_to_int (at_p p 2) * 16 + hex_digit_to_int (at_p p 3)) in
          split_token fuel (drop 4 p) inq insq (current ++ [byte])
        else if decide (c = 92 ∧ at_p p 1 ≠ 0) then
          split_token fuel (drop 2 p) inq insq (current ++ [unescape (at_p p 1)])
        else if decide (c = 34) then
          if glued (at_p p 1) then Some None else Some (Some (current, drop 1 p))
        else if decide (c = 0) then Some None
        else split_token fuel (drop 1 p) inq insq (current ++ [c])
      else if insq then
        if decide (c = 92 ∧ at_p p 1 = 39) then split_token fuel (drop 2 p) inq insq (current ++ [39])
        else if decide (c = 39) then
          if glued (at_p p 1) then Some None else Some (Some (current, drop 1 p))
        else if decide (c = 0) then Some None
        else split_token fuel (drop 1 p) inq insq (current ++ [c])
      else if decide (c = 0) then Some (Some (current, p))
      else if decide (c = 32 ∨ c = 10 ∨ c = 13 ∨ c = 9) then Some (Some (current, drop 1 p))
      else if decide (c = 34) then split_token fuel (drop 1 p) true insq current
      else if decide (c = 39) then split_token fuel (drop 1 p) inq true current
      else split_token fuel (drop 1 p) inq insq (current ++ [c])
  end.

(** [while( *p && isspace( *p )) p++]. *)
Definition skip_blanks (p : bytes) : bytes := drop_while isspace p.

(** [while(1)]: a token starts with a byte that is not blank, so that every round uses up the line. *)
Fixpoint sdssplitargs_loop (fuel : nat) (p : bytes) (vector : list bytes) : option (option (list bytes)) :=
  match fuel with
  | O => None
  | S fuel =>
      let p := skip_blanks p in
      if decide (at_p p 0 = 0) then Some (Some vector)
      else
        r ← split_token (S (length p)) p false false [];
        match r with
        | None => Some None
        | Some (current, p) => sdssplitargs_loop fuel p (vector ++ [current])
        end
  end.

(** [Some None] is the result NULL. *)
Definition sdssplitargs (line : bytes) : option (option (list bytes)) :=
  sdssplitargs_loop (S (length line)) line [].

(** ** Ranges and searches *)

Lemma sdsrange_drop (s : bytes) pos : 0 ≤ pos ≤ zlen s → zlen s < 2 ^ 63 → sdsrange s pos (-1) = drop (Z.to_nat pos) s.
Proof.
  intros Hp Hs. unfold sdsrange. case_decide as H0.
  { assert (s = []) as -> by (destruct s; [done|simpl in H0; lia]). by rewrite drop_nil. }
  rewrite decide_False, (decide_True (P := -1 < 0)) by lia.
  rewrite (uwrap_small 64 pos) by range_lia. unfold sdssubstr.
  destruct (decide (pos = zlen s)) as [->|Hne].
  { rewrite (decide_True (P := zlen s >= zlen s)) by lia. rewrite decide_False by lia.
    rewrite Nat2Z.id, drop_all. done. }
  rewrite (decide_False (P := pos > _)), uwrap_small by range_lia.
  rewrite (decide_False (P := pos >= _)) by lia.
  rewrite decide_False by lia. rewrite take_ge; [done|]. rewrite length_drop. lia.
Qed.

Lemma strchr_Some s c i :
  strchr s c = Some i → 0 ≤ i < zlen s ∧ s !! Z.to_nat i = Some c ∧ (c ∉ take (Z.to_nat i) s).
Proof.
  revert i. induction s as [|b s IH]; intros i; simpl; [done|].
  case_decide as Hb; [intros [= <-]; subst; split_and!; [lia|lia|done|set_solver]|].
  case_decide; [done|]. intros (j & Hj & ->)%fmap_Some.
  destruct (IH j Hj) as (Hlt & Hat & Hnot).
  replace (Z.to_nat (Z.succ j)) with (S (Z.to_nat j)) by lia. simpl. split_and!; [lia|lia|done|]. set_solver.
Qed.

Lemma strchr_app p c r : (c ∉ p) → (0 ∉ p) → strchr (p ++ c :: r) c = Some (zlen p).
Proof.
  intros Hc H0. induction p as [|b p IH]; simpl.
  - by rewrite decide_True.
  - rewrite decide_False by set_solver. rewrite decide_False by set_solver.
    rewrite IH by set_solver. simpl. f_equal. lia.
Qed.

(** Bytes after those searched do not matter once the byte is found. *)
Lemma strchr_app_l p c i r : strchr p c = Some i → strchr (p ++ r) c = Some i.
Proof.
  revert i. induction p as [|b p IH]; intros i; simpl; [done|].
  case_decide; [done|]. case_decide; [done|]. intros (j & Hj & ->)%fmap_Some. by rewrite (IH j Hj).
Qed.

Lemma strchr_None p c : (c ∉ p) → strchr p c = None.
Proof.
  induction p as [|b p IH]; simpl; [done|]. intros H. rewrite decide_False by set_solver.
  case_decide; [done|]. by rewrite IH by set_solver.
Qed.

(** ** Splitting at a separator and joining *)

Lemma sdsjoinsds_app (l : list bytes) a sep : l ≠ [] → sdsjoinsds (l ++ [a]) sep = sdsjoinsds l sep ++ sep ++ a.
Proof.
  induction l as [|x [|y l] IH]; [done|done|]. intros _. simpl in *. rewrite IH by done. by rewrite <- !(assoc_L (++)).
Qed.

Lemma sdssplitlen_loop_ok fuel : ∀ p sep tok tokens, (length p < fuel)%nat → sep ≠ [] →
  ∃ r, sdssplitlen_loop fuel p sep tok tokens = Some r ∧ sdsjoinsds r sep = sdsjoinsds (tokens ++ [tok ++ p]) sep.
Proof.
  induction fuel as [|fuel IH]; intros p sep tok tokens Hf Hsep; [lia|]. simpl.
  assert (0 < length sep)%nat by (destruct sep; [done|simpl; lia]).
  case_decide as Hlen; [|eauto]. destruct p as [|b p]; [simpl in *; lia|]. case_decide as Ht.
  - destruct (IH (drop (length sep) (b :: p)) sep [] (tokens ++ [tok])) as (r & Hr & Hj).
    { rewrite length_drop. simpl in *. lia. } { done. }
    exists r. split; [done|]. rewrite Hj, sdsjoinsds_app by (by destruct tokens). simpl.
    rewrite <- (take_drop (length sep) (b :: p)) at 2. rewrite Ht.
    destruct tokens as [|t ts]; [done|].
    rewrite !sdsjoinsds_app by done. by rewrite <- !(assoc_L (++)).
  - destruct (IH p sep (tok ++ [b]) tokens) as (r & Hr & Hj); [simpl in *; lia|done|].
    exists r. split; [done|]. rewrite Hj. by rewrite <- !(assoc_L (++)).
Qed.

(** Joining the parts with the separator gives the string back. *)
Lemma sdssplitlen_join s sep : s ≠ [] → sep ≠ [] →
  ∃ tokens, sdssplitlen s sep = Some (Some tokens) ∧ sdsjoinsds tokens sep = s.
Proof.
  intros Hs Hsep. unfold sdssplitlen. rewrite decide_False; [|destruct s, sep; simpl in *; try done; lia].
  destruct (sdssplitlen_loop_ok (S (length s)) s sep [] []) as (r & -> & Hr); [lia|done|]. eauto.
Qed.

(** ** Splitting inverts quoting *)

Lemma hex_char_ok n : 0 ≤ n < 16 →
  is_hex_digit (hex_char n) = true ∧ hex_digit_to_int (hex_char n) = n.
Proof.
  intros Hn. unfold is_hex_digit, hex_char, hex_digit_to_int.
  case_decide; repeat case_bool_decide; try lia; repeat case_decide; simpl; split; (done || lia).
Qed.

(** A byte of a quoted argument is read back, whatever follows. *)
Lemma split_token_repr_char fuel c rest current : byte_ok c →
  split_token (S fuel) (repr_char c ++ rest) true false current = split_token fuel rest true false (current ++ [c]).
Proof.
  unfold byte_ok. intros Hc. cbn [split_token]. unfold repr_char.
  destruct (decide (c = 92 ∨ c = 34)) as [[->| ->]|Hq]; [done|done|].
  destruct (decide (c = 10)) as [->|]; [done|]. destruct (decide (c = 13)) as [->|]; [done|].
  destruct (decide (c = 9)) as [->|]; [done|]. destruct (decide (c = 7)) as [->|]; [done|].
  destruct (decide (c = 8)) as [->|]; [done|].
  unfold isprint. case_bool_decide as Hp.
  - cbn. rewrite (decide_False (P := c = 92 ∧ _)) by lia. rewrite (decide_False (P := c = 92 ∧ _)) by lia.
    by rewrite (decide_False (P := c = 34)), (decide_False (P := c = 0)) by lia.
  - destruct (hex_char_ok (c / 16)) as [Ha Ha']; [split; [apply Z.div_pos|apply Z.div_lt_upper_bound]; lia|].
    destruct (hex_char_ok (c mod 16)) as [Hb Hb']; [by apply Z.mod_pos_bound|].
    unfold hex2. cbn [app at_p lookup list_lookup default drop from_option].
    rewrite decide_True by done. cbn. rewrite Ha', Hb'.
    replace (c / 16 * 16 + c mod 16) with c by (rewrite (Z.div_mod c 16) at 1; lia).
    by rewrite uwrap_small by range_lia.
Qed.

Lemma repr_char_length c : (1 ≤ length (repr_char c))%nat.
Proof. unfold repr_char. repeat case_decide; simpl; try lia. destruct (isprint c); simpl; lia. Qed.

(** The text of an argument up to its closing quote, followed by [rest]. *)
Lemma split_token_repr p : ∀ fuel rest current, bytes_ok p → (length p < fuel)%nat → glued (at_p rest 0) = false →
  split_token fuel ((p ≫= repr_char) ++ 34 :: rest) true false current = Some (Some (current ++ p, rest)).
Proof.
  induction p as [|c p IH]; intros fuel rest current Hp Hf Hr; (destruct fuel as [|fuel]; [simpl in *; lia|]).
  - cbn [split_token mbind list_bind app]. change (at_p (34 :: rest) 1) with (at_p rest 0). rewrite Hr.
    by rewrite app_nil_r.
  - apply Forall_cons in Hp as [Hc Hp]. cbn [mbind list_bind]. rewrite <- (assoc_L (++)).
    rewrite split_token_repr_char by done. rewrite IH; [by rewrite <- (assoc_L (++))|done|simpl in *; lia|done].
Qed.

(** The text of a quoted argument is one token. *)
Lemma splitargs_quoted fuel a rest v : bytes_ok a → glued (at_p rest 0) = false →
  sdssplitargs_loop (S fuel) (sdscatrepr [] a ++ rest) v = sdssplitargs_loop fuel rest (v ++ [a]).
Proof.
  intros Ha Hr. unfold sdscatrepr. cbn [sdssplitargs_loop app]. set (q := _ ++ rest).
  assert (q = (a ≫= repr_char) ++ 34 :: rest) as Hq by (unfold q; by rewrite <- (assoc_L (++))).
  change (skip_blanks (34 :: q)) with (34 :: q). rewrite decide_False by done.
  assert (split_token (S (length (34 :: q))) (34 :: q) false false [] = split_token (length (34 :: q)) q true false []) as -> by done.
  rewrite Hq, split_token_repr; [done|done| |done]. simpl. rewrite length_app.
  assert (length a ≤ length (a ≫= repr_char))%nat; [|lia].
  clear. induction a as [|c a IH]; [simpl; lia|]. cbn [mbind list_bind]. rewrite length_app.
  pose proof (repr_char_length c). cbn [mbind] in IH. simpl. lia.
Qed.

Lemma splitargs_blank fuel p v : sdssplitargs_loop fuel (32 :: p) v = sdssplitargs_loop fuel p v.
Proof. by destruct fuel. Qed.

Lemma splitargs_join args : ∀ fuel v, Forall bytes_ok args → (length args < fuel)%nat →
  sdssplitargs_loop fuel (sdsjoinsds (sdscatrepr [] <$> args) [32]) v = Some (Some (v ++ args)).
Proof.
  induction args as [|a args IH]; intros fuel v Hok Hf; (destruct fuel as [|fuel]; [simpl in *; lia|]).
  - by rewrite app_nil_r.
  - apply Forall_cons in Hok as [Ha Hok]. destruct args as [|b args].
    + cbn [sdsjoinsds fmap list_fmap]. rewrite <- (app_nil_r (sdscatrepr [] a)), splitargs_quoted by done.
      destruct fuel; [simpl in *; lia|done].
    + change (sdsjoinsds (sdscatrepr [] <$> a :: b :: args) [32])
        with (sdscatrepr [] a ++ 32 :: sdsjoinsds (sdscatrepr [] <$> b :: args) [32]).
      rewrite splitargs_quoted, splitargs_blank, IH by (done || simpl in *; lia).
      by rewrite <- (assoc_L (++)).
Qed.

Lemma repr_length args : (length args ≤ length (sdsjoinsds (sdscatrepr [] <$> args) [32%Z]))%nat.
Proof.
  induction args as [|a [|b args] IH]; [done|simpl; lia|].
  change (sdsjoinsds (sdscatrepr [] <$> a :: b :: args) [32])
    with (sdscatrepr [] a ++ 32 :: sdsjoinsds (sdscatrepr [] <$> b :: args) [32]).
  rewrite length_app. cbn [length] in *. lia.
Qed.

Lemma sdssplitargs_repr_ok args : Forall bytes_ok args →
  sdssplitargs (sdsjoinsds (sdscatrepr [] <$> args) [32]) = Some (Some args).
Proof.
  intros Hok. unfold sdssplitargs. rewrite splitargs_join; [done|done|]. pose proof (repr_length args). lia.
Qed.

(** ** Splitting is total *)

Lemma split_token_total fuel : ∀ p inq insq current, (length p < fuel)%nat →
  ∃ r, split_token fuel p inq insq current = Some r ∧
    match r with None => True | Some (_, p') => (length p' ≤ length p)%nat ∧
      (inq = false → insq = false → at_p p 0 ≠ 0%Z → length p' < length p)%nat end.
Proof.
  induction fuel as [|fuel IH]; intros p inq insq current Hf; [lia|]. cbn [split_token].
  destruct p as [|c p]; cbn [at_p lookup list_lookup default from_option].
  { destruct inq; [by exists None|]. destruct insq; [by exists None|]. eexists; split; [done|]. done. }
  assert (∀ n inq' insq' cur, (length (drop n p)) ≤ length p ∧ ∃ r, split_token fuel (drop n p) inq' insq' cur = Some r ∧
    match r with None => True | Some (_, p') => (length p' ≤ length (c :: p))%nat ∧
      (inq = false → insq = false → c ≠ 0%Z → length p' < length (c :: p))%nat end)%nat as Hstep.
  { intros n inq' insq' cur. split; [rewrite length_drop; lia|].
    destruct (IH (drop n p) inq' insq' cur) as (r & Hr & Hlen); [rewrite length_drop; simpl in *; lia|].
    exists r. split; [done|]. destruct r as [[? p']|]; [|done]. rewrite length_drop in Hlen. simpl. split; [lia|]. lia. }
  cbn [drop]. change (drop 0 p) with p in *.
  repeat first [case_decide | match goal with |- context [if ?b then _ else _] => destruct b end];
    try (by exists None); try (destruct (Hstep 0%nat inq insq (current ++ [c])) as [_ H']; exact H');
    try (apply Hstep); try (apply (Hstep 0%nat)); try (eexists; split; [done|]; simpl; split; [lia|]; intros; try done; lia).
Qed.

Lemma drop_while_length f (s : bytes) : (length (drop_while f s) ≤ length s)%nat.
Proof. induction s as [|c s IH]; simpl; [lia|]. destruct (f c); simpl; lia. Qed.

Lemma splitargs_loop_total fuel : ∀ p v, (length p < fuel)%nat → is_Some (sdssplitargs_loop fuel p v).
Proof.
  induction fuel as [|fuel IH]; intros p v Hf; [lia|]. cbn [sdssplitargs_loop]. case_decide as H0; [eauto|].
  pose proof (drop_while_length isspace p).
  destruct (split_token_total (S (length (skip_blanks p))) (skip_blanks p) false false []) as (r & -> & Hr); [lia|].
  bind_simpl. destruct r as [[cur p']|]; [|eauto]. apply IH. destruct Hr as [_ Hr].
  specialize (Hr eq_refl eq_refl H0). unfold skip_blanks in *. lia.
Qed.

(** Every line is split or refused. *)
Lemma sdssplitargs_total line : is_Some (sdssplitargs line).
Proof. apply splitargs_loop_total. lia. Qed.

(** ** Arguments that are not quoted *)

(** The bytes of a token that ends at a blank or at the end of the line. *)
Definition plain_char (c : Z) : Prop := byte_ok c ∧ isprint c = true ∧ isspace c = false ∧ c ≠ 92 ∧ c ≠ 34 ∧ c ≠ 39.

Lemma split_token_plain p : ∀ fuel rest current, Forall plain_char p → (length p < fuel)%nat → rest = [] ∨ head rest = Some 32 →
  split_token fuel (p ++ rest) false false current = Some (Some (current ++ p, drop 1 rest)).
Proof.
  induction p as [|c p IH]; intros fuel rest current Hp Hf Hr; (destruct fuel as [|fuel]; [simpl in *; lia|]).
  - rewrite app_nil_r. destruct Hr as [->|Hr]; [done|]. destruct rest as [|c rest]; [done|]. by injection Hr as ->.
  - apply Forall_cons in Hp as [(_ & Hpr & Hsp & Hc) Hp]. unfold isprint, isspace in *.
    apply bool_decide_eq_true in Hpr. apply bool_decide_eq_false in Hsp.
    cbn [split_token app at_p lookup list_lookup default from_option drop id].
    rewrite (decide_False (P := c = 0)), (decide_False (P := _ ∨ _)), (decide_False (P := c = 34)),
      (decide_False (P := c = 39)) by lia.
    change (drop 0 (p ++ rest)) with (p ++ rest). rewrite IH by (done || simpl in *; lia).
    by rewrite <- (assoc_L (++)).
Qed.

Lemma splitargs_plain fuel a rest v : a ≠ [] → Forall plain_char a → rest = [] ∨ head rest = Some 32 →
  sdssplitargs_loop (S fuel) (a ++ rest) v = sdssplitargs_loop fuel (drop 1 rest) (v ++ [a]).
Proof.
  intros Ha Hp Hr. destruct a as [|c a]; [done|]. cbn [sdssplitargs_loop].
  pose proof (Forall_inv Hp) as (_ & Hpr & Hsp & _).
  assert (skip_blanks ((c :: a) ++ rest) = (c :: a) ++ rest) as ->
    by (unfold skip_blanks; cbn [app drop_while]; by rewrite Hsp).
  rewrite decide_False; [|cbn; unfold isprint in Hpr; apply bool_decide_eq_true in Hpr; lia].
  rewrite split_token_plain; [done|done|rewrite length_app; lia|done].
Qed.

(** A string is quoted when [sdsneedsrepr] says so. *)
Definition sds_token (a : bytes) : bytes := if sdsneedsrepr a then sdscatrepr [] a else a.

(** What is printed without quotes is read back as it is, unless it has single quotes. *)
Lemma sdsneedsrepr_plain a : bytes_ok a → (39 ∉ a) → sdsneedsrepr a = false → Forall plain_char a.
Proof.
  intros Hok H39 Hn. apply Forall_forall. intros c Hc. unfold sdsneedsrepr in Hn.
  assert (¬ (bool_decide (c = 92 ∨ c = 34 ∨ c = 10 ∨ c = 13 ∨ c = 9 ∨ c = 7 ∨ c = 8) || negb (isprint c) || isspace c)) as H.
  { intros H. enough (existsb (λ c, bool_decide (c = 92 ∨ c = 34 ∨ c = 10 ∨ c = 13 ∨ c = 9 ∨ c = 7 ∨ c = 8) || negb (isprint c) || isspace c) a = true) by congruence.
    apply existsb_exists. exists c. split; [by apply list_elem_of_In|by apply Is_true_true]. }
  unfold bytes_ok in Hok. rewrite Forall_forall in Hok. pose proof (Hok c Hc).
  destruct (bool_decide _) eqn:Hb; [by destruct H|]. apply bool_decide_eq_false in Hb.
  destruct (isprint c) eqn:Hp; [|by destruct H]. destruct (isspace c) eqn:Hs; [by destruct H|].
  split_and!; try done; try (intros ->; tauto); lia.
Qed.

Lemma splitargs_token fuel a rest v : bytes_ok a → (39 ∉ a) → a ≠ [] → rest = [] ∨ head rest = Some 32 → (0 < fuel)%nat →
  sdssplitargs_loop (S fuel) (sds_token a ++ rest) v = sdssplitargs_loop fuel (drop 1 rest) (v ++ [a]).
Proof.
  intros Hok H39 Hne Hr Hf. unfold sds_token. destruct (sdsneedsrepr a) eqn:Hn.
  - rewrite splitargs_quoted; [|done|by destruct Hr as [->|Hr]; [|destruct rest; [|injection Hr as ->]]].
    destruct Hr as [->|Hr]; [done|]. destruct rest as [|c rest]; [done|]. injection Hr as ->.
    by rewrite splitargs_blank.
  - apply splitargs_plain; [done|by apply sdsneedsrepr_plain|done].
Qed.

(** ** Theorems *)

(** C17. A line made of quoted arguments (sdscatrepr), separated by blanks, is split by sdssplitargs into exactly these
    arguments, whatever bytes they have; no line makes sdssplitargs leave its string or loop. *)
Theorem sdssplitargs_inverts_repr :
  (∀ args, Forall bytes_ok args → sdssplitargs (sdsjoinsds (sdscatrepr [] <$> args) [32]) = Some (Some args)) ∧
  ∀ line, is_Some (sdssplitargs line).
Proof. split; [apply sdssplitargs_repr_ok|apply sdssplitargs_total]. Qed.

Lemma sdssplitargs_inverts_repr_witness :
  sdssplitargs (sdsjoinsds (sdscatrepr [] <$> [[]; [0; 255; 34; 92]; str "it's"]) [32]) = Some (Some [[]; [0; 255; 34; 92]; str "it's"]).
Proof. apply sdssplitargs_inverts_repr. unfold bytes_ok, str. repeat constructor; cbn; unfold byte_ok; lia. Defined.

(** sdsneedsrepr does not ask for quotes around a string with a single quote, which sdssplitargs then refuses. *)
Lemma sdsneedsrepr_single_quote : sdsneedsrepr (str "it's") = false ∧ sdssplitargs (str "it's") = Some None.
Proof. done. Qed.
