(* ===== verification/Update.v ===== *)
(** * Assignment to a field of a record

[r <| f := v |>] is the record [r] in which the field [f] has the value [v].  A record has an expansion
([mk (f1 r) ... (fn r)]), from which the tactic [assign] builds the assignment to each field. *)

From stdpp Require Import base.

Class Assign {R T : Type} (get : R → T) := assign_to : T → R → R.
Arguments assign_to {R T} get {_} v r : simpl nomatch.

Declare Scope assign_scope.
Delimit Scope assign_scope with assign.
#[warnings="-postfix-notation-not-level-1"]
Notation "r <| f := v |>" := (assign_to f v r) (at level 12, left associativity, f at level 10) : assign_scope.
Open Scope assign_scope.

(** The field [get] abstracted out of the expansion of the record. *)
Ltac assign expansion :=
  lazymatch goal with
  | |- @Assign ?R ?T ?get =>
      let body := eval cbv beta delta [expansion] in expansion in
      let g := eval pattern get in body in
      lazymatch g with
      | ?f _ => let r := eval cbv beta in (λ (v : T) (r : R), f (λ _, v) r) in exact r
      end
  end.
