(* ===== verification/Resp.v ===== *)
(** * networking.c: reading requests

A client has a query buffer, which grows by what is read from its connection, and the state of a parser that may
stop at any byte of a request and go on when more bytes are there.  The file has the parsers of the two kinds of requests
(inline lines and multi bulk requests), the loop that executes the commands of a buffer, the bookkeeping of the
replication stream of a master, and the handler of a readable connection. *)

From S2P Require Import Prelude Util Sds Update.

Local Open Scope Z_scope.

(** ** Clients *)

(** The flags that the code below uses. *)
Inductive client_flag :=
  | CLIENT_SLAVE | CLIENT_MASTER | CLIENT_MONITOR | CLIENT_MULTI | CLIENT_BLOCKED | CLIENT_DIRTY_CAS
  | CLIENT_CLOSE_AFTER_REPLY | CLIENT_ASKING | CLIENT_CLOSE_ASAP | CLIENT_DIRTY_EXEC | CLIENT_SCRIPT
  | CLIENT_REPLY_SKIP_NEXT | CLIENT_REPLY_SKIP | CLIENT_PENDING_COMMAND | CLIENT_TRACKING_CACHING
  | CLIENT_PROTOCOL_ERROR | CLIENT_DENY_BLOCKING | CLIENT_EXECUTING_COMMAND.

#[global] Instance client_flag_eq : EqDecision client_flag.
Proof. solve_decision. Defined.

Definition flag_bit (f : client_flag) : nat :=
  match f with
  | CLIENT_SLAVE => 0 | CLIENT_MASTER => 1 | CLIENT_MONITOR => 2 | CLIENT_MULTI => 3 | CLIENT_BLOCKED => 4
  | CLIENT_DIRTY_CAS => 5 | CLIENT_CLOSE_AFTER_REPLY => 6 | CLIENT_SCRIPT => 8 | CLIENT_ASKING => 9
  | CLIENT_CLOSE_ASAP => 10 | CLIENT_DIRTY_EXEC => 12 | CLIENT_REPLY_SKIP_NEXT => 23 | CLIENT_REPLY_SKIP => 24
  | CLIENT_PENDING_COMMAND => 30 | CLIENT_TRACKING_CACHING => 36 | CLIENT_PROTOCOL_ERROR => 39
  | CLIENT_DENY_BLOCKING => 41 | CLIENT_EXECUTING_COMMAND => 29
  end.

Definition flag_of_bit (n : nat) : option client_flag :=
  find (λ f, Nat.eqb (flag_bit f) n)
    [CLIENT_SLAVE; CLIENT_MASTER; CLIENT_MONITOR; CLIENT_MULTI; CLIENT_BLOCKED; CLIENT_DIRTY_CAS; CLIENT_CLOSE_AFTER_REPLY;
     CLIENT_SCRIPT; CLIENT_ASKING; CLIENT_CLOSE_ASAP; CLIENT_DIRTY_EXEC; CLIENT_REPLY_SKIP_NEXT; CLIENT_REPLY_SKIP;
     CLIENT_PENDING_COMMAND; CLIENT_TRACKING_CACHING; CLIENT_PROTOCOL_ERROR; CLIENT_DENY_BLOCKING; CLIENT_EXECUTING_COMMAND].

#[global] Program Instance client_flag_countable : Countable client_flag :=
  {| encode f := encode (flag_bit f); decode p := n ← decode p; flag_of_bit n |}.
Next Obligation. by intros []. Qed.

(** The commands whose identity matters to [resetClient]. *)
Inductive redisCommandProc := askingCommand | clientCommand | otherCommand (id : Z).

#[global] Instance redisCommandProc_eq : EqDecision redisCommandProc.
Proof. solve_decision. Defined.

Record client := mk_client {
  querybuf : bytes; (** query buffer *)
  qb_pos : Z; (** position of the parser in it *)
  querybuf_peak : Z; (** recent peak of its size *)
  reqtype : Z; (** kind of the current request, 0 when unknown *)
  argv : list bytes; (** arguments of the current command; argc is their number *)
  argv_len : Z; (** size of the array argv *)
  argv_len_sum : Z; (** sum of the lengths of the arguments *)
  cmd : option redisCommandProc; (** current command *)
  multibulklen : Z; (** arguments left to read *)
  bulklen : Z; (** length of the argument being read, -1 when unknown *)
  slot : Z; (** cluster slot of the command *)
  cur_script : option Z; (** script being run *)
  duration : Z; (** duration of the command, not yet recorded *)
  deferred_reply_errors : option (list bytes); (** replies kept by a module *)
  flags : gset client_flag; (** flags *)
  authenticated : bool; (** the client is authenticated *)
  reploff : Z; (** applied replication offset, of a master *)
  read_reploff : Z; (** read replication offset, of a master *)
  repl_applied : Z; (** bytes of the query buffer that are applied, of a master *)
  repl_ack_time : Z; (** time of the last sign of life of a replica *)
  lastinteraction : Z; (** time of the last read *)
  errors : list bytes; (** errors given to addReplyError *)
  fed : bytes (** bytes given to replicationFeedStreamFromMasterStream *)
}.

Definition client_expand (c : client) : client :=
  mk_client (querybuf c) (qb_pos c) (querybuf_peak c) (reqtype c) (argv c) (argv_len c) (argv_len_sum c) (cmd
    c) (multibulklen c) (bulklen c) (slot c) (cur_script c) (duration c) (deferred_reply_errors c) (flags c)
    (authenticated c) (reploff c) (read_reploff c) (repl_applied c) (repl_ack_time c) (lastinteraction c)
    (errors c) (fed c).

#[global] Instance assign_querybuf : Assign querybuf := ltac:(assign client_expand).
#[global] Instance assign_qb_pos : Assign qb_pos := ltac:(assign client_expand).
#[global] Instance assign_querybuf_peak : Assign querybuf_peak := ltac:(assign client_expand).
#[global] Instance assign_reqtype : Assign reqtype := ltac:(assign client_expand).
#[global] Instance assign_argv : Assign argv := ltac:(assign client_expand).
#[global] Instance assign_argv_len : Assign argv_len := ltac:(assign client_expand).
#[global] Instance assign_argv_len_sum : Assign argv_len_sum := ltac:(assign client_expand).
#[global] Instance assign_cmd : Assign cmd := ltac:(assign client_expand).
#[global] Instance assign_multibulklen : Assign multibulklen := ltac:(assign client_expand).
#[global] Instance assign_bulklen : Assign bulklen := ltac:(assign client_expand).
#[global] Instance assign_slot : Assign slot := ltac:(assign client_expand).
#[global] Instance assign_cur_script : Assign cur_script := ltac:(assign client_expand).
#[global] Instance assign_duration : Assign duration := ltac:(assign client_expand).
#[global] Instance assign_deferred_reply_errors : Assign deferred_reply_errors := ltac:(assign client_expand).
#[global] Instance assign_flags : Assign flags := ltac:(assign client_expand).
#[global] Instance assign_authenticated : Assign authenticated := ltac:(assign client_expand).
#[global] Instance assign_reploff : Assign reploff := ltac:(assign client_expand).
#[global] Instance assign_read_reploff : Assign read_reploff := ltac:(assign client_expand).
#[global] Instance assign_repl_applied : Assign repl_applied := ltac:(assign client_expand).
#[global] Instance assign_repl_ack_time : Assign repl_ack_time := ltac:(assign client_expand).
#[global] Instance assign_lastinteraction : Assign lastinteraction := ltac:(assign client_expand).
#[global] Instance assign_errors : Assign errors := ltac:(assign client_expand).
#[global] Instance assign_fed : Assign fed := ltac:(assign client_expand).

(** [c->flags & f], [c->flags |= f], [c->flags &= ~f]. *)
Definition client_has_flag (f : client_flag) (c : client) : bool := bool_decide (f ∈ flags c).
Definition add_flag (f : client_flag) (c : client) : client := c <| flags := {[f]} ∪ flags c |>.
Definition clear_flag (f : client_flag) (c : client) : client := c <| flags := flags c ∖ {[f]} |>.

Definition argc (c : client) : Z := zlen (argv c).

Definition PROTO_INLINE_MAX_SIZE : Z := 1024 * 64.
Definition PROTO_MBULK_BIG_ARG : Z := 1024 * 32.
Definition PROTO_IOBUF_LEN : Z := 1024 * 16.
Definition PROTO_REQ_INLINE : Z := 1.
Definition PROTO_REQ_MULTIBULK : Z := 2.
Definition INT_MAX : Z := INT32_MAX.

Inductive io_op := IO_THREADS_OP_IDLE | IO_THREADS_OP_READ | IO_THREADS_OP_WRITE.

#[global] Instance io_op_eq : EqDecision io_op.
Proof. solve_decision. Defined.

(** What the code reads of the configuration and of the state of the server. *)
Record server_conf := mk_conf {
  proto_max_bulk_len : Z;
  client_max_querybuf_len : Z;
  default_user_nopass : bool;
  default_user_disabled : bool;
  io_threads_op : io_op;
  io_threads_reads : bool; (** I/O threads are active, read, and no events are processed while blocked *)
  yielding_command : bool; (** [isInsideYieldingLongCommand] *)
  unixtime : Z
}.

Definition authRequired (conf : server_conf) (c : client) : bool :=
  (negb (default_user_nopass conf) || default_user_disabled conf) && negb (authenticated c).

(** A new client; the default user says whether it is authenticated ([clientSetDefaultAuth]). *)
Definition createClient (conf : server_conf) : client :=
  mk_client [] 0 0 0 [] 0 0 None 0 (-1) (-1) None 0 None ∅ (default_user_nopass conf && negb (default_user_disabled conf))
    0 0 0 0 (unixtime conf) [] [].

Definition CLIENT_TYPE_NORMAL : Z := 0.
Definition CLIENT_TYPE_SLAVE : Z := 1.
Definition CLIENT_TYPE_PUBSUB : Z := 2.
Definition CLIENT_TYPE_MASTER : Z := 3.

(** The last test, between PUBSUB and NORMAL, is [pubsub]. *)
Definition getClientType (pubsub : bool) (c : client) : Z :=
  if client_has_flag CLIENT_MASTER c then CLIENT_TYPE_MASTER
  else if client_has_flag CLIENT_SLAVE c && negb (client_has_flag CLIENT_MONITOR c) then CLIENT_TYPE_SLAVE
  else if pubsub then CLIENT_TYPE_PUBSUB
  else CLIENT_TYPE_NORMAL.

(** ** Errors *)

Definition addReplyError (err : String.string) (c : client) : client := c <| errors := errors c ++ [str err] |>.
Arguments addReplyError err%_string_scope c.

(** The log is left out. *)
Definition setProtocolError (c : client) : client := add_flag CLIENT_CLOSE_AFTER_REPLY (add_flag CLIENT_PROTOCOL_ERROR c).

(** [addReplyError], [setProtocolError] and the result C_ERR. *)
Definition protocol_error (err : String.string) (c : client) : client := setProtocolError (addReplyError err c).
Arguments protocol_error err%_string_scope c.

(** ** Resetting *)

(** The arguments are released. *)
Definition freeClientArgv (c : client) : client :=
  c <| argv := [] |> <| cmd := None |> <| argv_len_sum := 0 |> <| argv_len := 0 |>.

(** The flags after the command [prevcmd]. *)
Definition reset_flags (prevcmd : option redisCommandProc) (fl : gset client_flag) : gset client_flag :=
  let fl := fl ∖ {[CLIENT_EXECUTING_COMMAND]} in
  let fl := if decide ((CLIENT_MULTI ∉ fl) ∧ prevcmd ≠ Some askingCommand) then fl ∖ {[CLIENT_ASKING]} else fl in
  let fl := if decide ((CLIENT_MULTI ∉ fl) ∧ prevcmd ≠ Some clientCommand) then fl ∖ {[CLIENT_TRACKING_CACHING]} else fl in
  let fl := fl ∖ {[CLIENT_REPLY_SKIP]} in
  if decide (CLIENT_REPLY_SKIP_NEXT ∈ fl) then ({[CLIENT_REPLY_SKIP]} ∪ fl) ∖ {[CLIENT_REPLY_SKIP_NEXT]} else fl.

(** [None] when the assertion on the duration fails. *)
Definition resetClient (c : client) : option client :=
  if decide (duration c ≠ 0) then None
  else
    Some (freeClientArgv c <| cur_script := None |> <| reqtype := 0 |> <| multibulklen := 0 |> <| bulklen := -1 |> <| slot := -1 |>
            <| deferred_reply_errors := None |> <| flags := reset_flags (cmd c) (flags c) |>).

(** ** The parsers *)

(** [c->querybuf + c->qb_pos] as a string, and the number of bytes from there. *)
Definition unread (c : client) : bytes := drop (Z.to_nat (qb_pos c)) (querybuf c).
Definition qb_left (c : client) : Z := u64 (zlen (querybuf c) - qb_pos c).

(** Results of the parsers. *)
Inductive parse_result := C_OK | C_ERR.

#[global] Instance parse_result_eq : EqDecision parse_result.
Proof. solve_decision. Defined.

Section networking.

Context (conf : server_conf).

(** [setProtocolError] alone is used for a master that sends inline requests. *)
Definition processInlineBuffer (c : client) : option (client * parse_result) :=
  match strchr (unread c) 10 with
  | None =>
      if decide (qb_left c > PROTO_INLINE_MAX_SIZE)
      then Some (protocol_error "Protocol error: too big inline request" c, C_ERR)
      else Some (c, C_ERR)
  | Some newline =>
      cr ← (if decide (newline ≠ 0) then mem_get (querybuf c) (qb_pos c + newline - 1) else Some 0);
      let '(querylen, linefeed_chars) := if decide (cr = 13) then (newline - 1, 2) else (newline, 1) in
      aux ← mem_read (querybuf c) (qb_pos c) querylen;
      args ← sdssplitargs aux;
      match args with
      | None => Some (protocol_error "Protocol error: unbalanced quotes in request" c, C_ERR)
      | Some args =>
          let c := c <| repl_ack_time := if decide (querylen = 0 ∧ getClientType false c = CLIENT_TYPE_SLAVE)
                                         then unixtime conf else repl_ack_time c |> in
          if decide (querylen ≠ 0 ∧ client_has_flag CLIENT_MASTER c = true) then Some (setProtocolError c, C_ERR)
          else
            let c := c <| qb_pos := qb_pos c + querylen + linefeed_chars |> in
            let c := c <| argv_len := if decide (zlen args ≠ 0) then zlen args else argv_len c |>
                       <| argv_len_sum := if decide (zlen args ≠ 0) then 0 else argv_len_sum c |> in
            Some (c <| argv := args |> <| argv_len_sum := argv_len_sum c + Z.of_nat (sum_list_with length args) |>, C_OK)
      end
  end.

(** The text between the first byte at [qb_pos] and [newline] as a number. *)
Definition read_count (c : client) (newline : Z) : option (option Z) :=
  s ← mem_read (querybuf c) (qb_pos c + 1) (newline - 1); Some (string2ll s).

(** The test that the byte after the carriage return is in the buffer. *)
Definition no_linefeed (c : client) (newline : Z) : bool := bool_decide (newline > s64 (u64 (zlen (querybuf c) - qb_pos c - 2))).

(** [if (c->multibulklen == 0)]: the number of arguments.  A result is that of the function, else it goes on. *)
Definition read_mbulk_count (c : client) : option (client * option parse_result) :=
  if decide (argc c ≠ 0) then None
  else
    match strchr (unread c) 13 with
    | None =>
        if decide (qb_left c > PROTO_INLINE_MAX_SIZE)
        then Some (protocol_error "Protocol error: too big mbulk count string" c, Some C_ERR)
        else Some (c, Some C_ERR)
    | Some newline =>
        if no_linefeed c newline then Some (c, Some C_ERR)
        else
          star ← mem_get (querybuf c) (qb_pos c);
          if decide (star ≠ 42) then None
          else
            ll ← read_count c newline;
            match ll with
            | None => Some (protocol_error "Protocol error: invalid multibulk length" c, Some C_ERR)
            | Some ll =>
                if decide (ll > INT_MAX)
                then Some (protocol_error "Protocol error: invalid multibulk length" c, Some C_ERR)
                else if decide (ll > 10 ∧ authRequired conf c = true)
                then Some (protocol_error "Protocol error: unauthenticated multibulk length" c, Some C_ERR)
                else
                  let c := c <| qb_pos := qb_pos c + newline + 2 |> in
                  if decide (ll <= 0) then Some (c, Some C_OK)
                  else
                    let c := c <| multibulklen := ll |> in
                    Some (c <| argv_len := Z.min (multibulklen c) 1024 |> <| argv_len_sum := 0 |>, None)
            end
    end.

(** What a part of the loop of [processMultibulkBuffer] does next. *)
Inductive mbulk_next := MB_go | MB_break | MB_return.

(** [if (c->bulklen == -1)]: the length of an argument; a big argument of a client that is not a master moves to the
    start of the buffer. *)
Definition read_bulk_len (c : client) : option (client * mbulk_next) :=
  match strchr (unread c) 13 with
  | None =>
      if decide (qb_left c > PROTO_INLINE_MAX_SIZE)
      then Some (protocol_error "Protocol error: too big bulk count string" c, MB_return)
      else Some (c, MB_break)
  | Some newline =>
      if no_linefeed c newline then Some (c, MB_break)
      else
        dollar ← mem_get (querybuf c) (qb_pos c);
        if decide (dollar ≠ 36) then
          Some (setProtocolError (c <| errors := errors c ++ [str "Protocol error: expected '$', got '" ++ [dollar] ++ str "'"] |>), MB_return)
        else
          ll ← read_count c newline;
          match ll with
          | None => Some (protocol_error "Protocol error: invalid bulk length" c, MB_return)
          | Some ll =>
              if decide (ll < 0 ∨ (client_has_flag CLIENT_MASTER c = false ∧ ll > proto_max_bulk_len conf))
              then Some (protocol_error "Protocol error: invalid bulk length" c, MB_return)
              else if decide (ll > 16384 ∧ authRequired conf c = true)
              then Some (protocol_error "Protocol error: unauthenticated bulk length" c, MB_return)
              else
                let c := c <| qb_pos := qb_pos c + newline + 2 |> in
                let c :=
                  if decide (client_has_flag CLIENT_MASTER c = false ∧ ll >= PROTO_MBULK_BIG_ARG ∧ qb_left c <= u64 (ll + 2)) then
                    let c := c <| querybuf := sdsrange (querybuf c) (qb_pos c) (-1) |> <| qb_pos := 0 |> in
                    if decide (querybuf_peak c < u64 (ll + 2)) then c <| querybuf_peak := u64 (ll + 2) |> else c
                  else c in
                Some (c <| bulklen := ll |>, MB_go)
          end
  end.

(** The array of arguments grows when it is full. *)
Definition grow_argv (c : client) : option client :=
  if decide (argc c >= argv_len c) then
    if decide (argc c + multibulklen c > INT_MAX) then None
    else
      Some (c <| argv_len := Z.min (if decide (argv_len c < INT_MAX / 2) then argv_len c * 2 else INT_MAX) (argc c + multibulklen c) |>)
  else Some c.

(** [c->argv[c->argc++] = o]. *)
Definition push_arg (o : bytes) (c : client) : option client :=
  if decide (argc c < argv_len c) then Some (c <| argv := argv c ++ [o] |> <| argv_len_sum := argv_len_sum c + bulklen c |>)
  else None.

(** The argument itself: [None] also when [c->bulklen + 2] leaves its type. *)
Definition read_bulk (c : client) : option (client * mbulk_next) :=
  if decide (bulklen c + 2 > LLONG_MAX) then None
  else if decide (qb_left c < bulklen c + 2) then Some (c, MB_break)
  else
    c ← grow_argv c;
    c ← (if decide (client_has_flag CLIENT_MASTER c = false ∧ qb_pos c = 0 ∧ bulklen c >= PROTO_MBULK_BIG_ARG ∧
                    zlen (querybuf c) = bulklen c + 2) then
           c ← push_arg (take (Z.to_nat (zlen (querybuf c) - 2)) (querybuf c)) c;
           Some (c <| querybuf := [] |>)
         else
           o ← mem_read (querybuf c) (qb_pos c) (bulklen c);
           c ← push_arg o c;
           Some (c <| qb_pos := qb_pos c + (bulklen c + 2) |>));
    Some (c <| bulklen := -1 |> <| multibulklen := multibulklen c - 1 |>, MB_go).

(** One round of [while(c->multibulklen)]. *)
Definition mbulk_step (c : client) : option (client * mbulk_next) :=
  '(c, next) ← (if decide (bulklen c = -1) then read_bulk_len c else Some (c, MB_go));
  match next with MB_go => read_bulk c | _ => Some (c, next) end.

(** Every round uses up bytes of the buffer. *)
Fixpoint mbulk_loop (fuel : nat) (c : client) : option (client * parse_result) :=
  match fuel with
  | O => None
  | S fuel =>
      if decide (multibulklen c = 0) then Some (c, C_OK)
      else
        '(c, next) ← mbulk_step c;
        match next with
        | MB_go => mbulk_loop fuel c
        | MB_break => Some (c, if decide (multibulklen c = 0) then C_OK else C_ERR)
        | MB_return => Some (c, C_ERR)
        end
  end.

Definition processMultibulkBuffer (c : client) : option (client * parse_result) :=
  '(c, ret) ← (if decide (multibulklen c = 0) then read_mbulk_count c else Some (c, None));
  match ret with
  | Some r => Some (c, r)
  | None => if decide (multibulklen c > 0) then mbulk_loop (S (length (querybuf c))) c else None
  end.

(** ** Executing commands *)

Section execution.

(** [processCommand] on the state [W] of the rest of the server: the new states, whether the result is C_OK, and whether the
    client was freed ([server.current_client] is NULL). *)
Context {W : Type} (processCommand : W → client → W * client * bool * bool).

(** The stream of a master is handed on as far as it is applied. *)
Definition commandProcessed (c : client) : option client :=
  if client_has_flag CLIENT_BLOCKED c then Some c
  else
    c ← resetClient c;
    let prev_offset := reploff c in
    let c := if client_has_flag CLIENT_MASTER c && negb (client_has_flag CLIENT_MULTI c)
             then c <| reploff := read_reploff c - zlen (querybuf c) + qb_pos c |> else c in
    if client_has_flag CLIENT_MASTER c then
      let applied := reploff c - prev_offset in
      if decide (applied ≠ 0) then
        s ← mem_read (querybuf c) (repl_applied c) applied;
        Some (c <| fed := fed c ++ s |> <| repl_applied := repl_applied c + applied |>)
      else Some c
    else Some c.

(** The third component is false when the client is no longer valid. *)
Definition processCommandAndResetClient (w : W) (c : client) : option (W * client * bool) :=
  let '(w, c, ok, deadclient) := processCommand w c in
  c ← (if (ok : bool) then commandProcessed c else Some c);
  Some (w, c, negb deadclient).

(** The kind of a request is that of its first byte. *)
Definition request_type (c : client) : option client :=
  if decide (reqtype c = 0) then
    b ← mem_get (querybuf c) (qb_pos c);
    Some (c <| reqtype := if decide (b = 42) then PROTO_REQ_MULTIBULK else PROTO_REQ_INLINE |>)
  else Some c.

Definition parse_request (c : client) : option (client * parse_result) :=
  if decide (reqtype c = PROTO_REQ_INLINE) then processInlineBuffer c
  else if decide (reqtype c = PROTO_REQ_MULTIBULK) then processMultibulkBuffer c
  else None.

(** [while(c->qb_pos < sdslen(c->querybuf))]; the third component is false when the client is no longer valid. *)
Fixpoint input_loop (fuel : nat) (w : W) (c : client) : option (W * client * bool) :=
  match fuel with
  | O => None
  | S fuel =>
      if decide (qb_pos c < zlen (querybuf c)) then
        if client_has_flag CLIENT_BLOCKED c || client_has_flag CLIENT_PENDING_COMMAND c
           || (yielding_command conf && client_has_flag CLIENT_MASTER c)
           || client_has_flag CLIENT_CLOSE_AFTER_REPLY c || client_has_flag CLIENT_CLOSE_ASAP c
        then Some (w, c, true)
        else
          c ← request_type c;
          '(c, r) ← parse_request c;
          if decide (r ≠ C_OK) then Some (w, c, true)
          else if decide (argc c = 0) then c ← resetClient c; input_loop fuel w c
          else if decide (io_threads_op conf ≠ IO_THREADS_OP_IDLE) then
            if decide (io_threads_op conf = IO_THREADS_OP_READ) then Some (w, add_flag CLIENT_PENDING_COMMAND c, true) else None
          else
            '(w, c, ok) ← processCommandAndResetClient w c;
            if (ok : bool) then input_loop fuel w c else Some (w, c, false)
      else Some (w, c, true)
  end.

(** What was used of the buffer is dropped. *)
Definition trim_querybuf (c : client) : client :=
  if client_has_flag CLIENT_MASTER c then
    if decide (repl_applied c ≠ 0)
    then c <| querybuf := sdsrange (querybuf c) (repl_applied c) (-1) |> <| qb_pos := qb_pos c - repl_applied c |>
           <| repl_applied := 0 |>
    else c
  else if decide (qb_pos c ≠ 0)
  then c <| querybuf := sdsrange (querybuf c) (qb_pos c) (-1) |> <| qb_pos := 0 |>
  else c.

Definition processInputBuffer (w : W) (c : client) : option (W * client * bool) :=
  '(w, c, ok) ← input_loop (S (length (querybuf c))) w c;
  if (ok : bool) then Some (w, trim_querybuf c, true) else Some (w, c, false).

Definition processPendingCommandAndInputBuffer (w : W) (c : client) : option (W * client * bool) :=
  '(w, c, ok) ← (if client_has_flag CLIENT_PENDING_COMMAND c
                 then processCommandAndResetClient w (clear_flag CLIENT_PENDING_COMMAND c) else Some (w, c, true));
  if (ok : bool) then
    if decide (zlen (querybuf c) > 0) then processInputBuffer w c else Some (w, c, true)
  else Some (w, c, false).

(** ** Reading from the connection *)

(** [connRead] of a number of bytes: an error with whether the connection is still there, or bytes ([[]] at the end). *)
Inductive read_outcome := ReadError (connected : bool) | ReadBytes (bs : bytes).

Definition postponeClientRead (c : client) : bool :=
  io_threads_reads conf &&
  negb (client_has_flag CLIENT_MASTER c || client_has_flag CLIENT_SLAVE c || client_has_flag CLIENT_BLOCKED c) &&
  bool_decide (io_threads_op conf = IO_THREADS_OP_IDLE).

(** The client is put on the list of clients to close. *)
Definition freeClientAsync (c : client) : client :=
  if client_has_flag CLIENT_CLOSE_ASAP c || client_has_flag CLIENT_SCRIPT c then c else add_flag CLIENT_CLOSE_ASAP c.

(** [sdsalloc] and [sdsavail] of the buffer depend on the allocator. *)
Context (sdsalloc sdsavail : bytes → Z).

(** Whether a big argument is being read, and how many bytes to read at least. *)
Definition read_plan (c : client) : bool * Z :=
  if decide (reqtype c = PROTO_REQ_MULTIBULK ∧ multibulklen c ≠ 0 ∧ bulklen c ≠ -1 ∧ bulklen c >= PROTO_MBULK_BIG_ARG) then
    let remaining := s64 (u64 (bulklen c + 2) - (u64 (zlen (querybuf c) - qb_pos c))) in
    let readlen := if decide (remaining > 0) then remaining else PROTO_IOBUF_LEN in
    (true, if decide (client_has_flag CLIENT_MASTER c = true ∧ readlen < PROTO_IOBUF_LEN) then PROTO_IOBUF_LEN else readlen)
  else (false, PROTO_IOBUF_LEN).

(** The third component is false when the client is no longer valid; the client may be on the list of clients to close. *)
Definition readQueryFromClient (connRead : Z → read_outcome) (w : W) (c : client) : option (W * client * bool) :=
  if postponeClientRead c then Some (w, c, true)
  else
    let '(big_arg, readlen) := read_plan c in
    let qblen := zlen (querybuf c) in
    let nongreedy := bool_decide (client_has_flag CLIENT_MASTER c = false ∧ (big_arg = true ∨ sdsalloc (querybuf c) < PROTO_IOBUF_LEN)) in
    let peak := qblen + readlen in
    let c := c <| querybuf_peak := if nongreedy && bool_decide (querybuf_peak c < peak) then peak else querybuf_peak c |> in
    let readlen := if nongreedy then readlen else sdsavail (querybuf c) in
    match connRead readlen with
    | ReadError true => Some (w, c, true)
    | ReadError false | ReadBytes [] => Some (w, freeClientAsync c, true)
    | ReadBytes bs =>
        let c := c <| querybuf := querybuf c ++ bs |> in
        let qblen := zlen (querybuf c) in
        let c := c <| querybuf_peak := if decide (querybuf_peak c < qblen) then qblen else querybuf_peak c |> in
        let c := c <| lastinteraction := unixtime conf |> in
        let c := c <| read_reploff := if client_has_flag CLIENT_MASTER c then read_reploff c + zlen bs else read_reploff c |> in
        if decide (client_has_flag CLIENT_MASTER c = false ∧ zlen (querybuf c) > client_max_querybuf_len conf)
        then Some (w, freeClientAsync c, true)
        else processInputBuffer w c
    end.

End execution.
End networking.
