(* ===== verification/RespOk.v ===== *)
(** * networking.c: the parser of multi bulk requests reads back what is written

The encoding of a command, that of [catAppendOnlyGenericCommand] (aof.c), and the parser on a buffer that has a part of a stream of
such encodings: it takes the arguments that are complete and stops without an error at any other byte. *)

From S2P Require Import Prelude Util Sds Update Resp.

Local Open Scope Z_scope.

(** Concatenations associate to the right. *)
Ltac app_norm := repeat first [rewrite <- app_assoc | progress cbn [app]].
Ltac app_norm_in H := repeat first [rewrite <- app_assoc in H | progress cbn [app] in H].

(** ** aof.c: writing a command *)

Definition crlf : bytes := [13; 10].

(** The sign, [ll2string] in the 31 bytes that are left of the buffer, and the end of the line. *)
Definition cat_count (dst : bytes) (sign n : Z) : option bytes := s ← ll_string 31 n; Some (dst ++ [sign] ++ s ++ crlf).

Fixpoint catAppendOnlyGenericCommand_loop (dst : bytes) (args : list bytes) : option bytes :=
  match args with
  | [] => Some dst
  | o :: args => dst ← cat_count dst 36 (zlen o); catAppendOnlyGenericCommand_loop (dst ++ o ++ crlf) args
  end.

Definition catAppendOnlyGenericCommand (dst : bytes) (args : list bytes) : option bytes :=
  dst ← cat_count dst 42 (zlen args); catAppendOnlyGenericCommand_loop dst args.

(** ** The encoding *)

Definition enc_bulk (a : bytes) : bytes := 36 :: decimal (zlen a) ++ crlf ++ a ++ crlf.
Definition enc_bulks (args : list bytes) : bytes := args ≫= enc_bulk.
Definition enc_cmd (args : list bytes) : bytes := 42 :: decimal (zlen args) ++ crlf ++ enc_bulks args.

Lemma cat_loop_ok args : ∀ dst, Forall (λ a : bytes, zlen a < 2 ^ 63) args →
  catAppendOnlyGenericCommand_loop dst args = Some (dst ++ enc_bulks args).
Proof.
  induction args as [|a args IH]; intros dst Ha; [cbn; by rewrite app_nil_r|].
  apply Forall_cons in Ha as [Ha Hargs]. cbn beta in Ha. cbn [catAppendOnlyGenericCommand_loop]. unfold cat_count.
  rewrite ll_string_ok by (range_lia || lia). bind_simpl. rewrite IH by done.
  unfold enc_bulks. cbn [mbind list_bind]. unfold enc_bulk. by app_norm.
Qed.

Lemma catAppendOnlyGenericCommand_enc dst args : Forall (λ a : bytes, zlen a < 2 ^ 63) args → zlen args < 2 ^ 63 →
  catAppendOnlyGenericCommand dst args = Some (dst ++ enc_cmd args).
Proof.
  intros Ha Hn. unfold catAppendOnlyGenericCommand, cat_count. rewrite ll_string_ok by (range_lia || lia). bind_simpl.
  rewrite cat_loop_ok by done. unfold enc_cmd. by app_norm.
Qed.

(** ** The buffer *)

(** The buffer is a C object and the position is in it. *)
Definition buf_ok (c : client) : Prop := 0 ≤ qb_pos c ≤ zlen (querybuf c) ∧ zlen (querybuf c) < 2 ^ 62.

Lemma unread_length c : buf_ok c → zlen (unread c) = zlen (querybuf c) - qb_pos c.
Proof. intros [H _]. unfold unread. rewrite length_drop. lia. Qed.

Lemma qb_left_ok c : buf_ok c → qb_left c = zlen (unread c).
Proof.
  intros Hc. rewrite unread_length by done. destruct Hc as [? ?]. unfold qb_left. apply uwrap_small. range_lia.
Qed.

Lemma no_linefeed_ok c newline : buf_ok c → 0 ≤ newline →
  no_linefeed c newline = bool_decide (newline + 2 > zlen (unread c)).
Proof.
  intros Hc Hn. rewrite unread_length by done. destruct Hc as [? ?]. unfold no_linefeed. rewrite swrap_uwrap by lia.
  rewrite swrap_small by range_lia. apply bool_decide_ext. lia.
Qed.

Lemma unread_get c i : buf_ok c → 0 ≤ i → mem_get (querybuf c) (qb_pos c + i) = unread c !! Z.to_nat i.
Proof.
  intros [? ?] Hi. unfold mem_get, unread. rewrite decide_True by lia. rewrite lookup_drop. f_equal. lia.
Qed.

Lemma unread_read c i n : buf_ok c → 0 ≤ i → mem_read (querybuf c) (qb_pos c + i) n = mem_read (unread c) i n.
Proof.
  intros Hc Hi. pose proof (unread_length c Hc). destruct Hc as [? ?]. unfold mem_read.
  destruct (decide (in_block (unread c) i n)) as [Hb|Hb].
  - rewrite decide_True by (unfold in_block in *; lia). f_equal. unfold unread. rewrite drop_drop. f_equal. f_equal. lia.
  - rewrite decide_False; [done|]. unfold in_block in *. lia.
Qed.

Lemma unread_read_0 c n : buf_ok c → mem_read (querybuf c) (qb_pos c) n = mem_read (unread c) 0 n.
Proof. intros Hc. rewrite <- unread_read by (done || lia). by rewrite Z.add_0_r. Qed.

Lemma mem_read_app (p q r : bytes) i n : i = zlen p → n = zlen q → mem_read (p ++ q ++ r) i n = Some q.
Proof.
  intros -> ->. unfold mem_read, in_block. rewrite decide_True by (rewrite !length_app; lia).
  rewrite !Nat2Z.id, drop_app_length, take_app_length. done.
Qed.

(** ** Prefixes of a stream *)

Lemma app_prefix (a b p q : bytes) : a ++ b = p ++ q → (length p ≤ length a)%nat → ∃ r, a = p ++ r ∧ r ++ b = q.
Proof.
  intros He Hl. exists (drop (length p) a).
  assert (take (length p) a = p) as Hp.
  { apply (f_equal (take (length p))) in He. rewrite take_app_le, take_app_length in He by done. done. }
  split; [by rewrite <- Hp at 1; rewrite take_drop|].
  apply (f_equal (drop (length p))) in He. by rewrite drop_app_le, drop_app_length in He by done.
Qed.

Lemma decimal_chars n b : 0 ≤ n < 2 ^ 63 → b ∈ decimal n → 48 ≤ b ≤ 57.
Proof.
  intros Hn. unfold decimal. rewrite decide_False by lia.
  destruct (dec_digits n) as [Hd _]; [range_lia|]. rewrite Forall_forall in Hd. apply Hd.
Qed.

(** A line with a count is there, and read, or a proper part of it is, and the parser waits. *)
Lemma count_line c fut x n tail :
  buf_ok c → 0 ≤ n < 2 ^ 63 → x ≠ 13 → x ≠ 0 → unread c ++ fut = x :: decimal n ++ crlf ++ tail →
  (∃ r, unread c = x :: decimal n ++ crlf ++ r ∧ r ++ fut = tail ∧ strchr (unread c) 13 = Some (1 + zlen (decimal n)) ∧
     no_linefeed c (1 + zlen (decimal n)) = false ∧ mem_get (querybuf c) (qb_pos c) = Some x ∧
     read_count c (1 + zlen (decimal n)) = Some (Some n)) ∨
  (zlen (unread c) < 3 + zlen (decimal n) ∧
     ((∃ newline, strchr (unread c) 13 = Some newline ∧ no_linefeed c newline = true) ∨
      (strchr (unread c) 13 = None ∧ qb_left c <= PROTO_INLINE_MAX_SIZE))).
Proof.
  intros Hc Hn Hx Hx0 He.
  assert (∀ b, b ∈ x :: decimal n → b ≠ 13 ∧ b ≠ 0) as Hch.
  { intros b [->|Hb]%elem_of_cons; [done|]. apply decimal_chars in Hb; lia. }
  assert (13 ∉ x :: decimal n) as H13 by (intros H; apply Hch in H; lia).
  assert (0 ∉ x :: decimal n) as H0 by (intros H; apply Hch in H; lia).
  pose proof (decimal_short n ltac:(range_lia)) as Hshort.
  destruct (decide (3 + zlen (decimal n) ≤ zlen (unread c))) as [Hlen|Hlen].
  - left. destruct (app_prefix (unread c) fut (x :: decimal n ++ crlf) tail) as (r & Hr & Ht).
    { rewrite He. by app_norm. } { simpl. rewrite length_app. simpl. lia. }
    app_norm_in Hr. exists r. split_and!; [done|done| | | |].
    + rewrite Hr. change (x :: decimal n ++ crlf ++ r) with ((x :: decimal n) ++ 13 :: (10 :: r)).
      rewrite strchr_app by done. simpl. f_equal. lia.
    + rewrite no_linefeed_ok by (done || lia). apply bool_decide_eq_false. lia.
    + rewrite <- (Z.add_0_r (qb_pos c)), unread_get by (done || lia). by rewrite Hr.
    + unfold read_count. rewrite unread_read by (done || lia).
      rewrite Hr. change (x :: decimal n ++ crlf ++ r) with ([x] ++ decimal n ++ crlf ++ r).
      rewrite (mem_read_app [x]) by (simpl; lia). bind_simpl. f_equal. by apply string2ll_ok; split; [range_lia|].
  - right. split; [lia|]. destruct (decide (2 + zlen (decimal n) ≤ zlen (unread c))) as [Hcr|Hcr].
    + left. destruct (app_prefix (unread c) fut ((x :: decimal n) ++ [13]) (10 :: tail)) as (r & Hr & Ht).
      { rewrite He. by app_norm. } { rewrite length_app. simpl. lia. }
      app_norm_in Hr. exists (zlen (x :: decimal n)). split.
      * rewrite Hr. change (x :: decimal n ++ 13 :: r) with ((x :: decimal n) ++ 13 :: r). by rewrite strchr_app.
      * rewrite no_linefeed_ok by (done || lia). apply bool_decide_eq_true. simpl. lia.
    + right. destruct (app_prefix (x :: decimal n) (crlf ++ tail) (unread c) fut) as (r & Hr & _).
      { by rewrite He; app_norm. } { simpl. lia. }
      split; [apply strchr_None; rewrite Hr in H13; set_solver|].
      rewrite qb_left_ok by done. unfold PROTO_INLINE_MAX_SIZE. lia.
Qed.

(** ** The state of the parser *)

(** The fields that parsing leaves alone. *)
Definition outside (c : client) :=
  (reqtype c, cmd c, slot c, cur_script c, duration c, deferred_reply_errors c,
   (flags c, authenticated c, reploff c, read_reploff c, repl_applied c, repl_ack_time c, lastinteraction c, errors c, fed c)).

(** The parser moved from [c] to [c']; the buffer of a master is not touched. *)
Record parsed (c c' : client) : Prop := {
  parsed_outside : outside c' = outside c;
  parsed_buf : buf_ok c';
  parsed_master : client_has_flag CLIENT_MASTER c = true → querybuf c' = querybuf c ∧ qb_pos c ≤ qb_pos c';
  parsed_length : zlen (querybuf c') ≤ zlen (querybuf c)
}.

Lemma outside_flag f c c' : outside c' = outside c → client_has_flag f c' = client_has_flag f c.
Proof. unfold outside, client_has_flag. by intros [= _ _ _ _ _ _ ->]. Qed.

Lemma outside_auth conf c c' : outside c' = outside c → authRequired conf c' = authRequired conf c.
Proof. unfold outside, authRequired. by intros [= _ _ _ _ _ _ _ ->]. Qed.

Lemma parsed_refl c : buf_ok c → parsed c c.
Proof. intros Hc. split; [done|done|intros _; split; [done|lia]|lia]. Qed.

Lemma parsed_trans c1 c2 c3 : parsed c1 c2 → parsed c2 c3 → parsed c1 c3.
Proof.
  intros [Ho1 Hb1 Hm1 Hl1] [Ho2 Hb2 Hm2 Hl2]. split; [congruence|done| |lia].
  intros Hm. destruct (Hm1 Hm) as [Hq1 ?]. rewrite <- (outside_flag _ _ _ Ho1) in Hm. destruct (Hm2 Hm). split; [congruence|lia].
Qed.

Section multibulk.

Context (conf : server_conf).

(** The arguments a client may send. *)
Definition arg_ok (c : client) (a : bytes) : Prop :=
  zlen a ≤ LLONG_MAX - 2 ∧ (client_has_flag CLIENT_MASTER c = true ∨ zlen a ≤ proto_max_bulk_len conf).

(** The bytes of the arguments [todo] that the parser still expects. *)
Definition want (c : client) (todo : list bytes) : bytes :=
  if decide (bulklen c = -1) then enc_bulks todo
  else match todo with [] => [] | a :: todo => a ++ crlf ++ enc_bulks todo end.

(** The parser is inside a command and expects the arguments [todo]. *)
Record mb_state (c : client) (todo : list bytes) : Prop := {
  mb_buf : buf_ok c;
  mb_len : multibulklen c = zlen todo;
  mb_bulk : bulklen c = -1 ∨ ∃ a t, todo = a :: t ∧ bulklen c = zlen a;
  mb_max : argc c + zlen todo ≤ INT_MAX;
  mb_argv : 0 < argv_len c ∧ argc c ≤ argv_len c
}.

Lemma grow_argv_ok c : 0 < multibulklen c → argc c + multibulklen c ≤ INT_MAX → 0 < argv_len c ∧ argc c ≤ argv_len c →
  ∃ n, grow_argv c = Some (c <| argv_len := n |>) ∧ argc c < n.
Proof.
  intros Hm Hmax Ha. unfold grow_argv. case_decide as Hg.
  - rewrite decide_False by lia. eexists. split; [done|]. case_decide; unfold INT_MAX, INT32_MAX in *; change (2147483647 / 2) with 1073741823 in *; lia.
  - exists (argv_len c). split; [|lia]. by destruct c.
Qed.

(** A complete argument is taken. *)
Lemma read_bulk_take c a t r fut :
  mb_state c (a :: t) → arg_ok c a → bulklen c = zlen a → unread c = a ++ crlf ++ r →
  ∃ c', read_bulk c = Some (c', MB_go) ∧ mb_state c' t ∧ argv c' = argv c ++ [a] ∧ bulklen c' = -1 ∧ parsed c c' ∧
    unread c' ++ fut = r ++ fut ∧ zlen (unread c') < zlen (unread c).
Proof.
  intros [Hbuf Hlen _ Hmax Hargv] [Hll Hlim] Hbl Hun. unfold read_bulk. cbn [length] in *.
  assert (zlen (unread c) = zlen a + 2 + zlen r) as Hul by (rewrite Hun, !length_app; simpl; lia).
  rewrite decide_False by lia. rewrite qb_left_ok by done. rewrite decide_False by lia.
  destruct (grow_argv_ok c) as (n & -> & Hn); [lia|lia|done|]. bind_simpl.
  pose proof (unread_length c Hbuf) as Hq. pose proof Hbuf as [Hpos Hsz].
  unfold argc in *. change (client_has_flag CLIENT_MASTER (c <| argv_len := n |>)) with (client_has_flag CLIENT_MASTER c).
  cbn [assign_to assign_argv_len qb_pos bulklen querybuf argv argv_len multibulklen].
  case_decide as Hbig.
  - destruct Hbig as (Hm & Hp0 & _ & Hjust). unfold push_arg, argc. cbn [argv assign_to assign_argv_len argv_len].
    rewrite decide_True by done. bind_simpl. eexists. split; [done|].
    assert (unread c = querybuf c) as Huq by (unfold unread; by rewrite Hp0).
    assert (take (Z.to_nat (zlen (querybuf c) - 2)) (querybuf c) = a) as ->.
    { rewrite <- Huq, Hun. replace (Z.to_nat _) with (length a) by (rewrite !length_app; simpl; lia). by rewrite take_app_length. }
    assert (r = []) as -> by (destruct r; [done|simpl in *; lia]).
    split_and!; try done.
    + split; cbn; [unfold buf_ok; cbn; lia|lia|by left| |]; unfold argc; cbn; rewrite length_app; simpl; lia.
    + split; cbn; [done|unfold buf_ok; cbn; lia|congruence|lia].
    + unfold unread. cbn. by rewrite Hp0.
    + unfold unread at 1. cbn. rewrite drop_nil. simpl. lia.
  - rewrite unread_read_0 by done. rewrite Hun, Hbl. rewrite (mem_read_app [] a (crlf ++ r) 0 (zlen a) eq_refl eq_refl : mem_read (a ++ crlf ++ r) 0 (zlen a) = Some a). bind_simpl.
    unfold push_arg, argc. cbn [argv assign_to assign_argv_len argv_len]. rewrite decide_True by done. bind_simpl.
    eexists. split; [done|].
    assert (unread (c <| qb_pos := qb_pos c + (zlen a + 2) |>) = r) as Hr.
    { unfold unread. cbn. rewrite Z2Nat.inj_add, <- drop_drop by lia. fold (unread c). rewrite Hun.
      replace (Z.to_nat (zlen a + 2)) with (length (a ++ crlf)) by (rewrite length_app; simpl; lia).
      rewrite (assoc_L (++)), drop_app_length. done. }
    split_and!; try done.
    + split; cbn; [unfold buf_ok; cbn; lia|lia|by left| |]; unfold argc; cbn; rewrite length_app; simpl; lia.
    + split; cbn; [done|unfold buf_ok; cbn; lia|intros _; split; [done|lia]|lia].
    + unfold unread in *. cbn in *. by rewrite Hbl, Hr.
    + unfold unread in *. cbn in *. rewrite Hbl, Hr, !length_app. simpl. lia.
Qed.

(** Without the whole argument the parser waits. *)
Lemma read_bulk_wait c a t : mb_state c (a :: t) → arg_ok c a → bulklen c = zlen a → zlen (unread c) < zlen a + 2 →
  read_bulk c = Some (c, MB_break).
Proof.
  intros [Hbuf _ _ _ _] [Hll _] Hbl Hlt. unfold read_bulk. rewrite decide_False by lia.
  by rewrite qb_left_ok, decide_True by (done || lia).
Qed.

(** The length of an argument is read, or the parser waits for the rest of the line. *)
Lemma read_bulk_len_ok c a t fut tail :
  mb_state c (a :: t) → arg_ok c a → authRequired conf c = false → bulklen c = -1 →
  unread c ++ fut = enc_bulk a ++ tail →
  (∃ c', read_bulk_len conf c = Some (c', MB_go) ∧ mb_state c' (a :: t) ∧ bulklen c' = zlen a ∧ argv c' = argv c ∧ parsed c c' ∧
     unread c' ++ fut = a ++ crlf ++ tail ∧ zlen (unread c') < zlen (unread c)) ∨
  (read_bulk_len conf c = Some (c, MB_break) ∧ zlen (unread c) < zlen (enc_bulk a)).
Proof.
  intros Hst [Hll Hlim] Hauth Hbl Hun. pose proof Hst as [Hbuf Hlen _ Hmax Hargv].
  unfold enc_bulk in Hun. app_norm_in Hun. unfold LLONG_MAX in Hll.
  destruct (count_line c fut 36 (zlen a) (a ++ crlf ++ tail)) as [(r & Hr & Ht & Hs & Hnl & Hg & Hrc)|[Hlt Hw]]; try (done || lia).
  - left. unfold read_bulk_len. rewrite Hs, Hnl, Hg. bind_simpl. rewrite decide_False by tauto. rewrite Hrc. bind_simpl.
    rewrite decide_False; [|intros [?|[Hm ?]]; [lia|destruct Hlim; [congruence|lia]]].
    rewrite decide_False by (intros [_ ?]; congruence).
    set (c1 := c <| qb_pos := _ |>).
    assert (zlen (unread c) = 3 + zlen (decimal (zlen a)) + zlen r) as Hul
      by (rewrite Hr; cbn [length]; rewrite !length_app; simpl; lia).
    assert (buf_ok c1) as Hb1.
    { pose proof (unread_length c Hbuf). destruct Hbuf. unfold c1, buf_ok. cbn. lia. }
    assert (unread c1 = r) as Hu1.
    { unfold c1, unread. cbn. destruct Hbuf. rewrite <- Z.add_assoc, Z2Nat.inj_add, <- drop_drop by lia. fold (unread c). rewrite Hr.
      replace (Z.to_nat _) with (length (36 :: decimal (zlen a) ++ crlf)) by (simpl; rewrite length_app; simpl; lia).
      change (36 :: decimal (zlen a) ++ crlf ++ r) with ((36 :: decimal (zlen a)) ++ crlf ++ r).
      change (36 :: decimal (zlen a) ++ crlf) with ((36 :: decimal (zlen a)) ++ crlf).
      by rewrite (assoc_L (++)), drop_app_length. }
    assert (parsed c c1) as Hp1.
    { split; [done|done|intros _; split; [done|unfold c1; cbn; lia]|unfold c1; cbn; lia]. }
    case_decide as Hbig.
    + destruct Hbig as [Hm _]. destruct Hb1 as [Hpos1 Hsz1].
      rewrite (sdsrange_drop (querybuf c1) (qb_pos c1)) by lia. fold (unread c1). rewrite Hu1.
      assert (zlen r ≤ zlen (querybuf c)) by (pose proof (unread_length c Hbuf); destruct Hbuf; lia).
      assert (zlen r < 2 ^ 62) by (destruct Hbuf; lia).
      assert (∀ p, parsed c (c1 <| querybuf := r |> <| qb_pos := 0 |> <| querybuf_peak := p |> <| bulklen := zlen a |>)) as Hpp.
      { intros p. split; [done|unfold buf_ok; cbn; lia|intros Hm'; change (client_has_flag CLIENT_MASTER c = false) in Hm; congruence|cbn; lia]. }
      assert (∃ p, (if decide (querybuf_peak (c1 <| querybuf := r |> <| qb_pos := 0 |>) < u64 (zlen a + 2))
        then c1 <| querybuf := r |> <| qb_pos := 0 |> <| querybuf_peak := u64 (zlen a + 2) |>
        else c1 <| querybuf := r |> <| qb_pos := 0 |>) = c1 <| querybuf := r |> <| qb_pos := 0 |> <| querybuf_peak := p |>) as [p ->].
      { case_decide; [by eexists|]. by exists (querybuf_peak c1). }
      eexists. split; [done|]. split_and!; try done.
      * split; cbn; [apply (parsed_buf _ _ (Hpp p))|done|right; eauto|done|done].
      * change (zlen r < zlen (unread c)). lia.
    + eexists. split; [done|]. split_and!; try done.
      * split; cbn; [done|done|right; eauto|done|done].
      * by destruct Hp1; split.
      * change (unread c1 ++ fut = a ++ crlf ++ tail). by rewrite Hu1.
      * change (zlen (unread c1) < zlen (unread c)). rewrite Hu1. lia.
  - right. split.
    + unfold read_bulk_len. destruct Hw as [(nl & -> & ->)|[-> Hq]]; [done|]. by rewrite decide_False by lia.
    + unfold enc_bulk. cbn [length]. rewrite !length_app. simpl. lia.
Qed.


(** One round: the next argument is taken, or the parser waits in the middle of it. *)
Lemma mbulk_step_ok c a t fut tail :
  mb_state c (a :: t) → arg_ok c a → authRequired conf c = false → unread c ++ fut = want c (a :: t) ++ tail →
  (∃ c', mbulk_step conf c = Some (c', MB_go) ∧ mb_state c' t ∧ argv c' = argv c ++ [a] ∧ parsed c c' ∧
     unread c' ++ fut = want c' t ++ tail ∧ zlen (unread c') < zlen (unread c)) ∨
  (∃ c', mbulk_step conf c = Some (c', MB_break) ∧ mb_state c' (a :: t) ∧ argv c' = argv c ∧ parsed c c' ∧
     unread c' ++ fut = want c' (a :: t) ++ tail ∧ zlen (unread c') < zlen (want c' (a :: t))).
Proof.
  intros Hst Ha Hauth Hun. pose proof (mb_buf _ _ Hst) as Hbuf.
  (* with the length known *)
  assert (∀ c0, mb_state c0 (a :: t) → arg_ok c0 a → bulklen c0 = zlen a → parsed c c0 → argv c0 = argv c →
    unread c0 ++ fut = (a ++ crlf ++ enc_bulks t) ++ tail → zlen (unread c0) ≤ zlen (unread c) →
    (∃ c', read_bulk c0 = Some (c', MB_go) ∧ mb_state c' t ∧ argv c' = argv c ++ [a] ∧ parsed c c' ∧
       unread c' ++ fut = want c' t ++ tail ∧ zlen (unread c') < zlen (unread c)) ∨
    (∃ c', read_bulk c0 = Some (c', MB_break) ∧ mb_state c' (a :: t) ∧ argv c' = argv c ∧ parsed c c' ∧
       unread c' ++ fut = want c' (a :: t) ++ tail ∧ zlen (unread c') < zlen (want c' (a :: t)))) as Hbulk.
  { intros c0 Hst0 Ha0 Hbl0 Hp0 Hav0 Hun0 Hle0. destruct (decide (zlen a + 2 ≤ zlen (unread c0))) as [Hfull|Hpart].
    - left. destruct (app_prefix (unread c0) fut (a ++ crlf) (enc_bulks t ++ tail)) as (r & Hr & Ht).
      { rewrite Hun0. by app_norm. } { rewrite length_app. simpl. lia. }
      app_norm_in Hr.
      destruct (read_bulk_take c0 a t r fut) as (c' & Hrb & Hst' & Hav' & Hbl' & Hp' & Hu' & Hlt); try done.
      exists c'. split_and!; [done|done|congruence|by eapply parsed_trans| |lia].
      rewrite Hu', Ht. unfold want. by rewrite decide_True.
    - right. exists c0. split_and!; [by apply (read_bulk_wait c0 a t); try done; lia|done|done|done| |];
        unfold want; rewrite decide_False by lia; [done|]. rewrite !length_app. simpl. lia. }
  unfold mbulk_step. case_decide as Hbl.
  - unfold want in Hun. rewrite decide_True in Hun by done. change (enc_bulks (a :: t)) with (enc_bulk a ++ enc_bulks t) in Hun.
    rewrite <- app_assoc in Hun.
    destruct (read_bulk_len_ok c a t fut (enc_bulks t ++ tail)) as [(c1 & -> & Hst1 & Hbl1 & Hav1 & Hp1 & Hu1 & Hlt1)|[-> Hlt]]; try done.
    + bind_simpl. apply Hbulk; try done; [|rewrite Hu1; by app_norm|lia].
      unfold arg_ok. by rewrite (outside_flag _ _ _ (parsed_outside _ _ Hp1)).
    + bind_simpl. right. exists c. split_and!; [done|done|done|by apply parsed_refl| |].
      * unfold want. rewrite decide_True by done. change (enc_bulks (a :: t)) with (enc_bulk a ++ enc_bulks t). by rewrite <- app_assoc.
      * unfold want. rewrite decide_True by done. change (enc_bulks (a :: t)) with (enc_bulk a ++ enc_bulks t). rewrite length_app. lia.
  - bind_simpl. unfold want in Hun. rewrite decide_False in Hun by done.
    destruct (mb_bulk _ _ Hst) as [?|(a' & t' & [= <- <-] & Hbl')]; [done|].
    by apply Hbulk.
Qed.

(** The loop takes the arguments that are there. *)
Lemma mbulk_loop_ok fuel : ∀ c todo fut tail, (length (unread c) < fuel)%nat →
  mb_state c todo → Forall (arg_ok c) todo → authRequired conf c = false → unread c ++ fut = want c todo ++ tail →
  (∃ c', mbulk_loop conf fuel c = Some (c', C_OK) ∧ argv c' = argv c ++ todo ∧ parsed c c' ∧ unread c' ++ fut = tail ∧
     multibulklen c' = 0 ∧ bulklen c' = -1) ∨
  (∃ c' d todo', mbulk_loop conf fuel c = Some (c', C_ERR) ∧ todo = d ++ todo' ∧ mb_state c' todo' ∧ argv c' = argv c ++ d ∧
     parsed c c' ∧ unread c' ++ fut = want c' todo' ++ tail ∧ zlen (unread c') < zlen (want c' todo')).
Proof.
  induction fuel as [|fuel IH]; intros c todo fut tail Hf Hst Hok Hauth Hun; [lia|]. cbn [mbulk_loop].
  pose proof (mb_len _ _ Hst) as Hlen. pose proof (mb_buf _ _ Hst) as Hbuf.
  destruct todo as [|a t].
  - left. rewrite decide_True by done. exists c. rewrite app_nil_r. destruct (mb_bulk _ _ Hst) as [Hbl|(? & ? & ? & _)]; [|done].
    split_and!; try done. rewrite Hun. unfold want. by rewrite decide_True.
  - rewrite decide_False by (rewrite Hlen; simpl; lia). apply Forall_cons in Hok as [Ha Hok].
    destruct (mbulk_step_ok c a t fut tail) as [(c1 & -> & Hst1 & Hav & Hp & Hu & Hlt)|(c1 & -> & Hst1 & Hav & Hp & Hu & Hlt)]; try done.
    + bind_simpl. pose proof (parsed_outside _ _ Hp) as Ho.
      destruct (IH c1 t fut tail) as [(c' & -> & Hav' & Hp' & Hu' & Hm')|(c' & d & todo' & -> & -> & Hst' & Hav' & Hp' & Hu')]; try done.
      * lia.
      * eapply Forall_impl; [exact Hok|]. intros x. unfold arg_ok. by rewrite (outside_flag _ _ _ Ho).
      * by rewrite (outside_auth _ _ _ Ho).
      * left. exists c'. split_and!; try done; [rewrite Hav', Hav; by app_norm|by eapply parsed_trans|tauto|tauto].
      * right. exists c', (a :: d), todo'. split_and!; try done; [rewrite Hav', Hav; by app_norm|by eapply parsed_trans|tauto|tauto].
    + bind_simpl. pose proof (mb_len _ _ Hst1) as Hl1. rewrite decide_False by (rewrite Hl1; simpl; lia).
      right. exists c1, [], (a :: t). split_and!; try done. by rewrite app_nil_r.
Qed.

(** ** A whole command *)

(** Between two commands. *)
Record idle (c : client) : Prop := {
  idle_buf : buf_ok c;
  idle_len : multibulklen c = 0;
  idle_bulk : bulklen c = -1;
  idle_argv : argv c = [];
  idle_type : reqtype c = 0 ∨ reqtype c = PROTO_REQ_MULTIBULK
}.

(** The parser is somewhere in the command [args] and expects the bytes [rest]. *)
Inductive cmd_state (c : client) (args : list bytes) : bytes → Prop :=
  | cmd_first : idle c → cmd_state c args (enc_cmd args)
  | cmd_inside d todo : args = d ++ todo → todo ≠ [] → mb_state c todo → argv c = d →
      reqtype c = PROTO_REQ_MULTIBULK → cmd_state c args (want c todo).

Record request_ok (c : client) (args : list bytes) : Prop := {
  cmd_nonempty : args ≠ [];
  cmd_argc : zlen args ≤ INT_MAX;
  cmd_args : Forall (arg_ok c) args
}.

Lemma cmd_state_buf c args rest : cmd_state c args rest → buf_ok c.
Proof. intros [[]|? ? ? ? []]; done. Qed.

Lemma enc_bulks_app l l' : enc_bulks (l ++ l') = enc_bulks l ++ enc_bulks l'.
Proof. unfold enc_bulks. apply bind_app. Qed.

Lemma want_length c todo : zlen (want c todo) ≤ zlen (enc_bulks todo).
Proof.
  unfold want. case_decide; [lia|]. destruct todo as [|a t]; [simpl; lia|].
  change (enc_bulks (a :: t)) with (enc_bulk a ++ enc_bulks t). unfold enc_bulk. cbn [length app]. rewrite !length_app. simpl. lia.
Qed.

Lemma want_nonempty c todo : todo ≠ [] → 0 < zlen (want c todo).
Proof.
  intros Ht. destruct todo as [|a t]; [done|]. unfold want. case_decide.
  - change (enc_bulks (a :: t)) with (enc_bulk a ++ enc_bulks t). simpl. lia.
  - rewrite !length_app. simpl. lia.
Qed.

Lemma cmd_rest_length c args rest : cmd_state c args rest → 0 < zlen rest ≤ zlen (enc_cmd args).
Proof.
  intros [Hi|d todo -> Hne _ _ _]; [simpl; lia|]. pose proof (want_length c todo). pose proof (want_nonempty c todo Hne).
  unfold enc_cmd. cbn [length]. rewrite !length_app, enc_bulks_app, length_app. lia.
Qed.

(** The number of arguments is read, or the parser waits for the rest of the line. *)
Lemma read_mbulk_count_ok c args fut tail :
  idle c → request_ok c args → authRequired conf c = false → unread c ++ fut = enc_cmd args ++ tail →
  (∃ c', read_mbulk_count conf c = Some (c', None) ∧ mb_state c' args ∧ argv c' = [] ∧ bulklen c' = -1 ∧ parsed c c' ∧
     unread c' ++ fut = enc_bulks args ++ tail) ∨
  (read_mbulk_count conf c = Some (c, Some C_ERR) ∧ zlen (unread c) < zlen (enc_cmd args)).
Proof.
  intros [Hbuf Hlen Hbl Hav _] [Hne Hn Hargs] Hauth Hun. unfold enc_cmd in Hun. app_norm_in Hun.
  assert (0 < zlen args) by (destruct args; [done|simpl; lia]). unfold INT_MAX, INT32_MAX in Hn.
  unfold read_mbulk_count. rewrite decide_False by (unfold argc; rewrite Hav; simpl; lia).
  destruct (count_line c fut 42 (zlen args) (enc_bulks args ++ tail)) as [(r & Hr & Ht & Hs & Hnl & Hg & Hrc)|[Hlt Hw]]; try (done || lia).
  - left. rewrite Hs, Hnl, Hg. bind_simpl. rewrite decide_False by tauto. rewrite Hrc. bind_simpl.
    rewrite decide_False by (unfold INT_MAX, INT32_MAX; lia). rewrite decide_False by (intros [_ ?]; congruence).
    rewrite decide_False by lia. cbn [multibulklen assign_to assign_multibulklen assign_qb_pos].
    assert (zlen (unread c) = 3 + zlen (decimal (zlen args)) + zlen r) as Hul
      by (rewrite Hr; cbn [length]; rewrite !length_app; simpl; lia).
    pose proof (unread_length c Hbuf) as Hq. pose proof Hbuf as [? ?].
    eexists. split; [done|]. split_and!; try done.
    + split; unfold buf_ok, argc; cbn; rewrite ?Hav; unfold INT_MAX, INT32_MAX; simpl; lia.
    + split; [done|unfold buf_ok; cbn; lia|intros _; split; [done|cbn; lia]|cbn; lia].
    + rewrite <- Ht. f_equal. unfold unread. cbn. rewrite <- Z.add_assoc, Z2Nat.inj_add, <- drop_drop by lia. fold (unread c). rewrite Hr.
      replace (Z.to_nat _) with (length (42 :: decimal (zlen args) ++ crlf)) by (simpl; rewrite length_app; simpl; lia).
      change (42 :: decimal (zlen args) ++ crlf ++ r) with ((42 :: decimal (zlen args)) ++ crlf ++ r).
      change (42 :: decimal (zlen args) ++ crlf) with ((42 :: decimal (zlen args)) ++ crlf).
      by rewrite (assoc_L (++)), drop_app_length.
  - right. split.
    + destruct Hw as [(nl & -> & ->)|[-> Hq]]; [done|]. by rewrite decide_False by lia.
    + unfold enc_cmd. cbn [length]. rewrite !length_app. simpl. lia.
Qed.

(** The parser on a buffer with a part of the encoding of a command, wherever it stopped before. *)
Lemma processMultibulkBuffer_ok c args rest fut tail :
  cmd_state c args rest → reqtype c = PROTO_REQ_MULTIBULK → request_ok c args → authRequired conf c = false →
  unread c ++ fut = rest ++ tail →
  (∃ c', processMultibulkBuffer conf c = Some (c', C_OK) ∧ argv c' = args ∧ parsed c c' ∧ unread c' ++ fut = tail ∧
     multibulklen c' = 0 ∧ bulklen c' = -1) ∨
  (∃ c' rest', processMultibulkBuffer conf c = Some (c', C_ERR) ∧ cmd_state c' args rest' ∧ parsed c c' ∧
     unread c' ++ fut = rest' ++ tail ∧ zlen (unread c') < zlen rest' ∧ (multibulklen c' = 0 → c' = c)).
Proof.
  intros Hst Hty Hok Hauth Hun.
  (* inside the command *)
  assert (∀ c0 d todo, args = d ++ todo → todo ≠ [] → mb_state c0 todo → argv c0 = d → parsed c c0 → unread c0 ++ fut = want c0 todo ++ tail →
    let r := if decide (multibulklen c0 > 0) then mbulk_loop conf (S (length (querybuf c0))) c0 else None in
    (∃ c', r = Some (c', C_OK) ∧ argv c' = args ∧ parsed c c' ∧ unread c' ++ fut = tail ∧ multibulklen c' = 0 ∧ bulklen c' = -1) ∨
    (∃ c' rest', r = Some (c', C_ERR) ∧ cmd_state c' args rest' ∧ parsed c c' ∧ unread c' ++ fut = rest' ++ tail ∧
       zlen (unread c') < zlen rest' ∧ (multibulklen c' = 0 → c' = c))) as Hin.
  { intros c0 d todo Hsplit Hne Hmb Hav Hp0 Hu0. pose proof (mb_len _ _ Hmb) as Hl. pose proof (parsed_outside _ _ Hp0) as Ho.
    cbn zeta. rewrite decide_True by (rewrite Hl; destruct todo; [done|simpl; lia]).
    destruct (mbulk_loop_ok (S (length (querybuf c0))) c0 todo fut tail)
      as [(c' & -> & Hav' & Hp' & Hu' & Hm')|(c' & d' & todo' & -> & Ht & Hmb' & Hav' & Hp' & Hu' & Hlt)]; try done.
    - unfold unread. rewrite length_drop. lia.
    - destruct Hok as [_ _ Hargs]. rewrite Hsplit in Hargs. apply Forall_app in Hargs as [_ Hargs].
      eapply Forall_impl; [exact Hargs|]. intros x. unfold arg_ok. by rewrite (outside_flag _ _ _ Ho).
    - by rewrite (outside_auth _ _ _ Ho).
    - left. exists c'. split_and!; try tauto; [congruence|by eapply parsed_trans].
    - right. exists c', (want c' todo'). split_and!; try done; [|by eapply parsed_trans|].
      2:{ intros Hm0. rewrite (mb_len _ _ Hmb') in Hm0. assert (todo' = []) as -> by (destruct todo'; [done|simpl in Hm0; lia]).
          unfold want in Hlt. case_decide; simpl in Hlt; lia. }
      apply (cmd_inside _ _ (d ++ d') todo'); [subst; by app_norm| |done|congruence|].
      + intros ->. unfold want in Hlt. case_decide; simpl in Hlt; lia.
      + pose proof (parsed_outside _ _ (parsed_trans _ _ _ Hp0 Hp')) as Ho'. unfold outside in Ho'. injection Ho' as -> _. done. }
  unfold processMultibulkBuffer. destruct Hst as [Hi|d todo Hsplit Hne Hmb Hav _].
  - rewrite decide_True by apply Hi.
    destruct (read_mbulk_count_ok c args fut tail) as [(c1 & -> & Hmb & Hav & Hbl & Hp & Hu)|[-> Hlt]]; try done.
    + bind_simpl. apply (Hin c1 [] args); try done; [apply Hok|unfold want; by rewrite decide_True].
    + bind_simpl. right. exists c, (enc_cmd args). split_and!; try done; [by constructor|apply parsed_refl, Hi].
  - pose proof (mb_len _ _ Hmb) as Hl. rewrite decide_False by (rewrite Hl; destruct todo; [done|simpl; lia]). bind_simpl.
    apply (Hin c d todo); try done; apply parsed_refl, (mb_buf _ _ Hmb).
Qed.

End multibulk.
