(* ===== verification/RespRun.v ===== *)
(** * networking.c: executing the commands of a stream

What a client may rely on: the commands of a pipeline are executed in order, each as soon as its last byte is read, however the
connection splits the stream; and a replica hands on exactly what it applied of the stream of its master. *)

From S2P Require Import Prelude Util Sds Update Resp RespOk.

Local Open Scope Z_scope.

(** The client is served. *)
Definition running (c : client) : Prop :=
  client_has_flag CLIENT_BLOCKED c = false ∧ client_has_flag CLIENT_PENDING_COMMAND c = false ∧
  client_has_flag CLIENT_CLOSE_AFTER_REPLY c = false ∧ client_has_flag CLIENT_CLOSE_ASAP c = false.

(** The parts of a client that belong to the connection. *)
Definition connection (c : client) :=
  (querybuf c, qb_pos c, reploff c, read_reploff c, repl_applied c, fed c, errors c, client_has_flag CLIENT_MASTER c).

(** A command that runs to its end, without blocking or closing the client: it reads the arguments and leaves the connection alone. *)
Class CommandRuns {W : Type} (conf : server_conf) (processCommand : W → client → W * client * bool * bool)
    (run : W → list bytes → W) : Prop := {
  command_runs : ∀ w c, running c → duration c = 0 → ∃ c', processCommand w c = (run w (argv c), c', true, false) ∧
    connection c' = connection c ∧ running c' ∧ duration c' = 0 ∧ (authRequired conf c = false → authRequired conf c' = false)
}.

(** A server that keeps a log of the commands. *)
Definition log_command (w : list (list bytes)) (c : client) : list (list bytes) * client * bool * bool :=
  (w ++ [argv c], c, true, false).

#[global] Instance log_command_runs conf : CommandRuns conf log_command (λ w args, w ++ [args]).
Proof. split. intros w c Hr Hd. exists c. done. Qed.

(** ** The stream of a master *)

Section offsets.

(** The offset at the start of the stream. *)
Context (base : Z).

(** The offsets count the bytes of the stream, and what was handed on and is left of the buffer is the stream read so far. *)
Record repl_inv (stream : bytes) (c : client) : Prop := {
  repl_pos : client_has_flag CLIENT_MASTER c = true → 0 ≤ repl_applied c ≤ qb_pos c;
  repl_off : client_has_flag CLIENT_MASTER c = true → reploff c = read_reploff c - zlen (querybuf c) + repl_applied c;
  repl_fed : client_has_flag CLIENT_MASTER c = true → fed c ++ drop (Z.to_nat (repl_applied c)) (querybuf c) = stream;
  repl_read : client_has_flag CLIENT_MASTER c = true → read_reploff c = base + zlen stream
}.

Lemma repl_inv_parsed stream c c' : parsed c c' → repl_inv stream c → repl_inv stream c'.
Proof.
  intros [Ho _ Hm _] [Hp Hoff Hfed Hrd]. rewrite <- (outside_flag CLIENT_MASTER _ _ Ho) in Hm, Hp, Hoff, Hfed, Hrd.
  unfold outside in Ho. injection Ho as _ _ _ _ _ _ _ _ Hr Hrr Hra _ _ _ Hf.
  split; intros Hma; destruct (Hm Hma) as [Hq Hle]; rewrite ?Hra, ?Hr, ?Hrr, ?Hq, ?Hf; [specialize (Hp Hma); lia|auto..].
Qed.

Lemma repl_inv_connection stream c c' : connection c' = connection c → repl_inv stream c → repl_inv stream c'.
Proof. unfold connection. intros [= Hq Hqp Hr Hrr Hra Hf _ Hm] [H1 H2 H3 H4].
  split; intros Hma; rewrite Hm in Hma; rewrite ?Hra, ?Hqp, ?Hr, ?Hrr, ?Hq, ?Hf; auto.
Qed.

(** The flags that [resetClient] keeps. *)
Definition kept_flag (f : client_flag) : Prop :=
  f ≠ CLIENT_EXECUTING_COMMAND ∧ f ≠ CLIENT_ASKING ∧ f ≠ CLIENT_TRACKING_CACHING ∧ f ≠ CLIENT_REPLY_SKIP ∧ f ≠ CLIENT_REPLY_SKIP_NEXT.

Lemma reset_flags_kept prevcmd fl f : kept_flag f → f ∈ reset_flags prevcmd fl ↔ f ∈ fl.
Proof. unfold kept_flag, reset_flags. intros Hf. repeat case_decide; rewrite ?elem_of_difference, ?elem_of_union, ?elem_of_difference, ?elem_of_singleton; tauto. Qed.

Lemma resetClient_ok c : duration c = 0 → ∃ c', resetClient c = Some c' ∧ connection c' = connection c ∧
  multibulklen c' = 0 ∧ bulklen c' = -1 ∧ argv c' = [] ∧ reqtype c' = 0 ∧ duration c' = 0 ∧ authenticated c' = authenticated c ∧
  ∀ f, kept_flag f → client_has_flag f c' = client_has_flag f c.
Proof.
  intros Hd.
  assert (∀ f, kept_flag f → bool_decide (f ∈ reset_flags (cmd c) (flags c)) = bool_decide (f ∈ flags c)) as HF.
  { intros f Hf. apply bool_decide_ext, reset_flags_kept, Hf. }
  unfold resetClient. rewrite decide_False by lia. eexists. split; [done|]. split_and!; try done.
  unfold connection, client_has_flag. cbn [flags assign_to assign_flags]. rewrite HF; [done|]. done.
Qed.

Lemma kept_running c c' : (∀ f, kept_flag f → client_has_flag f c' = client_has_flag f c) → running c → running c'.
Proof. intros Hf. unfold running. rewrite !Hf by done. done. Qed.

(** After a command the client is between two commands; what it applied is handed on. *)
Lemma commandProcessed_ok stream c :
  buf_ok c → running c → duration c = 0 → repl_inv stream c →
  ∃ c', commandProcessed c = Some c' ∧ idle c' ∧ reqtype c' = 0 ∧ running c' ∧ duration c' = 0 ∧ authenticated c' = authenticated c ∧
    querybuf c' = querybuf c ∧ qb_pos c' = qb_pos c ∧ errors c' = errors c ∧ client_has_flag CLIENT_MASTER c' = client_has_flag CLIENT_MASTER c ∧
    repl_inv stream c' ∧ (client_has_flag CLIENT_MASTER c' = true → client_has_flag CLIENT_MULTI c' = false → repl_applied c' = qb_pos c).
Proof.
  intros Hbuf Hrun Hd Hrepl. unfold commandProcessed. rewrite (proj1 Hrun).
  destruct (resetClient_ok c Hd) as (c1 & -> & Hcon & Hm & Hb & Hav & Hty & Hd1 & Hau & Hf). bind_simpl.
  pose proof (kept_running _ _ Hf Hrun) as Hrun1. pose proof (repl_inv_connection stream _ _ Hcon Hrepl) as [Hp Ho Hfed Hrd].
  assert (client_has_flag CLIENT_MULTI c1 = client_has_flag CLIENT_MULTI c) as Hmu by by apply Hf.
  unfold connection in Hcon. injection Hcon as Hq Hqp _ _ _ _ He Hma. rewrite <- Hma.
  assert (buf_ok c1) as Hbuf1 by (unfold buf_ok in *; by rewrite Hq, Hqp).
  rewrite <- Hq, <- Hqp, <- He, <- Hau.
  destruct (client_has_flag CLIENT_MASTER c1) eqn:Hmaster; cbn [andb].
  2:{ rewrite Hmaster. exists c1. split_and!; try done; try congruence; try (by split; auto); split; congruence. }
  specialize (Hp eq_refl). specialize (Ho eq_refl). specialize (Hfed eq_refl). specialize (Hrd eq_refl).
  destruct (client_has_flag CLIENT_MULTI c1) eqn:Hmulti; cbn [negb].
  - rewrite Hmaster. rewrite decide_False by lia. exists c1. split_and!; try done; try congruence; try (by split; auto); split; congruence.
  - change (client_has_flag CLIENT_MASTER (c1 <| reploff := read_reploff c1 - zlen (querybuf c1) + qb_pos c1 |>)) with (client_has_flag CLIENT_MASTER c1).
    rewrite Hmaster. cbn [reploff assign_to assign_reploff querybuf repl_applied fed].
    replace (read_reploff c1 - zlen (querybuf c1) + qb_pos c1 - reploff c1) with (qb_pos c1 - repl_applied c1) by lia.
    pose proof Hbuf1 as [? ?].
    case_decide as Happ.
    + unfold mem_read, in_block. rewrite decide_True by lia. bind_simpl. eexists. split; [done|].
      split_and!; try done; try (by split; auto); [|intros; cbn; lia]. split; intros _; cbn; [lia|lia| |done].
      rewrite <- Hfed, <- app_assoc. f_equal.
      replace (Z.to_nat (repl_applied c1 + (qb_pos c1 - repl_applied c1))) with (Z.to_nat (repl_applied c1) + Z.to_nat (qb_pos c1 - repl_applied c1))%nat by lia.
      rewrite <- drop_drop. apply take_drop.
    + eexists. split; [done|]. split_and!; try done; try (by split; auto); [|intros; cbn; lia]. split; intros _; cbn; [lia|lia|done|done].
Qed.

(** ** The loop over the buffer *)

Definition enc_all (cmds : list (list bytes)) : bytes := cmds ≫= enc_cmd.

(** The position in the stream: with the bytes [fut] to come, the client will have read the commands [cmds]. *)
Inductive expects (c : client) (fut : bytes) : list (list bytes) → Prop :=
  | expects_end : idle c → unread c ++ fut = [] → expects c fut []
  | expects_cmd args cmds rest : cmd_state c args rest → unread c ++ fut = rest ++ enc_all cmds → expects c fut (args :: cmds).

(** The client waits for bytes that are still to come. *)
Definition waits (c : client) (fut : bytes) (cmds : list (list bytes)) : Prop :=
  match cmds with
  | [] => unread c = []
  | args :: cmds => ∃ rest, cmd_state c args rest ∧ unread c ++ fut = rest ++ enc_all cmds ∧ zlen (unread c) < zlen rest
  end.

Section stream.

Context {W : Type} (conf : server_conf) (processCommand : W → client → W * client * bool * bool) (run : W → list bytes → W).
Context `{!CommandRuns conf processCommand run}.
Context (Hidle : io_threads_op conf = IO_THREADS_OP_IDLE) (Hyield : yielding_command conf = false) (Hthreads : io_threads_reads conf = false).

(** A client in service, at some position of the stream. *)
Record served (stream : bytes) (c : client) : Prop := {
  served_running : running c;
  served_auth : authRequired conf c = false;
  served_duration : duration c = 0;
  served_repl : repl_inv stream c;
  served_done : client_has_flag CLIENT_MASTER c = true → client_has_flag CLIENT_MULTI c = false → multibulklen c = 0 → argv c = [] → repl_applied c = qb_pos c
}.

Lemma expects_buf c fut cmds : expects c fut cmds → buf_ok c.
Proof. intros [[]|? ? ? H _]; [done|]. by apply cmd_state_buf in H. Qed.

(** The kind of the request is that of its first byte, which is read already or in the buffer. *)
Lemma request_type_ok c args rest fut tail : cmd_state c args rest → unread c ++ fut = rest ++ tail → qb_pos c < zlen (querybuf c) →
  ∃ c', request_type c = Some c' ∧ cmd_state c' args rest ∧ reqtype c' = PROTO_REQ_MULTIBULK ∧ unread c' = unread c ∧
    querybuf c' = querybuf c ∧ qb_pos c' = qb_pos c ∧ connection c' = connection c ∧ flags c' = flags c ∧ duration c' = duration c ∧
    authenticated c' = authenticated c ∧ multibulklen c' = multibulklen c ∧ argv c' = argv c.
Proof.
  intros Hst Hun Hpos. pose proof (cmd_state_buf _ _ _ Hst) as Hbuf. unfold request_type. destruct Hst as [Hi|d todo Hs Hne Hmb Hav Hty].
  - destruct (idle_type _ Hi) as [H0|H2].
    + rewrite decide_True by done. assert (unread c !! 0%nat = Some 42) as Hh.
      { assert (zlen (unread c) = zlen (querybuf c) - qb_pos c) by by apply unread_length.
        destruct (unread c) as [|b u]; [simpl in *; lia|]. cbn [app] in Hun. injection Hun as -> _. done. }
      rewrite <- (Z.add_0_r (qb_pos c)), unread_get, Z.add_0_r by (done || lia). change (Z.to_nat 0) with 0%nat. rewrite Hh. bind_simpl.
      eexists. split; [done|]. split_and!; try done. apply cmd_first. destruct Hi; split; auto.
    + rewrite decide_False by (rewrite H2; done). exists c. split_and!; try done. by apply cmd_first.
  - rewrite decide_False by (rewrite Hty; done). exists c. split_and!; try done. by apply (cmd_inside c args d todo).
Qed.

Lemma served_parsed stream c c' : parsed c c' → (multibulklen c' = 0 → argv c' = [] → c' = c) → served stream c → served stream c'.
Proof.
  intros Hp Hsame [Hr Ha Hd Hre Hdone]. pose proof (parsed_outside _ _ Hp) as Ho. split.
  - unfold running in *. by rewrite !(outside_flag _ _ _ Ho).
  - by rewrite (outside_auth _ _ _ Ho).
  - unfold outside in Ho. by injection Ho as _ _ _ _ -> _ _ _ _ _ _ _ _ _ _.
  - by eapply repl_inv_parsed.
  - intros Hma Hmu Hm0 Ha0. assert (c' = c) as -> by auto. by apply Hdone.
Qed.

Lemma parsed_errors c c' : parsed c c' → errors c' = errors c ∧ client_has_flag CLIENT_MASTER c' = client_has_flag CLIENT_MASTER c.
Proof.
  intros Hp. pose proof (parsed_outside _ _ Hp) as Ho. split; [|by apply outside_flag].
  unfold outside in Ho. by injection Ho as _ _ _ _ _ _ _ _ _ _ _ _ _ -> _.
Qed.

Lemma cmd_ok_master c c' args : client_has_flag CLIENT_MASTER c' = client_has_flag CLIENT_MASTER c → request_ok conf c args → request_ok conf c' args.
Proof. intros Hm [Hne Hn Ha]. split; [done|done|]. eapply Forall_impl; [exact Ha|]. intros x. unfold arg_ok. by rewrite Hm. Qed.

(** One command of the stream: it is executed, or the client waits for the rest of it. *)
Lemma input_step stream fuel w c args cmds fut :
  served stream c → expects c fut (args :: cmds) → request_ok conf c args → qb_pos c < zlen (querybuf c) →
  (∃ c', input_loop conf processCommand (S fuel) w c = input_loop conf processCommand fuel (run w args) c' ∧ served stream c' ∧
     idle c' ∧ reqtype c' = 0 ∧ unread c' ++ fut = enc_all cmds ∧ errors c' = errors c ∧ client_has_flag CLIENT_MASTER c' = client_has_flag CLIENT_MASTER c ∧
     zlen (querybuf c') ≤ zlen (querybuf c) ∧ zlen (unread c') < zlen (unread c)) ∨
  (∃ c', input_loop conf processCommand (S fuel) w c = Some (w, c', true) ∧ served stream c' ∧ waits c' fut (args :: cmds) ∧
     errors c' = errors c ∧ client_has_flag CLIENT_MASTER c' = client_has_flag CLIENT_MASTER c ∧ zlen (querybuf c') ≤ zlen (querybuf c)).
Proof.
  intros Hsv Hex Hok Hpos. inversion Hex as [|? ? rest Hst Hun]; subst. pose proof Hsv as [(Hr1 & Hr2 & Hr3 & Hr4) Hauth Hd Hrepl Hdone].
  cbn [input_loop]. rewrite decide_True by done. rewrite Hr1, Hr2, Hr3, Hr4, Hyield. cbn [orb andb].
  destruct (request_type_ok c args rest fut (enc_all cmds)) as (c1 & -> & Hst1 & Hty1 & Hu1 & Hq1 & Hqp1 & Hcon1 & Hfl1 & Hd1 & Hau1 & Hm1 & Hav1); try done.
  bind_simpl. unfold parse_request. rewrite decide_False by (rewrite Hty1; done). rewrite decide_True by done.
  assert (∀ f, client_has_flag f c1 = client_has_flag f c) as Hf1 by (intros f; unfold client_has_flag; by rewrite Hfl1).
  assert (served stream c1) as Hsv1.
  { split; [unfold running; rewrite !Hf1; done|unfold authRequired; rewrite Hau1; exact Hauth|congruence|by eapply repl_inv_connection|].
    unfold connection in Hcon1. injection Hcon1 as _ _ _ _ Hra _ _ _. rewrite !Hf1, Hm1, Hav1, Hra, Hqp1. done. }
  assert (errors c1 = errors c) as He1 by (unfold connection in Hcon1; by injection Hcon1).
  pose proof (cmd_ok_master c c1 args (Hf1 _) Hok) as Hok1. rewrite <- Hu1 in Hun.
  destruct (processMultibulkBuffer_ok conf c1 args rest fut (enc_all cmds)) as [(c2 & -> & Hav2 & Hp2 & Hu2 & Hm2 & Hb2)|(c2 & rest' & -> & Hst2 & Hp2 & Hu2 & Hlt & Hsame)];
    try done; try apply Hsv1; bind_simpl; destruct (parsed_errors _ _ Hp2) as [He2 Hma2]; pose proof (parsed_length _ _ Hp2) as Hl2.
  - left. assert (served stream c2) as Hsv2.
    { apply (served_parsed stream c1 c2 Hp2); [|done]. intros _ Ha0. destruct (cmd_nonempty _ _ _ Hok). congruence. } rewrite decide_False by tauto. destruct Hok as [Hne Hn Hargs].
    rewrite decide_False by (unfold argc; rewrite Hav2; destruct args; [done|simpl; lia]).
    rewrite decide_False by (rewrite Hidle; tauto). unfold processCommandAndResetClient.
    destruct (command_runs w c2 (served_running _ _ Hsv2) (served_duration _ _ Hsv2)) as (c3 & -> & Hcon3 & Hrun3 & Hd3 & Hau3).
    assert (buf_ok c3) as Hbuf3.
    { pose proof (parsed_buf _ _ Hp2) as Hb. unfold connection in Hcon3. injection Hcon3 as Hq Hqp _ _ _ _ _ _. unfold buf_ok in *. by rewrite Hq, Hqp. }
    destruct (commandProcessed_ok stream c3) as (c4 & Hcp & Hi4 & Hty4 & Hrun4 & Hd4 & Hau4 & Hq4 & Hqp4 & He4 & Hma4 & Hre4 & Hdn4); try done.
    { eapply repl_inv_connection; [done|]. apply Hsv2. }
    rewrite Hcp. bind_simpl. cbn [negb]. rewrite Hav2. exists c4.
    unfold connection in Hcon3. injection Hcon3 as Hq3 Hqp3 _ _ _ _ He3 Hma3.
    assert (unread c4 = unread c2) as Hu4 by (unfold unread; congruence).
    split_and!; try done; try congruence.
    + split; try done; [|intros; rewrite Hqp4; by apply Hdn4].
      specialize (Hau3 (served_auth _ _ Hsv2)). unfold authRequired in *. by rewrite Hau4.
    + rewrite Hu4. pose proof (cmd_rest_length _ _ _ Hst) as Hrl. rewrite <- Hu1.
      rewrite <- Hu2 in Hun. apply (f_equal length) in Hun. rewrite !length_app in Hun. lia.
  - right. assert (served stream c2) as Hsv2 by (apply (served_parsed stream c1 c2 Hp2); auto).
    rewrite decide_True by done. exists c2. split_and!; try done; try congruence.
    by exists rest'.
Qed.

(** The loop executes the commands that are complete. *)
Lemma input_loop_ok stream fuel : ∀ w c cmds fut, (length (unread c) < fuel)%nat →
  served stream c → expects c fut cmds → Forall (request_ok conf c) cmds →
  ∃ c' d cmds', input_loop conf processCommand fuel w c = Some (foldl run w d, c', true) ∧ cmds = d ++ cmds' ∧
    served stream c' ∧ expects c' fut cmds' ∧ waits c' fut cmds' ∧ errors c' = errors c ∧
    client_has_flag CLIENT_MASTER c' = client_has_flag CLIENT_MASTER c ∧ zlen (querybuf c') ≤ zlen (querybuf c).
Proof.
  induction fuel as [|fuel IH]; intros w c cmds fut Hf Hsv Hex Hok; [lia|].
  pose proof (expects_buf _ _ _ Hex) as Hbuf. pose proof (unread_length c Hbuf) as Hul.
  destruct (decide (qb_pos c < zlen (querybuf c))) as [Hpos|Hpos].
  - destruct cmds as [|args cmds].
    { inversion Hex as [Hi Hun|]; subst. apply app_nil in Hun as [Hun _]. rewrite Hun in Hul. simpl in Hul. lia. }
    apply Forall_cons in Hok as [Ha Hok].
    destruct (input_step stream fuel w c args cmds fut) as [(c1 & -> & Hsv1 & Hi1 & Hty1 & Hu1 & He1 & Hm1 & Hq1 & Hlt)|(c1 & -> & Hsv1 & Hw1 & Hrest)]; try done.
    + destruct (IH (run w args) c1 cmds fut) as (c' & d & cmds' & -> & -> & Hsv' & Hex' & Hw' & He' & Hm' & Hq'); try done.
      * lia.
      * destruct cmds as [|a2 t]; [by apply expects_end|]. apply (expects_cmd _ _ a2 t (enc_cmd a2)); [by apply cmd_first|done].
      * eapply Forall_impl; [exact Hok|]. intros x. by apply cmd_ok_master.
      * exists c', (args :: d), cmds'. split_and!; try done; try congruence. lia.
    + exists c1, [], (args :: cmds). split_and!; try done; try tauto.
      destruct Hw1 as (rest & Hst & Hun & _). by apply (expects_cmd _ _ args cmds rest).
  - cbn [input_loop]. rewrite decide_False by done. exists c, [], cmds. split_and!; try done.
    assert (unread c = []) as Hu by (destruct (unread c); [done|simpl in *; lia]).
    destruct Hex as [Hi Hun|args t rest Hst Hun]; [done|]. exists rest. split_and!; [done|done|].
    rewrite Hu. pose proof (cmd_rest_length _ _ _ Hst). simpl. lia.
Qed.

(** Dropping what was used of the buffer does not change the position in the stream. *)
Lemma trim_state stream c fut cmds : served stream c → expects c fut cmds → waits c fut cmds →
  served stream (trim_querybuf c) ∧ expects (trim_querybuf c) fut cmds ∧ waits (trim_querybuf c) fut cmds ∧
  zlen (querybuf (trim_querybuf c)) ≤ zlen (querybuf c) ∧
  (client_has_flag CLIENT_MASTER c = false → querybuf (trim_querybuf c) = unread c).
Proof.
  intros Hsv Hex Hw. pose proof (expects_buf _ _ _ Hex) as Hbuf. pose proof Hbuf as [Hpos Hsz].
  (* a cut of the buffer before the position *)
  assert (∀ n a, 0 ≤ n ≤ qb_pos c → (client_has_flag CLIENT_MASTER c = true → n = repl_applied c ∧ a = 0) →
    let c' := c <| querybuf := sdsrange (querybuf c) n (-1) |> <| qb_pos := qb_pos c - n |> <| repl_applied := a |> in
    served stream c' ∧ expects c' fut cmds ∧ waits c' fut cmds ∧ zlen (querybuf c') ≤ zlen (querybuf c) ∧
    (qb_pos c = n → querybuf c' = unread c)) as Hcut.
  { intros n a Hn Hma c'. assert (unread c' = unread c) as Hu.
    { unfold c', unread. cbn. rewrite sdsrange_drop by lia. rewrite drop_drop. f_equal. lia. }
    assert (zlen (querybuf c') = zlen (querybuf c) - n) as Hl.
    { unfold c'. cbn. rewrite sdsrange_drop, length_drop by lia. lia. }
    assert (buf_ok c') as Hb by (unfold buf_ok; rewrite Hl; unfold c'; cbn; lia).
    assert (∀ args rest, cmd_state c args rest → cmd_state c' args rest) as Hcs.
    { intros args rest [[]|d todo Hs Hne [] Hav Hty]; [by apply cmd_first; split|].
      change (want c todo) with (want c' todo). by apply (cmd_inside c' args d todo); [| |split| |]. }
    split_and!.
    - destruct Hsv as [Hr Ha Hd [H1 H2 H3 H4] Hdone]. split; [done|done|done| |].
      2:{ intros Hm Hmu Hm0 Ha0. destruct (Hma Hm) as [-> ->]. specialize (Hdone Hm Hmu Hm0 Ha0). unfold c'. cbn. lia. }
      split; intros Hm; destruct (Hma Hm) as [-> ->];
        [unfold c'; cbn; lia|rewrite Hl; change (reploff c = read_reploff c - (zlen (querybuf c) - repl_applied c) + 0); rewrite (H2 Hm); lia| |by apply H4].
      rewrite <- (H3 Hm). unfold c'. cbn. rewrite sdsrange_drop by lia. done.
    - destruct Hex as [[] Hun|args t rest Hst Hun]; [apply expects_end; [by split|]|apply (expects_cmd _ _ _ _ rest); [by apply Hcs|]]; by rewrite Hu.
    - unfold waits in *. destruct cmds as [|args t]; [by rewrite Hu|]. destruct Hw as (rest & Hst & Hun & Hlt).
      exists rest. rewrite Hu. auto.
    - lia.
    - intros <-. unfold c'. cbn. by rewrite sdsrange_drop by lia. }
  unfold trim_querybuf. destruct (client_has_flag CLIENT_MASTER c) eqn:Hm.
  - case_decide as Hra; [|split_and!; try done; lia].
    destruct Hsv as [Hr Ha Hd Hrepl _]. pose proof (repl_pos _ _ Hrepl Hm).
    destruct (Hcut (repl_applied c) 0) as (H1 & H2 & H3 & H4 & _); [lia|done|]. done.
  - case_decide as Hq.
    + destruct (Hcut (qb_pos c) (repl_applied c)) as (H1 & H2 & H3 & H4 & H5); [lia|done|].
      rewrite Z.sub_diag in *. assert (c <| querybuf := sdsrange (querybuf c) (qb_pos c) (-1) |> <| qb_pos := 0 |> <| repl_applied := repl_applied c |>
        = c <| querybuf := sdsrange (querybuf c) (qb_pos c) (-1) |> <| qb_pos := 0 |>) as Heq by done.
      rewrite Heq in *. split_and!; try done. intros _. by apply H5.
    + split_and!; try done. intros _. unfold unread. replace (qb_pos c) with 0 by (destruct (decide (qb_pos c = 0)); [lia|tauto]). done.
Qed.

(** One read of the bytes [bs], which are the next ones of the stream. *)
Definition fits (c : client) (bs : bytes) (cmds : list (list bytes)) : Prop :=
  client_has_flag CLIENT_MASTER c = true ∨
  (zlen bs ≤ client_max_querybuf_len conf ∧ Forall (λ args, zlen (enc_cmd args) + zlen bs ≤ client_max_querybuf_len conf) cmds).

(** Between two reads. *)
Record at_rest (stream : bytes) (c : client) (fut : bytes) (cmds : list (list bytes)) : Prop := {
  rest_served : served stream c;
  rest_expects : expects c fut cmds;
  rest_waits : waits c fut cmds;
  rest_trimmed : client_has_flag CLIENT_MASTER c = false → qb_pos c = 0
}.

Lemma read_append stream c bs fut cmds q p t :
  at_rest stream c (bs ++ fut) cmds → zlen (querybuf c) + zlen bs < 2 ^ 62 →
  let c' := c <| querybuf := querybuf c ++ bs |> <| querybuf_peak := p |> <| lastinteraction := t |> <| read_reploff := q |> in
  (client_has_flag CLIENT_MASTER c = true → q = read_reploff c + zlen bs) →
  served (stream ++ bs) c' ∧ expects c' fut cmds.
Proof.
  intros [Hsv Hex _ _] Hsz c' Hq. pose proof (expects_buf _ _ _ Hex) as Hbuf. pose proof Hbuf as [Hpos _].
  assert (unread c' = unread c ++ bs) as Hu by (unfold c', unread; cbn; rewrite drop_app_le by lia; done).
  assert (buf_ok c') as Hb by (unfold c', buf_ok; cbn; rewrite length_app; lia).
  assert (∀ args rest, cmd_state c args rest → cmd_state c' args rest) as Hcs.
  { intros args rest [[]|d todo Hs Hne [] Hav Hty]; [by apply cmd_first; split|].
    change (want c todo) with (want c' todo). by apply (cmd_inside c' args d todo); [| |split| |]. }
  split.
  - destruct Hsv as [Hr Ha Hd [H1 H2 H3 H4] Hdone]. split; [done|done|done| |exact Hdone].
    split; intros Hm; change (client_has_flag CLIENT_MASTER c = true) in Hm.
    + apply (H1 Hm).
    + unfold c'. cbn. rewrite (H2 Hm), (Hq Hm), length_app. lia.
    + rewrite <- (H3 Hm). unfold c'. cbn. specialize (H1 Hm). rewrite drop_app_le by lia. by rewrite <- app_assoc.
    + unfold c'. cbn. rewrite (Hq Hm), (H4 Hm), length_app. lia.
  - destruct Hex as [[] Hun|args l rest Hst Hun].
    + apply expects_end; [by split|]. by rewrite Hu, <- app_assoc.
    + apply (expects_cmd _ _ _ _ rest); [by apply Hcs|]. by rewrite Hu, <- app_assoc.
Qed.

Context (sdsalloc sdsavail : bytes → Z).

Lemma read_ok stream w c bs fut cmds :
  at_rest stream c (bs ++ fut) cmds → bs ≠ [] → fits c bs cmds → Forall (request_ok conf c) cmds → zlen (querybuf c) + zlen bs < 2 ^ 62 →
  ∃ c' d cmds', readQueryFromClient conf processCommand sdsalloc sdsavail (λ _, ReadBytes bs) w c = Some (foldl run w d, c', true) ∧
    cmds = d ++ cmds' ∧ at_rest (stream ++ bs) c' fut cmds' ∧ errors c' = errors c ∧ client_has_flag CLIENT_MASTER c' = client_has_flag CLIENT_MASTER c ∧
    zlen (querybuf c') ≤ zlen (querybuf c) + zlen bs.
Proof.
  intros Hrest Hne Hfit Hok Hsz. unfold readQueryFromClient, postponeClientRead. rewrite Hthreads. cbn [andb].
  destruct (read_plan c) as [big rl]. destruct bs as [|b bs]; [done|]. set (bs' := b :: bs) in *.
  set (c1 := c <| querybuf_peak := _ |>). cbn zeta. set (p := if decide (querybuf_peak (c1 <| querybuf := _ |>) < _) then _ else _).
  set (q := if client_has_flag CLIENT_MASTER _ then _ else _).
  set (c2 := c1 <| querybuf := _ |> <| querybuf_peak := p |> <| lastinteraction := _ |> <| read_reploff := q |>).
  destruct (read_append stream c bs' fut cmds q p (unixtime conf) Hrest Hsz) as [Hsv2 Hex2].
  { intros Hm. unfold q. change (client_has_flag CLIENT_MASTER _) with (client_has_flag CLIENT_MASTER c). by rewrite Hm. }
  change (c <| querybuf := querybuf c ++ bs' |> <| querybuf_peak := p |> <| lastinteraction := unixtime conf |> <| read_reploff := q |>)
    with c2 in Hsv2, Hex2.
  change (client_has_flag CLIENT_MASTER c2) with (client_has_flag CLIENT_MASTER c). change (querybuf c2) with (querybuf c ++ bs').
  rewrite decide_False.
  2:{ intros [Hm Hgt]. destruct Hfit as [?|[Hf0 Hf]]; [congruence|]. rewrite length_app in Hgt. destruct Hrest as [_ Hex Hw Ht].
      specialize (Ht Hm). assert (unread c = querybuf c) as Hu by (unfold unread; by rewrite Ht).
      destruct cmds as [|args t]; cbn [waits] in Hw; [rewrite <- Hu, Hw in Hgt; simpl in Hgt, Hf0; lia|].
      destruct Hw as (rest & Hst & _ & Hlt). apply cmd_rest_length in Hst. rewrite <- Hu in Hgt.
      apply Forall_cons in Hf as [Hf _]. lia. }
  unfold processInputBuffer.
  destruct (input_loop_ok (stream ++ bs') (S (length (querybuf c2))) w c2 cmds fut)
    as (c3 & d & cmds' & -> & Hd & Hsv3 & Hex3 & Hw3 & He3 & Hm3 & Hq3); try done.
  { unfold unread. rewrite length_drop. lia. }
  { eapply Forall_impl; [exact Hok|]. intros x. by apply cmd_ok_master. }
  bind_simpl. destruct (trim_state (stream ++ bs') c3 fut cmds' Hsv3 Hex3 Hw3) as (Hsv4 & Hex4 & Hw4 & Hq4 & Hu4).
  assert (errors (trim_querybuf c3) = errors c3 ∧ client_has_flag CLIENT_MASTER (trim_querybuf c3) = client_has_flag CLIENT_MASTER c3 ∧
    (client_has_flag CLIENT_MASTER c3 = false → qb_pos (trim_querybuf c3) = 0)) as (He4 & Hm4 & Hz4).
  { unfold trim_querybuf. destruct (client_has_flag CLIENT_MASTER c3) eqn:Hm; case_decide; split_and!; try done; intros _;
    by destruct (decide (qb_pos c3 = 0)). }
  eexists _, d, cmds'. split_and!; try done; [split; try done; intros; apply Hz4; congruence|by rewrite He4, He3|by rewrite Hm4, Hm3|].
  change (querybuf c2) with (querybuf c ++ bs') in Hq3. rewrite length_app in Hq3. lia.
Qed.

(** The reads of a connection, one for each part of the stream; the third component is false when the client is no longer valid. *)
Fixpoint reads (w : W) (c : client) (chunks : list bytes) : option (W * client * bool) :=
  match chunks with
  | [] => Some (w, c, true)
  | bs :: chunks =>
      '(w, c, valid) ← readQueryFromClient conf processCommand sdsalloc sdsavail (λ _, ReadBytes bs) w c;
      if (valid : bool) then reads w c chunks else Some (w, c, false)
  end.

Lemma reads_ok chunks : ∀ stream w c fut cmds,
  at_rest stream c (concat chunks ++ fut) cmds → Forall (λ bs, bs ≠ [] ∧ fits c bs cmds) chunks → Forall (request_ok conf c) cmds →
  zlen (querybuf c) + zlen (concat chunks) < 2 ^ 62 →
  ∃ c' d cmds', reads w c chunks = Some (foldl run w d, c', true) ∧ cmds = d ++ cmds' ∧ at_rest (stream ++ concat chunks) c' fut cmds' ∧
    errors c' = errors c ∧ client_has_flag CLIENT_MASTER c' = client_has_flag CLIENT_MASTER c.
Proof.
  induction chunks as [|bs chunks IH]; intros stream w c fut cmds Hrest Hch Hok Hsz; cbn [concat reads] in *.
  { exists c, [], cmds. by rewrite app_nil_r. }
  apply Forall_cons in Hch as [[Hne Hfit] Hch]. rewrite length_app in Hsz. rewrite <- app_assoc in Hrest.
  destruct (read_ok stream w c bs (concat chunks ++ fut) cmds) as (c1 & d & cmds1 & -> & -> & Hr1 & He1 & Hm1 & Hq1); try done; [lia|].
  bind_simpl. apply Forall_app in Hok as [_ Hok].
  destruct (IH (stream ++ bs) (foldl run w d) c1 fut cmds1) as (c' & d' & cmds' & -> & -> & Hr' & He' & Hm'); try done.
  - eapply Forall_impl; [exact Hch|]. cbn. intros x [Hx Hf]. split; [done|]. destruct Hf as [?|[? Hf]]; [left; congruence|right].
    split; [done|]. by apply Forall_app in Hf as [_ Hf].
  - eapply Forall_impl; [exact Hok|]. intros x. by apply cmd_ok_master.
  - lia.
  - exists c', (d ++ d'), cmds'. rewrite foldl_app, !app_assoc. split_and!; try done; congruence.
Qed.

End stream.

End offsets.

(** ** Theorems *)

(** A client whose connection is new. *)
Record connected (conf : server_conf) (c : client) : Prop := {
  connected_idle : idle c;
  connected_buf : querybuf c = [] ∧ qb_pos c = 0;
  connected_running : running c;
  connected_auth : authRequired conf c = false;
  connected_duration : duration c = 0;
  connected_repl : repl_applied c = 0 ∧ reploff c = read_reploff c ∧ fed c = []
}.

(** The commands [cmds] as a stream, as the append only file and the replication stream have them. *)
Fixpoint cat_commands (dst : bytes) (cmds : list (list bytes)) : option bytes :=
  match cmds with
  | [] => Some dst
  | args :: cmds => dst ← catAppendOnlyGenericCommand dst args; cat_commands dst cmds
  end.

Lemma cat_commands_enc conf c cmds : ∀ dst, Forall (request_ok conf c) cmds → cat_commands dst cmds = Some (dst ++ enc_all cmds).
Proof.
  induction cmds as [|args cmds IH]; intros dst Hok; [cbn; by rewrite app_nil_r|].
  apply Forall_cons in Hok as [[_ Hn Ha] Hok]. cbn [cat_commands]. rewrite catAppendOnlyGenericCommand_enc.
  - bind_simpl. rewrite IH by done. unfold enc_all. cbn [mbind list_bind]. by rewrite <- app_assoc.
  - eapply Forall_impl; [exact Ha|]. intros a [Hl _]. unfold LLONG_MAX in Hl. lia.
  - unfold INT_MAX, INT32_MAX in Hn. lia.
Qed.

Lemma connected_at_rest conf c stream cmds : connected conf c → stream = enc_all cmds → at_rest (reploff c) conf [] c stream cmds.
Proof.
  intros [Hi [Hq Hp] Hr Ha Hd (Hra & Hro & Hf)] ->.
  assert (unread c = []) as Hu by (unfold unread; by rewrite Hq, drop_nil).
  split; [split; try done| | |done].
  - split; intros _; rewrite ?Hra, ?Hp, ?Hq, ?Hf, ?Hro; simpl; try done; lia.
  - intros. by rewrite Hra, Hp.
  - destruct cmds as [|args cmds]; [apply expects_end; [done|by rewrite Hu]|].
    apply (expects_cmd _ _ args cmds (enc_cmd args)); [by apply cmd_first|by rewrite Hu].
  - destruct cmds as [|args cmds]; [done|]. exists (enc_cmd args). rewrite Hu. split_and!; [by apply cmd_first|done|simpl; lia].
Qed.

Section theorems.

Context {W : Type} (conf : server_conf) (processCommand : W → client → W * client * bool * bool) (run : W → list bytes → W).
Context `{!CommandRuns conf processCommand run} (sdsalloc sdsavail : bytes → Z).

Definition serves_directly : Prop :=
  io_threads_op conf = IO_THREADS_OP_IDLE ∧ yielding_command conf = false ∧ io_threads_reads conf = false.



End theorems.

(** ** Examples *)

Definition conf0 : server_conf := mk_conf (512 * 1024 * 1024) (1024 * 1024 * 1024) true false IO_THREADS_OP_IDLE false false 0.
Definition cmds0 : list (list bytes) := [[str "SET"; str "k"; [0; 13; 10; 255]]; [str "PING"]].
(** The two commands in three parts; the last byte is missing. *)
Definition chunks0 : list bytes :=
  [[42; 51; 13; 10; 36; 51; 13; 10; 83; 69]; [84; 13; 10; 36; 49; 13; 10; 107; 13; 10; 36; 52; 13; 10; 0; 13; 10; 255; 13; 10; 42; 49; 13];
   [10; 36; 52; 13; 10; 80; 73; 78; 71; 13]].

Lemma connected_new master : connected conf0 (if master : bool then add_flag CLIENT_MASTER (createClient conf0) else createClient conf0).
Proof. by destruct master; split; try done; split; try done; left. Qed.

Lemma cmds0_ok c : Forall (request_ok conf0 c) cmds0.
Proof.
  assert (∀ a : bytes, (length a <=? 1000)%nat = true → arg_ok conf0 c a) as Ha.
  { intros a Hl. apply Nat.leb_le in Hl. unfold arg_ok, LLONG_MAX, conf0, proto_max_bulk_len. lia. }
  repeat constructor; try done; unfold INT_MAX, INT32_MAX; simpl; try lia; by apply Ha.
Qed.


