(* ===== verification/RespSafe.v ===== *)
(** * networking.c: reading requests from arbitrary bytes

Whatever a client that is not a master sends, the parsers stay inside the query buffer and inside the array of arguments, no assertion
fails, the loops end, and the state stays well-formed. *)

From S2P Require Import Prelude Util Sds Update Resp RespOk RespRun.

Local Open Scope Z_scope.

Section safety.

Context (conf : server_conf).
Context (Hmax : proto_max_bulk_len conf ≤ LLONG_MAX - 2).

(** The state of the parser of multi bulk requests. *)
Record parse_inv (c : client) : Prop := {
  pi_buf : buf_ok c;
  pi_master : client_has_flag CLIENT_MASTER c = false;
  pi_bulk : -1 ≤ bulklen c ≤ Z.max (-1) (proto_max_bulk_len conf);
  pi_count : 0 ≤ multibulklen c;
  pi_max : 0 < multibulklen c → argc c + multibulklen c ≤ INT_MAX;
  pi_argv : 0 < multibulklen c → 0 < argv_len c ∧ argc c ≤ argv_len c
}.

(** What parsing may change: the buffer, the arguments, and on an error the flags. *)
Record advances (n : Z) (c c' : client) : Prop := {
  pr_inv : parse_inv c';
  pr_len : zlen (unread c') + n ≤ zlen (unread c);
  pr_qb : zlen (querybuf c') ≤ zlen (querybuf c);
  pr_same : reqtype c' = reqtype c ∧ duration c' = duration c;
  pr_flags : flags c ⊆ flags c'
}.

Lemma flags_mono c c' f : flags c ⊆ flags c' → client_has_flag f c = true → client_has_flag f c' = true.
Proof. unfold client_has_flag. rewrite !bool_decide_eq_true. set_solver. Qed.

Lemma advances_refl c : parse_inv c → advances 0 c c.
Proof. intros H. by split; [done|lia|lia| |]. Qed.

Lemma advances_trans n m c1 c2 c3 : advances n c1 c2 → advances m c2 c3 → advances (n + m) c1 c3.
Proof. intros [H1 H2 H3 [H4 H4'] H5] [G1 G2 G3 [G4 G4'] G5]. split; [done|lia|lia|split; congruence|set_solver]. Qed.

Lemma advances_weaken n m c c' : m ≤ n → advances n c c' → advances m c c'.
Proof. intros Hle [H1 H2 H3 H4 H5]. by split; [done|lia|lia| |]. Qed.

(** A protocol error. *)
Lemma protocol_error_advances c err : parse_inv c →
  advances 0 c (setProtocolError (c <| errors := err |>)) ∧ client_has_flag CLIENT_CLOSE_AFTER_REPLY (setProtocolError (c <| errors := err |>)) = true.
Proof.
  intros [Hb Hm Hbl Hc Hx Ha]. set (c' := setProtocolError _).
  assert (flags c' = {[CLIENT_CLOSE_AFTER_REPLY]} ∪ ({[CLIENT_PROTOCOL_ERROR]} ∪ flags c)) as Hf by done.
  split; [|unfold client_has_flag; rewrite Hf; apply bool_decide_eq_true; set_solver].
  split; [split; try done| | |done|rewrite Hf; set_solver].
  - unfold client_has_flag in *. rewrite Hf. apply bool_decide_eq_false in Hm. apply bool_decide_eq_false. set_solver.
  - change (unread c') with (unread c). lia.
  - change (querybuf c') with (querybuf c). lia.
Qed.

(** A line with a count after the byte at the position. *)
Lemma read_count_safe c b newline : buf_ok c → strchr (unread c) 13 = Some newline → no_linefeed c newline = false →
  mem_get (querybuf c) (qb_pos c) = Some b → b ≠ 13 →
  1 ≤ newline ∧ newline + 2 ≤ zlen (unread c) ∧ ∃ r, read_count c newline = Some r ∧ ∀ n, r = Some n → in_srange 64 n.
Proof.
  intros Hb Hs Hn Hg Hne. apply strchr_Some in Hs as (Hlt & Hat & _).
  rewrite no_linefeed_ok in Hn by (done || lia). apply bool_decide_eq_false in Hn.
  rewrite <- (Z.add_0_r (qb_pos c)), unread_get in Hg by (done || lia).
  assert (newline ≠ 0) by (intros ->; congruence). split_and!; [lia|lia|].
  unfold read_count. rewrite unread_read by (done || lia). unfold mem_read, in_block. rewrite decide_True by lia.
  eexists. split; [done|]. intros n Hsl. by apply string2ll_ok in Hsl as [? _].
Qed.

Lemma get_safe c : buf_ok c → 0 < zlen (unread c) → ∃ b, mem_get (querybuf c) (qb_pos c) = Some b ∧ unread c !! 0%nat = Some b.
Proof.
  intros Hb Hl. rewrite <- (Z.add_0_r (qb_pos c)), unread_get by (done || lia). change (Z.to_nat 0) with 0%nat.
  destruct (unread c) as [|b u]; [simpl in Hl; lia|]. by exists b.
Qed.

(** Moving the position. *)
Lemma unread_advance c n : buf_ok c → 0 ≤ n ≤ zlen (unread c) → buf_ok (c <| qb_pos := qb_pos c + n |>) ∧
  zlen (unread (c <| qb_pos := qb_pos c + n |>)) = zlen (unread c) - n.
Proof.
  intros Hb Hn. pose proof (unread_length c Hb) as Hl. assert (buf_ok (c <| qb_pos := qb_pos c + n |>)) as Hb'.
  { destruct Hb. unfold buf_ok. cbn. lia. }
  split; [done|]. rewrite (unread_length _ Hb'), Hl. cbn. lia.
Qed.

Lemma read_bulk_len_safe c : parse_inv c → 0 < multibulklen c → bulklen c = -1 →
  ∃ c' next, read_bulk_len conf c = Some (c', next) ∧ advances 0 c c' ∧ multibulklen c' = multibulklen c ∧ argv c' = argv c ∧
    match next with
    | MB_go => 0 ≤ bulklen c'
    | MB_break => c' = c
    | MB_return => client_has_flag CLIENT_CLOSE_AFTER_REPLY c' = true
    end.
Proof.
  intros Hi Hm Hbl. pose proof Hi as [Hb Hma _ Hc Hx Ha]. unfold read_bulk_len, protocol_error, addReplyError.
  assert (∀ err, ∃ c' next, Some (setProtocolError (c <| errors := err |>), MB_return) = Some (c', next) ∧ advances 0 c c' ∧
    multibulklen c' = multibulklen c ∧ argv c' = argv c ∧ match next with MB_go => 0 ≤ bulklen c' | MB_break => c' = c
    | MB_return => client_has_flag CLIENT_CLOSE_AFTER_REPLY c' = true end) as Herr.
  { intros err. destruct (protocol_error_advances c err Hi) as [Hp Hf]. eexists _, _. split; [done|]. done. }
  assert (∃ c' next, Some (c, MB_break) = Some (c', next) ∧ advances 0 c c' ∧
    multibulklen c' = multibulklen c ∧ argv c' = argv c ∧ match next with MB_go => 0 ≤ bulklen c' | MB_break => c' = c
    | MB_return => client_has_flag CLIENT_CLOSE_AFTER_REPLY c' = true end) as Hbreak.
  { eexists _, _. split; [done|]. split_and!; try done. by apply advances_refl. }
  destruct (strchr (unread c) 13) as [nl|] eqn:Hs; [|case_decide; [apply Herr|apply Hbreak]].
  destruct (no_linefeed c nl) eqn:Hn; [apply Hbreak|].
  destruct (get_safe c Hb) as (b & Hg & Hu0); [apply strchr_Some in Hs as [? _]; lia|]. rewrite Hg. bind_simpl.
  case_decide as Hd; [apply Herr|]. assert (b = 36) as -> by (destruct (decide (b = 36)); [done|tauto]).
  destruct (read_count_safe c 36 nl Hb Hs Hn Hg) as (H1 & H2 & r & -> & Hr); [done|]. bind_simpl.
  destruct r as [ll|]; [|apply Herr]. case_decide as Hll; [apply Herr|]. case_decide; [apply Herr|].
  specialize (Hr ll eq_refl). assert (0 ≤ ll ≤ proto_max_bulk_len conf) as Hrange.
  { split; [destruct (decide (ll < 0)); [tauto|lia]|]. destruct (decide (ll > proto_max_bulk_len conf)); [exfalso; tauto|lia]. }
  destruct (unread_advance c (nl + 2) Hb) as [Hb1 Hl1]; [lia|]. rewrite <- Z.add_assoc.
  set (c1 := c <| qb_pos := qb_pos c + (nl + 2) |>) in *. pose proof (unread_length c1 Hb1) as Hlq. pose proof Hb1 as [? ?].
  case_decide as Hbig.
  - rewrite (sdsrange_drop (querybuf c1) (qb_pos c1)) by lia. fold (unread c1).
    set (c2 := c1 <| querybuf := unread c1 |> <| qb_pos := 0 |>).
    assert (∃ p, (if decide (querybuf_peak c2 < u64 (ll + 2)) then c2 <| querybuf_peak := u64 (ll + 2) |> else c2) = c2 <| querybuf_peak := p |>) as [p ->].
    { case_decide; [by eexists|]. by exists (querybuf_peak c2). }
    eexists _, _. split; [done|]. split_and!; [|done|done|cbn; lia].
    assert (zlen (unread c1) ≤ zlen (querybuf c1)) by lia.
    split; [split; [unfold buf_ok; cbn; lia|done|cbn; lia|done|done|done]| | |done|done].
    + change (zlen (unread c1) + 0 ≤ zlen (unread c)). lia.
    + change (zlen (unread c1) ≤ zlen (querybuf c1)). lia.
  - eexists _, _. split; [done|]. split_and!; [|done|done|cbn; lia].
    split; [split; [done|done|cbn; lia|done|done|done]| | |done|done].
    + change (unread (c1 <| bulklen := ll |>)) with (unread c1). lia.
    + change (querybuf (c1 <| bulklen := ll |>)) with (querybuf c). lia.
Qed.

Lemma read_bulk_safe c : parse_inv c → 0 < multibulklen c → 0 ≤ bulklen c →
  ∃ c' next, read_bulk c = Some (c', next) ∧
    match next with
    | MB_go => advances 2 c c' ∧ multibulklen c' = multibulklen c - 1 ∧ bulklen c' = -1 ∧ argc c' = argc c + 1
    | MB_break => c' = c
    | MB_return => False
    end.
Proof.
  intros Hi Hm Hbl. pose proof Hi as [Hb Hma Hbr Hc Hx Ha]. unfold read_bulk. rewrite decide_False by lia.
  rewrite qb_left_ok by done. case_decide as Hq; [by eexists _, _|].
  destruct (grow_argv_ok c) as (n & -> & Hn); [lia|lia|by apply Ha|]. bind_simpl.
  pose proof (unread_length c Hb) as Hul. pose proof Hb as [Hpos Hsz]. unfold argc in *.
  change (client_has_flag CLIENT_MASTER (c <| argv_len := n |>)) with (client_has_flag CLIENT_MASTER c).
  cbn [assign_to assign_argv_len qb_pos bulklen querybuf argv argv_len multibulklen]. case_decide as Hbig.
  - unfold push_arg, argc. cbn [argv assign_to assign_argv_len argv_len]. rewrite decide_True by done. bind_simpl.
    eexists _, _. split; [done|]. cbn. split_and!; try done; [|rewrite length_app; simpl; lia].
    split; [split; cbn; [unfold buf_ok; cbn; lia|done|lia|lia|unfold argc; cbn; rewrite length_app; simpl; lia|unfold argc; cbn; rewrite length_app; simpl; lia]| | |done|done].
    + unfold unread at 1. cbn. rewrite drop_nil. simpl. lia.
    + cbn. lia.
  - unfold mem_read, in_block. rewrite decide_True by lia. bind_simpl.
    unfold push_arg, argc. cbn [argv assign_to assign_argv_len argv_len]. rewrite decide_True by done. bind_simpl.
    eexists _, _. split; [done|]. cbn. split_and!; try done; [|rewrite length_app; simpl; lia].
    destruct (unread_advance c (bulklen c + 2) Hb) as [Hb1 Hl1]; [lia|].
    split; [split; cbn; [done|done|lia|lia|unfold argc; cbn; rewrite length_app; simpl; lia|unfold argc; cbn; rewrite length_app; simpl; lia]| | |done|done].
    + change (zlen (unread (c <| qb_pos := qb_pos c + (bulklen c + 2) |>)) + 2 ≤ zlen (unread c)). lia.
    + cbn. lia.
Qed.

Lemma mbulk_step_safe c : parse_inv c → 0 < multibulklen c →
  ∃ c' next, mbulk_step conf c = Some (c', next) ∧
    match next with
    | MB_go => advances 2 c c' ∧ multibulklen c' = multibulklen c - 1 ∧ bulklen c' = -1
    | MB_break | MB_return => advances 0 c c' ∧ multibulklen c' = multibulklen c
    end.
Proof.
  intros Hi Hm. unfold mbulk_step. case_decide as Hbl.
  - destruct (read_bulk_len_safe c Hi Hm Hbl) as (c1 & next & -> & Hp & Hm1 & Ha1 & Hn). bind_simpl. destruct next.
    + destruct (read_bulk_safe c1) as (c2 & next & -> & Hn2); [apply Hp|lia|done|]. eexists _, _. split; [done|]. destruct next; [|subst; split; [done|lia]|done].
      destruct Hn2 as (Hp2 & ? & ? & ?). split_and!; [|lia|done]. by apply (advances_trans 0 2 c c1 c2).
    + subst. eexists _, _. split; [done|]. done.
    + eexists _, _. split; [done|]. done.
  - bind_simpl. pose proof (pi_bulk _ Hi). destruct (read_bulk_safe c Hi Hm) as (c2 & next & -> & Hn2); [lia|].
    eexists _, _. split; [done|]. destruct next; [tauto|subst; split; [by apply advances_refl|lia]|done].
Qed.

(** The loop ends: it reads all arguments, or stops for more bytes or on an error. *)
Lemma mbulk_loop_safe fuel : ∀ c, (length (unread c) < fuel)%nat → parse_inv c → (multibulklen c = 0 → bulklen c = -1) →
  ∃ c' r, mbulk_loop conf fuel c = Some (c', r) ∧ advances 0 c c' ∧
    match r with
    | C_OK => multibulklen c' = 0 ∧ bulklen c' = -1 ∧ (0 < multibulklen c → advances 1 c c')
    | C_ERR => 0 < multibulklen c'
    end.
Proof.
  induction fuel as [|fuel IH]; intros c Hf Hi H0; [lia|]. cbn [mbulk_loop]. pose proof (pi_count _ Hi).
  case_decide as Hm; [eexists _, C_OK; split; [done|]; split; [by apply advances_refl|]; split_and!; [done|auto|lia]|].
  destruct (mbulk_step_safe c Hi) as (c1 & next & -> & Hn); [lia|]. bind_simpl. destruct next.
  - destruct Hn as (Hp & Hm1 & Hb1). pose proof (pr_len _ _ _ Hp).
    destruct (IH c1) as (c' & r & -> & Hp' & Hr); [lia|apply Hp|done|]. eexists _, r. split; [done|].
    pose proof (advances_trans _ _ _ _ _ Hp Hp') as Hpp. split; [by eapply advances_weaken; [|done]; lia|].
    destruct r; [|done]. destruct Hr as (? & ? & _). split_and!; try done. intros _. by eapply advances_weaken; [|done]; lia.
  - destruct Hn as [Hp Hm1]. rewrite decide_False by lia. eexists _, C_ERR. split; [done|]. split; [done|]. lia.
  - destruct Hn as [Hp Hm1]. eexists _, C_ERR. split; [done|]. split; [done|]. lia.
Qed.

(** The states in which the parsers are called. *)
Record conn_inv (c : client) : Prop := {
  ci_parse : parse_inv c;
  ci_duration : duration c = 0;
  ci_type : reqtype c = 0 ∨ reqtype c = PROTO_REQ_INLINE ∨ reqtype c = PROTO_REQ_MULTIBULK;
  ci_inside : 0 < multibulklen c → reqtype c = PROTO_REQ_MULTIBULK;
  ci_outside : multibulklen c = 0 → bulklen c = -1
}.

(** Between two reads: a client that is not blocked has no arguments outside a command, and what is left of a multi bulk request starts with its mark. *)
Definition rest_inv (c : client) : Prop :=
  conn_inv c ∧
  (client_has_flag CLIENT_BLOCKED c = true ∨ client_has_flag CLIENT_PENDING_COMMAND c = true ∨ client_has_flag CLIENT_CLOSE_AFTER_REPLY c = true ∨
   (multibulklen c = 0 → argv c = [] ∧ (reqtype c = PROTO_REQ_MULTIBULK → head (unread c) = Some 42 ))).

Lemma read_mbulk_count_safe c : conn_inv c → multibulklen c = 0 → argv c = [] → head (unread c) = Some 42 →
  ∃ c' r, read_mbulk_count conf c = Some (c', r) ∧ argv c' = [] ∧ bulklen c' = -1 ∧
    match r with
    | Some C_OK => advances 1 c c' ∧ multibulklen c' = 0
    | Some C_ERR => advances 0 c c' ∧ (client_has_flag CLIENT_CLOSE_AFTER_REPLY c' = true ∨ c' = c)
    | None => advances 1 c c' ∧ 0 < multibulklen c'
    end.
Proof.
  intros [Hi Hd Ht _ H0] Hm Hav Hh. pose proof Hi as [Hb Hma Hbr Hc Hx Ha]. pose proof (H0 Hm) as Hbl.
  unfold read_mbulk_count, protocol_error, addReplyError. rewrite decide_False by (unfold argc; rewrite Hav; simpl; lia).
  assert (∀ err, ∃ c' r, Some (setProtocolError (c <| errors := err |>), Some C_ERR) = Some (c', r) ∧ argv c' = [] ∧ bulklen c' = -1 ∧
    match r with Some C_OK => advances 1 c c' ∧ multibulklen c' = 0
    | Some C_ERR => advances 0 c c' ∧ (client_has_flag CLIENT_CLOSE_AFTER_REPLY c' = true ∨ c' = c)
    | None => advances 1 c c' ∧ 0 < multibulklen c' end) as Herr.
  { intros err. destruct (protocol_error_advances c err Hi) as [Hp Hf]. eexists _, _. split; [done|]. split_and!; try done. by left. }
  assert (∃ c' r, Some (c, Some C_ERR) = Some (c', r) ∧ argv c' = [] ∧ bulklen c' = -1 ∧
    match r with Some C_OK => advances 1 c c' ∧ multibulklen c' = 0
    | Some C_ERR => advances 0 c c' ∧ (client_has_flag CLIENT_CLOSE_AFTER_REPLY c' = true ∨ c' = c)
    | None => advances 1 c c' ∧ 0 < multibulklen c' end) as Hwait.
  { eexists _, _. split; [done|]. split_and!; try done; [by apply advances_refl|by right]. }
  destruct (strchr (unread c) 13) as [nl|] eqn:Hs; [|case_decide; [apply Herr|apply Hwait]].
  destruct (no_linefeed c nl) eqn:Hn; [apply Hwait|].
  destruct (get_safe c Hb) as (b & Hg & Hu0); [apply strchr_Some in Hs as [? _]; lia|]. rewrite Hg. bind_simpl.
  assert (b = 42) as -> by (rewrite head_lookup in Hh; congruence). rewrite decide_False by tauto.
  destruct (read_count_safe c 42 nl Hb Hs Hn Hg) as (H1 & H2 & r & -> & Hr); [done|]. bind_simpl.
  destruct r as [ll|]; [|apply Herr]. case_decide; [apply Herr|]. case_decide; [apply Herr|].
  destruct (unread_advance c (nl + 2) Hb) as [Hb1 Hl1]; [lia|]. rewrite <- Z.add_assoc.
  set (c1 := c <| qb_pos := qb_pos c + (nl + 2) |>) in *.
  case_decide as Hll.
  - eexists _, _. split; [done|]. split_and!; try done.
    split; [by split|lia|unfold c1; cbn; lia|done|done].
  - eexists _, _. split; [done|]. split_and!; try done; [|cbn; lia].
    split; [split; unfold argc; cbn; rewrite ?Hav; try done; unfold INT_MAX, INT32_MAX in *; simpl; lia| | |done|done].
    + change (zlen (unread c1) + 1 ≤ zlen (unread c)). lia.
    + unfold c1. cbn. lia.
Qed.

Lemma processMultibulkBuffer_safe c : conn_inv c → reqtype c = PROTO_REQ_MULTIBULK →
  (multibulklen c = 0 → argv c = [] ∧ head (unread c) = Some 42) →
  ∃ c' r, processMultibulkBuffer conf c = Some (c', r) ∧ conn_inv c' ∧
    match r with
    | C_OK => advances 1 c c' ∧ multibulklen c' = 0
    | C_ERR => advances 0 c c' ∧ (client_has_flag CLIENT_CLOSE_AFTER_REPLY c' = true ∨ c' = c ∨ 0 < multibulklen c')
    end.
Proof.
  intros Hi Ht H0. pose proof Hi as [Hp Hd Hty Hin Hout]. pose proof (pi_count _ Hp).
  assert (∀ n c', advances n c c' → bulklen c' = -1 ∨ 0 < multibulklen c' → conn_inv c') as Hconn.
  { intros n c' [Hi' _ _ [Hrt Hdu] _] Hor. split; [done|congruence|right; right; congruence|congruence|]. intros Hm. destruct Hor; [done|lia]. }
  assert (∀ n c1, 0 ≤ n → advances n c c1 → 0 < multibulklen c1 → (n = 0 → c1 = c) →
    ∃ c' r, (if decide (multibulklen c1 > 0) then mbulk_loop conf (S (length (querybuf c1))) c1 else None) = Some (c', r) ∧ conn_inv c' ∧
      match r with C_OK => advances 1 c c' ∧ multibulklen c' = 0
      | C_ERR => advances 0 c c' ∧ (client_has_flag CLIENT_CLOSE_AFTER_REPLY c' = true ∨ c' = c ∨ 0 < multibulklen c') end) as Hloop.
  { intros n c1 Hn Hp1 Hm1 Hsame. rewrite decide_True by lia.
    destruct (mbulk_loop_safe (S (length (querybuf c1))) c1) as (c2 & r & -> & Hp2 & Hr2).
    { unfold unread. rewrite length_drop. lia. } { apply Hp1. } { lia. }
    pose proof (advances_trans _ _ _ _ _ Hp1 Hp2) as Hpp. eexists _, r. split; [done|]. destruct r.
    - destruct Hr2 as (? & ? & Hone). split; [by eapply Hconn; [|left]|]. split; [|done].
      pose proof (advances_trans _ _ _ _ _ Hp1 (Hone Hm1)). by eapply advances_weaken; [|done]; lia.
    - split; [by eapply Hconn; [|right]|]. split; [by eapply advances_weaken; [|done]; lia|]. tauto. }
  unfold processMultibulkBuffer. case_decide as Hm.
  - destruct (H0 Hm) as [Hav Hh].
    destruct (read_mbulk_count_safe c Hi Hm Hav Hh) as (c1 & r1 & -> & Hav1 & Hb1 & Hr1). bind_simpl. destruct r1 as [[|]|].
    + eexists _, _. split; [done|]. destruct Hr1 as [Hp1 ?]. split; [by eapply Hconn; [|left]|done].
    + eexists _, _. split; [done|]. destruct Hr1 as [Hp1 Hor]. split; [by eapply Hconn; [|left]|]. split; [done|]. tauto.
    + apply (Hloop 1); [lia|tauto|tauto|lia].
  - bind_simpl. apply (Hloop 0); [lia|by apply advances_refl|lia|done].
Qed.

Lemma processInlineBuffer_safe c : conn_inv c → multibulklen c = 0 →
  ∃ c' r, processInlineBuffer conf c = Some (c', r) ∧ conn_inv c' ∧ multibulklen c' = 0 ∧
    match r with
    | C_OK => advances 1 c c'
    | C_ERR => advances 0 c c' ∧ (client_has_flag CLIENT_CLOSE_AFTER_REPLY c' = true ∨ c' = c)
    end.
Proof.
  intros Hi Hm. pose proof Hi as [Hp Hd Hty Hin Hout]. pose proof Hp as [Hb Hma Hbr Hc Hx Ha].
  unfold processInlineBuffer, protocol_error, addReplyError.
  assert (∀ err, ∃ c' r, Some (setProtocolError (c <| errors := err |>), C_ERR) = Some (c', r) ∧ conn_inv c' ∧ multibulklen c' = 0 ∧
    match r with C_OK => advances 1 c c' | C_ERR => advances 0 c c' ∧ (client_has_flag CLIENT_CLOSE_AFTER_REPLY c' = true ∨ c' = c) end) as Herr.
  { intros err. destruct (protocol_error_advances c err Hp) as [Hp' Hf]. eexists _, _. split; [done|]. split_and!; [|done|done|by left].
    by split; [apply Hp'|..]. }
  destruct (strchr (unread c) 10) as [nl|] eqn:Hs.
  2:{ case_decide; [apply Herr|]. eexists _, _. split; [done|]. split_and!; [done|done|by apply advances_refl|by right]. }
  apply strchr_Some in Hs as (Hlt & Hat & _). pose proof (unread_length c Hb) as Hul. pose proof Hb as [Hpos Hsz].
  assert (∃ cr, (if decide (nl ≠ 0) then mem_get (querybuf c) (qb_pos c + nl - 1) else Some 0) = Some cr) as [cr Hcr].
  { case_decide; [|eauto]. unfold mem_get. rewrite decide_True by lia. apply lookup_lt_is_Some. lia. }
  rewrite Hcr. bind_simpl.
  assert (∃ ql lf, (if decide (cr = 13) then (nl - 1, 2) else (nl, 1)) = (ql, lf) ∧ 0 ≤ ql ∧ 1 ≤ lf ∧ ql + lf = nl + 1) as (ql & lf & -> & Hql & Hlf & Hsum).
  { destruct (decide (cr = 13)) as [->|]; [|eexists _, _; split; [done|]; lia]. eexists _, _. split; [done|].
    destruct (decide (nl ≠ 0)); [lia|]. done. }
  unfold mem_read, in_block. rewrite (decide_True (P := 0 ≤ qb_pos c ∧ _ ∧ _)) by lia. bind_simpl.
  destruct (sdssplitargs_total (take (Z.to_nat ql) (drop (Z.to_nat (qb_pos c)) (querybuf c)))) as [[args|] ->]; bind_simpl; [|apply Herr].
  set (t := if decide (ql = 0 ∧ _) then _ else _).
  rewrite decide_False by (change (client_has_flag CLIENT_MASTER (c <| repl_ack_time := t |>)) with (client_has_flag CLIENT_MASTER c); rewrite Hma; intros [_ ?]; done).
  cbn [qb_pos assign_to assign_repl_ack_time]. rewrite <- Z.add_assoc.
  destruct (unread_advance c (ql + lf) Hb) as [Hb1 Hl1]; [lia|].
  eexists _, _. split; [done|]. split_and!; [|done|].
  - split; [split|..]; cbn; try done; lia.
  - split; [split; cbn; try done; lia| | |done|done].
    + change (zlen (unread (c <| qb_pos := qb_pos c + (ql + lf) |>)) + 1 ≤ zlen (unread c)). lia.
    + cbn. lia.
Qed.

(** ** The loop *)

(** What the loop needs of a command: the connection, and the state of the parser between two commands, are kept. *)
Class CommandSafe {W : Type} (processCommand : W → client → W * client * bool * bool) : Prop := {
  command_safe : ∀ w c, duration c = 0 → ∃ w' c' ok dead, processCommand w c = (w', c', ok, dead) ∧
    connection c' = connection c ∧ multibulklen c' = multibulklen c ∧ bulklen c' = bulklen c ∧ reqtype c' = reqtype c ∧ duration c' = 0 ∧
    (ok = true ∨ dead = true)
}.

Context {W : Type} (processCommand : W → client → W * client * bool * bool) `{!CommandSafe processCommand}.
Context (Hops : io_threads_op conf ≠ IO_THREADS_OP_WRITE).

Lemma conn_inv_fields c c' : querybuf c' = querybuf c → qb_pos c' = qb_pos c → client_has_flag CLIENT_MASTER c' = client_has_flag CLIENT_MASTER c →
  multibulklen c' = 0 → bulklen c' = -1 → duration c' = 0 → reqtype c' = 0 ∨ reqtype c' = reqtype c → conn_inv c → conn_inv c'.
Proof.
  intros Hq Hp Hma Hm Hb Hd Ht [[Hbuf Hm0 Hbr Hc Hx Ha] Hdu Hty Hin Hout]. split; [split|..]; try lia; try congruence.
  unfold buf_ok in *. by rewrite Hq, Hp.
Qed.

(** The state that [parse_request] starts from. *)
Lemma request_type_safe c : conn_inv c → qb_pos c < zlen (querybuf c) →
  (multibulklen c = 0 → argv c = [] ∧ (reqtype c = PROTO_REQ_MULTIBULK → head (unread c) = Some 42)) →
  ∃ c', request_type c = Some c' ∧ conn_inv c' ∧ querybuf c' = querybuf c ∧ qb_pos c' = qb_pos c ∧ flags c' = flags c ∧ reqtype c' ≠ 0 ∧
    (multibulklen c' = 0 → argv c' = [] ∧ (reqtype c' = PROTO_REQ_MULTIBULK → head (unread c') = Some 42)).
Proof.
  intros Hi Hpos H0. unfold request_type. case_decide as Ht; [|by exists c].
  pose proof Hi as [Hp Hd Hty Hin Hout]. pose proof Hp as [Hb Hma Hbr Hc Hx Ha]. pose proof (unread_length c Hb).
  assert (multibulklen c = 0) as Hm.
  { destruct (decide (0 < multibulklen c)) as [H1|]; [specialize (Hin H1); unfold PROTO_REQ_MULTIBULK in Hin; lia|lia]. }
  destruct (get_safe c Hb) as (b & -> & Hu0); [lia|]. bind_simpl. eexists. split; [done|]. split_and!; try done.
  - split; [by split|done| |intros; cbn in *; lia|done]. cbn. case_decide; tauto.
  - cbn. case_decide; done.
  - intros _. destruct (H0 Hm) as [Hav _]. split; [done|]. cbn. rewrite head_lookup.
    change (unread (c <| reqtype := _ |>)) with (unread c). case_decide; [by subst|done].
Qed.

Lemma parse_request_safe c : conn_inv c → reqtype c ≠ 0 →
  (multibulklen c = 0 → argv c = [] ∧ (reqtype c = PROTO_REQ_MULTIBULK → head (unread c) = Some 42)) →
  ∃ c' r, parse_request conf c = Some (c', r) ∧ conn_inv c' ∧
    match r with
    | C_OK => advances 1 c c' ∧ multibulklen c' = 0
    | C_ERR => advances 0 c c' ∧ rest_inv c'
    end.
Proof.
  intros Hi Ht H0. unfold parse_request. pose proof (pi_count _ (ci_parse _ Hi)).
  assert (rest_inv c) as Hrest by (split; [done|]; tauto).
  case_decide as Hin.
  - assert (multibulklen c = 0) as Hm.
    { destruct (decide (0 < multibulklen c)) as [H1|]; [|lia]. pose proof (ci_inside _ Hi H1). unfold PROTO_REQ_INLINE, PROTO_REQ_MULTIBULK in *. lia. }
    destruct (processInlineBuffer_safe c Hi Hm) as (c' & r & -> & Hi' & Hm' & Hr). eexists _, r. split; [done|]. split; [done|].
    destruct r; [done|]. destruct Hr as [Hp [Hcl| ->]]; [|done]. split; [done|]. split; [done|]. tauto.
  - assert (reqtype c = PROTO_REQ_MULTIBULK) as Hmb by (destruct (ci_type _ Hi) as [?|[?|?]]; [done|done|done]).
    rewrite decide_True by done. destruct (processMultibulkBuffer_safe c Hi Hmb) as (c' & r & -> & Hi' & Hr); [intros Hm; destruct (H0 Hm); auto|].
    eexists _, r. split; [done|]. split; [done|]. destruct r; [done|]. destruct Hr as [Hp [Hcl|[->|Hm]]]; [|done|]; (split; [done|]); (split; [done|]).
    + tauto.
    + do 3 right. lia.
Qed.

Lemma commandProcessed_safe c c0 : conn_inv c0 → multibulklen c0 = 0 → connection c = connection c0 → multibulklen c = multibulklen c0 →
  bulklen c = bulklen c0 → reqtype c = reqtype c0 → duration c = 0 →
  ∃ c', commandProcessed c = Some c' ∧ rest_inv c' ∧ querybuf c' = querybuf c0 ∧ qb_pos c' = qb_pos c0.
Proof.
  intros Hi Hm Hcon Hm1 Hb1 Ht1 Hd. assert (bulklen c0 = -1) as Hbl by by apply (ci_outside _ Hi).
  pose proof (pi_master _ (ci_parse _ Hi)) as Hma. unfold commandProcessed.
  unfold connection in Hcon. injection Hcon as Hq Hqp Hr1 Hr2 Hr3 Hf He Hma1.
  destruct (client_has_flag CLIENT_BLOCKED c) eqn:Hblk.
  - exists c. split_and!; try done. split; [|by left]. apply (conn_inv_fields c0); try done; try congruence. by right.
  - destruct (resetClient_ok c Hd) as (c1 & -> & Hcon & Hm2 & Hb2 & Hav & Hty & Hd1 & Hau & Hfl). bind_simpl.
    unfold connection in Hcon. injection Hcon as Hq' Hqp' _ _ _ _ _ Hma'. rewrite Hma', Hma1, Hma. cbn [andb].
    rewrite Hma', Hma1, Hma. exists c1. split_and!; try congruence. split.
    + apply (conn_inv_fields c0); try done; try congruence. by left.
    + do 3 right. intros _. split; [done|]. rewrite Hty. done.
Qed.

Lemma input_loop_safe fuel : ∀ w c, (length (unread c) < fuel)%nat → rest_inv c →
  ∃ w' c' v, input_loop conf processCommand fuel w c = Some (w', c', v) ∧ (v = true → rest_inv c' ∧ zlen (querybuf c') ≤ zlen (querybuf c)).
Proof.
  induction fuel as [|fuel IH]; intros w c Hf Hrest; [lia|]. cbn [input_loop].
  case_decide as Hpos; [|by eexists _, _, _].
  destruct (_ || _ || _ || _ || _) eqn:Hstop; [by eexists _, _, _|].
  apply orb_false_iff in Hstop as [Hstop Hs5]. apply orb_false_iff in Hstop as [Hstop Hs4]. apply orb_false_iff in Hstop as [Hstop _].
  apply orb_false_iff in Hstop as [Hs1 Hs2]. destruct Hrest as [Hi Hor].
  assert (multibulklen c = 0 → argv c = [] ∧ (reqtype c = PROTO_REQ_MULTIBULK → head (unread c) = Some 42)) as H0 by (destruct Hor as [?|[?|[?|?]]]; [congruence..|done]).
  destruct (request_type_safe c Hi Hpos H0) as (c1 & -> & Hi1 & Hq1 & Hqp1 & Hfl1 & Ht1 & H01). bind_simpl.
  assert (unread c1 = unread c) as Hu1 by (unfold unread; congruence).
  destruct (parse_request_safe c1 Hi1 Ht1 H01) as (c2 & r & -> & Hi2 & Hr). bind_simpl. destruct r.
  2:{ rewrite decide_True by done. eexists _, _, _. split; [done|]. intros _. destruct Hr as [Hp2 ?]. split; [done|].
      pose proof (pr_qb _ _ _ Hp2). rewrite <- Hq1. done. }
  rewrite decide_False by tauto. destruct Hr as [Hp2 Hm2]. pose proof (pr_len _ _ _ Hp2) as Hlen. pose proof (pr_qb _ _ _ Hp2) as Hql.
  rewrite Hu1 in Hlen. rewrite Hq1 in Hql.
  assert (∀ w0 c3, rest_inv c3 → querybuf c3 = querybuf c2 → qb_pos c3 = qb_pos c2 → ∃ w' c' v, input_loop conf processCommand fuel w0 c3 = Some (w', c', v) ∧
    (v = true → rest_inv c' ∧ zlen (querybuf c') ≤ zlen (querybuf c))) as Hnext.
  { intros w0 c3 Hr3 Hq3 Hqp3. assert (unread c3 = unread c2) as Hu3 by (unfold unread; congruence).
    destruct (IH w0 c3) as (w' & c' & v & -> & Hv); [rewrite Hu3; lia|done|]. eexists _, _, _. split; [done|]. intros Hvt. destruct (Hv Hvt).
    split; [done|]. rewrite Hq3 in *. lia. }
  case_decide as Hac.
  - destruct (resetClient_ok c2 (ci_duration _ Hi2)) as (c3 & -> & Hcon & Hm3 & Hb3 & Hav & Hty & Hd3 & _). bind_simpl.
    unfold connection in Hcon. injection Hcon as Hq' Hqp' _ _ _ _ _ Hma'. apply Hnext; try done. split.
    + apply (conn_inv_fields c2); try done. by left.
    + do 3 right. intros _. split; [done|]. rewrite Hty. done.
  - case_decide as Hio.
    + rewrite decide_True by (destruct (io_threads_op conf); done). eexists _, _, _. split; [done|]. intros _. split; [|cbn; lia]. split.
      * destruct Hi2 as [[Hb Hma Hbr Hc Hx Ha] Hd Hty Hin Hout]. split; [split; try done|done..].
        unfold client_has_flag in *. cbn. apply bool_decide_eq_false in Hma. apply bool_decide_eq_false. set_solver.
      * right; left. unfold client_has_flag. cbn. apply bool_decide_eq_true. set_solver.
    + unfold processCommandAndResetClient.
      destruct (command_safe w c2 (ci_duration _ Hi2)) as (w3 & c3 & ok & dead & -> & Hcon & Hm3 & Hb3 & Ht3 & Hd3 & Hok).
      destruct (commandProcessed_safe c3 c2) as (c4 & Hcp & Hr4 & Hq4 & Hqp4); try done.
      destruct ok; [rewrite Hcp|]; bind_simpl; (destruct dead; cbn [negb]; [by eexists _, _, _|]); [|by destruct Hok]. by apply Hnext.
Qed.

(** ** Reads *)

(** A change of the buffer that keeps what is unread, or adds to it. *)
Lemma rest_inv_buffer c c' suffix : rest_inv c → buf_ok c' → unread c' = unread c ++ suffix →
  multibulklen c' = multibulklen c → bulklen c' = bulklen c → argv c' = argv c → argv_len c' = argv_len c → reqtype c' = reqtype c →
  duration c' = duration c → flags c ⊆ flags c' → client_has_flag CLIENT_MASTER c' = client_has_flag CLIENT_MASTER c → rest_inv c'.
Proof.
  intros [[[Hb Hma Hbr Hc Hx Ha] Hd Hty Hin Hout] Hor] Hb' Hu Hm1 Hb1 Ha1 Hal1 Ht1 Hd1 Hfl Hma1. split.
  - split; [split; [done|congruence|lia|lia| |]|congruence|..]; unfold argc in *; rewrite ?Hm1, ?Ha1, ?Hal1, ?Hb1, ?Ht1; done.
  - destruct Hor as [H|[H|[H|H]]]; [left|right; left|do 2 right; left|do 3 right]; try (by apply (flags_mono _ _ _ Hfl) in H).
    rewrite Hm1, Ha1, Ht1. intros Hm0. destruct (H Hm0) as [? Hh]. split; [done|]. intros Hmb. specialize (Hh Hmb). rewrite Hu.
    by destruct (unread c).
Qed.

Lemma trim_safe c : rest_inv c → rest_inv (trim_querybuf c) ∧ zlen (querybuf (trim_querybuf c)) ≤ zlen (querybuf c).
Proof.
  intros Hrest. pose proof (ci_parse _ (proj1 Hrest)) as [Hb Hma _ _ _ _]. pose proof Hb as [? ?].
  unfold trim_querybuf. rewrite Hma. case_decide; [|split; [done|lia]].
  assert (unread c = sdsrange (querybuf c) (qb_pos c) (-1)) as Hu by (by rewrite sdsrange_drop by lia).
  assert (zlen (sdsrange (querybuf c) (qb_pos c) (-1)) ≤ zlen (querybuf c)) by (rewrite <- Hu; unfold unread; rewrite length_drop; lia).
  split; [|cbn; lia]. apply (rest_inv_buffer c _ []); try done; [unfold buf_ok; cbn; lia|].
  rewrite app_nil_r, Hu. done.
Qed.

Lemma freeClientAsync_safe c : rest_inv c → rest_inv (freeClientAsync c).
Proof.
  intros Hrest. unfold freeClientAsync. destruct (_ || _); [done|]. apply (rest_inv_buffer c _ []); try done.
  - apply (proj1 Hrest).
  - by rewrite app_nil_r.
  - cbn. set_solver.
  - unfold client_has_flag. cbn. apply bool_decide_ext. set_solver.
Qed.

Context (sdsalloc sdsavail : bytes → Z).

Lemma read_safe w c bs : rest_inv c → zlen (querybuf c) + zlen bs < 2 ^ 62 →
  ∃ w' c' v, readQueryFromClient conf processCommand sdsalloc sdsavail (λ _, ReadBytes bs) w c = Some (w', c', v) ∧
    (v = true → rest_inv c' ∧ zlen (querybuf c') ≤ zlen (querybuf c) + zlen bs).
Proof.
  intros Hrest Hsz. unfold readQueryFromClient. destruct (postponeClientRead conf c).
  { eexists _, _, _. split; [done|]. intros _. split; [done|lia]. }
  destruct (read_plan c) as [big rl]. set (c1 := c <| querybuf_peak := _ |>). cbn zeta.
  assert (rest_inv c1) as Hrest1 by (by apply (rest_inv_buffer c _ []); try done; [apply (proj1 Hrest)|rewrite app_nil_r]).
  destruct bs as [|b bs].
  { eexists _, _, _. split; [done|]. intros _. split; [by apply freeClientAsync_safe|]. unfold freeClientAsync. destruct (_ || _); cbn; lia. }
  set (bs' := b :: bs) in *. set (c2 := c1 <| querybuf := _ |> <| querybuf_peak := _ |> <| lastinteraction := _ |> <| read_reploff := _ |>).
  pose proof (ci_parse _ (proj1 Hrest)) as [Hb _ _ _ _ _]. pose proof Hb as [? ?].
  assert (zlen (querybuf c2) = zlen (querybuf c) + zlen bs') as Hl2 by (unfold c2, c1; cbn; rewrite length_app; cbn; lia).
  assert (rest_inv c2) as Hrest2.
  { apply (rest_inv_buffer c _ bs'); try done; [|unfold c2, c1, unread; cbn; by rewrite drop_app_le by lia].
    unfold buf_ok. rewrite Hl2. unfold c2, c1. cbn [qb_pos assign_to assign_querybuf assign_querybuf_peak assign_lastinteraction assign_read_reploff]. lia. }
  case_decide.
  { eexists _, _, _. split; [done|]. intros _. split; [by apply freeClientAsync_safe|]. unfold freeClientAsync. rewrite <- Hl2. destruct (_ || _); cbn; lia. }
  unfold processInputBuffer. destruct (input_loop_safe (S (length (querybuf c2))) w c2) as (w' & c' & v & -> & Hv); [unfold unread; rewrite length_drop; lia|done|].
  bind_simpl. destruct v; [|by eexists _, _, _]. eexists _, _, _. split; [done|]. intros _. destruct (Hv eq_refl) as [Hr' Hq'].
  destruct (trim_safe c' Hr'). split; [done|]. lia.
Qed.

Lemma reads_safe chunks : ∀ w c, rest_inv c → zlen (querybuf c) + zlen (concat chunks) < 2 ^ 62 →
  ∃ w' c' v, reads conf processCommand sdsalloc sdsavail w c chunks = Some (w', c', v) ∧ (v = true → rest_inv c').
Proof.
  induction chunks as [|bs chunks IH]; intros w c Hrest Hsz; cbn [reads concat] in *; [by eexists _, _, _|].
  rewrite length_app in Hsz. destruct (read_safe w c bs Hrest) as (w1 & c1 & v & -> & Hv); [lia|]. bind_simpl.
  destruct v; [|by eexists _, _, _]. destruct (Hv eq_refl) as [Hr1 Hq1]. apply IH; [done|lia].
Qed.

Lemma trim_flags c : flags (trim_querybuf c) = flags c.
Proof. unfold trim_querybuf. destruct (client_has_flag CLIENT_MASTER c); case_decide; done. Qed.

(** Once a client is to be closed no command of it is executed. *)
Lemma closed_read w c bs : client_has_flag CLIENT_CLOSE_AFTER_REPLY c = true →
  ∃ c', readQueryFromClient conf processCommand sdsalloc sdsavail (λ _, ReadBytes bs) w c = Some (w, c', true) ∧
    client_has_flag CLIENT_CLOSE_AFTER_REPLY c' = true.
Proof.
  intros Hcl.
  assert (∀ c, client_has_flag CLIENT_CLOSE_AFTER_REPLY c = true → client_has_flag CLIENT_CLOSE_AFTER_REPLY (freeClientAsync c) = true) as Hfree.
  { intros c0 H. apply (flags_mono c0); [|done]. unfold freeClientAsync. destruct (_ || _); cbn; set_solver. }
  unfold readQueryFromClient. destruct (postponeClientRead conf c); [by eexists|].
  destruct (read_plan c) as [big rl]. set (c1 := c <| querybuf_peak := _ |>). cbn zeta.
  destruct bs as [|b bs]; [eexists; split; [done|]; by apply Hfree|].
  set (c2 := c1 <| querybuf := _ |> <| querybuf_peak := _ |> <| lastinteraction := _ |> <| read_reploff := _ |>).
  assert (client_has_flag CLIENT_CLOSE_AFTER_REPLY c2 = true) as Hcl2 by done.
  case_decide; [eexists; split; [done|]; by apply Hfree|].
  unfold processInputBuffer. cbn [input_loop]. rewrite Hcl2, !orb_true_r. cbn [orb].
  assert (client_has_flag CLIENT_CLOSE_AFTER_REPLY (trim_querybuf c2) = true) by (unfold client_has_flag; by rewrite trim_flags).
  generalize dependent c2. intros c2 _ _ Hcl2. case_decide; bind_simpl; by eexists.
Qed.

Lemma closed_reads chunks : ∀ w c, client_has_flag CLIENT_CLOSE_AFTER_REPLY c = true →
  ∃ c', reads conf processCommand sdsalloc sdsavail w c chunks = Some (w, c', true).
Proof.
  induction chunks as [|bs chunks IH]; intros w c Hcl; cbn [reads]; [by eexists|].
  destruct (closed_read w c bs Hcl) as (c1 & -> & Hcl1). bind_simpl. by apply IH.
Qed.

(** ** Theorem *)


End safety.

#[global] Instance log_command_safe : CommandSafe log_command.
Proof. split. intros w c Hd. eexists _, c, true, false. split; [done|]. split_and!; try done. by left. Qed.


(** A master may announce an argument whose length overflows when 2 is added. *)
Lemma master_bulk_overflow :
  let c := add_flag CLIENT_MASTER (createClient conf0) in
  let r := reads conf0 log_command (λ _, 0) (λ _, 0) [] c in
  is_Some (r [str "*1"; crlf; str "$9223372036854775806"]) ∧ r [str "*1"; crlf; str "$9223372036854775806"; crlf] = None.
Proof. split; [vm_compute; by eexists|vm_compute; reflexivity]. Qed.
