(* ===== verification/Multi.v ===== *)
(** * multi.c: transactions and watched keys

A client queues commands between MULTI and EXEC; EXEC runs them all, or none when a key that the client watches was
touched since WATCH.  A watched key is a structure that is linked twice: in the list of its client and in the list of the
clients that watch the key, which is the value of the key in the table watched_keys of the database.  The table of all databases is one
map from databases and keys to these lists; the structures are a heap, and the lists have their addresses, so that the use of a
structure after it is freed is [None]. *)

From S2P Require Import Prelude Util Sds Update Resp.

Local Open Scope Z_scope.

(** ** State *)

Record watchedKey := mk_wk {
  wk_key : bytes; (** the key *)
  wk_db : Z; (** its database *)
  wk_client : Z; (** the client that watches it *)
  wk_expired : bool (** the key was expired already when it was watched *)
}.

Definition watchedKey_expand (wk : watchedKey) : watchedKey :=
  mk_wk (wk_key wk) (wk_db wk) (wk_client wk) (wk_expired wk).

#[global] Instance assign_wk_key : Assign wk_key := ltac:(assign watchedKey_expand).
#[global] Instance assign_wk_db : Assign wk_db := ltac:(assign watchedKey_expand).
#[global] Instance assign_wk_client : Assign wk_client := ltac:(assign watchedKey_expand).
#[global] Instance assign_wk_expired : Assign wk_expired := ltac:(assign watchedKey_expand).

(** The commands that are not queued inside MULTI, UNWATCH and SELECT; the other ones by a number. *)
Inductive command := execCmd | discardCmd | multiCmdProc | watchCmd | quitCmd | resetCmd | unwatchCmd | selectCmd | otherCmd (id : Z).

#[global] Instance command_eq : EqDecision command.
Proof. solve_decision. Defined.

Record multiCmd := mk_mcmd { mc_cmd : command; mc_argv : list bytes; mc_argv_len : Z }.

Inductive reply := R_ok | R_queued | R_reset | R_error (err : bytes) | R_nullarray | R_execabort | R_array (n : Z).

Record mclient := mk_mclient {
  m_flags : gset client_flag; (** flags *)
  m_db : Z; (** selected database *)
  m_cmd : command; (** current command *)
  m_argv : list bytes; (** its arguments *)
  m_argv_len : Z; (** size of the array of the arguments *)
  m_argv_len_sum : Z; (** sum of the lengths of the arguments *)
  m_watched : list positive; (** watched keys, in the order in which they were watched *)
  m_commands : list multiCmd; (** mstate.commands; mstate.count is their number *)
  m_cmd_flags : Z; (** mstate.cmd_flags *)
  m_cmd_inv_flags : Z; (** mstate.cmd_inv_flags *)
  m_argv_len_sums : Z; (** mstate.argv_len_sums *)
  m_alloc_count : Z; (** mstate.alloc_count *)
  m_replies : list reply (** replies *)
}.

Definition mclient_expand (c : mclient) : mclient :=
  mk_mclient (m_flags c) (m_db c) (m_cmd c) (m_argv c) (m_argv_len c) (m_argv_len_sum c) (m_watched c)
    (m_commands c) (m_cmd_flags c) (m_cmd_inv_flags c) (m_argv_len_sums c) (m_alloc_count c) (m_replies c).

#[global] Instance assign_m_flags : Assign m_flags := ltac:(assign mclient_expand).
#[global] Instance assign_m_db : Assign m_db := ltac:(assign mclient_expand).
#[global] Instance assign_m_cmd : Assign m_cmd := ltac:(assign mclient_expand).
#[global] Instance assign_m_argv : Assign m_argv := ltac:(assign mclient_expand).
#[global] Instance assign_m_argv_len : Assign m_argv_len := ltac:(assign mclient_expand).
#[global] Instance assign_m_argv_len_sum : Assign m_argv_len_sum := ltac:(assign mclient_expand).
#[global] Instance assign_m_watched : Assign m_watched := ltac:(assign mclient_expand).
#[global] Instance assign_m_commands : Assign m_commands := ltac:(assign mclient_expand).
#[global] Instance assign_m_cmd_flags : Assign m_cmd_flags := ltac:(assign mclient_expand).
#[global] Instance assign_m_cmd_inv_flags : Assign m_cmd_inv_flags := ltac:(assign mclient_expand).
#[global] Instance assign_m_argv_len_sums : Assign m_argv_len_sums := ltac:(assign mclient_expand).
#[global] Instance assign_m_alloc_count : Assign m_alloc_count := ltac:(assign mclient_expand).
#[global] Instance assign_m_replies : Assign m_replies := ltac:(assign mclient_expand).

Record mserver := mk_mserver {
  clients : gmap Z mclient; (** clients *)
  wkeys : gmap positive watchedKey; (** the allocated watchedKey structures *)
  wnext : positive; (** the next address *)
  watched_keys : gmap (Z * bytes) (list positive); (** the watched_keys of every database: the nodes of the list of clients of a key *)
  keyspace : gmap (Z * bytes) (option Z); (** the keys of every database, with their time of expiration *)
  now : Z; (** commandTimeSnapshot *)
  loading : bool; (** a data set is being loaded *)
  masterhost : bool; (** the server is a replica *)
  from_master : bool; (** the current client is the master *)
  lazy_expire_disabled : bool; (** expired keys are not deleted on access *)
  expire_paused : bool (** expiration is paused *)
}.

Definition mserver_expand (s : mserver) : mserver :=
  mk_mserver (clients s) (wkeys s) (wnext s) (watched_keys s) (keyspace s) (now s) (loading s) (masterhost s)
    (from_master s) (lazy_expire_disabled s) (expire_paused s).

#[global] Instance assign_clients : Assign clients := ltac:(assign mserver_expand).
#[global] Instance assign_wkeys : Assign wkeys := ltac:(assign mserver_expand).
#[global] Instance assign_wnext : Assign wnext := ltac:(assign mserver_expand).
#[global] Instance assign_watched_keys : Assign watched_keys := ltac:(assign mserver_expand).
#[global] Instance assign_keyspace : Assign keyspace := ltac:(assign mserver_expand).
#[global] Instance assign_now : Assign now := ltac:(assign mserver_expand).
#[global] Instance assign_loading : Assign loading := ltac:(assign mserver_expand).
#[global] Instance assign_masterhost : Assign masterhost := ltac:(assign mserver_expand).
#[global] Instance assign_from_master : Assign from_master := ltac:(assign mserver_expand).
#[global] Instance assign_lazy_expire_disabled : Assign lazy_expire_disabled := ltac:(assign mserver_expand).
#[global] Instance assign_expire_paused : Assign expire_paused := ltac:(assign mserver_expand).

(** The client [c] after [f]; a client that does not exist is a dangling pointer. *)
Definition on_client (s : mserver) (c : Z) (f : mclient → mclient) : option mserver :=
  cl ← clients s !! c; Some (s <| clients := <[c := f cl]> (clients s) |>).

Definition m_has (f : client_flag) (cl : mclient) : bool := bool_decide (f ∈ m_flags cl).
Definition m_set (f : client_flag) (cl : mclient) : mclient := cl <| m_flags := {[f]} ∪ m_flags cl |>.
Definition add_reply (r : reply) (cl : mclient) : mclient := cl <| m_replies := m_replies cl ++ [r] |>.

(** ** db.c: expiration *)

Definition getExpire (s : mserver) (db : Z) (key : bytes) : Z :=
  match keyspace s !! (db, key) with Some (Some when) => when | _ => -1 end.

Definition keyIsExpired (s : mserver) (db : Z) (key : bytes) : bool :=
  if loading s then false
  else let when := getExpire s db key in
    if decide (when < 0) then false else bool_decide (now s > when).

(** [dictFind(db->dict, key) != NULL]. *)
Definition key_exists (s : mserver) (db : Z) (key : bytes) : bool := bool_decide (is_Some (keyspace s !! (db, key))).

(** ** Watched keys *)

(** [while((ln = listNext(&li)))]: the client watches the key already. *)
Fixpoint already_watched (s : mserver) (l : list positive) (db : Z) (key : bytes) : option bool :=
  match l with
  | [] => Some false
  | ln :: l =>
      wk ← wkeys s !! ln;
      if decide (wk_db wk = db ∧ key = wk_key wk) then Some true else already_watched s l db key
  end.

Definition watchForKey (s : mserver) (c : Z) (key : bytes) : option mserver :=
  cl ← clients s !! c;
  let db := m_db cl in
  found ← already_watched s (m_watched cl) db key;
  if (found : bool) then Some s
  else
    let nodes := default [] (watched_keys s !! (db, key)) in
    let wk := mk_wk key db c (keyIsExpired s db key) in
    let p := wnext s in
    Some (s <| wkeys := <[p := wk]> (wkeys s) |> <| wnext := Pos.succ p |>
            <| clients := <[c := cl <| m_watched := m_watched cl ++ [p] |>]> (clients s) |>
            <| watched_keys := <[(db, key) := nodes ++ [p]]> (watched_keys s) |>).

(** [listUnlinkNode], and the deletion of the entry with the last client. *)
Definition unlink_client (s : mserver) (ln : positive) : option mserver :=
  wk ← wkeys s !! ln;
  let k := (wk_db wk, wk_key wk) in
  nodes ← watched_keys s !! k;
  if decide (ln ∈ nodes) then
    let nodes := filter (λ p, p ≠ ln) nodes in
    Some (s <| watched_keys := if decide (nodes = []) then delete k (watched_keys s) else <[k := nodes]> (watched_keys s) |>
            <| wkeys := delete ln (wkeys s) |>)
  else None.

(** Every node is removed from the list of the client while the list is traversed. *)
Fixpoint unwatch_loop (s : mserver) (c : Z) (l : list positive) : option mserver :=
  match l with
  | [] => Some s
  | ln :: l =>
      s ← unlink_client s ln;
      s ← on_client s c (λ cl, cl <| m_watched := filter (λ p, p ≠ ln) (m_watched cl) |>);
      unwatch_loop s c l
  end.

Definition unwatchAllKeys (s : mserver) (c : Z) : option mserver := cl ← clients s !! c; unwatch_loop s c (m_watched cl).

Fixpoint watched_expired (s : mserver) (l : list positive) : option bool :=
  match l with
  | [] => Some false
  | ln :: l =>
      wk ← wkeys s !! ln;
      if wk_expired wk then watched_expired s l
      else if keyIsExpired s (wk_db wk) (wk_key wk) then Some true
      else watched_expired s l
  end.

Definition isWatchedKeyExpired (s : mserver) (c : Z) : option bool := cl ← clients s !! c; watched_expired s (m_watched cl).

(** The node after [ln] in the list of the clients of a key, as [listNext] finds it: [None] when the list or the node is gone. *)
Definition node_next (s : mserver) (k : Z * bytes) (ln : positive) : option (option positive) :=
  nodes ← watched_keys s !! k;
  '(i, _) ← list_find (λ p, p = ln) nodes;
  Some (nodes !! S i).

(** [while((ln = listNext(&li)))]: [next] is the node that the iterator will return. *)
Fixpoint touch_loop (fuel : nat) (s : mserver) (db : Z) (key : bytes) (next : option positive) : option mserver :=
  match fuel with
  | O => None
  | S fuel =>
      match next with
      | None => Some s
      | Some ln =>
          next ← node_next s (db, key) ln;
          wk ← wkeys s !! ln;
          let c := wk_client wk in
          if wk_expired wk then
            if decide (db = wk_db wk ∧ key = wk_key wk ∧ key_exists s db key = false) then
              touch_loop fuel (s <| wkeys := <[ln := wk <| wk_expired := false |>]> (wkeys s) |>) db key next
            else Some s
          else
            s ← on_client s c (m_set CLIENT_DIRTY_CAS);
            s ← unwatchAllKeys s c;
            touch_loop fuel s db key next
      end
  end.

Definition touchWatchedKey (s : mserver) (db : Z) (key : bytes) : option mserver :=
  match watched_keys s !! (db, key) with
  | None => Some s
  | Some nodes => touch_loop (S (length nodes)) s db key (head nodes)
  end.

(** [replaced_with && dictFind(replaced_with->dict, key)]. *)
Definition exists_in (s : mserver) (replaced_with : option Z) (key : bytes) : bool :=
  match replaced_with with Some db => key_exists s db key | None => false end.

(** One client of a key of a database that is emptied, or replaced by the contents of another. *)
Definition touch_all_client (s : mserver) (emptied : Z) (replaced_with : option Z) (key : bytes) (ln : positive) : option mserver :=
  wk ← wkeys s !! ln;
  let exists_in_emptied := key_exists s emptied key in
  let in_replaced := exists_in s replaced_with key in
  let expired_replaced := match replaced_with with Some db => keyIsExpired s db key | None => false end in
  if wk_expired wk && negb in_replaced then Some (s <| wkeys := <[ln := wk <| wk_expired := false |>]> (wkeys s) |>)
  else if wk_expired wk && expired_replaced then Some s
  else if negb (wk_expired wk) && negb exists_in_emptied && expired_replaced
  then Some (s <| wkeys := <[ln := wk <| wk_expired := true |>]> (wkeys s) |>)
  else on_client s (wk_client wk) (m_set CLIENT_DIRTY_CAS).

Fixpoint touch_all_nodes (s : mserver) (emptied : Z) (replaced_with : option Z) (key : bytes) (l : list positive) : option mserver :=
  match l with
  | [] => Some s
  | ln :: l => s ← touch_all_client s emptied replaced_with key ln; touch_all_nodes s emptied replaced_with key l
  end.

(** The entries of the table in the order of the iterator. *)
Fixpoint touch_all_keys (s : mserver) (emptied : Z) (replaced_with : option Z) (l : list ((Z * bytes) * list positive)) : option mserver :=
  match l with
  | [] => Some s
  | ((db, key), nodes) :: l =>
      s ← (if bool_decide (db = emptied) && (key_exists s emptied key || exists_in s replaced_with key)
           then touch_all_nodes s emptied replaced_with key nodes else Some s);
      touch_all_keys s emptied replaced_with l
  end.

Definition touchAllWatchedKeysInDb (s : mserver) (emptied : Z) (replaced_with : option Z) : option mserver :=
  touch_all_keys s emptied replaced_with (map_to_list (watched_keys s)).

(** ** Transactions *)

Definition initClientMultiState (cl : mclient) : mclient :=
  cl <| m_commands := [] |> <| m_cmd_flags := 0 |> <| m_cmd_inv_flags := 0 |> <| m_argv_len_sums := 0 |> <| m_alloc_count := 0 |>.

(** The flags and the queue after a transaction; the watched keys are left to [unwatchAllKeys]. *)
Definition end_transaction (cl : mclient) : mclient :=
  let cl := initClientMultiState cl in
  cl <| m_flags := m_flags cl ∖ {[CLIENT_MULTI; CLIENT_DIRTY_CAS; CLIENT_DIRTY_EXEC]} |>.

Definition discardTransaction (s : mserver) (c : Z) : option mserver := s ← on_client s c end_transaction; unwatchAllKeys s c.

Definition flag_transaction (cl : mclient) : mclient := if m_has CLIENT_MULTI cl then m_set CLIENT_DIRTY_EXEC cl else cl.
Definition flagTransaction (s : mserver) (c : Z) : option mserver := on_client s c flag_transaction.

(** The size of the array of commands, which has two elements at first; [None] when the write would be outside it. *)
Definition queue_alloc (cl : mclient) : option Z :=
  let count := zlen (m_commands cl) in
  let alloc := if decide (count = 0) then 2 else m_alloc_count cl in
  let alloc := if decide (count = alloc) then if decide (alloc < INT_MAX / 2) then alloc * 2 else INT_MAX else alloc in
  if decide (count < alloc) then Some alloc else None.

(** The size of a pointer to an object. *)
Definition ROBJ_PTR_SIZE : Z := 8.

Definition queue_command (cmd_flags : Z) (cl : mclient) : option mclient :=
  if m_has CLIENT_DIRTY_CAS cl || m_has CLIENT_DIRTY_EXEC cl then Some cl
  else
    alloc ← queue_alloc cl;
    Some (cl <| m_alloc_count := alloc |>
             <| m_commands := m_commands cl ++ [mk_mcmd (m_cmd cl) (m_argv cl) (m_argv_len cl)] |>
             <| m_cmd_flags := s32 (Z.lor (u64 (m_cmd_flags cl)) cmd_flags) |>
             <| m_cmd_inv_flags := s32 (Z.lor (u64 (m_cmd_inv_flags cl)) (u64 (Z.lnot cmd_flags))) |>
             <| m_argv_len_sums := u64 (m_argv_len_sums cl + m_argv_len_sum cl + ROBJ_PTR_SIZE * zlen (m_argv cl)) |>
             <| m_argv := [] |> <| m_argv_len_sum := 0 |> <| m_argv_len := 0 |>).

Definition queueMultiCommand (s : mserver) (c : Z) (cmd_flags : Z) : option mserver :=
  cl ← clients s !! c; cl ← queue_command cmd_flags cl; Some (s <| clients := <[c := cl]> (clients s) |>).

Definition multi_command (cl : mclient) : mclient :=
  if m_has CLIENT_MULTI cl then add_reply (R_error (str "MULTI calls can not be nested")) cl
  else add_reply R_ok (m_set CLIENT_MULTI cl).
Definition multiCommand (s : mserver) (c : Z) : option mserver := on_client s c multi_command.

Definition discardCommand (s : mserver) (c : Z) : option mserver :=
  cl ← clients s !! c;
  if m_has CLIENT_MULTI cl then s ← discardTransaction s c; on_client s c (add_reply R_ok)
  else on_client s c (add_reply (R_error (str "DISCARD without MULTI"))).

(** The monitors are not modelled. *)
Definition execCommandAbort (s : mserver) (c : Z) (error : bytes) : option mserver :=
  s ← discardTransaction s c;
  on_client s c (add_reply (R_error (str "-EXECABORT Transaction discarded because of: " ++ (if decide (head error = Some 45) then drop 1 error else error)))).

(** [for (j = 1; j < c->argc; j++) watchForKey(c, c->argv[j])]. *)
Fixpoint watch_keys (s : mserver) (c : Z) (keys : list bytes) : option mserver :=
  match keys with
  | [] => Some s
  | key :: keys => s ← watchForKey s c key; watch_keys s c keys
  end.

Definition watchCommand (s : mserver) (c : Z) : option mserver :=
  cl ← clients s !! c;
  if m_has CLIENT_MULTI cl then on_client s c (add_reply (R_error (str "WATCH inside MULTI is not allowed")))
  else if m_has CLIENT_DIRTY_CAS cl then on_client s c (add_reply R_ok)
  else s ← watch_keys s c (drop 1 (m_argv cl)); on_client s c (add_reply R_ok).

Definition unwatchCommand (s : mserver) (c : Z) : option mserver :=
  s ← unwatchAllKeys s c;
  on_client s c (λ cl, add_reply R_ok (cl <| m_flags := m_flags cl ∖ {[CLIENT_DIRTY_CAS]} |>)).

(** ** db.c: changes of the keyspace *)

Definition signalModifiedKey (s : mserver) (db : Z) (key : bytes) : option mserver := touchWatchedKey s db key.

Definition dbGenericDelete (s : mserver) (db : Z) (key : bytes) : mserver * bool :=
  if key_exists s db key then (s <| keyspace := delete (db, key) (keyspace s) |>, true) else (s, false).

(** The notifications and the propagation are left out. *)
Definition deleteExpiredKeyAndPropagate (s : mserver) (db : Z) (key : bytes) : option mserver :=
  signalModifiedKey (dbGenericDelete s db key).1 db key.

(** [force] and [avoid] are the flags EXPIRE_FORCE_DELETE_EXPIRED and EXPIRE_AVOID_DELETE_EXPIRED; the result tells whether the key counts as expired. *)
Definition expireIfNeeded (s : mserver) (db : Z) (key : bytes) (force avoid : bool) : option (mserver * bool) :=
  if lazy_expire_disabled s then Some (s, false)
  else if negb (keyIsExpired s db key) then Some (s, false)
  else if masterhost s && from_master s then Some (s, false)
  else if masterhost s && negb force then Some (s, true)
  else if avoid then Some (s, true)
  else if expire_paused s then Some (s, true)
  else s ← deleteExpiredKeyAndPropagate s db key; Some (s, true).

(** What a command does to the keyspace. *)
Inductive effect :=
  | E_access (db : Z) (key : bytes) (** a lookup for reading *)
  | E_write (db : Z) (key : bytes) (expire : option Z) (** a lookup for writing, a new value, and its time of expiration *)
  | E_del (db : Z) (key : bytes)
  | E_flush (db : Z)
  | E_swap (db1 db2 : Z).

#[global] Instance effect_eq : EqDecision effect.
Proof. solve_decision. Defined.

(** [setKey], and the other commands that write one key: [lookupKeyWrite] deletes an expired key first (a replica that clients may write to
    does so too).  The time of expiration, which SET writes after [setKey], is there already when the clients are told; they depend on the presence of the key only. *)
Definition write_key (s : mserver) (db : Z) (key : bytes) (expire : option Z) : option mserver :=
  '(s, _) ← expireIfNeeded s db key true false;
  signalModifiedKey (s <| keyspace := <[(db, key) := expire]> (keyspace s) |>) db key.

(** One key of [delGenericCommand]. *)
Definition delete_key (s : mserver) (db : Z) (key : bytes) : option mserver :=
  '(s, _) ← expireIfNeeded s db key false false;
  let '(s, deleted) := dbGenericDelete s db key in
  if (deleted : bool) then signalModifiedKey s db key else Some s.

(** [emptyData] for one database: the clients are told while the keys are still there. *)
Definition flush_db (s : mserver) (db : Z) : option mserver :=
  s ← touchAllWatchedKeysInDb s db None;
  Some (s <| keyspace := filter (λ kv, kv.1.1 ≠ db) (keyspace s) |>).

(** The database that has the contents of [db] after a swap. *)
Definition swapped (db1 db2 db : Z) : Z := if decide (db = db1) then db2 else if decide (db = db2) then db1 else db.

(** The two databases exist; blocked clients are not modelled. *)
Definition dbSwapDatabases (s : mserver) (db1 db2 : Z) : option mserver :=
  if decide (db1 = db2) then Some s
  else
    s ← touchAllWatchedKeysInDb s db1 (Some db2);
    s ← touchAllWatchedKeysInDb s db2 (Some db1);
    Some (s <| keyspace := kmap (prod_map (swapped db1 db2) id) (keyspace s) |>).

Definition apply_effect (s : mserver) (e : effect) : option mserver :=
  match e with
  | E_access db key => '(s, _) ← expireIfNeeded s db key false false; Some s
  | E_write db key expire => write_key s db key expire
  | E_del db key => delete_key s db key
  | E_flush db => flush_db s db
  | E_swap db1 db2 => dbSwapDatabases s db1 db2
  end.

Fixpoint apply_effects (s : mserver) (es : list effect) : option mserver :=
  match es with
  | [] => Some s
  | e :: es => s ← apply_effect s e; apply_effects s es
  end.

(** ** Execution *)

Section exec.

(** The execution of one command by [call], on the whole server; the result of the check of permissions, as the reason of a refusal. *)
Context (call : mserver → Z → option mserver).
Context (ACLCheckAllPerm : mserver → Z → option bytes).

(** [for (j = 0; j < c->mstate.count; j++)]: the command of the client is the [j]-th one while it runs. *)
Fixpoint exec_loop (fuel : nat) (s : mserver) (c : Z) (j : nat) : option mserver :=
  match fuel with
  | O => None
  | S fuel =>
      cl ← clients s !! c;
      match m_commands cl !! j with
      | None => Some s
      | Some mc =>
          s ← on_client s c (λ cl, cl <| m_argv := mc_argv mc |> <| m_argv_len := mc_argv_len mc |> <| m_cmd := mc_cmd mc |>);
          s ← (match ACLCheckAllPerm s c with
               | Some reason =>
                   on_client s c (add_reply (R_error (str "-NOPERM ACLs rules changed between the moment the transaction was accumulated and the EXEC call. This command is no longer allowed for the following reason: " ++ reason)))
               | None =>
                   s ← call s c;
                   cl ← clients s !! c;
                   if m_has CLIENT_BLOCKED cl then None else Some s
               end);
          s ← on_client s c (λ cl, cl <| m_commands := <[j := mk_mcmd (m_cmd cl) (m_argv cl) (m_argv_len cl)]> (m_commands cl) |>);
          exec_loop fuel s c (S j)
      end
  end.

Definition execCommand (s : mserver) (c : Z) : option mserver :=
  cl ← clients s !! c;
  if negb (m_has CLIENT_MULTI cl) then on_client s c (add_reply (R_error (str "EXEC without MULTI")))
  else
    expired ← isWatchedKeyExpired s c;
    s ← (if (expired : bool) then on_client s c (m_set CLIENT_DIRTY_CAS) else Some s);
    cl ← clients s !! c;
    if m_has CLIENT_DIRTY_CAS cl || m_has CLIENT_DIRTY_EXEC cl then
      s ← on_client s c (add_reply (if m_has CLIENT_DIRTY_EXEC cl then R_execabort else R_nullarray));
      discardTransaction s c
    else
      let old_deny := m_has CLIENT_DENY_BLOCKING cl in
      s ← on_client s c (m_set CLIENT_DENY_BLOCKING);
      s ← unwatchAllKeys s c;
      s ← on_client s c (add_reply (R_array (zlen (m_commands cl))));
      s ← exec_loop (S (length (m_commands cl))) s c 0;
      s ← on_client s c (λ cl', (if old_deny then cl' else cl' <| m_flags := m_flags cl' ∖ {[CLIENT_DENY_BLOCKING]} |>)
                                  <| m_argv := m_argv cl |> <| m_argv_len := m_argv_len cl |> <| m_cmd := m_cmd cl |>);
      discardTransaction s c.

End exec.

Section commands.

(** What the commands that are not modelled do to the keyspace, from their name, their arguments and the selected database; the number of databases
    and the mode of the server. *)
Context (effects : Z → list bytes → Z → list effect) (dbnum : Z) (cluster_enabled : bool).
Context (ACLCheckAllPerm : mserver → Z → option bytes).

Definition quit_command (cl : mclient) : mclient := m_set CLIENT_CLOSE_AFTER_REPLY (add_reply R_ok cl).

(** RESET ([resetCommand], [clearClientConnectionState]) of a client that is not a module's, as far as transactions, the database and the flags of the model are concerned. *)
Definition resetCommand (s : mserver) (c : Z) : option mserver :=
  cl ← clients s !! c;
  if negb (m_has CLIENT_MONITOR cl) && m_has CLIENT_SLAVE cl || m_has CLIENT_MASTER cl
  then on_client s c (add_reply (R_error (str "can only reset normal client connections")))
  else
    s ← on_client s c (λ cl, cl <| m_flags := if m_has CLIENT_MONITOR cl then m_flags cl ∖ {[CLIENT_MONITOR; CLIENT_SLAVE]} else m_flags cl |> <| m_db := 0 |>);
    s ← discardTransaction s c;
    on_client s c (λ cl, add_reply R_reset (cl <| m_flags := m_flags cl ∖ {[CLIENT_ASKING; CLIENT_REPLY_SKIP_NEXT]} |>)).

(** object.c: an argument as an integer, or the error that is replied. *)
Definition getRangeLongFromObjectOrReply (o : bytes) (min max : Z) (msg : bytes) : bytes + Z :=
  match string2ll o with
  | None => inl (str "value is not an integer or out of range")
  | Some target => if decide (target < min ∨ target > max) then inl msg else inr target
  end.

Definition getIntFromObjectOrReply (o : bytes) : bytes + Z :=
  getRangeLongFromObjectOrReply o (- INT_MAX - 1) INT_MAX (str "value is out of range, value must between -2147483648 and 2147483647").

(** [None] when there is no such database. *)
Definition selectDb (id : Z) : option Z := if decide (id < 0 ∨ id >= dbnum) then None else Some id.

(** The database that SELECT selects, or its error. *)
Definition select_target (arg : bytes) : bytes + Z :=
  match getIntFromObjectOrReply arg with
  | inl err => inl err
  | inr id =>
      if cluster_enabled && bool_decide (id ≠ 0) then inl (str "SELECT is not allowed in cluster mode")
      else match selectDb id with None => inl (str "DB index is out of range") | Some db => inr db end
  end.

Definition selectCommand (s : mserver) (c : Z) : option mserver :=
  cl ← clients s !! c;
  arg ← m_argv cl !! 1%nat;
  match select_target arg with
  | inl err => on_client s c (add_reply (R_error err))
  | inr db => on_client s c (λ cl, add_reply R_ok (cl <| m_db := db |>))
  end.

(** [call] of a command that EXEC may run: [None] for EXEC itself, which is never queued. *)
Definition call (s : mserver) (c : Z) : option mserver :=
  cl ← clients s !! c;
  match m_cmd cl with
  | execCmd => None
  | discardCmd => discardCommand s c
  | multiCmdProc => multiCommand s c
  | watchCmd => watchCommand s c
  | unwatchCmd => unwatchCommand s c
  | selectCmd => selectCommand s c
  | quitCmd => on_client s c quit_command
  | resetCmd => resetCommand s c
  | otherCmd id => apply_effects s (effects id (m_argv cl) (m_db cl))
  end.

Definition queueable (cmd : command) : bool :=
  negb (bool_decide (cmd = execCmd ∨ cmd = discardCmd ∨ cmd = multiCmdProc ∨ cmd = watchCmd ∨ cmd = quitCmd ∨ cmd = resetCmd)).

(** The end of [processCommand]: the command is queued or executed. *)
Definition exec_the_command (s : mserver) (c : Z) (cmd_flags : Z) : option mserver :=
  cl ← clients s !! c;
  if m_has CLIENT_MULTI cl && queueable (m_cmd cl) then
    s ← queueMultiCommand s c cmd_flags; on_client s c (add_reply R_queued)
  else if decide (m_cmd cl = execCmd) then execCommand call ACLCheckAllPerm s c
  else call s c.

(** A client that is freed. *)
Definition free_client (s : mserver) (c : Z) : option mserver :=
  s ← unwatchAllKeys s c; Some (s <| clients := delete c (clients s) |>).

Definition new_client : mclient := mk_mclient ∅ 0 (otherCmd 0) [] 0 0 [] [] 0 0 0 0 [].

(** The events of a server.  [O_command] is a command that a client sends, after the checks of [processCommand]; [O_reject] is one that
    the checks refuse. *)
Inductive op :=
  | O_connect (c : Z)
  | O_free (c : Z)
  | O_command (c : Z) (cmd : command) (args : list bytes) (cmd_flags : Z)
  | O_reject (c : Z)
  | O_time (t : Z).

(** An event about a client that does not exist, or that exists already, does not happen. *)
Definition step (s : mserver) (o : op) : option mserver :=
  match o with
  | O_connect c => match clients s !! c with None => Some (s <| clients := <[c := new_client]> (clients s) |>) | Some _ => Some s end
  | O_free c => match clients s !! c with None => Some s | Some _ => free_client s c end
  | O_command c cmd args cmd_flags =>
      match clients s !! c with
      | None => Some s
      | Some cl =>
          let cl := cl <| m_cmd := cmd |> <| m_argv := args |> <| m_argv_len := zlen args |>
                       <| m_argv_len_sum := Z.of_nat (sum_list_with length args) |> in
          exec_the_command (s <| clients := <[c := cl]> (clients s) |>) c cmd_flags
      end
  | O_reject c => match clients s !! c with None => Some s | Some _ => flagTransaction s c end
  | O_time t => Some (s <| now := Z.max (now s) t |>)
  end.

Fixpoint run (s : mserver) (os : list op) : option mserver :=
  match os with
  | [] => Some s
  | o :: os => s ← step s o; run s os
  end.

End commands.
