(* ===== verification/MultiInv.v ===== *)
(** * multi.c: the two lists of a watched key agree

The invariant of the watched keys (every structure is linked exactly once in the list of its client and once in the list of its key,
no client watches a key twice, no list of a key is empty) and of the queues, and that unwatching, watching and touching keep it without
the use of a freed structure. *)

From S2P Require Import Prelude Util Sds Update Resp Multi.

Local Open Scope Z_scope.

(** The list of the clients of a key; no entry is an empty list. *)
Definition nodes_at (s : mserver) (k : Z * bytes) : list positive := default [] (watched_keys s !! k).
Definition wk_at (wk : watchedKey) : Z * bytes := (wk_db wk, wk_key wk).

(** The arity that [processCommand] checked. *)
Definition arity_ok (cmd : command) (args : list bytes) : Prop := cmd = selectCmd → length args = 2%nat.

(** The commands that are queued fit in their array and may be run by EXEC. *)
Record queue_ok (cl : mclient) : Prop := {
  qo_alloc : m_commands cl = [] ∨ (zlen (m_commands cl) ≤ m_alloc_count cl ∧ 2 ≤ m_alloc_count cl ≤ INT_MAX);
  qo_cmds : Forall (λ mc, queueable (mc_cmd mc) = true ∧ arity_ok (mc_cmd mc) (mc_argv mc)) (m_commands cl);
  qo_running : m_has CLIENT_BLOCKED cl = false
}.

Record minv (s : mserver) : Prop := {
  mi_fresh : ∀ p, is_Some (wkeys s !! p) → (p < wnext s)%positive;
  mi_client : ∀ c cl, clients s !! c = Some cl → NoDup (m_watched cl) ∧
    ∀ p, p ∈ m_watched cl ↔ ∃ wk, wkeys s !! p = Some wk ∧ wk_client wk = c;
  mi_owner : ∀ p wk, wkeys s !! p = Some wk → is_Some (clients s !! wk_client wk);
  mi_nodes : ∀ k, NoDup (nodes_at s k) ∧ ∀ p, p ∈ nodes_at s k ↔ ∃ wk, wkeys s !! p = Some wk ∧ wk_at wk = k;
  mi_entry : ∀ k, watched_keys s !! k ≠ Some [];
  mi_once : ∀ p q wk wk', wkeys s !! p = Some wk → wkeys s !! q = Some wk' → wk_client wk = wk_client wk' → wk_at wk = wk_at wk' → p = q;
  mi_queue : ∀ c cl, clients s !! c = Some cl → queue_ok cl
}.

(** The parts of the state that the functions on watched keys leave alone. *)
Definition elsewhere (s : mserver) := (keyspace s, now s, loading s, masterhost s, from_master s, lazy_expire_disabled s, expire_paused s).

Lemma wnodes_lookup s k nodes : minv s → nodes_at s k = nodes → nodes ≠ [] → watched_keys s !! k = Some nodes.
Proof. intros Hi <- Hne. unfold nodes_at in *. destruct (watched_keys s !! k); [done|]. done. Qed.

Lemma nodes_none s k : minv s → nodes_at s k = [] → watched_keys s !! k = None.
Proof. intros Hi Hn. unfold nodes_at in *. pose proof (mi_entry _ Hi k). destruct (watched_keys s !! k); [|done]. simpl in Hn. congruence. Qed.

(** ** A change of one client that keeps its watched keys *)

Lemma minv_client s c cl cl' : minv s → clients s !! c = Some cl → m_watched cl' = m_watched cl → queue_ok cl' →
  minv (s <| clients := <[c := cl']> (clients s) |>).
Proof.
  intros [H1 H2 H3 H4 H5 H6 H7] Hc Hw Hq. split; cbn; try done.
  - intros c' x. destruct (decide (c' = c)) as [->|Hne].
    + rewrite lookup_insert_eq. intros [= <-]. rewrite Hw. by apply H2.
    + rewrite lookup_insert_ne by done. apply H2.
  - intros p wk Hp. destruct (decide (wk_client wk = c)) as [->|]; [rewrite lookup_insert_eq; eauto|rewrite lookup_insert_ne by done; by eapply H3].
  - intros c' x. destruct (decide (c' = c)) as [->|Hne]; [rewrite lookup_insert_eq; by intros [= <-]|rewrite lookup_insert_ne by done; apply H7].
Qed.

Lemma on_client_ok s c cl f : minv s → clients s !! c = Some cl → m_watched (f cl) = m_watched cl → queue_ok (f cl) →
  on_client s c f = Some (s <| clients := <[c := f cl]> (clients s) |>) ∧ minv (s <| clients := <[c := f cl]> (clients s) |>).
Proof. intros Hi Hc Hw Hq. unfold on_client. rewrite Hc. split; [done|]. by apply (minv_client s c cl). Qed.

Lemma set_other f g cl : f ≠ g → m_has g (m_set f cl) = m_has g cl.
Proof. intros Hne. unfold m_has, m_set. cbn. apply bool_decide_ext. set_solver. Qed.

Lemma set_same f cl : m_has f (m_set f cl) = true.
Proof. unfold m_has, m_set. cbn. apply bool_decide_eq_true. set_solver. Qed.

(** ** Unwatching *)

(** The state after the keys [l] of the client [c] are unwatched. *)
Record unwatched (s : mserver) (c : Z) (cl : mclient) (l : list positive) (s' : mserver) : Prop := {
  uw_clients : clients s' = <[c := cl <| m_watched := [] |>]> (clients s);
  uw_wkeys : ∀ p, wkeys s' !! p = if decide (p ∈ l) then None else wkeys s !! p;
  uw_nodes : ∀ k, nodes_at s' k = filter (λ p, p ∉ l) (nodes_at s k);
  uw_else : elsewhere s' = elsewhere s ∧ wnext s' = wnext s;
  uw_inv : minv s'
}.

Lemma filter_id {A} (P : A → Prop) `{!∀ x, Decision (P x)} (l : list A) : (∀ x, x ∈ l → P x) → filter P l = l.
Proof. induction l as [|x l IH]; intros HP; [done|]. rewrite filter_cons_True by set_solver. f_equal. apply IH. set_solver. Qed.

Lemma elem_nonempty {A} (x : A) l : x ∈ l → l ≠ [].
Proof. intros Hx ->. by apply not_elem_of_nil in Hx. Qed.

(** One node leaves the list of its key. *)
Lemma unlink_client_ok s ln wk : minv s → wkeys s !! ln = Some wk → ∃ s', unlink_client s ln = Some s' ∧ clients s' = clients s ∧
  wkeys s' = delete ln (wkeys s) ∧ (∀ k, nodes_at s' k = filter (λ p, p ≠ ln) (nodes_at s k)) ∧ (∀ k, watched_keys s' !! k ≠ Some []) ∧
  elsewhere s' = elsewhere s ∧ wnext s' = wnext s.
Proof.
  intros Hi Hw. unfold unlink_client. rewrite Hw. bind_simpl. set (k := (wk_db wk, wk_key wk)).
  assert (ln ∈ nodes_at s k) as Hin by (apply (mi_nodes _ Hi k); eauto).
  rewrite (wnodes_lookup s k (nodes_at s k) Hi eq_refl (elem_nonempty ln _ Hin)). bind_simpl. rewrite decide_True by done.
  eexists. split; [done|]. split_and!; try done.
  - intros k'. unfold nodes_at at 1. cbn. destruct (decide (k' = k)) as [->|Hne].
    + case_decide as Hf; [by rewrite lookup_delete_eq|by rewrite lookup_insert_eq].
    + assert (filter (λ p, p ≠ ln) (nodes_at s k') = nodes_at s k') as ->.
      { apply filter_id. intros p Hp ->. apply (mi_nodes _ Hi k') in Hp as (wk' & Hwk' & Hat). rewrite Hw in Hwk'. injection Hwk' as <-. by apply Hne. }
      case_decide; [by rewrite lookup_delete_ne|by rewrite lookup_insert_ne].
  - intros k'. cbn. destruct (decide (k' = k)) as [->|Hne].
    + case_decide as Hf; [by rewrite lookup_delete_eq|rewrite lookup_insert_eq; congruence].
    + pose proof (mi_entry _ Hi k'). case_decide; [by rewrite lookup_delete_ne|by rewrite lookup_insert_ne].
Qed.

Lemma unwatch_one s c cl ln l : minv s → clients s !! c = Some cl → m_watched cl = ln :: l →
  ∃ s1, unlink_client s ln = Some s1 ∧ clients s1 = clients s ∧
    minv (s1 <| clients := <[c := cl <| m_watched := l |>]> (clients s) |>) ∧ wkeys s1 = delete ln (wkeys s) ∧
    (∀ k, nodes_at s1 k = filter (λ p, p ≠ ln) (nodes_at s k)) ∧ elsewhere s1 = elsewhere s ∧ wnext s1 = wnext s.
Proof.
  intros Hi Hc Hl. destruct (mi_client _ Hi c cl Hc) as [Hnd Hmem]. rewrite Hl in Hnd, Hmem. apply NoDup_cons in Hnd as [Hnotin Hnd].
  destruct (proj1 (Hmem ln) ltac:(set_solver)) as (wk & Hwk & Hcw).
  destruct (unlink_client_ok s ln wk Hi Hwk) as (s1 & Hs1 & Hcl & Hwks & Hnodes & Hent & Helse & Hnext). exists s1. split_and!; try done.
  assert (∀ p wk', wkeys s1 !! p = Some wk' ↔ p ≠ ln ∧ wkeys s !! p = Some wk') as Hlk.
  { intros p wk'. rewrite Hwks, lookup_delete_Some. naive_solver. }
  destruct Hi as [H1 H2 H3 H4 H5 H6 H7]. split; cbn [clients wkeys wnext watched_keys assign_to assign_clients].
  - intros p [wk' Hp]. rewrite Hnext. apply Hlk in Hp as [_ Hp]. eauto.
  - intros c' x. destruct (decide (c' = c)) as [->|Hne].
    + rewrite lookup_insert_eq. intros [= <-]. cbn. split; [done|]. intros p. setoid_rewrite Hlk. split.
      * intros Hp. destruct (proj1 (Hmem p) ltac:(set_solver)) as (wk' & Hwk' & ?). exists wk'. split_and!; try done. intros ->. done.
      * intros (wk' & [Hpn Hp] & Hcc). assert (p ∈ ln :: l) as Hpl by (apply Hmem; eauto). set_solver.
    + rewrite lookup_insert_ne by done. intros Hx. destruct (H2 c' x Hx) as [Hnd' Hm']. split; [done|]. intros p. rewrite Hm'. setoid_rewrite Hlk.
      split; [|naive_solver]. intros (wk' & Hp & Hcc). exists wk'. split_and!; try done. intros ->. congruence.
  - intros p wk' Hp. apply Hlk in Hp as [_ Hp]. destruct (decide (wk_client wk' = c)) as [->|]; [rewrite lookup_insert_eq; eauto|rewrite lookup_insert_ne by done; by eapply H3].
  - intros k. change (nodes_at (s1 <| clients := _ |>) k) with (nodes_at s1 k). rewrite Hnodes. destruct (H4 k) as [Hndk Hmk].
    split; [by apply NoDup_filter|]. intros p. rewrite list_elem_of_filter, Hmk. setoid_rewrite Hlk. naive_solver.
  - done.
  - intros p q wk1 wk2 Hp Hq. apply Hlk in Hp as [_ Hp]. apply Hlk in Hq as [_ Hq]. eauto.
  - intros c' x. destruct (decide (c' = c)) as [->|Hne]; [rewrite lookup_insert_eq; intros [= <-]|rewrite lookup_insert_ne by done; apply H7].
    destruct (H7 c cl Hc). by split.
Qed.

Lemma unwatch_loop_ok l : ∀ s c cl, minv s → clients s !! c = Some cl → m_watched cl = l →
  ∃ s', unwatch_loop s c l = Some s' ∧ unwatched s c cl l s'.
Proof.
  induction l as [|ln l IH]; intros s c cl Hi Hc Hl; cbn [unwatch_loop].
  - exists s. split; [done|]. split; try done.
    + assert (cl <| m_watched := [] |> = cl) as -> by (destruct cl; cbn in *; by subst). by rewrite insert_id.
    + intros k. symmetry. apply filter_id. intros p _. apply not_elem_of_nil.
  - destruct (unwatch_one s c cl ln l Hi Hc Hl) as (s1 & -> & Hcl1 & Hi2 & Hw1 & Hn1 & He1 & Hx1). bind_simpl.
    unfold on_client. rewrite Hcl1, Hc. bind_simpl.
    assert (filter (λ p, p ≠ ln) (m_watched cl) = l) as ->.
    { destruct (mi_client _ Hi c cl Hc) as [Hnd _]. rewrite Hl in *. apply NoDup_cons in Hnd as [Hnot _].
      rewrite filter_cons_False by tauto. apply filter_id. intros p Hp ->. done. }
    set (s2 := s1 <| clients := _ |>) in *.
    destruct (IH s2 c (cl <| m_watched := l |>)) as (s' & -> & [Hc' Hw' Hn' [He' Hx'] Hi']); [done|unfold s2; cbn; by rewrite lookup_insert_eq|done|].
    exists s'. split; [done|]. split; try done.
    + rewrite Hc'. unfold s2. cbn. by rewrite insert_insert_eq.
    + intros p. rewrite Hw'. unfold s2. cbn. rewrite Hw1. destruct (decide (p ∈ ln :: l)) as [Hp|Hp].
      * apply elem_of_cons in Hp as [->|Hp]; [|by rewrite decide_True]. case_decide; [done|]. by rewrite lookup_delete_eq.
      * rewrite decide_False by set_solver. rewrite lookup_delete_ne by set_solver. done.
    + intros k. rewrite Hn'. change (nodes_at s2 k) with (nodes_at s1 k). rewrite Hn1, list_filter_filter. apply list_filter_iff. set_solver.
    + split; [by rewrite He'|by rewrite Hx'].
Qed.

Lemma unwatchAllKeys_ok s c cl : minv s → clients s !! c = Some cl → ∃ s', unwatchAllKeys s c = Some s' ∧ unwatched s c cl (m_watched cl) s'.
Proof. intros Hi Hc. unfold unwatchAllKeys. rewrite Hc. bind_simpl. by apply unwatch_loop_ok. Qed.

(** ** Watching *)

Lemma already_watched_ok s l db key : (∀ p, p ∈ l → is_Some (wkeys s !! p)) →
  ∃ b, already_watched s l db key = Some b ∧ (b = true ↔ ∃ p wk, p ∈ l ∧ wkeys s !! p = Some wk ∧ wk_at wk = (db, key)).
Proof.
  induction l as [|ln l IH]; intros Hl; cbn [already_watched].
  - exists false. split; [done|]. split; [done|]. intros (p & _ & Hp & _). by apply not_elem_of_nil in Hp.
  - destruct (Hl ln ltac:(set_solver)) as [wk Hwk]. rewrite Hwk. bind_simpl. case_decide as Hd.
    + exists true. split; [done|]. split; [|done]. intros _. exists ln, wk. split_and!; [set_solver|done|]. unfold wk_at. destruct Hd as [-> ->]. done.
    + destruct IH as (b & -> & Hb); [set_solver|]. exists b. split; [done|]. rewrite Hb. split.
      * intros (p & wk' & Hp & Hrest). exists p, wk'. split; [set_solver|done].
      * intros (p & wk' & Hp & Hwk' & Hat). apply elem_of_cons in Hp as [->|Hp]; [|eauto].
        destruct Hd. rewrite Hwk in Hwk'. injection Hwk' as <-. unfold wk_at in Hat. by injection Hat as -> ->.
Qed.

(** The state after the client [c] watches a new key. *)
Definition add_watch (s : mserver) (c : Z) (cl : mclient) (key : bytes) : mserver :=
  let p := wnext s in
  s <| wkeys := <[p := mk_wk key (m_db cl) c (keyIsExpired s (m_db cl) key)]> (wkeys s) |> <| wnext := Pos.succ p |>
    <| clients := <[c := cl <| m_watched := m_watched cl ++ [p] |>]> (clients s) |>
    <| watched_keys := <[(m_db cl, key) := nodes_at s (m_db cl, key) ++ [p]]> (watched_keys s) |>.

Lemma add_watch_inv s c cl key : minv s → clients s !! c = Some cl →
  (∀ p wk, wkeys s !! p = Some wk → wk_client wk = c → wk_at wk ≠ (m_db cl, key)) → minv (add_watch s c cl key).
Proof.
  intros Hi Hc Hnew. pose proof Hi as [H1 H2 H3 H4 H5 H6 H7]. set (p0 := wnext s). set (wk0 := mk_wk key (m_db cl) c (keyIsExpired s (m_db cl) key)).
  assert (wkeys s !! p0 = None) as Hp0.
  { destruct (wkeys s !! p0) eqn:He; [|done]. assert (p0 < wnext s)%positive by (apply H1; eauto). unfold p0 in *. lia. }
  assert (∀ p wk, wkeys (add_watch s c cl key) !! p = Some wk ↔ (p = p0 ∧ wk = wk0) ∨ (p ≠ p0 ∧ wkeys s !! p = Some wk)) as Hlk.
  { intros p wk. unfold add_watch. cbn. rewrite lookup_insert_Some. fold p0 wk0. naive_solver. }
  assert (∀ k, nodes_at (add_watch s c cl key) k = if decide (k = (m_db cl, key)) then nodes_at s k ++ [p0] else nodes_at s k) as Hn.
  { intros k. unfold nodes_at at 1, add_watch. cbn. case_decide as Hk; [subst k; by rewrite lookup_insert_eq|by rewrite lookup_insert_ne]. }
  assert (∀ c' x, clients (add_watch s c cl key) !! c' = Some x ↔ (c' = c ∧ x = cl <| m_watched := m_watched cl ++ [p0] |>) ∨ (c' ≠ c ∧ clients s !! c' = Some x)) as Hcl.
  { intros c' x. unfold add_watch. cbn. rewrite lookup_insert_Some. fold p0. naive_solver. }
  split.
  - intros p [wk Hp]. change (wnext (add_watch s c cl key)) with (Pos.succ p0). apply Hlk in Hp as [[-> _]|[_ Hp]]; [lia|].
    assert (p < wnext s)%positive by (apply H1; eauto). unfold p0. lia.
  - intros c' x Hx. apply Hcl in Hx as [[-> ->]|[Hne Hx]].
    + cbn. destruct (H2 c cl Hc) as [Hnd Hm]. split.
      * apply NoDup_app. split_and!; [done| |by apply NoDup_singleton]. intros p Hp ->%list_elem_of_singleton. apply Hm in Hp as (wk & Hwk & _). congruence.
      * intros p. rewrite elem_of_app, list_elem_of_singleton, Hm. setoid_rewrite Hlk. split.
        -- intros [(wk & Hwk & Hcw)| ->]; [exists wk|by exists wk0; split; [left|]]. split; [|done]. right. split; [|done]. congruence.
        -- intros (wk & [[-> _]|[_ Hp]] & Hcw); [by right|left; eauto].
    + destruct (H2 c' x Hx) as [Hnd Hm]. split; [done|]. intros p. rewrite Hm. setoid_rewrite Hlk. split.
      * intros (wk & Hwk & Hcw). exists wk. split; [|done]. right. split; [congruence|done].
      * intros (wk & [[-> ->]|[_ Hp]] & Hcw); [by cbn in Hcw|eauto].
  - intros p wk [[-> ->]|[_ Hp]]%Hlk.
    + exists (cl <| m_watched := m_watched cl ++ [p0] |>). apply Hcl. by left.
    + destruct (H3 p wk Hp) as [x Hx]. destruct (decide (wk_client wk = c)) as [Hcw|].
      * exists (cl <| m_watched := m_watched cl ++ [p0] |>). apply Hcl. left. done.
      * exists x. apply Hcl. right. done.
  - intros k. rewrite Hn. destruct (H4 k) as [Hnd Hm]. case_decide as Hk.
    + split.
      * apply NoDup_app. split_and!; [done| |by apply NoDup_singleton]. intros p Hp ->%list_elem_of_singleton. apply Hm in Hp as (wk & Hwk & _). congruence.
      * intros p. rewrite elem_of_app, list_elem_of_singleton, Hm. setoid_rewrite Hlk. split.
        -- intros [(wk & Hwk & Hcw)| ->]; [exists wk|by exists wk0; split; [left|subst k]]. split; [|done]. right. split; [|done]. congruence.
        -- intros (wk & [[-> _]|[_ Hp]] & Hcw); [by right|left; eauto].
    + split; [done|]. intros p. rewrite Hm. setoid_rewrite Hlk. split.
      * intros (wk & Hwk & Hcw). exists wk. split; [|done]. right. split; [congruence|done].
      * intros (wk & [[-> ->]|[_ Hp]] & Hcw); [by destruct Hk|eauto].
  - intros k. unfold add_watch. cbn. destruct (decide (k = (m_db cl, key))) as [->|Hne].
    + rewrite lookup_insert_eq. intros [= Hnil]. by apply app_nil in Hnil as [_ ?].
    + rewrite lookup_insert_ne by done. apply H5.
  - intros p q wk wk' [[-> ->]|[Hpn Hp]]%Hlk [[-> ->]|[Hqn Hq]]%Hlk Hcc Hat; [done| | |eauto].
    + destruct (Hnew q wk' Hq); [done|by rewrite <- Hat].
    + destruct (Hnew p wk Hp); [done|by rewrite Hat].
  - intros c' x [[-> ->]|[Hne Hx]]%Hcl; [|eauto]. destruct (H7 c cl Hc). by split.
Qed.

Lemma watchForKey_ok s c cl key : minv s → clients s !! c = Some cl →
  ∃ s', watchForKey s c key = Some s' ∧ minv s' ∧
    ((s' = s ∧ ∃ p wk, wkeys s !! p = Some wk ∧ wk_client wk = c ∧ wk_at wk = (m_db cl, key)) ∨ s' = add_watch s c cl key).
Proof.
  intros Hi Hc. unfold watchForKey. rewrite Hc. bind_simpl. destruct (mi_client _ Hi c cl Hc) as [Hnd Hm].
  destruct (already_watched_ok s (m_watched cl) (m_db cl) key) as (b & -> & Hb).
  { intros p Hp. apply Hm in Hp as (wk & Hwk & _). eauto. }
  bind_simpl. destruct b.
  - exists s. split_and!; try done. left. split; [done|]. destruct (proj1 Hb eq_refl) as (p & wk & Hp & Hwk & Hat).
    apply Hm in Hp as (wk' & Hwk' & Hcw). rewrite Hwk in Hwk'. injection Hwk' as <-. eauto.
  - exists (add_watch s c cl key). split_and!; [done| |by right]. apply add_watch_inv; try done.
    intros p wk Hp Hcw Hat. assert (false = true); [|done]. apply Hb. exists p, wk. split_and!; try done. apply Hm. eauto.
Qed.

(** ** Touching *)

(** A client is told that a key it watches was touched. *)
Definition dirtied (cl : mclient) : mclient := (m_set CLIENT_DIRTY_CAS cl) <| m_watched := [] |>.

Lemma dirtied_idemp cl : dirtied (dirtied cl) = dirtied cl.
Proof.
  unfold dirtied, m_set. cbn.
  assert ({[CLIENT_DIRTY_CAS]} ∪ ({[CLIENT_DIRTY_CAS]} ∪ m_flags cl) = {[CLIENT_DIRTY_CAS]} ∪ m_flags cl) as -> by set_solver. done.
Qed.

(** What touching a key may change. *)
Record touched (s : mserver) (k : Z * bytes) (s' : mserver) : Prop := {
  to_inv : minv s';
  to_else : elsewhere s' = elsewhere s;
  to_clients : ∀ c, option_Forall2 (λ cl cl', cl' = cl ∨ cl' = dirtied cl) (clients s !! c) (clients s' !! c);
  to_wkeys : ∀ p wk', wkeys s' !! p = Some wk' → ∃ wk, wkeys s !! p = Some wk ∧ wk_client wk' = wk_client wk ∧ wk_at wk' = wk_at wk ∧
    (wk_expired wk' = wk_expired wk ∨ (wk_expired wk' = false ∧ wk_at wk = k ∧ key_exists s k.1 k.2 = false));
  to_kept : ∀ p wk, wkeys s !! p = Some wk → (∃ wk', wkeys s' !! p = Some wk') ∨
    ∃ cl', clients s' !! wk_client wk = Some cl' ∧ m_has CLIENT_DIRTY_CAS cl' = true
}.

Lemma touched_refl s k : minv s → touched s k s.
Proof.
  intros Hi. split; try done.
  - intros c. destruct (clients s !! c); constructor. by left.
  - intros p wk Hwk. exists wk. split_and!; try done. by left.
  - intros p wk Hwk. left. eauto.
Qed.

Lemma touched_dirty s k s' c cl : touched s k s' → clients s !! c = Some cl → m_has CLIENT_DIRTY_CAS cl = true →
  ∃ cl', clients s' !! c = Some cl' ∧ m_has CLIENT_DIRTY_CAS cl' = true.
Proof.
  intros Ht Hc Hd. pose proof (to_clients _ _ _ Ht c) as Hf. rewrite Hc in Hf. inversion Hf as [x y Hxy|]; subst. exists y. split; [done|].
  destruct Hxy as [->| ->]; [done|]. unfold m_has, dirtied, m_set. cbn. apply bool_decide_eq_true. set_solver.
Qed.

Lemma key_exists_else s s' db key : elsewhere s' = elsewhere s → key_exists s' db key = key_exists s db key.
Proof. unfold elsewhere, key_exists. by intros [= -> _]. Qed.

Lemma expired_else s s' db key : elsewhere s' = elsewhere s → keyIsExpired s' db key = keyIsExpired s db key.
Proof. unfold elsewhere, keyIsExpired, getExpire. by intros [= -> -> -> _]. Qed.

Lemma touched_trans s k s1 s2 : touched s k s1 → touched s1 k s2 → touched s k s2.
Proof.
  intros H1 H2. pose proof H1 as [_ He1 Hc1 Hw1 Hk1]. pose proof H2 as [Hi2 He2 Hc2 Hw2 Hk2]. split.
  - done.
  - congruence.
  - intros c. specialize (Hc1 c). specialize (Hc2 c). destruct Hc1 as [x y Hxy|]; inversion Hc2 as [y' z Hyz|]; subst; constructor.
    destruct Hxy as [->| ->], Hyz as [->| ->]; auto. right. apply dirtied_idemp.
  - intros p wk2 Hwk2. destruct (Hw2 p wk2 Hwk2) as (wk1 & Hwk1 & Hc21 & Ha21 & He21). destruct (Hw1 p wk1 Hwk1) as (wk & Hwk & Hc10 & Ha10 & He10).
    exists wk. split_and!; try congruence. destruct He21 as [E|(E & A & X)].
    + destruct He10 as [E'|(E' & A' & X')]; [left; congruence|right; split_and!; congruence].
    + right. split_and!; [done|congruence|]. by rewrite (key_exists_else _ _ _ _ He1) in X.
  - intros p wk Hwk. destruct (Hk1 p wk Hwk) as [[wk1 Hwk1]|(cl1 & Hcl1 & Hd1)].
    + destruct (Hw1 p wk1 Hwk1) as (wk' & Hwk' & Hcc & _ & _). rewrite Hwk in Hwk'. injection Hwk' as <-.
      destruct (Hk2 p wk1 Hwk1) as [?|?]; [by left|right]. by rewrite <- Hcc.
    + right. by eapply touched_dirty.
Qed.

Lemma node_next_ok s k pre ln post : minv s → nodes_at s k = pre ++ ln :: post → node_next s k ln = Some (head post).
Proof.
  intros Hi Hn. unfold node_next. rewrite (wnodes_lookup s k (pre ++ ln :: post)) by (done || by destruct pre). bind_simpl.
  destruct (mi_nodes _ Hi k) as [Hnd _]. rewrite Hn in Hnd. apply NoDup_app in Hnd as (_ & Hdis & _).
  assert (list_find (λ p, p = ln) (pre ++ ln :: post) = Some (length pre, ln)) as ->.
  { apply list_find_Some. split_and!; [by rewrite lookup_app_r, Nat.sub_diag by lia|done|].
    intros j y Hj Hlt ->. rewrite lookup_app_l in Hj by done. apply list_elem_of_lookup_2 in Hj. set_solver. }
  bind_simpl. f_equal. rewrite lookup_app_r by lia. replace (S (length pre) - length pre)%nat with 1%nat by lia. simpl. by rewrite head_lookup.
Qed.

(** A mark is cleared. *)
Lemma clear_mark_inv s ln wk e : minv s → wkeys s !! ln = Some wk → minv (s <| wkeys := <[ln := wk <| wk_expired := e |>]> (wkeys s) |>).
Proof.
  intros [H1 H2 H3 H4 H5 H6 H7] Hwk. set (s' := s <| wkeys := _ |>).
  assert (∀ p x, wkeys s' !! p = Some x → ∃ y, wkeys s !! p = Some y ∧ wk_client x = wk_client y ∧ wk_at x = wk_at y) as Hto.
  { intros p x. unfold s'. cbn. rewrite lookup_insert_Some. intros [[<- <-]|[_ ?]]; eauto. }
  assert (∀ p y, wkeys s !! p = Some y → ∃ x, wkeys s' !! p = Some x ∧ wk_client x = wk_client y ∧ wk_at x = wk_at y) as Hfrom.
  { intros p y Hy. unfold s'. cbn. destruct (decide (p = ln)) as [->|Hne].
    - rewrite lookup_insert_eq. rewrite Hwk in Hy. injection Hy as <-. by eexists.
    - rewrite lookup_insert_ne by done. eauto. }
  split; try done.
  - intros p [x Hx]. destruct (Hto p x Hx) as (y & Hy & _). apply H1. eauto.
  - intros c cl Hc. destruct (H2 c cl Hc) as [Hnd Hm]. split; [done|]. intros p. rewrite Hm. split.
    + intros (y & Hy & <-). destruct (Hfrom p y Hy) as (x & Hx & ? & _). eauto.
    + intros (x & Hx & <-). destruct (Hto p x Hx) as (y & Hy & ? & _). eauto.
  - intros p x Hx. destruct (Hto p x Hx) as (y & Hy & -> & _). by apply (H3 p y).
  - intros k. change (nodes_at s' k) with (nodes_at s k). destruct (H4 k) as [Hnd Hm]. split; [done|]. intros p. rewrite Hm. split.
    + intros (y & Hy & <-). destruct (Hfrom p y Hy) as (x & Hx & _ & ?). eauto.
    + intros (x & Hx & <-). destruct (Hto p x Hx) as (y & Hy & _ & ?). eauto.
  - intros p q x x' Hx Hx' Hcc Hat. destruct (Hto p x Hx) as (y & Hy & Hc1 & Ha1). destruct (Hto q x' Hx') as (y' & Hy' & Hc2 & Ha2).
    apply (H6 p q y y'); congruence.
Qed.

(** A client is marked and unwatches its keys. *)
Lemma dirty_unwatch s k c cl : minv s → clients s !! c = Some cl →
  ∃ s1 s2, on_client s c (m_set CLIENT_DIRTY_CAS) = Some s1 ∧ unwatchAllKeys s1 c = Some s2 ∧ touched s k s2 ∧
    clients s2 !! c = Some (dirtied cl) ∧ (∀ p, wkeys s2 !! p = if decide (p ∈ m_watched cl) then None else wkeys s !! p) ∧
    ∀ k', nodes_at s2 k' = filter (λ p, p ∉ m_watched cl) (nodes_at s k').
Proof.
  intros Hi Hc. destruct (on_client_ok s c cl (m_set CLIENT_DIRTY_CAS)) as [Hon Hi1]; try done.
  { destruct (mi_queue _ Hi c cl Hc). split; try done. by rewrite set_other. }
  set (s1 := s <| clients := _ |>) in *.
  destruct (unwatchAllKeys_ok s1 c (m_set CLIENT_DIRTY_CAS cl) Hi1) as (s2 & Hun & [Hcl Hw Hn [He Hx] Hi2]); [unfold s1; cbn; by rewrite lookup_insert_eq|].
  assert (clients s2 !! c = Some (dirtied cl)) as Hdc by (rewrite Hcl; by rewrite lookup_insert_eq).
  destruct (mi_client _ Hi c cl Hc) as [_ Hm].
  exists s1, s2. split_and!; try done. split; try done.
  - intros c'. rewrite Hcl. unfold s1. cbn. rewrite insert_insert_eq. destruct (decide (c' = c)) as [->|Hne].
    + rewrite lookup_insert_eq, Hc. constructor. by right.
    + rewrite lookup_insert_ne by done. destruct (clients s !! c'); constructor. by left.
  - intros p wk' Hwk'. rewrite Hw in Hwk'. case_decide; [done|]. exists wk'. split_and!; try done. by left.
  - intros p wk Hwk. destruct (decide (p ∈ m_watched cl)) as [Hp|Hp].
    + right. apply Hm in Hp as (x & Hx' & Hcx). rewrite Hwk in Hx'. injection Hx' as <-. rewrite Hcx. exists (dirtied cl). split; [done|].
      unfold m_has, dirtied, m_set. cbn. apply bool_decide_eq_true. set_solver.
    + left. exists wk. rewrite Hw. by rewrite decide_False.
Qed.

(** The clients that the loop reaches: those before the first one whose mark stops it. *)
Definition unmarked (s : mserver) (l : list positive) : Prop := ∀ q wk, q ∈ l → wkeys s !! q = Some wk → wk_expired wk = false.

Lemma touch_loop_ok post : ∀ fuel s db key pre, (length post < fuel)%nat → minv s → nodes_at s (db, key) = pre ++ post →
  ∃ s', touch_loop fuel s db key (head post) = Some s' ∧ touched s (db, key) s' ∧
    (key_exists s db key = false ∨ unmarked s post →
       (∀ p wk, p ∈ post → wkeys s !! p = Some wk → wk_expired wk = false → wkeys s' !! p = None) ∧ unmarked s' post).
Proof.
  induction post as [|ln post IH]; intros fuel s db key pre Hf Hi Hn; (destruct fuel as [|fuel]; [simpl in Hf; lia|]); cbn [touch_loop head].
  - exists s. split; [done|]. split; [by apply touched_refl|]. intros _. split; [|by intros ? ? ?%not_elem_of_nil]. by intros ? ? ?%not_elem_of_nil.
  - rewrite (node_next_ok s (db, key) pre ln post Hi Hn). bind_simpl.
    destruct (mi_nodes _ Hi (db, key)) as [Hnd Hm]. rewrite Hn in Hnd, Hm.
    destruct (proj1 (Hm ln) ltac:(set_solver)) as (wk & Hwk & Hat). rewrite Hwk. bind_simpl. unfold wk_at in Hat.
    apply NoDup_app in Hnd as (Hnd1 & Hdis & Hnd2). apply NoDup_cons in Hnd2 as [Hln Hnd2].
    destruct (wk_expired wk) eqn:Hexp.
    + case_decide as Hd.
      * destruct Hd as (-> & -> & Hne). set (s1 := s <| wkeys := _ |>).
        assert (minv s1) as Hi1 by by apply clear_mark_inv.
        destruct (IH fuel s1 (wk_db wk) (wk_key wk) (pre ++ [ln])) as (s' & -> & Ht & Hcomp); [simpl in Hf; lia|done| |].
        { change (nodes_at s1 (wk_db wk, wk_key wk)) with (nodes_at s (wk_db wk, wk_key wk)). rewrite Hn. by rewrite <- app_assoc. }
        exists s'. split; [done|]. assert (touched s (wk_db wk, wk_key wk) s1) as Ht1.
        { split; try done.
          - intros c. change (clients s1) with (clients s). destruct (clients s !! c); constructor. by left.
          - intros p wk'. unfold s1. cbn. rewrite lookup_insert_Some. intros [[<- <-]|[_ Hp]].
            + exists wk. split_and!; try done. right. done.
            + exists wk'. split_and!; try done. by left.
          - intros p x Hx. left. unfold s1. cbn. destruct (decide (p = ln)) as [->|]; [rewrite lookup_insert_eq; eauto|rewrite lookup_insert_ne by done; eauto]. }
        split; [by eapply touched_trans|]. intros _. destruct Hcomp as [Hgone Hunm]; [left; exact Hne|]. split.
        -- intros p x [->|Hp]%elem_of_cons Hx Hxe; [congruence|]. apply (Hgone p x Hp); [|done]. unfold s1. cbn. rewrite lookup_insert_ne; [done|]. intros ->. done.
        -- intros q x [->|Hq]%elem_of_cons Hx; [|by apply (Hunm q x)].
           destruct (to_wkeys _ _ _ Ht ln x Hx) as (y & Hy & _ & _ & Hor). unfold s1 in Hy. cbn in Hy. rewrite lookup_insert_eq in Hy. injection Hy as <-.
           destruct Hor as [->|[-> _]]; done.
      * exists s. split; [done|]. split; [by apply touched_refl|]. injection Hat as Hdb Hkey. intros [Hne|Hunm]; [destruct Hd; split_and!; congruence|].
        specialize (Hunm ln wk ltac:(set_solver) Hwk). congruence.
    + destruct (mi_owner _ Hi ln wk Hwk) as [cl Hcl].
      destruct (dirty_unwatch s (db, key) (wk_client wk) cl Hi Hcl) as (s1 & s2 & -> & Hun & Ht2 & Hdc & Hw2 & Hn2). bind_simpl. rewrite Hun. bind_simpl.
      destruct (mi_client _ Hi _ cl Hcl) as [_ Hmc].
      assert (ln ∈ m_watched cl) as Hlnw by (apply Hmc; eauto).
      assert (∀ p, p ∈ pre ++ post → p ∉ m_watched cl) as Hother.
      { intros p Hp (x & Hx & Hcx)%Hmc. assert (p ∈ pre ++ ln :: post) as Hp' by set_solver. apply Hm in Hp' as (x' & Hx' & Hatx).
        rewrite Hx in Hx'. injection Hx' as <-. assert (p = ln) as -> by (apply (mi_once _ Hi p ln x wk); try done; by rewrite Hatx, <- Hat).
        apply elem_of_app in Hp as [Hp|Hp]; [|done]. by apply (Hdis ln Hp); set_solver. }
      destruct (IH fuel s2 db key pre) as (s' & -> & Ht & Hcomp); [simpl in Hf; lia|apply Ht2| |].
      { rewrite Hn2, Hn, filter_app, filter_cons_False by tauto. rewrite !filter_id; [done| |]; intros p Hp; apply Hother; set_solver. }
      exists s'. split; [done|]. split; [by eapply touched_trans|]. intros Hor.
      assert (wkeys s' !! ln = None) as Hlng.
      { destruct (wkeys s' !! ln) as [x|] eqn:Hx; [|done]. destruct (to_wkeys _ _ _ Ht ln x Hx) as (y & Hy & _). rewrite Hw2, decide_True in Hy; done. }
      destruct Hcomp as [Hgone Hunm].
      { rewrite (key_exists_else _ _ _ _ (to_else _ _ _ Ht2)). destruct Hor as [?|Hu]; [by left|right]. intros q x Hq Hx. rewrite Hw2 in Hx. case_decide; [done|].
        apply (Hu q x); [set_solver|done]. }
      split.
      * intros p x [->|Hp]%elem_of_cons Hx Hxe; [done|]. apply (Hgone p x Hp); [|done]. rewrite Hw2, decide_False; [done|]. apply Hother. set_solver.
      * intros q x [->|Hq]%elem_of_cons Hx; [congruence|by apply (Hunm q x)].
Qed.

Lemma touchWatchedKey_ok s db key : minv s →
  ∃ s', touchWatchedKey s db key = Some s' ∧ touched s (db, key) s' ∧
    (key_exists s db key = false ∨ unmarked s (nodes_at s (db, key)) →
       (∀ p wk, wkeys s !! p = Some wk → wk_at wk = (db, key) → wk_expired wk = false → wkeys s' !! p = None) ∧
       (∀ p wk, wkeys s' !! p = Some wk → wk_at wk = (db, key) → wk_expired wk = false)).
Proof.
  intros Hi. unfold touchWatchedKey. destruct (mi_nodes _ Hi (db, key)) as [_ Hm].
  destruct (watched_keys s !! (db, key)) as [nodes|] eqn:Hnodes.
  - assert (nodes_at s (db, key) = nodes) as Hn by (unfold nodes_at; by rewrite Hnodes). rewrite Hn in *.
    destruct (touch_loop_ok nodes (S (length nodes)) s db key []) as (s' & -> & Ht & Hcomp); [lia|done|done|].
    exists s'. split; [done|]. split; [done|]. intros Hor. destruct (Hcomp Hor) as [Hgone Hunm]. split.
    + intros p wk Hwk Hat. apply Hgone; [|done]. apply Hm. eauto.
    + intros p wk Hwk Hat. destruct (to_wkeys _ _ _ Ht p wk Hwk) as (y & Hy & _ & Hay & _). apply (Hunm p wk); [|done]. apply Hm. exists y. split; [done|congruence].
  - assert (nodes_at s (db, key) = []) as Hn by (unfold nodes_at; by rewrite Hnodes). rewrite Hn in Hm.
    exists s. split; [done|]. split; [by apply touched_refl|]. intros _.
    assert (∀ p wk, wkeys s !! p = Some wk → wk_at wk = (db, key) → False) as Hno by (intros p wk Hwk Hat; apply (not_elem_of_nil p), Hm; eauto).
    split; intros p wk Hwk Hat; by destruct (Hno p wk).
Qed.
