(* ===== verification/MultiStep.v ===== *)
(** * multi.c: the events of a server keep the invariant

Flushing and swapping databases, the effects of commands, EXEC and the dispatch of commands: every event keeps the invariant and none
uses a freed structure or fails an assertion.  A client that watches a key keeps watching it until it is told, and on a master the marks of
expired keys are those of keys that are still expired. *)

From S2P Require Import Prelude Util Sds Update Resp Multi MultiInv.

Local Open Scope Z_scope.

(** ** Emptying and replacing databases *)

Record told (s s' : mserver) : Prop := {
  te_inv : minv s';
  te_else : elsewhere s' = elsewhere s;
  te_entries : watched_keys s' = watched_keys s;
  te_clients : ∀ c, option_Forall2 (λ cl cl', cl' = cl ∨ cl' = m_set CLIENT_DIRTY_CAS cl) (clients s !! c) (clients s' !! c);
  te_wkeys : ∀ p, option_Forall2 (λ wk wk', wk_client wk' = wk_client wk ∧ wk_at wk' = wk_at wk) (wkeys s !! p) (wkeys s' !! p)
}.

Lemma told_refl s : minv s → told s s.
Proof. intros Hi. split; try done; intros x; [destruct (clients s !! x)|destruct (wkeys s !! x)]; constructor; auto. Qed.

Lemma m_set_idemp f cl : m_set f (m_set f cl) = m_set f cl.
Proof. unfold m_set. cbn. assert ({[f]} ∪ ({[f]} ∪ m_flags cl) = {[f]} ∪ m_flags cl) as -> by set_solver. done. Qed.

Lemma told_trans s1 s2 s3 : told s1 s2 → told s2 s3 → told s1 s3.
Proof.
  intros [Hi1 He1 Hn1 Hc1 Hw1] [Hi2 He2 Hn2 Hc2 Hw2]. split; try congruence; try done.
  - intros c. specialize (Hc1 c). specialize (Hc2 c). destruct Hc1 as [x y Hxy|]; inversion Hc2 as [y' z Hyz|]; subst; constructor.
    destruct Hxy as [->| ->], Hyz as [->| ->]; auto. right. apply m_set_idemp.
  - intros p. specialize (Hw1 p). specialize (Hw2 p). destruct Hw1 as [x y [? ?]|]; inversion Hw2 as [y' z [? ?]|]; subst; constructor. split; congruence.
Qed.

Lemma told_wkey s s' p wk : told s s' → wkeys s !! p = Some wk → ∃ wk', wkeys s' !! p = Some wk' ∧ wk_client wk' = wk_client wk ∧ wk_at wk' = wk_at wk.
Proof. intros Ht Hwk. pose proof (te_wkeys _ _ Ht p) as Hf. rewrite Hwk in Hf. inversion Hf as [x y [? ?]|]; subst. eauto. Qed.

Lemma told_mark s ln wk e : minv s → wkeys s !! ln = Some wk → told s (s <| wkeys := <[ln := wk <| wk_expired := e |>]> (wkeys s) |>).
Proof.
  intros Hi Hwk. split; try done; [by apply clear_mark_inv| |].
  - intros c. cbn. destruct (clients s !! c); constructor. by left.
  - intros p. cbn. destruct (decide (p = ln)) as [->|]; [rewrite lookup_insert_eq, Hwk; by constructor|rewrite lookup_insert_ne by done].
    destruct (wkeys s !! p); by constructor.
Qed.

Lemma told_dirty s c cl : minv s → clients s !! c = Some cl → ∃ s', on_client s c (m_set CLIENT_DIRTY_CAS) = Some s' ∧ told s s' ∧ wkeys s' = wkeys s ∧
  clients s' !! c = Some (m_set CLIENT_DIRTY_CAS cl).
Proof.
  intros Hi Hc. destruct (on_client_ok s c cl (m_set CLIENT_DIRTY_CAS)) as [-> Hi1]; try done.
  { destruct (mi_queue _ Hi c cl Hc). split; try done. by rewrite set_other. }
  eexists. split; [done|]. split_and!; [|done|cbn; by rewrite lookup_insert_eq]. split; try done.
  - intros c'. cbn. destruct (decide (c' = c)) as [->|]; [rewrite lookup_insert_eq, Hc; constructor; by right|rewrite lookup_insert_ne by done].
    destruct (clients s !! c'); constructor. by left.
  - intros p. cbn. destruct (wkeys s !! p); by constructor.
Qed.

(** One client of a key: without a replacement the mark is cleared or the client is told. *)
Lemma touch_all_client_ok s emptied r key ln wk : minv s → wkeys s !! ln = Some wk →
  ∃ s', touch_all_client s emptied r key ln = Some s' ∧ told s s' ∧ (∀ p, p ≠ ln → wkeys s' !! p = wkeys s !! p) ∧
    (r = None → ∃ wk', wkeys s' !! ln = Some wk' ∧ wk_expired wk' = false ∧
       (wk_expired wk = false → ∃ cl', clients s' !! wk_client wk = Some cl' ∧ m_has CLIENT_DIRTY_CAS cl' = true)).
Proof.
  intros Hi Hwk. unfold touch_all_client. rewrite Hwk. bind_simpl. cbn zeta. destruct (mi_owner _ Hi ln wk Hwk) as [cl Hcl].
  assert (∀ e, ∃ s', Some (s <| wkeys := <[ln := wk <| wk_expired := e |>]> (wkeys s) |>) = Some s' ∧ told s s' ∧
    (∀ p, p ≠ ln → wkeys s' !! p = wkeys s !! p) ∧ ∃ wk', wkeys s' !! ln = Some wk' ∧ wk_expired wk' = e) as Hmark.
  { intros e. eexists. split; [done|]. split_and!; [by apply told_mark| |].
    - intros p Hp. cbn. by rewrite lookup_insert_ne.
    - cbn. rewrite lookup_insert_eq. eauto. }
  destruct (wk_expired wk && negb (exists_in s r key)) eqn:H1.
  { destruct (Hmark false) as (s' & -> & Ht & Ho & wk' & Hwk' & Hex). exists s'. split_and!; try done. intros _. exists wk'. split_and!; try done.
    apply andb_true_iff in H1 as [-> _]. done. }
  set (er := match r with Some db => keyIsExpired s db key | None => false end).
  destruct (wk_expired wk && er) eqn:H2.
  { exists s. split; [done|]. split; [by apply told_refl|]. split; [done|]. intros ->. unfold er in H2. by rewrite andb_false_r in H2. }
  destruct (negb (wk_expired wk) && negb (key_exists s emptied key) && er) eqn:H3.
  { destruct (Hmark true) as (s' & -> & Ht & Ho & _). exists s'. split_and!; try done. intros ->. unfold er in H3. by rewrite andb_false_r in H3. }
  destruct (told_dirty s (wk_client wk) cl Hi Hcl) as (s' & -> & Ht & Hw & Hc). exists s'. split_and!; try done; [by rewrite Hw|].
  intros ->. rewrite Hw. exists wk. split_and!; [done| |].
  - cbn in H1. by rewrite andb_true_r in H1.
  - intros _. eexists. split; [done|]. unfold m_has, m_set. cbn. apply bool_decide_eq_true. set_solver.
Qed.

Lemma touch_all_nodes_ok emptied r key l : ∀ s, minv s → (∀ p, p ∈ l → is_Some (wkeys s !! p)) → NoDup l →
  ∃ s', touch_all_nodes s emptied r key l = Some s' ∧ told s s' ∧ (∀ p, p ∉ l → wkeys s' !! p = wkeys s !! p) ∧
    (r = None → ∀ p wk, p ∈ l → wkeys s !! p = Some wk → (∃ wk', wkeys s' !! p = Some wk' ∧ wk_expired wk' = false) ∧
       (wk_expired wk = false → ∃ cl', clients s' !! wk_client wk = Some cl' ∧ m_has CLIENT_DIRTY_CAS cl' = true)).
Proof.
  induction l as [|ln l IH]; intros s Hi Hl Hnd; cbn [touch_all_nodes].
  - exists s. split_and!; try done; [by apply told_refl|]. by intros _ p wk ?%not_elem_of_nil.
  - apply NoDup_cons in Hnd as [Hnot Hnd]. destruct (Hl ln ltac:(set_solver)) as [wk Hwk].
    destruct (touch_all_client_ok s emptied r key ln wk Hi Hwk) as (s1 & -> & Ht1 & Ho1 & Hr1). bind_simpl.
    destruct (IH s1) as (s' & -> & Ht & Ho & Hr); [apply Ht1| |done|].
    { intros p Hp. rewrite Ho1; [apply Hl; set_solver|]. intros ->. done. }
    exists s'. split_and!; [done|by eapply told_trans| |].
    + intros p Hp. rewrite Ho by set_solver. apply Ho1. set_solver.
    + intros Hnone p x [->|Hp]%elem_of_cons Hx.
      * rewrite Hwk in Hx. injection Hx as <-. destruct (Hr1 Hnone) as (wk' & Hwk' & He' & Hd'). split; [rewrite Ho by done; eauto|].
        intros Hexp. destruct (Hd' Hexp) as (cl' & Hcl' & Hdirty). pose proof (te_clients _ _ Ht (wk_client wk)) as Hf. rewrite Hcl' in Hf.
        inversion Hf as [y z Hyz|]; subst. exists z. split; [done|]. destruct Hyz as [->| ->]; [done|]. unfold m_has, m_set. cbn. apply bool_decide_eq_true. set_solver.
      * apply (Hr Hnone p x Hp). rewrite Ho1; [done|]. intros ->. done.
Qed.

Definition dirty_in (s : mserver) (c : Z) : Prop := ∃ cl, clients s !! c = Some cl ∧ m_has CLIENT_DIRTY_CAS cl = true.

Lemma told_stays_dirty s s' c : told s s' → dirty_in s c → dirty_in s' c.
Proof.
  intros Ht (cl & Hcl & Hd). pose proof (te_clients _ _ Ht c) as Hf. rewrite Hcl in Hf. inversion Hf as [y z Hyz|]; subst. exists z. split; [done|].
  destruct Hyz as [->| ->]; [done|]. unfold m_has, m_set. cbn. apply bool_decide_eq_true. set_solver.
Qed.

(** A key whose clients are told when [emptied] is emptied. *)
Definition concerned (s : mserver) (emptied : Z) (r : option Z) (k : Z * bytes) : bool :=
  bool_decide (k.1 = emptied) && (key_exists s emptied k.2 || exists_in s r k.2).

Lemma concerned_else s s' emptied r k : elsewhere s' = elsewhere s → concerned s' emptied r k = concerned s emptied r k.
Proof.
  intros He. unfold concerned, exists_in. rewrite (key_exists_else _ _ _ _ He). destruct r; [|done]. by rewrite (key_exists_else _ _ _ _ He).
Qed.

Lemma touch_all_keys_ok emptied r l : ∀ s, minv s →
  (∀ k nodes, (k, nodes) ∈ l → NoDup nodes ∧ ∀ p, p ∈ nodes → ∃ wk, wkeys s !! p = Some wk ∧ wk_at wk = k) →
  ∃ s', touch_all_keys s emptied r l = Some s' ∧ told s s' ∧
    (r = None → ∀ p wk wk', wkeys s !! p = Some wk → wkeys s' !! p = Some wk' →
       (wk_expired wk' = true → wk_expired wk = true) ∧
       (∀ k nodes, (k, nodes) ∈ l → p ∈ nodes → concerned s emptied r k = true →
          wk_expired wk' = false ∧ (wk_expired wk = false → dirty_in s' (wk_client wk)))).
Proof.
  induction l as [|[[db key] nodes] l IH]; intros s Hi Hl; cbn [touch_all_keys].
  - exists s. split_and!; [done|by apply told_refl|]. intros _ p wk wk' Hwk Hwk'. split; [congruence|]. by intros k nodes ?%not_elem_of_nil.
  - destruct (Hl (db, key) nodes ltac:(set_solver)) as [Hnd Hnodes].
    assert (∃ s1, (if bool_decide (db = emptied) && (key_exists s emptied key || exists_in s r key) then touch_all_nodes s emptied r key nodes else Some s) = Some s1 ∧
      told s s1 ∧ (∀ p, p ∉ nodes → wkeys s1 !! p = wkeys s !! p) ∧ (concerned s emptied r (db, key) = false → s1 = s) ∧
      (r = None → concerned s emptied r (db, key) = true → ∀ p wk, p ∈ nodes → wkeys s !! p = Some wk → (∃ wk', wkeys s1 !! p = Some wk' ∧ wk_expired wk' = false) ∧
       (wk_expired wk = false → dirty_in s1 (wk_client wk)))) as (s1 & -> & Ht1 & Ho1 & Hno1 & Hr1).
    { change (bool_decide (db = emptied) && (key_exists s emptied key || exists_in s r key)) with (concerned s emptied r (db, key)).
      destruct (concerned s emptied r (db, key)) eqn:Hcon; [|exists s; split_and!; try done; by apply told_refl].
      destruct (touch_all_nodes_ok emptied r key nodes s Hi) as (s1 & -> & Ht & Ho & Hr); [intros p Hp; destruct (Hnodes p Hp) as (wk & ? & _); eauto|done|].
      exists s1. split_and!; try done. intros Hnone _ p wk Hp Hwk. by apply Hr. }
    bind_simpl. destruct (IH s1) as (s' & -> & Ht & Hr); [apply Ht1| |].
    { intros k nodes' Hk. destruct (Hl k nodes' ltac:(set_solver)) as [Hnd' Hn']. split; [done|]. intros p Hp. destruct (Hn' p Hp) as (wk & Hwk & Hat).
      destruct (told_wkey _ _ p wk Ht1 Hwk) as (wk' & Hwk' & _ & Ha). exists wk'. split; [done|congruence]. }
    exists s'. split_and!; [done|by eapply told_trans|]. intros Hnone p wk wk' Hwk Hwk'.
    destruct (told_wkey _ _ p wk Ht1 Hwk) as (wk1 & Hwk1 & Hc1 & Ha1).
    destruct (Hr Hnone p wk1 wk' Hwk1 Hwk') as [Hmono Hdone].
    assert (wk_expired wk1 = true → wk_expired wk = true) as Hmono1.
    { destruct (decide (p ∈ nodes)) as [Hp|Hp]; [|rewrite Ho1 in Hwk1 by done; congruence].
      destruct (concerned s emptied r (db, key)) eqn:Hcon; [|rewrite Hno1 in Hwk1 by done; congruence].
      destruct (Hr1 Hnone eq_refl p wk Hp Hwk) as [(x & Hx & He) _]. congruence. }
    split; [auto|]. intros k nodes' Hk Hp Hcon. apply elem_of_cons in Hk as [[= -> ->]|Hk].
    + destruct (Hr1 Hnone Hcon p wk Hp Hwk) as [(x & Hx & He) Hd]. rewrite Hwk1 in Hx. injection Hx as <-. split.
      * destruct (wk_expired wk'); [|done]. rewrite (Hmono eq_refl) in He. done.
      * intros Hexp. eapply told_stays_dirty; [exact Ht|]. auto.
    + rewrite <- (concerned_else _ _ _ _ _ (te_else _ _ Ht1)) in Hcon. destruct (Hdone k nodes' Hk Hp Hcon) as [He Hd]. split; [done|].
      intros Hexp. rewrite <- Hc1. apply Hd. destruct (wk_expired wk1); [|done]. rewrite Hmono1 in Hexp; done.
Qed.

Lemma touchAll_ok s emptied r : minv s →
  ∃ s', touchAllWatchedKeysInDb s emptied r = Some s' ∧ told s s' ∧
    (r = None → ∀ p wk wk', wkeys s !! p = Some wk → wkeys s' !! p = Some wk' →
       (wk_expired wk' = true → wk_expired wk = true) ∧
       (concerned s emptied None (wk_at wk) = true → wk_expired wk' = false ∧ (wk_expired wk = false → dirty_in s' (wk_client wk)))).
Proof.
  intros Hi. unfold touchAllWatchedKeysInDb.
  assert (∀ k nodes, (k, nodes) ∈ map_to_list (watched_keys s) → nodes_at s k = nodes) as Hent.
  { intros k nodes Hk%elem_of_map_to_list. unfold nodes_at. by rewrite Hk. }
  destruct (touch_all_keys_ok emptied r (map_to_list (watched_keys s)) s Hi) as (s' & -> & Ht & Hr).
  { intros k nodes Hk. rewrite <- (Hent k nodes Hk). destruct (mi_nodes _ Hi k) as [Hnd Hm]. split; [done|]. intros p. apply Hm. }
  exists s'. split_and!; try done. intros -> p wk wk' Hwk Hwk'. destruct (Hr eq_refl p wk wk' Hwk Hwk') as [Hmono Hdone]. split; [done|].
  intros Hcon. destruct (mi_nodes _ Hi (wk_at wk)) as [_ Hm]. assert (p ∈ nodes_at s (wk_at wk)) as Hp by (apply Hm; eauto).
  apply (Hdone (wk_at wk) (nodes_at s (wk_at wk))); [|done|done]. apply elem_of_map_to_list. apply wnodes_lookup; [done|done|by eapply elem_nonempty].
Qed.

(** ** What a command does to the other clients *)

(** A client may be told, and unwatched. *)
Definition cl_kept (cl cl' : mclient) : Prop :=
  ∃ F w, cl' = cl <| m_flags := F |> <| m_watched := w |> ∧ (F = m_flags cl ∨ F = {[CLIENT_DIRTY_CAS]} ∪ m_flags cl).

Lemma cl_kept_refl cl : cl_kept cl cl.
Proof. exists (m_flags cl), (m_watched cl). split; [by destruct cl|by left]. Qed.

Lemma cl_kept_trans cl1 cl2 cl3 : cl_kept cl1 cl2 → cl_kept cl2 cl3 → cl_kept cl1 cl3.
Proof.
  intros (F & w & -> & HF) (F' & w' & -> & HF'). exists F', w'. split; [done|]. cbn in HF'. destruct HF as [->| ->], HF' as [->| ->]; auto. right. set_solver.
Qed.

(** A client watches a key, and the key counts. *)
Definition watching (s : mserver) (c : Z) (k : Z * bytes) : Prop :=
  ∃ p wk, wkeys s !! p = Some wk ∧ wk_client wk = c ∧ wk_at wk = k ∧ wk_expired wk = false.

(** A client watches a key, or was told that one of its keys was touched. *)
Definition guarded (s : mserver) (c : Z) (k : Z * bytes) : Prop := dirty_in s c ∨ watching s c k.

(** The marks are those of keys that are expired now. *)
Definition marks_ok (s : mserver) : Prop :=
  ∀ p wk, wkeys s !! p = Some wk → wk_expired wk = true → keyIsExpired s (wk_db wk) (wk_key wk) = true.

(** A master that deletes expired keys on access. *)
Definition normal (s : mserver) : Prop :=
  loading s = false ∧ masterhost s = false ∧ lazy_expire_disabled s = false ∧ expire_paused s = false.

Definition settings (s : mserver) := (now s, loading s, masterhost s, from_master s, lazy_expire_disabled s, expire_paused s).

Record affected (s s' : mserver) : Prop := {
  af_inv : minv s';
  af_settings : settings s' = settings s;
  af_clients : ∀ c, option_Forall2 cl_kept (clients s !! c) (clients s' !! c)
}.

(** What commands other than SWAPDB promise. *)
Record careful (s s' : mserver) : Prop := {
  ca_affected : affected s s';
  ca_guard : ∀ c k, guarded s c k → guarded s' c k;
  ca_marks : normal s → marks_ok s → marks_ok s'
}.

Lemma affected_refl s : minv s → affected s s.
Proof. intros Hi. split; try done. intros c. destruct (clients s !! c); constructor. apply cl_kept_refl. Qed.

Lemma affected_trans s1 s2 s3 : affected s1 s2 → affected s2 s3 → affected s1 s3.
Proof.
  intros [Hi1 Hs1 Hc1] [Hi2 Hs2 Hc2]. split; [done|congruence|]. intros c. specialize (Hc1 c). specialize (Hc2 c).
  destruct Hc1 as [x y Hxy|]; inversion Hc2 as [y' z Hyz|]; subst; constructor. by eapply cl_kept_trans.
Qed.

Lemma normal_settings s s' : settings s' = settings s → normal s → normal s'.
Proof. unfold settings, normal. intros [= _ -> -> _ -> ->]. done. Qed.

Lemma careful_refl s : minv s → careful s s.
Proof. intros Hi. split; [by apply affected_refl|done|done]. Qed.

Lemma careful_trans s1 s2 s3 : careful s1 s2 → careful s2 s3 → careful s1 s3.
Proof.
  intros [Ha1 Hg1 Hm1] [Ha2 Hg2 Hm2]. split; [by eapply affected_trans|auto|]. intros Hn Hk. apply Hm2; [|auto].
  by eapply normal_settings; [apply Ha1|].
Qed.

Lemma minv_keyspace s ks : minv s → minv (s <| keyspace := ks |>).
Proof. intros [H1 H2 H3 H4 H5 H6 H7]. by split. Qed.

Lemma expired_keyspace s s' db key : settings s' = settings s → keyspace s' !! (db, key) = keyspace s !! (db, key) → keyIsExpired s' db key = keyIsExpired s db key.
Proof. unfold settings, keyIsExpired, getExpire. by intros [= -> -> _ _ _ _] ->. Qed.

Lemma elsewhere_settings s s' : elsewhere s' = elsewhere s → settings s' = settings s ∧ keyspace s' = keyspace s.
Proof. unfold elsewhere, settings. by intros [= -> -> -> -> -> -> ->]. Qed.

(** Touching after a change of the keyspace. *)
Lemma touched_affected s ks k s' : minv s → touched (s <| keyspace := ks |>) k s' → affected s s' ∧ keyspace s' = ks ∧ ∀ c k', guarded s c k' → guarded s' c k'.
Proof.
  intros Hi Ht. pose proof Ht as [Hi' He Hc Hw Hk]. apply elsewhere_settings in He as [He Hks]. split_and!.
  - split; [done|done|]. intros c. specialize (Hc c). cbn in Hc. destruct Hc as [x y Hxy|]; constructor. destruct Hxy as [->| ->]; [apply cl_kept_refl|].
    exists ({[CLIENT_DIRTY_CAS]} ∪ m_flags x), []. split; [done|by right].
  - done.
  - intros c k' [(cl & Hcl & Hd)|(p & wk & Hwk & Hcw & Hat & Hexp)].
    + left. by apply (touched_dirty (s <| keyspace := ks |>) k s' c cl).
    + destruct (Hk p wk Hwk) as [[wk' Hwk']|Hd]; [|left; rewrite <- Hcw; exact Hd].
      right. exists p, wk'. destruct (Hw p wk' Hwk') as (x & Hx & Hcc & Haa & Hee). cbn in Hx. rewrite Hwk in Hx. injection Hx as <-.
      split_and!; try congruence. destruct Hee as [->|[-> _]]; done.
Qed.

(** Touching a key that is gone, or that no client has marked, tells every client that watches it. *)
Lemma touch_tells s ks db key : minv s → key_exists (s <| keyspace := ks |>) db key = false ∨ unmarked s (nodes_at s (db, key)) →
  (∀ k, k ≠ (db, key) → ks !! k = keyspace s !! k) →
  ∃ s', touchWatchedKey (s <| keyspace := ks |>) db key = Some s' ∧ careful s s' ∧ keyspace s' = ks ∧
    ∀ c, guarded s c (db, key) → dirty_in s' c.
Proof.
  intros Hi Hor Hks. destruct (touchWatchedKey_ok (s <| keyspace := ks |>) db key (minv_keyspace _ _ Hi)) as (s' & Hs' & Ht & Hcomp).
  exists s'. destruct (touched_affected s ks (db, key) s' Hi Ht) as (Haf & Hk' & Hg). destruct (Hcomp Hor) as [Hgone Hunm].
  split_and!; [done| |done|].
  - split; [done|done|]. intros _ Hm p wk Hwk Hexp. destruct (to_wkeys _ _ _ Ht p wk Hwk) as (x & Hx & Hcc & Haa & Hee).
    destruct (decide (wk_at wk = (db, key))) as [Hat|Hat]; [rewrite (Hunm p wk Hwk Hat) in Hexp; done|].
    assert (wk_expired x = true) as Hxe by (destruct Hee as [<-|[E _]]; congruence). unfold wk_at in *. injection Haa as Hdb Hkey.
    rewrite Hdb, Hkey. rewrite <- (Hm p x Hx Hxe). apply expired_keyspace; [apply Haf|]. rewrite Hk'. apply Hks. congruence.
  - intros c [Hd|(p & wk & Hwk & Hcw & Hat & Hexp)].
    + destruct Hd as (cl & Hcl & Hd). by apply (touched_dirty (s <| keyspace := ks |>) (db, key) s' c cl).
    + destruct (to_kept _ _ _ Ht p wk Hwk) as [[wk' Hwk']|Hd]; [|rewrite <- Hcw; exact Hd]. rewrite (Hgone p wk Hwk Hat Hexp) in Hwk'. done.
Qed.

(** ** The effects of commands *)

Lemma keyspace_same s : s <| keyspace := keyspace s |> = s.
Proof. by destruct s. Qed.

Lemma expired_exists s db key : keyIsExpired s db key = true → key_exists s db key = true.
Proof.
  unfold keyIsExpired, getExpire, key_exists. destruct (loading s); [done|]. destruct (keyspace s !! (db, key)) as [[when|]|]; [|done|].
  - intros _. apply bool_decide_eq_true. eauto.
  - by rewrite decide_True by lia.
Qed.

Lemma expireIfNeeded_ok s db key force avoid : minv s →
  ∃ s' b, expireIfNeeded s db key force avoid = Some (s', b) ∧ careful s s' ∧
    (normal s → avoid = false → keyIsExpired s' db key = false) ∧ (∀ k, k ≠ (db, key) → keyspace s' !! k = keyspace s !! k) ∧
    (keyspace s' ≠ keyspace s → ∀ c, guarded s c (db, key) → dirty_in s' c).
Proof.
  intros Hi. pose proof (careful_refl s Hi) as Hrefl. unfold expireIfNeeded.
  destruct (lazy_expire_disabled s) eqn:Hl; [eexists s, _; split; [done|]; split_and!; try done; unfold normal; rewrite Hl; naive_solver|].
  destruct (keyIsExpired s db key) eqn:Hexp; cbn [negb]; [|by eexists s, _].
  destruct (masterhost s) eqn:Hmh; cbn [andb].
  1: destruct (from_master s); [eexists s, _; split; [done|]; split_and!; try done; unfold normal; rewrite Hmh; naive_solver|].
  1: destruct force; cbn [negb]; [|eexists s, _; split; [done|]; split_and!; try done; unfold normal; rewrite Hmh; naive_solver].
  all: destruct avoid; [by eexists s, _|].
  all: destruct (expire_paused s) eqn:Hep; [eexists s, _; split; [done|]; split_and!; try done; unfold normal; rewrite Hep; naive_solver|].
  all: unfold deleteExpiredKeyAndPropagate, dbGenericDelete; rewrite (expired_exists _ _ _ Hexp); cbn [fst].
  all: destruct (touch_tells s (delete (db, key) (keyspace s)) db key) as (s' & Hs' & Hca & Hks & Htell);
    [done|left; unfold key_exists; cbn; apply bool_decide_eq_false; rewrite lookup_delete_eq; by intros [? ?]|intros k Hk; by rewrite lookup_delete_ne|].
  all: unfold signalModifiedKey; rewrite Hs'; bind_simpl; eexists s', _; split; [done|]; split_and!; [done| |intros k Hk; rewrite Hks; by rewrite lookup_delete_ne|done].
  all: intros _ _; unfold keyIsExpired, getExpire; rewrite Hks, lookup_delete_eq, decide_True by lia; by destruct (loading s').
Qed.

Lemma write_key_ok s db key expire : minv s →
  ∃ s', write_key s db key expire = Some s' ∧ affected s s' ∧ (∀ c k, guarded s c k → guarded s' c k) ∧
    (normal s → marks_ok s → marks_ok s' ∧ ∀ c, guarded s c (db, key) → dirty_in s' c).
Proof.
  intros Hi. unfold write_key. destruct (expireIfNeeded_ok s db key true false Hi) as (s1 & b & -> & [Haf1 Hg1 Hm1] & Hne & Hks1 & _). bind_simpl.
  unfold signalModifiedKey. set (ks := <[(db, key) := expire]> (keyspace s1)). pose proof (af_inv _ _ Haf1) as Hi1.
  destruct (touchWatchedKey_ok (s1 <| keyspace := ks |>) db key (minv_keyspace _ _ Hi1)) as (s' & Hs' & Ht & _).
  destruct (touched_affected s1 ks (db, key) s' Hi1 Ht) as (Haf2 & _ & Hg2).
  exists s'. split_and!; [done|by eapply affected_trans|auto|]. intros Hn Hm.
  assert (unmarked s1 (nodes_at s1 (db, key))) as Hun.
  { intros q wk Hq Hwk. destruct (wk_expired wk) eqn:He; [|done]. pose proof (Hm1 Hn Hm q wk Hwk He) as Hx.
    apply (mi_nodes _ Hi1) in Hq as (wk' & Hwk' & Hat). rewrite Hwk in Hwk'. injection Hwk' as <-. unfold wk_at in Hat. injection Hat as Hdb Hkey.
    rewrite Hdb, Hkey, Hne in Hx; done. }
  destruct (touch_tells s1 ks db key Hi1 (or_intror Hun)) as (s2 & Hs2 & [_ _ Hm2] & _ & Htell).
  { intros k Hk. unfold ks. by rewrite lookup_insert_ne. }
  rewrite Hs' in Hs2. injection Hs2 as <-. split; [apply Hm2; [by eapply normal_settings; [apply Haf1|]|auto]|auto].
Qed.

Lemma delete_key_ok s db key : minv s → ∃ s', delete_key s db key = Some s' ∧ careful s s' ∧
  (key_exists s db key = true → ∀ c, guarded s c (db, key) → dirty_in s' c).
Proof.
  intros Hi. unfold delete_key. destruct (expireIfNeeded_ok s db key false false Hi) as (s1 & b & -> & Hca & _ & _ & Htell1). bind_simpl.
  unfold dbGenericDelete. destruct (key_exists s1 db key) eqn:Hex1.
  - unfold signalModifiedKey. destruct (touch_tells s1 (delete (db, key) (keyspace s1)) db key) as (s' & -> & Hca' & _ & Htell).
    + apply Hca.
    + left. unfold key_exists. cbn. apply bool_decide_eq_false. rewrite lookup_delete_eq. by intros [? ?].
    + intros k Hk. by rewrite lookup_delete_ne.
    + exists s'. split; [done|]. split; [by eapply careful_trans|]. intros _ c Hg. by apply Htell, Hca.
  - exists s1. split; [done|]. split; [done|]. intros Hex. apply Htell1. intros Hks. unfold key_exists in *. rewrite Hks in Hex1. congruence.
Qed.

Lemma told_affected s s' ks : told s s' → affected s (s' <| keyspace := ks |>).
Proof.
  intros Ht. pose proof Ht as [Hi He _ Hc _]. apply elsewhere_settings in He as [He _]. split; [by apply minv_keyspace|done|].
  intros c. cbn. specialize (Hc c). destruct Hc as [x y Hxy|]; constructor. destruct Hxy as [->| ->]; [apply cl_kept_refl|].
  exists ({[CLIENT_DIRTY_CAS]} ∪ m_flags x), (m_watched x). split; [by destruct x|by right].
Qed.

Lemma flush_db_ok s db : minv s → ∃ s', flush_db s db = Some s' ∧ careful s s' ∧
  ∀ c key, key_exists s db key = true → guarded s c (db, key) → dirty_in s' c.
Proof.
  intros Hi. unfold flush_db. destruct (touchAll_ok s db None Hi) as (s1 & -> & Ht & Hr). bind_simpl. specialize (Hr eq_refl).
  pose proof (elsewhere_settings _ _ (te_else _ _ Ht)) as [Hset Hks]. eexists. split; [done|]. split.
  - split; [by apply told_affected| |].
    + intros c k [Hd|(p & wk & Hwk & Hcw & Hat & Hexp)]; [left; by apply (told_stays_dirty s s1)|right].
      destruct (told_wkey _ _ p wk Ht Hwk) as (wk' & Hwk' & Hc & Ha). exists p, wk'. cbn. split_and!; try congruence.
      destruct (wk_expired wk') eqn:He; [|done]. destruct (Hr p wk wk' Hwk Hwk') as [Hmono _]. rewrite (Hmono He) in Hexp. done.
    + intros _ Hm p wk' Hwk' Hexp. cbn in Hwk'. pose proof (te_wkeys _ _ Ht p) as Hf. rewrite Hwk' in Hf. inversion Hf as [wk y [Hc Ha] Hwk|]; subst.
      symmetry in Hwk. destruct (Hr p wk wk' Hwk Hwk') as [Hmono Hdone]. pose proof (Hm p wk Hwk (Hmono Hexp)) as Hke.
      unfold wk_at in Ha. injection Ha as Hdb Hkey. rewrite Hdb, Hkey. rewrite <- Hke. apply expired_keyspace; [done|]. cbn. rewrite Hks.
      destruct (decide (wk_db wk = db)) as [Hd|Hd].
      * destruct Hdone as [He _]; [|congruence]. unfold concerned, wk_at. cbn. rewrite bool_decide_true by done. cbn. apply orb_true_iff. left.
        rewrite <- Hd. by apply expired_exists.
      * rewrite map_lookup_filter. destruct (keyspace s !! _); [|done]. cbn. by rewrite option_guard_True.
  - intros c key Hex [Hd|(p & wk & Hwk & Hcw & Hat & Hexp)]; [by apply (told_stays_dirty s s1)|].
    destruct (told_wkey _ _ p wk Ht Hwk) as (wk' & Hwk' & _). destruct (Hr p wk wk' Hwk Hwk') as [_ Hdone].
    destruct Hdone as [_ Hd]; [|by rewrite <- Hcw; apply Hd]. unfold concerned. rewrite Hat. cbn. rewrite bool_decide_true, Hex by done. done.
Qed.

Lemma dbSwapDatabases_ok s db1 db2 : minv s → ∃ s', dbSwapDatabases s db1 db2 = Some s' ∧ affected s s'.
Proof.
  intros Hi. unfold dbSwapDatabases. case_decide; [exists s; split; [done|by apply affected_refl]|].
  destruct (touchAll_ok s db1 (Some db2) Hi) as (s1 & -> & Ht1 & _). bind_simpl.
  destruct (touchAll_ok s1 db2 (Some db1) (te_inv _ _ Ht1)) as (s2 & -> & Ht2 & _). bind_simpl.
  eexists. split; [done|]. apply told_affected. by eapply told_trans.
Qed.

Definition no_swap (e : effect) : Prop := match e with E_swap _ _ => False | _ => True end.

Lemma apply_effect_ok s e : minv s → ∃ s', apply_effect s e = Some s' ∧ affected s s' ∧ (no_swap e → careful s s').
Proof.
  intros Hi. destruct e as [db key|db key v|db key|db|db1 db2]; cbn [apply_effect no_swap].
  - destruct (expireIfNeeded_ok s db key false false Hi) as (s' & b & -> & Hca & _). bind_simpl. exists s'. split_and!; try done. apply Hca.
  - destruct (write_key_ok s db key v Hi) as (s' & -> & Haf & Hg & Hm). exists s'. split_and!; try done. intros _. split; [done|done|]. intros Hn Hk. by apply Hm.
  - destruct (delete_key_ok s db key Hi) as (s' & -> & Hca & _). exists s'. split_and!; try done. apply Hca.
  - destruct (flush_db_ok s db Hi) as (s' & -> & Hca & _). exists s'. split_and!; try done. apply Hca.
  - destruct (dbSwapDatabases_ok s db1 db2 Hi) as (s' & -> & Haf). exists s'. done.
Qed.

Lemma apply_effects_ok es : ∀ s, minv s → ∃ s', apply_effects s es = Some s' ∧ affected s s' ∧ (Forall no_swap es → careful s s').
Proof.
  induction es as [|e es IH]; intros s Hi; cbn [apply_effects]; [exists s; split_and!; [done|by apply affected_refl|intros; by apply careful_refl]|].
  destruct (apply_effect_ok s e Hi) as (s1 & -> & Haf & Hca). bind_simpl. destruct (IH s1 (af_inv _ _ Haf)) as (s' & -> & Haf' & Hca').
  exists s'. split_and!; [done|by eapply affected_trans|]. intros [He Hes]%Forall_cons. eapply careful_trans; eauto.
Qed.

Lemma kept_stays_dirty s s' c : option_Forall2 cl_kept (clients s !! c) (clients s' !! c) → dirty_in s c → dirty_in s' c.
Proof.
  intros Hf (cl & Hcl & Hd). rewrite Hcl in Hf. inversion Hf as [x y (F & w & -> & HF)|]; subst. eexists. split; [done|].
  unfold m_has in *. cbn. apply bool_decide_eq_true in Hd. apply bool_decide_eq_true. destruct HF as [->| ->]; set_solver.
Qed.
