(* ===== verification/MultiExec.v ===== *)
(** * multi.c: EXEC runs all the queued commands or none *)

From S2P Require Import Prelude Util Sds Update Resp Multi MultiInv MultiStep.

Local Open Scope Z_scope.

(** ** The keyspace alone *)

(** Whether an access deletes the key. *)
Definition expires_now (s : mserver) (db : Z) (key : bytes) (force avoid : bool) : bool :=
  negb (lazy_expire_disabled s) && keyIsExpired s db key && negb (masterhost s && (from_master s || negb force)) && negb avoid && negb (expire_paused s).

(** What an effect does to the keyspace, whoever watches it. *)
Definition ks_apply (s : mserver) (e : effect) : gmap (Z * bytes) (option Z) :=
  match e with
  | E_access db key => if expires_now s db key false false then delete (db, key) (keyspace s) else keyspace s
  | E_write db key v => <[(db, key) := v]> (keyspace s)
  | E_del db key => delete (db, key) (keyspace s)
  | E_flush db => filter (λ kv, kv.1.1 ≠ db) (keyspace s)
  | E_swap db1 db2 => if decide (db1 = db2) then keyspace s else kmap (prod_map (swapped db1 db2) id) (keyspace s)
  end.

Definition ks_run (s : mserver) (es : list effect) : gmap (Z * bytes) (option Z) :=
  foldl (λ ks e, ks_apply (s <| keyspace := ks |>) e) (keyspace s) es.

(** Whether an effect changes a key. *)
Definition modifies1 (s : mserver) (e : effect) (k : Z * bytes) : bool :=
  match e with
  | E_access db key => bool_decide (k = (db, key)) && expires_now s db key false false
  | E_write db key _ => bool_decide (k = (db, key))
  | E_del db key => bool_decide (k = (db, key)) && key_exists s db key
  | E_flush db => bool_decide (k.1 = db) && key_exists s db k.2
  | E_swap _ _ => false
  end.

Fixpoint modifies (s : mserver) (es : list effect) (k : Z * bytes) : bool :=
  match es with
  | [] => false
  | e :: es => modifies1 s e k || modifies (s <| keyspace := ks_apply s e |>) es k
  end.

Lemma touch_keyspace s db key s' : minv s → touchWatchedKey s db key = Some s' → keyspace s' = keyspace s.
Proof.
  intros Hi Hs'. destruct (touchWatchedKey_ok s db key Hi) as (s1 & Hs1 & Ht & _). rewrite Hs' in Hs1. injection Hs1 as <-.
  by apply elsewhere_settings, (to_else _ _ _ Ht).
Qed.

Lemma touchAll_keyspace s db r s' : minv s → touchAllWatchedKeysInDb s db r = Some s' → keyspace s' = keyspace s ∧ minv s'.
Proof.
  intros Hi Hs'. destruct (touchAll_ok s db r Hi) as (s1 & Hs1 & Ht & _). rewrite Hs' in Hs1. injection Hs1 as <-.
  split; [by apply elsewhere_settings, (te_else _ _ Ht)|apply Ht].
Qed.

Lemma expireIfNeeded_ks s db key force avoid s' b : minv s → expireIfNeeded s db key force avoid = Some (s', b) →
  keyspace s' = (if expires_now s db key force avoid then delete (db, key) (keyspace s) else keyspace s) ∧ minv s'.
Proof.
  intros Hi Hs'. assert (minv s') as Hi'.
  { destruct (expireIfNeeded_ok s db key force avoid Hi) as (s1 & b1 & Hs1 & Hca & _). rewrite Hs' in Hs1. injection Hs1 as <- <-. apply Hca. }
  split; [|done]. unfold expireIfNeeded, expires_now in *.
  destruct (lazy_expire_disabled s); [by injection Hs' as <- _|]. destruct (keyIsExpired s db key) eqn:Hexp; [|by injection Hs' as <- _].
  cbn [negb andb] in *. destruct (masterhost s), (from_master s), force, avoid, (expire_paused s); cbn [negb andb orb] in *; try (by injection Hs' as <- _).
  all: apply bind_Some in Hs' as (s1 & Hs1 & [= <- <-]); unfold deleteExpiredKeyAndPropagate, dbGenericDelete, signalModifiedKey in Hs1;
    rewrite (expired_exists _ _ _ Hexp) in Hs1; apply touch_keyspace in Hs1; [done|by apply minv_keyspace].
Qed.

Lemma apply_effect_ks s e s' : minv s → apply_effect s e = Some s' → keyspace s' = ks_apply s e.
Proof.
  intros Hi. destruct e as [db key|db key v|db key|db|db1 db2]; cbn [apply_effect ks_apply].
  - intros ([s1 b] & Hs1 & [= <-])%bind_Some. by apply expireIfNeeded_ks in Hs1 as [-> _].
  - unfold write_key. intros ([s1 b] & Hs1 & Hs')%bind_Some. apply expireIfNeeded_ks in Hs1 as [Hks Hi1]; [|done]. apply touch_keyspace in Hs'; [|by apply minv_keyspace].
    rewrite Hs'. cbn. rewrite Hks. destruct (expires_now _ _ _ _ _); [by rewrite insert_delete_eq|done].
  - unfold delete_key. intros ([s1 b] & Hs1 & Hs')%bind_Some. apply expireIfNeeded_ks in Hs1 as [Hks Hi1]; [|done]. unfold dbGenericDelete in Hs'.
    assert (delete (db, key) (keyspace s1) = delete (db, key) (keyspace s)) as Hd.
    { rewrite Hks. destruct (expires_now _ _ _ _ _); [|done]. apply delete_id, lookup_delete_eq. }
    destruct (key_exists s1 db key) eqn:Hex.
    + unfold signalModifiedKey in Hs'. apply touch_keyspace in Hs'; [|by apply minv_keyspace]. rewrite Hs'. cbn. exact Hd.
    + injection Hs' as <-. rewrite <- Hd. symmetry. apply delete_id. unfold key_exists in Hex. apply bool_decide_eq_false in Hex. by apply eq_None_not_Some.
  - unfold flush_db. intros (s1 & Hs1 & [= <-])%bind_Some. apply touchAll_keyspace in Hs1 as [Hks _]; [|done]. cbn. by rewrite Hks.
  - unfold dbSwapDatabases. case_decide; [by intros [= <-]|]. intros (s1 & Hs1 & Hs2)%bind_Some. apply bind_Some in Hs2 as (s2 & Hs2 & [= <-]).
    apply touchAll_keyspace in Hs1 as [Hks1 Hi1]; [|done]. apply touchAll_keyspace in Hs2 as [Hks2 _]; [|done]. cbn. by rewrite Hks2, Hks1.
Qed.

Lemma ks_apply_settings s s' ks e : settings s' = settings s → ks_apply (s' <| keyspace := ks |>) e = ks_apply (s <| keyspace := ks |>) e.
Proof.
  unfold settings. intros [= Hn Hl Hm Hf Hz Hp]. destruct e; cbn; try done. unfold expires_now, keyIsExpired, getExpire. cbn. by rewrite Hn, Hl, Hm, Hf, Hz, Hp.
Qed.

Lemma ks_foldl_settings s s' es : ∀ ks, settings s' = settings s →
  foldl (λ ks e, ks_apply (s' <| keyspace := ks |>) e) ks es = foldl (λ ks e, ks_apply (s <| keyspace := ks |>) e) ks es.
Proof. induction es as [|e es IH]; intros ks Hs; cbn [foldl]; [done|]. by rewrite IH, (ks_apply_settings s s' ks e). Qed.

Lemma ks_run_settings s s' es : settings s' = settings s → keyspace s' = keyspace s → ks_run s' es = ks_run s es.
Proof. intros Hs Hk. unfold ks_run. rewrite Hk. by apply ks_foldl_settings. Qed.

Lemma ks_run_app s s' es es' : settings s' = settings s → keyspace s' = ks_run s es → ks_run s' es' = ks_run s (es ++ es').
Proof. intros Hs Hk. unfold ks_run. rewrite foldl_app, Hk. by apply ks_foldl_settings. Qed.

Lemma apply_effects_ks es : ∀ s s', minv s → apply_effects s es = Some s' → keyspace s' = ks_run s es.
Proof.
  induction es as [|e es IH]; intros s s' Hi; cbn [apply_effects]; [by intros [= <-]|].
  intros (s1 & Hs1 & Hs')%bind_Some. destruct (apply_effect_ok s e Hi) as (s2 & Hs2 & Haf & _). rewrite Hs1 in Hs2. injection Hs2 as <-.
  apply IH in Hs'; [|apply Haf]. rewrite Hs'. unfold ks_run. cbn [foldl]. rewrite keyspace_same, <- (apply_effect_ks s e s1 Hi Hs1).
  apply ks_foldl_settings, Haf.
Qed.

(** Only the keyspace and the settings count. *)
Lemma modifies1_settings s s' e k : settings s' = settings s → keyspace s' = keyspace s → modifies1 s' e k = modifies1 s e k.
Proof.
  unfold settings. intros [= Hn Hl Hm Hf Hz Hp] Hks. unfold modifies1, expires_now, keyIsExpired, getExpire, key_exists.
  by rewrite Hn, Hl, Hm, Hf, Hz, Hp, Hks.
Qed.

Lemma modifies_settings es k : ∀ s s', settings s' = settings s → keyspace s' = keyspace s → modifies s' es k = modifies s es k.
Proof.
  induction es as [|e es IH]; intros s s' Hs Hk; cbn [modifies]; [done|]. f_equal; [by apply modifies1_settings|]. apply IH; [done|]. cbn.
  rewrite <- (keyspace_same s), <- (keyspace_same s'), Hk. by apply ks_apply_settings.
Qed.

Lemma modifies_app es es' k : ∀ s, modifies s (es ++ es') k = modifies s es k || modifies (s <| keyspace := ks_run s es |>) es' k.
Proof.
  induction es as [|e es IH]; intros s; [by destruct s|]. cbn [app modifies]. rewrite IH, orb_assoc. f_equal.
Qed.

(** ** Whoever watches a key is told of its changes *)

Lemma apply_effect_tell s e k : minv s → no_swap e → normal s → marks_ok s → modifies1 s e k = true →
  ∃ s', apply_effect s e = Some s' ∧ ∀ c, guarded s c k → dirty_in s' c.
Proof.
  intros Hi He Hn Hm. destruct e as [db key|db key v|db key|db|db1 db2]; cbn [apply_effect modifies1]; [| | | |done].
  - intros [Hk%bool_decide_eq_true Hexp]%andb_true_iff. subst k.
    destruct (expireIfNeeded_ok s db key false false Hi) as (s' & b & Hs' & _ & _ & _ & Htell). rewrite Hs'. bind_simpl. exists s'. split; [done|].
    apply Htell. apply expireIfNeeded_ks in Hs' as [Hks _]; [|done]. rewrite Hexp in Hks. rewrite Hks. intros Heq.
    unfold expires_now in Hexp. apply andb_true_iff in Hexp as [[[[_ Hx]%andb_true_iff _]%andb_true_iff _]%andb_true_iff _].
    apply expired_exists in Hx. unfold key_exists in Hx. apply bool_decide_eq_true in Hx as [v Hv]. rewrite <- Heq, lookup_delete_eq in Hv. done.
  - intros Hk%bool_decide_eq_true. subst k. destruct (write_key_ok s db key v Hi) as (s' & -> & _ & _ & Htell). exists s'. split; [done|]. by apply Htell.
  - intros [Hk%bool_decide_eq_true Hex]%andb_true_iff. subst k. destruct (delete_key_ok s db key Hi) as (s' & -> & _ & Htell). exists s'. split; [done|]. by apply Htell.
  - intros [Hk%bool_decide_eq_true Hex]%andb_true_iff. destruct k as [db' key]. cbn in Hk, Hex. subst db'.
    destruct (flush_db_ok s db Hi) as (s' & -> & _ & Htell). exists s'. split; [done|]. intros c. by apply Htell.
Qed.

Lemma apply_effects_tell es k : ∀ s, minv s → Forall no_swap es → normal s → marks_ok s → modifies s es k = true →
  ∃ s', apply_effects s es = Some s' ∧ ∀ c, guarded s c k → dirty_in s' c.
Proof.
  induction es as [|e es IH]; intros s Hi Hns Hn Hm Hmod; [done|]. cbn [apply_effects modifies] in *. apply Forall_cons in Hns as [He Hns].
  destruct (apply_effect_ok s e Hi) as (s1 & Hs1 & Haf & Hca). rewrite Hs1. bind_simpl. specialize (Hca He).
  destruct (modifies1 s e k) eqn:Hmod1.
  - destruct (apply_effect_tell s e k) as (s2 & Hs2 & Htell); try done. rewrite Hs1 in Hs2. injection Hs2 as <-.
    destruct (apply_effects_ok es s1 (af_inv _ _ Haf)) as (s' & -> & Haf' & _). exists s'. split; [done|]. intros c Hg.
    apply (kept_stays_dirty s1); [apply Haf'|auto].
  - destruct (IH s1) as (s' & -> & Htell); [apply Haf|done|by eapply normal_settings; [apply Haf|]|by apply Hca| |].
    + rewrite <- Hmod. cbn. apply modifies_settings; [apply Haf|]. cbn. by apply apply_effect_ks.
    + exists s'. split; [done|]. intros c Hg. by apply Htell, Hca.
Qed.

(** ** What a client does to its own state *)

Record own (c : Z) (s s' : mserver) : Prop := {
  ow_inv : minv s';
  ow_else : elsewhere s' = elsewhere s;
  ow_others : ∀ c', c' ≠ c → clients s' !! c' = clients s !! c';
  ow_guard : ∀ c' k, c' ≠ c → guarded s c' k → guarded s' c' k;
  ow_marks : marks_ok s → marks_ok s'
}.

Lemma own_refl c s : minv s → own c s s.
Proof. intros Hi. by split. Qed.

Lemma own_trans c s1 s2 s3 : own c s1 s2 → own c s2 s3 → own c s1 s3.
Proof.
  intros [Hi1 He1 Ho1 Hg1 Hm1] [Hi2 He2 Ho2 Hg2 Hm2]. split; [done|congruence| |auto|auto].
  intros c' Hc'. rewrite Ho2 by done. auto.
Qed.

(** The watched structures of the other clients stay, none is added or marked. *)
Lemma own_intro c s s' : minv s' → elsewhere s' = elsewhere s → (∀ c', c' ≠ c → clients s' !! c' = clients s !! c') →
  (∀ p wk, wkeys s !! p = Some wk → wk_client wk ≠ c → wkeys s' !! p = Some wk) →
  (∀ p wk, wkeys s' !! p = Some wk → wkeys s !! p = Some wk ∨ wk_expired wk = keyIsExpired s (wk_db wk) (wk_key wk)) → own c s s'.
Proof.
  intros Hi He Ho Hk Hn. split; try done.
  - intros c' k Hc' [(cl & Hcl & Hd)|(p & wk & Hwk & Hcw & Hrest)]; [left; exists cl; by rewrite Ho|right].
    exists p, wk. split; [|done]. apply Hk; [done|congruence].
  - intros Hm p wk Hwk Hexp. rewrite (expired_else _ _ _ _ He). destruct (Hn p wk Hwk) as [Hold|Hnew]; [by apply (Hm p wk)|congruence].
Qed.

Lemma own_on_client s c cl f : minv s → clients s !! c = Some cl → m_watched (f cl) = m_watched cl → queue_ok (f cl) →
  ∃ s', on_client s c f = Some s' ∧ own c s s' ∧ wkeys s' = wkeys s ∧ clients s' !! c = Some (f cl).
Proof.
  intros Hi Hc Hw Hq. destruct (on_client_ok s c cl f Hi Hc Hw Hq) as [-> Hi']. eexists. split; [done|]. split_and!; [|done|cbn; by rewrite lookup_insert_eq].
  apply own_intro; try done; [|by left]. intros c' Hc'. cbn. by rewrite lookup_insert_ne.
Qed.

Lemma own_unwatch s c cl : minv s → clients s !! c = Some cl →
  ∃ s', unwatchAllKeys s c = Some s' ∧ own c s s' ∧ clients s' !! c = Some (cl <| m_watched := [] |>).
Proof.
  intros Hi Hc. destruct (unwatchAllKeys_ok s c cl Hi Hc) as (s' & -> & [Hcl Hw Hn [He _] Hi']). exists s'. split_and!; [done| |by rewrite Hcl, lookup_insert_eq].
  destruct (mi_client _ Hi c cl Hc) as [_ Hm]. apply own_intro; try done.
  - intros c' Hc'. by rewrite Hcl, lookup_insert_ne.
  - intros p wk Hwk Hne. rewrite Hw, decide_False; [done|]. intros (x & Hx & Hcx)%Hm. congruence.
  - intros p wk Hwk. rewrite Hw in Hwk. case_decide; [done|by left].
Qed.

Lemma queue_ok_empty cl : queue_ok cl → queue_ok (end_transaction cl).
Proof.
  intros [_ _ Hb]. split; [by left|constructor|]. unfold m_has in *. cbn. apply bool_decide_eq_false in Hb. apply bool_decide_eq_false. set_solver.
Qed.

Lemma discardTransaction_ok s c cl : minv s → clients s !! c = Some cl →
  ∃ s', discardTransaction s c = Some s' ∧ own c s s' ∧ clients s' !! c = Some (end_transaction cl <| m_watched := [] |>).
Proof.
  intros Hi Hc. unfold discardTransaction.
  destruct (own_on_client s c cl end_transaction) as (s1 & -> & Ho1 & _ & Hc1); try done; [apply queue_ok_empty; by apply (mi_queue _ Hi c)|].
  bind_simpl. destruct (own_unwatch s1 c (end_transaction cl)) as (s' & -> & Ho & Hc'); [apply Ho1|done|].
  exists s'. split_and!; [done|by eapply own_trans|done].
Qed.

Lemma reply_ok r cl : queue_ok cl → queue_ok (add_reply r cl).
Proof. intros []. by split. Qed.

Lemma own_reply s c cl r : minv s → clients s !! c = Some cl →
  ∃ s', on_client s c (add_reply r) = Some s' ∧ own c s s' ∧ wkeys s' = wkeys s ∧ clients s' !! c = Some (add_reply r cl).
Proof. intros Hi Hc. apply own_on_client; try done. by apply reply_ok, (mi_queue _ Hi c). Qed.

Lemma watch_keys_ok keys : ∀ s c cl, minv s → clients s !! c = Some cl →
  ∃ s' cl', watch_keys s c keys = Some s' ∧ own c s s' ∧ clients s' !! c = Some cl' ∧ m_flags cl' = m_flags cl ∧ m_db cl' = m_db cl ∧
    m_commands cl' = m_commands cl ∧ (∀ p wk, wkeys s !! p = Some wk → wkeys s' !! p = Some wk) ∧
    (∀ key, key ∈ keys → keyIsExpired s (m_db cl) key = false → marks_ok s → watching s' c (m_db cl, key)).
Proof.
  induction keys as [|key keys IH]; intros s c cl Hi Hc; cbn [watch_keys].
  - exists s, cl. split; [done|]. split; [by apply own_refl|]. split_and!; try done. by intros key ?%not_elem_of_nil.
  - destruct (watchForKey_ok s c cl key Hi Hc) as (s1 & -> & Hi1 & Hor). bind_simpl.
    assert (∃ cl1, own c s s1 ∧ clients s1 !! c = Some cl1 ∧ m_flags cl1 = m_flags cl ∧ m_db cl1 = m_db cl ∧ m_commands cl1 = m_commands cl ∧
      (∀ p wk, wkeys s !! p = Some wk → wkeys s1 !! p = Some wk) ∧
      (keyIsExpired s (m_db cl) key = false → marks_ok s → watching s1 c (m_db cl, key)))
      as (cl1 & Ho1 & Hc1 & Hf1 & Hdb1 & Hq1 & Hk1 & Hw1).
    { destruct Hor as [(-> & p & wk & Hwk & Hcw & Hat)| -> ].
      - exists cl. split; [by apply own_refl|]. split_and!; try done.
        intros Hexp Hm. exists p, wk. split_and!; try done. destruct (wk_expired wk) eqn:He; [|done]. pose proof (Hm p wk Hwk He) as Hx.
        unfold wk_at in Hat. injection Hat as Hdb Hkey. rewrite Hdb, Hkey in Hx. congruence.
      - set (p0 := wnext s). set (wk0 := mk_wk key (m_db cl) c (keyIsExpired s (m_db cl) key)).
        assert (∀ p wk, wkeys s !! p = Some wk → p ≠ p0) as Hfr.
        { intros p wk Hp ->. assert (p0 < wnext s)%positive by (apply (mi_fresh _ Hi); eauto). unfold p0 in *. lia. }
        assert (∀ p wk, wkeys (add_watch s c cl key) !! p = Some wk → wkeys s !! p = Some wk ∨ (p = p0 ∧ wk = wk0)) as Hto.
        { intros p wk. unfold add_watch. cbn. rewrite lookup_insert_Some. intros [[<- <-]|[_ ?]]; [by right|by left]. }
        assert (∀ p wk, wkeys s !! p = Some wk → wkeys (add_watch s c cl key) !! p = Some wk) as Hfrom.
        { intros p wk Hp. unfold add_watch. cbn. rewrite lookup_insert_ne; [done|]. symmetry. by apply (Hfr p wk). }
        exists (cl <| m_watched := m_watched cl ++ [p0] |>). split_and!; try done.
        + apply own_intro; try done.
          * intros c' Hc'. unfold add_watch. cbn. by rewrite lookup_insert_ne.
          * intros p wk Hwk _. by apply Hfrom.
          * intros p wk [?|[-> ->]]%Hto; [by left|by right].
        + unfold add_watch. cbn. by rewrite lookup_insert_eq.
        + intros Hexp _. exists p0, wk0. split_and!; try done. unfold add_watch. cbn. by rewrite lookup_insert_eq. }
    destruct (IH s1 c cl1 Hi1 Hc1) as (s' & cl' & -> & Ho & Hc' & Hf & Hdb & Hq & Hk & Hw). exists s', cl'.
    split_and!; try done; try congruence; [by eapply own_trans|auto|]. intros key' [->|Hkey]%elem_of_cons Hexp Hm.
    + destruct (Hw1 Hexp Hm) as (p & wk & Hwk & Hrest). exists p, wk. split; [by apply Hk|done].
    + rewrite <- Hdb1. apply Hw; [done| |by apply Ho1]. by rewrite (expired_else _ _ _ _ (ow_else _ _ _ Ho1)), Hdb1.
Qed.

(** ** The queued commands *)

Section commands.

Context (effects : Z → list bytes → Z → list effect) (dbnum : Z) (cluster_enabled : bool) (ACLCheckAllPerm : mserver → Z → option bytes).

(** No command swaps databases. *)
Definition swapless : Prop := ∀ id args db, Forall no_swap (effects id args db).

(** What a queued command does to the keyspace. *)
Definition cmd_effects (db : Z) (mc : multiCmd) : list effect :=
  match mc_cmd mc with otherCmd id => effects id (mc_argv mc) db | _ => [] end.

(** The database of the client after a queued command. *)
Definition db_after (db : Z) (mc : multiCmd) : Z :=
  match mc_cmd mc, mc_argv mc with
  | selectCmd, [_; arg] => match select_target dbnum cluster_enabled arg with inr db' => db' | inl _ => db end
  | _, _ => db
  end.

(** What the queued commands do, each in the database that the ones before it selected. *)
Fixpoint queue_effects (db : Z) (mcs : list multiCmd) : list effect :=
  match mcs with
  | [] => []
  | mc :: mcs => cmd_effects db mc ++ queue_effects (db_after db mc) mcs
  end.

(** What a client does to the others, with its commands. *)
Record ran (c : Z) (s s' : mserver) : Prop := {
  ra_inv : minv s';
  ra_settings : settings s' = settings s;
  ra_others : ∀ c', c' ≠ c → option_Forall2 cl_kept (clients s !! c') (clients s' !! c');
  ra_guard : swapless → ∀ c' k, c' ≠ c → guarded s c' k → guarded s' c' k;
  ra_marks : swapless → normal s → marks_ok s → marks_ok s'
}.

Lemma ran_own c s s' : own c s s' → ran c s s'.
Proof.
  intros [Hi He Ho Hg Hm]. apply elsewhere_settings in He as [He _]. split; [done|done| |intros _; exact Hg|intros _ _; exact Hm].
  intros c' Hc'. rewrite Ho by done. destruct (clients s !! c'); constructor. apply cl_kept_refl.
Qed.

Lemma ran_trans c s1 s2 s3 : ran c s1 s2 → ran c s2 s3 → ran c s1 s3.
Proof.
  intros [Hi1 Hs1 Ho1 Hg1 Hm1] [Hi2 Hs2 Ho2 Hg2 Hm2]. split; [done|congruence| |auto|].
  - intros c' Hc'. specialize (Ho1 c' Hc'). specialize (Ho2 c' Hc'). destruct Ho1 as [x y Hxy|]; inversion Ho2 as [y' z Hyz|]; subst; constructor.
    by eapply cl_kept_trans.
  - intros P Hn Hm. apply Hm2; [done| |auto]. by eapply normal_settings.
Qed.

Lemma ran_effects c s s' es : affected s s' → (Forall no_swap es → careful s s') → (swapless → Forall no_swap es) → ran c s s'.
Proof.
  intros [Hi Hs Hc] Hca Hes. split; [done|done|intros c' _; apply Hc| |].
  - intros P c' k _. by apply Hca; auto.
  - intros P. by apply Hca; auto.
Qed.

(** The other clients that watch a key are told when it is changed. *)
Definition tells (c : Z) (s s' : mserver) (es : list effect) : Prop :=
  swapless → normal s → marks_ok s → ∀ k, modifies s es k = true → ∀ c', c' ≠ c → guarded s c' k → dirty_in s' c'.

Lemma tells_then c s s1 s2 es : tells c s s1 es → ran c s1 s2 → tells c s s2 es.
Proof. intros Ht Hr Hsw Hn Hm k Hk c' Hc' Hg. apply (kept_stays_dirty s1); [by apply Hr|]. by eapply Ht. Qed.

Lemma tells_after c s s1 s2 es : own c s s1 → tells c s1 s2 es → tells c s s2 es.
Proof.
  intros [Hi He Ho Hg Hm] Ht Hsw Hn Hmk k Hk c' Hc' Hgu. apply elsewhere_settings in He as [Hse Hks].
  apply (Ht Hsw (normal_settings _ _ Hse Hn) (Hm Hmk) k); [by rewrite (modifies_settings es k s s1)|done|auto].
Qed.

Lemma tells_app c s s1 s2 es es' : ran c s s1 → ran c s1 s2 → keyspace s1 = ks_run s es → tells c s s1 es → tells c s1 s2 es' → tells c s s2 (es ++ es').
Proof.
  intros Hr1 Hr2 Hks Ht1 Ht2 Hsw Hn Hm k Hk c' Hc' Hg. rewrite modifies_app in Hk. apply orb_true_iff in Hk as [Hk|Hk].
  - by apply (tells_then c s s1 s2 es Ht1 Hr2 Hsw Hn Hm k).
  - destruct Hr1 as [Hi1 Hs1 Ho1 Hg1 Hm1]. apply (Ht2 Hsw (normal_settings _ _ Hs1 Hn) (Hm1 Hsw Hn Hm) k); [|done|auto].
    rewrite <- Hk. by apply modifies_settings.
Qed.

Lemma tells_nothing c s s' : tells c s s' [].
Proof. by intros _ _ _ k. Qed.

(** The fields of a client that a queued command keeps. *)
Definition same_command (cl cl' : mclient) : Prop :=
  m_commands cl' = m_commands cl ∧ m_cmd cl' = m_cmd cl ∧ m_argv cl' = m_argv cl ∧ m_argv_len cl' = m_argv_len cl ∧
  m_replies cl `prefix_of` m_replies cl' ∧ (∀ f, f ≠ CLIENT_DIRTY_CAS → m_has f cl' = m_has f cl).

Lemma kept_same_command cl cl' : cl_kept cl cl' → same_command cl cl'.
Proof.
  intros (F & w & -> & HF). repeat split; try done. intros f Hf. unfold m_has. cbn. apply bool_decide_ext. destruct HF as [->| ->]; set_solver.
Qed.

Lemma clear_dirty_same cl : same_command cl (add_reply R_ok (cl <| m_watched := [] |> <| m_flags := m_flags cl ∖ {[CLIENT_DIRTY_CAS]} |>)).
Proof. repeat split; try done; [by eexists|]. intros f Hf. unfold m_has. cbn. apply bool_decide_ext. set_solver. Qed.

Lemma unwatchCommand_ok s c cl : minv s → clients s !! c = Some cl →
  ∃ s', unwatchCommand s c = Some s' ∧ own c s s' ∧
    clients s' !! c = Some (add_reply R_ok (cl <| m_watched := [] |> <| m_flags := m_flags cl ∖ {[CLIENT_DIRTY_CAS]} |>)).
Proof.
  intros Hi Hc. unfold unwatchCommand. destruct (own_unwatch s c cl Hi Hc) as (s1 & -> & Ho1 & Hc1). bind_simpl.
  destruct (own_on_client s1 c (cl <| m_watched := [] |>) (λ cl, add_reply R_ok (cl <| m_flags := m_flags cl ∖ {[CLIENT_DIRTY_CAS]} |>)))
    as (s' & -> & Ho & _ & Hc'); try done; [apply Ho1| |].
  - destruct (mi_queue _ Hi c cl Hc) as [Ha Hq Hb]. split; try done. unfold m_has in *. cbn. apply bool_decide_eq_false in Hb. apply bool_decide_eq_false. set_solver.
  - exists s'. split_and!; [done|by eapply own_trans|done].
Qed.

Lemma selectCommand_ok s c cl : minv s → clients s !! c = Some cl → length (m_argv cl) = 2%nat →
  ∃ s' r, selectCommand dbnum cluster_enabled s c = Some s' ∧ own c s s' ∧ wkeys s' = wkeys s ∧
    clients s' !! c = Some (add_reply r (cl <| m_db := db_after (m_db cl) (mk_mcmd selectCmd (m_argv cl) (m_argv_len cl)) |>)).
Proof.
  intros Hi Hc Har. unfold selectCommand, db_after. rewrite Hc. bind_simpl. cbn [mc_cmd mc_argv].
  destruct (m_argv cl) as [|name [|arg [|]]] eqn:Ha; try done. cbn [lookup list_lookup]. bind_simpl.
  destruct (select_target dbnum cluster_enabled arg) as [err|db].
  - destruct (own_reply s c cl (R_error err) Hi Hc) as (s' & -> & Ho & Hwk & Hc'). exists s', (R_error err). split_and!; [done|done|done|]. rewrite Hc'. by destruct cl.
  - destruct (own_on_client s c cl (λ cl, add_reply R_ok (cl <| m_db := db |>))) as (s' & -> & Ho & Hwk & Hc'); try done.
    + destruct (mi_queue _ Hi c cl Hc). by split.
    + by exists s', R_ok.
Qed.

Lemma call_queued_ok s c cl : minv s → clients s !! c = Some cl → queueable (m_cmd cl) = true → arity_ok (m_cmd cl) (m_argv cl) →
  ∃ s' cl', call effects dbnum cluster_enabled s c = Some s' ∧ ran c s s' ∧ clients s' !! c = Some cl' ∧ same_command cl cl' ∧
    m_db cl' = db_after (m_db cl) (mk_mcmd (m_cmd cl) (m_argv cl) (m_argv_len cl)) ∧
    keyspace s' = ks_run s (cmd_effects (m_db cl) (mk_mcmd (m_cmd cl) (m_argv cl) (m_argv_len cl))) ∧
    tells c s s' (cmd_effects (m_db cl) (mk_mcmd (m_cmd cl) (m_argv cl) (m_argv_len cl))).
Proof.
  intros Hi Hc Hq Har. unfold call, cmd_effects. rewrite Hc. bind_simpl. cbn [mc_cmd mc_argv].
  destruct (m_cmd cl) as [| | | | | | | |id] eqn:Hcmd; try (by vm_compute in Hq).
  - destruct (unwatchCommand_ok s c cl Hi Hc) as (s' & -> & Ho & Hc'). eexists s', _. split_and!; [done|by apply ran_own|done|apply clear_dirty_same|done| |apply tells_nothing].
    by apply elsewhere_settings, Ho.
  - destruct (selectCommand_ok s c cl Hi Hc (Har eq_refl)) as (s' & r & -> & Ho & _ & Hc'). eexists s', _. split; [done|]. split; [by apply ran_own|]. split; [done|].
    split; [by repeat split; try (by eexists)|]. split; [done|]. split; [by apply elsewhere_settings, Ho|apply tells_nothing].
  - destruct (apply_effects_ok (effects id (m_argv cl) (m_db cl)) s Hi) as (s' & Hs' & Haf & Hca). rewrite Hs'.
    pose proof (af_clients _ _ Haf c) as Hf. rewrite Hc in Hf. inversion Hf as [x y Hxy|]; subst. exists s', y.
    split_and!; [done|by eapply ran_effects; [done|done|intros P; apply P]|done|by apply kept_same_command| |by apply apply_effects_ks|].
    + destruct Hxy as (F & w & -> & _). done.
    + intros Hsw Hn Hm k Hk c' _. destruct (apply_effects_tell (effects id (m_argv cl) (m_db cl)) k s) as (s2 & Hs2 & Htell); try done.
      rewrite Hs' in Hs2. injection Hs2 as <-. apply Htell.
Qed.

Lemma exec_loop_ok rest : ∀ fuel s c cl d, (length rest < fuel)%nat → minv s → clients s !! c = Some cl → m_commands cl = d ++ rest →
  ∃ s' cl', exec_loop (call effects dbnum cluster_enabled) ACLCheckAllPerm fuel s c (length d) = Some s' ∧ ran c s s' ∧ clients s' !! c = Some cl' ∧
    m_commands cl' = m_commands cl ∧ m_replies cl `prefix_of` m_replies cl' ∧ (∀ f, f ≠ CLIENT_DIRTY_CAS → m_has f cl' = m_has f cl) ∧
    ((∀ s c, ACLCheckAllPerm s c = None) → keyspace s' = ks_run s (queue_effects (m_db cl) rest) ∧ tells c s s' (queue_effects (m_db cl) rest)).
Proof.
  induction rest as [|mc rest IH]; intros fuel s c cl d Hf Hi Hc Hm; (destruct fuel as [|fuel]; [simpl in Hf; lia|]); cbn [exec_loop]; rewrite Hc; bind_simpl.
  - rewrite app_nil_r in Hm. rewrite Hm, lookup_ge_None_2 by done. exists s, cl. split_and!; try done. by apply ran_own, own_refl.
  - assert (m_commands cl !! length d = Some mc) as Hj by (rewrite Hm, lookup_app_r, Nat.sub_diag by lia; done). rewrite Hj.
    pose proof (mi_queue _ Hi c cl Hc) as [Hqa Hqc Hqr].
    destruct (own_on_client s c cl (λ cl, cl <| m_argv := mc_argv mc |> <| m_argv_len := mc_argv_len mc |> <| m_cmd := mc_cmd mc |>))
      as (s1 & -> & Ho1 & _ & Hc1); try done. bind_simpl. set (cl1 := cl <| m_argv := _ |> <| m_argv_len := _ |> <| m_cmd := _ |>) in *.
    assert (∃ s2 cl2, (match ACLCheckAllPerm s1 c with
       | Some reason => on_client s1 c (add_reply (R_error (str "-NOPERM ACLs rules changed between the moment the transaction was accumulated and the EXEC call. This command is no longer allowed for the following reason: " ++ reason)))
       | None => s ← call effects dbnum cluster_enabled s1 c; cl ← clients s !! c; if m_has CLIENT_BLOCKED cl then None else Some s end) = Some s2 ∧
       ran c s1 s2 ∧ clients s2 !! c = Some cl2 ∧ same_command cl1 cl2 ∧
       (ACLCheckAllPerm s1 c = None → m_db cl2 = db_after (m_db cl) mc ∧ keyspace s2 = ks_run s1 (cmd_effects (m_db cl) mc) ∧ tells c s1 s2 (cmd_effects (m_db cl) mc))) as (s2 & cl2 & Hs2 & Hr2 & Hc2 & Hsame & Hks2).
    { destruct (ACLCheckAllPerm s1 c) as [reason|].
      - destruct (own_reply s1 c cl1 (R_error (str "-NOPERM ACLs rules changed between the moment the transaction was accumulated and the EXEC call. This command is no longer allowed for the following reason: " ++ reason))) as (s2 & -> & Ho2 & _ & Hc2); [apply Ho1|done|].
        eexists s2, _. split_and!; [done|by apply ran_own|done| |done]. by repeat split; try (by eexists).
      - assert (queueable (mc_cmd mc) = true ∧ arity_ok (mc_cmd mc) (mc_argv mc)) as [Hqm Har]
          by (rewrite Forall_forall in Hqc; apply Hqc; by apply list_elem_of_lookup_2 in Hj).
        destruct (call_queued_ok s1 c cl1) as (s2 & cl2 & -> & Hr2 & Hc2 & Hsame & Hdb & Hks & Htell); [apply Ho1|done|done|done|]. bind_simpl. rewrite Hc2. bind_simpl.
        rewrite (qo_running _ (mi_queue _ (ra_inv _ _ _ Hr2) c cl2 Hc2)). exists s2, cl2. split_and!; done. }
    rewrite Hs2. bind_simpl. destruct Hsame as (Hs1 & Hs3 & Hs4 & Hs5 & Hs6 & Hs7).
    assert (<[length d := mk_mcmd (m_cmd cl2) (m_argv cl2) (m_argv_len cl2)]> (m_commands cl2) = m_commands cl2) as Hid.
    { apply list_insert_id. rewrite Hs1, Hs3, Hs4, Hs5. change (m_commands cl1) with (m_commands cl). rewrite Hj. by destruct mc. }
    destruct (own_on_client s2 c cl2 (λ cl, cl <| m_commands := <[length d := mk_mcmd (m_cmd cl) (m_argv cl) (m_argv_len cl)]> (m_commands cl) |>))
      as (s3 & -> & Ho3 & _ & Hc3); [apply Hr2|done|done| |].
    { pose proof (mi_queue _ (ra_inv _ _ _ Hr2) c cl2 Hc2) as [Ha Hq Hb]. split; cbn; rewrite ?Hid; done. }
    bind_simpl. cbn beta in Hc3. set (cl3 := cl2 <| m_commands := _ |>) in *.
    assert (m_commands cl3 = m_commands cl) as Hm3 by (unfold cl3; cbn; rewrite Hid; exact Hs1).
    destruct (IH fuel s3 c cl3 (d ++ [mc])) as (s' & cl' & Hs' & Hr' & Hc' & Hm' & Hp' & Hfl' & Hks'); [simpl in Hf; lia|apply Ho3|done|rewrite Hm3, Hm; by rewrite <- app_assoc|].
    rewrite length_app in Hs'. cbn [length] in Hs'. rewrite Nat.add_1_r in Hs'. exists s', cl'.
    assert (ran c s s3) as Hr13 by (eapply ran_trans; [by apply ran_own|eapply ran_trans; [done|by apply ran_own]]).
    split_and!; [done|by eapply ran_trans|done|congruence| | |].
    + etrans; [|exact Hp']. exact Hs6.
    + intros f Hff. rewrite Hfl' by done. change (m_has f cl3) with (m_has f cl2). by rewrite Hs7.
    + intros Hacl. destruct (Hks' Hacl) as [-> Ht']. cbn [queue_effects]. change (m_db cl3) with (m_db cl2) in *. destruct (Hks2 (Hacl _ _)) as (Hdb2 & Hks2' & Ht2).
      rewrite Hdb2 in *. pose proof (elsewhere_settings _ _ (ow_else _ _ _ Ho1)) as [Hset1 Hk1]. pose proof (elsewhere_settings _ _ (ow_else _ _ _ Ho3)) as [_ Hk3].
      assert (keyspace s3 = ks_run s (cmd_effects (m_db cl) mc)) as Hks3 by (rewrite Hk3, Hks2'; by apply ks_run_settings).
      split; [apply ks_run_app; [apply Hr13|done]|]. apply (tells_app c s s3 s'); try done.
      apply (tells_then c s s2); [by apply (tells_after c s s1)|by apply ran_own].
Qed.

(** ** EXEC *)

Lemma watched_expired_ok s l : (∀ p, p ∈ l → is_Some (wkeys s !! p)) → ∃ b, watched_expired s l = Some b.
Proof.
  induction l as [|ln l IH]; intros Hl; cbn [watched_expired]; [eauto|]. destruct (Hl ln ltac:(set_solver)) as [wk ->]. bind_simpl.
  destruct IH as [b Hb]; [set_solver|]. rewrite Hb. destruct (wk_expired wk); [eauto|]. destruct (keyIsExpired _ _ _); eauto.
Qed.

Lemma isWatchedKeyExpired_ok s c cl : minv s → clients s !! c = Some cl → ∃ b, isWatchedKeyExpired s c = Some b.
Proof.
  intros Hi Hc. unfold isWatchedKeyExpired. rewrite Hc. bind_simpl. apply watched_expired_ok.
  intros p (wk & Hwk & _)%(mi_client _ Hi c cl Hc). eauto.
Qed.

(** The transaction of a client is over. *)
Definition no_transaction (cl : mclient) : Prop :=
  m_commands cl = [] ∧ m_watched cl = [] ∧ m_has CLIENT_MULTI cl = false ∧ m_has CLIENT_DIRTY_CAS cl = false ∧ m_has CLIENT_DIRTY_EXEC cl = false.

Lemma end_no_transaction cl : no_transaction (end_transaction cl <| m_watched := [] |>).
Proof. split_and!; try done; unfold m_has; cbn; apply bool_decide_eq_false; set_solver. Qed.

Lemma execCommand_ok s c cl : minv s → clients s !! c = Some cl →
  ∃ s' cl' expired, execCommand (call effects dbnum cluster_enabled) ACLCheckAllPerm s c = Some s' ∧ ran c s s' ∧ clients s' !! c = Some cl' ∧
    isWatchedKeyExpired s c = Some expired ∧
    if m_has CLIENT_MULTI cl then
      no_transaction cl' ∧
      if expired || m_has CLIENT_DIRTY_CAS cl || m_has CLIENT_DIRTY_EXEC cl
      then keyspace s' = keyspace s ∧ m_replies cl' = m_replies cl ++ [if m_has CLIENT_DIRTY_EXEC cl then R_execabort else R_nullarray]
      else m_replies cl ++ [R_array (zlen (m_commands cl))] `prefix_of` m_replies cl' ∧
        ((∀ s c, ACLCheckAllPerm s c = None) → keyspace s' = ks_run s (queue_effects (m_db cl) (m_commands cl)) ∧
           tells c s s' (queue_effects (m_db cl) (m_commands cl)))
    else keyspace s' = keyspace s ∧ cl' = add_reply (R_error (str "EXEC without MULTI")) cl.
Proof.
  intros Hi Hc. destruct (isWatchedKeyExpired_ok s c cl Hi Hc) as [expired Hexp]. unfold execCommand. rewrite Hc. bind_simpl. rewrite Hexp. bind_simpl.
  pose proof (mi_queue _ Hi c cl Hc) as Hq. destruct (m_has CLIENT_MULTI cl) eqn:Hmulti; cbn [negb].
  2:{ destruct (own_reply s c cl (R_error (str "EXEC without MULTI")) Hi Hc) as (s' & -> & Ho & _ & Hc'). eexists s', _, expired.
      split_and!; try done; [by apply ran_own|by apply elsewhere_settings, Ho]. }
  set (cl1 := if expired then m_set CLIENT_DIRTY_CAS cl else cl).
  assert (∃ s1, (if expired then on_client s c (m_set CLIENT_DIRTY_CAS) else Some s) = Some s1 ∧ own c s s1 ∧ clients s1 !! c = Some cl1) as (s1 & -> & Ho1 & Hc1).
  { unfold cl1. destruct expired; [|exists s; split_and!; [done|by apply own_refl|done]].
    destruct (own_on_client s c cl (m_set CLIENT_DIRTY_CAS)) as (s1 & -> & Ho1 & _ & Hc1); try done; [|by exists s1].
    destruct Hq as [Ha Hb Hr]. split; try done. by rewrite set_other. }
  bind_simpl. rewrite Hc1. bind_simpl.
  assert (m_has CLIENT_DIRTY_CAS cl1 = expired || m_has CLIENT_DIRTY_CAS cl) as Hcas.
  { unfold cl1. destruct expired; [by rewrite set_same|done]. }
  assert (m_has CLIENT_DIRTY_EXEC cl1 = m_has CLIENT_DIRTY_EXEC cl) as Hdex by (unfold cl1; destruct expired; [by rewrite set_other|done]).
  assert (m_replies cl1 = m_replies cl ∧ m_commands cl1 = m_commands cl ∧ m_db cl1 = m_db cl) as (Hrep & Hcmds & Hdb) by (unfold cl1; by destruct expired).
  rewrite Hcas, Hdex. pose proof (elsewhere_settings _ _ (ow_else _ _ _ Ho1)) as [Hset1 Hks1].
  destruct (expired || m_has CLIENT_DIRTY_CAS cl || m_has CLIENT_DIRTY_EXEC cl) eqn:Hfail.
  - destruct (own_reply s1 c cl1 (if m_has CLIENT_DIRTY_EXEC cl then R_execabort else R_nullarray)) as (s2 & -> & Ho2 & _ & Hc2); [apply Ho1|done|]. bind_simpl.
    destruct (discardTransaction_ok s2 c _ (ow_inv _ _ _ Ho2) Hc2) as (s' & -> & Ho' & Hc'). eexists s', _, expired.
    assert (own c s s') as Ho by (eapply own_trans; [done|by eapply own_trans]).
    split; [done|]. split; [by apply ran_own|]. split; [done|]. split; [done|]. split; [apply end_no_transaction|].
    rewrite Hfail. split; [exact (proj2 (elsewhere_settings _ _ (ow_else _ _ _ Ho)))|cbn; by rewrite Hrep].
  - pose proof (mi_queue _ (ow_inv _ _ _ Ho1) c cl1 Hc1) as [Hqa Hqb Hqr].
    destruct (own_on_client s1 c cl1 (m_set CLIENT_DENY_BLOCKING)) as (s2 & -> & Ho2 & _ & Hc2); [apply Ho1|done|done|split; try done; by rewrite set_other|]. bind_simpl.
    destruct (own_unwatch s2 c _ (ow_inv _ _ _ Ho2) Hc2) as (s3 & -> & Ho3 & Hc3). bind_simpl.
    destruct (own_reply s3 c _ (R_array (zlen (m_commands cl1))) (ow_inv _ _ _ Ho3) Hc3) as (s4 & -> & Ho4 & _ & Hc4). bind_simpl.
    set (cl4 := add_reply _ _) in *. pose proof (own_trans _ _ _ _ Ho1 (own_trans _ _ _ _ Ho2 (own_trans _ _ _ _ Ho3 Ho4))) as Ho.
    destruct (exec_loop_ok (m_commands cl4) (S (length (m_commands cl1))) s4 c cl4 []) as (s5 & cl5 & Hs5 & Hr5 & Hc5 & Hm5 & Hp5 & Hfl5 & Hks5);
      [change (m_commands cl4) with (m_commands cl1); lia|apply Ho4|done|done|].
    change (length []) with 0%nat in Hs5. rewrite Hs5. bind_simpl.
    pose proof (mi_queue _ (ra_inv _ _ _ Hr5) c cl5 Hc5) as [Hqa5 Hqb5 Hqr5].
    set (f := λ cl', (if m_has CLIENT_DENY_BLOCKING cl1 then cl' else cl' <| m_flags := m_flags cl' ∖ {[CLIENT_DENY_BLOCKING]} |>)
                       <| m_argv := m_argv cl1 |> <| m_argv_len := m_argv_len cl1 |> <| m_cmd := m_cmd cl1 |>).
    destruct (own_on_client s5 c cl5 f) as (s6 & -> & Ho6 & _ & Hc6); [apply Hr5|done|unfold f; by destruct (m_has CLIENT_DENY_BLOCKING cl1)| |].
    { split; [unfold f; by destruct (m_has CLIENT_DENY_BLOCKING cl1)|unfold f; by destruct (m_has CLIENT_DENY_BLOCKING cl1)|].
      unfold f, m_has in *. cbn. apply bool_decide_eq_false in Hqr5. apply bool_decide_eq_false. destruct (bool_decide (CLIENT_DENY_BLOCKING ∈ m_flags cl1)); cbn; set_solver. }
    bind_simpl. destruct (discardTransaction_ok s6 c _ (ow_inv _ _ _ Ho6) Hc6) as (s' & -> & Ho' & Hc'). eexists s', _, expired.
    split; [done|]. split; [|split; [done|]; split; [done|]; split; [apply end_no_transaction|rewrite Hfail; split]].
    + eapply ran_trans; [by apply ran_own|]. eapply ran_trans; [done|]. apply ran_own. by eapply own_trans.
    + assert (m_replies (end_transaction (f cl5) <| m_watched := [] |>) = m_replies cl5) as -> by (unfold f; by destruct (m_has CLIENT_DENY_BLOCKING cl1)).
      etrans; [|exact Hp5]. unfold cl4. cbn. by rewrite Hrep, Hcmds.
    + intros Hacl. destruct (Hks5 Hacl) as [Hks5' Ht5]. change (m_commands cl4) with (m_commands cl1) in *. change (m_db cl4) with (m_db cl1) in *.
      rewrite Hcmds, Hdb in *. split.
      * pose proof (elsewhere_settings _ _ (ow_else _ _ _ Ho')) as [_ ->]. pose proof (elsewhere_settings _ _ (ow_else _ _ _ Ho6)) as [_ ->].
        rewrite Hks5'. pose proof (elsewhere_settings _ _ (ow_else _ _ _ Ho)) as [Hset Hks]. by rewrite (ks_run_settings s s4).
      * apply (tells_then c s s5); [by apply (tells_after c s s4)|]. apply ran_own. by eapply own_trans.
Qed.

End commands.
