(* ===== verification/MultiRun.v ===== *)
(** * multi.c: histories of a server

Every history of connections, commands, rejections, disconnections and passing time keeps the invariant of [MultiInv] and never uses a freed
structure; a transaction runs exactly the commands that were queued, in their order and at once, or none of them; and a key that is
watched protects: a change of it between WATCH and EXEC stops the transaction. *)

From S2P Require Import Prelude Util Sds Update Resp Multi MultiInv MultiStep MultiExec.

Local Open Scope Z_scope.

(** ** Clients that come and go *)

Lemma no_keys_of s c : minv s → clients s !! c = None → ∀ p wk, wkeys s !! p = Some wk → wk_client wk ≠ c.
Proof. intros Hi Hc p wk Hwk <-. destruct (mi_owner _ Hi p wk Hwk) as [cl Hcl]. congruence. Qed.

Lemma minv_connect s c : minv s → clients s !! c = None → minv (s <| clients := <[c := new_client]> (clients s) |>).
Proof.
  intros Hi Hc. pose proof (no_keys_of s c Hi Hc) as Hno. destruct Hi as [H1 H2 H3 H4 H5 H6 H7]. split; cbn; try done.
  - intros c' cl [[<- <-]|[Hne Hcl]]%lookup_insert_Some; [|by apply H2]. split; [constructor|]. intros p. split; [by intros ?%not_elem_of_nil|].
    intros (wk & Hwk & Hcw). by destruct (Hno p wk Hwk).
  - intros p wk Hwk. rewrite lookup_insert_ne; [by eapply H3|]. intros ->. by destruct (Hno p wk Hwk).
  - intros c' cl [[<- <-]|[Hne Hcl]]%lookup_insert_Some; [|by apply (H7 c')]. split; [by left|constructor|]. done.
Qed.

Lemma minv_disconnect s c cl : minv s → clients s !! c = Some cl → m_watched cl = [] → minv (s <| clients := delete c (clients s) |>).
Proof.
  intros [H1 H2 H3 H4 H5 H6 H7] Hc Hw. assert (∀ p wk, wkeys s !! p = Some wk → wk_client wk ≠ c) as Hno.
  { intros p wk Hwk Hcw. destruct (H2 c cl Hc) as [_ Hm]. rewrite Hw in Hm. apply (not_elem_of_nil p). apply Hm. eauto. }
  split; cbn; try done.
  - intros c' cl' [Hne Hcl]%lookup_delete_Some. by apply H2.
  - intros p wk Hwk. rewrite lookup_delete_ne; [by eapply H3|]. intros ->. by destruct (Hno p wk Hwk).
  - intros c' cl' [Hne Hcl]%lookup_delete_Some. by apply (H7 c').
Qed.

Lemma free_client_ok s c cl : minv s → clients s !! c = Some cl → ∃ s1 s', free_client s c = Some s' ∧ own c s s1 ∧ minv s' ∧ s' = s1 <| clients := delete c (clients s1) |>.
Proof.
  intros Hi Hc. unfold free_client. destruct (own_unwatch s c cl Hi Hc) as (s1 & -> & Ho & Hc1). bind_simpl. exists s1. eexists. split_and!; try done.
  eapply minv_disconnect; [apply Ho|done|done].
Qed.

(** ** The commands of a client *)

Section commands.

Context (effects : Z → list bytes → Z → list effect) (dbnum : Z) (cluster_enabled : bool) (ACLCheckAllPerm : mserver → Z → option bytes).

Abbreviation call := (call effects dbnum cluster_enabled).
Abbreviation exec_the_command := (exec_the_command effects dbnum cluster_enabled ACLCheckAllPerm).
Abbreviation step := (step effects dbnum cluster_enabled ACLCheckAllPerm).
Abbreviation run := (run effects dbnum cluster_enabled ACLCheckAllPerm).

(** The commands that do not end the watches of their client. *)
Definition keeps_watch (cmd : command) : bool := negb (bool_decide (cmd = execCmd ∨ cmd = discardCmd ∨ cmd = unwatchCmd ∨ cmd = resetCmd)).

Lemma guard_self s s' c cl cl' k : clients s !! c = Some cl → clients s' !! c = Some cl' →
  (m_has CLIENT_DIRTY_CAS cl = true → m_has CLIENT_DIRTY_CAS cl' = true) →
  (∀ p wk, wkeys s !! p = Some wk → wkeys s' !! p = Some wk) → guarded s c k → guarded s' c k.
Proof.
  intros Hc Hc' Hd Hk [(x & Hx & Hdx)|(p & wk & Hwk & Hrest)]; [left|right].
  - exists cl'. split; [done|]. apply Hd. congruence.
  - exists p, wk. split; [by apply Hk|done].
Qed.

(** What a command of the client [c] does: the state of the client after it, and its watches. *)
Record commanded (c : Z) (cl : mclient) (cmd : command) (s s' : mserver) (cl' : mclient) : Prop := {
  cm_ran : ran effects c s s';
  cm_client : clients s' !! c = Some cl';
  cm_queue : (length (m_commands cl') ≤ S (length (m_commands cl)))%nat;
  cm_keeps : keeps_watch cmd = true → swapless effects → ∀ k, guarded s c k → guarded s' c k
}.

(** A change of the client itself. *)
Lemma commanded_on s c cl cmd f : minv s → clients s !! c = Some cl → m_watched (f cl) = m_watched cl → queue_ok (f cl) →
  (length (m_commands (f cl)) ≤ S (length (m_commands cl)))%nat → (m_has CLIENT_DIRTY_CAS cl = true → m_has CLIENT_DIRTY_CAS (f cl) = true) →
  ∃ s', on_client s c f = Some s' ∧ commanded c cl cmd s s' (f cl).
Proof.
  intros Hi Hc Hw Hq Hl Hd. destruct (own_on_client s c cl f Hi Hc Hw Hq) as (s' & -> & Ho & Hwk & Hc'). exists s'. split; [done|].
  split; [by apply ran_own|done|done|]. intros _ _ k. apply (guard_self s s' c cl (f cl) k Hc Hc' Hd). intros p wk. by rewrite Hwk.
Qed.

(** A command that ends the watches. *)
Lemma commanded_own s s' c cl cl' cmd : own c s s' → clients s' !! c = Some cl' → (length (m_commands cl') ≤ S (length (m_commands cl)))%nat →
  keeps_watch cmd = false → commanded c cl cmd s s' cl'.
Proof. intros Ho Hc' Hl Hk. split; [by apply ran_own|done|done|congruence]. Qed.

Lemma discardCommand_ok s c cl : minv s → clients s !! c = Some cl → ∃ s' cl', discardCommand s c = Some s' ∧ commanded c cl discardCmd s s' cl'.
Proof.
  intros Hi Hc. unfold discardCommand. rewrite Hc. bind_simpl. destruct (m_has CLIENT_MULTI cl).
  - destruct (discardTransaction_ok s c cl Hi Hc) as (s1 & -> & Ho1 & Hc1). bind_simpl.
    destruct (own_reply s1 c _ R_ok (ow_inv _ _ _ Ho1) Hc1) as (s' & -> & Ho' & _ & Hc'). eexists s', _. split; [done|].
    apply commanded_own; [by eapply own_trans|done|simpl; lia|done].
  - destruct (own_reply s c cl (R_error (str "DISCARD without MULTI")) Hi Hc) as (s' & -> & Ho' & _ & Hc'). eexists s', _. split; [done|].
    apply commanded_own; [done|done|simpl; lia|done].
Qed.

Lemma multi_command_ok s c cl : minv s → clients s !! c = Some cl → ∃ s', multiCommand s c = Some s' ∧ commanded c cl multiCmdProc s s' (multi_command cl).
Proof.
  intros Hi Hc. pose proof (mi_queue _ Hi c cl Hc) as [Ha Hq Hb]. unfold multiCommand. apply commanded_on; try done; unfold multi_command; destruct (m_has CLIENT_MULTI cl); try done.
  - split; try done. cbn. change (m_has CLIENT_BLOCKED (m_set CLIENT_MULTI cl) = false). by rewrite set_other.
  - simpl. lia.
  - simpl. lia.
  - intros Hd. change (m_has CLIENT_DIRTY_CAS (m_set CLIENT_MULTI cl) = true). by rewrite set_other.
Qed.

Lemma watchCommand_ok s c cl : minv s → clients s !! c = Some cl → ∃ s' cl', watchCommand s c = Some s' ∧ commanded c cl watchCmd s s' cl' ∧
  (m_has CLIENT_MULTI cl = false → marks_ok s → ∀ key, key ∈ drop 1 (m_argv cl) → keyIsExpired s (m_db cl) key = false → guarded s' c (m_db cl, key)).
Proof.
  intros Hi Hc. pose proof (mi_queue _ Hi c cl Hc) as Hq. unfold watchCommand. rewrite Hc. bind_simpl. destruct (m_has CLIENT_MULTI cl).
  { destruct (commanded_on s c cl watchCmd (add_reply (R_error (str "WATCH inside MULTI is not allowed")))) as (s' & -> & Hcm); try done; [by apply reply_ok|simpl; lia|].
    eexists s', _. done. }
  destruct (m_has CLIENT_DIRTY_CAS cl) eqn:Hd.
  { destruct (commanded_on s c cl watchCmd (add_reply R_ok)) as (s' & -> & Hcm); try done; [by apply reply_ok|simpl; lia|].
    eexists s', _. split; [done|]. split; [done|]. intros _ _ key _ _. left. exists (add_reply R_ok cl). split; [apply Hcm|done]. }
  destruct (watch_keys_ok (drop 1 (m_argv cl)) s c cl Hi Hc) as (s1 & cl1 & -> & Ho1 & Hc1 & Hf1 & Hdb1 & Hq1 & Hk1 & Hw1). bind_simpl.
  destruct (own_reply s1 c cl1 R_ok (ow_inv _ _ _ Ho1) Hc1) as (s' & -> & Ho' & Hwk & Hc'). eexists s', _. split; [done|]. split; [split|].
  - apply ran_own. by eapply own_trans.
  - done.
  - cbn. rewrite Hq1. lia.
  - intros _ _ k. apply (guard_self s s' c cl _ k Hc Hc'); [congruence|]. intros p wk Hp. rewrite Hwk. by apply Hk1.
  - intros _ Hm key Hkey Hexp. right. destruct (Hw1 key Hkey Hexp Hm) as (p & wk & Hp & Hrest). exists p, wk. by rewrite Hwk.
Qed.

Lemma queue_ok_clear r F cl : queue_ok cl → queue_ok (add_reply r (cl <| m_flags := m_flags cl ∖ F |>)).
Proof.
  intros [Ha Hq Hb]. split; [exact Ha|exact Hq|]. unfold m_has in *. cbn. apply bool_decide_eq_false in Hb. apply bool_decide_eq_false. set_solver.
Qed.

Lemma resetCommand_ok s c cl : minv s → clients s !! c = Some cl → ∃ s' cl', resetCommand s c = Some s' ∧ commanded c cl resetCmd s s' cl'.
Proof.
  intros Hi Hc. pose proof (mi_queue _ Hi c cl Hc) as [Ha Hq Hb]. unfold resetCommand. rewrite Hc. bind_simpl. destruct (_ || _).
  { destruct (own_reply s c cl (R_error (str "can only reset normal client connections")) Hi Hc) as (s' & -> & Ho' & _ & Hc'). eexists s', _. split; [done|].
    apply commanded_own; [done|done|simpl; lia|done]. }
  destruct (own_on_client s c cl (λ cl, cl <| m_flags := if m_has CLIENT_MONITOR cl then m_flags cl ∖ {[CLIENT_MONITOR; CLIENT_SLAVE]} else m_flags cl |> <| m_db := 0 |>))
    as (s1 & -> & Ho1 & _ & Hc1); try done.
  { split; [exact Ha|exact Hq|]. unfold m_has in *. cbn. apply bool_decide_eq_false in Hb. apply bool_decide_eq_false. destruct (bool_decide _); set_solver. }
  bind_simpl. destruct (discardTransaction_ok s1 c _ (ow_inv _ _ _ Ho1) Hc1) as (s2 & -> & Ho2 & Hc2). bind_simpl.
  match type of Hc2 with _ = Some ?x => assert (m_commands x = []) as Hnil by done; generalize dependent x end. intros cl2 Hc2 Hnil.
  destruct (own_on_client s2 c cl2 (λ cl, add_reply R_reset (cl <| m_flags := m_flags cl ∖ {[CLIENT_ASKING; CLIENT_REPLY_SKIP_NEXT]} |>))
    (ow_inv _ _ _ Ho2) Hc2) as (s' & -> & Ho' & _ & Hc'); [done|by apply queue_ok_clear, (mi_queue _ (ow_inv _ _ _ Ho2) c)|].
  eexists s', _. split; [done|]. apply commanded_own; [eapply own_trans; [done|by eapply own_trans]|done|cbn; rewrite Hnil; simpl; lia|done].
Qed.

Lemma quit_command_ok s c cl : minv s → clients s !! c = Some cl → ∃ s', on_client s c quit_command = Some s' ∧ commanded c cl quitCmd s s' (quit_command cl).
Proof.
  intros Hi Hc. pose proof (mi_queue _ Hi c cl Hc) as [Ha Hq Hb]. apply commanded_on; try done; unfold quit_command.
  - split; [exact Ha|exact Hq|]. by rewrite set_other.
  - simpl. lia.
  - intros Hd. by rewrite set_other.
Qed.

Lemma call_ok s c cl : minv s → clients s !! c = Some cl → m_cmd cl ≠ execCmd → arity_ok (m_cmd cl) (m_argv cl) →
  ∃ s' cl', call s c = Some s' ∧ commanded c cl (m_cmd cl) s s' cl'.
Proof.
  intros Hi Hc Hne Har. unfold call. rewrite Hc. bind_simpl. destruct (m_cmd cl) as [| | | | | | | |id] eqn:Hcmd; [done| | | | | | | |].
  - by apply discardCommand_ok.
  - destruct (multi_command_ok s c cl Hi Hc) as (s' & Hs' & Hcm). by exists s', (multi_command cl).
  - destruct (watchCommand_ok s c cl Hi Hc) as (s' & cl' & Hs' & Hcm & _). by exists s', cl'.
  - destruct (quit_command_ok s c cl Hi Hc) as (s' & Hs' & Hcm). by exists s', (quit_command cl).
  - by apply resetCommand_ok.
  - destruct (unwatchCommand_ok s c cl Hi Hc) as (s' & -> & Ho & Hc'). eexists s', _. split; [done|]. apply commanded_own; [done|done|simpl; lia|done].
  - destruct (selectCommand_ok dbnum cluster_enabled s c cl Hi Hc (Har eq_refl)) as (s' & r & -> & Ho & Hwk & Hc'). eexists s', _. split; [done|].
    split; [by apply ran_own|done|simpl; lia|]. intros _ _ k. apply (guard_self s s' c cl _ k Hc Hc'); [done|]. intros p wk. by rewrite Hwk.
  - destruct (apply_effects_ok (effects id (m_argv cl) (m_db cl)) s Hi) as (s' & -> & Haf & Hca).
    pose proof (af_clients _ _ Haf c) as Hf. rewrite Hc in Hf. inversion Hf as [x y (F & w & -> & _) Hx Hy|]; subst. eexists s', _. split; [done|].
    split; [by eapply ran_effects; [done|done|intros P; apply P]|done|simpl; lia|]. intros _ Hsw k. apply Hca, Hsw.
Qed.

(** ** The queue *)

Lemma queue_alloc_ok cl : queue_ok cl → zlen (m_commands cl) < INT_MAX → ∃ alloc, queue_alloc cl = Some alloc ∧ zlen (m_commands cl) < alloc ∧ 2 ≤ alloc ≤ INT_MAX.
Proof.
  intros [Ha _ _] Hlt. unfold queue_alloc. set (count := zlen (m_commands cl)) in *. assert (0 ≤ count) by (subst count; lia).
  assert (INT_MAX / 2 = 1073741823 ∧ INT_MAX = 2147483647) as [HH HM] by done. rewrite HH, HM in *.
  set (alloc := if decide (count = 0) then 2 else m_alloc_count cl).
  assert (count ≤ alloc ∧ 2 ≤ alloc ≤ INT_MAX) as [Hle Hr].
  { unfold alloc. case_decide as H0; [lia|]. destruct Ha as [He|Ha]; [|unfold count; lia]. unfold count in H0. by rewrite He in H0. }
  eexists. split; [apply decide_True|split]; repeat case_decide; lia.
Qed.

Lemma queue_command_ok s c cl f : minv s → clients s !! c = Some cl → queueable (m_cmd cl) = true → arity_ok (m_cmd cl) (m_argv cl) →
  zlen (m_commands cl) < INT_MAX →
  ∃ s' cl', (s1 ← queueMultiCommand s c f; on_client s1 c (add_reply R_queued)) = Some s' ∧ own c s s' ∧ wkeys s' = wkeys s ∧ clients s' !! c = Some cl' ∧
    m_flags cl' = m_flags cl ∧ m_db cl' = m_db cl ∧ m_replies cl' = m_replies cl ++ [R_queued] ∧
    m_commands cl' = if m_has CLIENT_DIRTY_CAS cl || m_has CLIENT_DIRTY_EXEC cl then m_commands cl else m_commands cl ++ [mk_mcmd (m_cmd cl) (m_argv cl) (m_argv_len cl)].
Proof.
  intros Hi Hc Hqu Har Hlt. pose proof (mi_queue _ Hi c cl Hc) as Hq. unfold queueMultiCommand, queue_command. rewrite Hc. bind_simpl.
  destruct (m_has CLIENT_DIRTY_CAS cl || m_has CLIENT_DIRTY_EXEC cl).
  { bind_simpl. assert (s <| clients := <[c := cl]> (clients s) |> = s) as -> by (rewrite insert_id by done; by destruct s).
    destruct (own_reply s c cl R_queued Hi Hc) as (s' & -> & Ho & Hwk & Hc'). by eexists s', _. }
  destruct (queue_alloc_ok cl Hq Hlt) as (alloc & -> & Hlt' & Hr). bind_simpl. set (cl1 := cl <| m_alloc_count := _ |> <| m_commands := _ |> <| m_cmd_flags := _ |> <| m_cmd_inv_flags := _ |>
    <| m_argv_len_sums := _ |> <| m_argv := _ |> <| m_argv_len_sum := _ |> <| m_argv_len := _ |>).
  destruct Hq as [Ha Hqs Hb].
  destruct (own_on_client s c cl (λ _, cl1) Hi Hc) as (s1 & Hs1 & Ho1 & Hwk1 & Hc1); [done| |].
  { split; [|apply Forall_app; split; [exact Hqs|by constructor]|exact Hb]. right. unfold cl1. cbn. rewrite length_app. simpl. lia. }
  unfold on_client in Hs1. rewrite Hc in Hs1. injection Hs1 as ->.
  destruct (own_reply s1 c cl1 R_queued (ow_inv _ _ _ Ho1) Hc1) as (s' & -> & Ho & Hwk & Hc'). eexists s', _. split; [done|]. split; [by eapply own_trans|].
  split; [congruence|]. by split.
Qed.

(** ** One command *)

Lemma exec_the_command_ok s c cl f : minv s → clients s !! c = Some cl → arity_ok (m_cmd cl) (m_argv cl) → zlen (m_commands cl) < INT_MAX →
  ∃ s' cl', exec_the_command s c f = Some s' ∧ commanded c cl (m_cmd cl) s s' cl'.
Proof.
  intros Hi Hc Har Hlt. unfold exec_the_command. rewrite Hc. bind_simpl. destruct (m_has CLIENT_MULTI cl && queueable (m_cmd cl)) eqn:Hmq.
  - apply andb_true_iff in Hmq as [_ Hqu]. destruct (queue_command_ok s c cl f Hi Hc Hqu Har Hlt) as (s' & cl' & Hs' & Ho & Hwk & Hc' & Hfl & _ & _ & Hcm).
    exists s', cl'. split; [exact Hs'|]. split; [by apply ran_own|done| |].
    + rewrite Hcm. destruct (_ || _); [lia|]. rewrite length_app. simpl. lia.
    + intros _ _ k. apply (guard_self s s' c cl _ k Hc Hc'); [unfold m_has; by rewrite Hfl|]. intros p wk. by rewrite Hwk.
  - case_decide as Hx; [|by apply call_ok]. destruct (execCommand_ok effects dbnum cluster_enabled ACLCheckAllPerm s c cl Hi Hc) as (s' & cl' & expired & Hs' & Hr & Hc' & _ & Hrest).
    exists s', cl'. split; [done|]. split; [done|done| |by rewrite Hx]. destruct (m_has CLIENT_MULTI cl); [|destruct Hrest as [_ ->]; simpl; lia].
    destruct Hrest as [(-> & _) _]. simpl. lia.
Qed.

(** ** Events *)

(** Every queue has at most [n] commands. *)
Definition bounded (n : Z) (s : mserver) : Prop := ∀ c cl, clients s !! c = Some cl → zlen (m_commands cl) ≤ n.

Definition op_ok (o : op) : Prop := match o with O_command _ cmd args _ => arity_ok cmd args | _ => True end.

(** The event does not end the watches of the client [c]. *)
Definition keeps (c : Z) (o : op) : bool :=
  match o with
  | O_free c' => negb (bool_decide (c' = c))
  | O_command c' cmd _ _ => negb (bool_decide (c' = c)) || keeps_watch cmd
  | _ => true
  end.

(** The client with the command that it sends. *)
Definition sent (cl : mclient) (cmd : command) (args : list bytes) : mclient :=
  cl <| m_cmd := cmd |> <| m_argv := args |> <| m_argv_len := zlen args |> <| m_argv_len_sum := Z.of_nat (sum_list_with length args) |>.

Lemma sent_ok s c cl cmd args : minv s → clients s !! c = Some cl →
  let s0 := s <| clients := <[c := sent cl cmd args]> (clients s) |> in own c s s0 ∧ clients s0 !! c = Some (sent cl cmd args) ∧ ∀ k, guarded s c k → guarded s0 c k.
Proof.
  intros Hi Hc s0. pose proof (mi_queue _ Hi c cl Hc) as [Ha Hq Hb].
  destruct (own_on_client s c cl (λ _, sent cl cmd args) Hi Hc) as (s1 & Hs1 & Ho1 & Hwk1 & Hc1); [done|by split|].
  unfold on_client in Hs1. rewrite Hc in Hs1. injection Hs1 as <-. split; [done|]. split; [done|]. intros k. by apply (guard_self s s0 c cl (sent cl cmd args)).
Qed.

(** What every event does. *)
Record stepped (o : op) (n : Z) (s s' : mserver) : Prop := {
  st_inv : minv s';
  st_bounded : bounded (n + 1) s';
  st_marks : swapless effects → normal s → marks_ok s → normal s' ∧ marks_ok s';
  st_guard : swapless effects → ∀ c k, keeps c o = true → guarded s c k → guarded s' c k
}.

Lemma bounded_ran c cl' s s' n : ran effects c s s' → bounded n s → clients s' !! c = Some cl' → zlen (m_commands cl') ≤ n + 1 → bounded (n + 1) s'.
Proof.
  intros Hr Hb Hc' Hl c1 cl1 Hcl1. destruct (decide (c1 = c)) as [->|Hne]; [congruence|]. pose proof (ra_others _ _ _ _ Hr c1 Hne) as Hf. rewrite Hcl1 in Hf.
  inversion Hf as [x y (F & w & -> & _) Hx|]; subst. symmetry in Hx. specialize (Hb c1 x Hx). cbn. lia.
Qed.

Lemma bounded_le n m s : n ≤ m → bounded n s → bounded m s.
Proof. intros Hle Hb c cl Hc. specialize (Hb c cl Hc). lia. Qed.

Lemma step_command s c cl cmd args f n : minv s → bounded n s → n < INT_MAX → arity_ok cmd args → clients s !! c = Some cl →
  ∃ s' cl', step s (O_command c cmd args f) = Some s' ∧ clients s' !! c = Some cl' ∧ stepped (O_command c cmd args f) n s s' ∧ ran effects c s s'.
Proof.
  intros Hi Hb Hn Har Hc. cbn [Multi.step]. rewrite Hc. fold (sent cl cmd args). set (s0 := s <| clients := _ |>).
  destruct (sent_ok s c cl cmd args Hi Hc) as (Ho0 & Hc0 & Hg0). pose proof (Hb c cl Hc) as Hbc.
  destruct (exec_the_command_ok s0 c (sent cl cmd args) f) as (s' & cl' & -> & Hcm); [apply Ho0|done|done|cbn; lia|].
  destruct Hcm as [Hr Hc' Hl Hk]. assert (ran effects c s s') as Hr' by (eapply ran_trans; [by apply ran_own|done]).
  exists s', cl'. split_and!; try done. split.
  - apply Hr.
  - apply (bounded_ran c cl' s); try done. change (m_commands (sent cl cmd args)) with (m_commands cl) in Hl. lia.
  - intros Hsw Hno Hm. split; [by eapply normal_settings; [apply Hr'|]|by apply Hr'].
  - intros Hsw c1 k Hkeep Hg. cbn [keeps] in Hkeep. destruct (decide (c1 = c)) as [->|Hne]; [|by apply Hr'].
    rewrite bool_decide_true in Hkeep by done. apply Hk; [done|done|by apply Hg0].
Qed.

Lemma time_expired s t db key : keyIsExpired s db key = true → keyIsExpired (s <| now := Z.max (now s) t |>) db key = true.
Proof.
  unfold keyIsExpired, getExpire. cbn. destruct (loading s); [done|]. case_decide; [done|]. intros Hx%bool_decide_eq_true. apply bool_decide_eq_true. lia.
Qed.

Lemma stepped_own o n c cl' s s' : minv s → bounded n s → own c s s' → clients s' !! c = Some cl' → zlen (m_commands cl') ≤ n + 1 →
  (∀ k, guarded s c k → guarded s' c k) → stepped o n s s'.
Proof.
  intros Hi Hb Ho Hc' Hl Hg. pose proof (ran_own effects _ _ _ Ho) as Hr. split; [apply Ho|by apply (bounded_ran c cl' s)| |].
  - intros _ Hno Hm. split; [by eapply normal_settings; [apply Hr|]|by apply Ho].
  - intros _ c1 k _ Hgu. destruct (decide (c1 = c)) as [->|Hne]; [auto|by apply Ho].
Qed.

Lemma stepped_refl o n s : minv s → bounded n s → stepped o n s s.
Proof. intros Hi Hb. split; try done. eapply bounded_le; [|done]. lia. Qed.

Lemma step_free s c cl n : minv s → bounded n s → clients s !! c = Some cl → ∃ s', step s (O_free c) = Some s' ∧ stepped (O_free c) n s s' ∧
  (∀ c', c' ≠ c → clients s' !! c' = clients s !! c').
Proof.
  intros Hi Hb Hc. cbn [Multi.step]. rewrite Hc. destruct (free_client_ok s c cl Hi Hc) as (s1 & s' & -> & Ho & Hi' & Hs'). exists s'. split; [done|].
  assert (∀ c', c' ≠ c → clients s' !! c' = clients s !! c') as Hcl by (intros c' Hc'; rewrite Hs'; cbn; rewrite lookup_delete_ne by done; by apply Ho).
  pose proof (elsewhere_settings _ _ (ow_else _ _ _ Ho)) as [Hse Hks]. split; [|done]. split.
  - done.
  - intros c' cl' Hc'. destruct (decide (c' = c)) as [->|Hne]; [rewrite Hs' in Hc'; cbn in Hc'; by rewrite lookup_delete_eq in Hc'|].
    rewrite Hcl in Hc' by done. specialize (Hb c' cl' Hc'). lia.
  - intros _ Hno Hm. split; [subst s'; by apply (normal_settings s s1)|]. subst s'. apply (ow_marks _ _ _ Ho Hm).
  - intros _ c' k Hk Hg. cbn [keeps] in Hk. apply negb_true_iff, bool_decide_eq_false in Hk. assert (c' ≠ c) as Hne by done.
    destruct (ow_guard _ _ _ Ho c' k Hne Hg) as [(x & Hx & Hd)|Hw]; [left|right; by subst s'].
    exists x. split; [|done]. rewrite Hcl by done. rewrite <- (ow_others _ _ _ Ho c' Hne). done.
Qed.

Lemma flag_ok cl : queue_ok cl → queue_ok (flag_transaction cl).
Proof. intros [Ha Hq Hb]. unfold flag_transaction. destruct (m_has CLIENT_MULTI cl); split; try done. by rewrite set_other. Qed.

Lemma step_ok s o n : minv s → bounded n s → 0 ≤ n < INT_MAX → op_ok o → ∃ s', step s o = Some s' ∧ stepped o n s s'.
Proof.
  intros Hi Hb Hn Ho. destruct o as [c|c|c cmd args f|c|t]; cbn [op_ok] in Ho.
  - cbn [Multi.step]. destruct (clients s !! c) as [cl|] eqn:Hc; [exists s; split; [done|by apply stepped_refl]|]. eexists. split; [done|].
    split.
    + by apply minv_connect.
    + intros c' cl'. cbn. intros [[<- <-]|[Hne Hcl]]%lookup_insert_Some; [simpl; lia|]. specialize (Hb c' cl' Hcl). lia.
    + done.
    + intros _ c' k _ [(x & Hx & Hd)|Hw]; [left|by right]. exists x. split; [|done]. cbn. rewrite lookup_insert_ne; [done|congruence].
  - destruct (clients s !! c) as [cl|] eqn:Hc; [|cbn [Multi.step]; rewrite Hc; exists s; split; [done|by apply stepped_refl]].
    destruct (step_free s c cl n Hi Hb Hc) as (s' & Hs' & Hst & _). by exists s'.
  - destruct (clients s !! c) as [cl|] eqn:Hc; [|cbn [Multi.step]; rewrite Hc; exists s; split; [done|by apply stepped_refl]].
    destruct (step_command s c cl cmd args f n) as (s' & cl' & Hs' & _ & Hst & _); try done; [lia|]. by exists s'.
  - cbn [Multi.step]. destruct (clients s !! c) as [cl|] eqn:Hc; [|exists s; split; [done|by apply stepped_refl]]. unfold flagTransaction.
    destruct (own_on_client s c cl flag_transaction Hi Hc) as (s' & -> & Ho' & Hwk & Hc'); [unfold flag_transaction; by destruct (m_has CLIENT_MULTI cl)|by apply flag_ok, (mi_queue _ Hi c)|].
    exists s'. split; [done|]. specialize (Hb c cl Hc) as Hbc. apply (stepped_own _ n c (flag_transaction cl)); try done.
    + unfold flag_transaction. destruct (m_has CLIENT_MULTI cl); cbn; lia.
    + intros k. apply (guard_self s s' c cl _ k Hc Hc'); [|intros p wk; by rewrite Hwk]. unfold flag_transaction. destruct (m_has CLIENT_MULTI cl); [|done]. by rewrite set_other.
  - cbn [Multi.step]. eexists. split; [done|]. split.
    + destruct Hi as [H1 H2 H3 H4 H5 H6 H7]. by split.
    + apply (bounded_le n); [lia|done].
    + intros _ Hno Hm. split; [done|]. intros p wk Hwk Hexp. by apply time_expired, (Hm p wk).
    + done.
Qed.

(** ** Histories *)

(** A server whose watched keys are in order, with expired keys deleted on access and marks that are true. *)
Record ready (n : Z) (s : mserver) : Prop := {
  rd_inv : minv s;
  rd_bounded : bounded n s;
  rd_normal : normal s;
  rd_marks : marks_ok s
}.

Lemma run_ops_ok os : ∀ s n, minv s → bounded n s → 0 ≤ n → n + zlen os ≤ INT_MAX → Forall op_ok os →
  ∃ s', run s os = Some s' ∧ minv s' ∧ bounded (n + zlen os) s' ∧
    (swapless effects → normal s → marks_ok s → ready (n + zlen os) s' ∧ ∀ c k, Forall (λ o, keeps c o = true) os → guarded s c k → guarded s' c k).
Proof.
  induction os as [|o os IH]; intros s n Hi Hb Hn0 Hn Hos; cbn [Multi.run].
  - exists s. simpl. rewrite Z.add_0_r. done.
  - apply Forall_cons in Hos as [Ho Hos]. cbn [length] in *. destruct (step_ok s o n) as (s1 & -> & [Hi1 Hb1 Hm1 Hg1]); try done; [lia|]. bind_simpl.
    destruct (IH s1 (n + 1)) as (s' & -> & Hi' & Hb' & Hrest); try done; [lia|lia|]. replace (n + Z.of_nat (S (length os))) with (n + 1 + zlen os) by lia.
    exists s'. split_and!; try done. intros Hsw Hno Hm. destruct (Hm1 Hsw Hno Hm) as [Hno1 Hmk1]. destruct (Hrest Hsw Hno1 Hmk1) as [Hr Hg]. split; [done|].
    intros c k [Hk Hks]%Forall_cons Hgu. apply Hg; [done|]. by apply Hg1.
Qed.

(** The event changes a key, by a command that is executed directly or by a transaction that runs. *)
Definition op_modifies (s : mserver) (o : op) (k : Z * bytes) : bool :=
  match o with
  | O_command c cmd args _ =>
      match clients s !! c with
      | None => false
      | Some cl =>
          match cmd with
          | otherCmd id => negb (m_has CLIENT_MULTI cl) && modifies s (effects id args (m_db cl)) k
          | execCmd => m_has CLIENT_MULTI cl && negb (m_has CLIENT_DIRTY_CAS cl || m_has CLIENT_DIRTY_EXEC cl) &&
              bool_decide (isWatchedKeyExpired s c = Some false) && modifies s (queue_effects effects dbnum cluster_enabled (m_db cl) (m_commands cl)) k
          | _ => false
          end
      end
  | _ => false
  end.

Lemma watched_expired_else s s' l : elsewhere s' = elsewhere s → wkeys s' = wkeys s → watched_expired s' l = watched_expired s l.
Proof.
  intros He Hw. induction l as [|ln l IH]; cbn [watched_expired]; [done|]. rewrite Hw. destruct (wkeys s !! ln) as [wk|]; [|done]. cbn. rewrite IH.
  by rewrite (expired_else _ _ _ _ He).
Qed.

Lemma sent_expired s c cl cmd args : clients s !! c = Some cl →
  isWatchedKeyExpired (s <| clients := <[c := sent cl cmd args]> (clients s) |>) c = isWatchedKeyExpired s c.
Proof.
  intros Hc. unfold isWatchedKeyExpired. cbn [clients assign_to assign_clients]. rewrite Hc, lookup_insert_eq. cbn. by apply watched_expired_else.
Qed.

Lemma step_tells s o n c k : ready n s → n < INT_MAX → op_ok o → swapless effects → (∀ s c, ACLCheckAllPerm s c = None) →
  keeps c o = true → op_modifies s o k = true → guarded s c k → ∃ s', step s o = Some s' ∧ dirty_in s' c.
Proof.
  intros [Hi Hb Hno Hm] Hn Hok Hsw Hacl Hk Hmod Hg. destruct o as [|?|c' cmd args f| |]; try done. cbn [op_modifies op_ok keeps] in *.
  destruct (clients s !! c') as [cl|] eqn:Hc; [|done]. cbn [Multi.step]. rewrite Hc. fold (sent cl cmd args).
  destruct (sent_ok s c' cl cmd args Hi Hc) as (Ho0 & Hc0 & Hg0). set (s0 := s <| clients := _ |>) in *.
  pose proof (elsewhere_settings _ _ (ow_else _ _ _ Ho0)) as [Hse Hks]. pose proof (normal_settings _ _ Hse Hno) as Hno0. pose proof (ow_marks _ _ _ Ho0 Hm) as Hm0.
  assert (guarded s0 c k) as Hgu by (destruct (decide (c = c')) as [->|Hne]; [auto|by apply Ho0]).
  unfold exec_the_command. rewrite Hc0. bind_simpl. change (m_has CLIENT_MULTI (sent cl cmd args)) with (m_has CLIENT_MULTI cl). change (m_cmd (sent cl cmd args)) with cmd.
  destruct cmd as [| | | | | | | |id]; try done.
  - rewrite andb_true_iff, andb_true_iff, andb_true_iff in Hmod. destruct Hmod as [[[Hmu Hnd] Hexp%bool_decide_eq_true] Hmod].
    change (queueable execCmd) with false. rewrite andb_false_r, decide_True by done.
    assert (c ≠ c') as Hne by (intros ->; by rewrite bool_decide_true in Hk).
    destruct (execCommand_ok effects dbnum cluster_enabled ACLCheckAllPerm s0 c' (sent cl execCmd args) (ow_inv _ _ _ Ho0) Hc0) as (s' & cl' & expired & -> & Hr & Hc' & He & Hrest).
    exists s'. split; [done|]. unfold s0 in He. rewrite sent_expired, Hexp in He by done. injection He as <-.
    change (m_has ?f (sent cl execCmd args)) with (m_has f cl) in Hrest. apply negb_true_iff in Hnd. cbn [orb] in Hrest. rewrite Hmu, Hnd in Hrest. destruct Hrest as (_ & _ & Hrest).
    destruct (Hrest Hacl) as [_ Ht]. apply (Ht Hsw Hno0 Hm0 k); [|done|done]. change (m_db (sent cl execCmd args)) with (m_db cl).
    change (m_commands (sent cl execCmd args)) with (m_commands cl). by rewrite (modifies_settings _ k s s0).
  - apply andb_true_iff in Hmod as [Hmu Hmod]. apply negb_true_iff in Hmu. rewrite Hmu. cbn [andb]. rewrite decide_False by done. unfold Multi.call. rewrite Hc0. bind_simpl.
    cbn [m_cmd sent assign_to assign_m_cmd assign_m_argv assign_m_argv_len assign_m_argv_len_sum].
    destruct (apply_effects_tell (effects id args (m_db cl)) k s0) as (s' & Hs' & Ht); [apply Ho0|apply Hsw|done|done|by rewrite (modifies_settings _ k s s0)|].
    exists s'. split; [exact Hs'|auto].
Qed.

Lemma watched_expired_found s l p wk : (∀ p, p ∈ l → is_Some (wkeys s !! p)) → p ∈ l → wkeys s !! p = Some wk → wk_expired wk = false →
  keyIsExpired s (wk_db wk) (wk_key wk) = true → watched_expired s l = Some true.
Proof.
  intros Hl Hp Hwk He Hx. induction l as [|ln l IH]; [by apply not_elem_of_nil in Hp|]. cbn [watched_expired].
  destruct (Hl ln ltac:(set_solver)) as [wk' Hwk']. rewrite Hwk'. bind_simpl. destruct (decide (ln = p)) as [->|Hne].
  - rewrite Hwk in Hwk'. injection Hwk' as <-. by rewrite He, Hx.
  - assert (watched_expired s l = Some true) as -> by (apply IH; [set_solver|]; apply elem_of_cons in Hp as [Hp|Hp]; [congruence|done]).
    destruct (wk_expired wk'); [done|]. by destruct (keyIsExpired s (wk_db wk') (wk_key wk')).
Qed.

(** The reply to EXEC when nothing is executed. *)
Definition refusal (cl : mclient) : reply :=
  if m_has CLIENT_MULTI cl then if m_has CLIENT_DIRTY_EXEC cl then R_execabort else R_nullarray else R_error (str "EXEC without MULTI").

Lemma exec_refused s c db key args f : minv s → guarded s c (db, key) → dirty_in s c ∨ keyIsExpired s db key = true →
  ∃ cl s' cl', clients s !! c = Some cl ∧ step s (O_command c execCmd args f) = Some s' ∧ clients s' !! c = Some cl' ∧
    keyspace s' = keyspace s ∧ m_replies cl' = m_replies cl ++ [refusal cl].
Proof.
  intros Hi Hg Hor. assert (∃ cl, clients s !! c = Some cl) as [cl Hc].
  { destruct Hg as [(cl & Hcl & _)|(p & wk & Hwk & <- & _)]; [eauto|]. by apply (mi_owner _ Hi p). }
  exists cl. cbn [Multi.step]. rewrite Hc. fold (sent cl execCmd args). destruct (sent_ok s c cl execCmd args Hi Hc) as (Ho0 & Hc0 & _). set (s0 := s <| clients := _ |>) in *.
  pose proof (elsewhere_settings _ _ (ow_else _ _ _ Ho0)) as [_ Hks]. unfold exec_the_command. rewrite Hc0. bind_simpl.
  change (m_has ?f (sent cl execCmd args)) with (m_has f cl). change (m_cmd (sent cl execCmd args)) with execCmd. change (queueable execCmd) with false.
  rewrite andb_false_r, decide_True by done.
  destruct (execCommand_ok effects dbnum cluster_enabled ACLCheckAllPerm s0 c (sent cl execCmd args) (ow_inv _ _ _ Ho0) Hc0) as (s' & cl' & expired & -> & _ & Hc' & He & Hrest).
  exists s', cl'. split; [done|]. split; [done|]. split; [done|]. rewrite <- Hks. unfold refusal. change (m_has ?f (sent cl execCmd args)) with (m_has f cl) in Hrest.
  change (m_replies (sent cl execCmd args)) with (m_replies cl) in Hrest. destruct (m_has CLIENT_MULTI cl); [|destruct Hrest as [-> ->]; done].
  destruct Hrest as [_ Hrest]. assert (expired || m_has CLIENT_DIRTY_CAS cl = true) as Hd; [|rewrite Hd in Hrest; exact Hrest].
  destruct (m_has CLIENT_DIRTY_CAS cl) eqn:Hdc; [by apply orb_true_r|]. unfold s0 in He. rewrite sent_expired in He by done.
  assert (¬ dirty_in s c) as Hnd by (intros (x & Hx & Hdx); congruence). destruct Hor as [|Hx]; [done|]. destruct Hg as [|(p & wk & Hwk & Hcw & Hat & Hexp)]; [done|].
  unfold wk_at in Hat. injection Hat as Hdb Hkey. destruct (mi_client _ Hi c cl Hc) as [_ Hmem].
  unfold isWatchedKeyExpired in He. rewrite Hc in He. cbn in He. rewrite (watched_expired_found s (m_watched cl) p wk) in He; [by injection He as <-| |apply Hmem; eauto|done|done|by rewrite Hdb, Hkey].
  intros q (x & Hq & _)%Hmem. eauto.
Qed.

(** ** Transactions *)

(** The event is not about the client [c], or it is a command that [c] queues. *)
Definition queues (c : Z) (o : op) : bool :=
  match o with
  | O_connect c' | O_free c' | O_reject c' => negb (bool_decide (c' = c))
  | O_command c' cmd _ _ => negb (bool_decide (c' = c)) || queueable cmd
  | O_time _ => true
  end.

(** The commands that [c] sends. *)
Definition sent_by (c : Z) (o : op) : list multiCmd :=
  match o with
  | O_command c' cmd args _ => if decide (c' = c) then [mk_mcmd cmd args (zlen args)] else []
  | _ => []
  end.

(** What holds of a client in a transaction: its queue has all the commands that it sent, or it was told that a key it watches was touched. *)
Record in_multi (c : Z) (db : Z) (cmds : list multiCmd) (s : mserver) (cl : mclient) : Prop := {
  im_client : clients s !! c = Some cl;
  im_multi : m_has CLIENT_MULTI cl = true;
  im_clean : m_has CLIENT_DIRTY_EXEC cl = false;
  im_db : m_db cl = db;
  im_cmds : m_has CLIENT_DIRTY_CAS cl = true ∨ m_commands cl = cmds
}.

Lemma in_multi_kept c db cmds s s' cl : in_multi c db cmds s cl → option_Forall2 cl_kept (clients s !! c) (clients s' !! c) → ∃ cl', in_multi c db cmds s' cl'.
Proof.
  intros [Hc Hmu Hcl Hdb Hor] Hf. rewrite Hc in Hf. inversion Hf as [x y (F & w & -> & HF) Hx Hy|]; subst. eexists. split; [done| | |done|].
  - unfold m_has in *. cbn. apply bool_decide_eq_true in Hmu. apply bool_decide_eq_true. destruct HF as [->| ->]; set_solver.
  - unfold m_has in *. cbn. apply bool_decide_eq_false in Hcl. apply bool_decide_eq_false. destruct HF as [->| ->]; set_solver.
  - destruct Hor as [Hd|Hcm]; [left|by right]. unfold m_has in *. cbn. apply bool_decide_eq_true in Hd. apply bool_decide_eq_true. destruct HF as [->| ->]; set_solver.
Qed.

Lemma option_kept_refl (x : option mclient) : option_Forall2 cl_kept x x.
Proof. destruct x; constructor. apply cl_kept_refl. Qed.

(** A step about another client. *)
Lemma step_other s o n c s' : minv s → bounded n s → 0 ≤ n < INT_MAX → op_ok o → queues c o = true → sent_by c o = [] → step s o = Some s' →
  option_Forall2 cl_kept (clients s !! c) (clients s' !! c).
Proof.
  intros Hi Hb Hn Hok Hq Hse Hs'. destruct o as [c'|c'|c' cmd args f|c'|t]; cbn [queues sent_by op_ok] in *.
  - apply negb_true_iff, bool_decide_eq_false in Hq. cbn [Multi.step] in Hs'. destruct (clients s !! c') eqn:Hc; injection Hs' as <-; [apply option_kept_refl|].
    cbn. rewrite lookup_insert_ne by done. apply option_kept_refl.
  - apply negb_true_iff, bool_decide_eq_false in Hq. destruct (clients s !! c') as [cl|] eqn:Hc; [|cbn [Multi.step] in Hs'; rewrite Hc in Hs'; injection Hs' as <-; apply option_kept_refl].
    destruct (step_free s c' cl n Hi Hb Hc) as (s1 & Hs1 & _ & Hcl). rewrite Hs' in Hs1. injection Hs1 as <-. rewrite Hcl by congruence. apply option_kept_refl.
  - case_decide as Hcc; [done|]. destruct (clients s !! c') as [cl|] eqn:Hc; [|cbn [Multi.step] in Hs'; rewrite Hc in Hs'; injection Hs' as <-; apply option_kept_refl].
    destruct (step_command s c' cl cmd args f n) as (s1 & cl1 & Hs1 & _ & _ & Hr); try done; [lia|]. rewrite Hs' in Hs1. injection Hs1 as <-. apply Hr. congruence.
  - apply negb_true_iff, bool_decide_eq_false in Hq. cbn [Multi.step] in Hs'. destruct (clients s !! c') eqn:Hc; [|injection Hs' as <-; apply option_kept_refl].
    unfold flagTransaction, on_client in Hs'. rewrite Hc in Hs'. injection Hs' as <-. cbn. rewrite lookup_insert_ne by done. apply option_kept_refl.
  - injection Hs' as <-. apply option_kept_refl.
Qed.

Lemma step_in_multi s o n c db cmds cl : minv s → bounded n s → 0 ≤ n < INT_MAX → op_ok o → queues c o = true → in_multi c db cmds s cl →
  ∃ s' cl', step s o = Some s' ∧ minv s' ∧ bounded (n + 1) s' ∧ in_multi c db (cmds ++ sent_by c o) s' cl'.
Proof.
  intros Hi Hb Hn Hok Hq Him. destruct (step_ok s o n Hi Hb Hn Hok) as (s' & Hs' & [Hi' Hb' _ _]). destruct (sent_by c o) as [|mc l] eqn:Hse.
  - pose proof (step_other s o n c s' Hi Hb Hn Hok Hq Hse Hs') as Hk. destruct (in_multi_kept c db cmds s s' cl Him Hk) as [cl' Him']. rewrite app_nil_r. by exists s', cl'.
  - destruct o as [| |c' cmd args f| |]; try done. cbn [sent_by queues op_ok] in *. case_decide as Hcc; [|done]. injection Hse as <- <-. subst c'.
    rewrite bool_decide_true in Hq by done. cbn [negb orb] in Hq. destruct Him as [Hc Hmu Hcl Hdb Hor].
    pose proof Hs' as Hs1. cbn [Multi.step] in Hs1. rewrite Hc in Hs1. fold (sent cl cmd args) in Hs1.
    destruct (sent_ok s c cl cmd args Hi Hc) as (Ho0 & Hc0 & _). set (s0 := s <| clients := _ |>) in *. unfold exec_the_command in Hs1. rewrite Hc0 in Hs1. cbn [mbind option_bind] in Hs1.
    change (m_has CLIENT_MULTI (sent cl cmd args)) with (m_has CLIENT_MULTI cl) in Hs1. change (m_cmd (sent cl cmd args)) with cmd in Hs1. rewrite Hmu, Hq in Hs1. cbn [andb] in Hs1.
    specialize (Hb c cl Hc). destruct (queue_command_ok s0 c (sent cl cmd args) f (ow_inv _ _ _ Ho0) Hc0 Hq Hok) as (s2 & cl2 & Hs2 & _ & _ & Hc2 & Hf2 & Hdb2 & _ & Hcm2); [cbn; lia|].
    rewrite Hs1 in Hs2. injection Hs2 as <-. exists s', cl2. split_and!; try done. split; [done|unfold m_has; by rewrite Hf2|unfold m_has; by rewrite Hf2|by rewrite Hdb2|].
    change (m_has ?f (sent cl cmd args)) with (m_has f cl) in Hcm2. rewrite Hcl in Hcm2. unfold m_has at 1. rewrite Hf2. change (bool_decide (CLIENT_DIRTY_CAS ∈ m_flags (sent cl cmd args))) with (m_has CLIENT_DIRTY_CAS cl).
    destruct (m_has CLIENT_DIRTY_CAS cl) eqn:Hd; [by left|right]. destruct Hor as [|Hor]; [done|]. rewrite Hcm2. cbn. by rewrite Hor.
Qed.

Lemma run_in_multi os : ∀ s n c db cmds cl, minv s → bounded n s → 0 ≤ n → n + zlen os ≤ INT_MAX → Forall op_ok os → Forall (λ o, queues c o = true) os →
  in_multi c db cmds s cl → ∃ s' cl', run s os = Some s' ∧ minv s' ∧ in_multi c db (cmds ++ (os ≫= sent_by c)) s' cl'.
Proof.
  induction os as [|o os IH]; intros s n c db cmds cl Hi Hb Hn0 Hn Hok Hq Him; cbn [Multi.run mbind list_bind].
  - exists s, cl. by rewrite app_nil_r.
  - apply Forall_cons in Hok as [Ho Hok]. apply Forall_cons in Hq as [Hqo Hq]. cbn [length] in Hn.
    destruct (step_in_multi s o n c db cmds cl) as (s1 & cl1 & -> & Hi1 & Hb1 & Him1); try done; [lia|]. cbn [mbind option_bind].
    destruct (IH s1 (n + 1) c db (cmds ++ sent_by c o) cl1) as (s' & cl' & Hs' & Hi' & Him'); try done; [lia|lia|]. exists s', cl'. split_and!; try done.
    by rewrite app_assoc.
Qed.

(** A client is guarded against every key only when it was told. *)
Lemma always_guarded s c : (∀ k, guarded s c k) → dirty_in s c.
Proof.
  intros Hg. set (dbs := (λ x, wk_db x.2) <$> map_to_list (wkeys s)). destruct (Hg (fresh dbs, [])) as [|(p & wk & Hwk & _ & Hat & _)]; [done|].
  destruct (infinite_is_fresh dbs). unfold wk_at in Hat. injection Hat as <- _. apply list_elem_of_fmap. exists (p, wk). split; [done|]. by apply elem_of_map_to_list.
Qed.

Lemma step_watch s n c cl name keys key f : ready n s → 0 ≤ n < INT_MAX → clients s !! c = Some cl → m_has CLIENT_MULTI cl = false → key ∈ keys →
  keyIsExpired s (m_db cl) key = false → swapless effects →
  ∃ s', step s (O_command c watchCmd (name :: keys) f) = Some s' ∧ ready (n + 1) s' ∧ guarded s' c (m_db cl, key).
Proof.
  intros [Hi Hb Hno Hm] Hn Hc Hmu Hkey Hexp Hsw. destruct (step_ok s (O_command c watchCmd (name :: keys) f) n Hi Hb Hn) as (s' & Hs' & [Hi' Hb' Hm' _]); [done|].
  destruct (Hm' Hsw Hno Hm) as [Hno1 Hm1]. exists s'. split; [done|]. split; [done|]. cbn [Multi.step] in Hs'. rewrite Hc in Hs'. fold (sent cl watchCmd (name :: keys)) in Hs'.
  destruct (sent_ok s c cl watchCmd (name :: keys) Hi Hc) as (Ho0 & Hc0 & _). set (s0 := s <| clients := _ |>) in *. unfold exec_the_command in Hs'. rewrite Hc0 in Hs'.
  cbn [mbind option_bind] in Hs'. change (m_has CLIENT_MULTI (sent cl watchCmd (name :: keys))) with (m_has CLIENT_MULTI cl) in Hs'. rewrite Hmu in Hs'. cbn [andb] in Hs'.
  rewrite decide_False in Hs' by done. unfold Multi.call in Hs'. rewrite Hc0 in Hs'.
  destruct (watchCommand_ok s0 c _ (ow_inv _ _ _ Ho0) Hc0) as (s1 & cl1 & Hs1 & _ & Hw). cbn in Hs'. rewrite Hs1 in Hs'. injection Hs' as ->.
  apply Hw; [done|by apply Ho0|exact Hkey|]. rewrite <- Hexp. apply expired_else, Ho0.
Qed.

(** C9. Transactions and watched keys.  Whatever the clients do (connect, send commands, are rejected, disconnect, in any order, while time passes), the two
    lists of every watched key agree: each structure is once in the list of its client and once in the list of its key, no structure is used after it is
    freed, no client watches a key twice, and the queues fit in their arrays and contain only commands that EXEC may run. *)
Theorem multi_history_invariant s n os : minv s → bounded n s → 0 ≤ n → n + zlen os ≤ INT_MAX → Forall op_ok os →
  ∃ s', run s os = Some s' ∧ minv s' ∧ bounded (n + zlen os) s'.
Proof. intros Hi Hb Hn Hle Hok. destruct (run_ops_ok os s n Hi Hb Hn Hle Hok) as (s' & Hs' & Hi' & Hb' & _). by exists s'. Qed.

(** C2. Transactions and watched keys.  A client that watches a key which is not expired is protected on a master, as long as no command swaps databases: whatever the
    clients do after WATCH, if the key is changed by a command of any client (a write, a deletion, an expiration, FLUSHDB, also by the EXEC of
    another client) or has expired, then EXEC executes nothing: it leaves the keyspace alone and replies null or the error of the transaction. *)
Theorem watch_protects s n c cl name keys key f os1 o os2 args f' :
  ready n s → 0 ≤ n → n + zlen os1 + zlen os2 + 2 ≤ INT_MAX → swapless effects → (∀ s c, ACLCheckAllPerm s c = None) →
  clients s !! c = Some cl → m_has CLIENT_MULTI cl = false → key ∈ keys → keyIsExpired s (m_db cl) key = false →
  Forall op_ok (os1 ++ o :: os2) → Forall (λ o, keeps c o = true) (os1 ++ o :: os2) →
  ∃ s1 s2, run s (O_command c watchCmd (name :: keys) f :: os1) = Some s1 ∧ run s1 (o :: os2) = Some s2 ∧
    (op_modifies s1 o (m_db cl, key) = true ∨ keyIsExpired s2 (m_db cl) key = true →
     ∃ cl2 s3 cl3, clients s2 !! c = Some cl2 ∧ step s2 (O_command c execCmd args f') = Some s3 ∧ clients s3 !! c = Some cl3 ∧
       keyspace s3 = keyspace s2 ∧ m_replies cl3 = m_replies cl2 ++ [refusal cl2]).
Proof.
  intros Hr Hn0 Hn Hsw Hacl Hc Hmu Hkey Hexp [Hok1 [Hoko Hok2]%Forall_cons]%Forall_app [Hk1 [Hko Hk2]%Forall_cons]%Forall_app.
  destruct (step_watch s n c cl name keys key f) as (s0 & Hs0 & [Hi0 Hb0 Hno0 Hm0] & Hg0); try done; [lia|]. cbn [Multi.run]. rewrite Hs0. cbn [mbind option_bind].
  destruct (run_ops_ok os1 s0 (n + 1) Hi0 Hb0) as (s1 & Hs1 & _ & _ & Hrest1); try done; [lia|lia|]. destruct (Hrest1 Hsw Hno0 Hm0) as [Hr1 Hg1].
  specialize (Hg1 c _ Hk1 Hg0). pose proof Hr1 as [Hi1 Hb1 Hno1 Hm1].
  destruct (step_ok s1 o (n + 1 + zlen os1)) as (s1' & Hs1' & [Hi1' Hb1' Hm1' Hg1']); try done; [lia|]. destruct (Hm1' Hsw Hno1 Hm1) as [Hno1' Hmk1'].
  destruct (run_ops_ok os2 s1' (n + 1 + zlen os1 + 1) Hi1' Hb1') as (s2 & Hs2 & Hi2 & _ & Hrest2); try done; [lia|lia|]. destruct (Hrest2 Hsw Hno1' Hmk1') as [_ Hg2].
  exists s1, s2. split; [done|]. rewrite Hs1'. split; [done|]. intros Hor. apply exec_refused with (m_db cl) key; [done|by apply Hg2, Hg1'|].
  destruct Hor as [Hmod|Hx]; [left|by right].
  destruct (step_tells s1 o (n + 1 + zlen os1) c (m_db cl, key)) as (s1'' & Hs1'' & Hd); try done; [lia|]. rewrite Hs1' in Hs1''. injection Hs1'' as <-.
  apply always_guarded. intros k. apply Hg2; [done|by left].
Qed.


End commands.

(** ** Examples *)

(** A server that starts, and some commands: GET, SET, DEL, FLUSHDB and, last, SWAPDB 0 1. *)
Definition start (ks : gmap (Z * bytes) (option Z)) (t : Z) : mserver := mk_mserver ∅ ∅ 1 ∅ ks t false false false false false.

Definition ex_effects (id : Z) (args : list bytes) (db : Z) : list effect :=
  match id, args with
  | 0, [_; key] => [E_access db key]
  | 1, [_; key; _] => [E_write db key None]
  | 2, [_; key] => [E_del db key]
  | 3, _ => [E_flush db]
  | _, _ => []
  end.

Definition ex_effects_swap (id : Z) (args : list bytes) (db : Z) : list effect :=
  match id with 4 => [E_swap 0 1] | _ => ex_effects id args db end.

Definition ex_acl (s : mserver) (c : Z) : option bytes := None.

Lemma ex_swapless : swapless ex_effects.
Proof. intros id args db. unfold ex_effects. repeat case_match; repeat constructor. Qed.

Lemma start_ready ks t : ready 0 (start ks t).
Proof.
  assert (∀ c cl, clients (start ks t) !! c = Some cl → False) as Hno by done.
  split; [split| | |]; try done.
  - by intros p [wk Hp].
  - intros k. split; [constructor|]. intros p. split; [by intros ?%not_elem_of_nil|]. by intros (wk & Hp & _).
Qed.

Lemma connect_ready n s c : ready n s → 0 ≤ n → clients s !! c = None → ready n (s <| clients := <[c := new_client]> (clients s) |>).
Proof.
  intros [Hi Hb Hno Hm] Hn Hc. split; [by apply minv_connect| |done|done].
  intros c' cl'. cbn. intros [[<- <-]|[Hne Hcl]]%lookup_insert_Some; [simpl; lia|]. by apply (Hb c').
Qed.

(** Two clients are connected and a key is there. *)
Definition ex_server : mserver :=
  let s := start {[(0, str "k") := None]} 100 in
  let s := s <| clients := <[1 := new_client]> (clients s) |> in
  s <| clients := <[2 := new_client]> (clients s) |>.

Lemma ex_ready : ready 0 ex_server.
Proof. apply connect_ready; [apply connect_ready; [apply start_ready|done|done]|done|done]. Qed.

Definition ex_set (c : Z) : op := O_command c (otherCmd 1) [str "SET"; str "k"; str "v"] 1.

Definition ex_queue : list op := [ex_set 1; O_command 2 (otherCmd 2) [str "DEL"; str "k"] 1; O_command 1 (otherCmd 0) [str "GET"; str "k"] 2].

Definition ex_history : list op :=
  [O_command 1 watchCmd [str "WATCH"; str "k"] 0; O_command 1 multiCmdProc [str "MULTI"] 0] ++ ex_queue ++
  [O_command 1 execCmd [str "EXEC"] 0; O_free 1].

Lemma multi_history_invariant_witness : zlen ex_history = 7 ∧
  ∃ s', run ex_effects 16 false ex_acl ex_server ex_history = Some s' ∧ minv s' ∧ bounded (0 + zlen ex_history) s'.
Proof.
  split; [reflexivity|]. apply multi_history_invariant; [apply ex_ready|apply ex_ready|done|done|]. repeat constructor; done.
Defined.

Definition ex_before : list op := [O_command 1 watchCmd [str "WATCH"; str "k"] 0; O_command 1 multiCmdProc [str "MULTI"] 0].

Lemma ex_modifies :
  (s1 ← run ex_effects 16 false ex_acl ex_server ex_before; Some (op_modifies ex_effects 16 false s1 (ex_set 2) (0, str "k"))) = Some true.
Proof. vm_compute. reflexivity. Qed.

Lemma watch_protects_witness :
  ∃ s1 s2, run ex_effects 16 false ex_acl ex_server ex_before = Some s1 ∧ run ex_effects 16 false ex_acl s1 [ex_set 2; O_time 5000] = Some s2 ∧
    ∃ cl2 s3 cl3, clients s2 !! 1 = Some cl2 ∧ step ex_effects 16 false ex_acl s2 (O_command 1 execCmd [str "EXEC"] 0) = Some s3 ∧ clients s3 !! 1 = Some cl3 ∧
      keyspace s3 = keyspace s2 ∧ m_replies cl3 = m_replies cl2 ++ [refusal cl2].
Proof.
  destruct (watch_protects ex_effects 16 false ex_acl ex_server 0 1 new_client (str "WATCH") [str "k"] (str "k") 0
    [O_command 1 multiCmdProc [str "MULTI"] 0] (ex_set 2) [O_time 5000] [str "EXEC"] 0) as (s1 & s2 & Hs1 & Hs2 & Hprot).
  - apply ex_ready.
  - lia.
  - vm_compute; discriminate.
  - apply ex_swapless.
  - done.
  - reflexivity.
  - reflexivity.
  - apply list_elem_of_here.
  - reflexivity.
  - repeat constructor; done.
  - repeat constructor; done.
  - exists s1, s2. split; [exact Hs1|]. split; [exact Hs2|]. apply Hprot. left.
    pose proof ex_modifies as Hm. unfold ex_before in Hm. rewrite Hs1 in Hm. by injection Hm as Hm.
Defined.

(** The two clients, with the first one in MULTI. *)
Definition ex_multi : mserver := ex_server <| clients := <[1 := multi_command new_client]> (clients ex_server) |>.

Lemma ex_multi_ready : minv ex_multi ∧ bounded 0 ex_multi.
Proof.
  pose proof ex_ready as [Hi Hb _ _]. split.
  - apply (minv_client ex_server 1 new_client (multi_command new_client) Hi); [reflexivity|reflexivity|]. by split; [left|constructor|].
  - intros c cl. unfold ex_multi. cbn [clients assign_to assign_clients]. intros [[<- <-]|[Hne Hcl]]%lookup_insert_Some; [done|]. by apply (Hb c).
Qed.


(** ** SWAPDB and the marks of expired keys *)

(** [touchWatchedKey] stops at the first client whose mark says that the key was expired when it was watched, if the key is there.  A mark that SWAPDB leaves
    behind hides the later clients: client 1 watches a key of database 0 that is expired; SWAPDB brings a live key of that name; client 2 watches
    it; client 3 writes it; and the transaction of client 2 runs. *)
Definition swap_history : list op :=
  [O_connect 1; O_connect 2; O_connect 3;
   O_command 1 watchCmd [str "WATCH"; str "k"] 0; O_command 3 (otherCmd 4) [str "SWAPDB"; str "0"; str "1"] 0;
   O_command 2 watchCmd [str "WATCH"; str "k"] 0; ex_set 3;
   O_command 2 multiCmdProc [str "MULTI"] 0; O_command 2 (otherCmd 0) [str "GET"; str "k"] 2; O_command 2 execCmd [str "EXEC"] 0].

Definition swap_start : mserver := start {[(0, str "k") := Some 50; (1, str "k") := None]} 100.

Lemma watch_missed_after_swap :
  (s ← run ex_effects_swap 16 false ex_acl swap_start swap_history; cl ← clients s !! 2; Some (m_replies cl)) = Some [R_ok; R_ok; R_queued; R_array 1].
Proof. vm_compute. reflexivity. Qed.
